(* ===== verification/_CoqProject ===== *)
-Q . S2P
Prelude.v
Trace.v
JsMap.v
JsSort.v
JsText.v
JsJson.v
CompositeDag.v
TunnelMessages.v
TunnelStream.v
TunnelServer.v
TunnelServerFacts.v
TunnelServerProps.v
TunnelClient.v
TunnelClientProps.v
CompositeApply.v
CompositeApplyProps.v
EvictStore.v
KvStore.v
KvStoreProps.v
KvLifecycle.v
ResponseCache.v
SlotAllocator.v
JsValues.v
AnthropicStream.v
AnthropicStreamProps.v
AnthropicChunks.v
AnthropicContent.v
AnthropicRequest.v
ProxyBody.v
AnthropicRequestProps.v
ResponsesApi.v
ProxyRoutes.v
ServiceAuth.v
ServiceAuthProps.v
KubeconfigLock.v
Kubeconfig.v
NodeRegistration.v
FleetTypes.v
FleetLease.v
FleetPressure.v
FleetPressureProps.v
FleetMigration.v
FleetMigrationProps.v
FleetLoop.v
FleetLoopProps.v
FleetExecutor.v
FleetExecutorProps.v
FleetPlacement.v
HostSidecars.v
PidIdentity.v
WorkloadTypes.v
ModelHost.v
ModelHostProps.v
Admission.v
WorkloadStore.v
InfraLayout.v
NodeDeadline.v
NodeRun.v
NodeRunProps.v
InfraLayoutProps.v
HostConditions.v
HostConditionsProps.v
WorkloadApply.v
WorkloadApplyProps.v
WorkloadFrame.v
Reconciler.v
ReconcilerProps.v
ReconcileLoop.v
ConsoleMask.v
Console.v
ConsoleProps.v
ProxyMeta.v
OpenaiProxy.v
OpenaiProxyProps.v
OpenaiProxySafety.v
RagSchedule.v
RagGuard.v
RagFetch.v
RagFetchProps.v
RagRun.v
