(* ===== verification/Prelude.v ===== *)
(** * llamactl: a verification library

    llamactl runs language-model workloads over a fleet of nodes.  This
    library models the parts of it whose correctness is a matter of state and
    order rather than of I/O, and proves what they promise.  Paths are under
    src/packages/.

    ** Parts and files

    A control plane keeps manifests of workloads, composites and node packages
    and converges the nodes to them; nodes register with it and reach it over
    a reverse tunnel; every node's proxy serves inference requests from
    engines, with stores of prompt-prefix slots and of whole responses; a
    supervisor per node watches pressure and moves workloads; pipelines fetch
    documents into vector stores for retrieval; a browser console shows all of
    it to an operator.

    Language and library, used by all components:
    - Prelude.v: results and effects, automation, list lemmas.  Trace.v:
      programs that keep a trace and only append to it.
    - JsMap.v, JsSort.v: what the code uses of [Map] (insertion order) and of
      [Array.prototype.sort] (stable).  JsText.v: string operations,
      [parseInt], printing of integers.  JsJson.v: values of
      [JSON.parse], [JSON.stringify] and its injectivity.  JsValues.v: what the
      code does with values it cast to a type without looking.

    The tunnel and identities (remote/src/tunnel, remote/src/server):
    - TunnelMessages.v: the frames of tunnel/messages.ts.  TunnelStream.v: the
      bounded async iterator that both ends use for subscriptions.
      In the first of them also handlers as state changes with outputs, and the
      relations they respect.  TunnelServer.v: tunnel-server.ts, every socket and timer
      callback a step of one state, with TunnelServerFacts.v and
      TunnelServerProps.v.  TunnelClient.v, TunnelClientProps.v:
      tunnel-client.ts with its reconnect loop.
    - ServiceAuth.v, ServiceAuthProps.v: server/auth.ts, bearers and the
      single-use tokens of worker calls.  NodeRegistration.v: bootstrap tokens and server/register.ts.
    - Kubeconfig.v: the edits of core/src/config/kubeconfig.ts.
      KubeconfigLock.v: the lock file around them, as
      interleaved steps of processes that can die.

    The inference proxy (core/src/openaiProxy.ts and what it calls):
    - AnthropicStream.v with AnthropicStreamProps.v, AnthropicChunks.v,
      AnthropicContent.v: anthropic/translateStream.ts.
      AnthropicRequest.v, AnthropicRequestProps.v: translateRequest.ts and
      translateResponse.ts.  ResponsesApi.v: core/src/responses.
    - EvictStore.v: the budget eviction loop against an interface
      ([EvictStore], [EvictLaws]) that KvStore.v and ResponseCache.v implement.
      KvStore.v, KvStoreProps.v, KvLifecycle.v: core/src/kvstore, over a world
      of rows and files.  ResponseCache.v: core/src/responsecache.
      SlotAllocator.v: kvstore/slotAllocator.ts.
    - ProxyBody.v: what is read from and written to bodies, and the identity
      of a request.  ProxyRoutes.v: the route map and its cache, with
      [listClusterRoutes] of workloadRuntime.ts.  ProxyMeta.v: epochs, windows
      and slot directories of workloads, trailers, budgets.
    - OpenaiProxy.v: [proxyOpenAI] from the request to the answer, composed of
      all of these; the environment answers its calls and may change what
      requests share between any two of them.  OpenaiProxyProps.v: slots and
      rows are given back.  OpenaiProxySafety.v: credentials and the answers
      that are remembered.

    Composites (remote/src/composite):
    - CompositeDag.v: dag.ts.  CompositeApply.v, CompositeApplyProps.v:
      apply.ts; every external call is a question to an arbitrary oracle.

    Workloads and hosts (remote/src/workload, remote/src/server,
    core/src/engines):
    - WorkloadTypes.v, WorkloadStore.v: manifests and their store.
      Admission.v: memory budgets.  WorkloadApply.v,
      WorkloadApplyProps.v, WorkloadFrame.v: workload/apply.ts.
    - HostSidecars.v, PidIdentity.v, HostConditions.v, HostConditionsProps.v:
      the records beside a host, and whose process a pid is.  ModelHost.v,
      ModelHostProps.v: server/modelhost.ts on the node.
    - NodeDeadline.v: deadlines of calls to nodes.  Reconciler.v,
      ReconcilerProps.v: one pass of reconciler.ts, over WorkloadApply.v.
      ReconcileLoop.v: the loop of passes in a process.
    - InfraLayout.v, InfraLayoutProps.v, NodeRun.v, NodeRunProps.v: packages on
      a node and how NodeRuns converge them; NodeRunProps.v is proved against
      the interface [InfraHost], which InfraLayoutProps.v implements.

    The fleet supervisor (fleet-supervisor/src):
    - FleetTypes.v; FleetLease.v (election), FleetPressure.v (pressure and
      degradation), FleetMigration.v (moves), FleetLoop.v (the tick),
      FleetExecutor.v (proposals), FleetPlacement.v (snapshots, placement),
      their theorems in the same file or in the one of the same name ending in
      Props.

    The console (remote/src/console):
    - ConsoleMask.v: redaction.  Console.v, ConsoleProps.v: guards, routes,
      allowlist and server.

    Retrieval (remote/src/rag/pipeline):
    - RagSchedule.v: store.ts and scheduler.ts.  RagGuard.v: the addresses that
      fetchers/ssrf-guard.ts blocks.  RagFetch.v, RagFetchProps.v:
      fetchers/http.ts with the rest of the guard.  RagRun.v: journal.ts,
      transforms/markdown-chunk.ts and runtime.ts.

    ** What the theorems show

    - Proxy: every slot leased and row reserved for a request is given back
      however the request ends, unless a trailer holds what the proxy never
      writes, and then the slot is lost; the client's bearer stays; only whole
      successful answers are remembered; a fresh route map serves exactly what
      the node and its healthy peers offer; translated streams keep the
      protocol and the content however the upstream was cut; translated
      requests say what was said.
    - Stores: eviction ends within budget or with everything in use and never
      touches a row in use; leases exclude each other; lookup returns the
      longest match; scan and sweep remove only what they may; allocated slots
      are distinct.
    - Tunnel: only connections that presented the bearer are registered or get
      calls; a request settles once; the client always has a socket, a timer or
      is stopped; queues stay within their limits; streams end once.
    - Identities: a service token verifies in its window, once, for its call
      only; a bootstrap token registers one node once; edits of the kubeconfig
      take effect one after the other as long as no lock file is moved aside.
    - Composites: an order contains everything once after all it depends on,
      and the queue loop ends; nothing starts before what it depends on was
      ready; a rollback tears down what was started, last first.
    - Workloads: nothing is stopped or started before admission under the
      node's lock; results tell what the node answered; a pass leaves a silent
      node alone, respects manifests on disk, acts on hosts only when their
      state asks for it, and does not repeat a failed first start; the loop of
      passes goes on; a host's processes are accounted for and its conditions
      tell what happened to it; NodeRuns converge.
    - Fleet: copies are removed only at the end of a move, the pressure verdict
      is the stated hysteresis, executed proposals follow a three-attempt
      machine, placement picks the best admissible node.
    - Retrieval: every request was cleared by the guard right before it, the
      guard blocks exactly the stated prefixes and reads every notation of an
      address; a crawl ends, stays on its origin with its bearer and delivers
      each page once; chunks keep the text within a bound; a run that repeats
      one without errors stores nothing; claims of composites on pipelines add
      up and go; only "@every" schedules are ever started.
    - Console: nothing reaches the backend but exposed procedures in the
      operator's session, and what it shows does not depend on secrets.

    ** Parameters

    [JSON.parse], the text decoder, digests, HMAC and base64url, random
    values, dates, [toFixed], [parseFloat], [localeCompare], [new URL],
    [Math.pow(0.5, x)], the schemas, YAML, tRPC's request handler and the
    router it calls, the operating system, engines, nodes and databases are
    parameters or oracles.  What a theorem needs of one is a hypothesis of it,
    and its witness gives a concrete function.

    ** Fuel and bounds

    Kahn's loop is given one step per component plus one
    ([topologicalOrder_fuel]), and [topologicalOrder_terminates] shows that
    this and any larger amount gives the same answer; loops over a buffer are
    given its length; a crawl and the scheduler are run for a number of turns,
    and [crawl_terminates] bounds the turns of the crawl.  All other recursion is structural.  JavaScript numbers
    used as counts, bytes and times are integers ([Z]); scores and delays,
    doubles in the code, are exact rationals ([Q]), so ties that only rounding
    would break are not modelled.

    ** Not modelled

    HTTP and tRPC servers, sockets, engines and child processes beyond the
    calls made of them; the CLI, the Electron application, MCP tools, the
    operations chat, vector stores, evaluation, training and the agents: they move
    data between the services modelled here.  Of the proxy: logs and counters,
    the HTTP of the slot client, and the opening of the stores.  SQL is
    modelled by what each statement does to the rows, and schema migrations
    are left out. *)

From stdpp Require Export prelude strings gmap list.
From Stdlib Require Export ZArith Lia.

#[global] Open Scope Z_scope.

(** ** Results and effects

    A JavaScript call either returns or throws.  [result] is the outcome of
    a pure call, [eff W] that of a call which also updates a world [W]:
    the updates made before a throw persist. *)

Inductive result (A : Type) : Type :=
| Ok (a : A)
| Err (msg : string).
Arguments Ok {A} a.
Arguments Err {A} msg.

Definition eff (W A : Type) : Type := W → W * result A.

#[export] Instance result_ret : MRet result := λ A a, Ok a.
#[export] Instance result_bind : MBind result := λ A B f m,
  match m with Ok a => f a | Err e => Err e end.
#[export] Instance result_fmap : FMap result := λ A B f m,
  match m with Ok a => Ok (f a) | Err e => Err e end.

#[export] Instance eff_ret W : MRet (eff W) := λ A a w, (w, Ok a).
#[export] Instance eff_bind W : MBind (eff W) := λ A B f m w,
  match m w with
  | (w', Ok a) => f a w'
  | (w', Err e) => (w', Err e)
  end.

Lemma eff_bind_eq {W A B} (m : eff W A) (f : A → eff W B) w :
  (m ≫= f) w = match m w with (w', Ok a) => f a w' | (w', Err e) => (w', Err e) end.
Proof. done. Qed.
Lemma eff_ret_eq {W A} (a : A) (w : W) : (mret a : eff W A) w = (w, Ok a).
Proof. done. Qed.

(** What a computation that returned did. *)
Lemma eff_bind_ok {W A B} (m : eff W A) (f : A → eff W B) w w' b :
  (m ≫= f) w = (w', Ok b) ↔ ∃ w1 a, m w = (w1, Ok a) ∧ f a w1 = (w', Ok b).
Proof. rewrite eff_bind_eq. destruct (m w) as [w1 [a|e]]; naive_solver. Qed.

Definition is_ok {A} (r : result A) : bool :=
  match r with Ok _ => true | Err _ => false end.

(** [try { m } catch (e) { h(e) }] *)
Definition try_catch {W A} (m : eff W A) (h : string → eff W A) : eff W A := λ w,
  match m w with
  | (w', Ok a) => (w', Ok a)
  | (w', Err e) => h e w'
  end.

Definition throw {W A} (msg : string) : eff W A := λ w, (w, Err msg).
Definition modify {W} (f : W → W) : eff W unit := λ w, (f w, Ok tt).
Definition gets {W A} (f : W → A) : eff W A := λ w, (w, Ok (f w)).

Lemma try_catch_total {W A} (m : eff W A) (h : string → eff W A) w :
  (∀ e w', is_ok (h e w').2 = true) → is_ok (try_catch m h w).2 = true.
Proof. intros H. unfold try_catch. destruct (m w) as [w' [a|e]]; simpl; auto. Qed.

(** ** Truthiness of optional strings *)

Definition truthy (s : option string) : bool :=
  match s with Some x => negb (bool_decide (x = ""%string)) | None => false end.

(** ** Automation *)

(** Case analysis on the outermost [match]/[if] of the goal or a hypothesis. *)
Ltac break_match_goal :=
  match goal with
  | |- context [match ?x with _ => _ end] =>
      lazymatch x with
      | context [match _ with _ => _ end] => fail
      | _ => destruct x eqn:?
      end
  end.

Ltac break_match_hyp :=
  match goal with
  | H : context [match ?x with _ => _ end] |- _ =>
      lazymatch x with
      | context [match _ with _ => _ end] => fail
      | _ => destruct x eqn:?
      end
  end.

Ltac break_match := first [break_match_goal | break_match_hyp].
Ltac break_all := repeat (break_match; simplify_eq/=; try done).

(** Turn boolean tests of the code into propositions. *)
Ltac to_prop :=
  repeat match goal with
  | H : _ && _ = true |- _ => apply andb_true_iff in H; destruct H
  | H : _ && _ = false |- _ => apply andb_false_iff in H
  | H : _ || _ = false |- _ => apply orb_false_iff in H; destruct H
  | H : _ || _ = true |- _ => apply orb_true_iff in H
  | H : negb _ = true |- _ => apply negb_true_iff in H
  | H : negb _ = false |- _ => apply negb_false_iff in H
  | H : (_ <=? _)%Z = true |- _ => apply Z.leb_le in H
  | H : (_ <=? _)%Z = false |- _ => apply Z.leb_gt in H
  | H : (_ <? _)%Z = true |- _ => apply Z.ltb_lt in H
  | H : (_ <? _)%Z = false |- _ => apply Z.ltb_ge in H
  | H : (_ =? _)%Z = true |- _ => apply Z.eqb_eq in H
  | H : (_ =? _)%Z = false |- _ => apply Z.eqb_neq in H
  | H : bool_decide _ = true |- _ => apply bool_decide_eq_true in H
  | H : bool_decide _ = false |- _ => apply bool_decide_eq_false in H
  end.

Create HintDb llamactl.
Create Rewrite HintDb llamactl.

(** ** Lists *)

(** Number of occurrences, as an integer. *)
Fixpoint countZ {A} `{EqDecision A} (x : A) (l : list A) : Z :=
  match l with
  | [] => 0
  | y :: l' => (if decide (x = y) then 1 else 0) + countZ x l'
  end.

(** Sum of a measure over a list ([reduce((sum, x) => sum + f(x), 0)]). *)
Fixpoint sumZ {A} (f : A → Z) (l : list A) : Z :=
  match l with [] => 0 | x :: l' => f x + sumZ f l' end.

Section list_lemmas.
Context {A : Type}.

Lemma countZ_nonneg `{EqDecision A} (x : A) l : 0 ≤ countZ x l.
Proof. induction l; simpl; [lia|]. case_decide; lia. Qed.

Lemma countZ_pos `{EqDecision A} (x : A) l : 0 < countZ x l ↔ x ∈ l.
Proof.
  induction l as [|y l IH]; simpl.
  - split; [lia|]. by intros ?%elem_of_nil.
  - rewrite elem_of_cons. pose proof (countZ_nonneg x l).
    case_decide; subst; [split; [auto|lia]|]. rewrite <-IH.
  split; [intros ?; right; lia|]. intros [?|?]; [done|lia].
Qed.

Lemma countZ_zero `{EqDecision A} (x : A) l : x ∉ l → countZ x l = 0.
Proof. intros H. pose proof (countZ_nonneg x l). pose proof (countZ_pos x l). 
  destruct (decide (0 < countZ x l)); [tauto|lia]. Qed.

Lemma sumZ_app (f : A → Z) l k : sumZ f (l ++ k) = sumZ f l + sumZ f k.
Proof. induction l; simpl; lia. Qed.

Lemma sumZ_perm (f : A → Z) l k : l ≡ₚ k → sumZ f l = sumZ f k.
Proof. induction 1; simpl; lia. Qed.

Lemma sumZ_nonneg (f : A → Z) l : (∀ x, x ∈ l → 0 ≤ f x) → 0 ≤ sumZ f l.
Proof.
  induction l as [|x l IH]; intros H; simpl; [lia|].
  pose proof (H x ltac:(left)). specialize (IH ltac:(intros; apply H; by right)). lia.
Qed.

Lemma sumZ_filter_split (f : A → Z) (P : A → Prop) `{!∀ x, Decision (P x)} l :
  sumZ f l = sumZ f (filter P l) + sumZ f (filter (λ x, ¬ P x) l).
Proof.
  induction l as [|x l IH]; [done|]. rewrite !filter_cons. simpl.
  repeat case_decide; simpl; try tauto; lia.
Qed.

Lemma list_filter_all (P : A → Prop) `{!∀ x, Decision (P x)} (l : list A) :
  (∀ x : A, x ∈ l → P x) → filter P l = l.
Proof.
  induction l as [|x l IH]; intros Hall; [done|].
  rewrite filter_cons_True by (apply Hall; left). f_equal. apply IH. intros y Hy. apply Hall. by right.
Qed.

(** [l] with the elements up to and including the first match cut out. *)
Lemma elem_of_split_first `{EqDecision A} (x : A) l :
  x ∈ l → ∃ l1 l2, l = l1 ++ x :: l2 ∧ x ∉ l1.
Proof.
  induction l as [|y l IH]; [by intros ?%elem_of_nil|].
  destruct (decide (x = y)) as [->|Hne].
  - exists [], l. split; [done|]. apply not_elem_of_nil.
  - intros [?|Hin]%elem_of_cons; [done|]. destruct (IH Hin) as (l1&l2&->&?).
    exists (y :: l1), l2. split; [done|]. by apply not_elem_of_cons.
Qed.
End list_lemmas.

#[export] Hint Resolve countZ_nonneg : llamactl.
#[export] Hint Rewrite @sumZ_app : llamactl.
