(* ===== verification/Trace.v ===== *)
(** * Programs that leave a trace

    Computations over a state that keeps a list of observations and only ever
    appends to it: what all that is appended satisfies, and how a run splits
    into those of its parts. *)

From S2P Require Import Prelude.

#[local] Open Scope list_scope.

Section trace.
Context {S O : Type} (obs : S → list O).

(** [m] appends to the trace, and only observations that satisfy [P]. *)
Definition appends {A} (P : O → Prop) (m : eff S A) : Prop :=
  ∀ s, ∃ seg, obs (m s).1 = obs s ++ seg ∧ Forall P seg.

Lemma appends_still {A} P (m : eff S A) : (∀ s, obs (m s).1 = obs s) → appends P m.
Proof. intros H s. exists []. by rewrite app_nil_r. Qed.

Lemma appends_ret {A} P (a : A) : appends P (mret a).
Proof. by apply appends_still. Qed.

Lemma appends_throw {A} P msg : appends P (throw msg : eff S A).
Proof. by apply appends_still. Qed.

Lemma appends_one {A} (P : O → Prop) (m : eff S A) :
  (∀ s, ∃ o, obs (m s).1 = obs s ++ [o] ∧ P o) → appends P m.
Proof. intros H s. destruct (H s) as (o&E&Ho). exists [o]. by repeat constructor. Qed.

Lemma appends_bind {A B} P (m : eff S A) (f : A → eff S B) :
  appends P m → (∀ a, appends P (f a)) → appends P (m ≫= f).
Proof.
  intros Hm Hf s. rewrite eff_bind_eq. destruct (Hm s) as (seg1&E1&F1).
  destruct (m s) as [s1 [a|e]]; simpl in *; [|by exists seg1].
  destruct (Hf a s1) as (seg2&E2&F2). exists (seg1 ++ seg2).
  rewrite E2, E1, app_assoc. split; [done|by apply Forall_app].
Qed.

Lemma appends_try {A} P (m : eff S A) (h : string → eff S A) :
  appends P m → (∀ e, appends P (h e)) → appends P (try_catch m h).
Proof.
  intros Hm Hh s. unfold try_catch. destruct (Hm s) as (seg1&E1&F1).
  destruct (m s) as [s1 [a|e]]; simpl in *; [by exists seg1|].
  destruct (Hh e s1) as (seg2&E2&F2). exists (seg1 ++ seg2).
  rewrite E2, E1, app_assoc. split; [done|by apply Forall_app].
Qed.

Lemma appends_weaken {A} (P Q : O → Prop) (m : eff S A) : (∀ o, P o → Q o) → appends P m → appends Q m.
Proof. intros HPQ Hm s. destruct (Hm s) as (seg&E&F). exists seg. split; [done|]. by eapply Forall_impl. Qed.

(** ** Specifications

    [m] appends a segment that, with its outcome, satisfies [Q]. *)
Definition spec {A} (m : eff S A) (Q : list O → result A → Prop) : Prop :=
  ∀ s, ∃ seg, obs (m s).1 = obs s ++ seg ∧ Q seg (m s).2.

Lemma spec_run {A} (m : eff S A) Q s s' r : spec m Q → m s = (s', r) → ∃ seg, obs s' = obs s ++ seg ∧ Q seg r.
Proof. intros H E. specialize (H s). by rewrite E in H. Qed.

Lemma spec_weaken {A} (m : eff S A) (Q Q' : list O → result A → Prop) :
  spec m Q → (∀ seg r, Q seg r → Q' seg r) → spec m Q'.
Proof. intros H HQ s. destruct (H s) as (seg&E&Hq). exists seg. split; [done|by apply HQ]. Qed.

Lemma spec_and {A} (m : eff S A) (Q Q' : list O → result A → Prop) :
  spec m Q → spec m Q' → spec m (λ seg r, Q seg r ∧ Q' seg r).
Proof.
  intros H H' s. destruct (H s) as (seg&E&Hq), (H' s) as (seg'&E'&Hq'). exists seg. split; [done|].
  rewrite E in E'. by apply app_inv_head in E' as <-.
Qed.

Lemma spec_appends {A} (m : eff S A) P : appends P m → spec m (λ seg _, Forall P seg).
Proof. done. Qed.

Lemma spec_ret {A} (a : A) (Q : list O → result A → Prop) : Q [] (Ok a) → spec (mret a) Q.
Proof. intros H s. exists []. by rewrite app_nil_r. Qed.

Lemma spec_one {A} (m : eff S A) (Q : list O → result A → Prop) :
  (∀ s, ∃ o, obs (m s).1 = obs s ++ [o] ∧ Q [o] (m s).2) → spec m Q.
Proof. intros H s. destruct (H s) as (o&E&Ho). by exists [o]. Qed.

Lemma spec_bind {A B} (m : eff S A) (f : A → eff S B) (Q1 : list O → result A → Prop) (Q : list O → result B → Prop) :
  spec m Q1 → (∀ seg e, Q1 seg (Err e) → Q seg (Err e)) →
  (∀ seg a, Q1 seg (Ok a) → spec (f a) (λ seg2 r, Q (seg ++ seg2) r)) → spec (m ≫= f) Q.
Proof.
  intros Hm He Hf s. rewrite eff_bind_eq. destruct (Hm s) as (seg1&E1&H1).
  destruct (m s) as [s1 [a|e]]; simpl in *; [|exists seg1; split; [done|by apply He]].
  destruct (Hf seg1 a H1 s1) as (seg2&E2&H2). exists (seg1 ++ seg2). by rewrite E2, E1, app_assoc.
Qed.

Lemma spec_try {A} (m : eff S A) (h : string → eff S A) (Q1 Q : list O → result A → Prop) :
  spec m Q1 → (∀ seg a, Q1 seg (Ok a) → Q seg (Ok a)) →
  (∀ seg e, Q1 seg (Err e) → spec (h e) (λ seg2 r, Q (seg ++ seg2) r)) → spec (try_catch m h) Q.
Proof.
  intros Hm Ha Hh s. unfold try_catch. destruct (Hm s) as (seg1&E1&H1).
  destruct (m s) as [s1 [a|e]]; simpl in *; [exists seg1; split; [done|by apply Ha]|].
  destruct (Hh seg1 e H1 s1) as (seg2&E2&H2). exists (seg1 ++ seg2). by rewrite E2, E1, app_assoc.
Qed.

Lemma appends_run {A} P (m : eff S A) s s' r :
  appends P m → m s = (s', r) → ∃ seg, obs s' = obs s ++ seg ∧ Forall P seg.
Proof. intros H E. specialize (H s). by rewrite E in H. Qed.
End trace.

(** A run of a sequence is the run of its first part, alone when that throws. *)
Lemma bind_run {S A B} (m : eff S A) (f : A → eff S B) s s' r :
  (m ≫= f) s = (s', r) →
  (∃ e, m s = (s', Err e) ∧ r = Err e) ∨ (∃ s1 a, m s = (s1, Ok a) ∧ f a s1 = (s', r)).
Proof. rewrite eff_bind_eq. destruct (m s) as [s1 [a|e]]; naive_solver. Qed.

(** The part of an appended trace that comes after a part without such. *)
Lemma Forall_not_split {O} (P : O → Prop) l1 l2 pre o post :
  Forall P l1 → ¬ P o → l1 ++ l2 = pre ++ o :: post → ∃ pre', pre = l1 ++ pre' ∧ l2 = pre' ++ o :: post.
Proof.
  intros H. revert pre. induction H as [|x l1 Hx _ IH]; intros pre Ho E; [by exists pre|].
  destruct pre as [|y pre]; injection E as <- E; [done|]. destruct (IH pre Ho E) as (pre'&->&->). by exists pre'.
Qed.
