(* ===== verification/JsMap.v ===== *)
(** * Insertion-ordered maps

    The JavaScript [Map]: iteration follows the order in which keys were
    first inserted, [set] on a present key keeps its position.  The model is
    an association list, with [keys], [get], [set], [has] and [delete]. *)

From S2P Require Import Prelude.

Section map.
Context {K V : Type} `{EqDecision K}.

Definition jsmap : Type := list (K * V).

Definition jm_keys (m : jsmap) : list K := m.*1.

Fixpoint jm_get (m : jsmap) (k : K) : option V :=
  match m with
  | [] => None
  | (k', v) :: m' => if decide (k = k') then Some v else jm_get m' k
  end.

Definition jm_has (m : jsmap) (k : K) : bool :=
  match jm_get m k with Some _ => true | None => false end.

Fixpoint jm_set (m : jsmap) (k : K) (v : V) : jsmap :=
  match m with
  | [] => [(k, v)]
  | (k', v') :: m' =>
      if decide (k = k') then (k', v) :: m' else (k', v') :: jm_set m' k v
  end.

Fixpoint jm_delete (m : jsmap) (k : K) : jsmap :=
  match m with
  | [] => []
  | (k', v') :: m' => if decide (k = k') then m' else (k', v') :: jm_delete m' k
  end.

(** The representation invariant: no key twice. *)
Definition jm_wf (m : jsmap) : Prop := NoDup (jm_keys m).

Lemma jm_get_set m k v j :
  jm_get (jm_set m k v) j = if decide (j = k) then Some v else jm_get m j.
Proof.
  induction m as [|[k' v'] m IH]; simpl; [by repeat case_decide|].
  repeat case_decide; subst; simpl; repeat case_decide; congruence.
Qed.

Lemma jm_get_set_eq m k v : jm_get (jm_set m k v) k = Some v.
Proof. rewrite jm_get_set. by case_decide. Qed.

Lemma jm_get_set_ne m k v j : j ≠ k → jm_get (jm_set m k v) j = jm_get m j.
Proof. intros. rewrite jm_get_set. by case_decide. Qed.

Lemma jm_get_Some_keys m k v : jm_get m k = Some v → k ∈ jm_keys m.
Proof.
  induction m as [|[k' v'] m IH]; simpl; [done|].
  case_decide; subst; [left|]. intros. right. by apply IH.
Qed.

Lemma jm_get_keys m k : k ∈ jm_keys m ↔ is_Some (jm_get m k).
Proof.
  split; [|by intros [v ?%jm_get_Some_keys]].
  induction m as [|[k' v'] m IH]; simpl; [by intros ?%elem_of_nil|].
  intros [->|?]%elem_of_cons; case_decide; eauto; naive_solver.
Qed.

Lemma jm_get_None m k : jm_get m k = None ↔ k ∉ jm_keys m.
Proof. rewrite jm_get_keys, <-eq_None_not_Some. done. Qed.

Lemma jm_has_keys m k : jm_has m k = true ↔ k ∈ jm_keys m.
Proof. rewrite jm_get_keys. unfold jm_has. destruct (jm_get m k); naive_solver. Qed.

Lemma jm_has_false m k : jm_has m k = false ↔ k ∉ jm_keys m.
Proof. rewrite <-jm_has_keys. destruct (jm_has m k); naive_solver. Qed.

Lemma jm_keys_set m k v :
  jm_keys (jm_set m k v) = if decide (k ∈ jm_keys m) then jm_keys m else jm_keys m ++ [k].
Proof.
  induction m as [|[k' v'] m IH]; simpl; [done|].
  destruct (decide (k = k')) as [->|Hne]; simpl.
  - rewrite decide_True by left. done.
  - rewrite IH. destruct (decide (k ∈ jm_keys m)).
    + by rewrite decide_True by (by right).
    + rewrite decide_False; [done|]. intros [?|?]%elem_of_cons; done.
Qed.

Lemma jm_keys_set_in m k v : k ∈ jm_keys m → jm_keys (jm_set m k v) = jm_keys m.
Proof. intros. by rewrite jm_keys_set, decide_True. Qed.

Lemma jm_elem_keys_set m k v j : j ∈ jm_keys (jm_set m k v) ↔ j = k ∨ j ∈ jm_keys m.
Proof. rewrite jm_keys_set. case_decide; [naive_solver|]. set_solver. Qed.

Lemma jm_set_wf m k v : jm_wf m → jm_wf (jm_set m k v).
Proof.
  unfold jm_wf. intros H. rewrite jm_keys_set. case_decide; [done|].
  apply NoDup_app. repeat split; [done| |apply NoDup_singleton]. set_solver.
Qed.

Lemma jm_elem_delete m k p : p ∈ jm_delete m k → p ∈ m.
Proof.
  induction m as [|[k' v'] m IH]; simpl; [done|].
  case_decide; [by right|]. rewrite !elem_of_cons. naive_solver.
Qed.

Lemma jm_delete_keys m k j : jm_wf m → j ∈ jm_keys (jm_delete m k) ↔ j ≠ k ∧ j ∈ jm_keys m.
Proof.
  unfold jm_wf. induction m as [|[k' v'] m IH]; simpl.
  - intros _. split; [by intros ?%elem_of_nil|by intros [_ ?%elem_of_nil]].
  - intros [Hk' Hm]%NoDup_cons. case_decide; subst; simpl.
    + rewrite elem_of_cons. split; [|naive_solver].
      intros Hj. split; [congruence|by right].
    + rewrite !elem_of_cons, IH by done. naive_solver.
Qed.

Lemma jm_delete_wf m k : jm_wf m → jm_wf (jm_delete m k).
Proof.
  unfold jm_wf. induction m as [|[k' v'] m IH]; simpl; [done|].
  intros [Hk' Hm]%NoDup_cons. case_decide; [done|]. simpl.
  apply NoDup_cons. split; [|auto].
  intros Hin. apply (jm_delete_keys m k k') in Hin as [_ ?]; done.
Qed.

Lemma jm_get_delete m k j :
  jm_wf m → jm_get (jm_delete m k) j = if decide (j = k) then None else jm_get m j.
Proof.
  unfold jm_wf. induction m as [|[k' v'] m IH]; simpl; [by case_decide|].
  intros [Hk' Hm]%NoDup_cons. destruct (decide (k = k')) as [->|Hne].
  - case_decide; [subst; by apply jm_get_None|done].
  - simpl. rewrite IH by done. repeat case_decide; congruence.
Qed.

Lemma jm_get_elem m k v : jm_wf m → jm_get m k = Some v ↔ (k, v) ∈ m.
Proof.
  unfold jm_wf. induction m as [|[k' v'] m IH]; simpl; intros Hwf.
  - split; [done|by intros ?%elem_of_nil].
  - apply NoDup_cons in Hwf as [Hk' Hm]. rewrite elem_of_cons. case_decide; subst.
    + split; [intros; left; congruence|]. intros [?|Hin]; [congruence|].
      destruct Hk'. apply list_elem_of_fmap. by exists (k', v).
    + rewrite IH by done. naive_solver.
Qed.

Lemma jm_get_app_None (m1 m2 : jsmap) k :
  jm_get m1 k = None → jm_get (m1 ++ m2) k = jm_get m2 k.
Proof. induction m1 as [|[k' v'] m1 IH]; simpl; [done|]. by case_decide. Qed.
End map.

Arguments jsmap : clear implicits.

#[export] Hint Resolve jm_set_wf jm_delete_wf : llamactl.
#[export] Hint Rewrite @jm_get_set_eq : llamactl.
