(* ===== verification/JsSort.v ===== *)
(** * [Array.prototype.sort] with a comparator

    The sort is stable: elements that compare equal keep their order.  For a
    comparator that is a total preorder the result is the unique stable
    ordering, so the insertion sort below computes what any engine does. *)

From S2P Require Import Prelude.
From Stdlib Require Export Sorted.

Section sort.
Context {A : Type} (cmp : A → A → Z).

(** [cmp(x, y) <= 0]: [x] may stay before [y]. *)
Definition cmp_le (x y : A) : Prop := cmp x y ≤ 0.

Fixpoint sort_insert (x : A) (l : list A) : list A :=
  match l with
  | [] => [x]
  | y :: l' => if cmp x y <=? 0 then x :: y :: l' else y :: sort_insert x l'
  end.

Definition js_sort (l : list A) : list A := foldr sort_insert [] l.

Lemma sort_insert_perm x l : sort_insert x l ≡ₚ x :: l.
Proof.
  induction l as [|y l IH]; simpl; [done|]. case_match; [done|].
  rewrite IH. apply Permutation_swap.
Qed.

Lemma js_sort_perm l : js_sort l ≡ₚ l.
Proof. induction l; simpl; [done|]. rewrite sort_insert_perm. by f_equiv. Qed.

Lemma elem_of_js_sort x l : x ∈ js_sort l ↔ x ∈ l.
Proof. by rewrite js_sort_perm. Qed.

Lemma js_sort_NoDup l : NoDup l → NoDup (js_sort l).
Proof. by rewrite js_sort_perm. Qed.

Lemma js_sort_length l : length (js_sort l) = length l.
Proof. by rewrite js_sort_perm. Qed.

(** What ECMAScript asks of a comparator, on the elements it is used on. *)
Record cmp_ok (P : A → Prop) : Prop := {
  cmp_total : ∀ x y, P x → P y → cmp_le x y ∨ cmp_le y x;
  cmp_trans : ∀ x y z, P x → P y → P z → cmp_le x y → cmp_le y z → cmp_le x z
}.

Section sorted.
Context (P : A → Prop) (Hok : cmp_ok P).

Lemma sort_insert_sorted x l :
  P x → Forall P l → StronglySorted cmp_le l → StronglySorted cmp_le (sort_insert x l).
Proof.
  induction l as [|y l IH]; simpl; intros Hx Hl Hs; [repeat constructor|].
  apply Forall_cons in Hl as [Hy Hl]. inversion Hs as [|? ? Hs' Hall]; subst.
  destruct (cmp x y <=? 0) eqn:E; to_prop.
  - constructor; [done|]. constructor; [exact E|].
    rewrite Forall_forall in *. intros z Hz. specialize (Hall z Hz).
    by eapply (cmp_trans P Hok x y z); eauto.
  - constructor; [by apply IH|]. rewrite sort_insert_perm. constructor; [|done].
    destruct (cmp_total P Hok x y Hx Hy); [unfold cmp_le in *; lia|done].
Qed.

Lemma js_sort_sorted l : Forall P l → StronglySorted cmp_le (js_sort l).
Proof.
  induction l as [|x l IH]; simpl; intros Hl; [constructor|].
  apply Forall_cons in Hl as [Hx Hl]. apply sort_insert_sorted; [done| |by apply IH].
  by rewrite js_sort_perm.
Qed.
End sorted.

(** A sorted list is left as it is. *)
Lemma js_sort_id l : StronglySorted cmp_le l → js_sort l = l.
Proof.
  induction 1 as [|x l Hs IH Hall]; simpl; [done|]. rewrite IH.
  destruct l as [|y l]; simpl; [done|]. apply Forall_cons in Hall as [Hxy _].
  unfold cmp_le in Hxy. by rewrite (proj2 (Z.leb_le _ _) Hxy).
Qed.

(** Stability: the elements of a class on which [cmp] never reorders keep
    their relative order. *)
Lemma sort_insert_filter (Q : A → Prop) `{!∀ x, Decision (Q x)} x l :
  (∀ y z, Q y → Q z → cmp_le y z) →
  filter Q (sort_insert x l) = filter Q (x :: l).
Proof.
  intros HQ. induction l as [|y l IH]; simpl; [done|].
  case_match eqn:E; [done|]. to_prop. rewrite (filter_cons _ y), IH, !filter_cons.
  repeat case_decide; try done. specialize (HQ x y ltac:(done) ltac:(done)).
  unfold cmp_le in HQ. lia.
Qed.

Lemma js_sort_stable (Q : A → Prop) `{!∀ x, Decision (Q x)} l :
  (∀ y z, Q y → Q z → cmp_le y z) → filter Q (js_sort l) = filter Q l.
Proof.
  intros HQ. induction l as [|x l IH]; simpl; [done|].
  rewrite sort_insert_filter by done. rewrite !filter_cons, IH. done.
Qed.

(** The first element of the sorted list is least. *)
Lemma js_sort_head P l x k :
  cmp_ok P → Forall P l → js_sort l = x :: k → ∀ y, y ∈ l → y = x ∨ cmp_le x y.
Proof.
  intros Hok Hl Heq y Hy. pose proof (js_sort_sorted P Hok l Hl) as Hs.
  rewrite Heq in Hs. inversion Hs as [|? ? _ Hall]; subst.
  rewrite <-elem_of_js_sort, Heq, elem_of_cons in Hy. destruct Hy as [->|Hy]; [by left|].
  right. by eapply Forall_forall in Hall.
Qed.
End sort.

Arguments cmp_ok {A} cmp P.

#[export] Hint Resolve js_sort_perm js_sort_NoDup : llamactl.

(** A comparator given by the difference of integer keys is a total preorder. *)
Lemma cmp_ok_key {A} (f : A → Z) (P : A → Prop) : cmp_ok (λ x y, f x - f y) P.
Proof. split; unfold cmp_le; intros; lia. Qed.
#[export] Hint Resolve cmp_ok_key : llamactl.

(** ** Comparators that agree with themselves reversed *)

Record cmp_order {A} (cmp : A → A → Z) : Prop := {
  co_sgn : ∀ x y, Z.sgn (cmp y x) = - Z.sgn (cmp x y);
  co_trans : ∀ x y z, cmp x y ≤ 0 → cmp y z ≤ 0 → cmp x z ≤ 0
}.

Lemma cmp_order_ok {A} (cmp : A → A → Z) : cmp_order cmp → cmp_ok cmp (λ _, True).
Proof.
  intros [Hs Ht]. split; unfold cmp_le.
  - intros x y _ _. specialize (Hs x y). lia.
  - intros x y z _ _ _. apply Ht.
Qed.

(** Ties of the first comparator are broken by the second. *)
Definition cmp_lex {A} (c1 c2 : A → A → Z) (x y : A) : Z := if c1 x y =? 0 then c2 x y else c1 x y.

Lemma cmp_lex_order {A} (c1 c2 : A → A → Z) : cmp_order c1 → cmp_order c2 → cmp_order (cmp_lex c1 c2).
Proof.
  intros [H1 T1] [H2 T2]. unfold cmp_lex. split.
  - intros x y. pose proof (H1 x y). pose proof (H2 x y). repeat case_match; lia.
  - intros x y z Hxy Hyz. pose proof (T1 x y z). pose proof (T1 y z x). pose proof (T1 z x y). pose proof (T2 x y z).
    pose proof (H1 x y). pose proof (H1 y z). pose proof (H1 x z).
    destruct (c1 x y =? 0) eqn:E1; destruct (c1 y z =? 0) eqn:E2; destruct (c1 x z =? 0) eqn:E3; to_prop; lia.
Qed.

Lemma cmp_order_key {A} (f : A → Z) : cmp_order (λ x y, f x - f y).
Proof. split; intros; lia. Qed.

Lemma cmp_order_flip {A} (c : A → A → Z) : cmp_order c → cmp_order (λ x y, c y x).
Proof. intros [Hs Ht]. split; [intros x y; specialize (Hs x y); lia|]. intros x y z Hxy Hyz. by apply (Ht z y x). Qed.

Lemma cmp_order_map {A B} (f : A → B) (c : B → B → Z) : cmp_order c → cmp_order (λ x y, c (f x) (f y)).
Proof. intros [Hs Ht]. split; intros; eauto. Qed.

#[export] Hint Resolve cmp_order_ok cmp_lex_order cmp_order_key cmp_order_flip cmp_order_map : llamactl.
