(* ===== verification/JsText.v ===== *)
(** * Texts

    The comparison of strings, [trim], [parseInt] and [String] of an integer,
    as the language defines them on the texts the code meets: single-byte
    characters and integers that a double represents exactly. *)

From S2P Require Import Prelude.
From stdpp Require Export pretty.
From Stdlib Require Import Ascii.

#[local] Open Scope string_scope.
#[local] Open Scope list_scope.
#[local] Open Scope Z_scope.

(** ** [<] on strings *)

Definition str_lt (a b : string) : Prop := String.compare a b = Lt.
#[export] Instance str_lt_dec a b : Decision (str_lt a b).
Proof. unfold str_lt, Decision. destruct (String.compare a b); by constructor. Defined.

Lemma ascii_lt_trans a b c : Ascii.compare a b = Lt → Ascii.compare b c = Lt → Ascii.compare a c = Lt.
Proof. unfold Ascii.compare. rewrite !N.compare_lt_iff. lia. Qed.

Lemma str_lt_trans a b c : str_lt a b → str_lt b c → str_lt a c.
Proof.
  unfold str_lt. revert b c. induction a as [|x a IH]; intros [|y b] [|z c]; simpl; try done.
  destruct (Ascii.compare x y) eqn:Exy; [apply Ascii.compare_eq_iff in Exy as <-| |done].
  - destruct (Ascii.compare x z); [apply IH|done|done].
  - intros _. destruct (Ascii.compare y z) eqn:Eyz; [apply Ascii.compare_eq_iff in Eyz as <-; by rewrite Exy| |done].
    by rewrite (ascii_lt_trans x y z).
Qed.

Lemma str_compare_refl a : String.compare a a = Eq.
Proof.
  pose proof (String.compare_antisym a a) as H. by destruct (String.compare a a).
Qed.

Lemma str_lt_irrefl a : ¬ str_lt a a.
Proof. unfold str_lt. by rewrite str_compare_refl. Qed.

Lemma str_lt_total a b : str_lt a b ∨ a = b ∨ str_lt b a.
Proof.
  unfold str_lt. rewrite (String.compare_antisym b a).
  destruct (String.compare a b) eqn:E; [|by left|by right; right].
  right. left. by apply String.compare_eq_iff.
Qed.

(** ** Concatenation and characters *)

(** [c] does not occur in [s]. *)
Fixpoint char_free (c : ascii) (s : string) : bool :=
  match s with
  | EmptyString => true
  | String d s' => negb (bool_decide (d = c)) && char_free c s'
  end.

Lemma append_char_inj c s1 s2 r1 r2 :
  char_free c s1 = true → char_free c s2 = true →
  s1 +:+ String c r1 = s2 +:+ String c r2 → s1 = s2 ∧ r1 = r2.
Proof.
  revert s2. induction s1 as [|d s1 IH]; intros [|d2 s2]; simpl; intros H1 H2 Heq; to_prop;
    simplify_eq; try done. destruct (IH s2) as [-> ->]; done.
Qed.

Lemma string_app_assoc s1 s2 s3 : (s1 +:+ s2) +:+ s3 = s1 +:+ (s2 +:+ s3).
Proof.
  induction s1 as [|c s1 IH]; [done|].
  change (String c ((s1 +:+ s2) +:+ s3) = String c (s1 +:+ (s2 +:+ s3))). by rewrite IH.
Qed.

Lemma string_app_cons c a b : String c a +:+ b = String c (a +:+ b).
Proof. done. Qed.

Lemma string_app_empty s : s +:+ "" = s.
Proof. induction s as [|c s IH]; [done|]. change (String c (s +:+ "") = String c s). by rewrite IH. Qed.

Lemma char_free_app c s1 s2 : char_free c (s1 +:+ s2) = char_free c s1 && char_free c s2.
Proof.
  induction s1 as [|d s1 IH]; [done|].
  change (char_free c (String d s1 +:+ s2)) with
    (negb (bool_decide (d = c)) && char_free c (s1 +:+ s2)).
  simpl. by rewrite IH, andb_assoc.
Qed.

(** ** [split], [join], [startsWith], [slice], [replaceAll] *)

Definition newline : ascii := "010"%char.
Definition carriage_return : ascii := "013"%char.

(** [s.split(c)] for a one-character separator. *)
Fixpoint split (c : ascii) (s : string) : list string :=
  match s with
  | EmptyString => [EmptyString]
  | String d s' =>
      if bool_decide (d = c) then EmptyString :: split c s'
      else match split c s' with x :: xs => String d x :: xs | [] => [] end
  end.

Fixpoint join (c : ascii) (l : list string) : string :=
  match l with
  | [] => EmptyString
  | [x] => x
  | x :: l' => x +:+ String c (join c l')
  end.

Fixpoint startsWith (p s : string) : bool :=
  match p, s with
  | EmptyString, _ => true
  | String c p', String d s' => bool_decide (c = d) && startsWith p' s'
  | String _ _, EmptyString => false
  end.

(** [s.slice(n)] *)
Fixpoint slice (n : nat) (s : string) : string :=
  match n, s with
  | O, _ => s
  | S n', String _ s' => slice n' s'
  | S _, EmptyString => EmptyString
  end.

Lemma split_nonempty c s : split c s ≠ [].
Proof.
  induction s as [|d s IH]; simpl; [done|]. case_bool_decide; [done|]. by destruct (split c s).
Qed.

Lemma split_char_free c s : char_free c s = true → split c s = [s].
Proof.
  induction s as [|d s IH]; simpl; [done|]. intros [Hd Hs]%andb_true_iff. apply negb_true_iff in Hd.
  by rewrite Hd, IH.
Qed.

Lemma split_cons c x s : char_free c x = true → split c (x +:+ String c s) = x :: split c s.
Proof.
  induction x as [|d x IH]; intros Hx.
  - change (split c (String c s) = EmptyString :: split c s). simpl. by rewrite bool_decide_true.
  - simpl in Hx. apply andb_true_iff in Hx as [Hd Hx]. apply negb_true_iff in Hd.
    change (split c (String d (x +:+ String c s)) = String d x :: split c s). simpl. by rewrite Hd, IH.
Qed.

Lemma split_join c l : l ≠ [] → Forall (λ x, char_free c x = true) l → split c (join c l) = l.
Proof.
  induction l as [|x [|y l] IH]; intros Hne Hl; [done| |].
  - apply split_char_free. by inversion Hl.
  - inversion Hl; subst. change (join c (x :: y :: l)) with (x +:+ String c (join c (y :: l))).
    rewrite split_cons by done. f_equal. by apply IH.
Qed.

(** [path.basename]: the last segment of a path that is not empty. *)
Definition basename (path : string) : string := default "" (last (filter (λ s, s ≠ "") (split "/"%char path))).

(** ** [trim] *)

Definition is_space (c : ascii) : bool :=
  let n := Ascii.N_of_ascii c in
  ((9 <=? n) && (n <=? 13) || (n =? 32) || (n =? 160))%N.

Fixpoint trimStart (s : string) : string :=
  match s with
  | String c s' => if is_space c then trimStart s' else s
  | EmptyString => s
  end.

Fixpoint trimEnd (s : string) : string :=
  match s with
  | String c s' =>
      match trimEnd s' with
      | EmptyString => if is_space c then EmptyString else String c EmptyString
      | t => String c t
      end
  | EmptyString => s
  end.

Definition trim (s : string) : string := trimEnd (trimStart s).

(** Nothing but white space. *)
Fixpoint all_space (s : string) : bool :=
  match s with String c s' => is_space c && all_space s' | EmptyString => true end.

Lemma trimEnd_empty s : trimEnd s = "" ↔ all_space s = true.
Proof.
  induction s as [|c s IH]; [done|]. simpl. destruct (trimEnd s) as [|d t] eqn:E.
  - destruct IH as [IH _]. rewrite (IH eq_refl), andb_true_r. by destruct (is_space c).
  - split; [done|]. intros [_ H]%andb_true_iff. apply IH in H. done.
Qed.

Lemma trim_empty s : trim s = "" ↔ all_space s = true.
Proof.
  unfold trim. rewrite trimEnd_empty. induction s as [|c s IH]; [done|]. simpl.
  destruct (is_space c) eqn:E; [done|]. simpl. by rewrite E.
Qed.

Lemma all_space_app a b : all_space (a +:+ b) = all_space a && all_space b.
Proof.
  induction a as [|c a IH]; [done|]. change (all_space (String c (a +:+ b)) = all_space (String c a) && all_space b).
  simpl. by rewrite IH, andb_assoc.
Qed.

Fixpoint no_space (s : string) : bool :=
  match s with String c s' => negb (is_space c) && no_space s' | EmptyString => true end.

Lemma trim_no_space s : no_space s = true → trim s = s.
Proof.
  intros H. unfold trim. assert (trimStart s = s) as ->.
  { destruct s; [done|]. simpl in *. by destruct (is_space _). }
  induction s as [|c s IH]; [done|]. simpl in *. apply andb_true_iff in H as [Hc H].
  rewrite IH by done. destruct s; [|done]. by destruct (is_space c).
Qed.

(** ** [parseInt(s, 10)] *)

Definition digit (c : ascii) : option Z :=
  let n := Z.of_N (Ascii.N_of_ascii c) in
  if (48 <=? n) && (n <=? 57) then Some (n - 48) else None.

(** The value of the digits [s] starts with, after [acc]. *)
Fixpoint parse_digits (acc : Z) (s : string) : Z :=
  match s with
  | String c s' => match digit c with Some d => parse_digits (10 * acc + d) s' | None => acc end
  | EmptyString => acc
  end.

Definition starts_with_digit (s : string) : bool :=
  match s with String c _ => bool_decide (is_Some (digit c)) | EmptyString => false end.

(** [None] for NaN. *)
Definition parseInt (s : string) : option Z :=
  let s := trimStart s in
  let '(neg, body) := match s with
                      | String "-" s' => (true, s')
                      | String "+" s' => (false, s')
                      | _ => (false, s)
                      end in
  if starts_with_digit body then Some (if neg then - parse_digits 0 body else parse_digits 0 body)
  else None.

(** ** Reading back what was printed *)

Lemma digit_char x : (x < 10)%N → digit (pretty_N_char x) = Some (Z.of_N x).
Proof.
  intros Hx. assert (x = 0 ∨ x = 1 ∨ x = 2 ∨ x = 3 ∨ x = 4 ∨ x = 5 ∨ x = 6 ∨ x = 7 ∨ x = 8 ∨ x = 9)%N by lia.
  naive_solver.
Qed.

Lemma parse_digits_go x s : parse_digits 0 (pretty_N_go x s) = parse_digits (Z.of_N x) s.
Proof.
  revert s. induction (N.lt_wf_0 x) as [x _ IH]; intros s.
  destruct (decide (x = 0)%N) as [->|Hx]; [done|].
  rewrite pretty_N_go_step by lia. rewrite IH by (apply N.div_lt; lia). simpl.
  rewrite digit_char by (apply N.mod_lt; lia). f_equal.
  pose proof (N.div_mod x 10 ltac:(lia)). lia.
Qed.

(** What printing starts with. *)
Lemma pretty_go_head x s : (0 < x)%N → ∃ d s', (d < 10)%N ∧ pretty_N_go x s = String (pretty_N_char d) s'.
Proof.
  revert s. induction (N.lt_wf_0 x) as [x _ IH]; intros s Hx. rewrite pretty_N_go_step by done.
  destruct (decide (x `div` 10 = 0)%N) as [Hz|Hz].
  - rewrite Hz, pretty_N_go_0. exists (x `mod` 10)%N, s. split; [apply N.mod_lt; lia|done].
  - apply IH; [apply N.div_lt; lia|]. apply N.div_str_pos. destruct (decide (x < 10)%N); [|lia]. by rewrite N.div_small in Hz.
Qed.

Lemma pretty_N_head (n : N) : ∃ d s', (d < 10)%N ∧ pretty n = String (pretty_N_char d) s'.
Proof.
  unfold pretty, pretty_N. case_decide as Hn; [by exists 0%N, ""|]. apply pretty_go_head. lia.
Qed.

Lemma pretty_Z_nonneg n : 0 ≤ n → pretty n = pretty (Z.to_N n).
Proof. intros Hn. unfold pretty at 1, pretty_Z. by destruct n. Qed.

Lemma pretty_char_space d : (d < 10)%N → is_space (pretty_N_char d) = false.
Proof.
  intros Hx. assert (d = 0 ∨ d = 1 ∨ d = 2 ∨ d = 3 ∨ d = 4 ∨ d = 5 ∨ d = 6 ∨ d = 7 ∨ d = 8 ∨ d = 9)%N by lia.
  naive_solver.
Qed.

Lemma no_space_go x s : no_space s = true → no_space (pretty_N_go x s) = true.
Proof.
  revert s. induction (N.lt_wf_0 x) as [x _ IH]; intros s Hs.
  destruct (decide (x = 0)%N) as [->|Hx]; [done|].
  rewrite pretty_N_go_step by lia. apply IH; [apply N.div_lt; lia|]. simpl.
  by rewrite pretty_char_space by (apply N.mod_lt; lia).
Qed.

Lemma pretty_no_space n : 0 ≤ n → no_space (pretty n) = true.
Proof.
  intros Hn. rewrite pretty_Z_nonneg by done. unfold pretty, pretty_N. case_decide; [done|]. by apply no_space_go.
Qed.

Lemma parseInt_pretty n : 0 ≤ n → parseInt (pretty n) = Some n.
Proof.
  intros Hn. rewrite pretty_Z_nonneg by done. unfold parseInt.
  destruct (pretty_N_head (Z.to_N n)) as (d&s'&Hd&Hp).
  assert (parse_digits 0 (pretty (Z.to_N n)) = n) as Hval.
  { unfold pretty, pretty_N. case_decide as Hz; [simpl; lia|]. rewrite parse_digits_go. simpl. lia. }
  rewrite Hp in *. simpl trimStart. rewrite pretty_char_space by done.
  replace (match String (pretty_N_char d) s' with
           | String "-" s'' => (true, s'') | String "+" s'' => (false, s'')
           | _ => (false, String (pretty_N_char d) s') end) with (false, String (pretty_N_char d) s').
  2: { assert (d = 0 ∨ d = 1 ∨ d = 2 ∨ d = 3 ∨ d = 4 ∨ d = 5 ∨ d = 6 ∨ d = 7 ∨ d = 8 ∨ d = 9)%N by lia. naive_solver. }
  unfold starts_with_digit. rewrite digit_char by done. rewrite bool_decide_true by done. by rewrite Hval.
Qed.

Lemma parseInt_pretty_Z n : parseInt (pretty n) = Some n.
Proof.
  destruct (decide (0 ≤ n)) as [|Hn]; [by apply parseInt_pretty|].
  destruct n as [|p|p]; [lia|lia|].
  destruct (pretty_N_head (Npos p)) as (d&s'&Hd&Hp).
  assert (parse_digits 0 (pretty (Npos p)) = Z.pos p) as Hval.
  { unfold pretty, pretty_N. rewrite decide_False by done. by rewrite parse_digits_go. }
  change (pretty (Z.neg p)) with (String "-" (pretty (Npos p))). unfold parseInt. simpl trimStart.
  rewrite Hp in *. unfold starts_with_digit. rewrite digit_char by done. rewrite bool_decide_true by done.
  by rewrite Hval.
Qed.

(** The digits of a number, as the code's patterns ask for them. *)
Lemma parse_digits_pretty n : 0 ≤ n → parse_digits 0 (pretty n) = n.
Proof.
  intros Hn. rewrite pretty_Z_nonneg by done. unfold pretty, pretty_N. case_decide as Hz; [simpl; lia|].
  rewrite parse_digits_go. simpl. lia.
Qed.

Fixpoint all_chars (p : ascii → bool) (s : string) : bool :=
  match s with String c s' => p c && all_chars p s' | EmptyString => true end.

Definition is_digit (c : ascii) : bool :=
  let n := Ascii.N_of_ascii c in ((48 <=? n) && (n <=? 57))%N.

Lemma pretty_digits n : 0 ≤ n → all_chars is_digit (pretty n) = true.
Proof.
  intros Hn. rewrite pretty_Z_nonneg by done. unfold pretty, pretty_N. case_decide; [done|].
  assert (∀ x s, all_chars is_digit s = true → all_chars is_digit (pretty_N_go x s) = true) as Hgo; [|by apply Hgo].
  intros x. induction (N.lt_wf_0 x) as [x _ IH]. intros s Hs.
  destruct (decide (x = 0)%N) as [->|Hx]; [done|]. rewrite pretty_N_go_step by lia.
  apply IH; [apply N.div_lt; lia|]. cbn. rewrite Hs, andb_true_r.
  assert (x mod 10 < 10)%N as Hd by (apply N.mod_lt; lia). revert Hd. generalize (x mod 10)%N. intros d Hd.
  assert (d = 0 ∨ d = 1 ∨ d = 2 ∨ d = 3 ∨ d = 4 ∨ d = 5 ∨ d = 6 ∨ d = 7 ∨ d = 8 ∨ d = 9)%N by lia. naive_solver.
Qed.

Lemma pretty_length n k : 0 ≤ n → n < 10 ^ Z.of_nat k → (0 < k)%nat → (String.length (pretty n) ≤ k)%nat.
Proof.
  intros Hn Hlt Hk. rewrite pretty_Z_nonneg by done. unfold pretty, pretty_N. case_decide; [simpl; lia|].
  assert (∀ k x s, (x < 10 ^ N.of_nat k)%N → (String.length (pretty_N_go x s) ≤ k + String.length s)%nat) as Hgo.
  { clear. induction k as [|k IH]; intros x s Hx.
    - assert (x = 0)%N as -> by (simpl in Hx; lia). by rewrite pretty_N_go_0.
    - destruct (decide (x = 0)%N) as [->|Hz]; [rewrite pretty_N_go_0; lia|]. rewrite pretty_N_go_step by lia.
      etransitivity; [apply IH|cbn; lia]. rewrite Nat2N.inj_succ, N.pow_succ_r' in Hx.
      apply N.Div0.div_lt_upper_bound; lia. }
  etransitivity; [apply (Hgo k)|cbn; lia]. apply N2Z.inj_lt. rewrite Z2N.id by done.
  rewrite N2Z.inj_pow. by rewrite nat_N_Z.
Qed.

Lemma all_chars_free p c s : p c = false → all_chars p s = true → char_free c s = true.
Proof.
  intros Hc. induction s as [|d s IH]; [done|]. cbn. intros [Hd Hs]%andb_true_iff.
  rewrite IH by done. rewrite bool_decide_false; [done|]. intros ->. by rewrite Hc in Hd.
Qed.
