(* ===== verification/JsJson.v ===== *)
(** * JSON values

    What the code does with values that come out of [JSON.parse]: it reads
    their fields without knowing their shape, and prints values with
    [JSON.stringify].  Texts are of single-byte characters; numbers are
    integers that a double represents exactly, or not finite ([1e999]). *)

From S2P Require Import Prelude JsText.
From Stdlib Require Import Ascii.

#[local] Open Scope string_scope.
#[local] Open Scope list_scope.
#[local] Open Scope Z_scope.

Inductive Json :=
| JNull | JBool (b : bool) | JNum (n : Z) | JNaN | JStr (s : string)
| JArr (l : list Json) | JObj (fields : list (string * Json)).

(** Induction through arrays and objects. *)
Lemma Json_nested_ind (P : Json → Prop) :
  P JNull → (∀ b, P (JBool b)) → (∀ n, P (JNum n)) → P JNaN → (∀ s, P (JStr s)) →
  (∀ l, Forall P l → P (JArr l)) → (∀ fs, Forall (λ f : string * Json, P f.2) fs → P (JObj fs)) → ∀ v, P v.
Proof.
  intros Hnull Hbool Hnum Hnan Hstr Harr Hobj. fix IH 1. intros [|b|n| |s|l|fs].
  all: try solve [clear IH; auto].
  - apply Harr. induction l as [|v l IHl]; constructor; [apply IH|apply IHl].
  - apply Hobj. induction fs as [|[k v] fs IHfs]; constructor; [apply IH|apply IHfs].
Qed.

(** ** Reading fields *)

(** [value.field] of an object: an own field, [None] for [undefined]. *)
Definition json_field (fields : list (string * Json)) (key : string) : option Json :=
  snd <$> find (λ '(k, _), bool_decide (k = key)) fields.

Lemma json_field_cons k v fs key : json_field ((k, v) :: fs) key = if bool_decide (k = key) then Some v else json_field fs key.
Proof. unfold json_field. cbn. by destruct (bool_decide (k = key)). Qed.

(** Fields of a literal object. *)
Ltac json_fields :=
  rewrite ?json_field_cons;
  repeat match goal with
  | |- context [bool_decide (?a = ?b :> string)] =>
      first [rewrite (bool_decide_true (a = b)) by reflexivity | rewrite (bool_decide_false (a = b)) by (intros [=])]
  end.

(** [v.key] throws on [undefined] and [null]; no prototype has the keys the
    code asks for. *)
Definition get (v : option Json) (key : string) : result (option Json) :=
  match v with
  | None | Some JNull => Err "TypeError"
  | Some (JObj fs) => Ok (json_field fs key)
  | Some _ => Ok None
  end.

(** [v?.key] *)
Definition opt_get (v : option Json) (key : string) : option Json :=
  match v with Some (JObj fs) => json_field fs key | _ => None end.

(** [v?.[0]] *)
Definition opt_first (v : option Json) : option Json :=
  match v with
  | Some (JArr l) => l !! 0%nat
  | Some (JStr (String c _)) => Some (JStr (String c EmptyString))
  | Some (JObj fs) => json_field fs "0"
  | _ => None
  end.

(** [Boolean(v)] *)
Definition json_truthy (v : Json) : bool :=
  match v with
  | JNull | JBool false => false
  | JNum n => negb (n =? 0)
  | JStr s => negb (bool_decide (s = ""))
  | _ => true
  end.

(** [v ?? d] *)
Definition json_or (v : option Json) (d : Json) : Json :=
  match v with None | Some JNull => d | Some x => x end.

Lemma opt_get_get v key x : get v key = Ok x → opt_get v key = x.
Proof. unfold get. destruct v as [[]|]; naive_solver. Qed.

(** ** [JSON.stringify] *)

Definition dquote : ascii := "034"%char.
Definition backslash : ascii := "092"%char.

Definition hex_digit (n : N) : ascii :=
  Ascii.ascii_of_N (if (n <? 10)%N then 48 + n else 87 + n)%N.

Definition quote_char (c : ascii) : string :=
  let n := Ascii.N_of_ascii c in
  if (n =? 34)%N || (n =? 92)%N then String backslash (String c EmptyString)
  else if (n <? 32)%N then
    String backslash
      (if (n =? 8)%N then "b" else if (n =? 9)%N then "t" else if (n =? 10)%N then "n"
       else if (n =? 12)%N then "f" else if (n =? 13)%N then "r"
       else "u00" +:+ String (hex_digit (n / 16)) (String (hex_digit (n mod 16)) EmptyString))
  else String c EmptyString.

Fixpoint quote_body (s : string) : string :=
  match s with String c s' => quote_char c +:+ quote_body s' | EmptyString => EmptyString end.

Definition quote (s : string) : string := String dquote (quote_body s +:+ String dquote EmptyString).

Fixpoint stringify (v : Json) : string :=
  match v with
  | JNull | JNaN => "null"
  | JBool b => if b then "true" else "false"
  | JNum n => pretty n
  | JStr s => quote s
  | JArr l => "[" +:+ String.concat "," (stringify <$> l) +:+ "]"
  | JObj fs => "{" +:+ String.concat "," ((λ '(k, x), quote k +:+ ":" +:+ stringify x) <$> fs) +:+ "}"
  end.

(** ** Printed values have no control characters *)

Definition plain (c : ascii) : Prop := (32 ≤ Ascii.N_of_ascii c)%N.

Fixpoint Plain (s : string) : Prop :=
  match s with String c s' => plain c ∧ Plain s' | EmptyString => True end.

Lemma Plain_app a b : Plain (a +:+ b) ↔ Plain a ∧ Plain b.
Proof.
  induction a as [|c a IH]; [simpl; tauto|].
  change (plain c ∧ Plain (a +:+ b) ↔ (plain c ∧ Plain a) ∧ Plain b). rewrite IH. tauto.
Qed.

Lemma Plain_char_free c s : Plain s → ¬ plain c → char_free c s = true.
Proof.
  induction s as [|d s IH]; [done|]. intros [Hd Hs] Hc. cbn. rewrite IH by done.
  rewrite bool_decide_false; [done|]. by intros ->.
Qed.

Lemma hex_digit_plain n : (n < 16)%N → plain (hex_digit n).
Proof.
  intros Hn. unfold plain, hex_digit. case_match eqn:E; rewrite Ascii.N_ascii_embedding; lia.
Qed.

Lemma quote_char_plain c : Plain (quote_char c).
Proof.
  unfold quote_char. pose proof (Ascii.N_ascii_bounded c) as Hb. set (n := Ascii.N_of_ascii c) in *.
  destruct ((n =? 34)%N || (n =? 92)%N) eqn:E1.
  { repeat split; unfold plain; [done|]. fold n. apply orb_true_iff in E1 as [?%N.eqb_eq|?%N.eqb_eq]; lia. }
  destruct (n <? 32)%N eqn:E2.
  - split; [done|]. repeat case_match; try (split; done). apply Plain_app. split; [by repeat split|].
    apply N.ltb_lt in E2.
    split; [apply hex_digit_plain, N.Div0.div_lt_upper_bound; lia|]. split; [apply hex_digit_plain, N.mod_lt; lia|done].
  - split; [|done]. unfold plain. fold n. apply N.ltb_ge in E2. lia.
Qed.

Lemma quote_plain s : Plain (quote s).
Proof.
  unfold quote. cbn. split; [done|]. apply Plain_app. split; [|by split].
  induction s as [|c s IH]; [done|]. apply Plain_app. split; [apply quote_char_plain|done].
Qed.

Lemma pretty_N_char_plain d : (d < 10)%N → plain (pretty_N_char d).
Proof.
  intros Hx. assert (d = 0 ∨ d = 1 ∨ d = 2 ∨ d = 3 ∨ d = 4 ∨ d = 5 ∨ d = 6 ∨ d = 7 ∨ d = 8 ∨ d = 9)%N by lia.
  unfold plain. naive_solver lia.
Qed.

Lemma pretty_plain (n : Z) : Plain (pretty n).
Proof.
  assert (∀ x s, Plain s → Plain (pretty_N_go x s)) as Hgo.
  { intros x. induction (N.lt_wf_0 x) as [x _ IH]. intros s Hs.
    destruct (decide (x = 0)%N) as [->|Hx]; [done|]. rewrite pretty_N_go_step by lia.
    apply IH; [apply N.div_lt; lia|]. split; [apply pretty_N_char_plain, N.mod_lt; lia|done]. }
  assert (∀ k : N, Plain (pretty k)) as HN.
  { intros k. unfold pretty, pretty_N. case_decide; [by split|]. by apply Hgo. }
  destruct n as [|p|p]; [by split|apply (HN (Npos p))|].
  change (Plain (String "-" (pretty (Npos p)))). split; [done|apply HN].
Qed.

Lemma Plain_concat l : Forall Plain l → Plain (String.concat "," l).
Proof.
  induction 1 as [|x l Hx _ IH]; [done|]. cbn. destruct l as [|y l]; [done|].
  change (Plain (x +:+ "," +:+ String.concat "," (y :: l))). rewrite !Plain_app. repeat split; done.
Qed.

Lemma stringify_plain v : Plain (stringify v).
Proof.
  induction v as [|b|n| |s|l IH|fs IH] using Json_nested_ind; cbn [stringify].
  - by repeat split.
  - destruct b; by repeat split.
  - apply pretty_plain.
  - by repeat split.
  - apply quote_plain.
  - rewrite !Plain_app. repeat split; try done. apply Plain_concat. by apply Forall_fmap.
  - rewrite !Plain_app. repeat split; try done. apply Plain_concat. apply Forall_fmap.
    eapply Forall_impl; [exact IH|]. intros [k v] Hv.
    change (Plain (quote k +:+ ":" +:+ stringify v)). rewrite !Plain_app. split; [apply quote_plain|split; [by split|done]].
Qed.

(** ** JSON values: printing is injective

    Two values that print alike are equal, when neither has a number that is
    not finite (those print as null). *)


#[local] Open Scope string_scope.
#[local] Open Scope list_scope.
#[local] Open Scope Z_scope.

(** No number that is not finite. *)
Fixpoint finite (v : Json) : bool :=
  match v with
  | JNaN => false
  | JArr l => forallb finite l
  | JObj fs => forallb (λ '(_, x), finite x) fs
  | _ => true
  end.

(** ** Strings *)

Definition hex_value (c : ascii) : N :=
  let n := Ascii.N_of_ascii c in if (n <? 58)%N then (n - 48)%N else (n - 87)%N.

(** The character that a quoted body starts with. *)
Definition unquote_char (s : string) : option (ascii * string) :=
  match s with
  | String a r =>
      if bool_decide (a = dquote) then None
      else if bool_decide (a = backslash) then
        match r with
        | String "b" r' => Some ("008"%char, r')
        | String "t" r' => Some ("009"%char, r')
        | String "n" r' => Some ("010"%char, r')
        | String "f" r' => Some ("012"%char, r')
        | String "r" r' => Some ("013"%char, r')
        | String "u" (String _ (String _ (String h (String l r')))) =>
            Some (Ascii.ascii_of_N (16 * hex_value h + hex_value l), r')
        | String c r' => Some (c, r')
        | EmptyString => None
        end
      else Some (a, r)
  | EmptyString => None
  end.

Lemma unquote_quote_char c r : unquote_char (quote_char c +:+ r) = Some (c, r).
Proof. by destruct c as [[] [] [] [] [] [] [] []]. Qed.

Lemma quote_body_inj s s' r r' :
  quote_body s +:+ String dquote r = quote_body s' +:+ String dquote r' → s = s' ∧ r = r'.
Proof.
  revert s'. induction s as [|c s IH]; intros [|c' s'] H; cbn [quote_body] in H.
  - split; [done|]. by injection H.
  - rewrite string_app_assoc in H. apply (f_equal unquote_char) in H. by rewrite unquote_quote_char in H.
  - rewrite string_app_assoc in H. apply (f_equal unquote_char) in H. by rewrite unquote_quote_char in H.
  - rewrite !string_app_assoc in H. apply (f_equal unquote_char) in H. rewrite !unquote_quote_char in H.
    injection H as -> H. by destruct (IH s' H) as [-> ->].
Qed.

Lemma quote_inj s s' r r' : quote s +:+ r = quote s' +:+ r' → s = s' ∧ r = r'.
Proof.
  unfold quote. rewrite !string_app_cons, !string_app_assoc, !string_app_cons. intros [= H]. by apply quote_body_inj.
Qed.

(** ** Numbers *)

Definition num_char (c : ascii) : bool :=
  let n := Ascii.N_of_ascii c in (n =? 45)%N || ((48 <=? n) && (n <=? 57))%N.

Fixpoint numeric (s : string) : bool :=
  match s with String c s' => num_char c && numeric s' | EmptyString => true end.

(** What may follow a value. *)
Definition stops (s : string) : Prop :=
  match s with String c _ => c = ","%char ∨ c = "]"%char ∨ c = "}"%char | EmptyString => True end.

Lemma stops_not_num c s : stops (String c s) → num_char c = false.
Proof. by intros [-> | [-> | ->]]. Qed.

Lemma numeric_split a b r r' :
  numeric a = true → numeric b = true → stops r → stops r' → a +:+ r = b +:+ r' → a = b ∧ r = r'.
Proof.
  revert b. induction a as [|c a IH]; intros [|d b] Ha Hb Hr Hr' H; cbn in Ha, Hb.
  - done.
  - change (r = String d (b +:+ r')) in H. subst. apply stops_not_num in Hr. by rewrite Hr in Hb.
  - change (String c (a +:+ r) = r') in H. subst. apply stops_not_num in Hr'. by rewrite Hr' in Ha.
  - rewrite !string_app_cons in H. injection H as -> H. to_prop. by destruct (IH b) as [-> ->].
Qed.

Lemma pretty_char_num d : (d < 10)%N → num_char (pretty_N_char d) = true.
Proof.
  intros Hx. assert (d = 0 ∨ d = 1 ∨ d = 2 ∨ d = 3 ∨ d = 4 ∨ d = 5 ∨ d = 6 ∨ d = 7 ∨ d = 8 ∨ d = 9)%N by lia.
  naive_solver.
Qed.

Lemma pretty_numeric (n : Z) : numeric (pretty n) = true.
Proof.
  assert (∀ x s, numeric s = true → numeric (pretty_N_go x s) = true) as Hgo.
  { intros x. induction (N.lt_wf_0 x) as [x _ IH]. intros s Hs.
    destruct (decide (x = 0)%N) as [->|Hx]; [done|]. rewrite pretty_N_go_step by lia.
    apply IH; [apply N.div_lt; lia|]. cbn. by rewrite pretty_char_num by (apply N.mod_lt; lia). }
  assert (∀ k : N, numeric (pretty k) = true) as HN.
  { intros k. unfold pretty, pretty_N. case_decide; [done|]. by apply Hgo. }
  destruct n as [|p|p]; [done|apply (HN (Npos p))|]. exact (HN (Npos p)).
Qed.

Lemma pretty_inj_stops (n m : Z) r r' :
  stops r → stops r' → pretty n +:+ r = pretty m +:+ r' → n = m ∧ r = r'.
Proof.
  intros Hr Hr' H. apply numeric_split in H as [H ->]; [|apply pretty_numeric..|done|done].
  split; [|done]. apply (f_equal parseInt) in H. rewrite !parseInt_pretty_Z in H. by injection H.
Qed.

(** ** Values *)

(** The kind of a value shows in the first character of its text. *)
Definition head_kind (s : string) : nat :=
  match s with
  | EmptyString => 0
  | String c _ =>
      if num_char c then 3
      else if bool_decide (c = "n"%char) then 1
      else if bool_decide (c = "t"%char) then 2 else if bool_decide (c = "f"%char) then 7
      else if bool_decide (c = dquote) then 4
      else if bool_decide (c = "["%char) then 5 else if bool_decide (c = "{"%char) then 6 else 0
  end%nat.

Definition kind (v : Json) : nat :=
  match v with
  | JNull | JNaN => 1 | JBool b => if b then 2 else 7 | JNum _ => 3 | JStr _ => 4 | JArr _ => 5 | JObj _ => 6
  end%nat.

Lemma pretty_head (n : Z) : ∃ c s, pretty n = String c s ∧ num_char c = true.
Proof.
  destruct (pretty n) as [|c s] eqn:E.
  - pose proof (parseInt_pretty_Z n) as H. by rewrite E in H.
  - exists c, s. split; [done|]. pose proof (pretty_numeric n) as H. rewrite E in H. cbn in H. by to_prop.
Qed.

Lemma head_kind_stringify v r : head_kind (stringify v +:+ r) = kind v.
Proof.
  destruct v as [|[]|n| |s|l|fs]; try done. cbn [stringify].
  destruct (pretty_head n) as (c&s&->&Hc). rewrite string_app_cons. unfold head_kind. by rewrite Hc.
Qed.

Lemma concat_cons x l :
  String.concat "," (x :: l) = x +:+ match l with [] => "" | _ => "," +:+ String.concat "," l end.
Proof. destruct l; [by rewrite string_app_empty|done]. Qed.

Definition Printed_inj (v : Json) : Prop :=
  ∀ v' r r', finite v = true → finite v' = true → stops r → stops r' →
  stringify v +:+ r = stringify v' +:+ r' → v = v' ∧ r = r'.

(** Lists of printed items between commas; [P] says which texts an item has. *)
Lemma concat_inj {A} (f : A → string) (ok : A → bool) (stop : ascii) l l' r r' :
  stop = "]"%char ∨ stop = "}"%char →
  (∀ x, head_kind (f x) ≠ 0%nat) →
  Forall (λ x, ∀ x' r r', ok x = true → ok x' = true → stops r → stops r' → f x +:+ r = f x' +:+ r' → x = x' ∧ r = r') l →
  forallb ok l = true → forallb ok l' = true →
  String.concat "," (f <$> l) +:+ String stop r = String.concat "," (f <$> l') +:+ String stop r' → l = l' ∧ r = r'.
Proof.
  intros Hstop Hhead Hl Hok. revert l'. induction Hl as [|x l Hx Hl IH]; intros [|x' l'] Hok' H.
  - split; [done|]. by injection H.
  - exfalso. rewrite fmap_cons, concat_cons, string_app_assoc in H. specialize (Hhead x').
    destruct (f x') as [|c s]; [done|]. rewrite string_app_cons in H. injection H as <- _.
    by destruct Hstop as [-> | ->].
  - exfalso. rewrite fmap_cons, concat_cons, string_app_assoc in H. specialize (Hhead x).
    destruct (f x) as [|c s]; [done|]. rewrite string_app_cons in H. injection H as -> _.
    by destruct Hstop as [-> | ->].
  - cbn in Hok, Hok'. to_prop. rewrite !fmap_cons, !concat_cons, !string_app_assoc in H.
    assert (stops (String stop r) ∧ stops (String stop r')) as [Hs Hs'] by (cbn; naive_solver).
    apply Hx in H as [-> H]; [|done|done|by destruct l; [|left]|by destruct l'; [|left]].
    destruct l as [|y l], l' as [|y' l']; cbn [fmap list_fmap] in H.
    + split; [done|]. by injection H.
    + exfalso. rewrite string_app_assoc in H. injection H as E _. by destruct Hstop as [-> | ->].
    + exfalso. rewrite string_app_assoc in H. injection H as E _. by destruct Hstop as [-> | ->].
    + rewrite !string_app_assoc in H. injection H as H. destruct (IH ltac:(done) (y' :: l') ltac:(done) H) as [-> ->]. done.
Qed.

Lemma stringify_inj v : Printed_inj v.
Proof.
  induction v as [|b|n| |s|l IH|fs IH] using Json_nested_ind; intros v' r r' Hf Hf' Hr Hr' H;
    pose proof (f_equal head_kind H) as Hk; rewrite !head_kind_stringify in Hk;
    destruct v' as [|b'|n'| |s'|l'|fs']; try done; try (by destruct b); try (by destruct b').
  - split; [done|]. by injection H.
  - destruct b, b'; try done; split; try done; by injection H.
  - apply pretty_inj_stops in H as [-> ->]; done.
  - apply quote_inj in H as [-> ->]; done.
  - cbn [stringify] in H. rewrite !string_app_assoc in H. injection H as H.
    apply (concat_inj stringify finite) in H as [-> ->]; auto.
    intros x Hx. pose proof (head_kind_stringify x "") as E. rewrite string_app_empty, Hx in E. by destruct x as [|[]| | | | |].
  - cbn [stringify] in H. rewrite !string_app_assoc in H. injection H as H.
    apply (concat_inj _ (λ '(_, x), finite x)) in H as [-> ->]; auto.
    + by intros [k x].
    + eapply Forall_impl; [exact IH|]. intros [k x] Hx [k' x'] q q' Hok Hok' Hq Hq' E. cbn in Hx.
      rewrite !string_app_assoc in E. apply quote_inj in E as [-> E]. injection E as E.
      by apply Hx in E as [-> ->].
Qed.

Lemma stringify_inj_eq v v' : finite v = true → finite v' = true → stringify v = stringify v' → v = v'.
Proof.
  intros Hv Hv' H. destruct (stringify_inj v v' "" "" Hv Hv' I I) as [-> _]; [|done]. by rewrite H.
Qed.
