(* ===== verification/CompositeDag.v ===== *)
(** * The composite dependency DAG (packages/remote/src/composite/dag.ts)

    Components of a composite manifest, the edges between them, and the
    topological order the applier follows.  The graph is keyed by the string
    [kind/name], as in the code. *)

From S2P Require Import Prelude JsMap JsSort JsText.

#[local] Open Scope string_scope.
#[local] Open Scope list_scope.
#[local] Open Scope Z_scope.

(** ** Data (composite/schema.ts) *)

Inductive ComponentKind := KService | KWorkload | KRag | KGateway | KPipeline.

#[export] Instance ComponentKind_eq_dec : EqDecision ComponentKind.
Proof. solve_decision. Defined.

Definition kind_str (k : ComponentKind) : string :=
  match k with
  | KService => "service" | KWorkload => "workload" | KRag => "rag"
  | KGateway => "gateway" | KPipeline => "pipeline"
  end.

Record ComponentRef := Ref { ref_kind : ComponentKind; ref_name : string }.

#[export] Instance ComponentRef_eq_dec : EqDecision ComponentRef.
Proof. solve_decision. Defined.

Record DependencyEdge := Edge { e_from : ComponentRef; e_to : ComponentRef }.

#[export] Instance DependencyEdge_eq_dec : EqDecision DependencyEdge.
Proof. solve_decision. Defined.

(** What the graph reads of each entry.  [w_useProxy], [rn_binding] and the
    like belong to the applier and are carried there. *)
Record ServiceEntry := { s_name : string; s_external : bool }.
Record WorkloadEntry := { w_node : string; w_useProxy : bool }.
Record RagNodeEntry := { rn_name : string; rn_endpoint : string; rn_backingService : option string }.
Record GatewayEntry := { g_name : string; g_node : string; g_upstreamWorkloads : list string }.
Record PipelineEntry := { p_name : string; p_destRagNode : string }.

Inductive OnFailure := Rollback | LeavePartial.

#[export] Instance OnFailure_eq_dec : EqDecision OnFailure.
Proof. solve_decision. Defined.

Record CompositeSpec := {
  services : list ServiceEntry;
  workloads : list WorkloadEntry;
  ragNodes : list RagNodeEntry;
  gateways : list GatewayEntry;
  pipelines : option (list PipelineEntry);  (** absent in hand-built specs *)
  dependencies : list DependencyEdge;
  onFailure : OnFailure
}.

(** ** Components and edges *)

Definition pipelinesOf (spec : CompositeSpec) : list PipelineEntry :=
  match pipelines spec with Some ps => ps | None => [] end.

(** A workload is identified by its node. *)
Definition workloadRefName (w : WorkloadEntry) : string := w_node w.

Definition listComponents (spec : CompositeSpec) : list ComponentRef :=
  map (λ s, Ref KService (s_name s)) (services spec) ++
  map (λ w, Ref KWorkload (workloadRefName w)) (workloads spec) ++
  map (λ r, Ref KRag (rn_name r)) (ragNodes spec) ++
  map (λ p, Ref KPipeline (p_name p)) (pipelinesOf spec) ++
  map (λ g, Ref KGateway (g_name g)) (gateways spec).

Definition rag_edges (r : RagNodeEntry) : list DependencyEdge :=
  match rn_backingService r with
  | Some b => if bool_decide (b = "") then []
              else [Edge (Ref KRag (rn_name r)) (Ref KService b)]
  | None => []
  end.

Definition gateway_edges (g : GatewayEntry) : list DependencyEdge :=
  map (λ up, Edge (Ref KGateway (g_name g)) (Ref KWorkload up)) (g_upstreamWorkloads g).

Definition pipeline_edges (ragNodeNames : list string) (p : PipelineEntry) : list DependencyEdge :=
  if bool_decide (p_destRagNode p ∈ ragNodeNames)
  then [Edge (Ref KPipeline (p_name p)) (Ref KRag (p_destRagNode p))]
  else [].

Definition impliedEdges (spec : CompositeSpec) : list DependencyEdge :=
  flat_map rag_edges (ragNodes spec) ++
  flat_map gateway_edges (gateways spec) ++
  flat_map (pipeline_edges (map rn_name (ragNodes spec))) (pipelinesOf spec).

Definition refKey (r : ComponentRef) : string :=
  kind_str (ref_kind r) +:+ "/" +:+ ref_name r.

Definition edgeKey (e : DependencyEdge) : string :=
  kind_str (ref_kind (e_from e)) +:+ "/" +:+ ref_name (e_from e) +:+ "=>" +:+
  kind_str (ref_kind (e_to e)) +:+ "/" +:+ ref_name (e_to e).

(** [if (!seen.has(k)) seen.set(k, e)] *)
Definition see_edge (seen : jsmap string DependencyEdge) (e : DependencyEdge) :=
  if jm_has seen (edgeKey e) then seen else jm_set seen (edgeKey e) e.

Definition allEdges (spec : CompositeSpec) : list DependencyEdge :=
  (foldl see_edge [] (dependencies spec ++ impliedEdges spec)).*2.

(** ** Kahn's algorithm *)

Record IndexedNode := { in_ref : ComponentRef; in_order : Z }.

Fixpoint indexFrom (i : Z) (nodes : list ComponentRef) (byKey : jsmap string IndexedNode)
    : jsmap string IndexedNode :=
  match nodes with
  | [] => byKey
  | node :: rest =>
      indexFrom (i + 1) rest (jm_set byKey (refKey node) {| in_ref := node; in_order := i |})
  end.

Definition indexNodes (nodes : list ComponentRef) : jsmap string IndexedNode :=
  indexFrom 0 nodes [].

Record DegreeMaps := { dependents : jsmap string (list string); remaining : jsmap string Z }.

Definition add_edge (byKey : jsmap string IndexedNode) (d : DegreeMaps) (e : DependencyEdge)
    : DegreeMaps :=
  let fromKey := refKey (e_from e) in
  let toKey := refKey (e_to e) in
  if negb (jm_has byKey fromKey) || negb (jm_has byKey toKey) then d
  else
    {| dependents :=
         match jm_get (dependents d) toKey with
         | Some l => jm_set (dependents d) toKey (l ++ [fromKey])
         | None => dependents d
         end;
       remaining :=
         jm_set (remaining d) fromKey (default 0 (jm_get (remaining d) fromKey) + 1) |}.

Definition init_degrees (byKey : jsmap string IndexedNode) : DegreeMaps :=
  foldl (λ d k, {| dependents := jm_set (dependents d) k [];
                   remaining := jm_set (remaining d) k 0 |})
    {| dependents := []; remaining := [] |} (jm_keys byKey).

Definition buildDegreeMaps (edges : list DependencyEdge) (byKey : jsmap string IndexedNode)
    : DegreeMaps :=
  foldl (add_edge byKey) (init_degrees byKey) edges.

Definition zeroInDegreeKeys (remaining : jsmap string Z) : list string :=
  (filter (λ p, p.2 = 0) remaining).*1.

Fixpoint decrementDependents (downstream : list string) (remaining : jsmap string Z)
    : jsmap string Z * list string :=
  match downstream with
  | [] => (remaining, [])
  | d :: rest =>
      let next := default 0 (jm_get remaining d) - 1 in
      let '(remaining', freed) := decrementDependents rest (jm_set remaining d next) in
      (remaining', if next =? 0 then d :: freed else freed)
  end.

Definition stuckKeys (remaining : jsmap string Z) : list string :=
  (filter (λ p, p.2 > 0) remaining).*1.

Definition requireNode (byKey : jsmap string IndexedNode) (key : string) : result IndexedNode :=
  match jm_get byKey key with
  | Some node => Ok node
  | None => Err ("missing component node: " +:+ key)
  end.

Definition orderOf (byKey : jsmap string IndexedNode) (key : string) : Z :=
  match jm_get byKey key with Some node => in_order node | None => 0 end.

(** [keys.sort(byDeclarationOrder)]: the comparator looks both keys up and
    throws on a key without a node; it runs when there are two keys or more. *)
Definition sortByDeclarationOrder (byKey : jsmap string IndexedNode) (keys : list string)
    : result (list string) :=
  match keys with
  | [] | [_] => Ok keys
  | _ =>
      match list_find (λ k, jm_has byKey k = false) keys with
      | Some (_, k) => Err ("missing component node: " +:+ k)
      | None => Ok (js_sort (λ a b, orderOf byKey a - orderOf byKey b) keys)
      end
  end.

Record KahnState := { k_zero : list string; k_remaining : jsmap string Z; k_out : list ComponentRef }.

(** One iteration of [while (zero.length > 0)]. *)
Definition kahn_step (byKey : jsmap string IndexedNode) (deps : jsmap string (list string))
    (k : string) (zero : list string) (st : KahnState) : result KahnState :=
  node ← requireNode byKey k;
  let '(remaining', freed) :=
    decrementDependents (default [] (jm_get deps k)) (k_remaining st) in
  freed' ← sortByDeclarationOrder byKey freed;
  zero' ← sortByDeclarationOrder byKey (freed' ++ zero);
  mret {| k_zero := zero'; k_remaining := remaining'; k_out := k_out st ++ [in_ref node] |}.

(** The loop; [None] when the fuel runs out. *)
Fixpoint kahn_loop (byKey : jsmap string IndexedNode) (deps : jsmap string (list string))
    (fuel : nat) (st : KahnState) : option (result KahnState) :=
  match k_zero st with
  | [] => Some (Ok st)
  | k :: zero =>
      match fuel with
      | O => None
      | S fuel' =>
          if bool_decide (k = "") then Some (Ok st)
          else match kahn_step byKey deps k zero st with
               | Ok st' => kahn_loop byKey deps fuel' st'
               | Err e => Some (Err e)
               end
      end
  end.

Definition kahn_init (byKey : jsmap string IndexedNode) (edges : list DependencyEdge)
    : result KahnState :=
  let d := buildDegreeMaps edges byKey in
  zero ← sortByDeclarationOrder byKey (zeroInDegreeKeys (remaining d));
  mret {| k_zero := zero; k_remaining := remaining d; k_out := [] |}.

(** [stuckKeys(remaining).join(", ")] *)
Definition join (sep : string) (l : list string) : string :=
  match l with [] => "" | x :: l' => foldl (λ acc y, acc +:+ sep +:+ y) x l' end.

Definition topologicalOrder_fuel (fuel : nat) (spec : CompositeSpec)
    : option (result (list ComponentRef)) :=
  let nodes := listComponents spec in
  let edges := allEdges spec in
  let byKey := indexNodes nodes in
  match kahn_init byKey edges with
  | Err e => Some (Err e)
  | Ok st0 =>
      match kahn_loop byKey (dependents (buildDegreeMaps edges byKey)) fuel st0 with
      | None => None
      | Some (Err e) => Some (Err e)
      | Some (Ok st) =>
          if bool_decide (length (k_out st) = length nodes) then Some (Ok (k_out st))
          else Some (Err ("cycle detected among: " +:+ join ", " (stuckKeys (k_remaining st))))
      end
  end.

(** Every key enters the queue at most once, so one unit of fuel per
    component is enough ([topologicalOrder_terminates]). *)
Definition topologicalOrder (spec : CompositeSpec) : result (list ComponentRef) :=
  match topologicalOrder_fuel (length (listComponents spec)) spec with
  | Some r => r
  | None => Err "out of fuel"
  end.

Definition reverseOrder (order : list ComponentRef) : list ComponentRef := rev order.

(** ** Keys *)

Lemma refKey_inj r1 r2 : refKey r1 = refKey r2 → r1 = r2.
Proof.
  destruct r1 as [k1 n1], r2 as [k2 n2]. unfold refKey. simpl.
  destruct k1, k2; simpl; intros H; simplify_eq; done.
Qed.

#[export] Instance refKey_Inj : Inj (=) (=) refKey.
Proof. intros ??. apply refKey_inj. Qed.

Lemma refKey_nonempty r : refKey r ≠ "".
Proof. destruct r as [[] n]; done. Qed.

(** What [indexNodes] promises about a key it binds. *)
Definition indexed (nodes : list ComponentRef) (k : string) (n : IndexedNode) : Prop :=
  refKey (in_ref n) = k ∧ 0 ≤ in_order n ∧
  nodes !! Z.to_nat (in_order n) = Some (in_ref n).

Lemma indexFrom_spec pre nodes byKey :
  jm_wf byKey →
  (∀ k n, jm_get byKey k = Some n → indexed (pre ++ nodes) k n) →
  (∀ r, r ∈ pre → refKey r ∈ jm_keys byKey) →
  let m := indexFrom (Z.of_nat (length pre)) nodes byKey in
  jm_wf m ∧ (∀ k n, jm_get m k = Some n → indexed (pre ++ nodes) k n) ∧
  (∀ r, r ∈ pre ++ nodes → refKey r ∈ jm_keys m).
Proof.
  revert pre byKey. induction nodes as [|r nodes IH]; simpl; intros pre byKey Hwf Hget Hin.
  - rewrite app_nil_r in *. auto.
  - specialize (IH (pre ++ [r])). rewrite length_app in IH. simpl in IH.
    replace (Z.of_nat (length pre + 1)) with (Z.of_nat (length pre) + 1) in IH by lia.
    rewrite <-app_assoc in IH. simpl in IH. apply IH; [by apply jm_set_wf| |].
    + intros k n. rewrite jm_get_set. case_decide; [|by apply Hget].
      intros [= <-]. subst. split; [done|]. simpl. split; [lia|].
      rewrite Nat2Z.id. by rewrite list_lookup_middle.
    + intros r' [?| ->%list_elem_of_singleton]%elem_of_app; apply jm_elem_keys_set; auto.
Qed.

Section index.
Context (nodes : list ComponentRef).
Let byKey := indexNodes nodes.

Lemma indexNodes_wf : jm_wf byKey.
Proof. apply (indexFrom_spec [] nodes []); [apply NoDup_nil_2|done|]. by intros ? ?%elem_of_nil. Qed.

Lemma indexNodes_get k n : jm_get byKey k = Some n → indexed nodes k n.
Proof. apply (indexFrom_spec [] nodes []); [apply NoDup_nil_2|done|]. by intros ? ?%elem_of_nil. Qed.

Lemma indexNodes_keys k : k ∈ jm_keys byKey ↔ ∃ r, r ∈ nodes ∧ refKey r = k.
Proof.
  split.
  - intros [n Hn]%jm_get_keys. apply indexNodes_get in Hn as (Hk & _ & Hl).
    exists (in_ref n). split; [by eapply list_elem_of_lookup_2|done].
  - intros (r & Hr & <-). apply (indexFrom_spec [] nodes []); [apply NoDup_nil_2|done| |done].
    by intros ? ?%elem_of_nil.
Qed.

Lemma indexNodes_order_inj k1 k2 :
  k1 ∈ jm_keys byKey → k2 ∈ jm_keys byKey → orderOf byKey k1 = orderOf byKey k2 → k1 = k2.
Proof.
  intros [n1 H1]%jm_get_keys [n2 H2]%jm_get_keys. unfold orderOf. rewrite H1, H2. intros Heq.
  apply indexNodes_get in H1 as (<- & _ & Hl1). apply indexNodes_get in H2 as (<- & _ & Hl2).
  rewrite Heq, Hl2 in Hl1. congruence.
Qed.

Lemma indexNodes_keys_length : (length (jm_keys byKey) ≤ length nodes)%nat.
Proof.
  rewrite <-(length_fmap refKey nodes). apply submseteq_length, NoDup_submseteq; [apply indexNodes_wf|].
  intros k (r & Hr & <-)%indexNodes_keys. by apply list_elem_of_fmap_2.
Qed.

Lemma requireNode_in k : k ∈ jm_keys byKey →
  ∃ n, requireNode byKey k = Ok n ∧ refKey (in_ref n) = k ∧ in_ref n ∈ nodes.
Proof.
  intros [n Hn]%jm_get_keys. exists n. unfold requireNode. rewrite Hn. split; [done|].
  apply indexNodes_get in Hn as (? & _ & ?%list_elem_of_lookup_2). done.
Qed.
End index.

Lemma sortByDeclarationOrder_ok byKey keys :
  (∀ k, k ∈ keys → k ∈ jm_keys byKey) →
  sortByDeclarationOrder byKey keys =
    Ok (js_sort (λ a b, orderOf byKey a - orderOf byKey b) keys).
Proof.
  intros H. destruct keys as [|a [|b keys]]; [done..|].
  unfold sortByDeclarationOrder. destruct (list_find _ _) as [[i k]|] eqn:E; [|done].
  apply list_find_Some in E as (Hk & Hno & _). apply list_elem_of_lookup_2, H, jm_has_keys in Hk.
  congruence.
Qed.

(** ** Degree maps *)

(** The edges the degree maps count, as key pairs [(from, to)]. *)
Definition realEdges (byKey : jsmap string IndexedNode) (edges : list DependencyEdge)
    : list (string * string) :=
  map (λ e, (refKey (e_from e), refKey (e_to e)))
    (filter (λ e, jm_has byKey (refKey (e_from e)) && jm_has byKey (refKey (e_to e)) = true) edges).

(** Keys that depend on [k], in edge order. *)
Definition dependentsOn (E : list (string * string)) (k : string) : list string :=
  (filter (λ e, e.2 = k) E).*1.

(** How many dependencies [k] still waits for once [out] is emitted. *)
Definition waiting (E : list (string * string)) (out : list string) (k : string) : Z :=
  countZ k (filter (λ e, e.2 ∉ out) E).*1.

Definition gm (m : jsmap string Z) (k : string) : Z := default 0 (jm_get m k).

Lemma init_degrees_spec byKey :
  let d := init_degrees byKey in
  (∀ k, k ∈ jm_keys byKey → jm_get (dependents d) k = Some [] ∧ jm_get (remaining d) k = Some 0) ∧
  (∀ k, k ∈ jm_keys (remaining d) ↔ k ∈ jm_keys byKey) ∧ jm_wf (remaining d).
Proof.
  unfold init_degrees.
  assert (∀ l d0, jm_wf (remaining d0) →
    let d := foldl (λ d k, {| dependents := jm_set (dependents d) k [];
                   remaining := jm_set (remaining d) k 0 |}) d0 l in
    (∀ k, jm_get (dependents d) k = if decide (k ∈ l) then Some [] else jm_get (dependents d0) k) ∧
    (∀ k, jm_get (remaining d) k = if decide (k ∈ l) then Some 0 else jm_get (remaining d0) k) ∧
    jm_wf (remaining d)) as Hgen.
  { induction l as [|x l IH]; simpl; intros d0 Hd0; [done|].
    destruct (IH {| dependents := jm_set (dependents d0) x []; remaining := jm_set (remaining d0) x 0 |})
      as (H1&H2&H3); [by apply jm_set_wf|]. simpl in *.
    split_and!; [intros k; rewrite H1|intros k; rewrite H2|done]; rewrite jm_get_set;
      repeat case_decide; set_solver. }
  destruct (Hgen (jm_keys byKey) {| dependents := []; remaining := [] |}) as (H1&H2&H3);
    [apply NoDup_nil_2|].
  simpl in *. split_and!; [|intros k|done].
  - intros k Hk. rewrite H1, H2. by rewrite !decide_True.
  - rewrite (jm_get_keys _ k), H2. case_decide; simpl; split; intros ?; eauto; try done.
Qed.

Lemma buildDegreeMaps_spec byKey edges :
  let d := buildDegreeMaps edges byKey in
  (∀ k, k ∈ jm_keys byKey →
     jm_get (dependents d) k = Some (dependentsOn (realEdges byKey edges) k) ∧
     jm_get (remaining d) k = Some (countZ k (realEdges byKey edges).*1)) ∧
  (∀ k, k ∈ jm_keys (remaining d) ↔ k ∈ jm_keys byKey) ∧ jm_wf (remaining d).
Proof.
  simpl. unfold buildDegreeMaps.
  induction edges as [|e edges IH] using rev_ind; [apply init_degrees_spec|].
  rewrite foldl_app. simpl. destruct IH as (IH1 & IH2 & IH3).
  set (d := foldl _ _ _) in *. unfold add_edge, realEdges in *. rewrite filter_app, map_app.
  assert (jm_has byKey (refKey (e_from e)) && jm_has byKey (refKey (e_to e)) = true ∨
          jm_has byKey (refKey (e_from e)) && jm_has byKey (refKey (e_to e)) = false) as [Hb|Hb]
    by (destruct (_ && _); auto).
  - rewrite filter_cons_True by done. change (filter _ []) with (@nil DependencyEdge).
    apply andb_true_iff in Hb as [Hf Ht]. rewrite Hf, Ht. simpl.
    apply jm_has_keys in Hf, Ht. destruct (IH1 _ Ht) as [Hto _]. rewrite Hto.
    split_and!; [intros k Hk|intros k|by apply jm_set_wf].
    + destruct (IH1 _ Hk) as [Hd Hr]. destruct (IH1 _ Hf) as [_ Hrf]. rewrite Hrf. simpl.
      unfold dependentsOn. rewrite !jm_get_set, filter_app, !fmap_app, filter_cons. simpl. split.
      * case_decide as H1; subst; [by rewrite decide_True|]. rewrite decide_False by done.
        by rewrite app_nil_r.
      * assert (∀ l1 l2 : list string, countZ k (l1 ++ l2) = countZ k l1 + countZ k l2) as Happ
          by (clear; induction l1; simpl; intros; [done|rewrite IHl1; lia]).
        rewrite Happ. simpl. case_decide; subst; [by rewrite Z.add_0_r|]. rewrite Hr. f_equal. lia.
    + rewrite jm_elem_keys_set, IH2. naive_solver.
  - rewrite filter_cons_False by congruence. rewrite app_nil_r.
    rewrite <-negb_andb, Hb. simpl. done.
Qed.

(** ** Decrementing *)

Lemma decrement_spec l m :
  (∀ k, k ∈ l → k ∈ jm_keys m) → jm_wf m →
  let '(m', freed) := decrementDependents l m in
  (∀ k, k ∈ jm_keys m → gm m' k = gm m k - countZ k l) ∧
  jm_keys m' = jm_keys m ∧
  (∀ k, k ∈ freed → k ∈ l).
Proof.
  revert m. induction l as [|d l IH]; simpl; intros m Hl Hwf.
  - split_and!; [intros; lia|done|done].
  - assert (Hd : d ∈ jm_keys m) by (apply Hl; left).
    specialize (IH (jm_set m d (default 0 (jm_get m d) - 1))).
    rewrite jm_keys_set_in in IH by done.
    destruct (decrementDependents _ _) as [m' freed].
    destruct IH as (IH1 & IH2 & IH3); [intros; apply Hl; by right|by apply jm_set_wf|].
    split_and!; [intros k Hk|done|].
    + rewrite IH1 by done. unfold gm. rewrite jm_get_set.
      repeat case_decide; subst; simpl; lia.
    + intros k. case_match; [rewrite !elem_of_cons|rewrite elem_of_cons]; naive_solver.
Qed.

(** A key is freed exactly when its count drops to zero, and only once. *)
Lemma decrement_freed l m :
  (∀ k, k ∈ l → k ∈ jm_keys m) → jm_wf m → (∀ k, k ∈ l → countZ k l ≤ gm m k) →
  let freed := (decrementDependents l m).2 in
  NoDup freed ∧ (∀ k, k ∈ freed ↔ k ∈ l ∧ gm m k = countZ k l).
Proof.
  revert m. induction l as [|d l IH]; simpl; intros m Hl Hwf Hle.
  { split; [constructor|]. intros k. rewrite elem_of_nil. tauto. }
  set (v := default 0 (jm_get m d) - 1). specialize (IH (jm_set m d v)).
  assert (Hgm : ∀ k, gm (jm_set m d v) k = if decide (k = d) then v else gm m k).
  { intros k. unfold gm. rewrite jm_get_set. by case_decide. }
  assert (Hd : countZ d l ≤ v).
  { specialize (Hle d ltac:(left)). rewrite decide_True in Hle by done. unfold v, gm in *. lia. }
  destruct (decrementDependents _ _) as [m' freed] eqn:E. simpl in *.
  destruct IH as (IH1 & IH2).
  { intros. apply jm_elem_keys_set. right. apply Hl. by right. }
  { by apply jm_set_wf. }
  { intros k Hk. rewrite Hgm. case_decide; subst; [done|].
    specialize (Hle k ltac:(by right)). rewrite decide_False in Hle by done. lia. }
  pose proof (countZ_pos d l) as Hpos. pose proof (countZ_nonneg d l).
  assert (v = gm m d - 1) by done.
  destruct (Z.eqb_spec v 0) as [Hv|Hv].
  - split.
    + constructor; [|done]. rewrite IH2, Hgm, decide_True by done. intros [?%Hpos ?]. lia.
    + intros k. rewrite elem_of_cons, IH2, Hgm, elem_of_cons.
      destruct (decide (k = d)) as [->|Hkd].
      * split; [intros _; split; [by left|lia]|by left].
      * rewrite Z.add_0_l. naive_solver.
  - split; [done|]. intros k. rewrite IH2, Hgm, elem_of_cons.
    destruct (decide (k = d)) as [->|Hkd]; [|rewrite Z.add_0_l; naive_solver].
    split; [intros [? ?]; split; [by left|lia]|].
    intros [_ ?]. assert (countZ d l = v) by lia. split; [apply Hpos; lia|done].
Qed.

(** ** The loop invariant *)

Lemma waiting_snoc E out x k : x ∉ out →
  waiting E (out ++ [x]) k = waiting E out k - countZ k (dependentsOn E x).
Proof.
  intros Hx. unfold waiting, dependentsOn. induction E as [|[f t] E IH]; [done|].
  rewrite !filter_cons. simpl.
  assert ((t ∉ (out ++ [x])) ↔ ((t ∉ out) ∧ t ≠ x)) as Hiff
    by (rewrite elem_of_app, list_elem_of_singleton; tauto).
  repeat case_decide; csimpl; subst; rewrite ?IH; try tauto; repeat case_decide; lia.
Qed.

Lemma waiting_zero E out k :
  waiting E out k = 0 ↔ ∀ t, (k, t) ∈ E → t ∈ out.
Proof.
  unfold waiting. set (l := (filter _ E).*1).
  assert (Hl : k ∈ l ↔ ∃ t, (k, t) ∈ E ∧ t ∉ out).
  { unfold l. rewrite list_elem_of_fmap. split.
    - intros ([k' t] & -> & [??]%list_elem_of_filter). eauto.
    - intros (t & ? & ?). exists (k, t). split; [done|]. by apply list_elem_of_filter. }
  pose proof (countZ_pos k l). pose proof (countZ_nonneg k l). split.
  - intros H1 t Ht. destruct (decide (t ∈ out)) as [|Hn]; [done|].
    assert (0 < countZ k l) by (apply H, Hl; eauto). lia.
  - intros H1. destruct (decide (0 < countZ k l)) as [Hlt|]; [|lia].
    apply H, Hl in Hlt as (t & ? & []). eauto.
Qed.

Lemma waiting_nil E k : waiting E [] k = countZ k E.*1.
Proof.
  unfold waiting. do 2 f_equal. induction E as [|e E IH]; [done|].
  rewrite filter_cons_True; [by rewrite IH|]. apply not_elem_of_nil.
Qed.

Lemma waiting_nonneg E out k : 0 ≤ waiting E out k.
Proof. apply countZ_nonneg. Qed.

Lemma countZ_dependentsOn E x k : 0 < countZ k (dependentsOn E x) ↔ (k, x) ∈ E.
Proof.
  rewrite countZ_pos. unfold dependentsOn. rewrite list_elem_of_fmap. split.
  - intros ([k' t] & -> & [??]%list_elem_of_filter). simpl in *. by subst.
  - intros ?. exists (k, x). split; [done|]. by apply list_elem_of_filter.
Qed.

(** [out] lists keys so that each comes after all it depends on, and each was
    the first declared among those ready at its turn. *)
Definition greedy_topo (order : string → Z) (keys : list string) (E : list (string * string))
    (out : list string) : Prop :=
  ∀ pre x post, out = pre ++ x :: post →
    (∀ t, (x, t) ∈ E → t ∈ pre) ∧
    (∀ y, y ∈ keys → y ∉ pre → (∀ t, (y, t) ∈ E → t ∈ pre) → order x ≤ order y).

Section kahn.
Context (nodes : list ComponentRef) (edges : list DependencyEdge).
Let byKey := indexNodes nodes.
Let keys := jm_keys byKey.
Let E := realEdges byKey edges.
Let deps := dependents (buildDegreeMaps edges byKey).
Let cmp (a b : string) : Z := orderOf byKey a - orderOf byKey b.

Definition okeys (st : KahnState) : list string := map refKey (k_out st).

Record kahn_inv (st : KahnState) : Prop := {
  ki_nodup : NoDup (k_zero st ++ okeys st);
  ki_out : ∀ r, r ∈ k_out st → r ∈ nodes;
  ki_wf : jm_wf (k_remaining st);
  ki_keys : ∀ k, k ∈ jm_keys (k_remaining st) ↔ k ∈ keys;
  ki_rem : ∀ k, k ∈ keys → gm (k_remaining st) k = waiting E (okeys st) k;
  ki_zero : ∀ k, k ∈ k_zero st ↔ k ∈ keys ∧ waiting E (okeys st) k = 0 ∧ k ∉ okeys st;
  ki_sorted : StronglySorted (cmp_le cmp) (k_zero st);
  ki_topo : greedy_topo (orderOf byKey) keys E (okeys st)
}.

Lemma realEdges_keys f t : (f, t) ∈ E → f ∈ keys ∧ t ∈ keys.
Proof.
  unfold E, realEdges. intros (e & Heq & [Hb _]%list_elem_of_filter)%list_elem_of_fmap.
  simplify_eq. apply andb_true_iff in Hb as [?%jm_has_keys ?%jm_has_keys]. done.
Qed.

Lemma kahn_init_inv : ∃ st, kahn_init byKey edges = Ok st ∧ kahn_inv st.
Proof.
  unfold kahn_init. destruct (buildDegreeMaps_spec byKey edges) as (Hget & Hkeys & Hwf).
  fold deps in Hget.
  assert (Hz : ∀ k, k ∈ zeroInDegreeKeys (remaining (buildDegreeMaps edges byKey)) ↔
            k ∈ keys ∧ waiting E [] k = 0).
  { intros k. unfold zeroInDegreeKeys. rewrite list_elem_of_fmap.
    rewrite waiting_nil. split.
    - intros ([k' v] & -> & [Hv Hin]%list_elem_of_filter). simpl in *. subst.
      apply jm_get_elem in Hin; [|done].
      assert (k' ∈ keys) by (apply Hkeys, jm_get_keys; eauto).
      destruct (Hget k') as [_ Hr]; [done|]. split; [done|]. unfold E. congruence.
    - intros [Hk Hc]. exists (k, 0). split; [done|]. apply list_elem_of_filter. split; [done|].
      apply jm_get_elem; [done|]. destruct (Hget k) as [_ Hr]; [done|].
      unfold E in Hc. congruence. }
  rewrite sortByDeclarationOrder_ok by (intros k ?; by apply Hz). simpl.
  eexists. split; [done|]. split; simpl; try done.
  - rewrite app_nil_r. apply js_sort_NoDup. unfold zeroInDegreeKeys.
    eapply sublist_NoDup; [exact Hwf|]. unfold jm_keys. apply fmap_sublist, sublist_filter.
  - intros r ?%elem_of_nil. done.
  - intros k Hk. unfold gm. destruct (Hget k) as [_ ->]; [done|]. by rewrite waiting_nil.
  - intros k. rewrite elem_of_js_sort, Hz. pose proof (not_elem_of_nil k). tauto.
  - apply (js_sort_sorted _ (λ _, True)); [apply (cmp_ok_key (orderOf byKey))|by apply Forall_true].
  - intros [] ? ? ?; done.
Qed.

(** The keys freed by emitting [k]: those that waited for nothing else. *)
Lemma freed_spec st k zero :
  kahn_inv st → k_zero st = k :: zero →
  let '(m', freed) := decrementDependents (default [] (jm_get deps k)) (k_remaining st) in
  jm_keys m' = jm_keys (k_remaining st) ∧
  (∀ y, y ∈ keys → gm m' y = waiting E (okeys st ++ [k]) y) ∧
  NoDup freed ∧
  (∀ y, y ∈ freed ↔ (y, k) ∈ E ∧ waiting E (okeys st ++ [k]) y = 0).
Proof.
  intros Hinv Hz. destruct (buildDegreeMaps_spec byKey edges) as (Hget & _ & _). fold deps in Hget.
  destruct (proj1 (ki_zero st Hinv k)) as (Hk & Hw & Hno); [rewrite Hz; left|].
  destruct (Hget k Hk) as [-> _]. simpl. fold E.
  set (l := dependentsOn E k).
  assert (Hin : ∀ y, y ∈ l ↔ (y, k) ∈ E).
  { intros y. rewrite <-countZ_pos. apply countZ_dependentsOn. }
  assert (Hlk : ∀ y, y ∈ l → y ∈ keys) by (intros y [? _]%Hin%realEdges_keys; done).
  assert (Hlr : ∀ y, y ∈ l → y ∈ jm_keys (k_remaining st))
    by (intros y ?; apply (ki_keys st Hinv); auto).
  pose proof (decrement_spec l (k_remaining st) Hlr (ki_wf st Hinv)) as H1.
  assert (∀ y, waiting E (okeys st ++ [k]) y = waiting E (okeys st) y - countZ y l) as Hws
    by (intros; by apply waiting_snoc).
  assert (∀ y, y ∈ l → countZ y l ≤ gm (k_remaining st) y) as Hle.
  { intros y Hy. rewrite (ki_rem st Hinv) by auto.
    pose proof (waiting_nonneg E (okeys st ++ [k]) y). specialize (Hws y). lia. }
  pose proof (decrement_freed l (k_remaining st) Hlr (ki_wf st Hinv) Hle) as H2.
  destruct (decrementDependents _ _) as [m' freed]. simpl in *.
  destruct H1 as (Hgm & Hks & _), H2 as (Hnd & Hfr). split_and!; [done| |done|].
  - intros y Hy. rewrite Hgm by (by apply (ki_keys st Hinv)).
    by rewrite (ki_rem st Hinv), Hws.
  - intros y. rewrite Hfr, <-Hin, Hws. split; intros [? ?]; split; try done;
      specialize (ki_rem st Hinv y); intros Hr; rewrite Hr in * by auto; lia.
Qed.

Lemma decrement_wf l m : jm_wf m → jm_wf (decrementDependents l m).1.
Proof.
  revert m. induction l as [|d l IH]; simpl; intros m Hm; [done|].
  specialize (IH (jm_set m d (default 0 (jm_get m d) - 1))).
  destruct (decrementDependents _ _). apply IH. by apply jm_set_wf.
Qed.

Lemma greedy_topo_snoc out x :
  greedy_topo (orderOf byKey) keys E out →
  (∀ t, (x, t) ∈ E → t ∈ out) →
  (∀ y, y ∈ keys → y ∉ out → (∀ t, (y, t) ∈ E → t ∈ out) → orderOf byKey x ≤ orderOf byKey y) →
  greedy_topo (orderOf byKey) keys E (out ++ [x]).
Proof.
  intros Hg H1 H2 pre z post Heq. destruct post as [|w post _] using rev_ind.
  - apply app_inj_tail in Heq as [<- <-]. done.
  - rewrite app_comm_cons, app_assoc in Heq. apply app_inj_tail in Heq as [-> _]. by eapply Hg.
Qed.

Lemma kahn_step_inv st k zero :
  kahn_inv st → k_zero st = k :: zero →
  ∃ st', kahn_step byKey deps k zero st = Ok st' ∧ kahn_inv st' ∧
    length (k_out st') = S (length (k_out st)).
Proof.
  intros Hinv Hz. pose proof (freed_spec st k zero Hinv Hz) as Hf.
  destruct (proj1 (ki_zero st Hinv k)) as (Hk & Hw & Hno); [rewrite Hz; left|].
  destruct (requireNode_in nodes k Hk) as (n & Hn & Hnk & Hnn).
  unfold kahn_step. fold byKey in Hn. rewrite Hn. simpl.
  pose proof (decrement_wf (default [] (jm_get deps k)) (k_remaining st) (ki_wf st Hinv)) as Hwf.
  destruct (decrementDependents _ _) as [m' freed]. simpl in Hwf. destruct Hf as (Hks & Hgm & Hnd & Hfr).
  assert (Hfk : ∀ y, y ∈ freed → y ∈ keys) by (intros y [[? _]%realEdges_keys _]%Hfr; done).
  assert (Hzk : ∀ y, y ∈ zero → y ∈ keys) by (intros y ?; apply (ki_zero st Hinv); rewrite Hz; by right).
  rewrite sortByDeclarationOrder_ok by done. simpl.
  rewrite sortByDeclarationOrder_ok by
    (intros y; rewrite elem_of_app, elem_of_js_sort; intros [?|?]; auto).
  simpl. eexists. split; [done|]. split; [|simpl; rewrite length_app; simpl; lia].
  pose proof (ki_nodup st Hinv) as Hnd0. rewrite Hz in Hnd0. simpl in Hnd0.
  apply NoDup_cons in Hnd0 as [Hk0 Hnd0]. apply NoDup_app in Hnd0 as (Hnz & Hdis & Hno').
  assert (Hok : okeys {| k_zero := []; k_remaining := m'; k_out := k_out st ++ [in_ref n] |} =
                okeys st ++ [k]) by (unfold okeys; simpl; rewrite map_app; simpl; by rewrite Hnk).
  assert (Hzero : ∀ y, y ∈ freed ++ zero ↔
            y ∈ keys ∧ waiting E (okeys st ++ [k]) y = 0 ∧ y ∉ okeys st ++ [k]).
  { intros y. rewrite elem_of_app, Hfr, not_elem_of_app, not_elem_of_cons.
    pose proof (waiting_snoc E (okeys st) k y Hno) as Hs.
    pose proof (countZ_dependentsOn E k y) as Hc. pose proof (ki_zero st Hinv y) as Hy.
    rewrite Hz, elem_of_cons in Hy. pose proof (waiting_nonneg E (okeys st ++ [k]) y) as Hge.
    pose proof (countZ_nonneg y (dependentsOn E k)) as Hcn. split.
    - intros [[HE H0]|Hin].
      + assert (waiting E (okeys st) y ≠ 0) by (apply Hc in HE; lia).
        split_and!; [by apply realEdges_keys in HE as []|done| |congruence|apply not_elem_of_nil].
        intros Hy0. apply list_elem_of_split in Hy0 as (pre & post & Heq).
        destruct (ki_topo st Hinv pre y post Heq) as [Hd _]. apply Hno. rewrite Heq.
        apply elem_of_app. left. by apply Hd.
      + destruct (proj1 Hy) as (? & ? & ?); [by right|].
        split_and!; [done|lia|done| |apply not_elem_of_nil]. intros ->. apply Hk0, elem_of_app. by left.
    - intros (Hyk & H0 & Hyo & Hne & _). destruct (decide ((y, k) ∈ E)) as [|HE]; [by left|right].
      rewrite <-Hc in HE. destruct (proj2 Hy) as [?|?]; [|done..]. split_and!; [done|lia|done]. }
  split; simpl.
  - unfold okeys in *. simpl in *. rewrite Hok. rewrite js_sort_perm, js_sort_perm.
    rewrite <-app_assoc. apply NoDup_app. split_and!; [done| |].
    + intros y Hy. rewrite !not_elem_of_app. apply Hfr in Hy as [HE H0].
      destruct (proj1 (Hzero y)) as (_ & _ & Hn'); [apply elem_of_app; left; by apply Hfr|].
      apply not_elem_of_app in Hn' as [? ?]. split; [|done]. intros Hyz.
      pose proof (proj1 (ki_zero st Hinv y)) as Hy. rewrite Hz in Hy.
      destruct Hy as (_ & Hw0 & _); [by right|]. apply countZ_dependentsOn in HE.
      pose proof (waiting_snoc E (okeys st) k y Hno). unfold okeys in *. lia.
    + rewrite app_assoc. apply NoDup_app. split_and!; [by apply NoDup_app| |apply NoDup_singleton].
      intros y Hy ->%list_elem_of_singleton. done.
  - intros r [?|Hr%list_elem_of_singleton]%elem_of_app; [by apply (ki_out st Hinv)|by subst].
  - done.
  - intros y. rewrite Hks. apply (ki_keys st Hinv).
  - intros y Hy. unfold okeys in *. simpl in *. rewrite Hok. by apply Hgm.
  - intros y. unfold okeys in *. simpl in *. rewrite Hok, elem_of_js_sort, js_sort_perm. apply Hzero.
  - apply (js_sort_sorted _ (λ _, True)); [apply (cmp_ok_key (orderOf byKey))|by apply Forall_true].
  - unfold okeys in *. simpl in *. rewrite Hok. apply greedy_topo_snoc; [apply (ki_topo st Hinv)| |].
    + by apply waiting_zero.
    + intros y Hyk Hyo Hyd. apply waiting_zero in Hyd.
      assert (Hyz : y ∈ k_zero st) by (by apply (ki_zero st Hinv)).
      pose proof (ki_sorted st Hinv) as Hs. rewrite Hz in Hs, Hyz. inversion Hs as [|? ? _ Hall]; subst.
      apply elem_of_cons in Hyz as [->|Hyz]; [lia|]. eapply Forall_forall in Hall; [|done].
      unfold cmp_le, cmp in Hall. lia.
Qed.

(** With fuel for the components not yet emitted the loop ends, with an
    empty queue. *)
Lemma kahn_loop_inv fuel st :
  kahn_inv st → (length nodes ≤ fuel + length (k_out st))%nat →
  ∃ st', kahn_loop byKey deps fuel st = Some (Ok st') ∧ kahn_inv st' ∧ k_zero st' = [].
Proof.
  revert st. induction fuel as [|fuel IH]; intros st Hinv Hlen;
    (destruct (k_zero st) as [|k zero] eqn:Hz; [exists st; simpl; rewrite Hz; auto|]).
  - exfalso.
    assert (length (k_zero st ++ okeys st) ≤ length keys)%nat as Hle.
    { apply submseteq_length, NoDup_submseteq; [apply (ki_nodup st Hinv)|].
      intros y [Hy|(r & -> & ?)%list_elem_of_fmap]%elem_of_app;
        [by apply (ki_zero st Hinv) in Hy as [? _]|].
      apply indexNodes_keys. exists r. split; [by apply (ki_out st Hinv)|done]. }
    rewrite Hz, length_app in Hle. unfold okeys in Hle. rewrite length_map in Hle. simpl in Hle.
    pose proof (indexNodes_keys_length nodes). unfold keys, byKey in *. lia.
  - simpl. rewrite Hz.
    destruct (proj1 (ki_zero st Hinv k)) as (Hk & _); [rewrite Hz; left|].
    rewrite bool_decide_eq_false_2.
    2: { intros ->. apply indexNodes_keys in Hk as (r & _ & Hr). by apply refKey_nonempty in Hr. }
    destruct (kahn_step_inv st k zero Hinv Hz) as (st' & -> & Hinv' & Hl').
    apply IH; [done|lia].
Qed.
End kahn.

(** ** The order of a spec *)

(** [f] depends on [t] and both are declared components. *)
Definition depends (spec : CompositeSpec) (f t : ComponentRef) : Prop :=
  Edge f t ∈ allEdges spec ∧ f ∈ listComponents spec ∧ t ∈ listComponents spec.

Lemma depends_realEdges spec f t :
  depends spec f t ↔
  (refKey f, refKey t) ∈ realEdges (indexNodes (listComponents spec)) (allEdges spec).
Proof.
  unfold depends, realEdges. set (byKey := indexNodes _).
  assert (Hk : ∀ r, jm_has byKey (refKey r) = true ↔ r ∈ listComponents spec).
  { intros r. unfold byKey. rewrite jm_has_keys, indexNodes_keys. split; [|eauto].
    by intros (r' & ? & ->%refKey_inj). }
  rewrite list_elem_of_fmap. split.
  - intros (He & Hf & Ht). exists (Edge f t). split; [done|]. apply list_elem_of_filter.
    split; [|done]. simpl. apply andb_true_iff. by rewrite !Hk.
  - intros ([f' t'] & Heq & [Hb He]%list_elem_of_filter). simpl in *. apply andb_true_iff in Hb.
    rewrite !Hk in Hb. injection Heq as Hf Ht. apply refKey_inj in Hf, Ht. by subst.
Qed.

Section order.
Context (spec : CompositeSpec).
Let nodes := listComponents spec.
Let byKey := indexNodes nodes.
Let edges := allEdges spec.

(** The loop's final state, with what is known of it. *)
Lemma topologicalOrder_final : ∃ st,
  kahn_inv nodes edges st ∧ k_zero st = [] ∧
  topologicalOrder_fuel (length nodes) spec = Some (
    if bool_decide (length (k_out st) = length nodes) then Ok (k_out st)
    else Err ("cycle detected among: " +:+ join ", " (stuckKeys (k_remaining st)))).
Proof.
  destruct (kahn_init_inv nodes edges) as (st0 & Hinit & Hinv0).
  destruct (kahn_loop_inv nodes edges (length nodes) st0 Hinv0) as (st & Hl & Hinv & Hz); [lia|].
  exists st. split_and!; [done..|]. unfold topologicalOrder_fuel. fold nodes edges.
  rewrite Hinit, Hl. by case_bool_decide.
Qed.

Lemma topologicalOrder_Ok out : topologicalOrder spec = Ok out →
  ∃ st, kahn_inv nodes edges st ∧ k_out st = out ∧ length out = length nodes.
Proof.
  destruct topologicalOrder_final as (st & Hinv & _ & Heq). unfold topologicalOrder.
  fold nodes. rewrite Heq. case_bool_decide; [|done]. intros [= <-]. eauto.
Qed.

(** Everything emitted and nothing missing: a permutation of the components. *)
Lemma kahn_out_perm st : kahn_inv nodes edges st → length (k_out st) = length nodes →
  k_out st ≡ₚ nodes.
Proof.
  intros Hinv Hlen. pose proof (ki_nodup _ _ st Hinv) as Hnd.
  apply NoDup_app in Hnd as (_ & _ & Hnd). unfold okeys in Hnd.
  apply submseteq_length_Permutation; [|lia].
  apply NoDup_submseteq; [by eapply NoDup_fmap_1|]. apply (ki_out _ _ st Hinv).
Qed.

(** Nothing left in the queue, yet something not emitted: every such key
    waits for another one. *)
Lemma stuck_waits st y : kahn_inv nodes edges st → k_zero st = [] →
  y ∈ jm_keys byKey → y ∉ okeys st →
  ∃ t, (y, t) ∈ realEdges byKey edges ∧ t ∉ okeys st.
Proof.
  intros Hinv Hz Hy Hno. pose proof (ki_zero _ _ st Hinv y) as Hzero. rewrite Hz in Hzero.
  assert (waiting (realEdges byKey edges) (okeys st) y ≠ 0) as Hw.
  { intros Hw. by apply (not_elem_of_nil y), Hzero. }
  unfold waiting in Hw. pose proof (countZ_pos y (filter (λ e, e.2 ∉ okeys st) (realEdges byKey edges)).*1) as Hp.
  pose proof (countZ_nonneg y (filter (λ e, e.2 ∉ okeys st) (realEdges byKey edges)).*1).
  assert (y ∈ (filter (λ e, e.2 ∉ okeys st) (realEdges byKey edges)).*1) as Hin by (apply Hp; lia).
  apply list_elem_of_fmap in Hin as ([y' t] & -> & [? ?]%list_elem_of_filter). eauto.
Qed.

Lemma rank_emits_all st (rank : ComponentRef → nat) :
  kahn_inv nodes edges st → k_zero st = [] →
  (∀ f t, depends spec f t → (rank t < rank f)%nat) →
  ∀ r, r ∈ nodes → refKey r ∈ okeys st.
Proof.
  intros Hinv Hz Hrank. enough (∀ n r, (rank r < n)%nat → r ∈ nodes → refKey r ∈ okeys st)
    by (intros r; eapply (H (S (rank r))); lia).
  induction n as [|n IH]; intros r Hn Hr; [lia|].
  destruct (decide (refKey r ∈ okeys st)) as [|Hno]; [done|exfalso].
  destruct (stuck_waits st (refKey r)) as (t & Ht & Hto); [done..| |done|].
  { apply indexNodes_keys. eauto. }
  pose proof Ht as Ht'. apply realEdges_keys in Ht' as [_ Htk].
  apply indexNodes_keys in Htk as (t' & Ht' & <-). apply Hto, IH; [|done].
  apply depends_realEdges, Hrank in Ht. lia.
Qed.
End order.

Lemma topo_perm spec out : topologicalOrder spec = Ok out → out ≡ₚ listComponents spec.
Proof. intros (st & Hinv & <- & Hlen)%topologicalOrder_Ok. by eapply kahn_out_perm. Qed.

Lemma topo_deps_first spec out : topologicalOrder spec = Ok out →
  ∀ pre f post t, out = pre ++ f :: post → depends spec f t → t ∈ pre.
Proof.
  intros (st & Hinv & <- & Hlen)%topologicalOrder_Ok pre f post t Heq Hd%depends_realEdges.
  destruct (ki_topo _ _ st Hinv (map refKey pre) (refKey f) (map refKey post)) as [Hdeps _].
  { unfold okeys. rewrite Heq. by rewrite map_app. }
  apply Hdeps, list_elem_of_fmap in Hd as (t' & ->%refKey_inj & ?). done.
Qed.

(** C36 (termination): the queue loop of [topologicalOrder] ends within one
    iteration per declared component, a node lookup never misses, and the
    call either returns an order or throws the cycle error. *)
Theorem topologicalOrder_terminates (spec : CompositeSpec) :
  is_Some (topologicalOrder_fuel (length (listComponents spec)) spec) ∧
  (∀ msg, topologicalOrder spec = Err msg →
    ∃ stuck, msg = "cycle detected among: " +:+ join ", " stuck ∧
      ∀ k, k ∈ stuck → ∃ r, r ∈ listComponents spec ∧ refKey r = k).
Proof.
  destruct (topologicalOrder_final spec) as (st & Hinv & _ & Heq). unfold topologicalOrder.
  rewrite Heq. split; [eauto|]. case_bool_decide; [done|]. intros msg [= <-].
  eexists. split; [done|]. intros k (p & -> & [_ Hp]%list_elem_of_filter)%list_elem_of_fmap.
  apply indexNodes_keys, (ki_keys _ _ st Hinv), list_elem_of_fmap. eauto.
Qed.

(** An order that is returned lists every declared component
    exactly as often as it is declared, and puts each one after everything
    it depends on. *)
Theorem topologicalOrder_sound (spec : CompositeSpec) (out : list ComponentRef) :
  topologicalOrder spec = Ok out →
  out ≡ₚ listComponents spec ∧
  (∀ pre f post t, out = pre ++ f :: post → depends spec f t → t ∈ pre).
Proof. intros Hout. split; [by apply topo_perm|by apply topo_deps_first]. Qed.

(** Position of a component in the declaration order. *)
Definition declared_before (spec : CompositeSpec) (x y : ComponentRef) : Prop :=
  orderOf (indexNodes (listComponents spec)) (refKey x) ≤
  orderOf (indexNodes (listComponents spec)) (refKey y).

(** Ties are stable. At every position the emitted component
    is the first declared among those whose dependencies are all emitted, so
    the order is the same on every run. *)
Theorem topologicalOrder_stable (spec : CompositeSpec) (out pre post : list ComponentRef)
    (x y : ComponentRef) :
  topologicalOrder spec = Ok out → out = pre ++ x :: post → y ∈ x :: post →
  (∀ t, depends spec y t → t ∈ pre) → declared_before spec x y.
Proof.
  intros (st & Hinv & <- & Hlen)%topologicalOrder_Ok Heq Hy Hdeps.
  pose proof (ki_nodup _ _ st Hinv) as Hnd. apply NoDup_app in Hnd as (_ & _ & Hnd).
  unfold okeys in Hnd. rewrite Heq in Hnd.
  destruct (ki_topo _ _ st Hinv (map refKey pre) (refKey x) (map refKey post)) as [_ Hleast].
  { unfold okeys. rewrite Heq. by rewrite map_app. }
  assert (Hyn : y ∈ listComponents spec).
  { apply (ki_out _ _ st Hinv). rewrite Heq. apply elem_of_app. by right. }
  apply Hleast.
  - apply indexNodes_keys. eauto.
  - intros (y' & ->%refKey_inj & Hy')%list_elem_of_fmap.
    apply NoDup_fmap_1, NoDup_app in Hnd as (_ & Hdis & _). by eapply Hdis.
  - intros t Ht. pose proof Ht as Ht'. apply realEdges_keys in Ht' as [_ Htk].
    apply indexNodes_keys in Htk as (t' & _ & <-).
    apply list_elem_of_fmap_2, Hdeps. by apply depends_realEdges.
Qed.

(** On a spec whose components are distinct, an order is
    returned exactly when the dependency graph has no cycle, that is, when
    some ranking decreases along every dependency. *)
Theorem topologicalOrder_iff_acyclic (spec : CompositeSpec) :
  NoDup (listComponents spec) →
  is_ok (topologicalOrder spec) = true ↔
  ∃ rank : ComponentRef → nat, ∀ f t, depends spec f t → (rank t < rank f)%nat.
Proof.
  intros Hnd. split.
  - destruct (topologicalOrder spec) as [out|] eqn:Heq; [intros _|done].
    apply topologicalOrder_Ok in Heq as (st & Hinv & <- & Hlen).
    set (pos := λ r, match list_find (λ x, x = r) (k_out st) with Some (i, _) => i | None => O end).
    exists pos. intros f t Hd. pose proof Hd as Hd'. apply depends_realEdges in Hd'.
    assert (Hf : f ∈ k_out st) by (rewrite kahn_out_perm; [apply Hd|done..]).
    destruct (elem_of_split_first f _ Hf) as (pre & post & Heq & Hpre).
    destruct (ki_topo _ _ st Hinv (map refKey pre) (refKey f) (map refKey post)) as [Hdeps _].
    { unfold okeys. rewrite Heq. by rewrite map_app. }
    apply Hdeps, list_elem_of_fmap in Hd' as (t' & ->%refKey_inj & Ht).
    destruct (elem_of_split_first t' _ Ht) as (pre' & post' & -> & Hpre').
    unfold pos. rewrite Heq.
    assert (Hfind : ∀ (l1 l2 : list ComponentRef) x, x ∉ l1 →
      list_find (λ y, y = x) (l1 ++ x :: l2) = Some (length l1, x)).
    { intros l1 l2 x Hx. apply list_find_Some. rewrite list_lookup_middle by done.
      split_and!; [done..|]. intros j z Hj Hlt Hz. subst. apply Hx.
      rewrite lookup_app_l in Hj by done. by eapply list_elem_of_lookup_2. }
    rewrite (Hfind _ post f Hpre), <-app_assoc. simpl. rewrite (Hfind pre' _ t' Hpre').
    rewrite length_app. simpl. lia.
  - intros [rank Hrank]. destruct (topologicalOrder_final spec) as (st & Hinv & Hz & Heq).
    unfold topologicalOrder. rewrite Heq. case_bool_decide as Hlen; [done|exfalso]. apply Hlen.
    pose proof (ki_nodup _ _ st Hinv) as Hno. apply NoDup_app in Hno as (_ & _ & Hno).
    apply Nat.le_antisymm; apply submseteq_length, NoDup_submseteq.
    + by apply NoDup_fmap_1 in Hno.
    + apply (ki_out _ _ st Hinv).
    + done.
    + intros r Hr. pose proof (rank_emits_all spec st rank Hinv Hz Hrank r Hr) as Hin.
      by apply list_elem_of_fmap in Hin as (r' & ->%refKey_inj & ?).
Qed.

(** ** Deduplicated edges *)

Lemma edgeKey_refKeys e : edgeKey e = refKey (e_from e) +:+ "=>" +:+ refKey (e_to e).
Proof.
  unfold edgeKey, refKey. by rewrite !string_app_assoc.
Qed.

Definition equals_sign : Ascii.ascii := Ascii.ascii_of_nat 61.

(** The edge's source name holds no equals sign. *)
Definition plain_from (e : DependencyEdge) : Prop :=
  char_free equals_sign (ref_name (e_from e)) = true.

Lemma edgeKey_inj e1 e2 : plain_from e1 → plain_from e2 → edgeKey e1 = edgeKey e2 → e1 = e2.
Proof.
  unfold plain_from. rewrite !edgeKey_refKeys. intros H1 H2 Heq.
  assert (∀ r, char_free equals_sign (ref_name r) = true → char_free equals_sign (refKey r) = true) as Hk.
  { intros [k n]. unfold refKey. rewrite !char_free_app. by destruct k. }
  apply append_char_inj in Heq as [Hf Ht]; [|by apply Hk..].
  destruct e1, e2. by simplify_eq/=.
Qed.

(** The state of the [seen] map after the edges of [l]. *)
Lemma see_edges_spec l : 
  let seen := foldl see_edge [] l in
  jm_wf seen ∧ (∀ k e, jm_get seen k = Some e → k = edgeKey e ∧ e ∈ l) ∧
  (∀ e, e ∈ l → jm_has seen (edgeKey e) = true).
Proof.
  induction l as [|e l IH] using rev_ind; simpl.
  - split_and!; [apply NoDup_nil_2|done|]. by intros ? ?%elem_of_nil.
  - rewrite foldl_app. simpl. destruct IH as (IH1 & IH2 & IH3). set (seen := foldl _ _ _) in *.
    unfold see_edge. destruct (jm_has seen (edgeKey e)) eqn:Hh.
    + split_and!; [done| |].
      * intros k e' [? ?]%IH2. split; [done|]. apply elem_of_app. by left.
      * intros e' [?|Heq%list_elem_of_singleton]%elem_of_app; [auto|by subst].
    + split_and!; [by apply jm_set_wf| |].
      * intros k e'. rewrite jm_get_set. case_decide.
        -- intros [= <-]. split; [done|]. apply elem_of_app. right. by left.
        -- intros [? ?]%IH2. split; [done|]. apply elem_of_app. by left.
      * intros e' He'. apply jm_has_keys, jm_elem_keys_set.
        apply elem_of_app in He' as [?| ->%list_elem_of_singleton]; [right|by left].
        by apply jm_has_keys, IH3.
Qed.

Lemma allEdges_elem spec e :
  e ∈ allEdges spec ↔ jm_get (foldl see_edge [] (dependencies spec ++ impliedEdges spec)) (edgeKey e) = Some e.
Proof.
  unfold allEdges. destruct (see_edges_spec (dependencies spec ++ impliedEdges spec)) as (Hwf & Hget & _).
  rewrite list_elem_of_fmap. split.
  - intros ([k e'] & -> & Hin). apply jm_get_elem in Hin; [|done].
    pose proof Hin as Hin'. apply Hget in Hin' as [-> _]. done.
  - intros Hin. exists (edgeKey e, e). split; [done|]. by apply jm_get_elem.
Qed.

(** [allEdges] holds nothing but declared and implied edges,
    none twice, and, when no edge starts at a name with an equals sign, all
    of them. *)
Theorem allEdges_spec (spec : CompositeSpec) :
  NoDup (allEdges spec) ∧
  (∀ e, e ∈ allEdges spec → e ∈ dependencies spec ∨ e ∈ impliedEdges spec) ∧
  ((∀ e, e ∈ dependencies spec ++ impliedEdges spec → plain_from e) →
    ∀ e, e ∈ dependencies spec ∨ e ∈ impliedEdges spec → e ∈ allEdges spec).
Proof.
  destruct (see_edges_spec (dependencies spec ++ impliedEdges spec)) as (Hwf & Hget & Hhas).
  split_and!.
  - unfold allEdges. revert Hwf Hget. generalize (foldl see_edge [] (dependencies spec ++ impliedEdges spec)).
    intros seen Hwf Hget.
    assert (∀ k e, (k, e) ∈ seen → k = edgeKey e) as Hk.
    { intros k e Hin. apply jm_get_elem in Hin; [|done]. by apply Hget in Hin as [? _]. }
    clear Hget. unfold jm_wf, jm_keys in Hwf. induction seen as [|[k e] seen IH]; [constructor|].
    csimpl in *. apply NoDup_cons in Hwf as [Hno Hwf]. constructor.
    + intros ([k' e'] & -> & Hin)%list_elem_of_fmap. apply Hno. simpl in *.
      rewrite (Hk k e') by left. rewrite <-(Hk k' e') by (by right).
      apply list_elem_of_fmap. by exists (k', e').
    + apply IH; [done|]. intros; apply Hk; by right.
  - intros e [_ He]%allEdges_elem%Hget. by apply elem_of_app in He.
  - intros Hplain e He%elem_of_app. apply allEdges_elem. specialize (Hhas e He).
    unfold jm_has in Hhas. destruct (jm_get _ (edgeKey e)) as [e'|] eqn:Hg; [|done].
    pose proof Hg as Hg'. apply Hget in Hg' as [Hk He']. f_equal. symmetry.
    apply edgeKey_inj; auto.
Qed.

(** The equals sign matters: the keys of these two dependencies coincide, the
    second one is dropped, and the order puts a component before the one it
    was declared to depend on. *)
Definition colliding_spec : CompositeSpec :=
  let rag n := {| rn_name := n; rn_endpoint := ""; rn_backingService := None |} in
  {| services := []; workloads := []; gateways := []; pipelines := Some [];
     ragNodes := [rag "a=>rag/b"; rag "c"; rag "a"; rag "b=>rag/c"];
     dependencies := [Edge (Ref KRag "a") (Ref KRag "b=>rag/c");
                      Edge (Ref KRag "a=>rag/b") (Ref KRag "c")];
     onFailure := Rollback |}.

(** Two distinct dependencies can share their deduplication key.
    The later one is then lost: here [a=>rag/b] is declared to depend on [c]
    and yet comes first in the order. *)
Theorem edgeKey_collision :
  let e := Edge (Ref KRag "a=>rag/b") (Ref KRag "c") in
  e ∈ dependencies colliding_spec ∧ e ∉ allEdges colliding_spec ∧
  topologicalOrder colliding_spec =
    Ok [Ref KRag "a=>rag/b"; Ref KRag "c"; Ref KRag "b=>rag/c"; Ref KRag "a"].
Proof.
  intros e. split_and!; [right; left| |vm_compute; reflexivity].
  apply (bool_decide_unpack _). vm_compute. reflexivity.
Qed.

(** Teardown order. Reversed, an order puts every component
    before all that it depends on, and reversing twice gives the order back. *)
Theorem reverseOrder_dependents_first (spec : CompositeSpec) (out : list ComponentRef) :
  topologicalOrder spec = Ok out →
  reverseOrder out ≡ₚ listComponents spec ∧
  reverseOrder (reverseOrder out) = out ∧
  (∀ pre f post t, reverseOrder out = pre ++ f :: post → depends spec f t → t ∈ post).
Proof.
  intros Hout. unfold reverseOrder. split_and!.
  - rewrite <-(Permutation_rev out). by apply topo_perm.
  - apply rev_involutive.
  - intros pre f post t Heq Hd.
    assert (out = rev post ++ f :: rev pre) as Heq'.
    { rewrite <-(rev_involutive out), Heq, rev_app_distr. simpl. by rewrite <-app_assoc. }
    pose proof (topo_deps_first spec out Hout _ _ _ t Heq' Hd) as Hin.
    by rewrite list_elem_of_In, <-in_rev, <-list_elem_of_In in Hin.
Qed.

(** ** Witnesses *)

Definition demo_spec : CompositeSpec :=
  {| services := [{| s_name := "db"; s_external := false |}];
     workloads := [{| w_node := "n1"; w_useProxy := false |}; {| w_node := "n2"; w_useProxy := false |}];
     ragNodes := [{| rn_name := "kb"; rn_endpoint := ""; rn_backingService := Some "db" |}];
     gateways := [{| g_name := "gw"; g_node := "n1"; g_upstreamWorkloads := ["n2"] |}];
     pipelines := None;
     dependencies := [Edge (Ref KService "db") (Ref KWorkload "n2")];
     onFailure := Rollback |}.

Definition demo_order : list ComponentRef :=
  [Ref KWorkload "n1"; Ref KWorkload "n2"; Ref KService "db"; Ref KRag "kb"; Ref KGateway "gw"].

Lemma topologicalOrder_sound_witness :
  topologicalOrder demo_spec = Ok demo_order ∧ demo_order ≡ₚ listComponents demo_spec.
Proof.
  split; [vm_compute; reflexivity|].
  apply (topologicalOrder_sound demo_spec demo_order). vm_compute. reflexivity.
Defined.

Lemma topologicalOrder_stable_witness :
  declared_before demo_spec (Ref KWorkload "n1") (Ref KWorkload "n2").
Proof.
  apply (topologicalOrder_stable demo_spec demo_order [] (tail demo_order)).
  - vm_compute. reflexivity.
  - reflexivity.
  - right. left.
  - intros t (He & _ & _). exfalso. revert He.
    assert (Forall (λ e, e_from e ≠ Ref KWorkload "n2") (allEdges demo_spec)) as Hall
      by (apply (bool_decide_unpack _); vm_compute; reflexivity).
    rewrite Forall_forall in Hall. intros He. by apply Hall in He.
Defined.

Lemma topologicalOrder_iff_acyclic_witness :
  ∃ rank : ComponentRef → nat, ∀ f t, depends demo_spec f t → (rank t < rank f)%nat.
Proof.
  apply (topologicalOrder_iff_acyclic demo_spec).
  - apply (bool_decide_unpack _). vm_compute. reflexivity.
  - vm_compute. reflexivity.
Defined.

Lemma reverseOrder_dependents_first_witness :
  reverseOrder demo_order ≡ₚ listComponents demo_spec.
Proof.
  apply (reverseOrder_dependents_first demo_spec demo_order). vm_compute. reflexivity.
Defined.

Lemma allEdges_spec_witness :
  Edge (Ref KGateway "gw") (Ref KWorkload "n2") ∈ allEdges demo_spec.
Proof.
  destruct (allEdges_spec demo_spec) as (_ & _ & Hall). apply Hall.
  - intros e He. assert (Forall plain_from (dependencies demo_spec ++ impliedEdges demo_spec)) as Hp.
    { unfold plain_from. apply (bool_decide_unpack _). vm_compute. reflexivity. }
    rewrite Forall_forall in Hp. by apply Hp.
  - right. apply (bool_decide_unpack _). vm_compute. reflexivity.
Defined.
