(* ===== verification/TunnelMessages.v ===== *)
(** * Tunnel wire frames (packages/remote/src/tunnel/messages.ts)

    The frame types of the reverse tunnel, the size caps, and the parser's
    guards.  A raw frame is given by its size in bytes and by what
    [JSON.parse] and the frame schema make of it. *)

From S2P Require Import Prelude.

#[local] Open Scope string_scope.
#[local] Open Scope Z_scope.

Definition TUNNEL_CLOSE_UNAUTHORIZED : Z := 4401.
Definition TUNNEL_CLOSE_BAD_HELLO : Z := 4400.
Definition TUNNEL_CLOSE_HELLO_TIMEOUT : Z := 4408.
Definition TUNNEL_CLOSE_REPLACED : Z := 4409.

Definition TUNNEL_MAX_FRAME_BYTES : Z := 16 * 1024 * 1024.

Record StreamLimits := { maxFrameBytes : Z; maxQueuedBytes : Z }.

Definition INFERENCE_RPC_STREAM_LIMITS : StreamLimits :=
  {| maxFrameBytes := 1024 * 1024; maxQueuedBytes := 4 * 1024 * 1024 |}.

Definition SUBSCRIPTION_STREAM_LIMITS : StreamLimits :=
  {| maxFrameBytes := TUNNEL_MAX_FRAME_BYTES; maxQueuedBytes := 4 * TUNNEL_MAX_FRAME_BYTES |}.

(** core/src/inference/rpc-schema.ts *)
Definition InferenceRpcOperations : list string :=
  ["negotiate"; "catalog"; "submit"; "stream"; "status"; "cancel"].

Definition INFERENCE_RPC_PROCEDURES : list string :=
  map (λ operation, "inferenceRpc." +:+ operation) InferenceRpcOperations.

Definition isInferenceRpcProcedure (method : string) : bool :=
  bool_decide (method ∈ INFERENCE_RPC_PROCEDURES).

Definition streamLimitsFor (method : string) : StreamLimits :=
  if isInferenceRpcProcedure method then INFERENCE_RPC_STREAM_LIMITS
  else SUBSCRIPTION_STREAM_LIMITS.

(** Fixed caps, or caps chosen per subscription by its procedure path. *)
Inductive StreamLimitsPolicy := FixedLimits (l : StreamLimits) | LimitsBy (f : string → StreamLimits).

Definition resolveStreamLimits (policy : StreamLimitsPolicy) (method : string) : StreamLimits :=
  match policy with LimitsBy f => f method | FixedLimits l => l end.

Definition TUNNEL_STREAM_OVERFLOW : string := "stream-overflow".
Definition TUNNEL_STREAM_CANCELLED : string := "stream-cancelled".

Record FrameError := { fe_code : string; fe_message : string }.

#[export] Instance FrameError_eq_dec : EqDecision FrameError.
Proof. solve_decision. Defined.

(** [unknown] payloads are carried as their JSON text. *)
Record TunnelReq := { rq_id : string; rq_method : string; rq_subscription : bool; rq_params : string }.
Record TunnelRes := { rs_id : string; rs_result : option string; rs_error : option FrameError }.
Record TunnelStreamDone := { sd_id : string; sd_ok : bool; sd_error : option FrameError }.

#[export] Instance TunnelReq_eq_dec : EqDecision TunnelReq.
Proof. solve_decision. Defined.
#[export] Instance TunnelRes_eq_dec : EqDecision TunnelRes.
Proof. solve_decision. Defined.
#[export] Instance TunnelStreamDone_eq_dec : EqDecision TunnelStreamDone.
Proof. solve_decision. Defined.

Inductive TunnelMessage :=
| MHello (bearer nodeName : string)
| MHelloAck (serverTime : string)
| MReq (req : TunnelReq)
| MRes (res : TunnelRes)
| MPing (nonce : string)
| MPong (nonce : string)
| MStreamEvent (id : string) (index : Z) (data : string)
| MStreamDone (done : TunnelStreamDone)
| MStreamCancel (id : string).

#[export] Instance TunnelMessage_eq_dec : EqDecision TunnelMessage.
Proof. solve_decision. Defined.

Inductive TunnelCancelOutcome := Cancelled | AlreadyTerminal | UnknownOutcome.

#[export] Instance TunnelCancelOutcome_eq_dec : EqDecision TunnelCancelOutcome.
Proof. solve_decision. Defined.

(** The acknowledging shape: not ok, with the typed cancellation error. *)
Definition is_cancel_ack (done : TunnelStreamDone) : bool :=
  negb (sd_ok done) &&
  match sd_error done with
  | Some e => bool_decide (fe_code e = TUNNEL_STREAM_CANCELLED)
  | None => false
  end.

Definition cancelOutcomeOf (done : TunnelStreamDone) : TunnelCancelOutcome :=
  if is_cancel_ack done then Cancelled else AlreadyTerminal.

Record RawFrame := { rf_bytes : Z; rf_json : option TunnelMessage }.

Definition frameBytes (raw : RawFrame) : Z := rf_bytes raw.

Definition parseTunnelMessage (raw : RawFrame) : option TunnelMessage :=
  if frameBytes raw >? TUNNEL_MAX_FRAME_BYTES then None else rf_json raw.

(** The worker RPC never gets more room than other streams, and no stream's
    frame cap exceeds what one frame can carry. *)
Lemma streamLimitsFor_bounds method :
  0 < maxFrameBytes (streamLimitsFor method) ≤ TUNNEL_MAX_FRAME_BYTES ∧
  maxFrameBytes (streamLimitsFor method) ≤ maxQueuedBytes (streamLimitsFor method).
Proof.
  unfold streamLimitsFor, INFERENCE_RPC_STREAM_LIMITS, SUBSCRIPTION_STREAM_LIMITS,
    TUNNEL_MAX_FRAME_BYTES. case_match; simpl; lia.
Qed.

(** ** Handlers as state changes with outputs

    An event handler of the tunnel's two ends changes its state and emits
    outputs (frames, closes, settled promises, journal lines).  [act] is such
    a handler; a [TraceRel] is a relation between the state before, the
    outputs and the state after that holds of doing nothing and of doing one
    thing after another.  A relation proved of each primitive then holds of
    every handler built from them, and of every run. *)


#[local] Open Scope list_scope.
#[local] Open Scope Z_scope.

Section act.
Context {St Out : Type}.

Definition act : Type := St → St * list Out.

Definition skip : act := λ s, (s, []).
Definition upd (f : St → St) : act := λ s, (f s, []).
Definition emit (o : Out) : act := λ s, (s, [o]).
Definition seqa (a b : act) : act := λ s,
  let '(s1, o1) := a s in let '(s2, o2) := b s1 in (s2, o1 ++ o2).
Definition read {A} (f : St → A) (k : A → act) : act := λ s, k (f s) s.
Definition foreach {A} (l : list A) (body : A → act) : act :=
  foldr (λ x k, seqa (body x) k) skip l.

Fixpoint run {Ev} (step : Ev → act) (evs : list Ev) : act :=
  match evs with
  | [] => skip
  | ev :: evs' => seqa (step ev) (run step evs')
  end.

Lemma seqa_fst a b s : (seqa a b s).1 = (b (a s).1).1.
Proof. unfold seqa. destruct (a s) as [s1 o1]. simpl. by destruct (b s1). Qed.

Lemma seqa_snd a b s : (seqa a b s).2 = (a s).2 ++ (b (a s).1).2.
Proof. unfold seqa. destruct (a s) as [s1 o1]. simpl. by destruct (b s1). Qed.

Class TraceRel (R : St → list Out → St → Prop) : Prop := {
  tr_refl s : R s [] s;
  tr_trans s1 o1 s2 o2 s3 : R s1 o1 s2 → R s2 o2 s3 → R s1 (o1 ++ o2) s3
}.

Definition respects (R : St → list Out → St → Prop) (a : act) : Prop :=
  ∀ s, R s (a s).2 (a s).1.

Section respects.
Context (R : St → list Out → St → Prop) `{!TraceRel R}.

Lemma respects_skip : respects R skip.
Proof. intros s. apply tr_refl. Qed.

Lemma respects_seqa a b : respects R a → respects R b → respects R (seqa a b).
Proof.
  intros Ha Hb s. unfold seqa. specialize (Ha s). destruct (a s) as [s1 o1].
  specialize (Hb s1). destruct (b s1) as [s2 o2]. by eapply tr_trans.
Qed.

Lemma respects_read {A} (f : St → A) k :
  (∀ a, respects R (k a)) → respects R (read f k).
Proof. intros H s. apply H. Qed.

Lemma respects_foreach {A} (l : list A) body :
  (∀ x, x ∈ l → respects R (body x)) → respects R (foreach l body).
Proof.
  induction l as [|x l IH]; intros H; [apply respects_skip|].
  apply respects_seqa; [apply H; left|apply IH; intros; apply H; by right].
Qed.

Lemma respects_weaken (R' : St → list Out → St → Prop) a :
  (∀ s o s', R' s o s' → R s o s') → respects R' a → respects R a.
Proof. intros H Ha s. apply H, Ha. Qed.

Lemma respects_run {Ev} (step : Ev → act) (P : Ev → Prop) evs :
  (∀ ev, P ev → respects R (step ev)) → Forall P evs → respects R (run step evs).
Proof.
  intros H. induction 1; [apply respects_skip|]. simpl. apply respects_seqa; auto.
Qed.
End respects.

(** A state invariant as a trace relation. *)
Definition keeps (I : St → Prop) (s : St) (_ : list Out) (s' : St) : Prop := I s → I s'.

#[export] Instance keeps_trace I : TraceRel (keeps I).
Proof. unfold keeps. split; auto. Qed.

(** A relation that may rely on an invariant the handlers keep. *)
Definition under (I : St → Prop) (R : St → list Out → St → Prop) s o s' : Prop :=
  I s → I s' ∧ R s o s'.

#[export] Instance under_trace I R `{!TraceRel R} : TraceRel (under I R).
Proof.
  unfold under. split.
  - intros s H. split; [done|apply tr_refl].
  - intros s1 o1 s2 o2 s3 H1 H2 I1. destruct (H1 I1) as [I2 R1]. destruct (H2 I2) as [I3 R2].
    split; [done|]. by eapply tr_trans.
Qed.

(** Something that may happen at most [pot] times. *)
Definition budget (cost : Out → Z) (pot : St → Z) s o s' : Prop :=
  sumZ cost o + pot s' ≤ pot s.

#[export] Instance budget_trace cost pot : TraceRel (budget cost pot).
Proof.
  unfold budget. split; intros; [simpl; lia|]. rewrite sumZ_app. lia.
Qed.

(** Outputs that all satisfy a predicate. *)
Definition emits (P : Out → Prop) (s : St) (o : list Out) (s' : St) : Prop := Forall P o.

#[export] Instance emits_trace P : TraceRel (emits P).
Proof. unfold emits. split; intros; [constructor|by apply Forall_app]. Qed.
End act.

Arguments act : clear implicits.

Declare Scope act_scope.
Notation "a ;; b" := (seqa a b) (at level 100, b at level 200, right associativity) : act_scope.

(** Structural steps; primitives and named handlers are left to the caller
    or to the hints of the [respects] database. *)
Create HintDb respects.

Ltac respects_step :=
  match goal with
  | H : respects ?R ?a |- respects ?R ?a => exact H
  | |- TraceRel _ => apply _
  | |- respects _ skip => apply respects_skip
  | |- respects _ (seqa _ _) => apply respects_seqa
  | |- respects _ (read _ _) => apply respects_read; intro
  | |- respects _ (foreach _ _) => apply respects_foreach; intros
  | |- respects _ (if ?b then _ else _) => destruct b eqn:?
  | |- respects _ (match ?x with _ => _ end) => destruct x eqn:?
  | |- respects _ _ => solve [eauto with respects]
  end.
Ltac respects_auto := repeat respects_step.
