(* ===== verification/TunnelStream.v ===== *)
(** * One subscription stream over the tunnel
      (buildSubscriptionIterable in packages/remote/src/tunnel/tunnel-server.ts)

    The push-pull queue between a node's [stream-event] frames and the
    consumer's [next()] calls.  Its handlers are functions from the
    iterator's variables to the new variables and the effects they have, in
    order, on the connection and on the promises [next()] handed out. *)

From S2P Require Import Prelude TunnelMessages.

#[local] Open Scope string_scope.
#[local] Open Scope list_scope.
#[local] Open Scope Z_scope.

Inductive Entry :=
| EValue (value : string) (bytes : Z)
| EError (error : FrameError)
| EComplete.

(** The variables the iterator's closures share.  [pending] is the promise
    of the [next()] call that waits, if one does. *)
Record Stream := {
  buffer : list Entry;
  queuedBytes : Z;
  pending : option nat;
  registered : bool;
  finished : bool
}.

Definition new_stream : Stream :=
  {| buffer := []; queuedBytes := 0; pending := None; registered := false; finished := false |}.

Inductive StreamEffect :=
| FSubscribe            (** [state.subscriptions.set], [state.queues.set] *)
| FSendReq              (** [ws.send] of the request frame went out *)
| FUnsubscribe          (** [state.subscriptions.delete] *)
| FRelease              (** [state.queues.delete] *)
| FCancel               (** [streams.cancel(req.id)] *)
| FDeliver (p : nat) (value : string)
| FReject (p : nat) (error : FrameError)
| FDone (p : nat).

Section stream.
Context (limits : StreamLimits).

(** A terminal entry: [EError] or [EComplete]. *)
Definition finish (entry : Entry) (st : Stream) : Stream * list StreamEffect :=
  if finished st then (st, [])
  else match pending st with
  | None =>
      ({| buffer := buffer st ++ [entry]; queuedBytes := queuedBytes st; pending := None;
          registered := registered st; finished := true |}, [FUnsubscribe])
  | Some p =>
      ({| buffer := buffer st; queuedBytes := queuedBytes st; pending := None;
          registered := registered st; finished := true |},
       [FUnsubscribe; FRelease; match entry with EError e => FReject p e | _ => FDone p end])
  end.

Definition overflow (message : string) (st : Stream) : Stream * list StreamEffect :=
  let '(st', eff) :=
    finish (EError {| fe_code := TUNNEL_STREAM_OVERFLOW; fe_message := message |}) st in
  (st', eff ++ [FCancel]).

(** [handlers.push]; the message's numbers are left out of the model. *)
Definition push (value : string) (bytes : Z) (st : Stream) : Stream * list StreamEffect :=
  if finished st then (st, [])
  else if bytes >? maxFrameBytes limits then overflow "stream-event exceeds the frame cap" st
  else match pending st with
  | Some p =>
      ({| buffer := buffer st; queuedBytes := queuedBytes st; pending := None;
          registered := registered st; finished := false |}, [FDeliver p value])
  | None =>
      if queuedBytes st + bytes >? maxQueuedBytes limits
      then overflow "a slow consumer let bytes queue past the cap" st
      else ({| buffer := buffer st ++ [EValue value bytes]; queuedBytes := queuedBytes st + bytes;
               pending := None; registered := registered st; finished := false |}, [])
  end.

(** [handlers.done] *)
Definition done_handler (error : option FrameError) (st : Stream) : Stream * list StreamEffect :=
  finish (match error with Some e => EError e | None => EComplete end) st.

(** [send_error]: the message [ws.send] throws with, if it throws. *)
Definition ensureRegistered (send_error : option string) (st : Stream)
    : Stream * list StreamEffect :=
  if registered st then (st, [])
  else
    let st1 := {| buffer := buffer st; queuedBytes := queuedBytes st; pending := pending st;
                  registered := true; finished := finished st |} in
    match send_error with
    | None => (st1, [FSubscribe; FSendReq])
    | Some msg =>
        let '(st2, eff) := done_handler (Some {| fe_code := "ws-send-failed"; fe_message := msg |}) st1 in
        (st2, FSubscribe :: eff)
    end.

(** [next()], whose promise is [p]. *)
Definition next (p : nat) (send_error : option string) (st : Stream)
    : Stream * list StreamEffect :=
  let '(st1, eff) := ensureRegistered send_error st in
  match buffer st1 with
  | EValue v b :: rest =>
      ({| buffer := rest; queuedBytes := queuedBytes st1 - b; pending := pending st1;
          registered := registered st1; finished := finished st1 |}, eff ++ [FDeliver p v])
  | head =>
      let st2 := {| buffer := tail head; queuedBytes := queuedBytes st1; pending := pending st1;
                    registered := registered st1; finished := finished st1 |} in
      match head with
      | [] =>
          if finished st2 then (st2, eff ++ [FRelease; FDone p])
          else ({| buffer := buffer st2; queuedBytes := queuedBytes st2; pending := Some p;
                   registered := registered st2; finished := finished st2 |}, eff)
      | EError e :: _ => (st2, eff ++ [FRelease; FReject p e])
      | _ => (st2, eff ++ [FRelease; FDone p])
      end
  end.

Definition cleanup (st : Stream) : Stream * list StreamEffect :=
  let st1 := {| buffer := []; queuedBytes := 0; pending := pending st;
                registered := registered st; finished := true |} in
  (st1, FRelease ::
    (if finished st then []
     else FUnsubscribe :: (if registered st then [FCancel] else []))).

(** [return()], whose promise is [p]. *)
Definition return_ (p : nat) (st : Stream) : Stream * list StreamEffect :=
  let '(st1, eff) := cleanup st in
  let st2 := {| buffer := buffer st1; queuedBytes := queuedBytes st1; pending := None;
                registered := registered st1; finished := finished st1 |} in
  (st2, eff ++ (match pending st1 with Some q => [FDone q] | None => [] end) ++ [FDone p]).

(** What can happen to a stream: frames from the node, the end of the
    connection, calls by the consumer. *)
Inductive StreamEvent :=
| VPush (value : string) (bytes : Z)
| VDone (error : option FrameError)
| VNext (p : nat) (send_error : option string)
| VReturn (p : nat).

Definition stream_step (ev : StreamEvent) (st : Stream) : Stream * list StreamEffect :=
  match ev with
  | VPush v b => push v b st
  | VDone e => done_handler e st
  | VNext p se => next p se st
  | VReturn p => return_ p st
  end.

Fixpoint stream_run (evs : list StreamEvent) (st : Stream) : Stream * list StreamEffect :=
  match evs with
  | [] => (st, [])
  | ev :: evs' =>
      let '(st1, eff1) := stream_step ev st in
      let '(st2, eff2) := stream_run evs' st1 in
      (st2, eff1 ++ eff2)
  end.

(** ** What a run does *)

Definition is_value (e : Entry) : bool := match e with EValue _ _ => true | _ => false end.

Definition entry_values (es : list Entry) : list string :=
  omap (λ e, match e with EValue v _ => Some v | _ => None end) es.

Definition entry_bytes (e : Entry) : Z := match e with EValue _ b => b | _ => 0 end.

Definition pushed (evs : list StreamEvent) : list string :=
  omap (λ ev, match ev with VPush v _ => Some v | _ => None end) evs.

Definition delivered (effs : list StreamEffect) : list string :=
  omap (λ e, match e with FDeliver _ v => Some v | _ => None end) effs.

Definition settled (effs : list StreamEffect) : list nat :=
  omap (λ e, match e with FDeliver p _ | FReject p _ | FDone p => Some p | _ => None end) effs.

Definition issued (evs : list StreamEvent) : list nat :=
  omap (λ ev, match ev with VNext p _ | VReturn p => Some p | _ => None end) evs.

(** The promises a terminal reached. *)
Definition is_terminal (e : StreamEffect) : bool :=
  match e with FReject _ _ | FDone _ => true | _ => false end.

Definition is_quiet (e : StreamEffect) : bool :=
  match e with FDeliver _ _ | FReject _ _ => false | _ => true end.

(** Behind a terminal the consumer sees neither a value nor an error. *)
Fixpoint terminal_last (effs : list StreamEffect) : bool :=
  match effs with
  | [] => true
  | e :: effs' => (negb (is_terminal e) || forallb is_quiet effs') && terminal_last effs'
  end.

Definition cancels (effs : list StreamEffect) : Z :=
  sumZ (λ e, match e with FCancel => 1 | _ => 0 end) effs.
Definition requests (effs : list StreamEffect) : Z :=
  sumZ (λ e, match e with FSendReq => 1 | _ => 0 end) effs.

(** A consumer that awaits each [next()] before it calls the next one. *)
Fixpoint sequential (evs : list StreamEvent) (st : Stream) : bool :=
  match evs with
  | [] => true
  | ev :: evs' =>
      match ev, pending st with VNext _ _, Some _ => false | _, _ => true end &&
      sequential evs' (stream_step ev st).1
  end.

(** The buffer holds values, then at most one terminal, and that only once
    the stream is over. *)
Fixpoint shape (fin : bool) (es : list Entry) : bool :=
  match es with
  | [] => true
  | EValue _ _ :: es' => shape fin es'
  | _ :: es' => fin && match es' with [] => true | _ => false end
  end.

(** A promise waits only on an empty, live stream. *)
Record stream_inv (st : Stream) : Prop := {
  si_shape : shape (finished st) (buffer st) = true;
  si_bytes : queuedBytes st = sumZ entry_bytes (buffer st);
  si_nonneg : Forall (λ e, 0 ≤ entry_bytes e) (buffer st);
  si_cap : queuedBytes st ≤ maxQueuedBytes limits;
  si_pending : is_Some (pending st) → buffer st = [] ∧ finished st = false
}.

(** Frame sizes are byte lengths. *)
Definition event_ok (ev : StreamEvent) : Prop :=
  match ev with VPush _ b => 0 ≤ b | _ => True end.

Lemma shape_app_value es v b : shape false (es ++ [EValue v b]) = shape false es.
Proof. induction es as [|[| |] es IH]; simpl; done. Qed.

Lemma shape_app_terminal es e :
  is_value e = false → shape false es = true → shape true (es ++ [e]) = true.
Proof. intros He. induction es as [|[| |] es IH]; simpl; try done. by destruct e. Qed.

Lemma shape_mono es : shape false es = true → shape true es = true.
Proof. induction es as [|[| |] es IH]; simpl; try done. Qed.

Lemma new_stream_inv : 0 ≤ maxQueuedBytes limits → stream_inv new_stream.
Proof. intros H. split; simpl; try done; by intros [? ?]. Qed.

Lemma finish_inv e st : is_value e = false → stream_inv st → stream_inv (finish e st).1.
Proof.
  intros He Hi. pose proof Hi as [Hs Hq Hn Hc Hp]. unfold finish.
  destruct (finished st) eqn:Hf; [done|].
  destruct (pending st) as [p|] eqn:Hpe; split; simpl; try done; try (by intros [? ?]).
  - by apply shape_mono.
  - by apply shape_app_terminal.
  - rewrite sumZ_app. simpl. destruct e; simpl in *; try done; lia.
  - apply Forall_app. split; [done|]. constructor; [|done]. by destruct e.
Qed.

Lemma push_inv v b st : 0 ≤ b → stream_inv st → stream_inv (push v b st).1.
Proof.
  intros Hb Hi. pose proof Hi as [Hs Hq Hn Hc Hp]. unfold push, overflow.
  destruct (finished st) eqn:Hf; [done|].
  case_match.
  { pose proof (finish_inv (EError {| fe_code := TUNNEL_STREAM_OVERFLOW;
      fe_message := "stream-event exceeds the frame cap" |}) st eq_refl Hi) as H1.
    by destruct (finish _ _). }
  destruct (pending st) as [p|] eqn:Hpe.
  { split; simpl; try done; by intros [? ?]. }
  case_match.
  { pose proof (finish_inv (EError {| fe_code := TUNNEL_STREAM_OVERFLOW;
      fe_message := "a slow consumer let bytes queue past the cap" |}) st eq_refl Hi) as H1.
    by destruct (finish _ _). }
  split; simpl; try (by intros [? ?]).
  - by rewrite shape_app_value.
  - rewrite sumZ_app. simpl. lia.
  - apply Forall_app. split; [done|]. by constructor.
  - lia.
Qed.

Lemma ensureRegistered_inv se st : stream_inv st → stream_inv (ensureRegistered se st).1.
Proof.
  intros Hi. unfold ensureRegistered. destruct (registered st); [done|].
  set (st1 := {| registered := true |}).
  assert (stream_inv st1) as H1 by (destruct Hi; by split).
  destruct se as [msg|]; [|done].
  pose proof (finish_inv (EError {| fe_code := "ws-send-failed"; fe_message := msg |}) st1
    eq_refl H1) as H2.
  unfold done_handler. by destruct (finish _ _).
Qed.

Lemma stream_step_inv ev st : event_ok ev → stream_inv st → stream_inv (stream_step ev st).1.
Proof.
  intros Hev Hi. destruct ev as [v b|e|p se|p]; simpl.
  - by apply push_inv.
  - apply finish_inv; [by destruct e|done].
  - unfold next. pose proof (ensureRegistered_inv se st Hi) as [Hs Hq Hn Hc Hp].
    destruct (ensureRegistered se st) as [[buf q pe reg fin] eff]. simpl in *.
    destruct buf as [|[v b|e|] buf]; simpl in *.
    + destruct fin; simpl; split; simpl; auto.
    + apply Forall_cons in Hn as [Hb Hn]. simpl in Hb. split; simpl; try done; try lia.
      intros H. by destruct (Hp H).
    + destruct fin, buf; try done. split; simpl; try done. intros H. by destruct (Hp H).
    + destruct fin, buf; try done. split; simpl; try done. intros H. by destruct (Hp H).
  - destruct Hi as [Hs Hq Hn Hc Hp]. split; simpl; try done; try (by intros [? ?]).
    pose proof (sumZ_nonneg entry_bytes (buffer st)) as H.
    rewrite Forall_forall in Hn. specialize (H Hn). lia.
Qed.

Lemma stream_run_inv evs st :
  Forall event_ok evs → stream_inv st → stream_inv (stream_run evs st).1.
Proof.
  intros H. revert st. induction H as [|ev evs Hev _ IH]; intros st Hi; [done|]. simpl.
  pose proof (stream_step_inv ev st Hev Hi) as H1. destruct (stream_step ev st) as [st1 e1].
  specialize (IH st1 H1). by destruct (stream_run evs st1).
Qed.

(** ** Order and loss *)

Lemma delivered_app e1 e2 : delivered (e1 ++ e2) = delivered e1 ++ delivered e2.
Proof. apply omap_app. Qed.

Lemma ensureRegistered_values se st :
  entry_values (buffer (ensureRegistered se st).1) = entry_values (buffer st) ∧
  delivered (ensureRegistered se st).2 = [].
Proof.
  unfold ensureRegistered, done_handler, finish.
  destruct (registered st), se; simpl; try done.
  destruct (finished st); simpl; [done|]. destruct (pending st); simpl; [done|].
  unfold entry_values. by rewrite omap_app, app_nil_r.
Qed.

(** One step takes values off the front of the buffer and appends at most
    one; what it drops ([rest]) it drops only when the stream is over. *)
Lemma stream_step_values ev st :
  stream_inv st →
  ∃ rest, entry_values (buffer st) ++ pushed [ev] =
    delivered (stream_step ev st).2 ++ entry_values (buffer (stream_step ev st).1) ++ rest ∧
    (finished (stream_step ev st).1 = false → rest = []).
Proof.
  intros Hi. pose proof Hi as [Hs _ _ _ Hp].
  destruct st as [buf q pe reg fin]; simpl in *.
  destruct ev as [v b|e|p se|p]; simpl.
  - unfold push, overflow, finish; simpl. destruct fin; simpl; [by exists [v]|].
    destruct (b >? _); [destruct pe; simpl|destruct pe; simpl; [|destruct (_ >? _); simpl]].
    + exists [v]. by destruct (Hp ltac:(done)) as [-> _].
    + exists [v]. unfold entry_values. by rewrite omap_app, app_nil_r.
    + exists []. by destruct (Hp ltac:(done)) as [-> _].
    + exists [v]. unfold entry_values. by rewrite omap_app, app_nil_r.
    + exists []. unfold entry_values. by rewrite omap_app, app_nil_r.
  - exists []. rewrite !app_nil_r. unfold done_handler, finish; simpl.
    destruct fin; [done|]. destruct pe; simpl; [by destruct e|].
    unfold entry_values. rewrite omap_app. by destruct e; simpl; rewrite app_nil_r.
  - exists []. rewrite !app_nil_r. split; [|done]. unfold next.
    pose proof (ensureRegistered_values se {| buffer := buf; queuedBytes := q; pending := pe;
      registered := reg; finished := fin |}) as [H1 H2].
    pose proof (ensureRegistered_inv se _ Hi) as [Hs1 _ _ _ _].
    destruct (ensureRegistered _ _) as [[buf1 q1 pe1 reg1 fin1] eff]. simpl in *. rewrite <-H1.
    destruct buf1 as [|[v b|e|] buf1]; simpl in *.
    + destruct fin1; simpl; rewrite ?delivered_app, ?H2; done.
    + by rewrite delivered_app, H2.
    + destruct fin1, buf1; try done. by rewrite delivered_app, H2.
    + destruct fin1, buf1; try done. by rewrite delivered_app, H2.
  - exists (entry_values buf). rewrite app_nil_r. split; [|done]. by destruct pe, fin, reg.
Qed.

(** Once over, a stream stays over and takes no more values. *)
Lemma stream_step_finished ev st :
  stream_inv st → finished st = true →
  finished (stream_step ev st).1 = true ∧
  delivered (stream_step ev st).2 ++ entry_values (buffer (stream_step ev st).1)
    `prefix_of` entry_values (buffer st).
Proof.
  intros Hi Hf. split.
  - destruct st as [buf q pe reg fin]; simpl in *; subst.
    destruct ev as [v b|e|p [msg|]|p]; simpl; try done; unfold next, ensureRegistered;
      destruct reg; simpl; destruct buf as [|[v b|e|] buf]; done.
  - destruct (decide (pushed [ev] = [])) as [Hev|Hev].
    + destruct (stream_step_values ev st Hi) as (rest&H&_). rewrite Hev, app_nil_r in H.
      exists rest. by rewrite <-app_assoc.
    + destruct ev as [v b|e|p se|p]; try done. simpl. unfold push. by rewrite Hf.
Qed.

#[local] Arguments delivered : simpl never.
#[local] Arguments pushed : simpl never.
#[local] Arguments entry_values : simpl never.

Lemma stream_run_cons ev evs st :
  stream_run (ev :: evs) st =
    ((stream_run evs (stream_step ev st).1).1,
     (stream_step ev st).2 ++ (stream_run evs (stream_step ev st).1).2).
Proof. simpl. destruct (stream_step ev st). simpl. by destruct (stream_run evs _). Qed.

Lemma pushed_cons ev evs : pushed (ev :: evs) = pushed [ev] ++ pushed evs.
Proof. by destruct ev. Qed.

Lemma stream_run_finished evs st :
  Forall event_ok evs → stream_inv st → finished st = true →
  finished (stream_run evs st).1 = true ∧
  delivered (stream_run evs st).2 ++ entry_values (buffer (stream_run evs st).1)
    `prefix_of` entry_values (buffer st).
Proof.
  intros H. revert st. induction H as [|ev evs Hev _ IH]; intros st Hi Hf; [done|].
  rewrite stream_run_cons. simpl.
  destruct (stream_step_finished ev st Hi Hf) as [Hf1 [k1 H1]].
  destruct (IH _ (stream_step_inv ev st Hev Hi) Hf1) as [Hf2 [k2 H2]]. split; [done|].
  rewrite delivered_app. exists (k2 ++ k1). by rewrite H1, H2, <-!app_assoc.
Qed.

Lemma stream_run_values evs st :
  Forall event_ok evs → stream_inv st →
  ∃ rest, entry_values (buffer st) ++ pushed evs =
    delivered (stream_run evs st).2 ++ entry_values (buffer (stream_run evs st).1) ++ rest ∧
    (finished (stream_run evs st).1 = false → rest = []).
Proof.
  intros H. revert st. induction H as [|ev evs Hev Hevs IH]; intros st Hi.
  { exists []. simpl. by rewrite !app_nil_r. }
  destruct (stream_step_values ev st Hi) as (r1&E1&F1).
  pose proof (stream_step_inv ev st Hev Hi) as Hi1.
  rewrite stream_run_cons, pushed_cons, app_assoc, E1. simpl. rewrite delivered_app.
  destruct (finished (stream_step ev st).1) eqn:Hf1.
  - destruct (stream_run_finished evs _ Hevs Hi1 Hf1) as [Hf2 [k Hk]].
    exists (k ++ r1 ++ pushed evs). rewrite Hk, Hf2, <-!app_assoc. done.
  - rewrite (F1 eq_refl), app_nil_r. destruct (IH _ Hi1) as (r2&E2&F2).
    exists r2. split; [|done]. by rewrite <-!app_assoc, E2.
Qed.

(** ** The terminal comes once and last *)

Definition drained (st : Stream) : Prop := finished st = true ∧ buffer st = [] ∧ pending st = None.

Lemma terminal_last_app e1 e2 :
  terminal_last e1 = true → terminal_last e2 = true →
  existsb is_terminal e1 = false ∨ forallb is_quiet e2 = true →
  terminal_last (e1 ++ e2) = true.
Proof.
  intros H1 H2 H. induction e1 as [|e e1 IH]; [done|]. simpl in *. to_prop.
  apply andb_true_iff. split.
  - destruct H as [H|H]; [to_prop; by rewrite H|]. rewrite forallb_app, H, andb_true_r. by apply orb_true_iff.
  - apply IH; [done|]. destruct H as [H|H]; [left; by to_prop|by right].
Qed.

Lemma stream_step_drained ev st :
  drained st → drained (stream_step ev st).1 ∧ forallb is_quiet (stream_step ev st).2 = true.
Proof.
  destruct st as [buf q pe reg fin]. intros (?&?&?); simpl in *; subst.
  by destruct ev as [v b|e|p [msg|]|p], reg.
Qed.

Lemma stream_run_drained evs st :
  drained st → forallb is_quiet (stream_run evs st).2 = true.
Proof.
  revert st. induction evs as [|ev evs IH]; intros st H; [done|].
  rewrite stream_run_cons. simpl. destruct (stream_step_drained ev st H) as [H1 H2].
  by rewrite forallb_app, H2, (IH _ H1).
Qed.

Lemma stream_step_terminal ev st :
  stream_inv st →
  match ev with VNext _ _ => pending st = None | _ => True end →
  terminal_last (stream_step ev st).2 = true ∧
  (existsb is_terminal (stream_step ev st).2 = true → drained (stream_step ev st).1).
Proof.
  intros [Hs _ _ _ Hp] Hseq. unfold drained. destruct st as [buf q pe reg fin]; simpl in *.
  destruct ev as [v b|e|p se|p]; simpl.
  - unfold push, overflow, finish. simpl.
    destruct fin, pe as [p|]; simpl; try done; [destruct (b >? _)|destruct (b >? maxFrameBytes limits), (q + b >? maxQueuedBytes limits)];
      simpl; try done.
    split; [done|]. by destruct (Hp ltac:(done)).
  - unfold done_handler, finish. destruct fin, pe as [p|]; simpl; try done.
    destruct (Hp ltac:(done)). by destruct e.
  - subst. unfold next, ensureRegistered, done_handler, finish.
    destruct reg, se, fin; simpl; destruct buf as [|[v b|e|] buf]; try done; simpl in *;
      by destruct buf.
  - by destruct pe, fin, reg.
Qed.

Lemma stream_run_terminal evs st :
  Forall event_ok evs → stream_inv st → sequential evs st = true →
  terminal_last (stream_run evs st).2 = true.
Proof.
  intros H. revert st. induction H as [|ev evs Hev _ IH]; intros st Hi Hseq; [done|].
  rewrite stream_run_cons. simpl in *. to_prop.
  destruct (stream_step_terminal ev st Hi) as [H1 H2].
  { destruct ev; try done. by destruct (pending st). }
  apply terminal_last_app; [done|apply IH; [by apply stream_step_inv|done]|].
  destruct (existsb is_terminal (stream_step ev st).2); [right|by left].
  by apply stream_run_drained, H2.
Qed.

(** ** One request, one cancel *)

Definition once (b : bool) : Z := if b then 0 else 1.

Lemma stream_step_once ev st :
  cancels (stream_step ev st).2 + once (finished (stream_step ev st).1) ≤ once (finished st) ∧
  requests (stream_step ev st).2 + once (registered (stream_step ev st).1) ≤ once (registered st).
Proof.
  destruct st as [buf q pe reg fin]. destruct ev as [v b|e|p se|p]; simpl.
  - unfold push, overflow, finish. simpl.
    destruct fin; simpl; [destruct reg; cbn; lia|].
    destruct (b >? maxFrameBytes limits), (q + b >? maxQueuedBytes limits), pe, reg; cbn; lia.
  - unfold done_handler, finish. destruct fin, pe, reg, e; cbn; lia.
  - unfold next, ensureRegistered, done_handler, finish.
    destruct reg, se, fin, pe; simpl; destruct buf as [|[v b|e|] buf]; cbn; lia.
  - destruct fin, pe, reg; cbn; lia.
Qed.

Lemma stream_run_once evs st :
  cancels (stream_run evs st).2 ≤ once (finished st) ∧
  requests (stream_run evs st).2 ≤ once (registered st).
Proof.
  revert st. induction evs as [|ev evs IH]; intros st.
  { cbn. by destruct (finished st), (registered st). }
  rewrite stream_run_cons. simpl. destruct (stream_step_once ev st) as [H1 H2].
  destruct (IH (stream_step ev st).1) as [H3 H4].
  unfold cancels, requests in *. rewrite !sumZ_app. lia.
Qed.

(** ** Promises *)

Lemma stream_step_promises ev st :
  stream_inv st →
  match ev with VNext _ _ => pending st = None | _ => True end →
  option_list (pending st) ++ issued [ev] ≡ₚ
    settled (stream_step ev st).2 ++ option_list (pending (stream_step ev st).1).
Proof.
  intros [Hs _ _ _ Hp] Hseq. destruct st as [buf q pe reg fin]; simpl in *.
  destruct ev as [v b|e|p se|p]; simpl.
  - unfold push, overflow, finish. simpl.
    destruct fin; simpl; [by rewrite app_nil_r|].
    destruct (b >? maxFrameBytes limits), (q + b >? maxQueuedBytes limits), pe; done.
  - unfold done_handler, finish. destruct fin, pe, e; done.
  - subst. unfold next, ensureRegistered, done_handler, finish.
    destruct reg, se, fin; simpl; destruct buf as [|[v b|e|] buf]; simpl; done.
  - by destruct pe, fin, reg.
Qed.

Lemma settled_app e1 e2 : settled (e1 ++ e2) = settled e1 ++ settled e2.
Proof. apply omap_app. Qed.

Lemma issued_cons ev evs : issued (ev :: evs) = issued [ev] ++ issued evs.
Proof. by destruct ev. Qed.

Lemma stream_run_promises evs st :
  Forall event_ok evs → stream_inv st → sequential evs st = true →
  option_list (pending st) ++ issued evs ≡ₚ
    settled (stream_run evs st).2 ++ option_list (pending (stream_run evs st).1).
Proof.
  intros H. revert st. induction H as [|ev evs Hev _ IH]; intros st Hi Hseq.
  { simpl. by rewrite app_nil_r. }
  simpl in Hseq. to_prop. rewrite stream_run_cons, issued_cons, app_assoc.
  rewrite (stream_step_promises ev st Hi) by (destruct ev; try done; by destruct (pending st)).
  simpl. rewrite settled_app, <-!app_assoc. f_equiv.
  apply IH; [by apply stream_step_inv|done].
Qed.
End stream.

(** ** Properties *)

(** Whatever the node sends and however slowly the consumer
    reads, the counter [queuedBytes] is the size of the buffered values and
    never leaves the range from 0 to [maxQueuedBytes]. *)
Theorem stream_queue_bounded limits evs :
  0 ≤ maxQueuedBytes limits → Forall event_ok evs →
  let st := (stream_run limits evs new_stream).1 in
  queuedBytes st = sumZ entry_bytes (buffer st) ∧ 0 ≤ queuedBytes st ≤ maxQueuedBytes limits.
Proof.
  intros Hl H. simpl.
  destruct (stream_run_inv limits evs new_stream H (new_stream_inv limits Hl)) as [_ Hq Hn Hc _].
  split; [done|]. split; [|done]. rewrite Hq. apply sumZ_nonneg. by rewrite Forall_forall in Hn.
Qed.

(** The consumer gets the pushed values in the order the
    node sent them, without gap or duplicate: delivered values, then buffered
    values, then what was given up, make up the pushed sequence, and nothing
    is given up before the stream is over. *)
Theorem stream_fifo limits evs :
  0 ≤ maxQueuedBytes limits → Forall event_ok evs →
  let st := (stream_run limits evs new_stream).1 in
  ∃ dropped,
    pushed evs = delivered (stream_run limits evs new_stream).2 ++ entry_values (buffer st) ++ dropped ∧
    (finished st = false → dropped = []).
Proof. intros Hl H. by apply (stream_run_values limits evs new_stream H), new_stream_inv. Qed.

(** For a consumer that awaits each [next()], no value and no
    second error comes after the stream's error or completion; and for any
    consumer the request is sent and the node's stream cancelled at most once. *)
Theorem stream_terminal_once limits evs :
  0 ≤ maxQueuedBytes limits → Forall event_ok evs →
  let effs := (stream_run limits evs new_stream).2 in
  (sequential limits evs new_stream = true → terminal_last effs = true) ∧
  requests effs ≤ 1 ∧ cancels effs ≤ 1.
Proof.
  intros Hl H. split; [intros Hs; by apply stream_run_terminal; [..|apply new_stream_inv|]|].
  by destruct (stream_run_once limits evs new_stream).
Qed.

(** For a consumer that awaits each [next()], every promise
    handed out is settled exactly once, except one that still waits; and once
    the stream is over none waits. *)
Theorem stream_promises_settled limits evs :
  0 ≤ maxQueuedBytes limits → Forall event_ok evs → sequential limits evs new_stream = true →
  let st := (stream_run limits evs new_stream).1 in
  issued evs ≡ₚ settled (stream_run limits evs new_stream).2 ++ option_list (pending st) ∧
  (finished st = true → pending st = None).
Proof.
  intros Hl H Hs. pose proof (new_stream_inv limits Hl) as Hi. split.
  - by apply (stream_run_promises limits evs new_stream).
  - destruct (stream_run_inv limits evs _ H Hi) as [_ _ _ _ Hp]. intros Hf.
    destruct (pending _); [|done]. destruct (Hp ltac:(done)). congruence.
Qed.

(** Called before any [next()], [return()] ends the iterator on
    its side only: the next [next()] still registers the stream and sends the
    request, no event after it cancels the node's stream, and what the node
    then pushes is dropped. *)
Theorem return_then_next_leaks limits p q value bytes :
  stream_run limits [VReturn p; VNext q None; VPush value bytes; VDone None; VReturn q] new_stream =
    ({| buffer := []; queuedBytes := 0; pending := None; registered := true; finished := true |},
     [FRelease; FUnsubscribe; FDone p; FSubscribe; FSendReq; FRelease; FDone q; FRelease; FDone q]).
Proof. done. Qed.

(** Two [next()] calls that wait at once: the first promise is never settled. *)
Lemma concurrent_next_orphans limits a e :
  0 ≤ maxFrameBytes limits →
  settled (stream_run limits [VNext 1 None; VNext 2 None; VPush a 0; VDone e; VNext 3 None]%nat
    new_stream).2 = [2; 3]%nat.
Proof.
  intros H. simpl. unfold push, overflow, finish. simpl.
  destruct (0 >? maxFrameBytes limits) eqn:E; [lia|by destruct e].
Qed.

Definition demo_limits : StreamLimits := {| maxFrameBytes := 10; maxQueuedBytes := 12 |}.
Definition demo_events : list StreamEvent :=
  [VNext 1 None; VPush "a" 5; VPush "b" 6; VPush "c" 6; VPush "d" 1; VNext 2 None; VNext 3 None;
   VNext 4 None; VNext 5 None]%nat.

Example demo_stream_run :
  stream_run demo_limits demo_events new_stream =
    ({| buffer := []; queuedBytes := 0; pending := None; registered := true; finished := true |},
     [FSubscribe; FSendReq; FDeliver 1 "a"; FUnsubscribe; FCancel; FDeliver 2 "b"; FDeliver 3 "c";
      FRelease;
      FReject 4 {| fe_code := TUNNEL_STREAM_OVERFLOW;
                   fe_message := "a slow consumer let bytes queue past the cap" |};
      FRelease; FDone 5]%nat).
Proof. vm_compute. reflexivity. Qed.

#[export] Instance event_ok_dec ev : Decision (event_ok ev).
Proof. destruct ev; simpl; apply _. Defined.

Lemma stream_queue_bounded_witness :
  queuedBytes (stream_run demo_limits (take 4 demo_events) new_stream).1 = 12 ∧
  0 ≤ queuedBytes (stream_run demo_limits (take 4 demo_events) new_stream).1 ≤ 12.
Proof.
  split; [vm_compute; reflexivity|].
  apply (stream_queue_bounded demo_limits (take 4 demo_events)); [done|].
  apply (bool_decide_unpack _). vm_compute. reflexivity.
Defined.

Lemma stream_fifo_witness :
  delivered (stream_run demo_limits demo_events new_stream).2 = ["a"; "b"; "c"] ∧
  ∃ dropped, pushed demo_events =
    delivered (stream_run demo_limits demo_events new_stream).2 ++
    entry_values (buffer (stream_run demo_limits demo_events new_stream).1) ++ dropped.
Proof.
  split; [vm_compute; reflexivity|].
  destruct (stream_fifo demo_limits demo_events) as [dropped [H _]]; [done| |by exists dropped].
  apply (bool_decide_unpack _). vm_compute. reflexivity.
Defined.

Lemma stream_terminal_once_witness :
  terminal_last (stream_run demo_limits demo_events new_stream).2 = true.
Proof.
  apply (stream_terminal_once demo_limits demo_events); [done| |vm_compute; reflexivity].
  apply (bool_decide_unpack _). vm_compute. reflexivity.
Defined.

Lemma stream_promises_settled_witness :
  issued demo_events ≡ₚ settled (stream_run demo_limits demo_events new_stream).2 ++
    option_list (pending (stream_run demo_limits demo_events new_stream).1).
Proof.
  apply (stream_promises_settled demo_limits demo_events); [done| |vm_compute; reflexivity].
  apply (bool_decide_unpack _). vm_compute. reflexivity.
Defined.
