(* ===== verification/TunnelServer.v ===== *)
(** * The control plane's end of the tunnel
      (packages/remote/src/tunnel/tunnel-server.ts)

    The registry of node connections, first-message authentication, the
    correlation of requests with responses under a timeout, and the routing of
    stream frames to the iterators of TunnelStream.v.  A connection, a request
    promise, a cancel and a stream are each named by a number that the model
    hands out; a timer is a flag that says whether its callback may still run.
    Every event carries what [ws.send] throws with, if it throws. *)

From S2P Require Import Prelude JsMap TunnelMessages TunnelStream.

#[local] Open Scope string_scope.
#[local] Open Scope list_scope.
#[local] Open Scope Z_scope.
#[local] Open Scope act_scope.

(** ** State *)

(** ConnectionState *)
Record Conn := {
  authenticated : bool;
  nodeName : option string;
  helloTimer : bool;
  pendingReqs : jsmap string nat;
  subscriptions : jsmap string nat;
  cancelling : jsmap string nat;
  queues : jsmap string nat
}.

(** The closure registerPendingWithTimeout makes. *)
Record Request := { rq_conn : nat; rq_key : string; rq_settled : bool; rq_timer : bool }.

(** The closure sendStreamCancel makes. *)
Record Cancel := { cn_conn : nat; cn_id : string; cn_node : string; cn_timer : bool }.

(** The closure buildSubscriptionIterable makes. *)
Record Sub := { sb_conn : nat; sb_req : TunnelReq; sb_limits : StreamLimits; sb_stream : Stream }.

Record Server := {
  nodes : jsmap string nat;
  conns : gmap nat Conn;
  requests : gmap nat Request;
  cancels : gmap nat Cancel;
  subs : gmap nat Sub;
  fresh : nat
}.

Definition new_conn : Conn :=
  {| authenticated := false; nodeName := None; helloTimer := false; pendingReqs := [];
     subscriptions := []; cancelling := []; queues := [] |}.

Definition new_server : Server :=
  {| nodes := []; conns := ∅; requests := ∅; cancels := ∅; subs := ∅; fresh := 0 |}.

Inductive JournalEntry :=
| JConnect (nodeName : string)
| JDisconnect (nodeName reason : string)
| JUnauthorized (nodeName : option string) (reason : string)
| JReplaced (nodeName : string).

Inductive Output :=
| OJournal (e : JournalEntry)
| OConnect (nodeName : string)
| ODisconnect (nodeName reason : string)
| OSend (c : nat) (m : TunnelMessage)
| OClose (c : nat) (code : Z) (reason : string)
| OResolve (r : nat) (res : TunnelRes)
| OReject (r : nat) (message : string)
| OCancelAck (t : nat) (nodeName id : string) (outcome : TunnelCancelOutcome)
| OStream (t : nat) (e : StreamEffect)
| OThrow (message : string).

#[local] Notation act := (TunnelMessages.act Server Output) (only parsing).

(** ** Field updates *)

Definition with_nodes f s :=
  {| nodes := f (nodes s); conns := conns s; requests := requests s; cancels := cancels s;
     subs := subs s; fresh := fresh s |}.
Definition with_conns f s :=
  {| nodes := nodes s; conns := f (conns s); requests := requests s; cancels := cancels s;
     subs := subs s; fresh := fresh s |}.
Definition with_requests f s :=
  {| nodes := nodes s; conns := conns s; requests := f (requests s); cancels := cancels s;
     subs := subs s; fresh := fresh s |}.
Definition with_cancels f s :=
  {| nodes := nodes s; conns := conns s; requests := requests s; cancels := f (cancels s);
     subs := subs s; fresh := fresh s |}.
Definition with_subs f s :=
  {| nodes := nodes s; conns := conns s; requests := requests s; cancels := cancels s;
     subs := f (subs s); fresh := fresh s |}.
Definition bump s :=
  {| nodes := nodes s; conns := conns s; requests := requests s; cancels := cancels s;
     subs := subs s; fresh := S (fresh s) |}.

Definition upd_conn (c : nat) (f : Conn → Conn) : act := upd (with_conns (alter f c)).

Definition with_pending f st :=
  {| authenticated := authenticated st; nodeName := nodeName st; helloTimer := helloTimer st;
     pendingReqs := f (pendingReqs st); subscriptions := subscriptions st;
     cancelling := cancelling st; queues := queues st |}.
Definition with_subscriptions f st :=
  {| authenticated := authenticated st; nodeName := nodeName st; helloTimer := helloTimer st;
     pendingReqs := pendingReqs st; subscriptions := f (subscriptions st);
     cancelling := cancelling st; queues := queues st |}.
Definition with_cancelling f st :=
  {| authenticated := authenticated st; nodeName := nodeName st; helloTimer := helloTimer st;
     pendingReqs := pendingReqs st; subscriptions := subscriptions st;
     cancelling := f (cancelling st); queues := queues st |}.
Definition with_queues f st :=
  {| authenticated := authenticated st; nodeName := nodeName st; helloTimer := helloTimer st;
     pendingReqs := pendingReqs st; subscriptions := subscriptions st;
     cancelling := cancelling st; queues := f (queues st) |}.
Definition with_helloTimer b st :=
  {| authenticated := authenticated st; nodeName := nodeName st; helloTimer := b;
     pendingReqs := pendingReqs st; subscriptions := subscriptions st;
     cancelling := cancelling st; queues := queues st |}.
Definition with_identity name st :=
  {| authenticated := true; nodeName := Some name; helloTimer := false;
     pendingReqs := pendingReqs st; subscriptions := subscriptions st;
     cancelling := cancelling st; queues := queues st |}.

(** A fresh closure or connection, made by [g], whose number [k] receives. *)
Definition alloc (g : nat → Server → Server) (k : nat → act) : act :=
  read fresh (λ n, upd (λ s, g n (bump s)) ;; k n).

Section server.
(** [bearerHashMatches(_, expectedBearerHash)]; it may throw. *)
Context (bearerMatches : string → result bool).
(** [requestTimeoutMs > 0 && Number.isFinite(requestTimeoutMs)] *)
Context (timeout_on : bool).
Context (streamLimits : StreamLimitsPolicy).
Context (now : string).

(** [k] on the state of connection [c] ([getState(ws)]). *)
Definition on_conn (c : nat) (k : Conn → act) : act :=
  read (λ s, conns s !! c) (λ o, match o with Some st => k st | None => skip end).

Definition ws_send (c : nat) (m : TunnelMessage) (send_err : option string)
    (onthrow : string → act) : act :=
  match send_err with None => emit (OSend c m) | Some e => onthrow e end.

(** ** Requests *)

(** [finish] of registerPendingWithTimeout: only our own entry is cleared. *)
Definition finish_request (r : nat) (q : Request) : act :=
  upd (with_requests (insert r {| rq_conn := rq_conn q; rq_key := rq_key q; rq_settled := true;
                                  rq_timer := false |})) ;;
  on_conn (rq_conn q) (λ st,
    if bool_decide (jm_get (pendingReqs st) (rq_key q) = Some r)
    then upd_conn (rq_conn q) (with_pending (λ p, jm_delete p (rq_key q))) else skip).

Definition settle_request (r : nat) (o : Output) : act :=
  read (λ s, requests s !! r) (λ q, match q with
    | Some q => if rq_settled q then skip else finish_request r q ;; emit o
    | None => skip end).

Definition wrappedResolve (r : nat) (res : TunnelRes) : act := settle_request r (OResolve r res).
Definition wrappedReject (r : nat) (message : string) : act := settle_request r (OReject r message).

Definition register_request (c : nat) (id : string) (r : nat) (s : Server) : Server :=
  with_conns (alter (with_pending (λ p, jm_set p id r)) c)
    (with_requests (insert r {| rq_conn := c; rq_key := id; rq_settled := false;
                                rq_timer := timeout_on |}) s).

(** [k] receives the number of the promise. *)
Definition registerPendingWithTimeout (c : nat) (id : string) (k : nat → act) : act :=
  alloc (register_request c id) k.

(** The timer's callback; it runs only while the timer is set. *)
Definition requestTimeout (r : nat) : act :=
  read (λ s, requests s !! r) (λ q, match q with
    | Some q => if rq_timer q then wrappedReject r "tunnel-request-timeout" else skip
    | None => skip end).

Definition registrySend (c : nat) (req : TunnelReq) (send_err : option string) : act :=
  on_conn c (λ _, registerPendingWithTimeout c (rq_id req) (λ _,
    ws_send c (MReq req) send_err (λ e,
      on_conn c (λ st, match jm_get (pendingReqs st) (rq_id req) with
        | Some r => wrappedReject r e
        | None => skip end)))).

Definition send (name : string) (req : TunnelReq) (send_err : option string) : act :=
  read (λ s, jm_get (nodes s) name) (λ o, match o with
    | Some c => registrySend c req send_err
    | None => emit (OThrow ("tunnel not connected for node '" +:+ name +:+ "'")) end).

Definition resolvePendingRes (c : nat) (msg : TunnelRes) : act :=
  on_conn c (λ st, match jm_get (pendingReqs st) (rs_id msg) with
    | Some r =>
        upd_conn c (with_pending (λ p, jm_delete p (rs_id msg))) ;; wrappedResolve r msg
    | None => skip end).

(** ** Streams *)

(** [settle] of sendStreamCancel. *)
Definition settle_cancel (t : nat) (outcome : TunnelCancelOutcome) : act :=
  read (λ s, cancels s !! t) (λ o, match o with
    | Some cn => on_conn (cn_conn cn) (λ st,
        if bool_decide (jm_get (cancelling st) (cn_id cn) = Some t)
        then upd_conn (cn_conn cn) (with_cancelling (λ m, jm_delete m (cn_id cn))) ;;
             upd (with_cancels (insert t {| cn_conn := cn_conn cn; cn_id := cn_id cn;
                                            cn_node := cn_node cn; cn_timer := false |})) ;;
             emit (OCancelAck t (cn_node cn) (cn_id cn) outcome)
        else skip)
    | None => skip end).

Definition register_cancel (c : nat) (id node : string) (t : nat) (s : Server) : Server :=
  with_conns (alter (with_cancelling (λ m, jm_set m id t)) c)
    (with_cancels (insert t {| cn_conn := c; cn_id := id; cn_node := node;
                               cn_timer := timeout_on |}) s).

Definition sendStreamCancel (c : nat) (id : string) (send_err : option string) : act :=
  on_conn c (λ st, alloc (register_cancel c id (default "" (nodeName st))) (λ t,
    ws_send c (MStreamCancel id) send_err (λ _, settle_cancel t UnknownOutcome))).

Definition cancelTimeout (t : nat) : act :=
  read (λ s, cancels s !! t) (λ o, match o with
    | Some cn => if cn_timer cn then settle_cancel t UnknownOutcome else skip
    | None => skip end).

(** What an iterator's effects do to its connection. *)
Definition apply_effect (t c : nat) (req : TunnelReq) (send_err : option string)
    (e : StreamEffect) : act :=
  match e with
  | FSubscribe =>
      upd_conn c (with_subscriptions (λ m, jm_set m (rq_id req) t)) ;;
      upd_conn c (with_queues (λ m, jm_set m (rq_id req) t))
  | FSendReq => emit (OSend c (MReq req))
  | FUnsubscribe => upd_conn c (with_subscriptions (λ m, jm_delete m (rq_id req)))
  | FRelease => upd_conn c (with_queues (λ m, jm_delete m (rq_id req)))
  | FCancel => sendStreamCancel c (rq_id req) send_err
  | FDeliver _ _ | FReject _ _ | FDone _ => emit (OStream t e)
  end.

Definition sub_event (t : nat) (ev : StreamEvent) (send_err : option string) : act :=
  read (λ s, subs s !! t) (λ o, match o with
    | Some sb =>
        let '(st', effs) := stream_step (sb_limits sb) ev (sb_stream sb) in
        upd (with_subs (insert t {| sb_conn := sb_conn sb; sb_req := sb_req sb;
                                    sb_limits := sb_limits sb; sb_stream := st' |})) ;;
        foreach effs (apply_effect t (sb_conn sb) (sb_req sb) send_err)
    | None => skip end).

Definition sendSubscribe (name : string) (req : TunnelReq) : act :=
  read (λ s, jm_get (nodes s) name) (λ o, match o with
    | Some c => alloc (λ t, with_subs (insert t {| sb_conn := c; sb_req := req;
               sb_limits := resolveStreamLimits streamLimits (rq_method req);
               sb_stream := new_stream |})) (λ _, skip)
    | None => skip end).

Definition pushStreamEvent (c : nat) (id data : string) (bytes : Z) (send_err : option string) : act :=
  on_conn c (λ st, match jm_get (subscriptions st) id with
    | Some t => sub_event t (VPush data bytes) send_err
    | None => skip end).

Definition finishStream (c : nat) (msg : TunnelStreamDone) (send_err : option string) : act :=
  on_conn c (λ st, match jm_get (subscriptions st) (sd_id msg) with
    | Some t =>
        upd_conn c (with_subscriptions (λ m, jm_delete m (sd_id msg))) ;;
        sub_event t (VDone (if sd_ok msg then None else sd_error msg)) send_err
    | None => match jm_get (cancelling st) (sd_id msg) with
        | Some k => settle_cancel k (cancelOutcomeOf msg)
        | None => skip end
    end).

(** ** Connections *)

Definition registerNode (c : nat) (name : string) : act :=
  read (λ s, jm_get (nodes s) name) (λ prior,
    (match prior with
     | Some p => if bool_decide (p ≠ c)
         then emit (OJournal (JReplaced name)) ;;
              emit (OClose p TUNNEL_CLOSE_REPLACED "replaced by newer connection")
         else skip
     | None => skip end) ;;
    upd (with_nodes (λ n, jm_set n name c)) ;;
    emit (OConnect name) ;;
    emit (OJournal (JConnect name))).

Definition unregisterNode (c : nat) (reason : string) : act :=
  on_conn c (λ st, match nodeName st with
    | None => skip
    | Some name => if bool_decide (name = "") then skip else
      read (λ s, bool_decide (jm_get (nodes s) name = Some c)) (λ owns,
        if owns then upd (with_nodes (λ n, jm_delete n name)) ;;
          emit (ODisconnect name reason) ;; emit (OJournal (JDisconnect name reason))
        else skip) ;;
      foreach (pendingReqs st).*2 (λ r, wrappedReject r ("tunnel-disconnected: " +:+ reason)) ;;
      upd_conn c (with_pending (λ _, [])) ;;
      foreach (subscriptions st).*2 (λ t,
        sub_event t (VDone (Some {| fe_code := "tunnel-disconnected"; fe_message := reason |})) None) ;;
      upd_conn c (with_subscriptions (λ _, [])) ;;
      on_conn c (λ st', foreach (cancelling st').*2 (λ k, settle_cancel k UnknownOutcome))
    end).

Definition handleHello (c : nat) (msg : TunnelMessage) (send_err : option string) : act :=
  match msg with
  | MHello bearer name =>
      match bearerMatches bearer with
      | Err e => emit (OThrow e)
      | Ok false =>
          emit (OJournal (JUnauthorized (Some name) "bad-bearer")) ;;
          emit (OClose c TUNNEL_CLOSE_UNAUTHORIZED "bad bearer")
      | Ok true =>
          upd_conn c (with_identity name) ;;
          registerNode c name ;;
          ws_send c (MHelloAck now) send_err (λ e, emit (OThrow e))
      end
  | _ =>
      emit (OJournal (JUnauthorized None "hello-required-first")) ;;
      emit (OClose c TUNNEL_CLOSE_UNAUTHORIZED "hello required first")
  end.

Definition handleTunnelMessage (c : nat) (raw : RawFrame) (send_err : option string) : act :=
  match parseTunnelMessage raw with
  | None =>
      emit (OJournal (JUnauthorized None "malformed-hello")) ;;
      emit (OClose c TUNNEL_CLOSE_BAD_HELLO "malformed frame")
  | Some msg => on_conn c (λ st,
      if negb (authenticated st) then handleHello c msg send_err
      else match msg with
      | MRes res => resolvePendingRes c res
      | MStreamEvent id _ data => pushStreamEvent c id data (frameBytes raw) send_err
      | MStreamDone done => finishStream c done send_err
      | MPing nonce => ws_send c (MPong nonce) send_err (λ e, emit (OThrow e))
      | _ => skip
      end)
  end.

Definition handleUpgrade (pathname : string) (upgraded : bool) : act :=
  if bool_decide (pathname = "/tunnel") && upgraded
  then alloc (λ c, with_conns (insert c new_conn)) (λ _, skip)
  else skip.

Definition ws_open (c : nat) : act := upd_conn c (with_helloTimer true).

Definition helloTimeout (c : nat) : act :=
  on_conn c (λ st, if helloTimer st
    then upd_conn c (with_helloTimer false) ;;
         emit (OJournal (JUnauthorized None "hello-timeout")) ;;
         emit (OClose c TUNNEL_CLOSE_HELLO_TIMEOUT "hello timeout")
    else skip).

Definition ws_close (c : nat) (reason : string) : act :=
  upd_conn c (with_helloTimer false) ;; unregisterNode c reason.

Definition disconnect (name reason : string) : act :=
  read (λ s, jm_get (nodes s) name) (λ o, match o with
    | Some c => emit (OClose c 1000 reason)
    | None => skip end).

Definition pendingCount (name : string) (s : Server) : nat :=
  match jm_get (nodes s) name with
  | Some c => match conns s !! c with Some st => length (pendingReqs st) | None => 0%nat end
  | None => 0%nat
  end.

Definition queuedBytesOf (st : Conn) (s : Server) : Z :=
  sumZ (λ t, match subs s !! t with Some sb => queuedBytes (sb_stream sb) | None => 0 end)
    (queues st).*2.

Definition server_queuedBytes (name : string) (s : Server) : Z :=
  match jm_get (nodes s) name with
  | Some c => match conns s !! c with Some st => queuedBytesOf st s | None => 0 end
  | None => 0
  end.

(** ** Runs *)

Inductive Event :=
| EvUpgrade (pathname : string) (upgraded : bool)
| EvOpen (c : nat)
| EvMessage (c : nat) (raw : RawFrame) (send_err : option string)
| EvClose (c : nat) (reason : string)
| EvHelloTimeout (c : nat)
| EvRequestTimeout (r : nat)
| EvCancelTimeout (t : nat)
| EvSend (name : string) (req : TunnelReq) (send_err : option string)
| EvRegistrySend (c : nat) (req : TunnelReq) (send_err : option string)
| EvSubscribe (name : string) (req : TunnelReq)
| EvNext (t p : nat) (send_err : option string)
| EvReturn (t p : nat) (send_err : option string)
| EvDisconnect (name reason : string).

Definition server_step (ev : Event) : act :=
  match ev with
  | EvUpgrade p u => handleUpgrade p u
  | EvOpen c => ws_open c
  | EvMessage c raw e => handleTunnelMessage c raw e
  | EvClose c reason => ws_close c reason
  | EvHelloTimeout c => helloTimeout c
  | EvRequestTimeout r => requestTimeout r
  | EvCancelTimeout t => cancelTimeout t
  | EvSend name req e => send name req e
  | EvRegistrySend c req e => registrySend c req e
  | EvSubscribe name req => sendSubscribe name req
  | EvNext t p e => sub_event t (VNext p e) e
  | EvReturn t p e => sub_event t (VReturn p) e
  | EvDisconnect name reason => disconnect name reason
  end.

Definition server_run (evs : list Event) : act := run server_step evs.
End server.
