(* ===== verification/TunnelServerFacts.v ===== *)
(** * What the tunnel server guarantees

    Authentication, ownership of a node's slot, correlation and settling of
    requests, acknowledgement of cancels, bounded queues: each is a trace
    relation or an invariant that every handler of TunnelServer.v respects. *)

From S2P Require Import Prelude JsMap TunnelMessages TunnelStream TunnelServer.

#[local] Open Scope string_scope.
#[local] Open Scope list_scope.
#[local] Open Scope Z_scope.
#[local] Open Scope act_scope.

Ltac server_unfold :=
  unfold server_step, handleUpgrade, ws_open, handleTunnelMessage, handleHello, registerNode,
    ws_close, unregisterNode, helloTimeout, requestTimeout, cancelTimeout, send, registrySend,
    registerPendingWithTimeout, sendSubscribe, disconnect, resolvePendingRes,
    pushStreamEvent, finishStream, sub_event, apply_effect, sendStreamCancel, ws_send,
    wrappedResolve, wrappedReject, on_conn, upd_conn.

Lemma alloc_at R `{!TraceRel R} g k s :
  R s [] (g (fresh s) (bump s)) → (∀ n, respects R (k n)) → R s (alloc g k s).2 (alloc g k s).1.
Proof.
  intros Hg Hk. unfold alloc, read, seqa, upd.
  specialize (Hk (fresh s) (g (fresh s) (bump s))). destruct (k _ _) as [s2 o2].
  by apply (tr_trans s [] (g (fresh s) (bump s))).
Qed.

Section rel.
Context (R : Server → list Output → Server → Prop) `{!TraceRel R}.

Lemma respects_alloc g k :
  (∀ s, R s [] (g (fresh s) (bump s))) → (∀ n, respects R (k n)) → respects R (alloc g k).
Proof.
  intros Hg Hk s. by apply alloc_at.
Qed.
End rel.

Ltac server_step_tac :=
  first [ apply respects_alloc; [try apply _|intros ?|intros ?] | respects_step ].
Ltac server_auto := repeat server_step_tac.

(** ** Handlers that leave the registry alone *)

Definition ident (st : Conn) : bool * option string := (authenticated st, nodeName st).

(** The registry, and who each connection is, stay as they were. *)
Definition quiet (s : Server) (_ : list Output) (s' : Server) : Prop :=
  nodes s' = nodes s ∧ (fresh s ≤ fresh s')%nat ∧
  ∀ c, ident <$> conns s' !! c = ident <$> conns s !! c.

#[export] Instance quiet_trace : TraceRel quiet.
Proof.
  split; [done|]. intros s1 o1 s2 o2 s3 (N1&F1&C1) (N2&F2&C2).
  split_and!; [congruence|lia|]. intros c. by rewrite C2, C1.
Qed.

Lemma quiet_alter f c s o s' :
  (∀ st, ident (f st) = ident st) → nodes s' = nodes s → (fresh s ≤ fresh s')%nat →
  conns s' = alter f c (conns s) → quiet s o s'.
Proof.
  intros Hf Hn Hfr Hc. split_and!; [done..|]. intros c'. rewrite Hc.
  destruct (decide (c' = c)) as [->|Hne].
  - rewrite lookup_alter_eq. destruct (conns s !! c); simpl; [by rewrite Hf|done].
  - by rewrite lookup_alter_ne by done.
Qed.

Ltac quiet_prim :=
  unfold respects; intros;
  first [ unfold quiet; split_and!; [reflexivity|simpl; lia|intros; reflexivity]
        | eapply quiet_alter; [|reflexivity|simpl; lia|reflexivity]; intros []; reflexivity ].

Lemma settle_request_quiet r o : respects quiet (settle_request r o).
Proof. unfold settle_request, finish_request, on_conn, upd_conn. server_auto; quiet_prim. Qed.

Lemma settle_cancel_quiet t oc : respects quiet (settle_cancel t oc).
Proof. unfold settle_cancel, on_conn, upd_conn. server_auto; quiet_prim. Qed.

#[export] Hint Resolve settle_request_quiet settle_cancel_quiet : respects.

Section quiet.
Context (timeout_on : bool) (streamLimits : StreamLimitsPolicy).

Lemma sub_event_quiet t ev e : respects quiet (sub_event timeout_on t ev e).
Proof.
  unfold sub_event, apply_effect, sendStreamCancel, ws_send, on_conn, upd_conn.
  server_auto; quiet_prim.
Qed.
#[local] Hint Resolve sub_event_quiet : respects.

Lemma registrySend_quiet c req e : respects quiet (registrySend timeout_on c req e).
Proof.
  unfold registrySend, registerPendingWithTimeout, ws_send, wrappedReject, on_conn.
  server_auto; quiet_prim.
Qed.

(** A frame of an authenticated connection. *)
Definition handleFrame (c : nat) (raw : RawFrame) (msg : TunnelMessage) (send_err : option string) :=
  match msg with
  | MRes res => resolvePendingRes c res
  | MStreamEvent id _ data => pushStreamEvent timeout_on c id data (frameBytes raw) send_err
  | MStreamDone done => finishStream timeout_on c done send_err
  | MPing nonce => ws_send c (MPong nonce) send_err (λ e, emit (OThrow e))
  | _ => skip
  end.

Lemma handleFrame_quiet c raw msg e : respects quiet (handleFrame c raw msg e).
Proof.
  unfold handleFrame, resolvePendingRes, pushStreamEvent, finishStream, ws_send, wrappedResolve,
    on_conn, upd_conn. server_auto; quiet_prim.
Qed.

(** What unregisterNode does once the slot is dealt with. *)
Definition dropConn (c : nat) (st : Conn) (reason : string) :=
  foreach (pendingReqs st).*2 (λ r, wrappedReject r ("tunnel-disconnected: " +:+ reason)) ;;
  upd_conn c (with_pending (λ _, [])) ;;
  foreach (subscriptions st).*2 (λ t, sub_event timeout_on t
    (VDone (Some {| fe_code := "tunnel-disconnected"; fe_message := reason |})) None) ;;
  upd_conn c (with_subscriptions (λ _, [])) ;;
  on_conn c (λ st', foreach (cancelling st').*2 (λ k, settle_cancel k UnknownOutcome)).

Lemma dropConn_quiet c st reason : respects quiet (dropConn c st reason).
Proof. unfold dropConn, wrappedReject, on_conn, upd_conn. server_auto; quiet_prim. Qed.
End quiet.

#[export] Hint Resolve sub_event_quiet registrySend_quiet handleFrame_quiet dropConn_quiet : respects.

(** ** The three registry operations *)

Section registry.
Context (bearerMatches : string → result bool) (timeout_on : bool)
  (streamLimits : StreamLimitsPolicy) (now : string).

#[local] Notation step := (server_step bearerMatches timeout_on streamLimits now) (only parsing).
#[local] Notation run_server := (server_run bearerMatches timeout_on streamLimits now) (only parsing).

(** A relation that quiet handlers, upgrades, accepted hellos and the
    removal of a slot by its owner respect holds of every step. *)
Lemma step_respects R `{!TraceRel R} ev :
  (∀ s o s', quiet s o s' → R s o s') →
  (∀ s, R s [] (with_conns (insert (fresh s) new_conn) (bump s))) →
  (∀ c raw e b name st s, ev = EvMessage c raw e → parseTunnelMessage raw = Some (MHello b name) →
    bearerMatches b = Ok true → conns s !! c = Some st → authenticated st = false →
    R s (handleHello bearerMatches now c (MHello b name) e s).2
        (handleHello bearerMatches now c (MHello b name) e s).1) →
  (∀ c reason name s, ev = EvClose c reason → jm_get (nodes s) name = Some c →
    R s [] (with_nodes (λ n, jm_delete n name) s)) →
  respects R (step ev).
Proof.
  intros HQ Hup Hhello Hdel.
  assert (∀ a, respects quiet a → respects R a) as HQ' by (intros a; by apply respects_weaken).
  destruct ev as [p u|c|c raw e|c reason|c|r|t|name req e|c req e|name req|t p e|t p e|name reason];
    server_unfold.
  - unfold handleUpgrade. server_auto. apply Hup.
  - apply HQ'. quiet_prim.
  - destruct (parseTunnelMessage raw) as [msg|] eqn:Hp; [|apply HQ'; server_auto; quiet_prim].
    intros s. unfold read. destruct (conns s !! c) as [st|] eqn:Hc; [|apply tr_refl].
    destruct (authenticated st) eqn:Ha; simpl.
    + apply (HQ' _ (handleFrame_quiet timeout_on c raw msg e)).
    + destruct msg as [b name| | | | | | | |];
        try (apply (HQ' (emit _ ;; emit _)); server_auto; quiet_prim).
      destruct (bearerMatches b) as [[]|] eqn:Hb.
      * specialize (Hhello c raw e b name st s eq_refl Hp Hb Hc Ha).
        unfold handleHello in Hhello. by rewrite Hb in Hhello.
      * apply (HQ' (emit _ ;; emit _)); server_auto; quiet_prim.
      * apply (HQ' (emit _)); quiet_prim.
  - apply respects_seqa; [done|apply HQ'; quiet_prim|].
    apply respects_read. intros [st|]; [|apply HQ'; server_auto].
    destruct (nodeName st) as [name|]; [|apply HQ'; server_auto].
    case_bool_decide; [apply HQ'; server_auto|].
    apply respects_seqa; [done| |exact (HQ' _ (dropConn_quiet timeout_on c st reason))].
    intros s. unfold read. case_bool_decide as Ho; [|apply tr_refl].
    apply (tr_trans s [] (with_nodes (λ n, jm_delete n name) s)); [by eapply Hdel|].
    apply (HQ' (emit _ ;; emit _)). server_auto; quiet_prim.
  - apply HQ'. server_auto; quiet_prim.
  - apply HQ'. server_auto; quiet_prim.
  - apply HQ'. server_auto; quiet_prim.
  - apply HQ'. server_auto; quiet_prim.
  - apply HQ'. apply registrySend_quiet.
  - apply HQ'. server_auto; quiet_prim.
  - apply HQ'. apply sub_event_quiet.
  - apply HQ'. apply sub_event_quiet.
  - apply HQ'. server_auto; quiet_prim.
Qed.

(** ** Authentication *)

(** The hello that authenticates a connection. *)
Definition accepted_hello (c : nat) (name : string) (ev : Event) : Prop :=
  match ev with
  | EvMessage c' raw _ => c' = c ∧ ∃ b, parseTunnelMessage raw = Some (MHello b name) ∧
      bearerMatches b = Ok true
  | _ => False
  end.

(** An authenticated connection was so before, under the same name, or an
    event that satisfies [P] named it. *)
Definition authenticated_by (P : nat → string → Prop) (s : Server) (_ : list Output) (s' : Server) :=
  ∀ c st', conns s' !! c = Some st' → authenticated st' = true →
    (∃ st, conns s !! c = Some st ∧ ident st = ident st') ∨
    (∃ name, nodeName st' = Some name ∧ P c name).

Lemma authenticated_by_trace P : TraceRel (authenticated_by P).
Proof.
  split; [intros s c st H1 H2; eauto|].
  intros s1 o1 s2 o2 s3 H12 H23 c st H Ha. unfold ident in *.
  destruct (H23 c st H Ha) as [(st2&H2&[=Ea En])|?]; [|by right].
  destruct (H12 c st2 H2 ltac:(congruence)) as [(st1&H1&[=Ea1 En1])|(name&En'&HP)].
  - left. exists st1. split; [done|congruence].
  - right. exists name. split; [congruence|done].
Qed.

Lemma quiet_lookup s o s' c st' :
  quiet s o s' → conns s' !! c = Some st' → ∃ st, conns s !! c = Some st ∧ ident st = ident st'.
Proof.
  intros (_&_&H) Hc. specialize (H c). rewrite Hc in H. simpl in H.
  destruct (conns s !! c) as [st|]; simpl in H; [|done]. exists st. split; congruence.
Qed.

(** What an accepted hello does to the state. *)
Lemma handleHello_state b name c e s :
  bearerMatches b = Ok true →
  (handleHello bearerMatches now c (MHello b name) e s).1 =
    with_nodes (λ n, jm_set n name c) (with_conns (alter (with_identity name) c) s).
Proof.
  intros Hb. unfold handleHello, registerNode, ws_send, upd_conn. rewrite Hb.
  unfold seqa, read, upd, emit. simpl.
  destruct (jm_get (nodes s) name) as [p|]; [case_bool_decide|]; simpl; by destruct e.
Qed.

Lemma step_authenticated ev :
  respects (authenticated_by (λ c name, accepted_hello c name ev)) (step ev).
Proof.
  pose proof (authenticated_by_trace (λ c name, accepted_hello c name ev)).
  apply step_respects; [done|..].
  - intros s o s' Hq c st' Hc Ha. left. by eapply quiet_lookup.
  - intros s c st'. simpl. intros [[<- <-]|[_ Hc]]%lookup_insert_Some Ha; [done|eauto].
  - intros c raw e b name st s -> Hp Hb Hc Ha c' st' Hc' Ha'.
    rewrite handleHello_state in Hc' by done. simpl in Hc'.
    destruct (decide (c' = c)) as [->|Hne].
    + rewrite lookup_alter_eq, Hc in Hc'. simplify_eq/=. right. exists name. eauto.
    + rewrite lookup_alter_ne in Hc' by done. eauto.
  - intros c reason name s _ _ c' st' Hc' Ha'. eauto.
Qed.

Lemma run_authenticated evs s c st' :
  conns (run_server evs s).1 !! c = Some st' → authenticated st' = true →
  (∃ st, conns s !! c = Some st ∧ ident st = ident st') ∨
  (∃ name, nodeName st' = Some name ∧ Exists (accepted_hello c name) evs).
Proof.
  revert s. induction evs as [|ev evs IH]; intros s Hc Ha; [eauto|].
  unfold server_run in *. simpl in Hc. unfold seqa in Hc.
  pose proof (step_authenticated ev s) as Hs. destruct (step ev s) as [s1 o1].
  specialize (IH s1). destruct (run _ evs s1) as [s2 o2]. simpl in *.
  destruct (IH Hc Ha) as [(st1&H1&Hi)|(name&En&HE)].
  - pose proof Hi as [=Ea En].
    destruct (Hs c st1 H1 ltac:(congruence)) as [(st&H0&Hi0)|(name&En1&HP)].
    + left. exists st. split; [done|congruence].
    + right. exists name. split; [congruence|by left].
  - right. exists name. split; [done|by right].
Qed.

(** The registry holds authenticated connections under their own names. *)
Record registry_ok (s : Server) : Prop := {
  ro_nodes : ∀ name c, jm_get (nodes s) name = Some c →
    ∃ st, conns s !! c = Some st ∧ ident st = (true, Some name);
  ro_wf : jm_wf (nodes s);
  ro_fresh : ∀ c, is_Some (conns s !! c) → (c < fresh s)%nat
}.

Lemma new_server_registry_ok : registry_ok new_server.
Proof. split; simpl; [done|constructor|]. intros c [? ?]. done. Qed.

Lemma quiet_registry_ok s o s' : quiet s o s' → registry_ok s → registry_ok s'.
Proof.
  intros (Hn&Hf&Hc) [Hno Hwf Hfr]. split.
  - intros name c H. rewrite Hn in H. destruct (Hno name c H) as (st&Hst&Hi).
    specialize (Hc c). rewrite Hst in Hc. simpl in Hc.
    destruct (conns s' !! c) as [st'|]; simpl in Hc; [|done]. apply (inj Some) in Hc.
    exists st'. split; [done|congruence].
  - by rewrite Hn.
  - intros c [st' Hst']. specialize (Hc c). rewrite Hst' in Hc. simpl in Hc.
    destruct (conns s !! c) as [st|] eqn:E; [|done]. pose proof (Hfr c ltac:(by rewrite E)). lia.
Qed.

Lemma step_registry_ok ev : respects (keeps registry_ok) (step ev).
Proof.
  apply step_respects; [apply _|..].
  - intros s o s' Hq Hi. by eapply quiet_registry_ok.
  - intros s [Hno Hwf Hfr]. split; simpl; [|done|].
    + intros name c H. destruct (Hno name c H) as (st&Hst&Hi). exists st. split; [|done].
      rewrite lookup_insert_ne; [done|]. intros E. pose proof (Hfr _ (mk_is_Some _ _ Hst)). lia.
    + intros c [st Hst]. apply lookup_insert_Some in Hst as [[E _]|[_ H]]; [lia|].
      pose proof (Hfr c (mk_is_Some _ _ H)). lia.
  - intros c raw e b name st s _ _ Hb Hc Ha [Hno Hwf Hfr].
    rewrite handleHello_state by done. split; simpl; [|by apply jm_set_wf|].
    + intros name' c'. rewrite jm_get_set. case_decide as Hd; intros H; simplify_eq.
      * exists (with_identity name st). by rewrite lookup_alter_eq, Hc.
      * destruct (Hno name' c' H) as (st'&Hst'&Hi). exists st'. split; [|done].
        rewrite lookup_alter_ne; [done|]. intros ->. unfold ident in Hi. congruence.
    + intros c' H. apply Hfr. by rewrite lookup_alter_is_Some in H.
  - intros c reason name s _ Ho [Hno Hwf Hfr]. split; simpl; [|by apply jm_delete_wf|done].
    intros name' c' H. apply Hno. rewrite jm_get_delete in H by done. by case_decide.
Qed.

(** What takes the slot of [name] from connection [c]. *)
Definition displaces (name : string) (c : nat) (ev : Event) : Prop :=
  match ev with
  | EvClose c' _ => c' = c
  | EvMessage c' _ _ => accepted_hello c' name ev ∧ c' ≠ c
  | _ => False
  end.

Lemma step_owner name c ev :
  ¬ displaces name c ev → respects (keeps (λ s, jm_wf (nodes s) ∧ jm_get (nodes s) name = Some c)) (step ev).
Proof.
  intros Hd. apply step_respects; [apply _|..].
  - intros s o s' (Hn&_) H. by rewrite Hn.
  - by intros s H.
  - intros c' raw e b name' st s -> Hp Hb _ _ [Hwf Ho]. rewrite handleHello_state by done. simpl.
    split; [by apply jm_set_wf|]. rewrite jm_get_set. case_decide; subst; [|done].
    f_equal. destruct (decide (c' = c)); [done|]. destruct Hd. simpl. eauto.
  - intros c' reason name' s -> Ho [Hwf Hc]. simpl. split; [by apply jm_delete_wf|].
    rewrite jm_get_delete by done. case_decide; [|done]. subst. simplify_eq. by destruct Hd.
Qed.
End registry.

(** ** Requests *)

Definition settled_in (s : Server) (r : nat) : Prop :=
  ∀ q, requests s !! r = Some q → rq_settled q = true.

Section requests.
Context (bearerMatches : string → result bool) (timeout_on : bool)
  (streamLimits : StreamLimitsPolicy) (now : string).

#[local] Notation step := (server_step bearerMatches timeout_on streamLimits now) (only parsing).
#[local] Notation run_server := (server_run bearerMatches timeout_on streamLimits now) (only parsing).

(** The pending maps hold the unsettled requests, each under its id; one
    that is missing was displaced by a later request with the same id. *)
Record requests_ok (s : Server) : Prop := {
  rk_fresh : ∀ r q, requests s !! r = Some q → (r < fresh s)%nat;
  rk_conn : ∀ c st, conns s !! c = Some st → (c < fresh s)%nat ∧ jm_wf (pendingReqs st);
  rk_pending : ∀ c st id r, conns s !! c = Some st → jm_get (pendingReqs st) id = Some r →
    ∃ q, requests s !! r = Some q ∧ rq_conn q = c ∧ rq_key q = id ∧ rq_settled q = false;
  rk_live : ∀ r q, requests s !! r = Some q → rq_settled q = false →
    rq_timer q = timeout_on ∧
    ((∃ st, conns s !! rq_conn q = Some st ∧ jm_get (pendingReqs st) (rq_key q) = Some r) ∨
     (∃ r' q', (r < r')%nat ∧ requests s !! r' = Some q' ∧ rq_conn q' = rq_conn q ∧
        rq_key q' = rq_key q))
}.

Lemma new_server_requests_ok : requests_ok new_server.
Proof. by split. Qed.

(** Handlers that touch no request. *)
Definition no_requests (s : Server) (o : list Output) (s' : Server) : Prop :=
  requests s' = requests s ∧ (fresh s ≤ fresh s')%nat ∧
  (∀ c, pendingReqs <$> conns s' !! c = pendingReqs <$> conns s !! c) ∧
  Forall (λ x, match x with OResolve _ _ | OReject _ _ => False | _ => True end) o.

#[local] Instance no_requests_trace : TraceRel no_requests.
Proof.
  split; [done|]. intros s1 o1 s2 o2 s3 (N1&F1&C1&O1) (N2&F2&C2&O2).
  split_and!; [congruence|lia| |by apply Forall_app]. intros c. by rewrite C2, C1.
Qed.

Lemma no_requests_alter f c s s' :
  (∀ st, pendingReqs (f st) = pendingReqs st) → requests s' = requests s →
  (fresh s ≤ fresh s')%nat → conns s' = alter f c (conns s) → no_requests s [] s'.
Proof.
  intros Hf Hn Hfr Hc. split_and!; [done..| |done]. intros c'. rewrite Hc.
  destruct (decide (c' = c)) as [->|Hne].
  - rewrite lookup_alter_eq. destruct (conns s !! c); simpl; [by rewrite Hf|done].
  - by rewrite lookup_alter_ne by done.
Qed.

Ltac no_requests_prim :=
  unfold respects; intros;
  first [ unfold no_requests; split_and!; [reflexivity|simpl; lia|intros; reflexivity|by repeat constructor]
        | eapply no_requests_alter; [|reflexivity|simpl; lia|reflexivity]; intros []; reflexivity ].

Lemma settle_cancel_no_requests t oc : respects no_requests (settle_cancel t oc).
Proof. unfold settle_cancel, on_conn, upd_conn. server_auto; no_requests_prim. Qed.
#[local] Hint Resolve settle_cancel_no_requests : respects.

Lemma sub_event_no_requests t ev e : respects no_requests (sub_event timeout_on t ev e).
Proof.
  unfold sub_event, apply_effect, sendStreamCancel, ws_send, on_conn, upd_conn.
  server_auto; no_requests_prim.
Qed.
#[local] Hint Resolve sub_event_no_requests : respects.

Lemma no_requests_ok s o s' : no_requests s o s' → requests_ok s → requests_ok s'.
Proof.
  intros (Hr&Hf&Hp&_) [H1 H2 H3 H4].
  assert (∀ c st', conns s' !! c = Some st' → ∃ st, conns s !! c = Some st ∧
    pendingReqs st = pendingReqs st') as Hback.
  { intros c st' Hc. specialize (Hp c). rewrite Hc in Hp. simpl in Hp.
    destruct (conns s !! c) as [st|]; simplify_eq/=. eauto. }
  split.
  - intros r q H. rewrite Hr in H. specialize (H1 r q H). lia.
  - intros c st' Hc. destruct (Hback c st' Hc) as (st&Hst&<-). destruct (H2 c st Hst). split; [lia|done].
  - intros c st' id r Hc Hg. destruct (Hback c st' Hc) as (st&Hst&E). rewrite Hr.
    rewrite <-E in Hg. eauto.
  - intros r q H Hs. rewrite Hr in *. destruct (H4 r q H Hs) as [Ht [(st&Hst&Hg)|?]]; [|by eauto].
    split; [done|]. left. specialize (Hp (rq_conn q)). rewrite Hst in Hp. simpl in Hp.
    destruct (conns s' !! rq_conn q) as [st'|]; simplify_eq/=. exists st'. split; congruence.
Qed.

Lemma no_requests_keeps a : respects no_requests a → respects (keeps requests_ok) a.
Proof. apply respects_weaken. intros s o s' H Hs. by eapply no_requests_ok. Qed.

Lemma alter_alter {A} (f g : A → A) (m : gmap nat A) i :
  alter f i (alter g i m) = alter (λ x, f (g x)) i m.
Proof.
  apply map_eq. intros j. destruct (decide (j = i)) as [->|].
  - rewrite !lookup_alter_eq. by destruct (m !! i).
  - by rewrite !lookup_alter_ne.
Qed.

(** [settle_request] on an unsettled request, as one update. *)
Definition settled_state (r : nat) (q : Request) (s : Server) : Server :=
  with_conns (alter (λ st, if bool_decide (jm_get (pendingReqs st) (rq_key q) = Some r)
      then with_pending (λ p, jm_delete p (rq_key q)) st else st) (rq_conn q))
    (with_requests (insert r {| rq_conn := rq_conn q; rq_key := rq_key q; rq_settled := true;
                                rq_timer := false |}) s).

Lemma alter_lookup_id {A} (f : A → A) (m : gmap nat A) i :
  (∀ x, m !! i = Some x → f x = x) → alter f i m = m.
Proof.
  intros H. apply map_eq. intros j. destruct (decide (j = i)) as [->|].
  - rewrite lookup_alter_eq. destruct (m !! i) eqn:E; simpl; [by rewrite H|done].
  - by rewrite lookup_alter_ne.
Qed.

Lemma alter_lookup_ext {A} (f g : A → A) (m : gmap nat A) i x :
  m !! i = Some x → f x = g x → alter f i m = alter g i m.
Proof.
  intros Hx Hfg. apply map_eq. intros j. destruct (decide (j = i)) as [->|].
  - by rewrite !lookup_alter_eq, Hx; simpl; rewrite Hfg.
  - by rewrite !lookup_alter_ne.
Qed.

Lemma settle_request_eq r o s :
  settle_request r o s =
    match requests s !! r with
    | Some q => if rq_settled q then (s, []) else (settled_state r q s, [o])
    | None => (s, [])
    end.
Proof.
  unfold settle_request, finish_request, on_conn, upd_conn, read, seqa, upd, emit, skip.
  destruct (requests s !! r) as [q|]; [|done]. destruct (rq_settled q); [done|]. simpl.
  unfold settled_state. destruct (conns s !! rq_conn q) as [st|] eqn:E; simpl.
  - case_bool_decide as Hb; simpl; unfold with_conns; simpl; do 2 f_equal.
    + eapply alter_lookup_ext; [done|]. by rewrite bool_decide_eq_true_2.
    + rewrite alter_lookup_id; [done|]. intros x Hx. simplify_eq. by rewrite bool_decide_eq_false_2.
  - unfold with_conns; simpl. rewrite alter_lookup_id; [done|]. congruence.
Qed.

Lemma settled_state_conns r q s c st' :
  conns (settled_state r q s) !! c = Some st' →
  ∃ st, conns s !! c = Some st ∧
    (pendingReqs st' = pendingReqs st ∧
       (c = rq_conn q → jm_get (pendingReqs st) (rq_key q) ≠ Some r) ∨
     c = rq_conn q ∧ pendingReqs st' = jm_delete (pendingReqs st) (rq_key q)).
Proof.
  simpl. destruct (decide (c = rq_conn q)) as [->|Hne].
  - rewrite lookup_alter_eq. destruct (conns s !! rq_conn q) as [st|]; simpl; [|done].
    case_bool_decide; intros [= <-]; exists st; (split; [done|]); [by right|by left].
  - rewrite lookup_alter_ne by done. intros H. exists st'. split; [done|]. by left.
Qed.

Lemma settled_state_ok r q s :
  requests s !! r = Some q → requests_ok s → requests_ok (settled_state r q s).
Proof.
  intros Hq [H1 H2 H3 H4]. split.
  - simpl. intros r' q'. rewrite lookup_insert_Some. intros [[<- _]|[_ H]]; eauto.
  - intros c st' Hc. destruct (settled_state_conns _ _ _ _ _ Hc) as (st&Hst&Hp).
    destruct (H2 c st Hst) as [Hlt Hwf]. split; [done|].
    destruct Hp as [[-> _]|[_ ->]]; [done|by apply jm_delete_wf].
  - intros c st' id r' Hc Hg. destruct (settled_state_conns _ _ _ _ _ Hc) as (st&Hst&Hp).
    destruct (H2 c st Hst) as [_ Hwf].
    assert (jm_get (pendingReqs st) id = Some r' ∧ r' ≠ r) as [Hg' Hne].
    { destruct Hp as [[E Hn]|[Ec E]]; rewrite E in Hg.
      - split; [done|]. intros ->. destruct (H3 c st id r Hst Hg) as (q'&Hq'&Ec&Ek&_). simplify_eq.
        by apply Hn.
      - rewrite jm_get_delete in Hg by done. case_decide; [done|]. split; [done|]. intros ->.
        destruct (H3 c st id r Hst Hg) as (q'&Hq'&_&Ek&_). simplify_eq. }
    destruct (H3 c st id r' Hst Hg') as (q'&Hq'&?). exists q'. simpl. by rewrite lookup_insert_ne.
  - simpl. intros r' q' H Hs. apply lookup_insert_Some in H as [[<- <-]|[Hne H]]; [done|].
    destruct (H4 r' q' H Hs) as [Ht [(st&Hst&Hg)|(r2&q2&Hlt&Hr2&Ec&Ek)]]; (split; [done|]).
    + left. destruct (decide (rq_conn q' = rq_conn q)) as [E|E].
      * rewrite E, lookup_alter_eq, <-E, Hst. simpl. case_bool_decide as Hb; [|by exists st].
        eexists. split; [done|]. simpl. destruct (H2 _ _ Hst). rewrite jm_get_delete by done.
        case_decide as Ek; [|done]. congruence.
      * rewrite lookup_alter_ne by done. eauto.
    + right. destruct (decide (r2 = r)) as [->|Hn2].
      * simplify_eq. exists r. eexists. rewrite lookup_insert_eq. split_and!; eauto.
      * exists r2, q2. by rewrite lookup_insert_ne.
Qed.

Lemma settle_request_keeps r o : respects (keeps requests_ok) (settle_request r o).
Proof.
  intros s Hok. rewrite settle_request_eq. destruct (requests s !! r) as [q|] eqn:E; [|done].
  destruct (rq_settled q); [done|]. by apply settled_state_ok.
Qed.

Lemma register_request_ok c id s st :
  conns s !! c = Some st → requests_ok s →
  requests_ok (register_request timeout_on c id (fresh s) (bump s)).
Proof.
  intros Hc [H1 H2 H3 H4].
  set (q0 := {| rq_conn := c; rq_key := id; rq_settled := false; rq_timer := timeout_on |}).
  assert (requests s !! fresh s = None) as Hnone.
  { destruct (requests s !! fresh s) as [q|] eqn:E; [|done]. specialize (H1 _ _ E). lia. }
  split; simpl.
  - intros r q. rewrite lookup_insert_Some. intros [[<- _]|[_ H]]; [lia|]. specialize (H1 _ _ H). lia.
  - intros c' st'. rewrite lookup_alter_Some. intros [(->&st0&H&->)|[_ H]];
      destruct (H2 _ _ H); (split; [lia|]); [by apply jm_set_wf|done].
  - intros c' st' id' r. rewrite lookup_alter_Some. intros [(->&st0&H&->)|[_ H]]; simpl.
    + rewrite jm_get_set. case_decide as Hd.
      * intros [= <-]. exists q0. rewrite lookup_insert_eq. by subst.
      * intros Hg. destruct (H3 _ _ _ _ H Hg) as (q&Hq&?). exists q.
        rewrite lookup_insert_ne; [done|]. congruence.
    + intros Hg. destruct (H3 _ _ _ _ H Hg) as (q&Hq&?). exists q.
      rewrite lookup_insert_ne; [done|]. congruence.
  - intros r q. rewrite lookup_insert_Some. intros [[<- <-]|[Hne H]] Hs.
    + split; [done|]. left. simpl. rewrite lookup_alter_eq, Hc. simpl. eexists. split; [done|].
      apply jm_get_set_eq.
    + destruct (H4 r q H Hs) as [Ht Hor]. split; [done|].
      destruct Hor as [(st'&Hst'&Hg)|(r2&q2&Hlt&Hr2&?)].
      * destruct (decide (rq_conn q = c ∧ rq_key q = id)) as [[Ec Ek]|Hn].
        { right. exists (fresh s), q0. rewrite lookup_insert_eq. specialize (H1 _ _ H). by subst. }
        left. destruct (decide (rq_conn q = c)) as [Ec|Ec].
        -- rewrite Ec, lookup_alter_eq, <-Ec, Hst'. simpl. eexists. split; [done|]. simpl.
           rewrite jm_get_set_ne; [done|]. tauto.
        -- rewrite lookup_alter_ne by done. eauto.
      * right. exists r2, q2. rewrite lookup_insert_ne; [done|]. congruence.
Qed.

Lemma resolvePendingRes_eq c msg s :
  requests_ok s →
  resolvePendingRes c msg s =
    match conns s !! c ≫= λ st, jm_get (pendingReqs st) (rs_id msg) with
    | Some r => settle_request r (OResolve r msg) s
    | None => (s, [])
    end.
Proof.
  intros [H1 H2 H3 H4]. unfold resolvePendingRes, on_conn, read, wrappedResolve.
  destruct (conns s !! c) as [st|] eqn:Hc; simpl; [|done].
  destruct (jm_get (pendingReqs st) (rs_id msg)) as [r|] eqn:Hg; [|done].
  destruct (H3 _ _ _ _ Hc Hg) as (q&Hq&Ec&Ek&Hs). destruct (H2 _ _ Hc) as [_ Hwf].
  unfold seqa, upd_conn, upd. rewrite !settle_request_eq. simpl. rewrite Hq, Hs.
  unfold settled_state, with_conns, with_requests; simpl. do 2 f_equal.
  rewrite Ec, Ek, alter_alter. eapply alter_lookup_ext; [done|]. simpl.
  rewrite jm_get_delete, decide_True by done.
  by rewrite bool_decide_eq_false_2, bool_decide_eq_true_2.
Qed.

(** Rejecting what waits on a connection leaves nothing of it pending. *)
Lemma foreach_reject_settles l msg s :
  requests_ok s →
  let s' := (foreach l (λ r, wrappedReject r msg) s).1 in
  requests_ok s' ∧ (∀ r, r ∈ l → settled_in s' r) ∧ (∀ r, settled_in s r → settled_in s' r) ∧
  (∀ c st', conns s' !! c = Some st' → ∃ st, conns s !! c = Some st ∧
     ∀ id r, jm_get (pendingReqs st') id = Some r → jm_get (pendingReqs st) id = Some r).
Proof.
  revert s. induction l as [|r l IH]; intros s Hok.
  { simpl. split_and!; [done| |done|eauto]. by intros r ?%elem_of_nil. }
  simpl. unfold seqa, wrappedReject.
  pose proof (settle_request_keeps r (OReject r msg) s Hok) as Hok1.
  rewrite settle_request_eq in *.
  assert (∃ s1 o1, (match requests s !! r with
     | Some q => if rq_settled q then (s, []) else (settled_state r q s, [OReject r msg])
     | None => (s, []) end) = (s1, o1) ∧ settled_in s1 r ∧
     (∀ r', settled_in s r' → settled_in s1 r') ∧
     (∀ c st', conns s1 !! c = Some st' → ∃ st, conns s !! c = Some st ∧
       ∀ id r, jm_get (pendingReqs st') id = Some r → jm_get (pendingReqs st) id = Some r))
    as (s1&o1&E&Hr&Hmono&Hback).
  { destruct (requests s !! r) as [q|] eqn:Hq; [destruct (rq_settled q) eqn:Hs|].
    - eexists _, _. split_and!; [done|intros ??; congruence|done|eauto].
    - eexists _, _. split_and!; [done| | |].
      + intros q'. simpl. rewrite lookup_insert_eq. by intros [= <-].
      + intros r' Hr' q'. simpl. rewrite lookup_insert_Some. intros [[<- <-]|[_ H]]; [done|by apply Hr'].
      + intros c st' Hc. destruct (settled_state_conns _ _ _ _ _ Hc) as (st&Hst&Hp).
        exists st. split; [done|]. intros id r'. destruct Hok as [_ H2 _ _]. destruct (H2 _ _ Hst).
        destruct Hp as [[-> _]|[_ ->]]; [done|]. rewrite jm_get_delete by done. by case_decide.
    - eexists _, _. split_and!; [done|intros ??; congruence|done|eauto]. }
  rewrite E in *. specialize (IH s1 Hok1).
  destruct (foreach l _ s1) as [s2 o2]. simpl in *. destruct IH as (Hok2&Hl&Hm2&Hb2).
  split_and!; [done| | |].
  - intros r' [->|Hin]%elem_of_cons; [by apply Hm2|by apply Hl].
  - intros r' H. by apply Hm2, Hmono.
  - intros c st' Hc. destruct (Hb2 c st' Hc) as (st1&Hst1&Hp1).
    destruct (Hback c st1 Hst1) as (st&Hst&Hp). exists st. split; [done|]. eauto.
Qed.

Lemma pendingReqs_nil s c st :
  requests_ok s → conns s !! c = Some st →
  (∀ r, r ∈ (pendingReqs st).*2 → settled_in s r) → pendingReqs st = [].
Proof.
  intros [_ H2 H3 _] Hc Hset. destruct (pendingReqs st) as [|[id r] l] eqn:E; [done|].
  destruct (H2 _ _ Hc) as [_ Hwf].
  assert (jm_get (pendingReqs st) id = Some r) as Hg by (apply jm_get_elem; [done|rewrite E; left]).
  destruct (H3 _ _ _ _ Hc Hg) as (q&Hq&_&_&Hs). rewrite (Hset r) in Hs; [done|by left|done].
Qed.

Lemma dropConn_requests c st reason s :
  conns s !! c = Some st → requests_ok s →
  let s' := (dropConn timeout_on c st reason s).1 in
  requests_ok s' ∧ (∀ st', conns s' !! c = Some st' → pendingReqs st' = []).
Proof.
  intros Hc Hok. unfold dropConn. rewrite seqa_fst.
  pose proof (foreach_reject_settles (pendingReqs st).*2 ("tunnel-disconnected: " +:+ reason) s Hok)
    as (Hok1&Hl&_&Hback). destruct (foreach _ _ s) as [s1 o1]. simpl in *. rewrite seqa_fst.
  assert (∀ st1, conns s1 !! c = Some st1 → pendingReqs st1 = []) as Hnil.
  { intros st1 Hc1. eapply pendingReqs_nil; [done|done|]. intros r Hr. apply Hl.
    apply list_elem_of_fmap in Hr as ([id r']&->&Hr). destruct (Hback _ _ Hc1) as (st0&Hst0&Hp).
    simplify_eq. apply list_elem_of_fmap. exists (id, r'). split; [done|].
    destruct Hok as [_ H2 _ _], Hok1 as [_ H2' _ _].
    destruct (H2 _ _ Hc), (H2' _ _ Hc1). apply jm_get_elem; [done|].
    by apply Hp, jm_get_elem. }
  assert ((upd_conn c (with_pending (λ _, [])) s1).1 = s1) as ->.
  { unfold upd_conn, upd, with_conns. simpl. rewrite alter_lookup_id; [by destruct s1|].
    intros st1 Hc1. specialize (Hnil st1 Hc1). destruct st1; simpl in *. by subst. }
  set (rest := foreach (subscriptions st).*2 _ ;; _).
  assert (respects no_requests rest) as Hrest.
  { subst rest. unfold on_conn, upd_conn. server_auto; no_requests_prim. }
  specialize (Hrest s1). split; [by eapply no_requests_ok|].
  intros st' Hc'. destruct Hrest as (_&_&Hp&_). specialize (Hp c). rewrite Hc' in Hp.
  destruct (conns s1 !! c) as [st1|] eqn:E1; simplify_eq/=. rewrite Hp. by apply Hnil.
Qed.

Lemma unregisterNode_requests c reason : respects (keeps requests_ok) (unregisterNode timeout_on c reason).
Proof.
  intros s Hok. unfold unregisterNode, on_conn at 1, read at 1.
  destruct (conns s !! c) as [st|] eqn:Hc; [|done].
  destruct (nodeName st) as [name|]; [|done]. case_bool_decide; [done|].
  rewrite seqa_fst.
  set (s1 := (read _ _ s).1).
  assert (conns s1 = conns s ∧ requests_ok s1) as [Hc1 Hok1].
  { subst s1. unfold read. case_bool_decide; [|done]. split; [done|].
    eapply no_requests_ok; [|done]. simpl. split_and!; [done|simpl; lia|done|constructor]. }
  apply (dropConn_requests c st reason s1); [congruence|done].
Qed.

Lemma registrySend_requests c req e : respects (keeps requests_ok) (registrySend timeout_on c req e).
Proof.
  intros s Hok. unfold registrySend, on_conn at 1, read at 1.
  destruct (conns s !! c) as [st|] eqn:Hc; [|done].
  revert Hok. apply (alloc_at (keeps requests_ok)).
  - intros Hok. by eapply register_request_ok.
  - intros n. unfold ws_send, wrappedReject, on_conn.
    server_auto; try apply settle_request_keeps; apply no_requests_keeps; no_requests_prim.
Qed.

Lemma step_requests_ok ev : respects (keeps requests_ok) (step ev).
Proof.
  destruct ev as [p u|c|c raw e|c reason|c|r|t|name req e|c req e|name req|t p e|t p e|name reason];
    simpl; try (apply no_requests_keeps; server_unfold; server_auto; no_requests_prim).
  - unfold handleUpgrade. destruct (_ && _); [|apply respects_skip, _].
    apply respects_alloc; [apply _| |intros; apply respects_skip, _].
    intros s [H1 H2 H3 H4]. split; simpl.
    + intros r q H. specialize (H1 r q H). lia.
    + intros c st [[<- <-]|[_ H]]%lookup_insert_Some; [split; [lia|constructor]|].
      destruct (H2 _ _ H). split; [lia|done].
    + intros c st id r [[<- <-]|[_ H]]%lookup_insert_Some; [done|eauto].
    + intros r q H Hs. destruct (H4 r q H Hs) as [Ht [(st&Hst&Hg)|?]]; (split; [done|]); [|by right].
      left. exists st. split; [|done]. rewrite lookup_insert_ne; [done|]. intros E.
      destruct (H2 _ _ Hst). lia.
  - unfold handleTunnelMessage. destruct (parseTunnelMessage raw) as [msg|] eqn:Hp;
      [|apply no_requests_keeps; server_unfold; server_auto; no_requests_prim].
    unfold on_conn. apply respects_read. intros [st|]; [|apply respects_skip, _].
    destruct (authenticated st); simpl;
      [|apply no_requests_keeps; server_unfold; server_auto; no_requests_prim].
    destruct msg; try (apply no_requests_keeps; server_unfold; server_auto; no_requests_prim).
    intros s Hok. rewrite resolvePendingRes_eq by done.
    destruct (_ ≫= _); [|done]. by apply settle_request_keeps.
  - unfold ws_close. apply respects_seqa; [apply _| |apply unregisterNode_requests].
    apply no_requests_keeps. unfold upd_conn. no_requests_prim.
  - unfold requestTimeout, wrappedReject. server_auto; try apply settle_request_keeps;
      apply respects_skip, _.
  - unfold send. apply respects_read. intros [c|]; [apply registrySend_requests|].
    apply no_requests_keeps. no_requests_prim.
  - apply registrySend_requests.
Qed.

(** *** Settled once *)

Definition settles (r0 : nat) (o : Output) : Z :=
  match o with OResolve r _ | OReject r _ => if decide (r = r0) then 1 else 0 | _ => 0 end.

Definition may_settle (r0 : nat) (s : Server) : Z :=
  match requests s !! r0 with Some q => if rq_settled q then 0 else 1 | None => 1 end.

Definition requests_below (s : Server) : Prop := ∀ r q, requests s !! r = Some q → (r < fresh s)%nat.

Definition settling (r0 : nat) := under requests_below (budget (settles r0) (may_settle r0)).

#[local] Instance settling_trace r0 : TraceRel (settling r0).
Proof. unfold settling. apply _. Qed.

Lemma settling_same r0 s o s' :
  requests s' = requests s → (fresh s ≤ fresh s')%nat → sumZ (settles r0) o = 0 → settling r0 s o s'.
Proof.
  intros Hr Hf Ho Hb. split; [intros r q H; rewrite Hr in H; specialize (Hb r q H); lia|].
  unfold budget, may_settle. rewrite Hr, Ho. lia.
Qed.

Lemma settle_request_settling r0 r o :
  settles r0 o = (if decide (r = r0) then 1 else 0) → respects (settling r0) (settle_request r o).
Proof.
  intros Ho s Hb. rewrite settle_request_eq. destruct (requests s !! r) as [q|] eqn:Hq; [|split; [done|]].
  - destruct (rq_settled q) eqn:Hs; [split; [done|]|split].
    + unfold budget. simpl. lia.
    + intros r' q'. simpl. rewrite lookup_insert_Some. intros [[<- _]|[_ H]]; eauto.
    + unfold budget, may_settle. simpl. rewrite Ho. destruct (decide (r = r0)) as [->|Hne].
      * rewrite lookup_insert_eq, Hq, Hs. simpl. lia.
      * rewrite lookup_insert_ne by done. lia.
  - unfold budget. simpl. lia.
Qed.

Lemma register_request_settling r0 c id s :
  settling r0 s [] (register_request timeout_on c id (fresh s) (bump s)).
Proof.
  intros Hb. split.
  - intros r q. simpl. rewrite lookup_insert_Some. intros [[<- _]|[_ H]]; [lia|].
    specialize (Hb _ _ H). lia.
  - unfold budget, may_settle. simpl. destruct (decide (fresh s = r0)) as [<-|Hne].
    + rewrite lookup_insert_eq. simpl. destruct (requests s !! fresh s) as [q|] eqn:E; [|lia].
      specialize (Hb _ _ E). lia.
    + rewrite lookup_insert_ne by done. lia.
Qed.

Lemma step_settling r0 ev : respects (settling r0) (step ev).
Proof.
  destruct ev; server_unfold; unfold settle_cancel, on_conn, upd_conn; server_auto;
    try (by apply settle_request_settling); unfold respects; intros;
    try apply register_request_settling; by apply settling_same; simpl; try lia.
Qed.

(** *** Correlation *)

Definition not_resolve (o : Output) : Prop := match o with OResolve _ _ => False | _ => True end.

Lemma settle_request_emits r o : not_resolve o → respects (emits not_resolve) (settle_request r o).
Proof.
  intros Ho s. rewrite settle_request_eq. unfold emits.
  destruct (requests s !! r) as [q|]; [destruct (rq_settled q)|]; by repeat constructor.
Qed.

Lemma step_resolves r res ev s :
  requests_ok s → OResolve r res ∈ (step ev s).2 →
  ∃ c raw e st q, ev = EvMessage c raw e ∧ parseTunnelMessage raw = Some (MRes res) ∧
    conns s !! c = Some st ∧ authenticated st = true ∧
    requests s !! r = Some q ∧ rq_conn q = c ∧ rq_key q = rs_id res ∧ rq_settled q = false.
Proof.
  intros Hok Hin.
  assert (∀ a, respects (emits not_resolve) a → (step ev s).2 = (a s).2 → False) as Hno.
  { intros a Ha E. rewrite E in Hin. specialize (Ha s). unfold emits in Ha.
    rewrite Forall_forall in Ha. by apply (Ha _ Hin). }
  destruct ev as [p u|c|c raw e|c reason|c|r'|t|name req e|c req e|name req|t p e|t p e|name reason];
    try (exfalso; eapply Hno; [|reflexivity]; server_unfold; unfold settle_cancel, on_conn, upd_conn;
      server_auto; try (by apply settle_request_emits); unfold respects; intros; by repeat constructor).
  simpl in *. unfold handleTunnelMessage in *.
  destruct (parseTunnelMessage raw) as [msg|] eqn:Hp;
    [|exfalso; eapply Hno; [|reflexivity]; server_auto; unfold respects; intros; by repeat constructor].
  unfold on_conn, read in *. destruct (conns s !! c) as [st|] eqn:Hc; [|by apply elem_of_nil in Hin].
  destruct (authenticated st) eqn:Ha; simpl in *;
    [|exfalso; eapply (Hno (handleHello bearerMatches now c msg e)); [|reflexivity]; server_unfold;
      server_auto; unfold respects; intros; by repeat constructor].
  destruct msg as [| | |res'| | | | | ];
    try (exfalso; eapply Hno; [|reflexivity]; server_unfold; unfold settle_cancel, on_conn, upd_conn;
      server_auto; unfold respects; intros; by repeat constructor).
  rewrite resolvePendingRes_eq, Hc in Hin by done. simpl in Hin.
  destruct (jm_get (pendingReqs st) (rs_id res')) as [r1|] eqn:Hg; [|by apply elem_of_nil in Hin].
  destruct Hok as [_ _ H3 _]. destruct (H3 _ _ _ _ Hc Hg) as (q&Hq&Ec&Ek&Hs).
  rewrite settle_request_eq, Hq, Hs in Hin. apply list_elem_of_singleton in Hin as [= -> ->].
  exists c, raw, e, st, q. by split_and!.
Qed.
End requests.
