(* ===== verification/TunnelServerProps.v ===== *)
(** * Theorems about the tunnel server

    The guarantees of TunnelServer.v stated for whole runs from the empty
    server: who can hold a node's slot, how requests, cancels and streams
    end.  The trace relations they rest on are in TunnelServerFacts.v. *)

From S2P Require Import Prelude JsMap TunnelMessages TunnelStream TunnelServer.
From S2P Require Import TunnelServerFacts.

#[local] Open Scope string_scope.
#[local] Open Scope list_scope.
#[local] Open Scope Z_scope.
#[local] Open Scope act_scope.

(** ** Cancels *)

Section cancels.
Context (bearerMatches : string → result bool) (timeout_on : bool)
  (streamLimits : StreamLimitsPolicy) (now : string).

Notation step := (server_step bearerMatches timeout_on streamLimits now) (only parsing).

Definition acks (t0 : nat) (o : Output) : Z :=
  match o with OCancelAck t _ _ _ => if decide (t = t0) then 1 else 0 | _ => 0 end.

(** A cancel that is not made yet, or that still waits, may be acknowledged. *)
Definition may_ack (t0 : nat) (s : Server) : Z :=
  match cancels s !! t0 with
  | None => 1
  | Some cn => match conns s !! cn_conn cn with
      | Some st => if decide (jm_get (cancelling st) (cn_id cn) = Some t0) then 1 else 0
      | None => 0
      end
  end.

Record cancels_ok (s : Server) : Prop := {
  ck_fresh : ∀ t cn, cancels s !! t = Some cn → (t < fresh s)%nat;
  ck_conn : ∀ c st, conns s !! c = Some st → (c < fresh s)%nat ∧ jm_wf (cancelling st) ∧
    ∀ id t, jm_get (cancelling st) id = Some t →
      ∃ cn, cancels s !! t = Some cn ∧ cn_conn cn = c ∧ cn_id cn = id
}.

Definition acking (t0 : nat) := under cancels_ok (budget (acks t0) (may_ack t0)).

#[local] Instance acking_trace t0 : TraceRel (acking t0).
Proof. unfold acking. apply _. Qed.

Lemma acking_same t0 s o s' :
  cancels s' = cancels s → (fresh s ≤ fresh s')%nat → sumZ (acks t0) o = 0 →
  (∀ c, cancelling <$> conns s' !! c = cancelling <$> conns s !! c) →
  acking t0 s o s'.
Proof.
  intros Hk Hf Ho Hc [H1 H2]. split; [split|].
  - intros t cn H. rewrite Hk in H. specialize (H1 t cn H). lia.
  - intros c st' H. specialize (Hc c). rewrite H in Hc. simpl in Hc.
    destruct (conns s !! c) as [st|] eqn:E; simplify_eq/=. rewrite Hc, Hk.
    destruct (H2 c st E) as (?&?&?). split_and!; [lia|done|done].
  - unfold budget, may_ack. rewrite Hk, Ho. destruct (cancels s !! t0) as [cn|]; [|lia].
    specialize (Hc (cn_conn cn)).
    destruct (conns s' !! cn_conn cn), (conns s !! cn_conn cn); simplify_eq/=; [|lia].
    rewrite Hc. lia.
Qed.

Lemma acking_alter t0 f c s s' :
  (∀ st, cancelling (f st) = cancelling st) → cancels s' = cancels s →
  (fresh s ≤ fresh s')%nat → conns s' = alter f c (conns s) → acking t0 s [] s'.
Proof.
  intros Hf Hk Hfr Hc. apply acking_same; [done..|]. intros c'. rewrite Hc.
  destruct (decide (c' = c)) as [->|Hne].
  - rewrite lookup_alter_eq. destruct (conns s !! c); simpl; [by rewrite Hf|done].
  - by rewrite lookup_alter_ne by done.
Qed.

Ltac acking_prim :=
  unfold respects; intros;
  first [ apply acking_same; [reflexivity|simpl; lia|reflexivity|intros; reflexivity]
        | eapply acking_alter; [|reflexivity|simpl; lia|reflexivity]; intros []; reflexivity ].

Lemma settle_cancel_acking t0 t oc : respects (acking t0) (settle_cancel t oc).
Proof.
  intros s Hok. unfold settle_cancel, on_conn, read, upd_conn.
  assert (acking t0 s [] s) as Hrefl by apply tr_refl.
  destruct (cancels s !! t) as [cn|] eqn:Hcn; [|by apply Hrefl].
  destruct (conns s !! cn_conn cn) as [st|] eqn:Hst; [|by apply Hrefl].
  case_bool_decide as Hg; [|by apply Hrefl]. clear Hrefl. destruct Hok as [H1 H2].
  unfold seqa, upd, emit; simpl. destruct (H2 _ _ Hst) as (Hlt&Hwf&Hback).
  split; [split|]; simpl.
  - intros t' cn'. rewrite lookup_insert_Some. intros [[<- _]|[_ H]]; eauto.
  - intros c st' H. apply lookup_alter_Some in H as [(Ec&st0&H&->)|[Hne H]];
      [subst c; simplify_eq/=|].
    + split_and!; [done|by apply jm_delete_wf|]. intros id t'. rewrite jm_get_delete by done.
      case_decide; [done|]. intros Hg'. destruct (Hback _ _ Hg') as (cn'&Hcn'&E1&E2).
      exists cn'. rewrite lookup_insert_ne; [done|]. congruence.
    + destruct (H2 _ _ H) as (?&?&Hb). split_and!; [done..|]. intros id t' Hg'.
      destruct (Hb _ _ Hg') as (cn'&Hcn'&E1&E2). exists cn'.
      rewrite lookup_insert_ne; [done|]. congruence.
  - unfold budget, may_ack. simpl. destruct (decide (t = t0)) as [->|Hne].
    + rewrite lookup_insert_eq, Hcn. simpl. rewrite lookup_alter_eq, Hst. simpl.
      rewrite jm_get_delete by done. repeat case_decide; try lia; congruence.
    + rewrite lookup_insert_ne by done. destruct (cancels s !! t0) as [cn'|] eqn:Hcn'; [|lia].
      destruct (decide (cn_conn cn' = cn_conn cn)) as [E|E].
      * rewrite E, lookup_alter_eq, Hst. simpl. rewrite jm_get_delete by done.
        repeat case_decide; try lia; done.
      * rewrite lookup_alter_ne by done. lia.
Qed.
#[local] Hint Resolve settle_cancel_acking : respects.

Lemma register_cancel_acking t0 c id node s :
  acking t0 s [] (register_cancel timeout_on c id node (fresh s) (bump s)).
Proof.
  intros [H1 H2].
  assert (cancels s !! fresh s = None) as Hnone.
  { destruct (cancels s !! fresh s) as [q|] eqn:E; [|done]. specialize (H1 _ _ E). lia. }
  split; [split|]; simpl.
  - intros t cn. rewrite lookup_insert_Some. intros [[<- _]|[_ H]]; [lia|]. specialize (H1 _ _ H). lia.
  - intros c' st' H. apply lookup_alter_Some in H as [(->&st0&H&->)|[Hne H]];
      destruct (H2 _ _ H) as (?&?&Hb); simpl; (split_and!; [lia| |]); try (by apply jm_set_wf); try done.
    + intros id' t. rewrite jm_get_set. case_decide as Hd.
      * intros [= <-]. eexists. rewrite lookup_insert_eq. by subst.
      * intros Hg. destruct (Hb _ _ Hg) as (cn&Hcn&?). exists cn. rewrite lookup_insert_ne; [done|congruence].
    + intros id' t Hg. destruct (Hb _ _ Hg) as (cn&Hcn&?). exists cn. rewrite lookup_insert_ne; [done|congruence].
  - unfold budget, may_ack. simpl. destruct (decide (fresh s = t0)) as [<-|Hne].
    + rewrite lookup_insert_eq, Hnone. repeat case_match; lia.
    + rewrite lookup_insert_ne by done. destruct (cancels s !! t0) as [cn|]; [|lia].
      destruct (decide (cn_conn cn = c)) as [E|E].
      * rewrite E, lookup_alter_eq. destruct (conns s !! c) as [st|]; simpl; [|lia].
        rewrite jm_get_set. repeat case_decide; try lia; congruence.
      * rewrite lookup_alter_ne by done. lia.
Qed.

Lemma step_acking t0 ev : respects (acking t0) (step ev).
Proof.
  destruct ev; server_unfold; unfold settle_request, finish_request, on_conn, upd_conn;
    server_auto; try acking_prim; unfold respects; intros; try apply register_cancel_acking.
  intros [H1 H2]. split; [split|]; simpl.
  - intros t cn H. specialize (H1 _ _ H). lia.
  - intros c st Hst. apply lookup_insert_Some in Hst as [[E1 E2]|[_ H]].
    + subst. split_and!; [lia|constructor|done].
    + destruct (H2 _ _ H) as (?&?&?). split_and!; [lia|done|done].
  - unfold budget, may_ack. simpl. destruct (cancels s !! t0) as [cn|]; [|lia].
    destruct (decide (cn_conn cn = fresh s)) as [E|E].
    + rewrite E, lookup_insert_eq. simpl. repeat case_match; lia.
    + rewrite lookup_insert_ne by done. lia.
Qed.
End cancels.

(** ** Queues *)

Section queues.
Context (bearerMatches : string → result bool) (timeout_on : bool)
  (streamLimits : StreamLimitsPolicy) (now : string) (M : Z).
Context (Hpolicy : ∀ method, 0 ≤ maxQueuedBytes (resolveStreamLimits streamLimits method) ≤ M).

Notation step := (server_step bearerMatches timeout_on streamLimits now) (only parsing).

(** A frame's size is a byte length. *)
Definition sized (ev : Event) : Prop :=
  match ev with EvMessage _ raw _ => 0 ≤ rf_bytes raw | _ => True end.

Definition queues_ok (s : Server) : Prop :=
  ∀ t sb, subs s !! t = Some sb → stream_inv (sb_limits sb) (sb_stream sb) ∧
    maxQueuedBytes (sb_limits sb) ≤ M.

Lemma keeps_queues_same s (o : list Output) s' : subs s' = subs s → keeps queues_ok s o s'.
Proof. intros E H t sb. rewrite E. apply H. Qed.

Lemma settle_request_queues r o : respects (keeps queues_ok) (settle_request r o).
Proof.
  unfold settle_request, finish_request, on_conn, upd_conn. server_auto;
    unfold respects; intros; by apply keeps_queues_same.
Qed.

Lemma settle_cancel_queues t oc : respects (keeps queues_ok) (settle_cancel t oc).
Proof.
  unfold settle_cancel, on_conn, upd_conn. server_auto;
    unfold respects; intros; by apply keeps_queues_same.
Qed.
#[local] Hint Resolve settle_request_queues settle_cancel_queues : respects.

Lemma sub_event_queues t ev e :
  event_ok ev → respects (keeps queues_ok) (sub_event timeout_on t ev e).
Proof.
  intros Hev s Hok. unfold sub_event, read. destruct (subs s !! t) as [sb|] eqn:Ht; [|done].
  destruct (Hok _ _ Ht) as [Hinv HM].
  pose proof (stream_step_inv (sb_limits sb) ev (sb_stream sb) Hev Hinv) as Hinv'.
  destruct (stream_step _ ev _) as [st' effs]. simpl in Hinv'. rewrite seqa_fst.
  assert (respects (keeps queues_ok)
    (foreach effs (apply_effect timeout_on t (sb_conn sb) (sb_req sb) e))) as Hrest.
  { unfold apply_effect, sendStreamCancel, ws_send, on_conn, upd_conn. server_auto;
      unfold respects; intros; by apply keeps_queues_same. }
  apply Hrest. intros t' sb'. simpl. rewrite lookup_insert_Some. intros [[<- <-]|[_ H]]; [done|].
  by eapply Hok.
Qed.

Lemma step_queues ev : sized ev → respects (keeps queues_ok) (step ev).
Proof.
  intros Hsz. destruct ev; simpl; unfold handleUpgrade, ws_open, handleTunnelMessage, handleHello,
    registerNode, ws_close, unregisterNode, helloTimeout, requestTimeout, cancelTimeout, send,
    registrySend, registerPendingWithTimeout, sendSubscribe, disconnect, resolvePendingRes,
    pushStreamEvent, finishStream, ws_send, wrappedResolve, wrappedReject, on_conn, upd_conn;
    server_auto; try (by apply sub_event_queues);
    unfold respects; intros; try by apply keeps_queues_same.
  intros Hok t sb. simpl. rewrite lookup_insert_Some. intros [[<- <-]|[_ H]]; [|by eapply Hok]. simpl.
  destruct (Hpolicy (rq_method req)). split; [by apply new_stream_inv|done].
Qed.

Lemma run_queues evs :
  Forall sized evs → queues_ok (server_run bearerMatches timeout_on streamLimits now evs new_server).1.
Proof.
  intros H. apply (respects_run (keeps queues_ok) step sized evs); [|done|done].
  intros ev. apply step_queues.
Qed.
End queues.

(** ** Whole runs *)

Section runs.
Context (bearerMatches : string → result bool) (timeout_on : bool)
  (streamLimits : StreamLimitsPolicy) (now : string).

Notation step := (server_step bearerMatches timeout_on streamLimits now) (only parsing).
Notation run_server := (server_run bearerMatches timeout_on streamLimits now) (only parsing).

Lemma run_keeps I evs s :
  (∀ ev, respects (keeps I) (step ev)) → I s → I (run_server evs s).1.
Proof.
  intros H. apply (respects_run (keeps I) step (λ _, True) evs); [by intros|by apply Forall_true].
Qed.

Lemma run_registry_ok evs : registry_ok (run_server evs new_server).1.
Proof. apply run_keeps; [apply step_registry_ok|apply new_server_registry_ok]. Qed.

Lemma run_requests_ok evs : requests_ok timeout_on (run_server evs new_server).1.
Proof. apply run_keeps; [apply step_requests_ok|apply new_server_requests_ok]. Qed.

(** C2 (safety): a node's slot is held only by a connection that is
    authenticated, under that very name, because it sent a hello with a bearer
    that matches the expected hash. *)
Theorem registry_authenticated evs name c :
  jm_get (nodes (run_server evs new_server).1) name = Some c →
  ∃ st, conns (run_server evs new_server).1 !! c = Some st ∧
    authenticated st = true ∧ nodeName st = Some name ∧
    Exists (accepted_hello bearerMatches c name) evs.
Proof.
  intros H. destruct (run_registry_ok evs) as [Hn _ _].
  destruct (Hn name c H) as (st&Hst&[=Ea En]). exists st. split_and!; [done..|].
  destruct (run_authenticated bearerMatches timeout_on streamLimits now evs new_server c st Hst Ea)
    as [(st0&H0&_)|(name'&En'&HE)]; [done|]. congruence.
Qed.

(** When a connection authenticates under a name, it takes
    the slot, the connection that held it is closed as replaced, and no close
    of that or any other connection takes the slot away again; only its own
    close or a newer accepted hello under the name does. *)
Theorem newest_connection_wins evs1 c raw e b name st evs2 :
  let s := (run_server evs1 new_server).1 in
  conns s !! c = Some st → authenticated st = false →
  parseTunnelMessage raw = Some (MHello b name) → bearerMatches b = Ok true →
  Forall (λ ev, ¬ displaces bearerMatches name c ev) evs2 →
  (∀ p, jm_get (nodes s) name = Some p → p ≠ c →
     OClose p TUNNEL_CLOSE_REPLACED "replaced by newer connection" ∈ (step (EvMessage c raw e) s).2) ∧
  jm_get (nodes (run_server evs2 (step (EvMessage c raw e) s).1).1) name = Some c.
Proof.
  intros s Hc Ha Hp Hb Hev.
  assert (step (EvMessage c raw e) s = handleHello bearerMatches now c (MHello b name) e s) as ->.
  { simpl. unfold handleTunnelMessage, on_conn, read. by rewrite Hp, Hc, Ha. }
  split.
  - intros p Hpr Hne. unfold handleHello. rewrite Hb. rewrite !seqa_snd.
    apply elem_of_app. right. apply elem_of_app. left. unfold registerNode, read.
    simpl. rewrite Hpr, seqa_snd. apply elem_of_app. left.
    rewrite bool_decide_eq_true_2 by done. by right; left.
  - rewrite handleHello_state by done. subst s. set (s := (run_server evs1 new_server).1) in *.
    destruct (run_registry_ok evs1) as [_ Hwf _]. fold s in Hwf.
    apply (respects_run (keeps (λ s, jm_wf (nodes s) ∧ jm_get (nodes s) name = Some c)) step
      (λ ev, ¬ displaces bearerMatches name c ev) evs2); [|done|].
    + intros ev. apply step_owner.
    + simpl. split; [by apply jm_set_wf|apply jm_get_set_eq].
Qed.

(** C3 (safety): whichever of response, timeout, disconnect and failed send
    comes first settles a request; it is never settled twice. *)
Theorem request_settled_once evs r : sumZ (settles r) (run_server evs new_server).2 ≤ 1.
Proof.
  assert (respects (settling r) (run_server evs)) as H.
  { apply (respects_run (settling r) step (λ _, True)); [intros; apply step_settling|].
    by apply Forall_true. }
  destruct (H new_server) as [_ Hb]; [done|]. unfold budget in Hb.
  assert (0 ≤ may_settle r (run_server evs new_server).1) by (unfold may_settle; repeat case_match; lia).
  assert (may_settle r new_server = 1) by done. lia.
Qed.

(** When a registered connection closes, its pending map is
    left empty, and every request made on it is settled, except one whose id a
    later request on the same connection reused. *)
Theorem close_settles_requests evs c st name reason :
  let s := (run_server evs new_server).1 in
  conns s !! c = Some st → nodeName st = Some name → name ≠ "" →
  let s' := (step (EvClose c reason) s).1 in
  (∀ st', conns s' !! c = Some st' → pendingReqs st' = []) ∧
  (∀ r q, requests s' !! r = Some q → rq_conn q = c → rq_settled q = false →
     ∃ r' q', (r < r')%nat ∧ requests s' !! r' = Some q' ∧ rq_conn q' = c ∧ rq_key q' = rq_key q).
Proof.
  intros s Hc Hn Hne s'.
  assert (requests_ok timeout_on s') as Hok'.
  { subst s'. apply (step_requests_ok bearerMatches timeout_on streamLimits now).
    apply run_requests_ok. }
  assert (∀ st', conns s' !! c = Some st' → pendingReqs st' = []) as Hnil.
  { subst s'. simpl. unfold ws_close. rewrite seqa_fst.
    set (s1 := (upd_conn c (with_helloTimer false) s).1).
    assert (conns s1 !! c = Some (with_helloTimer false st)) as Hc1.
    { subst s1. simpl. by rewrite lookup_alter_eq, Hc. }
    assert (requests_ok timeout_on s1) as Hok1.
    { apply (no_requests_ok timeout_on s []); [|apply run_requests_ok].
      eapply no_requests_alter; [|done|simpl; lia|done]. by intros []. }
    unfold unregisterNode, on_conn at 1, read at 1. rewrite Hc1. simpl. rewrite Hn.
    rewrite bool_decide_eq_false_2 by done. rewrite seqa_fst.
    set (s2 := (read _ _ s1).1).
    assert (conns s2 = conns s1 ∧ requests_ok timeout_on s2) as [E2 Hok2].
    { subst s2. unfold read. case_bool_decide; [|done]. split; [done|].
      eapply no_requests_ok; [|done]. simpl. split_and!; [done|simpl; lia|done|constructor]. }
    apply (dropConn_requests timeout_on c (with_helloTimer false st) reason s2); [congruence|done]. }
  split; [done|]. intros r q Hr Ec Hs. destruct Hok' as [_ _ _ H4].
  destruct (H4 r q Hr Hs) as [_ [(st'&Hst'&Hg)|(r'&q'&?&?&?&?)]].
  - rewrite Ec in Hst'. by rewrite (Hnil _ Hst') in Hg.
  - exists r', q'. split_and!; congruence.
Qed.

(** A request is resolved only by a [res] frame with its id, on
    the authenticated connection it was sent on, while it is unsettled. *)
Theorem response_correlated evs ev r res :
  let s := (run_server evs new_server).1 in
  OResolve r res ∈ (step ev s).2 →
  ∃ c raw e st q, ev = EvMessage c raw e ∧ parseTunnelMessage raw = Some (MRes res) ∧
    conns s !! c = Some st ∧ authenticated st = true ∧
    requests s !! r = Some q ∧ rq_conn q = c ∧ rq_key q = rs_id res ∧ rq_settled q = false.
Proof. intros s. apply step_resolves, run_requests_ok. Qed.

(** However acknowledgement, timeout, failed send and dropped
    link interleave, the outcome of a cancel is reported at most once. *)
Theorem cancel_acknowledged_once evs t : sumZ (acks t) (run_server evs new_server).2 ≤ 1.
Proof.
  assert (respects (acking t) (run_server evs)) as H.
  { apply (respects_run (acking t) step (λ _, True)); [intros; apply step_acking|].
    by apply Forall_true. }
  destruct (H new_server) as [_ Hb]; [by split|]. unfold budget in Hb.
  assert (0 ≤ may_ack t (run_server evs new_server).1) by (unfold may_ack; repeat case_match; lia).
  assert (may_ack t new_server = 1) by done. lia.
Qed.

(** The bytes queued toward slow consumers across a node's
    streams stay below the stream cap times the number of its open queues. *)
Theorem server_queues_bounded M evs name :
  (∀ method, 0 ≤ maxQueuedBytes (resolveStreamLimits streamLimits method) ≤ M) →
  Forall sized evs →
  let s := (run_server evs new_server).1 in
  0 ≤ server_queuedBytes name s ∧
  ∀ c st, jm_get (nodes s) name = Some c → conns s !! c = Some st →
    server_queuedBytes name s ≤ Z.of_nat (length (queues st)) * M.
Proof.
  intros HM Hev s. pose proof (run_queues bearerMatches timeout_on streamLimits now M HM evs Hev) as Hq.
  fold s in Hq. clearbody s.
  set (f := λ t, match subs s !! t with Some sb => queuedBytes (sb_stream sb) | None => 0 end).
  assert (0 ≤ M) as HM0 by (destruct (HM ""); lia).
  assert (∀ t, 0 ≤ f t ≤ M) as Hf.
  { intros t. subst f. simpl. destruct (subs s !! t) as [sb|] eqn:Et; [|lia].
    destruct (Hq _ _ Et) as [[_ Hb Hn Hc _] HMt]. split; [|lia]. rewrite Hb.
    apply sumZ_nonneg. by rewrite Forall_forall in Hn. }
  assert (∀ l, 0 ≤ sumZ f l ≤ Z.of_nat (length l) * M) as Hl.
  { induction l as [|t l IH]; simpl; [lia|]. specialize (Hf t). lia. }
  unfold server_queuedBytes. split.
  - destruct (jm_get (nodes s) name) as [c|]; [|done]. destruct (conns s !! c) as [st|]; [|done].
    apply Hl.
  - intros c st -> ->. unfold queuedBytesOf. fold f. specialize (Hl (queues st).*2).
    rewrite length_fmap in Hl. lia.
Qed.
End runs.

(** ** A concrete session *)

Definition demo_matches (b : string) : result bool := Ok (bool_decide (b = "secret")).
Definition demo_frame (m : TunnelMessage) : RawFrame := {| rf_bytes := 100; rf_json := Some m |}.
Definition demo_req (id method : string) : TunnelReq :=
  {| rq_id := id; rq_method := method; rq_subscription := false; rq_params := "{}" |}.
Definition demo_res (id : string) : TunnelRes :=
  {| rs_id := id; rs_result := Some "1"; rs_error := None |}.

(** Connection 0 registers as "n", answers one of two requests, streams to a
    consumer; connection 5 takes the name over. *)
Definition demo_session : list Event :=
  [EvUpgrade "/tunnel" true; EvOpen 0; EvMessage 0 (demo_frame (MHello "secret" "n")) None;
   EvSend "n" (demo_req "a" "health") None; EvSend "n" (demo_req "b" "health") None;
   EvMessage 0 (demo_frame (MRes (demo_res "a"))) None;
   EvSubscribe "n" (demo_req "s" "logs.tail"); EvNext 3 0 None;
   EvMessage 0 (demo_frame (MStreamEvent "s" 0 "x")) None;
   EvMessage 0 (demo_frame (MStreamEvent "s" 1 "y")) None;
   EvReturn 3 1 None; EvUpgrade "/tunnel" true; EvOpen 5]%nat.

Notation demo_run evs :=
  (server_run demo_matches true (LimitsBy streamLimitsFor) "now" evs new_server) (only parsing).

Definition demo_conn (c : nat) (evs : list Event) : Conn :=
  default new_conn (conns (demo_run evs).1 !! c).

Example demo_outputs :
  (demo_run (demo_session ++ [EvMessage 5 (demo_frame (MHello "secret" "n")) None;
     EvMessage 5 (demo_frame (MRes (demo_res "b"))) None; EvClose 0 "ws closed 4409"]%nat)).2 =
  [OConnect "n"; OJournal (JConnect "n"); OSend 0 (MHelloAck "now");
   OSend 0 (MReq (demo_req "a" "health")); OSend 0 (MReq (demo_req "b" "health"));
   OResolve 1 (demo_res "a"); OSend 0 (MReq (demo_req "s" "logs.tail"));
   OStream 3 (FDeliver 0 "x"); OSend 0 (MStreamCancel "s"); OStream 3 (FDone 1);
   OJournal (JReplaced "n"); OClose 0 TUNNEL_CLOSE_REPLACED "replaced by newer connection";
   OConnect "n"; OJournal (JConnect "n"); OSend 5 (MHelloAck "now");
   OReject 2 "tunnel-disconnected: ws closed 4409"; OCancelAck 4 "n" "s" UnknownOutcome]%nat.
Proof. vm_compute. reflexivity. Qed.

Lemma registry_authenticated_witness :
  Exists (accepted_hello demo_matches 0 "n") demo_session.
Proof.
  destruct (registry_authenticated demo_matches true (LimitsBy streamLimitsFor) "now"
    demo_session "n" 0) as (st&_&_&_&H); [vm_compute; reflexivity|exact H].
Defined.

Lemma newest_connection_wins_witness :
  jm_get (nodes (server_run demo_matches true (LimitsBy streamLimitsFor) "now" [EvClose 0%nat "gone"]
    (server_step demo_matches true (LimitsBy streamLimitsFor) "now"
      (EvMessage 5 (demo_frame (MHello "secret" "n")) None) (demo_run demo_session).1).1).1) "n" = Some 5%nat.
Proof.
  assert (conns (demo_run demo_session).1 !! 5%nat = Some (demo_conn 5 demo_session)) as H1
    by (vm_compute; reflexivity).
  assert (authenticated (demo_conn 5 demo_session) = false) as H2 by (vm_compute; reflexivity).
  pose proof (newest_connection_wins demo_matches true (LimitsBy streamLimitsFor) "now"
    demo_session 5 (demo_frame (MHello "secret" "n")) None "secret" "n" (demo_conn 5 demo_session)
    [EvClose 0 "gone"]%nat H1 H2 eq_refl eq_refl) as H.
  destruct H as [_ H]; [repeat constructor; simpl; lia|]. exact H.
Defined.

Lemma close_settles_requests_witness :
  let s' := (server_step demo_matches true (LimitsBy streamLimitsFor) "now" (EvClose 0%nat "gone")
    (demo_run demo_session).1).1 in
  ∃ st', conns s' !! 0%nat = Some st' ∧ pendingReqs st' = [].
Proof.
  intros s'.
  assert (conns (demo_run demo_session).1 !! 0%nat = Some (demo_conn 0 demo_session)) as H1
    by (vm_compute; reflexivity).
  assert (nodeName (demo_conn 0 demo_session) = Some "n") as H2 by (vm_compute; reflexivity).
  assert (is_Some (conns s' !! 0%nat)) as [st' H3] by (vm_compute; eexists; reflexivity).
  pose proof (close_settles_requests demo_matches true (LimitsBy streamLimitsFor) "now"
    demo_session 0 (demo_conn 0 demo_session) "n" "gone" H1 H2) as H.
  destruct H as [H _]; [discriminate|]. exists st'. split; [exact H3|exact (H st' H3)].
Defined.

Lemma response_correlated_witness :
  ∃ q, requests (demo_run (take 5 demo_session)).1 !! 1%nat = Some q ∧ rq_key q = "a".
Proof.
  destruct (response_correlated demo_matches true (LimitsBy streamLimitsFor) "now"
    (take 5 demo_session) (EvMessage 0 (demo_frame (MRes (demo_res "a"))) None) 1 (demo_res "a"))
    as (c&raw&e&st&q&_&_&_&_&Hq&_&Hk&_); [vm_compute; left|]. by exists q.
Defined.

Lemma server_queues_bounded_witness :
  0 ≤ server_queuedBytes "n" (demo_run (take 10 demo_session)).1.
Proof.
  pose proof (server_queues_bounded demo_matches true (LimitsBy streamLimitsFor) "now"
    (4 * TUNNEL_MAX_FRAME_BYTES) (take 10 demo_session) "n") as H.
  destruct H as [H _]; [| |exact H].
  - intros method. simpl. destruct (streamLimitsFor_bounds method) as [H1 H2]. split; [lia|].
    unfold streamLimitsFor. case_match; vm_compute; discriminate.
  - repeat constructor; vm_compute; discriminate.
Defined.
