(* ===== verification/TunnelClient.v ===== *)
(** * The node's end of the tunnel
      (packages/remote/src/tunnel/tunnel-client.ts)

    The reconnect loop, the heartbeat, the relay of requests and
    subscriptions, and the waiters of [start], [waitUntilReady] and
    [whenIdle].  Sockets, promises, pings, requests and subscriptions are
    numbered; [live] lists the sockets whose handlers are attached, [armed]
    those whose hello-ack timer runs, [closing] those [close()] was called on.
    Delays and random draws are exact rationals. *)

From S2P Require Import Prelude JsMap TunnelMessages.
From Stdlib Require Import QArith Qminmax.

#[local] Open Scope string_scope.
#[local] Open Scope list_scope.
#[local] Open Scope Z_scope.
#[local] Open Scope act_scope.

Inductive TunnelState := Connecting | Ready | Disconnected | Stopped.

#[export] Instance TunnelState_eq_dec : EqDecision TunnelState.
Proof. solve_decision. Defined.

Record ReconnectConfig := { minDelayMs : Q; maxDelayMs : Q; jitterFraction : Q }.

(** A heartbeat's entry only clears its timer; a [ping()]'s settles a promise. *)
Inductive Ping := HeartbeatPing | UserPing (p : nat).

Record Client := {
  ws : option nat;
  state : TunnelState;
  stopped : bool;
  attempt : Z;
  reconnectTimer : bool;
  heartbeatTimer : bool;
  pendingPings : jsmap string Ping;
  readyWaiters : list nat;
  firstAttemptResolver : option nat;
  activeSubscriptions : jsmap string nat;
  inFlight : list nat;
  idleWaiters : list nat;
  live : list nat;
  armed : list nat;
  closing : list nat;
  indices : gmap nat Z;
  fresh : nat
}.

Definition new_client : Client :=
  {| ws := None; state := Disconnected; stopped := false; attempt := 0; reconnectTimer := false;
     heartbeatTimer := false; pendingPings := []; readyWaiters := []; firstAttemptResolver := None;
     activeSubscriptions := []; inFlight := []; idleWaiters := []; live := []; armed := [];
     closing := []; indices := ∅; fresh := 0 |}.

Inductive Out :=
| OState (s : TunnelState)
| ODial (n : nat)
| OFrame (n : nat) (m : TunnelMessage)
| OCloseSocket (n : nat) (code : Z)
| OOnClose (code : Z)
| OReconnectIn (delay : Q)
| OResolveP (p : nat)
| ORejectP (p : nat) (message : string)
| OHandleRequest (t : nat) (req : TunnelReq)
| OCancelSub (t : nat)
| OIdle (w : nat).

#[local] Notation act := (TunnelMessages.act Client Out) (only parsing).

(** ** Field updates *)

Definition with_ws v c := {| ws := v; state := state c; stopped := stopped c; attempt := attempt c;
  reconnectTimer := reconnectTimer c; heartbeatTimer := heartbeatTimer c; pendingPings := pendingPings c;
  readyWaiters := readyWaiters c; firstAttemptResolver := firstAttemptResolver c;
  activeSubscriptions := activeSubscriptions c; inFlight := inFlight c; idleWaiters := idleWaiters c;
  live := live c; armed := armed c; closing := closing c; indices := indices c; fresh := fresh c |}.
Definition with_state v c := {| ws := ws c; state := v; stopped := stopped c; attempt := attempt c;
  reconnectTimer := reconnectTimer c; heartbeatTimer := heartbeatTimer c; pendingPings := pendingPings c;
  readyWaiters := readyWaiters c; firstAttemptResolver := firstAttemptResolver c;
  activeSubscriptions := activeSubscriptions c; inFlight := inFlight c; idleWaiters := idleWaiters c;
  live := live c; armed := armed c; closing := closing c; indices := indices c; fresh := fresh c |}.
Definition with_stopped c := {| ws := ws c; state := state c; stopped := true; attempt := attempt c;
  reconnectTimer := false; heartbeatTimer := heartbeatTimer c; pendingPings := pendingPings c;
  readyWaiters := readyWaiters c; firstAttemptResolver := firstAttemptResolver c;
  activeSubscriptions := activeSubscriptions c; inFlight := inFlight c; idleWaiters := idleWaiters c;
  live := live c; armed := armed c; closing := closing c; indices := indices c; fresh := fresh c |}.
Definition with_attempt f c := {| ws := ws c; state := state c; stopped := stopped c;
  attempt := f (attempt c);
  reconnectTimer := reconnectTimer c; heartbeatTimer := heartbeatTimer c; pendingPings := pendingPings c;
  readyWaiters := readyWaiters c; firstAttemptResolver := firstAttemptResolver c;
  activeSubscriptions := activeSubscriptions c; inFlight := inFlight c; idleWaiters := idleWaiters c;
  live := live c; armed := armed c; closing := closing c; indices := indices c; fresh := fresh c |}.
Definition with_reconnectTimer v c := {| ws := ws c; state := state c; stopped := stopped c;
  attempt := attempt c; reconnectTimer := v; heartbeatTimer := heartbeatTimer c;
  pendingPings := pendingPings c; readyWaiters := readyWaiters c;
  firstAttemptResolver := firstAttemptResolver c; activeSubscriptions := activeSubscriptions c;
  inFlight := inFlight c; idleWaiters := idleWaiters c; live := live c; armed := armed c;
  closing := closing c; indices := indices c; fresh := fresh c |}.
Definition with_heartbeat v c := {| ws := ws c; state := state c; stopped := stopped c;
  attempt := attempt c; reconnectTimer := reconnectTimer c; heartbeatTimer := v;
  pendingPings := pendingPings c; readyWaiters := readyWaiters c;
  firstAttemptResolver := firstAttemptResolver c; activeSubscriptions := activeSubscriptions c;
  inFlight := inFlight c; idleWaiters := idleWaiters c; live := live c; armed := armed c;
  closing := closing c; indices := indices c; fresh := fresh c |}.
Definition with_pings f c := {| ws := ws c; state := state c; stopped := stopped c;
  attempt := attempt c; reconnectTimer := reconnectTimer c; heartbeatTimer := heartbeatTimer c;
  pendingPings := f (pendingPings c); readyWaiters := readyWaiters c;
  firstAttemptResolver := firstAttemptResolver c; activeSubscriptions := activeSubscriptions c;
  inFlight := inFlight c; idleWaiters := idleWaiters c; live := live c; armed := armed c;
  closing := closing c; indices := indices c; fresh := fresh c |}.
Definition with_readyWaiters f c := {| ws := ws c; state := state c; stopped := stopped c;
  attempt := attempt c; reconnectTimer := reconnectTimer c; heartbeatTimer := heartbeatTimer c;
  pendingPings := pendingPings c; readyWaiters := f (readyWaiters c);
  firstAttemptResolver := firstAttemptResolver c; activeSubscriptions := activeSubscriptions c;
  inFlight := inFlight c; idleWaiters := idleWaiters c; live := live c; armed := armed c;
  closing := closing c; indices := indices c; fresh := fresh c |}.
Definition with_first v c := {| ws := ws c; state := state c; stopped := stopped c;
  attempt := attempt c; reconnectTimer := reconnectTimer c; heartbeatTimer := heartbeatTimer c;
  pendingPings := pendingPings c; readyWaiters := readyWaiters c; firstAttemptResolver := v;
  activeSubscriptions := activeSubscriptions c; inFlight := inFlight c; idleWaiters := idleWaiters c;
  live := live c; armed := armed c; closing := closing c; indices := indices c; fresh := fresh c |}.
Definition with_active f c := {| ws := ws c; state := state c; stopped := stopped c;
  attempt := attempt c; reconnectTimer := reconnectTimer c; heartbeatTimer := heartbeatTimer c;
  pendingPings := pendingPings c; readyWaiters := readyWaiters c;
  firstAttemptResolver := firstAttemptResolver c; activeSubscriptions := f (activeSubscriptions c);
  inFlight := inFlight c; idleWaiters := idleWaiters c; live := live c; armed := armed c;
  closing := closing c; indices := indices c; fresh := fresh c |}.
Definition with_inFlight f c := {| ws := ws c; state := state c; stopped := stopped c;
  attempt := attempt c; reconnectTimer := reconnectTimer c; heartbeatTimer := heartbeatTimer c;
  pendingPings := pendingPings c; readyWaiters := readyWaiters c;
  firstAttemptResolver := firstAttemptResolver c; activeSubscriptions := activeSubscriptions c;
  inFlight := f (inFlight c); idleWaiters := idleWaiters c; live := live c; armed := armed c;
  closing := closing c; indices := indices c; fresh := fresh c |}.
Definition with_idleWaiters f c := {| ws := ws c; state := state c; stopped := stopped c;
  attempt := attempt c; reconnectTimer := reconnectTimer c; heartbeatTimer := heartbeatTimer c;
  pendingPings := pendingPings c; readyWaiters := readyWaiters c;
  firstAttemptResolver := firstAttemptResolver c; activeSubscriptions := activeSubscriptions c;
  inFlight := inFlight c; idleWaiters := f (idleWaiters c); live := live c; armed := armed c;
  closing := closing c; indices := indices c; fresh := fresh c |}.
Definition with_sockets l a k c := {| ws := ws c; state := state c; stopped := stopped c;
  attempt := attempt c; reconnectTimer := reconnectTimer c; heartbeatTimer := heartbeatTimer c;
  pendingPings := pendingPings c; readyWaiters := readyWaiters c;
  firstAttemptResolver := firstAttemptResolver c; activeSubscriptions := activeSubscriptions c;
  inFlight := inFlight c; idleWaiters := idleWaiters c; live := l (live c); armed := a (armed c);
  closing := k (closing c); indices := indices c; fresh := fresh c |}.
Definition with_indices f c := {| ws := ws c; state := state c; stopped := stopped c;
  attempt := attempt c; reconnectTimer := reconnectTimer c; heartbeatTimer := heartbeatTimer c;
  pendingPings := pendingPings c; readyWaiters := readyWaiters c;
  firstAttemptResolver := firstAttemptResolver c; activeSubscriptions := activeSubscriptions c;
  inFlight := inFlight c; idleWaiters := idleWaiters c; live := live c; armed := armed c;
  closing := closing c; indices := f (indices c); fresh := fresh c |}.
Definition bump c := {| ws := ws c; state := state c; stopped := stopped c;
  attempt := attempt c; reconnectTimer := reconnectTimer c; heartbeatTimer := heartbeatTimer c;
  pendingPings := pendingPings c; readyWaiters := readyWaiters c;
  firstAttemptResolver := firstAttemptResolver c; activeSubscriptions := activeSubscriptions c;
  inFlight := inFlight c; idleWaiters := idleWaiters c; live := live c; armed := armed c;
  closing := closing c; indices := indices c; fresh := S (fresh c) |}.

Definition drop (n : nat) (l : list nat) : list nat := filter (λ m, m ≠ n) l.
Definition new_token (k : nat → act) : act := read fresh (λ n, upd bump ;; k n).

Section client.
Context (reconnectCfg : ReconnectConfig).
(** [heartbeatCfg.intervalMs > 0] *)
Context (heartbeat_on : bool).
(** What a frame's [type === "subscription"] handler does: none wired, a
    throw, or a handle. *)
Context (handleSubscription : option (TunnelReq → result unit)).
Context (bearer nodeName : string).

(** ** Small steps *)

Definition setState (next : TunnelState) : act :=
  read state (λ s, if bool_decide (s = next) then skip else
    upd (with_state next) ;; emit (OState next) ;;
    (if bool_decide (next = Ready)
     then read readyWaiters (λ w, upd (with_readyWaiters (λ _, [])) ;; foreach w (λ p, emit (OResolveP p)))
     else skip)).

Definition notifyIdle : act :=
  read inFlight (λ l, match l with
    | [] => read idleWaiters (λ w, upd (with_idleWaiters (λ _, [])) ;; foreach w (λ p, emit (OIdle p)))
    | _ => skip end).

Definition settleInFlight (t : nat) : act := upd (with_inFlight (drop t)) ;; notifyIdle.

(** [ctx.ws?.send(...)] with its throw swallowed; [ok] says it did not throw. *)
Definition send_frame (ok : bool) (m : TunnelMessage) : act :=
  read ws (λ w, match w with
    | Some n => if ok then emit (OFrame n m) else skip
    | None => skip end).

Definition close_socket (n : nat) (code : Z) : act :=
  upd (with_sockets id id (λ l, n :: l)) ;; emit (OCloseSocket n code).

Definition detachSocket (n : nat) : act :=
  upd (with_sockets (drop n) id id) ;; close_socket n 1000.

Definition cleanupSocket : act :=
  read ws (λ w, match w with Some n => detachSocket n ;; upd (with_ws None) | None => skip end) ;;
  upd (with_heartbeat false) ;;
  read pendingPings (λ ps, foreach ps.*2 (λ p, match p with
    | UserPing q => emit (ORejectP q "tunnel-disconnected") | HeartbeatPing => skip end)) ;;
  upd (with_pings (λ _, [])) ;;
  read activeSubscriptions (λ a, foreach a.*2 (λ t, emit (OCancelSub t))) ;;
  upd (with_active (λ _, [])) ;;
  upd (with_inFlight (λ _, [])) ;;
  notifyIdle.

Definition backoff_base (attempt : Z) : Q :=
  Qmin (maxDelayMs reconnectCfg) (minDelayMs reconnectCfg * inject_Z (2 ^ Z.max 0 (attempt - 1))).

(** [random] is what [Math.random()] returns. *)
Definition computeBackoff (attempt : Z) (random : Q) : Q :=
  let base := backoff_base attempt in
  let jitter := (base * jitterFraction reconnectCfg)%Q in
  Qmax 0 (base + (random * 2 - 1) * jitter).

Definition scheduleReconnect (random : Q) : act :=
  read stopped (λ s, if s then skip else
    read reconnectTimer (λ t, if t then skip else
      read attempt (λ a, upd (with_reconnectTimer true) ;;
        emit (OReconnectIn (computeBackoff a random))))).

Definition startHeartbeat : act := if heartbeat_on then upd (with_heartbeat true) else skip.

Definition resolve_first : act :=
  read firstAttemptResolver (λ r, match r with
    | Some p => emit (OResolveP p) ;; upd (with_first None) | None => skip end).

Definition reject_first (message : string) : act :=
  read firstAttemptResolver (λ r, match r with
    | Some p => emit (ORejectP p message) ;; upd (with_first None) | None => skip end).

(** ** Connection *)

(** [threw]: the message the constructor throws with, if it throws. *)
Definition doConnect (threw : option string) (random : Q) : act :=
  read stopped (λ s, if s then skip else
    upd (with_attempt (λ a, a + 1)) ;;
    setState Connecting ;;
    match threw with
    | Some msg =>
        setState Disconnected ;;
        scheduleReconnect random ;;
        read attempt (λ a, if bool_decide (a = 1) then reject_first msg else skip)
    | None => new_token (λ n,
        upd (with_ws (Some n)) ;;
        upd (with_sockets (λ l, n :: l) (λ l, n :: l) id) ;;
        emit (ODial n))
    end).

Definition clearAckTimer (n : nat) : act := upd (with_sockets id (drop n) id).

(** The hello-ack timer of socket [n] closes whatever socket is current. *)
Definition ackTimeout (n : nat) : act :=
  read armed (λ l, if bool_decide (n ∈ l) then
    clearAckTimer n ;;
    read ws (λ w, match w with Some m => close_socket m 1000 | None => skip end)
  else skip).

Definition onopen (n : nat) (ok : bool) : act :=
  read live (λ l, if bool_decide (n ∈ l)
    then if ok then emit (OFrame n (MHello bearer nodeName)) else skip else skip).

Definition handleHelloAck (n : nat) : act :=
  clearAckTimer n ;;
  upd (with_attempt (λ _, 0)) ;;
  setState Ready ;;
  startHeartbeat ;;
  resolve_first.

Definition stream_failed (id code message : string) : TunnelMessage :=
  MStreamDone {| sd_id := id; sd_ok := false;
                 sd_error := Some {| fe_code := code; fe_message := message |} |}.

(** What a subscription's source calls. *)
Inductive SourceCall := OnEvent (data : string) | OnError (code message : string) | OnComplete.

Definition source_call (t : nat) (id : string) (call : SourceCall) (ok : bool) : act :=
  match call with
  | OnEvent data =>
      read ws (λ w, match w with
        | Some n => read (λ c, default 0 (indices c !! t)) (λ i,
            upd (with_indices (insert t (i + 1))) ;;
            (if ok then emit (OFrame n (MStreamEvent id i data)) else skip))
        | None => skip end)
  | OnError code message =>
      upd (with_active (λ a, jm_delete a id)) ;;
      send_frame ok (stream_failed id code message) ;; settleInFlight t
  | OnComplete =>
      upd (with_active (λ a, jm_delete a id)) ;;
      send_frame ok (MStreamDone {| sd_id := id; sd_ok := true; sd_error := None |}) ;;
      settleInFlight t
  end.

(** [sync]: the calls the source makes before [subscribe] returns. *)
Definition doHandleSubscription (req : TunnelReq) (sync : list SourceCall) (ok : bool) : act :=
  match handleSubscription with
  | None => send_frame ok (stream_failed (rq_id req) "subscription-unsupported"
      "this agent does not have a subscription handler wired")
  | Some handler => match handler req with
      | Err e => send_frame ok (stream_failed (rq_id req) "subscription-handler-threw" e)
      | Ok _ => new_token (λ t,
          upd (with_inFlight (λ l, l ++ [t])) ;;
          foreach sync (λ call, source_call t (rq_id req) call ok) ;;
          upd (with_active (λ a, jm_set a (rq_id req) t)))
      end
  end.

Definition handleReqMessage (req : TunnelReq) (sync : list SourceCall) (ok : bool) : act :=
  if rq_subscription req then doHandleSubscription req sync ok
  else new_token (λ t, upd (with_inFlight (λ l, l ++ [t])) ;; emit (OHandleRequest t req)).

(** The continuation of doHandleRequest. *)
Definition requestDone (t : nat) (res : TunnelRes) (ok : bool) : act :=
  send_frame ok (MRes res) ;; settleInFlight t.

Definition handleStreamCancel (id : string) : act :=
  read activeSubscriptions (λ a, match jm_get a id with
    | Some t => upd (with_active (λ a, jm_delete a id)) ;; emit (OCancelSub t)
    | None => skip end).

Definition handlePong (nonce : string) : act :=
  read pendingPings (λ ps, match jm_get ps nonce with
    | Some p => upd (with_pings (λ m, jm_delete m nonce)) ;;
        match p with UserPing q => emit (OResolveP q) | HeartbeatPing => skip end
    | None => skip end).

Definition onmessage (n : nat) (raw : RawFrame) (sync : list SourceCall) (ok : bool) : act :=
  read live (λ l, if bool_decide (n ∈ l) then
    match parseTunnelMessage raw with
    | None => skip
    | Some msg => read state (λ s,
        if bool_decide (s ≠ Ready)
        then match msg with MHelloAck _ => handleHelloAck n | _ => skip end
        else match msg with
        | MReq req => handleReqMessage req sync ok
        | MStreamCancel id => handleStreamCancel id
        | MPong nonce => handlePong nonce
        | _ => skip
        end)
    end
  else skip).

Definition onclose (n : nat) (code : Z) (random : Q) : act :=
  read live (λ l, if bool_decide (n ∈ l) then
    clearAckTimer n ;;
    read (λ c, bool_decide (is_Some (firstAttemptResolver c)) && (attempt c =? 1)) (λ wasFirst,
      emit (OOnClose code) ;;
      cleanupSocket ;;
      read stopped (λ s, setState (if s then Stopped else Disconnected)) ;;
      (if wasFirst then reject_first "tunnel closed before hello-ack" else skip) ;;
      read stopped (λ s, if s then skip else scheduleReconnect random))
  else skip).

Definition reconnectFires (threw : option string) (random : Q) : act :=
  read reconnectTimer (λ t, if t then
    upd (with_reconnectTimer false) ;; doConnect threw random
  else skip).

(** ** Calls *)

(** [budget_on]: [initialAttemptTimeoutMs > 0]. *)
Definition startTunnelClient (p : nat) (budget_on : bool) (threw : option string) (random : Q) : act :=
  read stopped (λ s, if s then emit (ORejectP p "tunnel client has been stopped")
  else if budget_on then upd (with_first (Some p)) ;; doConnect threw random
  else doConnect threw random ;; emit (OResolveP p)).

Definition startTimeout (p : nat) : act :=
  read firstAttemptResolver (λ r, if bool_decide (r = Some p)
    then upd (with_first None) ;; emit (ORejectP p "tunnel start: initial-attempt timeout") else skip).

Definition stopTunnelClient (code : Z) : act :=
  upd with_stopped ;;
  read ws (λ w, match w with Some n => close_socket n code | None => skip end) ;;
  cleanupSocket ;;
  setState Stopped ;;
  read readyWaiters (λ w, upd (with_readyWaiters (λ _, [])) ;;
    foreach w (λ p, emit (ORejectP p "tunnel client stopped"))) ;;
  reject_first "tunnel client stopped".

Definition pingTunnel (p : nat) (nonce : string) (send_err : option string) : act :=
  read (λ c, (state c, ws c)) (λ sw, match sw with
    | (Ready, Some n) =>
        upd (with_pings (λ m, jm_set m nonce (UserPing p))) ;;
        match send_err with
        | None => emit (OFrame n (MPing nonce))
        | Some e => upd (with_pings (λ m, jm_delete m nonce)) ;; emit (ORejectP p e)
        end
    | _ => emit (ORejectP p "tunnel not ready") end).

(** The timer of [ping()]; it runs while its entry is there. *)
Definition pingTimeout (p : nat) (nonce : string) : act :=
  read pendingPings (λ ps, match jm_get ps nonce with
    | Some (UserPing q) => if bool_decide (p = q)
        then upd (with_pings (λ m, jm_delete m nonce)) ;; emit (ORejectP p "ping timeout") else skip
    | _ => skip end).

Definition heartbeatTick (nonce : string) (ok : bool) : act :=
  read heartbeatTimer (λ h, if h then
    read state (λ s, if bool_decide (s = Ready) then
      upd (with_pings (λ m, jm_set m nonce HeartbeatPing)) ;;
      (if ok then send_frame true (MPing nonce) else upd (with_pings (λ m, jm_delete m nonce)))
    else skip)
  else skip).

Definition heartbeatMiss (nonce : string) : act :=
  read pendingPings (λ ps, match jm_get ps nonce with
    | Some HeartbeatPing =>
        upd (with_pings (λ m, jm_delete m nonce)) ;;
        read ws (λ w, match w with Some n => close_socket n 4000 | None => skip end)
    | _ => skip end).

Definition waitUntilTunnelReady (p : nat) : act :=
  read state (λ s, match s with
    | Ready => emit (OResolveP p)
    | Stopped => emit (ORejectP p "tunnel client stopped")
    | _ => upd (with_readyWaiters (λ l, l ++ [p])) end).

Definition waitTimeout (p : nat) : act :=
  read readyWaiters (λ l, if bool_decide (p ∈ l)
    then upd (with_readyWaiters (drop p)) ;; emit (ORejectP p "tunnel waitUntilReady: timeout") else skip).

Definition whenTunnelIdle (p : nat) : act :=
  read inFlight (λ l, match l with
    | [] => emit (OIdle p)
    | _ => upd (with_idleWaiters (λ w, w ++ [p])) end).

(** ** Runs *)

Inductive CEvent :=
| CStart (p : nat) (budget_on : bool) (threw : option string) (random : Q)
| CStartTimeout (p : nat)
| CStop (code : Z)
| COpen (n : nat) (ok : bool)
| CMessage (n : nat) (raw : RawFrame) (sync : list SourceCall) (ok : bool)
| CClosed (n : nat) (code : Z) (random : Q)
| CAckTimeout (n : nat)
| CReconnect (threw : option string) (random : Q)
| CHeartbeat (nonce : string) (ok : bool)
| CHeartbeatMiss (nonce : string)
| CPing (p : nat) (nonce : string) (send_err : option string)
| CPingTimeout (p : nat) (nonce : string)
| CRequestDone (t : nat) (res : TunnelRes) (ok : bool)
| CSource (t : nat) (id : string) (call : SourceCall) (ok : bool)
| CWaitReady (p : nat)
| CWaitTimeout (p : nat)
| CWhenIdle (p : nat).

Definition client_step (ev : CEvent) : act :=
  match ev with
  | CStart p b t r => startTunnelClient p b t r
  | CStartTimeout p => startTimeout p
  | CStop code => stopTunnelClient code
  | COpen n ok => onopen n ok
  | CMessage n raw sync ok => onmessage n raw sync ok
  | CClosed n code r => onclose n code r
  | CAckTimeout n => ackTimeout n
  | CReconnect t r => reconnectFires t r
  | CHeartbeat nonce ok => heartbeatTick nonce ok
  | CHeartbeatMiss nonce => heartbeatMiss nonce
  | CPing p nonce e => pingTunnel p nonce e
  | CPingTimeout p nonce => pingTimeout p nonce
  | CRequestDone t res ok => requestDone t res ok
  | CSource t id call ok => source_call t id call ok
  | CWaitReady p => waitUntilTunnelReady p
  | CWaitTimeout p => waitTimeout p
  | CWhenIdle p => whenTunnelIdle p
  end.

Definition client_run (evs : list CEvent) : act := run client_step evs.

(** ** Effects of the small steps on the state *)

Lemma foreach_pure {A} (l : list A) (body : A → act) c :
  (∀ x c, (body x c).1 = c) → (foreach l body c).1 = c.
Proof.
  intros H. induction l as [|x l IH]; [done|]. simpl. by rewrite seqa_fst, H.
Qed.

Lemma setState_fst next c :
  (setState next c).1 =
    if decide (state c = next) then c
    else with_state next (if decide (next = Ready) then with_readyWaiters (λ _, []) c else c).
Proof.
  unfold setState, read. case_bool_decide; case_decide; try done. rewrite !seqa_fst. simpl.
  unfold read. case_bool_decide; case_decide; try done. rewrite seqa_fst, foreach_pure; [|done].
  by destruct c.
Qed.

Lemma notifyIdle_fst c :
  (notifyIdle c).1 = if decide (inFlight c = []) then with_idleWaiters (λ _, []) c else c.
Proof.
  unfold notifyIdle, read. destruct (inFlight c); [|done]. rewrite seqa_fst, foreach_pure; done.
Qed.

Lemma cleanupSocket_fst c :
  (cleanupSocket c).1 =
    {| ws := None; state := state c; stopped := stopped c; attempt := attempt c;
       reconnectTimer := reconnectTimer c; heartbeatTimer := false; pendingPings := [];
       readyWaiters := readyWaiters c; firstAttemptResolver := firstAttemptResolver c;
       activeSubscriptions := []; inFlight := []; idleWaiters := [];
       live := match ws c with Some n => drop n (live c) | None => live c end;
       armed := armed c;
       closing := match ws c with Some n => n :: closing c | None => closing c end;
       indices := indices c; fresh := fresh c |}.
Proof.
  unfold cleanupSocket. rewrite !seqa_fst. unfold read. rewrite notifyIdle_fst. simpl.
  rewrite !foreach_pure by (try done; by intros []).
  destruct (ws c) as [n|] eqn:E; simpl.
  - done.
  - destruct c; simpl in *. by subst.
Qed.

Lemma reject_first_fst m c : (reject_first m c).1 = with_first None c.
Proof. unfold reject_first, read. destruct c as [? ? ? ? ? ? ? ? []]; done. Qed.

Lemma resolve_first_fst c : (resolve_first c).1 = with_first None c.
Proof. unfold resolve_first, read. destruct c as [? ? ? ? ? ? ? ? []]; done. Qed.

Lemma scheduleReconnect_fst r c :
  (scheduleReconnect r c).1 =
    if stopped c || reconnectTimer c then c else with_reconnectTimer true c.
Proof. unfold scheduleReconnect, read. by destruct (stopped c), (reconnectTimer c). Qed.

(** ** The link invariant *)

(** At most one socket is live, it is the current one, and no reconnect is
    due while it is; before its hello-ack its ack timer runs or it was told
    to close.  Without a socket the client is stopped or disconnected. *)
Record link_inv (c : Client) : Prop := {
  li_ws : match ws c with
    | Some n => live c = [n] ∧ (n < fresh c)%nat ∧ reconnectTimer c = false ∧ stopped c = false ∧
        (state c = Ready ∧ heartbeatTimer c = heartbeat_on ∨
         state c = Connecting ∧ heartbeatTimer c = false ∧ (n ∈ armed c ∨ n ∈ closing c))
    | None => live c = [] ∧ heartbeatTimer c = false ∧
        state c = (if stopped c then Stopped else Disconnected) ∧
        (stopped c = true → reconnectTimer c = false)
    end;
  li_armed : ∀ n, n ∈ armed c → ws c = Some n ∨ stopped c = true;
  li_waiters : state c = Ready ∨ state c = Stopped → readyWaiters c = []
}.

Lemma new_client_link : link_inv new_client.
Proof. split; simpl; [done| |by intros [?|?]]. by intros n ?%elem_of_nil. Qed.

Lemma drop_self n : drop n [n] = [].
Proof. unfold drop. by rewrite filter_cons, decide_False by naive_solver. Qed.

Lemma elem_of_drop m n l : m ∈ drop n l ↔ m ≠ n ∧ m ∈ l.
Proof. unfold drop. by rewrite list_elem_of_filter. Qed.

(** Nothing dialled and nothing due. *)
Definition at_rest (c : Client) : Prop := ws c = None ∧ reconnectTimer c = false.

(** The reconnect loop is alive: stopped for good, on a socket, or waiting. *)
Definition going (c : Client) : Prop :=
  stopped c = true ∨ is_Some (ws c) ∨ reconnectTimer c = true.

Lemma doConnect_link threw r c :
  link_inv c → at_rest c → link_inv (doConnect threw r c).1 ∧ going (doConnect threw r c).1.
Proof.
  intros Hi [Hn Ht]. pose proof Hi as [Hw Ha Hr]. rewrite Hn in *. destruct Hw as (Hl&Hh&Hs&_).
  unfold doConnect, read. destruct (stopped c) eqn:Est.
  { split; [done|by left]. }
  assert (∀ n, n ∈ armed c → False) as Hnoarm by (intros n [?|?]%Ha; congruence).
  rewrite !seqa_fst. rewrite setState_fst. simpl. rewrite Hs. simpl.
  destruct threw as [msg|].
  - rewrite !seqa_fst, setState_fst. simpl. rewrite scheduleReconnect_fst. simpl. rewrite Est, Ht.
    simpl. unfold read. simpl.
    assert (link_inv (with_reconnectTimer true (with_state Disconnected
      (with_state Connecting (with_attempt (λ a, a + 1) c))))) as H.
    { split; simpl; [by rewrite Hn, Est|by intros n ?%Hnoarm|by intros [?|?]]. }
    case_bool_decide; [rewrite reject_first_fst|]; (split; [|by right; right]); [|done].
    by destruct H as [H1 H2 H3]; split.
  - unfold new_token, read. rewrite !seqa_fst. simpl. split; [|right; left; by eexists].
    split; simpl; [|intros n|by intros [?|?]].
    + rewrite Hl. split_and!; [done|lia|done|done|]. right. split_and!; [done..|]. left. left.
    + intros [->|Hn']%elem_of_cons; [by left|]. by apply Hnoarm in Hn'.
Qed.

Lemma onclose_fst n code r c :
  live c = [n] → ws c = Some n → stopped c = false → reconnectTimer c = false →
  state c ≠ Disconnected →
  (onclose n code r c).1 =
    {| ws := None; state := Disconnected; stopped := false; attempt := attempt c;
       reconnectTimer := true; heartbeatTimer := false; pendingPings := [];
       readyWaiters := readyWaiters c;
       firstAttemptResolver :=
         if bool_decide (is_Some (firstAttemptResolver c)) && (attempt c =? 1) then None
         else firstAttemptResolver c;
       activeSubscriptions := []; inFlight := []; idleWaiters := []; live := [];
       armed := drop n (armed c); closing := n :: closing c; indices := indices c;
       fresh := fresh c |}.
Proof.
  intros Hl Hw Hs Ht Hd. unfold onclose, read. rewrite bool_decide_eq_true_2 by (rewrite Hl; left).
  rewrite !seqa_fst. unfold clearAckTimer, upd, emit. simpl.
  rewrite cleanupSocket_fst. simpl. rewrite Hw, Hs, Hl, drop_self, setState_fst. simpl.
  rewrite decide_False by done.
  destruct (_ && _); simpl; rewrite ?reject_first_fst; simpl; unfold scheduleReconnect, read; simpl;
    by rewrite Ht.
Qed.

Lemma onclose_link n code r c :
  link_inv c → link_inv (onclose n code r c).1 ∧ (going c → going (onclose n code r c).1).
Proof.
  intros Hi. pose proof Hi as [Hw Ha Hr].
  destruct (decide (n ∈ live c)) as [Hin|Hin].
  - destruct (ws c) as [m|] eqn:Em.
    + destruct Hw as (Hl&Hf&Ht&Hst&Hs). rewrite Hl in Hin. apply list_elem_of_singleton in Hin as ->.
      rewrite onclose_fst by (try done; destruct Hs as [[-> _]|[-> _]]; done).
      split; [split; simpl|by right; right]; [done| |by intros [?|?]].
      intros k [Hk Hk']%elem_of_drop. apply Ha in Hk' as [?|?]; congruence.
    + destruct Hw as [Hw _]. rewrite Hw in Hin. by apply elem_of_nil in Hin.
  - unfold onclose, read. by rewrite bool_decide_eq_false_2.
Qed.

(** Handlers that leave the link as it is. *)
Definition same_link (c : Client) (_ : list Out) (c' : Client) : Prop :=
  ws c' = ws c ∧ state c' = state c ∧ stopped c' = stopped c ∧
  reconnectTimer c' = reconnectTimer c ∧ heartbeatTimer c' = heartbeatTimer c ∧
  readyWaiters c' = readyWaiters c ∧ live c' = live c ∧ armed c' = armed c ∧
  (∀ n, n ∈ closing c → n ∈ closing c') ∧ (fresh c ≤ fresh c')%nat.

#[local] Instance same_link_trace : TraceRel same_link.
Proof.
  split; [intros c; by split_and!|].
  intros c1 o1 c2 o2 c3 (?&?&?&?&?&?&?&?&?&?) (?&?&?&?&?&?&?&?&?&?).
  split_and!; try congruence; [naive_solver|lia].
Qed.

Lemma same_link_inv c o c' : same_link c o c' → link_inv c → link_inv c'.
Proof.
  intros (E1&E2&E3&E4&E5&E6&E7&E8&Hk&Hf) [Hw Ha Hr].
  split; rewrite ?E1, ?E2, ?E3, ?E4, ?E5, ?E6, ?E7, ?E8; [|done|done].
  destruct (ws c) as [n|]; [|done].
  destruct Hw as (?&?&?&?&Hs). split_and!; [done|lia|done|done|]. naive_solver.
Qed.

Lemma same_link_going c o c' : same_link c o c' → (going c → going c') ∧ (at_rest c → at_rest c').
Proof.
  intros (E1&_&E3&E4&_). unfold going, at_rest. by rewrite E1, E3, E4.
Qed.

Ltac same_link_prim :=
  unfold respects; intros; unfold same_link; simpl;
  split_and!; first [reflexivity | lia | naive_solver | intros; by right].

Lemma close_socket_link n code : respects same_link (close_socket n code).
Proof. unfold close_socket. respects_auto; same_link_prim. Qed.
#[local] Hint Resolve close_socket_link : respects.

Lemma notifyIdle_link : respects same_link notifyIdle.
Proof. unfold notifyIdle. respects_auto; same_link_prim. Qed.
#[local] Hint Resolve notifyIdle_link : respects.

Lemma source_call_link t id call ok : respects same_link (source_call t id call ok).
Proof.
  unfold source_call, settleInFlight, send_frame. respects_auto; same_link_prim.
Qed.
#[local] Hint Resolve source_call_link : respects.

Lemma handleReqMessage_link req sync ok : respects same_link (handleReqMessage req sync ok).
Proof.
  unfold handleReqMessage, doHandleSubscription, new_token, send_frame. respects_auto; same_link_prim.
Qed.
#[local] Hint Resolve handleReqMessage_link : respects.

Lemma handleHelloAck_fst n c :
  state c ≠ Ready →
  (handleHelloAck n c).1 =
    {| ws := ws c; state := Ready; stopped := stopped c; attempt := 0;
       reconnectTimer := reconnectTimer c; heartbeatTimer := heartbeat_on || heartbeatTimer c;
       pendingPings := pendingPings c; readyWaiters := []; firstAttemptResolver := None;
       activeSubscriptions := activeSubscriptions c; inFlight := inFlight c;
       idleWaiters := idleWaiters c; live := live c; armed := drop n (armed c);
       closing := closing c; indices := indices c; fresh := fresh c |}.
Proof.
  intros Hs. unfold handleHelloAck. rewrite !seqa_fst, resolve_first_fst, setState_fst. simpl.
  rewrite decide_False by done. unfold startHeartbeat. by destruct heartbeat_on.
Qed.

Lemma onmessage_link n raw sync ok c :
  link_inv c →
  let c' := (onmessage n raw sync ok c).1 in
  link_inv c' ∧ (going c → going c') ∧ (at_rest c → at_rest c').
Proof.
  intros Hi. pose proof Hi as [Hw Ha Hr]. unfold onmessage, read.
  case_bool_decide as Hin; [|done]. destruct (parseTunnelMessage raw) as [msg|]; [|done].
  case_bool_decide as Hs.
  - destruct msg; try done. rewrite handleHelloAck_fst by done. simpl.
    destruct (ws c) as [m|] eqn:Em.
    + destruct Hw as (Hl&Hf&Ht&Hst&Hor). rewrite Hl in Hin. apply list_elem_of_singleton in Hin as ->.
      destruct Hor as [[? _]|(Hc&Hh&Hk)]; [done|]. split_and!.
      * split; simpl; [|intros k [_ Hk']%elem_of_drop; by apply Ha|done].
        split_and!; [done..|]. left. split; [done|].
        by rewrite Hh, orb_false_r.
      * intros _. right; left. by eexists.
      * intros [? _]. simpl in *. congruence.
    + destruct Hw as [Hl _]. rewrite Hl in Hin. by apply elem_of_nil in Hin.
  - assert (respects same_link (match msg with
      | MReq req => handleReqMessage req sync ok
      | MStreamCancel id => handleStreamCancel id | MPong nonce => handlePong nonce | _ => skip end)) as H.
    { unfold handleStreamCancel, handlePong. respects_auto; same_link_prim. }
    specialize (H c). destruct (same_link_going _ _ _ H). split; [by eapply same_link_inv|done].
Qed.

Lemma ackTimeout_link n c :
  link_inv c →
  let c' := (ackTimeout n c).1 in
  link_inv c' ∧ (going c → going c') ∧ (at_rest c → at_rest c').
Proof.
  intros Hi. pose proof Hi as [Hw Ha Hr]. unfold ackTimeout, read. case_bool_decide as Hin; [|done].
  unfold clearAckTimer, close_socket, seqa, upd, emit. simpl. destruct (ws c) as [m|] eqn:Em; simpl.
  - split_and!; [split; simpl|by unfold going; simpl; rewrite Em|unfold at_rest; simpl; by rewrite Em].
    + rewrite Em. destruct Hw as (?&?&?&?&Hs). split_and!; [done..|].
      destruct Hs as [?|(?&?&_)]; [by left|right]. split_and!; [done..|]. right. left.
    + intros k [_ Hk]%elem_of_drop. rewrite Em. by apply Ha.
    + done.
  - split_and!; [split; simpl|by unfold going; simpl; rewrite Em|unfold at_rest; simpl; by rewrite Em].
    + by rewrite Em.
    + intros k [_ Hk]%elem_of_drop. rewrite Em. by apply Ha.
    + done.
Qed.

Lemma stop_fst code c :
  link_inv c →
  (stopTunnelClient code c).1 =
    {| ws := None; state := Stopped; stopped := true; attempt := attempt c; reconnectTimer := false;
       heartbeatTimer := false; pendingPings := []; readyWaiters := [];
       firstAttemptResolver := None; activeSubscriptions := []; inFlight := []; idleWaiters := [];
       live := []; armed := armed c;
       closing := match ws c with Some n => n :: n :: closing c | None => closing c end;
       indices := indices c; fresh := fresh c |}.
Proof.
  intros [Hw _ Hr]. unfold stopTunnelClient, read. rewrite !seqa_fst, reject_first_fst.
  rewrite foreach_pure by done. unfold upd. simpl. rewrite setState_fst, cleanupSocket_fst.
  destruct (ws c) as [n|] eqn:Ew; simpl; rewrite Ew.
  - destruct Hw as (->&_&_&Hst&Hs). rewrite drop_self.
    rewrite decide_False by (destruct Hs as [[-> _]|[-> _]]; done). done.
  - destruct Hw as (->&_&Hs&_). destruct (decide (state c = Stopped)) as [E|E]; [|done].
    simpl. by rewrite E, Hr by (by right).
Qed.

Lemma step_link ev c :
  link_inv c → (∀ p b t r, ev = CStart p b t r → stopped c = true ∨ at_rest c) →
  let c' := (client_step ev c).1 in
  link_inv c' ∧ (going c → going c') ∧
  ((∀ p b t r, ev ≠ CStart p b t r) → at_rest c → at_rest c').
Proof.
  intros Hi Hstart. pose proof Hi as [Hw Ha Hr].
  assert (∀ a, respects same_link a → let c' := (a c).1 in
    link_inv c' ∧ (going c → going c') ∧ ((∀ p b t r, ev ≠ CStart p b t r) → at_rest c → at_rest c')) as HS.
  { intros a H. specialize (H c). destruct (same_link_going _ _ _ H).
    split_and!; [by eapply same_link_inv|done|done]. }
  destruct ev as [p b t r|p|code|n ok|n raw sync ok|n code r|n|t r|nonce ok|nonce|p nonce e|p nonce|
    t res ok|t id call ok|p|p|p]; simpl.
  - unfold startTunnelClient, read. destruct (stopped c) eqn:Est; [by split_and!|].
    destruct (Hstart p b t r eq_refl) as [?|Hrest]; [congruence|].
    destruct b.
    + rewrite seqa_fst. simpl. destruct (doConnect_link t r (with_first (Some p) c)) as [H1 H2];
        [by destruct Hi; split|exact Hrest|]. split_and!; [done|done|].
      intros H. by destruct (H p true t r).
    + rewrite seqa_fst. destruct (doConnect_link t r c Hi Hrest) as [H1 H2]. split_and!; [done..|].
      intros H. by destruct (H p false t r).
  - apply HS. unfold startTimeout. respects_auto; same_link_prim.
  - rewrite stop_fst by done. split_and!; [split; simpl; [done|by right|done]|by left|done].
  - apply HS. unfold onopen. respects_auto; same_link_prim.
  - destruct (onmessage_link n raw sync ok c Hi) as (?&?&?). by split_and!.
  - destruct (onclose_link n code r c Hi) as [H1 H2]. split_and!; [done..|]. intros _ [E1 E2].
    rewrite E1 in Hw. destruct Hw as [Hl _]. unfold onclose, read.
    rewrite bool_decide_eq_false_2 by (rewrite Hl; apply not_elem_of_nil). done.
  - destruct (ackTimeout_link n c Hi) as (?&?&?). by split_and!.
  - unfold reconnectFires, read. destruct (reconnectTimer c) eqn:Et; [|by split_and!].
    rewrite seqa_fst. simpl.
    assert (ws c = None) as Hn by (destruct (ws c); [destruct Hw as (_&_&?&_); congruence|done]).
    destruct (doConnect_link t r (with_reconnectTimer false c)) as [H1 H2]; [|done|].
    + rewrite Hn in Hw. split; simpl; [|done|done]. rewrite Hn. by destruct Hw as (?&?&?&?).
    + split_and!; [done..|]. intros _ [_ ?]. congruence.
  - apply HS. unfold heartbeatTick, send_frame. respects_auto; same_link_prim.
  - apply HS. unfold heartbeatMiss. respects_auto; same_link_prim.
  - apply HS. unfold pingTunnel. respects_auto; same_link_prim.
  - apply HS. unfold pingTimeout. respects_auto; same_link_prim.
  - apply HS. unfold requestDone, settleInFlight, send_frame. respects_auto; same_link_prim.
  - apply HS. apply source_call_link.
  - unfold waitUntilTunnelReady, read. destruct (state c) eqn:Es; try by split_and!.
    all: split_and!; [split; simpl; [by rewrite ?Es|done|by rewrite Es; intros [?|?]]|done|done].
  - unfold waitTimeout, read. case_bool_decide as Hin; [|by split_and!].
    rewrite seqa_fst. simpl. split_and!; [split; simpl; [done|done|]|done|done].
    intros Hs. rewrite Hr in Hin by done. by apply elem_of_nil in Hin.
  - apply HS. unfold whenTunnelIdle. respects_auto; same_link_prim.
Qed.
End client.
