(* ===== verification/TunnelClientProps.v ===== *)
(** * Theorems about the tunnel client

    The reconnect loop never stalls, [stop] is final, [whenIdle] is sound,
    the backoff stays in its band; and two behaviours of TunnelClient.v that
    callers must not rely on. *)

From S2P Require Import Prelude JsMap TunnelMessages TunnelClient.
From Stdlib Require Import QArith Qminmax Lqa.

#[local] Open Scope string_scope.
#[local] Open Scope list_scope.
#[local] Open Scope Z_scope.
#[local] Open Scope act_scope.

(** ** Backoff *)

Section backoff.
Context (cfg : ReconnectConfig).

Lemma pow2_pos n : (1 <= inject_Z (2 ^ Z.max 0 n))%Q.
Proof.
  unfold Qle. simpl. rewrite Z.mul_1_r. pose proof (Z.pow_pos_nonneg 2 (Z.max 0 n)). lia.
Qed.

Lemma pow2_mono m n : m ≤ n → (inject_Z (2 ^ Z.max 0 m) <= inject_Z (2 ^ Z.max 0 n))%Q.
Proof. intros H. rewrite <-Zle_Qle. apply Z.pow_le_mono_r; lia. Qed.

Lemma backoff_base_bounds attempt :
  (0 <= minDelayMs cfg <= maxDelayMs cfg)%Q →
  (minDelayMs cfg <= backoff_base cfg attempt <= maxDelayMs cfg)%Q.
Proof.
  intros [H0 H1]. unfold backoff_base. split; [|apply Q.le_min_l].
  apply Q.min_glb; [done|]. pose proof (pow2_pos (attempt - 1)). nra.
Qed.

(** The n-th retry waits a base delay that starts at
    [minDelayMs], doubles up to [maxDelayMs] and never shrinks as attempts
    fail, give or take the jitter fraction; an acknowledged hello sets the
    attempt counter back to zero. *)
Theorem backoff_within_band a b random :
  (0 <= minDelayMs cfg <= maxDelayMs cfg)%Q → (0 <= jitterFraction cfg <= 1)%Q →
  (0 <= random <= 1)%Q → a ≤ b →
  let base := backoff_base cfg a in
  (backoff_base cfg 1 == minDelayMs cfg)%Q ∧
  (base <= backoff_base cfg b <= maxDelayMs cfg)%Q ∧
  (base * (1 - jitterFraction cfg) <= computeBackoff cfg a random
     <= base * (1 + jitterFraction cfg))%Q ∧
  (∀ hb n c, state c ≠ Ready → attempt (handleHelloAck hb n c).1 = 0).
Proof.
  intros Hd [Hj0 Hj1] [Hr0 Hr1] Hab base.
  destruct (backoff_base_bounds a Hd) as [Ha0 Ha1], (backoff_base_bounds b Hd) as [Hb0 Hb1].
  fold base in Ha0, Ha1.
  assert (0 <= base)%Q as Hbase by (destruct Hd; lra).
  assert (0 <= base * jitterFraction cfg)%Q as Hbj by nra.
  assert (0 <= base * jitterFraction cfg * random)%Q as Hbr by nra.
  assert (base * jitterFraction cfg * random <= base * jitterFraction cfg)%Q as Hbr1 by nra.
  split_and!.
  - unfold backoff_base. change (inject_Z (2 ^ Z.max 0 (1 - 1))) with 1%Q.
    rewrite Qmult_1_r. apply Q.min_r. tauto.
  - subst base. unfold backoff_base in *. apply Q.min_le_compat_l.
    pose proof (pow2_mono (a - 1) (b - 1) ltac:(lia)). nra.
  - done.
  - unfold computeBackoff. fold base. eapply Qle_trans; [|apply Q.le_max_r]. lra.
  - unfold computeBackoff. fold base. apply Q.max_lub; lra.
  - intros hb n c Hs. by rewrite handleHelloAck_fst.
Qed.
End backoff.

(** [maxDelayMs] does not cap the delay: the jitter is added to the capped base. *)
Lemma backoff_exceeds_cap :
  let cfg := {| minDelayMs := 1000; maxDelayMs := 60000; jitterFraction := 2 # 10 |}%Q in
  (maxDelayMs cfg < computeBackoff cfg 10 (9 # 10))%Q.
Proof. vm_compute. reflexivity. Qed.

Section client.
Context (reconnectCfg : ReconnectConfig) (heartbeat_on : bool)
  (handleSubscription : option (TunnelReq → result unit)) (bearer nodeName : string).

Notation step := (client_step reconnectCfg heartbeat_on handleSubscription bearer nodeName) (only parsing).
Notation run_client := (client_run reconnectCfg heartbeat_on handleSubscription bearer nodeName) (only parsing).
Notation link_ok := (link_inv heartbeat_on) (only parsing).

Definition is_start (ev : CEvent) : bool := match ev with CStart _ _ _ _ => true | _ => false end.

Lemma run_cons ev evs c : (run_client (ev :: evs) c).1 = (run_client evs (step ev c).1).1.
Proof. unfold client_run. simpl. by rewrite seqa_fst. Qed.

Lemma run_app evs1 evs2 c : (run_client (evs1 ++ evs2) c).1 = (run_client evs2 (run_client evs1 c).1).1.
Proof.
  revert c. induction evs1 as [|ev evs1 IH]; intros c; [done|]. simpl app. rewrite !run_cons. apply IH.
Qed.

Lemma run_without_start evs c :
  Forall (λ ev, is_start ev = false) evs → link_ok c →
  link_ok (run_client evs c).1 ∧ (going c → going (run_client evs c).1) ∧
  (at_rest c → at_rest (run_client evs c).1).
Proof.
  intros H. revert c. induction H as [|ev evs Hev _ IH]; intros c Hi; [done|]. rewrite run_cons.
  destruct (step_link reconnectCfg heartbeat_on handleSubscription bearer nodeName ev c Hi)
    as (H1&H2&H3); [by intros p b t r ->|].
  destruct (IH _ H1) as (H4&H5&H6). split_and!; [done|by intros ?%H2%H5|].
  intros Hr. apply H6, H3; [by intros p b t r ->|done].
Qed.

(** C21 (liveness): a client that was started once is, whatever fails
    afterwards, stopped for good, on a socket, or waiting to dial again; it
    holds at most one live socket, and before the hello-ack that socket's ack
    timer runs or it was told to close. *)
Theorem client_never_stalls pre p b t r post :
  Forall (λ ev, is_start ev = false) pre → Forall (λ ev, is_start ev = false) post →
  let c := (run_client (pre ++ CStart p b t r :: post) new_client).1 in
  going c ∧ (length (live c) ≤ 1)%nat ∧
  (state c = Ready → ∃ n, ws c = Some n ∧ live c = [n]) ∧
  (state c = Connecting → ∃ n, ws c = Some n ∧ live c = [n] ∧ (n ∈ armed c ∨ n ∈ closing c)).
Proof.
  intros Hpre Hpost c.
  destruct (run_without_start pre new_client Hpre (new_client_link heartbeat_on)) as (H1&_&H3).
  specialize (H3 ltac:(done)). set (c0 := (run_client pre new_client).1) in *.
  destruct (step_link reconnectCfg heartbeat_on handleSubscription bearer nodeName
    (CStart p b t r) c0 H1) as (H4&_&_); [by right|].
  assert (going (step (CStart p b t r) c0).1) as Hg.
  { simpl. unfold startTunnelClient, read. destruct (stopped c0) eqn:Es; [by left|].
    destruct b; rewrite seqa_fst; simpl.
    - apply (doConnect_link reconnectCfg heartbeat_on); [by destruct H1; split|done].
    - by apply (doConnect_link reconnectCfg heartbeat_on). }
  destruct (run_without_start post _ Hpost H4) as (H5&H6&_).
  assert (c = (run_client post (step (CStart p b t r) c0).1).1) as ->.
  { subst c. by rewrite run_app, run_cons. }
  split; [by apply H6|]. destruct H5 as [Hw _ _]. destruct (ws _) as [n|].
  - destruct Hw as (->&_&_&_&Hs). split_and!; [done|by eauto|].
    intros E. exists n. destruct Hs as [[? _]|(_&_&?)]; [congruence|done].
  - destruct Hw as (->&_&Hs&_). split_and!; [simpl; lia| |]; rewrite Hs; by destruct (stopped _).
Qed.

(** ** Stopping *)

(** Nothing left that could dial or change state. *)
Definition dead (c : Client) : Prop :=
  ws c = None ∧ live c = [] ∧ stopped c = true ∧ reconnectTimer c = false ∧ state c = Stopped.

Definition silent (o : Out) : Prop :=
  match o with
  | ODial _ | OState _ | OFrame _ _ | OReconnectIn _ | OHandleRequest _ _ => False
  | _ => True
  end.

Definition stays_dead := under dead (emits silent).

#[local] Instance stays_dead_trace : TraceRel stays_dead.
Proof. unfold stays_dead. apply _. Qed.

Ltac dead_prim :=
  let Hl := fresh in
  unfold respects; intros; intros (?&Hl&?&?&?); split;
  [by unfold dead; simpl; rewrite ?Hl; split_and!|by repeat constructor].

Lemma send_frame_dead ok m : respects stays_dead (send_frame ok m).
Proof. intros c Hd. pose proof Hd as (Hw&_). unfold send_frame, read. rewrite Hw. by split; [|constructor]. Qed.

Lemma notifyIdle_dead : respects stays_dead notifyIdle.
Proof. unfold notifyIdle. respects_auto; dead_prim. Qed.
#[local] Hint Resolve send_frame_dead notifyIdle_dead : respects.

Lemma source_call_dead tk id call ok : respects stays_dead (source_call tk id call ok).
Proof.
  unfold source_call, settleInFlight. destruct call; [|respects_auto; dead_prim..].
  intros c Hd. pose proof Hd as (Hw&_). unfold read. rewrite Hw. by split; [|constructor].
Qed.

Lemma step_dead ev : respects stays_dead (step ev).
Proof.
  intros c Hd. pose proof Hd as (Hw&Hl&Hs&Ht&Hst).
  assert (dead c ∧ emits silent c [] c) as Hrefl by (split; [done|constructor]).
  assert (∀ a, respects stays_dead a → dead (a c).1 ∧ emits silent c (a c).2 (a c).1) as HS
    by (intros a H; by apply H).
  destruct ev as [p b t r|p|code|n ok|n raw sync ok|n code r|n|t r|nonce ok|nonce|p nonce e|p nonce|
    t res ok|t id call ok|p|p|p]; simpl.
  - unfold startTunnelClient, read. rewrite Hs. by split; [|repeat constructor].
  - apply HS. unfold startTimeout. respects_auto; dead_prim.
  - unfold stopTunnelClient. apply HS. unfold cleanupSocket, close_socket, detachSocket, close_socket, reject_first.
    respects_auto; try dead_prim.
    intros c' Hd'. pose proof Hd' as (?&?&?&?&E'). unfold setState, read. rewrite E'.
    rewrite bool_decide_eq_true_2 by done. by split; [|constructor].
  - unfold onopen, read. by rewrite Hl, bool_decide_eq_false_2 by apply not_elem_of_nil.
  - unfold onmessage, read. by rewrite Hl, bool_decide_eq_false_2 by apply not_elem_of_nil.
  - unfold onclose, read. by rewrite Hl, bool_decide_eq_false_2 by apply not_elem_of_nil.
  - apply HS. unfold ackTimeout, clearAckTimer, close_socket. respects_auto; dead_prim.
  - unfold reconnectFires, read. by rewrite Ht.
  - unfold heartbeatTick, read. destruct (heartbeatTimer c); [|done].
    rewrite Hst. by rewrite bool_decide_eq_false_2.
  - apply HS. unfold heartbeatMiss, close_socket. respects_auto; dead_prim.
  - unfold pingTunnel, read. rewrite Hst. by split; [|repeat constructor].
  - apply HS. unfold pingTimeout. respects_auto; dead_prim.
  - apply HS. unfold requestDone, settleInFlight. respects_auto; dead_prim.
  - by apply source_call_dead.
  - unfold waitUntilTunnelReady, read. rewrite Hst. by split; [|repeat constructor].
  - apply HS. unfold waitTimeout. respects_auto; dead_prim.
  - apply HS. unfold whenTunnelIdle. respects_auto; dead_prim.
Qed.

(** In a session with one [start] at most, [stop] is final:
    afterwards the client dials no socket, schedules no retry, sends no frame,
    runs no handler and never leaves the state stopped, whatever timers and
    promises still fire and even if [start] is called again. *)
Theorem stop_is_final pre start mid code post :
  Forall (λ ev, is_start ev = false) pre → Forall (λ ev, is_start ev = false) mid →
  (start = [] ∨ ∃ p b t r, start = [CStart p b t r]) →
  let c := (run_client (pre ++ start ++ mid ++ [CStop code]) new_client).1 in
  state (run_client post c).1 = Stopped ∧ Forall silent (run_client post c).2.
Proof.
  intros Hpre Hmid Hst c.
  destruct (run_without_start pre new_client Hpre (new_client_link heartbeat_on)) as (H1&_&H3).
  specialize (H3 ltac:(done)).
  assert (link_ok (run_client start (run_client pre new_client).1).1) as H4.
  { destruct Hst as [->|(p&b&t&r&->)]; [done|]. rewrite run_cons.
    apply (step_link reconnectCfg heartbeat_on handleSubscription bearer nodeName); [done|by right]. }
  destruct (run_without_start mid _ Hmid H4) as (H5&_&_).
  assert (dead c) as Hd.
  { subst c. rewrite !run_app, run_cons. simpl. rewrite (stop_fst heartbeat_on) by done.
    by split_and!. }
  destruct (respects_run stays_dead step (λ _, True) post (λ ev _, step_dead ev) ltac:(by apply Forall_true) c Hd)
    as [(_&_&_&_&Hs) Ho]. done.
Qed.

(** ** Idle *)

(** Work only leaves, and idle waiters are woken only when none is left. *)
Definition idle_rel (c : Client) (o : list Out) (c' : Client) : Prop :=
  (inFlight c = [] → inFlight c' = []) ∧
  (∀ w, OIdle w ∈ o → inFlight c' = []) ∧
  ((inFlight c = [] → idleWaiters c = []) → inFlight c' = [] → idleWaiters c' = []).

#[local] Instance idle_rel_trace : TraceRel idle_rel.
Proof.
  split.
  - intros c. split_and!; [done|by intros w ?%elem_of_nil|done].
  - intros c1 o1 c2 o2 c3 (A1&B1&D1) (A2&B2&D2). split_and!; [auto| |auto].
    intros w [H|H]%elem_of_app; eauto.
Qed.

Ltac idle_prim :=
  unfold respects; intros; unfold idle_rel; simpl;
  split_and!; [done|intros ? ?; exfalso;
    repeat match goal with H : _ ∈ _ :: _ |- _ => apply elem_of_cons in H as [?|H] end;
    try done; by eapply not_elem_of_nil|done].

Lemma notifyIdle_idle : respects idle_rel notifyIdle.
Proof.
  intros c. unfold idle_rel. rewrite notifyIdle_fst. split_and!.
  - case_decide; simpl; naive_solver.
  - intros w. unfold notifyIdle, read. destruct (inFlight c) eqn:E; [done|]. by intros ?%elem_of_nil.
  - case_decide; simpl; naive_solver.
Qed.
#[local] Hint Resolve notifyIdle_idle : respects.

Lemma settleInFlight_idle t : respects idle_rel (settleInFlight t).
Proof.
  intros c. unfold settleInFlight, idle_rel. rewrite seqa_fst, seqa_snd, notifyIdle_fst. simpl.
  destruct (notifyIdle_idle (with_inFlight (drop t) c)) as (_&H2&_). rewrite notifyIdle_fst in H2. simpl in *.
  split_and!.
  - intros E. assert (drop t (inFlight c) = []) as Ed by (by rewrite E). case_decide; exact Ed.
  - done.
  - case_decide; simpl; naive_solver.
Qed.
#[local] Hint Resolve settleInFlight_idle : respects.

Lemma source_call_idle t id call ok : respects idle_rel (source_call t id call ok).
Proof. unfold source_call, send_frame. respects_auto; idle_prim. Qed.
#[local] Hint Resolve source_call_idle : respects.

Lemma setState_idle s : respects idle_rel (setState s).
Proof. unfold setState. respects_auto; idle_prim. Qed.
#[local] Hint Resolve setState_idle : respects.

Lemma cleanupSocket_idle : respects idle_rel cleanupSocket.
Proof. intros c. unfold idle_rel. by rewrite cleanupSocket_fst. Qed.
#[local] Hint Resolve cleanupSocket_idle : respects.

Definition idle_waiters_ok (c : Client) : Prop := inFlight c = [] → idleWaiters c = [].

(** What one step does to idle waiters: new work may come first. *)
Definition idle_step (c : Client) (o : list Out) (c' : Client) : Prop :=
  (∀ w, OIdle w ∈ o → inFlight c' = []) ∧ (idle_waiters_ok c → idle_waiters_ok c').

Lemma idle_rel_step a c : respects idle_rel a → idle_step c (a c).2 (a c).1.
Proof. intros H. by destruct (H c) as (_&?&?). Qed.

Lemma new_work_idle (k : nat → act Client Out) c :
  (∀ t, respects idle_rel (k t)) →
  let a := new_token (λ t, upd (with_inFlight (λ l, l ++ [t])) ;; k t) in
  idle_step c (a c).2 (a c).1.
Proof.
  intros Hk a. unfold a, new_token, read. rewrite !seqa_fst, !seqa_snd. simpl.
  destruct (Hk (fresh c) (with_inFlight (λ l, l ++ [fresh c]) (bump c))) as (_&H2&H3).
  split; [done|]. intros _. unfold idle_waiters_ok. apply H3. simpl. by destruct (inFlight c).
Qed.

Lemma step_idle ev c : idle_step c (step ev c).2 (step ev c).1.
Proof.
  destruct ev as [p b t r|p|code|n ok|n raw sync ok|n code r|n|t r|nonce ok|nonce|p nonce e|p nonce|
    t res ok|t id call ok|p|p|p]; simpl.
  - apply idle_rel_step. unfold startTunnelClient, doConnect, scheduleReconnect, reject_first, new_token.
    respects_auto; idle_prim.
  - apply idle_rel_step. unfold startTimeout. respects_auto; idle_prim.
  - apply idle_rel_step. unfold stopTunnelClient, close_socket, reject_first. respects_auto; idle_prim.
  - apply idle_rel_step. unfold onopen. respects_auto; idle_prim.
  - unfold onmessage, read. case_bool_decide; [|by apply (idle_rel_step skip), respects_skip, _].
    destruct (parseTunnelMessage raw) as [msg|]; [|by apply (idle_rel_step skip), respects_skip, _].
    case_bool_decide.
    + apply idle_rel_step. unfold handleHelloAck, clearAckTimer, startHeartbeat, resolve_first.
      respects_auto; idle_prim.
    + destruct msg as [| |req|res|nonce|nonce|id i d|d|id];
        try (apply idle_rel_step; unfold handleStreamCancel, handlePong; respects_auto; idle_prim).
      unfold handleReqMessage, doHandleSubscription. destruct (rq_subscription req);
        [|by apply new_work_idle; intros; idle_prim].
      destruct handleSubscription as [h|];
        [destruct (h req)|]; try (apply idle_rel_step; unfold send_frame; respects_auto; idle_prim).
      apply new_work_idle. intros t. respects_auto; idle_prim.
  - apply idle_rel_step. unfold onclose, clearAckTimer, reject_first, scheduleReconnect. respects_auto; idle_prim.
  - apply idle_rel_step. unfold ackTimeout, clearAckTimer, close_socket. respects_auto; idle_prim.
  - apply idle_rel_step. unfold reconnectFires, doConnect, scheduleReconnect, reject_first, new_token.
    respects_auto; idle_prim.
  - apply idle_rel_step. unfold heartbeatTick, send_frame. respects_auto; idle_prim.
  - apply idle_rel_step. unfold heartbeatMiss, close_socket. respects_auto; idle_prim.
  - apply idle_rel_step. unfold pingTunnel. respects_auto; idle_prim.
  - apply idle_rel_step. unfold pingTimeout. respects_auto; idle_prim.
  - apply idle_rel_step. unfold requestDone, send_frame. respects_auto; idle_prim.
  - apply idle_rel_step. apply source_call_idle.
  - apply idle_rel_step. unfold waitUntilTunnelReady. respects_auto; idle_prim.
  - apply idle_rel_step. unfold waitTimeout. respects_auto; idle_prim.
  - unfold whenTunnelIdle, read. destruct (inFlight c) eqn:E; split; simpl; try done.
    + by intros w ?%elem_of_nil.
    + intros _ H. simpl in H. congruence.
Qed.

(** [whenIdle] resolves a waiter only at a moment when no
    request awaits its response and no subscription its terminal frame, and
    whenever there is none, no waiter is left waiting. *)
Theorem when_idle_sound evs ev :
  let c := (run_client evs new_client).1 in
  (inFlight c = [] → idleWaiters c = []) ∧
  (∀ w, OIdle w ∈ (step ev c).2 → inFlight (step ev c).1 = []).
Proof.
  intros c. split; [|exact (proj1 (step_idle ev c))].
  assert (respects (keeps idle_waiters_ok) (run_client evs)) as H.
  { apply (respects_run (keeps idle_waiters_ok) step (λ _, True)); [|by apply Forall_true].
    intros e _ s. exact (proj2 (step_idle e s)). }
  by apply H.
Qed.
End client.

(** ** A concrete session *)

Definition demo_cfg : ReconnectConfig := {| minDelayMs := 1000; maxDelayMs := 60000; jitterFraction := 2 # 10 |}%Q.
Notation demo_client evs :=
  (client_run demo_cfg true (Some (λ _, Ok tt)) "secret" "n" evs new_client) (only parsing).
Definition frame_of (m : TunnelMessage) : RawFrame := {| rf_bytes := 10; rf_json := Some m |}.
Definition demo_sub : TunnelReq :=
  {| rq_id := "s"; rq_method := "logs"; rq_subscription := true; rq_params := "" |}.

Definition demo_pre : list CEvent := [CWaitReady 7].
Definition demo_post : list CEvent :=
  [COpen 0 true; CMessage 0 (frame_of (MHelloAck "now")) [] true; CClosed 0 1006 (1 # 2);
   CReconnect None 0; COpen 1 true; CAckTimeout 1].

Lemma client_never_stalls_witness :
  going (demo_client (demo_pre ++ CStart 3 true None 0 :: demo_post)).1.
Proof.
  apply (client_never_stalls demo_cfg true (Some (λ _, Ok tt)) "secret" "n" demo_pre 3 true None 0 demo_post);
    repeat constructor.
Defined.

Lemma stop_is_final_witness :
  state (client_run demo_cfg true None "secret" "n" [CStart 9 true None 0; CReconnect None 0]
    (client_run demo_cfg true None "secret" "n"
      (demo_pre ++ [CStart 3 true None 0] ++ demo_post ++ [CStop 1000]) new_client).1).1 = Stopped.
Proof.
  destruct (stop_is_final demo_cfg true None "secret" "n" demo_pre [CStart 3 true None 0] demo_post 1000
    [CStart 9 true None 0; CReconnect None 0]) as [H _]; [repeat constructor..| |exact H].
  right. by exists 3%nat, true, None, 0%Q.
Defined.

Lemma backoff_within_band_witness :
  (48000 <= computeBackoff demo_cfg 12 0 <= 72000)%Q.
Proof.
  destruct (backoff_within_band demo_cfg 12 20 0) as (_&_&[H1 H2]&_);
    [split; vm_compute; discriminate..|lia|].
  split; [apply Qle_trans with (2 := H1)|apply Qle_trans with (1 := H2)]; vm_compute; discriminate.
Defined.

(** ** Two sharp edges *)

(** A source that completes before [subscribe] returns leaves its entry in
    the table of active subscriptions, since the handle is stored afterwards. *)
Lemma sync_completion_leaks :
  let c := (demo_client [CStart 3 true None 0;
    CMessage 0 (frame_of (MHelloAck "now")) [] true; CMessage 0 (frame_of (MReq demo_sub)) [OnComplete] true]).1 in
  inFlight c = [] ∧ jm_keys (activeSubscriptions c) = ["s"].
Proof. split; vm_compute; reflexivity. Qed.

(** [start] twice: the first socket keeps its handlers, and its hello-ack
    makes a stopped client ready. *)
Lemma double_start_revives :
  let c := (demo_client [CStart 3 true None 0; CStart 4 true None 0; CStop 1000;
    CMessage 0 (frame_of (MHelloAck "now")) [] true]).1 in
  stopped c = true ∧ state c = Ready.
Proof. split; vm_compute; reflexivity. Qed.
