(* ===== verification/CompositeApply.v ===== *)
(** * The composite applier (packages/remote/src/composite/apply.ts)

    The loop over the component order, the per-kind apply and teardown paths,
    rollback, final status and destroy.  What the applier calls (service
    handlers and backends, the workload applier, gateway dispatch, the pipeline
    handler, the kubeconfig and composite stores) is the type [Call], answered
    by an arbitrary [oracle] over a world of any type; every call and every
    emitted event is recorded in order in the trace [obs]. *)

From S2P Require Import Prelude JsMap CompositeDag.

#[local] Open Scope string_scope.
#[local] Open Scope list_scope.
#[local] Open Scope Z_scope.

(** ** Data (composite/schema.ts, composite/types.ts) *)

Inductive ComponentState := CReady | CFailed | CPending.
Inductive Phase := PApplying | PReady | PDegraded | PFailed.

#[export] Instance ComponentState_eq_dec : EqDecision ComponentState.
Proof. solve_decision. Defined.
#[export] Instance Phase_eq_dec : EqDecision Phase.
Proof. solve_decision. Defined.

(** CompositeComponentResult, and the same shape as CompositeStatusComponent. *)
Record ComponentResult := Res { r_ref : ComponentRef; r_state : ComponentState; r_message : option string }.

Record CompositeStatus := { phase : Phase; components : list ComponentResult }.

Record Composite := { c_name : string; c_spec : CompositeSpec }.

Inductive Event :=
| EvPhase (p : Phase)
| EvStart (ref : ComponentRef)
| EvReady (ref : ComponentRef) (message : option string)
| EvFailed (ref : ComponentRef) (message : string)
| EvRollbackStart (refs : list ComponentRef)
| EvRollbackComplete
| EvDone (ok : bool).

(** ** The outside *)

Inductive WorkloadAction := AUnchanged | APending | AOther.

Record WorkloadResult :=
  { wr_action : WorkloadAction; wr_error : option string; wr_endpoint : option string; wr_events : nat }.
Record GatewayResult := { gr_pending : bool; gr_error : option string }.
Record PipelineResult := { pr_pending : bool; pr_message : option string; pr_changed : bool }.
Record Upstream := { up_name : string; up_endpoint : string; up_nodeName : string }.

Inductive CatalogKind := Sirius | Embersynth.

Inductive Call :=
| CToDeployment (service : string)              (** validate, hash, toDeployment *)
| CEnsureService (deployment : string)
| CRemoveService (ref : string) (purgeVolumes : bool)
| CDestroyBoundary (composite : string) (purgeVolumes : bool)
| CResolvedEndpoint (service : string) (instance : option string)
| CResolveExternal (ref serviceType : string)
| CApplyOne (node : string)
| CServerStop (node : string)
| CLoadConfig                                   (** the current context's cluster *)
| CUpsertNode (cluster name endpoint : string)  (** upsertNode, saveConfig *)
| CRemoveNode (cluster name : string)           (** removeNode, saveConfig *)
| CDispatchGateway (name : string) (upstreams : list Upstream)
| CApplyPipeline (name : string)
| CRemovePipeline (name : string)
| CSaveStatus (status : CompositeStatus)
| CRemoveCatalogEntries (kind : CatalogKind)
| CReloadGateways (kind : CatalogKind).

Definition Resp (c : Call) : Type :=
  match c with
  | CToDeployment _ => option string
  | CEnsureService _ => string
  | CResolvedEndpoint _ _ => string
  | CResolveExternal _ _ => option string
  | CApplyOne _ => WorkloadResult
  | CLoadConfig => option string
  | CDispatchGateway _ _ => option GatewayResult
  | CApplyPipeline _ => PipelineResult
  | CRemoveCatalogEntries _ => bool
  | _ => unit
  end.

Inductive Obs := OEvent (e : Event) | OCall (c : Call).

(** AppliedRecord *)
Record AppliedRecord := {
  a_ref : ComponentRef;
  a_serviceInstance : option string;
  a_serviceRef : option string;
  a_workloadEndpoint : option string;
  a_workloadNodeName : option string;
  a_ragNodeCreated : bool;
  a_pipelineStatus : option ComponentResult;
  a_started : bool
}.

Definition plain_record (ref : ComponentRef) (started : bool) : AppliedRecord :=
  {| a_ref := ref; a_serviceInstance := None; a_serviceRef := None; a_workloadEndpoint := None;
     a_workloadNodeName := None; a_ragNodeCreated := false; a_pipelineStatus := None;
     a_started := started |}.

(** ApplyLoopOutcome *)
Record Outcome := {
  failureMessage : option string;
  haltedOnPending : option (ComponentRef * string);
  lastProcessedIdx : Z
}.

Record ApplyResult := {
  ok : bool;
  status : CompositeStatus;
  rolledBack : bool;
  componentResults : list ComponentResult
}.

Record DestroyResult := {
  d_ok : bool;
  d_removed : list ComponentRef;
  d_errors : list (ComponentRef * string)
}.

Section apply.
Context {W : Type} (oracle : ∀ c : Call, W → W * result (Resp c)).
(** [spec.serviceType] of a service, [resolveExternalServiceEndpoint] and
    [destroyCompositeBoundary] being there, [resolveInternalProxyEndpoint(process.env)],
    and [swapUrlHost], which rests on the platform's URL class. *)
Context (serviceType : ServiceEntry → option string) (has_external has_boundary : bool)
  (internalProxyEndpoint : string) (swapUrlHost : string → string → string).
Context (manifest : Composite).

Record St := { world : W; obs : list Obs }.

Notation M := (eff St).
Notation spec := (c_spec manifest).

Definition emit (e : Event) : M unit := modify (λ s, {| world := world s; obs := obs s ++ [OEvent e] |}).

Definition perform (c : Call) : M (Resp c) := λ s,
  let '(w, r) := oracle c (world s) in ({| world := w; obs := obs s ++ [OCall c] |}, r).

(** ** Per-component apply *)

Definition applyServiceComponent (ref : ComponentRef) : M AppliedRecord :=
  match find (λ s, bool_decide (s_name s = ref_name ref)) (services spec) with
  | None => throw ("service '" +:+ ref_name ref +:+ "' not found in composite")
  | Some _ =>
      deployment ← perform (CToDeployment (ref_name ref));
      match deployment with
      | None => mret (plain_record ref false)
      | Some d =>
          instance ← perform (CEnsureService d);
          mret {| a_ref := ref; a_serviceInstance := Some instance; a_serviceRef := Some instance;
                  a_workloadEndpoint := None; a_workloadNodeName := None; a_ragNodeCreated := false;
                  a_pipelineStatus := None; a_started := true |}
      end
  end.

Fixpoint emit_times (n : nat) (e : Event) : M unit :=
  match n with O => mret tt | S n' => emit e;; emit_times n' e end.

Definition truthy_only (s : option string) : option string := if truthy s then s else None.

Definition applyWorkloadComponent (ref : ComponentRef) : M AppliedRecord :=
  match find (λ w, bool_decide (w_node w = ref_name ref)) (workloads spec) with
  | None => throw ("workload '" +:+ ref_name ref +:+ "' not found in composite")
  | Some w =>
      result ← perform (CApplyOne (w_node w));
      emit_times (wr_events result) (EvStart ref);;
      match wr_action result with
      | APending => throw ("workload '" +:+ ref_name ref +:+ "' apply returned Pending: " +:+
                            default "no details" (wr_error result))
      | action =>
          if truthy (wr_error result)
          then throw ("workload '" +:+ ref_name ref +:+ "' failed: " +:+ default "" (wr_error result))
          else
            let endpoint := if w_useProxy w then Some internalProxyEndpoint else wr_endpoint result in
            mret {| a_ref := ref; a_serviceInstance := None; a_serviceRef := None;
                    a_workloadEndpoint := truthy_only endpoint; a_workloadNodeName := Some (w_node w);
                    a_ragNodeCreated := false; a_pipelineStatus := None;
                    a_started := match action with AUnchanged => false | _ => true end |}
      end
  end.

Definition find_record (kind : ComponentKind) (name : string) (applied : list AppliedRecord) :=
  find (λ r, bool_decide (ref_kind (a_ref r) = kind) && bool_decide (ref_name (a_ref r) = name)) applied.

Definition resolveRagEndpointUrl (entry : RagNodeEntry) (backing : string)
    (applied : list AppliedRecord) : M string :=
  match find (λ s, bool_decide (s_name s = backing)) (services spec) with
  | None => throw ("rag node '" +:+ rn_name entry +:+ "' references unknown backingService '" +:+
                   backing +:+ "'")
  | Some serviceSpec =>
      let serviceRecord := find_record KService backing applied in
      resolved ← perform (CResolvedEndpoint backing (serviceRecord ≫= a_serviceInstance));
      match truthy_only (serviceType serviceSpec), serviceRecord ≫= a_serviceRef with
      | Some ty, Some sref =>
          if bool_decide (ty = "ClusterIP") || negb has_external then mret resolved else
          externalUrl ← perform (CResolveExternal sref ty);
          mret (if truthy externalUrl then swapUrlHost resolved (default "" externalUrl) else resolved)
      | _, _ => mret resolved
      end
  end.

Definition applyRagComponent (ref : ComponentRef) (applied : list AppliedRecord) : M AppliedRecord :=
  match find (λ r, bool_decide (rn_name r = ref_name ref)) (ragNodes spec) with
  | None => throw ("rag node '" +:+ ref_name ref +:+ "' not found in composite")
  | Some entry =>
      endpoint ← (match truthy_only (rn_backingService entry) with
        | Some backing => resolveRagEndpointUrl entry backing applied
        | None => mret (rn_endpoint entry) end);
      ctx ← perform CLoadConfig;
      match ctx with
      | None => throw ("no current context in kubeconfig — composite cannot register rag node '" +:+
                       rn_name entry +:+ "'")
      | Some cluster =>
          perform (CUpsertNode cluster (rn_name entry) endpoint);;
          mret {| a_ref := ref; a_serviceInstance := None; a_serviceRef := None;
                  a_workloadEndpoint := None; a_workloadNodeName := None; a_ragNodeCreated := true;
                  a_pipelineStatus := None; a_started := true |}
      end
  end.

Definition upstream_of (applied : list AppliedRecord) (name : string) : Upstream :=
  let rec := find_record KWorkload name applied in
  {| up_name := name; up_endpoint := default "" (rec ≫= a_workloadEndpoint);
     up_nodeName := default name (rec ≫= a_workloadNodeName) |}.

Definition applyGatewayComponent (ref : ComponentRef) (applied : list AppliedRecord) : M AppliedRecord :=
  match find (λ g, bool_decide (g_name g = ref_name ref)) (gateways spec) with
  | None => throw ("gateway '" +:+ ref_name ref +:+ "' not found in composite")
  | Some entry =>
      result ← perform (CDispatchGateway (ref_name ref)
        (map (upstream_of applied) (g_upstreamWorkloads entry)));
      match result with
      | None => mret (plain_record ref false)
      | Some r =>
          if truthy (gr_error r)
          then throw ("gateway '" +:+ ref_name ref +:+ "' reload failed: " +:+ default "" (gr_error r))
          else if gr_pending r
          then throw ("gateway '" +:+ ref_name ref +:+
                      "' returned Pending — check the gateway node's cloud binding")
          else mret (plain_record ref true)
      end
  end.

Definition applyPipelineComponentRef (ref : ComponentRef) : M AppliedRecord :=
  match find (λ p, bool_decide (p_name p = ref_name ref)) (pipelinesOf spec) with
  | None => throw ("pipeline '" +:+ ref_name ref +:+ "' not found in composite")
  | Some _ =>
      result ← perform (CApplyPipeline (ref_name ref));
      mret {| a_ref := ref; a_serviceInstance := None; a_serviceRef := None; a_workloadEndpoint := None;
              a_workloadNodeName := None; a_ragNodeCreated := false;
              a_pipelineStatus := Some (Res ref (if pr_pending result then CPending else CReady)
                                          (pr_message result));
              a_started := pr_changed result |}
  end.

Definition applyComponent (ref : ComponentRef) (applied : list AppliedRecord) : M AppliedRecord :=
  match ref_kind ref with
  | KService => applyServiceComponent ref
  | KWorkload => applyWorkloadComponent ref
  | KRag => applyRagComponent ref applied
  | KGateway => applyGatewayComponent ref applied
  | KPipeline => applyPipelineComponentRef ref
  end.

(** ** The loop *)

Definition is_pending (ps : option ComponentResult) : bool :=
  match ps with Some s => bool_decide (r_state s = CPending) | None => false end.

(** [i] is the index of the head of [refs] in the order. *)
Fixpoint runComponentLoop (i : Z) (refs : list ComponentRef) (applied : list AppliedRecord)
    (results : list ComponentResult) : M (list AppliedRecord * list ComponentResult * Outcome) :=
  match refs with
  | [] => mret (applied, results,
      {| failureMessage := None; haltedOnPending := None; lastProcessedIdx := i - 1 |})
  | ref :: refs' =>
      emit (EvStart ref);;
      attempt ← try_catch (record ← applyComponent ref applied; mret (inl record)) (λ e, mret (inr e));
      match attempt with
      | inr message =>
          emit (EvFailed ref message);;
          mret (applied, results ++ [Res ref CFailed (Some message)],
            {| failureMessage := Some message; haltedOnPending := None; lastProcessedIdx := i - 1 |})
      | inl record =>
          let message := a_pipelineStatus record ≫= r_message in
          if is_pending (a_pipelineStatus record)
          then
            let pendingMessage := default "pipeline reported Pending" message in
            emit (EvReady ref (Some pendingMessage));;
            mret (applied ++ [record], results ++ [Res ref CPending (Some pendingMessage)],
              {| failureMessage := None; haltedOnPending := Some (ref, pendingMessage);
                 lastProcessedIdx := i |})
          else
            emit (EvReady ref message);;
            runComponentLoop (i + 1) refs' (applied ++ [record])
              (results ++ [Res ref CReady message])
      end
  end.

Definition markDependentsPending (order : list ComponentRef) (lastIdx : Z) (haltRef : ComponentRef)
    (results : list ComponentResult) : list ComponentResult :=
  results ++ map (λ ref, Res ref CPending
    (Some ("dependent-failed: " +:+ kind_str (ref_kind haltRef) +:+ "/" +:+ ref_name haltRef +:+ " pending")))
    (drop (Z.to_nat (lastIdx + 1)) order).

Definition compositePhase (outcome : Outcome) : Phase :=
  match failureMessage outcome with
  | Some _ => if bool_decide (onFailure spec = Rollback) then PFailed else PDegraded
  | None => match haltedOnPending outcome with Some _ => PDegraded | None => PReady end
  end.

Definition pipelineStatusByName (applied : list AppliedRecord) : jsmap string ComponentResult :=
  foldl (λ m rec, match a_pipelineStatus rec with
    | Some ps => jm_set m (ref_name (a_ref rec)) ps | None => m end) [] applied.

Definition final_component (m : jsmap string ComponentResult) (r : ComponentResult) : ComponentResult :=
  if bool_decide (ref_kind (r_ref r) = KPipeline)
  then default r (jm_get m (ref_name (r_ref r))) else r.

Definition buildFinalComponents (results : list ComponentResult) (applied : list AppliedRecord) :=
  map (final_component (pipelineStatusByName applied)) results.

Definition persistCompositeStatus (st : CompositeStatus) : M unit :=
  try_catch (perform (CSaveStatus st)) (λ e,
    emit (EvFailed (Ref KService "__persist__") ("failed to persist composite status: " +:+ e))).

(** ** Rollback *)

Definition teardownComponent (rec : AppliedRecord) : M unit :=
  match ref_kind (a_ref rec) with
  | KService =>
      match a_serviceRef rec with
      | Some r => perform (CRemoveService r false)
      | None => mret tt
      end
  | KWorkload =>
      match find (λ w, bool_decide (w_node w = ref_name (a_ref rec))) (workloads spec) with
      | Some w => try_catch (perform (CServerStop (w_node w))) (λ _, mret tt)
      | None => mret tt
      end
  | KRag =>
      if negb (a_ragNodeCreated rec) then mret tt else
      ctx ← perform CLoadConfig;
      match ctx with
      | Some cluster => perform (CRemoveNode cluster (ref_name (a_ref rec)))
      | None => mret tt
      end
  | KGateway => mret tt
  | KPipeline =>
      match find (λ p, bool_decide (p_name p = ref_name (a_ref rec))) (pipelinesOf spec) with
      | Some p => perform (CRemovePipeline (p_name p))
      | None => mret tt
      end
  end.

Definition rollback_one (rec : AppliedRecord) : M unit :=
  if negb (a_started rec) then mret tt else
  try_catch (teardownComponent rec) (λ e,
    emit (EvFailed (a_ref rec) ("rollback failed for " +:+ kind_str (ref_kind (a_ref rec)) +:+ "/" +:+
      ref_name (a_ref rec) +:+ ": " +:+ e))).

Fixpoint each {A} (body : A → M unit) (l : list A) : M unit :=
  match l with [] => mret tt | x :: l' => body x;; each body l' end.

Definition rollback (applied : list AppliedRecord) : M unit := each rollback_one (reverse applied).

Definition started_refs (applied : list AppliedRecord) : list ComponentRef :=
  map a_ref (filter (λ r, a_started r) applied).

Definition lift {A} (r : result A) : M A := λ s, (s, r).

Definition applyComposite : M ApplyResult :=
  emit (EvPhase PApplying);;
  order ← lift (topologicalOrder spec);
  '(applied, results0, outcome) ← runComponentLoop 0 order [] [];
  let results := match haltedOnPending outcome with
    | Some (ref, _) => markDependentsPending order (lastProcessedIdx outcome) ref results0
    | None => results0 end in
  let failed := match failureMessage outcome with Some _ => true | None => false end in
  let rolledBack := failed && bool_decide (onFailure spec = Rollback) in
  (if rolledBack then
     emit (EvRollbackStart (reverseOrder (started_refs applied)));;
     rollback applied;;
     emit EvRollbackComplete
   else mret tt);;
  let finalStatus := {| phase := compositePhase outcome;
                        components := buildFinalComponents results applied |} in
  persistCompositeStatus finalStatus;;
  let ok := negb failed && match haltedOnPending outcome with Some _ => false | None => true end in
  emit (EvPhase (phase finalStatus));;
  emit (EvDone ok);;
  mret {| ok := ok; status := finalStatus; rolledBack := rolledBack; componentResults := results |}.

(** ** Destroy *)

Definition destroyServiceComponent (ref : ComponentRef) (purge : bool) : M unit :=
  match find (λ s, bool_decide (s_name s = ref_name ref)) (services spec) with
  | None => mret tt
  | Some s =>
      if s_external s then mret tt else
      deployment ← perform (CToDeployment (ref_name ref));
      match deployment with
      | None => mret tt
      | Some d => perform (CRemoveService d purge)
      end
  end.

Definition destroyWorkloadComponent (ref : ComponentRef) : M unit :=
  match find (λ w, bool_decide (w_node w = ref_name ref)) (workloads spec) with
  | Some w => perform (CServerStop (w_node w))
  | None => mret tt
  end.

Definition destroyRagComponent (ref : ComponentRef) : M unit :=
  ctx ← perform CLoadConfig;
  match ctx with
  | Some cluster => perform (CRemoveNode cluster (ref_name ref))
  | None => mret tt
  end.

Definition destroyPipelineComponentRef (ref : ComponentRef) : M unit :=
  match find (λ p, bool_decide (p_name p = ref_name ref)) (pipelinesOf spec) with
  | Some p => perform (CRemovePipeline (p_name p))
  | None => mret tt
  end.

Definition destroyComponent (ref : ComponentRef) (purge : bool) : M unit :=
  match ref_kind ref with
  | KService => destroyServiceComponent ref purge
  | KWorkload => destroyWorkloadComponent ref
  | KRag => destroyRagComponent ref
  | KGateway => mret tt
  | KPipeline => destroyPipelineComponentRef ref
  end.

(** The accumulators [removed] and [errors]. *)
Definition Acc : Type := list ComponentRef * list (ComponentRef * string).

Definition destroyServicesViaBoundary (order : list ComponentRef) (purge : bool) (acc : Acc) : M Acc :=
  let '(removed, errors) := acc in
  try_catch
    (perform (CDestroyBoundary (c_name manifest) purge);;
     mret (removed ++ filter (λ ref, ref_kind ref = KService) order, errors))
    (λ e, mret (removed, errors ++ [(Ref KService "__boundary__", e)])).

Fixpoint destroyComponentsInOrder (order : list ComponentRef) (purge skipServices : bool) (acc : Acc) : M Acc :=
  match order with
  | [] => mret acc
  | ref :: order' =>
      if skipServices && bool_decide (ref_kind ref = KService)
      then destroyComponentsInOrder order' purge skipServices acc
      else
        acc' ← try_catch (destroyComponent ref purge;; mret (acc.1 ++ [ref], acc.2))
                 (λ e, mret (acc.1, acc.2 ++ [(ref, e)]));
        destroyComponentsInOrder order' purge skipServices acc'
  end.

Definition cleanupCatalog (kind : CatalogKind) : M unit :=
  changed ← perform (CRemoveCatalogEntries kind);
  if (changed : bool) then perform (CReloadGateways kind) else mret tt.

Definition cleanupGatewayCatalogs : M unit := cleanupCatalog Sirius;; cleanupCatalog Embersynth.

Definition destroyComposite (purge : bool) : M DestroyResult :=
  order0 ← lift (topologicalOrder spec);
  let order := reverseOrder order0 in
  acc ← (if has_boundary then destroyServicesViaBoundary order purge ([], []) else mret ([], []));
  acc' ← destroyComponentsInOrder order purge has_boundary acc;
  cleanupGatewayCatalogs;;
  mret {| d_ok := bool_decide (length acc'.2 = 0%nat); d_removed := acc'.1; d_errors := acc'.2 |}.
End apply.
