(* ===== verification/CompositeApplyProps.v ===== *)
(** * Theorems about the composite applier

    Dependencies come up first, a result is returned whatever the components
    do, rollback undoes exactly what was started and in reverse, the final
    status accounts for the run, destroy attempts everything.  All of them
    hold for an arbitrary outside ([oracle]). *)

From S2P Require Import Prelude Trace JsMap CompositeDag CompositeApply.

#[local] Open Scope string_scope.
#[local] Open Scope list_scope.
#[local] Open Scope Z_scope.

Section apply.
Context {W : Type} (oracle : ∀ c : Call, W → W * result (Resp c)).
Context (serviceType : ServiceEntry → option string) (has_external has_boundary : bool)
  (internalProxyEndpoint : string) (swapUrlHost : string → string → string).
Context (manifest : Composite).

#[local] Notation M := (eff (@St W)) (only parsing).
#[local] Notation spec := (c_spec manifest) (only parsing).
#[local] Notation apply_component :=
  (applyComponent oracle serviceType has_external internalProxyEndpoint swapUrlHost manifest) (only parsing).
#[local] Notation loop :=
  (runComponentLoop oracle serviceType has_external internalProxyEndpoint swapUrlHost manifest) (only parsing).
#[local] Notation apply_composite :=
  (applyComposite oracle serviceType has_external internalProxyEndpoint swapUrlHost manifest) (only parsing).
#[local] Notation destroy_composite := (destroyComposite oracle has_boundary manifest) (only parsing).

(** ** Traces *)

Local Abbreviation appends := (appends (@obs W)).

Lemma appends_lift {A} P (r : result A) : appends P (lift r : M A).
Proof. by apply appends_still. Qed.

Lemma appends_emit (P : Obs → Prop) e : P (OEvent e) → appends P (emit e : M unit).
Proof. intros H. apply appends_one. by exists (OEvent e). Qed.

Lemma appends_perform (P : Obs → Prop) c : P (OCall c) → appends P (perform oracle c).
Proof. intros H. apply appends_one. intros s. unfold perform. destruct (oracle c (world s)). by exists (OCall c). Qed.

Lemma appends_each {A} P (body : A → M unit) l :
  (∀ x, x ∈ l → appends P (body x)) → appends P (each body l).
Proof.
  induction l as [|x l IH]; intros H; [apply appends_ret|]. simpl.
  apply appends_bind; [apply H; left|intros _; apply IH; intros; apply H; by right].
Qed.

Lemma appends_emit_times (P : Obs → Prop) n e : P (OEvent e) → appends P (emit_times n e : M unit).
Proof.
  intros H. induction n as [|n IH]; [apply appends_ret|]. simpl.
  apply appends_bind; [by apply appends_emit|done].
Qed.

Ltac appends_step :=
  match goal with
  | |- appends _ (mret _) => apply appends_ret
  | |- appends _ (throw _) => apply appends_throw
  | |- appends _ (lift _) => apply appends_lift
  | |- appends _ (_ ≫= _) => apply appends_bind; [|intros ?]
  | |- appends _ (try_catch _ _) => apply appends_try; [|intros ?]
  | |- appends _ (emit _) => apply appends_emit
  | |- appends _ (emit_times _ _) => apply appends_emit_times
  | |- appends ?P (perform _ ?c) => refine (appends_perform P c _)
  | |- appends _ (if ?b then _ else _) => destruct b
  | |- appends _ (match ?x with _ => _ end) => destruct x
  end.
Ltac appends_auto := repeat appends_step.

(** The component an observation brings up: its start event, or the call
    that deploys, applies, registers or reloads it. *)
Definition subject (o : Obs) : option ComponentRef :=
  match o with
  | OEvent (EvStart ref) => Some ref
  | OCall (CToDeployment name) => Some (Ref KService name)
  | OCall (CApplyOne node) => Some (Ref KWorkload node)
  | OCall (CUpsertNode _ name _) => Some (Ref KRag name)
  | OCall (CDispatchGateway name _) => Some (Ref KGateway name)
  | OCall (CApplyPipeline name) => Some (Ref KPipeline name)
  | _ => None
  end.

(** What applying [ref] may be seen doing. *)
Definition about (ref : ComponentRef) (o : Obs) : Prop :=
  subject o = None ∨ subject o = Some ref.

Lemma applyComponent_appends ref applied : appends (about ref) (apply_component ref applied).
Proof.
  destruct ref as [kind name]. unfold applyComponent. simpl.
  destruct kind; unfold applyServiceComponent, applyWorkloadComponent, applyRagComponent,
    resolveRagEndpointUrl, applyGatewayComponent, applyPipelineComponentRef; simpl.
  - appends_auto; by (left + right).
  - destruct (find _ _) as [w|] eqn:Ef; [|apply appends_throw].
    apply find_some in Ef as [_ Ef%bool_decide_eq_true]. subst. appends_auto; by (left + right).
  - destruct (find _ (ragNodes _)) as [r|] eqn:Ef; [|apply appends_throw].
    apply find_some in Ef as [_ Ef%bool_decide_eq_true]. subst. appends_auto; by (left + right).
  - appends_auto; by (left + right).
  - appends_auto; by (left + right).
Qed.

(** The record that comes back is the component's. *)
Definition returns {A} (P : A → Prop) (m : M A) : Prop :=
  ∀ s, match (m s).2 with Ok a => P a | Err _ => True end.

Lemma returns_bind {A B} P (m : M A) (f : A → M B) : (∀ a, returns P (f a)) → returns P (m ≫= f).
Proof. intros Hf s. unfold mbind, eff_bind. destruct (m s) as [s1 [a|e]]; [apply Hf|done]. Qed.

Lemma applyComponent_ref ref applied : returns (λ rec, a_ref rec = ref) (apply_component ref applied).
Proof.
  unfold applyComponent, applyServiceComponent, applyWorkloadComponent, applyRagComponent,
    applyGatewayComponent, applyPipelineComponentRef.
  destruct (ref_kind ref);
  repeat match goal with
  | |- returns _ (_ ≫= _) => apply returns_bind; intros ?
  | |- returns _ (throw _) => by intros s
  | |- returns _ (mret _) => by intros s
  | |- returns _ (if ?b then _ else _) => destruct b
  | |- returns _ (match ?x with _ => _ end) => destruct x
  end.
  all: by intros ?.
Qed.

(** ** The loop *)

Definition all_ready (rs : list ComponentResult) (refs : list ComponentRef) : Prop :=
  map r_ref rs = refs ∧ Forall (λ r, r_state r = CReady) rs.

(** How a run of the loop over [refs] can end. *)
Inductive loop_end (refs : list ComponentRef) :
    list AppliedRecord → list ComponentResult → Outcome → Prop :=
| end_done recs rs i :
    all_ready rs refs → map a_ref recs = refs →
    loop_end refs recs rs
      {| failureMessage := None; haltedOnPending := None; lastProcessedIdx := i |}
| end_failed pre ref post recs rs m i :
    refs = pre ++ ref :: post → all_ready rs pre → map a_ref recs = pre →
    loop_end refs recs (rs ++ [Res ref CFailed (Some m)])
      {| failureMessage := Some m; haltedOnPending := None; lastProcessedIdx := i |}
| end_pending pre ref post recs rs m :
    refs = pre ++ ref :: post → all_ready rs pre → map a_ref recs = pre ++ [ref] →
    loop_end refs recs (rs ++ [Res ref CPending (Some m)])
      {| failureMessage := None; haltedOnPending := Some (ref, m);
         lastProcessedIdx := Z.of_nat (length pre) |}.

(** The loop always returns, with one of these ends. *)
Lemma loop_ends refs i applied results s :
  ∃ s' recs rs out, loop i refs applied results s = (s', Ok (applied ++ recs, results ++ rs, out)) ∧
    (∀ done_, i = Z.of_nat (length done_) → ∀ rs0, all_ready rs0 done_ → map a_ref applied = done_ →
      results = rs0 → loop_end (done_ ++ refs) (applied ++ recs) (results ++ rs) out).
Proof.
  revert i applied results s. induction refs as [|ref refs IH]; intros i applied results s.
  { eexists s, [], [], _. rewrite !app_nil_r. split; [done|]. intros d Hi rs0 Hr Ha ->.
    rewrite app_nil_r. by constructor. }
  simpl. unfold mbind, eff_bind. simpl.
  set (s1 := {| world := world s; obs := obs s ++ [OEvent (EvStart ref)] |}).
  unfold try_catch. pose proof (applyComponent_ref ref applied s1) as Href.
  destruct (apply_component ref applied s1) as [s2 [rec|e]]; simpl in *; [|].
  - destruct (is_pending (a_pipelineStatus rec)).
    + eexists _, [rec], [_], _. split; [reflexivity|]. intros d -> rs0 Hr Ha ->.
      apply (end_pending _ d ref refs); [done|done|]. by rewrite map_app, Ha; simpl; rewrite Href.
    + set (s3 := {| world := world s2; obs := _ |}).
      set (res := Res ref CReady _).
      destruct (IH (i + 1) (applied ++ [rec]) (results ++ [res]) s3) as (s'&recs&rs&out&E&Hend).
      rewrite E. exists s', (rec :: recs), (res :: rs), out.
      rewrite <-!app_assoc in *. split; [done|]. intros d -> rs0 [Hr1 Hr2] Ha ->.
      specialize (Hend (d ++ [ref])). rewrite <-app_assoc in Hend. eapply Hend; [| | |done].
      * rewrite length_app. simpl. lia.
      * split; [by rewrite map_app, Hr1|]. apply Forall_app. by repeat constructor.
      * by rewrite map_app, Ha; simpl; rewrite Href.
  - eexists _, [], [_], _. rewrite app_nil_r. split; [reflexivity|]. intros d -> rs0 Hr Ha ->.
    by apply (end_failed _ d ref refs).
Qed.

Lemma loop_start order s :
  ∃ s' recs rs out, loop 0 order [] [] s = (s', Ok (recs, rs, out)) ∧ loop_end order recs rs out.
Proof.
  destruct (loop_ends order 0 [] [] s) as (s'&recs&rs&out&E&H). exists s', recs, rs, out.
  split; [done|]. by apply (H [] eq_refl []).
Qed.

(** ** Dependencies first *)

Definition readied (seen : list Obs) (t : ComponentRef) : Prop :=
  ∃ m, OEvent (EvReady t m) ∈ seen.

(** Nothing in [seg] brings a component up before all it depends on was
    reported ready, in [seen] or earlier in [seg]. *)
Fixpoint ordered (seen seg : list Obs) : Prop :=
  match seg with
  | [] => True
  | o :: seg' =>
      (∀ ref t, subject o = Some ref → depends spec ref t → readied seen t) ∧
      ordered (seen ++ [o]) seg'
  end.

Lemma readied_app seen1 seen2 t : readied seen1 t → readied (seen1 ++ seen2) t.
Proof. intros [m H]. exists m. apply elem_of_app. by left. Qed.

Lemma ordered_app seen s1 s2 : ordered seen s1 → ordered (seen ++ s1) s2 → ordered seen (s1 ++ s2).
Proof.
  revert seen. induction s1 as [|o s1 IH]; intros seen; simpl; [by rewrite app_nil_r|].
  intros [H1 H2] H3. split; [done|]. apply IH; [done|]. by rewrite <-app_assoc.
Qed.

Lemma ordered_about ref seen seg :
  (∀ t, depends spec ref t → readied seen t) → Forall (about ref) seg → ordered seen seg.
Proof.
  intros Hd H. revert seen Hd. induction H as [|o seg Ho _ IH]; intros seen Hd; simpl; [done|].
  split.
  - intros ref' t Hs. destruct Ho as [Ho|Ho]; [congruence|].
    assert (ref' = ref) as -> by congruence. apply Hd.
  - apply IH. intros t Ht. by apply readied_app, Hd.
Qed.

Lemma ordered_quiet seen seg : Forall (λ o, subject o = None) seg → ordered seen seg.
Proof.
  intros H. revert seen. induction H as [|o seg Ho _ IH]; intros seen; simpl; [done|].
  split; [congruence|apply IH].
Qed.

Lemma ordered_spec seen seg pre o post ref t :
  ordered seen seg → seg = pre ++ o :: post → subject o = Some ref → depends spec ref t →
  readied (seen ++ pre) t.
Proof.
  revert seen seg. induction pre as [|x pre IH]; intros seen seg H -> Hs Hd; simpl in H.
  - destruct H as [H _]. rewrite app_nil_r. by eapply H.
  - destruct H as [_ H]. specialize (IH _ _ H eq_refl Hs Hd). by rewrite <-app_assoc in IH.
Qed.

Lemma loop_ordered order refs i applied results s done_ :
  (∀ pre f post t, order = pre ++ f :: post → depends spec f t → t ∈ pre) →
  order = done_ ++ refs → (∀ t, t ∈ done_ → readied (obs s) t) →
  ∃ seg, obs (loop i refs applied results s).1 = obs s ++ seg ∧ ordered (obs s) seg.
Proof.
  intros Hdeps. revert i applied results s done_.
  induction refs as [|ref refs IH]; intros i applied results s d Ho Hready.
  { exists []. simpl. by rewrite app_nil_r. }
  assert (∀ t, depends spec ref t → readied (obs s) t) as Href.
  { intros t Ht. apply Hready. by eapply Hdeps. }
  simpl. unfold mbind, eff_bind. simpl.
  set (s1 := {| world := world s; obs := obs s ++ [OEvent (EvStart ref)] |}).
  unfold try_catch. destruct (applyComponent_appends ref applied s1) as (seg&Eseg&Hseg).
  assert (ordered (obs s) (OEvent (EvStart ref) :: seg)) as Hord.
  { eapply ordered_about; [done|]. constructor; [by right|done]. }
  destruct (apply_component ref applied s1) as [s2 [rec|e]]; simpl in *.
  - destruct (is_pending (a_pipelineStatus rec)); simpl.
    + exists (OEvent (EvStart ref) :: seg ++ [OEvent (EvReady ref (Some
        (default "pipeline reported Pending" (a_pipelineStatus rec ≫= r_message))))]).
      rewrite Eseg. split; [by rewrite <-!app_assoc|]. rewrite app_comm_cons.
      apply ordered_app; [done|]. by apply ordered_quiet; repeat constructor.
    + set (s3 := {| world := world s2; obs := _ |}).
      set (res := Res ref CReady _).
      destruct (IH (i + 1) (applied ++ [rec]) (results ++ [res]) s3 (d ++ [ref])) as (seg'&E'&Hord').
      * by rewrite <-app_assoc.
      * intros t [Ht|Ht%list_elem_of_singleton]%elem_of_app.
        -- subst s3. simpl. rewrite Eseg. by apply readied_app, readied_app, readied_app, Hready.
        -- subst t s3. simpl. eexists. apply elem_of_app. right. left.
      * rewrite E'. subst s3. simpl in *. rewrite Eseg in *.
        eexists ((OEvent (EvStart ref) :: seg) ++ _ :: seg').
        split; [rewrite <-!app_assoc; simpl; reflexivity|].
        apply ordered_app; [done|]. split; [done|].
        rewrite <-!app_assoc in Hord'. rewrite <-!app_assoc. done.
  - exists (OEvent (EvStart ref) :: seg ++ [OEvent (EvFailed ref e)]).
    rewrite Eseg. split; [by rewrite <-!app_assoc|]. rewrite app_comm_cons.
    apply ordered_app; [done|]. by apply ordered_quiet; repeat constructor.
Qed.

(** Teardown and persistence bring nothing up. *)
Lemma rollback_quiet applied : appends (λ o, subject o = None) (rollback oracle manifest applied).
Proof.
  unfold rollback. apply appends_each. intros rec _. unfold rollback_one, teardownComponent.
  appends_auto; done.
Qed.

Lemma persist_quiet st : appends (λ o, subject o = None) (persistCompositeStatus oracle st).
Proof. unfold persistCompositeStatus. appends_auto; done. Qed.

(** ** The applier as a whole *)

Definition total {A} (m : M A) : Prop := ∀ s, is_ok (m s).2 = true.

Lemma total_each {A} (body : A → M unit) l : (∀ x, total (body x)) → total (each body l).
Proof.
  intros H. induction l as [|x l IH]; intros s; [done|]. simpl. unfold mbind, eff_bind.
  specialize (H x s). destruct (body x s) as [s1 [[]|e]]; [apply IH|done].
Qed.

Lemma rollback_one_total rec : total (rollback_one oracle manifest rec).
Proof. intros s. unfold rollback_one. destruct (a_started rec); [|done]. by apply try_catch_total. Qed.

Lemma rollback_total applied : total (rollback oracle manifest applied).
Proof. apply total_each, rollback_one_total. Qed.

Lemma persist_total st : total (persistCompositeStatus oracle st).
Proof. intros s. by apply try_catch_total. Qed.

Definition log (s : @St W) (e : Event) : @St W := {| world := world s; obs := obs s ++ [OEvent e] |}.

Definition failed (out : Outcome) : bool := match failureMessage out with Some _ => true | None => false end.
Definition halted (out : Outcome) : bool := match haltedOnPending out with Some _ => true | None => false end.
Definition rolls_back (out : Outcome) : bool := failed out && bool_decide (onFailure spec = Rollback).

Definition all_results (order : list ComponentRef) (rs : list ComponentResult) (out : Outcome) :=
  match haltedOnPending out with
  | Some (ref, _) => markDependentsPending order (lastProcessedIdx out) ref rs
  | None => rs
  end.

Definition after_rollback (recs : list AppliedRecord) (out : Outcome) (s : @St W) : @St W :=
  if rolls_back out
  then log (rollback oracle manifest recs (log s (EvRollbackStart (reverseOrder (started_refs recs))))).1
         EvRollbackComplete
  else s.

(** One run: the loop, then rollback if due, then the status is stored. *)
Lemma applyComposite_run order s :
  topologicalOrder spec = Ok order →
  ∃ s1 recs rs out,
    loop 0 order [] [] (log s (EvPhase PApplying)) = (s1, Ok (recs, rs, out)) ∧
    loop_end order recs rs out ∧
    let st := {| phase := compositePhase manifest out;
                 components := buildFinalComponents (all_results order rs out) recs |} in
    let s3 := (persistCompositeStatus oracle st (after_rollback recs out s1)).1 in
    apply_composite s =
      (log (log s3 (EvPhase (phase st))) (EvDone (negb (failed out) && negb (halted out))),
       Ok {| ok := negb (failed out) && negb (halted out); status := st;
             rolledBack := rolls_back out; componentResults := all_results order rs out |}).
Proof.
  intros Ho. destruct (loop_start order (log s (EvPhase PApplying))) as (s1&recs&rs&out&E&Hend).
  exists s1, recs, rs, out. split_and!; [done..|].
  unfold applyComposite, mbind, eff_bind. simpl. fold (log s (EvPhase PApplying)).
  unfold lift. rewrite Ho, E. fold (failed out). fold (rolls_back out). unfold after_rollback.
  set (st := {| phase := _; components := _ |}).
  destruct (rolls_back out) eqn:Er.
  - simpl. fold (log s1 (EvRollbackStart (reverseOrder (started_refs recs)))).
    pose proof (rollback_total recs (log s1 (EvRollbackStart (reverseOrder (started_refs recs))))) as Ht.
    destruct (rollback _ _ _ _) as [s2 [[]|e]]; [|done]. simpl. fold (log s2 EvRollbackComplete).
    pose proof (persist_total st (log s2 EvRollbackComplete)) as Hp.
    destruct (persistCompositeStatus oracle st _) as [s3 [[]|e]]; [|done]. simpl.
    subst st. unfold halted, log, all_results. by destruct (haltedOnPending out) as [[]|].
  - simpl. pose proof (persist_total st s1) as Hp.
    destruct (persistCompositeStatus oracle st _) as [s3 [[]|e]]; [|done]. simpl.
    subst st. unfold halted, log, all_results. by destruct (haltedOnPending out) as [[]|].
Qed.

Definition fresh_st (w : W) : @St W := {| world := w; obs := [] |}.


(** The applier throws only when no order exists; otherwise
    it returns one of three outcomes, and [ok], the phase, [rolledBack] and the
    per-component results agree: all ready; a prefix ready and the next one
    failed; or a prefix ready, the next one pending and all later ones marked
    as waiting for it. *)
Theorem apply_outcome w :
  match topologicalOrder spec with
  | Err e => (apply_composite (fresh_st w)).2 = Err e
  | Ok order => ∃ r, (apply_composite (fresh_st w)).2 = Ok r ∧
      ((ok r = true ∧ all_ready (componentResults r) order ∧
        phase (status r) = PReady ∧ rolledBack r = false) ∨
       (ok r = false ∧ ∃ pre ref post rs m, order = pre ++ ref :: post ∧ all_ready rs pre ∧
          componentResults r = rs ++ [Res ref CFailed (Some m)] ∧
          phase (status r) = (if decide (onFailure spec = Rollback) then PFailed else PDegraded) ∧
          rolledBack r = bool_decide (onFailure spec = Rollback)) ∨
       (ok r = false ∧ ∃ pre ref post rs m waiting, order = pre ++ ref :: post ∧ all_ready rs pre ∧
          componentResults r = rs ++ Res ref CPending (Some m) :: waiting ∧
          map r_ref waiting = post ∧ Forall (λ x, r_state x = CPending) waiting ∧
          phase (status r) = PDegraded ∧ rolledBack r = false))
  end.
Proof.
  destruct (topologicalOrder spec) as [order|e] eqn:Ho.
  - destruct (applyComposite_run order (fresh_st w) Ho) as (s1&recs&rs&out&_&Hend&Ea).
    rewrite Ea. simpl. eexists. split; [reflexivity|]. simpl.
    destruct Hend as [recs rs i Hr _|pre ref post recs rs m i Hp Hr _|pre ref post recs rs m Hp Hr _].
    + left. unfold rolls_back, all_results, compositePhase. by split_and!.
    + right; left. split; [done|]. exists pre, ref, post, rs, m. unfold compositePhase, rolls_back.
      split_and!; try done; simpl. case_bool_decide; by case_decide.
    + right; right. split; [done|]. unfold all_results, markDependentsPending, compositePhase, rolls_back. simpl.
      eexists pre, ref, post, rs, m, _. split_and!; [done..|by rewrite <-app_assoc| | |done|done].
      * rewrite map_map. simpl. rewrite map_id, Hp.
        replace (Z.to_nat (Z.of_nat (length pre) + 1)) with (length (pre ++ [ref]))
          by (rewrite length_app; simpl; lia).
        replace (pre ++ ref :: post) with ((pre ++ [ref]) ++ post) by (by rewrite <-app_assoc).
        by rewrite drop_app_length.
      * apply Forall_forall. by intros x (?&<-&_)%list_elem_of_In%in_map_iff.
  - unfold applyComposite, mbind, eff_bind, lift. simpl. by rewrite Ho.
Qed.

(** ** Rollback *)

Definition calls (seg : list Obs) : list Call :=
  omap (λ o, match o with OCall c => Some c | _ => None end) seg.

(** The teardown of one started component: the calls that undo what its
    record says was done, storage kept; besides them at most the report that
    it failed. *)
Definition undoes (rec : AppliedRecord) (seg : list Obs) : Prop :=
  (∀ e, OEvent e ∈ seg → ∃ m, e = EvFailed (a_ref rec) m) ∧
  match ref_kind (a_ref rec) with
  | KService => calls seg = match a_serviceRef rec with Some r => [CRemoveService r false] | None => [] end
  | KWorkload => calls seg = if existsb (λ w, bool_decide (w_node w = ref_name (a_ref rec))) (workloads spec)
                             then [CServerStop (ref_name (a_ref rec))] else []
  | KRag => if a_ragNodeCreated rec
            then calls seg = [CLoadConfig] ∨
                 ∃ cluster, calls seg = [CLoadConfig; CRemoveNode cluster (ref_name (a_ref rec))]
            else calls seg = []
  | KGateway => calls seg = []
  | KPipeline => calls seg = if existsb (λ p, bool_decide (p_name p = ref_name (a_ref rec))) (pipelinesOf spec)
                             then [CRemovePipeline (ref_name (a_ref rec))] else []
  end.

Lemma existsb_find {A} (f : A → bool) l :
  existsb f l = match find f l with Some _ => true | None => false end.
Proof. induction l as [|x l IH]; [done|]. simpl. by destruct (f x). Qed.

Ltac nothing_undone :=
  exists []; rewrite app_nil_r; split; [done|split; [by intros ? ?%elem_of_nil|done]].

Lemma rollback_one_undoes rec s :
  a_started rec = true →
  ∃ seg, obs (rollback_one oracle manifest rec s).1 = obs s ++ seg ∧ undoes rec seg.
Proof.
  intros Hst. unfold rollback_one. rewrite Hst. simpl.
  unfold try_catch, teardownComponent, undoes. rewrite !existsb_find.
  destruct (ref_kind (a_ref rec)) eqn:Ek.
  - destruct (a_serviceRef rec) as [r|]; [|nothing_undone].
    unfold perform. destruct (oracle (CRemoveService r false) _) as [w [[]|e]]; simpl.
    + eexists. split; [reflexivity|]. split; [|done]. by intros e [?|?%elem_of_nil]%elem_of_cons.
    + eexists. rewrite <-app_assoc. split; [reflexivity|]. split; [|done].
      intros e' [?|[[= ->]|?%elem_of_nil]%elem_of_cons]%elem_of_cons; [done| |done]. by eexists.
  - destruct (find _ _) as [w|] eqn:Ef; [|nothing_undone].
    apply find_some in Ef as [_ Ef%bool_decide_eq_true]. rewrite <-Ef.
    unfold perform, try_catch. destruct (oracle (CServerStop (w_node w)) _) as [w' [[]|e]]; simpl;
      (eexists; split; [reflexivity|]; split; [|done]); by intros e' [?|?%elem_of_nil]%elem_of_cons.
  - destruct (a_ragNodeCreated rec); simpl; [|nothing_undone].
    unfold mbind, eff_bind. unfold perform at 1 2. destruct (oracle CLoadConfig _) as [w [[cluster|]|e]]; simpl.
    + unfold perform. destruct (oracle (CRemoveNode cluster _) _) as [w' [[]|e]]; simpl.
      * eexists. rewrite <-app_assoc. split; [reflexivity|]. split; [|right; by exists cluster].
        by intros e [?|[?|?%elem_of_nil]%elem_of_cons]%elem_of_cons.
      * eexists. rewrite <-!app_assoc. split; [reflexivity|]. split; [|right; by exists cluster].
        intros e' [?|[?|[[= ->]|?%elem_of_nil]%elem_of_cons]%elem_of_cons]%elem_of_cons; try done. by eexists.
    + eexists. split; [reflexivity|]. split; [|by left]. by intros e [?|?%elem_of_nil]%elem_of_cons.
    + eexists. rewrite <-app_assoc. split; [reflexivity|]. split; [|by left].
      intros e' [?|[[= ->]|?%elem_of_nil]%elem_of_cons]%elem_of_cons; [done| |done]. by eexists.
  - nothing_undone.
  - destruct (find _ _) as [p|] eqn:Ef; [|nothing_undone].
    apply find_some in Ef as [_ Ef%bool_decide_eq_true]. rewrite <-Ef.
    unfold perform. destruct (oracle (CRemovePipeline _) _) as [w [[]|e]]; simpl.
    + eexists. split; [reflexivity|]. split; [|done]. by intros e [?|?%elem_of_nil]%elem_of_cons.
    + eexists. rewrite <-app_assoc. split; [reflexivity|]. split; [|done].
      intros e' [?|[[= ->]|?%elem_of_nil]%elem_of_cons]%elem_of_cons; [done| |done]. by eexists.
Qed.

Lemma each_rollback_undoes recs s :
  ∃ segs, obs (each (rollback_one oracle manifest) recs s).1 = obs s ++ concat segs ∧
    Forall2 undoes (filter (λ r, a_started r) recs) segs.
Proof.
  revert s. induction recs as [|rec recs IH]; intros s; [exists []; by rewrite app_nil_r|].
  simpl. unfold mbind, eff_bind. pose proof (rollback_one_total rec s) as Ht.
  rewrite filter_cons. destruct (a_started rec) eqn:Est.
  - destruct (rollback_one_undoes rec s Est) as (seg&Eseg&Hu).
    destruct (rollback_one _ _ rec s) as [s1 [[]|e]]; [|done]. simpl in *.
    destruct (IH s1) as (segs&E&H). exists (seg :: segs).
    split; [by rewrite E, Eseg, <-app_assoc|by constructor].
  - unfold rollback_one in *. rewrite Est in *. simpl in *. destruct (IH s) as (segs&E&H).
    by exists segs.
Qed.

Lemma filter_reverse {A} (f : A → bool) l : filter f (reverse l) = reverse (filter f l).
Proof.
  induction l as [|x l IH]; [done|]. rewrite reverse_cons, filter_app, IH, !filter_cons.
  destruct (f x); simpl; [by rewrite reverse_cons|by rewrite filter_nil, app_nil_r].
Qed.

(** When a run rolls back, the announced list is the started
    components, last first; each of them is torn down once, in that order, by
    the calls that undo what was done and without purging storage; failing
    teardowns are reported and stop nothing. *)
Theorem rollback_undoes_started w st r :
  apply_composite (fresh_st w) = (st, Ok r) → rolledBack r = true →
  ∃ recs p segs q,
    map a_ref recs = map r_ref (filter (λ x, r_state x = CReady) (componentResults r)) ∧
    let down := reverse (filter (λ x, a_started x) recs) in
    obs st = p ++ [OEvent (EvRollbackStart (map a_ref down))] ++ concat segs ++
             [OEvent EvRollbackComplete] ++ q ∧
    Forall2 undoes down segs.
Proof.
  intros Ea Hrb. destruct (topologicalOrder spec) as [order|e] eqn:Ho.
  2:{ unfold applyComposite, mbind, eff_bind, lift in Ea. simpl in Ea. by rewrite Ho in Ea. }
  destruct (applyComposite_run order (fresh_st w) Ho) as (s1&recs&rs&out&_&Hend&Ea').
  rewrite Ea in Ea'. injection Ea' as -> ->. simpl in Hrb.
  set (st := {| phase := _; components := _ |}). simpl.
  destruct (persist_quiet st (after_rollback recs out s1)) as (p&Ep&_). rewrite Ep.
  unfold after_rollback. rewrite Hrb. simpl. unfold rollback.
  destruct (each_rollback_undoes (reverse recs) (log s1 (EvRollbackStart (reverseOrder (started_refs recs)))))
    as (segs&Es&Hsegs).
  rewrite Es. simpl. rewrite filter_reverse in Hsegs.
  exists recs, (obs s1), segs. eexists. split; [|split; [|done]].
  - destruct Hend as [recs rs i Hr Hm|pre ref post recs rs m i Hp Hr Hm|pre ref post recs rs m Hp Hr Hm];
      [done| |done].
    unfold all_results. simpl. destruct Hr as [Hr1 Hr2].
    rewrite filter_app, filter_cons_False, filter_nil, app_nil_r by done.
    rewrite Hm, <-Hr1, list_filter_all; [done|]. by rewrite Forall_forall in Hr2.
  - unfold reverseOrder, started_refs. rewrite <-!app_assoc. simpl. do 3 f_equal.
    by rewrite <-map_rev, rev_alt.
Qed.

(** ** Destroy *)

(** Storage is purged only as asked. *)
Definition purges_as (purge : bool) (o : Obs) : Prop :=
  match o with
  | OCall (CRemoveService _ b) | OCall (CDestroyBoundary _ b) => b = purge
  | _ => True
  end.

Lemma destroyComponent_appends ref purge :
  appends (purges_as purge) (destroyComponent oracle manifest ref purge).
Proof.
  unfold destroyComponent, destroyServiceComponent, destroyWorkloadComponent, destroyRagComponent,
    destroyPipelineComponentRef. appends_auto; done.
Qed.

Lemma destroyInOrder_appends order purge skip acc :
  appends (purges_as purge) (destroyComponentsInOrder oracle manifest order purge skip acc).
Proof.
  revert acc. induction order as [|ref order IH]; intros acc; [apply appends_ret|]. simpl.
  destruct (_ && _); [apply IH|]. apply appends_bind; [|intros; apply IH].
  apply appends_try; [|intros; apply appends_ret].
  apply appends_bind; [apply destroyComponent_appends|intros; apply appends_ret].
Qed.

Lemma destroyComposite_appends purge : appends (purges_as purge) (destroy_composite purge).
Proof.
  unfold destroyComposite. apply appends_bind; [apply appends_lift|intros order].
  apply appends_bind; [|intros acc; apply appends_bind; [apply destroyInOrder_appends|intros acc']].
  - destruct has_boundary; [|apply appends_ret]. unfold destroyServicesViaBoundary.
    apply appends_try; [|intros; apply appends_ret].
    apply appends_bind; [|intros; apply appends_ret]. by refine (appends_perform _ (CDestroyBoundary _ _) _).
  - unfold cleanupGatewayCatalogs, cleanupCatalog. appends_auto; done.
Qed.

(** What became of each component the loop attempted, in order. *)
Lemma destroyInOrder_attempts order purge skip acc s :
  ∃ s' outcomes,
    destroyComponentsInOrder oracle manifest order purge skip acc s =
      (s', Ok (acc.1 ++ omap (λ x, match x.2 with None => Some x.1 | Some _ => None end) outcomes,
               acc.2 ++ omap (λ x, match x.2 with None => None | Some e => Some (x.1, e) end) outcomes)) ∧
    outcomes.*1 = filter (λ ref, ¬ (skip = true ∧ ref_kind ref = KService)) order.
Proof.
  revert acc s. induction order as [|ref order IH]; intros acc s.
  { exists s, []. simpl. rewrite !app_nil_r. by destruct acc. }
  simpl. rewrite filter_cons.
  destruct (skip && bool_decide (ref_kind ref = KService)) eqn:Eskip.
  - to_prop. rewrite decide_False by (intros Hn; by apply Hn). apply IH.
  - rewrite decide_True by (intros [-> Hk]; by rewrite bool_decide_eq_true_2 in Eskip).
    unfold mbind, eff_bind, try_catch. destruct (destroyComponent _ _ ref purge s) as [s1 [[]|e]]; simpl.
    + destruct (IH (acc.1 ++ [ref], acc.2) s1) as (s'&outs&E&Ho).
      exists s', ((ref, None) :: outs). rewrite E. csimpl. by rewrite Ho, <-!app_assoc.
    + destruct (IH (acc.1, acc.2 ++ [(ref, e)]) s1) as (s'&outs&E&Ho).
      exists s', ((ref, Some e) :: outs). rewrite E. csimpl. by rewrite Ho, <-!app_assoc.
Qed.

(** Destroy gives every component an attempt whatever fails
    before it: each ends up removed or with its own error, services possibly
    through the boundary and its single error. It is [ok] exactly when nothing
    failed, then everything was removed; and it purges storage only as asked. *)
Theorem destroy_attempts_all purge w st r order :
  topologicalOrder spec = Ok order →
  destroy_composite purge (fresh_st w) = (st, Ok r) →
  (∀ ref, ref ∈ order →
     ref ∈ d_removed r ∨ (∃ m, (ref, m) ∈ d_errors r) ∨
     (ref_kind ref = KService ∧ has_boundary = true ∧ ∃ m, (Ref KService "__boundary__", m) ∈ d_errors r)) ∧
  (d_ok r = true ↔ d_errors r = []) ∧
  (d_ok r = true → ∀ ref, ref ∈ order → ref ∈ d_removed r) ∧
  Forall (purges_as purge) (obs st).
Proof.
  intros Ho E.
  assert (Forall (purges_as purge) (obs st)) as Hp.
  { destruct (destroyComposite_appends purge (fresh_st w)) as (seg&Es&Hs). rewrite E in Es.
    simpl in Es. by rewrite Es. }
  unfold destroyComposite, mbind, eff_bind, lift in E. rewrite Ho in E. simpl in E.
  set (start := if has_boundary then _ else _) in E.
  assert (∃ s1 acc, start (fresh_st w) = (s1, Ok acc) ∧ ∀ ref, ref ∈ order →
    has_boundary = true → ref_kind ref = KService →
    ref ∈ acc.1 ∨ ∃ m, (Ref KService "__boundary__", m) ∈ acc.2) as (s1&acc&Es&Hacc).
  { subst start. destruct has_boundary; [|by eexists _, _].
    unfold destroyServicesViaBoundary, try_catch, mbind, eff_bind, perform.
    destruct (oracle (CDestroyBoundary _ _) _) as [w1 [[]|e]]; simpl; eexists _, _;
      (split; [done|]); intros ref Hin _ Hk.
    - left. simpl. apply list_elem_of_filter. split; [done|]. unfold reverseOrder.
      by rewrite list_elem_of_In, <-in_rev, <-list_elem_of_In.
    - right. exists e. left. }
  rewrite Es in E. destruct (destroyInOrder_attempts (reverseOrder order) purge has_boundary acc s1)
    as (s2&outs&Eo&Houts).
  rewrite Eo in E. destruct (cleanupGatewayCatalogs oracle s2) as [s3 [[]|e]]; [|done].
  injection E as _ <-. simpl.
  set (removed := acc.1 ++ _). set (errors := acc.2 ++ _).
  assert (∀ ref, ref ∈ order → ref ∈ removed ∨ (∃ m, (ref, m) ∈ errors) ∨
     (ref_kind ref = KService ∧ has_boundary = true ∧ ∃ m, (Ref KService "__boundary__", m) ∈ errors)) as Hall.
  { intros ref Hin. destruct (decide (has_boundary = true ∧ ref_kind ref = KService)) as [[Hb Hk]|Hn].
    - destruct (Hacc ref Hin Hb Hk) as [?|[m Hm]]; [left; apply elem_of_app; by left|].
      right; right. split_and!; [done..|]. exists m. apply elem_of_app. by left.
    - assert (ref ∈ outs.*1) as Ho1.
      { rewrite Houts. apply list_elem_of_filter. split; [done|]. unfold reverseOrder.
        by rewrite list_elem_of_In, <-in_rev, <-list_elem_of_In. }
      apply list_elem_of_fmap in Ho1 as ([x [e|]]&->&Hx).
      + right; left. exists e. apply elem_of_app. right. apply list_elem_of_omap. by exists (x, Some e).
      + left. apply elem_of_app. right. apply list_elem_of_omap. by exists (x, None). }
  assert (bool_decide (length errors = 0%nat) = true ↔ errors = []) as Hiff.
  { rewrite bool_decide_eq_true. by destruct errors. }
  split_and!; [done|done| |done]. intros Hd ref Hin. apply Hiff in Hd.
  destruct (Hall ref Hin) as [?|[[m Hm]|(_&_&m&Hm)]]; [done|..];
    rewrite Hd in Hm; by apply elem_of_nil in Hm.
Qed.
End apply.

(** ** A concrete outside *)

(** Workload "n2" fails, everything else succeeds. *)
Definition demo_oracle (c : Call) (w : unit) : unit * result (Resp c) :=
  (w, match c return result (Resp c) with
      | CToDeployment s => Ok (Some (s +:+ "-dep"))
      | CEnsureService d => Ok d
      | CResolvedEndpoint _ _ => Ok "http://svc"
      | CResolveExternal _ _ => Ok None
      | CApplyOne n =>
          if bool_decide (n = "n2") then Err "no memory"
          else Ok {| wr_action := AOther; wr_error := None; wr_endpoint := Some "http://n"; wr_events := 1 |}
      | CLoadConfig => Ok (Some "home")
      | CDispatchGateway _ _ => Ok None
      | CApplyPipeline _ => Ok {| pr_pending := false; pr_message := None; pr_changed := true |}
      | CRemoveCatalogEntries _ => Ok false
      | CRemoveService _ _ | CDestroyBoundary _ _ | CServerStop _ | CUpsertNode _ _ _
      | CRemoveNode _ _ | CRemovePipeline _ | CSaveStatus _ | CReloadGateways _ => Ok tt
      end).

Definition demo_manifest : Composite :=
  {| c_name := "demo";
     c_spec := {| services := [{| s_name := "db"; s_external := false |}];
       workloads := [{| w_node := "n1"; w_useProxy := false |}; {| w_node := "n2"; w_useProxy := false |}];
       ragNodes := [{| rn_name := "kb"; rn_endpoint := ""; rn_backingService := Some "db" |}];
       gateways := []; pipelines := None;
       dependencies := [Edge (Ref KWorkload "n2") (Ref KRag "kb")]; onFailure := Rollback |} |}.

Definition demo_apply : @St unit * result ApplyResult :=
  applyComposite demo_oracle (λ _, None) false "http://proxy" (λ a _, a) demo_manifest (fresh_st tt).

Definition demo_result : ApplyResult :=
  match demo_apply.2 with
  | Ok r => r
  | Err _ => {| ok := true; status := {| phase := PReady; components := [] |}; rolledBack := false;
                componentResults := [] |}
  end.

(** Rolled-back components stay Ready in the stored status. *)
Lemma rolled_back_stay_ready :
  demo_apply.2 = Ok demo_result ∧ rolledBack demo_result = true ∧
  map (λ x, (r_ref x, r_state x)) (components (status demo_result)) =
    [(Ref KService "db", CReady); (Ref KWorkload "n1", CReady); (Ref KRag "kb", CReady);
     (Ref KWorkload "n2", CFailed)] ∧
  calls (obs demo_apply.1) =
    [CToDeployment "db"; CEnsureService "db-dep"; CApplyOne "n1"; CResolvedEndpoint "db" (Some "db-dep");
     CLoadConfig; CUpsertNode "home" "kb" "http://svc"; CApplyOne "n2";
     CLoadConfig; CRemoveNode "home" "kb"; CServerStop "n1"; CRemoveService "db-dep" false;
     CSaveStatus (status demo_result)].
Proof. split_and!; vm_compute; reflexivity. Qed.

(** When a component fails, those after it are missing from the status. *)
Lemma unprocessed_unreported :
  topologicalOrder (c_spec demo_manifest) =
    Ok [Ref KService "db"; Ref KWorkload "n1"; Ref KRag "kb"; Ref KWorkload "n2"] ∧
  match (applyComposite (λ c w, (w, Err "down")) (λ _, None) false "" (λ a _, a) demo_manifest
      (fresh_st tt)).2 with
  | Ok r => map r_ref (components (status r)) = [Ref KService "db"]
  | Err _ => False
  end.
Proof. split; vm_compute; reflexivity. Qed.


Lemma rollback_undoes_started_witness :
  ∃ p segs q recs, obs demo_apply.1 =
    p ++ [OEvent (EvRollbackStart (map a_ref (reverse (filter (λ x, a_started x) recs))))] ++ concat segs ++
    [OEvent EvRollbackComplete] ++ q.
Proof.
  destruct (rollback_undoes_started demo_oracle (λ _, None) false "http://proxy" (λ a _, a) demo_manifest tt
    demo_apply.1 demo_result) as (recs&p&segs&q&_&H&_).
  - vm_compute. reflexivity.
  - vm_compute. reflexivity.
  - by exists p, segs, q, recs.
Defined.

Definition demo_destroy : @St unit * result DestroyResult :=
  destroyComposite demo_oracle false demo_manifest false (fresh_st tt).

Lemma destroy_attempts_all_witness :
  Forall (purges_as false) (obs demo_destroy.1).
Proof.
  destruct (destroy_attempts_all demo_oracle false demo_manifest false tt demo_destroy.1
    {| d_ok := true; d_errors := [];
       d_removed := [Ref KWorkload "n2"; Ref KRag "kb"; Ref KWorkload "n1"; Ref KService "db"] |}
    [Ref KService "db"; Ref KWorkload "n1"; Ref KRag "kb"; Ref KWorkload "n2"]) as (_&_&_&H);
    [vm_compute; reflexivity..|exact H].
Defined.
