(* ===== verification/EvictStore.v ===== *)
(** * Budget eviction over a table of rows

    The loop that the KV store and the response cache share: walk the rows
    from the most evictable down, delete until the total is within budget.
    [EvictStore] is what the loop asks of a table, [EvictLaws] what the table
    promises; the clients are KvStore.v and ResponseCache.v. *)

From S2P Require Import Prelude JsSort.
From Stdlib Require Import QArith.

#[local] Open Scope list_scope.
#[local] Open Scope Z_scope.

Class EvictStore (S E : Type) := {
  row_bytes : E → Z;
  (** Delete the row, or [None] when no deletable row matched. *)
  try_delete : E → S → option S
}.

(** Rows [R] sit under keys [K] in the table; [deletable row e] says that
    [row] may be deleted on behalf of the listed entry [e]. *)
Class EvictLaws (S E K R : Type) `{EvictStore S E} `{Countable K} := {
  rows : S → gmap K R;
  entry_key : E → K;
  deletable : R → E → Prop;
  try_delete_Some e s s' : try_delete e s = Some s' →
    rows s' = delete (entry_key e) (rows s) ∧
    ∃ row, rows s !! entry_key e = Some row ∧ deletable row e;
  try_delete_None e s : try_delete e s = None →
    ∀ row, rows s !! entry_key e = Some row → ¬ deletable row e
}.

(** ** Tables with a primary key *)
Section table.
Context {K E : Type} `{Countable K} (key : E → K).

(** Every row sits under its own key. *)
Definition keyed (m : gmap K E) : Prop := map_Forall (λ k r, key r = k) m.
Definition table_rows (m : gmap K E) : list E := (map_to_list m).*2.

Lemma keyed_empty : keyed ∅.
Proof. apply map_Forall_empty. Qed.
Lemma keyed_insert r m : keyed m → keyed (<[key r := r]> m).
Proof. intros Hm. by apply map_Forall_insert_2. Qed.
Lemma keyed_delete k m : keyed m → keyed (delete k m).
Proof. apply map_Forall_delete. Qed.
Lemma keyed_alter f k m : (∀ r, key (f r) = key r) → keyed m → keyed (alter f k m).
Proof.
  intros Hf Hm k' r Hr. destruct (decide (k' = k)) as [->|Hne].
  - rewrite lookup_alter_eq in Hr. destruct (m !! k) as [r'|] eqn:E1; simplify_eq/=.
    rewrite Hf. by apply Hm.
  - rewrite lookup_alter_ne in Hr by done. by apply Hm.
Qed.
Lemma keyed_filter (P : K * E → Prop) `{!∀ x, Decision (P x)} m : keyed m → keyed (filter P m).
Proof. intros Hm k r [Hr _]%map_lookup_filter_Some. by apply Hm. Qed.

Lemma elem_of_table_rows m r : keyed m → r ∈ table_rows m ↔ m !! key r = Some r.
Proof.
  intros Hm. unfold table_rows. rewrite list_elem_of_fmap. split.
  - intros ([k r']&->&Hr). apply elem_of_map_to_list in Hr. simpl.
    by rewrite (Hm _ _ Hr : key r' = k).
  - intros Hr. exists (key r, r). split; [done|]. by apply elem_of_map_to_list.
Qed.

Lemma table_keys m : keyed m → key <$> table_rows m = (map_to_list m).*1.
Proof.
  intros Hm. unfold table_rows. rewrite <-list_fmap_compose. apply list_fmap_ext.
  intros i [k r] Hr. simpl. apply list_elem_of_lookup_2, elem_of_map_to_list in Hr. by apply Hm.
Qed.

Lemma table_keys_NoDup m : keyed m → NoDup (key <$> table_rows m).
Proof. intros Hm. rewrite table_keys by done. apply NoDup_fst_map_to_list. Qed.

End table.

#[export] Hint Resolve keyed_empty keyed_insert keyed_delete keyed_alter keyed_filter : llamactl.

Section evict.
Context {S E : Type} `{!EvictStore S E}.

(** What the loop did: the table, the running total, and the entries deleted
    and passed over, in order. *)
Record Evicted := { ev_store : S; ev_total : Z; ev_deleted : list E; ev_blocked : list E }.

Fixpoint evict_loop (budget : Z) (sorted : list E) (s : S) (total : Z) : Evicted :=
  match sorted with
  | [] => {| ev_store := s; ev_total := total; ev_deleted := []; ev_blocked := [] |}
  | e :: rest =>
      if total <=? budget
      then {| ev_store := s; ev_total := total; ev_deleted := []; ev_blocked := [] |}
      else match try_delete e s with
      | Some s' =>
          let r := evict_loop budget rest s' (total - row_bytes e) in
          {| ev_store := ev_store r; ev_total := ev_total r; ev_deleted := e :: ev_deleted r;
             ev_blocked := ev_blocked r |}
      | None =>
          let r := evict_loop budget rest s total in
          {| ev_store := ev_store r; ev_total := ev_total r; ev_deleted := ev_deleted r;
             ev_blocked := e :: ev_blocked r |}
      end
  end.

Context {K R : Type} `{Countable K} `{!EvictLaws S E K R}.

Lemma evict_loop_total budget sorted s total :
  let r := evict_loop budget sorted s total in
  ev_total r = total - sumZ row_bytes (ev_deleted r).
Proof.
  revert s total. induction sorted as [|e rest IH]; intros s total; simpl; [lia|].
  destruct (total <=? budget); simpl; [lia|]. destruct (try_delete e s) as [s'|]; simpl; rewrite IH; lia.
Qed.

Lemma evict_loop_processed budget sorted s total :
  let r := evict_loop budget sorted s total in
  ∃ pre post, sorted = pre ++ post ∧ ev_deleted r ++ ev_blocked r ≡ₚ pre ∧
    (post ≠ [] → ev_total r ≤ budget) ∧
    ev_deleted r `sublist_of` pre ∧ ev_blocked r `sublist_of` pre.
Proof.
  revert s total. induction sorted as [|e rest IH]; intros s total; simpl.
  { by exists [], []. }
  destruct (total <=? budget) eqn:Et; simpl.
  { exists [], (e :: rest). to_prop. by split_and!; try constructor. }
  destruct (try_delete e s) as [s'|]; simpl.
  - destruct (IH s' (total - row_bytes e)) as (pre&post&->&Hp&Ht&H1&H2).
    exists (e :: pre), post. split_and!; [done|simpl; by constructor|done|by constructor|by constructor].
  - destruct (IH s total) as (pre&post&->&Hp&Ht&H1&H2).
    exists (e :: pre), post. split_and!; [done| |done|by constructor|by constructor].
    rewrite <-Permutation_middle. by constructor.
Qed.

(** Nothing is deleted once the total fits. *)
Lemma evict_loop_minimal budget sorted s total d x k :
  ev_deleted (evict_loop budget sorted s total) = d ++ x :: k →
  budget < total - sumZ row_bytes d.
Proof.
  revert s total d. induction sorted as [|e rest IH]; intros s total d; simpl; [by destruct d|].
  destruct (total <=? budget) eqn:Et; simpl; [by destruct d|]. to_prop.
  destruct (try_delete e s) as [s'|]; simpl; [|apply IH].
  destruct d as [|y d]; simpl; intros [= -> Hd]; [lia|]. specialize (IH _ _ _ Hd). lia.
Qed.

(** The table loses the keys of the entries deleted and nothing else. *)
Lemma evict_loop_rows budget sorted s total :
  let r := evict_loop budget sorted s total in
  rows (ev_store r) = filter (λ '(k, _), k ∉ entry_key <$> ev_deleted r) (rows s).
Proof.
  revert s total. induction sorted as [|e rest IH]; intros s total; simpl.
  { rewrite map_filter_id; [done|]. intros k r _. apply not_elem_of_nil. }
  destruct (total <=? budget); simpl.
  { rewrite map_filter_id; [done|]. intros k r _. apply not_elem_of_nil. }
  destruct (try_delete e s) as [s'|] eqn:Ed; simpl; rewrite IH; [|done].
  destruct (try_delete_Some e s s' Ed) as [-> _].
  apply map_eq. intros k. apply option_eq. intros row.
  rewrite !map_lookup_filter_Some, lookup_delete_Some, not_elem_of_cons. naive_solver.
Qed.

(** Every entry deleted had a row that could be deleted for it, and every
    entry passed over had none. *)
Lemma evict_loop_deleted budget sorted s total e :
  e ∈ ev_deleted (evict_loop budget sorted s total) →
  ∃ row, rows s !! entry_key e = Some row ∧ deletable row e.
Proof.
  revert s total. induction sorted as [|x rest IH]; intros s total; simpl; [by intros ?%elem_of_nil|].
  destruct (total <=? budget); simpl; [by intros ?%elem_of_nil|].
  destruct (try_delete x s) as [s'|] eqn:Ed; simpl; [|by apply IH].
  destruct (try_delete_Some x s s' Ed) as [Hs' Hrow].
  intros [->|He]%elem_of_cons; [done|].
  destruct (IH _ _ He) as (row&Hr&?). exists row. split; [|done].
  rewrite Hs' in Hr. by apply lookup_delete_Some in Hr as [_ ?].
Qed.

Lemma evict_loop_blocked budget sorted s total e :
  NoDup (entry_key <$> sorted) →
  e ∈ ev_blocked (evict_loop budget sorted s total) →
  ∀ row, rows s !! entry_key e = Some row → ¬ deletable row e.
Proof.
  revert s total. induction sorted as [|x rest IH]; intros s total Hnd; simpl; [by intros ?%elem_of_nil|].
  apply NoDup_cons in Hnd as [Hx Hnd].
  destruct (total <=? budget); simpl; [by intros ?%elem_of_nil|].
  destruct (try_delete x s) as [s'|] eqn:Ed; simpl.
  - intros He row Hrow. apply (IH s' (total - row_bytes x) Hnd He row).
    destruct (try_delete_Some x s s' Ed) as [-> _]. apply lookup_delete_Some. split; [|done].
    intros E1. apply Hx. rewrite E1. apply list_elem_of_fmap. exists e. split; [done|].
    destruct (evict_loop_processed budget rest s' (total - row_bytes x)) as (pre&post&->&_&_&_&Hsub).
    apply elem_of_app. left. by eapply elem_of_sublist.
  - intros [->|He]%elem_of_cons; [by apply try_delete_None|by apply (IH s total)].
Qed.

(** Where every listed row is there and may be deleted, the entries deleted
    are a prefix of the list. *)
Lemma evict_loop_prefix budget sorted s total :
  (∀ row e, deletable row e) → NoDup (entry_key <$> sorted) →
  (∀ e, e ∈ sorted → is_Some (rows s !! entry_key e)) →
  let r := evict_loop budget sorted s total in
  ∃ post, sorted = ev_deleted r ++ post ∧ (post ≠ [] → ev_total r ≤ budget).
Proof.
  intros Hdel. revert s total. induction sorted as [|e rest IH]; intros s total Hnd Hin; simpl.
  { by exists []. }
  apply NoDup_cons in Hnd as [Hx Hnd].
  destruct (total <=? budget) eqn:Et; simpl; [to_prop; by exists (e :: rest)|].
  destruct (try_delete e s) as [s'|] eqn:Ed; simpl.
  - destruct (IH s' (total - row_bytes e) Hnd) as (post&Hs&Ht).
    { intros e' He'. destruct (try_delete_Some e s s' Ed) as [-> _].
      rewrite lookup_delete_ne; [apply Hin; by right|]. intros E1. apply Hx. rewrite E1.
      by apply list_elem_of_fmap_2. }
    exists post. split; [by rewrite Hs at 1|done].
  - destruct (Hin e ltac:(left)) as [row Hrow]. destruct (try_delete_None e s Ed row Hrow (Hdel _ _)).
Qed.
End evict.

Arguments Evicted : clear implicits.

(** [Math.sign] of a difference of scores, as a comparator's result. *)
Definition cmpQ (x y : Q) : Z := Z.sgn (Qnum (x - y)).

Lemma cmpQ_le x y : cmpQ x y ≤ 0 ↔ (x <= y)%Q.
Proof. unfold cmpQ, Qle, Qminus, Qplus, Qopp. simpl. rewrite Z.sgn_nonpos. lia. Qed.

(** Descending by score is a total preorder. *)
Lemma cmp_ok_score {A} (f : A → Q) (P : A → Prop) : cmp_ok (λ a b, cmpQ (f b) (f a)) P.
Proof.
  split; unfold cmp_le.
  - intros x y _ _. rewrite !cmpQ_le. destruct (Qlt_le_dec (f y) (f x)); auto using Qlt_le_weak.
  - intros x y z _ _ _. rewrite !cmpQ_le. eauto using Qle_trans.
Qed.
#[export] Hint Resolve cmp_ok_score : llamactl.

(** The half-life score of a row: age and size count against it, recent hits
    for it.  [pow_half x] is [Math.pow(0.5, x)]. *)
Definition HALF_LIFE_MS : Z := 6 * 3600 * 1000.
Definition PAYLOAD_SCALE_BYTES : Z := 1024 * 1024.
Definition AGE_SCALE_MS : Z := 60 * 60 * 1000.

Definition half_life_score (pow_half : Q → Q) (lastUsed hits bytes now : Z) : Q :=
  let ageMs := Z.max 0 (now - lastUsed) in
  let decayedHits := (inject_Z hits * pow_half (inject_Z ageMs / inject_Z HALF_LIFE_MS))%Q in
  (inject_Z ageMs / inject_Z AGE_SCALE_MS + inject_Z bytes / inject_Z PAYLOAD_SCALE_BYTES - decayedHits * 25)%Q.
