(* ===== verification/KvStore.v ===== *)
(** * The KV-slot store

    packages/core/src/kvstore: a SQLite table of saved prompt-prefix slots
    keyed by sha (registry.ts), prefix lookup and budget eviction over it
    (policy.ts, evictionScore.ts), the scan that quarantines rows whose slot
    file is gone (storage.ts), and the sweep of slot files no row names
    (orphanSweep.ts).

    The world is the table, the file system seen as path to mtime, and the
    warnings printed.  The theorems are in KvStoreProps.v. *)

From S2P Require Import Prelude JsSort EvictStore.
From Stdlib Require Import QArith.

#[local] Open Scope string_scope.
#[local] Open Scope list_scope.
#[local] Open Scope Z_scope.

(** ** Data *)

Inductive KvEntryReason := cold | continued | evict | shutdown | agentSession.
Inductive KvEntryState := idle | reserved | active.

#[export] Instance KvEntryReason_eq : EqDecision KvEntryReason.
Proof. solve_decision. Defined.
#[export] Instance KvEntryState_eq : EqDecision KvEntryState.
Proof. solve_decision. Defined.

Record KvEntry := mkKvEntry {
  sha : string; workload : string; model : option string; upstreamSlotFile : string;
  quantBits : Z; tokens : Z; ctxSize : Z; hits : Z; createdAt : Z; lastUsed : Z;
  payloadBytes : Z; textBytes : Z; reason : KvEntryReason; prefixByteLength : Z;
  workloadEpoch : string; quarantined : Z; state : KvEntryState;
  firstResponseToken : option string; extFlags : Z
}.

(** A row of [kv_entries].  The reason is the TEXT the column stores. *)
Record KvEntryRow := mkKvEntryRow {
  r_sha : string; r_workload : string; r_model : option string; r_upstream_slot_file : string;
  r_quant_bits : Z; r_tokens : Z; r_ctx_size : Z; r_hits : Z; r_created_at : Z; r_last_used : Z;
  r_payload_bytes : Z; r_text_bytes : Z; r_reason : string; r_prefix_byte_length : Z;
  r_workload_epoch : string; r_quarantined : Z; r_state : KvEntryState;
  r_first_response_token : option string; r_ext_flags : Z
}.

Definition toDbReason (r : KvEntryReason) : string :=
  match r with
  | cold => "cold" | continued => "continued" | evict => "evict" | shutdown => "shutdown"
  | agentSession => "agent_session"
  end.

(** The column's CHECK admits these five texts; another one never gets in. *)
Definition fromDbReason (r : string) : KvEntryReason :=
  if decide (r = "agent_session") then agentSession
  else if decide (r = "continued") then continued
  else if decide (r = "evict") then evict
  else if decide (r = "shutdown") then shutdown
  else cold.

Definition toQueryParams (e : KvEntry) : KvEntryRow := {|
  r_sha := sha e; r_workload := workload e; r_model := model e;
  r_upstream_slot_file := upstreamSlotFile e; r_quant_bits := quantBits e; r_tokens := tokens e;
  r_ctx_size := ctxSize e; r_hits := hits e; r_created_at := createdAt e;
  r_last_used := lastUsed e; r_payload_bytes := payloadBytes e; r_text_bytes := textBytes e;
  r_reason := toDbReason (reason e); r_prefix_byte_length := prefixByteLength e;
  r_workload_epoch := workloadEpoch e; r_quarantined := quarantined e; r_state := state e;
  r_first_response_token := firstResponseToken e; r_ext_flags := extFlags e |}.

Definition fromRow (r : KvEntryRow) : KvEntry := {|
  sha := r_sha r; workload := r_workload r; model := r_model r;
  upstreamSlotFile := r_upstream_slot_file r; quantBits := r_quant_bits r; tokens := r_tokens r;
  ctxSize := r_ctx_size r; hits := r_hits r; createdAt := r_created_at r;
  lastUsed := r_last_used r; payloadBytes := r_payload_bytes r; textBytes := r_text_bytes r;
  reason := fromDbReason (r_reason r); prefixByteLength := r_prefix_byte_length r;
  workloadEpoch := r_workload_epoch r; quarantined := r_quarantined r; state := r_state r;
  firstResponseToken := r_first_response_token r; extFlags := r_ext_flags r |}.

Definition set_state (st : KvEntryState) (r : KvEntryRow) : KvEntryRow := {|
  r_sha := r_sha r; r_workload := r_workload r; r_model := r_model r;
  r_upstream_slot_file := r_upstream_slot_file r; r_quant_bits := r_quant_bits r;
  r_tokens := r_tokens r; r_ctx_size := r_ctx_size r; r_hits := r_hits r;
  r_created_at := r_created_at r; r_last_used := r_last_used r;
  r_payload_bytes := r_payload_bytes r; r_text_bytes := r_text_bytes r; r_reason := r_reason r;
  r_prefix_byte_length := r_prefix_byte_length r; r_workload_epoch := r_workload_epoch r;
  r_quarantined := r_quarantined r; r_state := st;
  r_first_response_token := r_first_response_token r; r_ext_flags := r_ext_flags r |}.

Definition set_quarantined (q : Z) (r : KvEntryRow) : KvEntryRow := {|
  r_sha := r_sha r; r_workload := r_workload r; r_model := r_model r;
  r_upstream_slot_file := r_upstream_slot_file r; r_quant_bits := r_quant_bits r;
  r_tokens := r_tokens r; r_ctx_size := r_ctx_size r; r_hits := r_hits r;
  r_created_at := r_created_at r; r_last_used := r_last_used r;
  r_payload_bytes := r_payload_bytes r; r_text_bytes := r_text_bytes r; r_reason := r_reason r;
  r_prefix_byte_length := r_prefix_byte_length r; r_workload_epoch := r_workload_epoch r;
  r_quarantined := q; r_state := r_state r;
  r_first_response_token := r_first_response_token r; r_ext_flags := r_ext_flags r |}.

Definition bump_hit (now : Z) (r : KvEntryRow) : KvEntryRow := {|
  r_sha := r_sha r; r_workload := r_workload r; r_model := r_model r;
  r_upstream_slot_file := r_upstream_slot_file r; r_quant_bits := r_quant_bits r;
  r_tokens := r_tokens r; r_ctx_size := r_ctx_size r; r_hits := r_hits r + 1;
  r_created_at := r_created_at r; r_last_used := now;
  r_payload_bytes := r_payload_bytes r; r_text_bytes := r_text_bytes r; r_reason := r_reason r;
  r_prefix_byte_length := r_prefix_byte_length r; r_workload_epoch := r_workload_epoch r;
  r_quarantined := r_quarantined r; r_state := r_state r;
  r_first_response_token := r_first_response_token r; r_ext_flags := r_ext_flags r |}.

Definition set_ext_flags (flags : Z) (r : KvEntryRow) : KvEntryRow := {|
  r_sha := r_sha r; r_workload := r_workload r; r_model := r_model r;
  r_upstream_slot_file := r_upstream_slot_file r; r_quant_bits := r_quant_bits r;
  r_tokens := r_tokens r; r_ctx_size := r_ctx_size r; r_hits := r_hits r;
  r_created_at := r_created_at r; r_last_used := r_last_used r;
  r_payload_bytes := r_payload_bytes r; r_text_bytes := r_text_bytes r; r_reason := r_reason r;
  r_prefix_byte_length := r_prefix_byte_length r; r_workload_epoch := r_workload_epoch r;
  r_quarantined := r_quarantined r; r_state := r_state r;
  r_first_response_token := r_first_response_token r; r_ext_flags := flags |}.

(** ** The world *)

Notation KvRows := (gmap string KvEntryRow).

Record KvWorld := mkKvWorld {
  kv_entries : KvRows;
  kv_files : gmap string Z;
  kv_warnings : list string
}.

Definition with_rows (rows : KvRows) (w : KvWorld) : KvWorld :=
  {| kv_entries := rows; kv_files := kv_files w; kv_warnings := kv_warnings w |}.
Definition with_files (files : gmap string Z) (w : KvWorld) : KvWorld :=
  {| kv_entries := kv_entries w; kv_files := files; kv_warnings := kv_warnings w |}.
Definition warn (msg : string) (w : KvWorld) : KvWorld :=
  {| kv_entries := kv_entries w; kv_files := kv_files w; kv_warnings := kv_warnings w ++ [msg] |}.

(** [Math.sign] of a byte-wise text comparison (SQLite's BINARY collation). *)
Definition cmp_text (s t : string) : Z :=
  match String.compare s t with Eq => 0 | Lt => -1 | Gt => 1 end.

Section registry.
(** The error code, ENOENT apart, with which unlinking or examining an
    existing path fails ("EACCES", "EPERM", ...). *)
Context (unlink_error stat_error : string → option string).

Definition unlinkSync (path : string) : eff KvWorld unit := λ w,
  match kv_files w !! path with
  | None => (w, Err "ENOENT")
  | Some _ =>
      match unlink_error path with
      | Some code => (w, Err code)
      | None => (with_files (delete path (kv_files w)) w, Ok tt)
      end
  end.

Definition statSync (path : string) : eff KvWorld Z := λ w,
  match kv_files w !! path with
  | None => (w, Err "ENOENT")
  | Some mtimeMs =>
      match stat_error path with Some code => (w, Err code) | None => (w, Ok mtimeMs) end
  end.

(** ** registry.ts *)

Definition unlink_candidate (candidate : string) (w : KvWorld) : KvWorld :=
  match unlinkSync candidate w with
  | (w', Ok _) => w'
  | (w', Err code) =>
      if decide (code = "ENOENT") then w'
      else warn ("[kvstore] failed to unlink " +:+ candidate) w'
  end.

Definition unlinkSlotArtifacts (path : string) (w : KvWorld) : KvWorld :=
  foldl (λ w' candidate, unlink_candidate candidate w') w [path; path +:+ ".trailer.json"].

Definition unlinkSlotArtifactsFor (paths : list string) (w : KvWorld) : KvWorld :=
  foldl (λ w' path, unlinkSlotArtifacts path w') w paths.

Definition insert (entry : KvEntry) (w : KvWorld) : KvWorld :=
  with_rows (<[sha entry := toQueryParams entry]> (kv_entries w)) w.

Definition get (s : string) (w : KvWorld) : option KvEntry := fromRow <$> kv_entries w !! s.
Definition findBySha : string → KvWorld → option KvEntry := get.

(** [DELETE ... WHERE cond RETURNING upstream_slot_file] for a condition that
    includes [sha = ?]: at most one row. *)
Definition delete_returning_rows (s : string) (cond : KvEntryRow → bool) (rows : KvRows)
    : KvRows * list string :=
  match rows !! s with
  | Some row => if cond row then (delete s rows, [r_upstream_slot_file row]) else (rows, [])
  | None => (rows, [])
  end.

Definition deleteReturning (s : string) (cond : KvEntryRow → bool) (w : KvWorld) : KvWorld * bool :=
  let '(rows, paths) := delete_returning_rows s cond (kv_entries w) in
  (unlinkSlotArtifactsFor paths (with_rows rows w), bool_decide (paths ≠ [])).

Definition slot_file_is (expected : option string) (row : KvEntryRow) : bool :=
  match expected with
  | Some f => bool_decide (r_upstream_slot_file row = f)
  | None => true
  end.

Definition is_idle (row : KvEntryRow) : bool := bool_decide (r_state row = idle).

Definition delete_entry (s : string) (expectedUpstreamSlotFile : option string) :=
  deleteReturning s (slot_file_is expectedUpstreamSlotFile).

Definition tryDelete (s : string) (expectedUpstreamSlotFile : option string) :=
  deleteReturning s (λ row, is_idle row && slot_file_is expectedUpstreamSlotFile row).

Definition tryDeleteRowOnly (s : string) (expectedUpstreamSlotFile : option string) (rows : KvRows)
    : KvRows * option (list string) :=
  let '(rows', paths) := delete_returning_rows s
    (λ row, is_idle row && slot_file_is expectedUpstreamSlotFile row) rows in
  (rows', if decide (paths = []) then None else Some paths).

(** [UPDATE ... SET state = st WHERE sha = ? AND state IN from]; whether a
    row changed. *)
Definition update_state (from : list KvEntryState) (st : KvEntryState) (s : string) (w : KvWorld)
    : KvWorld * bool :=
  match kv_entries w !! s with
  | Some row =>
      if decide (r_state row ∈ from)
      then (with_rows (<[s := set_state st row]> (kv_entries w)) w, true)
      else (w, false)
  | None => (w, false)
  end.

Definition reserve := update_state [idle] reserved.
Definition activate := update_state [reserved] active.
Definition release := update_state [reserved; active] idle.

Definition listAll (rows : KvRows) : list KvEntry :=
  fromRow <$> js_sort (λ a b, cmp_text (r_sha a) (r_sha b)) (table_rows rows).

Definition epoch_stale (wl currentEpoch : string) (row : KvEntryRow) : bool :=
  bool_decide (r_workload row = wl) && bool_decide (r_workload_epoch row ≠ currentEpoch)
    && is_idle row.

Definition deleteEpochStale (wl currentEpoch : string) (w : KvWorld) : KvWorld * bool :=
  let gone := filter (λ '(_, row), epoch_stale wl currentEpoch row = true) (kv_entries w) in
  let kept := filter (λ '(_, row), epoch_stale wl currentEpoch row = false) (kv_entries w) in
  let paths := r_upstream_slot_file <$> table_rows gone in
  (unlinkSlotArtifactsFor paths (with_rows kept w), bool_decide (paths ≠ [])).

Definition bumpHit (s : string) (now : Z) (w : KvWorld) : KvWorld :=
  with_rows (alter (bump_hit now) s (kv_entries w)) w.

Definition setExtFlags (s : string) (flags : Z) (w : KvWorld) : KvWorld :=
  with_rows (alter (set_ext_flags flags) s (kv_entries w)) w.

(** ** policy.ts *)

Record Candidate := mkCandidate { c_sha : string; c_prefixByteLength : Z; c_tokenCount : Z }.

Record LookupParams := {
  candidatePrefixes : list Candidate;
  p_workload : string;
  p_quantBits : Z;
  p_ctxSize : Z;
  p_workloadEpoch : string
}.

Definition entryMatchesCandidate (entry : KvEntry) (candidate : Candidate) (params : LookupParams)
    : bool :=
  if quarantined entry =? 1 then false
  else if decide (workload entry ≠ p_workload params) then false
  else if negb (quantBits entry =? p_quantBits params) then false
  else if negb (ctxSize entry =? p_ctxSize params) then false
  else if negb (prefixByteLength entry =? c_prefixByteLength candidate) then false
  else if negb (tokens entry =? c_tokenCount candidate) then false
  else if decide (workloadEpoch entry ≠ p_workloadEpoch params) then false
  else true.

Fixpoint lookup_loop (params : LookupParams) (sorted : list Candidate) (w : KvWorld)
    : option KvEntry :=
  match sorted with
  | [] => None
  | candidate :: rest =>
      match findBySha (c_sha candidate) w with
      | None => lookup_loop params rest w
      | Some entry =>
          if entryMatchesCandidate entry candidate params then Some entry
          else lookup_loop params rest w
      end
  end.

Definition longestPrefixLookup (params : LookupParams) (w : KvWorld) : option KvEntry :=
  lookup_loop params
    (js_sort (λ a b, c_prefixByteLength b - c_prefixByteLength a) (candidatePrefixes params)) w.

(** *** Eviction *)

(** The transaction's state: the table, and the slot paths collected under
    the lock. *)
#[export] Instance kv_evict_store : EvictStore (KvRows * list string) KvEntry := {|
  row_bytes := payloadBytes;
  try_delete := λ e s,
    match tryDeleteRowOnly (sha e) (Some (upstreamSlotFile e)) s.1 with
    | (rows', Some slotPaths) => Some (rows', s.2 ++ slotPaths)
    | (_, None) => None
    end
|}.

(** [Math.pow(0.5, x)] *)
Context (pow_half : Q → Q).

Definition evictionScore (e : KvEntry) (now : Z) : Q :=
  half_life_score pow_half (lastUsed e) (hits e) (payloadBytes e) now.

Definition cmp_evict (now : Z) (a b : KvEntry) : Z := cmpQ (evictionScore b now) (evictionScore a now).

Record EvictionRunResult := {
  deleted : list string;
  blockedActive : list string;
  totalPayloadBytesBefore : Z;
  totalPayloadBytesAfter : Z
}.

(** [others] is what other connections to the database commit between the
    listing and the transaction. *)
Definition runEvictionIfOverBudget (others : KvRows → KvRows) (wl : string) (byteBudget now : Z)
    (w : KvWorld) : KvWorld * EvictionRunResult :=
  let workloadEntries := filter (λ e, workload e = wl) (listAll (kv_entries w)) in
  let before := sumZ payloadBytes workloadEntries in
  let w1 := with_rows (others (kv_entries w)) w in
  if before <=? byteBudget
  then (w1, {| deleted := []; blockedActive := []; totalPayloadBytesBefore := before;
               totalPayloadBytesAfter := before |})
  else
    let sorted := js_sort (cmp_evict now) workloadEntries in
    let r := evict_loop byteBudget sorted (kv_entries w1, []) before in
    let '(rows', slotPathsToUnlink) := ev_store r in
    (unlinkSlotArtifactsFor slotPathsToUnlink (with_rows rows' w1),
     {| deleted := sha <$> ev_deleted r; blockedActive := sha <$> ev_blocked r;
        totalPayloadBytesBefore := before; totalPayloadBytesAfter := ev_total r |}).

(** ** storage.ts: the integrity scan *)

Record ScanLists := { toUnquarantine : list string; toQuarantine : list string; toPurge : list string }.

Fixpoint scan_rows (graceMs now : Z) (files : gmap string Z) (rows : list KvEntryRow) : ScanLists :=
  match rows with
  | [] => {| toUnquarantine := []; toQuarantine := []; toPurge := [] |}
  | row :: rest =>
      let l := scan_rows graceMs now files rest in
      let exists_ := bool_decide (is_Some (files !! r_upstream_slot_file row)) in
      if exists_ && (r_quarantined row =? 1)
      then {| toUnquarantine := r_sha row :: toUnquarantine l; toQuarantine := toQuarantine l;
              toPurge := toPurge l |}
      else if negb exists_ && (r_quarantined row =? 0)
      then {| toUnquarantine := toUnquarantine l; toQuarantine := r_sha row :: toQuarantine l;
              toPurge := toPurge l |}
      else if negb exists_ && (r_quarantined row =? 1) && (graceMs <? now - r_last_used row)
      then {| toUnquarantine := toUnquarantine l; toQuarantine := toQuarantine l;
              toPurge := r_sha row :: toPurge l |}
      else l
  end.

(** The table after the scan, and the growth of
    [registry_integrity_errors_total]. *)
Definition runIntegrityScan (graceMs now : Z) (w : KvWorld) : KvWorld * Z :=
  let l := scan_rows graceMs now (kv_files w) (table_rows (kv_entries w)) in
  let errors := Z.of_nat (length (toQuarantine l)) in
  if bool_decide (toUnquarantine l = []) && bool_decide (toQuarantine l = [])
     && bool_decide (toPurge l = [])
  then (w, errors)
  else
    let m1 := foldl (λ m s, alter (set_quarantined 0) s m) (kv_entries w) (toUnquarantine l) in
    let m2 := foldl (λ m s, alter (set_quarantined 1) s m) m1 (toQuarantine l) in
    let m3 := foldl (λ m s, delete s m) m2 (toPurge l) in
    (with_rows m3 w, errors).

(** ** orphanSweep.ts *)

(** [path.join], and [readdirSync] on the slot directory. *)
Context (join : string → string → string).
Context (readdirSync : string → eff KvWorld (list string)).

Definition kvslot : string := ".kvslot".

(** [filename.endsWith(suffix)] with [filename.slice(0, -suffix.length)]. *)
Definition strip_suffix (suffix filename : string) : option string :=
  let n := (String.length filename - String.length suffix)%nat in
  if decide (String.length suffix ≤ String.length filename ∧
             String.substring n (String.length suffix) filename = suffix)%nat
  then Some (String.substring 0 n filename) else None.

Definition parseShaFromSlotFile (filename : string) : option string :=
  match strip_suffix kvslot filename with
  | None => None
  | Some s => if decide (String.length s = 0%nat) then None else Some s
  end.

Definition safeStat (path : string) : eff KvWorld (option Z) :=
  try_catch (m ← statSync path; mret (Some m))
    (λ code, if decide (code = "ENOENT") then mret None else throw code).

Definition safeDelete (path : string) : eff KvWorld bool :=
  try_catch (_ ← unlinkSync path; mret true)
    (λ code, if decide (code = "ENOENT") then mret false else throw code).

Record SweepResult := mkSweepResult { orphansFound : Z; orphansDeleted : Z }.

Fixpoint sweep_loop (slotDir : string) (knownShas : gset string) (cutoff : Z)
    (filenames : list string) (acc : SweepResult) : eff KvWorld SweepResult :=
  match filenames with
  | [] => mret acc
  | filename :: rest =>
      let continue := sweep_loop slotDir knownShas cutoff rest in
      match parseShaFromSlotFile filename with
      | None => continue acc
      | Some s =>
          if decide (s ∈ knownShas) then continue acc
          else
            let acc1 := mkSweepResult (orphansFound acc + 1) (orphansDeleted acc) in
            let fullPath := join slotDir filename in
            stat ← safeStat fullPath;
            match stat with
            | None => continue acc1
            | Some mtimeMs =>
                if cutoff <? mtimeMs then continue acc1
                else
                  gone ← safeDelete fullPath;
                  if (gone : bool)
                  then _ ← safeDelete (fullPath +:+ ".trailer.json");
                       continue (mkSweepResult (orphansFound acc1) (orphansDeleted acc1 + 1))
                  else continue acc1
            end
      end
  end.

(** [others] is what happens between the snapshot of the shas and the first
    file examined. *)
Definition sweepOrphanSlotFiles (others : KvWorld → KvWorld) (slotDir : string) (ttlMs now : Z)
    : eff KvWorld SweepResult := λ w,
  let cutoff := now - ttlMs in
  let knownShas := list_to_set (sha <$> listAll (kv_entries w)) in
  (filenames ← readdirSync slotDir;
   sweep_loop slotDir knownShas cutoff filenames (mkSweepResult 0 0)) (others w).
End registry.
