(* ===== verification/KvStoreProps.v ===== *)
(** * The KV-slot store: theorems

    Registry round trips and leases, longest-prefix lookup, budget eviction,
    the integrity scan and the orphan sweep of KvStore.v. *)

From S2P Require Import Prelude JsSort EvictStore KvStore.
From stdpp Require Import sorting.
From Stdlib Require Import QArith.

#[local] Open Scope string_scope.
#[local] Open Scope list_scope.
#[local] Open Scope Z_scope.

(** ** Rows and listings *)

Lemma fromDbReason_to r : fromDbReason (toDbReason r) = r.
Proof. by destruct r. Qed.

Lemma fromRow_toQueryParams e : fromRow (toQueryParams e) = e.
Proof. destruct e. unfold fromRow, toQueryParams. simpl. by rewrite fromDbReason_to. Qed.

#[export] Hint Rewrite fromDbReason_to fromRow_toQueryParams : llamactl.

Notation kv_keyed := (keyed r_sha).

Lemma elem_of_listAll m e :
  kv_keyed m → e ∈ listAll m ↔ ∃ row, m !! sha e = Some row ∧ e = fromRow row.
Proof.
  intros Hm. unfold listAll. rewrite list_elem_of_fmap. split.
  - intros (row&->&Hrow). rewrite elem_of_js_sort, elem_of_table_rows in Hrow by done. eauto.
  - intros (row&Hrow&->). exists row. split; [done|].
    rewrite elem_of_js_sort, elem_of_table_rows by done. done.
Qed.

Lemma listAll_NoDup m : kv_keyed m → NoDup (sha <$> listAll m).
Proof.
  intros Hm. unfold listAll. rewrite <-list_fmap_compose, js_sort_perm. by apply table_keys_NoDup.
Qed.

Lemma entry_unique m e1 e2 :
  kv_keyed m → e1 ∈ listAll m → e2 ∈ listAll m → sha e1 = sha e2 → e1 = e2.
Proof.
  intros Hm (r1&H1&->)%elem_of_listAll (r2&H2&->)%elem_of_listAll E; [|done..].
  rewrite E in H1. by simplify_eq.
Qed.

(** Listing part of a table is filtering the listing. *)
Lemma listAll_filter (P : string → Prop) `{!∀ s, Decision (P s)} m :
  kv_keyed m → listAll (filter (λ '(k, _), P k) m) ≡ₚ filter (λ e, P (sha e)) (listAll m).
Proof.
  intros Hm. assert (kv_keyed (filter (λ '(k, _), P k) m)) as Hm' by by apply keyed_filter.
  apply NoDup_Permutation.
  - by apply (NoDup_fmap_1 sha), listAll_NoDup.
  - apply NoDup_filter. by apply (NoDup_fmap_1 sha), listAll_NoDup.
  - intros e. rewrite list_elem_of_filter, !elem_of_listAll by done.
    setoid_rewrite map_lookup_filter_Some. naive_solver.
Qed.

(** ** Unlinking leaves the table alone *)

Lemma kv_entries_unlink_candidate ue c w : kv_entries (unlink_candidate ue c w) = kv_entries w.
Proof. unfold unlink_candidate, unlinkSync. by repeat case_match; simplify_eq/=. Qed.

Lemma kv_entries_unlinkSlotArtifacts ue p w : kv_entries (unlinkSlotArtifacts ue p w) = kv_entries w.
Proof. unfold unlinkSlotArtifacts. simpl. by rewrite !kv_entries_unlink_candidate. Qed.

Lemma kv_entries_unlinkFor ue ps w : kv_entries (unlinkSlotArtifactsFor ue ps w) = kv_entries w.
Proof.
  unfold unlinkSlotArtifactsFor. revert w. induction ps as [|p ps IH]; intros w; simpl; [done|].
  by rewrite IH, kv_entries_unlinkSlotArtifacts.
Qed.

#[export] Hint Rewrite kv_entries_unlink_candidate kv_entries_unlinkSlotArtifacts
  kv_entries_unlinkFor : llamactl.

(** A file survives unlinking unless it is one of the artifacts. *)
Lemma unlink_candidate_files ue c w p :
  kv_files (unlink_candidate ue c w) !! p =
    if decide (p = c ∧ ue c = None) then None else kv_files w !! p.
Proof.
  unfold unlink_candidate, unlinkSync. destruct (decide (p = c ∧ ue c = None)) as [[-> Hu]|Hd].
  - destruct (kv_files w !! c) eqn:Ec; rewrite ?Hu; simpl; [|done].
    by rewrite lookup_delete_eq.
  - destruct (kv_files w !! c) eqn:Ec; [destruct (ue c) eqn:Eu|]; simpl; repeat case_decide; try done.
    rewrite lookup_delete_ne by naive_solver. done.
Qed.

Lemma unlinkFor_files ue ps w p :
  kv_files (unlinkSlotArtifactsFor ue ps w) !! p =
    if decide ((p ∈ ps ∨ p ∈ (λ q, q +:+ ".trailer.json") <$> ps) ∧ ue p = None)
    then None else kv_files w !! p.
Proof.
  unfold unlinkSlotArtifactsFor. revert w. induction ps as [|q ps IH]; intros w; simpl; [done|].
  rewrite IH. unfold unlinkSlotArtifacts. simpl. rewrite !unlink_candidate_files.
  repeat case_decide; rewrite ?elem_of_cons in *; naive_solver.
Qed.

(** ** The registry as the eviction loop sees it *)

Lemma tryDeleteRowOnly_Some s f rows rows' paths :
  tryDeleteRowOnly s (Some f) rows = (rows', Some paths) →
  ∃ row, rows !! s = Some row ∧ r_state row = idle ∧ r_upstream_slot_file row = f ∧
    rows' = delete s rows ∧ paths = [f].
Proof.
  unfold tryDeleteRowOnly, delete_returning_rows, is_idle, slot_file_is.
  destruct (rows !! s) as [row|] eqn:Er; [|done].
  destruct (_ && _) eqn:Ec; [|done]. apply andb_true_iff in Ec as [Hi Hf].
  apply bool_decide_eq_true in Hi, Hf. intros. simplify_eq/=. eauto 10.
Qed.

Lemma tryDeleteRowOnly_None s f rows rows' :
  tryDeleteRowOnly s (Some f) rows = (rows', None) →
  rows' = rows ∧ ∀ row, rows !! s = Some row → r_state row = idle → r_upstream_slot_file row ≠ f.
Proof.
  unfold tryDeleteRowOnly, delete_returning_rows, is_idle, slot_file_is.
  destruct (rows !! s) as [row|] eqn:Er; [|intros; simplify_eq/=; by split].
  destruct (_ && _) eqn:Ec; [done|]. intros [= ->]. split; [done|].
  intros row' [= <-] Hi Hf. rewrite !bool_decide_true in Ec by done. done.
Qed.

#[export] Instance kv_evict_laws :
    EvictLaws (KvRows * list string) KvEntry string KvEntryRow.
Proof.
  refine {|
    rows := fst;
    entry_key := sha;
    deletable row e := r_state row = idle ∧ r_upstream_slot_file row = upstreamSlotFile e
  |}.
  - intros e [m ps] s' H. simpl in *.
    destruct (tryDeleteRowOnly _ _ m) as [m' [paths|]] eqn:E; [|done].
    injection H as <-. apply tryDeleteRowOnly_Some in E as (row&?&?&?&->&->). simpl. eauto.
  - intros e [m ps] H row Hrow [Hi Hf]. simpl in *.
    destruct (tryDeleteRowOnly _ _ m) as [m' [paths|]] eqn:E; [done|].
    apply tryDeleteRowOnly_None in E as [_ Hn]. by eapply Hn.
Defined.

(** ** Eviction *)
Section eviction.
Context (unlink_error : string → option string) (pow_half : Q → Q).
Implicit Types (m : KvRows) (w : KvWorld).

Definition workloadRows (wl : string) m : list KvEntry := filter (λ e, workload e = wl) (listAll m).

Lemma elem_of_workloadRows wl m e :
  kv_keyed m → e ∈ workloadRows wl m ↔
    workload e = wl ∧ ∃ row, m !! sha e = Some row ∧ e = fromRow row.
Proof. intros Hm. unfold workloadRows. by rewrite list_elem_of_filter, elem_of_listAll. Qed.

Lemma workloadRows_NoDup wl m : kv_keyed m → NoDup (sha <$> workloadRows wl m).
Proof.
  intros Hm. eapply sublist_NoDup; [by apply (listAll_NoDup m)|].
  apply fmap_sublist, sublist_filter.
Qed.

Definition victims_order now wl m := js_sort (cmp_evict pow_half now) (workloadRows wl m).

Lemma victims_order_keys now wl m : kv_keyed m → NoDup (sha <$> victims_order now wl m).
Proof. intros Hm. unfold victims_order. rewrite js_sort_perm. by apply workloadRows_NoDup. Qed.

(** The slot paths collected are those of the entries deleted. *)
Lemma evict_loop_paths budget sorted m paths total :
  let r := evict_loop budget sorted (m, paths) total in
  (ev_store r).2 = paths ++ (upstreamSlotFile <$> ev_deleted r).
Proof.
  revert m paths total. induction sorted as [|e rest IH]; intros m paths total; simpl;
    [by rewrite app_nil_r|].
  destruct (total <=? budget); simpl; [by rewrite app_nil_r|].
  destruct (tryDeleteRowOnly _ _ m) as [m' [ps|]] eqn:E; simpl; [|apply IH].
  rewrite IH. apply tryDeleteRowOnly_Some in E as (row&_&_&_&_&->). by rewrite <-app_assoc.
Qed.

(** A run, as the loop over the listing. *)
Definition eviction_loop others wl budget now w :=
  evict_loop budget (victims_order now wl (kv_entries w)) (others (kv_entries w), [])
    (sumZ payloadBytes (workloadRows wl (kv_entries w))).

(** The run is the loop in every case: within budget the loop stops at once. *)
Lemma run_is_loop others wl budget now w :
  let r := eviction_loop others wl budget now w in
  runEvictionIfOverBudget unlink_error pow_half others wl budget now w =
    (unlinkSlotArtifactsFor unlink_error (upstreamSlotFile <$> ev_deleted r)
       (with_rows (ev_store r).1 w),
     {| deleted := sha <$> ev_deleted r; blockedActive := sha <$> ev_blocked r;
        totalPayloadBytesBefore := sumZ payloadBytes (workloadRows wl (kv_entries w));
        totalPayloadBytesAfter := ev_total r |}).
Proof.
  unfold runEvictionIfOverBudget, eviction_loop, victims_order, workloadRows.
  set (W := filter _ _). set (sorted := js_sort _ W). set (before := sumZ _ W).
  pose proof (evict_loop_paths budget sorted (others (kv_entries w)) [] before) as Hp.
  cbv zeta in *. destruct (before <=? budget) eqn:Eb.
  - assert (∀ s, evict_loop budget sorted s before =
      {| ev_store := s; ev_total := before; ev_deleted := []; ev_blocked := [] |}) as ->;
      [|by destruct w].
    intros s. destruct sorted; simpl; by rewrite ?Eb.
  - destruct (ev_store _) as [rows' paths] eqn:Es. simpl in *. by rewrite Hp.
Qed.

Lemma loop_entries others wl budget now w :
  let r := eviction_loop others wl budget now w in
  (ev_store r).1 = filter (λ '(k, _), k ∉ sha <$> ev_deleted r) (others (kv_entries w)).
Proof.
  exact (evict_loop_rows budget (victims_order now wl (kv_entries w)) (others (kv_entries w), [])
    (sumZ payloadBytes (workloadRows wl (kv_entries w)))).
Qed.

Lemma loop_deleted others wl budget now w e :
  kv_keyed (kv_entries w) →
  e ∈ ev_deleted (eviction_loop others wl budget now w) →
  e ∈ workloadRows wl (kv_entries w) ∧
  ∃ row, others (kv_entries w) !! sha e = Some row ∧ r_state row = idle ∧
    r_upstream_slot_file row = upstreamSlotFile e.
Proof.
  intros Hm He. split; [|by apply evict_loop_deleted in He].
  edestruct (evict_loop_processed budget (victims_order now wl (kv_entries w)))
    as (pre&post&Hs&_&_&Hsub&_).
  rewrite <-(elem_of_js_sort (cmp_evict pow_half now)). unfold victims_order in Hs. rewrite Hs.
  apply elem_of_app. left. by eapply elem_of_sublist.
Qed.

(** With nothing else going on, an idle listed row is deleted, or comes after
    every row deleted and the run ended within budget. *)
Lemma loop_idle_left wl budget now w e :
  let r := eviction_loop id wl budget now w in
  kv_keyed (kv_entries w) → e ∈ workloadRows wl (kv_entries w) → state e = idle →
  e ∉ ev_deleted r →
  ev_total r ≤ budget ∧ ∀ v, v ∈ ev_deleted r → (evictionScore pow_half e now <= evictionScore pow_half v now)%Q.
Proof.
  intros r Hm He Hidle Hnd.
  pose proof (evict_loop_processed budget (victims_order now wl (kv_entries w)) (id (kv_entries w), [])
    (sumZ payloadBytes (workloadRows wl (kv_entries w)))) as (pre&post&Hs&Hp&Ht&Hsub&_).
  fold (eviction_loop id wl budget now w) in Hp, Ht, Hsub. fold r in Hp, Ht, Hsub.
  assert (e ∈ post) as Hpost.
  { assert (e ∈ pre ++ post) as [Hpre|?]%elem_of_app; [|exfalso|done].
    { rewrite <-Hs. unfold victims_order. by rewrite elem_of_js_sort. }
    rewrite <-Hp, elem_of_app in Hpre. destruct Hpre as [?|Hb]; [done|].
    apply elem_of_workloadRows in He as (_&row&Hrow&->); [|done].
    refine (evict_loop_blocked _ _ _ _ _ (victims_order_keys now wl _ Hm) Hb row Hrow _).
    by split. }
  split; [apply Ht; by destruct post; [apply elem_of_nil in Hpost|]|].
  intros v Hv. apply cmpQ_le.
  assert (StronglySorted (cmp_le (cmp_evict pow_half now)) (pre ++ post)) as Hsorted.
  { rewrite <-Hs. apply (js_sort_sorted _ (λ _, True)); [apply cmp_ok_score|by apply Forall_true]. }
  refine (StronglySorted_app_1_elem_of _ _ _ _ _ Hsorted _ Hpost). by eapply elem_of_sublist.
Qed.

(** The rows of the workload left after the run. *)
Lemma loop_rows_left others wl budget now w :
  let r := eviction_loop others wl budget now w in
  kv_keyed (others (kv_entries w)) →
  workloadRows wl (ev_store r).1 ≡ₚ
    filter (λ e, sha e ∉ sha <$> ev_deleted r) (workloadRows wl (others (kv_entries w))).
Proof.
  intros r Hm. unfold r. rewrite loop_entries. unfold workloadRows.
  rewrite (listAll_filter (λ k, k ∉ sha <$> ev_deleted (eviction_loop others wl budget now w))) by done.
  rewrite !list_filter_filter. erewrite list_filter_iff; [done|]. intros e. simpl. tauto.
Qed.

Lemma loop_deleted_perm wl budget now w :
  let r := eviction_loop id wl budget now w in
  kv_keyed (kv_entries w) →
  ev_deleted r ≡ₚ filter (λ e, sha e ∈ sha <$> ev_deleted r) (workloadRows wl (kv_entries w)).
Proof.
  intros r Hm.
  assert (NoDup (ev_deleted r)) as Hnd.
  { edestruct (evict_loop_processed budget (victims_order now wl (kv_entries w)))
      as (pre&post&Hs&_&_&Hsub&_).
    eapply sublist_NoDup; [|exact Hsub]. eapply sublist_NoDup;
      [eapply (NoDup_fmap_1 sha), victims_order_keys; exact Hm|].
    rewrite Hs. by apply sublist_inserts_r. }
  apply NoDup_Permutation; [done| |].
  { apply NoDup_filter. by apply (NoDup_fmap_1 sha), workloadRows_NoDup. }
  intros e. rewrite list_elem_of_filter. split.
  - intros He. split; [by apply list_elem_of_fmap_2|]. by apply (loop_deleted id wl budget now w e).
  - intros [(v&Hv&Hin)%list_elem_of_fmap He].
    destruct (loop_deleted id wl budget now w v Hm Hin) as [Hvw _].
    apply elem_of_workloadRows in He as (_&r1&H1&->); [|done].
    apply elem_of_workloadRows in Hvw as (_&r2&H2&->); [|done].
    rewrite <-Hv in H2. by simplify_eq.
Qed.

(** An eviction run undisturbed by other connections reports
    the workload's payload before and after, removes exactly the rows it
    lists as deleted, each an idle row of the workload, and ends within
    budget unless every row left to the workload is in use. *)
Theorem eviction_reaches_budget wl budget now w :
  kv_keyed (kv_entries w) →
  let '(w', r) := runEvictionIfOverBudget unlink_error pow_half id wl budget now w in
  totalPayloadBytesBefore r = sumZ payloadBytes (workloadRows wl (kv_entries w)) ∧
  totalPayloadBytesAfter r = sumZ payloadBytes (workloadRows wl (kv_entries w')) ∧
  (∀ s, kv_entries w' !! s = if decide (s ∈ deleted r) then None else kv_entries w !! s) ∧
  (∀ s, s ∈ deleted r → ∃ row, kv_entries w !! s = Some row ∧ r_workload row = wl ∧ r_state row = idle) ∧
  (totalPayloadBytesAfter r ≤ budget ∨ ∀ e, e ∈ workloadRows wl (kv_entries w') → state e ≠ idle).
Proof.
  intros Hm. rewrite run_is_loop. simpl. set (r := eviction_loop id wl budget now w).
  rewrite kv_entries_unlinkFor. simpl. split_and!; [done| | | |].
  - unfold r. rewrite (sumZ_perm payloadBytes _ _ (loop_rows_left id wl budget now w Hm)).
    pose proof (evict_loop_total budget (victims_order now wl (kv_entries w)) (id (kv_entries w), [])
      (sumZ payloadBytes (workloadRows wl (kv_entries w)))) as Ht.
    cbv zeta in Ht. fold (eviction_loop id wl budget now w) r in Ht. fold r. rewrite Ht.
    rewrite (sumZ_filter_split payloadBytes (λ e, sha e ∈ sha <$> ev_deleted r) (workloadRows wl (kv_entries w))).
    pose proof (loop_deleted_perm wl budget now w Hm) as Hd. cbv zeta in Hd. fold r in Hd.
    rewrite <-(sumZ_perm payloadBytes _ _ Hd).
    change (row_bytes (E:=KvEntry)) with payloadBytes. unfold id. lia.
  - intros s. unfold r. rewrite loop_entries. fold r. unfold id. case_decide as Hs.
    + apply map_lookup_filter_None. right. naive_solver.
    + apply option_eq. intros row. rewrite map_lookup_filter_Some. naive_solver.
  - intros s (e&->&He)%list_elem_of_fmap.
    destruct (loop_deleted id wl budget now w e Hm He) as [Hw (row&Hrow&Hi&_)].
    exists row. split_and!; [done| |done].
    apply elem_of_workloadRows in Hw as (Hwl&row'&Hr'&->); [|done]. unfold id in Hrow. by simplify_eq/=.
  - destruct (decide (ev_total r ≤ budget)) as [|Hgt]; [by left|right].
    intros e He Hidle. unfold r in He. rewrite (loop_rows_left id wl budget now w Hm) in He.
    apply list_elem_of_filter in He as [Hnd He]. apply Hgt.
    apply (loop_idle_left wl budget now w e Hm He Hidle). intros Hin. apply Hnd.
    by apply list_elem_of_fmap_2.
Qed.

(** What the run does to a row of the table it deletes from. *)
Lemma run_row others wl budget now w s row :
  kv_keyed (kv_entries w) → others (kv_entries w) !! s = Some row →
  let w' := (runEvictionIfOverBudget unlink_error pow_half others wl budget now w).1 in
  kv_entries w' !! s = Some row ∨
  (kv_entries w' !! s = None ∧ r_state row = idle ∧
   ∃ listed, kv_entries w !! s = Some listed ∧ r_workload listed = wl ∧
     r_upstream_slot_file row = r_upstream_slot_file listed).
Proof.
  intros Hm Hs. rewrite run_is_loop. simpl. set (r := eviction_loop others wl budget now w).
  rewrite kv_entries_unlinkFor. simpl. unfold r. rewrite loop_entries. fold r.
  destruct (decide (s ∈ sha <$> ev_deleted r)) as [Hd|Hd].
  - right. split; [apply map_lookup_filter_None; naive_solver|].
    apply list_elem_of_fmap in Hd as (e&->&He).
    destruct (loop_deleted others wl budget now w e Hm He) as [Hw (row'&Hrow'&Hi&Hf)].
    simplify_eq. split; [done|]. apply elem_of_workloadRows in Hw as (Hwl&l&Hl&->); [|done].
    exists l. by split_and!.
  - left. by apply map_lookup_filter_Some.
Qed.

Lemma run_row_None others wl budget now w s :
  others (kv_entries w) !! s = None →
  kv_entries (runEvictionIfOverBudget unlink_error pow_half others wl budget now w).1 !! s = None.
Proof.
  intros Hs. rewrite run_is_loop. simpl. rewrite kv_entries_unlinkFor. simpl. rewrite loop_entries.
  apply map_lookup_filter_None. by left.
Qed.

(** Whatever other connections commit between the listing and
    the delete transaction, the run removes a row only if it is idle in the
    table it deletes from and still owns the slot file listed for it; rows in
    use and rows re-saved meanwhile are kept as they are, and a file
    disappears only if it is a removed row's slot file or its trailer. *)
Theorem eviction_spares_in_use others wl budget now w :
  kv_keyed (kv_entries w) →
  let '(w', _) := runEvictionIfOverBudget unlink_error pow_half others wl budget now w in
  (∀ s row, others (kv_entries w) !! s = Some row →
    kv_entries w' !! s = Some row ∨
    (kv_entries w' !! s = None ∧ r_state row = idle ∧
     ∃ listed, kv_entries w !! s = Some listed ∧ r_workload listed = wl ∧
       r_upstream_slot_file row = r_upstream_slot_file listed)) ∧
  (∀ s, others (kv_entries w) !! s = None → kv_entries w' !! s = None) ∧
  (∀ p, kv_files w' !! p = kv_files w !! p ∨
    ∃ s row, others (kv_entries w) !! s = Some row ∧ kv_entries w' !! s = None ∧
      (p = r_upstream_slot_file row ∨ p = r_upstream_slot_file row +:+ ".trailer.json")).
Proof.
  intros Hm. destruct (runEvictionIfOverBudget _ _ _ _ _ _ w) as [w' r0] eqn:Erun.
  assert (w' = (runEvictionIfOverBudget unlink_error pow_half others wl budget now w).1) as Hw'
    by by rewrite Erun.
  split_and!; [intros s row; rewrite Hw'; by apply run_row|intros s; rewrite Hw'; apply run_row_None|].
  rewrite run_is_loop in Erun. injection Erun as <- _. set (r := eviction_loop others wl budget now w).
  rewrite kv_entries_unlinkFor. simpl. unfold r. rewrite loop_entries. fold r.
  intros p. rewrite unlinkFor_files. simpl. case_decide as Hp; [|by left]. right.
  assert (∃ e, e ∈ ev_deleted r ∧ (p = upstreamSlotFile e ∨ p = upstreamSlotFile e +:+ ".trailer.json"))
      as (e&He&Hpe).
    { destruct Hp as [[(e&->&?)%list_elem_of_fmap|(q&->&(e&->&?)%list_elem_of_fmap)%list_elem_of_fmap] _]; eauto. }
    destruct (loop_deleted others wl budget now w e Hm He) as [_ (row&Hrow&_&Hf)].
    exists (sha e), row. rewrite Hf. split_and!; [done| |done].
    apply map_lookup_filter_None. right. intros x _ Hx. apply Hx. by apply list_elem_of_fmap_2.
Qed.

(** Victims go in descending score order and no more of them
    than needed: every idle row of the workload that is kept scores at most
    what any victim does, and before each deletion the total was still over
    budget. *)
Theorem eviction_order wl budget now w :
  kv_keyed (kv_entries w) →
  let '(_, r) := runEvictionIfOverBudget unlink_error pow_half id wl budget now w in
  ∃ victims, deleted r = sha <$> victims ∧
    (∀ v, v ∈ victims → v ∈ workloadRows wl (kv_entries w)) ∧
    (∀ v e, v ∈ victims → e ∈ workloadRows wl (kv_entries w) → state e = idle → sha e ∉ deleted r →
      (evictionScore pow_half e now <= evictionScore pow_half v now)%Q) ∧
    (∀ d x k, victims = d ++ x :: k → budget < totalPayloadBytesBefore r - sumZ payloadBytes d).
Proof.
  intros Hm. rewrite run_is_loop. simpl. set (r := eviction_loop id wl budget now w).
  exists (ev_deleted r). split_and!; [done| | |].
  - intros v Hv. by apply (loop_deleted id wl budget now w v Hm Hv).
  - intros v e Hv He Hi Hnd.
    refine (proj2 (loop_idle_left wl budget now w e Hm He Hi _) v Hv).
    intros Hin. apply Hnd. by apply list_elem_of_fmap_2.
  - intros d x k Hd. exact (evict_loop_minimal budget _ (id (kv_entries w), []) _ d x k Hd).
Qed.
End eviction.

(** ** Witnesses *)

Definition ex_entry (s wl : string) (bytes used : Z) (st : KvEntryState) : KvEntry := {|
  sha := s; workload := wl; model := None; upstreamSlotFile := "/slots/" +:+ s +:+ ".kvslot";
  quantBits := 8; tokens := 10; ctxSize := 4096; hits := 0; createdAt := 0; lastUsed := used;
  payloadBytes := bytes; textBytes := 10; reason := cold; prefixByteLength := 10;
  workloadEpoch := "e1"; quarantined := 0; state := st; firstResponseToken := None; extFlags := 0 |}.

(** Three rows of workload w, the largest in use, and their files. *)
Definition ex_world : KvWorld :=
  let put e w := KvStore.insert e w in
  put (ex_entry "a" "w" 100 0 idle) (put (ex_entry "b" "w" 500 0 active) (put (ex_entry "c" "w" 50 1000 idle)
    {| kv_entries := ∅;
       kv_files := list_to_map [("/slots/a.kvslot", 5); ("/slots/b.kvslot", 5); ("/slots/c.kvslot", 5)];
       kv_warnings := [] |})).

Lemma ex_world_keyed : kv_keyed (kv_entries ex_world).
Proof.
  refine (keyed_insert r_sha (toQueryParams (ex_entry "a" "w" 100 0 idle)) _ _).
  refine (keyed_insert r_sha (toQueryParams (ex_entry "b" "w" 500 0 active)) _ _).
  refine (keyed_insert r_sha (toQueryParams (ex_entry "c" "w" 50 1000 idle)) _ _).
  apply keyed_empty.
Defined.

Definition no_error (p : string) : option string := None.
Definition half_once (q : Q) : Q := 1.

Lemma eviction_reaches_budget_witness :
  let '(w', r) := runEvictionIfOverBudget no_error half_once id "w" 550 2000 ex_world in
  deleted r = ["a"] ∧ totalPayloadBytesBefore r = 650 ∧ totalPayloadBytesAfter r = 550 ∧
  (totalPayloadBytesAfter r ≤ 550 ∨ ∀ e, e ∈ workloadRows "w" (kv_entries w') → state e ≠ idle).
Proof.
  pose proof (eviction_reaches_budget no_error half_once "w" 550 2000 ex_world ex_world_keyed) as H.
  destruct (runEvictionIfOverBudget no_error half_once id "w" 550 2000 ex_world) as [w' r] eqn:E.
  assert (deleted r = ["a"] ∧ totalPayloadBytesBefore r = 650 ∧ totalPayloadBytesAfter r = 550) as (H1&H2&H3).
  { replace r with (runEvictionIfOverBudget no_error half_once id "w" 550 2000 ex_world).2 by (by rewrite E).
    vm_compute. done. }
  destruct H as (_&_&_&_&H). split_and!; [exact H1|exact H2|exact H3|exact H].
Defined.

(** Between listing and deleting, somebody takes a lease on the victim. *)
Lemma eviction_spares_in_use_witness :
  let '(w', r) := runEvictionIfOverBudget no_error half_once (alter (set_state reserved) "a") "w" 550 2000
    ex_world in
  blockedActive r = ["b"; "a"] ∧ deleted r = ["c"] ∧
  ∃ row, kv_entries w' !! "a" = Some row.
Proof.
  pose proof (eviction_spares_in_use no_error half_once (alter (set_state reserved) "a") "w" 550 2000
    ex_world ex_world_keyed) as H.
  destruct (runEvictionIfOverBudget no_error half_once (alter (set_state reserved) "a") "w" 550 2000 ex_world)
    as [w' r] eqn:E.
  assert (blockedActive r = ["b"; "a"] ∧ deleted r = ["c"]) as [H1 H2].
  { replace r with (runEvictionIfOverBudget no_error half_once (alter (set_state reserved) "a") "w" 550 2000 ex_world).2
      by (by rewrite E). vm_compute. done. }
  destruct H as [H _].
  assert (alter (set_state reserved) "a" (kv_entries ex_world) !! "a" =
    Some (set_state reserved (toQueryParams (ex_entry "a" "w" 100 0 idle)))) as Ha by (vm_compute; reflexivity).
  split_and!; [exact H1|exact H2|].
  destruct (H "a" _ Ha) as [Hk|(_&Hi&_)]; [by eexists|]. discriminate Hi.
Defined.

Lemma eviction_order_witness :
  let '(_, r) := runEvictionIfOverBudget no_error half_once id "w" 550 2000 ex_world in
  ∃ victims, deleted r = sha <$> victims ∧
    ∀ d x k, victims = d ++ x :: k → 550 < totalPayloadBytesBefore r - sumZ payloadBytes d.
Proof.
  pose proof (eviction_order no_error half_once "w" 550 2000 ex_world ex_world_keyed) as H.
  destruct (runEvictionIfOverBudget no_error half_once id "w" 550 2000 ex_world) as [w' r].
  destruct H as (victims&H1&_&_&H2). exists victims. split; [exact H1|exact H2].
Defined.
