(* ===== verification/KvLifecycle.v ===== *)
(** * The KV-slot store: leases, lookup, scan and sweep

    How a row lives between insert and removal: the lease protocol
    (reserve, activate, release) against every other registry operation,
    what the lookup returns, what the integrity scan makes of the table, and
    what the orphan sweep may delete. *)

From S2P Require Import Prelude JsSort EvictStore KvStore KvStoreProps.
From stdpp Require Import sorting.
From Stdlib Require Import QArith.

#[local] Open Scope string_scope.
#[local] Open Scope list_scope.
#[local] Open Scope Z_scope.

(** ** Longest-prefix lookup *)
Section lookup.
Implicit Types (w : KvWorld) (params : LookupParams).

(** What makes a row usable for a candidate prefix. *)
Definition usable params (c : Candidate) (e : KvEntry) : Prop :=
  quarantined e ≠ 1 ∧ workload e = p_workload params ∧ quantBits e = p_quantBits params ∧
  ctxSize e = p_ctxSize params ∧ prefixByteLength e = c_prefixByteLength c ∧
  tokens e = c_tokenCount c ∧ workloadEpoch e = p_workloadEpoch params.

Lemma entryMatchesCandidate_usable e c params :
  entryMatchesCandidate e c params = true ↔ usable params c e.
Proof.
  unfold entryMatchesCandidate, usable. rewrite <-!Z.eqb_eq.
  destruct (quarantined e =? 1); [naive_solver|].
  case_decide; [naive_solver|].
  destruct (quantBits e =? p_quantBits params); [|naive_solver].
  destruct (ctxSize e =? p_ctxSize params); [|naive_solver].
  destruct (prefixByteLength e =? c_prefixByteLength c); [|naive_solver].
  destruct (tokens e =? c_tokenCount c); [|naive_solver]. simpl.
  case_decide; [naive_solver|]. split; [|done]. intros _. split_and!; try done; by apply dec_stable.
Qed.

Lemma lookup_loop_spec params cs w :
  match lookup_loop params cs w with
  | Some e => ∃ pre c post, cs = pre ++ c :: post ∧ get (c_sha c) w = Some e ∧ usable params c e ∧
      ∀ c' e', c' ∈ pre → get (c_sha c') w = Some e' → ¬ usable params c' e'
  | None => ∀ c e, c ∈ cs → get (c_sha c) w = Some e → ¬ usable params c e
  end.
Proof.
  induction cs as [|c cs IH]; simpl; [by intros ? ? ?%elem_of_nil|]. unfold findBySha.
  assert (∀ c0 e0, c0 ∈ [] → get (c_sha c0) w = Some e0 → ¬ usable params c0 e0) as Hnil
    by (by intros ? ? ?%elem_of_nil).
  destruct (get (c_sha c) w) as [e|] eqn:Eg; [destruct (entryMatchesCandidate e c params) eqn:Em|].
  - exists [], c, cs. apply entryMatchesCandidate_usable in Em. by split_and!.
  - assert (¬ usable params c e) as Hc by (rewrite <-entryMatchesCandidate_usable; congruence).
    destruct (lookup_loop params cs w) as [r|].
    + destruct IH as (pre&c1&post&->&Hg&Hu&Hpre). exists (c :: pre), c1, post. split_and!; [done..|].
      intros c' e' [->|Hin]%elem_of_cons Hg'; [by simplify_eq|by apply Hpre].
    + intros c' e' [->|Hin]%elem_of_cons Hg'; [by simplify_eq|by apply IH].
  - destruct (lookup_loop params cs w) as [r|].
    + destruct IH as (pre&c1&post&->&Hg&Hu&Hpre). exists (c :: pre), c1, post. split_and!; [done..|].
      intros c' e' [->|Hin]%elem_of_cons Hg'; [congruence|by apply Hpre].
    + intros c' e' [->|Hin]%elem_of_cons Hg'; [congruence|by apply IH].
Qed.

(** The lookup returns a stored row that matches one of the
    candidates in workload, quantisation, context size, epoch, token count
    and prefix length and is not quarantined, and no candidate with such a
    row names a longer prefix; it returns null only when no candidate has
    such a row. *)
Theorem longest_prefix_correct params w :
  match longestPrefixLookup params w with
  | Some e =>
      (∃ c, c ∈ candidatePrefixes params ∧ get (c_sha c) w = Some e ∧ usable params c e) ∧
      ∀ c' e', c' ∈ candidatePrefixes params → get (c_sha c') w = Some e' → usable params c' e' →
        prefixByteLength e' ≤ prefixByteLength e
  | None => ∀ c e, c ∈ candidatePrefixes params → get (c_sha c) w = Some e → ¬ usable params c e
  end.
Proof.
  unfold longestPrefixLookup. set (cmp := λ a b, _).
  pose proof (lookup_loop_spec params (js_sort cmp (candidatePrefixes params)) w) as H.
  assert (StronglySorted (cmp_le cmp) (js_sort cmp (candidatePrefixes params))) as Hs.
  { apply (js_sort_sorted _ (λ _, True)); [|by apply Forall_true].
    split; unfold cmp_le, cmp; intros; lia. }
  destruct (lookup_loop _ _ w) as [e|].
  - destruct H as (pre&c&post&Hsplit&Hg&Hu&Hpre). split.
    + exists c. split_and!; [|done..]. rewrite <-(elem_of_js_sort cmp), Hsplit. set_solver.
    + intros c' e' Hc' Hg' Hu'. rewrite <-(elem_of_js_sort cmp), Hsplit in Hc'.
      pose proof Hu as (_&_&_&_&->&_). pose proof Hu' as (_&_&_&_&->&_).
      apply elem_of_app in Hc' as [Hc'|[->|Hc']%elem_of_cons]; [by destruct (Hpre c' e')|lia|].
      rewrite Hsplit in Hs. apply StronglySorted_app_1_r in Hs.
      apply StronglySorted_inv in Hs as [_ Hall]. rewrite Forall_forall in Hall.
      specialize (Hall c' Hc'). unfold cmp_le, cmp in Hall. lia.
  - intros c e Hc. apply H. by rewrite elem_of_js_sort.
Qed.
End lookup.

(** ** Registry operations *)

Inductive KvOp :=
| OpInsert (e : KvEntry)
| OpDelete (s : string) (expected : option string)
| OpReserve (s : string)
| OpActivate (s : string)
| OpRelease (s : string)
| OpTryDelete (s : string) (expected : option string)
| OpDeleteEpochStale (wl epoch : string)
| OpBumpHit (s : string) (now : Z)
| OpSetExtFlags (s : string) (flags : Z)
| OpEvict (wl : string) (budget now : Z)
| OpScan (graceMs now : Z).

Section leases.
Context (unlink_error : string → option string) (pow_half : Q → Q).
Implicit Types (w : KvWorld).

Definition exec_op (op : KvOp) (w : KvWorld) : KvWorld :=
  match op with
  | OpInsert e => KvStore.insert e w
  | OpDelete s f => (delete_entry unlink_error s f w).1
  | OpReserve s => (reserve s w).1
  | OpActivate s => (activate s w).1
  | OpRelease s => (release s w).1
  | OpTryDelete s f => (tryDelete unlink_error s f w).1
  | OpDeleteEpochStale wl epoch => (deleteEpochStale unlink_error wl epoch w).1
  | OpBumpHit s now => bumpHit s now w
  | OpSetExtFlags s flags => setExtFlags s flags w
  | OpEvict wl budget now => (runEvictionIfOverBudget unlink_error pow_half id wl budget now w).1
  | OpScan graceMs now => (runIntegrityScan graceMs now w).1
  end.

Definition exec_ops (ops : list KvOp) w : KvWorld := foldl (λ w' op, exec_op op w') w ops.

(** The operations that end the lease on [s] whatever its state: the holder's
    own release, an unconditional delete, an upsert of the row, and the scan
    at start-up. *)
Definition ends_lease (s : string) (op : KvOp) : bool :=
  match op with
  | OpInsert e => bool_decide (sha e = s)
  | OpDelete s' _ | OpRelease s' => bool_decide (s' = s)
  | OpScan _ _ => true
  | _ => false
  end.

(** *** Well-formedness *)

Lemma deleteReturning_entries s cond w :
  kv_entries (deleteReturning unlink_error s cond w).1 = (delete_returning_rows s cond (kv_entries w)).1.
Proof.
  unfold deleteReturning. destruct (delete_returning_rows _ _ _). simpl.
  by rewrite kv_entries_unlinkFor.
Qed.

Lemma delete_returning_keyed s cond m : kv_keyed m → kv_keyed (delete_returning_rows s cond m).1.
Proof. intros Hm. unfold delete_returning_rows. repeat case_match; simpl; auto with llamactl. Qed.

Lemma keyed_foldl_alter f l m :
  (∀ r, r_sha (f r) = r_sha r) → kv_keyed m → kv_keyed (foldl (λ m s, alter f s m) m l).
Proof. intros Hf. revert m. induction l; intros m Hm; simpl; [done|]. auto using keyed_alter. Qed.

Lemma keyed_foldl_delete l m : kv_keyed m → kv_keyed (foldl (λ m s, delete s m) m l).
Proof. revert m. induction l; intros m Hm; simpl; [done|]. auto using keyed_delete. Qed.

Lemma update_state_keyed from st s w : kv_keyed (kv_entries w) → kv_keyed (kv_entries (update_state from st s w).1).
Proof.
  intros Hm. unfold update_state. destruct (_ !! s) as [row|] eqn:Es; [case_decide|]; simpl; try done.
  rewrite <-(Hm _ _ Es : r_sha row = s) at 1. by apply (keyed_insert r_sha (set_state st row)).
Qed.

Lemma exec_op_keyed op w : kv_keyed (kv_entries w) → kv_keyed (kv_entries (exec_op op w)).
Proof.
  intros Hm. destruct op; simpl; try by apply update_state_keyed.
  - by apply (keyed_insert r_sha (toQueryParams e)).
  - unfold delete_entry. rewrite deleteReturning_entries. by apply delete_returning_keyed.
  - unfold tryDelete. rewrite deleteReturning_entries. by apply delete_returning_keyed.
  - rewrite kv_entries_unlinkFor. simpl. by apply keyed_filter.
  - by apply keyed_alter.
  - by apply keyed_alter.
  - rewrite run_is_loop. simpl. rewrite kv_entries_unlinkFor. simpl. rewrite loop_entries.
    by apply keyed_filter.
  - unfold runIntegrityScan. case_match; simpl; [done|]. by apply keyed_foldl_delete, keyed_foldl_alter, keyed_foldl_alter.
Qed.

(** *** Leases *)

(** The columns that say what the slot is. *)
Definition same_slot (r1 r2 : KvEntryRow) : Prop :=
  r_sha r1 = r_sha r2 ∧ r_workload r1 = r_workload r2 ∧
  r_upstream_slot_file r1 = r_upstream_slot_file r2 ∧ r_tokens r1 = r_tokens r2 ∧
  r_prefix_byte_length r1 = r_prefix_byte_length r2 ∧ r_workload_epoch r1 = r_workload_epoch r2.

#[local] Instance same_slot_preorder : PreOrder same_slot.
Proof. split; [by intros r|]. intros r1 r2 r3 (?&?&?&?&?&?) (?&?&?&?&?&?). unfold same_slot. by split_and!; etrans. Qed.

Definition leased (s : string) (row : KvEntryRow) w : Prop :=
  ∃ row', kv_entries w !! s = Some row' ∧ same_slot row row' ∧ r_state row' ≠ idle.

Lemma leased_deleteReturning s row s' cond w :
  leased s row w → (s' = s → ∀ r, cond r = true → r_state r = idle) →
  leased s row (deleteReturning unlink_error s' cond w).1.
Proof.
  intros (r&Hr&Hs&Hi) Hc. exists r. split; [|done]. rewrite deleteReturning_entries.
  unfold delete_returning_rows. destruct (decide (s' = s)) as [->|Hne].
  - rewrite Hr. destruct (cond r) eqn:Ec; [|done]. by destruct Hi; apply Hc.
  - repeat case_match; simpl; [by rewrite lookup_delete_ne|done..].
Qed.

Lemma leased_update_state s row from st s' w :
  leased s row w → (s' = s → st ≠ idle) → leased s row (update_state from st s' w).1.
Proof.
  intros (r&Hr&Hs&Hi) Hc. unfold update_state.
  destruct (_ !! s') as [r'|] eqn:Er'; [case_decide|]; simpl; try by exists r.
  destruct (decide (s' = s)) as [->|Hne].
  - exists (set_state st r'). simplify_eq. simpl. rewrite lookup_insert_eq. auto.
  - exists r. simpl. by rewrite lookup_insert_ne.
Qed.

Lemma leased_alter s row f s' w :
  (∀ r, same_slot r (f r) ∧ r_state (f r) = r_state r) →
  leased s row w → leased s row (with_rows (alter f s' (kv_entries w)) w).
Proof.
  intros Hf (r&Hr&Hs&Hi). destruct (decide (s' = s)) as [->|Hne].
  - exists (f r). simpl. rewrite lookup_alter_eq, Hr. simpl. destruct (Hf r) as [Hfs ->].
    split_and!; [done|by etrans|done].
  - exists r. simpl. by rewrite lookup_alter_ne.
Qed.

Lemma leased_exec_op op s row w :
  kv_keyed (kv_entries w) → leased s row w → ends_lease s op = false → leased s row (exec_op op w).
Proof.
  intros Hm Hl He. destruct op; simpl in *; try apply bool_decide_eq_false in He.
  - destruct Hl as (r&Hr&?). exists r. simpl. by rewrite lookup_insert_ne.
  - by apply leased_deleteReturning.
  - by apply leased_update_state.
  - by apply leased_update_state.
  - by apply leased_update_state.
  - apply leased_deleteReturning; [done|]. intros _ r [Hc _]%andb_true_iff. by apply bool_decide_eq_true in Hc.
  - destruct Hl as (r&Hr&Hs&Hi). exists r. split; [|done]. rewrite kv_entries_unlinkFor. simpl.
    apply map_lookup_filter_Some. split; [done|]. unfold epoch_stale, is_idle.
    by rewrite (bool_decide_false (r_state r = idle)), andb_false_r.
  - by apply leased_alter.
  - by apply leased_alter.
  - destruct Hl as (r&Hr&Hs&Hi).
    destruct (run_row unlink_error pow_half id wl budget now w s r Hm Hr) as [?|(_&?&_)]; [|done].
    by exists r.
  - done.
Qed.

Lemma leased_exec_ops ops s row w :
  kv_keyed (kv_entries w) → leased s row w → Forall (λ op, ends_lease s op = false) ops →
  leased s row (exec_ops ops w).
Proof.
  revert w. induction ops as [|op ops IH]; intros w Hm Hl Hops; simpl; [done|].
  apply Forall_cons in Hops as [Hop Hops]. apply IH; [by apply exec_op_keyed| |done].
  by apply leased_exec_op.
Qed.

(** Once a row is reserved, and until its holder releases it,
    somebody deletes it unconditionally or upserts it, or a start-up scan
    runs, every sequence of registry operations leaves the row in the table
    with the same slot file and epoch, refuses another reservation of it, and
    refuses to delete it as idle; so an eviction cannot take it. *)
Theorem lease_exclusive ops s w w1 :
  kv_keyed (kv_entries w) → reserve s w = (w1, true) →
  Forall (λ op, ends_lease s op = false) ops →
  ∃ row row', kv_entries w !! s = Some row ∧ r_state row = idle ∧
    let w2 := exec_ops ops w1 in
    kv_entries w2 !! s = Some row' ∧ same_slot row row' ∧ r_state row' ≠ idle ∧
    reserve s w2 = (w2, false) ∧ ∀ f, tryDelete unlink_error s f w2 = (w2, false).
Proof.
  intros Hm Hr Hops. unfold reserve, update_state in Hr.
  destruct (kv_entries w !! s) as [row|] eqn:Es; [case_decide as Hidle|]; simplify_eq/=.
  assert (r_state row = idle) as Hi by set_solver.
  set (w1 := with_rows _ w).
  assert (leased s row w1) as Hl.
  { exists (set_state reserved row). simpl. by rewrite lookup_insert_eq. }
  assert (kv_keyed (kv_entries w1)) as Hm1.
  { pose proof (update_state_keyed [idle] reserved s w Hm) as H. unfold update_state in H.
    rewrite Es in H. by rewrite decide_True in H. }
  destruct (leased_exec_ops ops s row w1 Hm1 Hl Hops) as (row'&Hrow'&Hs&Hni).
  exists row, row'. split_and!; try done.
  - unfold reserve, update_state. rewrite Hrow', decide_False; [done|]. set_solver.
  - intros f. unfold tryDelete, deleteReturning, delete_returning_rows, is_idle. rewrite Hrow'.
    rewrite (bool_decide_false (r_state row' = idle)) by done. simpl. by destruct (exec_ops ops w1).
Qed.


(** The proxy commits a saved slot as an idle row, whatever state the row had:
    a row another request holds can then be deleted as idle. *)
Lemma upsert_drops_lease e row w :
  kv_entries w !! sha e = Some row → r_state row = active → state e = idle →
  (tryDelete unlink_error (sha e) None (KvStore.insert e w)).2 = true.
Proof.
  intros _ _ Hi. unfold tryDelete, deleteReturning, delete_returning_rows, KvStore.insert, is_idle.
  simpl. rewrite lookup_insert_eq. simpl. by rewrite Hi.
Qed.
End leases.

(** ** The integrity scan *)
Section scan.
Implicit Types (w : KvWorld) (m : KvRows).

(** What the scan does to one row: a row whose file is back leaves
    quarantine, a row whose file is gone enters it, and a row already there
    is dropped once it has not been used for the grace period. *)
Definition scan_row (graceMs now : Z) (files : gmap string Z) (row : KvEntryRow) : option KvEntryRow :=
  if decide (is_Some (files !! r_upstream_slot_file row))
  then if r_quarantined row =? 1 then Some (set_quarantined 0 row) else Some row
  else if r_quarantined row =? 0 then Some (set_quarantined 1 row)
  else if (r_quarantined row =? 1) && (graceMs <? now - r_last_used row) then None
  else Some row.

(** Which of the scan's lists a row goes to. *)
Inductive Verdict := Keep | Unquarantine | Quarantine | Purge.
#[local] Instance Verdict_eq : EqDecision Verdict.
Proof. solve_decision. Defined.

Definition verdict (graceMs now : Z) (files : gmap string Z) (row : KvEntryRow) : Verdict :=
  if decide (is_Some (files !! r_upstream_slot_file row))
  then if r_quarantined row =? 1 then Unquarantine else Keep
  else if r_quarantined row =? 0 then Quarantine
  else if (r_quarantined row =? 1) && (graceMs <? now - r_last_used row) then Purge
  else Keep.

Lemma scan_rows_verdict graceMs now files rows :
  scan_rows graceMs now files rows =
    let pick v := r_sha <$> filter (λ row, verdict graceMs now files row = v) rows in
    {| toUnquarantine := pick Unquarantine; toQuarantine := pick Quarantine; toPurge := pick Purge |}.
Proof.
  induction rows as [|row rows IH]; [done|]. simpl. rewrite IH, !filter_cons. clear IH.
  assert (verdict graceMs now files row =
    if bool_decide (is_Some (files !! r_upstream_slot_file row)) && (r_quarantined row =? 1) then Unquarantine
    else if negb (bool_decide (is_Some (files !! r_upstream_slot_file row))) && (r_quarantined row =? 0) then Quarantine
    else if negb (bool_decide (is_Some (files !! r_upstream_slot_file row))) && (r_quarantined row =? 1)
            && (graceMs <? now - r_last_used row) then Purge else Keep) as ->.
  { unfold verdict. case_decide as Hf; [rewrite bool_decide_true by done|rewrite bool_decide_false by done];
      simpl; by destruct (r_quarantined row =? 1) eqn:E1. }
  by repeat (case_match; simpl).
Qed.

Lemma foldl_alter_lookup f l m s :
  (∀ r : KvEntryRow, f (f r) = f r) →
  foldl (λ m s, alter f s m) m l !! s = if decide (s ∈ l) then f <$> m !! s else m !! s.
Proof.
  intros Hf. revert m. induction l as [|x l IH]; intros m; simpl; [done|]. rewrite IH.
  destruct (decide (x = s)) as [->|Hne].
  - rewrite lookup_alter_eq, (decide_True (P := s ∈ s :: l)) by left.
    case_decide; [|done]. destruct (m !! s); simpl; [by rewrite Hf|done].
  - rewrite lookup_alter_ne by done. repeat case_decide; set_solver.
Qed.

Lemma foldl_delete_lookup l m s :
  foldl (λ m s, delete s m) m l !! s = if decide (s ∈ l) then None else m !! s.
Proof.
  revert m. induction l as [|x l IH]; intros m; simpl; [done|]. rewrite IH.
  destruct (decide (x = s)) as [->|Hne].
  - rewrite lookup_delete_eq, (decide_True (P := s ∈ s :: l)) by left. by case_decide.
  - rewrite lookup_delete_ne by done. repeat case_decide; set_solver.
Qed.

(** Membership in a list of picked keys is a property of the key's row. *)
Lemma elem_of_picked (P : KvEntryRow → Prop) `{!∀ r, Decision (P r)} m s :
  kv_keyed m → s ∈ r_sha <$> filter P (table_rows m) ↔ ∃ row, m !! s = Some row ∧ P row.
Proof.
  intros Hm. rewrite list_elem_of_fmap. split.
  - intros (row&->&[HP Hrow]%list_elem_of_filter). apply (elem_of_table_rows r_sha) in Hrow; eauto.
  - intros (row&Hrow&HP). exists row. pose proof (Hm _ _ Hrow : r_sha row = s) as Hk.
    split; [done|]. apply list_elem_of_filter. split; [done|].
    apply (elem_of_table_rows r_sha); [done|]. by rewrite Hk.
Qed.

Lemma scan_row_verdict graceMs now files row :
  scan_row graceMs now files row =
    match verdict graceMs now files row with
    | Keep => Some row
    | Unquarantine => Some (set_quarantined 0 row)
    | Quarantine => Some (set_quarantined 1 row)
    | Purge => None
    end.
Proof. unfold scan_row, verdict. by repeat case_match. Qed.

Lemma scan_row_flag graceMs now files row row' :
  scan_row graceMs now files row = Some row' → r_quarantined row' = 0 ∨ r_quarantined row' = 1 →
  r_upstream_slot_file row' = r_upstream_slot_file row ∧
  (r_quarantined row' = 1 ↔ files !! r_upstream_slot_file row' = None).
Proof.
  unfold scan_row. case_decide as Hf.
  - destruct Hf as [x Hx]. case_match eqn:E; to_prop; intros [= <-] Hq; simpl in *; rewrite Hx; split; naive_solver.
  - apply eq_None_not_Some in Hf. repeat case_match; to_prop; intros ? Hq; simplify_eq/=; rewrite Hf; split; naive_solver lia.
Qed.

(** The scan row by row. *)
Lemma runIntegrityScan_row graceMs now w s :
  kv_keyed (kv_entries w) →
  kv_entries (runIntegrityScan graceMs now w).1 !! s =
    kv_entries w !! s ≫= scan_row graceMs now (kv_files w).
Proof.
  intros Hm. unfold runIntegrityScan. rewrite scan_rows_verdict. simpl.
  set (pick v := r_sha <$> filter (λ row, verdict graceMs now (kv_files w) row = v) (table_rows (kv_entries w))).
  fold (pick Unquarantine) (pick Quarantine) (pick Purge).
  assert (∀ v, s ∈ pick v ↔ ∃ row, kv_entries w !! s = Some row ∧ verdict graceMs now (kv_files w) row = v)
    as Hpick by (intros v; by apply elem_of_picked).
  assert (foldl (λ m s, delete s m) (foldl (λ m s, alter (set_quarantined 1) s m)
     (foldl (λ m s, alter (set_quarantined 0) s m) (kv_entries w) (pick Unquarantine)) (pick Quarantine))
     (pick Purge) !! s = kv_entries w !! s ≫= scan_row graceMs now (kv_files w)) as Hfold.
  { rewrite foldl_delete_lookup, !foldl_alter_lookup by done.
    destruct (kv_entries w !! s) as [row|] eqn:Es; simpl; [|by repeat case_decide].
    assert (∀ v, s ∈ pick v ↔ verdict graceMs now (kv_files w) row = v) as Hv
      by (intros v; rewrite Hpick; naive_solver).
    rewrite scan_row_verdict.
    repeat case_decide; rewrite Hv in *; destruct (verdict _ _ _ row); done. }
  destruct (bool_decide _ && _ && _) eqn:Eb; [|done].
  apply andb_true_iff in Eb as [[E1 E2]%andb_true_iff E3].
  apply bool_decide_eq_true in E1, E2, E3. rewrite E1, E2, E3 in Hfold. done.
Qed.

(** The scan's three batches amount to judging every row on
    its own by [scan_row]; files are left alone; afterwards a row flagged 0 or
    1 is flagged 1 just when its slot file is missing; and the error count is
    the number of rows newly quarantined. *)
Theorem scan_reconciles graceMs now w :
  kv_keyed (kv_entries w) →
  let '(w', errors) := runIntegrityScan graceMs now w in
  (∀ s, kv_entries w' !! s = kv_entries w !! s ≫= scan_row graceMs now (kv_files w)) ∧
  kv_files w' = kv_files w ∧
  (∀ s row, kv_entries w' !! s = Some row → r_quarantined row = 0 ∨ r_quarantined row = 1 →
    (r_quarantined row = 1 ↔ kv_files w' !! r_upstream_slot_file row = None)) ∧
  errors = Z.of_nat (length (filter (λ row, verdict graceMs now (kv_files w) row = Quarantine)
    (table_rows (kv_entries w)))).
Proof.
  intros Hm. pose proof (λ s, runIntegrityScan_row graceMs now w s Hm) as Hrow.
  assert (kv_files (runIntegrityScan graceMs now w).1 = kv_files w) as Hfiles
    by (unfold runIntegrityScan; by case_match).
  assert ((runIntegrityScan graceMs now w).2 = Z.of_nat (length (toQuarantine
    (scan_rows graceMs now (kv_files w) (table_rows (kv_entries w)))))) as Herr
    by (unfold runIntegrityScan; by case_match).
  rewrite scan_rows_verdict in Herr. simpl in Herr. rewrite length_fmap in Herr.
  destruct (runIntegrityScan graceMs now w) as [w' errors]. simpl in *. split_and!; [done..| |done].
  intros s row Hs Hq. rewrite Hrow in Hs. apply bind_Some in Hs as (row0&_&Hs). rewrite Hfiles.
  by eapply scan_row_flag.
Qed.

(** The grace period runs from the last use of the row, not from the scan
    that quarantined it: a row unused for that long is quarantined by one scan
    and dropped by the next, even at the same instant. *)
Lemma quarantine_grace_already_over graceMs now w s row :
  kv_keyed (kv_entries w) → kv_entries w !! s = Some row → r_quarantined row = 0 →
  kv_files w !! r_upstream_slot_file row = None → graceMs < now - r_last_used row →
  let w1 := (runIntegrityScan graceMs now w).1 in
  kv_entries w1 !! s = Some (set_quarantined 1 row) ∧
  (kv_keyed (kv_entries w1) → kv_files w1 = kv_files w →
   kv_entries (runIntegrityScan graceMs now w1).1 !! s = None).
Proof.
  intros Hm Hs Hq Hf Hg w1.
  assert (kv_entries w1 !! s = Some (set_quarantined 1 row)) as H1.
  { unfold w1. rewrite runIntegrityScan_row, Hs by done. simpl. unfold scan_row.
    rewrite decide_False by (rewrite Hf; by intros [? ?]). by rewrite (proj2 (Z.eqb_eq _ _) Hq). }
  split; [done|]. intros Hm1 Hf1. rewrite runIntegrityScan_row, H1 by done. simpl. unfold scan_row. simpl.
  rewrite Hf1, decide_False by (rewrite Hf; by intros [? ?]).
  by rewrite (proj2 (Z.ltb_lt _ _) Hg).
Qed.
End scan.

(** ** The orphan sweep *)
Section sweep.
Context (unlink_error stat_error : string → option string).
Context (join : string → string → string).
Context (readdirSync : string → eff KvWorld (list string)).
Implicit Types (w : KvWorld).

(** [filename] in [slotDir] is a slot file of no sha in [known], last written
    no later than [cutoff]. *)
Definition stale_orphan (known : gset string) (cutoff : Z) (slotDir filename : string) w : Prop :=
  ∃ s mtimeMs, parseShaFromSlotFile filename = Some s ∧ s ∉ known ∧
    (kv_files w !! join slotDir filename = Some mtimeMs) ∧ mtimeMs ≤ cutoff.

Definition is_orphan (known : gset string) (filename : string) : bool :=
  match parseShaFromSlotFile filename with
  | Some s => bool_decide (s ∉ known)
  | None => false
  end.

(** From [w] to [w'] only the artifacts of stale orphans among [fs] went. *)
Definition swept known cutoff slotDir (fs : list string) w w' : Prop :=
  kv_entries w' = kv_entries w ∧
  ∀ p, kv_files w' !! p = kv_files w !! p ∨
    (kv_files w' !! p = None ∧ ∃ f, f ∈ fs ∧ stale_orphan known cutoff slotDir f w ∧
       (p = join slotDir f ∨ p = join slotDir f +:+ ".trailer.json")).

Lemma swept_refl known cutoff slotDir fs w : swept known cutoff slotDir fs w w.
Proof. split; [done|]. by left. Qed.

Lemma swept_lookup known cutoff slotDir fs w w' p x :
  swept known cutoff slotDir fs w w' → kv_files w' !! p = Some x → kv_files w !! p = Some x.
Proof. intros [_ H] Hp. destruct (H p) as [<-|[? _]]; [done|congruence]. Qed.

Lemma swept_trans known cutoff slotDir fs w1 w2 w3 :
  swept known cutoff slotDir fs w1 w2 → swept known cutoff slotDir fs w2 w3 →
  swept known cutoff slotDir fs w1 w3.
Proof.
  intros H12 [He H23]. split; [rewrite He; apply H12|]. intros p.
  destruct (H23 p) as [->|(Hn&f&Hf&(s&mt&?&?&Hmt&?)&Hp)]; [apply H12|].
  right. split; [done|]. exists f. split_and!; [done| |done].
  exists s, mt. split_and!; [done..| |done]. by eapply swept_lookup.
Qed.

Lemma swept_mono known cutoff slotDir fs fs' w w' :
  fs ⊆ fs' → swept known cutoff slotDir fs w w' → swept known cutoff slotDir fs' w w'.
Proof. intros Hs [He H]. split; [done|]. intros p. destruct (H p) as [?|(?&?&?&?)]; eauto 10. Qed.

Lemma safeStat_spec path w :
  safeStat stat_error path w =
    (w, match kv_files w !! path, stat_error path with
        | None, _ => Ok None
        | Some m, None => Ok (Some m)
        | Some _, Some code => if decide (code = "ENOENT") then Ok None else Err code
        end).
Proof.
  unfold safeStat, try_catch, statSync, mbind, eff_bind, mret, eff_ret, throw.
  destruct (kv_files w !! path), (stat_error path); simpl; by repeat case_decide.
Qed.

Lemma safeDelete_spec path w :
  safeDelete unlink_error path w =
    match kv_files w !! path, unlink_error path with
    | None, _ => (w, Ok false)
    | Some _, None => (with_files (delete path (kv_files w)) w, Ok true)
    | Some _, Some code => (w, if decide (code = "ENOENT") then Ok false else Err code)
    end.
Proof.
  unfold safeDelete, try_catch, unlinkSync, mbind, eff_bind, mret, eff_ret, throw.
  destruct (kv_files w !! path), (unlink_error path); simpl; by repeat case_decide.
Qed.

(** Removing an artifact of a file that was a stale orphan at the start. *)
Lemma safeDelete_swept known cutoff slotDir fs f path w w1 :
  swept known cutoff slotDir fs w w1 → f ∈ fs → stale_orphan known cutoff slotDir f w →
  path = join slotDir f ∨ path = join slotDir f +:+ ".trailer.json" →
  swept known cutoff slotDir fs w (safeDelete unlink_error path w1).1.
Proof.
  intros Hsw Hf Hs Hp. rewrite safeDelete_spec.
  destruct (kv_files w1 !! path) as [m|] eqn:Em; [destruct (unlink_error path) as [c|]|]; simpl; try done.
  destruct Hsw as [He Hsw]. split; [done|]. intros p. simpl. destruct (decide (path = p)) as [<-|Hne].
  - right. rewrite lookup_delete_eq. eauto.
  - rewrite lookup_delete_ne by done. apply Hsw.
Qed.

(** A filename is dealt with: it is no orphan, or too young, or unlinkable, or
    its file is gone. *)
Definition dealt_with known cutoff slotDir (f : string) w w' : Prop :=
  stale_orphan known cutoff slotDir f w → stat_error (join slotDir f) = None →
  unlink_error (join slotDir f) = None → kv_files w' !! join slotDir f = None.

Lemma swept_gone known cutoff slotDir fs w w' p :
  swept known cutoff slotDir fs w w' → kv_files w !! p = None → kv_files w' !! p = None.
Proof. intros [_ H] Hp. destruct (H p) as [->|[? _]]; done. Qed.

Definition sweep_ok known cutoff slotDir (fs : list string) (acc : SweepResult) w
    (out : KvWorld * result SweepResult) : Prop :=
  swept known cutoff slotDir fs w out.1 ∧
  ∀ res, out.2 = Ok res →
    orphansFound res = orphansFound acc + Z.of_nat (length (filter (λ f, is_orphan known f = true) fs)) ∧
    orphansDeleted acc ≤ orphansDeleted res ≤
      orphansDeleted acc + (orphansFound res - orphansFound acc) ∧
    ∀ f, f ∈ fs → dealt_with known cutoff slotDir f w out.1.

(** The rest of the loop, from the state in which [f] has been dealt with. *)
Lemma sweep_ok_cons known cutoff slotDir f fs acc acc1 w w1 out :
  sweep_ok known cutoff slotDir fs acc1 w1 out →
  swept known cutoff slotDir (f :: fs) w w1 → dealt_with known cutoff slotDir f w w1 →
  orphansFound acc1 = orphansFound acc + (if is_orphan known f then 1 else 0) →
  orphansDeleted acc ≤ orphansDeleted acc1 ≤ orphansDeleted acc + (if is_orphan known f then 1 else 0) →
  sweep_ok known cutoff slotDir (f :: fs) acc w out.
Proof.
  intros [Hs Hr] Hsw Hdw Hfnd Hdel.
  assert (swept known cutoff slotDir (f :: fs) w1 out.1) as Hs'
    by (eapply swept_mono; [|exact Hs]; set_solver).
  split; [by eapply swept_trans|]. intros res Hres. destruct (Hr res Hres) as (H1&H2&H3).
  rewrite filter_cons. split_and!; [destruct (is_orphan known f); simpl; lia|lia|lia|].
  intros f' [->|Hf']%elem_of_cons Hst Hse Hue; [eapply swept_gone; [done|by apply Hdw]|].
  destruct (kv_files w1 !! join slotDir f') as [m|] eqn:Em; [|by eapply swept_gone].
  apply (H3 f' Hf'); [|done..]. destruct Hst as (s&mt&?&?&Hmt&?). exists s, mt. split_and!; try done.
  by rewrite <-Hmt, Em, (swept_lookup _ _ _ _ _ _ _ _ Hsw Em).
Qed.

(** A throw ends the sweep with what it has removed so far. *)
Lemma sweep_ok_err known cutoff slotDir fs acc w w' code :
  swept known cutoff slotDir fs w w' → sweep_ok known cutoff slotDir fs acc w (w', Err code).
Proof. by split. Qed.

(** The branch that unlinks a stale orphan and its trailer. *)
Lemma sweep_ok_delete known cutoff slotDir f fs acc w k :
  is_orphan known f = true → stale_orphan known cutoff slotDir f w →
  (∀ acc1 w1, sweep_ok known cutoff slotDir fs acc1 w1 (k acc1 w1)) →
  let path := join slotDir f in
  let acc1 := mkSweepResult (orphansFound acc + 1) (orphansDeleted acc) in
  sweep_ok known cutoff slotDir (f :: fs) acc w
    ((gone ← safeDelete unlink_error path;
      if (gone : bool)
      then _ ← safeDelete unlink_error (path +:+ ".trailer.json");
           k (mkSweepResult (orphansFound acc1) (orphansDeleted acc1 + 1))
      else k acc1) w).
Proof.
  intros Ho Hst Hk path acc1. unfold mbind, eff_bind.
  assert (swept known cutoff slotDir (f :: fs) w (safeDelete unlink_error path w).1) as Hsw
    by (apply (safeDelete_swept _ _ _ _ f); [apply swept_refl|left|done|by left]).
  assert (swept known cutoff slotDir (f :: fs) w
    (safeDelete unlink_error (path +:+ ".trailer.json") (safeDelete unlink_error path w).1).1) as Hsw2
    by (apply (safeDelete_swept _ _ _ _ f); [done|left|done|by right]).
  destruct Hst as (s&mt&_&_&Hmt&_). rewrite !safeDelete_spec in *. fold path in Hmt. rewrite Hmt in *.
  destruct (unlink_error path) as [code|] eqn:Eu; simpl in *.
  { case_decide; [|by apply sweep_ok_err].
    eapply sweep_ok_cons; [apply Hk|done| |rewrite Ho; simpl; lia|rewrite Ho; simpl; lia].
    intros _ _ Hue. unfold path in Eu. congruence. }
  rewrite safeDelete_spec. simpl. set (t := path +:+ ".trailer.json") in *.
  destruct (delete path (kv_files w) !! t) as [x|] eqn:Et;
    [destruct (unlink_error t) as [code|]; [case_decide; [|by apply sweep_ok_err]|]|];
    simpl in *;
    (eapply sweep_ok_cons; [apply Hk|done| |rewrite Ho; simpl; lia|rewrite Ho; simpl; lia]);
    intros _ _ _; simpl; rewrite ?lookup_delete_None; unfold path; auto.
Qed.

Lemma sweep_loop_ok known cutoff slotDir fs acc w :
  sweep_ok known cutoff slotDir fs acc w
    (sweep_loop unlink_error stat_error join slotDir known cutoff fs acc w).
Proof.
  revert acc w. induction fs as [|f fs IH]; intros acc w; simpl.
  { split; [apply swept_refl|]. intros res [= <-]. split_and!; simpl; try lia. by intros f ?%elem_of_nil. }
  destruct (parseShaFromSlotFile f) as [s|] eqn:Ep.
  2: { assert (is_orphan known f = false) as Ho by (unfold is_orphan; by rewrite Ep).
    eapply sweep_ok_cons; [apply IH|apply swept_refl|intros (?&?&?&_); congruence|rewrite Ho; lia..]. }
  case_decide as Hk.
  { assert (is_orphan known f = false) as Ho by (unfold is_orphan; rewrite Ep; apply bool_decide_false; tauto).
    eapply sweep_ok_cons; [apply IH|apply swept_refl|intros (?&?&?&?&_); by simplify_eq|rewrite Ho; lia..]. }
  assert (is_orphan known f = true) as Ho by (unfold is_orphan; rewrite Ep; by apply bool_decide_true).
  unfold mbind at 1, eff_bind at 1. rewrite safeStat_spec.
  destruct (kv_files w !! join slotDir f) as [m|] eqn:Em.
  2: { eapply sweep_ok_cons; [apply IH|apply swept_refl| |rewrite Ho; simpl; lia..].
    intros (?&?&?&?&?&_); congruence. }
  destruct (stat_error (join slotDir f)) as [code|] eqn:Ese.
  { case_decide; [|apply sweep_ok_err, swept_refl].
    eapply sweep_ok_cons; [apply IH|apply swept_refl| |rewrite Ho; simpl; lia..]. intros _ ?; congruence. }
  destruct (cutoff <? m) eqn:Ec; to_prop.
  { eapply sweep_ok_cons; [apply IH|apply swept_refl| |rewrite Ho; simpl; lia..].
    intros (?&?&?&?&?&?); simplify_eq; lia. }
  apply sweep_ok_delete; [done|by exists s, m|done].
Qed.

(** Whatever happens between the snapshot of the table and the
    first file examined, the sweep leaves the table alone and removes only
    slot files, and their trailers, whose sha had no row in the snapshot and
    which were last written at least [ttlMs] ago; when it returns, every such
    file that could be examined and unlinked is gone, and the counts are
    those of the orphans listed. *)
Theorem sweep_spares_known others slotDir ttlMs now w filenames :
  kv_keyed (kv_entries w) → (∀ w1, readdirSync slotDir w1 = (w1, Ok filenames)) →
  let '(w', r) := sweepOrphanSlotFiles unlink_error stat_error join readdirSync others slotDir ttlMs now w in
  let stale f s mtimeMs := f ∈ filenames ∧ parseShaFromSlotFile f = Some s ∧ kv_entries w !! s = None ∧
    kv_files (others w) !! join slotDir f = Some mtimeMs ∧ mtimeMs ≤ now - ttlMs in
  kv_entries w' = kv_entries (others w) ∧
  (∀ p, kv_files w' !! p = kv_files (others w) !! p ∨
    kv_files w' !! p = None ∧ ∃ f s mtimeMs, stale f s mtimeMs ∧
      (p = join slotDir f ∨ p = join slotDir f +:+ ".trailer.json")) ∧
  ∀ res, r = Ok res →
    0 ≤ orphansDeleted res ≤ orphansFound res ∧
    ∀ f s mtimeMs, stale f s mtimeMs → stat_error (join slotDir f) = None →
      unlink_error (join slotDir f) = None → kv_files w' !! join slotDir f = None.
Proof.
  intros Hm Hread. unfold sweepOrphanSlotFiles, mbind, eff_bind. rewrite Hread.
  set (known := list_to_set _). set (cutoff := now - ttlMs).
  assert (∀ s, s ∉ known ↔ kv_entries w !! s = None) as Hknown.
  { intros s. unfold known. rewrite elem_of_list_to_set, list_elem_of_fmap. split.
    - intros Hs. apply eq_None_not_Some. intros [row Hrow]. apply Hs. exists (fromRow row).
      pose proof (Hm _ _ Hrow : r_sha row = s) as Hk. simpl. split; [done|].
      apply elem_of_listAll; [done|]. exists row. simpl. by rewrite Hk.
    - intros Hs (e&->&(row&?&_)%elem_of_listAll); [congruence|done]. }
  pose proof (sweep_loop_ok known cutoff slotDir filenames (mkSweepResult 0 0) (others w)) as [[He Hsw] Hr].
  destruct (sweep_loop _ _ _ _ _ _ _ _ _) as [w' r]. simpl in *. split_and!; [done| |].
  - intros p. destruct (Hsw p) as [?|(?&f&?&(s&mt&?&?%Hknown&?&?)&?)]; [by left|]. right.
    split; [done|]. exists f, s, mt. by split_and!.
  - intros res Hres. destruct (Hr res Hres) as (H1&H2&H3). split; [lia|].
    intros f s mt (Hf&Hp&Hn&Hmt&Hle) Hse Hue. apply (H3 f Hf); [|done..].
    exists s, mt. split_and!; try done. by apply Hknown.
Qed.
End sweep.

(** ** Witnesses *)

(** A reserved row survives an activation, a purge of another epoch, an
    eviction to an empty budget and somebody else's delete. *)
Lemma lease_exclusive_witness :
  let ops := [OpActivate "a"; OpDeleteEpochStale "w" "e2"; OpEvict "w" 0 2000; OpTryDelete "a" None;
              OpDelete "b" None] in
  ∃ row', kv_entries (exec_ops no_error half_once ops (reserve "a" ex_world).1) !! "a" = Some row' ∧
    r_state row' ≠ idle.
Proof.
  intros ops.
  assert (reserve "a" ex_world = ((reserve "a" ex_world).1, true)) as Hr by (vm_compute; reflexivity).
  assert (Forall (λ op, ends_lease "a" op = false) ops) as Hops by (repeat constructor).
  destruct (lease_exclusive no_error half_once ops "a" ex_world (reserve "a" ex_world).1 ex_world_keyed Hr Hops)
    as (row&row'&_&_&H1&_&H2&_).
  exists row'. split; [exact H1|exact H2].
Defined.

Lemma scan_reconciles_witness :
  let w := with_files (delete "/slots/a.kvslot" (kv_files ex_world)) ex_world in
  let '(w', errors) := runIntegrityScan 86400000 2000 w in
  errors = 1 ∧ kv_entries w' !! "a" = kv_entries w !! "a" ≫= scan_row 86400000 2000 (kv_files w).
Proof.
  cbv zeta. set (w := with_files _ ex_world).
  pose proof (scan_reconciles 86400000 2000 w ex_world_keyed) as H.
  destruct (runIntegrityScan 86400000 2000 w) as [w' errors] eqn:E.
  assert (errors = 1) as He.
  { replace errors with (runIntegrityScan 86400000 2000 w).2 by (by rewrite E). vm_compute. reflexivity. }
  destruct H as [H _]. split; [exact He|exact (H "a")].
Defined.

(** An old file of no row goes, a young one and a known one stay. *)
Lemma sweep_spares_known_witness :
  let join d f := d +:+ "/" +:+ f in
  let listing (d : string) : eff KvWorld (list string) :=
    mret ["a.kvslot"; "old.kvslot"; "young.kvslot"; "notes.txt"] in
  let w := with_files (<["/slots/old.kvslot" := 10]> (<["/slots/young.kvslot" := 900]> (kv_files ex_world))) ex_world in
  let '(w', r) := sweepOrphanSlotFiles no_error no_error join listing id "/slots" 500 1000 w in
  r = Ok (mkSweepResult 2 1) ∧ kv_files w' !! "/slots/old.kvslot" = None ∧
  kv_files w' !! "/slots/young.kvslot" = Some 900 ∧ kv_entries w' = kv_entries w.
Proof.
  cbv zeta. set (join := λ d f, _). set (listing := λ d : string, _). set (w := with_files _ ex_world).
  pose proof (sweep_spares_known no_error no_error join listing id "/slots" 500 1000 w
    ["a.kvslot"; "old.kvslot"; "young.kvslot"; "notes.txt"] ex_world_keyed ltac:(done)) as H.
  destruct (sweepOrphanSlotFiles no_error no_error join listing id "/slots" 500 1000 w) as [w' r] eqn:E.
  assert (r = Ok (mkSweepResult 2 1) ∧ kv_files w' !! "/slots/old.kvslot" = None ∧
    kv_files w' !! "/slots/young.kvslot" = Some 900) as (H1&H2&H3).
  { replace r with (sweepOrphanSlotFiles no_error no_error join listing id "/slots" 500 1000 w).2 by (by rewrite E).
    replace w' with (sweepOrphanSlotFiles no_error no_error join listing id "/slots" 500 1000 w).1 by (by rewrite E).
    vm_compute. done. }
  destruct H as [H _]. split_and!; [exact H1|exact H2|exact H3|exact H].
Defined.
