(* ===== verification/ResponseCache.v ===== *)
(** * The response cache

    packages/core/src/responsecache: whole responses keyed by request sha,
    model, workload, epoch and protocol (registry.ts), evicted by the same
    scored loop as the KV slots, over a budget for the whole table
    (policy.ts). *)

From S2P Require Import Prelude JsSort EvictStore KvStore.
From stdpp Require Import sorting.
From Stdlib Require Import QArith.

#[local] Open Scope string_scope.
#[local] Open Scope list_scope.
#[local] Open Scope Z_scope.

Module ResponseCache.

Inductive ProtocolVariant := openai | anthropic | responses.

#[export] Instance ProtocolVariant_eq : EqDecision ProtocolVariant.
Proof. solve_decision. Defined.
#[export] Instance ProtocolVariant_countable : Countable ProtocolVariant.
Proof.
  refine (inj_countable'
    (λ v, match v with openai => 0%nat | anthropic => 1%nat | responses => 2%nat end)
    (λ n, match n with 0%nat => openai | 1%nat => anthropic | _ => responses end) _).
  by intros [].
Defined.

(** The primary key, which is also what a lookup names. *)
Record ResponseCacheLookup := mkLookup {
  l_sha : string; l_model : string; l_workload : string; l_workloadEpoch : string;
  l_protocolVariant : ProtocolVariant
}.

#[export] Instance ResponseCacheLookup_eq : EqDecision ResponseCacheLookup.
Proof. solve_decision. Defined.
#[export] Instance ResponseCacheLookup_countable : Countable ResponseCacheLookup.
Proof.
  refine (inj_countable'
    (λ l, (l_sha l, l_model l, l_workload l, l_workloadEpoch l, l_protocolVariant l))
    (λ '(s, m, w, e, p), mkLookup s m w e p) _).
  by intros [].
Defined.

(** An entry; its row has the same columns.  The body is a byte string. *)
Record ResponseCacheEntry := mkEntry {
  sha : string; model : string; workload : string; workloadEpoch : string;
  protocolVariant : ProtocolVariant; contentType : string; statusCode : Z;
  responseBody : string; requestBodyBytes : Z; responseBodyBytes : Z;
  createdAt : Z; lastUsed : Z; hits : Z
}.

Definition toLookupParams (e : ResponseCacheEntry) : ResponseCacheLookup :=
  mkLookup (sha e) (model e) (workload e) (workloadEpoch e) (protocolVariant e).

Notation Rows := (gmap ResponseCacheLookup ResponseCacheEntry).

(** ** registry.ts *)

Definition insert (entry : ResponseCacheEntry) (m : Rows) : Rows :=
  <[toLookupParams entry := entry]> m.

Definition findBySha (lookup : ResponseCacheLookup) (m : Rows) : option ResponseCacheEntry := m !! lookup.

Definition bump_hit (now : Z) (e : ResponseCacheEntry) : ResponseCacheEntry :=
  mkEntry (sha e) (model e) (workload e) (workloadEpoch e) (protocolVariant e) (contentType e)
    (statusCode e) (responseBody e) (requestBodyBytes e) (responseBodyBytes e) (createdAt e)
    now (hits e + 1).

Definition bumpHit (lookup : ResponseCacheLookup) (now : Z) (m : Rows) : Rows :=
  alter (bump_hit now) lookup m.

Definition tryDelete (lookup : ResponseCacheLookup) (m : Rows) : Rows * bool :=
  match m !! lookup with
  | Some _ => (delete lookup m, true)
  | None => (m, false)
  end.

(** [ORDER BY sha ASC]; rows of one sha come in some order of their own. *)
Definition by_sha (a b : ResponseCacheEntry) : Z := cmp_text (sha a) (sha b).

Definition listForModel (mdl : string) (m : Rows) : list ResponseCacheEntry :=
  js_sort by_sha (filter (λ e, model e = mdl) (table_rows m)).

Definition listAll (m : Rows) : list ResponseCacheEntry := js_sort by_sha (table_rows m).

(** ** policy.ts *)

Definition totalEntryBytes (e : ResponseCacheEntry) : Z := requestBodyBytes e + responseBodyBytes e.

#[export] Instance cache_evict_store : EvictStore Rows ResponseCacheEntry := {|
  row_bytes := totalEntryBytes;
  try_delete e m := let '(m', gone) := tryDelete (toLookupParams e) m in
                    if (gone : bool) then Some m' else None
|}.

Record ResponseEvictionRunResult := {
  deleted : list string;
  totalBytesBefore : Z;
  totalBytesAfter : Z
}.

Section policy.
(** [Math.pow(0.5, x)] *)
Context (pow_half : Q → Q).

Definition responseEvictionScore (e : ResponseCacheEntry) (now : Z) : Q :=
  half_life_score pow_half (lastUsed e) (hits e) (totalEntryBytes e) now.

Definition cmp_evict (now : Z) (a b : ResponseCacheEntry) : Z :=
  cmpQ (responseEvictionScore b now) (responseEvictionScore a now).

(** [others] is what other connections commit between listing and deleting. *)
Definition runResponseCacheEvictionIfOverBudget (others : Rows → Rows) (budgetBytes now : Z) (m : Rows)
    : Rows * ResponseEvictionRunResult :=
  let entries := listAll m in
  let before := sumZ totalEntryBytes entries in
  if before <=? budgetBytes
  then (others m, {| deleted := []; totalBytesBefore := before; totalBytesAfter := before |})
  else
    let r := evict_loop budgetBytes (js_sort (cmp_evict now) entries) (others m) before in
    (ev_store r, {| deleted := sha <$> ev_deleted r; totalBytesBefore := before;
                    totalBytesAfter := ev_total r |}).
End policy.

(** ** Facts *)

Notation cache_keyed := (keyed toLookupParams).

#[export] Instance cache_evict_laws :
    EvictLaws Rows ResponseCacheEntry ResponseCacheLookup ResponseCacheEntry.
Proof.
  refine {| rows := id; entry_key := toLookupParams; deletable _ _ := True |}.
  - intros e m m' H. simpl in *. unfold tryDelete in H. unfold id.
    destruct (m !! toLookupParams e); simplify_eq/=. eauto.
  - intros e m H row Hrow _. simpl in *. unfold tryDelete, id in *. by rewrite Hrow in H.
Defined.

Lemma elem_of_cache m e : cache_keyed m → e ∈ listAll m ↔ m !! toLookupParams e = Some e.
Proof. intros Hm. unfold listAll. by rewrite elem_of_js_sort, elem_of_table_rows. Qed.

Lemma cache_NoDup m : cache_keyed m → NoDup (toLookupParams <$> listAll m).
Proof. intros Hm. unfold listAll. rewrite js_sort_perm. by apply table_keys_NoDup. Qed.

Section facts.
Context (pow_half : Q → Q).
Implicit Types (m : Rows).

Definition cache_loop budget now m :=
  evict_loop budget (js_sort (cmp_evict pow_half now) (listAll m)) (id m) (sumZ totalEntryBytes (listAll m)).

(** Undisturbed, the run is the loop, and the loop passes nothing over. *)
Lemma run_is_cache_loop budget now m :
  let r := cache_loop budget now m in
  runResponseCacheEvictionIfOverBudget pow_half id budget now m =
    (ev_store r, {| deleted := sha <$> ev_deleted r;
                    totalBytesBefore := sumZ totalEntryBytes (listAll m);
                    totalBytesAfter := ev_total r |}).
Proof.
  unfold runResponseCacheEvictionIfOverBudget, cache_loop. cbv zeta.
  destruct (_ <=? budget) eqn:Eb; [|done].
  destruct (js_sort (cmp_evict pow_half now) (listAll m)); simpl; by rewrite ?Eb.
Qed.

Lemma cache_loop_split budget now m :
  cache_keyed m →
  let r := cache_loop budget now m in
  ∃ post, js_sort (cmp_evict pow_half now) (listAll m) = ev_deleted r ++ post ∧
    (post ≠ [] → ev_total r ≤ budget).
Proof.
  intros Hm. apply (evict_loop_prefix budget (js_sort (cmp_evict pow_half now) (listAll m)) (id m)); [done| |].
  - change (entry_key (S:=Rows)) with toLookupParams. rewrite js_sort_perm. by apply cache_NoDup.
  - intros e He. rewrite elem_of_js_sort, elem_of_cache in He by done. by exists e.
Qed.

Lemma cache_loop_rows budget now m :
  ev_store (cache_loop budget now m) =
    filter (λ '(k, _), k ∉ toLookupParams <$> ev_deleted (cache_loop budget now m)) m.
Proof.
  exact (evict_loop_rows budget (js_sort (cmp_evict pow_half now) (listAll m)) (id m)
    (sumZ totalEntryBytes (listAll m))).
Qed.

(** The rows left are the part of the sorted listing after the victims. *)
Lemma cache_loop_left budget now m post :
  cache_keyed m →
  js_sort (cmp_evict pow_half now) (listAll m) = ev_deleted (cache_loop budget now m) ++ post →
  listAll (ev_store (cache_loop budget now m)) ≡ₚ post.
Proof.
  intros Hm Hs. assert (NoDup (toLookupParams <$> ev_deleted (cache_loop budget now m) ++ post)) as Hnd.
  { rewrite <-Hs, js_sort_perm. by apply cache_NoDup. }
  assert (cache_keyed (ev_store (cache_loop budget now m))) as Hm'
    by (rewrite cache_loop_rows; by apply keyed_filter).
  apply NoDup_Permutation.
  - by apply (NoDup_fmap_1 toLookupParams), cache_NoDup.
  - rewrite fmap_app in Hnd. apply NoDup_app in Hnd as (_&_&Hnd). by apply NoDup_fmap_1 in Hnd.
  - intros e. rewrite elem_of_cache, cache_loop_rows, map_lookup_filter_Some by done.
    rewrite <-(elem_of_cache m e), <-(elem_of_js_sort (cmp_evict pow_half now)), Hs by done.
    rewrite fmap_app in Hnd. apply NoDup_app in Hnd as (_&Hdisj&_). rewrite elem_of_app. split.
    + intros [[He|He] HP]; [|done]. destruct HP. by apply list_elem_of_fmap_2.
    + intros He. split; [by right|]. intros Hd. apply (Hdisj _ Hd). by apply list_elem_of_fmap_2.
Qed.

(** An undisturbed run deletes the highest-scoring entries,
    as few as bring the total within the budget: the totals reported are those
    of the table before and after, the table after is within budget or empty,
    no entry kept outscores one deleted, before every deletion the total was
    over budget, and what remains is unchanged. *)
Theorem cache_eviction_reaches_budget budget now m :
  cache_keyed m →
  let '(m', r) := runResponseCacheEvictionIfOverBudget pow_half id budget now m in
  totalBytesBefore r = sumZ totalEntryBytes (listAll m) ∧
  totalBytesAfter r = sumZ totalEntryBytes (listAll m') ∧
  (totalBytesAfter r ≤ budget ∨ m' = ∅) ∧
  ∃ victims, deleted r = sha <$> victims ∧
    (∀ l, m' !! l = if decide (l ∈ toLookupParams <$> victims) then None else m !! l) ∧
    (∀ v e, v ∈ victims → e ∈ listAll m' →
      (responseEvictionScore pow_half e now <= responseEvictionScore pow_half v now)%Q) ∧
    (∀ d x k, victims = d ++ x :: k → budget < totalBytesBefore r - sumZ totalEntryBytes d).
Proof.
  intros Hm. rewrite run_is_cache_loop. simpl. set (r := cache_loop budget now m).
  destruct (cache_loop_split budget now m Hm) as (post&Hs&Ht). fold r in Hs, Ht.
  pose proof (cache_loop_left budget now m post Hm Hs) as Hleft. fold r in Hleft.
  split_and!; [done| | |exists (ev_deleted r); split_and!; [done| | |]].
  - rewrite (sumZ_perm _ _ _ Hleft). unfold r.
    pose proof (evict_loop_total budget (js_sort (cmp_evict pow_half now) (listAll m)) (id m)
      (sumZ totalEntryBytes (listAll m))) as Htot.
    cbv zeta in Htot. fold (cache_loop budget now m) r in Htot. fold r. rewrite Htot.
    rewrite <-(sumZ_perm totalEntryBytes _ _ (js_sort_perm (cmp_evict pow_half now) (listAll m))), Hs, sumZ_app.
    change (row_bytes (E:=ResponseCacheEntry)) with totalEntryBytes. lia.
  - destruct post as [|e post]; [right|left; by apply Ht].
    apply map_empty. intros l. apply eq_None_not_Some. intros [e He].
    assert (cache_keyed (ev_store r)) as Hm' by (unfold r; rewrite cache_loop_rows; by apply keyed_filter).
    pose proof (Hm' _ _ He : toLookupParams e = l) as Hk. subst l.
    apply elem_of_cache in He; [|done]. rewrite Hleft in He. by apply elem_of_nil in He.
  - intros l. unfold r. rewrite cache_loop_rows. fold r. case_decide as Hl.
    + apply map_lookup_filter_None. right. naive_solver.
    + apply option_eq. intros e. rewrite map_lookup_filter_Some. naive_solver.
  - intros v e Hv He. rewrite Hleft in He. apply cmpQ_le.
    assert (StronglySorted (cmp_le (cmp_evict pow_half now)) (ev_deleted r ++ post)) as Hsorted.
    { rewrite <-Hs. apply (js_sort_sorted _ (λ _, True)); [apply cmp_ok_score|by apply Forall_true]. }
    exact (StronglySorted_app_1_elem_of _ _ _ _ _ Hsorted Hv He).
  - intros d x k Hd. exact (evict_loop_minimal budget _ (id m) _ d x k Hd).
Qed.
End facts.

(** ** Witness *)

Definition ex_entry (s : string) (bytes used : Z) : ResponseCacheEntry :=
  mkEntry s "m" "w" "e" openai "application/json" 200 "{}" 0 bytes 0 used 0.

Definition ex_table : Rows := insert (ex_entry "a" 100 0) (insert (ex_entry "b" 30 5) ∅).

Lemma cache_eviction_reaches_budget_witness :
  let '(m', r) := runResponseCacheEvictionIfOverBudget (λ _, 1%Q) id 50 1000 ex_table in
  totalBytesBefore r = 130 ∧ totalBytesAfter r = 30 ∧ deleted r = ["a"] ∧
  totalBytesAfter r = sumZ totalEntryBytes (listAll m').
Proof.
  assert (cache_keyed ex_table) as Hm.
  { refine (keyed_insert toLookupParams (ex_entry "a" 100 0) _ _).
    refine (keyed_insert toLookupParams (ex_entry "b" 30 5) _ _). apply keyed_empty. }
  pose proof (cache_eviction_reaches_budget (λ _, 1%Q) 50 1000 ex_table Hm) as H.
  destruct (runResponseCacheEvictionIfOverBudget (λ _, 1%Q) id 50 1000 ex_table) as [m' r] eqn:E.
  assert (totalBytesBefore r = 130 ∧ totalBytesAfter r = 30 ∧ deleted r = ["a"]) as (H1&H2&H3).
  { replace r with (runResponseCacheEvictionIfOverBudget (λ _, 1%Q) id 50 1000 ex_table).2 by (by rewrite E).
    clear. vm_compute. split_and!; reflexivity. }
  destruct H as (_&H&_). split_and!; [exact H1|exact H2|exact H3|exact H].
Defined.

End ResponseCache.
