(* ===== verification/SlotAllocator.v ===== *)
(** * The slot allocator

    packages/core/src/kvstore/slotAllocator.ts: which of an engine's KV slots
    are taken.  The closures it hands out are modelled as handles with their
    [released] flag, so that releasing twice, or late, is a step like any
    other. *)

From S2P Require Import Prelude JsSort.
From stdpp Require Import list_numbers.

#[local] Open Scope string_scope.
#[local] Open Scope list_scope.
#[local] Open Scope Z_scope.

Module SlotAllocator.

(** A handle: its slot, and the [released] flag of its closure. *)
Record Handle := mkHandle { slotId : Z; released : bool }.

Record Allocator := mkAllocator {
  maxSlots : Z;
  singleSlotBusy : bool;
  busySlots : gset Z;
  handles : list Handle
}.

Definition new (n : Z) : result Allocator :=
  if n <? 1 then Err "SlotAllocator maxSlots must be >= 1"
  else Ok (mkAllocator n false ∅ []).

Definition acquireSingleSlot (a : Allocator) : Allocator * option Z :=
  if singleSlotBusy a then (a, None)
  else (mkAllocator (maxSlots a) true (busySlots a) (handles a ++ [mkHandle 0 false]), Some 0).

(** The loop over the slots, [fuel] of them from [slot] on. *)
Fixpoint first_free (busy : gset Z) (slot : Z) (fuel : nat) : option Z :=
  match fuel with
  | O => None
  | S fuel' => if decide (slot ∈ busy) then first_free busy (slot + 1) fuel' else Some slot
  end.

Definition acquireMultiSlot (a : Allocator) : Allocator * option Z :=
  match first_free (busySlots a) 0 (Z.to_nat (maxSlots a)) with
  | None => (a, None)
  | Some selectedSlot =>
      (mkAllocator (maxSlots a) (singleSlotBusy a) ({[selectedSlot]} ∪ busySlots a)
         (handles a ++ [mkHandle selectedSlot false]), Some selectedSlot)
  end.

Definition acquire (a : Allocator) : Allocator * option Z :=
  if maxSlots a =? 1 then acquireSingleSlot a else acquireMultiSlot a.

(** The [release] closure of the [h]-th handle handed out. *)
Definition release (h : nat) (a : Allocator) : Allocator :=
  match handles a !! h with
  | None => a
  | Some hd =>
      if released hd then a
      else
        let handles' := <[h := mkHandle (slotId hd) true]> (handles a) in
        if maxSlots a =? 1
        then mkAllocator (maxSlots a) false (busySlots a) handles'
        else mkAllocator (maxSlots a) (singleSlotBusy a) (busySlots a ∖ {[slotId hd]}) handles'
  end.

Definition inUse (a : Allocator) : list Z :=
  if maxSlots a =? 1 then (if singleSlotBusy a then [0] else [])
  else js_sort (λ x y, x - y) (elements (busySlots a)).

Inductive Op := Acquire | Release (h : nat).

Definition step (op : Op) (a : Allocator) : Allocator :=
  match op with Acquire => (acquire a).1 | Release h => release h a end.

Definition run (ops : list Op) (a : Allocator) : Allocator := foldl (λ a op, step op a) a ops.

(** The slots of the handles not yet released. *)
Definition live (a : Allocator) : list Z :=
  slotId <$> filter (λ h, released h = false) (handles a).

(** ** Invariant *)

(** The set of slots the allocator holds to be taken. *)
Definition taken (a : Allocator) : gset Z :=
  if maxSlots a =? 1 then (if singleSlotBusy a then {[0]} else ∅) else busySlots a.

Record ok (a : Allocator) : Prop := {
  ok_max : 1 ≤ maxSlots a;
  ok_nodup : NoDup (live a);
  ok_range : ∀ s, s ∈ live a → 0 ≤ s < maxSlots a;
  ok_taken : ∀ s, s ∈ taken a ↔ s ∈ live a
}.

Lemma first_free_spec busy slot fuel :
  match first_free busy slot fuel with
  | Some s => slot ≤ s < slot + Z.of_nat fuel ∧ s ∉ busy ∧ ∀ t, slot ≤ t < s → t ∈ busy
  | None => ∀ t, slot ≤ t < slot + Z.of_nat fuel → t ∈ busy
  end.
Proof.
  revert slot. induction fuel as [|fuel IH]; intros slot; cbn [first_free]; [lia|].
  case_decide as Hb.
  - specialize (IH (slot + 1)). destruct (first_free busy (slot + 1) fuel) as [s|].
    + destruct IH as (?&?&Hlow). split_and!; [lia|lia|done|]. intros t Ht.
      destruct (decide (t = slot)) as [->|]; [done|apply Hlow; lia].
    + intros t Ht. destruct (decide (t = slot)) as [->|]; [done|apply IH; lia].
  - split_and!; [lia|lia|done|lia].
Qed.

Lemma live_snoc m b bs hs s :
  live (mkAllocator m b bs (hs ++ [mkHandle s false])) = live (mkAllocator m b bs hs) ++ [s].
Proof. unfold live. simpl. by rewrite filter_app, fmap_app. Qed.

(** Taking a slot that is not held. *)
Lemma ok_take a b bs s :
  ok a → s ∉ live a → 0 ≤ s < maxSlots a →
  (∀ t, t ∈ taken (mkAllocator (maxSlots a) b bs []) ↔ t = s ∨ t ∈ taken a) →
  ok (mkAllocator (maxSlots a) b bs (handles a ++ [mkHandle s false])).
Proof.
  intros [Hm Hnd Hr Ht] Hs Hrange Htaken.
  assert (live (mkAllocator (maxSlots a) b bs (handles a ++ [mkHandle s false])) = live a ++ [s]) as Hl
    by apply live_snoc.
  split; simpl; [done| | |]; try rewrite Hl.
  - apply NoDup_app. split_and!; [done| |apply NoDup_singleton]. intros t Htl Hts%list_elem_of_singleton. by subst t.
  - intros t [?|Hts%list_elem_of_singleton]%elem_of_app; [by apply Hr|by subst t].
  - intros t. rewrite elem_of_app, list_elem_of_singleton.
    change (taken (mkAllocator (maxSlots a) b bs (handles a ++ [mkHandle s false])))
      with (taken (mkAllocator (maxSlots a) b bs [])).
    rewrite Htaken, Ht. tauto.
Qed.

Lemma acquire_ok a : ok a → ok (acquire a).1.
Proof.
  intros Hok. pose proof Hok as [Hm Hnd Hr Ht]. unfold acquire, taken in *.
  destruct (maxSlots a =? 1) eqn:E1; to_prop.
  - unfold acquireSingleSlot. destruct (singleSlotBusy a) eqn:Eb; [done|].
    apply ok_take; [done|rewrite <-Ht; set_solver|lia|].
    intros t. unfold taken. simpl. rewrite E1, Eb. simpl. set_solver.
  - unfold acquireMultiSlot. pose proof (first_free_spec (busySlots a) 0 (Z.to_nat (maxSlots a))) as Hf.
    destruct (first_free _ _ _) as [s|]; [|done]. destruct Hf as (?&Hs&_).
    apply ok_take; [done|by rewrite <-Ht|lia|].
    intros t. unfold taken. simpl. apply Z.eqb_neq in E1. rewrite E1. set_solver.
Qed.

(** Releasing a live handle takes its slot out of the live ones. *)
Lemma live_release hs h hd m b bs b' bs' :
  hs !! h = Some hd → released hd = false →
  live (mkAllocator m b bs hs) ≡ₚ
    slotId hd :: live (mkAllocator m b' bs' (<[h := mkHandle (slotId hd) true]> hs)).
Proof.
  intros Hh Hr. unfold live. simpl. revert h Hh.
  induction hs as [|x hs IH]; intros [|h] Hh; simplify_eq/=.
  - rewrite !filter_cons. simpl. by rewrite decide_True by done.
  - rewrite !filter_cons. specialize (IH h Hh). case_decide; [|done].
    rewrite !fmap_cons, IH. apply Permutation_swap.
Qed.

Lemma release_ok h a : ok a → ok (release h a).
Proof.
  intros Hok. pose proof Hok as [Hm Hnd Hr Ht]. unfold release.
  destruct (handles a !! h) as [hd|] eqn:Eh; [|done].
  destruct (released hd) eqn:Er; [done|].
  assert (∀ b' bs', live a ≡ₚ slotId hd ::
    live (mkAllocator (maxSlots a) b' bs' (<[h := mkHandle (slotId hd) true]> (handles a)))) as Hl.
  { intros b' bs'. destruct a. by apply live_release. }
  assert (∀ b' bs', let a' := mkAllocator (maxSlots a) b' bs' (<[h := mkHandle (slotId hd) true]> (handles a)) in
    (∀ t, t ∈ taken a' ↔ t ∈ taken a ∧ t ≠ slotId hd) → ok a') as Hrel.
  { intros b' bs' a' Ht'. specialize (Hl b' bs'). fold a' in Hl. rewrite Hl in Hnd.
    apply NoDup_cons in Hnd as [Hn Hnd]. split; [done|done| |].
    - intros s Hs. apply Hr. rewrite Hl. by right.
    - intros t. rewrite Ht', Ht, Hl, elem_of_cons. split; [naive_solver|].
      intros Hin. split; [by right|]. by intros ->. }
  unfold taken in *. simpl in Hrel. destruct (maxSlots a =? 1) eqn:E1; to_prop.
  - apply Hrel. intros t. rewrite ?E1. simpl. split; [set_solver|].
    intros [Htk Hne]. assert (slotId hd ∈ live a) as Hin by (rewrite (Hl true ∅); left).
    apply Hr in Hin. destruct (singleSlotBusy a); [|set_solver].
    apply elem_of_singleton in Htk. subst t. lia.
  - apply Hrel. intros t. apply Z.eqb_neq in E1. rewrite ?E1. set_solver.
Qed.

Lemma run_ok ops a : ok a → ok (run ops a).
Proof.
  unfold run. revert a. induction ops as [|[|h] ops IH]; intros a Ha; simpl; [done| |]; apply IH.
  - by apply acquire_ok.
  - by apply release_ok.
Qed.

Lemma run_max ops a : maxSlots (run ops a) = maxSlots a.
Proof.
  unfold run. revert a. induction ops as [|op ops IH]; intros a; simpl; [done|]. rewrite IH.
  destruct op; simpl; unfold acquire, acquireSingleSlot, acquireMultiSlot, release; by repeat case_match.
Qed.

Lemma new_ok n a : new n = Ok a → ok a ∧ maxSlots a = n.
Proof.
  unfold new. destruct (n <? 1) eqn:En; [done|]. to_prop. intros [= <-]. split; [|done].
  split; simpl; [lia|apply NoDup_nil_2|by intros s ?%elem_of_nil|].
  unfold taken. simpl. case_match; set_solver.
Qed.

(** With every slot in range live, there are [maxSlots] of them. *)
Lemma live_full a : ok a → (length (live a) = Z.to_nat (maxSlots a) ↔ ∀ t, 0 ≤ t < maxSlots a → t ∈ live a).
Proof.
  intros [Hm Hnd Hr _]. assert (length (seqZ 0 (maxSlots a)) = Z.to_nat (maxSlots a)) as Hlen by apply length_seqZ.
  split.
  - intros Hl t Ht. assert (live a ≡ₚ seqZ 0 (maxSlots a)) as ->; [|apply elem_of_seqZ; lia].
    apply submseteq_length_Permutation; [|lia]. apply NoDup_submseteq; [done|].
    intros s Hs. apply elem_of_seqZ. specialize (Hr s Hs). lia.
  - intros Hall. rewrite <-Hlen. apply Permutation_length, NoDup_Permutation; [done|apply NoDup_seqZ|].
    intros s. rewrite elem_of_seqZ. split; [intros Hs; specialize (Hr s Hs); lia|intros; apply Hall; lia].
Qed.

(** After any sequence of acquires and releases (in any order,
    repeated or late) the unreleased handles hold pairwise distinct slots in
    range, [inUse] lists exactly these, and [acquire] grants the lowest slot
    not held, refusing only when all [maxSlots] are held. *)
Theorem slots_exclusive n a0 ops :
  new n = Ok a0 →
  let a := run ops a0 in
  NoDup (live a) ∧ (∀ s, s ∈ live a → 0 ≤ s < n) ∧ inUse a ≡ₚ live a ∧
  match (acquire a).2 with
  | Some s => s ∉ live a ∧ 0 ≤ s < n ∧ (∀ t, 0 ≤ t < s → t ∈ live a) ∧
              live (acquire a).1 = live a ++ [s]
  | None => length (live a) = Z.to_nat n
  end.
Proof.
  intros Hnew a. destruct (new_ok n a0 Hnew) as [Hok0 Hmax0].
  assert (ok a) as Hok by by apply run_ok. assert (maxSlots a = n) as Hmax by (unfold a; by rewrite run_max).
  pose proof Hok as [Hm Hnd Hr Ht]. rewrite Hmax in Hr. split_and!; [done..| |].
  - unfold inUse, taken in *. apply NoDup_Permutation; [|done|].
    + case_match; [case_match; [apply NoDup_singleton|apply NoDup_nil_2]|].
      apply js_sort_NoDup, NoDup_elements.
    + intros s. rewrite <-Ht. case_match; [case_match; set_solver|].
      by rewrite elem_of_js_sort, elem_of_elements.
  - rewrite <-Hmax. unfold acquire, taken in *. destruct (maxSlots a =? 1) eqn:E1; to_prop.
    + unfold acquireSingleSlot. destruct (singleSlotBusy a) eqn:Eb; simpl.
      * apply live_full; [done|]. intros t Htr. apply Ht. apply elem_of_singleton. lia.
      * split_and!; [rewrite <-Ht; set_solver|lia|lia|lia|]. unfold live. simpl. by rewrite filter_app, fmap_app.
    + unfold acquireMultiSlot. pose proof (first_free_spec (busySlots a) 0 (Z.to_nat (maxSlots a))) as Hf.
      destruct (first_free _ _ _) as [s|]; simpl.
      * destruct Hf as (?&Hs&Hlow). split_and!; [by rewrite <-Ht|lia|lia| |].
        { intros t Htr. apply Ht, Hlow. lia. }
        unfold live. simpl. by rewrite filter_app, fmap_app.
      * apply live_full; [done|]. intros t Htr. apply Ht, Hf. lia.
Qed.

Lemma slots_exclusive_witness :
  let ops := [Acquire; Acquire; Release 0; Release 0; Acquire; Release 5] in
  let a := run ops (mkAllocator 2 false ∅ []) in
  live a = [1; 0] ∧ (acquire a).2 = None ∧ NoDup (live a).
Proof.
  intros ops a. assert (new 2 = Ok (mkAllocator 2 false ∅ [])) as Hn by reflexivity.
  destruct (slots_exclusive 2 _ ops Hn) as [H _].
  assert (live a = [1; 0] ∧ (acquire a).2 = None) as [H1 H2] by (vm_compute; split; reflexivity).
  split_and!; [exact H1|exact H2|exact H].
Defined.

End SlotAllocator.
