(* ===== verification/JsValues.v ===== *)
(** * Untyped values

    What the code does with values it has cast to a type without looking:
    conversion to text in templates and keys, [join], [for ... of], literal
    objects with fields left out, and assignment to fields.  [None] is
    [undefined]. *)

From S2P Require Import Prelude JsText JsJson.
From Stdlib Require Import Ascii.

#[local] Open Scope string_scope.
#[local] Open Scope list_scope.
#[local] Open Scope Z_scope.

Definition concat_texts : list string → string := foldr String.append EmptyString.

Lemma concat_texts_app l k : concat_texts (l ++ k) = concat_texts l +:+ concat_texts k.
Proof. induction l as [|x l IH]; [done|]. cbn. by rewrite IH, string_app_assoc. Qed.

(** [String(v)]; a number that is not finite is taken as positive. *)
Fixpoint to_text (v : Json) : string :=
  match v with
  | JNull => "null"
  | JBool b => if b then "true" else "false"
  | JNum n => pretty n
  | JNaN => "Infinity"
  | JStr s => s
  | JArr l => String.concat "," ((λ x, match x with JNull => "" | _ => to_text x end) <$> l)
  | JObj _ => "[object Object]"
  end.

Definition text_of (v : option Json) : string := match v with None => "undefined" | Some x => to_text x end.

(** [parts.join("")] *)
Definition join_text (parts : list (option Json)) : string :=
  concat_texts ((λ p, match p with None | Some JNull => "" | Some x => to_text x end) <$> parts).

Lemma join_text_app l k : join_text (l ++ k) = join_text l +:+ join_text k.
Proof. unfold join_text. by rewrite fmap_app, concat_texts_app. Qed.

(** [typeof v === "object" && v !== null] *)
Definition isRecord (v : option Json) : bool := match v with Some (JArr _ | JObj _) => true | _ => false end.

Fixpoint chars (s : string) : list Json :=
  match s with EmptyString => [] | String c s' => JStr (String c EmptyString) :: chars s' end.

(** [for (const x of v)] *)
Definition items (v : option Json) : result (list Json) :=
  match v with Some (JArr l) => Ok l | Some (JStr s) => Ok (chars s) | _ => Err "TypeError" end.

(** [v.map(...)], [v.every(...)]: strings and objects have no such method. *)
Definition array_of (v : option Json) : result (list Json) :=
  match v with Some (JArr l) => Ok l | _ => Err "TypeError" end.

(** An object literal: a field that is [undefined] is not printed. *)
Definition obj (fs : list (string * option Json)) : Json :=
  JObj (omap (λ '(k, v), (λ x, (k, x)) <$> v) fs).

(** ** Fields of an object that is changed in place *)

(** [Object.prototype.hasOwnProperty.call(o, key)] *)
Definition has_own (fs : list (string * Json)) (key : string) : bool := bool_decide (key ∈ fs.*1).

(** [delete o[key]] *)
Definition del_field (key : string) (fs : list (string * Json)) : list (string * Json) :=
  filter (λ f, f.1 ≠ key) fs.

(** [o[key] = v]: a field keeps its place. *)
Fixpoint set_field (key : string) (v : Json) (fs : list (string * Json)) : list (string * Json) :=
  match fs with
  | [] => [(key, v)]
  | (k, x) :: fs' => if bool_decide (k = key) then (key, v) :: fs' else (k, x) :: set_field key v fs'
  end.

Lemma json_field_elem fs key v : json_field fs key = Some v → (key, v) ∈ fs.
Proof.
  unfold json_field. destruct (find _ fs) as [[k x]|] eqn:E; [|done]. intros [= <-].
  apply find_some in E as [Hin Hk]. apply bool_decide_eq_true in Hk as ->. by apply list_elem_of_In.
Qed.

Lemma json_field_None fs key : json_field fs key = None ↔ key ∉ fs.*1.
Proof.
  induction fs as [|[k x] fs IH]; [split; [intros _; apply not_elem_of_nil|done]|].
  rewrite json_field_cons, fmap_cons, not_elem_of_cons. cbn.
  case_bool_decide as Hk; [subst; split; [done|intros []; done]|]. rewrite IH. split; [intros ?; split; [congruence|done]|tauto].
Qed.

Lemma has_own_field fs key : has_own fs key = true ↔ is_Some (json_field fs key).
Proof.
  unfold has_own. rewrite bool_decide_eq_true, <-not_eq_None_Some, json_field_None.
  destruct (decide (key ∈ fs.*1)); tauto.
Qed.

Lemma field_del key key' fs : json_field (del_field key fs) key' = if bool_decide (key' = key) then None else json_field fs key'.
Proof.
  induction fs as [|[k x] fs IH]; [by case_bool_decide|].
  rewrite (json_field_cons k x fs). destruct (decide (k = key)) as [->|Hne].
  - unfold del_field. rewrite filter_cons_False by (intros Hk; by apply Hk). unfold del_field in IH. rewrite IH.
    repeat case_bool_decide; subst; done.
  - unfold del_field. rewrite filter_cons_True by done. rewrite json_field_cons. unfold del_field in IH. rewrite IH.
    repeat case_bool_decide; subst; done.
Qed.

Lemma field_set key v key' fs : json_field (set_field key v fs) key' = if bool_decide (key' = key) then Some v else json_field fs key'.
Proof.
  induction fs as [|[k x] fs IH].
  { change (json_field [(key, v)] key' = if bool_decide (key' = key) then Some v else None).
    rewrite json_field_cons. repeat case_bool_decide; subst; done. }
  cbn [set_field]. destruct (decide (k = key)) as [->|Hne].
  - rewrite bool_decide_true by done. rewrite !json_field_cons. repeat case_bool_decide; subst; done.
  - rewrite (bool_decide_false (k = key)) by done. rewrite !json_field_cons, IH. repeat case_bool_decide; subst; done.
Qed.
