(* ===== verification/AnthropicStream.v ===== *)
(** * Anthropic proxy: translating a completion stream

    packages/core/src/anthropic/translateStream.ts: the server-sent events of an
    OpenAI chat completion, read chunk by chunk from the upstream, become the
    events of an Anthropic message.  A run is a list of turns: what the
    translator's wait ended with, and whether the consumer had cancelled. *)

From S2P Require Import Prelude JsText JsJson.

#[local] Open Scope string_scope.
#[local] Open Scope list_scope.
#[local] Open Scope Z_scope.

(** ** State *)

(** [normalizeFinishReason]; [None] for null and undefined. *)
Definition normalizeFinishReason (finishReason : option Json) : string :=
  match finishReason with
  | Some (JStr "stop") => "end_turn"
  | Some (JStr "length") => "max_tokens"
  | Some (JStr "tool_calls") => "tool_use"
  | Some (JStr "stop_sequence") => "stop_sequence"
  | _ => "end_turn"
  end.

(** An upstream tool index is a number; [None] is the one not finite. *)
Definition ToolIndex := option Z.

Inductive OpenBlockState :=
| BText (index : Z)
| BTool (index : Z) (toolIndex : ToolIndex) (toolId toolName : Json).

Definition block_index (b : OpenBlockState) : Z :=
  match b with BText i => i | BTool i _ _ _ => i end.

Record StreamState := mkStream {
  messageStarted : bool;
  messageId : Json;
  s_model : string;
  openBlock : option OpenBlockState;
  nextBlockIndex : Z;
  toolIndexMap : gmap ToolIndex Z;
  lastFinishReason : option Json;
  lastStopSequence : option Json;
  outputTokens : Z;
  sawUsageCompletionTokens : bool
}.

Definition createStreamState (id : Json) (model : string) : StreamState :=
  mkStream false id model None 0 ∅ None None 0 false.

Definition set_started (s : StreamState) : StreamState :=
  mkStream true (messageId s) (s_model s) (openBlock s) (nextBlockIndex s) (toolIndexMap s)
    (lastFinishReason s) (lastStopSequence s) (outputTokens s) (sawUsageCompletionTokens s).
Definition set_messageId (id : Json) (s : StreamState) : StreamState :=
  mkStream (messageStarted s) id (s_model s) (openBlock s) (nextBlockIndex s) (toolIndexMap s)
    (lastFinishReason s) (lastStopSequence s) (outputTokens s) (sawUsageCompletionTokens s).
Definition set_openBlock (b : option OpenBlockState) (s : StreamState) : StreamState :=
  mkStream (messageStarted s) (messageId s) (s_model s) b (nextBlockIndex s) (toolIndexMap s)
    (lastFinishReason s) (lastStopSequence s) (outputTokens s) (sawUsageCompletionTokens s).
Definition set_blocks (next : Z) (m : gmap ToolIndex Z) (s : StreamState) : StreamState :=
  mkStream (messageStarted s) (messageId s) (s_model s) (openBlock s) next m
    (lastFinishReason s) (lastStopSequence s) (outputTokens s) (sawUsageCompletionTokens s).
Definition set_stop (finish stop : option Json) (s : StreamState) : StreamState :=
  mkStream (messageStarted s) (messageId s) (s_model s) (openBlock s) (nextBlockIndex s) (toolIndexMap s)
    finish stop (outputTokens s) (sawUsageCompletionTokens s).
Definition set_tokens (n : Z) (saw : bool) (s : StreamState) : StreamState :=
  mkStream (messageStarted s) (messageId s) (s_model s) (openBlock s) (nextBlockIndex s) (toolIndexMap s)
    (lastFinishReason s) (lastStopSequence s) n saw.

(** ** Events *)

Inductive Event :=
| MessageStart (id : Json) (model : string)
| TextBlockStart (index : Z)
| ToolBlockStart (index : Z) (id name : Json)
| TextDelta (index : Z) (text : string)
| InputJsonDelta (index : Z) (partial_json : string)
| ContentBlockStop (index : Z)
| MessageDelta (stop_reason : string) (stop_sequence : option Json) (output_tokens : Z)
| MessageStop
| Ping.

Definition event_name (e : Event) : string :=
  match e with
  | MessageStart _ _ => "message_start"
  | TextBlockStart _ | ToolBlockStart _ _ _ => "content_block_start"
  | TextDelta _ _ | InputJsonDelta _ _ => "content_block_delta"
  | ContentBlockStop _ => "content_block_stop"
  | MessageDelta _ _ _ => "message_delta"
  | MessageStop => "message_stop"
  | Ping => "ping"
  end.

Definition payload (e : Event) : Json :=
  JObj (("type", JStr (event_name e)) ::
    match e with
    | MessageStart id model =>
        [("message", JObj [("id", id); ("type", JStr "message"); ("role", JStr "assistant");
           ("content", JArr []); ("model", JStr model); ("stop_reason", JNull); ("stop_sequence", JNull);
           ("usage", JObj [("input_tokens", JNum 0); ("output_tokens", JNum 0)])])]
    | TextBlockStart i =>
        [("index", JNum i); ("content_block", JObj [("type", JStr "text"); ("text", JStr "")])]
    | ToolBlockStart i id name =>
        [("index", JNum i);
         ("content_block", JObj [("type", JStr "tool_use"); ("id", id); ("name", name); ("input", JObj [])])]
    | TextDelta i text =>
        [("index", JNum i); ("delta", JObj [("type", JStr "text_delta"); ("text", JStr text)])]
    | InputJsonDelta i p =>
        [("index", JNum i); ("delta", JObj [("type", JStr "input_json_delta"); ("partial_json", JStr p)])]
    | ContentBlockStop i => [("index", JNum i)]
    | MessageDelta reason seq tokens =>
        [("delta", JObj [("stop_reason", JStr reason);
                         ("stop_sequence", match seq with Some s => s | None => JNull end)]);
         ("usage", JObj [("output_tokens", JNum tokens)])]
    | MessageStop | Ping => []
    end).

(** What [emit] enqueues for an event. *)
Definition wire (e : Event) : string :=
  "event: " +:+ event_name e +:+ String newline ("data: " +:+ stringify (payload e) +:+
    String newline (String newline EmptyString)).

(** ** Translating chunks

    The translator's state, the events emitted so far and the module's count
    of unknown input. *)

Record Tr := mkTr { st : StreamState; out : list Event; unknownEventTotal : Z }.

Definition update (f : StreamState → StreamState) : eff Tr unit :=
  modify (λ w, mkTr (f (st w)) (out w) (unknownEventTotal w)).
Definition emit (e : Event) : eff Tr unit :=
  modify (λ w, mkTr (st w) (out w ++ [e]) (unknownEventTotal w)).
Definition count_unknown (n : Z) : eff Tr unit :=
  modify (λ w, mkTr (st w) (out w) (unknownEventTotal w + n)).

Definition ensureMessageStart : eff Tr unit :=
  started ← gets (messageStarted ∘ st);
  if started : bool then mret tt
  else
    update set_started;;
    id ← gets (messageId ∘ st);
    model ← gets (s_model ∘ st);
    emit (MessageStart id model).

Definition closeOpenBlock : eff Tr unit :=
  b ← gets (openBlock ∘ st);
  match b with
  | None => mret tt
  | Some b => emit (ContentBlockStop (block_index b));; update (set_openBlock None)
  end.

(** The end of [ensureTextBlock]: a new text block. *)
Definition startTextBlock : eff Tr Z :=
  closeOpenBlock;;
  ensureMessageStart;;
  index ← gets (nextBlockIndex ∘ st);
  update (λ s, set_blocks (nextBlockIndex s + 1) (toolIndexMap s) s);;
  update (set_openBlock (Some (BText index)));;
  emit (TextBlockStart index);;
  mret index.

(** The index of the text block that is open when it returns. *)
Definition ensureTextBlock : eff Tr Z :=
  b ← gets (openBlock ∘ st);
  match b with
  | Some (BText i) => mret i
  | _ => startTextBlock
  end.

Definition computeToolBlockIndex (toolIndex : ToolIndex) : eff Tr Z :=
  existing ← gets (λ w, toolIndexMap (st w) !! toolIndex);
  match existing with
  | Some i => mret i
  | None =>
      assigned ← gets (nextBlockIndex ∘ st);
      update (λ s, set_blocks (nextBlockIndex s + 1) (<[toolIndex := assigned]> (toolIndexMap s)) s);;
      mret assigned
  end.

Definition fallback_name (toolIndex : ToolIndex) : Json :=
  JStr ("tool_" +:+ match toolIndex with Some n => pretty n | None => "Infinity" end).

(** [tool.index] of a call, once read, as a tool index. *)
Definition rawToolIndex (v : option Json) : ToolIndex :=
  match v with Some (JNum n) => Some n | Some JNaN => None | _ => Some 0 end.

Definition lift_result {W A} (r : result A) : eff W A := λ w, (w, r).

(** The end of [ensureToolBlock]: a new block for the tool. *)
Definition startToolBlock (index : Z) (toolIndex : ToolIndex) (toolId toolName : Json) : eff Tr Z :=
  closeOpenBlock;;
  ensureMessageStart;;
  update (set_openBlock (Some (BTool index toolIndex toolId toolName)));;
  emit (ToolBlockStart index toolId toolName);;
  mret index.

Definition tool_id (tool : Json) (toolIndex : ToolIndex) : Json :=
  json_or (opt_get (Some tool) "id") (fallback_name toolIndex).
Definition tool_name (tool : Json) (toolIndex : ToolIndex) : Json :=
  json_or (opt_get (opt_get (Some tool) "function") "name") (fallback_name toolIndex).

(** The index of the tool block that is open when it returns. *)
Definition ensureToolBlock (tool : Json) : eff Tr Z :=
  field ← lift_result (get (Some tool) "index");
  let toolIndex := rawToolIndex field in
  index ← computeToolBlockIndex toolIndex;
  let toolId := tool_id tool toolIndex in
  let toolName := tool_name tool toolIndex in
  b ← gets (openBlock ∘ st);
  match b with
  | Some (BTool i t id name) =>
      if bool_decide (t = toolIndex) && (i =? index) then
        update (set_openBlock (Some (BTool i t
          (if negb (json_truthy id) && json_truthy toolId then toolId else id)
          (if negb (json_truthy name) && json_truthy toolName then toolName else name))));;
        mret i
      else startToolBlock index toolIndex toolId toolName
  | _ => startToolBlock index toolIndex toolId toolName
  end.

Definition addOutputEmission : eff Tr unit :=
  update (λ s, if sawUsageCompletionTokens s then s
               else set_tokens (outputTokens s + 1) (sawUsageCompletionTokens s) s).

Definition applyUsage (parsed : Json) : eff Tr unit :=
  match opt_get (opt_get (Some parsed) "usage") "completion_tokens" with
  | Some (JNum n) => update (set_tokens n true)
  | _ => mret tt
  end.

Definition non_null (v : option Json) : option Json :=
  match v with Some JNull => None | v => v end.

(** [choice] is neither null nor undefined. *)
Definition recordStopMetadata (choice : Json) : eff Tr unit :=
  update (λ s,
    let s1 := match non_null (opt_get (Some choice) "finish_reason") with
              | Some r => set_stop (Some r) (lastStopSequence s) s | None => s end in
    match non_null (opt_get (Some choice) "stop_sequence") with
    | Some q => set_stop (lastFinishReason s1) (Some q) s1 | None => s1 end).

Definition emitTextDelta (content : option Json) : eff Tr unit :=
  match content with
  | Some (JStr text) =>
      if bool_decide (text = "") then mret tt
      else
        index ← ensureTextBlock;
        emit (TextDelta index text);;
        addOutputEmission
  | _ => mret tt
  end.

Fixpoint emit_tool_calls (toolCalls : list Json) : eff Tr unit :=
  match toolCalls with
  | [] => mret tt
  | toolCall :: rest =>
      index ← ensureToolBlock toolCall;
      (match opt_get (opt_get (Some toolCall) "function") "arguments" with
       | Some (JStr partialJson) =>
           if bool_decide (partialJson = "") then mret tt
           else emit (InputJsonDelta index partialJson);; addOutputEmission
       | _ => mret tt
       end);;
      emit_tool_calls rest
  end.

Definition emitToolCallDeltas (toolCalls : option Json) : eff Tr unit :=
  match toolCalls with Some (JArr calls) => emit_tool_calls calls | _ => mret tt end.

Definition handleChunk (parsed : Json) : eff Tr unit :=
  id ← lift_result (get (Some parsed) "id");
  (match id with
   | Some id => if json_truthy id then update (set_messageId id) else mret tt
   | None => mret tt
   end);;
  applyUsage parsed;;
  match opt_first (opt_get (Some parsed) "choices") with
  | Some choice =>
      if json_truthy choice then
        recordStopMetadata choice;;
        emitTextDelta (opt_get (opt_get (Some choice) "delta") "content");;
        emitToolCallDeltas (opt_get (opt_get (Some choice) "delta") "tool_calls")
      else mret tt
  | None => mret tt
  end.

(** ** One server-sent event *)

Inductive line_kind := LSkip | LData (data : string) | LUnknown.

Definition classify (line : string) : line_kind :=
  if bool_decide (line = "") || startsWith ":" line then LSkip
  else if startsWith "data:" line then
    let maybeSpace := slice 5 line in
    LData (if startsWith " " maybeSpace then slice 1 maybeSpace else maybeSpace)
  else if startsWith "event:" line || startsWith "id:" line || startsWith "retry:" line then LSkip
  else LUnknown.

Definition data_of (line : string) : option string :=
  match classify line with LData d => Some d | _ => None end.

Definition parseSsePayload (eventPayload : string) : option string * Z :=
  let lines := split newline eventPayload in
  let dataLines := omap data_of lines in
  (match dataLines with [] => None | _ => Some (join newline dataLines) end,
   sumZ (λ line, match classify line with LUnknown => 1 | _ => 0 end) lines).

Section run.
(** [JSON.parse], [None] when it throws. *)
Context (json_parse : string → option Json).

(** [true] for [done]. *)
Definition processEvent (eventPayload : string) : eff Tr bool :=
  if bool_decide (trim eventPayload = "") then mret false
  else
    let '(data, unknownLineCount) := parseSsePayload eventPayload in
    count_unknown unknownLineCount;;
    match data with
    | None => mret false
    | Some data =>
        if bool_decide (data = "[DONE]") then mret true
        else
          match json_parse data with
          | None => count_unknown 1;; mret false
          | Some parsed => handleChunk parsed;; mret false
          end
    end.

Definition emitTerminalDelta (stopReason : option Json) : eff Tr unit :=
  ensureMessageStart;;
  closeOpenBlock;;
  let normalized := normalizeFinishReason stopReason in
  stop ← gets (lastStopSequence ∘ st);
  tokens ← gets (outputTokens ∘ st);
  emit (MessageDelta normalized (if bool_decide (normalized = "stop_sequence") then stop else None) tokens).

Definition emitMessageStop : eff Tr unit := emit MessageStop.

(** ** The upstream *)

(** [TextDecoder.decode] with [stream: true]. *)
Context {Decoder : Type} (new_decoder : Decoder) (decode : Decoder → list Byte.byte → Decoder * string).

(** [replaceAll] of carriage return and newline, then of carriage return, by newline. *)
Fixpoint normalize_newlines (s : string) : string :=
  match s with
  | EmptyString => EmptyString
  | String c s' =>
      if bool_decide (c = carriage_return) then
        String newline
          (match s' with
           | String d s'' => if bool_decide (d = newline) then normalize_newlines s'' else normalize_newlines s'
           | EmptyString => EmptyString
           end)
      else String c (normalize_newlines s')
  end.

(** The text up to the first empty line, and the text after it. *)
Fixpoint split_frame (s : string) : option (string * string) :=
  match s with
  | EmptyString => None
  | String c s' =>
      match s' with
      | String d s'' =>
          if bool_decide (c = newline) && bool_decide (d = newline) then Some (EmptyString, s'')
          else (λ '(f, r), (String c f, r)) <$> split_frame s'
      | EmptyString => None
      end
  end.

Inductive Wake := WPing | WRead (value : list Byte.byte) | WDone | WFail (error : string).
(** What the wait ended with; whether the consumer has cancelled by then. *)
Record Turn := mkTurn { t_aborted : bool; t_wake : Wake }.

Inductive StreamCompletion := complete | truncated.

Record W := mkW {
  tr : Tr; buffer : string; decoder : Decoder;
  aborted : bool; sawTerminalMarker : bool; closed : bool; upstreamCancelled : bool
}.

Definition lift {A} (m : eff Tr A) : eff W A := λ w,
  let '(t, r) := m (tr w) in
  (mkW t (buffer w) (decoder w) (aborted w) (sawTerminalMarker w) (closed w) (upstreamCancelled w), r).
Definition set_buffer (b : string) (w : W) : W :=
  mkW (tr w) b (decoder w) (aborted w) (sawTerminalMarker w) (closed w) (upstreamCancelled w).
Definition set_decoder (d : Decoder) (w : W) : W :=
  mkW (tr w) (buffer w) d (aborted w) (sawTerminalMarker w) (closed w) (upstreamCancelled w).
Definition set_aborted (a : bool) (w : W) : W :=
  mkW (tr w) (buffer w) (decoder w) a (sawTerminalMarker w) (closed w) (upstreamCancelled w).
Definition set_terminal (w : W) : W :=
  mkW (tr w) (buffer w) (decoder w) (aborted w) true (closed w) (upstreamCancelled w).
Definition close (w : W) : W :=
  mkW (tr w) (buffer w) (decoder w) (aborted w) (sawTerminalMarker w) true (upstreamCancelled w).
Definition cancel_upstream (w : W) : W :=
  mkW (tr w) (buffer w) (decoder w) (aborted w) (sawTerminalMarker w) (closed w) true.

(** The loop over the complete events in the buffer; [true] when the outer
    loop is to end. *)
Fixpoint process_buffer (fuel : nat) : eff W bool :=
  match fuel with
  | O => mret false
  | S fuel' =>
      buf ← gets buffer;
      match split_frame buf with
      | None => mret false
      | Some (eventPayload, rest) =>
          stop ← gets aborted;
          if stop : bool then mret true
          else
            modify (set_buffer rest);;
            status ← lift (processEvent eventPayload);
            if status : bool then modify set_terminal;; mret true
            else process_buffer fuel'
      end
  end.

(** One more read: decoded, appended, and every complete event processed. *)
Definition read_value (value : list Byte.byte) : eff W bool :=
  d ← gets decoder;
  let '(d', text) := decode d value in
  modify (set_decoder d');;
  modify (λ w, set_buffer (buffer w +:+ normalize_newlines text) w);;
  buf ← gets buffer;
  process_buffer (S (String.length buf)).

(** [false] when the translator still waits at the end of the turns. *)
Fixpoint read_loop (turns : list Turn) : eff W bool :=
  match turns with
  | [] => mret false
  | t :: rest =>
      modify (set_aborted (t_aborted t));;
      match t_wake t with
      | WFail e => throw e
      | wake =>
          if t_aborted t then mret true
          else
            match wake with
            | WPing => lift (emit Ping);; read_loop rest
            | WRead value => fin ← read_value value; if fin : bool then mret true else read_loop rest
            | WDone | WFail _ => mret true
            end
      end
  end.

(** After the loop: what is left in the buffer, and the end of the message. *)
Definition finish_stream : eff W StreamCompletion :=
  buf ← gets buffer;
  stop ← gets aborted;
  (if bool_decide (trim buf = "") then mret tt
   else if stop : bool then mret tt
   else _ ← lift (processEvent buf); mret tt);;
  if stop : bool then mret truncated
  else
    last ← gets (λ w, lastFinishReason (st (tr w)));
    lift (emitTerminalDelta last);;
    lift emitMessageStop;;
    modify close;;
    saw ← gets sawTerminalMarker;
    mret (if saw : bool then complete else truncated).

(** The [catch] clause. *)
Definition on_error (error : string) : eff W StreamCompletion :=
  stop ← gets aborted;
  if stop : bool then mret truncated
  else
    lift (emitTerminalDelta (Some (JStr "stop")));;
    lift emitMessageStop;;
    modify close;;
    mret truncated.

Definition process_body (turns : list Turn) : eff W (option StreamCompletion) :=
  fin ← read_loop turns;
  if fin : bool then c ← finish_stream; mret (Some c) else mret None.

Definition initial (id : Json) (model : string) (unknown : Z) : W :=
  mkW (mkTr (createStreamState id model) [] unknown) "" new_decoder false false false false.

(** [None] when the translator still waits. *)
Definition processUpstreamStream (id : Json) (model : string) (unknown : Z) (turns : list Turn)
    : W * option StreamCompletion :=
  match try_catch (process_body turns) (λ e, c ← on_error e; mret (Some c)) (initial id model unknown) with
  | (w, Ok (Some c)) => (cancel_upstream w, Some c)
  | (w, Ok None) => (w, None)
  | (w, Err _) => (cancel_upstream w, None)
  end.

(** What [completed] resolves with; [None] while it is pending.  [cancel]
    resolves it as soon as it runs. *)
Definition completed (id : Json) (model : string) (turns : list Turn) : option bool :=
  match (processUpstreamStream id model 0 turns).2 with
  | Some complete => Some true
  | Some truncated => Some false
  | None => None
  end.
End run.

Arguments W Decoder : clear implicits.
