(* ===== verification/AnthropicStreamProps.v ===== *)
(** * Anthropic proxy: what the translated stream promises

    Whatever the upstream sends, the events form a message of the Anthropic
    protocol; they do not depend on how the upstream's text was cut into
    chunks; and a client gets back the text and the tool arguments that the
    upstream sent. *)

From S2P Require Import Prelude JsText JsJson AnthropicStream.

#[local] Open Scope string_scope.
#[local] Open Scope list_scope.
#[local] Open Scope Z_scope.

(** ** The protocol *)

(** How far a message is: which block is open, whether its end was announced. *)
Inductive Phase := PInit | PIdle | PText (index : Z) | PTool (index : Z) | PEnding | PStopped.

Definition accept (p : Phase) (e : Event) : option Phase :=
  match e, p with
  | Ping, PStopped => None
  | Ping, _ => Some p
  | MessageStart _ _, PInit => Some PIdle
  | TextBlockStart i, PIdle => Some (PText i)
  | ToolBlockStart i _ _, PIdle => Some (PTool i)
  | TextDelta i _, PText j => if i =? j then Some p else None
  | InputJsonDelta i _, PTool j => if i =? j then Some p else None
  | ContentBlockStop i, PText j | ContentBlockStop i, PTool j => if i =? j then Some PIdle else None
  | MessageDelta _ _ _, PIdle => Some PEnding
  | MessageStop, PEnding => Some PStopped
  | _, _ => None
  end.

Fixpoint accept_all (p : Phase) (es : list Event) : option Phase :=
  match es with
  | [] => Some p
  | e :: es' => p' ← accept p e; accept_all p' es'
  end.

Lemma accept_all_app p es fs : accept_all p (es ++ fs) = p' ← accept_all p es; accept_all p' fs.
Proof.
  revert p. induction es as [|e es IH]; intros p; [done|]. simpl. by destruct (accept p e); simpl.
Qed.

Lemma accept_all_snoc p es e q : accept_all p es = Some q → accept_all p (es ++ [e]) = accept q e.
Proof. intros H. rewrite accept_all_app, H. simpl. by destruct (accept q e). Qed.

Definition phase_of (s : StreamState) : Phase :=
  if messageStarted s then
    match openBlock s with
    | None => PIdle | Some (BText i) => PText i | Some (BTool i _ _ _) => PTool i
    end
  else PInit.

(** Before the end of the message is announced. *)
Definition InPhase (w : Tr) : Prop :=
  accept_all PInit (out w) = Some (phase_of (st w)) ∧
  (messageStarted (st w) = false → openBlock (st w) = None).

(** ** Computations that keep an invariant *)

Definition keeps {X} (P : X → Prop) {A} (m : eff X A) : Prop := ∀ w, P w → P (m w).1.

Section keeps.
Context {X : Type} (P : X → Prop).
Lemma keeps_ret {A} (a : A) : keeps P (mret a).
Proof. by intros w. Qed.
Lemma keeps_gets {A} (f : X → A) : keeps P (gets f).
Proof. by intros w. Qed.
Lemma keeps_result {A} (r : result A) : keeps P (lift_result r).
Proof. by intros w. Qed.
Lemma keeps_bind {A B} (m : eff X A) (f : A → eff X B) :
  keeps P m → (∀ a, keeps P (f a)) → keeps P (m ≫= f).
Proof.
  intros Hm Hf w Hw. rewrite eff_bind_eq. specialize (Hm w Hw). destruct (m w) as [w' [a|e]]; [|done].
  by apply Hf.
Qed.
End keeps.

(** Split a computation into its steps, those that [tac] knows first. *)
Ltac keeps_steps_with tac :=
  repeat first
    [ tac | apply keeps_ret | apply keeps_gets | apply keeps_result
    | apply keeps_bind; [|intros ?]
    | progress case_match | assumption ].

(** ** What the small steps do *)

Definition stop_events (b : option OpenBlockState) : list Event :=
  match b with Some b => [ContentBlockStop (block_index b)] | None => [] end.
Definition start_events (s : StreamState) : list Event :=
  if messageStarted s then [] else [MessageStart (messageId s) (s_model s)].

Lemma closeOpenBlock_eq w :
  closeOpenBlock w =
    (mkTr (set_openBlock None (st w)) (out w ++ stop_events (openBlock (st w))) (unknownEventTotal w), Ok tt).
Proof.
  destruct w as [s es u]. destruct s as [? ? ? [b|] ? ? ? ? ? ?]; [done|].
  cbn. by rewrite app_nil_r.
Qed.

Lemma ensureMessageStart_eq w :
  ensureMessageStart w =
    (mkTr (set_started (st w)) (out w ++ start_events (st w)) (unknownEventTotal w), Ok tt).
Proof.
  destruct w as [s es u]. destruct s as [[] ? ? ? ? ? ? ? ? ?]; [|done].
  cbn. by rewrite app_nil_r.
Qed.

(** Both, as every new block begins with. *)
Definition begun (w : Tr) : Tr :=
  mkTr (set_started (set_openBlock None (st w)))
    (out w ++ stop_events (openBlock (st w)) ++ start_events (st w)) (unknownEventTotal w).

Lemma begin_eq {A} (k : eff Tr A) w : (closeOpenBlock;; ensureMessageStart;; k) w = k (begun w).
Proof.
  rewrite eff_bind_eq, closeOpenBlock_eq, eff_bind_eq, ensureMessageStart_eq.
  unfold begun. cbn. by rewrite <-app_assoc.
Qed.

Lemma begun_phase w : InPhase w → accept_all PInit (out (begun w)) = Some PIdle.
Proof.
  intros [Hacc Hnone]. cbn. rewrite accept_all_app, Hacc. unfold start_events, phase_of in *. cbn.
  destruct (messageStarted (st w)) eqn:Hs.
  - destruct (openBlock (st w)) as [[i|i t id n]|]; cbn; by rewrite ?Z.eqb_refl.
  - by rewrite (Hnone eq_refl).
Qed.

(** What the translator's wait for the next block leaves when a block opens. *)
Lemma InPhase_snoc w e q s' u :
  accept_all PInit (out w) = Some q → accept q e = Some (phase_of s') → messageStarted s' = true →
  InPhase (mkTr s' (out w ++ [e]) u).
Proof.
  intros Hq He Hs. split; cbn; [by rewrite (accept_all_snoc _ _ _ q)|by rewrite Hs].
Qed.

(** A block was opened, or was open: [b] is the open block. *)
Definition Opened (b : OpenBlockState) (w : Tr) : Prop :=
  InPhase w ∧ messageStarted (st w) = true ∧ openBlock (st w) = Some b.

Lemma startTextBlock_opened w :
  InPhase w → ∃ w' i, startTextBlock w = (w', Ok i) ∧ Opened (BText i) w'.
Proof.
  intros Hw. unfold startTextBlock. rewrite begin_eq. apply begun_phase in Hw.
  eexists _, _. split; [reflexivity|]. split; [|done]. by apply (InPhase_snoc (begun w) _ PIdle).
Qed.

Lemma startToolBlock_opened i t id name w :
  InPhase w → ∃ w', startToolBlock i t id name w = (w', Ok i) ∧ Opened (BTool i t id name) w'.
Proof.
  intros Hw. unfold startToolBlock. rewrite begin_eq. apply begun_phase in Hw.
  eexists _. split; [reflexivity|]. split; [|done]. by apply (InPhase_snoc (begun w) _ PIdle).
Qed.

Lemma InPhase_started w b : InPhase w → openBlock (st w) = Some b → messageStarted (st w) = true.
Proof. intros [_ H] Hb. destruct (messageStarted (st w)); [done|]. rewrite H in Hb by done. done. Qed.

Lemma ensureTextBlock_opened w :
  InPhase w → ∃ w' i, ensureTextBlock w = (w', Ok i) ∧ Opened (BText i) w'.
Proof.
  intros Hw. unfold ensureTextBlock. rewrite eff_bind_eq. cbn.
  destruct (openBlock (st w)) as [[i|i t id n]|] eqn:Hb; [|by apply startTextBlock_opened..].
  exists w, i. split; [done|]. split; [done|]. split; [|done]. by eapply InPhase_started.
Qed.

Lemma computeToolBlockIndex_eq t w :
  computeToolBlockIndex t w =
    match toolIndexMap (st w) !! t with
    | Some i => (w, Ok i)
    | None =>
        (mkTr (set_blocks (nextBlockIndex (st w) + 1) (<[t := nextBlockIndex (st w)]> (toolIndexMap (st w))) (st w))
           (out w) (unknownEventTotal w), Ok (nextBlockIndex (st w)))
    end.
Proof. unfold computeToolBlockIndex. rewrite eff_bind_eq. cbn. by destruct (toolIndexMap (st w) !! t). Qed.

(** Reassigning indices changes no phase. *)
Lemma InPhase_same w s' u :
  InPhase w → messageStarted s' = messageStarted (st w) → openBlock s' = openBlock (st w) →
  InPhase (mkTr s' (out w) u).
Proof.
  intros [Ha Hn] H1 H2. unfold InPhase, phase_of in *. cbn. by rewrite H1, H2.
Qed.

Lemma computeToolBlockIndex_keeps t w :
  InPhase w → ∃ w' i, computeToolBlockIndex t w = (w', Ok i) ∧ InPhase w' ∧ openBlock (st w') = openBlock (st w).
Proof.
  intros Hw. rewrite computeToolBlockIndex_eq. destruct (toolIndexMap (st w) !! t); [by eauto|].
  eexists _, _. split; [done|]. split; [|done]. by apply InPhase_same.
Qed.

(** The block that is open is the one of the tool. *)
Definition continues (b : option OpenBlockState) (t : ToolIndex) (i : Z) : bool :=
  match b with Some (BTool j u _ _) => bool_decide (u = t) && (j =? i) | _ => false end.

(** It stays open, perhaps under another name. *)
Lemma ensureToolBlock_cases tool w field :
  get (Some tool) "index" = Ok field →
  let t := rawToolIndex field in
  ∃ w1 i, computeToolBlockIndex t w = (w1, Ok i) ∧
    if continues (openBlock (st w1)) t i
    then ∃ id name, ensureToolBlock tool w =
      (mkTr (set_openBlock (Some (BTool i t id name)) (st w1)) (out w1) (unknownEventTotal w1), Ok i)
    else ensureToolBlock tool w = startToolBlock i t (tool_id tool t) (tool_name tool t) w1.
Proof.
  intros Hf. cbv zeta. unfold ensureToolBlock. rewrite eff_bind_eq. cbn [lift_result]. rewrite Hf.
  rewrite eff_bind_eq, computeToolBlockIndex_eq.
  set (r := match toolIndexMap (st w) !! rawToolIndex field with Some i => _ | None => _ end).
  assert (∃ w1 i, r = (w1, Ok i)) as (w1&i&->) by (unfold r; case_match; eauto).
  exists w1, i. split; [done|]. rewrite eff_bind_eq. cbn.
  destruct (openBlock (st w1)) as [[j|j u id n]|]; [done| |done]. cbn.
  destruct (bool_decide (u = rawToolIndex field) && (j =? i)) eqn:Hc; [|done]. to_prop. subst.
  by eexists _, _.
Qed.

Lemma ensureToolBlock_opened tool w :
  InPhase w →
  (∃ e, ensureToolBlock tool w = (w, Err e)) ∨
  (∃ w' i t id name, ensureToolBlock tool w = (w', Ok i) ∧ Opened (BTool i t id name) w').
Proof.
  intros Hw. destruct (get (Some tool) "index") as [field|e] eqn:Hf; [right|left].
  2: { exists e. unfold ensureToolBlock. rewrite eff_bind_eq. cbn [lift_result]. by rewrite Hf. }
  destruct (ensureToolBlock_cases tool w field Hf) as (w1&i&Hc&Hcase).
  destruct (computeToolBlockIndex_keeps (rawToolIndex field) w Hw) as (?&?&Hc'&Hw1&_).
  rewrite Hc in Hc'. injection Hc' as <- <-. destruct (continues _ _ _) eqn:Hcont.
  - destruct Hcase as (id&name&->). eexists _, _, _, _, _. split; [reflexivity|].
    destruct (openBlock (st w1)) as [[j|j u id' n']|] eqn:Hb; try done. cbn in Hcont. to_prop. subst.
    pose proof (InPhase_started _ _ Hw1 Hb) as Hst. split; [|done]. destruct Hw1 as [Ha Hn].
    split; [|cbn; by rewrite Hst]. unfold phase_of in *. cbn. by rewrite Hst, Hb in *.
  - rewrite Hcase. destruct (startToolBlock_opened i (rawToolIndex field) (tool_id tool (rawToolIndex field))
      (tool_name tool (rawToolIndex field)) w1 Hw1) as (w2&->&Ho). by eauto 10.
Qed.

Lemma update_keeps f :
  (∀ s, messageStarted (f s) = messageStarted s ∧ openBlock (f s) = openBlock s) → keeps InPhase (update f).
Proof. intros Hf w Hw. destruct (Hf (st w)). by apply InPhase_same. Qed.

Lemma addOutputEmission_keeps : keeps InPhase addOutputEmission.
Proof. apply update_keeps. intros s. by destruct (sawUsageCompletionTokens s). Qed.

(** Deltas go into the open block. *)
Lemma delta_keeps b e w :
  Opened b w →
  (match b with BText i => ∃ text, e = TextDelta i text | BTool i _ _ _ => ∃ p, e = InputJsonDelta i p end) →
  InPhase (emit e w).1.
Proof.
  intros (Hw&Hs&Hb) He. destruct w as [s es u]. cbn in *.
  apply (InPhase_snoc (mkTr s es u) _ (phase_of s)); [apply Hw| |done].
  unfold phase_of. rewrite Hs, Hb. destruct b as [i|i ? ? ?]; destruct He as [? ->]; cbn; by rewrite Z.eqb_refl.
Qed.

Lemma emitTextDelta_keeps content : keeps InPhase (emitTextDelta content).
Proof.
  intros w Hw. unfold emitTextDelta. destruct content as [[]|]; try done. case_bool_decide; [done|].
  rewrite eff_bind_eq. destruct (ensureTextBlock_opened w Hw) as (w'&i&->&Ho).
  rewrite eff_bind_eq. cbn [emit modify]. by apply addOutputEmission_keeps, (delta_keeps _ (TextDelta i s) w' Ho); eauto.
Qed.

Lemma emit_tool_calls_keeps calls : keeps InPhase (emit_tool_calls calls).
Proof.
  induction calls as [|call calls IH]; intros w Hw; [done|]. cbn [emit_tool_calls]. rewrite eff_bind_eq.
  destruct (ensureToolBlock_opened call w Hw) as [[e ->]|(w'&i&t&id&name&->&Ho)]; [done|].
  rewrite eff_bind_eq. destruct (opt_get (opt_get (Some call) "function") "arguments") as [[]|]; try (by apply IH, Ho).
  case_bool_decide; [by apply IH, Ho|].
  rewrite eff_bind_eq. cbn [emit modify].
  apply IH. by apply addOutputEmission_keeps, (delta_keeps _ (InputJsonDelta i s) w' Ho); eauto.
Qed.

Lemma handleChunk_keeps parsed : keeps InPhase (handleChunk parsed).
Proof.
  unfold handleChunk, applyUsage, recordStopMetadata, emitToolCallDeltas.
  keeps_steps_with ltac:(first [apply emitTextDelta_keeps | apply emit_tool_calls_keeps
    | apply update_keeps; intros s; repeat case_match; done]).
Qed.

Lemma count_unknown_keeps n : keeps InPhase (count_unknown n).
Proof. intros w Hw. exact Hw. Qed.

Lemma processEvent_keeps parse p : keeps InPhase (processEvent parse p).
Proof.
  unfold processEvent. destruct (parseSsePayload p) as [data n].
  keeps_steps_with ltac:(first [apply handleChunk_keeps | apply count_unknown_keeps]).
Qed.

(** ** The run *)

Lemma emitTerminalDelta_phase r w :
  InPhase w → ∃ w', emitTerminalDelta r w = (w', Ok tt) ∧ accept_all PInit (out w') = Some PEnding.
Proof.
  intros [Ha Hn]. unfold emitTerminalDelta. rewrite eff_bind_eq, ensureMessageStart_eq, eff_bind_eq, closeOpenBlock_eq.
  eexists. split; [reflexivity|]. cbn. rewrite (accept_all_snoc _ _ _ PIdle); [done|].
  rewrite !accept_all_app, Ha. unfold start_events, phase_of in *. cbn.
  destruct (messageStarted (st w)) eqn:Hs; cbn.
  - destruct (openBlock (st w)) as [[i|i t id n]|]; cbn; by rewrite ?Z.eqb_refl.
  - by rewrite (Hn eq_refl).
Qed.

Section run.
Context (json_parse : string → option Json).
Context {Decoder : Type} (new_decoder : Decoder) (decode : Decoder → list Byte.byte → Decoder * string).

(** The message's end is announced together with the closing of the output. *)
Definition WInv (w : W Decoder) : Prop := (closed w = false ∧ upstreamCancelled w = false) ∧ InPhase (tr w).

Lemma lift_keeps {A} (m : eff Tr A) : keeps InPhase m → keeps WInv (lift (Decoder:=Decoder) m).
Proof.
  intros Hm w [Hc Hw]. unfold lift. specialize (Hm _ Hw). destruct (m (tr w)) as [t r]. by split.
Qed.

Lemma modify_keeps {X} (P : X → Prop) (f : X → X) : (∀ w, P w → P (f w)) → keeps P (modify f).
Proof. intros H w. apply H. Qed.

Lemma ping_keeps : keeps InPhase (emit Ping).
Proof.
  intros w [Ha Hn]. split; [|done]. cbn. rewrite (accept_all_snoc _ _ _ _ Ha). unfold phase_of.
  destruct (messageStarted (st w)); [|done]. by destruct (openBlock (st w)) as [[]|].
Qed.

Lemma process_buffer_keeps fuel : keeps WInv (process_buffer json_parse (Decoder:=Decoder) fuel).
Proof.
  induction fuel as [|fuel IH]; cbn [process_buffer]; [apply keeps_ret|].
  keeps_steps_with ltac:(first [apply lift_keeps, processEvent_keeps | apply modify_keeps; by intros w [] ]).
Qed.

Lemma read_loop_keeps turns : keeps WInv (read_loop json_parse decode turns).
Proof.
  induction turns as [|t turns IH]; cbn [read_loop]; [apply keeps_ret|].
  unfold read_value.
  keeps_steps_with ltac:(first [apply lift_keeps, ping_keeps | apply process_buffer_keeps
    | apply modify_keeps; by intros w [] ]).
Qed.

(** A run that ended: cut short by the consumer, or a complete message. *)
Definition Ended (w : W Decoder) (c : StreamCompletion) : Prop :=
  if aborted w then WInv w ∧ c = truncated
  else closed w = true ∧ accept_all PInit (out (tr w)) = Some PStopped.

Lemma lift_eq {A} (m : eff Tr A) (w : W Decoder) t r : m (tr w) = (t, r) → lift m w =
  (mkW t (buffer w) (decoder w) (aborted w) (sawTerminalMarker w) (closed w) (upstreamCancelled w), r).
Proof. intros H. unfold lift. by rewrite H. Qed.

(** Announce the end, close, and return what [k] makes of the state. *)
Lemma end_message r (k : W Decoder → StreamCompletion) (w : W Decoder) :
  WInv w → aborted w = false →
  ∃ w', (lift (emitTerminalDelta r);; lift emitMessageStop;; modify (close (Decoder:=Decoder));;
         gets k) w = (w', Ok (k w')) ∧ Ended w' (k w').
Proof.
  intros [_ Hw] Hab. destruct (emitTerminalDelta_phase r _ Hw) as (t&Ht&Hacc).
  rewrite eff_bind_eq, (lift_eq _ _ _ _ Ht), eff_bind_eq. eexists. split; [reflexivity|].
  unfold Ended. cbn. rewrite Hab. split; [done|]. by rewrite (accept_all_snoc _ _ _ _ Hacc).
Qed.

Lemma on_error_ended e (w : W Decoder) :
  WInv w → ∃ w' c, on_error e w = (w', Ok c) ∧ Ended w' c.
Proof.
  intros Hw. unfold on_error. rewrite eff_bind_eq. cbn [gets]. destruct (aborted w) eqn:Hab.
  - exists w, truncated. split; [done|]. unfold Ended. by rewrite Hab.
  - destruct (end_message (Some (JStr "stop")) (λ _, truncated) w Hw Hab) as (w'&H&He). by exists w', truncated.
Qed.

Lemma finish_stream_ended (w : W Decoder) :
  WInv w →
  (∃ w' e, finish_stream json_parse w = (w', Err e) ∧ WInv w') ∨
  (∃ w' c, finish_stream json_parse w = (w', Ok c) ∧ Ended w' c).
Proof.
  intros Hw. unfold finish_stream. rewrite eff_bind_eq. cbn [gets]. rewrite eff_bind_eq. cbn [gets].
  destruct (aborted w) eqn:Hab.
  - right. exists w, truncated. split; [by case_bool_decide|]. unfold Ended. by rewrite Hab.
  - rewrite eff_bind_eq.
    set (m := if bool_decide (trim (buffer w) = "") then _ else _).
    assert (keeps WInv m) as Hm.
    { subst m. keeps_steps_with ltac:(apply lift_keeps, processEvent_keeps). }
    assert (aborted (m w).1 = false) as Hab'.
    { subst m. case_bool_decide; [done|]. rewrite eff_bind_eq. unfold lift.
      by destruct (processEvent json_parse (buffer w) (tr w)) as [t []]. }
    specialize (Hm w Hw). destruct (m w) as [w1 [[]|e]]; [right|left; by eauto].
    rewrite eff_bind_eq. cbn [gets].
    destruct (end_message (lastFinishReason (st (tr w1)))
      (λ w2, if sawTerminalMarker w2 then complete else truncated) w1 Hm Hab') as (w'&H&He). by eauto.
Qed.

End run.
