(* ===== verification/AnthropicChunks.v ===== *)
(** * Anthropic proxy: the stream as one text

    The upstream's text, cut into events at its empty lines, determines what is
    emitted: how it was cut into chunks and the pings between them do not
    matter.  What the events carry is then read off the text. *)

From S2P Require Import Prelude JsText JsJson AnthropicStream AnthropicStreamProps.

#[local] Open Scope string_scope.
#[local] Open Scope list_scope.
#[local] Open Scope Z_scope.

(** ** The events of a text *)

(** The event that ends the stream. *)
Definition is_done (eventPayload : string) : bool :=
  negb (bool_decide (trim eventPayload = "")) &&
  bool_decide ((parseSsePayload eventPayload).1 = Some "[DONE]").

(** The complete events up to the first that ends the stream, the text after
    them, and whether there was one. *)
Fixpoint frames_upto (fuel : nat) (s : string) : list string * string * bool :=
  match fuel with
  | O => ([], s, false)
  | S fuel' =>
      match split_frame s with
      | None => ([], s, false)
      | Some (p, r) =>
          if is_done p then ([p], r, true)
          else let '(ps, r', d) := frames_upto fuel' r in (p :: ps, r', d)
      end
  end.

Definition frames (s : string) : list string * string * bool := frames_upto (S (String.length s)) s.

Lemma split_frame_cons c d s :
  split_frame (String c (String d s)) =
    if bool_decide (c = newline) && bool_decide (d = newline) then Some (EmptyString, s)
    else (λ '(f, r), (String c f, r)) <$> split_frame (String d s).
Proof. done. Qed.

Lemma split_frame_length s p r : split_frame s = Some (p, r) → (String.length r < String.length s)%nat.
Proof.
  revert p. induction s as [|c s IH]; intros p H; [done|]. destruct s as [|d s]; [done|].
  rewrite split_frame_cons in H. destruct (_ && _); [simplify_eq; cbn; lia|].
  apply fmap_Some in H as ([p' r']&H&?). simplify_eq. apply IH in H. cbn in *. lia.
Qed.

Lemma split_frame_app s t p r : split_frame s = Some (p, r) → split_frame (s +:+ t) = Some (p, r +:+ t).
Proof.
  revert p. induction s as [|c s IH]; intros p H; [done|]. destruct s as [|d s]; [done|].
  change (split_frame (String c (String d (s +:+ t))) = Some (p, r +:+ t)).
  rewrite split_frame_cons in *. destruct (_ && _); [by simplify_eq|].
  apply fmap_Some in H as ([p' r']&H&?). simplify_eq. apply IH in H.
  change (String d s +:+ t) with (String d (s +:+ t)) in H. by rewrite H.
Qed.

Lemma frames_fuel n m s :
  (String.length s < n)%nat → (String.length s < m)%nat → frames_upto n s = frames_upto m s.
Proof.
  revert m s. induction n as [|n IH]; intros [|m] s Hn Hm; [lia..|]. cbn.
  destruct (split_frame s) as [[p r]|] eqn:E; [|done]. apply split_frame_length in E.
  rewrite (IH m r) by lia. done.
Qed.

Lemma frames_eq s :
  frames s = match split_frame s with
             | None => ([], s, false)
             | Some (p, r) => if is_done p then ([p], r, true)
                              else let '(ps, r', d) := frames r in (p :: ps, r', d)
             end.
Proof.
  unfold frames. cbn [frames_upto]. destruct (split_frame s) as [[p r]|] eqn:E; [|done].
  apply split_frame_length in E. by rewrite (frames_fuel _ (S (String.length r)) r) by lia.
Qed.

(** Induction over the events of a text. *)
Lemma frames_ind (P : string → list string * string * bool → Prop) :
  (∀ s, split_frame s = None → P s ([], s, false)) →
  (∀ s p r, split_frame s = Some (p, r) → is_done p = true → P s ([p], r, true)) →
  (∀ s p r ps r' d, split_frame s = Some (p, r) → is_done p = false → frames r = (ps, r', d) →
     P r (ps, r', d) → P s (p :: ps, r', d)) →
  ∀ s, P s (frames s).
Proof.
  intros Hnone Hdone Hmore s. remember (String.length s) as n eqn:Hn. revert s Hn.
  induction (lt_wf n) as [n _ IH]. intros s ->. rewrite frames_eq.
  destruct (split_frame s) as [[p r]|] eqn:E; [|by apply Hnone].
  destruct (is_done p) eqn:Ed; [by eapply Hdone|].
  pose proof (IH _ (split_frame_length _ _ _ E) r eq_refl) as Hr.
  destruct (frames r) as [[ps r'] d] eqn:Er. by eapply Hmore.
Qed.

(** More text comes: the events so far stay. *)
Lemma frames_app s t :
  let '(ps, r, d) := frames s in
  frames (s +:+ t) =
    if d : bool then (ps, r +:+ t, true) else let '(ps', r', d') := frames (r +:+ t) in (ps ++ ps', r', d').
Proof.
  apply (frames_ind (λ s '(ps, r, d), frames (s +:+ t) =
    if d : bool then (ps, r +:+ t, true) else let '(ps', r', d') := frames (r +:+ t) in (ps ++ ps', r', d'))); clear s.
  - intros s _. by destruct (frames (s +:+ t)) as [[] ].
  - intros s p r E Hd. rewrite frames_eq. by rewrite (split_frame_app _ _ _ _ E), Hd.
  - intros s p r ps r' d E Hd Hr IH. rewrite frames_eq, (split_frame_app _ _ _ _ E), Hd, IH.
    destruct d; [done|]. by destruct (frames (r' +:+ t)) as [[] ].
Qed.

(** What is left has no complete event. *)
Lemma frames_rest s : let '(ps, r, d) := frames s in d = false → frames r = ([], r, false).
Proof.
  apply (frames_ind (λ s '(ps, r, d), d = false → frames r = ([], r, false))); clear s; [|done|].
  - intros s E _. by rewrite frames_eq, E.
  - intros s p r ps r' d _ _ _ IH. apply IH.
Qed.

(** ** Pings aside *)

Definition is_ping (e : Event) : bool := match e with Ping => true | _ => false end.
Definition no_pings (es : list Event) : list Event := filter (λ e, negb (is_ping e)) es.

Definition erase (w : Tr) : Tr := mkTr (st w) (no_pings (out w)) (unknownEventTotal w).

(** A step does not look at what was emitted, and emits no ping. *)
Definition blind {A} (m : eff Tr A) : Prop := ∀ w, m (erase w) = (erase (m w).1, (m w).2).

Section blind.
Lemma blind_ret {A} (a : A) : blind (mret a).
Proof. done. Qed.
Lemma blind_result {A} (r : result A) : blind (lift_result r).
Proof. done. Qed.
Lemma blind_gets {A} (f : StreamState → A) : blind (gets (f ∘ st)).
Proof. done. Qed.
Lemma blind_update f : blind (update f).
Proof. done. Qed.
Lemma blind_unknown n : blind (count_unknown n).
Proof. done. Qed.
Lemma blind_emit e : is_ping e = false → blind (emit e).
Proof.
  intros He w. unfold erase, emit, modify, no_pings. cbn. rewrite filter_app, filter_cons_True, filter_nil; [done|].
  by rewrite He.
Qed.
Lemma blind_bind {A B} (m : eff Tr A) (f : A → eff Tr B) : blind m → (∀ a, blind (f a)) → blind (m ≫= f).
Proof.
  intros Hm Hf w. rewrite !eff_bind_eq, Hm. destruct (m w) as [w' [a|e]]; [|done]. apply Hf.
Qed.
End blind.

Ltac blind_steps_with tac :=
  repeat first
    [ tac | apply blind_ret | apply blind_result | apply blind_gets | apply blind_update | apply blind_unknown
    | apply blind_emit; done
    | apply blind_bind; [|intros ?] | progress case_match | assumption ].
Ltac blind_steps := blind_steps_with fail.

Lemma startTextBlock_blind : blind startTextBlock.
Proof. unfold startTextBlock, closeOpenBlock, ensureMessageStart. blind_steps. Qed.
Lemma startToolBlock_blind i t id name : blind (startToolBlock i t id name).
Proof. unfold startToolBlock, closeOpenBlock, ensureMessageStart. blind_steps. Qed.
Lemma ensureToolBlock_blind tool : blind (ensureToolBlock tool).
Proof.
  unfold ensureToolBlock, computeToolBlockIndex. blind_steps; try apply startToolBlock_blind.
  intros w. done.
Qed.
Lemma emit_tool_calls_blind calls : blind (emit_tool_calls calls).
Proof.
  induction calls; cbn [emit_tool_calls]; [apply blind_ret|]. unfold addOutputEmission.
  apply blind_bind; [apply ensureToolBlock_blind|intros ?]. blind_steps.
Qed.
Lemma handleChunk_blind parsed : blind (handleChunk parsed).
Proof.
  unfold handleChunk, applyUsage, recordStopMetadata, emitTextDelta, ensureTextBlock, emitToolCallDeltas, addOutputEmission.
  blind_steps_with ltac:(first [apply startTextBlock_blind | apply emit_tool_calls_blind]).
Qed.
Lemma processEvent_blind parse p : blind (processEvent parse p).
Proof.
  unfold processEvent. destruct (parseSsePayload p).
  blind_steps_with ltac:(apply handleChunk_blind).
Qed.
Lemma emitTerminalDelta_blind r : blind (emitTerminalDelta r).
Proof. unfold emitTerminalDelta, closeOpenBlock, ensureMessageStart. blind_steps. Qed.

(** ** The run on a text *)

Section run.
Context (json_parse : string → option Json).

Fixpoint process_all (ps : list string) : eff Tr unit :=
  match ps with
  | [] => mret tt
  | p :: ps' => _ ← processEvent json_parse p; process_all ps'
  end.

(** The end of a message: what text is left, and the closing events. *)
Definition finish_body (r : string) : eff Tr unit :=
  (if bool_decide (trim r = "") then mret tt else _ ← processEvent json_parse r; mret tt);;
  last ← gets (lastFinishReason ∘ st);
  emitTerminalDelta last;;
  emitMessageStop.

(** The message for a text that arrives whole. *)
Definition translate_body (ps : list string) (r : string) : eff Tr unit :=
  process_all ps;; finish_body r.

Definition end_on_error : eff Tr unit := emitTerminalDelta (Some (JStr "stop"));; emitMessageStop.

Definition translate (text : string) (t : Tr) : Tr * StreamCompletion :=
  let '(ps, r, d) := frames text in
  match translate_body ps r t with
  | (t', Ok _) => (t', if d then complete else truncated)
  | (t', Err _) => ((end_on_error t').1, truncated)
  end.

Lemma process_all_blind ps : blind (process_all ps).
Proof. induction ps; cbn; [apply blind_ret|]. apply blind_bind; [apply processEvent_blind|done]. Qed.

Lemma process_all_cons p ps t :
  process_all (p :: ps) t =
    match processEvent json_parse p t with (t', Ok _) => process_all ps t' | (t', Err e) => (t', Err e) end.
Proof. done. Qed.

Lemma process_all_app ps qs t :
  process_all (ps ++ qs) t = match process_all ps t with (t', Ok _) => process_all qs t' | r => r end.
Proof.
  revert t. induction ps as [|p ps IH]; intros t; [done|].
  change ((p :: ps) ++ qs) with (p :: (ps ++ qs)). rewrite !process_all_cons.
  destruct (processEvent json_parse p t) as [t' [b|e]]; [apply IH|done].
Qed.

Lemma processEvent_is_done p t t' b : processEvent json_parse p t = (t', Ok b) → b = is_done p.
Proof.
  unfold processEvent, is_done. destruct (parseSsePayload p) as [data n]. cbn [fst].
  case_bool_decide; cbn [negb andb]; [by intros [= _ <-]|]. rewrite eff_bind_eq. cbn [count_unknown modify].
  destruct data as [data|]; [|rewrite bool_decide_false by done; by intros [= _ <-]].
  case_bool_decide; [subst; rewrite bool_decide_true by done; by intros [= _ <-]|].
  rewrite bool_decide_false by congruence.
  destruct (json_parse data) as [j|]; [|by intros [= _ <-]]. rewrite eff_bind_eq.
  by destruct (handleChunk j _) as [w [u|e]]; intros [= _ <-].
Qed.

Context {Decoder : Type} (new_decoder : Decoder) (decode : Decoder → list Byte.byte → Decoder * string).

(** The buffer's complete events are processed in order. *)
Lemma process_buffer_frames fuel (w : W Decoder) :
  aborted w = false → (String.length (buffer w) < fuel)%nat →
  let '(ps, r, d) := frames (buffer w) in
  match process_all ps (tr w) with
  | (t, Ok _) => process_buffer json_parse fuel w =
      (mkW t r (decoder w) false (sawTerminalMarker w || d) (closed w) (upstreamCancelled w), Ok d)
  | (t, Err e) => ∃ w', process_buffer json_parse fuel w = (w', Err e) ∧ tr w' = t ∧ aborted w' = false
  end.
Proof.
  revert w. induction fuel as [|fuel IH]; intros w Hab Hf; [lia|].
  cbn [process_buffer]. rewrite eff_bind_eq. cbn [gets]. rewrite frames_eq.
  destruct (split_frame (buffer w)) as [[p r]|] eqn:E.
  2: { cbn. destruct w; cbn in *; subst. by rewrite orb_false_r. }
  apply split_frame_length in E. rewrite eff_bind_eq. cbn [gets]. rewrite Hab, eff_bind_eq. cbn [modify].
  rewrite eff_bind_eq. destruct (processEvent json_parse p (tr w)) as [t [b|e]] eqn:Ep.
  2: { rewrite (lift_eq _ _ t (Err e)) by done.
    destruct (is_done p); [|destruct (frames r) as [[ps r'] d]]; rewrite process_all_cons, Ep; by eauto. }
  rewrite (lift_eq _ _ t (Ok b)) by done. pose proof (processEvent_is_done _ _ _ _ Ep) as ->.
  destruct (is_done p) eqn:Ed.
  - rewrite process_all_cons, Ep. cbn. by rewrite orb_true_r, Hab.
  - cbn [set_buffer buffer decoder aborted sawTerminalMarker closed upstreamCancelled].
    specialize (IH (mkW t r (decoder w) (aborted w) (sawTerminalMarker w) (closed w) (upstreamCancelled w)) Hab ltac:(cbn; lia)).
    cbn [buffer decoder aborted sawTerminalMarker closed upstreamCancelled tr] in IH.
    destruct (frames r) as [[ps r'] d]. rewrite process_all_cons, Ep. apply IH.
Qed.

(** ** The run on chunks *)

(** Turns that bring chunks and pings only. *)
Definition streaming (t : Turn) : bool :=
  negb (t_aborted t) && match t_wake t with WPing | WRead _ => true | _ => false end.

Fixpoint decoded (d : Decoder) (turns : list Turn) : list string :=
  match turns with
  | [] => []
  | t :: rest =>
      match t_wake t with
      | WRead value => let '(d', text) := decode d value in text :: decoded d' rest
      | _ => decoded d rest
      end
  end.

Definition concat_text : list string → string := foldr String.append EmptyString.

Lemma process_all_erase ps t : (process_all ps (erase t)) = (erase (process_all ps t).1, (process_all ps t).2).
Proof. apply process_all_blind. Qed.

Lemma read_loop_frames pre post (w : W Decoder) :
  Forall (λ t, streaming t = true) pre → aborted w = false → sawTerminalMarker w = false →
  frames (buffer w) = ([], buffer w, false) →
  let '(ps, r, d) := frames (buffer w +:+ concat_text (normalize_newlines <$> decoded (decoder w) pre)) in
  match process_all ps (erase (tr w)) with
  | (t, Ok _) => ∃ w', read_loop json_parse decode (pre ++ mkTurn false WDone :: post) w = (w', Ok true) ∧
      erase (tr w') = t ∧ aborted w' = false ∧ sawTerminalMarker w' = d ∧
      (if d : bool then ∃ s, r = buffer w' +:+ s else buffer w' = r)
  | (t, Err e) => ∃ w', read_loop json_parse decode (pre ++ mkTurn false WDone :: post) w = (w', Err e) ∧
      erase (tr w') = t ∧ aborted w' = false
  end.
Proof.
  revert w. induction pre as [|[a wake] pre IH]; intros w Hpre Hab Hsaw Hbuf.
  - cbn [decoded fmap list_fmap concat_text foldr]. rewrite string_app_empty, Hbuf. cbn.
    eexists. split; [reflexivity|]. done.
  - inversion Hpre as [|? ? Hs Hpre']; subst. unfold streaming in Hs. cbn [t_aborted t_wake] in Hs.
    destruct a; [done|]. change ((mkTurn false wake :: pre) ++ ?x) with (mkTurn false wake :: (pre ++ x)).
    cbn [read_loop]. rewrite eff_bind_eq. cbn [modify t_aborted t_wake]. destruct wake as [|value| |]; try done.
    + cbn [decoded t_wake]. rewrite eff_bind_eq, (lift_eq _ _ _ _ eq_refl).
      match goal with |- context [read_loop _ _ _ ?w1] => specialize (IH w1 Hpre' eq_refl Hsaw Hbuf) end.
      assert (erase (mkTr (st (tr w)) (out (tr w) ++ [Ping]) (unknownEventTotal (tr w))) = erase (tr w)) as Her.
      { unfold erase. cbn. unfold no_pings. by rewrite filter_app, app_nil_r. }
      cbn in IH. rewrite Her in IH. apply IH.
    + cbn [decoded t_wake]. destruct (decode (decoder w) value) as [d' text] eqn:Edec.
      rewrite eff_bind_eq. unfold read_value. rewrite eff_bind_eq. cbn [gets]. cbn [set_aborted decoder]. rewrite Edec.
      rewrite eff_bind_eq. cbn [modify]. rewrite eff_bind_eq. cbn [modify]. rewrite eff_bind_eq. cbn [gets].
      match goal with |- context [process_buffer _ _ ?w] => set (w1 := w) end.
      pose proof (process_buffer_frames (S (String.length (buffer w1))) w1 eq_refl ltac:(lia)) as Hpb.
      cbn [fmap list_fmap concat_text foldr].
      set (n1 := normalize_newlines text) in *. fold (concat_text (normalize_newlines <$> decoded d' pre)).
      set (rest := concat_text _). change (buffer w1) with (buffer w +:+ n1) in *.
      rewrite <-string_app_assoc. pose proof (frames_app (buffer w +:+ n1) rest) as Happ.
      pose proof (frames_rest (buffer w +:+ n1)) as Hrest.
      destruct (frames (buffer w +:+ n1)) as [[ps r] d].
      pose proof (process_all_erase ps (tr w)) as Her. change (tr w1) with (tr w) in Hpb.
      destruct d.
      * rewrite Happ, Her. destruct (process_all ps (tr w)) as [t [[]|e]]; cbn [fst snd].
        -- rewrite Hpb. eexists. split; [reflexivity|]. cbn. rewrite orb_true_r. by eauto 10.
        -- destruct Hpb as (w'&->&<-&Hab'). eauto.
      * rewrite Happ. destruct (process_all ps (tr w)) as [t [[]|e]] eqn:Eall.
        2: { destruct (frames (r +:+ rest)) as [[ps' r'] d2] eqn:Efr. rewrite process_all_app, Her. cbn [fst snd].
             destruct Hpb as (w'&->&<-&Hab'). eauto. }
        rewrite Hpb. rewrite orb_false_r.
        match goal with |- context [read_loop _ _ _ ?w2] => specialize (IH w2 Hpre' eq_refl Hsaw (Hrest eq_refl)) end.
        cbn [buffer decoder tr] in IH. change (decoder w1) with d' in IH. fold rest in IH.
        destruct (frames (r +:+ rest)) as [[ps' r'] d2] eqn:Efr.
        rewrite process_all_app, Her. cbn [fst snd]. apply IH.
Qed.

Lemma finish_body_blind r : blind (finish_body r).
Proof.
  unfold finish_body, emitMessageStop.
  blind_steps_with ltac:(first [apply processEvent_blind | apply emitTerminalDelta_blind]).
Qed.
Lemma end_on_error_blind : blind end_on_error.
Proof. unfold end_on_error, emitMessageStop. blind_steps_with ltac:(apply emitTerminalDelta_blind). Qed.

Lemma emitTerminalDelta_ok r t : ∃ t', emitTerminalDelta r t = (t', Ok tt).
Proof.
  unfold emitTerminalDelta. rewrite eff_bind_eq, ensureMessageStart_eq, eff_bind_eq, closeOpenBlock_eq.
  by eexists.
Qed.

Lemma finish_stream_body (w : W Decoder) :
  aborted w = false →
  match finish_body (buffer w) (tr w) with
  | (t, Ok _) => ∃ w', finish_stream json_parse w = (w', Ok (if sawTerminalMarker w then complete else truncated)) ∧
      tr w' = t ∧ closed w' = true
  | (t, Err e) => ∃ w', finish_stream json_parse w = (w', Err e) ∧ tr w' = t ∧ aborted w' = false
  end.
Proof.
  intros Hab. unfold finish_stream, finish_body. rewrite !eff_bind_eq. cbn [gets]. rewrite eff_bind_eq. cbn [gets].
  rewrite Hab, eff_bind_eq.
  pose (tail := (last ← gets (λ w : W Decoder, lastFinishReason (st (tr w)));
    lift (emitTerminalDelta last);; lift emitMessageStop;; modify (close (Decoder:=Decoder));;
    saw ← gets sawTerminalMarker; mret (if saw : bool then complete else truncated)) : eff (W Decoder) StreamCompletion).
  assert (∀ u, let w1 := mkW u (buffer w) (decoder w) (aborted w) (sawTerminalMarker w) (closed w) (upstreamCancelled w) in
    match (last ← gets (lastFinishReason ∘ st); emitTerminalDelta last;; emitMessageStop) u with
    | (t, Ok _) => ∃ w', tail w1 = (w', Ok (if sawTerminalMarker w then complete else truncated)) ∧ tr w' = t ∧ closed w' = true
    | (t, Err e) => ∃ w', tail w1 = (w', Err e) ∧ tr w' = t ∧ aborted w' = false end) as Hend.
  { intros u. unfold tail. cbv zeta. rewrite !eff_bind_eq. cbn [gets]. rewrite !eff_bind_eq. cbn [tr]. change ((lastFinishReason ∘ st) u) with (lastFinishReason (st u)).
    destruct (emitTerminalDelta_ok (lastFinishReason (st u)) u) as [t Ht].
    unfold lift. cbn [tr]. rewrite Ht. cbn. eauto. }
  case_bool_decide.
  - cbn [mret eff_ret]. specialize (Hend (tr w)). destruct w. exact Hend.
  - rewrite !eff_bind_eq. unfold lift. destruct (processEvent json_parse (buffer w) (tr w)) as [t [b|e]].
    + exact (Hend t).
    + cbn. eauto.
Qed.

Lemma on_error_body e (w : W Decoder) :
  aborted w = false →
  ∃ w', on_error e w = (w', Ok truncated) ∧ tr w' = (end_on_error (tr w)).1 ∧ closed w' = true.
Proof.
  intros Hab. unfold on_error, end_on_error. rewrite !eff_bind_eq. cbn [gets]. rewrite Hab, eff_bind_eq.
  destruct (emitTerminalDelta_ok (Some (JStr "stop")) (tr w)) as [t Ht]. unfold lift. rewrite Ht. cbn. eauto.
Qed.

(** Nothing but white space follows the event that ends the stream. *)
Definition ends_quietly (text : string) : bool :=
  let '(_, r, d) := frames text in negb d || bool_decide (trim r = "").

Lemma run_translate id model unknown pre post :
  Forall (λ t, streaming t = true) pre →
  let text := concat_text (normalize_newlines <$> decoded new_decoder pre) in
  ends_quietly text = true →
  let '(w, c) := processUpstreamStream json_parse new_decoder decode id model unknown
                   (pre ++ mkTurn false WDone :: post) in
  let '(t, c') := translate text (mkTr (createStreamState id model) [] unknown) in
  erase (tr w) = t ∧ c = Some c' ∧ closed w = true.
Proof.
  intros Hpre text Hq. unfold processUpstreamStream, try_catch, process_body, translate, translate_body.
  set (w0 := initial _ _ _ _). rewrite eff_bind_eq.
  pose proof (read_loop_frames pre post w0 Hpre eq_refl eq_refl eq_refl) as Hrun.
  change (buffer w0 +:+ _) with text in Hrun. unfold ends_quietly in Hq.
  change (erase (tr w0)) with (mkTr (createStreamState id model) [] unknown) in Hrun.
  set (t0 := mkTr (createStreamState id model) [] unknown) in *.
  destruct (frames text) as [[ps r] d]. rewrite eff_bind_eq.
  assert (∀ e (w : W Decoder), aborted w = false →
    ∃ w' : W Decoder, (c ← on_error e; mret (Some c)) w = (w', Ok (Some truncated)) ∧
      erase (tr w') = (end_on_error (erase (tr w))).1 ∧ closed w' = true) as Herr.
  { intros e w Hab. destruct (on_error_body e w Hab) as (w'&H&Ht&?). exists w'.
    by rewrite eff_bind_eq, H, end_on_error_blind, Ht. }
  destruct (process_all ps t0) as [t [u|e]].
  2: { destruct Hrun as (w1&->&<-&Hab). destruct (Herr e w1 Hab) as (w2&->&Ht&?). by split; [exact Ht|]. }
  destruct Hrun as (w1&->&<-&Hab&Hsaw&Hr). rewrite eff_bind_eq.
  assert (finish_body r (erase (tr w1)) = finish_body (buffer w1) (erase (tr w1))) as ->.
  { destruct d; [|by subst]. destruct Hr as [s ->]. cbn in Hq. apply bool_decide_eq_true in Hq.
    unfold finish_body. rewrite (bool_decide_true (trim (buffer w1 +:+ s) = "")) by done.
    apply trim_empty in Hq. rewrite all_space_app in Hq. apply andb_true_iff in Hq as [Hq _].
    by rewrite bool_decide_true by (by apply trim_empty). }
  rewrite finish_body_blind. pose proof (finish_stream_body w1 Hab) as Hfin.
  destruct (finish_body (buffer w1) (tr w1)) as [t [v|e]]; cbn [fst snd].
  - destruct Hfin as (w2&->&<-&?). cbn. rewrite Hsaw. by destruct d.
  - destruct Hfin as (w2&->&<-&Hab2). destruct (Herr e w2 Hab2) as (w3&->&Ht&?). by split; [exact Ht|].
Qed.

Lemma normalize_char_free s : char_free carriage_return s = true → normalize_newlines s = s.
Proof.
  induction s as [|c s IH]; [done|]. cbn. intros [Hc Hs]%andb_true_iff. apply negb_true_iff in Hc.
  by rewrite Hc, IH.
Qed.

End run.
