(* ===== verification/AnthropicContent.v ===== *)
(** * Anthropic proxy: what a client gets back

    The text deltas concatenate to the upstream's text, and the argument deltas
    of a tool's block to the arguments the upstream sent for that tool. *)

From S2P Require Import Prelude JsText JsJson AnthropicStream AnthropicStreamProps AnthropicChunks.

#[local] Open Scope string_scope.
#[local] Open Scope list_scope.
#[local] Open Scope Z_scope.

(** ** The client's side *)

Definition text_piece (e : Event) : string := match e with TextDelta _ t => t | _ => "" end.
Definition args_piece (i : Z) (e : Event) : string :=
  match e with InputJsonDelta j p => if j =? i then p else "" | _ => "" end.
Definition client_text (es : list Event) : string := concat_text (text_piece <$> es).
Definition client_args (i : Z) (es : list Event) : string := concat_text (args_piece i <$> es).

(** ** The upstream's side *)

Definition chunk_choice (v : Json) : option Json :=
  match opt_first (opt_get (Some v) "choices") with
  | Some c => if json_truthy c then Some c else None
  | None => None
  end.
Definition chunk_text (v : Json) : string :=
  match opt_get (opt_get (chunk_choice v) "delta") "content" with Some (JStr t) => t | _ => "" end.
Definition chunk_calls (v : Json) : list Json :=
  match opt_get (opt_get (chunk_choice v) "delta") "tool_calls" with Some (JArr l) => l | _ => [] end.
Definition call_tool (c : Json) : ToolIndex := rawToolIndex (opt_get (Some c) "index").
Definition call_args (c : Json) : string :=
  match opt_get (opt_get (Some c) "function") "arguments" with Some (JStr a) => a | _ => "" end.
Definition args_of (t : ToolIndex) (calls : list Json) : string :=
  concat_text (call_args <$> filter (λ c, call_tool c = t) calls).

(** Neither a chunk nor a tool call is null. *)
Definition well_formed (v : Json) : Prop := v ≠ JNull ∧ JNull ∉ chunk_calls v.

Lemma concat_text_app l k : concat_text (l ++ k) = concat_text l +:+ concat_text k.
Proof. induction l as [|x l IH]; [done|]. cbn. by rewrite IH, string_app_assoc. Qed.
Lemma client_text_app es fs : client_text (es ++ fs) = client_text es +:+ client_text fs.
Proof. unfold client_text. by rewrite fmap_app, concat_text_app. Qed.
Lemma client_args_app i es fs : client_args i (es ++ fs) = client_args i es +:+ client_args i fs.
Proof. unfold client_args. by rewrite fmap_app, concat_text_app. Qed.
Lemma args_of_snoc t calls c :
  args_of t (calls ++ [c]) = args_of t calls +:+ (if decide (call_tool c = t) then call_args c else "").
Proof.
  unfold args_of. rewrite filter_app, fmap_app, concat_text_app. f_equal. rewrite filter_cons, filter_nil.
  case_decide; cbn; [apply string_app_empty|done].
Qed.
Lemma args_of_none t calls : t ∉ call_tool <$> calls → args_of t calls = "".
Proof.
  intros H. unfold args_of. induction calls as [|c calls IH]; [done|].
  rewrite fmap_cons, not_elem_of_cons in H. rewrite filter_cons_False by (by intros Hc; destruct H as [H _]; apply H). apply IH. apply H.
Qed.

(** ** What is kept while chunks are handled *)

(** Events that carry no content. *)
Definition bare (e : Event) : Prop :=
  match e with TextDelta _ _ | InputJsonDelta _ _ => False | _ => True end.

Lemma bare_text es : Forall bare es → client_text es = "".
Proof. induction 1 as [|e es He _ IH]; [done|]. unfold client_text in *. cbn. rewrite IH. by destruct e. Qed.
Lemma bare_args i es : Forall bare es → client_args i es = "".
Proof. induction 1 as [|e es He _ IH]; [done|]. unfold client_args in *. cbn. rewrite IH. by destruct e. Qed.

(** [text] and [calls] were handled so far; [tools] were called. *)
Record Content (text : string) (tools : list ToolIndex) (calls : list Json) (w : Tr) : Prop := {
  c_text : client_text (out w) = text;
  c_inj t u i : toolIndexMap (st w) !! t = Some i → toolIndexMap (st w) !! u = Some i → t = u;
  c_fresh t i : toolIndexMap (st w) !! t = Some i → i < nextBlockIndex (st w);
  c_tools t : t ∈ tools ↔ is_Some (toolIndexMap (st w) !! t);
  c_calls c : c ∈ calls → call_tool c ∈ tools;
  c_args t i : toolIndexMap (st w) !! t = Some i → client_args i (out w) = args_of t calls;
  c_started t i : toolIndexMap (st w) !! t = Some i → ∃ id name, ToolBlockStart i id name ∈ out w;
  c_deltas i p : InputJsonDelta i p ∈ out w → ∃ t, toolIndexMap (st w) !! t = Some i;
  c_texts i p : TextDelta i p ∈ out w → i < nextBlockIndex (st w) ∧ ∀ t, toolIndexMap (st w) !! t ≠ Some i;
  c_open i : openBlock (st w) = Some (BText i) → i < nextBlockIndex (st w) ∧ ∀ t, toolIndexMap (st w) !! t ≠ Some i;
  c_tool i t id name : openBlock (st w) = Some (BTool i t id name) → toolIndexMap (st w) !! t = Some i
}.

(** Nothing but blocks opening and closing happened. *)
Lemma Content_bare text tools calls w w' es :
  Content text tools calls w → out w' = out w ++ es → Forall bare es →
  toolIndexMap (st w') = toolIndexMap (st w) → nextBlockIndex (st w) ≤ nextBlockIndex (st w') →
  (∀ i, openBlock (st w') = Some (BText i) →
     openBlock (st w) = Some (BText i) ∨ i = nextBlockIndex (st w) ∧ i < nextBlockIndex (st w')) →
  (∀ i t id name, openBlock (st w') = Some (BTool i t id name) → toolIndexMap (st w) !! t = Some i) →
  Content text tools calls w'.
Proof.
  intros [] Hout Hbare Hmap Hnext Hopen Htool. split; rewrite ?Hmap, ?Hout; try done.
  - by rewrite client_text_app, (bare_text es), string_app_empty.
  - intros t i Hi. specialize (c_fresh0 t i Hi). lia.
  - intros t i Hi. rewrite client_args_app, (bare_args i es), string_app_empty by done. auto.
  - intros t i Hi. destruct (c_started0 t i Hi) as (id&name&Hin). exists id, name. apply elem_of_app. by left.
  - intros i p [Hin|Hin]%elem_of_app; [eauto|]. rewrite Forall_forall in Hbare. destruct (Hbare _ Hin).
  - intros i p [Hin|Hin]%elem_of_app.
    + destruct (c_texts0 i p Hin) as [? ?]. split; [lia|done].
    + rewrite Forall_forall in Hbare. destruct (Hbare _ Hin).
  - intros i [Hi|[-> Hi]]%Hopen.
    + destruct (c_open0 i Hi). split; [lia|done].
    + split; [done|]. intros t Ht. apply c_fresh0 in Ht. lia.
Qed.

Lemma begun_bare w : Forall bare (stop_events (openBlock (st w)) ++ start_events (st w)).
Proof.
  apply Forall_app. unfold stop_events, start_events.
  split; [destruct (openBlock (st w)); by repeat constructor|destruct (messageStarted (st w)); by repeat constructor].
Qed.

(** Changes of the state that leave the blocks alone. *)
Lemma Content_update text tools calls w f :
  Content text tools calls w →
  (∀ s, toolIndexMap (f s) = toolIndexMap s ∧ nextBlockIndex (f s) = nextBlockIndex s ∧ openBlock (f s) = openBlock s) →
  Content text tools calls (update f w).1.
Proof.
  intros Hw Hf. destruct (Hf (st w)) as (H1&H2&H3).
  apply (Content_bare _ _ _ w _ []); cbn; rewrite ?app_nil_r, ?H1, ?H2, ?H3; auto; [lia|apply Hw].
Qed.

Lemma addOutputEmission_content text tools calls w : Content text tools calls w → Content text tools calls (addOutputEmission w).1.
Proof. intros Hw. apply Content_update; [done|]. intros s. by destruct (sawUsageCompletionTokens s). Qed.

Lemma ensureTextBlock_content text tools calls w :
  Content text tools calls w →
  ∃ w' i, ensureTextBlock w = (w', Ok i) ∧ Content text tools calls w' ∧ openBlock (st w') = Some (BText i).
Proof.
  intros Hw. unfold ensureTextBlock. rewrite eff_bind_eq. cbn [gets].
  change ((openBlock ∘ st) w) with (openBlock (st w)).
  assert (∃ w' i, startTextBlock w = (w', Ok i) ∧ Content text tools calls w' ∧ openBlock (st w') = Some (BText i)) as Hnew.
  { unfold startTextBlock. rewrite begin_eq. eexists _, _. split; [reflexivity|]. split; [|done].
    eapply (Content_bare _ _ _ w _ ((stop_events (openBlock (st w)) ++ start_events (st w)) ++ [TextBlockStart _])); cbn.
    - done.
    - by rewrite <-!app_assoc.
    - apply Forall_app; split; [apply begun_bare|by repeat constructor].
    - done.
    - lia.
    - intros i [= <-]. right. lia.
    - done. }
  destruct (openBlock (st w)) as [[i|i t id n]|] eqn:Hb; [by eauto|apply Hnew..].
Qed.

Lemma emitTextDelta_content text tools calls w content :
  Content text tools calls w →
  ∃ w', emitTextDelta content w = (w', Ok tt) ∧
    Content (text +:+ match content with Some (JStr t) => t | _ => "" end) tools calls w'.
Proof.
  intros Hw. unfold emitTextDelta.
  assert (∀ u, u = "" → ∃ w', (mret tt : eff Tr unit) w = (w', Ok tt) ∧ Content (text +:+ u) tools calls w') as Hskip.
  { intros u ->. exists w. by rewrite string_app_empty. }
  destruct content as [[]|]; try by apply Hskip. case_bool_decide as Hs; [by apply Hskip|].
  rewrite eff_bind_eq. destruct (ensureTextBlock_content _ _ _ _ Hw) as (w1&i&->&H1&Hb).
  rewrite eff_bind_eq. cbn [emit modify]. eexists. split; [reflexivity|].
  apply (addOutputEmission_content _ _ _ (mkTr (st w1) (out w1 ++ [TextDelta i s]) (unknownEventTotal w1))).
  destruct H1. split; cbn [st out]; try done.
  - rewrite client_text_app, c_text0. f_equal. apply string_app_empty.
  - intros t j Hj. rewrite client_args_app. change (client_args j [TextDelta i s]) with "". rewrite string_app_empty. auto.
  - intros t j Hj. destruct (c_started0 t j Hj) as (id&name&Hin). exists id, name. apply elem_of_app. by left.
  - intros j p [Hin|Hin]%elem_of_app; [eauto|]. by apply list_elem_of_singleton in Hin.
  - intros j p [Hin|Hin]%elem_of_app; [eauto|]. apply list_elem_of_singleton in Hin as [= -> ->]. by apply c_open0.
Qed.

(** ** Tool calls *)

Lemma args_none i es : (∀ p, InputJsonDelta i p ∉ es) → client_args i es = "".
Proof.
  induction es as [|e es IH]; intros H; [done|]. unfold client_args in *. cbn. rewrite IH.
  - rewrite string_app_empty. destruct e; try done. cbn. destruct (index =? i) eqn:E; [|done]. to_prop. subst.
    destruct (H partial_json). by left.
  - intros p Hp. apply (H p). by right.
Qed.

Lemma args_of_other t calls : (∀ c, c ∈ calls → call_tool c ≠ t) → args_of t calls = "".
Proof. intros H. apply args_of_none. intros (c&->&Hc)%list_elem_of_fmap. by apply (H c Hc). Qed.

(** A tool that is called for the first time gets the next index. *)
Lemma Content_new_tool text tools calls w w' es t id name :
  let i := nextBlockIndex (st w) in
  Content text tools calls w → toolIndexMap (st w) !! t = None →
  out w' = out w ++ es → Forall bare es → ToolBlockStart i id name ∈ es →
  toolIndexMap (st w') = <[t := i]> (toolIndexMap (st w)) → nextBlockIndex (st w') = i + 1 →
  openBlock (st w') = Some (BTool i t id name) →
  Content text (tools ++ [t]) calls w'.
Proof.
  intros i [] Hnone Hout Hbare Hstart Hmap Hnext Hopen.
  assert (∀ u j, toolIndexMap (st w) !! u = Some j → j ≠ i) as Hne.
  { intros u j Hj ->. apply c_fresh0 in Hj. unfold i in *. lia. }
  assert (∀ e, e ∈ es → ¬ bare e → False) as Hcontent.
  { rewrite Forall_forall in Hbare. intros e He Hb. by apply Hb, Hbare. }
  split; rewrite ?Hmap, ?Hout, ?Hnext, ?Hopen.
  - by rewrite client_text_app, (bare_text es), string_app_empty.
  - intros u v j. rewrite !lookup_insert_Some. naive_solver.
  - intros u j [[<- <-]|[_ Hj%c_fresh0]]%lookup_insert_Some; unfold i in *; lia.
  - intros u. rewrite elem_of_app, list_elem_of_singleton, c_tools0, lookup_insert_is_Some'.
    split; [intros [?| ->]; auto|intros [->|?]; auto].
  - intros c Hc. apply elem_of_app. left. auto.
  - intros u j [[<- <-]|[_ Hj]]%lookup_insert_Some; rewrite client_args_app, (bare_args _ es), string_app_empty by done; [|auto].
    rewrite args_none; [rewrite args_of_other; [done|]|].
    + intros c Hc%c_calls0%c_tools0 Ht. rewrite Ht, Hnone in Hc. by destruct Hc.
    + intros p [u Hu]%c_deltas0. by apply (Hne u i).
  - intros u j [[<- <-]|[_ Hj]]%lookup_insert_Some.
    + exists id, name. apply elem_of_app. by right.
    + destruct (c_started0 u j Hj) as (id'&n'&Hin). exists id', n'. apply elem_of_app. by left.
  - intros j p [Hin|Hin]%elem_of_app; [|by destruct (Hcontent _ Hin); intros []].
    destruct (c_deltas0 j p Hin) as [u Hu]. exists u. rewrite lookup_insert_Some. right. split; [|done]. congruence.
  - intros j p [Hin|Hin]%elem_of_app; [|by destruct (Hcontent _ Hin); intros []].
    destruct (c_texts0 j p Hin) as [Hlt Hno]. split; [unfold i; lia|].
    intros u [[_ <-]|[_ Hu]]%lookup_insert_Some; [unfold i in *; lia|by apply (Hno u)].
  - done.
  - intros j u ? ? [= <- <- _ _]. by rewrite lookup_insert_eq.
Qed.

Lemma Content_same_tool text tools calls w t :
  Content text tools calls w → t ∈ tools → Content text (tools ++ [t]) calls w.
Proof.
  intros [] Ht. split; try done.
  - intros u. rewrite elem_of_app, list_elem_of_singleton, <-c_tools0. naive_solver.
  - intros c Hc. apply elem_of_app. left. auto.
Qed.

Lemma ensureToolBlock_content text tools calls w tool :
  Content text tools calls w → tool ≠ JNull →
  let t := call_tool tool in
  ∃ w' i, ensureToolBlock tool w = (w', Ok i) ∧ Content text (tools ++ [t]) calls w' ∧
    toolIndexMap (st w') !! t = Some i.
Proof.
  intros Hw Hnull t.
  assert (get (Some tool) "index" = Ok (opt_get (Some tool) "index")) as Hget by (by destruct tool).
  destruct (ensureToolBlock_cases tool w _ Hget) as (w1&i&Hc&Hcase). fold (call_tool tool) in Hc, Hcase. fold t in Hc, Hcase.
  rewrite computeToolBlockIndex_eq in Hc. destruct (toolIndexMap (st w) !! t) as [j|] eqn:Hm.
  - injection Hc as <- <-. assert (t ∈ tools) as Ht by (apply (c_tools _ _ _ _ Hw); by eexists).
    destruct (continues _ _ _) eqn:Hcont.
    + destruct Hcase as (id&name&->). eexists _, _. split; [reflexivity|]. split; [|done].
      apply Content_same_tool; [|done].
      apply (Content_bare _ _ _ w _ []); cbn; rewrite ?app_nil_r; try done. by intros ? ? ? ? [= <- <- _ _].
    + rewrite Hcase. unfold startToolBlock. rewrite begin_eq. eexists _, _. split; [reflexivity|]. split; [|done].
      apply Content_same_tool; [|done].
      eapply (Content_bare _ _ _ w _ ((stop_events (openBlock (st w)) ++ start_events (st w)) ++ [_])); cbn; try done.
      * by rewrite <-!app_assoc.
      * apply Forall_app; split; [apply begun_bare|by repeat constructor].
      * by intros ? ? ? ? [= <- <- _ _].
  - injection Hc as <- <-. destruct (continues _ _ _) eqn:Hcont.
    { unfold continues in Hcont. cbn in Hcont. destruct (openBlock (st w)) as [[|j u id n]|] eqn:Hb; try done.
      to_prop. subst u. apply (c_tool _ _ _ _ Hw) in Hb. by rewrite Hm in Hb. }
    rewrite Hcase. unfold startToolBlock. rewrite begin_eq. eexists _, _. split; [reflexivity|].
    split; [|apply lookup_insert_eq].
    eapply (Content_new_tool _ _ _ w _ ((stop_events (openBlock (st w)) ++ start_events (st w)) ++ [_])); cbn; try done.
    + by rewrite <-!app_assoc.
    + apply Forall_app; split; [apply begun_bare|by repeat constructor].
    + apply elem_of_app. right. by left.
Qed.

(** The arguments of a call reach its tool's block. *)
Lemma Content_args text tools calls w w' call i :
  Content text tools calls w → call_tool call ∈ tools → toolIndexMap (st w) !! call_tool call = Some i →
  st w' = st w →
  (out w' = out w ++ [InputJsonDelta i (call_args call)] ∨ out w' = out w ∧ call_args call = "") →
  Content text tools (calls ++ [call]) w'.
Proof.
  intros [] Ht Hi Hst Hout.
  assert (∀ j, client_args j (out w') = client_args j (out w) +:+ (if j =? i then call_args call else "")) as Hargs.
  { intros j. destruct Hout as [->|[-> ->]].
    - rewrite client_args_app. f_equal. unfold client_args. cbn. rewrite Z.eqb_sym. case_match; apply string_app_empty.
    - case_match; by rewrite string_app_empty. }
  assert (∀ e, e ∈ out w' → e ∈ out w ∨ e = InputJsonDelta i (call_args call)) as Hin.
  { intros e. destruct Hout as [->|[-> _]]; [|by left]. by rewrite elem_of_app, list_elem_of_singleton. }
  split; rewrite ?Hst; try done.
  - destruct Hout as [->|[-> _]]; [|done]. rewrite client_text_app, c_text0. apply string_app_empty.
  - intros c [Hc|Hc]%elem_of_app; [auto|]. apply list_elem_of_singleton in Hc. by subst.
  - intros u j Hj. rewrite Hargs, args_of_snoc, (c_args0 u j Hj). f_equal.
    case_decide as Hu; [rewrite <-Hu, Hi in Hj; injection Hj as ->; by rewrite Z.eqb_refl|].
    destruct (j =? i) eqn:Hji; [|done]. to_prop. subst j. by destruct Hu; eapply c_inj0.
  - intros u j Hj. destruct (c_started0 u j Hj) as (id&name&He). exists id, name.
    destruct Hout as [->|[-> _]]; [apply elem_of_app; by left|done].
  - intros j p [Hp|[= -> ->]]%Hin; eauto.
  - intros j p [Hp|[=]]%Hin; eauto.
Qed.

Lemma emit_tool_calls_content text tools calls w new :
  Content text tools calls w → JNull ∉ new →
  ∃ w', emit_tool_calls new w = (w', Ok tt) ∧ Content text (tools ++ (call_tool <$> new)) (calls ++ new) w'.
Proof.
  revert tools calls w. induction new as [|call new IH]; intros tools calls w Hw Hnull.
  { exists w. cbn. by rewrite !app_nil_r. }
  apply not_elem_of_cons in Hnull as [Hcall Hnull]. cbn [emit_tool_calls]. rewrite eff_bind_eq.
  destruct (ensureToolBlock_content _ _ _ _ call Hw (not_eq_sym Hcall)) as (w1&i&->&H1&Hi).
  assert (call_tool call ∈ tools ++ [call_tool call]) as Ht by (apply elem_of_app; right; by left).
  rewrite fmap_cons, (cons_middle (call_tool call) tools), (cons_middle call calls), !app_assoc. rewrite eff_bind_eq.
  assert (call_args call = "" → ∃ w', emit_tool_calls new w1 = (w', Ok tt) ∧
    Content text ((tools ++ [call_tool call]) ++ (call_tool <$> new)) ((calls ++ [call]) ++ new) w') as Hskip.
  { intros He. apply IH; [|done]. eapply Content_args; eauto. }
  unfold call_args in Hskip. destruct (opt_get (opt_get (Some call) "function") "arguments") as [[]|] eqn:Ea;
    try by apply Hskip. case_bool_decide; [by apply Hskip|].
  rewrite eff_bind_eq. cbn [emit modify].
  apply IH; [|done]. apply addOutputEmission_content. eapply Content_args; eauto. left.
  unfold call_args. by rewrite Ea.
Qed.

Lemma handleChunk_content text tools calls w v :
  Content text tools calls w → well_formed v →
  ∃ w', handleChunk v w = (w', Ok tt) ∧
    Content (text +:+ chunk_text v) (tools ++ (call_tool <$> chunk_calls v)) (calls ++ chunk_calls v) w'.
Proof.
  intros Hw [Hv Hcalls]. unfold handleChunk. rewrite eff_bind_eq. cbn [lift_result].
  assert (get (Some v) "id" = Ok (opt_get (Some v) "id")) as -> by (by destruct v).
  assert (∀ f, (∀ s, toolIndexMap (f s) = toolIndexMap s ∧ nextBlockIndex (f s) = nextBlockIndex s ∧
    openBlock (f s) = openBlock s) → ∀ w, Content text tools calls w →
    ∃ w', update f w = (w', Ok tt) ∧ Content text tools calls w') as Hupd.
  { intros f Hf u Hu. eexists. split; [reflexivity|]. by apply Content_update. }
  rewrite eff_bind_eq.
  set (m := match opt_get (Some v) "id" with Some id => _ | None => _ end).
  assert (∃ w', m w = (w', Ok tt) ∧ Content text tools calls w') as (w1&->&H1).
  { subst m. case_match; [case_match|]; [by apply Hupd|by exists w..]. }
  rewrite eff_bind_eq.
  assert (∃ w', applyUsage v w1 = (w', Ok tt) ∧ Content text tools calls w') as (w2&->&H2).
  { unfold applyUsage. repeat case_match; try (by exists w1). by apply Hupd. }
  unfold chunk_text, chunk_calls, chunk_choice in *.
  destruct (opt_first (opt_get (Some v) "choices")) as [choice|].
  2: { exists w2. cbn. by rewrite string_app_empty, !app_nil_r. }
  destruct (json_truthy choice).
  2: { exists w2. cbn. by rewrite string_app_empty, !app_nil_r. }
  rewrite eff_bind_eq.
  assert (∃ w', recordStopMetadata choice w2 = (w', Ok tt) ∧ Content text tools calls w') as (w3&->&H3).
  { apply Hupd; [|done]. intros s. by repeat case_match. }
  rewrite eff_bind_eq.
  destruct (emitTextDelta_content _ _ _ w3 (opt_get (opt_get (Some choice) "delta") "content") H3) as (w4&->&H4).
  unfold emitToolCallDeltas.
  destruct (opt_get (opt_get (Some choice) "delta") "tool_calls") as [[]|];
    try (exists w4; cbn; by rewrite !app_nil_r). by apply emit_tool_calls_content.
Qed.

(** ** The whole text *)

Section run.
Context (json_parse : string → option Json).

(** The chunk in an event, if it has one. *)
Definition event_chunk (eventPayload : string) : option Json :=
  if bool_decide (trim eventPayload = "") then None
  else match (parseSsePayload eventPayload).1 with
       | Some data => if bool_decide (data = "[DONE]") then None else json_parse data
       | None => None
       end.

(** The chunks of a text, in order. *)
Definition text_chunks (text : string) : list Json :=
  let '(ps, r, _) := frames text in omap event_chunk (ps ++ [r]).

Definition Holds (chunks : list Json) (w : Tr) : Prop :=
  Content (concat_text (chunk_text <$> chunks)) (call_tool <$> (chunks ≫= chunk_calls)) (chunks ≫= chunk_calls) w.

Lemma count_unknown_content text tools calls n w :
  Content text tools calls w → Content text tools calls (count_unknown n w).1.
Proof. intros []. by split. Qed.

Lemma Holds_nil id model unknown : Holds [] (mkTr (createStreamState id model) [] unknown).
Proof.
  split; cbn; try done; try (by intros ? ? ?%elem_of_nil); try (by intros ? ?%elem_of_nil).
  intros t. rewrite lookup_empty. split; [by intros ?%elem_of_nil|by intros []].
Qed.

Lemma processEvent_content chunks p w :
  Holds chunks w → Forall well_formed (option_list (event_chunk p)) →
  ∃ w' b, processEvent json_parse p w = (w', Ok b) ∧ Holds (chunks ++ option_list (event_chunk p)) w'.
Proof.
  intros Hw. unfold event_chunk, processEvent. case_bool_decide; [intros _; exists w, false; by rewrite app_nil_r|].
  destruct (parseSsePayload p) as [data n]. cbn [fst]. rewrite eff_bind_eq. intros Hok.
  pose proof (count_unknown_content _ _ _ n w Hw) as H1. destruct (count_unknown n w) as [w1 r] eqn:Ec.
  unfold count_unknown, modify in Ec. injection Ec as Ew <-. cbn in H1.
  destruct data as [data|]; [|exists w1, false; by rewrite app_nil_r].
  case_bool_decide; [exists w1, true; by rewrite app_nil_r|].
  destruct (json_parse data) as [v|].
  - cbn in Hok. inversion Hok; subst. rewrite eff_bind_eq.
    match goal with |- context [handleChunk v ?w1] => destruct (handleChunk_content _ _ _ w1 v H1) as (w2&->&H2) end; [done|].
    exists w2, false. split; [done|]. unfold Holds in *. cbn [option_list].
    rewrite fmap_app, concat_text_app, bind_app, fmap_app. cbn. by rewrite string_app_empty, app_nil_r.
  - exists (count_unknown 1 w1).1, false. split; [done|]. rewrite app_nil_r. by apply count_unknown_content.
Qed.

Lemma process_all_content chunks ps w :
  Holds chunks w → Forall well_formed (omap event_chunk ps) →
  ∃ w', process_all json_parse ps w = (w', Ok tt) ∧ Holds (chunks ++ omap event_chunk ps) w'.
Proof.
  revert chunks w. induction ps as [|p ps IH]; intros chunks w Hw Hok; [exists w; by rewrite app_nil_r|].
  rewrite process_all_cons. 
  assert (omap event_chunk (p :: ps) = option_list (event_chunk p) ++ omap event_chunk ps) as E
    by (cbn; by destruct (event_chunk p)).
  rewrite E in *. apply Forall_app in Hok as [Hp Hps].
  destruct (processEvent_content _ _ _ Hw Hp) as (w1&b&->&H1). rewrite app_assoc. by apply IH.
Qed.

Lemma finish_body_content chunks r w :
  Holds chunks w → Forall well_formed (option_list (event_chunk r)) →
  ∃ w', finish_body json_parse r w = (w', Ok tt) ∧ Holds (chunks ++ option_list (event_chunk r)) w'.
Proof.
  intros Hw Hok. unfold finish_body. rewrite eff_bind_eq.
  set (m := if bool_decide (trim r = "") then _ else _).
  assert (∃ w1, m w = (w1, Ok tt) ∧ Holds (chunks ++ option_list (event_chunk r)) w1) as (w1&->&H1).
  { subst m. case_bool_decide as Hb.
    - exists w. split; [done|]. unfold event_chunk. by rewrite bool_decide_true, app_nil_r.
    - rewrite eff_bind_eq. destruct (processEvent_content _ _ _ Hw Hok) as (w1&b&->&H1). by exists w1. }
  rewrite eff_bind_eq. cbn [gets]. unfold emitTerminalDelta.
  rewrite eff_bind_eq, eff_bind_eq, ensureMessageStart_eq, eff_bind_eq, closeOpenBlock_eq.
  eexists. split; [reflexivity|].
  eapply (Content_bare _ _ _ w1 _ (start_events (st w1) ++ stop_events (openBlock (st w1)) ++ [_; MessageStop])); cbn; try done.
  - by rewrite <-!app_assoc.
  - apply Forall_app. split; [unfold start_events; case_match; by repeat constructor|].
    apply Forall_app. split; [unfold stop_events; case_match; by repeat constructor|]. by repeat constructor.
Qed.

Lemma no_pings_text es : client_text (no_pings es) = client_text es.
Proof.
  induction es as [|e es IH]; [done|]. unfold no_pings in *. rewrite filter_cons.
  case_decide; unfold client_text in *; cbn; rewrite IH; [done|]. by destruct e.
Qed.
Lemma no_pings_args i es : client_args i (no_pings es) = client_args i es.
Proof.
  induction es as [|e es IH]; [done|]. unfold no_pings in *. rewrite filter_cons.
  case_decide; unfold client_args in *; cbn; rewrite IH; [done|]. by destruct e.
Qed.
Lemma no_pings_elem e es : e ∈ es → is_ping e = false → e ∈ no_pings es.
Proof. intros He Hp. apply list_elem_of_filter. by rewrite Hp. Qed.

Context {Decoder : Type} (new_decoder : Decoder) (decode : Decoder → list Byte.byte → Decoder * string).

(** C16 (functional): when the upstream ends, its text ends quietly and no chunk
    or tool call is null, a client that concatenates gets back what the
    upstream sent: the text deltas are the contents of the chunks; every tool
    index has one block index of its own, started as a tool block and never
    used for text, whose argument deltas are the arguments of the calls with
    that tool index; no other argument delta is sent. *)
Theorem content_reassembles id model unknown pre post :
  Forall (λ t, streaming t = true) pre →
  let text := concat_text (normalize_newlines <$> decoded decode new_decoder pre) in
  ends_quietly text = true →
  let chunks := text_chunks text in
  let calls := chunks ≫= chunk_calls in
  Forall well_formed chunks →
  let es := out (tr (processUpstreamStream json_parse new_decoder decode id model unknown
                       (pre ++ mkTurn false WDone :: post)).1) in
  client_text es = concat_text (chunk_text <$> chunks) ∧
  ∃ block : gmap ToolIndex Z,
    (∀ t, is_Some (block !! t) ↔ t ∈ call_tool <$> calls) ∧
    (∀ t u i, block !! t = Some i → block !! u = Some i → t = u) ∧
    (∀ t i, block !! t = Some i → client_args i es = args_of t calls ∧ ∃ tid name, ToolBlockStart i tid name ∈ es) ∧
    (∀ i p, InputJsonDelta i p ∈ es → ∃ t, block !! t = Some i) ∧
    (∀ i p, TextDelta i p ∈ es → ∀ t, block !! t ≠ Some i).
Proof.
  intros Hpre text Hq chunks calls Hok es.
  pose proof (run_translate json_parse new_decoder decode id model unknown pre post Hpre Hq) as Hrun.
  fold text in Hrun. subst es chunks calls. unfold text_chunks in *.
  destruct (processUpstreamStream _ _ _ _ _ _ _) as [w c]. cbn [fst].
  unfold translate, translate_body in Hrun. destruct (frames text) as [[ps r] d]. rewrite eff_bind_eq in Hrun.
  set (t0 := mkTr _ _ _) in Hrun. rewrite omap_app in *.
  assert (omap event_chunk [r] = option_list (event_chunk r)) as Er by (cbn; by destruct (event_chunk r)).
  rewrite Er in *. apply Forall_app in Hok as [Hps Hr].
  pose proof (Holds_nil id model unknown) as H0. fold t0 in H0.
  destruct (process_all_content [] ps t0 H0 Hps) as (t1&E1&H1). rewrite E1 in Hrun.
  destruct (finish_body_content _ r t1 H1 Hr) as (t2&E2&H2). rewrite E2 in Hrun.
  destruct Hrun as (Et&_&_). unfold erase in Et.
  assert (out t2 = no_pings (out (tr w))) as Eo by (by rewrite <-Et).
  change ([] ++ ?l) with l in H2. set (chunks := omap event_chunk ps ++ option_list (event_chunk r)) in *.
  destruct H2. rewrite Eo in *. rewrite no_pings_text in c_text0. split; [done|].
  exists (toolIndexMap (st t2)). split; [intros t; by rewrite c_tools0|]. split; [done|]. split; [|split].
  - intros t i Hi. rewrite <-no_pings_args, (c_args0 t i Hi). split; [done|].
    destruct (c_started0 t i Hi) as (tid&name&Hin). exists tid, name. by apply list_elem_of_filter in Hin as [_ Hin].
  - intros i p Hin. by eapply c_deltas0, no_pings_elem.
  - intros i p Hin. by eapply c_texts0, no_pings_elem.
Qed.
End run.

(** ** Anthropic proxy: the output as text, and concrete runs

    The text the translator writes is read back by the reader of server-sent
    events it has itself; and runs that show what it does with interleaved tool
    calls, with a carriage return at the end of a chunk, and with an upstream
    whose last empty line is missing. *)

From Stdlib Require Import Ascii.

#[local] Open Scope string_scope.
#[local] Open Scope list_scope.
#[local] Open Scope Z_scope.

(** ** Frames *)

(** Neither an empty line inside nor a line end at the end. *)
Fixpoint tight (s : string) : bool :=
  match s with
  | EmptyString => true
  | String c s' =>
      match s' with
      | EmptyString => negb (bool_decide (c = newline))
      | String d _ => negb (bool_decide (c = newline) && bool_decide (d = newline)) && tight s'
      end
  end.

Lemma tight_cons c d s :
  tight (String c (String d s)) = negb (bool_decide (c = newline) && bool_decide (d = newline)) && tight (String d s).
Proof. done. Qed.

Lemma split_frame_tight p r :
  tight p = true → split_frame (p +:+ String newline (String newline r)) = Some (p, r).
Proof.
  induction p as [|c p IH]; intros Hp; [done|]. destruct p as [|d p].
  - cbn in Hp. apply negb_true_iff in Hp.
    change (split_frame (String c (String newline (String newline r))) = Some (String c "", r)).
    rewrite split_frame_cons, Hp. done.
  - rewrite tight_cons in Hp. apply andb_true_iff in Hp as [Hcd Hp]. apply negb_true_iff in Hcd.
    change (split_frame (String c (String d (p +:+ String newline (String newline r)))) = Some (String c (String d p), r)).
    rewrite split_frame_cons, Hcd. specialize (IH Hp).
    change (split_frame (String d (p +:+ String newline (String newline r))) = Some (String d p, r)) in IH.
    by rewrite IH.
Qed.

Lemma tight_line s : char_free newline s = true → tight s = true.
Proof.
  induction s as [|c s IH]; [done|]. cbn. intros [Hc Hs]%andb_true_iff. apply negb_true_iff in Hc.
  rewrite Hc. destruct s; [done|]. by apply IH.
Qed.

Lemma tight_two s d t :
  char_free newline s = true → char_free newline (String d t) = true →
  tight (s +:+ String newline (String d t)) = true.
Proof.
  intros Hs Ht. pose proof Ht as Hd. cbn in Hd. apply andb_true_iff in Hd as [Hd _]. apply negb_true_iff in Hd.
  assert (tight (String newline (String d t)) = true) as Hbase.
  { rewrite tight_cons, Hd, andb_false_r. by apply tight_line. }
  induction s as [|c s IH]; [done|]. cbn in Hs. apply andb_true_iff in Hs as [Hc Hs]. apply negb_true_iff in Hc.
  specialize (IH Hs). change (tight (String c (s +:+ String newline (String d t))) = true).
  destruct (s +:+ String newline (String d t)) as [|a u] eqn:E; [by destruct s|]. by rewrite tight_cons, Hc.
Qed.

(** ** One event *)

(** The event's text without the empty line that ends it. *)
Definition wire_body (e : Event) : string :=
  ("event: " +:+ event_name e) +:+ String newline ("data: " +:+ stringify (payload e)).

Lemma wire_eq e r : wire e +:+ r = wire_body e +:+ String newline (String newline r).
Proof.
  unfold wire, wire_body. generalize "event: ", (event_name e), "data: ", (stringify (payload e)). intros a b c d.
  repeat first [rewrite string_app_assoc | rewrite string_app_cons]. done.
Qed.

Lemma newline_control : ¬ plain newline.
Proof. by intros H. Qed.

Lemma stringify_line v : char_free newline (stringify v) = true.
Proof. apply Plain_char_free; [apply stringify_plain|apply newline_control]. Qed.

Lemma wire_body_tight e : tight (wire_body e) = true.
Proof.
  unfold wire_body. apply (tight_two ("event: " +:+ event_name e) "d" ("ata: " +:+ stringify (payload e))).
  - by destruct e.
  - change (char_free newline ("data: " +:+ stringify (payload e)) = true). rewrite char_free_app. apply stringify_line.
Qed.

Lemma wire_body_lines e :
  split newline (wire_body e) = ["event: " +:+ event_name e; "data: " +:+ stringify (payload e)].
Proof.
  unfold wire_body. rewrite split_cons by (by destruct e). f_equal. apply split_char_free.
  rewrite char_free_app. apply stringify_line.
Qed.

Lemma wire_body_parsed e : parseSsePayload (wire_body e) = (Some (stringify (payload e)), 0).
Proof.
  unfold parseSsePayload. rewrite wire_body_lines. cbn [omap list_omap].
  assert (classify ("event: " +:+ event_name e) = LSkip) as E1 by (by destruct e).
  assert (classify ("data: " +:+ stringify (payload e)) = LData (stringify (payload e))) as E2 by done.
  unfold data_of. rewrite E1, E2. cbn. rewrite E1. done.
Qed.

Lemma wire_body_not_done e : is_done (wire_body e) = false.
Proof. unfold is_done. rewrite wire_body_parsed. cbn [fst]. by rewrite andb_false_r. Qed.

Lemma frames_wire es : frames (concat_text (wire <$> es)) = (wire_body <$> es, "", false).
Proof.
  induction es as [|e es IH]; [done|]. rewrite !fmap_cons.
  change (concat_text (wire e :: (wire <$> es))) with (wire e +:+ concat_text (wire <$> es)).
  rewrite frames_eq, wire_eq, (split_frame_tight _ _ (wire_body_tight e)), wire_body_not_done, IH. done.
Qed.

(** Whatever ids, names and texts the events carry, the text
    written for them splits at its empty lines into one event each, and the
    translator's own reader of server-sent events gets from each exactly the
    printed payload, with no unknown line. *)
Theorem wire_reads_back es :
  let '(ps, r, d) := frames (concat_text (wire <$> es)) in
  parseSsePayload <$> ps = (λ e, (Some (stringify (payload e)), 0)) <$> es ∧ r = "" ∧ d = false.
Proof.
  rewrite frames_wire. split; [|done]. rewrite <-list_fmap_compose. apply list_fmap_ext.
  intros i e _. apply wire_body_parsed.
Qed.

(** ** Concrete runs

    Bytes are decoded one by one; a few texts stand for their JSON. *)

Definition demo_call (tool : Z) (arguments : string) : Json :=
  JObj [("index", JNum tool); ("id", JStr "call"); ("function", JObj [("name", JStr "f"); ("arguments", JStr arguments)])].
Definition demo_chunk (delta : list (string * Json)) : Json :=
  JObj [("id", JStr "msg"); ("choices", JArr [JObj [("delta", JObj delta); ("finish_reason", JNull)]])].

Definition demo_parse (data : string) : option Json :=
  if bool_decide (data = "hi" +:+ String newline "you") then Some (demo_chunk [("content", JStr "hi you")])
  else if bool_decide (data = "hello") then Some (demo_chunk [("content", JStr "hello")])
  else if bool_decide (data = "open0") then Some (demo_chunk [("tool_calls", JArr [demo_call 0 "{"])])
  else if bool_decide (data = "all1") then Some (demo_chunk [("tool_calls", JArr [demo_call 1 "{}"])])
  else if bool_decide (data = "close0") then Some (demo_chunk [("tool_calls", JArr [demo_call 0 "}"])])
  else None.

Definition demo_decode (d : unit) (value : list Byte.byte) : unit * string := (d, String.string_of_list_byte value).
Definition demo_read (s : string) : Turn := mkTurn false (WRead (String.list_byte_of_string s)).
Definition demo_ping : Turn := mkTurn false WPing.
Definition nl2 : string := String newline (String newline "").
Definition crlf : string := String carriage_return (String newline "").

#[local] Notation demo_run turns :=
  (processUpstreamStream demo_parse tt demo_decode (JStr "id") "model" 0 (turns ++ [mkTurn false WDone])).

Definition demo_text : string :=
  "data: hello" +:+ nl2 +:+ "data: open0" +:+ nl2 +:+ "data: all1" +:+ nl2 +:+ "data: close0" +:+ nl2 +:+
  "data: [DONE]" +:+ nl2.


Lemma content_reassembles_witness :
  client_text (out (tr (demo_run [demo_read demo_text]).1)) = "hello".
Proof.
  refine (eq_trans (proj1 (content_reassembles demo_parse tt demo_decode (JStr "id") "model" 0
    [demo_read demo_text] [] _ _ _)) _).
  - by repeat constructor.
  - vm_compute. reflexivity.
  - assert (text_chunks demo_parse (concat_text (normalize_newlines <$> decoded demo_decode tt [demo_read demo_text])) =
      [demo_chunk [("content", JStr "hello")]; demo_chunk [("tool_calls", JArr [demo_call 0 "{"])];
       demo_chunk [("tool_calls", JArr [demo_call 1 "{}"])]; demo_chunk [("tool_calls", JArr [demo_call 0 "}"])]]) as ->
      by (vm_compute; reflexivity).
    repeat (apply Forall_cons; split); [split; [done|]; cbn; set_solver..|by constructor].
  - vm_compute. reflexivity.
Defined.

(** The two calls of tool 0 around the call of tool 1: its block starts twice,
    with the same index. *)
Lemma interleaved_tools_restart :
  omap (λ e, match e with TextBlockStart i | ToolBlockStart i _ _ => Some i | _ => None end)
    (out (tr (demo_run [demo_read demo_text]).1)) = [0; 1; 2; 1].
Proof. vm_compute. reflexivity. Qed.

(** The same bytes in one chunk and in two, cut inside a line end: in two, the
    line end counts as two, the event falls apart and its text is lost. *)
Lemma split_line_end_loses_text :
  let text := "data: hi" +:+ crlf +:+ "data: you" +:+ crlf +:+ crlf in
  let whole := demo_run [demo_read text] in
  let cut := demo_run [demo_read ("data: hi" +:+ String carriage_return ""); demo_read (slice 9 text)] in
  client_text (out (tr whole.1)) = "hi you" ∧ unknownEventTotal (tr whole.1) = 0 ∧
  client_text (out (tr cut.1)) = "" ∧ unknownEventTotal (tr cut.1) = 2.
Proof. vm_compute. done. Qed.

(** [DONE] as the last line, with no empty line after it, is not seen as the
    end: the outcome is that of a stream cut short. *)
Lemma unterminated_done_is_truncated :
  (demo_run [demo_read ("data: hello" +:+ nl2 +:+ "data: [DONE]" +:+ String newline "")]).2 = Some truncated ∧
  (demo_run [demo_read ("data: hello" +:+ nl2 +:+ "data: [DONE]" +:+ nl2)]).2 = Some complete.
Proof. vm_compute. done. Qed.
