(* ===== verification/AnthropicRequest.v ===== *)
(** * Anthropic proxy: requests and plain responses

    packages/core/src/anthropic/translateRequest.ts and translateResponse.ts:
    a Messages request becomes an OpenAI chat request, a chat completion
    becomes an Anthropic message.  Both read values that were only cast to
    their types, so they are translated over [Json]; [JSON.parse] is a
    parameter.  A [TypeError] of the language is [Err "TypeError"]. *)

From S2P Require Import Prelude JsMap JsText JsJson JsValues AnthropicStream.

#[local] Open Scope string_scope.
#[local] Open Scope list_scope.
#[local] Open Scope Z_scope.

Section translate.
Context (json_parse : string → option Json).

Definition JSON_parse (text : string) : result Json :=
  match json_parse text with Some v => Ok v | None => Err "SyntaxError" end.

Definition is_str (v : option Json) : option string := match v with Some (JStr s) => Some s | _ => None end.
Definition str_is (v : option Json) (s : string) : bool := match v with Some (JStr t) => bool_decide (t = s) | _ => false end.

(** ** translateRequest.ts *)

Definition blockType (block : Json) : string :=
  if isRecord (Some block) then default "unknown" (is_str (opt_get (Some block) "type")) else "unknown".

Definition toDataUrl (source : option Json) : result string :=
  type ← get source "type";
  if str_is type "base64" then
    Ok ("data:" +:+ text_of (opt_get source "media_type") +:+ ";base64," +:+ text_of (opt_get source "data"))
  else Err ("unsupported image source type: " +:+ text_of type).

Definition image_part (url : string) : Json :=
  obj [("type", Some (JStr "image_url")); ("image_url", Some (obj [("url", Some (JStr url))]))].

Definition toImagePart (block : Json) : result Json :=
  url ← toDataUrl (opt_get (Some block) "source"); Ok (image_part url).

Definition tool_call (id name arguments : option Json) : Json :=
  obj [("id", id); ("type", Some (JStr "function"));
       ("function", Some (obj [("name", name); ("arguments", arguments)]))].

Definition toolCallFromExactBytes (raw : string) : result Json :=
  parsed ← JSON_parse raw;
  if negb (isRecord (Some parsed)) then Err "toolMap entry must decode to a tool call object" else
  let fn := opt_get (Some parsed) "function" in
  match is_str (opt_get (Some parsed) "id") with
  | Some id =>
      if negb (str_is (opt_get (Some parsed) "type") "function") || negb (isRecord fn)
      then Err "toolMap entry missing required tool call fields" else
      match is_str (opt_get fn "name"), is_str (opt_get fn "arguments") with
      | Some name, Some args => Ok (tool_call (Some (JStr id)) (Some (JStr name)) (Some (JStr args)))
      | _, _ => Err "toolMap entry function payload is invalid"
      end
  | None => Err "toolMap entry missing required tool call fields"
  end.

(** [toolMap] holds the texts of the calls by their ids. *)
Definition ToolMap := list (string * string).

Definition toolCallFromBlock (block : Json) (toolMap : ToolMap) : result Json :=
  let field := opt_get (Some block) in
  match jm_get toolMap (text_of (field "id")) with
  | Some (String _ _ as exact) => toolCallFromExactBytes exact
  | _ => Ok (tool_call (field "id") (field "name") (JStr ∘ stringify <$> field "input"))
  end.

Definition tool_message (tool_call_id content : option Json) : Json :=
  obj [("role", Some (JStr "tool")); ("tool_call_id", tool_call_id); ("content", content)].

(** The texts of a tool result's blocks. *)
Fixpoint result_texts (content : list Json) : result (list (option Json)) :=
  match content with
  | [] => Ok []
  | item :: rest =>
      type ← get (Some item) "type";
      if str_is type "text" then parts ← result_texts rest; Ok (opt_get (Some item) "text" :: parts)
      else Err ("unsupported tool_result content block type: " +:+ text_of type)
  end.

Definition toolMessageFromBlock (block : Json) : result Json :=
  let id := opt_get (Some block) "tool_use_id" in
  match opt_get (Some block) "content" with
  | Some (JStr s) => Ok (tool_message id (Some (JStr s)))
  | content => blocks ← array_of content; parts ← result_texts blocks; Ok (tool_message id (Some (JStr (join_text parts))))
  end.

Fixpoint mapM_result {A B} (f : A → result B) (l : list A) : result (list B) :=
  match l with [] => Ok [] | x :: l' => y ← f x; ys ← mapM_result f l'; Ok (y :: ys) end.

Definition normalizeSystemContent (system : option Json) : result (option string) :=
  match system with
  | None => Ok None
  | Some (JStr s) => Ok (Some s)
  | _ => blocks ← array_of system; parts ← mapM_result (λ b, get (Some b) "text") blocks; Ok (Some (join_text parts))
  end.

Record CollectedMessageParts := mkParts {
  textParts : list (option Json); imageParts : list Json; toolCalls : list Json
}.

Fixpoint collectMessageParts (blocks : list Json) (toolMap : ToolMap) : result CollectedMessageParts :=
  match blocks with
  | [] => Ok (mkParts [] [] [])
  | block :: rest =>
      type ← get (Some block) "type";
      if str_is type "text" then
        ps ← collectMessageParts rest toolMap;
        Ok (mkParts (opt_get (Some block) "text" :: textParts ps) (imageParts ps) (toolCalls ps))
      else if str_is type "image" then
        part ← toImagePart block; ps ← collectMessageParts rest toolMap;
        Ok (mkParts (textParts ps) (part :: imageParts ps) (toolCalls ps))
      else if str_is type "tool_use" then
        call ← toolCallFromBlock block toolMap; ps ← collectMessageParts rest toolMap;
        Ok (mkParts (textParts ps) (imageParts ps) (call :: toolCalls ps))
      else if str_is type "tool_result" then Err "tool_result blocks must appear in user messages without mixed content"
      else Err ("unsupported content block type: " +:+ blockType block)
  end.

(** [blocks.every((block) => block.type === "tool_result")] *)
Fixpoint every_result (blocks : list Json) : result bool :=
  match blocks with
  | [] => Ok true
  | block :: rest => type ← get (Some block) "type"; if str_is type "tool_result" then every_result rest else Ok false
  end.

Definition text_part (text : string) : Json := obj [("type", Some (JStr "text")); ("text", Some (JStr text))].

Definition message_content (ps : CollectedMessageParts) : Json :=
  let joinedText := join_text (textParts ps) in
  match imageParts ps with
  | [] => JStr joinedText
  | images => JArr ((if bool_decide (joinedText = "") then [] else [text_part joinedText]) ++ images)
  end.

Definition chat_message (role : option Json) (content : Json) (tool_calls : list Json) : Json :=
  obj [("role", role); ("content", Some content);
       ("tool_calls", match tool_calls with [] => None | _ => Some (JArr tool_calls) end)].

Definition translateMessageContent (message : Json) (toolMap : ToolMap) : result (list Json) :=
  content ← get (Some message) "content";
  let role := opt_get (Some message) "role" in
  match content with
  | Some (JStr s) => Ok [chat_message role (JStr s) []]
  | _ =>
      blocks ← array_of content;
      only_results ← (if str_is role "user" && negb (bool_decide (blocks = [])) then every_result blocks else Ok false);
      if only_results : bool then mapM_result toolMessageFromBlock blocks else
      ps ← collectMessageParts blocks toolMap;
      if str_is role "assistant" then Ok [chat_message (Some (JStr "assistant")) (message_content ps) (toolCalls ps)]
      else if negb (bool_decide (toolCalls ps = [])) then Err "tool_use blocks are only supported in assistant messages"
      else Ok [chat_message (Some (JStr "user")) (message_content ps) []]
  end.

Definition translateTool (tool : Json) : result Json :=
  name ← get (Some tool) "name";
  let description := opt_get (Some tool) "description" in
  Ok (obj [("type", Some (JStr "function"));
           ("function", Some (obj [("name", name);
              ("description", match description with Some d => if json_truthy d then Some d else None | None => None end);
              ("parameters", opt_get (Some tool) "input_schema")]))]).

Definition translateTools (tools : option Json) : result (option Json) :=
  match tools with
  | Some ts =>
      if json_truthy ts then l ← array_of tools; out ← mapM_result translateTool l; Ok (Some (JArr out)) else Ok None
  | None => Ok None
  end.

Definition translateToolChoice (choice : option Json) : result (option Json) :=
  match choice with
  | None => Ok None
  | Some (JStr "auto") => Ok (Some (JStr "auto"))
  | Some (JStr "any") => Ok (Some (JStr "required"))
  | Some (JStr "none") => Ok (Some (JStr "none"))
  | _ =>
      name ← get choice "name";
      Ok (Some (obj [("type", Some (JStr "function")); ("function", Some (obj [("name", name)]))]))
  end.

Definition translateAnthropicRequest (req : Json) (toolMap : ToolMap) : result Json :=
  system ← get (Some req) "system";
  system ← normalizeSystemContent system;
  let field := opt_get (Some req) in
  msgs ← items (field "messages");
  translated ← mapM_result (λ m, translateMessageContent m toolMap) msgs;
  let messages :=
    match system with
    | Some s => [chat_message (Some (JStr "system")) (JStr s) []]
    | None => []
    end ++ concat translated in
  tools ← translateTools (field "tools");
  toolChoice ← translateToolChoice (field "tool_choice");
  Ok (obj [("model", field "model"); ("messages", Some (JArr messages)); ("max_tokens", field "max_tokens");
           ("temperature", field "temperature"); ("top_p", field "top_p"); ("top_k", field "top_k");
           ("stop", field "stop_sequences"); ("tools", tools); ("tool_choice", toolChoice)]).

(** ** translateResponse.ts *)

Definition tool_use (id name : option Json) (input : Json) : Json :=
  obj [("type", Some (JStr "tool_use")); ("id", id); ("name", name); ("input", Some input)].

(** Why the arguments of a call are no tool input; [JSON.parse] takes any value's text. *)
Definition call_input (call : Json) : result Json :=
  fn ← get (Some call) "function";
  arguments ← get fn "arguments";
  match json_parse (text_of arguments) with
  | None => Err "SyntaxError"
  | Some parsed => if isRecord (Some parsed) then Ok parsed else Err "tool call arguments must decode to an object"
  end.

Definition toolUseFromCall (call : Json) : result Json :=
  match call_input call with
  | Ok input =>
      Ok (tool_use (opt_get (Some call) "id") (opt_get (opt_get (Some call) "function") "name") input)
  | Err e =>
      fn ← get (Some call) "function"; name ← get fn "name";
      Err ("invalid tool_call arguments for " +:+ text_of name +:+ ": " +:+ e)
  end.

Definition choiceFromResponse (choices : list Json) : result Json :=
  match choices with
  | [] => Err "openai response missing assistant choice"
  | choice :: _ =>
      message ← get (Some choice) "message";
      if isRecord message then Ok choice else Err "openai response missing assistant choice"
  end.

Definition truthy_opt (v : option Json) : bool := match v with Some x => json_truthy x | None => false end.

(** [v ?? []] of what is then iterated. *)
Definition or_empty (v : option Json) : option Json := match v with None | Some JNull => Some (JArr []) | _ => v end.

Definition text_block (text : string) : Json := obj [("type", Some (JStr "text")); ("text", Some (JStr text))].

Definition translateOpenAIResponse (res : Json) : result Json :=
  id ← get (Some res) "id";
  let model := opt_get (Some res) "model" in
  match truthy_opt id && truthy_opt model, opt_get (Some res) "choices" with
  | true, Some (JArr choices) =>
      if bool_decide (choices = []) then Err "openai response missing choices" else
      choice ← choiceFromResponse choices;
      let message := opt_get (Some choice) "message" in
      calls ← items (or_empty (opt_get message "tool_calls"));
      uses ← mapM_result toolUseFromCall calls;
      let text := match opt_get message "content" with
                  | Some (JStr (String _ _ as s)) => [text_block s] | _ => [] end in
      let usage := json_or (opt_get (Some res) "usage") (JObj [("prompt_tokens", JNum 0); ("completion_tokens", JNum 0)]) in
      Ok (obj [("id", id); ("type", Some (JStr "message")); ("role", Some (JStr "assistant"));
               ("content", Some (JArr (text ++ uses))); ("model", model);
               ("stop_reason", Some (JStr (normalizeFinishReason (opt_get (Some choice) "finish_reason"))));
               ("usage", Some (obj [("input_tokens", opt_get (Some usage) "prompt_tokens");
                                    ("output_tokens", opt_get (Some usage) "completion_tokens")]))])
  | _, _ => Err "openai response missing choices"
  end.

End translate.
