(* ===== verification/ProxyBody.v ===== *)
(** * Inference proxy: bodies

    What packages/core/src/openaiProxy.ts reads from and writes to request and
    response bodies: the model asked for, the vendor fields only the proxy may
    set, whether an answer is reproducible, the first token and the tool calls
    of a completion, and a completion told as a stream.  Also
    cache-identity/canonical.ts and responsecache/deterministic.ts. *)

From S2P Require Import Prelude JsMap JsSort JsText JsJson JsValues AnthropicRequest KvStore.
From Stdlib Require Import Ascii.

#[local] Open Scope string_scope.
#[local] Open Scope list_scope.
#[local] Open Scope Z_scope.

Module ProxyBody.

(** ** Vendor fields *)

Definition HANDLE : string := "x_omlx_request_handle".
Definition EPOCH : string := "x_omlx_restore_epoch".
Definition SAVE : string := "x_omlx_save_handle".

(** The fields of a record are changed in place; an array's own properties are
    never printed. *)
Definition on_fields (f : list (string * Json) → list (string * Json)) (body : Json) : Json :=
  match body with JObj fs => JObj (f fs) | v => v end.

Definition owns (body : Json) (key : string) : bool := match body with JObj fs => has_own fs key | _ => false end.

Definition stripUserSuppliedOmlxVendorFields (body : Json) : Json :=
  if negb (owns body HANDLE) && negb (owns body EPOCH) && negb (owns body SAVE) then body
  else on_fields (λ fs, del_field SAVE (del_field EPOCH (del_field HANDLE fs))) body.

Definition injectVendorFields (handle epoch : string) : Json → Json :=
  on_fields (λ fs, set_field EPOCH (JStr epoch) (set_field HANDLE (JStr handle) fs)).

Definition injectSaveHandle (sha : string) : Json → Json :=
  on_fields (λ fs, set_field "stream" (JBool false) (set_field SAVE (JStr sha) fs)).

Definition stream_off : Json → Json := on_fields (set_field "stream" (JBool false)).

Definition kvslot_suffix : string := ".kvslot".
Definition basenameStripKvslot (path : string) : string :=
  let file := basename path in default file (KvStore.strip_suffix kvslot_suffix file).

(** ** What a request asks for *)

Definition isDeterministic (parsedBody : Json) : bool :=
  isRecord (Some parsedBody) &&
  ((match opt_get (Some parsedBody) "temperature" with Some (JNum n) => n =? 0 | _ => false end) ||
   match opt_get (Some parsedBody) "seed" with Some (JNum _) => true | _ => false end).

Definition requestModel (parsedBody : Json) : option string := is_str (opt_get (Some parsedBody) "model").

Definition wants_stream (parsedBody : Json) : bool :=
  match opt_get (Some parsedBody) "stream" with Some (JBool true) => true | _ => false end.

Section texts.
Context (json_parse : string → option Json).

Definition requestedModelFromBody (bodyText : string) : option string :=
  parsed ← json_parse bodyText; is_str (opt_get (Some parsed) "model").

Definition requestBodyContainsOmlxRequestHandle (bodyText : option string) : bool :=
  match bodyText with
  | Some ((String _ _) as text) => match json_parse text with Some parsed => owns parsed HANDLE | None => false end
  | _ => false
  end.

Definition shouldEnforceFirstTokenEquivalence (bodyText : string) : bool :=
  match json_parse bodyText with
  | None => true
  | Some parsed =>
      match opt_get (Some parsed) "seed", opt_get (Some parsed) "temperature" with
      | Some (JNum _), _ => true
      | _, Some (JNum t) => negb (0 <? t)
      | _, _ => true
      end
  end.

(** ** The identity of a request (cache-identity/canonical.ts) *)

Definition RESPONSE_CACHE_IGNORED_FIELDS : list string := [HANDLE; EPOCH].

Definition stripIgnoredFields (value : Json) : Json :=
  on_fields (filter (λ f, f.1 ∉ RESPONSE_CACHE_IGNORED_FIELDS)) value.

Definition cmp_field (a b : string * Json) : Z := cmp_text a.1 b.1.

Fixpoint sortJsonValue (value : Json) : Json :=
  match value with
  | JArr l => JArr (sortJsonValue <$> l)
  | JObj fs => JObj (js_sort cmp_field ((λ f, (f.1, sortJsonValue f.2)) <$> fs))
  | JNull => JNull | JBool b => JBool b | JNum n => JNum n | JNaN => JNaN | JStr s => JStr s
  end.

Definition canonicalText (parsed : Json) : string := stringify (sortJsonValue (stripIgnoredFields parsed)).

Context (sha1 : string → string).

Definition canonicalRequestSha (bodyText : string) : string :=
  match json_parse bodyText with Some parsed => sha1 (canonicalText parsed) | None => sha1 bodyText end.

Definition boundaryNaiveBytePrefixSha (bodyText : string) : string := sha1 bodyText.

End texts.

(** ** What a completion holds *)

Definition FIRST_RESPONSE_TOKEN_FINGERPRINT_CHARS : nat := 20.

Definition normalizeFirstResponseToken (text : string) : option string :=
  match trim text with
  | EmptyString => None
  | trimmed => Some (String.substring 0 FIRST_RESPONSE_TOKEN_FINGERPRINT_CHARS trimmed)
  end.

Definition firstTokenFromContentPart (part : Json) : option string :=
  match part with
  | JStr s => normalizeFirstResponseToken s
  | _ => is_str (opt_get (Some part) "text") ≫= normalizeFirstResponseToken
  end.

Fixpoint first_some {A B} (f : A → option B) (l : list A) : option B :=
  match l with [] => None | x :: l' => match f x with Some y => Some y | None => first_some f l' end end.

Definition firstTokenTextFromContent (content : option Json) : option string :=
  match content with
  | Some (JStr s) => normalizeFirstResponseToken s
  | Some (JArr l) => first_some firstTokenFromContentPart l
  | _ => None
  end.

Definition extractFirstResponseTokenFromJson (payload : Json) : option string :=
  match opt_get (Some payload) "choices" with
  | Some (JArr (firstChoice :: _)) =>
      let part key := firstTokenTextFromContent (opt_get (opt_get (Some firstChoice) key) "content") in
      match part "message" with Some token => Some token | None => part "delta" end
  | _ => None
  end.

(** The entry of one call; a plain object ignores the key [__proto__]. *)
Definition tool_entry (rawCall : Json) : option (string * string) :=
  let field := opt_get (Some rawCall) in
  match is_str (field "id"), is_str (opt_get (field "function") "name"),
        is_str (opt_get (field "function") "arguments") with
  | Some id, Some name, Some args =>
      if str_is (field "type") "function" && negb (bool_decide (id = "__proto__"))
      then Some (id, stringify (tool_call (Some (JStr id)) (Some (JStr name)) (Some (JStr args)))) else None
  | _, _, _ => None
  end.

Definition add_entry (out : ToolMap) (rawCall : Json) : ToolMap :=
  match tool_entry rawCall with Some (id, text) => jm_set out id text | None => out end.

Definition collectToolCallEntries (toolCalls : list Json) (out : ToolMap) : ToolMap := foldl add_entry out toolCalls.

Definition choice_calls (choice : Json) : list Json :=
  match opt_get (opt_get (Some choice) "message") "tool_calls" with Some (JArr l) => l | _ => [] end.

Definition extractToolMapFromJson (payload : Json) : ToolMap :=
  match opt_get (Some payload) "choices" with
  | Some (JArr choices) => foldl (λ out choice, collectToolCallEntries (choice_calls choice) out) [] choices
  | _ => []
  end.

Definition SESSION_TITLE_CHARS : nat := 80.

(** The first message of the user, as the name of the session. *)
Definition session_title (text : string) : option string :=
  match trim text with EmptyString => None | t => Some (String.substring 0 SESSION_TITLE_CHARS t) end.

Definition deriveSessionTitle (req : option Json) : result (option string) :=
  match req with
  | None => Ok None
  | Some r =>
      messages ← array_of (opt_get (Some r) "messages");
      match find (λ m, str_is (opt_get (Some m) "role") "user") messages with
      | None => Ok None
      | Some m =>
          match opt_get (Some m) "content" with
          | Some (JStr s) => Ok (session_title s)
          | content =>
              blocks ← array_of content;
              Ok (session_title (join_text ((λ b, opt_get (Some b) "text") <$>
                    filter (λ b, str_is (opt_get (Some b) "type") "text" = true) blocks)))
          end
      end
  end.

(** ** A completion as a stream *)

Record SseHeader := mkHeader { hd_id : string; hd_created : Json; hd_model : string }.

Section sse.
Context (now : Z).

Definition number_or (v : option Json) (d : Json) : Json :=
  match v with Some (JNum n) => JNum n | Some JNaN => JNaN | _ => d end.

Definition sseHeaderFromCompletion (completion : Json) : SseHeader :=
  let field := opt_get (Some completion) in
  mkHeader (default "chatcmpl-stream" (is_str (field "id"))) (number_or (field "created") (JNum (now / 1000)))
    (default "unknown" (is_str (field "model"))).

Definition buildChoiceDelta (message : option Json) (content : string) : Json :=
  obj [("role", Some (JStr (default "assistant" (is_str (opt_get message "role")))));
       ("content", match content with EmptyString => None | _ => Some (JStr content) end);
       ("tool_calls", match opt_get message "tool_calls" with Some (JArr l) => Some (JArr l) | _ => None end)].

Definition chunk (header : SseHeader) (choices : list Json) (usage : option Json) : Json :=
  obj [("id", Some (JStr (hd_id header))); ("object", Some (JStr "chat.completion.chunk"));
       ("created", Some (hd_created header)); ("model", Some (JStr (hd_model header)));
       ("choices", Some (JArr choices)); ("usage", usage)].

Definition chunk_choice (index delta finish_reason : Json) : Json :=
  obj [("index", Some index); ("delta", Some delta); ("finish_reason", Some finish_reason)].

Definition chunksForChoice (header : SseHeader) (choice : Json) (fallbackIndex : Z) : list Json :=
  if negb (isRecord (Some choice)) then [] else
  let field := opt_get (Some choice) in
  let idx := number_or (field "index") (JNum fallbackIndex) in
  let message := field "message" in
  let content := default "" (is_str (opt_get message "content")) in
  let finishReason := default "stop" (is_str (field "finish_reason")) in
  [chunk header [chunk_choice idx (buildChoiceDelta message content) JNull] None;
   chunk header [chunk_choice idx (JObj []) (JStr finishReason)] None].

Fixpoint chunks_from (header : SseHeader) (i : Z) (choices : list Json) : list Json :=
  match choices with [] => [] | c :: rest => chunksForChoice header c i ++ chunks_from header (i + 1) rest end.

(** The chunks of [jsonCompletionToSse], before [data:] and [\[DONE\]] are put around them. *)
Definition completion_chunks (json : Json) : list Json :=
  let header := sseHeaderFromCompletion json in
  let rawChoices := match opt_get (Some json) "choices" with Some (JArr l) => l | _ => [] end in
  (if bool_decide (rawChoices = []) then [chunk header [] None] else [])
  ++ chunks_from header 0 rawChoices
  ++ match opt_get (Some json) "usage" with
     | None | Some JNull => []
     | Some usage => [chunk header [] (Some usage)]
     end.

Definition frame (text : string) : string := "data: " +:+ text +:+ String newline (String newline EmptyString).

Definition jsonCompletionToSse (json : Json) : string :=
  concat_texts ((λ c, frame (stringify c)) <$> completion_chunks json) +:+ frame "[DONE]".
End sse.

End ProxyBody.
