(* ===== verification/AnthropicRequestProps.v ===== *)
(** * Anthropic proxy: what a translated request says

    For requests of the declared types (packages/core/src/anthropic/types.ts):
    which are translated, that nothing a message says is lost or reordered
    among its kind, and that a completion, sent back as the next turn's
    history, is read with the very tool calls the model wrote. *)

From S2P Require Import Prelude JsMap JsText JsJson JsValues AnthropicStream AnthropicRequest ProxyBody.
Import ProxyBody.

#[local] Open Scope string_scope.
#[local] Open Scope list_scope.
#[local] Open Scope Z_scope.

(** ** Fields of literal objects *)

Fixpoint obj_get (fs : list (string * option Json)) (key : string) : option Json :=
  match fs with
  | [] => None
  | (k, v) :: fs' =>
      if bool_decide (k = key) then match v with Some x => Some x | None => obj_get fs' key end else obj_get fs' key
  end.

Lemma obj_fields fs key : opt_get (Some (obj fs)) key = obj_get fs key.
Proof.
  unfold obj, opt_get. induction fs as [|[k [x|]] fs IH]; [done| |].
  - cbn [omap list_omap fmap option_fmap option_map]. rewrite json_field_cons, IH. done.
  - cbn [omap list_omap fmap option_fmap option_map obj_get]. rewrite IH. by case_bool_decide.
Qed.

Lemma obj_get_ok fs key : get (Some (obj fs)) key = Ok (obj_get fs key).
Proof. rewrite <-obj_fields. done. Qed.

Lemma obj_get_nil key : obj_get [] key = None.
Proof. done. Qed.
Lemma obj_get_skip k v fs key : k ≠ key → obj_get ((k, v) :: fs) key = obj_get fs key.
Proof. intros H. cbn. by rewrite bool_decide_false. Qed.
Lemma obj_get_here k v fs : forallb (λ f, negb (bool_decide (f.1 = k))) fs = true → obj_get ((k, v) :: fs) k = v.
Proof.
  intros H. cbn. rewrite bool_decide_true by done. destruct v as [x|]; [done|].
  induction fs as [|[k' v] fs IH]; [done|]. cbn in H. apply andb_true_iff in H as [Hk H]. cbn.
  rewrite bool_decide_false; [by apply IH|]. intros ->. by rewrite bool_decide_true in Hk.
Qed.

Definition str (s : string) : option Json := Some (JStr s).

Lemma str_is_str a b : str_is (str a) b = bool_decide (a = b).
Proof. done. Qed.
Lemma is_str_str a : is_str (str a) = Some a.
Proof. done. Qed.
Lemma bind_ok {A B} (a : A) (f : A → result B) : (Ok a ≫= f) = f a.
Proof. done. Qed.

(** Runs the reading of literal objects. *)
Ltac read_one :=
  match goal with
  | |- context [bool_decide (?a = ?b :> string)] =>
      first [rewrite (bool_decide_true (a = b)) by reflexivity | rewrite (bool_decide_false (a = b)) by (intros [=])]
  end.
Ltac read_fields :=
  repeat first [rewrite obj_fields | rewrite obj_get_ok | rewrite obj_get_here by reflexivity | rewrite obj_get_skip by discriminate | rewrite obj_get_nil | rewrite str_is_str
               | rewrite is_str_str | rewrite bind_ok | read_one | progress cbv beta iota].

(** ** The declared types *)

Inductive AnthropicRole := user | assistant.
#[export] Instance AnthropicRole_eq : EqDecision AnthropicRole.
Proof. solve_decision. Defined.

Inductive AnthropicImageSource := SourceBase64 (media_type data : string) | SourceUrl (url : string).

(** The content of a tool's result: a text, or texts ([inl]) and images. *)
Definition ToolResultContent : Type := string + list (string + AnthropicImageSource).

Inductive AnthropicContentBlock :=
| BText (text : string)
| BImage (source : AnthropicImageSource)
| BToolUse (id name : string) (input : list (string * Json))
| BToolResult (tool_use_id : string) (content : ToolResultContent).

Record AnthropicMessage := mkMessage { m_role : AnthropicRole; m_content : string + list AnthropicContentBlock }.

Definition role_json (r : AnthropicRole) : option Json := str (match r with user => "user" | assistant => "assistant" end).
Definition source_json (s : AnthropicImageSource) : Json :=
  match s with
  | SourceBase64 mt data => obj [("type", str "base64"); ("media_type", str mt); ("data", str data)]
  | SourceUrl url => obj [("type", str "url"); ("url", str url)]
  end.
Definition text_json (t : string) : Json := obj [("type", str "text"); ("text", str t)].
Definition image_json (s : AnthropicImageSource) : Json := obj [("type", str "image"); ("source", Some (source_json s))].
Definition result_item (x : string + AnthropicImageSource) : Json :=
  match x with inl t => text_json t | inr s => image_json s end.
Definition result_json (c : ToolResultContent) : Json :=
  match c with inl s => JStr s | inr l => JArr (result_item <$> l) end.
Definition block_json (b : AnthropicContentBlock) : Json :=
  match b with
  | BText t => text_json t
  | BImage s => image_json s
  | BToolUse id name input => tool_use (str id) (str name) (JObj input)
  | BToolResult id c => obj [("type", str "tool_result"); ("tool_use_id", str id); ("content", Some (result_json c))]
  end.
Definition message_json (m : AnthropicMessage) : Json :=
  obj [("role", role_json (m_role m));
       ("content", Some (match m_content m with inl s => JStr s | inr l => JArr (block_json <$> l) end))].

(** A tool: its name, description and input schema. *)
Definition AnthropicTool : Type := string * option string * Json.
Inductive AnthropicToolChoice := ChoiceAuto | ChoiceAny | ChoiceNone | ChoiceTool (name : string).

Record AnthropicMessagesRequest := mkRequest {
  rq_model : string; rq_messages : list AnthropicMessage; rq_max_tokens : option Json;
  rq_system : option (string + list string); rq_tools : option (list AnthropicTool);
  rq_tool_choice : option AnthropicToolChoice; rq_stop_sequences : option (list string);
  rq_temperature : option Json; rq_top_p : option Json; rq_top_k : option Json
}.

Definition system_json (system : option (string + list string)) : option Json :=
  (λ s, match s with inl t => JStr t | inr l => JArr (text_json <$> l) end) <$> system.
Definition tool_json (t : AnthropicTool) : Json :=
  obj [("name", str t.1.1); ("description", JStr <$> t.1.2); ("input_schema", Some t.2)].
Definition tools_json (tools : option (list AnthropicTool)) : option Json := (λ l, JArr (tool_json <$> l)) <$> tools.
Definition choice_json (choice : option AnthropicToolChoice) : option Json :=
  (λ c, match c with
        | ChoiceAuto => JStr "auto" | ChoiceAny => JStr "any" | ChoiceNone => JStr "none"
        | ChoiceTool name => obj [("type", str "tool"); ("name", str name)]
        end) <$> choice.
Definition request_json (r : AnthropicMessagesRequest) : Json :=
  obj [("model", str (rq_model r)); ("messages", Some (JArr (message_json <$> rq_messages r)));
       ("max_tokens", rq_max_tokens r); ("system", system_json (rq_system r)); ("tools", tools_json (rq_tools r));
       ("tool_choice", choice_json (rq_tool_choice r));
       ("stop_sequences", (λ l, JArr (JStr <$> l)) <$> rq_stop_sequences r);
       ("temperature", rq_temperature r); ("top_p", rq_top_p r); ("top_k", rq_top_k r)].

(** The text of the system prompt, and its message. *)
Definition system_text (system : option (string + list string)) : option string :=
  (λ s, match s with inl t => t | inr l => concat_texts l end) <$> system.
Definition system_messages (r : AnthropicMessagesRequest) : list Json :=
  match system_text (rq_system r) with Some t => [chat_message (str "system") (JStr t) []] | None => [] end.

(** ** What is said *)

Record Said := mkSaid {
  said_text : string;
  said_images : list string;
  said_calls : list Json;
  said_results : list (option Json * option Json)
}.
Definition silent : Said := mkSaid "" [] [] [].
Definition and_then (a b : Said) : Said :=
  mkSaid (said_text a +:+ said_text b) (said_images a ++ said_images b) (said_calls a ++ said_calls b)
    (said_results a ++ said_results b).
Definition all_said : list Said → Said := foldr and_then silent.

Definition item_text (x : string + AnthropicImageSource) : string := match x with inl t => t | inr _ => "" end.
Definition result_text (c : ToolResultContent) : string :=
  match c with inl s => s | inr l => concat_texts (item_text <$> l) end.

(** What a block of a request says. *)
Definition block_said (b : AnthropicContentBlock) : Said :=
  match b with
  | BText t => mkSaid t [] [] []
  | BImage (SourceBase64 mt data) => mkSaid "" ["data:" +:+ mt +:+ ";base64," +:+ data] [] []
  | BImage (SourceUrl _) => silent
  | BToolUse id name input => mkSaid "" [] [tool_call (str id) (str name) (str (stringify (JObj input)))] []
  | BToolResult id c => mkSaid "" [] [] [(str id, str (result_text c))]
  end.
Definition message_said (m : AnthropicMessage) : Said :=
  match m_content m with inl s => mkSaid s [] [] [] | inr l => all_said (block_said <$> l) end.

(** What an OpenAI message says: the reader knows text parts and image parts. *)
Definition part_said (p : Json) : Said :=
  if str_is (opt_get (Some p) "type") "text"
  then mkSaid (default "" (is_str (opt_get (Some p) "text"))) [] [] []
  else mkSaid "" (match is_str (opt_get (opt_get (Some p) "image_url") "url") with Some u => [u] | None => [] end) [] [].
Definition content_said (content : option Json) : Said :=
  match content with Some (JStr s) => mkSaid s [] [] [] | Some (JArr l) => all_said (part_said <$> l) | _ => silent end.
Definition openai_said (o : Json) : Said :=
  let content := opt_get (Some o) "content" in
  if str_is (opt_get (Some o) "role") "tool"
  then mkSaid "" [] [] [(opt_get (Some o) "tool_call_id", content)]
  else and_then (content_said content)
    (mkSaid "" [] (match opt_get (Some o) "tool_calls" with Some (JArr l) => l | _ => [] end) []).

(** ** Which messages are translated *)

Definition is_text (x : string + AnthropicImageSource) : bool := match x with inl _ => true | inr _ => false end.
Definition texts_only (c : ToolResultContent) : bool := match c with inl _ => true | inr l => forallb is_text l end.
Definition is_result (b : AnthropicContentBlock) : bool := match b with BToolResult _ _ => true | _ => false end.

(** A block that is translated in a message that is not all results. *)
Definition plain_block (b : AnthropicContentBlock) : bool :=
  match b with BText _ | BImage (SourceBase64 _ _) | BToolUse _ _ _ => true | _ => false end.
Definition is_call (b : AnthropicContentBlock) : bool := match b with BToolUse _ _ _ => true | _ => false end.
Definition allowed (role : AnthropicRole) (b : AnthropicContentBlock) : bool :=
  plain_block b && (bool_decide (role = assistant) || negb (is_call b)).

(** A user's tool results alone, with texts; otherwise no results, no images by
    address, and tools called by the assistant only. *)
Definition supported (m : AnthropicMessage) : bool :=
  match m_content m with
  | inl _ => true
  | inr l =>
      if bool_decide (m_role m = user) && negb (bool_decide (l = [])) && forallb is_result l
      then forallb (λ b, match b with BToolResult _ c => texts_only c | _ => true end) l
      else forallb (allowed (m_role m)) l
  end.

Lemma and_then_assoc a b c : and_then a (and_then b c) = and_then (and_then a b) c.
Proof. unfold and_then. cbn. by rewrite string_app_assoc, !app_assoc. Qed.
Lemma and_then_silent a : and_then a silent = a.
Proof. destruct a. unfold and_then. cbn. by rewrite string_app_empty, !app_nil_r. Qed.
Lemma silent_and_then a : and_then silent a = a.
Proof. by destruct a. Qed.
Lemma all_said_app l k : all_said (l ++ k) = and_then (all_said l) (all_said k).
Proof. induction l as [|x l IH]; cbn; [by rewrite silent_and_then|]. by rewrite IH, and_then_assoc. Qed.

Section requests.
Context (json_parse : string → option Json).

(** ** One message *)

Lemma result_texts_json l :
  if forallb is_text l
  then ∃ parts, result_texts (result_item <$> l) = Ok parts ∧ join_text parts = concat_texts (item_text <$> l)
  else is_ok (result_texts (result_item <$> l)) = false.
Proof.
  induction l as [|[t|s] l IH]; [by exists []| |]; rewrite fmap_cons; cbn [result_texts forallb andb is_text result_item].
  - unfold text_json. read_fields. destruct (forallb _ l).
    + destruct IH as (parts&E&J). exists (str t :: parts). rewrite E. split; [done|].
      unfold join_text in *. rewrite !fmap_cons. cbn [concat_texts foldr]. fold (concat_texts). by rewrite J.
    + by destruct (result_texts _).
  - unfold image_json. by read_fields.
Qed.

Lemma tool_message_json id c :
  if texts_only c then toolMessageFromBlock (block_json (BToolResult id c)) = Ok (tool_message (str id) (str (result_text c)))
  else is_ok (toolMessageFromBlock (block_json (BToolResult id c))) = false.
Proof.
  unfold toolMessageFromBlock. cbn [block_json]. read_fields.
  destruct c as [s|l]; [done|]. cbn [result_json texts_only array_of]. read_fields.
  pose proof (result_texts_json l) as H. destruct (forallb _ l).
  - destruct H as (parts&E&J). rewrite E. read_fields. by rewrite J.
  - by destruct (result_texts _).
Qed.

Lemma tool_message_said id text : openai_said (tool_message (str id) (str text)) = mkSaid "" [] [] [(str id, str text)].
Proof. unfold openai_said, tool_message. by read_fields. Qed.

Lemma results_json l :
  forallb is_result l = true →
  if forallb (λ b, match b with BToolResult _ c => texts_only c | _ => true end) l
  then ∃ out, mapM_result toolMessageFromBlock (block_json <$> l) = Ok out ∧
    all_said (openai_said <$> out) = all_said (block_said <$> l)
  else is_ok (mapM_result toolMessageFromBlock (block_json <$> l)) = false.
Proof.
  induction l as [|b l IH]; [by exists []|]. cbn [forallb]. intros [Hb Hl]%andb_true_iff. specialize (IH Hl).
  destruct b as [| | |id c]; try done. pose proof (tool_message_json id c) as Hm. rewrite fmap_cons. cbn [mapM_result].
  destruct (texts_only c); cbn [andb].
  - rewrite Hm. read_fields. destruct (forallb _ l).
    + destruct IH as (out&E&S). rewrite E. eexists. split; [done|]. rewrite !fmap_cons. cbn [all_said foldr].
      rewrite tool_message_said. fold all_said. by rewrite S.
    + by destruct (mapM_result _ _).
  - by destruct (toolMessageFromBlock _).
Qed.

Lemma every_result_json l : every_result (block_json <$> l) = Ok (forallb is_result l).
Proof.
  induction l as [|b l IH]; [done|]. rewrite fmap_cons. cbn [every_result forallb].
  destruct b; cbn [block_json is_result andb]; unfold text_json, image_json, tool_use; by read_fields.
Qed.

Lemma image_part_json s :
  match s with
  | SourceBase64 mt data => toImagePart (image_json s) = Ok (image_part ("data:" +:+ mt +:+ ";base64," +:+ data))
  | SourceUrl _ => is_ok (toImagePart (image_json s)) = false
  end.
Proof. destruct s; unfold toImagePart, image_json, toDataUrl; read_fields; cbn [source_json]; by read_fields. Qed.

Lemma collect_json l :
  if forallb plain_block l
  then ∃ ps urls, collectMessageParts json_parse (block_json <$> l) [] = Ok ps ∧ imageParts ps = image_part <$> urls ∧
    all_said (block_said <$> l) = mkSaid (join_text (textParts ps)) urls (toolCalls ps) []
  else is_ok (collectMessageParts json_parse (block_json <$> l) []) = false.
Proof.
  induction l as [|b l IH]; [by exists (mkParts [] [] []), []|].
  cbn [forallb]. rewrite fmap_cons. cbn [collectMessageParts].
  destruct b as [t|s|id name input|id c]; cbn [block_json plain_block andb].
  - unfold text_json. read_fields. destruct (forallb _ l); [|by destruct (collectMessageParts _ _ _)].
    destruct IH as (ps&urls&E&I&S). rewrite E. eexists _, urls. split; [done|]. split; [done|].
    rewrite fmap_cons. cbn [all_said foldr]. fold all_said. rewrite S. done.
  - pose proof (image_part_json s) as Hpart. unfold image_json at 1. read_fields.
    destruct s as [mt data|url]; [|by destruct (toImagePart _)]. cbn [andb]. rewrite Hpart. read_fields.
    destruct (forallb _ l); [|by destruct (collectMessageParts _ _ _)].
    destruct IH as (ps&urls&E&I&S). rewrite E. eexists _, (_ :: urls). split; [done|]. cbn [imageParts]. rewrite I. split; [done|].
    rewrite fmap_cons. cbn [all_said foldr]. fold all_said. rewrite S. done.
  - unfold tool_use, toolCallFromBlock. cbn [jm_get]. read_fields.
    destruct (forallb _ l); [|by destruct (collectMessageParts _ _ _)].
    destruct IH as (ps&urls&E&I&S). rewrite E. eexists _, urls. split; [done|]. split; [done|].
    rewrite fmap_cons. cbn [all_said foldr]. fold all_said. rewrite S. done.
  - by read_fields.
Qed.

Lemma parts_said urls : all_said (part_said <$> (image_part <$> urls)) = mkSaid "" urls [] [].
Proof.
  induction urls as [|u urls IH]; [done|]. rewrite !fmap_cons. cbn [all_said foldr]. fold all_said. rewrite IH.
  unfold part_said, image_part. by read_fields.
Qed.

Lemma message_content_said ps urls :
  imageParts ps = image_part <$> urls →
  content_said (Some (message_content ps)) = mkSaid (join_text (textParts ps)) urls [] [].
Proof.
  intros Hi. unfold message_content. rewrite Hi. destruct urls as [|u urls]; [done|].
  rewrite fmap_cons. cbn [content_said]. rewrite fmap_app, all_said_app.
  change (part_said <$> image_part u :: (image_part <$> urls)) with (part_said <$> (image_part <$> u :: urls)). rewrite parts_said.
  case_bool_decide as He; [by rewrite He|]. cbn [fmap list_fmap all_said foldr]. rewrite and_then_silent.
  unfold part_said, text_part. read_fields. unfold and_then. cbn. by rewrite string_app_empty.
Qed.

Lemma chat_said role content calls :
  role ≠ "tool" →
  openai_said (chat_message (str role) content calls) = and_then (content_said (Some content)) (mkSaid "" [] calls []).
Proof.
  intros Hr. unfold openai_said, chat_message. read_fields. rewrite bool_decide_false by done. by destruct calls.
Qed.

Lemma said_no_calls l :
  said_calls (all_said (block_said <$> l)) = [] ↔ forallb (negb ∘ is_call) l = true.
Proof.
  induction l as [|b l IH]; [done|]. rewrite fmap_cons. cbn [all_said foldr forallb]. fold all_said.
  unfold and_then at 1. cbn [said_calls]. rewrite app_nil, IH, andb_true_iff.
  destruct b as [|[]| |]; cbn; intuition discriminate.
Qed.

Lemma allowed_split role l :
  forallb (allowed role) l = forallb plain_block l && (bool_decide (role = assistant) || forallb (negb ∘ is_call) l).
Proof.
  induction l as [|b l IH]; [by destruct role|]. cbn [forallb]. rewrite IH. unfold allowed. cbn.
  destruct (plain_block b), (forallb plain_block l), (is_call b), (bool_decide (role = assistant)), (forallb (negb ∘ is_call) l); done.
Qed.

Lemma blocks_translated role l :
  if forallb (allowed role) l
  then ∃ ps urls, collectMessageParts json_parse (block_json <$> l) [] = Ok ps ∧ imageParts ps = image_part <$> urls ∧
    all_said (block_said <$> l) = mkSaid (join_text (textParts ps)) urls (toolCalls ps) [] ∧
    (role = user → toolCalls ps = [])
  else match collectMessageParts json_parse (block_json <$> l) [] with
       | Ok ps => role = user ∧ toolCalls ps ≠ []
       | Err _ => True
       end.
Proof.
  pose proof (collect_json l) as Hc. rewrite allowed_split. destruct (forallb plain_block l); cbn [andb].
  - destruct Hc as (ps&urls&E&I&S). pose proof (said_no_calls l) as Hn. rewrite S in Hn. cbn [said_calls] in Hn. rewrite E.
    destruct role; [rewrite (bool_decide_false (user = assistant)) by done|rewrite bool_decide_true by done]; cbn [orb].
    + destruct (forallb (negb ∘ is_call) l).
      * exists ps, urls. split_and!; try done. intros _. by apply Hn.
      * split; [done|]. intros Hcalls. apply Hn in Hcalls. done.
    + by exists ps, urls.
  - by destruct (collectMessageParts _ _ _).
Qed.

Lemma message_translated m :
  if supported m
  then ∃ out, translateMessageContent json_parse (message_json m) [] = Ok out ∧ all_said (openai_said <$> out) = message_said m
  else is_ok (translateMessageContent json_parse (message_json m) []) = false.
Proof.
  destruct m as [role [s|l]]; unfold supported, message_json, translateMessageContent, message_said; cbn [m_role m_content]; read_fields.
  { eexists. split; [done|]. cbn [fmap list_fmap all_said foldr]. rewrite and_then_silent.
    destruct role; unfold role_json; rewrite chat_said by done; unfold and_then; cbn; by rewrite string_app_empty. }
  cbn [array_of]. read_fields. rewrite every_result_json.
  assert ((if str_is (role_json role) "user" && negb (bool_decide (block_json <$> l = [])) then Ok (forallb is_result l) else Ok false)
          = Ok (bool_decide (role = user) && negb (bool_decide (l = [])) && forallb is_result l)) as ->.
  { assert (bool_decide (block_json <$> l = []) = bool_decide (l = [])) as ->.
    { destruct l; [done|]. by rewrite !bool_decide_false by done. }
    by destruct role, (bool_decide (l = [])). }
  read_fields. destruct (_ && forallb is_result l) eqn:Hres.
  { apply andb_true_iff in Hres as [_ Hres]. by apply results_json. }
  pose proof (blocks_translated role l) as Hc. assert (str_is (role_json role) "assistant" = bool_decide (role = assistant)) as -> by (by destruct role).
  destruct (forallb (allowed role) l).
  - destruct Hc as (ps&urls&E&I&S&Hu). rewrite E. read_fields. rewrite S. destruct role.
    + rewrite (Hu eq_refl), (bool_decide_false (user = assistant)), (bool_decide_true ([] = [])) by done. cbn [negb].
      change (Some (JStr "user")) with (str "user").
      eexists. split; [done|]. cbn [fmap list_fmap all_said foldr]. rewrite and_then_silent, chat_said, (message_content_said ps urls I) by done.
      unfold and_then. cbn. by rewrite string_app_empty, app_nil_r.
    + change (Some (JStr "assistant")) with (str "assistant"). rewrite bool_decide_true by done. eexists. split; [done|]. cbn [fmap list_fmap all_said foldr].
      rewrite and_then_silent, chat_said, (message_content_said ps urls I) by done.
      unfold and_then. cbn. by rewrite string_app_empty, app_nil_r.
  - destruct (collectMessageParts _ _ _) as [ps|]; [|done]. read_fields. destruct Hc as [-> Hn].
    by rewrite (bool_decide_false (user = assistant)), (bool_decide_false (toolCalls ps = [])) by done.
Qed.

Lemma messages_translated l :
  if forallb supported l
  then ∃ outs, mapM_result (λ m, translateMessageContent json_parse m []) (message_json <$> l) = Ok outs ∧
    all_said (openai_said <$> concat outs) = all_said (message_said <$> l)
  else is_ok (mapM_result (λ m, translateMessageContent json_parse m []) (message_json <$> l)) = false.
Proof.
  induction l as [|m l IH]; [by exists []|]. rewrite fmap_cons. cbn [mapM_result forallb].
  pose proof (message_translated m) as Hm. destruct (supported m); cbn [andb].
  - destruct Hm as (out&E&S). rewrite E. read_fields. destruct (forallb supported l).
    + destruct IH as (outs&Es&Ss). rewrite Es. read_fields. eexists. split; [done|]. cbn [concat].
      rewrite fmap_app, all_said_app, S, Ss. done.
    + by destruct (mapM_result _ _).
  - by destruct (translateMessageContent _ _ _).
Qed.

(** ** A whole request *)

Lemma system_translated system :
  normalizeSystemContent (system_json system) = Ok (system_text system).
Proof.
  destruct system as [[s|l]|]; [done| |done]. unfold system_json, normalizeSystemContent. cbn [fmap option_fmap option_map array_of].
  read_fields. assert (mapM_result (λ b, get (Some b) "text") (text_json <$> l) = Ok (str <$> l)) as ->.
  { induction l as [|t l IH]; [done|]. rewrite !fmap_cons. cbn [mapM_result].
    assert (get (Some (text_json t)) "text" = Ok (str t)) as -> by (unfold text_json; by read_fields). read_fields. by rewrite IH. }
  read_fields. unfold system_text. cbn. do 2 f_equal. unfold join_text. induction l as [|t l IH]; [done|]. cbn. f_equal. apply IH.
Qed.

Lemma tools_translated tools : ∃ out, translateTools (tools_json tools) = Ok out.
Proof.
  destruct tools as [l|]; [|by eexists]. unfold tools_json. cbn [fmap option_fmap option_map translateTools json_truthy array_of].
  read_fields. assert (∃ out, mapM_result translateTool (tool_json <$> l) = Ok out) as [out ->]; [|by eexists].
  induction l as [|[[name desc] schema] l [out IH]]; [by exists []|]. rewrite fmap_cons. cbn [mapM_result].
  assert (∃ x, translateTool (tool_json (name, desc, schema)) = Ok x) as [x ->].
  { unfold translateTool, tool_json. read_fields. by eexists. }
  read_fields. rewrite IH. by eexists.
Qed.

Lemma choice_translated choice : ∃ out, translateToolChoice (choice_json choice) = Ok out.
Proof. destruct choice as [[| | |name]|]; try by eexists. Qed.

(** C13 (functional): a Messages request of the declared types is translated
    exactly when each of its messages is supported (a user's tool results alone
    and with texts, otherwise neither results nor images by address, and tool
    calls only in the assistant's messages); then the chat request has the
    system's text first, and its messages say, in order, the same text, the same
    images, the same tool calls and the same tool results, every text of a tool
    result under its own call's id. *)
Theorem request_faithful r :
  match translateAnthropicRequest json_parse (request_json r) [] with
  | Ok out =>
      forallb supported (rq_messages r) = true ∧
      ∃ msgs, opt_get (Some out) "messages" = Some (JArr (system_messages r ++ msgs)) ∧
        all_said (openai_said <$> msgs) = all_said (message_said <$> rq_messages r) ∧
        opt_get (Some out) "model" = str (rq_model r) ∧ opt_get (Some out) "max_tokens" = rq_max_tokens r
  | Err _ => forallb supported (rq_messages r) = false
  end.
Proof.
  unfold translateAnthropicRequest, request_json. read_fields. rewrite system_translated. read_fields. cbn [items]. read_fields.
  pose proof (messages_translated (rq_messages r)) as Hm. destruct (forallb supported _).
  - destruct Hm as (outs&E&S). rewrite E. read_fields.
    destruct (tools_translated (rq_tools r)) as [tools ->]. read_fields.
    destruct (choice_translated (rq_tool_choice r)) as [choice ->]. read_fields.
    split; [done|]. exists (concat outs). read_fields. by split_and!.
  - by destruct (mapM_result _ _).
Qed.

(** ** A completion sent back as history *)

(** A completion of the declared type: its calls are an id, a name and the
    arguments as the model wrote them. *)
Record ToolCall := mkCall { tc_id : string; tc_name : string; tc_arguments : string }.
Record Completion := mkCompletion {
  cp_id : string; cp_model : string; cp_content : option string; cp_calls : list ToolCall;
  cp_finish_reason : option Json; cp_usage : option Json
}.
Definition call_json (c : ToolCall) : Json := tool_call (str (tc_id c)) (str (tc_name c)) (str (tc_arguments c)).
Definition completion_message (c : Completion) : Json :=
  obj [("role", str "assistant"); ("content", Some (match cp_content c with Some s => JStr s | None => JNull end));
       ("tool_calls", match cp_calls c with [] => None | l => Some (JArr (call_json <$> l)) end)].
Definition completion_json (c : Completion) : Json :=
  obj [("id", str (cp_id c)); ("model", str (cp_model c));
       ("choices", Some (JArr [obj [("index", Some (JNum 0)); ("message", Some (completion_message c));
                                    ("finish_reason", cp_finish_reason c)]]));
       ("usage", cp_usage c)].

(** Arguments the model wrote that [JSON.parse] takes for an object; the call's
    printed text is read back. *)
Record call_ok (c : ToolCall) : Prop := {
  ok_arguments : ∃ input, json_parse (tc_arguments c) = Some input ∧ isRecord (Some input) = true;
  ok_id : tc_id c ≠ "__proto__";
  ok_printed : json_parse (stringify (call_json c)) = Some (call_json c)
}.

(** The block a call becomes. *)
Definition is_use_of (c : ToolCall) (block : Json) : Prop :=
  ∃ input, block = tool_use (str (tc_id c)) (str (tc_name c)) input.

Lemma tool_entry_json c : tc_id c ≠ "__proto__" → tool_entry (call_json c) = Some (tc_id c, stringify (call_json c)).
Proof.
  intros H. unfold tool_entry, call_json, tool_call. read_fields. rewrite (bool_decide_false (tc_id c = _)) by done. done.
Qed.

Lemma entries_other calls out k :
  (∀ c, c ∈ calls → tc_id c ≠ k) → jm_get (collectToolCallEntries (call_json <$> calls) out) k = jm_get out k.
Proof.
  revert out. induction calls as [|c calls IH]; intros out H; [done|]. rewrite fmap_cons. unfold collectToolCallEntries in *. cbn [foldl].
  rewrite IH by (intros c' Hc'; apply H; by right). unfold add_entry.
  destruct (tool_entry (call_json c)) as [[id text]|] eqn:E; [|done].
  assert (id = tc_id c) as ->.
  { destruct (decide (tc_id c = "__proto__")) as [Hp|Hp]; [|rewrite tool_entry_json in E by done; by injection E].
    revert E. unfold tool_entry, call_json, tool_call. read_fields. rewrite (bool_decide_true (tc_id c = _)) by done. done. }
  apply jm_get_set_ne. intros ->. eapply H; [left|done].
Qed.

Lemma entries_of calls out c :
  NoDup (tc_id <$> calls) → Forall call_ok calls → c ∈ calls →
  jm_get (collectToolCallEntries (call_json <$> calls) out) (tc_id c) = Some (stringify (call_json c)).
Proof.
  revert out. induction calls as [|d calls IH]; intros out Hnd Hok Hin; [by apply elem_of_nil in Hin|].
  rewrite fmap_cons in Hnd. apply NoDup_cons in Hnd as [Hd Hnd]. apply Forall_cons in Hok as [Hdok Hok].
  rewrite fmap_cons. change (jm_get (collectToolCallEntries (call_json <$> calls) (add_entry out (call_json d))) (tc_id c) = Some (stringify (call_json c))).
  apply elem_of_cons in Hin as [->|Hin]; [|by apply IH].
  rewrite entries_other.
  - unfold add_entry. rewrite tool_entry_json by apply (ok_id _ Hdok). apply jm_get_set_eq.
  - intros c' Hc' E. apply Hd. rewrite <-E. by apply list_elem_of_fmap_2.
Qed.

Lemma exact_bytes c : call_ok c → toolCallFromExactBytes json_parse (stringify (call_json c)) = Ok (call_json c).
Proof.
  intros Hp. unfold toolCallFromExactBytes, JSON_parse. rewrite (ok_printed _ Hp). read_fields.
  unfold call_json, tool_call. read_fields. done.
Qed.

Lemma uses_of calls :
  Forall call_ok calls →
  ∃ uses, mapM_result (toolUseFromCall json_parse) (call_json <$> calls) = Ok uses ∧ Forall2 is_use_of calls uses.
Proof.
  induction 1 as [|c calls Hc _ (uses&E&F)]; [by exists []|]. rewrite fmap_cons. cbn [mapM_result].
  destruct (ok_arguments _ Hc) as (input&Hp&Hr). exists (tool_use (str (tc_id c)) (str (tc_name c)) input :: uses).
  assert (toolUseFromCall json_parse (call_json c) = Ok (tool_use (str (tc_id c)) (str (tc_name c)) input)) as ->.
  { unfold toolUseFromCall, call_input, call_json, tool_call. read_fields. cbn [text_of str to_text]. rewrite Hp. read_fields. by rewrite Hr. }
  read_fields. rewrite E. split; [done|]. constructor; [by eexists|done].
Qed.

Lemma collect_uses toolMap calls uses :
  Forall call_ok calls → Forall2 is_use_of calls uses →
  (∀ c, c ∈ calls → jm_get toolMap (tc_id c) = Some (stringify (call_json c))) →
  collectMessageParts json_parse uses toolMap = Ok (mkParts [] [] (call_json <$> calls)).
Proof.
  intros Hp. induction 1 as [|c use calls uses [input ->] _ IH]; intros Hmap; [done|]. apply Forall_cons in Hp as [Hc Hp].
  cbn [collectMessageParts]. unfold tool_use, toolCallFromBlock. read_fields. cbn [text_of str to_text].
  rewrite Hmap by left. destruct (stringify (call_json c)) as [|ch rest] eqn:E.
  { exfalso. revert E. unfold call_json, tool_call, obj. by cbn. }
  rewrite <-E, exact_bytes by done. read_fields. rewrite IH; [done|done|]. intros c' Hc'. apply Hmap. by right.
Qed.

Lemma completion_translated c :
  cp_id c ≠ "" → cp_model c ≠ "" → Forall call_ok (cp_calls c) →
  ∃ out uses, translateOpenAIResponse json_parse (completion_json c) = Ok out ∧ Forall2 is_use_of (cp_calls c) uses ∧
    opt_get (Some out) "content" =
      Some (JArr (match cp_content c with Some (String _ _ as s) => [text_block s] | _ => [] end ++ uses)).
Proof.
  intros Hid Hmodel Hok. destruct (uses_of _ Hok) as (uses&E&F).
  unfold translateOpenAIResponse, completion_json. read_fields. cbn [truthy_opt str json_truthy].
  rewrite (bool_decide_false (cp_id c = "")), (bool_decide_false (cp_model c = "")) by done. cbn [negb andb].
  rewrite bool_decide_false by done. unfold choiceFromResponse. read_fields. change (isRecord (Some (completion_message c))) with true.
  read_fields. unfold completion_message. read_fields.
  assert (items (or_empty (match cp_calls c with [] => None | l => Some (JArr (call_json <$> l)) end)) = Ok (call_json <$> cp_calls c)) as ->
    by (by destruct (cp_calls c)).
  read_fields. rewrite E. read_fields. eexists _, uses. split; [done|]. split; [done|]. read_fields. by destruct (cp_content c) as [[]|].
Qed.

(** C14 (roundtrip): a completion whose calls have arguments that parse to
    objects, under ids of their own, becomes an Anthropic message; that message,
    sent back in the next request's history with the calls' texts recorded from
    the completion, is translated to the assistant's message the model wrote:
    the same text and, byte for byte, the same calls. *)
Theorem turn_round_trip c :
  cp_id c ≠ "" → cp_model c ≠ "" → Forall call_ok (cp_calls c) → NoDup (tc_id <$> cp_calls c) →
  ∃ out blocks, translateOpenAIResponse json_parse (completion_json c) = Ok out ∧
    opt_get (Some out) "content" = Some blocks ∧
    translateMessageContent json_parse (obj [("role", str "assistant"); ("content", Some blocks)])
      (extractToolMapFromJson (completion_json c)) =
    Ok [chat_message (str "assistant") (JStr (default "" (cp_content c))) (call_json <$> cp_calls c)].
Proof.
  intros Hid Hmodel Hok Hnd. destruct (completion_translated c Hid Hmodel Hok) as (out&uses&E&F&Hcontent).
  exists out, (JArr (match cp_content c with Some (String _ _ as s) => [text_block s] | _ => [] end ++ uses)).
  split_and!; [done|done|]. set (m := extractToolMapFromJson (completion_json c)).
  assert (collectMessageParts json_parse uses m = Ok (mkParts [] [] (call_json <$> cp_calls c))) as Hcollect.
  { apply collect_uses; [done|done|]. intros d Hd. subst m. unfold extractToolMapFromJson, completion_json, choice_calls. read_fields.
    cbn [foldl]. unfold choice_calls. read_fields. unfold completion_message. read_fields.
    destruct (cp_calls c) as [|d0 ds] eqn:Hc; [by apply elem_of_nil in Hd|]. by apply entries_of. }
  unfold translateMessageContent. read_fields. cbn [array_of]. read_fields. cbn [andb]. read_fields.
  destruct (cp_content c) as [[|ch rest]|]; cbn [app]; [by rewrite Hcollect| |by rewrite Hcollect].
  cbn [collectMessageParts]. change (text_block (String ch rest)) with (text_json (String ch rest)). unfold text_json.
  read_fields. rewrite Hcollect. read_fields.
  cbn [textParts imageParts toolCalls].
  change (message_content (mkParts [str (String ch rest)] [] (call_json <$> cp_calls c)))
    with (JStr (String ch rest +:+ "")). by rewrite string_app_empty.
Qed.

End requests.

(** Two calls, one of whose arguments are not printed the way the model wrote them. *)
Definition ex_calls : list ToolCall := [mkCall "c1" "find" "{ }"; mkCall "c2" "open" "{}"].
Definition ex_completion : Completion := mkCompletion "m" "q" (Some "hi") ex_calls None None.
Definition ex_parse (s : string) : option Json :=
  if bool_decide (s = "{ }") || bool_decide (s = "{}") then Some (JObj [])
  else call_json <$> find (λ c, bool_decide (stringify (call_json c) = s)) ex_calls.

Lemma turn_round_trip_witness :
  Forall (call_ok ex_parse) ex_calls ∧
  ∃ out blocks, translateOpenAIResponse ex_parse (completion_json ex_completion) = Ok out ∧
    opt_get (Some out) "content" = Some blocks ∧
    translateMessageContent ex_parse (obj [("role", str "assistant"); ("content", Some blocks)])
      (extractToolMapFromJson (completion_json ex_completion)) =
    Ok [chat_message (str "assistant") (JStr "hi") (call_json <$> ex_calls)].
Proof.
  assert (Forall (call_ok ex_parse) ex_calls) as Hok.
  { repeat constructor; try done; eexists; split; vm_compute; reflexivity. }
  split; [exact Hok|]. apply (turn_round_trip ex_parse ex_completion); [done|done|exact Hok|].
  apply (bool_decide_unpack _). vm_compute. exact I.
Defined.
