(* ===== verification/ResponsesApi.v ===== *)
(** * Responses API: requests and plain responses

    packages/core/src/responses: a Responses request becomes a chat request,
    a chat completion becomes a Responses response.  As in AnthropicRequest.v
    the values were only cast to their types, so they are translated over
    [Json]. *)

From S2P Require Import Prelude JsText JsJson JsValues AnthropicRequest.

#[local] Open Scope string_scope.
#[local] Open Scope list_scope.
#[local] Open Scope Z_scope.

Module Responses.

(** ** translateRequest.ts *)

Definition is_array (v : option Json) : bool := match v with Some (JArr _) => true | _ => false end.
Definition is_string (v : option Json) : bool := match v with Some (JStr _) => true | _ => false end.

Definition isInputMessage (item : Json) : bool :=
  let field := opt_get (Some item) in
  isRecord (Some item) && is_string (field "role") && (is_string (field "content") || is_array (field "content")).

Definition isFunctionCallItem (item : Json) : bool :=
  let field := opt_get (Some item) in
  isRecord (Some item) && str_is (field "type") "function_call" && is_string (field "name") && is_string (field "arguments").

Definition isFunctionCallOutputItem (item : Json) : bool :=
  let field := opt_get (Some item) in
  isRecord (Some item) && str_is (field "type") "function_call_output" && is_string (field "call_id")
  && is_string (field "output").

Definition textFromContentPart (part : Json) : string := default "" (is_str (opt_get (Some part) "text")).

Definition contentToString (content : option Json) : string :=
  match content with
  | Some (JStr s) => s
  | Some (JArr l) => concat_texts (textFromContentPart <$> l)
  | _ => ""
  end.

Definition messageFromInputMessage (msg : Json) : Json :=
  obj [("role", opt_get (Some msg) "role"); ("content", Some (JStr (contentToString (opt_get (Some msg) "content"))))].

Definition messageFromFunctionCall (item : Json) : Json :=
  let field := opt_get (Some item) in
  obj [("role", Some (JStr "assistant")); ("content", Some (JStr ""));
       ("tool_calls", Some (JArr [tool_call (field "call_id") (field "name") (field "arguments")]))].

Definition messageFromFunctionCallOutput (item : Json) : Json :=
  tool_message (opt_get (Some item) "call_id") (opt_get (Some item) "output").

Definition translateInputItem (item : Json) : result Json :=
  if isInputMessage item then Ok (messageFromInputMessage item)
  else if isFunctionCallItem item then Ok (messageFromFunctionCall item)
  else if isFunctionCallOutputItem item then Ok (messageFromFunctionCallOutput item)
  else Err ("unsupported input item type: " +:+
            (if isRecord (Some item) then text_of (opt_get (Some item) "type") else "unknown")).

Definition translateInputItems (input : list Json) : result (list Json) := mapM_result translateInputItem input.

Definition translateTool (tool : Json) : result Json :=
  name ← get (Some tool) "name";
  let description := opt_get (Some tool) "description" in
  Ok (obj [("type", Some (JStr "function"));
           ("function", Some (obj [("name", name);
              ("description", match description with Some d => if json_truthy d then Some d else None | None => None end);
              ("parameters", opt_get (Some tool) "parameters")]))]).

Definition translateTools (tools : option Json) : result (option Json) :=
  if truthy_opt tools then l ← array_of tools; out ← mapM_result translateTool l; Ok (Some (JArr out)) else Ok None.

Definition translateToolChoice (choice : option Json) : result (option Json) :=
  match choice with
  | None => Ok None
  | Some (JStr ("auto" | "required" | "none") as c) => Ok (Some c)
  | _ =>
      name ← get choice "name";
      Ok (Some (obj [("type", Some (JStr "function")); ("function", Some (obj [("name", name)]))]))
  end.

Definition messagesFromInput (input : option Json) : result (list Json) :=
  match input with
  | Some (JStr s) => Ok [obj [("role", Some (JStr "user")); ("content", Some (JStr s))]]
  | Some (JArr l) => translateInputItems l
  | _ => Err "input must be a string or an array of input items"
  end.

Definition translateResponsesRequest (req : Json) : result Json :=
  instructions ← get (Some req) "instructions";
  let field := opt_get (Some req) in
  let system := match instructions with
                | Some (JStr (String _ _ as s)) => [obj [("role", Some (JStr "system")); ("content", Some (JStr s))]]
                | _ => [] end in
  input ← messagesFromInput (field "input");
  tools ← translateTools (field "tools");
  toolChoice ← translateToolChoice (field "tool_choice");
  Ok (obj [("model", field "model"); ("messages", Some (JArr (system ++ input)));
           ("max_tokens", field "max_output_tokens"); ("temperature", field "temperature"); ("top_p", field "top_p");
           ("stop", field "stop"); ("seed", field "seed"); ("stream", field "stream"); ("tools", tools);
           ("tool_choice", toolChoice)]).

(** ** translateResponse.ts *)

Definition statusFromFinishReason (reason : option Json) : string :=
  if str_is reason "error" || str_is reason "content_filter" then "failed" else "completed".

Definition output_text (s : string) : Json := obj [("type", Some (JStr "output_text")); ("text", Some (JStr s))].

(** The content's text when there is any. *)
Definition text_content (message : option Json) : option string :=
  match opt_get message "content" with Some (JStr (String _ _ as s)) => Some s | _ => None end.

Definition outputMessageFromChoice (message : option Json) (messageId : string) : Json :=
  obj [("type", Some (JStr "message")); ("id", Some (JStr messageId)); ("role", Some (JStr "assistant"));
       ("status", Some (JStr "completed"));
       ("content", Some (JArr match text_content message with Some s => [output_text s] | None => [] end))].

Definition functionCallFromToolCall (call : Json) : result Json :=
  id ← get (Some call) "id";
  name ← get (opt_get (Some call) "function") "name";
  Ok (obj [("type", Some (JStr "function_call")); ("id", id); ("call_id", id); ("name", name);
           ("arguments", opt_get (opt_get (Some call) "function") "arguments")]).

(** [a + b]: a sum of numbers, otherwise of texts. *)
Definition js_number (v : option Json) : option (option Z) :=
  match v with
  | None | Some JNaN => Some None
  | Some JNull => Some (Some 0)
  | Some (JBool b) => Some (Some (if b then 1 else 0))
  | Some (JNum n) => Some (Some n)
  | _ => None
  end.
Definition js_plus (a b : option Json) : Json :=
  match js_number a, js_number b with
  | Some (Some x), Some (Some y) => JNum (x + y)
  | Some _, Some _ => JNaN
  | _, _ => JStr (text_of a +:+ text_of b)
  end.

Definition translateChatCompletionToResponses (now : Z) (res : Json) : result Json :=
  id ← get (Some res) "id";
  let model := opt_get (Some res) "model" in
  match truthy_opt id && truthy_opt model, opt_get (Some res) "choices" with
  | true, Some (JArr (choice :: _)) =>
      let message := opt_get (Some choice) "message" in
      if negb (json_truthy choice) || negb (isRecord message)
      then Err "chat completion response missing assistant message" else
      let toolCalls := opt_get message "tool_calls" in
      let no_calls := negb (truthy_opt toolCalls) ||
                      match toolCalls with Some (JArr []) => true | _ => false end in
      let said := match text_content message with Some _ => true | None => no_calls end in
      calls ← (if truthy_opt toolCalls then items toolCalls else Ok []);
      outputs ← mapM_result functionCallFromToolCall calls;
      let usage := json_or (opt_get (Some res) "usage") (JObj [("prompt_tokens", JNum 0); ("completion_tokens", JNum 0)]) in
      let prompt := opt_get (Some usage) "prompt_tokens" in
      let completion := opt_get (Some usage) "completion_tokens" in
      Ok (obj [("id", id); ("object", Some (JStr "response")); ("created_at", Some (JNum (now / 1000)));
               ("status", Some (JStr (statusFromFinishReason (opt_get (Some choice) "finish_reason"))));
               ("model", model);
               ("output", Some (JArr ((if said then [outputMessageFromChoice message ("msg_" +:+ text_of id)] else []) ++ outputs)));
               ("usage", Some (obj [("input_tokens", prompt); ("output_tokens", completion);
                                    ("total_tokens", Some (js_plus prompt completion))]))])
  | _, _ => Err "chat completion response missing choices"
  end.

End Responses.
