(* ===== verification/ProxyRoutes.v ===== *)
(** * Inference proxy: routes

    Which upstream serves a model: packages/core/src/workloadRuntime.ts
    ([listClusterRoutes]) and the route map of openaiProxy.ts with its cache.
    What the node finds on disk (its local routes, the signature of the runtime
    directory, the peers of the kubeconfig) is an input of each step. *)

From S2P Require Import Prelude JsMap JsSort JsText JsJson JsValues.

#[local] Open Scope string_scope.
#[local] Open Scope list_scope.
#[local] Open Scope Z_scope.

Module Routes.

Inductive RouteKind := ModelRun | ModelHost.
#[export] Instance RouteKind_eq : EqDecision RouteKind.
Proof. solve_decision. Defined.

(** What a route to another node adds. *)
Record PeerFields := mkPeer {
  peerEndpoint : string; certificate : option string; tlsServerName : option string; token : option string;
  targetNodeId : string; revision : option string
}.

(** A [ClusterRoute], and the [RouteEntry] made of it: the pid is not used. *)
Record Route := mkRoute {
  rt_workload : string; rt_model : string; rt_host : string; rt_port : Z; rt_engine : string; rt_kind : RouteKind;
  rt_peer : option PeerFields
}.

Record PeerWorkload := mkPeerWorkload { pw_modelId : string; pw_revision : option string }.
Record PeerSnapshot := mkSnapshot { workloads : list PeerWorkload; pressureHigh : bool; fetchedAt : Z }.
Record ClusterConfigPeer := mkConfigPeer {
  cp_id : string; cp_endpoint : string; cp_certificate : option string; cp_tlsServerName : option string;
  cp_token : option string
}.
(** A [URL]. *)
Record Url := mkUrl { u_hostname : string; u_port : string; u_https : bool }.

Definition PEER_ROUTE_STALE_MS : Z := 30000.

Definition endpointPortForUrl (url : Url) : Z :=
  let fallback := if u_https url then 443 else 80 in
  match u_port url with
  | EmptyString => fallback
  | port => match parseInt port with Some n => if 0 <? n then n else fallback | None => fallback end
  end.

Section routes.
(** [new URL(s)], [None] when it throws; [a.localeCompare(b)]. *)
Context (url_of : string → option Url) (localeCompare : string → string → Z).

Definition peer_route (peer : ClusterConfigPeer) (endpoint : Url) (w : PeerWorkload) : Route :=
  mkRoute (cp_id peer +:+ ":" +:+ pw_modelId w) (pw_modelId w) (u_hostname endpoint) (endpointPortForUrl endpoint)
    "llamacpp" ModelRun
    (Some (mkPeer (cp_endpoint peer) (cp_certificate peer) (cp_tlsServerName peer) (cp_token peer) (cp_id peer)
             (pw_revision w))).

(** [routes] and [seenModels] are changed in place. *)
Definition appendPeerRoutes (acc : list Route * gset string) (peer : ClusterConfigPeer) (snapshot : PeerSnapshot)
    : list Route * gset string :=
  match url_of (cp_endpoint peer) with
  | None => acc
  | Some endpoint =>
      foldl (λ '(routes, seenModels) w,
          if bool_decide (pw_modelId w ∈ seenModels) then (routes, seenModels)
          else (routes ++ [peer_route peer endpoint w], {[pw_modelId w]} ∪ seenModels))
        acc (workloads snapshot)
  end.

(** A snapshot whose workloads are routed. *)
Definition routable (now : Z) (snapshot : PeerSnapshot) : bool :=
  negb (pressureHigh snapshot) && negb (PEER_ROUTE_STALE_MS <? now - fetchedAt snapshot).

Definition add_peer (peerSnapshots : list (string * PeerSnapshot)) (now : Z) (acc : list Route * gset string)
    (peer : ClusterConfigPeer) : list Route * gset string :=
  match jm_get peerSnapshots (cp_id peer) with
  | Some snapshot => if routable now snapshot then appendPeerRoutes acc peer snapshot else acc
  | None => acc
  end.

Definition listClusterRoutes (localRoutes : list Route) (peerSnapshots : list (string * PeerSnapshot))
    (peers : list ClusterConfigPeer) (now : Z) : list Route :=
  (foldl (add_peer peerSnapshots now) (localRoutes, list_to_set (rt_model <$> localRoutes)) peers).1.

(** ** The route map *)

Definition cmp_route (a b : Route) : Z :=
  if bool_decide (rt_kind a = rt_kind b) then localeCompare (rt_workload a) (rt_workload b)
  else if bool_decide (rt_kind a = ModelRun) then -1 else 1.

Definition add_route (out : list (string * Route)) (route : Route) : list (string * Route) :=
  if jm_has out (rt_model route) then out else jm_set out (rt_model route) route.

Definition route_map (routes : list Route) : list (string * Route) := foldl add_route [] (js_sort cmp_route routes).

(** The models served, in the order of the routes; a peer's is created at 0. *)
Record ModelInfo := mkModelInfo { mi_id : string; mi_created : Z; mi_owned_by : string }.

Definition model_info (created : Route → Z) (route : Route) : ModelInfo :=
  mkModelInfo (rt_model route) (match rt_peer route with Some _ => 0 | None => created route end)
    (match rt_kind route with ModelHost => "llamactl-host" | ModelRun => "llamactl-agent" end).

Definition buildListOpenAIModels (created : Route → Z) (routes : list Route) : list ModelInfo :=
  (foldl (λ '(data, winners) route,
      if bool_decide (rt_model route ∈ winners) then (data, winners)
      else (data ++ [model_info created route], {[rt_model route]} ∪ winners))
    ([], ∅ : gset string) (js_sort cmp_route routes)).1.

(** ** The caches of the process *)

(** What a build looks at. *)
Record Machine := mkMachine {
  mc_signature : option string;     (* of the runtime directory; [None]: computing it throws *)
  mc_local : list Route; mc_peers : list ClusterConfigPeer; mc_now : Z
}.

Record RouteState := mkRouteState {
  routeMapCache : option (string * list (string * Route));
  productionPeerSnapshots : list (string * PeerSnapshot)
}.

Definition buildRouteMap (machine : Machine) (s : RouteState) : list (string * Route) :=
  route_map (listClusterRoutes (mc_local machine) (productionPeerSnapshots s) (mc_peers machine) (mc_now machine)).

Definition getRouteMap (machine : Machine) (s : RouteState) : RouteState * list (string * Route) :=
  match mc_signature machine with
  | None => (s, buildRouteMap machine s)
  | Some sig =>
      let build := let map := buildRouteMap machine s in
                   (mkRouteState (Some (sig, map)) (productionPeerSnapshots s), map) in
      match routeMapCache s with
      | Some (sig', map) => if bool_decide (sig' = sig) then (s, map) else build
      | None => build
      end
  end.

Definition setPeerSnapshots (snapshots : list (string * PeerSnapshot)) (s : RouteState) : RouteState :=
  mkRouteState None snapshots.

(** The entry is deleted from the map, and the map dropped. *)
Definition invalidateRouteCacheEntry (model : string) (s : RouteState) : RouteState :=
  mkRouteState None (productionPeerSnapshots s).

(** ** A request's route *)

Definition endpoint_of (host : string) (port : Z) : string := "http://" +:+ host +:+ ":" +:+ pretty port.

(** The route, with the address the request goes to. *)
Definition routedEndpointForModel (map : list (string * Route)) (model pathname search : string) : option (Route * string) :=
  entry ← jm_get map model;
  Some (entry,
    match rt_peer entry with
    | Some peer => if bool_decide (peerEndpoint peer = "") then endpoint_of (rt_host entry) (rt_port entry) +:+ pathname +:+ search
                   else peerEndpoint peer +:+ pathname +:+ search
    | None => endpoint_of (rt_host entry) (rt_port entry) +:+ pathname +:+ search
    end).

Definition peerTlsForRoute (route : option Route) : option (string * option string) :=
  peer ← route ≫= rt_peer;
  match certificate peer with
  | Some ((String _ _) as ca) => Some (ca, tlsServerName peer)
  | _ => None
  end.

(** The ids of the default server. *)
Definition defaultTargetModelIds (serverAlias defaultModel : string) : list string :=
  filter (λ id, id ≠ "") [serverAlias; defaultModel].

Definition isRouteKvEligible (route : Route) : bool :=
  match rt_kind route with
  | ModelRun => bool_decide (rt_engine route = "llamacpp")
  | ModelHost => bool_decide (rt_engine route = "omlx")
  end.

(** ** What the map holds *)

Lemma add_route_get out route m :
  jm_get (add_route out route) m =
  match jm_get out m with Some r => Some r | None => if decide (m = rt_model route) then Some route else None end.
Proof.
  unfold add_route, jm_has. destruct (jm_get out (rt_model route)) eqn:E.
  - destruct (jm_get out m) eqn:Em; [done|]. case_decide as Hm; [subst; congruence|done].
  - rewrite jm_get_set. case_decide as Hm; [subst; by rewrite E|]. by destruct (jm_get out m).
Qed.

Lemma foldl_add_route routes out m :
  jm_get (foldl add_route out routes) m =
  match jm_get out m with Some r => Some r | None => find (λ r, bool_decide (rt_model r = m)) routes end.
Proof.
  revert out. induction routes as [|r routes IH]; intros out; cbn [foldl find]; [by destruct (jm_get out m)|].
  rewrite IH, add_route_get. destruct (jm_get out m); [done|].
  case_decide as Hm; case_bool_decide; subst; done.
Qed.

(** The first route of a model in the order of the sort. *)
Lemma route_map_get routes m :
  jm_get (route_map routes) m = find (λ r, bool_decide (rt_model r = m)) (js_sort cmp_route routes).
Proof. unfold route_map. by rewrite foldl_add_route. Qed.

(** ** Peers *)

Definition has_model (routes : list Route) (m : string) : Prop := ∃ r, r ∈ routes ∧ rt_model r = m.

(** [r] is what the peer's snapshot offers now. *)
Definition offers (peerSnapshots : list (string * PeerSnapshot)) (now : Z) (peer : ClusterConfigPeer) (r : Route) : Prop :=
  ∃ snapshot endpoint w, jm_get peerSnapshots (cp_id peer) = Some snapshot ∧
    routable now snapshot = true ∧ url_of (cp_endpoint peer) = Some endpoint ∧ w ∈ workloads snapshot ∧
    r = peer_route peer endpoint w.
Definition offered (peerSnapshots : list (string * PeerSnapshot)) (peers : list ClusterConfigPeer) (now : Z) (r : Route) : Prop :=
  ∃ peer, peer ∈ peers ∧ offers peerSnapshots now peer r.

(** The routes gathered, of which [seen] are the models. *)
Definition Gathered (local : list Route) (from : Route → Prop) (acc : list Route * gset string) : Prop :=
  (∀ m, m ∈ acc.2 ↔ has_model acc.1 m) ∧
  (∀ r, r ∈ acc.1 → r ∈ local ∨ (¬ has_model local (rt_model r) ∧ from r)) ∧
  (∀ r, r ∈ local → r ∈ acc.1) ∧
  (∀ r, from r → has_model acc.1 (rt_model r)).

Lemma Gathered_workloads local from peer endpoint ws acc :
  Gathered local from acc →
  Gathered local (λ r, from r ∨ ∃ w, w ∈ ws ∧ r = peer_route peer endpoint w)
    (foldl (λ '(routes, seenModels) w,
          if bool_decide (pw_modelId w ∈ seenModels) then (routes, seenModels)
          else (routes ++ [peer_route peer endpoint w], {[pw_modelId w]} ∪ seenModels)) acc ws).
Proof.
  revert from acc. induction ws as [|w ws IH]; intros from [routes seen] (Hseen&Hfrom&Hlocal&Hall).
  { split_and!; [done| |done|].
    - intros r Hr. destruct (Hfrom r Hr) as [?|[? ?]]; [by left|right; split; [done|by left]].
    - intros r [Hr|(w&Hw&_)]; [by apply Hall|by apply elem_of_nil in Hw]. }
  cbn [foldl].
  assert (∀ from', (∀ r, (from' r ∨ ∃ v, v ∈ ws ∧ r = peer_route peer endpoint v) ↔
                         (from r ∨ ∃ v, v ∈ w :: ws ∧ r = peer_route peer endpoint v)) →
    Gathered local from' (if bool_decide (pw_modelId w ∈ seen) then (routes, seen)
          else (routes ++ [peer_route peer endpoint w], {[pw_modelId w]} ∪ seen)) →
    Gathered local (λ r, from r ∨ ∃ v, v ∈ w :: ws ∧ r = peer_route peer endpoint v)
      (foldl (λ '(routes, seenModels) w,
          if bool_decide (pw_modelId w ∈ seenModels) then (routes, seenModels)
          else (routes ++ [peer_route peer endpoint w], {[pw_modelId w]} ∪ seenModels))
        (if bool_decide (pw_modelId w ∈ seen) then (routes, seen)
          else (routes ++ [peer_route peer endpoint w], {[pw_modelId w]} ∪ seen)) ws)) as Hstep.
  { intros from' Heq Hacc. destruct (IH from' _ Hacc) as (G1&G2&G3&G4). split_and!; [done| |done|].
    - intros r Hr. destruct (G2 r Hr) as [?|[? ?]]; [by left|right; split; [done|by apply Heq]].
    - intros r Hr. apply G4, Heq, Hr. }
  apply (Hstep (λ r, from r ∨ r = peer_route peer endpoint w)).
  { intros r. split.
    - intros [[?| ->]|(v&Hv&->)]; [by left|right; exists w; split; [left|done]|right; exists v; split; [by right|done]].
    - intros [?|(v&[->|Hv]%elem_of_cons&->)]; [by left; left|by left; right|right; by exists v]. }
  case_bool_decide as Hin; cbn [fst snd] in *.
  - split_and!; [done| |done|].
    + intros r Hr. destruct (Hfrom r Hr) as [?|[? ?]]; [by left|right; split; [done|by left]].
    + intros r [Hr| ->]; [by apply Hall|by apply Hseen].
  - split_and!; cbn [fst snd].
    + intros m. rewrite elem_of_union, elem_of_singleton, Hseen. split.
      * intros [->|(r&Hr&<-)]; [exists (peer_route peer endpoint w)|exists r]; (split; [apply elem_of_app|done]); [right; left|by left].
      * intros (r&[Hr|Hr%list_elem_of_singleton]%elem_of_app&<-); [right; by exists r|left; by subst].
    + intros r [Hr|Hr%list_elem_of_singleton]%elem_of_app.
      * destruct (Hfrom r Hr) as [?|[? ?]]; [by left|right; split; [done|by left]].
      * right. subst r. split; [|by right]. intros (r&Hr&E). apply Hin, Hseen. exists r. split; [by apply Hlocal|done].
    + intros r Hr. apply elem_of_app. left. by apply Hlocal.
    + intros r [Hr| ->].
      * destruct (Hall r Hr) as (r'&?&?). exists r'. split; [apply elem_of_app; by left|done].
      * exists (peer_route peer endpoint w). split; [apply elem_of_app; right; left|done].
Qed.

Lemma Gathered_iff local from from' acc : (∀ r, from r ↔ from' r) → Gathered local from acc → Gathered local from' acc.
Proof.
  intros H (H1&H2&H3&H4). split_and!; [done| |done|].
  - intros r Hr. destruct (H2 r Hr) as [?|[? ?]]; [by left|right; split; [done|by apply H]].
  - intros r Hr. by apply H4, H.
Qed.

Lemma Gathered_peers local snaps now done_ peers acc :
  Gathered local (offered snaps done_ now) acc →
  Gathered local (offered snaps (done_ ++ peers) now) (foldl (add_peer snaps now) acc peers).
Proof.
  revert done_ acc. induction peers as [|peer peers IH]; intros done_ acc H; [by rewrite app_nil_r|].
  cbn [foldl]. replace (done_ ++ peer :: peers) with ((done_ ++ [peer]) ++ peers) by (by rewrite <-app_assoc).
  apply IH. clear IH.
  assert (∀ r, (offered snaps done_ now r ∨ offers snaps now peer r) ↔ offered snaps (done_ ++ [peer]) now r) as Hof.
  { intros r. split.
    - intros [(p&Hp&?)|?]; [exists p|exists peer]; (split; [apply elem_of_app|done]); [by left|right; left].
    - intros (p&[Hp|Hp%list_elem_of_singleton]%elem_of_app&?); [left; by exists p|right; by subst p]. }
  eapply Gathered_iff; [exact Hof|]. unfold add_peer.
  assert ((∀ r, ¬ offers snaps now peer r) → Gathered local (λ r, offered snaps done_ now r ∨ offers snaps now peer r) acc) as Hnone.
  { intros Hno. eapply Gathered_iff; [|exact H]. intros r. split; [by left|intros [?|Hr]; [done|by destruct (Hno r)]]. }
  destruct (jm_get snaps (cp_id peer)) as [snapshot|] eqn:Es; [|apply Hnone; intros r (?&?&?&?&_); congruence].
  destruct (routable now snapshot) eqn:Er; [|apply Hnone; intros r (?&?&?&?&?&_); congruence].
  unfold appendPeerRoutes.
  destruct (url_of (cp_endpoint peer)) as [endpoint|] eqn:Eu; [|apply Hnone; intros r (?&?&?&?&?&?&_); congruence].
  eapply Gathered_iff; [|by apply Gathered_workloads]. intros r. cbn beta.
  assert ((∃ w, w ∈ workloads snapshot ∧ r = peer_route peer endpoint w) ↔ offers snaps now peer r) as ->; [|done]. split.
  - intros (w&?&?). by exists snapshot, endpoint, w.
  - intros (s&e&w&?&_&?&?&->). simplify_eq. by exists w.
Qed.

Lemma cluster_routes local snaps peers now : Gathered local (offered snaps peers now)
  (foldl (add_peer snaps now) (local, list_to_set (rt_model <$> local)) peers).
Proof.
  apply (Gathered_peers local snaps now []). split_and!; cbn [fst snd].
  - intros m. rewrite elem_of_list_to_set, list_elem_of_fmap. split; intros (r&?&?); exists r; done.
  - intros r Hr. by left.
  - done.
  - intros r (p&Hp&_). by apply elem_of_nil in Hp.
Qed.

Lemma find_model routes m r :
  find (λ r, bool_decide (rt_model r = m)) (js_sort cmp_route routes) = Some r → r ∈ routes ∧ rt_model r = m.
Proof.
  intros H. apply find_some in H as [Hin Hm]. apply bool_decide_eq_true in Hm. split; [|done].
  apply list_elem_of_In, elem_of_js_sort in Hin. done.
Qed.

(** C20 (functional): a freshly built route map serves exactly the models some
    local workload serves and those a peer offers that is neither under
    pressure nor silent for half a minute; a model served locally is never
    routed to a peer. *)
Theorem routes_justified machine s m :
  match jm_get (buildRouteMap machine s) m with
  | Some r =>
      rt_model r = m ∧
      (r ∈ mc_local machine ∨
       ¬ has_model (mc_local machine) m ∧ offered (productionPeerSnapshots s) (mc_peers machine) (mc_now machine) r)
  | None =>
      ¬ has_model (mc_local machine) m ∧
      ∀ r, offered (productionPeerSnapshots s) (mc_peers machine) (mc_now machine) r → rt_model r ≠ m
  end.
Proof.
  unfold buildRouteMap. rewrite route_map_get.
  destruct (cluster_routes (mc_local machine) (productionPeerSnapshots s) (mc_peers machine) (mc_now machine)) as (_&Hfrom&Hlocal&Hall).
  fold (listClusterRoutes (mc_local machine) (productionPeerSnapshots s) (mc_peers machine) (mc_now machine)) in *.
  destruct (find _ _) as [r|] eqn:E.
  - apply find_model in E as [Hin <-]. split; [done|]. by apply Hfrom.
  - assert (∀ r, r ∈ listClusterRoutes (mc_local machine) (productionPeerSnapshots s) (mc_peers machine) (mc_now machine) → rt_model r ≠ m) as Hno.
    { intros r Hr Hm. eapply find_none in E; [|apply list_elem_of_In, elem_of_js_sort, Hr]. apply bool_decide_eq_false in E. done. }
    split; [intros (r&Hr&Hm); by apply (Hno r (Hlocal r Hr))|]. intros r Hr Hm. destruct (Hall r Hr) as (r'&Hr'&Hm'). apply (Hno r' Hr'). congruence.
Qed.

End routes.

(** A route map is rebuilt when the runtime directory changes, not
    when a snapshot grows old: until the next snapshot is published a peer that
    stopped answering stays routed, though a map built now would not hold it. *)
Theorem silent_peer_stays_routed :
  ∃ url_of localeCompare machine later s model,
    mc_now later = mc_now machine + 3600000 ∧ mc_signature later = mc_signature machine ∧
    let s' := (getRouteMap url_of localeCompare machine s).1 in
    jm_get (getRouteMap url_of localeCompare later s').2 model ≠ None ∧
    jm_get (buildRouteMap url_of localeCompare later s') model = None.
Proof.
  pose (peer := mkConfigPeer "n" "https://n:1" None None None).
  pose (machine := λ now, mkMachine (Some "sig") [] [peer] now).
  exists (λ _, Some (mkUrl "n" "1" true)), (λ a b, 0), (machine 0), (machine 3600000),
    (mkRouteState None [("n", mkSnapshot [mkPeerWorkload "q" None] false 0)]), "q".
  by vm_compute.
Qed.

End Routes.
