(* ===== verification/ServiceAuth.v ===== *)
(** * Worker RPC: bearers and single-use service tokens

    packages/remote/src/server/auth.ts: bearer tokens compared by their hash,
    and the tokens that a tunnel caller mints for one call and a worker accepts
    once.  SHA-256, HMAC-SHA256, base64url and the random values are
    parameters; buffers are strings of bytes. *)

From S2P Require Import Prelude JsText JsJson.
From Stdlib Require Import Ascii.

#[local] Open Scope string_scope.
#[local] Open Scope list_scope.
#[local] Open Scope Z_scope.

(** ** Buffers *)

Definition hex_nibble (c : ascii) : option N :=
  let n := Ascii.N_of_ascii c in
  if ((48 <=? n) && (n <=? 57))%N then Some (n - 48)%N
  else if ((97 <=? n) && (n <=? 102))%N then Some (n - 87)%N
  else if ((65 <=? n) && (n <=? 70))%N then Some (n - 55)%N
  else None.

(** [Buffer.from(s, "hex")]: the pairs before the first that is not one. *)
Fixpoint hex_decode (s : string) : string :=
  match s with
  | String a (String b s') =>
      match hex_nibble a, hex_nibble b with
      | Some h, Some l => String (Ascii.ascii_of_N (16 * h + l)) (hex_decode s')
      | _, _ => EmptyString
      end
  | _ => EmptyString
  end.

(** [buffer.toString("hex")] *)
Fixpoint hex_encode (s : string) : string :=
  match s with
  | String c s' =>
      let n := Ascii.N_of_ascii c in
      String (hex_digit (n / 16)) (String (hex_digit (n mod 16)) (hex_encode s'))
  | EmptyString => EmptyString
  end.

(** [timingSafeEqual] throws on buffers of unequal length. *)
Definition timingSafeEqual (a b : string) : result bool :=
  if bool_decide (String.length a = String.length b) then Ok (bool_decide (a = b)) else Err "RangeError".

(** ** Bearers *)

(** The bearer in the [authorization] header. *)
Definition extractBearer (authorization : option string) : option string :=
  match authorization with
  | None => None
  | Some h =>
      if startsWith "Bearer " h then
        let rest := trim (slice 7 h) in
        if bool_decide (rest = "") then None else Some rest
      else None
  end.

Section auth.
(** [hmac key message] and [sha256 message] are the digests' bytes. *)
Context (sha256 : string → string) (hmac : string → string → string).

Definition hashToken (token : string) : string := hex_encode (sha256 token).

Definition bearerHashMatches (token expectedHashHex : string) : result bool :=
  let actualHex := hashToken token in
  if bool_decide (String.length actualHex = String.length expectedHashHex)
  then timingSafeEqual (hex_decode actualHex) (hex_decode expectedHashHex)
  else Ok false.

Definition verifyBearer (authorization : option string) (expectedHashHex : string) : result bool :=
  match extractBearer authorization with
  | None => Ok false
  | Some token => bearerHashMatches token expectedHashHex
  end.

(** The first entry that matches; all are compared. *)
Fixpoint first_match {E} (matches : E → result bool) (entries : list E) (found : option E) : result (option E) :=
  match entries with
  | [] => Ok found
  | entry :: rest =>
      hit ← matches entry;
      first_match matches rest
        (match found with None => if hit : bool then Some entry else None | Some _ => found end)
  end.

Record NamedBearerToken := mkNamed { nb_name : string; nb_tokenHash : string }.

Definition namedBearerFor (token : option string) (tokens : list NamedBearerToken) : result (option string) :=
  if truthy token then
    match first_match (λ entry, bearerHashMatches (default "" token) (nb_tokenHash entry)) tokens None with
    | Ok found => Ok (nb_name <$> found)
    | Err e => Err e
    end
  else Ok None.

(** ** Service credentials *)

Context {Claims : Type}.

Record Binding := mkBinding { b_claims : Claims; b_tokenHash : string; b_tunnelKey : option string }.

Definition claimsForServiceCredential (token : option string) (bindings : list Binding) : result (option Claims) :=
  if truthy token then
    match first_match (λ b, bearerHashMatches (default "" token) (b_tokenHash b)) bindings None with
    | Ok found => Ok (b_claims <$> found)
    | Err e => Err e
    end
  else Ok None.

Definition authenticateServiceCredential (authorization : option string) (bindings : list Binding) :
    result (option Claims) :=
  claimsForServiceCredential (extractBearer authorization) bindings.

(** ** Service tokens *)

Definition SERVICE_TOKEN_TTL_MS : Z := 60000.
Definition SERVICE_TOKEN_MAX_LENGTH : nat := 1024.
Definition SERVICE_TOKEN_MAX_AHEAD_MS : Z := 2 * SERVICE_TOKEN_TTL_MS.
Definition SERVICE_TOKEN_NONCE_RETENTION_MS : Z := SERVICE_TOKEN_MAX_AHEAD_MS + 10 * 60000.
Definition SERVICE_TOKEN_VERSION : string := "v2".
Definition SERVICE_TOKEN_DOMAIN : string := "llamactl-worker-rpc-service-token".
Definition TUNNEL_KEY_LABEL : string := "llamactl-worker-rpc-token" +:+ String "000" "".

(** What a token is bound to; [c_input] is [None] for an undefined input. *)
Record ServiceTokenCall := mkCall {
  c_node : string; c_method : string; c_input : option Json; c_relayPrincipal : string
}.

(** base64url of bytes, and decoding, which ignores what is not base64url. *)
Context (base64url : string → string) (base64url_decode : string → string).

Definition relayPrincipalOf (bearer : string) : string :=
  base64url (sha256 ("llamactl-relay-principal" +:+ String "000" bearer)).

Definition serviceTunnelKey (credential node : string) : string :=
  hex_encode (hmac credential (TUNNEL_KEY_LABEL +:+ node)).

Definition str_or_none (v : option Json) : option string :=
  match v with Some (JStr s) => Some s | _ => None end.

Definition non_null (v : option Json) : option Json :=
  match v with Some JNull => None | v => v end.

Definition serviceTokenSubjectOf (method : string) (input : option Json) : option string :=
  match input with
  | Some (JObj fs) =>
      str_or_none
        (if bool_decide (method = "inferenceRpc.submit") then
           match json_field fs "envelope" with Some (JObj e) => json_field e "attemptId" | _ => None end
         else if bool_decide (method = "inferenceRpc.cancel") then
           match non_null (json_field fs "attemptId") with
           | Some v => Some v
           | None => json_field fs "cancelId"
           end
         else if bool_decide (method = "inferenceRpc.stream") || bool_decide (method = "inferenceRpc.status") then
           json_field fs "attemptId"
         else None)
  | _ => None
  end.

(** The text that is signed. *)
Definition bound_values (call : ServiceTokenCall) (subject : string) (expiresAt : Z) (nonce : string) : Json :=
  let digest := base64url (sha256 (match c_input call with Some v => stringify v | None => "" end)) in
  JArr [JStr SERVICE_TOKEN_DOMAIN; JStr SERVICE_TOKEN_VERSION; JStr (c_node call); JStr (c_method call);
        JStr subject; JStr digest; JStr (c_relayPrincipal call); JNum expiresAt; JStr nonce].

Definition serviceTokenMac (key : string) (call : ServiceTokenCall) (subject : string) (expiresAt : Z)
    (nonce : string) : string :=
  hmac key (stringify (bound_values call subject expiresAt nonce)).

(** [requestId] and [nonce] are the random values, in base64url. *)
Definition mintServiceTokenWithKey (key : string) (call : ServiceTokenCall) (now : Z) (ttlMs : option Z)
    (requestId nonce : string) : string :=
  let subject := default ("req-" +:+ requestId) (serviceTokenSubjectOf (c_method call) (c_input call)) in
  let expiresAt := now + default SERVICE_TOKEN_TTL_MS ttlMs in
  let mac := serviceTokenMac key call subject expiresAt nonce in
  join "."%char [SERVICE_TOKEN_VERSION; base64url (c_node call); pretty expiresAt; nonce; base64url subject; base64url mac].

Definition mintServiceToken (credential : string) (call : ServiceTokenCall) (now : Z) (ttlMs : option Z)
    (requestId nonce : string) : string :=
  mintServiceTokenWithKey (hex_decode (serviceTunnelKey credential (c_node call))) call now ttlMs requestId nonce.

Record ParsedServiceToken := mkParsed {
  t_node : string; t_expiresAt : Z; t_nonce : string; t_subject : string; t_mac : string
}.

Definition is_word (c : ascii) : bool :=
  let n := Ascii.N_of_ascii c in
  (is_digit c || ((65 <=? n) && (n <=? 90)) || ((97 <=? n) && (n <=? 122)) || (n =? 95) || (n =? 45))%N.

(** [/^[A-Za-z0-9_-]{16,64}$/] and [/^[0-9]{1,15}$/] *)
Definition nonce_pattern (s : string) : bool :=
  all_chars is_word s && (16 <=? Z.of_nat (String.length s)) && (Z.of_nat (String.length s) <=? 64).
Definition expiry_pattern (s : string) : bool :=
  all_chars is_digit s && (1 <=? Z.of_nat (String.length s)) && (Z.of_nat (String.length s) <=? 15).

Definition parseServiceToken (token : string) : option ParsedServiceToken :=
  if (SERVICE_TOKEN_MAX_LENGTH <? String.length token)%nat then None
  else
    match split "."%char token with
    | [version; node64; expiry; nonce; subject64; mac64] =>
        if negb (bool_decide (version = SERVICE_TOKEN_VERSION)) then None
        else if negb (expiry_pattern expiry) then None
        else if negb (nonce_pattern nonce) then None
        else
          let node := base64url_decode node64 in
          let subject := base64url_decode subject64 in
          let mac := base64url_decode mac64 in
          if bool_decide (node = "") || bool_decide (subject = "") || negb (String.length mac =? 32)%nat then None
          else Some (mkParsed node (parse_digits 0 expiry) nonce subject mac)
    | _ => None
    end.

Inductive ServiceTokenRefusal := Malformed | RNode | Expired | Skew | Subject | Replay | Mac.

Definition refusalFor (parsed : ParsedServiceToken) (node method : string) (input : option Json) (at_ : Z) :
    option ServiceTokenRefusal :=
  if negb (bool_decide (t_node parsed = node)) then Some RNode
  else if t_expiresAt parsed <? at_ then Some Expired
  else if SERVICE_TOKEN_MAX_AHEAD_MS <? t_expiresAt parsed - at_ then Some Skew
  else
    match serviceTokenSubjectOf method input with
    | None => None
    | Some named => if bool_decide (named = t_subject parsed) then None else Some Subject
    end.

Definition minted_under (parsed : ParsedServiceToken) (call : ServiceTokenCall) (b : Binding) : result bool :=
  let key := hex_decode (default "" (b_tunnelKey b)) in
  if negb (String.length key =? 32)%nat then Ok false
  else timingSafeEqual (serviceTokenMac key call (t_subject parsed) (t_expiresAt parsed) (t_nonce parsed)) (t_mac parsed).

Definition mintedBy (parsed : ParsedServiceToken) (call : ServiceTokenCall) (bindings : list Binding) :
    result (option Binding) :=
  first_match (minted_under parsed call) bindings None.

(** ** The verifier *)

Record Verifier := mkVerifier { seen : gset string; held : list (string * Z); head : nat }.
Definition createServiceTokenVerifier : Verifier := mkVerifier ∅ [] 0.

(** The nonces of [entries] from the first on that are due. *)
Fixpoint sweep_loop (entries : list (string * Z)) (at_ : Z) (s : gset string) (h : nat) : gset string * nat :=
  match entries with
  | (nonce, until) :: rest => if until <=? at_ then sweep_loop rest at_ (s ∖ {[nonce]}) (S h) else (s, h)
  | [] => (s, h)
  end.

Definition sweep (at_ : Z) (v : Verifier) : Verifier :=
  let '(s, h) := sweep_loop (drop (head v) (held v)) at_ (seen v) (head v) in
  if (1024 <? h)%nat && (List.length (held v) <? h * 2)%nat
  then mkVerifier s (drop h (held v)) 0
  else mkVerifier s (held v) h.

(** What a call presents, besides the token. *)
Record Presented := mkPresented { p_method : string; p_input : option Json; p_relayPrincipal : string }.

(** [now] is the wall clock's reading, [mono] the monotonic clock's.  The
    refusal goes to [onRefused]; a missing token is refused without one. *)
Definition claimsFor (node : string) (token : option string) (call : Presented) (bindings : list Binding)
    (now mono : Z) (v : Verifier) : Verifier * result (Claims + option ServiceTokenRefusal) :=
  if negb (truthy token) then (v, Ok (inr None))
  else
    match parseServiceToken (default "" token) with
    | None => (v, Ok (inr (Some Malformed)))
    | Some parsed =>
        match refusalFor parsed node (p_method call) (p_input call) now with
        | Some early => (v, Ok (inr (Some early)))
        | None =>
            let v := sweep mono v in
            if bool_decide (t_nonce parsed ∈ seen v) then (v, Ok (inr (Some Replay)))
            else
              match mintedBy parsed (mkCall node (p_method call) (p_input call) (p_relayPrincipal call)) bindings with
              | Err e => (v, Err e)
              | Ok None => (v, Ok (inr (Some Mac)))
              | Ok (Some b) =>
                  (mkVerifier ({[t_nonce parsed]} ∪ seen v)
                     (held v ++ [(t_nonce parsed, mono + SERVICE_TOKEN_NONCE_RETENTION_MS)]) (head v),
                   Ok (inl (b_claims b)))
              end
        end
    end.

Definition heldNonces (v : Verifier) : Z := Z.of_nat (size (seen v)).
End auth.
