(* ===== verification/ServiceAuthProps.v ===== *)
(** * Worker RPC: what service tokens promise

    A token verifies at most once unless the wall clock steps back by ten
    minutes, only for the call it was minted for, and for the binding whose key
    minted it; the verifier remembers no more than the window it must. *)

From stdpp Require Import sorting.
From Stdlib Require Import Ascii.
From S2P Require Import Prelude JsText JsJson ServiceAuth.

#[local] Open Scope string_scope.
#[local] Open Scope list_scope.
#[local] Open Scope Z_scope.

(** ** The nonces held *)

Definition live (v : Verifier) : list (string * Z) := drop (head v) (held v).

#[local] Notation R := SERVICE_TOKEN_NONCE_RETENTION_MS.

(** The verifier after acceptances [hist] (nonce and monotonic time), when no
    clock reading was later than [last]. *)
Record Held (v : Verifier) (hist : list (string * Z)) (last : Z) : Prop := {
  h_seen : seen v = list_to_set (fst <$> live v);
  h_nodup : NoDup (fst <$> live v);
  h_kept n m : (n, m) ∈ hist → last < m + R → (n, m + R) ∈ live v;
  h_from n u : (n, u) ∈ live v → (n, u - R) ∈ hist;
  h_past n m : (n, m) ∈ hist → m ≤ last;
  h_sorted : StronglySorted (λ a b : string * Z, a.2 ≤ b.2) (live v);
  h_length : (head v ≤ length (held v))%nat;
  h_head : (head v ≤ 1024 ∨ 2 * head v ≤ length (held v))%nat
}.

(** The prefix that is due is forgotten. *)
Fixpoint due (entries : list (string * Z)) (at_ : Z) : nat :=
  match entries with
  | (_, until) :: rest => if until <=? at_ then S (due rest at_) else O
  | [] => O
  end.

Lemma sweep_loop_due entries at_ s h :
  NoDup (fst <$> entries) → s = list_to_set (fst <$> entries) →
  sweep_loop entries at_ s h = (list_to_set (fst <$> drop (due entries at_) entries), (h + due entries at_)%nat).
Proof.
  revert s h. induction entries as [|[n u] rest IH]; intros s h Hnd ->; [by rewrite Nat.add_0_r|].
  cbn. destruct (u <=? at_); [|by rewrite Nat.add_0_r]. cbn in Hnd. apply NoDup_cons in Hnd as [Hn Hnd].
  rewrite (IH _ (S h) Hnd); [f_equal; lia|].
  apply set_eq. intros x. rewrite elem_of_difference, elem_of_union, !elem_of_list_to_set, !elem_of_singleton.
  split; [tauto|]. intros Hx. split; [by right|]. by intros ->.
Qed.

Lemma due_length entries at_ : (due entries at_ ≤ length entries)%nat.
Proof. induction entries as [|[n u] rest IH]; cbn; [lia|]. destruct (u <=? at_); lia. Qed.

Lemma due_elem entries at_ e : e ∈ entries → at_ < e.2 → e ∈ drop (due entries at_) entries.
Proof.
  induction entries as [|[n u] rest IH]; intros He Hlt; [done|]. cbn.
  destruct (u <=? at_) eqn:E; [|done]. cbn. apply IH; [|done].
  apply elem_of_cons in He as [->|He]; [cbn in Hlt; lia|done].
Qed.

Lemma due_rest entries at_ e :
  StronglySorted (λ a b : string * Z, a.2 ≤ b.2) entries → e ∈ drop (due entries at_) entries → at_ < e.2.
Proof.
  induction 1 as [|[n u] rest Hs IH Hall]; [by intros ?%elem_of_nil|]. cbn.
  destruct (u <=? at_) eqn:E; [apply IH|]. cbn. rewrite Forall_forall in Hall.
  intros [->|He]%elem_of_cons; cbn; [lia|]. specialize (Hall _ He). cbn in Hall. lia.
Qed.

Lemma sweep_live at_ v :
  seen v = list_to_set (fst <$> live v) → NoDup (fst <$> live v) →
  live (sweep at_ v) = drop (due (live v) at_) (live v) ∧
  seen (sweep at_ v) = list_to_set (fst <$> live (sweep at_ v)).
Proof.
  intros Hs Hnd. unfold sweep. fold (live v). rewrite (sweep_loop_due _ _ _ _ Hnd Hs).
  destruct (_ && _); unfold live; cbn; by rewrite ?drop_drop, ?Nat.add_0_r.
Qed.

Lemma sweep_held at_ v hist last :
  Held v hist last → last ≤ at_ → Held (sweep at_ v) hist at_ ∧ ∀ e, e ∈ live (sweep at_ v) → at_ < e.2.
Proof.
  intros [] Hlast. destruct (sweep_live at_ v h_seen0 h_nodup0) as [Hlive Hseen].
  assert (∀ e, e ∈ live (sweep at_ v) → e ∈ live v) as Hsub.
  { intros e. rewrite Hlive. intros He. eapply elem_of_submseteq; [exact He|]. apply sublist_submseteq, sublist_drop. }
  split; [split|].
  - done.
  - rewrite Hlive, fmap_drop. eapply sublist_NoDup; [exact h_nodup0|apply sublist_drop].
  - intros n m Hin Hlt. rewrite Hlive. apply due_elem; [|done]. apply h_kept0; [done|lia].
  - intros n u Hin. by apply h_from0, Hsub.
  - intros n m Hin. apply h_past0 in Hin. lia.
  - rewrite Hlive. apply (StronglySorted_app_1_r _ (take (due (live v) at_) (live v))). by rewrite take_drop.
  - unfold sweep. fold (live v). rewrite (sweep_loop_due _ _ _ _ h_nodup0 h_seen0).
    pose proof (due_length (live v) at_) as Hd. unfold live in Hd at 2. rewrite length_drop in Hd.
    destruct (_ && _); cbn; lia.
  - unfold sweep. destruct (sweep_loop _ _ _ _) as [s h].
    destruct (_ && _) eqn:E; cbn; [lia|]. apply andb_false_iff in E as [E|E]; apply Nat.ltb_ge in E; lia.
  - intros e. rewrite Hlive. by apply due_rest.
Qed.

Section auth.
Context (sha256 : string → string) (hmac : string → string → string).
Context (base64url base64url_decode : string → string).
Context {Claims : Type} (node : string).

Local Abbreviation verify := (claimsFor (Claims:=Claims) sha256 hmac base64url base64url_decode node).

(** What an accepted token was, and what a refusal left behind. *)
Lemma claimsFor_cases token call bindings now mono v :
  (∃ r, verify token call bindings now mono v = (v, r) ∧ ∀ c, r ≠ Ok (inl c)) ∨
  (∃ r, verify token call bindings now mono v = (sweep mono v, r) ∧ ∀ c, r ≠ Ok (inl c)) ∨
  (∃ parsed b, parseServiceToken base64url_decode (default "" token) = Some parsed ∧
     refusalFor parsed node (p_method call) (p_input call) now = None ∧
     t_nonce parsed ∉ seen (sweep mono v) ∧
     mintedBy sha256 hmac base64url parsed (mkCall node (p_method call) (p_input call) (p_relayPrincipal call)) bindings
       = Ok (Some b) ∧
     verify token call bindings now mono v =
       (mkVerifier ({[t_nonce parsed]} ∪ seen (sweep mono v))
          (held (sweep mono v) ++ [(t_nonce parsed, mono + R)]) (head (sweep mono v)), Ok (inl (b_claims b)))).
Proof.
  unfold claimsFor. destruct (negb (truthy token)); [by left; eauto|].
  destruct (parseServiceToken _ _) as [parsed|]; [|by left; eauto].
  destruct (refusalFor _ _ _ _ _) eqn:Er; [by left; eauto|]. right.
  case_bool_decide; [by left; eauto|].
  destruct (mintedBy _ _ _ _ _ _) as [[b|]|e] eqn:Em; [right|by left; eauto..]. eauto 10.
Qed.

(** A nonce not held is taken in. *)
Lemma push_held n v hist at_ :
  Held v hist at_ → n ∉ seen v →
  Held (mkVerifier ({[n]} ∪ seen v) (held v ++ [(n, at_ + R)]) (head v)) (hist ++ [(n, at_)]) at_.
Proof.
  intros [] Hn. set (v' := mkVerifier _ _ _).
  assert (live v' = live v ++ [(n, at_ + R)]) as Hlive by (unfold live; cbn; by rewrite drop_app_le).
  assert (n ∉ fst <$> live v) as Hfresh by (rewrite h_seen0 in Hn; by rewrite <-(elem_of_list_to_set (C:=gset string))).
  split; rewrite ?Hlive.
  - rewrite fmap_app, list_to_set_app_L, <-h_seen0. cbn. set_solver.
  - rewrite fmap_app. apply NoDup_app. split; [done|]. split; [|apply NoDup_singleton].
    intros x Hx ->%list_elem_of_singleton. done.
  - intros m t [Hin|[= -> ->]%list_elem_of_singleton]%elem_of_app Hlt; apply elem_of_app; [left; auto|right; by left].
  - intros m u [Hin|[= -> ->]%list_elem_of_singleton]%elem_of_app; apply elem_of_app; [left; auto|right].
    replace (at_ + R - R) with at_ by lia. by left.
  - intros m t [Hin|[= -> ->]%list_elem_of_singleton]%elem_of_app; [eauto|lia].
  - apply StronglySorted_app_2; [|done|by repeat constructor].
    intros [m u] x Hin ->%list_elem_of_singleton. cbn. apply h_from0, h_past0 in Hin. lia.
  - cbn. rewrite length_app. lia.
  - cbn. rewrite length_app. lia.
Qed.

Lemma Held_later v hist last at_ : Held v hist last → last ≤ at_ → Held v hist at_.
Proof.
  intros [] H. split; try done.
  - intros n m Hin Hlt. apply h_kept0; [done|lia].
  - intros n m Hin. apply h_past0 in Hin. lia.
Qed.

Record Attempt := mkAttempt {
  a_token : option string; a_call : Presented; a_bindings : list (Binding (Claims:=Claims)); a_now : Z; a_mono : Z
}.
Local Abbreviation Outcome := (result (Claims + option ServiceTokenRefusal)).

Definition attempt (a : Attempt) (v : Verifier) : Verifier * Outcome :=
  verify (a_token a) (a_call a) (a_bindings a) (a_now a) (a_mono a) v.

Fixpoint verify_run (l : list Attempt) (v : Verifier) : Verifier * list Outcome :=
  match l with
  | [] => (v, [])
  | a :: rest => let '(v1, r) := attempt a v in let '(v2, rs) := verify_run rest v1 in (v2, r :: rs)
  end.

Definition is_accepted (r : Outcome) : bool := match r with Ok (inl _) => true | _ => false end.

(** The token of an attempt, read. *)
Definition token_of (a : Attempt) : option ParsedServiceToken :=
  parseServiceToken base64url_decode (default "" (a_token a)).

(** The acceptances of a run. *)
Fixpoint acceptances (l : list Attempt) (rs : list Outcome) : list (string * Z) :=
  match l, rs with
  | a :: l', r :: rs' =>
      (if is_accepted r then match token_of a with Some p => [(t_nonce p, a_mono a)] | None => [] end else [])
      ++ acceptances l' rs'
  | _, _ => []
  end.

Lemma attempt_held a v hist last :
  Held v hist last → last ≤ a_mono a →
  let '(v', r) := attempt a v in
  Held v' (hist ++ acceptances [a] [r]) (a_mono a) ∧
  (is_accepted r = true → ∃ p, token_of a = Some p ∧
     refusalFor p node (p_method (a_call a)) (p_input (a_call a)) (a_now a) = None ∧
     ∀ m, (t_nonce p, m) ∈ hist → m + R ≤ a_mono a).
Proof.
  intros Hv Hlast. unfold attempt. destruct (sweep_held (a_mono a) v hist last Hv Hlast) as [Hs _].
  assert (∀ r : Outcome, (∀ c, r ≠ Ok (inl c)) → is_accepted r = false ∧ acceptances [a] [r] = []) as Hno.
  { intros [[c|]|] Hr; [by destruct (Hr c)|done..]. }
  destruct (claimsFor_cases (a_token a) (a_call a) (a_bindings a) (a_now a) (a_mono a) v)
    as [(r&->&Hr)|[(r&->&Hr)|(p&b&Hp&Href&Hn&_&->)]].
  - destruct (Hno r Hr) as [Ha ->]. rewrite app_nil_r, Ha. split; [by eapply Held_later|done].
  - destruct (Hno r Hr) as [Ha ->]. rewrite app_nil_r, Ha. done.
  - cbn. unfold token_of. rewrite Hp. split; [by apply push_held|]. intros _. exists p. split; [done|]. split; [done|].
    intros m Hin. destruct (decide (a_mono a < m + R)) as [Hlt|]; [|lia]. exfalso. apply Hn.
    rewrite (h_seen _ _ _ Hs). apply elem_of_list_to_set, list_elem_of_fmap. exists (t_nonce p, m + R). split; [done|].
    by apply (h_kept _ _ _ Hs).
Qed.

Definition monotonic (l : list Attempt) : Prop := StronglySorted (λ a b, a_mono a ≤ a_mono b) l.

Lemma verify_run_held l v hist t0 :
  Held v hist t0 → monotonic l → (∀ a, a ∈ l → t0 ≤ a_mono a) →
  let '(v', rs) := verify_run l v in
  length rs = length l ∧
  Held v' (hist ++ acceptances l rs) (default t0 (a_mono <$> last l)) ∧
  (∀ j b r, l !! j = Some b → rs !! j = Some r → is_accepted r = true →
     ∃ p, token_of b = Some p ∧ refusalFor p node (p_method (a_call b)) (p_input (a_call b)) (a_now b) = None ∧
       ∀ m, (t_nonce p, m) ∈ hist → m + R ≤ a_mono b).
Proof.
  revert v hist t0. induction l as [|a l IH]; intros v hist t0 Hv Hmono Ht0.
  { cbn. rewrite app_nil_r. split; [done|]. split; [done|]. intros j b r ?. by rewrite lookup_nil in *. }
  cbn [verify_run]. pose proof (attempt_held a v hist t0 Hv (Ht0 a ltac:(by left))) as Ha.
  destruct (attempt a v) as [v1 r1]. destruct Ha as [Hv1 Hacc].
  inversion Hmono as [|? ? Hmono' Hall]; subst. rewrite Forall_forall in Hall.
  specialize (IH v1 _ (a_mono a) Hv1 Hmono' Hall). destruct (verify_run l v1) as [v2 rs].
  destruct IH as (Hlen&Hv2&IH). split; [cbn; by rewrite Hlen|]. split.
  - assert (acceptances (a :: l) (r1 :: rs) = acceptances [a] [r1] ++ acceptances l rs) as ->
      by (cbn; by rewrite app_nil_r). rewrite app_assoc.
    assert (default t0 (a_mono <$> last (a :: l)) = default (a_mono a) (a_mono <$> last l)) as ->; [|done].
    destruct l as [|b l']; [done|]. rewrite last_cons_cons. by destruct (last_is_Some (b :: l')) as [_ [x ->]].
  - intros [|j] b r Hb Hr Hok; cbn in Hb, Hr; [by simplify_eq; apply Hacc|].
    destruct (IH j b r Hb Hr Hok) as (p&?&?&Hm). exists p. split; [done|]. split; [done|].
    intros m Hin. apply Hm. apply elem_of_app. by left.
Qed.

Lemma Held_init t : Held createServiceTokenVerifier [] t.
Proof. split; cbn; try done; try lia; try constructor; intros ? ? ?%elem_of_nil; done. Qed.

Lemma verify_run_app l1 l2 v :
  verify_run (l1 ++ l2) v =
    let '(v1, r1) := verify_run l1 v in let '(v2, r2) := verify_run l2 v1 in (v2, r1 ++ r2).
Proof.
  revert v. induction l1 as [|a l1 IH]; intros v; cbn; [by destruct (verify_run l2 v)|].
  destruct (attempt a v) as [v1 r]. rewrite IH. destruct (verify_run l1 v1) as [v2 r2].
  by destruct (verify_run l2 v2).
Qed.

Lemma verify_run_length l v : length (verify_run l v).2 = length l.
Proof.
  revert v. induction l as [|a l IH]; intros v; [done|]. cbn. destruct (attempt a v) as [v1 r].
  specialize (IH v1). destruct (verify_run l v1). cbn in *. by rewrite IH.
Qed.

Lemma not_refused p call at_ :
  refusalFor p node (p_method call) (p_input call) at_ = None →
  t_node p = node ∧ at_ ≤ t_expiresAt p ≤ at_ + SERVICE_TOKEN_MAX_AHEAD_MS ∧
  (∀ named, serviceTokenSubjectOf (p_method call) (p_input call) = Some named → named = t_subject p).
Proof.
  unfold refusalFor. case_bool_decide; [|done]. cbn.
  destruct (t_expiresAt p <? at_) eqn:E1; [done|]. destruct (SERVICE_TOKEN_MAX_AHEAD_MS <? _) eqn:E2; [done|].
  to_prop. intros H1. split; [done|]. split; [lia|]. intros named Hn. rewrite Hn in H1. by case_bool_decide.
Qed.

Lemma monotonic_first l : monotonic l → ∃ t, ∀ a, a ∈ l → t ≤ a_mono a.
Proof.
  intros Hm. destruct l as [|a l]; [exists 0; by intros ? ?%elem_of_nil|].
  apply StronglySorted_inv in Hm as [_ Hall]. rewrite Forall_forall in Hall.
  exists (a_mono a). intros x [->|Hx]%elem_of_cons; [lia|by apply Hall].
Qed.

(** C4 (safety): while the monotonic clock does not go back, a token that was
    accepted is accepted again only when the retention has passed on it, and
    then the wall clock has gone back by ten minutes against it: no token
    verifies twice otherwise, whatever else is presented in between. *)
Theorem verifies_once l i j a b c d :
  monotonic l → (i < j)%nat → l !! i = Some a → l !! j = Some b → a_token a = a_token b →
  let rs := (verify_run l createServiceTokenVerifier).2 in
  rs !! i = Some (Ok (inl c)) → rs !! j = Some (Ok (inl d)) →
  a_mono a + R ≤ a_mono b ∧ 10 * 60000 ≤ (a_mono b - a_mono a) - (a_now b - a_now a).
Proof.
  intros Hmono Hij Ha Hb Htok rs Hi Hj. subst rs.
  destruct (list_elem_of_split_length l i a Ha) as (l1&l2&->&->).
  destruct (monotonic_first _ Hmono) as [t Ht]. unfold monotonic in Hmono. rewrite StronglySorted_app in Hmono.
  destruct Hmono as (Hcross&Hm1&Hm2). apply StronglySorted_inv in Hm2 as [Hm2 Hall]. rewrite Forall_forall in Hall.
  assert (∀ x, x ∈ l1 → t ≤ a_mono x) as Ht1 by (intros x Hx; apply Ht, elem_of_app; by left).
  pose proof (verify_run_held l1 _ [] t (Held_init t) Hm1 Ht1) as H1.
  rewrite verify_run_app in Hi, Hj. pose proof (verify_run_length l1 createServiceTokenVerifier) as Hlen.
  destruct (verify_run l1 createServiceTokenVerifier) as [v1 r1]. destruct H1 as (_&Hv1&_). cbn [verify_run snd] in *.
  assert (default t (a_mono <$> last l1) ≤ a_mono a) as Hlast.
  { destruct (last l1) as [x|] eqn:Ex; cbn; [|apply Ht, elem_of_app; right; by left].
    apply Hcross; [|by left]. rewrite last_lookup in Ex. by eapply list_elem_of_lookup_2. }
  pose proof (attempt_held a v1 _ _ Hv1 Hlast) as Hat. destruct (attempt a v1) as [v2 ra]. destruct Hat as [Hv2 Hacc].
  pose proof (verify_run_held l2 v2 _ _ Hv2 Hm2 Hall) as H2. destruct (verify_run l2 v2) as [v3 r2].
  destruct H2 as (_&_&H2). cbn [snd] in *.
  rewrite lookup_app_r in Hi by lia. rewrite <-Hlen, Nat.sub_diag in Hi. injection Hi as ->.
  rewrite lookup_app_r in Hb by lia. rewrite lookup_app_r in Hj by lia.
  destruct (j - length l1)%nat as [|k] eqn:Ek; [lia|]. replace (j - length r1)%nat with (S k) in Hj by lia.
  cbn in Hb, Hj. destruct (Hacc eq_refl) as (p&Hp&Hrefa&_).
  destruct (H2 k b _ Hb Hj eq_refl) as (p'&Hp'&Hrefb&Hm).
  assert (p' = p) as -> by (unfold token_of in *; rewrite <-Htok, Hp in Hp'; by injection Hp').
  apply not_refused in Hrefa as (_&Ha1&_), Hrefb as (_&Hb1&_).
  specialize (Hm (a_mono a)). cbn in Hm. rewrite Hp in Hm.
  assert (a_mono a + R ≤ a_mono b) as Hr by (apply Hm, elem_of_app; right; by left).
  split; [done|]. unfold SERVICE_TOKEN_NONCE_RETENTION_MS, SERVICE_TOKEN_MAX_AHEAD_MS, SERVICE_TOKEN_TTL_MS in *. lia.
Qed.

Lemma held_size v hist t : Held v hist t → heldNonces v = Z.of_nat (length (live v)).
Proof. intros []. unfold heldNonces. rewrite h_seen0, size_list_to_set, length_fmap by done. done. Qed.

(** Every nonce still held was accepted within the retention. *)
Lemma held_recent v hist t :
  Held v hist t → (∀ e, e ∈ live v → t < e.2) →
  (length (live v) ≤ length (filter (λ e : string * Z, (t < e.2 + R)%Z) hist))%nat.
Proof.
  intros [] Hlive. rewrite <-(length_fmap (λ e : string * Z, (e.1, e.2 - R)) (live v)).
  apply submseteq_length, NoDup_submseteq.
  - apply (NoDup_fmap_1 fst). by rewrite <-list_fmap_compose.
  - intros e ([n u]&->&Hin)%list_elem_of_fmap. apply list_elem_of_filter. cbn. split; [|by apply h_from0].
    specialize (Hlive _ Hin). cbn in Hlive. lia.
Qed.

Lemma attempt_recent a v hist last :
  Held v hist last → last ≤ a_mono a →
  let '(v', r) := attempt a v in is_accepted r = true → ∀ e, e ∈ live v' → a_mono a < e.2.
Proof.
  intros Hv Hlast. unfold attempt. destruct (sweep_held (a_mono a) v hist last Hv Hlast) as [Hs Hlive].
  destruct (claimsFor_cases (a_token a) (a_call a) (a_bindings a) (a_now a) (a_mono a) v)
    as [(r&->&Hr)|[(r&->&Hr)|(p&b&_&_&_&_&->)]].
  1, 2: intros Hacc; destruct r as [[c|]|]; try done; by destruct (Hr c).
  intros _ e. unfold live in *. cbn. rewrite drop_app_le by apply (h_length _ _ _ Hs).
  intros [He| ->%list_elem_of_singleton]%elem_of_app; [by apply Hlive|].
  cbn. unfold SERVICE_TOKEN_NONCE_RETENTION_MS, SERVICE_TOKEN_MAX_AHEAD_MS, SERVICE_TOKEN_TTL_MS. lia.
Qed.

(** The run up to its last attempt. *)
Lemma verify_run_last l a t :
  monotonic (l ++ [a]) → (∀ x, x ∈ l ++ [a] → t ≤ a_mono x) →
  ∃ v hist last, Held v hist last ∧ last ≤ a_mono a ∧
    verify_run (l ++ [a]) createServiceTokenVerifier =
      ((attempt a v).1, (verify_run l createServiceTokenVerifier).2 ++ [(attempt a v).2]).
Proof.
  intros Hmono Ht. unfold monotonic in Hmono. rewrite StronglySorted_app in Hmono. destruct Hmono as (Hcross&Hm&_).
  assert (∀ x, x ∈ l → t ≤ a_mono x) as Hl by (intros x Hx; apply Ht, elem_of_app; by left).
  pose proof (verify_run_held l _ [] t (Held_init t) Hm Hl) as H1. rewrite verify_run_app.
  destruct (verify_run l createServiceTokenVerifier) as [v1 r1]. destruct H1 as (_&Hv1&_).
  eexists v1, _, _. split; [exact Hv1|]. cbn. destruct (attempt a v1) as [v2 r2]. split; [|done].
  destruct (last l) as [x|] eqn:Ex; cbn; [|apply Ht, elem_of_app; right; by left].
  apply Hcross; [|by left]. rewrite last_lookup in Ex. by eapply list_elem_of_lookup_2.
Qed.

(** While the monotonic clock does not go back, the nonces held
    after an acceptance are at most the acceptances of the last retention
    window, and at any time the list that orders them is at most 1024 entries,
    or twice, as long as what is held. *)
Theorem memory_bounded l :
  monotonic l →
  let '(v, rs) := verify_run l createServiceTokenVerifier in
  (Z.of_nat (length (held v)) ≤ heldNonces v + 1024 ∨ Z.of_nat (length (held v)) ≤ 2 * heldNonces v) ∧
  ∀ a c, last l = Some a → last rs = Some (Ok (inl c)) →
    heldNonces v ≤ Z.of_nat (length (filter (λ e : string * Z, a_mono a < e.2 + R) (acceptances l rs))).
Proof.
  intros Hmono. destruct (monotonic_first _ Hmono) as [t Ht].
  pose proof (verify_run_held l _ [] t (Held_init t) Hmono Ht) as Hrun.
  destruct (verify_run l createServiceTokenVerifier) as [v rs] eqn:Erun. destruct Hrun as (Hlen&Hv&_). split.
  - rewrite (held_size _ _ _ Hv). destruct Hv. unfold live. rewrite length_drop. lia.
  - intros a c Hl Hr. rewrite Hl in Hv. cbn in Hv. rewrite (held_size _ _ _ Hv). apply Nat2Z.inj_le, held_recent; [done|].
    apply last_Some in Hl as [l' ->]. destruct (verify_run_last l' a t Hmono Ht) as (v1&hist&last&Hv1&Hlast&Hrun).
    rewrite Hrun in Erun. destruct (verify_run l' createServiceTokenVerifier) as [v0 r1]. cbn [fst snd] in *.
    pose proof (attempt_recent a v1 hist last Hv1 Hlast) as Hrec. destruct (attempt a v1) as [v2 r2].
    injection Erun as <- <-. rewrite last_snoc in Hr. injection Hr as ->. by apply Hrec.
Qed.

(** ** What an accepted token is bound to *)

Lemma first_match_hit {E} (matches : E → result bool) l found e :
  first_match matches l found = Ok (Some e) → found = Some e ∨ e ∈ l ∧ matches e = Ok true.
Proof.
  revert found. induction l as [|x l IH]; intros found H; [left; by injection H|]. cbn in H.
  destruct (matches x) as [hit|] eqn:Ex; [|done]. cbn in H.
  destruct (IH _ H) as [Hf|[Hin Hm]]; [|right; split; [by right|done]].
  destruct found as [f|]; [by left|]. destruct hit; [|done]. injection Hf as ->. right. split; [by left|done].
Qed.

Lemma minted_under_mac p call (b : Binding (Claims:=Claims)) :
  minted_under sha256 hmac base64url p call b = Ok true →
  let key := hex_decode (default "" (b_tunnelKey b)) in
  String.length key = 32%nat ∧
  serviceTokenMac sha256 hmac base64url key call (t_subject p) (t_expiresAt p) (t_nonce p) = t_mac p.
Proof.
  unfold minted_under, timingSafeEqual. destruct (_ =? 32)%nat eqn:E; [|done]. cbn [negb].
  case_bool_decide; [|done]. case_bool_decide; [|done]. intros _. split; [by apply Nat.eqb_eq|done].
Qed.

Definition finite_input (v : option Json) : bool := match v with Some v => finite v | None => true end.

Lemma input_text_inj (v v' : option Json) :
  finite_input v = true → finite_input v' = true →
  match v with Some v => stringify v | None => "" end = match v' with Some v => stringify v | None => "" end → v = v'.
Proof.
  assert (∀ v, stringify v ≠ "") as Hne.
  { intros x Hx. pose proof (head_kind_stringify x "") as H. rewrite Hx in H. by destruct x as [|[]| | | | |]. }
  destruct v as [v|], v' as [v'|]; intros Hv Hv' H; [f_equal; by apply stringify_inj_eq|by destruct (Hne v)|by destruct (Hne v')|done].
Qed.

(** An accepted token is read for this node, within its time
    window and naming the call's attempt, under the claims of a binding that
    holds a key; and whatever call its MAC was made for under that key is the
    call presented, with the token's own subject, expiry and nonce, unless two
    texts with one MAC or one digest are at hand. *)
Theorem accepted_token_is_bound (Hdec : ∀ s, base64url_decode (base64url s) = s)
    token call bindings now mono v v' c :
  finite_input (p_input call) = true →
  verify token call bindings now mono v = (v', Ok (inl c)) →
  ∃ p b, parseServiceToken base64url_decode (default "" token) = Some p ∧ b ∈ bindings ∧ c = b_claims b ∧
    t_node p = node ∧ now ≤ t_expiresAt p ≤ now + 2 * 60000 ∧
    (∀ named, serviceTokenSubjectOf (p_method call) (p_input call) = Some named → named = t_subject p) ∧
    let key := hex_decode (default "" (b_tunnelKey b)) in
    String.length key = 32%nat ∧
    ∀ call' subject' expiresAt' nonce', finite_input (c_input call') = true →
      serviceTokenMac sha256 hmac base64url key call' subject' expiresAt' nonce' = t_mac p →
      (call' = mkCall node (p_method call) (p_input call) (p_relayPrincipal call) ∧
       subject' = t_subject p ∧ expiresAt' = t_expiresAt p ∧ nonce' = t_nonce p) ∨
      (∃ m m', m ≠ m' ∧ hmac key m = hmac key m') ∨ (∃ m m', m ≠ m' ∧ sha256 m = sha256 m').
Proof.
  intros Hfin Hacc. destruct (claimsFor_cases token call bindings now mono v)
    as [(r&E&Hr)|[(r&E&Hr)|(p&b&Hp&Href&_&Hm&E)]]; rewrite E in Hacc.
  1, 2: injection Hacc as _ ->; by destruct (Hr c).
  injection Hacc as _ <-. exists p, b. apply not_refused in Href as (Hnode&Hexp&Hsub).
  unfold mintedBy in Hm. apply first_match_hit in Hm as [|[Hin Hm]]; [done|].
  apply minted_under_mac in Hm as [Hlen Hmac]. do 4 (split; [done|]).
  split; [unfold SERVICE_TOKEN_MAX_AHEAD_MS, SERVICE_TOKEN_TTL_MS in *; lia|]. do 2 (split; [done|]).
  set (key := hex_decode _) in *. set (call0 := mkCall _ _ _ _) in *. intros call' subject' expiresAt' nonce' Hfin' Hmac'.
  unfold serviceTokenMac in *. rewrite <-Hmac in Hmac'.
  destruct (decide (stringify (bound_values sha256 base64url call' subject' expiresAt' nonce') =
    stringify (bound_values sha256 base64url call0 (t_subject p) (t_expiresAt p) (t_nonce p)))) as [Heq|]; [|by right; left; eauto].
  apply stringify_inj_eq in Heq; [|done|done]. unfold bound_values in Heq. injection Heq as Hn Hmt Hs Hd Hr He Hno.
  apply (f_equal base64url_decode) in Hd. rewrite !Hdec in Hd.
  destruct (decide (match c_input call' with Some v => stringify v | None => "" end =
    match p_input call with Some v => stringify v | None => "" end)) as [Hi|]; [|by right; right; eauto].
  apply input_text_inj in Hi; [|done|done]. left. split; [|done]. destruct call'. cbn in *. by subst.
Qed.

(** ** A minted token is accepted *)

Lemma hex_round s : hex_decode (hex_encode s) = s.
Proof. induction s as [|c s IH]; [done|]. destruct c as [[] [] [] [] [] [] [] []]; cbn; by rewrite IH. Qed.

Lemma first_match_app {E} (matches : E → result bool) l1 e l2 :
  (∀ x, x ∈ l1 → matches x = Ok false) → matches e = Ok true → (∀ x, x ∈ l2 → ∃ hit, matches x = Ok hit) →
  first_match matches (l1 ++ e :: l2) None = Ok (Some e).
Proof.
  intros H1 He H2. induction l1 as [|x l1 IH]; cbn.
  - rewrite He. cbn. clear - H2. induction l2 as [|x l2 IH]; [done|]. cbn.
    destruct (H2 x ltac:(by left)) as [hit ->]. cbn. apply IH. intros y Hy. apply H2. by right.
  - rewrite H1 by (by left). cbn. apply IH. intros y Hy. apply H1. by right.
Qed.

(** What the parameters promise: base64url decodes what it encoded, to
    characters that no separator is among; an HMAC has 32 bytes. *)
Record Codec : Prop := {
  decode_encode s : base64url_decode (base64url s) = s;
  encode_word s : all_chars is_word (base64url s) = true;
  hmac_length k m : String.length (hmac k m) = 32%nat
}.

Lemma all_chars_impl (p q : ascii → bool) s :
  (∀ c, p c = true → q c = true) → all_chars p s = true → all_chars q s = true.
Proof. intros Hpq. induction s as [|c s IH]; [done|]. cbn. intros [Hc Hs]%andb_true_iff. by rewrite Hpq, IH. Qed.

Lemma parse_minted key call now ttl requestId nonce :
  Codec →
  let subject := default ("req-" +:+ requestId) (serviceTokenSubjectOf (c_method call) (c_input call)) in
  let expiresAt := now + default SERVICE_TOKEN_TTL_MS ttl in
  let token := mintServiceTokenWithKey sha256 hmac base64url key call now ttl requestId nonce in
  0 ≤ expiresAt < 10 ^ 15 → nonce_pattern nonce = true → c_node call ≠ "" → subject ≠ "" →
  (String.length token ≤ 1024)%nat →
  parseServiceToken base64url_decode token =
    Some (mkParsed (c_node call) expiresAt nonce subject (serviceTokenMac sha256 hmac base64url key call subject expiresAt nonce)).
Proof.
  intros [Hdec Hword Hlen] subject expiresAt token Hexp Hnonce Hnode Hsub Htok.
  unfold parseServiceToken. replace (SERVICE_TOKEN_MAX_LENGTH <? String.length token)%nat with false
    by (symmetry; apply Nat.ltb_ge; done).
  assert (all_chars is_digit (pretty expiresAt) = true) as Hdig by (apply pretty_digits; lia).
  assert (all_chars is_word nonce = true) as Hn by (unfold nonce_pattern in Hnonce; by to_prop).
  assert (∀ s, all_chars is_word s = true → char_free "."%char s = true) as Hdot by (intros s; by apply all_chars_free).
  assert (split "."%char token = [SERVICE_TOKEN_VERSION; base64url (c_node call); pretty expiresAt; nonce;
    base64url subject; base64url (serviceTokenMac sha256 hmac base64url key call subject expiresAt nonce)]) as ->.
  { unfold token, mintServiceTokenWithKey. apply split_join; [done|]. repeat constructor; try (apply Hdot; auto).
    eapply all_chars_impl; [|exact Hdig]. intros c Hc. unfold is_word. by rewrite Hc. }
  rewrite bool_decide_true by done. cbn [negb].
  assert (expiry_pattern (pretty expiresAt) = true) as ->.
  { unfold expiry_pattern. rewrite Hdig. cbn [andb].
    pose proof (pretty_length expiresAt 15 ltac:(lia) ltac:(lia) ltac:(lia)) as Hle.
    destruct (pretty_head expiresAt) as (c&s&E&_). rewrite E in *. cbn [String.length] in *.
    apply andb_true_iff. split; apply Z.leb_le; lia. }
  rewrite Hnonce. cbn [negb]. rewrite !Hdec, !bool_decide_false by done. unfold serviceTokenMac at 1. rewrite Hlen. cbn.
  by rewrite parse_digits_pretty by lia.
Qed.

(** C5 (roundtrip): a token minted from a credential for a call to this node
    verifies, for that call, when it arrives within its window and its nonce is
    not held: the caller gets the claims of the binding made from that
    credential, provided no binding listed before it has the same tunnel MAC. *)
Theorem minted_token_verifies credential call mintedAt ttl requestId nonce pre b post now mono v :
  Codec → c_node call = node → node ≠ "" →
  let subject := default ("req-" +:+ requestId) (serviceTokenSubjectOf (c_method call) (c_input call)) in
  let expiresAt := mintedAt + default SERVICE_TOKEN_TTL_MS ttl in
  let token := mintServiceToken sha256 hmac base64url credential call mintedAt ttl requestId nonce in
  let key := hex_decode (serviceTunnelKey hmac credential node) in
  let mac k := serviceTokenMac sha256 hmac base64url k call subject expiresAt nonce in
  0 ≤ expiresAt < 10 ^ 15 → nonce_pattern nonce = true → subject ≠ "" → (String.length token ≤ 1024)%nat →
  now ≤ expiresAt ≤ now + 2 * 60000 → nonce ∉ seen (sweep mono v) →
  b_tunnelKey b = Some (serviceTunnelKey hmac credential node) →
  (∀ b', b' ∈ pre → let k := hex_decode (default "" (b_tunnelKey b')) in String.length k ≠ 32%nat ∨ mac k ≠ mac key) →
  let '(v', r) := verify (Some token) (mkPresented (c_method call) (c_input call) (c_relayPrincipal call))
                    (pre ++ b :: post) now mono v in
  r = Ok (inl (b_claims b)) ∧ nonce ∈ seen v'.
Proof.
  intros Hc Hnode Hne subject expiresAt token key mac Hexp Hnonce Hsub Htok Hwin Hfresh Hkey Hpre.
  pose proof (parse_minted key call mintedAt ttl requestId nonce Hc Hexp Hnonce ltac:(by rewrite Hnode) Hsub) as Hparse.
  assert (token = mintServiceTokenWithKey sha256 hmac base64url key call mintedAt ttl requestId nonce) as Et
    by (unfold token, mintServiceToken, key; by rewrite Hnode).
  rewrite <-Et in Hparse. specialize (Hparse Htok). fold subject expiresAt in Hparse. fold (mac key) in Hparse.
  set (p := mkParsed _ _ _ _ _) in Hparse. unfold claimsFor.
  assert (truthy (Some token) = true) as ->.
  { unfold truthy. rewrite bool_decide_false; [done|]. intros Hemp. by rewrite Hemp in Hparse. }
  change (default "" (Some token)) with token. rewrite Hparse.
  cbn [negb p_method p_input p_relayPrincipal].
  assert (refusalFor p node (c_method call) (c_input call) now = None) as ->.
  { unfold refusalFor. rewrite bool_decide_true by done. cbn [negb p t_expiresAt].
    replace (expiresAt <? now) with false by (symmetry; apply Z.ltb_ge; lia).
    replace (SERVICE_TOKEN_MAX_AHEAD_MS <? expiresAt - now) with false
      by (symmetry; apply Z.ltb_ge; unfold SERVICE_TOKEN_MAX_AHEAD_MS, SERVICE_TOKEN_TTL_MS; lia).
    cbn [t_subject]. unfold subject. destruct (serviceTokenSubjectOf _ _); [|done]. cbn. by rewrite bool_decide_true. }
  cbn [p_method p_input p_relayPrincipal t_nonce p]. rewrite bool_decide_false by done.
  assert (mkCall node (c_method call) (c_input call) (c_relayPrincipal call) = call) as -> by (rewrite <-Hnode; by destruct call).
  assert (∀ b' : Binding (Claims:=Claims), minted_under sha256 hmac base64url p call b' =
    (let k := hex_decode (default "" (b_tunnelKey b')) in
     if negb (String.length k =? 32)%nat then Ok false else Ok (bool_decide (mac k = mac key)))) as Hmu.
  { intros b'. unfold minted_under, timingSafeEqual. cbv zeta. destruct (negb _); [done|].
    rewrite bool_decide_true; [done|]. cbn. unfold mac, serviceTokenMac. by rewrite !(hmac_length Hc). }
  unfold mintedBy. rewrite (first_match_app _ pre b post).
  - split; [done|]. cbn. set_solver.
  - intros b' Hb'. rewrite Hmu. cbv zeta. destruct (Hpre b' Hb') as [Hl|Hm].
    + by rewrite (proj2 (Nat.eqb_neq _ _) Hl).
    + destruct (negb _); [done|]. by rewrite bool_decide_false.
  - rewrite Hmu, Hkey. cbv zeta. change (hex_decode (default "" (Some (serviceTunnelKey hmac credential node)))) with key.
    assert (String.length key = 32%nat) as -> by (unfold key, serviceTunnelKey; by rewrite hex_round, (hmac_length Hc)).
    change (negb (32 =? 32)%nat) with false. cbn iota. by rewrite bool_decide_true.
  - intros b' _. rewrite Hmu. cbv zeta. destruct (negb _); eauto.
Qed.
End auth.

(** ** Concrete inputs

    Hex stands for base64url, and a digest is the text cut or padded to 32
    characters. *)

Fixpoint pad (n : nat) (s : string) : string :=
  match n, s with
  | O, _ => ""
  | S n', String c s' => String c (pad n' s')
  | S n', EmptyString => String "x" (pad n' "")
  end.

Lemma pad_length n s : String.length (pad n s) = n.
Proof. revert s. induction n as [|n IH]; intros [|c s]; [done..| |]; cbn; by rewrite IH. Qed.

Definition demo_hmac (k m : string) : string := pad 32 (m +:+ k).

Lemma hex_word s : all_chars is_word (hex_encode s) = true.
Proof. induction s as [|c s IH]; [done|]. destruct c as [[] [] [] [] [] [] [] []]; cbn; exact IH. Qed.

Lemma demo_codec : Codec demo_hmac hex_encode hex_decode.
Proof. split; [apply hex_round|apply hex_word|intros; apply pad_length]. Qed.

Definition demo_call : ServiceTokenCall :=
  mkCall "n" "inferenceRpc.stream" (Some (JObj [("attemptId", JStr "a1")])) "p".
Definition demo_presented : Presented :=
  mkPresented "inferenceRpc.stream" (Some (JObj [("attemptId", JStr "a1")])) "p".
Definition demo_binding : Binding (Claims:=nat) :=
  mkBinding 7%nat "" (Some (serviceTunnelKey demo_hmac "cred" "n")).
#[local] Notation demo_token :=
  (mintServiceToken (λ s, s) demo_hmac hex_encode "cred" demo_call 1000 None "" "0123456789abcdef").
#[local] Notation demo_attempt now mono :=
  (mkAttempt (Claims:=nat) (Some demo_token) demo_presented [demo_binding] now mono).
#[local] Notation demo_list := [demo_attempt 1000 0; demo_attempt 2000 5; demo_attempt 61000 720000].

Lemma minted_token_verifies_witness :
  (claimsFor (λ s, s) demo_hmac hex_encode hex_decode "n" (Some demo_token) demo_presented [demo_binding] 1500 0
     createServiceTokenVerifier).2 = Ok (inl 7%nat).
Proof.
  pose proof (minted_token_verifies (λ s, s) demo_hmac hex_encode hex_decode "n" "cred" demo_call 1000 None ""
    "0123456789abcdef" [] demo_binding [] 1500 0 createServiceTokenVerifier demo_codec eq_refl ltac:(done)) as H.
  cbv zeta in H.
  specialize (H ltac:(vm_compute; split; congruence) ltac:(vm_compute; reflexivity) ltac:(vm_compute; congruence)
    ltac:(apply Nat.leb_le; vm_compute; reflexivity) ltac:(vm_compute; split; congruence) ltac:(apply not_elem_of_empty)
    eq_refl ltac:(by intros ? ?%elem_of_nil)).
  change (match claimsFor (λ s, s) demo_hmac hex_encode hex_decode "n" (Some demo_token) demo_presented [demo_binding] 1500 0
     createServiceTokenVerifier with (v', r) => r = Ok (inl 7%nat) ∧ "0123456789abcdef" ∈ seen v' end) in H.
  destruct (claimsFor _ _ _ _ _ _ _ _ _ _ _) as [v' r]. exact (proj1 H).
Defined.

Lemma verifies_once_witness :
  (verify_run (λ s, s) demo_hmac hex_encode hex_decode "n" demo_list createServiceTokenVerifier).2 =
    [Ok (inl 7%nat); Ok (inr (Some Replay)); Ok (inl 7%nat)] ∧
  0 + 720000 ≤ 720000 ∧ 10 * 60000 ≤ (720000 - 0) - (61000 - 1000).
Proof.
  assert ((verify_run (λ s, s) demo_hmac hex_encode hex_decode "n" demo_list createServiceTokenVerifier).2 =
    [Ok (inl 7%nat); Ok (inr (Some Replay)); Ok (inl 7%nat)]) as Hrun by (vm_compute; reflexivity).
  split; [exact Hrun|].
  apply (verifies_once (λ s, s) demo_hmac hex_encode hex_decode "n" demo_list 0 2 (demo_attempt 1000 0)
    (demo_attempt 61000 720000) 7%nat 7%nat); [|lia|reflexivity|reflexivity|reflexivity|by rewrite Hrun|by rewrite Hrun].
  repeat constructor; cbn; lia.
Defined.

Lemma memory_bounded_witness :
  let '(v, rs) := verify_run (λ s, s) demo_hmac hex_encode hex_decode "n" demo_list createServiceTokenVerifier in
  Z.of_nat (length (held v)) ≤ heldNonces v + 1024 ∨ Z.of_nat (length (held v)) ≤ 2 * heldNonces v.
Proof.
  assert (monotonic (Claims:=nat) demo_list) as Hm by (repeat constructor; cbn; lia).
  pose proof (memory_bounded (λ s, s) demo_hmac hex_encode hex_decode "n" demo_list Hm) as H.
  destruct (verify_run _ _ _ _ _ _ _) as [v rs]. exact (proj1 H).
Defined.

Lemma accepted_token_is_bound_witness :
  ∃ p, parseServiceToken hex_decode demo_token = Some p ∧ t_subject p = "a1".
Proof.
  assert (∃ v', claimsFor (λ s, s) demo_hmac hex_encode hex_decode "n" (Some demo_token) demo_presented [demo_binding] 1500 0
    createServiceTokenVerifier = (v', Ok (inl 7%nat))) as [v' H] by (eexists; vm_compute; reflexivity).
  destruct (accepted_token_is_bound (λ s, s) demo_hmac hex_encode hex_decode "n" hex_round (Some demo_token)
    demo_presented [demo_binding] 1500 0 createServiceTokenVerifier v' 7%nat eq_refl H)
    as (p&b&Hp&_&_&_&_&Hs&_).
  exists p. split; [exact Hp|]. symmetry. by apply Hs.
Defined.
