(* ===== verification/KubeconfigLock.v ===== *)
(** * Kubeconfig: the lock around a read-modify-write

    packages/core/src/config/kubeconfig.ts, [mutateConfig]: processes that edit
    one file take a lock file next to it, put aside one whose holder is dead,
    and check that they still hold it before and after they save.  Each step of
    a process is one call to the file system; the steps of processes
    interleave, and a process can stop for ever between any two. *)

From S2P Require Import Prelude.

#[local] Open Scope list_scope.
#[local] Open Scope Z_scope.

Definition Pid := nat.
Definition Ino := nat.

(** The payload of a lock file, [pid-nonce]; [None] in a file is the creator's
    window between creating and writing it. *)
Definition Token : Type := Pid * nat.

Definition LOCK_MAX_RETRIES : nat := 40.
Definition LOCK_LOSS_MAX_ATTEMPTS : nat := 3.

Section lock.
(** The file's contents, and what each process makes of them; [None] when its
    function throws. *)
Context {Cfg : Type} `{EqDecision Cfg} (update : Pid → Cfg → option Cfg).
(** [ConfigSchema] accepts what is to be saved. *)
Context (valid : Cfg → bool).

(** What [mutateConfig] is to do once the lock is released. *)
Inductive After := Return | Retry | Throw.

(** Where a process is, with its local variables.  [c] and [tk] are the inode
    and payload that it checked, [h] the holder it read. *)
Inductive Pc :=
(* acquireConfigLock and reapIfStale *)
| AStat
| AToken (c : Ino)
| AHolder (c : Ino) (tk : option Token)
| AAlive (c : Ino) (tk : option Token) (h : option Pid)
| AAdopt
(* seizeStaleSlot *)
| ASeize (c : Ino) (tk : option Token) (h : option Pid)
| APlant (c : Ino) (tk : option Token)
| APlantWrite (c : Ino) (tk : option Token) (i : Ino)
| ASeizedPid (c : Ino) (tk : option Token) (plant : option Token)
| ASeizedStat (c : Ino) (tk : option Token) (plant : option Token) (seized : option Pid)
| ASeizedToken (tk : option Token) (plant : option Token) (seized : option Pid)
| ASeizedAlive (plant : option Token) (seized : option Pid)
| AUnlinkReap (plant : option Token)
| ARestore (plant : option Token)
| AUnlinkLost (plant : option Token)
(* tryOpenLock *)
| AOpen
| AOpenWrite (i : Ino)
(* mutateConfig, holding a lock *)
| CLoad (tok : Token)
| COwn (tok : Token) (next : Cfg)
| CSave (tok : Token) (next : Cfg)
| COwnAfter (tok : Token) (next : Cfg)
| CVerify (tok : Token) (next : Cfg)
(* releaseConfigLock *)
| ROwn (tok : Token) (after : After) (pass clean : nat)
| RUnlink (tok : Token) (after : After) (pass clean : nat)
| RSweep (tok : Token) (after : After) (pass clean : nat)
| RSibling (tok : Token) (after : After) (pass clean : nat) (siblings : list Pid) (busy : bool)
| RSiblingUnlink (tok : Token) (after : After) (pass clean : nat) (sibling : Pid) (siblings : list Pid) (busy : bool)
| Returned
| Thrown.

Record Proc := mkProc { pc : Pc; owned : list Token; nonce : nat; attempts : nat; alive : bool }.

(** The lock path, the path to which each process moves a seized file, the
    inodes, and the configuration. *)
Record Sys := mkSys {
  lock : option Ino;
  reap : gmap Pid Ino;
  inodes : gmap Ino (option Token);
  fresh : Ino;
  config : Cfg;
  procs : gmap Pid Proc
}.

Definition set_proc (p : Pid) (q : Proc) (s : Sys) : Sys :=
  mkSys (lock s) (reap s) (inodes s) (fresh s) (config s) (<[p := q]> (procs s)).
Definition set_lock (l : option Ino) (s : Sys) : Sys :=
  mkSys l (reap s) (inodes s) (fresh s) (config s) (procs s).
Definition set_reap (m : gmap Pid Ino) (s : Sys) : Sys :=
  mkSys (lock s) m (inodes s) (fresh s) (config s) (procs s).
Definition set_inode (i : Ino) (d : option Token) (s : Sys) : Sys :=
  mkSys (lock s) (reap s) (<[i := d]> (inodes s)) (fresh s) (config s) (procs s).
Definition set_config (c : Cfg) (s : Sys) : Sys :=
  mkSys (lock s) (reap s) (inodes s) (fresh s) c (procs s).

(** [readLockToken] of a path: null when absent or empty. *)
Definition payload (s : Sys) (path : option Ino) : option Token :=
  i ← path; d ← inodes s !! i; d.
(** [readLockHolder] *)
Definition holder_of (s : Sys) (path : option Ino) : option Pid := fst <$> payload s path.

Definition is_alive (s : Sys) (p : Pid) : bool :=
  match procs s !! p with Some q => alive q | None => false end.

(** [ownsLockFile] *)
Definition ownsLockFile (s : Sys) (q : Proc) : bool :=
  match payload s (lock s) with Some t => bool_decide (t ∈ owned q) | None => false end.

Definition at_ (pc' : Pc) (q : Proc) : Proc := mkProc pc' (owned q) (nonce q) (attempts q) (alive q).
Definition disown (t : Token) (q : Proc) : Proc :=
  mkProc (pc q) (filter (λ u, u ≠ t) (owned q)) (nonce q) (attempts q) (alive q).

(** [openSync(lockPath, "wx")]: a new empty file, when there is none. *)
Definition open_excl (s : Sys) : option (Ino * Sys) :=
  match lock s with
  | Some _ => None
  | None => Some (fresh s, mkSys (Some (fresh s)) (reap s) (<[fresh s := None]> (inodes s)) (S (fresh s)) (config s) (procs s))
  end.

(** The payload is written, by whatever name the file has now, and owned. *)
Definition write_token (p : Pid) (i : Ino) (q : Proc) (s : Sys) : Token * Proc * Sys :=
  let t := (p, nonce q) in
  (t, mkProc (pc q) (t :: owned q) (S (nonce q)) (attempts q) (alive q),
   set_inode i (Some t) s).

(** With a lock in hand: the critical section; with none: another try. *)
Definition with_plant (plant : option Token) : Pc :=
  match plant with Some t => CLoad t | None => AOpen end.

(** The lock is released: return, throw, or start over. *)
Definition released (tok : Token) (after : After) (q : Proc) : Proc :=
  let q := disown tok q in
  match after with
  | Return => at_ Returned q
  | Throw => at_ Thrown q
  | Retry =>
      if (S (attempts q) <? LOCK_LOSS_MAX_ATTEMPTS)%nat
      then mkProc AStat (owned q) (nonce q) (S (attempts q)) (alive q)
      else at_ Thrown q
  end.

(** The end of one pass of [ensureLockFileGone]. *)
Definition end_pass (tok : Token) (after : After) (pass clean : nat) (busy : bool) (q : Proc) : Proc :=
  let clean' := if busy then O else S clean in
  if (2 <=? clean')%nat || (LOCK_MAX_RETRIES <=? S pass)%nat then released tok after q
  else at_ (ROwn tok after (S pass) clean') q.

(** One call to the file system by process [p], whose record is [q].
    [giveUp]: the deadline of [acquireConfigLock] has passed. *)
Definition go (p : Pid) (giveUp : bool) (q : Proc) (s : Sys) : Sys :=
  let to pc' s' := set_proc p (at_ pc' q) s' in
  match pc q with
  | AStat => match lock s with None => to AOpen s | Some c => to (AToken c) s end
  | AToken c =>
      match payload s (lock s) with
      | Some t => if bool_decide (t ∈ owned q) then to AAdopt s else to (AHolder c (Some t)) s
      | None => to (AHolder c None) s
      end
  | AHolder c tk => to (AAlive c tk (holder_of s (lock s))) s
  | AAlive c tk h =>
      match h with
      | Some k => if negb (bool_decide (k = p)) && is_alive s k then to AOpen s else to (ASeize c tk h) s
      | None => to (ASeize c tk h) s
      end
  | AAdopt => match payload s (lock s) with Some t => to (CLoad t) s | None => to AOpen s end
  | ASeize c tk h =>
      match lock s with
      | None => to AOpen s
      | Some i => to (APlant c tk) (set_lock None (set_reap (<[p := i]> (reap s)) s))
      end
  | APlant c tk =>
      match open_excl s with
      | Some (i, s') => to (APlantWrite c tk i) s'
      | None => to (ASeizedPid c tk None) s
      end
  | APlantWrite c tk i =>
      let '(t, q', s') := write_token p i q s in set_proc p (at_ (ASeizedPid c tk (Some t)) q') s'
  | ASeizedPid c tk plant => to (ASeizedStat c tk plant (holder_of s (reap s !! p))) s
  | ASeizedStat c tk plant seized =>
      if bool_decide (reap s !! p = Some c) then to (ASeizedToken tk plant seized) s else to (ARestore plant) s
  | ASeizedToken tk plant seized =>
      if bool_decide (payload s (reap s !! p) = tk) then to (ASeizedAlive plant seized) s else to (ARestore plant) s
  | ASeizedAlive plant seized =>
      match seized with
      | Some k => if bool_decide (k = p) || negb (is_alive s k) then to (AUnlinkReap plant) s else to (ARestore plant) s
      | None => to (AUnlinkReap plant) s
      end
  | AUnlinkReap plant => to (with_plant plant) (set_reap (delete p (reap s)) s)
  | ARestore plant =>
      match reap s !! p with
      | Some i =>
          set_proc p (at_ AOpen (match plant with Some t => disown t q | None => q end))
            (set_lock (Some i) (set_reap (delete p (reap s)) s))
      | None => to (AUnlinkLost plant) s
      end
  | AUnlinkLost plant => to (with_plant plant) (set_reap (delete p (reap s)) s)
  | AOpen =>
      match open_excl s with
      | Some (i, s') => to (AOpenWrite i) s'
      | None => if giveUp then to Thrown s else to AStat s
      end
  | AOpenWrite i => let '(t, q', s') := write_token p i q s in set_proc p (at_ (CLoad t) q') s'
  | CLoad tok =>
      match update p (config s) with
      | Some next => to (COwn tok next) s
      | None => to (ROwn tok Throw 0 0) s
      end
  | COwn tok next => if ownsLockFile s q then to (CSave tok next) s else to (ROwn tok Retry 0 0) s
  | CSave tok next =>
      if valid next then to (COwnAfter tok next) (set_config next s) else to (ROwn tok Throw 0 0) s
  | COwnAfter tok next => if ownsLockFile s q then to (CVerify tok next) s else to (ROwn tok Retry 0 0) s
  | CVerify tok next =>
      if bool_decide (config s = next) then to (ROwn tok Return 0 0) s else to (ROwn tok Retry 0 0) s
  | ROwn tok after pass clean =>
      if ownsLockFile s q then to (RUnlink tok after pass clean) s else to (RSweep tok after pass clean) s
  | RUnlink tok after pass clean =>
      match lock s with
      | Some _ => set_proc p (released tok after q) (set_lock None s)
      | None => to (RSweep tok after pass clean) s
      end
  | RSweep tok after pass clean => to (RSibling tok after pass clean (map_to_list (reap s)).*1 false) s
  | RSibling tok after pass clean siblings busy =>
      match siblings with
      | [] => set_proc p (end_pass tok after pass clean busy q) s
      | k :: rest =>
          match payload s (reap s !! k) with
          | None => to (RSibling tok after pass clean rest true) s
          | Some t =>
              if bool_decide (t = tok) then to (RSiblingUnlink tok after pass clean k rest busy) s
              else to (RSibling tok after pass clean rest busy) s
          end
      end
  | RSiblingUnlink tok after pass clean k rest busy =>
      match reap s !! k with
      | Some _ => set_proc p (released tok after q) (set_reap (delete k (reap s)) s)
      | None => to (RSibling tok after pass clean rest true) s
      end
  | Returned | Thrown => s
  end.

(** A process moves, finds its deadline passed, or dies. *)
Inductive Choice := Go | GiveUp | Die.

Definition step (p : Pid) (c : Choice) (s : Sys) : Sys :=
  match procs s !! p with
  | Some q =>
      if alive q then
        match c with
        | Go => go p false q s
        | GiveUp => go p true q s
        | Die => set_proc p (mkProc (pc q) (owned q) (nonce q) (attempts q) false) s
        end
      else s
  | None => s
  end.

Fixpoint run (schedule : list (Pid * Choice)) (s : Sys) : Sys :=
  match schedule with [] => s | (p, c) :: rest => run rest (step p c s) end.

(** Processes that have just called [mutateConfig]. *)
Definition caller : Proc := mkProc AStat [] 0%nat 0%nat true.
Definition callers (pids : list Pid) : gmap Pid Proc := list_to_map ((λ p, (p, caller)) <$> pids).

(** No lock file; a lock file left by a process that is gone. *)
Definition free (pids : list Pid) (c : Cfg) : Sys := mkSys None ∅ ∅ 0%nat c (callers pids).
Definition stale (dead : Token) (pids : list Pid) (c : Cfg) : Sys :=
  mkSys (Some 0%nat) ∅ {[0%nat := Some dead]} 1%nat c (callers pids).
End lock.

Arguments Sys Cfg : clear implicits.

(** ** Kubeconfig: what the lock gives

    As long as no lock file is moved aside, the calls take effect one after the
    other, each once.  When one is moved aside, a call that returned can lose
    its effect: the two checks around the save do not cover the save itself. *)


#[local] Open Scope list_scope.
#[local] Open Scope nat_scope.

Section props.
Context {Cfg : Type} `{EqDecision Cfg} (update : Pid → Cfg → option Cfg) (valid : Cfg → bool).

(** The functions of [hist] applied in order. *)
Fixpoint apply_all (hist : list Pid) (c : Cfg) : option Cfg :=
  match hist with [] => Some c | p :: rest => c' ← update p c; apply_all rest c' end.

Lemma apply_all_snoc hist p c : apply_all (hist ++ [p]) c = c' ← apply_all hist c; update p c'.
Proof.
  revert c. induction hist as [|k hist IH]; intros c; cbn; [by destruct (update p c)|].
  destruct (update k c); cbn; [apply IH|done].
Qed.

(** ** Runs in which no lock file is moved aside *)

(** The next step of [p] would move a lock file aside. *)
Definition seizes (p : Pid) (c : Choice) (s : Sys Cfg) : bool :=
  match procs s !! p, c with
  | Some q, (Go | GiveUp) =>
      alive q && match pc q with ASeize _ _ _ => bool_decide (is_Some (lock s)) | _ => false end
  | _, _ => false
  end.

Fixpoint undisturbed (schedule : list (Pid * Choice)) (s : Sys Cfg) : bool :=
  match schedule with
  | [] => true
  | (p, c) :: rest => negb (seizes p c s) && undisturbed rest (step update valid p c s)
  end.

(** Between the load and the release. *)
Definition critical (x : Pc (Cfg:=Cfg)) : bool :=
  match x with
  | CLoad _ | COwn _ _ | CSave _ _ | COwnAfter _ _ | CVerify _ _ => true
  | _ => false
  end.

(** ** The invariant *)

Definition idle (x : Pc (Cfg:=Cfg)) : Prop :=
  match x with
  | AStat | AToken _ | AHolder _ _ | AAlive _ _ _ | ASeize _ _ _ | AOpen | Returned | Thrown => True
  | _ => False
  end.

(** A process without the lock, when [hist] have saved. *)
Definition outside (hist : list Pid) (p : Pid) (q : Proc (Cfg:=Cfg)) : Prop :=
  idle (pc q) ∧ owned q = [] ∧ (pc q = Returned → p ∈ hist) ∧ (pc q ≠ Returned → p ∉ hist).

(** The process whose file [i] the lock is. *)
Definition inside (s : Sys Cfg) (hist : list Pid) (p : Pid) (i : Ino) (q : Proc (Cfg:=Cfg)) : Prop :=
  let owns t := inodes s !! i = Some (Some t) ∧ owned q = [t] in
  match pc q with
  | AOpenWrite j => j = i ∧ owned q = [] ∧ p ∉ hist
  | CLoad t => owns t ∧ p ∉ hist
  | COwn t next | CSave t next => owns t ∧ p ∉ hist ∧ update p (config s) = Some next
  | COwnAfter t next | CVerify t next => owns t ∧ p ∈ hist ∧ config s = next
  | ROwn t after _ _ | RUnlink t after _ _ =>
      owns t ∧ match after with Return => p ∈ hist | Throw => p ∉ hist | Retry => False end
  | _ => False
  end.

Record Serial (c0 : Cfg) (hist : list Pid) (s : Sys Cfg) : Prop := {
  s_nodup : NoDup hist;
  s_config : apply_all hist c0 = Some (config s);
  s_hist p : p ∈ hist → is_Some (procs s !! p);
  s_procs : match lock s with
            | None => ∀ p q, procs s !! p = Some q → outside hist p q
            | Some i => ∃ p0 q0, procs s !! p0 = Some q0 ∧ inside s hist p0 i q0 ∧
                          ∀ p q, p ≠ p0 → procs s !! p = Some q → outside hist p q
            end
}.

Lemma insert_known {V} (m : gmap Pid V) (hist : list Pid) k v :
  (∀ p, p ∈ hist → is_Some (m !! p)) → ∀ p, p ∈ hist → is_Some (<[k := v]> m !! p).
Proof. intros H p Hp. rewrite lookup_insert_is_Some'. right. by apply H. Qed.

(** A process outside stays outside. *)
Lemma Serial_outside c0 hist s p q q' :
  Serial c0 hist s → procs s !! p = Some q → outside hist p q → outside hist p q' →
  (∀ i, lock s = Some i → ¬ inside s hist p i q) →
  Serial c0 hist (set_proc p q' s).
Proof.
  intros [] Hp Ho Ho' Hni. split; [done|done|by apply insert_known|]. cbn. destruct (lock s) as [i|].
  - destruct s_procs0 as (p0&q0&H0&Hin&Hout). exists p0, q0.
    assert (p ≠ p0) as Hne by (intros ->; rewrite Hp in H0; injection H0 as ->; by apply (Hni i)).
    split; [by rewrite lookup_insert_ne|]. split; [exact Hin|].
    intros k r Hk [[<- <-]|[_ Hr]]%lookup_insert_Some; [done|by apply Hout].
  - intros k r [[<- <-]|[_ Hr]]%lookup_insert_Some; [done|by apply s_procs0].
Qed.

Lemma idle_not_inside s hist p i q : idle (pc q) → ¬ inside s hist p i q.
Proof. unfold inside. destruct (pc q); cbn; tauto. Qed.

Lemma outside_at hist p q x :
  outside hist p q → idle x → x ≠ Returned → pc q ≠ Returned → outside hist p (at_ x q).
Proof. intros (_&Ho&_&Hn) Hx Hr Hq. split; [done|]. split; [done|]. split; [done|]. intros _. by apply Hn. Qed.

(** A process outside takes a step. *)
Lemma go_outside c0 hist s p q giveUp :
  Serial c0 hist s → procs s !! p = Some q → outside hist p q → (∀ i, lock s = Some i → ¬ inside s hist p i q) →
  (∀ c tk h, pc q = ASeize c tk h → lock s = None) →
  Serial c0 hist (go update valid p giveUp q s).
Proof.
  intros Hs Hp Ho Hni Hseize. pose proof Ho as (Hidle&Hown&_&_).
  assert (∀ x, idle x → x ≠ Returned → pc q ≠ Returned → Serial c0 hist (set_proc p (at_ x q) s)) as Hto.
  { intros x Hx Hr Hq. eapply Serial_outside; eauto. by apply outside_at. }
  unfold go. destruct (pc q) eqn:Epc; try done; try (by apply Hto).
  - destruct (lock s); by apply Hto.
  - destruct (payload s (lock s)) as [t|]; [|by apply Hto]. rewrite Hown, bool_decide_false by apply not_elem_of_nil. by apply Hto.
  - destruct h as [k|]; [|by apply Hto]. destruct (_ && _); by apply Hto.
  - rewrite (Hseize _ _ _ eq_refl). by apply Hto.
  - unfold open_excl. destruct (lock s) as [i|] eqn:El; [destruct giveUp; by apply Hto|].
    destruct Hs. rewrite El in s_procs0. split; [done|done|by apply insert_known|]. cbn.
    exists p, (at_ (AOpenWrite (fresh s)) q). split; [by rewrite lookup_insert_eq|]. split.
    + cbn. split; [done|]. split; [done|]. apply Ho. by rewrite Epc.
    + intros k r Hk. rewrite lookup_insert_ne by done. apply s_procs0.
Qed.

(** The process inside takes a step inside. *)
Lemma Serial_inside c0 hist hist' s s' p q i q' :
  Serial c0 hist s → lock s = Some i → procs s !! p = Some q →
  (∀ k r, k ≠ p → procs s !! k = Some r → outside hist k r) →
  procs s' = procs s → lock s' = Some i → NoDup hist' → apply_all hist' c0 = Some (config s') →
  (∀ k, k ≠ p → k ∈ hist ↔ k ∈ hist') →
  inside (set_proc p q' s') hist' p i q' →
  Serial c0 hist' (set_proc p q' s').
Proof.
  intros Hs _ Hp Hout Hprocs Hlock Hnd Happ Hiff Hin. split; [done|done| |]; cbn; rewrite ?Hlock, Hprocs.
  { intros k Hk. rewrite lookup_insert_is_Some'. destruct (decide (p = k)) as [|Hne]; [by left|]. right.
    apply (s_hist _ _ _ Hs). apply Hiff; [by intros ->|done]. }
  exists p, q'. split; [by rewrite lookup_insert_eq|]. split; [done|].
  intros k r Hk. rewrite lookup_insert_ne by done. intros Hr. destruct (Hout k r Hk Hr) as (?&?&?&?).
  pose proof (Hiff k Hk). split; [done|]. split; [done|]. tauto.
Qed.

Lemma owns_lock (s : Sys Cfg) (q : Proc (Cfg:=Cfg)) i t :
  lock s = Some i → inodes s !! i = Some (Some t) → owned q = [t] → ownsLockFile s q = true.
Proof.
  intros Hl Hi Ho. unfold ownsLockFile, payload. rewrite Hl. cbn. rewrite Hi. cbn. rewrite Ho.
  apply bool_decide_eq_true. by left.
Qed.

Lemma disown_last (t : Token) (q : Proc (Cfg:=Cfg)) : owned q = [t] → owned (disown t q) = [].
Proof. intros H. cbn. rewrite H. by rewrite filter_cons_False, filter_nil by naive_solver. Qed.

(** The process inside takes a step: it may save, or leave. *)
Lemma go_inside c0 hist s p q i giveUp :
  Serial c0 hist s → lock s = Some i → procs s !! p = Some q → inside s hist p i q →
  (∀ k r, k ≠ p → procs s !! k = Some r → outside hist k r) →
  ∃ hist', Serial c0 hist' (go update valid p giveUp q s).
Proof.
  intros Hs Hl Hp Hin Hout. pose proof Hs as [Hnd Happ Hknown _].
  assert (∀ q', inside (set_proc p q' s) hist p i q' → Serial c0 hist (set_proc p q' s)) as Hstay.
  { intros q' Hq'. eapply Serial_inside; eauto. }
  unfold inside in Hin. unfold go. destruct (pc q) eqn:Epc; try done.
  - destruct Hin as (->&Ho&Hn). exists hist. unfold write_token.
    eapply (Serial_inside c0 hist hist s); eauto. cbn. rewrite lookup_insert_eq, Ho. done.
  - destruct Hin as ((Hi&Ho)&Hn). exists hist. destruct (update p (config s)) eqn:Eu; apply Hstay; cbn; done.
  - destruct Hin as ((Hi&Ho)&Hn&Hu). rewrite (owns_lock _ _ _ _ Hl Hi Ho). exists hist. by apply Hstay.
  - destruct Hin as ((Hi&Ho)&Hn&Hu). destruct (valid next); [|exists hist; by apply Hstay]. exists (hist ++ [p]).
    eapply (Serial_inside c0 hist _ s); eauto.
    + apply NoDup_app. split; [done|]. split; [|apply NoDup_singleton]. by intros k Hk ->%list_elem_of_singleton.
    + rewrite apply_all_snoc, Happ. exact Hu.
    + intros k Hk. rewrite elem_of_app, list_elem_of_singleton. naive_solver.
    + cbn. split; [done|]. split; [|done]. apply elem_of_app. right. by left.
  - destruct Hin as ((Hi&Ho)&Hn&Hu). rewrite (owns_lock _ _ _ _ Hl Hi Ho). exists hist. by apply Hstay.
  - destruct Hin as ((Hi&Ho)&Hn&Hu). rewrite bool_decide_true by done. exists hist. by apply Hstay.
  - destruct Hin as ((Hi&Ho)&Ha). rewrite (owns_lock _ _ _ _ Hl Hi Ho). exists hist. by apply Hstay.
  - destruct Hin as ((Hi&Ho)&Ha). rewrite Hl. exists hist. split; [done|done|by apply insert_known|]. cbn.
    intros k r [[<- <-]|[Hk Hr]]%lookup_insert_Some; [|by apply Hout].
    unfold released. destruct after; try done; split_and!; try done; by apply disown_last.
Qed.

Lemma step_serial c0 hist s p c :
  Serial c0 hist s → seizes p c s = false → ∃ hist', Serial c0 hist' (step update valid p c s).
Proof.
  intros Hs Hq. unfold step. destruct (procs s !! p) as [q|] eqn:Hp; [|by eauto].
  unfold seizes in Hq. rewrite Hp in Hq. destruct (alive q) eqn:Ea; [|by eauto].
  assert (∀ d : bool, match pc q with ASeize _ _ _ => bool_decide (is_Some (lock s)) | _ => false end = false →
    ∃ hist', Serial c0 hist' (go update valid p d q s)) as Hgo.
  { intros d Hd. destruct (lock s) as [i|] eqn:El.
    - pose proof (s_procs _ _ _ Hs) as Hpr. rewrite El in Hpr. destruct Hpr as (p0&q0&H0&Hin&Hout).
      destruct (decide (p = p0)) as [->|Hne].
      + rewrite Hp in H0. injection H0 as <-. by eapply go_inside.
      + exists hist. pose proof (Hout p q Hne Hp) as Ho. apply go_outside; eauto.
        * intros j _. apply idle_not_inside, Ho.
        * intros c' tk h E. rewrite E in Hd. by rewrite bool_decide_true in Hd by eauto.
    - exists hist. pose proof (s_procs _ _ _ Hs) as Hpr. rewrite El in Hpr. apply go_outside; eauto.
      intros j Hj. by rewrite El in Hj. }
  destruct c; [by apply Hgo|by apply Hgo|]. exists hist.
  destruct Hs. split; [done|done|by apply insert_known|]. cbn. destruct (lock s) as [i|].
  - destruct s_procs0 as (p0&q0&H0&Hin&Hout). destruct (decide (p = p0)) as [->|Hne].
    + rewrite Hp in H0. injection H0 as <-. eexists p0, _. rewrite lookup_insert_eq. split; [done|]. split; [exact Hin|].
      intros k r Hk. rewrite lookup_insert_ne by done. by apply Hout.
    + exists p0, q0. rewrite lookup_insert_ne by done. split; [done|]. split; [exact Hin|].
      intros k r Hk [[<- <-]|[_ Hr]]%lookup_insert_Some; [exact (Hout p q Hk Hp)|by apply Hout].
  - intros k r [[<- <-]|[_ Hr]]%lookup_insert_Some; [exact (s_procs0 p q Hp)|by apply s_procs0].
Qed.

Lemma run_serial c0 hist schedule s :
  Serial c0 hist s → undisturbed schedule s = true → ∃ hist', Serial c0 hist' (run update valid schedule s).
Proof.
  revert hist s. induction schedule as [|[p c] rest IH]; intros hist s Hs Hu; [by eauto|]. cbn in Hu. to_prop.
  destruct (step_serial _ _ _ p c Hs) as [hist' Hs']; [done|]. by eapply IH.
Qed.

Lemma callers_caller pids p q : callers pids !! p = Some q → q = caller (Cfg:=Cfg).
Proof.
  intros H. apply elem_of_list_to_map_2, list_elem_of_fmap in H as (k&[= _ ->]&_). done.
Qed.

Lemma free_serial pids c0 : Serial c0 [] (free pids c0).
Proof.
  split; [constructor|done|by intros p ?%elem_of_nil|]. cbn. intros p q Hq. apply callers_caller in Hq as ->.
  split; [done|]. split; [done|]. split; [done|]. intros _. apply not_elem_of_nil.
Qed.

(** C6 (refinement): as long as no lock file is moved aside, however the calls
    interleave and wherever processes give up or die, the saved file is what
    the functions of some of the calls make of the first one, one after the
    other, each once: of every call that returned, of none that threw; and at
    most one process is between its load and its release. *)
Theorem updates_serialize pids c0 schedule :
  undisturbed schedule (free pids c0) = true →
  let s := run update valid schedule (free pids c0) in
  (∃ hist, NoDup hist ∧ apply_all hist c0 = Some (config s) ∧
     (∀ p, p ∈ hist → is_Some (procs s !! p)) ∧
     ∀ p q, procs s !! p = Some q → (pc q = Returned → p ∈ hist) ∧ (pc q = Thrown → p ∉ hist)) ∧
  ∀ p p' q q', procs s !! p = Some q → procs s !! p' = Some q' → critical (pc q) = true → critical (pc q') = true → p = p'.
Proof.
  intros Hu s. destruct (run_serial c0 [] schedule _ (free_serial pids c0) Hu) as [hist Hs]. fold s in Hs.
  destruct Hs as [Hnd Happ Hknown Hprocs]. split.
  - exists hist. do 3 (split; [done|]). intros p q Hq.
    assert (outside hist p q → (pc q = Returned → p ∈ hist) ∧ (pc q = Thrown → p ∉ hist)) as Ho.
    { intros (_&_&H1&H2). split; [done|]. intros Ht. apply H2. by rewrite Ht. }
    destruct (lock s) as [i|]; [|by apply Ho, Hprocs]. destruct Hprocs as (p0&q0&H0&Hin&Hout).
    destruct (decide (p = p0)) as [->|Hne]; [|by apply Ho, Hout]. rewrite Hq in H0. injection H0 as <-.
    unfold inside in Hin. by destruct (pc q).
  - assert (∀ p q, outside hist p q → critical (pc q) = true → False) as Hno.
    { intros p q (Hi&_) Hc. by destruct (pc q). }
    intros p p' q q' Hq Hq' Hc Hc'. destruct (lock s) as [i|]; [|by destruct (Hno p q (Hprocs p q Hq))].
    destruct Hprocs as (p0&q0&H0&Hin&Hout).
    destruct (decide (p = p0)) as [->|Hne]; [|by destruct (Hno p q (Hout p q Hne Hq))].
    destruct (decide (p' = p0)) as [->|Hne']; [done|by destruct (Hno p' q' (Hout p' q' Hne' Hq'))].
Qed.
End props.

(** ** Concrete runs: every process appends its number *)

Definition append_pid (p : Pid) (c : list Pid) : option (list Pid) := Some (c ++ [p]).
Definition any_list (_ : list Pid) : bool := true.
Definition goes (p : Pid) (n : nat) : list (Pid * Choice) := replicate n (p, Go).

(** Two calls, the second waiting for the first. *)
#[local] Notation orderly := (goes 1 6 ++ goes 2 9 ++ goes 1 20 ++ goes 2 20).

Lemma updates_serialize_witness :
  config (run append_pid any_list orderly (free [1; 2] [])) = [1; 2] ∧
  ∃ hist, NoDup hist ∧ apply_all append_pid hist [] = Some [1; 2].
Proof.
  assert (config (run append_pid any_list orderly (free [1; 2] [])) = [1; 2]) as Hc by (vm_compute; reflexivity).
  split; [exact Hc|].
  assert (undisturbed append_pid any_list orderly (free [1; 2] []) = true) as Hu by (vm_compute; reflexivity).
  pose proof (proj1 (updates_serialize append_pid any_list [1; 2] [] orderly Hu)) as H. cbv zeta in H. rewrite Hc in H.
  destruct H as (hist&Hnd&Happ&_). exists hist. exact (conj Hnd Happ).
Defined.

(** Process 2 takes the file that process 1 has created but not yet written for
    a stale one and moves it aside; process 3 creates one in the gap, loads and
    passes its first check; process 2 puts the file of process 1 back, which
    saves, passes its second check, releases and returns; then process 3 saves
    what it made of the older contents, sees that it lost the lock, and does its
    work again on top of that. *)
Definition lossy : list (Pid * Choice) :=
  goes 1 2 ++ goes 2 5 ++ goes 3 5 ++ goes 1 1 ++ goes 2 5 ++ goes 1 7 ++ goes 3 30 ++ goes 2 30.

