(* ===== verification/Kubeconfig.v ===== *)
(** * Kubeconfig: contexts, clusters, nodes and users

    packages/core/src/config/kubeconfig.ts and the types of schema.ts: finding a
    node, and the edits that [mutateConfig] is called with.  Resolving a secret
    reference is a parameter. *)

From S2P Require Import Prelude JsText.
From Stdlib Require Import Ascii.

#[local] Open Scope string_scope.
#[local] Open Scope list_scope.
#[local] Open Scope Z_scope.

(** ** Data *)

Inductive NodeKind := KAgent | KGateway | KProvider | KRag | KCloud.
#[export] Instance NodeKind_eq : EqDecision NodeKind.
Proof. solve_decision. Defined.

Record ProviderBinding := mkProvider { pb_gateway : string; pb_providerName : string; pb_cli : bool }.

(** A node: [n_cloud] is the upstream of its cloud binding, [n_cli] the names
    of its CLI bindings, [n_rag] whether it has a retrieval binding. *)
Record ClusterNode := mkNode {
  n_name : string; n_endpoint : string; n_kind : option NodeKind;
  n_certificateFingerprint : option string; n_certificate : option string;
  n_cloud : option string; n_provider : option ProviderBinding; n_rag : bool; n_cli : list string
}.

Record Cluster := mkCluster { cl_name : string; cl_nodes : list ClusterNode }.
Record Context := mkContext { cx_name : string; cx_cluster : string; cx_user : string; cx_defaultNode : string }.
Record User := mkUser { u_name : string; u_tokenRef : option string; u_token : option string }.
Record Config := mkConfig {
  currentContextName : string; contexts : list Context; clusters : list Cluster; users : list User
}.

Definition LOCAL_NODE_NAME : string := "local".

Definition resolveNodeKind (node : ClusterNode) : NodeKind :=
  match n_kind node with
  | Some k => k
  | None =>
      match n_provider node with
      | Some _ => KProvider
      | None =>
          if n_rag node then KRag
          else
            match n_cloud node with
            | Some upstream =>
                if bool_decide (upstream = "sirius") || bool_decide (upstream = "embersynth")
                   || bool_decide (upstream = "openai-compatible")
                then KGateway else KCloud
            | None => KAgent
            end
      end
  end.

(** ** What is saved *)

(** The effective kind for the schema. *)
Definition nodeValidationKind (n : ClusterNode) : NodeKind :=
  match n_kind n with
  | Some KCloud => KGateway
  | Some k => k
  | None =>
      match n_provider n, n_rag n, n_cloud n with
      | Some _, _, _ => KProvider
      | _, true, _ => KRag
      | _, _, Some _ => KGateway
      | _, _, _ => KAgent
      end
  end.

Definition min1 (s : string) : bool := negb (bool_decide (s = "")).
Definition opt_min1 (s : option string) : bool := match s with Some t => min1 t | None => true end.

(** [ClusterNodeSchema]: its fields and its [refine]. *)
Definition node_valid (n : ClusterNode) : bool :=
  min1 (n_name n) &&
  match n_provider n with Some p => min1 (pb_gateway p) && min1 (pb_providerName p) | None => true end &&
  let k := nodeValidationKind n in
  if negb (bool_decide (n_cli n = [])) && negb (bool_decide (k = KAgent)) then false
  else
    match k with
    | KRag => n_rag n
    | _ =>
        if n_rag n then false
        else
          match k with
          | KProvider => match n_provider n with Some _ => true | None => false end
          | KGateway => match n_cloud n with Some _ => true | None => false end
          | _ => min1 (n_endpoint n)
          end
    end.

Definition cluster_valid (c : Cluster) : bool := min1 (cl_name c) && forallb node_valid (cl_nodes c).
Definition context_valid (c : Context) : bool :=
  min1 (cx_name c) && min1 (cx_cluster c) && min1 (cx_user c) && min1 (cx_defaultNode c).
Definition user_valid (u : User) : bool :=
  min1 (u_name u) && opt_min1 (u_tokenRef u) && opt_min1 (u_token u) &&
  match u_tokenRef u, u_token u with None, None => false | _, _ => true end.

(** [ConfigSchema], on the fields that are kept here. *)
Definition config_valid (c : Config) : bool :=
  min1 (currentContextName c) && forallb context_valid (contexts c) && forallb cluster_valid (clusters c) &&
  forallb user_valid (users c).

(** [saveConfig]: what is written, or the schema's error. *)
Definition saveConfig (c : Config) : result Config :=
  if config_valid c then Ok c else Err "the configuration does not match its schema".

(** ** Looking up *)

(** [list.find((x) => name(x) === key)] *)
Definition find_by {A} (name : A → string) (key : string) (l : list A) : option A :=
  find (λ x, bool_decide (name x = key)) l.

Definition currentContext (config : Config) : result Context :=
  match find_by cx_name (currentContextName config) (contexts config) with
  | Some ctx => Ok ctx
  | None => Err ("current-context '" +:+ currentContextName config +:+ "' not found in config.contexts")
  end.

(** The text before and after the first [c]. *)
Fixpoint cut_first (c : ascii) (s : string) : option (string * string) :=
  match s with
  | EmptyString => None
  | String d s' => if bool_decide (d = c) then Some (EmptyString, s')
                   else (λ '(a, b), (String d a, b)) <$> cut_first c s'
  end.

Definition virtual_node (name : string) (p : ProviderBinding) : ClusterNode :=
  mkNode name "" (Some KProvider) None None None (Some p) false [].

Definition resolveVirtualProviderNode (cluster : Cluster) (nodeName : string) : option ClusterNode :=
  match cut_first "."%char nodeName with
  | Some (parentName, leafName) =>
      if bool_decide (parentName = "") || bool_decide (leafName = "") then None
      else
        match find_by n_name parentName (cl_nodes cluster) with
        | None => None
        | Some parent =>
            match n_cloud parent with
            | Some _ => Some (virtual_node nodeName (mkProvider parentName leafName false))
            | None =>
                if bool_decide (leafName ∈ n_cli parent)
                then Some (virtual_node nodeName (mkProvider parentName leafName true))
                else None
            end
        end
  | None => None
  end.

Definition resolveNode (config : Config) (nodeName : string) (contextName : option string) :
    result (ClusterNode * Context * User) :=
  context ← (if truthy contextName then
               match find_by cx_name (default "" contextName) (contexts config) with
               | Some ctx => Ok ctx
               | None => Err ("context '" +:+ default "" contextName +:+ "' not found")
               end
             else currentContext config);
  cluster ← match find_by cl_name (cx_cluster context) (clusters config) with
            | Some c => Ok c
            | None => Err ("cluster '" +:+ cx_cluster context +:+ "' not found")
            end;
  user ← match find_by u_name (cx_user context) (users config) with
         | Some u => Ok u
         | None => Err ("user '" +:+ cx_user context +:+ "' not found")
         end;
  match find_by n_name nodeName (cl_nodes cluster) with
  | Some direct => Ok (direct, context, user)
  | None =>
      match resolveVirtualProviderNode cluster nodeName with
      | Some virtual => Ok (virtual, context, user)
      | None => Err ("node '" +:+ nodeName +:+ "' not found in cluster '" +:+ cl_name cluster +:+ "'")
      end
  end.

Section secrets.
(** [resolveSecret]; an error is its throw. *)
Context (resolveSecret : string → result string).

(** The nodes that a new bearer would cut off. *)
Definition remote_agents (config : Config) (clusterName nodeName : string) : list ClusterNode :=
  match find_by cl_name clusterName (clusters config) with
  | Some cluster =>
      filter (λ n, n_name n ≠ nodeName ∧ resolveNodeKind n = KAgent ∧ startsWith "inproc://" (n_endpoint n) = false)
        (cl_nodes cluster)
  | None => []
  end.

(** The bearer in force, if it can be told. *)
Definition current_token (user : User) : option string :=
  match u_token user with
  | Some t => Some t
  | None =>
      if truthy (u_tokenRef user) then
        match resolveSecret (default "" (u_tokenRef user)) with Ok t => Some t | Err _ => None end
      else None
  end.

(** [None], or the names of the nodes in [TokenConflictError]. *)
Definition assertTokenReplaceable (config : Config) (clusterName userName incomingToken nodeName : string) :
    option (list string) :=
  match find_by u_name userName (users config) with
  | None => None
  | Some user =>
      match current_token user with
      | None => None
      | Some current =>
          if bool_decide (current = incomingToken) then None
          else
            match n_name <$> remote_agents config clusterName nodeName with
            | [] => None
            | names => Some names
            end
      end
  end.

Definition conflict_message (userName : string) (nodes : list string) : string :=
  "user '" +:+ userName +:+ "' already has a token; replacing it would cut off " +:+
  pretty (Z.of_nat (length nodes)) +:+ " other agent node(s): " +:+ String.concat ", " nodes.

Definition resolveToken (user : User) : result string :=
  if truthy (u_token user) then Ok (default "" (u_token user))
  else if truthy (u_tokenRef user) then resolveSecret (default "" (u_tokenRef user))
  else Err ("user '" +:+ u_name user +:+ "' has neither token nor tokenRef").
End secrets.

(** ** Edits *)

Definition with_clusters (cs : list Cluster) (config : Config) : Config :=
  mkConfig (currentContextName config) (contexts config) cs (users config).
Definition with_users (us : list User) (config : Config) : Config :=
  mkConfig (currentContextName config) (contexts config) (clusters config) us.
Definition with_contexts (cs : list Context) (config : Config) : Config :=
  mkConfig (currentContextName config) cs (clusters config) (users config).

Definition upsertCluster (config : Config) (cluster : Cluster) : Config :=
  with_clusters (filter (λ c, cl_name c ≠ cl_name cluster) (clusters config) ++ [cluster]) config.

Definition map_cluster (clusterName : string) (f : list ClusterNode → list ClusterNode) (config : Config) : Config :=
  with_clusters ((λ c, if bool_decide (cl_name c = clusterName) then mkCluster (cl_name c) (f (cl_nodes c)) else c)
                 <$> clusters config) config.

Definition upsertNode (config : Config) (clusterName : string) (node : ClusterNode) : Config :=
  map_cluster clusterName (λ nodes, filter (λ n, n_name n ≠ n_name node) nodes ++ [node]) config.

Definition removeNode (config : Config) (clusterName nodeName : string) : result Config :=
  if bool_decide (nodeName = LOCAL_NODE_NAME) then Err "refusing to remove the local node"
  else Ok (map_cluster clusterName (λ nodes, filter (λ n, n_name n ≠ nodeName) nodes) config).

Definition setDefaultNode (config : Config) (nodeName : string) : result Config :=
  ctx ← currentContext config;
  match find_by cl_name (cx_cluster ctx) (clusters config) with
  | None => Err ("cluster '" +:+ cx_cluster ctx +:+ "' not found")
  | Some cluster =>
      if bool_decide (nodeName ∈ n_name <$> cl_nodes cluster) then
        Ok (with_contexts
              ((λ c, if bool_decide (cx_name c = cx_name ctx)
                     then mkContext (cx_name c) (cx_cluster c) (cx_user c) nodeName else c) <$> contexts config) config)
      else Err ("node '" +:+ nodeName +:+ "' not found in cluster '" +:+ cl_name cluster +:+ "'")
  end.

(** Replace the bearer of a user. *)
Definition set_token (userName token : string) (config : Config) : Config :=
  with_users ((λ u, if bool_decide (u_name u = userName) then mkUser (u_name u) (u_tokenRef u) (Some token) else u)
              <$> users config) config.
