(* ===== verification/NodeRegistration.v ===== *)
(** * Node registration

    packages/remote/src/config/bootstrap-tokens.ts and
    packages/remote/src/server/register.ts: a token minted for one node name,
    kept by its hash in a file, is consumed by the request that adds the node to
    the kubeconfig.  The hash, dates and the blob's decoding are parameters; the
    token directory is a map from file names, in which [None] is a file that
    does not load. *)

From S2P Require Import Prelude JsText Kubeconfig.
From Stdlib Require Import Ascii.

#[local] Open Scope string_scope.
#[local] Open Scope list_scope.
#[local] Open Scope Z_scope.

(** ** Bootstrap tokens *)

Record BootstrapToken := mkToken {
  bt_nodeName : string; bt_tokenHash : string; bt_centralUrl : string;
  bt_createdAt : string; bt_expiresAt : string; bt_used : bool; bt_usedAt : option string
}.

Definition TokenDir : Type := gmap string (option BootstrapToken).

Record BootstrapBlob := mkBlob { bb_url : string; bb_fingerprint : string; bb_token : string; bb_certificate : string }.

Section registration.
Context (hashToken : string → string).
(** [toISOString], and [Date]'s reading of a text ([None] for NaN). *)
Context (iso : Z → string) (date_parse : string → option Z).

(** [`${tokenHash.slice(0, 8)}.yaml`] *)
Definition tokenFilePath (tokenHash : string) : string := String.substring 0 8 tokenHash +:+ ".yaml".

(** The fields that [BootstrapTokenSchema] restricts. *)
Definition is_lower_hex (c : ascii) : bool := is_digit c || existsb (λ d, bool_decide (c = d)) (String.list_ascii_of_string "abcdef").
Definition token_valid (r : BootstrapToken) : bool :=
  min1 (bt_nodeName r) && bool_decide (String.length (bt_tokenHash r) = 64%nat) && all_chars is_lower_hex (bt_tokenHash r) &&
  min1 (bt_centralUrl r) && min1 (bt_createdAt r) && min1 (bt_expiresAt r) && opt_min1 (bt_usedAt r).

Definition writeTokenRecord (record : BootstrapToken) (dir : TokenDir) : result TokenDir :=
  if token_valid record then Ok (<[tokenFilePath (bt_tokenHash record) := Some record]> dir)
  else Err "the bootstrap token does not match its schema".

(** [url.replace(/\/$/, "")] *)
Fixpoint strip_slash (url : string) : string :=
  match url with
  | EmptyString => EmptyString
  | String c EmptyString => if bool_decide (c = "/"%char) then EmptyString else url
  | String c rest => String c (strip_slash rest)
  end.

Definition DEFAULT_TTL_MS : Z := 15 * 60000.

(** [token] is the random token. *)
Definition generateBootstrapToken (token nodeName centralUrl : string) (ttlMs : option Z) (now : Z) (dir : TokenDir) :
    result TokenDir :=
  writeTokenRecord
    (mkToken nodeName (hashToken token) (strip_slash centralUrl) (iso now) (iso (now + default DEFAULT_TTL_MS ttlMs))
       false None) dir.

Definition findBootstrapTokenByPlaintext (token : string) (dir : TokenDir) : option BootstrapToken :=
  match dir !! tokenFilePath (hashToken token) with
  | Some (Some record) => if bool_decide (bt_tokenHash record = hashToken token) then Some record else None
  | _ => None
  end.

Inductive ConsumeFailure := NotFound | TokenExpired | AlreadyUsed.

(** [now > new Date(expiresAt)]: false when the date cannot be read. *)
Definition is_expired (now : Z) (record : BootstrapToken) : bool :=
  match date_parse (bt_expiresAt record) with Some e => e <? now | None => false end.

Definition mark_used (now : Z) (r : BootstrapToken) : BootstrapToken :=
  mkToken (bt_nodeName r) (bt_tokenHash r) (bt_centralUrl r) (bt_createdAt r) (bt_expiresAt r) true (Some (iso now)).

Definition consumeBootstrapToken (token : string) (now : Z) (dir : TokenDir) :
    result (TokenDir * (BootstrapToken + ConsumeFailure)) :=
  match findBootstrapTokenByPlaintext token dir with
  | None => Ok (dir, inr NotFound)
  | Some record =>
      if bt_used record then Ok (dir, inr AlreadyUsed)
      else if is_expired now record then Ok (dir, inr TokenExpired)
      else
        let updated := mark_used now record in
        match writeTokenRecord updated dir with Ok dir' => Ok (dir', inl updated) | Err e => Err e end
  end.

Definition prunable (now : Z) (entry : option BootstrapToken) : bool :=
  match entry with Some r => bt_used r || is_expired now r | None => false end.

Definition pruneBootstrapTokens (now : Z) (dir : TokenDir) : TokenDir :=
  filter (λ e, prunable now e.2 = false) dir.

(** ** The handler *)

(** [decodeBootstrap]; an error is its throw. *)
Context (decodeBootstrap : string → result BootstrapBlob) (resolveSecret : string → result string).

Record RegisterRequestBody := mkRequest { rq_bootstrapToken : string; rq_blob : string; rq_nodeName : option string }.

Inductive Response :=
| Registered (nodeName cluster context : string)
| Failed (status : Z) (error : string).

Definition reason_status (f : ConsumeFailure) : Z :=
  match f with NotFound => 401 | TokenExpired => 410 | AlreadyUsed => 409 end.
Definition reason_text (f : ConsumeFailure) : string :=
  match f with NotFound => "not-found" | TokenExpired => "expired" | AlreadyUsed => "already-used" end.

Definition registration_entry (nodeName : string) (b : BootstrapBlob) : ClusterNode :=
  mkNode nodeName (bb_url b) None (Some (bb_fingerprint b)) (Some (bb_certificate b)) None None false [].

(** The function given to [mutateConfig]: [inr] with the message of a
    [TokenConflictError], an error for any other throw.  Then the result is saved. *)
Definition writeRegistration (nodeName : string) (b : BootstrapBlob) (cfg : Config) :
    result (Config + string) :=
  ctx ← currentContext cfg;
  match assertTokenReplaceable resolveSecret cfg (cx_cluster ctx) (cx_user ctx) (bb_token b) nodeName with
  | Some nodes => Ok (inr (conflict_message (cx_user ctx) nodes))
  | None =>
      next ← saveConfig (upsertNode (set_token (cx_user ctx) (bb_token b) cfg) (cx_cluster ctx) (registration_entry nodeName b));
      Ok (inl next)
  end.

(** A POST whose body has the right shape.  The result is an error when the
    handler throws. *)
Definition handleRegister (payload : RegisterRequestBody) (now : Z) (dir : TokenDir) (cfg : Config) :
    TokenDir * Config * result Response :=
  match consumeBootstrapToken (rq_bootstrapToken payload) now dir with
  | Err e => (dir, cfg, Err e)
  | Ok (dir, inr reason) => (dir, cfg, Ok (Failed (reason_status reason) ("bootstrap token " +:+ reason_text reason)))
  | Ok (dir, inl record) =>
      match decodeBootstrap (rq_blob payload) with
      | Err msg => (dir, cfg, Ok (Failed 400 ("bootstrap blob invalid: " +:+ msg)))
      | Ok decoded =>
          if match rq_nodeName payload with Some n => negb (bool_decide (n = bt_nodeName record)) | None => false end
          then (dir, cfg, Ok (Failed 403 "nodeName does not match bootstrap token record"))
          else
            match writeRegistration (bt_nodeName record) decoded cfg with
            | Err e => (dir, cfg, Err e)
            | Ok (inr message) => (dir, cfg, Ok (Failed 409 message))
            | Ok (inl next) =>
                (dir, next,
                 ctx ← currentContext next; Ok (Registered (bt_nodeName record) (cx_cluster ctx) (cx_name ctx)))
            end
      end
  end.
End registration.

(** ** Node registration: what it admits

    A node gets in only with an unused, unexpired token minted for its name, no
    other node loses anything, and a token does this once. *)


#[local] Open Scope string_scope.
#[local] Open Scope list_scope.
#[local] Open Scope Z_scope.

(** ** Finding by name *)

Section find_by.
Context {A : Type} (name : A → string).

Lemma find_by_cons key x l : find_by name key (x :: l) = if bool_decide (name x = key) then Some x else find_by name key l.
Proof. done. Qed.

Lemma find_by_app key l k :
  find_by name key (l ++ k) = match find_by name key l with Some x => Some x | None => find_by name key k end.
Proof.
  induction l as [|x l IH]; [done|]. change ((x :: l) ++ k) with (x :: (l ++ k)). rewrite !find_by_cons, IH.
  by case_bool_decide.
Qed.

Lemma find_by_filter_ne key other l : key ≠ other → find_by name key (filter (λ x, name x ≠ other) l) = find_by name key l.
Proof.
  intros Hne. induction l as [|x l IH]; [done|]. rewrite filter_cons, find_by_cons. case_decide as Hx.
  - by rewrite find_by_cons, IH.
  - rewrite IH, bool_decide_false; [done|]. intros E. apply Hne. congruence.
Qed.

Lemma find_by_filter_eq key l : find_by name key (filter (λ x, name x ≠ key) l) = None.
Proof.
  induction l as [|x l IH]; [done|]. rewrite filter_cons. case_decide as Hx; [|done].
  by rewrite find_by_cons, bool_decide_false.
Qed.

Lemma find_by_map key (f : A → A) l :
  (∀ x, name (f x) = name x) → find_by name key (f <$> l) = f <$> find_by name key l.
Proof.
  intros Hf. induction l as [|x l IH]; [done|]. rewrite fmap_cons, !find_by_cons, Hf, IH. by case_bool_decide.
Qed.

Lemma find_by_name key l x : find_by name key l = Some x → name x = key.
Proof.
  induction l as [|y l IH]; [done|]. rewrite find_by_cons. case_bool_decide; [by intros [= <-]|apply IH].
Qed.
End find_by.

(** The nodes of a cluster. *)
Definition nodes_of (cfg : Config) (cluster : string) : option (list ClusterNode) :=
  cl_nodes <$> find_by cl_name cluster (clusters cfg).

Lemma nodes_of_map_cluster cluster f cfg other :
  nodes_of (map_cluster cluster f cfg) other =
    if bool_decide (other = cluster) then f <$> nodes_of cfg other else nodes_of cfg other.
Proof.
  unfold nodes_of, map_cluster, with_clusters. cbn [clusters]. rewrite find_by_map.
  - destruct (find_by cl_name other (clusters cfg)) as [c|] eqn:E; cbn; [|by case_bool_decide].
    apply find_by_name in E as ->. by case_bool_decide.
  - intros c. by case_bool_decide.
Qed.

(** ** Registration *)

Section registration.
Context (hashToken : string → string) (iso : Z → string) (date_parse : string → option Z).
Context (decodeBootstrap : string → result BootstrapBlob) (resolveSecret : string → result string).

Local Abbreviation register := (handleRegister hashToken iso date_parse decodeBootstrap resolveSecret).
Local Abbreviation path t := (tokenFilePath (hashToken t)).

Lemma find_token t dir record :
  findBootstrapTokenByPlaintext hashToken t dir = Some record ↔
  dir !! path t = Some (Some record) ∧ bt_tokenHash record = hashToken t.
Proof.
  unfold findBootstrapTokenByPlaintext. destruct (dir !! path t) as [[r|]|]; [case_bool_decide|..]; naive_solver.
Qed.

Lemma consume_ok t now dir dir' r :
  consumeBootstrapToken hashToken iso date_parse t now dir = Ok (dir', inl r) →
  ∃ record, findBootstrapTokenByPlaintext hashToken t dir = Some record ∧ bt_used record = false ∧
    is_expired date_parse now record = false ∧ r = mark_used iso now record ∧ dir' = <[path t := Some r]> dir.
Proof.
  unfold consumeBootstrapToken. destruct (findBootstrapTokenByPlaintext _ _ _) as [record|] eqn:E; [|done].
  destruct (bt_used record) eqn:Eu; [done|]. destruct (is_expired _ _ _) eqn:Ee; [done|].
  unfold writeTokenRecord. destruct (token_valid _); [|done]. intros [= <- <-].
  exists record. apply find_token in E as [_ Eh]. cbn. by rewrite Eh.
Qed.


(** ** Single use *)

Inductive Op :=
| ORegister (payload : RegisterRequestBody) (now : Z)
| OMint (token nodeName centralUrl : string) (ttlMs : option Z) (now : Z)
| OPrune (now : Z).

Definition op_step (op : Op) (s : TokenDir * Config) : TokenDir * Config :=
  match op with
  | ORegister payload now => (register payload now s.1 s.2).1
  | OMint token nodeName url ttl now =>
      (match generateBootstrapToken hashToken iso token nodeName url ttl now s.1 with Ok dir => dir | Err _ => s.1 end, s.2)
  | OPrune now => (pruneBootstrapTokens date_parse now s.1, s.2)
  end.

(** No token is minted into the file of [t]. *)
Definition no_remint (t : string) (op : Op) : Prop :=
  match op with OMint token _ _ _ _ => path token ≠ path t | _ => True end.

(** The file of [t] holds no token that could be used. *)
Definition spent (t : string) (dir : TokenDir) : Prop :=
  ∀ record, dir !! path t = Some (Some record) → bt_tokenHash record = hashToken t → bt_used record = true.

Lemma consume_dir payload now dir cfg :
  (register payload now dir cfg).1.1 =
    match consumeBootstrapToken hashToken iso date_parse (rq_bootstrapToken payload) now dir with
    | Ok (dir', _) => dir'
    | Err _ => dir
    end.
Proof.
  unfold handleRegister. destruct (consumeBootstrapToken _ _ _ _ _ _) as [[d [r|f]]|e]; [|done|done].
  by repeat case_match.
Qed.

Lemma spent_step t op s : spent t s.1 → no_remint t op → spent t (op_step op s).1.
Proof.
  intros Hs Hop. destruct op as [payload now|token nodeName url ttl now|now]; cbn.
  - rewrite consume_dir. destruct (consumeBootstrapToken _ _ _ _ _ _) as [[d [r|f]]|e] eqn:Ec; cbn; [..|exact Hs].
    + apply consume_ok in Ec as (record&_&_&_&->&->). intros r Hr Hh. apply (lookup_insert_Some (M:=gmap string)) in Hr as [[_ [= <-]]|[_ Hr]]; [done|by apply Hs].
    + unfold consumeBootstrapToken in Ec. repeat case_match; simplify_eq; exact Hs.
  - unfold generateBootstrapToken, writeTokenRecord. cbn. destruct (token_valid _); [|exact Hs]. cbn. intros r Hr Hh.
    apply (lookup_insert_Some (M:=gmap string)) in Hr as [[Hp _]|[_ Hr]]; [by destruct Hop|by apply Hs].
  - intros r Hr. apply (map_lookup_filter_Some (M:=gmap string)) in Hr as [Hr _]. by apply Hs.
Qed.

(** Once a request has consumed a token, whether or not the
    registration went through, every later request with it is refused as
    used, or as unknown once it was pruned, and changes nothing, as long as no
    token is minted whose hash begins with the same eight digits. *)
Theorem token_single_use payload now dir cfg ops later now' :
  (∃ dir' r, consumeBootstrapToken hashToken iso date_parse (rq_bootstrapToken payload) now dir = Ok (dir', inl r)) →
  Forall (no_remint (rq_bootstrapToken payload)) ops →
  rq_bootstrapToken later = rq_bootstrapToken payload →
  let '(dir', cfg') := foldl (λ s op, op_step op s) (op_step (ORegister payload now) (dir, cfg)) ops in
  register later now' dir' cfg' = (dir', cfg', Ok (Failed 409 "bootstrap token already-used")) ∨
  register later now' dir' cfg' = (dir', cfg', Ok (Failed 401 "bootstrap token not-found")).
Proof.
  intros (dir'&r&Hr) Hops Ht. set (t := rq_bootstrapToken payload) in *.
  assert (spent t (op_step (ORegister payload now) (dir, cfg)).1) as H0.
  { cbn. rewrite consume_dir. fold t. rewrite Hr. cbn. apply consume_ok in Hr as (record&_&_&_&->&->). intros r' Hr' Hh.
    apply (lookup_insert_Some (M:=gmap string)) in Hr' as [[_ [= <-]]|[[] _]]; done. }
  revert H0. generalize (op_step (ORegister payload now) (dir, cfg)). induction Hops as [|op ops Hop _ IH]; intros s Hs; cbn.
  - destruct s as [d c]. unfold handleRegister, consumeBootstrapToken. rewrite Ht.
    destruct (findBootstrapTokenByPlaintext hashToken t d) as [record|] eqn:E; [|by right].
    apply find_token in E as [E1 E2]. rewrite (Hs record E1 E2). by left.
  - apply IH. by apply spent_step.
Qed.
End registration.

(** ** A concrete run *)

(** A digest that only pads, dates written as decimal numbers, a blob that
    decodes to one node. *)
Definition pad_hash (t : string) : string := String.substring 0 64 (t +:+ String.concat "" (replicate 64 "0")).
Definition decimal_date (s : string) : option Z := Some (parse_digits 0 s).
Definition some_blob (_ : string) : result BootstrapBlob := Ok (mkBlob "https://10.0.0.7:7843" "sha256:ab" "t1" "PEM").
Definition no_secret (_ : string) : result string := Err "no such secret".
Definition home_config : Config :=
  mkConfig "default" [mkContext "default" "home" "me" "local"]
    [mkCluster "home" [mkNode "local" "inproc://local" None None None None None false []]]
    [mkUser "me" None (Some "t0")].
Definition minted : TokenDir :=
  match generateBootstrapToken pad_hash pretty "abc" "mac" "https://c/" None 1000 ∅ with Ok d => d | Err _ => ∅ end.
Definition join_request : RegisterRequestBody := mkRequest "abc" "blob" (Some "mac").

#[local] Notation attempt now dir cfg :=
  (handleRegister pad_hash pretty decimal_date some_blob no_secret join_request now dir cfg).


Lemma token_single_use_witness :
  let '(dir', cfg') := foldl (λ s op, op_step pad_hash pretty decimal_date some_blob no_secret op s)
                         (op_step pad_hash pretty decimal_date some_blob no_secret (ORegister join_request 2000) (minted, home_config))
                         [OMint "def" "pi" "https://c" None 3000; OPrune 4000] in
  attempt 5000 dir' cfg' = (dir', cfg', Ok (Failed 409 "bootstrap token already-used")) ∨
  attempt 5000 dir' cfg' = (dir', cfg', Ok (Failed 401 "bootstrap token not-found")).
Proof.
  apply (token_single_use pad_hash pretty decimal_date some_blob no_secret join_request 2000 minted home_config
           [OMint "def" "pi" "https://c" None 3000; OPrune 4000] join_request 5000).
  - eexists _, _. vm_compute. reflexivity.
  - repeat constructor. vm_compute. discriminate.
  - reflexivity.
Defined.
