(* ===== verification/FleetTypes.v ===== *)
(** * Fleet supervisor: shared data

    packages/fleet-supervisor/src/types.ts: snapshots, the journal's entries
    and the tier of an action.  Memory sizes, rates and times are integers;
    timestamps are the strings that [toISOString] makes of them. *)

From S2P Require Import Prelude JsText JsJson.

#[local] Open Scope string_scope.
#[local] Open Scope list_scope.
#[local] Open Scope Z_scope.

Inductive PressureState := NORMAL | HIGH.
#[export] Instance PressureState_eq : EqDecision PressureState.
Proof. solve_decision. Defined.

Inductive FleetProposalAction :=
| AEvict (workload reason : string)
| ARestart (workload reason : string)
| AMarkDegraded (workload reason : string)
| APlace (workload node reason : string)
| AMove (workload fromNode toNode reason : string)
| ADrain (node reason : string).

Definition actionTier (action : FleetProposalAction) : Z :=
  match action with
  | AMarkDegraded _ _ => 2
  | APlace _ _ _ => 1
  | AMove _ _ _ _ => 2
  | ADrain _ _ => 2
  | AEvict _ _ | ARestart _ _ => 3
  end.

Inductive Signal := Pressure | PressureCleared | Degraded | Placement.
#[export] Instance Signal_eq : EqDecision Signal.
Proof. solve_decision. Defined.

Record Transition := mkTransition {
  t_subject : string; t_isNode : bool; t_signal : Signal; t_from : string; t_to : string
}.

Inductive ExecStatus := Executed | Skipped | Failed.
#[export] Instance ExecStatus_eq : EqDecision ExecStatus.
Proof. solve_decision. Defined.

Record FleetExecutionEntry := mkExecution {
  e_ts : string; e_node : string; e_proposalId : string; e_action : FleetProposalAction;
  e_status : ExecStatus; e_reason : option string; e_exitCode : option Z;
  e_attempt : option Z; e_maxAttempts : option Z; e_nextAttemptAt : option string
}.

Record FleetProposalEntry := mkProposal {
  p_ts : string; p_node : string; p_proposalId : string; p_transition : Transition;
  p_action : FleetProposalAction; p_expiresAt : option string
}.

Record FleetPressureStatusEntry := mkStatus {
  s_ts : string; s_node : string; s_state : PressureState; s_enteredAt : string;
  s_durationMs : option Z; s_consecutiveClearTicks : Z; s_clearTicksNeeded : Z;
  s_free_mb : Z; s_compressor_mb : Z; s_headroomBreach : bool; s_compressorBreach : bool
}.

Record NodeMemSnapshot := mkMem {
  free_mb : Z; compressor_mb : Z; available : option bool
}.

(** The completion probe's part of a workload snapshot. *)
Record CompletionProbeSnapshot := mkProbe { cp_status : option Z; cp_consecutiveFailures : Z }.

Record WorkloadSnapshot := mkWorkload {
  w_name : string; w_priority : Z; w_placement : option string; w_rss_mb : option Z;
  w_request_rate_5m : option Z; w_p95_ms : option Z; w_models : list string;
  w_reachable : bool; w_consecutiveErrors : Z;
  w_completionProbe : option CompletionProbeSnapshot; w_expectedMemoryMb : option Z
}.

(** A move deployed but not finished, as the snapshot publishes it. *)
Record InFlightMove := mkInFlightMove {
  i_workload : string; i_fromNode : string; i_toNode : string; i_proposalId : string;
  i_deployedAtMs : Z
}.

Record LeaseIntent := mkLease {
  l_candidate : string; l_term : Z; l_eligible : bool; l_seq : Z
}.

(** [fs_lease] is [undefined] when the snapshot has none. *)
Record FleetSnapshotEntry := mkFleetSnapshot {
  fs_ts : string; fs_node : string; fs_node_mem : NodeMemSnapshot;
  fs_workloads : list WorkloadSnapshot; fs_lease : option Json;
  fs_inFlightMoves : list InFlightMove
}.

Record SnapshotRow := mkRow {
  sr_node : string; sr_ts : string; sr_receivedAt : string; sr_snapshot : FleetSnapshotEntry
}.

(** The entries the modelled code writes or reads; [JOther] is any other. *)
Inductive FleetJournalEntry :=
| JSnapshot (s : FleetSnapshotEntry)
| JHeartbeat (ts node : string)
| JTransition (ts node : string) (t : Transition)
| JProposal (p : FleetProposalEntry)
| JExecution (e : FleetExecutionEntry)
| JPressureStatus (s : FleetPressureStatusEntry)
| JSourceStale (ts node startupRev currentRev : string) (reloading : bool)
| JTickError (ts node message : string)
| JOther (kind : string).
