(* ===== verification/FleetLease.v ===== *)
(** * Fleet supervisor: the scheduler lease

    packages/fleet-supervisor/src/lease-election.ts and lease-term.ts, and what
    packages/cli/src/commands/supervisor.ts builds from them: the node that may
    move workloads is the one with the least (term, id) among the fresh,
    eligible intents that a node sees, its own included. *)

From S2P Require Import Prelude JsText JsJson FleetTypes.

#[local] Open Scope string_scope.
#[local] Open Scope list_scope.
#[local] Open Scope Z_scope.

(** ** Reading an intent *)

(** [readLeaseIntent] on the [lease] field; [None] for [undefined].  An array
    is an object without the fields. *)
Definition readLeaseIntent (lease : option Json) : option LeaseIntent :=
  match lease with
  | Some (JObj fields) =>
      match json_field fields "candidate", json_field fields "term",
            json_field fields "eligible", json_field fields "seq" with
      | Some (JStr candidate), Some (JNum term), Some (JBool eligible), Some (JNum seq) =>
          Some (mkLease candidate term eligible seq)
      | _, _, _, _ => None
      end
  | _ => None
  end.

(** The object a node publishes. *)
Definition lease_json (l : LeaseIntent) : Json :=
  JObj [("candidate", JStr (l_candidate l)); ("term", JNum (l_term l));
        ("eligible", JBool (l_eligible l)); ("seq", JNum (l_seq l))].

Section election.
(** [Date.parse] ([None] for NaN) and [new Date(ms).toISOString()]. *)
Context (date_parse : string → option Z) (iso : Z → string).

Definition livenessTimestamp (row : SnapshotRow) : string := sr_receivedAt row.

(** The row's intent, when the election considers it. *)
Definition kept (now staleAfterMs : Z) (row : SnapshotRow) : option LeaseIntent :=
  match readLeaseIntent (fs_lease (sr_snapshot row)) with
  | Some lease =>
      if l_eligible lease then
        match date_parse (livenessTimestamp row) with
        | Some tsMs => if staleAfterMs <=? now - tsMs then None else Some lease
        | None => None
        end
      else None
  | None => None
  end.

(** [bestTerm] is infinite as long as it is [None]. *)
Definition better (lease : LeaseIntent) (bestTerm : option Z) (bestCandidate : option string) : bool :=
  match bestTerm with
  | None => true
  | Some t =>
      (l_term lease <? t) ||
      ((l_term lease =? t) &&
       match bestCandidate with
       | None => true
       | Some c => bool_decide (str_lt (l_candidate lease) c)
       end)
  end.

Fixpoint elect_loop (rows : list SnapshotRow) (now staleAfterMs : Z)
    (bestTerm : option Z) (bestCandidate : option string) : option string :=
  match rows with
  | [] => bestCandidate
  | row :: rest =>
      match kept now staleAfterMs row with
      | Some lease =>
          if better lease bestTerm bestCandidate
          then elect_loop rest now staleAfterMs (Some (l_term lease)) (Some (l_candidate lease))
          else elect_loop rest now staleAfterMs bestTerm bestCandidate
      | None => elect_loop rest now staleAfterMs bestTerm bestCandidate
      end
  end.

Definition electLeaseHolder (peerSnapshots : list SnapshotRow) (now staleAfterMs : Z) : option string :=
  elect_loop peerSnapshots now staleAfterMs None None.

(** ** The node's view of its peers *)

Definition STALE_AFTER_MS : Z := 90000.

(** A direct peer fetch's rows and when they came; whether one is under way. *)
Record PeerCache := mkCache { pc_rows : list SnapshotRow; pc_at : Z }.
Record PeerView := mkView { directFallbackCache : option PeerCache; directFallbackInFlight : bool }.
Definition new_view : PeerView := mkView None false.

Definition refreshDirectFallback (v : PeerView) : PeerView :=
  if directFallbackInFlight v then v else mkView (directFallbackCache v) true.

(** The fetch ends, with rows or with an error, at the wall clock's [at_]. *)
Definition direct_fetched (rows : result (list SnapshotRow)) (at_ : Z) (v : PeerView) : PeerView :=
  mkView (Some (mkCache (match rows with Ok r => r | Err _ => [] end) at_)) false.

(** The rows the closures work with: the aggregator's, or the cached ones;
    in the second case a fetch is started. *)
Definition peer_rows (loadPeerRows : string → option (list SnapshotRow)) (nowMs : Z) (v : PeerView)
    : PeerView * list SnapshotRow :=
  let freshAfterTs := iso (nowMs - STALE_AFTER_MS) in
  match loadPeerRows freshAfterTs with
  | Some (row :: rows) => (v, row :: rows)
  | _ =>
      (refreshDirectFallback v,
       match directFallbackCache v with
       | Some c => if nowMs - pc_at c <? STALE_AFTER_MS then pc_rows c else []
       | None => []
       end)
  end.

Definition buildSelfLeaseRow (selfNode : string) (term : Z) (eligible : bool) (seq nowMs : Z) : SnapshotRow :=
  let ts := iso nowMs in
  mkRow selfNode ts ts
    (mkFleetSnapshot ts selfNode (mkMem 0 0 None) []
       (Some (lease_json (mkLease selfNode term eligible seq))) []).

Record GetLeaseHolderDeps := mkHolderDeps {
  h_selfNode : string; h_selfLeaseTerm : Z; h_selfEligible : bool; h_leaseMode : string
}.

(** One call of the closure that [makeGetLeaseHolder] returns. *)
Definition getLeaseHolder (deps : GetLeaseHolderDeps)
    (loadPeerRows : string → option (list SnapshotRow)) (nowMs : Z) (v : PeerView)
    : PeerView * option string :=
  if decide (h_leaseMode deps = "legacy-self") then (v, Some (h_selfNode deps))
  else
    let seq := nowMs / 1000 in
    let selfRow := buildSelfLeaseRow (h_selfNode deps) (h_selfLeaseTerm deps) (h_selfEligible deps) seq nowMs in
    let '(v', rows) := peer_rows loadPeerRows nowMs v in
    (v', electLeaseHolder (selfRow :: rows) nowMs STALE_AFTER_MS).

(** [snapshotReceiptTs]: a row always carries its [receivedAt]. *)
Definition snapshotReceiptTs (row : SnapshotRow) : string := sr_receivedAt row.

Definition is_fresh (nowMs : Z) (row : SnapshotRow) : bool :=
  match date_parse (snapshotReceiptTs row) with
  | Some tsMs => nowMs - tsMs <? STALE_AFTER_MS
  | None => false
  end.

Definition canSeeFreshDestinationPeer (loadPeerRows : string → option (list SnapshotRow)) (nowMs : Z)
    (v : PeerView) : PeerView * bool :=
  let '(v', rows) := peer_rows loadPeerRows nowMs v in (v', existsb (is_fresh nowMs) rows).

Definition freshInFlightWorkloads (rows : list SnapshotRow) (nowMs : Z) : list string :=
  i_workload <$> (filter (λ row, is_fresh nowMs row = true) rows ≫= λ row, fs_inFlightMoves (sr_snapshot row)).

Definition isPeerMovingWorkload (loadPeerRows : string → option (list SnapshotRow)) (nowMs : Z)
    (workload : string) (v : PeerView) : PeerView * bool :=
  let '(v', rows) := peer_rows loadPeerRows nowMs v in
  (v', bool_decide (workload ∈ freshInFlightWorkloads rows nowMs)).

End election.

(** ** The persisted term *)

(** The file's content, [None] while it does not exist. *)
Definition TermFile : Type := option string.

Section term.
(** What reading or writing the file fails with, when it does. *)
Context (read_error write_error : option string).

Definition bumpLeaseTerm : eff TermFile Z := λ file,
  let current :=
    match file with
    | None => 0
    | Some content =>
        match read_error with
        | Some _ => 0
        | None =>
            match parseInt (trim content) with
            | Some parsed => if 0 <=? parsed then parsed else 0
            | None => 0
            end
        end
    end in
  let next := current + 1 in
  match write_error with
  | Some e => (file, Err e)
  | None => (Some (pretty next), Ok next)
  end.

End term.

(** ** Fleet supervisor: theorems about the lease

    What the election of FleetLease.v decides, that two nodes that see each
    other never both hold, and that a restart raises the published term. *)


#[local] Open Scope string_scope.
#[local] Open Scope list_scope.
#[local] Open Scope Z_scope.

(** ** The order of intents *)

Definition lease_lt (a b : LeaseIntent) : Prop :=
  l_term a < l_term b ∨ l_term a = l_term b ∧ str_lt (l_candidate a) (l_candidate b).
Definition same_key (a b : LeaseIntent) : Prop := l_term a = l_term b ∧ l_candidate a = l_candidate b.
Definition lease_le (a b : LeaseIntent) : Prop := lease_lt a b ∨ same_key a b.

Lemma lease_lt_trans a b c : lease_lt a b → lease_lt b c → lease_lt a c.
Proof.
  unfold lease_lt. intros [?|[-> ?]] [?|[<- ?]]; [left; lia|by left|by left|right; split; [done|by eapply str_lt_trans]].
Qed.

Lemma lease_lt_irrefl a : ¬ lease_lt a a.
Proof. intros [?|[_ []%str_lt_irrefl]]. lia. Qed.

Lemma lease_lt_key a a' b b' : same_key a a' → same_key b b' → lease_lt a b → lease_lt a' b'.
Proof. unfold same_key, lease_lt. intros [-> ->] [-> ->]. done. Qed.

Lemma lease_total a b : lease_lt a b ∨ lease_le b a.
Proof.
  unfold lease_le, lease_lt, same_key.
  destruct (Z.lt_trichotomy (l_term a) (l_term b)) as [?|[?|?]]; [by left; left| |by right; left; left].
  destruct (str_lt_total (l_candidate a) (l_candidate b)) as [?|[?|?]]; [left; by right| |right; left; right]; auto.
Qed.

Lemma lease_le_trans a b c : lease_le a b → lease_le b c → lease_le a c.
Proof.
  intros [Hab|Hab] [Hbc|Hbc].
  - left. by eapply lease_lt_trans.
  - left. by eapply (lease_lt_key a a b c).
  - left. destruct Hab as [Ht Hc]. by eapply (lease_lt_key b a c c).
  - right. unfold same_key in *. intuition congruence.
Qed.

Lemma lease_le_antisym a b : lease_le a b → lease_le b a → same_key a b.
Proof.
  intros [Hab|?] [Hba|[? ?]]; [|split; congruence|done..].
  by destruct (lease_lt_irrefl a (lease_lt_trans _ _ _ Hab Hba)).
Qed.

Section election.
Context (date_parse : string → option Z) (iso : Z → string).

Notation kept := (kept date_parse).
Notation elect_loop := (elect_loop date_parse).
Notation electLeaseHolder := (electLeaseHolder date_parse).
Notation getLeaseHolder := (getLeaseHolder date_parse iso).

(** What the loop has found so far, as an intent. *)
Definition best_so_far (bestTerm : option Z) (bestCandidate : option string) (best : option LeaseIntent) : Prop :=
  bestTerm = l_term <$> best ∧ bestCandidate = l_candidate <$> best.

Lemma better_spec lease bt bc best : best_so_far bt bc best →
  better lease bt bc = true ↔ match best with None => True | Some b => lease_lt lease b end.
Proof.
  intros [-> ->]. destruct best as [b|]; [|done]. simpl. unfold lease_lt.
  rewrite orb_true_iff, andb_true_iff, Z.ltb_lt, Z.eqb_eq, bool_decide_eq_true. done.
Qed.

Definition least (l : LeaseIntent) (P : LeaseIntent → Prop) : Prop := P l ∧ ∀ l', P l' → lease_le l l'.

Lemma elect_loop_spec rows now stale bt bc best :
  best_so_far bt bc best →
  let seen l := best = Some l ∨ ∃ row, row ∈ rows ∧ kept now stale row = Some l in
  match elect_loop rows now stale bt bc with
  | None => ∀ l, ¬ seen l
  | Some c => ∃ l, l_candidate l = c ∧ least l seen
  end.
Proof.
  revert bt bc best. induction rows as [|row rows IH]; intros bt bc best Hb; simpl.
  - destruct Hb as [_ ->]. destruct best as [b|]; simpl.
    + exists b. split; [done|]. split; [by left|]. intros l' [[= <-]|(?&?%not_elem_of_nil&_)]; [by right|done].
    + intros l [?|(?&?%not_elem_of_nil&_)]; done.
  - assert (∀ best' bt' bc', best_so_far bt' bc' best' →
      (∀ l, best' = Some l → best = Some l ∨ kept now stale row = Some l) →
      (∀ l, best = Some l ∨ kept now stale row = Some l → ∃ b, best' = Some b ∧ lease_le b l) →
      match elect_loop rows now stale bt' bc' with
      | None => ∀ l, ¬ (best = Some l ∨ ∃ r, r ∈ row :: rows ∧ kept now stale r = Some l)
      | Some c => ∃ l, l_candidate l = c ∧
          least l (λ l, best = Some l ∨ ∃ r, r ∈ row :: rows ∧ kept now stale r = Some l)
      end) as Hstep.
    { intros best' bt' bc' Hb' Hfrom Hle. specialize (IH bt' bc' best' Hb'). simpl in IH.
      destruct (elect_loop rows now stale bt' bc') as [c|].
      - destruct IH as (l&Hc&Hl&Hmin). exists l. split; [done|]. split.
        + destruct Hl as [Hl|(r&Hr&Hk)]; [destruct (Hfrom l Hl) as [?|?]; [by left|right]|right].
          * exists row. split; [left|done].
          * exists r. split; [by right|done].
        + intros l' [Hl'|(r&[->|Hr]%elem_of_cons&Hk)].
          * destruct (Hle l' (or_introl Hl')) as (b&Hbb&Hle'). eapply lease_le_trans; [|exact Hle'].
            apply Hmin. by left.
          * destruct (Hle l' (or_intror Hk)) as (b&Hbb&Hle'). eapply lease_le_trans; [|exact Hle'].
            apply Hmin. by left.
          * apply Hmin. right. eauto.
      - intros l [Hl|(r&[->|Hr]%elem_of_cons&Hk)].
        + destruct (Hle l (or_introl Hl)) as (b&Hbb&_). apply (IH b). by left.
        + destruct (Hle l (or_intror Hk)) as (b&Hbb&_). apply (IH b). by left.
        + apply (IH l). right. eauto. }
    destruct (kept now stale row) as [lease|] eqn:Hk.
    + destruct (better lease bt bc) eqn:Hbet.
      * apply (Hstep (Some lease)); [done|intros l [= <-]; by right|].
        apply (better_spec _ _ _ _ Hb) in Hbet. exists lease. split; [done|].
        destruct H as [->|[= <-]]; [by left|by right].
      * apply (Hstep best); [done|by left|]. intros l [->|[= <-]]; [exists l; split; [done|by right]|].
        assert (¬ match best with None => True | Some b => lease_lt lease b end) as Hn.
        { intros Hx. apply (better_spec _ _ _ _ Hb) in Hx. congruence. }
        destruct best as [b|]; [|tauto]. exists b. split; [done|]. by destruct (lease_total lease b).
    + apply (Hstep best); [done|by left|]. intros l [->|?]; [|done]. exists l. split; [done|by right].
Qed.

Definition considered (now stale : Z) (rows : list SnapshotRow) (l : LeaseIntent) : Prop :=
  ∃ row, row ∈ rows ∧ kept now stale row = Some l.

Lemma elect_spec rows now stale :
  match electLeaseHolder rows now stale with
  | None => ∀ l, ¬ considered now stale rows l
  | Some c => ∃ l, l_candidate l = c ∧ least l (considered now stale rows)
  end.
Proof.
  pose proof (elect_loop_spec rows now stale None None None) as H. simpl in H.
  unfold FleetLease.electLeaseHolder.
  specialize (H ltac:(by split)). destruct (elect_loop _ _ _ _ _) as [c|].
  - destruct H as (l&Hc&Hl&Hmin). exists l. split; [done|]. split; [by destruct Hl|]. intros l' ?. apply Hmin. by right.
  - intros l Hl. apply (H l). by right.
Qed.

(** The holder elected over a list of rows is the candidate of
    an intent that is present, eligible and fresh and whose (term, candidate)
    is least among those, and there is none just when no row has such an
    intent; so the result depends only on the set of (term, candidate) pairs
    considered: not on the rows' order, on repetitions, or on which node and
    which clock elects. *)
Theorem electLeaseHolder_least rows now stale :
  (electLeaseHolder rows now stale = None ↔ ∀ l, ¬ considered now stale rows l) ∧
  (∀ c, electLeaseHolder rows now stale = Some c ↔
    ∃ l, l_candidate l = c ∧ least l (considered now stale rows)) ∧
  (∀ rows' now' stale',
    (∀ term c, (∃ l, considered now stale rows l ∧ l_term l = term ∧ l_candidate l = c) ↔
               (∃ l, considered now' stale' rows' l ∧ l_term l = term ∧ l_candidate l = c)) →
    electLeaseHolder rows' now' stale' = electLeaseHolder rows now stale).
Proof.
  pose proof (elect_spec rows now stale) as H.
  assert (∀ c, electLeaseHolder rows now stale = Some c ↔
    ∃ l, l_candidate l = c ∧ least l (considered now stale rows)) as Hc.
  { intros c. destruct (electLeaseHolder rows now stale) as [c'|].
    - split; [intros [= <-]; done|]. intros (l&<-&Hl&Hmin). destruct H as (l'&<-&Hl'&Hmin').
      destruct (lease_le_antisym l' l) as [_ ->]; auto.
    - split; [done|]. intros (l&_&Hl&_). by destruct (H l). }
  split_and!; [|done|].
  - destruct (electLeaseHolder rows now stale); [|done].
    split; [done|]. intros Hn. destruct H as (l&_&Hl&_). by destruct (Hn l).
  - intros rows' now' stale' Heq. pose proof (elect_spec rows' now' stale') as H'.
    destruct (electLeaseHolder rows' now' stale') as [c'|].
    + symmetry. apply Hc. destruct H' as (l'&Hlc&Hl'&Hmin').
      destruct (proj2 (Heq (l_term l') (l_candidate l'))) as (l&Hl&Ht&Hcand); [eauto|].
      exists l. split; [congruence|]. split; [done|]. intros l2 Hl2.
      destruct (proj1 (Heq (l_term l2) (l_candidate l2))) as (l2'&Hl2'&Ht2&Hc2); [eauto|].
      pose proof (Hmin' l2' Hl2') as Hle. unfold lease_le, lease_lt, same_key in *.
      by rewrite Ht, Hcand, <-Ht2, <-Hc2.
    + destruct (electLeaseHolder rows now stale) as [c|]; [|done]. destruct H as (l&_&Hl&_).
      destruct (proj1 (Heq (l_term l) (l_candidate l))) as (l'&Hl'&_); [eauto|]. by destruct (H' l').
Qed.

(** ** Two nodes *)

Lemma getLeaseHolder_least deps load now v c :
  h_leaseMode deps ≠ "legacy-self" → (getLeaseHolder deps load now v).2 = Some c →
  ∃ l, l_candidate l = c ∧ least l (considered now STALE_AFTER_MS
    (buildSelfLeaseRow iso (h_selfNode deps) (h_selfLeaseTerm deps) (h_selfEligible deps) (now / 1000) now
       :: (peer_rows iso load now v).2)).
Proof.
  intros Hm. unfold FleetLease.getLeaseHolder. rewrite decide_False by done.
  destruct (peer_rows iso load now v) as [v' rows]. simpl. intros H.
  pose proof (elect_spec (buildSelfLeaseRow iso (h_selfNode deps) (h_selfLeaseTerm deps) (h_selfEligible deps)
    (now / 1000) now :: rows) now STALE_AFTER_MS) as Hs. by rewrite H in Hs.
Qed.

Lemma kept_self deps now term l seq e :
  kept now STALE_AFTER_MS (buildSelfLeaseRow iso (h_selfNode deps) term e seq now) = Some l →
  l_candidate l = h_selfNode deps ∧ l_term l = term.
Proof. unfold FleetLease.kept. simpl. repeat case_match; simpl in *; naive_solver. Qed.

(** [b] is visible to a node with these rows, at [term] or as it was before a restart. *)
Definition sees (now : Z) (rows : list SnapshotRow) (b : string) (term : Z) : Prop :=
  ∃ l, considered now STALE_AFTER_MS rows l ∧ l_candidate l = b ∧ l_term l ≤ term.

(** C23 (safety): two nodes that see each other's eligible and fresh intent,
    possibly an older one with a lower term, never both find that they hold
    the lease, whatever other peers each of them sees and whenever each
    evaluates it, provided that a node's view of its peers does not include
    itself and the legacy mode is off. *)
Theorem no_double_holder depsA loadA nowA vA depsB loadB nowB vB :
  h_leaseMode depsA ≠ "legacy-self" → h_leaseMode depsB ≠ "legacy-self" →
  h_selfNode depsA ≠ h_selfNode depsB →
  (∀ l, considered nowA STALE_AFTER_MS (peer_rows iso loadA nowA vA).2 l → l_candidate l ≠ h_selfNode depsA) →
  (∀ l, considered nowB STALE_AFTER_MS (peer_rows iso loadB nowB vB).2 l → l_candidate l ≠ h_selfNode depsB) →
  sees nowA (peer_rows iso loadA nowA vA).2 (h_selfNode depsB) (h_selfLeaseTerm depsB) →
  sees nowB (peer_rows iso loadB nowB vB).2 (h_selfNode depsA) (h_selfLeaseTerm depsA) →
  ¬ ((getLeaseHolder depsA loadA nowA vA).2 = Some (h_selfNode depsA) ∧
     (getLeaseHolder depsB loadB nowB vB).2 = Some (h_selfNode depsB)).
Proof.
  intros HmA HmB Hne HexA HexB (b&(rb&Hrb&Hkb)&Hcb&Htb) (a&(ra&Hra&Hka)&Hca&Hta) [HA HB].
  apply getLeaseHolder_least in HA as (la&Hla&(rA&HrA&HkA)&HminA); [|done].
  apply getLeaseHolder_least in HB as (lb&Hlb&(rB&HrB&HkB)&HminB); [|done].
  assert (l_term la = h_selfLeaseTerm depsA) as Ha.
  { apply elem_of_cons in HrA as [->|HrA]; [by apply kept_self in HkA as [_ ->]|].
    destruct (HexA la); [by exists rA|done]. }
  assert (l_term lb = h_selfLeaseTerm depsB) as Hb.
  { apply elem_of_cons in HrB as [->|HrB]; [by apply kept_self in HkB as [_ ->]|].
    destruct (HexB lb); [by exists rB|done]. }
  assert (lease_le la b) as HleA by (apply HminA; exists rb; split; [by right|done]).
  assert (lease_le lb a) as HleB by (apply HminB; exists ra; split; [by right|done]).
  unfold lease_le, lease_lt, same_key in *.
  destruct (str_lt_total (h_selfNode depsA) (h_selfNode depsB)) as [Hlt|[?|Hlt]]; [|done|].
  - assert (¬ str_lt (h_selfNode depsB) (h_selfNode depsA)) as Hn.
    { intros Hx. by destruct (str_lt_irrefl _ (str_lt_trans _ _ _ Hlt Hx)). }
    rewrite Hla, Hlb, Hca, Hcb in *. destruct HleB as [[?|[? ?]]|[? ?]]; [|done|congruence].
    destruct HleA as [[?|[? ?]]|[? ?]]; lia.
  - assert (¬ str_lt (h_selfNode depsA) (h_selfNode depsB)) as Hn.
    { intros Hx. by destruct (str_lt_irrefl _ (str_lt_trans _ _ _ Hlt Hx)). }
    rewrite Hla, Hlb, Hca, Hcb in *. destruct HleA as [[?|[? ?]]|[? ?]]; [|done|congruence].
    destruct HleB as [[?|[? ?]]|[? ?]]; lia.
Qed.

(** An eligible node always finds some holder. *)
Lemma eligible_self_never_null deps load now v :
  date_parse (iso now) = Some now → h_selfEligible deps = true →
  (getLeaseHolder deps load now v).2 ≠ None.
Proof.
  intros Hd He. unfold FleetLease.getLeaseHolder. case_decide; [done|].
  destruct (peer_rows iso load now v) as [v' rows]. simpl. intros Hn.
  match type of Hn with FleetLease.electLeaseHolder _ ?rs ?n ?st = _ => pose proof (elect_spec rs n st) as Hs end.
  rewrite Hn in Hs. apply (Hs (mkLease (h_selfNode deps) (h_selfLeaseTerm deps) true (now / 1000))).
  eexists. split; [left|]. unfold FleetLease.kept. simpl. rewrite He, Hd.
  destruct (STALE_AFTER_MS <=? now - now) eqn:E; [|done]. to_prop. unfold STALE_AFTER_MS in E. lia.
Qed.
End election.

(** ** The term *)

Lemma readLeaseIntent_lease_json l : readLeaseIntent (Some (lease_json l)) = Some l.
Proof. by destruct l. Qed.

Lemma bump_result re we f f' t : bumpLeaseTerm re we f = (f', Ok t) → 1 ≤ t ∧ f' = Some (pretty t) ∧ we = None.
Proof.
  unfold bumpLeaseTerm. destruct we; [done|]. intros [= <- <-]. split; [|done].
  repeat case_match; to_prop; lia.
Qed.

(** A start of the supervisor that got its term wrote it so
    that the next start, when the file can be read and written, gets the term
    after it; and the lease published with a term is read back by the peers as
    it is.  So a node that restarted never keeps the lease against a peer with
    the term it had. *)
Theorem restart_raises_term re we f f1 t :
  bumpLeaseTerm re we f = (f1, Ok t) →
  bumpLeaseTerm None None f1 = (Some (pretty (t + 1)), Ok (t + 1)) ∧
  (∀ c e seq, readLeaseIntent (Some (lease_json (mkLease c (t + 1) e seq))) = Some (mkLease c (t + 1) e seq)) ∧
  (∀ c seq c' seq', lease_lt (mkLease c' t true seq') (mkLease c (t + 1) true seq)).
Proof.
  intros (Ht&->&_)%bump_result. split_and!.
  - unfold bumpLeaseTerm. rewrite trim_no_space by (apply pretty_no_space; lia).
    rewrite parseInt_pretty by lia. destruct (0 <=? t) eqn:E; [done|]. to_prop. lia.
  - intros. apply readLeaseIntent_lease_json.
  - intros. left. simpl. lia.
Qed.

(** ** Witnesses *)

Definition row_of (node : string) (term received : Z) : SnapshotRow :=
  mkRow node "t" (pretty received)
    (mkFleetSnapshot "t" node (mkMem 0 0 None) [] (Some (lease_json (mkLease node term true 7))) []).

(** [b] still publishes the term it had before its restart. *)
Lemma no_double_holder_witness :
  let depsA := mkHolderDeps "a" 5 true "derived" in
  let depsB := mkHolderDeps "b" 6 true "derived" in
  let loadA := λ _ : string, Some [row_of "b" 5 950] in
  let loadB := λ _ : string, Some [row_of "a" 5 940] in
  (getLeaseHolder parseInt pretty depsA loadA 1000 new_view).2 = Some "a" ∧
  ¬ ((getLeaseHolder parseInt pretty depsA loadA 1000 new_view).2 = Some "a" ∧
     (getLeaseHolder parseInt pretty depsB loadB 2000 new_view).2 = Some "b").
Proof.
  split; [vm_compute; reflexivity|].
  refine (no_double_holder parseInt pretty (mkHolderDeps "a" 5 true "derived") (λ _, Some [row_of "b" 5 950]) 1000
    new_view (mkHolderDeps "b" 6 true "derived") (λ _, Some [row_of "a" 5 940]) 2000 new_view _ _ _ _ _ _ _);
    [discriminate|discriminate|discriminate| | | |].
  - intros l (row&Hr&Hk). apply list_elem_of_singleton in Hr as ->. vm_compute in Hk. injection Hk as <-. discriminate.
  - intros l (row&Hr&Hk). apply list_elem_of_singleton in Hr as ->. vm_compute in Hk. injection Hk as <-. discriminate.
  - exists (mkLease "b" 5 true 7). split; [exists (row_of "b" 5 950); split; [left|vm_compute; reflexivity]|].
    split; [reflexivity|simpl; lia].
  - exists (mkLease "a" 5 true 7). split; [exists (row_of "a" 5 940); split; [left|vm_compute; reflexivity]|].
    split; [reflexivity|simpl; lia].
Defined.

Lemma restart_raises_term_witness :
  bumpLeaseTerm None None None = (Some "1", Ok 1) ∧ bumpLeaseTerm None None (Some "1") = (Some "2", Ok 2).
Proof.
  assert (bumpLeaseTerm None None None = (Some "1", Ok 1)) as H by (vm_compute; reflexivity).
  split; [exact H|]. exact (proj1 (restart_raises_term _ _ _ _ _ H)).
Defined.
