(* ===== verification/FleetPressure.v ===== *)
(** * Fleet supervisor: pressure and degradation

    packages/fleet-supervisor/src/policy.ts and the parts of loop-helpers.ts
    that turn its verdicts into journal entries: the pressure window with its
    hysteresis, the choice of what to evict, the per-workload health machine,
    and the writer that drops duplicate proposals.  [projectAdmissionHeadroom]
    is in FleetPlacement.v. *)

From S2P Require Import Prelude JsMap JsSort JsText FleetTypes.

#[local] Open Scope string_scope.
#[local] Open Scope list_scope.
#[local] Open Scope Z_scope.

(** ** The window *)

Record PressureThresholds := mkPressureThresholds {
  headroomMinMb : Z; compressorWarnMb : Z; consecutiveTicks : Z; clearTicks : Z
}.

Record PressureWindowEntry := mkWindowEntry {
  node_mem : NodeMemSnapshot; workloads : list WorkloadSnapshot
}.

Record PressureWindow := mkWindow { buf : list PressureWindowEntry; capacity : Z }.

Definition new_window (capacity : Z) : PressureWindow := mkWindow [] capacity.

Definition push (mem : NodeMemSnapshot) (ws : list WorkloadSnapshot) (w : PressureWindow) : PressureWindow :=
  if decide (available mem = Some false) then w
  else
    let buf' := buf w ++ [mkWindowEntry mem ws] in
    mkWindow (if capacity w <? Z.of_nat (length buf') then drop 1 buf' else buf') (capacity w).

(** [slice(-n)]: from [n] before the end, but from [-n] when that is not
    negative. *)
Definition tail (w : PressureWindow) (n : Z) : list PressureWindowEntry :=
  if 0 <? n then drop (length (buf w) - Z.to_nat n) (buf w)
  else drop (Z.to_nat (- n)) (buf w).

Definition isPressureHot (e : PressureWindowEntry) (t : PressureThresholds) : bool :=
  (free_mb (node_mem e) <=? headroomMinMb t) && (compressorWarnMb t <=? compressor_mb (node_mem e)).

(** ** What to evict *)

Section evict.
(** [a.localeCompare(b)]. *)
Context (localeCompare : string → string → Z).

Definition cmp_victim (a b : WorkloadSnapshot) : Z :=
  if negb (w_priority a =? w_priority b) then w_priority a - w_priority b
  else
    let rb := match w_rss_mb b with Some r => r | None => 0 end in
    let ra := match w_rss_mb a with Some r => r | None => 0 end in
    if negb (rb =? ra) then rb - ra else localeCompare (w_name a) (w_name b).

Definition pickEvictionCandidate (ws : list WorkloadSnapshot) : option WorkloadSnapshot :=
  head (js_sort cmp_victim (filter (λ w, w_reachable w = true) ws)).

(** [PressureResult]; its level is always HIGH. *)
Record PressureResult := mkPressure {
  pr_transition : Transition; pr_proposal : option FleetProposalAction
}.

Definition pressure_transition : Transition := mkTransition "node" true Pressure "NORMAL" "HIGH".

Definition detectPressure (w : PressureWindow) (t : PressureThresholds) : option PressureResult :=
  let tl := tail w (consecutiveTicks t) in
  if Z.of_nat (length tl) <? consecutiveTicks t then None
  else if negb (forallb (λ e, isPressureHot e t) tl) then None
  else
    match last tl with
    | None => None
    | Some e =>
        Some (mkPressure pressure_transition
          (match pickEvictionCandidate (workloads e) with
           | None => None
           | Some target => Some (AEvict (w_name target)
               ("sustained memory pressure: " +:+ pretty (consecutiveTicks t) +:+
                " ticks below headroom + above compressor threshold"))
           end))
    end.
End evict.

(** ** Health of a workload *)

Record DegradationThresholds := mkDegradationThresholds {
  consecutiveErrorsForDegraded : Z; p95DegradedMs : Z; consecutiveCompletionErrorsForDegraded : Z
}.

Inductive WorkloadHealthState := healthy | degraded.
#[export] Instance WorkloadHealthState_eq : EqDecision WorkloadHealthState.
Proof. solve_decision. Defined.

Definition health_name (h : WorkloadHealthState) : string :=
  match h with healthy => "healthy" | degraded => "degraded" end.

Record DegradationResult := mkDegradation {
  dr_to : WorkloadHealthState; dr_transition : Transition; dr_proposal : option FleetProposalAction
}.

Definition completionFailures (w : WorkloadSnapshot) : Z :=
  match w_completionProbe w with Some p => cp_consecutiveFailures p | None => 0 end.
Definition completionWedged (w : WorkloadSnapshot) (t : DegradationThresholds) : bool :=
  consecutiveCompletionErrorsForDegraded t <=? completionFailures w.
Definition slow (w : WorkloadSnapshot) (t : DegradationThresholds) : bool :=
  match w_p95_ms w with Some p => p95DegradedMs t <? p | None => false end.
Definition unhealthy (w : WorkloadSnapshot) (t : DegradationThresholds) : bool :=
  (consecutiveErrorsForDegraded t <=? w_consecutiveErrors w) || slow w t || completionWedged w t.
Definition recovered (w : WorkloadSnapshot) (t : DegradationThresholds) : bool :=
  w_reachable w && (w_consecutiveErrors w =? 0) &&
  (match w_p95_ms w with Some p => p <=? p95DegradedMs t | None => true end) &&
  negb (completionWedged w t).

Definition restart_reason (w : WorkloadSnapshot) (t : DegradationThresholds) : string :=
  if completionWedged w t then
    "completion probe failed " +:+ pretty (completionFailures w) +:+ "× despite /health 200 (last status " +:+
    (match w_completionProbe w with
     | Some p => match cp_status p with Some st => pretty st | None => "none" end
     | None => "none"
     end) +:+ ")"
  else if consecutiveErrorsForDegraded t <=? w_consecutiveErrors w then
    "consecutive errors " +:+ pretty (w_consecutiveErrors w) +:+ " ≥ " +:+ pretty (consecutiveErrorsForDegraded t)
  else
    "p95 " +:+ (match w_p95_ms w with Some p => pretty p | None => "null" end) +:+ "ms > " +:+
    pretty (p95DegradedMs t) +:+ "ms".

Definition detectDegradation (w : WorkloadSnapshot) (prior : WorkloadHealthState) (t : DegradationThresholds)
    : option DegradationResult :=
  if unhealthy w t && bool_decide (prior ≠ degraded) then
    Some (mkDegradation degraded
      (mkTransition (w_name w) false Degraded (health_name prior) "degraded")
      (Some (ARestart (w_name w) (restart_reason w t))))
  else if recovered w t && bool_decide (prior = degraded) then
    Some (mkDegradation healthy (mkTransition (w_name w) false Degraded "degraded" "healthy") None)
  else None.

(** ** Journalling the verdicts *)

Record PressureTransitionResult := mkPressureState {
  pressureDetected : bool; lastPressureLevel : PressureState; consecutiveClearTicks : Z;
  enteredHighAt : option string; ticksInHigh : Z
}.

Definition initial_pressure : PressureTransitionResult := mkPressureState false NORMAL 0 None 0.

Section journalling.
Context {S : Type} (writeJournalEntry : FleetJournalEntry → eff S unit).
Context (localeCompare : string → string → Z) (date_parse : string → option Z).

Definition status_entry (ts node enteredAt : string) (durationMs : option Z) (clear : Z)
    (mem : NodeMemSnapshot) (t : PressureThresholds) : FleetJournalEntry :=
  JPressureStatus (mkStatus ts node HIGH enteredAt durationMs clear (clearTicks t)
    (free_mb mem) (compressor_mb mem)
    (free_mb mem <=? headroomMinMb t) (compressorWarnMb t <=? compressor_mb mem)).

Definition applyPressureTransition (ts node : string) (mem : NodeMemSnapshot)
    (pressure : option PressureResult) (w : PressureWindow) (state : PressureTransitionResult)
    (t : PressureThresholds) : eff S PressureTransitionResult :=
  let detected := match pressure with Some _ => true | None => false end in
  match pressure, lastPressureLevel state with
  | Some p, NORMAL =>
      _ ← writeJournalEntry (JTransition ts node pressure_transition);
      _ ← (match pr_proposal p with
           | Some action =>
               writeJournalEntry (JProposal (mkProposal ts node ("pressure-" +:+ node +:+ "-" +:+ ts)
                 (pr_transition p) action None))
           | None => mret tt
           end);
      _ ← writeJournalEntry (status_entry ts node ts (Some 0) 0 mem t);
      mret (mkPressureState detected HIGH 0 (Some ts) 0)
  | _, HIGH =>
      let hot := match head (tail w 1) with Some e => isPressureHot e t | None => false end in
      if (hot : bool)
      then mret (mkPressureState detected HIGH 0 (enteredHighAt state) (ticksInHigh state + 1))
      else
        let clear := consecutiveClearTicks state + 1 in
        if clearTicks t <=? clear then
          _ ← writeJournalEntry (JTransition ts node (mkTransition "node" true PressureCleared "HIGH" "NORMAL"));
          mret (mkPressureState detected NORMAL 0 None 0)
        else mret (mkPressureState detected HIGH clear (enteredHighAt state) (ticksInHigh state + 1))
  | None, NORMAL =>
      mret (mkPressureState detected NORMAL (consecutiveClearTicks state) (enteredHighAt state) (ticksInHigh state))
  end.

Definition emitPeriodicPressureStatus (ts node : string) (mem : NodeMemSnapshot)
    (state : PressureTransitionResult) (t : PressureThresholds) (everyTicks : Z) : eff S unit :=
  if decide (lastPressureLevel state = HIGH ∧ 0 < everyTicks ∧ 0 < ticksInHigh state ∧
             ticksInHigh state mod everyTicks = 0)
  then
    match enteredHighAt state with
    | None => mret tt
    | Some entered =>
        let duration := match date_parse ts, date_parse entered with
                        | Some a, Some b => Some (a - b) | _, _ => None end in
        writeJournalEntry (status_entry ts node entered duration (consecutiveClearTicks state) mem t)
    end
  else mret tt.

(** The pressure part of [runTick]. *)
Definition pressure_tick (ts node : string) (mem : NodeMemSnapshot) (ws : list WorkloadSnapshot)
    (t : PressureThresholds) (everyTicks : Z) (w : PressureWindow) (state : PressureTransitionResult)
    : eff S (PressureWindow * PressureTransitionResult) :=
  let w' := push mem ws w in
  let pressure := detectPressure localeCompare w' t in
  updated ← applyPressureTransition ts node mem pressure w' state t;
  _ ← emitPeriodicPressureStatus ts node mem updated t everyTicks;
  mret (w', updated).

(** The health map after each workload, also when a write throws. *)
Fixpoint applyWorkloadDegradation (ts node : string) (ws : list WorkloadSnapshot) (t : DegradationThresholds)
    (health : jsmap string WorkloadHealthState) : S → S * (jsmap string WorkloadHealthState * result unit) :=
  match ws with
  | [] => λ s, (s, (health, Ok tt))
  | w :: rest =>
      let prior := match jm_get health (w_name w) with Some h => h | None => healthy end in
      match detectDegradation w prior t with
      | None => applyWorkloadDegradation ts node rest t health
      | Some r => λ s,
          let writes :=
            _ ← writeJournalEntry (JTransition ts node (dr_transition r));
            match dr_proposal r with
            | Some action =>
                writeJournalEntry (JProposal (mkProposal ts node
                  ("degradation-" +:+ w_name w +:+ "-" +:+ ts) (dr_transition r) action None))
            | None => mret tt
            end in
          match writes s with
          | (s', Err e) => (s', (health, Err e))
          | (s', Ok _) => applyWorkloadDegradation ts node rest t (jm_set health (w_name w) (dr_to r)) s'
          end
      end
  end.
End journalling.

(** ** Dropping duplicate proposals *)

Definition DEDUP_WINDOW_MAX : Z := 256.

Record BoundedIdSet := mkIdSet { ids : list string; ring : list string }.
Definition new_id_set : BoundedIdSet := mkIdSet [] [].

Definition id_set_has (id : string) (s : BoundedIdSet) : bool := bool_decide (id ∈ ids s).

Definition id_set_add (id : string) (s : BoundedIdSet) : BoundedIdSet :=
  if id_set_has id s then s
  else
    let ring' := ring s ++ [id] in
    let ids' := ids s ++ [id] in
    if DEDUP_WINDOW_MAX <? Z.of_nat (length ring') then
      match ring' with
      | evicted :: rest => mkIdSet (filter (λ x, x ≠ evicted) ids') rest
      | [] => mkIdSet ids' ring'
      end
    else mkIdSet ids' ring'.

(** [makeDedupJournalWriter]: the set beside the state of the inner writer. *)
Definition dedup_write {S : Type} (inner : FleetJournalEntry → eff S unit) (entry : FleetJournalEntry)
    : eff (BoundedIdSet * S) unit := λ '(seen, s),
  match entry with
  | JProposal p =>
      if id_set_has (p_proposalId p) seen then ((seen, s), Ok tt)
      else let '(s', r) := inner entry s in ((id_set_add (p_proposalId p) seen, s'), r)
  | _ => let '(s', r) := inner entry s in ((seen, s'), r)
  end.
