(* ===== verification/FleetPressureProps.v ===== *)
(** * Fleet supervisor: theorems about pressure and degradation

    FleetPressure.v against what it is meant to decide: the hysteresis as a
    function of the whole history of readings, the eviction candidate as the
    least of an order, the health machine's journal, and the deduplicating
    writer as a memory of the latest proposals. *)

From S2P Require Import Prelude JsMap JsSort JsText FleetTypes FleetPressure.

#[local] Open Scope string_scope.
#[local] Open Scope list_scope.
#[local] Open Scope Z_scope.

(** A journal that takes everything. *)
Definition log (e : FleetJournalEntry) : eff (list FleetJournalEntry) unit := λ l, (l ++ [e], Ok tt).

Lemma log_bind {B} e (f : unit → eff (list FleetJournalEntry) B) l : (log e ≫= f) l = f tt (l ++ [e]).
Proof. done. Qed.

(** ** Hysteresis *)

Record Reading := mkReading { rd_ts : string; rd_mem : NodeMemSnapshot; rd_workloads : list WorkloadSnapshot }.

(** The code, over the readings of the ticks. *)
Fixpoint run_pressure (lc : string → string → Z) (dp : string → option Z) (node : string)
    (t : PressureThresholds) (every : Z) (rs : list Reading) (w : PressureWindow) (st : PressureTransitionResult)
    : eff (list FleetJournalEntry) (PressureWindow * PressureTransitionResult) :=
  match rs with
  | [] => mret (w, st)
  | r :: rest =>
      '(w', st') ← pressure_tick log lc dp (rd_ts r) node (rd_mem r) (rd_workloads r) t every w st;
      run_pressure lc dp node t every rest w' st'
  end.

Section spec.
Context (t : PressureThresholds).

(** The past is given latest reading first.  Whether each usable one was hot. *)
Fixpoint usable (past : list Reading) : list bool :=
  match past with
  | [] => []
  | r :: older =>
      if decide (available (rd_mem r) = Some false) then usable older
      else isPressureHot (mkWindowEntry (rd_mem r) (rd_workloads r)) t :: usable older
  end.

(** The latest usable reading was not hot. *)
Definition calm (past : list Reading) : bool :=
  match usable past with h :: _ => negb h | [] => true end.

(** For how many ticks it has been so. *)
Fixpoint calm_ticks (past : list Reading) : Z :=
  match past with
  | [] => 0
  | r :: older => if calm past then 1 + calm_ticks older else 0
  end.

Definition sustained (past : list Reading) : bool :=
  let k := consecutiveTicks t in
  (0 <? k) && (k <=? Z.of_nat (length (usable past))) && forallb id (take (Z.to_nat k) (usable past)).

(** Pressure begins when the last [consecutiveTicks] usable readings were hot,
    and ends when the latest usable reading has not been hot for [clearTicks]
    ticks (at least one). *)
Fixpoint spec_level (past : list Reading) : PressureState :=
  match past with
  | [] => NORMAL
  | r :: older =>
      match spec_level older with
      | NORMAL => if sustained past then HIGH else NORMAL
      | HIGH => if Z.max 1 (clearTicks t) <=? calm_ticks past then NORMAL else HIGH
      end
  end.

(** The changes of level, with their times, in order. *)
Fixpoint spec_changes (past : list Reading) : list (string * PressureState) :=
  match past with
  | [] => []
  | r :: older =>
      spec_changes older ++
      (if decide (spec_level past = spec_level older) then [] else [(rd_ts r, spec_level past)])
  end.

(** The changes a journal reports. *)
Definition change_of (e : FleetJournalEntry) : option (string * PressureState) :=
  match e with
  | JTransition ts _ tr =>
      match t_signal tr with
      | Pressure => Some (ts, HIGH)
      | PressureCleared => Some (ts, NORMAL)
      | _ => None
      end
  | _ => None
  end.
Definition changes_in (l : list FleetJournalEntry) : list (string * PressureState) := omap change_of l.

Definition hots (w : PressureWindow) : list bool := (λ e, isPressureHot e t) <$> buf w.

(** What the window and the counters remember of the past. *)
Record remembers (past : list Reading) (w : PressureWindow) (st : PressureTransitionResult) : Prop := {
  rem_capacity : capacity w = consecutiveTicks t;
  rem_window : hots w = reverse (take (Z.to_nat (consecutiveTicks t)) (usable past));
  rem_level : lastPressureLevel st = spec_level past;
  rem_clear : spec_level past = HIGH → 0 < consecutiveTicks t ∧ consecutiveClearTicks st = calm_ticks past
}.

Lemma hots_length w : length (hots w) = length (buf w).
Proof. apply length_fmap. Qed.

Lemma push_remembers past w r :
  capacity w = consecutiveTicks t → hots w = reverse (take (Z.to_nat (consecutiveTicks t)) (usable past)) →
  let w' := push (rd_mem r) (rd_workloads r) w in
  capacity w' = consecutiveTicks t ∧
  hots w' = reverse (take (Z.to_nat (consecutiveTicks t)) (usable (r :: past))).
Proof.
  intros Hc Hw. unfold push. simpl. case_decide; [done|]. simpl. split; [done|].
  set (h := isPressureHot _ t). unfold hots in *. simpl.
  assert (∀ b : list PressureWindowEntry, Z.of_nat (length b) = Z.of_nat (length ((λ e, isPressureHot e t) <$> b))) as Hlen
    by (intros; by rewrite length_fmap).
  rewrite Hlen, fmap_app, Hw, Hc. simpl. fold h.
  set (k := consecutiveTicks t). set (u := usable past).
  assert (reverse (take (Z.to_nat k) u) ++ [h] = reverse (h :: take (Z.to_nat k) u)) as Hrev by (by rewrite reverse_cons).
  rewrite Hrev, length_reverse. simpl.
  destruct (k <? _) eqn:E; to_prop.
  - rewrite fmap_drop, fmap_app, Hw. simpl. fold h. fold k u. rewrite Hrev, drop_reverse. f_equal. simpl.
    rewrite Nat.sub_0_r. rewrite length_take in *.
    destruct (Z.to_nat k) as [|n] eqn:Ek; [done|].
    replace (Nat.min (S n) (length u)) with (S n) by lia. cbn [take]. f_equal.
    rewrite take_take. f_equal. lia.
  - rewrite fmap_app, Hw. simpl. fold h. fold k u. rewrite Hrev. f_equal. rewrite length_take in E.
    destruct (Z.to_nat k) as [|n] eqn:Ek; [lia|]. simpl. f_equal.
    rewrite !firstn_all2 by lia. done.
Qed.

Lemma forallb_reverse (l : list bool) : forallb id (reverse l) = forallb id l.
Proof.
  induction l as [|b l IH]; [done|]. rewrite reverse_cons, forallb_app, IH. simpl. by destruct b, (forallb id l).
Qed.

Lemma forallb_hots w : forallb (λ e, isPressureHot e t) (buf w) = forallb id (hots w).
Proof. unfold hots. induction (buf w) as [|e l IH]; [done|]. simpl. by rewrite IH. Qed.

Lemma detect_sustained lc past w :
  hots w = reverse (take (Z.to_nat (consecutiveTicks t)) (usable past)) →
  match detectPressure lc w t with Some _ => true | None => false end = sustained past.
Proof.
  intros Hw. unfold detectPressure, sustained, tail. set (k := consecutiveTicks t) in *.
  assert (length (buf w) = Nat.min (Z.to_nat k) (length (usable past))) as Hlen.
  { by rewrite <-hots_length, Hw, length_reverse, length_take. }
  destruct (0 <? k) eqn:Ek; to_prop.
  - replace (drop _ (buf w)) with (buf w) by (replace (length (buf w) - Z.to_nat k)%nat with 0%nat by lia; done).
    rewrite forallb_hots, Hw, forallb_reverse.
    destruct (Z.of_nat (length (buf w)) <? k) eqn:Eb, (k <=? Z.of_nat (length (usable past))) eqn:Eu; to_prop; try lia; try done.
    simpl. destruct (forallb _ _); [|done]. simpl. destruct (last (buf w)) eqn:El; [done|].
    apply last_None in El. rewrite El in *. simpl in *. lia.
  - assert (buf w = []) as ->.
    { apply nil_length_inv. lia. }
    rewrite drop_nil. simpl. by destruct (Z.of_nat 0 <? k).
Qed.

Lemma latest_hot past w :
  0 < consecutiveTicks t → hots w = reverse (take (Z.to_nat (consecutiveTicks t)) (usable past)) →
  match head (tail w 1) with Some e => isPressureHot e t | None => false end = negb (calm past).
Proof.
  intros Hk Hw. unfold tail, calm. simpl.
  assert (∀ l : list PressureWindowEntry, head (drop (length l - Z.to_nat 1) l) = last l) as Hlast.
  { intros l. destruct l as [|x l _] using rev_ind; [done|].
    rewrite last_snoc, length_app, drop_app_length' by (simpl; lia). done. }
  rewrite Hlast.
  assert (match last (buf w) with Some e => isPressureHot e t | None => false end =
          match last (hots w) with Some b => b | None => false end) as ->.
  { unfold hots. rewrite fmap_last. by destruct (last (buf w)). }
  rewrite Hw, last_reverse. destruct (Z.to_nat (consecutiveTicks t)) eqn:E; [lia|].
  destruct (usable past); simpl; [done|]. by rewrite negb_involutive.
Qed.

Lemma changes_app l k : changes_in (l ++ k) = changes_in l ++ changes_in k.
Proof. apply omap_app. Qed.

(** The window only matters through what it says of the past: with [sustained]
    the latest reading is hot, so the count of calm ticks starts from zero. *)
Lemma sustained_not_calm past : sustained past = true → calm_ticks past = 0 ∧ 0 < consecutiveTicks t.
Proof.
  unfold sustained. intros H. to_prop. split; [|done].
  assert (calm past = false) as Hc.
  { unfold calm. destruct (Z.to_nat (consecutiveTicks t)) eqn:E; [lia|].
    destruct (usable past) as [|b u]; simpl in *; [lia|]. to_prop. unfold id in *. by subst b. }
  destruct past; [done|]. simpl. by rewrite Hc.
Qed.

Lemma emit_log dp ts node mem st every l :
  ∃ es, emitPeriodicPressureStatus log dp ts node mem st t every l = (l ++ es, Ok tt) ∧ changes_in es = [].
Proof.
  unfold emitPeriodicPressureStatus. case_decide; [|by exists []; rewrite app_nil_r].
  destruct (enteredHighAt st); [|by exists []; rewrite app_nil_r]. by eexists [_].
Qed.

(** One tick. *)
Lemma tick_remembers lc dp node every past r w st l :
  remembers past w st →
  ∃ w' st' es,
    pressure_tick log lc dp (rd_ts r) node (rd_mem r) (rd_workloads r) t every w st l = (l ++ es, Ok (w', st')) ∧
    remembers (r :: past) w' st' ∧
    changes_in es = if decide (spec_level (r :: past) = spec_level past) then []
                    else [(rd_ts r, spec_level (r :: past))].
Proof.
  intros [Hc Hw Hl Hcl]. destruct (push_remembers past w r Hc Hw) as [Hc' Hw'].
  unfold pressure_tick. set (w' := push _ _ w) in *.
  pose proof (detect_sustained lc (r :: past) w' Hw') as Hd.
  assert (∃ st' es, applyPressureTransition log (rd_ts r) node (rd_mem r) (detectPressure lc w' t) w' st t l
      = (l ++ es, Ok st') ∧ lastPressureLevel st' = spec_level (r :: past) ∧
      (spec_level (r :: past) = HIGH → 0 < consecutiveTicks t ∧ consecutiveClearTicks st' = calm_ticks (r :: past)) ∧
      changes_in es = if decide (spec_level (r :: past) = spec_level past) then []
                      else [(rd_ts r, spec_level (r :: past))]) as (st'&es&Ha&Hl'&Hcl'&Hch).
  { unfold applyPressureTransition. rewrite Hl. cbn [spec_level]. destruct (spec_level past) eqn:Hlev.
    - destruct (detectPressure lc w' t) as [p|]; rewrite <-Hd.
      + destruct (sustained_not_calm (r :: past) (eq_sym Hd)) as [Hz Hk].
        assert (changes_in [JTransition (rd_ts r) node pressure_transition] = [(rd_ts r, HIGH)]) as Hch by done.
        set (status := status_entry (rd_ts r) node (rd_ts r) (Some 0) 0 (rd_mem r) t).
        set (st' := mkPressureState true HIGH 0 (Some (rd_ts r)) 0).
        destruct (pr_proposal p) as [a|].
        * set (prop := JProposal _). exists st', [JTransition (rd_ts r) node pressure_transition; prop; status].
          split; [|by split_and!].
          transitivity (((l ++ [JTransition (rd_ts r) node pressure_transition]) ++ [prop]) ++ [status],
            Ok st'); [done|by rewrite <-!app_assoc].
        * exists st', [JTransition (rd_ts r) node pressure_transition; status]. split; [|by split_and!].
          transitivity ((l ++ [JTransition (rd_ts r) node pressure_transition]) ++ [status],
            Ok st'); [done|by rewrite <-!app_assoc].
      + eexists _, []. rewrite app_nil_r. by split_and!.
    - destruct (Hcl eq_refl) as [Hk Hcnt]. rewrite (latest_hot (r :: past)) by done.
      cbn [calm_ticks]. destruct (calm (r :: past)); simpl.
      + assert (0 ≤ calm_ticks past) as Hnn.
        { clear. induction past as [|x p IH]; [done|]. cbn [calm_ticks]. destruct (calm _); lia. }
        rewrite Hcnt. replace (clearTicks t <=? calm_ticks past + 1) with (Z.max 1 (clearTicks t) <=? 1 + calm_ticks past).
        2: { apply Bool.eq_iff_eq_true. rewrite !Z.leb_le. lia. }
        destruct (_ <=? _); destruct (detectPressure lc w' t); simpl; eexists _, _;
          (split; [try (rewrite app_nil_r; done); done|]); simpl; split_and!; try done; intros; split; try done; lia.
      + replace (Z.max 1 (clearTicks t) <=? 0) with false by (symmetry; apply Z.leb_gt; lia).
        destruct (detectPressure lc w' t); eexists _, []; rewrite app_nil_r; by split_and!. }
  rewrite eff_bind_eq, Ha. rewrite eff_bind_eq.
  destruct (emit_log dp (rd_ts r) node (rd_mem r) st' every (l ++ es)) as (es2&->&Hes2).
  exists w', st', (es ++ es2). split_and!; [by rewrite app_assoc|by split|].
  by rewrite changes_app, Hes2, app_nil_r.
Qed.

Lemma run_remembers lc dp node every rs past w st l :
  remembers past w st →
  ∃ w' st' es, run_pressure lc dp node t every rs w st l = (l ++ es, Ok (w', st')) ∧
    remembers (reverse rs ++ past) w' st' ∧ spec_changes (reverse rs ++ past) = spec_changes past ++ changes_in es.
Proof.
  revert past w st l. induction rs as [|r rs IH]; intros past w st l Hr; simpl.
  - exists w, st, []. by rewrite !app_nil_r.
  - destruct (tick_remembers lc dp node every past r w st l Hr) as (w1&st1&es1&Htick&Hr1&Hch1).
    destruct (IH (r :: past) w1 st1 (l ++ es1) Hr1) as (w2&st2&es2&Hrun&Hr2&Hch2).
    exists w2, st2, (es1 ++ es2). rewrite reverse_cons, <-app_assoc. simpl. split_and!; [|done|].
    + rewrite eff_bind_eq, Htick. by rewrite Hrun, app_assoc.
    + rewrite Hch2, changes_app, Hch1. cbn [spec_changes]. by rewrite <-app_assoc.
Qed.
End spec.

(** The bounded window, the level and the counters of clear
    ticks implement the hysteresis as a function of the whole history of
    readings: pressure begins at a reading that is the last of
    [consecutiveTicks] hot ones among the usable readings, it ends once the
    latest usable reading has not been hot for [clearTicks] ticks, and the
    journal reports exactly these changes, at their times and in order. *)
Theorem pressure_hysteresis lc dp node t every rs :
  ∃ w st journal,
    run_pressure lc dp node t every rs (new_window (consecutiveTicks t)) initial_pressure [] = (journal, Ok (w, st)) ∧
    lastPressureLevel st = spec_level t (reverse rs) ∧
    changes_in journal = spec_changes t (reverse rs).
Proof.
  assert (remembers t [] (new_window (consecutiveTicks t)) initial_pressure) as Hr.
  { split; [done| |done|done]. unfold hots. simpl. by rewrite take_nil. }
  destruct (run_remembers t lc dp node every rs [] _ _ [] Hr) as (w&st&es&Hrun&[_ _ Hl _]&Hch).
  rewrite app_nil_r in *. exists w, st, es. by split_and!.
Qed.

(** ** What is evicted *)

Section evict.
Context (lc : string → string → Z) (Hlc : cmp_ok lc (λ _, True)).

Definition rss (w : WorkloadSnapshot) : Z := match w_rss_mb w with Some r => r | None => 0 end.

(** Least priority, then most memory, then first name. *)
Definition victim_le (a b : WorkloadSnapshot) : Prop :=
  w_priority a < w_priority b ∨ w_priority a = w_priority b ∧
  (rss b < rss a ∨ rss a = rss b ∧ lc (w_name a) (w_name b) ≤ 0).

Lemma cmp_victim_le a b : cmp_le (cmp_victim lc) a b ↔ victim_le a b.
Proof.
  unfold cmp_le, cmp_victim, victim_le. fold (rss a) (rss b).
  destruct (w_priority a =? w_priority b) eqn:Ep; simpl; to_prop; [|lia].
  destruct (rss b =? rss a) eqn:Er; simpl; to_prop; lia.
Qed.

Lemma cmp_ok_victim : cmp_ok (cmp_victim lc) (λ _, True).
Proof.
  split.
  - intros a b _ _. rewrite !cmp_victim_le. unfold victim_le.
    pose proof (cmp_total _ _ Hlc (w_name a) (w_name b) I I) as H. unfold cmp_le in H. lia.
  - intros a b c _ _ _. rewrite !cmp_victim_le. unfold victim_le.
    pose proof (cmp_trans _ _ Hlc (w_name a) (w_name b) (w_name c) I I I) as H. unfold cmp_le in H. lia.
Qed.

Lemma pickEvictionCandidate_least ws :
  match pickEvictionCandidate lc ws with
  | None => ∀ w, w ∈ ws → w_reachable w = false
  | Some v => v ∈ ws ∧ w_reachable v = true ∧ ∀ w, w ∈ ws → w_reachable w = true → w = v ∨ victim_le v w
  end.
Proof.
  unfold pickEvictionCandidate. destruct (js_sort _ _) as [|v k] eqn:E; simpl.
  - intros w Hw. apply not_true_iff_false. intros Hr.
    assert (w ∈ js_sort (cmp_victim lc) (filter (λ w, w_reachable w = true) ws)) as Hin.
    { rewrite elem_of_js_sort. by apply list_elem_of_filter. }
    rewrite E in Hin. by apply not_elem_of_nil in Hin.
  - assert (v ∈ filter (λ w, w_reachable w = true) ws) as Hv.
    { rewrite <-(elem_of_js_sort (cmp_victim lc)), E. left. }
    apply list_elem_of_filter in Hv as [Hr Hv]. split_and!; [done..|]. intros w Hw Hwr. rewrite <-cmp_victim_le.
    eapply (js_sort_head (cmp_victim lc) (λ _, True)); [apply cmp_ok_victim|by apply Forall_true|exact E|].
    by apply list_elem_of_filter.
Qed.
End evict.

(** ** Health *)

(** The code over ticks, each with its time and its workloads. *)
Fixpoint run_degradation (node : string) (t : DegradationThresholds) (ticks : list (string * list WorkloadSnapshot))
    (health : jsmap string WorkloadHealthState) (l : list FleetJournalEntry)
    : list FleetJournalEntry * jsmap string WorkloadHealthState :=
  match ticks with
  | [] => (l, health)
  | (ts, ws) :: rest =>
      let '(l', (health', _)) := applyWorkloadDegradation log ts node ws t health l in
      run_degradation node t rest health' l'
  end.

Inductive HealthEvent := Flip (from to : string) | Restart.

(** What the journal says about workload [w]. *)
Definition health_event (w : string) (e : FleetJournalEntry) : option HealthEvent :=
  match e with
  | JTransition _ _ tr =>
      if decide (t_signal tr = Degraded ∧ t_subject tr = w) then Some (Flip (t_from tr) (t_to tr)) else None
  | JProposal p =>
      match p_action p with
      | ARestart w' _ => if decide (w' = w) then Some Restart else None
      | _ => None
      end
  | _ => None
  end.
Definition health_events (w : string) (l : list FleetJournalEntry) : list HealthEvent := omap (health_event w) l.

(** The language of these events: turns between healthy and degraded, each
    turn to degraded followed at once by a restart proposal, none elsewhere.
    The state is the health and whether the proposal is still to come. *)
Definition health_step (st : option (WorkloadHealthState * bool)) (ev : HealthEvent)
    : option (WorkloadHealthState * bool) :=
  match st, ev with
  | Some (healthy, false), Flip "healthy" "degraded" => Some (degraded, true)
  | Some (degraded, true), Restart => Some (degraded, false)
  | Some (degraded, false), Flip "degraded" "healthy" => Some (healthy, false)
  | _, _ => None
  end.
Definition health_word (st : option (WorkloadHealthState * bool)) (l : list HealthEvent)
    : option (WorkloadHealthState * bool) := foldl health_step st l.

Definition health_of (m : jsmap string WorkloadHealthState) (w : string) : WorkloadHealthState :=
  match jm_get m w with Some h => h | None => healthy end.

Lemma health_events_app w l k : health_events w (l ++ k) = health_events w l ++ health_events w k.
Proof. apply omap_app. Qed.

(** One workload of one tick, as the journal and the map see it. *)
Lemma degradation_step node ts w t h r l : detectDegradation w h t = Some r →
  ∃ es, (_ ← log (JTransition ts node (dr_transition r));
         match dr_proposal r with
         | Some action => log (JProposal (mkProposal ts node ("degradation-" +:+ w_name w +:+ "-" +:+ ts)
                            (dr_transition r) action None))
         | None => mret tt
         end) l = (l ++ es, Ok tt) ∧
    (∀ x, x ≠ w_name w → health_events x es = []) ∧
    health_word (Some (h, false)) (health_events (w_name w) es) = Some (dr_to r, false).
Proof.
  unfold detectDegradation. destruct (unhealthy w t && _) eqn:Eu.
  - intros [= <-]. to_prop. destruct h; [|done]. simpl. rewrite log_bind. unfold log.
    eexists. split; [by rewrite <-app_assoc|]. unfold health_events. simpl.
    rewrite !decide_True by done. split; [|done]. intros x Hx. rewrite !decide_False by naive_solver. done.
  - destruct (recovered w t && _) eqn:Er; [|done]. intros [= <-]. to_prop. subst h. simpl. rewrite log_bind.
    eexists. split; [done|]. unfold health_events. simpl. rewrite decide_True by done. split; [|done].
    intros x Hx. by rewrite decide_False by naive_solver.
Qed.

Lemma applyWorkloadDegradation_log node ts t ws m l :
  ∃ es m', applyWorkloadDegradation log ts node ws t m l = (l ++ es, (m', Ok tt)) ∧
    ∀ x, health_word (Some (health_of m x, false)) (health_events x es) = Some (health_of m' x, false).
Proof.
  revert m l. induction ws as [|w ws IH]; intros m l; simpl.
  - exists [], m. by rewrite app_nil_r.
  - fold (health_of m (w_name w)).
    destruct (detectDegradation w (health_of m (w_name w)) t) as [r|] eqn:Ed; [|apply IH].
    destruct (degradation_step node ts w t _ r l Ed) as (es1&->&Hother&Hw).
    destruct (IH (jm_set m (w_name w) (dr_to r)) (l ++ es1)) as (es2&m'&->&Hrest).
    exists (es1 ++ es2), m'. rewrite app_assoc. split; [done|]. intros x.
    specialize (Hrest x). unfold health_word in *. rewrite health_events_app, foldl_app.
    unfold health_of at 1 in Hrest. rewrite jm_get_set in Hrest. case_decide as Hx.
    + subst x. by rewrite Hw.
    + by rewrite Hother.
Qed.

(** Over any ticks, what the journal says about a workload is a
    sequence of turns from healthy to degraded and back; a restart is
    proposed right after each turn to degraded and never otherwise, so a
    workload that stays degraded is not proposed again; and the health map
    always agrees with the last turn. *)
Theorem restart_once_per_flip node t ticks w :
  let '(journal, health) := run_degradation node t ticks [] [] in
  health_word (Some (healthy, false)) (health_events w journal) = Some (health_of health w, false).
Proof.
  assert (∀ m l, let '(l', m') := run_degradation node t ticks m l in
    ∃ es, l' = l ++ es ∧ health_word (Some (health_of m w, false)) (health_events w es) = Some (health_of m' w, false)) as H.
  { induction ticks as [|[ts ws] ticks IH]; intros m l; simpl; [exists []; by rewrite app_nil_r|].
    destruct (applyWorkloadDegradation_log node ts t ws m l) as (es1&m1&->&H1).
    specialize (IH m1 (l ++ es1)). destruct (run_degradation node t ticks m1 (l ++ es1)) as [l' m'].
    destruct IH as (es2&->&H2). exists (es1 ++ es2). rewrite app_assoc. split; [done|].
    unfold health_word in *. by rewrite health_events_app, foldl_app, H1. }
  specialize (H [] []). destruct (run_degradation node t ticks [] []) as [l m]. by destruct H as (es&->&H).
Qed.

(** ** Duplicate proposals *)

(** What a memory of the latest 256 proposals lets through; [recent] holds the
    ids that went through, latest first. *)
Fixpoint deduped (recent : list string) (es : list FleetJournalEntry) : list FleetJournalEntry :=
  match es with
  | [] => []
  | JProposal p :: rest =>
      if decide (p_proposalId p ∈ take (Z.to_nat DEDUP_WINDOW_MAX) recent) then deduped recent rest
      else JProposal p :: deduped (p_proposalId p :: recent) rest
  | e :: rest => e :: deduped recent rest
  end.

Definition write_all {S} (write : FleetJournalEntry → eff S unit) (es : list FleetJournalEntry) (s : S) : S :=
  foldl (λ s e, (write e s).1) s es.

Record id_set_ok (recent : list string) (s : BoundedIdSet) : Prop := {
  ring_recent : reverse (ring s) = take (Z.to_nat DEDUP_WINDOW_MAX) recent;
  ring_NoDup : NoDup (ring s);
  ids_ring : ids s = ring s
}.

Lemma id_set_has_spec recent s id : id_set_ok recent s →
  id_set_has id s = bool_decide (id ∈ take (Z.to_nat DEDUP_WINDOW_MAX) recent).
Proof.
  intros [Hr _ Hi]. unfold id_set_has. apply bool_decide_ext. by rewrite <-Hr, elem_of_reverse, Hi.
Qed.

Lemma filter_ne_notin (x : string) (l : list string) : x ∉ l → filter (λ y, y ≠ x) l = l.
Proof. intros Hx. apply list_filter_all. intros y Hy ->. done. Qed.

Lemma id_set_add_ok recent s id : id_set_ok recent s → id_set_has id s = false →
  id_set_ok (id :: recent) (id_set_add id s).
Proof.
  intros Hok Hh. pose proof Hok as [Hr Hn Hi]. unfold id_set_add. rewrite Hh.
  unfold id_set_has in Hh. to_prop. rewrite Hi in *. change (Z.to_nat DEDUP_WINDOW_MAX) with 256%nat in *.
  assert (length (ring s) ≤ 256)%nat as Hlen.
  { rewrite <-length_reverse, Hr, length_take. lia. }
  assert (NoDup (ring s ++ [id])) as Hn'.
  { apply NoDup_app. split_and!; [done| |apply NoDup_singleton]. intros x Hx ->%list_elem_of_singleton. done. }
  unfold DEDUP_WINDOW_MAX. rewrite length_app. simpl. destruct (256 <? _) eqn:E; to_prop.
  - destruct (ring s) as [|x l] eqn:Er; [simpl in *; lia|]. simpl in *. apply NoDup_cons in Hn' as [Hx Hn'].
    split; simpl; [|done|].
    + rewrite reverse_app. simpl. f_equal.
      assert (take 255 (take 256 recent) = take 255 recent) as <- by (rewrite take_take; f_equal; lia).
      rewrite <-Hr, reverse_cons. rewrite take_app_length'; [done|]. rewrite length_reverse. simpl in *. lia.
    + rewrite filter_cons_False by naive_solver. by apply filter_ne_notin.
  - split; simpl; [|done|done]. rewrite reverse_app. simpl. f_equal. rewrite Hr.
    assert (length (take 256 recent) ≤ 255)%nat as Hl.
    { rewrite <-Hr, length_reverse. lia. }
    rewrite length_take in Hl. rewrite !firstn_all2 by lia. done.
Qed.

(** Over any sequence of entries, the deduplicating writer
    passes on exactly what a memory of the latest 256 proposal ids would:
    every entry that is not a proposal, and every proposal whose id is not
    among the 256 latest that went through; it never holds more ids than
    that. *)
Theorem dedup_writer_spec es :
  let '(seen, passed) := write_all (dedup_write log) es (new_id_set, []) in
  passed = deduped [] es ∧ Z.of_nat (length (ids seen)) ≤ DEDUP_WINDOW_MAX.
Proof.
  assert (∀ recent seen l, id_set_ok recent seen →
    let '(seen', l') := write_all (dedup_write log) es (seen, l) in
    l' = l ++ deduped recent es ∧ ∃ recent', id_set_ok recent' seen') as H.
  { unfold write_all. induction es as [|e es IH]; intros recent seen l Hok; simpl.
    - rewrite app_nil_r. eauto.
    - assert (∀ e', let '(seen', l') := foldl (λ s e, (dedup_write log e s).1) (seen, l ++ [e']) es in
        l' = l ++ e' :: deduped recent es ∧ ∃ recent', id_set_ok recent' seen') as Hpass.
      { intros e'. specialize (IH recent seen (l ++ [e']) Hok). destruct (foldl _ _ _) as [seen' l'].
        destruct IH as [-> ?]. split; [by rewrite <-app_assoc|done]. }
      destruct e as [| | |p| | | | |]; try apply Hpass. clear Hpass. simpl.
      rewrite (id_set_has_spec recent) by done. case_bool_decide as Hin.
      + rewrite decide_True by done. by apply IH.
      + rewrite decide_False by done. simpl.
        specialize (IH (p_proposalId p :: recent) (id_set_add (p_proposalId p) seen) (l ++ [JProposal p])).
        destruct (foldl _ _ _) as [seen' l']. destruct IH as [-> ?].
        { apply id_set_add_ok; [done|]. rewrite (id_set_has_spec recent) by done. by apply bool_decide_false. }
        split; [by rewrite <-app_assoc|done]. }
  specialize (H [] new_id_set []). destruct (write_all _ _ _) as [seen passed].
  destruct H as [-> (recent&[Hr _ Hi])]; [split; [done|apply NoDup_nil_2|done]|].
  split; [done|]. rewrite Hi, <-length_reverse, Hr, length_take. unfold DEDUP_WINDOW_MAX. lia.
Qed.
