(* ===== verification/FleetMigration.v ===== *)
(** * Fleet supervisor: moving workloads between nodes

    packages/fleet-supervisor/src/migration-controller.ts and
    [evaluateMigrationWorkloads] of loop-helpers.ts.  The controller keeps
    recent moves (for a cooldown), the moves deployed but not finished, and
    the capacity it has promised per destination.  Whatever it asks of the
    outside, clock and lease included, is a [MCall] answered by an arbitrary
    oracle and recorded with its answer in the trace, so the answers may
    change from one call to the next. *)

From S2P Require Import Prelude JsMap FleetTypes.
From stdpp Require Import pretty.

#[local] Open Scope string_scope.
#[local] Open Scope list_scope.
#[local] Open Scope Z_scope.

(** ** Data *)

Record NodeSnapshot := mkSnapshot {
  n_node : option string; n_pressureState : PressureState; n_freeMb : option Z;
  n_workloads : option (list (string * bool))   (** name and reachable *)
}.

Record MigrationWorkload := mkMigrationWorkload {
  mw_name : string; mw_node : option string; mw_placement : option string;
  mw_memoryMb : option Z; mw_evictProposalId : option string
}.

Record MoveProposal := mkMove {
  m_workload : string; m_fromNode : string; m_toNode : string; m_proposalId : string;
  m_expiresAt : string; m_expiresAtMs : option Z; m_evictProposalId : string;
  m_workloadMemoryMb : option Z
}.

Record InFlightMoveState := mkInFlight { movedAtMs : Z; moveTick : option Z }.
Record Reservation := mkReservation { r_tick : Z; r_freeMb : Z }.
Record PendingHealthPoll := mkPoll {
  proposal : MoveProposal; deployedAtMs : Z; destinationReachableObserved : bool
}.

Inductive MoveOutcome :=
| MTimedOut | MDestinationUnavailable | MApplyFailed | MPendingHealthCheck | MLeaseLost.

(** ** The outside *)

(** What a snapshot is fetched for: choosing a destination, checking it before
    deploying, or looking whether the moved workload is up. *)
Inductive Purpose := ForChoice | ForCheck | ForHealth (workload : string).

Inductive MCall :=
| CNow
| CTick
| CHolder
| CCanSee
| CPeerMoving (workload : string)
| CFetch (why : Purpose) (node : string)
| CDeploy (workload toNode : string)
| CRemove (workload fromNode : string)
| CJournal (entry : FleetJournalEntry).

Definition MResp (c : MCall) : Type :=
  match c with
  | CNow | CTick => Z
  | CHolder => option string
  | CCanSee | CPeerMoving _ => bool
  | CFetch _ _ => NodeSnapshot
  | CDeploy _ _ | CRemove _ _ | CJournal _ => unit
  end.

(** One call and its answer. *)
Inductive Obs := O (c : MCall) (r : result (MResp c)).

(** The dependencies, with the defaults of [MIGRATION_POLICY_DEFAULTS] filled
    in; [has_...] says whether an optional one was given. *)
Record Deps := mkDeps {
  peers : list string;
  selfNode : string;
  has_deploy : bool; has_remove : bool; has_canSee : bool; has_peerMoving : bool; has_tick : bool;
  moveCooldownTicks : Z; healthTimeoutMs : Z; tickIntervalMs : Z; minDestinationFreeMb : Z
}.

Definition moveProposalTtlMs : Z := 30000.
Definition MIGRATION_POLICY_DEFAULTS (self : string) (ps : list string) : Deps :=
  mkDeps ps self true true true true false 10 300000 30000 512.

Section controller.
Context {W : Type} (oracle : ∀ c : MCall, W → W * result (MResp c)).
(** [new Date(ms).toISOString()] and [Date.parse], [None] for NaN. *)
Context (iso : Z → string) (date_parse : string → option Z).
Context (deps : Deps).

(** The controller's fields, the outside, and the trace. *)
Record St := mkSt {
  inFlightMoves : jsmap string InFlightMoveState;
  pendingHealthPolls : jsmap string PendingHealthPoll;
  destinationCapacityReservations : jsmap string Reservation;
  world : W;
  trace : list Obs
}.

Notation M := (eff St).

Definition ask (c : MCall) : M (MResp c) := λ s,
  let '(w', r) := oracle c (world s) in
  (mkSt (inFlightMoves s) (pendingHealthPolls s) (destinationCapacityReservations s) w'
     (trace s ++ [O c r]), r).

Definition set_inFlight (f : jsmap string InFlightMoveState → jsmap string InFlightMoveState) : M unit :=
  modify (λ s, mkSt (f (inFlightMoves s)) (pendingHealthPolls s) (destinationCapacityReservations s)
    (world s) (trace s)).
Definition set_polls (f : jsmap string PendingHealthPoll → jsmap string PendingHealthPoll) : M unit :=
  modify (λ s, mkSt (inFlightMoves s) (f (pendingHealthPolls s)) (destinationCapacityReservations s)
    (world s) (trace s)).
Definition set_reservations (f : jsmap string Reservation → jsmap string Reservation) : M unit :=
  modify (λ s, mkSt (inFlightMoves s) (pendingHealthPolls s) (f (destinationCapacityReservations s))
    (world s) (trace s)).

Definition nowMs : M Z := ask CNow.
Definition journal (e : FleetJournalEntry) : M unit := ask (CJournal e).

(** The constructor's reading of recent moves: the latest per workload. *)
Definition readRecentMoves (recent : list (string * Z)) : jsmap string InFlightMoveState :=
  foldl (λ m '(workload, movedAt),
    match jm_get m workload with
    | None => jm_set m workload (mkInFlight movedAt None)
    | Some prior => if movedAtMs prior <? movedAt then jm_set m workload (mkInFlight movedAt None) else m
    end) [] recent.

Definition new_controller (recent : list (string * Z)) (w : W) : St :=
  mkSt (readRecentMoves recent) [] [] w [].

(** ** Capacity *)

Definition reservationTick : M Z :=
  if has_tick deps then ask CTick
  else
    let interval := tickIntervalMs deps in
    now ← nowMs;
    mret (if interval <=? 0 then now / 1000 else now / interval).

Definition getOrInitDestinationProjection (peer : string) (freeMb : Z) : M Z :=
  reservation ← gets (λ s, jm_get (destinationCapacityReservations s) peer);
  tick ← reservationTick;
  match reservation with
  | Some r =>
      if r_tick r =? tick then mret (r_freeMb r)
      else
        tick' ← reservationTick;
        _ ← set_reservations (λ m, jm_set m peer (mkReservation tick' freeMb));
        mret freeMb
  | None =>
      tick' ← reservationTick;
      _ ← set_reservations (λ m, jm_set m peer (mkReservation tick' freeMb));
      mret freeMb
  end.

Definition reserveDestinationCapacity (peer : string) (memoryMb : Z) : M unit :=
  freeMb ← getOrInitDestinationProjection peer (minDestinationFreeMb deps);
  tick ← reservationTick;
  set_reservations (λ m, jm_set m peer (mkReservation tick (freeMb - Z.max memoryMb 0))).

Definition minRequiredFreeMb (workloadMemoryMb : option Z) : Z :=
  match workloadMemoryMb with
  | None => minDestinationFreeMb deps
  | Some mb => Z.max (minDestinationFreeMb deps) mb
  end.

(** [safeFetchSnapshot] *)
Definition safeFetchSnapshot (why : Purpose) (node : string) : M (option NodeSnapshot) :=
  try_catch (snap ← ask (CFetch why node); mret (Some snap)) (λ _, mret None).

Fixpoint fetch_all (ps : list string) : M (list (string * option NodeSnapshot)) :=
  match ps with
  | [] => mret []
  | peer :: rest =>
      snap ← safeFetchSnapshot ForChoice peer;
      others ← fetch_all rest;
      mret ((peer, snap) :: others)
  end.

Fixpoint choose_best (requiredFreeMb : Z) (snaps : list (string * option NodeSnapshot))
    (best : option string) (bestFreeMb : Z) : M (option string) :=
  match snaps with
  | [] => mret best
  | (peer, None) :: rest => choose_best requiredFreeMb rest best bestFreeMb
  | (peer, Some snap) :: rest =>
      projected ← match n_freeMb snap with
                  | Some freeMb => (p ← getOrInitDestinationProjection peer freeMb; mret (Some p))
                  | None => mret None
                  end;
      match n_pressureState snap, projected with
      | NORMAL, Some freeMb =>
          if requiredFreeMb <=? freeMb then
            if bestFreeMb <? freeMb then choose_best requiredFreeMb rest (Some peer) freeMb
            else choose_best requiredFreeMb rest best bestFreeMb
          else choose_best requiredFreeMb rest best bestFreeMb
      | _, _ => choose_best requiredFreeMb rest best bestFreeMb
      end
  end.

Definition findBestDestination (fromNode : string) (requiredFreeMb : Z) : M (option string) :=
  snaps ← fetch_all (filter (λ peer, peer ≠ fromNode) (peers deps));
  choose_best requiredFreeMb snaps None (-1).

(** ** Proposing *)

Definition markMoveInFlight (workload : string) : M unit :=
  tick ← (if has_tick deps then (t ← ask CTick; mret (Some t)) else mret None);
  now ← nowMs;
  set_inFlight (λ m, jm_set m workload (mkInFlight now tick)).

Definition isInMoveCooldown (workload : string) : M bool :=
  state ← gets (λ s, jm_get (inFlightMoves s) workload);
  match state with
  | None => mret false
  | Some st =>
      active ← match moveTick st, has_tick deps with
               | Some tick, true => (t ← ask CTick; mret (t - tick <? moveCooldownTicks deps))
               | _, _ =>
                   (now ← nowMs;
                    mret (now - movedAtMs st <? moveCooldownTicks deps * tickIntervalMs deps))
               end;
      _ ← (if (active : bool) then mret tt else set_inFlight (λ m, jm_delete m workload));
      mret active
  end.

(** The proposal's construction, after a destination is found. *)
Definition makeMoveProposal (workload : MigrationWorkload) (fromNode toNode : string) : M MoveProposal :=
  t1 ← nowMs;
  evictId ← match mw_evictProposalId workload with
            | Some id => mret id
            | None => (t ← nowMs; mret ("evict-" +:+ mw_name workload +:+ "-" +:+ pretty t))
            end;
  t2 ← nowMs;
  t3 ← nowMs;
  mret (mkMove (mw_name workload) fromNode toNode
    ("move-" +:+ mw_name workload +:+ "-" +:+ pretty t1)
    (iso (t2 + moveProposalTtlMs)) (Some (t3 + moveProposalTtlMs)) evictId (mw_memoryMb workload)).

(** [snapshot.node ?? workload.node], when it is truthy. *)
Definition sourceNode (workload : MigrationWorkload) (snapshot : NodeSnapshot) : option string :=
  let from := match n_node snapshot with Some n => Some n | None => mw_node workload end in
  if truthy from then from else None.

Definition evaluateMove (workload : MigrationWorkload) (snapshot : NodeSnapshot) : M (option MoveProposal) :=
  if decide (n_pressureState snapshot ≠ HIGH) then mret None else
  holder ← ask CHolder;
  if decide (holder ≠ Some (selfNode deps)) then mret None else
  blind ← (if has_canSee deps then (b ← ask CCanSee; mret (negb b)) else mret false);
  if (blind : bool) then mret None else
  if decide (mw_placement workload = Some "pinned") then mret None else
  cooling ← isInMoveCooldown (mw_name workload);
  if (cooling : bool) then mret None else
  pending ← gets (λ s, jm_has (pendingHealthPolls s) (mw_name workload));
  if (pending : bool) then mret None else
  peerMoving ← (if has_peerMoving deps then ask (CPeerMoving (mw_name workload)) else mret false);
  if (peerMoving : bool) then mret None else
  match sourceNode workload snapshot with
  | None => mret None
  | Some fromNode =>
      bestNode ← findBestDestination fromNode (minRequiredFreeMb (mw_memoryMb workload));
      match bestNode with
      | None => mret None
      | Some toNode =>
          if decide (toNode = "") then mret None
          else (p ← makeMoveProposal workload fromNode toNode; mret (Some p))
      end
  end.

Definition getInFlightMoves (s : St) : list InFlightMove :=
  (λ '(_, poll), mkInFlightMove (m_workload (proposal poll)) (m_fromNode (proposal poll))
     (m_toNode (proposal poll)) (m_proposalId (proposal poll)) (deployedAtMs poll))
  <$> pendingHealthPolls s.

(** ** Executing *)

Definition buildMoveAction (p : MoveProposal) : FleetProposalAction :=
  AMove (m_workload p) (m_fromNode p) (m_toNode p) "rebalance".

Definition moveEntry (ts : string) (p : MoveProposal) (status : ExecStatus) (reason : option string)
    : FleetJournalEntry :=
  JExecution (mkExecution ts (selfNode deps) (m_proposalId p) (buildMoveAction p) status reason
    None None None None).

Definition writeSkippedEvictAndMoveProposal (p : MoveProposal) (ts : string) : M unit :=
  let reason := "evict suppressed by move " +:+ m_proposalId p in
  _ ← journal (JExecution (mkExecution ts (selfNode deps) (m_evictProposalId p)
        (AEvict (m_workload p) reason) Skipped (Some reason) None None None None));
  journal (JProposal (mkProposal ts (selfNode deps) (m_proposalId p)
    (mkTransition (m_workload p) false Placement (m_fromNode p) (m_toNode p))
    (buildMoveAction p) (Some (m_expiresAt p)))).

(** After a successful deploy: journal, reserve, arm the cooldown, and leave
    the move to the health polls of the coming ticks. *)
Definition recordDeployed (p : MoveProposal) (requiredFreeMb : Z) (ts : string) : M MoveOutcome :=
  _ ← writeSkippedEvictAndMoveProposal p ts;
  _ ← reserveDestinationCapacity (m_toNode p) requiredFreeMb;
  _ ← markMoveInFlight (m_workload p);
  t ← nowMs;
  _ ← set_polls (λ m, jm_set m (m_workload p) (mkPoll p t false));
  mret MPendingHealthCheck.

(** What remains once the destination has been checked. *)
Definition deployMove (p : MoveProposal) (requiredFreeMb : Z) : M MoveOutcome :=
  t ← nowMs;
  let ts := iso t in
  deployed ← try_catch (_ ← ask (CDeploy (m_workload p) (m_toNode p)); mret None)
               (λ e, mret (Some e));
  match deployed with
  | Some e =>
      t' ← nowMs;
      _ ← journal (moveEntry (iso t') p Failed (Some ("apply failed: " +:+ e)));
      _ ← markMoveInFlight (m_workload p);
      mret MApplyFailed
  | None => recordDeployed p requiredFreeMb ts
  end.

Definition executeMove (p : MoveProposal) : M MoveOutcome :=
  pending ← gets (λ s, jm_has (pendingHealthPolls s) (m_workload p));
  if (pending : bool) then
    t ← nowMs;
    _ ← journal (moveEntry (iso t) p Failed (Some "refused to overwrite active health poll"));
    mret MApplyFailed
  else if negb (has_deploy deps && has_remove deps) then mret MDestinationUnavailable
  else
    holder ← ask CHolder;
    if decide (holder ≠ Some (selfNode deps)) then mret MLeaseLost
    else
      let expiresAtMs := match m_expiresAtMs p with Some t => Some t | None => date_parse (m_expiresAt p) end in
      expired ← match expiresAtMs with
                | None => mret true
                | Some t => (now ← nowMs; mret (t <? now))
                end;
      if (expired : bool) then mret MTimedOut
      else
        snap ← safeFetchSnapshot ForCheck (m_toNode p);
        let requiredFreeMb := minRequiredFreeMb (m_workloadMemoryMb p) in
        match snap with
        | None => mret MDestinationUnavailable
        | Some d =>
            match n_pressureState d, n_freeMb d with
            | NORMAL, Some freeMb =>
                if freeMb <? requiredFreeMb then mret MDestinationUnavailable
                else deployMove p requiredFreeMb
            | _, _ => mret MDestinationUnavailable
            end
        end.

(** ** Finishing *)

Definition cleanupTimedOutDeploy (workloadName : string) (p : MoveProposal) (ts : string) : M unit :=
  failed ← try_catch (_ ← ask (CRemove (m_workload p) (m_toNode p)); mret None) (λ e, mret (Some e));
  match failed with
  | Some e => journal (moveEntry ts p Failed (Some ("timeout waiting for destination health; destination cleanup failed: " +:+ e +:+ "; will retry")))
  | None =>
      _ ← set_polls (λ m, jm_delete m workloadName);
      journal (moveEntry ts p Failed (Some "timeout waiting for destination health"))
  end.

Definition completeMoveBySourceRemoval (workloadName : string) (p : MoveProposal) (ts : string) : M unit :=
  failed ← try_catch (_ ← ask (CRemove (m_workload p) (m_fromNode p)); mret None) (λ e, mret (Some e));
  match failed with
  | Some e => journal (moveEntry ts p Failed (Some ("remove failed: " +:+ e +:+ "; will retry")))
  | None =>
      _ ← set_polls (λ m, jm_delete m workloadName);
      journal (moveEntry ts p Executed None)
  end.

Definition reports_reachable (workload : string) (snap : NodeSnapshot) : bool :=
  match n_workloads snap with
  | None => false
  | Some ws => existsb (λ '(name, reachable), bool_decide (name = workload) && reachable) ws
  end.

Definition observeDestinationReachable (workloadName : string) (poll : PendingHealthPoll) : M bool :=
  if destinationReachableObserved poll then mret true
  else
    let p := proposal poll in
    snap ← safeFetchSnapshot (ForHealth (m_workload p)) (m_toNode p);
    let reachable := match snap with Some s => reports_reachable (m_workload p) s | None => false end in
    _ ← (if (reachable : bool)
         then set_polls (λ m, jm_set m workloadName (mkPoll p (deployedAtMs poll) true))
         else mret tt);
    mret reachable.

Definition advanceSinglePendingPoll (workloadName : string) (poll : PendingHealthPoll) : M unit :=
  t ← nowMs;
  let ts := iso t in
  now ← nowMs;
  let timedOut := deployedAtMs poll + healthTimeoutMs deps <? now in
  if timedOut && negb (destinationReachableObserved poll)
  then cleanupTimedOutDeploy workloadName (proposal poll) ts
  else
    reachable ← observeDestinationReachable workloadName poll;
    if (reachable : bool) then completeMoveBySourceRemoval workloadName (proposal poll) ts else mret tt.

Fixpoint advance_each (polls : list (string * PendingHealthPoll)) : M unit :=
  match polls with
  | [] => mret tt
  | (workloadName, poll) :: rest =>
      _ ← advanceSinglePendingPoll workloadName poll;
      advance_each rest
  end.

(** Only the entry being visited changes during the iteration, so it visits
    the entries there were at its start. *)
Definition advancePendingHealthPolls : M unit :=
  if negb (has_remove deps) then mret tt
  else polls ← gets pendingHealthPolls; advance_each polls.

(** ** A supervisor tick's share *)

Definition migrationWorkload (ts node : string) (w : WorkloadSnapshot) : MigrationWorkload :=
  mkMigrationWorkload (w_name w) (Some node)
    (Some (match w_placement w with Some p => p | None => "auto" end)) (w_expectedMemoryMb w)
    (Some ("evict-" +:+ w_name w +:+ "-" +:+ ts)).

Definition nodeSnapshot (node : string) (workloads : list WorkloadSnapshot) (free : Z)
    (pressureDetected : bool) : NodeSnapshot :=
  mkSnapshot (Some node) (if pressureDetected then HIGH else NORMAL) (Some free)
    (Some ((λ w, (w_name w, w_reachable w)) <$> workloads)).

Fixpoint evaluate_each (ts node : string) (snap : NodeSnapshot) (workloads : list WorkloadSnapshot) : M unit :=
  match workloads with
  | [] => mret tt
  | w :: rest =>
      p ← evaluateMove (migrationWorkload ts node w) snap;
      _ ← match p with
          | Some p => (_ ← executeMove p; mret tt)
          | None => mret tt
          end;
      evaluate_each ts node snap rest
  end.

Definition evaluateMigrationWorkloads (ts node : string) (workloads : list WorkloadSnapshot)
    (free : Z) (pressureDetected : bool) : M unit :=
  _ ← advancePendingHealthPolls;
  evaluate_each ts node (nodeSnapshot node workloads free pressureDetected) workloads.

(** [onJournalEntry]: a rise of node pressure proposes a move. *)
Definition onJournalEntry (entry : FleetJournalEntry) (workload : option MigrationWorkload)
    (snapshot : option NodeSnapshot) : M (option MoveProposal) :=
  match entry with
  | JTransition _ _ t =>
      match t_signal t, workload, snapshot with
      | Pressure, Some w, Some s =>
          if t_isNode t && bool_decide (t_from t = "NORMAL") && bool_decide (t_to t = "HIGH")
          then evaluateMove w s else mret None
      | _, _, _ => mret None
      end
  | _ => mret None
  end.

End controller.
