(* ===== verification/FleetMigrationProps.v ===== *)
(** * Fleet supervisor: theorems about moves

    The invariant that FleetMigration.v keeps under any answers from outside:
    copies are removed only when they may be, a workload is not moved twice at
    once, and only the lease holder deploys.  The theorems are stated for the
    whole supervisor loop, in FleetLoopProps.v. *)

From S2P Require Import Prelude JsMap FleetTypes FleetMigration.

#[local] Open Scope string_scope.
#[local] Open Scope list_scope.
#[local] Open Scope Z_scope.

Create HintDb quiet.

(** ** Reading a trace *)

(** A successful deploy of [w], a successful removal of [w], a health probe of
    [node] on behalf of [w] that found it reachable. *)
Definition deployed (w : string) (o : Obs) : bool :=
  match o with O (CDeploy w' _) (Ok _) => bool_decide (w' = w) | _ => false end.
Definition removed (w : string) (o : Obs) : bool :=
  match o with O (CRemove w' _) (Ok _) => bool_decide (w' = w) | _ => false end.
Definition seen_healthy (w node : string) (o : Obs) : bool :=
  match o with
  | O (CFetch (ForHealth w') n) (Ok snap) =>
      bool_decide (w' = w) && bool_decide (n = node) && reports_reachable w snap
  | _ => false
  end.
(** A journal write or a clock reading of the node itself that threw. *)
Definition local_failure (o : Obs) : bool :=
  match o with O (CJournal _) (Err _) | O CNow (Err _) | O CTick (Err _) => true | _ => false end.

(** What neither deploys, removes, probes nor publishes a snapshot. *)
Definition is_snapshot (e : FleetJournalEntry) : bool := match e with JSnapshot _ => true | _ => false end.
Definition neutral (o : Obs) : bool :=
  match o with
  | O (CDeploy _ _) _ | O (CRemove _ _) _ | O (CFetch (ForHealth _) _) _ => false
  | O (CJournal e) _ => negb (is_snapshot e)
  | _ => true
  end.
(** A deploy or a published snapshot. *)
Definition notable (o : Obs) : bool :=
  match o with O (CDeploy _ _) _ => true | O (CJournal e) _ => is_snapshot e | _ => false end.

Definition none (f : Obs → bool) (l : list Obs) : Prop := Forall (λ o, f o = false) l.

Lemma none_app f l1 l2 : none f (l1 ++ l2) ↔ none f l1 ∧ none f l2.
Proof. apply Forall_app. Qed.

Lemma none_cons f o l : none f (o :: l) ↔ f o = false ∧ none f l.
Proof. unfold none. by rewrite Forall_cons. Qed.

Lemma none_one f o : f o = false → none f [o].
Proof. intros. by repeat constructor. Qed.

Lemma none_nil f : none f [].
Proof. constructor. Qed.

Lemma neutral_none f l :
  (∀ o, neutral o = true → f o = false) → Forall (λ o, neutral o = true) l → none f l.
Proof. intros Hf Hl. eapply Forall_impl; [exact Hl|exact Hf]. Qed.

Lemma neutral_deployed w o : neutral o = true → deployed w o = false.
Proof. by destruct o as [[] []]. Qed.
Lemma neutral_removed w o : neutral o = true → removed w o = false.
Proof. by destruct o as [[] []]. Qed.
Lemma neutral_seen w n o : neutral o = true → seen_healthy w n o = false.
Proof. by destruct o as [[| | | | |[]| | |] []]. Qed.
Lemma neutral_notable o : neutral o = true → notable o = false.
Proof. destruct o as [[| | | | | | | |e] []]; simpl; try done; by destruct (is_snapshot e). Qed.
#[local] Hint Resolve neutral_deployed neutral_removed neutral_seen none_nil : llamactl.

(** An element of [l1 ++ l2] with what precedes it. *)
Lemma app_split {A} (l1 l2 pre post : list A) x :
  l1 ++ l2 = pre ++ x :: post →
  (∃ post', l1 = pre ++ x :: post' ∧ post = post' ++ l2) ∨ (∃ mid, pre = l1 ++ mid ∧ l2 = mid ++ x :: post).
Proof.
  revert pre. induction l1 as [|y l1 IH]; intros pre H; simpl in *.
  - right. by exists pre.
  - destruct pre as [|z pre]; injection H as -> H; [left; by eexists|].
    destruct (IH pre H) as [(post'&->&->)|(mid&->&->)]; [left; by eexists|right; by eexists].
Qed.

Section migration.
Context {W : Type} (oracle : ∀ c : MCall, W → W * result (MResp c)).
Context (iso : Z → string) (date_parse : string → option Z) (deps : Deps).

Notation St := (St (W:=W)).
Notation M := (eff St).
Notation ask := (ask oracle).

(** ** Computations that only look and note *)

Definition quiet {A} (m : M A) : Prop := ∀ s,
  pendingHealthPolls (m s).1 = pendingHealthPolls s ∧
  ∃ l, trace (m s).1 = trace s ++ l ∧ Forall (λ o, neutral o = true) l.

Lemma quiet_ret {A} (a : A) : quiet (mret a).
Proof. intros s. split; [done|]. exists []. by rewrite app_nil_r. Qed.
Lemma quiet_gets {A} (f : St → A) : quiet (gets f).
Proof. intros s. split; [done|]. exists []. by rewrite app_nil_r. Qed.
Lemma quiet_throw {A} e : quiet (throw e : M A).
Proof. intros s. split; [done|]. exists []. by rewrite app_nil_r. Qed.

Lemma quiet_bind {A B} (m : M A) (f : A → M B) : quiet m → (∀ a, quiet (f a)) → quiet (m ≫= f).
Proof.
  intros Hm Hf s. unfold mbind, eff_bind. destruct (Hm s) as [Hp (l&Hl&Hn)].
  destruct (m s) as [s' [a|e]]; simpl in *; [|by eauto].
  destruct (Hf a s') as [Hp' (l'&Hl'&Hn')]. split; [by rewrite Hp'|].
  exists (l ++ l'). rewrite Hl', Hl, app_assoc. split; [done|]. by apply Forall_app.
Qed.

Lemma quiet_try {A} (m : M A) (h : string → M A) : quiet m → (∀ e, quiet (h e)) → quiet (try_catch m h).
Proof.
  intros Hm Hh s. unfold try_catch. destruct (Hm s) as [Hp (l&Hl&Hn)].
  destruct (m s) as [s' [a|e]]; simpl in *; [by eauto|].
  destruct (Hh e s') as [Hp' (l'&Hl'&Hn')]. split; [by rewrite Hp'|].
  exists (l ++ l'). rewrite Hl', Hl, app_assoc. split; [done|]. by apply Forall_app.
Qed.

Lemma ask_eq c s :
  ask c s = (mkSt (inFlightMoves s) (pendingHealthPolls s) (destinationCapacityReservations s)
    (oracle c (world s)).1 (trace s ++ [O c (oracle c (world s)).2]), (oracle c (world s)).2).
Proof. unfold FleetMigration.ask. by destruct (oracle c (world s)). Qed.

Lemma quiet_ask c : (∀ r, neutral (O c r) = true) → quiet (ask c).
Proof.
  intros Hc s. rewrite ask_eq. simpl. split; [done|]. eexists. split; [done|]. by repeat constructor.
Qed.

Lemma quiet_set_inFlight f : quiet (set_inFlight (W:=W) f).
Proof. intros s. split; [done|]. exists []. by rewrite app_nil_r. Qed.
Lemma quiet_set_reservations f : quiet (set_reservations (W:=W) f).
Proof. intros s. split; [done|]. exists []. by rewrite app_nil_r. Qed.

Ltac quiet_head m :=
  lazymatch m with
  | mret _ => apply quiet_ret
  | gets _ => apply quiet_gets
  | FleetMigration.ask _ ?c => refine (quiet_ask c _); by intros []
  | nowMs _ => refine (quiet_ask CNow _); by intros []
  | journal _ ?e => refine (quiet_ask (CJournal e) _); by intros []
  | set_inFlight _ => apply quiet_set_inFlight
  | set_reservations _ => apply quiet_set_reservations
  | try_catch _ _ => apply quiet_try; [|intros ?]
  | mbind _ _ => apply quiet_bind; [|intros ?]
  | match _ with _ => _ end => case_match
  | let _ := _ in _ => cbv zeta
  end.
Ltac quiet_step := match goal with |- @quiet _ ?m => quiet_head m end.
Ltac quiet_auto := repeat quiet_step; eauto with quiet.

Lemma reservationTick_quiet : quiet (reservationTick oracle deps).
Proof. unfold reservationTick. quiet_auto. Qed.
#[local] Hint Resolve reservationTick_quiet : quiet.
Lemma getOrInit_quiet peer mb : quiet (getOrInitDestinationProjection oracle deps peer mb).
Proof. unfold getOrInitDestinationProjection. quiet_auto. Qed.
#[local] Hint Resolve getOrInit_quiet : quiet.
Lemma reserve_quiet peer mb : quiet (reserveDestinationCapacity oracle deps peer mb).
Proof. unfold reserveDestinationCapacity. quiet_auto. Qed.
Lemma safeFetch_quiet why n : (∀ w, why ≠ ForHealth w) → quiet (safeFetchSnapshot oracle why n).
Proof.
  intros Hw. unfold safeFetchSnapshot. apply quiet_try; [|intros; apply quiet_ret].
  apply quiet_bind; [|intros; apply quiet_ret]. apply quiet_ask. destruct why; naive_solver.
Qed.
Lemma fetch_all_quiet ps : quiet (fetch_all oracle ps).
Proof.
  induction ps; simpl; quiet_auto. by apply safeFetch_quiet.
Qed.
Lemma choose_best_quiet r snaps b f : quiet (choose_best oracle deps r snaps b f).
Proof.
  revert b f. induction snaps as [|[peer [snap|]] snaps IH]; intros b f; simpl; quiet_auto.
Qed.
#[local] Hint Resolve reserve_quiet fetch_all_quiet choose_best_quiet : quiet.
Lemma findBest_quiet n r : quiet (findBestDestination oracle deps n r).
Proof. unfold findBestDestination. quiet_auto. Qed.
Lemma markMoveInFlight_quiet w : quiet (markMoveInFlight oracle deps w).
Proof. unfold markMoveInFlight. quiet_auto. Qed.
Lemma cooldown_quiet w : quiet (isInMoveCooldown oracle deps w).
Proof. unfold isInMoveCooldown. quiet_auto. Qed.
Lemma makeMoveProposal_quiet w f t : quiet (makeMoveProposal oracle iso w f t).
Proof. unfold makeMoveProposal. quiet_auto. Qed.
#[local] Hint Resolve findBest_quiet markMoveInFlight_quiet cooldown_quiet makeMoveProposal_quiet : quiet.
Lemma evaluateMove_quiet w snap : quiet (evaluateMove oracle iso deps w snap).
Proof. unfold evaluateMove. quiet_auto. Qed.
Lemma writeSkipped_quiet p ts : quiet (writeSkippedEvictAndMoveProposal oracle deps p ts).
Proof. unfold writeSkippedEvictAndMoveProposal. quiet_auto. Qed.
#[local] Hint Resolve evaluateMove_quiet writeSkipped_quiet : quiet.

(** ** The invariant *)

(** What the trace says about a pending move: its deploy is the last one of
    the workload, nothing was removed since, its proposal and its deploy time
    were recorded, and the flag says whether a probe has found it up. *)
Definition poll_ok (w : string) (poll : PendingHealthPoll) (tr : list Obs) : Prop :=
  let p := proposal poll in
  m_workload p = w ∧ m_fromNode p ≠ m_toNode p ∧
  ∃ pre mid, tr = pre ++ O (CDeploy w (m_toNode p)) (Ok tt) :: mid ∧
    none (deployed w) mid ∧ none (removed w) mid ∧
    (∃ e, O (CJournal (JProposal e)) (Ok tt) ∈ mid ∧ p_action e = buildMoveAction p) ∧
    O CNow (Ok (deployedAtMs poll)) ∈ mid ∧
    (destinationReachableObserved poll = true ↔ ¬ none (seen_healthy w (m_toNode p)) mid).

(** Why a removal of [w] from [n] is in order, by what came before it. *)
Definition justified (pre : list Obs) (w n : string) : Prop :=
  ∃ from to pre1 mid e,
    pre = pre1 ++ O (CDeploy w to) (Ok tt) :: mid ∧ from ≠ to ∧
    none (deployed w) mid ∧ none (removed w) mid ∧
    O (CJournal (JProposal e)) (Ok tt) ∈ mid ∧ p_action e = AMove w from to "rebalance" ∧
    ((n = from ∧ ¬ none (seen_healthy w to) mid) ∨
     (n = to ∧ none (seen_healthy w to) mid ∧
      ∃ t0 t1, O CNow (Ok t0) ∈ mid ∧ O CNow (Ok t1) ∈ mid ∧ t0 + healthTimeoutMs deps < t1)).

Definition removals_ok (tr : list Obs) : Prop :=
  ∀ pre w n r post, tr = pre ++ O (CRemove w n) r :: post → justified pre w n.

(** A deployed move is pending unless it was cleaned up or the node's own
    journal or clock failed it. *)
Definition tracked (polls : jsmap string PendingHealthPoll) (tr : list Obs) (w : string) : Prop :=
  ∀ pre to mid, tr = pre ++ O (CDeploy w to) (Ok tt) :: mid →
    none (removed w) mid → none local_failure mid → is_Some (jm_get polls w).

Definition no_overlap (tr : list Obs) : Prop :=
  ∀ pre w to1 mid to2 r post,
    tr = pre ++ O (CDeploy w to1) (Ok tt) :: mid ++ O (CDeploy w to2) r :: post →
    ¬ none (removed w) mid ∨ ¬ none local_failure mid.

Record inv (polls : jsmap string PendingHealthPoll) (tr : list Obs) : Prop := {
  inv_wf : jm_wf polls;
  inv_polls : ∀ w poll, jm_get polls w = Some poll → poll_ok w poll tr;
  inv_removals : removals_ok tr;
  inv_tracked : ∀ w, tracked polls tr w;
  inv_overlap : no_overlap tr
}.

Lemma poll_ok_app w poll tr l :
  none (deployed w) l → none (removed w) l → none (seen_healthy w (m_toNode (proposal poll))) l →
  poll_ok w poll tr → poll_ok w poll (tr ++ l).
Proof.
  intros Hd Hr Hs (Hw&Hne&pre&mid&->&Hd'&Hr'&(e&He&Ha)&Hn&Hf). split_and!; [done..|].
  exists pre, (mid ++ l). rewrite <-app_assoc, !none_app. split_and!; try done.
  - exists e. split; [|done]. apply elem_of_app. by left.
  - apply elem_of_app. by left.
  - rewrite Hf. tauto.
Qed.

Lemma removals_ok_app tr l :
  (∀ w n r, O (CRemove w n) r ∉ l) → removals_ok tr → removals_ok (tr ++ l).
Proof.
  intros Hl H pre w n r post Heq. apply app_split in Heq as [(post'&->&_)|(mid&->&->)].
  - by eapply H.
  - destruct (Hl w n r). apply elem_of_app. right. left.
Qed.

Lemma removals_ok_snoc tr w n r : justified tr w n → removals_ok tr → removals_ok (tr ++ [O (CRemove w n) r]).
Proof.
  intros Hj H pre w' n' r' post Heq. apply app_split in Heq as [(post'&->&_)|(mid&->&Hm)].
  - by eapply H.
  - destruct mid as [|? [|??]]; [|discriminate Hm..]. injection Hm as ? ?. subst. by rewrite app_nil_r.
Qed.

Lemma tracked_app polls tr l w :
  none (deployed w) l → tracked polls tr w → tracked polls (tr ++ l) w.
Proof.
  intros Hl H pre to mid Heq Hr Hf. apply app_split in Heq as [(post'&->&->)|(mid'&_&->)].
  - apply none_app in Hr as [Hr _], Hf as [Hf _]. by eapply H.
  - apply none_app in Hl as [_ [Hd _]%none_cons]. simpl in Hd. by rewrite bool_decide_true in Hd.
Qed.

Lemma no_overlap_app tr l :
  (∀ w to r, O (CDeploy w to) r ∉ l) → no_overlap tr → no_overlap (tr ++ l).
Proof.
  intros Hl H pre w to1 mid to2 r post Heq.
  assert (∃ post', tr = pre ++ O (CDeploy w to1) (Ok tt) :: mid ++ O (CDeploy w to2) r :: post') as (post'&->).
  { rewrite app_comm_cons, app_assoc in Heq. apply app_split in Heq as [(post'&->&_)|(mid'&_&->)].
    - exists post'. by rewrite app_comm_cons, app_assoc.
    - destruct (Hl w to2 r). apply elem_of_app. right. left. }
  by eapply H.
Qed.

(** Observations that concern no move in progress. *)
Lemma inv_extend polls tr l :
  inv polls tr →
  (∀ w to r, O (CDeploy w to) r ∉ l) → (∀ w n r, O (CRemove w n) r ∉ l) →
  (∀ w poll, jm_get polls w = Some poll → none (seen_healthy w (m_toNode (proposal poll))) l) →
  inv polls (tr ++ l).
Proof.
  intros [Hwf Hp Hrm Ht Ho] Hd Hr Hs.
  assert (∀ w, none (deployed w) l) as Hnd.
  { intros w. apply Forall_forall. intros [[] []] Hin; try done. by destruct (Hd _ _ _ Hin). }
  assert (∀ w, none (removed w) l) as Hnr.
  { intros w. apply Forall_forall. intros [[] []] Hin; try done. by destruct (Hr _ _ _ Hin). }
  split; [done| |by apply removals_ok_app|intros w; by apply tracked_app|by apply no_overlap_app].
  intros w poll Hw. by apply poll_ok_app; auto.
Qed.

Notation holds s := (inv (pendingHealthPolls s) (trace s)).

Lemma neutral_inv polls tr l : Forall (λ o, neutral o = true) l → inv polls tr → inv polls (tr ++ l).
Proof.
  intros Hn H. rewrite Forall_forall in Hn. apply inv_extend; [done| | |].
  - intros w to r Hin. by specialize (Hn _ Hin).
  - intros w n r Hin. by specialize (Hn _ Hin).
  - intros w poll _. apply Forall_forall. intros o Ho. apply neutral_seen. by apply Hn.
Qed.

Lemma quiet_inv {A} (m : M A) s : quiet m → holds s → holds (m s).1.
Proof. intros Hq Hi. destruct (Hq s) as [-> (l&->&Hl)]. by apply neutral_inv. Qed.

(** ** Failing locally *)

(** [m] throws only when the node's own journal or clock does. *)
Definition local {A} (m : M A) : Prop := ∀ s e l,
  (m s).2 = Err e → trace (m s).1 = trace s ++ l → ¬ none local_failure l.

Lemma local_ret {A} (a : A) : local (mret a).
Proof. by intros s e l. Qed.
Lemma local_modify f : local (modify f : M unit).
Proof. by intros s e l. Qed.
Lemma local_gets {A} (f : St → A) : local (gets f).
Proof. by intros s e l. Qed.
Lemma local_ask c : (∀ e, local_failure (O c (Err e)) = true) → local (ask c).
Proof.
  intros Hc s e l. rewrite ask_eq. simpl. intros -> Hl%app_inv_head. subst l.
  intros [Hn _]%none_cons. by rewrite Hc in Hn.
Qed.
Lemma local_bind {A B} (m : M A) (f : A → M B) :
  quiet m → (∀ a, quiet (f a)) → local m → (∀ a, local (f a)) → local (m ≫= f).
Proof.
  intros Hqm Hqf Hm Hf s e l. unfold mbind, eff_bind.
  destruct (Hqm s) as [_ (l1&Hl1&_)]. specialize (Hm s).
  destruct (m s) as [s' [a|e']]; simpl in *; [|intros _ Hl; by eapply Hm].
  intros He Hl. destruct (Hqf a s') as [_ (l2&Hl2&_)]. specialize (Hf a s' e l2 He Hl2).
  rewrite Hl2, Hl1, <-app_assoc in Hl. apply app_inv_head in Hl. subst l. rewrite none_app. tauto.
Qed.

Ltac local_head m :=
  lazymatch m with
  | mret _ => apply local_ret
  | gets _ => apply local_gets
  | FleetMigration.ask _ ?c => refine (local_ask c _); by intros ?
  | nowMs _ => refine (local_ask CNow _); by intros ?
  | journal _ ?e => refine (local_ask (CJournal e) _); by intros ?
  | set_inFlight _ => apply local_modify
  | set_reservations _ => apply local_modify
  | mbind _ _ => apply local_bind; [|intros ?|idtac|intros ?]
  | match _ with _ => _ end => case_match
  | let _ := _ in _ => cbv zeta
  end.
Ltac local_auto :=
  repeat match goal with
  | |- @local _ ?m => local_head m
  | |- @quiet _ ?m => quiet_head m
  end; eauto with quiet.

Lemma reservationTick_local : local (reservationTick oracle deps).
Proof. unfold reservationTick. local_auto. Qed.
#[local] Hint Resolve reservationTick_local : quiet.
Lemma getOrInit_local peer mb : local (getOrInitDestinationProjection oracle deps peer mb).
Proof. unfold getOrInitDestinationProjection. local_auto. Qed.
#[local] Hint Resolve getOrInit_local : quiet.
Lemma reserve_local peer mb : local (reserveDestinationCapacity oracle deps peer mb).
Proof. unfold reserveDestinationCapacity. local_auto. Qed.
Lemma markMoveInFlight_local w : local (markMoveInFlight oracle deps w).
Proof. unfold markMoveInFlight. local_auto. Qed.
Lemma writeSkipped_local p ts : local (writeSkippedEvictAndMoveProposal oracle deps p ts).
Proof. unfold writeSkippedEvictAndMoveProposal. local_auto. Qed.
#[local] Hint Resolve reserve_local markMoveInFlight_local writeSkipped_local : quiet.

(** ** Deploying *)

Section open_deploy.
Context (polls : jsmap string PendingHealthPoll) (tr : list Obs) (w to : string).
Context (Hinv : inv polls tr) (Hnone : jm_get polls w = None).
Context (l : list Obs) (Hl : Forall (λ o, neutral o = true) l).

Notation D := (O (CDeploy w to) (Ok tt)).

Lemma open_overlap : no_overlap (tr ++ D :: l).
Proof.
  intros pre w' to1 mid to2 r post Heq.
  rewrite app_comm_cons, app_assoc in Heq. apply app_split in Heq as [(post'&Htr&_)|(m&Hpre&Hm)].
  - subst tr. eapply (inv_overlap _ _ Hinv). by rewrite <-app_assoc.
  - destruct m as [|x m].
    + injection Hm as -> _ _. rewrite app_nil_r in Hpre.
      destruct (decide (none (removed w') mid)) as [Hr|?]; [|by left].
      destruct (decide (none local_failure mid)) as [Hf|?]; [|by right].
      destruct (inv_tracked _ _ Hinv w' pre to1 mid (eq_sym Hpre) Hr Hf) as [poll ?]. congruence.
    + injection Hm as _ Hm. exfalso. rewrite Forall_forall in Hl.
      assert (O (CDeploy w' to2) r ∈ l) as Hin by (rewrite Hm; apply elem_of_app; right; left).
      by specialize (Hl _ Hin).
Qed.

Lemma open_polls w' poll : jm_get polls w' = Some poll → poll_ok w' poll (tr ++ D :: l).
Proof.
  intros Hw. assert (w ≠ w') as Hne by (intros ->; congruence).
  apply poll_ok_app; [| | |by eapply inv_polls].
  - apply none_cons. split; [by apply bool_decide_false|]. eapply neutral_none; [|done]. auto with llamactl.
  - apply none_cons. split; [done|]. eapply neutral_none; [|done]. auto with llamactl.
  - apply none_cons. split; [done|]. eapply neutral_none; [|done]. auto with llamactl.
Qed.

Lemma open_removals : removals_ok (tr ++ D :: l).
Proof.
  apply removals_ok_app; [|by apply inv_removals with polls].
  intros w' n r [?|Hin]%elem_of_cons; [discriminate|]. rewrite Forall_forall in Hl. by specialize (Hl _ Hin).
Qed.

Lemma open_tracked w' : w' ≠ w → tracked polls (tr ++ D :: l) w'.
Proof.
  intros Hne. apply tracked_app; [|by eapply inv_tracked]. apply none_cons.
  split; [by apply bool_decide_false|]. eapply neutral_none; [|done]. auto with llamactl.
Qed.

(** The journal or the clock failed: the move is not tracked, and need not be. *)
Lemma open_failed : ¬ none local_failure l → inv polls (tr ++ D :: l).
Proof.
  intros Hf. split; [by eapply inv_wf|apply open_polls|apply open_removals| |apply open_overlap].
  intros w'. destruct (decide (w' = w)) as [->|Hne]; [|by apply open_tracked].
  intros pre to1 mid Heq _ Hnf. exfalso. apply app_split in Heq as [(post'&_&->)|(m&->&Hm)].
  - apply none_app in Hnf as [_ [_ Hnf]%none_cons]. done.
  - destruct m as [|x m]; injection Hm as ? Hm; [by subst mid|].
    rewrite Forall_forall in Hl.
    assert (O (CDeploy w to1) (Ok tt) ∈ l) as Hin by (rewrite Hm; apply elem_of_app; right; left).
    by specialize (Hl _ Hin).
Qed.

(** All went well and the move is recorded. *)
Lemma open_done p t :
  m_workload p = w → m_toNode p = to → m_fromNode p ≠ m_toNode p →
  (∃ e, O (CJournal (JProposal e)) (Ok tt) ∈ l ∧ p_action e = buildMoveAction p) →
  O CNow (Ok t) ∈ l →
  inv (jm_set polls w (mkPoll p t false)) (tr ++ D :: l).
Proof.
  intros Hw Hto Hne He Ht. split.
  - apply jm_set_wf. by eapply inv_wf.
  - intros w' poll. rewrite jm_get_set. case_decide; [|apply open_polls].
    intros [= <-]. subst w'. unfold poll_ok. simpl. rewrite Hto in *. split_and!; [done..|].
    exists tr, l. split_and!; try done; try (eapply neutral_none; [|done]; auto with llamactl).
    split; [done|]. intros Hs. destruct Hs. eapply neutral_none; [|done]. auto with llamactl.
  - apply open_removals.
  - intros w'. destruct (decide (w' = w)) as [->|Hn]; [intros ? ? ? ? ? ?; by rewrite jm_get_set_eq|].
    intros pre to1 mid Heq Hr Hf. rewrite jm_get_set_ne by done. by eapply open_tracked.
  - apply open_overlap.
Qed.
End open_deploy.

Lemma run_spec {A} (m : M A) s : quiet m → local m →
  ∃ l, pendingHealthPolls (m s).1 = pendingHealthPolls s ∧ trace (m s).1 = trace s ++ l ∧
    Forall (λ o, neutral o = true) l ∧ (is_ok (m s).2 = false → ¬ none local_failure l).
Proof.
  intros Hq Hl. destruct (Hq s) as [Hp (l&Ht&Hn)]. exists l. split_and!; [done..|].
  destruct (m s).2 as [a|e] eqn:E; [done|]. intros _. by apply (Hl s e l).
Qed.

Lemma writeSkipped_journal p ts s l x :
  (writeSkippedEvictAndMoveProposal oracle deps p ts s).2 = Ok x →
  trace (writeSkippedEvictAndMoveProposal oracle deps p ts s).1 = trace s ++ l →
  ∃ e, O (CJournal (JProposal e)) (Ok tt) ∈ l ∧ p_action e = buildMoveAction p.
Proof.
  unfold writeSkippedEvictAndMoveProposal, journal, mbind, eff_bind. rewrite ask_eq.
  destruct (oracle _ (world s)) as [w1 [[]|e]]; simpl; [|done]. rewrite ask_eq. simpl.
  destruct (oracle _ w1) as [w2 [[]|e]]; simpl; [|done]. intros _ Hl.
  rewrite <-app_assoc in Hl. apply app_inv_head in Hl. subst l. eexists. split; [right; left|done].
Qed.

Lemma recordDeployed_inv p r ts s tr :
  inv (pendingHealthPolls s) tr → jm_get (pendingHealthPolls s) (m_workload p) = None →
  m_fromNode p ≠ m_toNode p →
  trace s = tr ++ [O (CDeploy (m_workload p) (m_toNode p)) (Ok tt)] →
  holds (recordDeployed oracle deps p r ts s).1.
Proof.
  intros Hinv Hnone Hne Hs. unfold recordDeployed. rewrite eff_bind_eq.
  destruct (run_spec (writeSkippedEvictAndMoveProposal oracle deps p ts) s) as (l1&Hp1&Ht1&Hn1&Hf1);
    [auto with quiet..|].
  pose proof (writeSkipped_journal p ts s l1) as Hj.
  destruct (writeSkippedEvictAndMoveProposal _ _ _ _ s) as [s1 [x|e]]; simpl in *;
    rewrite Hs, <-app_assoc in Ht1; simpl in Ht1.
  2: { rewrite Hp1, Ht1. apply open_failed; auto. }
  specialize (Hj x eq_refl). rewrite Hs, Ht1, <-app_assoc in Hj. specialize (Hj eq_refl). clear Hf1.
  rewrite eff_bind_eq.
  destruct (run_spec (reserveDestinationCapacity oracle deps (m_toNode p) r) s1) as (l2&Hp2&Ht2&Hn2&Hf2);
    [auto with quiet..|].
  rewrite Ht1, <-app_assoc in Ht2. simpl in Ht2.
  assert (Forall (λ o, neutral o = true) (l1 ++ l2)) as Hn12 by by apply Forall_app.
  destruct (reserveDestinationCapacity _ _ _ _ s1) as [s2 [x2|e]]; simpl in *.
  2: { rewrite Hp2, Hp1, Ht2. apply open_failed; auto. rewrite none_app. tauto. }
  rewrite eff_bind_eq.
  destruct (run_spec (markMoveInFlight oracle deps (m_workload p)) s2) as (l3&Hp3&Ht3&Hn3&Hf3);
    [auto with quiet..|].
  rewrite Ht2, <-app_assoc in Ht3. simpl in Ht3. rewrite <-app_assoc in Ht3.
  assert (Forall (λ o, neutral o = true) (l1 ++ l2 ++ l3)) as Hn13 by (rewrite !Forall_app; rewrite Forall_app in Hn12; tauto).
  destruct (markMoveInFlight _ _ _ s2) as [s3 [x3|e]]; simpl in *.
  2: { rewrite Hp3, Hp2, Hp1, Ht3. apply open_failed; auto. rewrite !none_app. tauto. }
  rewrite eff_bind_eq. unfold nowMs. rewrite ask_eq.
  set (o := O CNow _). assert (trace s3 ++ [o] = tr ++ O (CDeploy (m_workload p) (m_toNode p)) (Ok tt)
    :: (l1 ++ l2 ++ l3 ++ [o])) as Ht4 by (rewrite Ht3, <-app_assoc; simpl; by rewrite <-!app_assoc).
  assert (Forall (λ o, neutral o = true) (l1 ++ l2 ++ l3 ++ [o])) as Hn14.
  { rewrite !Forall_app in *. split_and!; try tauto. repeat constructor. }
  destruct (oracle CNow (world s3)) as [w4 [t|e]]; simpl in *; rewrite Ht4, Hp3, Hp2, Hp1.
  - apply (open_done _ _ _ _ Hinv Hnone _ Hn14); [done..| |].
    + destruct Hj as (e&He&Ha). exists e. split; [|done]. apply elem_of_app. by left.
    + rewrite !elem_of_app. do 3 right. left.
  - apply open_failed; auto. rewrite !none_app. intros (_&_&_&[Ho _]%none_cons). done.
Qed.

Lemma nowMs_quiet : quiet (nowMs oracle).
Proof. refine (quiet_ask CNow _). by intros []. Qed.
Lemma journal_quiet e : is_snapshot e = false → quiet (journal oracle e).
Proof. intros He. refine (quiet_ask (CJournal e) _). intros r. simpl. by rewrite He. Qed.
#[local] Hint Resolve nowMs_quiet journal_quiet : quiet.

(** Running a quiet first step keeps the invariant and the polls. *)
Lemma quiet_first {A B} (m : M A) (f : A → M B) s :
  quiet m → holds s →
  (∀ a s', (m s) = (s', Ok a) → pendingHealthPolls s' = pendingHealthPolls s → holds s' → holds (f a s').1) →
  holds ((m ≫= f) s).1.
Proof.
  intros Hq Hinv Hf. rewrite eff_bind_eq. pose proof (quiet_inv m s Hq Hinv) as Hi.
  destruct (Hq s) as [Hp _]. destruct (m s) as [s' [a|e]]; simpl in *; [|done]. by apply Hf.
Qed.

Lemma failed_deploy_inv polls tr w to e :
  inv polls tr → no_overlap (tr ++ [O (CDeploy w to) (Err e)]) → inv polls (tr ++ [O (CDeploy w to) (Err e)]).
Proof.
  intros [Hwf Hp Hrm Ht _] Ho. split; [done| | | |done].
  - intros w0 poll Hw. apply poll_ok_app; [by apply none_one|by apply none_one|by apply none_one|by apply Hp].
  - apply removals_ok_app; [|done]. by intros ? ? ? ?%list_elem_of_singleton.
  - intros w0. apply tracked_app; [by apply none_one|done].
Qed.

Lemma deploy_no_overlap polls tr w to r :
  inv polls tr → jm_get polls w = None → no_overlap (tr ++ [O (CDeploy w to) r]).
Proof.
  intros Hinv Hnone pre w' to1 mid to2 r' post Heq.
  rewrite app_comm_cons, app_assoc in Heq. apply app_split in Heq as [(post'&Htr&_)|(m&Hpre&Hm)].
  - subst tr. eapply (inv_overlap _ _ Hinv). by rewrite <-app_assoc.
  - destruct m as [|x [|??]]; [|discriminate Hm..].
    injection Hm as -> _ _ _. rewrite app_nil_r in Hpre.
    destruct (decide (none (removed w') mid)) as [Hr|?]; [|by left].
    destruct (decide (none local_failure mid)) as [Hf|?]; [|by right].
    destruct (inv_tracked _ _ Hinv w' pre to1 mid (eq_sym Hpre) Hr Hf) as [poll ?]. congruence.
Qed.

Lemma deployMove_inv p r s :
  holds s → jm_get (pendingHealthPolls s) (m_workload p) = None → m_fromNode p ≠ m_toNode p →
  holds (deployMove oracle iso deps p r s).1.
Proof.
  intros Hinv Hnone Hne. unfold deployMove. apply quiet_first; [auto with quiet|done|].
  intros t s1 _ Hp1 Hinv1. rewrite <-Hp1 in Hnone. clear Hp1 Hinv.
  rewrite eff_bind_eq. unfold try_catch. rewrite eff_bind_eq, ask_eq.
  destruct (oracle (CDeploy _ _) (world s1)) as [w2 [[]|e]] eqn:Eo; simpl.
  - by apply (recordDeployed_inv p r (iso t) _ (trace s1)).
  - set (s2 := mkSt _ _ _ w2 _).
    assert (holds s2) as Hinv2.
    { apply failed_deploy_inv; [done|]. by eapply deploy_no_overlap. }
    apply quiet_first; [auto with quiet|done|]. intros t' s3 _ _ Hinv3.
    apply quiet_first; [auto with quiet|done|]. intros ? s4 _ _ Hinv4.
    apply quiet_first; [auto with quiet|done|]. by intros.
Qed.

Lemma executeMove_inv p s :
  holds s → m_fromNode p ≠ m_toNode p → holds (executeMove oracle iso date_parse deps p s).1.
Proof.
  intros Hinv Hne. unfold executeMove. apply quiet_first; [auto using quiet_gets|done|].
  intros pending s1 Hg Hp1 Hinv1. injection Hg as <- Hpend.
  destruct pending.
  { apply quiet_first; [auto with quiet|done|]. intros t s2 _ _ Hinv2.
    apply quiet_first; [auto with quiet|done|]. by intros. }
  apply jm_has_false, jm_get_None in Hpend.
  case_match; [done|].
  apply quiet_first; [refine (quiet_ask CHolder _); by intros []|done|].
  intros holder s2 _ Hp2 Hinv2. rewrite <-Hp2 in Hpend. case_match; [done|]. cbv zeta.
  apply quiet_first; [case_match; quiet_auto|done|].
  intros expired s3 _ Hp3 Hinv3. rewrite <-Hp3 in Hpend. destruct expired; [done|].
  apply quiet_first; [by apply safeFetch_quiet|done|].
  intros snap s4 _ Hp4 Hinv4. rewrite <-Hp4 in Hpend.
  destruct snap as [d|]; [|done]. destruct (n_pressureState d); [|done].
  destruct (n_freeMb d); [|done]. case_match; [done|]. by apply deployMove_inv.
Qed.

(** ** Finishing a move *)

Lemma seen_justified w poll tr :
  poll_ok w poll tr → destinationReachableObserved poll = true →
  justified tr w (m_fromNode (proposal poll)).
Proof.
  intros (Hwk&Hne&pre&mid&Htr&Hd&Hr&(e&He&Ha)&Ht&Hf) Hob.
  exists (m_fromNode (proposal poll)), (m_toNode (proposal poll)), pre, mid, e.
  split_and!; try done; [by rewrite Ha; unfold buildMoveAction; rewrite Hwk|].
  left. split; [done|by apply Hf].
Qed.

Lemma timeout_justified w poll tr l t :
  poll_ok w poll tr → destinationReachableObserved poll = false →
  Forall (λ o, neutral o = true) l → O CNow (Ok t) ∈ l → deployedAtMs poll + healthTimeoutMs deps < t →
  justified (tr ++ l) w (m_toNode (proposal poll)).
Proof.
  intros (Hwk&Hne&pre&mid&Htr&Hd&Hr&(e&He&Ha)&Ht&Hf) Hob Hl Hin Hlt.
  exists (m_fromNode (proposal poll)), (m_toNode (proposal poll)), pre, (mid ++ l), e.
  rewrite Htr, <-app_assoc, !none_app.
  assert (none (seen_healthy w (m_toNode (proposal poll))) mid).
  { destruct (decide (none (seen_healthy w (m_toNode (proposal poll))) mid)); [done|].
    exfalso. assert (destinationReachableObserved poll = true) by (by apply Hf). congruence. }
  split_and!; try done; try (eapply neutral_none; [|done]; auto with llamactl).
  - apply elem_of_app. by left.
  - by rewrite Ha; unfold buildMoveAction; rewrite Hwk.
  - right. split; [done|]. split; [split; [done|]; eapply neutral_none; [|done]; auto with llamactl|].
    exists (deployedAtMs poll), t. rewrite !elem_of_app. auto.
Qed.

(** A removal that failed changes nothing; one that worked ends the move. *)
Lemma failed_remove_inv polls tr w n e :
  inv polls tr → justified tr w n → inv polls (tr ++ [O (CRemove w n) (Err e)]).
Proof.
  intros [Hwf Hp Hrm Ht Ho] Hj. split; [done| |by apply removals_ok_snoc| |].
  - intros w0 poll Hw. apply poll_ok_app; [by apply none_one|by apply none_one|by apply none_one|by apply Hp].
  - intros w0. apply tracked_app; [by apply none_one|done].
  - apply no_overlap_app; [|done]. by intros ? ? ? ?%list_elem_of_singleton.
Qed.

Lemma done_remove_inv polls tr w n :
  inv polls tr → justified tr w n → inv (jm_delete polls w) (tr ++ [O (CRemove w n) (Ok tt)]).
Proof.
  intros [Hwf Hp Hrm Ht Ho] Hj. split; [by apply jm_delete_wf| |by apply removals_ok_snoc| |].
  - intros w0 poll. rewrite jm_get_delete by done. case_decide; [done|]. intros Hw.
    apply poll_ok_app; [by apply none_one| |by apply none_one|by apply Hp].
    apply none_cons. split; [by apply bool_decide_false|constructor].
  - intros w0 pre to mid Heq Hr Hf. rewrite jm_get_delete by done. case_decide as Hd.
    + exfalso. subst w0. apply app_split in Heq as [(post'&_&->)|(m&_&Hm)].
      * apply none_app in Hr as [_ [Hr _]%none_cons]. simpl in Hr. by rewrite bool_decide_true in Hr.
      * destruct m as [|? [|??]]; discriminate Hm.
    + assert (tracked polls (tr ++ [O (CRemove w n) (Ok tt)]) w0) as Ht'.
      { apply tracked_app; [by apply none_one|done]. }
      by apply (Ht' pre to mid).
  - apply no_overlap_app; [|done]. by intros ? ? ? ?%list_elem_of_singleton.
Qed.

(** A health probe, and the flag it may set. *)
Lemma probe_inv polls tr w poll r :
  let p := proposal poll in
  let seen := match r with Ok snap => reports_reachable w snap | Err _ => false end in
  inv polls tr → jm_get polls w = Some poll → destinationReachableObserved poll = false →
  inv (if seen then jm_set polls w (mkPoll p (deployedAtMs poll) true) else polls)
      (tr ++ [O (CFetch (ForHealth w) (m_toNode p)) r]).
Proof.
  intros p seen [Hwf Hp Hrm Ht Ho] Hw Hob.
  set (o := O (CFetch _ _) r).
  assert (∀ w' n, seen_healthy w' n o = true → w' = w ∧ seen = true) as Hseen.
  { intros w' n. unfold o, seen. simpl. destruct r; [|done]. intros Hs. to_prop. subst. by to_prop; subst. }
  assert (∀ w' poll', jm_get polls w' = Some poll' → (w' ≠ w ∨ seen = false) → poll_ok w' poll' (tr ++ [o])) as Hold.
  { intros w' poll' Hw' Hc. apply poll_ok_app; [by apply none_one|by apply none_one| |by apply Hp].
    apply none_cons. split; [|constructor]. apply not_true_iff_false. intros [? ?]%Hseen.
    destruct Hc; congruence. }
  assert (no_overlap (tr ++ [o])).
  { apply no_overlap_app; [|done]. by intros ? ? ? ?%list_elem_of_singleton. }
  assert (removals_ok (tr ++ [o])).
  { apply removals_ok_app; [|done]. by intros ? ? ? ?%list_elem_of_singleton. }
  assert (∀ w', tracked polls (tr ++ [o]) w') as Ht'.
  { intros w'. apply tracked_app; [by apply none_one|done]. }
  destruct seen eqn:Es; [|split; auto].
  split; [by apply jm_set_wf| |done| |done].
  - intros w' poll'. rewrite jm_get_set. case_decide as Hd; [|intros Hw'; apply Hold; auto].
    intros [= <-]. subst w'. destruct (Hp _ _ Hw) as (Hwk&Hne&pre&mid&Htr&Hd&Hr&(e&He&Ha)&Hn&Hf).
    split_and!; [done..|]. simpl. exists pre, (mid ++ [o]). rewrite Htr, <-app_assoc, !none_app.
    split_and!; try done; try by apply none_one.
    + exists e. split; [|done]. apply elem_of_app. by left.
    + apply elem_of_app. by left.
    + split; [|done]. intros _ [_ [Hbad _]%none_cons]. unfold o, p in Hbad. simpl in Hbad.
      unfold seen in Es. destruct r; [|done]. rewrite Es, !bool_decide_true in Hbad by done. done.
  - intros w' pre to mid Heq Hr Hf. destruct (decide (w' = w)) as [->|?]; [by rewrite jm_get_set_eq|].
    rewrite jm_get_set_ne by done. by apply (Ht' w' pre to mid).
Qed.

(** A step that keeps the invariant and touches at most [w]'s poll. *)
Definition step_ok (w : string) (s s' : St) : Prop :=
  holds s' ∧ ∀ k, k ≠ w → jm_get (pendingHealthPolls s') k = jm_get (pendingHealthPolls s) k.

Lemma step_ok_trans w s1 s2 s3 : step_ok w s1 s2 → step_ok w s2 s3 → step_ok w s1 s3.
Proof. intros [_ H12] [Hi H23]. split; [done|]. intros k Hk. by rewrite H23, H12. Qed.

Lemma quiet_step_ok {A} w (m : M A) s : quiet m → holds s → step_ok w s (m s).1.
Proof.
  intros Hq Hi. split; [by apply quiet_inv|]. intros k _. by destruct (Hq s) as [-> _].
Qed.

(** Both ways to finish: remove the copy on [n], and on success forget the move. *)
Lemma remove_step n p (good : FleetJournalEntry) (bad : string → FleetJournalEntry) w s :
  (∀ e, is_snapshot (bad e) = false) → is_snapshot good = false →
  holds s → m_workload p = w → justified (trace s) w n →
  step_ok w s
    ((failed ← try_catch (_ ← ask (CRemove (m_workload p) n); mret None) (λ e, mret (Some e));
      match failed with
      | Some e => journal oracle (bad e)
      | None => _ ← set_polls (λ m, jm_delete m w); journal oracle (good)
      end) s : _ * result unit).1.
Proof.
  intros Hbad Hgood Hinv <- Hj. rewrite eff_bind_eq. unfold try_catch. rewrite eff_bind_eq, ask_eq.
  destruct (oracle (CRemove _ _) (world s)) as [w2 [[]|e]]; simpl.
  - rewrite eff_bind_eq. simpl.
    eapply step_ok_trans; [|apply quiet_step_ok; [auto with quiet|]]; simpl.
    + split; simpl; [by apply done_remove_inv|]. intros k Hk.
      rewrite jm_get_delete by apply Hinv. by rewrite decide_False.
    + by apply done_remove_inv.
  - eapply step_ok_trans; [|apply quiet_step_ok; [auto with quiet|]]; simpl.
    + split; simpl; [by apply failed_remove_inv|done].
    + by apply failed_remove_inv.
Qed.

Lemma poll_workload w poll (s : St) : holds s → jm_get (pendingHealthPolls s) w = Some poll →
  m_workload (proposal poll) = w.
Proof. intros Hi Hw. by apply (inv_polls _ _ Hi) in Hw as [? _]. Qed.

Lemma observe_step w poll (s : St) : holds s → jm_get (pendingHealthPolls s) w = Some poll →
  let out := observeDestinationReachable oracle w poll s in
  step_ok w s out.1 ∧
  ∃ poll', jm_get (pendingHealthPolls (W:=W) out.1) w = Some poll' ∧ proposal poll' = proposal poll ∧
    (out.2 = Ok true → destinationReachableObserved poll' = true).
Proof.
  intros Hinv Hw. unfold observeDestinationReachable. cbv zeta.
  destruct (destinationReachableObserved poll) eqn:Hob.
  { split; [by split|]. by exists poll. }
  rewrite (poll_workload w poll s Hinv Hw).
  rewrite eff_bind_eq. unfold safeFetchSnapshot, try_catch. rewrite eff_bind_eq, ask_eq.
  pose proof (λ r, probe_inv _ _ w poll r Hinv Hw Hob) as Hpi. cbv zeta in Hpi.
  destruct (oracle (CFetch _ _) (world s)) as [w2 [snap|e]]; simpl.
  - specialize (Hpi (Ok snap)). simpl in Hpi. rewrite eff_bind_eq.
    destruct (reports_reachable w snap); simpl.
    + split; [|exists (mkPoll (proposal poll) (deployedAtMs poll) true); by rewrite jm_get_set_eq].
      split; simpl; [done|]. intros k Hk. by rewrite jm_get_set_ne.
    + split; [by split|]. by exists poll.
  - specialize (Hpi (Err e)). simpl in Hpi.
    split; [by split|]. by exists poll.
Qed.

Lemma advanceSingle_step w poll (s : St) : holds s → jm_get (pendingHealthPolls s) w = Some poll →
  step_ok w s (advanceSinglePendingPoll oracle iso deps w poll s).1.
Proof.
  intros Hinv Hw. unfold advanceSinglePendingPoll.
  rewrite eff_bind_eq. unfold nowMs. rewrite ask_eq. set (s1 := mkSt _ _ _ _ _).
  assert (step_ok w s s1) as H1.
  { pose proof (quiet_step_ok w _ s nowMs_quiet Hinv) as H. unfold nowMs in H. by rewrite ask_eq in H. }
  destruct (oracle CNow (world s)).2 as [t1|e]; [|done]. simpl.
  rewrite eff_bind_eq, ask_eq. set (s2 := mkSt _ _ _ _ _).
  assert (step_ok w s s2) as H2.
  { eapply step_ok_trans; [done|]. destruct H1 as [Hi _].
    pose proof (quiet_step_ok w _ s1 nowMs_quiet Hi) as H. unfold nowMs in H. by rewrite ask_eq in H. }
  destruct (oracle CNow (world s1)).2 as [t2|e] eqn:E2; [|done]. cbv zeta.
  eapply step_ok_trans; [done|]. destruct H2 as [Hi2 _].
  assert (jm_get (pendingHealthPolls s2) w = Some poll) as Hw2 by done.
  case_match eqn:Hto.
  - to_prop. unfold cleanupTimedOutDeploy.
    apply (remove_step _ (proposal poll)); [done|done|done|by eapply poll_workload|]. 
    change (trace s2) with ((trace s ++ [O CNow (Ok t1)]) ++ [O CNow (Ok t2)]).
    rewrite <-app_assoc. apply (timeout_justified _ _ _ _ t2); [by apply Hinv|done| |right; left|done].
    by repeat constructor.
  - destruct (observe_step w poll s2 Hi2 Hw2) as [Hs3 (poll'&Hw3&Hp3&Hob)].
    rewrite eff_bind_eq. destruct (observeDestinationReachable oracle w poll s2) as [s3 [[]|e]]; simpl in *; [|done..].
    eapply step_ok_trans; [done|]. destruct Hs3 as [Hi3 _]. unfold completeMoveBySourceRemoval.
    apply (remove_step _ (proposal poll)); [done|done|done|by apply (poll_workload w poll s)|].
    rewrite <-Hp3. apply seen_justified; [by apply Hi3|by apply Hob].
Qed.

Lemma advance_each_inv polls (s : St) : holds s → NoDup polls.*1 →
  (∀ k v, (k, v) ∈ polls → jm_get (pendingHealthPolls s) k = Some v) →
  holds (advance_each oracle iso deps polls s).1.
Proof.
  revert s. induction polls as [|[w poll] polls IH]; intros s Hi Hnd Hall; [done|].
  apply NoDup_cons in Hnd as [Hw Hnd]. simpl. rewrite eff_bind_eq.
  destruct (advanceSingle_step w poll s Hi) as [Hi' Hk]; [apply Hall; left|].
  destruct (advanceSinglePendingPoll _ _ _ _ _ s) as [s' [[]|e]]; simpl in *; [|done].
  apply IH; [done..|]. intros k v Hin. rewrite Hk; [apply Hall; by right|].
  intros ->. apply Hw. apply list_elem_of_fmap. by exists (w, v).
Qed.

Lemma advance_inv (s : St) : holds s → holds (advancePendingHealthPolls oracle iso deps s).1.
Proof.
  intros Hi. unfold advancePendingHealthPolls. case_match; [done|]. rewrite eff_bind_eq. simpl.
  apply advance_each_inv; [done|apply Hi|]. intros k v. apply jm_get_elem, Hi.
Qed.

(** ** Proposals *)

Lemma fetch_all_peers ps s s' snaps : fetch_all oracle ps s = (s', Ok snaps) → snaps.*1 = ps.
Proof.
  revert s s' snaps. induction ps as [|peer ps IH]; intros s s' snaps; simpl.
  - by intros [= <- <-].
  - intros (s1&snap&_&(s2&others&Ho&[= <- <-])%eff_bind_ok)%eff_bind_ok. simpl. f_equal. by eapply IH.
Qed.

Lemma choose_best_peer r snaps b f s s' n :
  choose_best oracle deps r snaps b f s = (s', Ok (Some n)) → b = Some n ∨ n ∈ snaps.*1.
Proof.
  revert b f s. induction snaps as [|[peer [snap|]] snaps IH]; intros b f s; simpl.
  - intros [= _ ->]. by left.
  - intros (s1&projected&_&H)%eff_bind_ok.
    assert ((b = Some n ∨ n ∈ snaps.*1) ∨ (Some peer = Some n ∨ n ∈ snaps.*1)) as Hc.
    { repeat case_match; first [left; by eapply IH|right; by eapply IH]. }
    rewrite elem_of_cons. naive_solver.
  - intros H%IH. rewrite elem_of_cons. tauto.
Qed.

Lemma findBest_peer from r s s' n :
  findBestDestination oracle deps from r s = (s', Ok (Some n)) → n ≠ from ∧ n ∈ peers deps.
Proof.
  unfold findBestDestination. intros (s1&snaps&Hf%fetch_all_peers&[?|Hin]%choose_best_peer)%eff_bind_ok; [done|].
  rewrite Hf in Hin. by apply list_elem_of_filter in Hin.
Qed.

(** What a proposal of [evaluateMove] says, and what it took to make it. *)
Lemma evaluateMove_proposal w snap s s' p :
  evaluateMove oracle iso deps w snap s = (s', Ok (Some p)) →
  n_pressureState snap = HIGH ∧ mw_placement w ≠ Some "pinned" ∧ m_workload p = mw_name w ∧
  sourceNode w snap = Some (m_fromNode p) ∧ m_toNode p ∈ peers deps ∧ m_fromNode p ≠ m_toNode p ∧
  m_workloadMemoryMb p = mw_memoryMb w.
Proof.
  unfold evaluateMove. case_decide as Hp; [done|].
  intros (s1&holder&_&H)%eff_bind_ok. case_decide; [done|].
  apply eff_bind_ok in H as (s2&blind&_&H). destruct blind; [done|].
  case_decide as Hpin; [done|].
  apply eff_bind_ok in H as (s3&cooling&_&H). destruct cooling; [done|].
  apply eff_bind_ok in H as (s4&pending&_&H). destruct pending; [done|].
  apply eff_bind_ok in H as (s5&pm&_&H). destruct pm; [done|].
  destruct (sourceNode w snap) as [from|]; [|done].
  apply eff_bind_ok in H as (s6&best&Hb&H). destruct best as [to|]; [|done].
  apply findBest_peer in Hb as [Hne Hin]. case_decide; [done|].
  apply eff_bind_ok in H as (s7&q&Hq&[= _ <-]). unfold makeMoveProposal in Hq.
  do 4 (apply eff_bind_ok in Hq as (?&?&_&Hq)). injection Hq as _ <-. by simpl.
Qed.

Lemma evaluate_each_inv ts node snap ws s :
  holds s → holds (evaluate_each oracle iso date_parse deps ts node snap ws s).1.
Proof.
  revert s. induction ws as [|w ws IH]; intros s Hi; [done|]. simpl. rewrite eff_bind_eq.
  pose proof (quiet_inv _ s (evaluateMove_quiet (migrationWorkload ts node w) snap) Hi) as Hi1.
  destruct (evaluateMove _ _ _ _ _ s) as [s1 [[p|]|e]] eqn:E; simpl in *; [|rewrite eff_bind_eq; by apply IH|done].
  rewrite eff_bind_eq, eff_bind_eq.
  pose proof (executeMove_inv p s1 Hi1) as Hi2.
  destruct (executeMove _ _ _ _ p s1) as [s2 [o|e]]; simpl in *;
    [apply IH|]; apply Hi2; by apply evaluateMove_proposal in E as (_&_&_&_&_&?&_).
Qed.

Lemma new_controller_inv recent w : holds (new_controller recent w : St).
Proof.
  split; simpl; [constructor|done|..].
  - intros pre ? ? ? post. by destruct pre.
  - intros ? pre ? ?. by destruct pre.
  - intros pre ? ? ? ? ? ?. by destruct pre.
Qed.

Lemma evaluateMigration_inv ts node ws free p s :
  holds s → holds (evaluateMigrationWorkloads oracle iso date_parse deps ts node ws free p s).1.
Proof.
  intros Hi. unfold evaluateMigrationWorkloads. rewrite eff_bind_eq.
  pose proof (advance_inv s Hi) as Hi1. destruct (advancePendingHealthPolls _ _ _ s) as [s1 [[]|e]]; [|done].
  by apply evaluate_each_inv.
Qed.

(** ** What precedes a deploy *)

(** Each deploy that [m] makes and each snapshot it publishes satisfies [P],
    given what [m] did before it. *)
Definition notes (P : list Obs → Obs → Prop) (l : list Obs) : Prop :=
  ∀ a o b, l = a ++ o :: b → notable o = true → P a o.
Definition deploys {A} (P : list Obs → Obs → Prop) (m : M A) : Prop := ∀ s, ∃ l,
  trace (m s).1 = trace s ++ l ∧ notes P l.

Lemma notes_neutral P l : Forall (λ o, neutral o = true) l → notes P l.
Proof.
  intros Hn a o b -> Ho. rewrite Forall_app, Forall_cons in Hn. destruct Hn as (_&Hn&_).
  apply neutral_notable in Hn. congruence.
Qed.

Lemma notes_app P l1 l2 : notes P l1 → notes (λ a, P (l1 ++ a)) l2 → notes P (l1 ++ l2).
Proof.
  intros H1 H2 a o b Heq Ho. apply app_split in Heq as [(post'&->&_)|(mid&->&Hm)]; [by eapply H1|by eapply H2].
Qed.

Lemma deploys_quiet {A} P (m : M A) : quiet m → deploys P m.
Proof. intros Hq s. destruct (Hq s) as [_ (l&Hl&Hn)]. exists l. split; [done|by apply notes_neutral]. Qed.

(** The calls of [m] come before those of what follows. *)
Lemma deploys_bind {A B} P (m : M A) (f : A → M B) :
  quiet m →
  (∀ s s' x l, m s = (s', Ok x) → trace s' = trace s ++ l → Forall (λ o, neutral o = true) l →
    deploys (λ a, P (l ++ a)) (f x)) →
  deploys P (m ≫= f).
Proof.
  intros Hq Hf s. rewrite eff_bind_eq. destruct (Hq s) as [_ (l&Hl&Hn)].
  specialize (Hf s). destruct (m s) as [s' [x|e]] eqn:E; simpl in *.
  - destruct (Hf s' x l eq_refl Hl Hn s') as (l'&Hl'&HP). exists (l ++ l').
    split; [by rewrite Hl', Hl, app_assoc|]. apply notes_app; [by apply notes_neutral|done].
  - exists l. split; [done|by apply notes_neutral].
Qed.

Lemma deploys_impl {A} (P Q : list Obs → Obs → Prop) (m : M A) :
  (∀ a o, P a o → Q a o) → deploys P m → deploys Q m.
Proof. intros HPQ Hm s. destruct (Hm s) as (l&?&?). exists l. split; [done|]. intros a o b Hl Ho. eauto. Qed.

(** The same for a first part that deploys, when [P] needs nothing of the past. *)
Definition suffix_closed (P : list Obs → Obs → Prop) : Prop := ∀ l a o, P a o → P (l ++ a) o.

Lemma deploys_seq {A B} P (m : M A) (f : A → M B) :
  suffix_closed P → deploys P m → (∀ s s' x, m s = (s', Ok x) → deploys P (f x)) → deploys P (m ≫= f).
Proof.
  intros HP Hm Hf s. rewrite eff_bind_eq. destruct (Hm s) as (l&Hl&HPl). specialize (Hf s).
  destruct (m s) as [s' [x|e]]; simpl in *; [|by eauto].
  destruct (Hf s' x eq_refl s') as (l'&Hl'&HP'). exists (l ++ l'). split; [by rewrite Hl', Hl, app_assoc|].
  apply notes_app; [done|]. intros a o b Heq Ho. apply HP. by eapply HP'.
Qed.

(** The last answer about the lease before the deploy named this node, and the
    destination was then found without pressure and with enough memory. *)
Definition is_holder_call (o : Obs) : bool := match o with O CHolder _ => true | _ => false end.
Definition checked (needMb : Z) (to : string) (a : list Obs) : Prop :=
  ∃ l1 l2 d freeMb, a = l1 ++ O CHolder (Ok (Some (selfNode deps))) :: l2 ∧ none is_holder_call l2 ∧
    O (CFetch ForCheck to) (Ok d) ∈ l2 ∧ n_pressureState d = NORMAL ∧ n_freeMb d = Some freeMb ∧
    needMb ≤ freeMb.

Lemma recordDeployed_quiet_trace p r ts s : ∃ l,
  trace (recordDeployed oracle deps p r ts s).1 = trace s ++ l ∧ Forall (λ o, neutral o = true) l.
Proof.
  set (m := (_ ← writeSkippedEvictAndMoveProposal oracle deps p ts;
             _ ← reserveDestinationCapacity oracle deps (m_toNode p) r;
             _ ← markMoveInFlight oracle deps (m_workload p); nowMs oracle) : M Z).
  assert (quiet m) as Hm by (unfold m; quiet_auto).
  destruct (Hm s) as [_ (l&Hl&Hn)]. exists l. split; [|done]. rewrite <-Hl. unfold recordDeployed, m.
  do 4 (rewrite !eff_bind_eq; match goal with |- context [match ?x with _ => _ end] => destruct x as [? []] end; [|done]).
  done.
Qed.

Lemma deployMove_deploys p r :
  deploys (λ a o, (∃ r', o = O (CDeploy (m_workload p) (m_toNode p)) r') ∧ ∃ x, a = [O CNow x])
    (deployMove oracle iso deps p r).
Proof.
  apply deploys_bind; [apply nowMs_quiet|]. intros s0 s1 t l0 Hask Ht _.
  assert (l0 = [O CNow (Ok t)]) as ->.
  { unfold nowMs in Hask. rewrite ask_eq in Hask. injection Hask as <- Hr. simpl in Ht.
    apply app_inv_head in Ht. by rewrite <-Ht, Hr. }
  intros s. cbv zeta. rewrite eff_bind_eq. unfold try_catch. rewrite eff_bind_eq, ask_eq. simpl.
  assert (∀ (s2 s3 : St) r' l, trace s2 = trace s ++ [O (CDeploy (m_workload p) (m_toNode p)) r'] →
    trace s3 = trace s2 ++ l → Forall (λ o, neutral o = true) l → ∃ l', trace s3 = trace s ++ l' ∧
      notes (λ a o, (∃ r', o = O (CDeploy (m_workload p) (m_toNode p)) r') ∧
        ∃ x, [O CNow (Ok t)] ++ a = [O CNow x]) l') as Hmain.
  { intros s2 s3 r' l Ht2 Ht3 Hn. exists (O (CDeploy (m_workload p) (m_toNode p)) r' :: l).
    split; [by rewrite Ht3, Ht2, <-app_assoc|]. intros [|x a] o b Heq Ho.
    - injection Heq as <- _. simpl. eauto.
    - injection Heq as _ ->. rewrite Forall_app, Forall_cons in Hn. destruct Hn as (_&Hn&_).
      apply neutral_notable in Hn. congruence. }
  destruct (oracle (CDeploy _ _) (world s)) as [w2 [[]|e]]; simpl.
  - set (s2 := mkSt _ _ _ w2 _). destruct (recordDeployed_quiet_trace p r (iso t) s2) as (l&Hl&Hn).
    by apply (Hmain s2 _ (Ok tt) l).
  - set (s2 := mkSt _ _ _ w2 _).
    match goal with |- ∃ l, trace (?m s2).1 = _ ∧ _ => assert (quiet m) as Hq by quiet_auto end.
    destruct (Hq s2) as [_ (l&Hl&Hn)]. by apply (Hmain s2 _ (Err e) l).
Qed.

Lemma ask_trace c (s s' : St) x l : ask c s = (s', Ok x) → trace s' = trace s ++ l → l = [O c (Ok x)].
Proof. rewrite ask_eq. intros [= <- Hr] Hl. simpl in Hl. apply app_inv_head in Hl. by rewrite <-Hl, Hr. Qed.

Lemma safeFetch_trace why n (s s' : St) d l :
  safeFetchSnapshot oracle why n s = (s', Ok (Some d)) → trace s' = trace s ++ l → l = [O (CFetch why n) (Ok d)].
Proof.
  unfold safeFetchSnapshot, try_catch. rewrite eff_bind_eq, ask_eq.
  destruct (oracle _ _) as [w2 [snap|e]]; simpl; [|done]. intros [= <- ->] Hl. simpl in Hl.
  by apply app_inv_head in Hl.
Qed.

Lemma executeMove_deploys p : deploys
  (λ a o, (∃ r, o = O (CDeploy (m_workload p) (m_toNode p)) r) ∧
    checked (minRequiredFreeMb deps (m_workloadMemoryMb p)) (m_toNode p) a)
  (executeMove oracle iso date_parse deps p).
Proof.
  unfold executeMove. apply deploys_bind; [apply quiet_gets|]. intros _ _ pending l0 _ _ _.
  destruct pending; [apply deploys_quiet; quiet_auto|].
  case_match; [by apply deploys_quiet, quiet_ret|].
  apply deploys_bind; [refine (quiet_ask CHolder _); by intros []|]. intros s1 s2 holder l1 Hask Ht _.
  apply (ask_trace CHolder _ _ _ _ Hask) in Ht as ->. clear Hask.
  case_decide as Hh; [by apply deploys_quiet, quiet_ret|]. subst holder. cbv zeta.
  apply deploys_bind; [case_match; quiet_auto|]. intros s3 s4 expired l2 Hexp Ht2 _.
  assert (none is_holder_call l2) as Hl2.
  { revert Hexp. case_match.
    - intros (s5&now&Hn&[= <- _])%eff_bind_ok. unfold nowMs in Hn.
      apply (ask_trace CNow _ _ _ _ Hn) in Ht2 as ->. by apply none_one.
    - intros [= <- _]. rewrite <-(app_nil_r (trace s3)) in Ht2 at 1. apply app_inv_head in Ht2 as <-. apply none_nil. }
  destruct expired; [by apply deploys_quiet, quiet_ret|].
  apply deploys_bind; [by apply safeFetch_quiet|]. intros s5 s6 snap l3 Hfe Ht3 _.
  destruct snap as [d|]; [|by apply deploys_quiet, quiet_ret].
  apply (safeFetch_trace _ _ _ _ _ _ Hfe) in Ht3 as ->.
  destruct (n_pressureState d) eqn:Hd; [|by apply deploys_quiet, quiet_ret].
  destruct (n_freeMb d) as [freeMb|] eqn:Hfree; [|by apply deploys_quiet, quiet_ret].
  destruct (freeMb <? _) eqn:Hneed; [by apply deploys_quiet, quiet_ret|]. to_prop.
  eapply deploys_impl; [|apply deployMove_deploys]. intros a o [Ho [x ->]]. split; [done|].
  exists l0, (l2 ++ [O (CFetch ForCheck (m_toNode p)) (Ok d); O CNow x]), d, freeMb.
  split_and!; [done| |rewrite elem_of_app; right; left|done..].
  rewrite none_app. split; [done|]. by repeat constructor.
Qed.

(** Why a deploy happens in a tick: a workload of it, on a node under
    pressure, goes to a checked peer.  No snapshot is published. *)
Definition tick_deploys (node : string) (workloads : list WorkloadSnapshot) (pressureDetected : bool)
    (a : list Obs) (o : Obs) : Prop :=
  ∃ w to r, o = O (CDeploy w to) r ∧ pressureDetected = true ∧ ∃ ws, ws ∈ workloads ∧ w_name ws = w ∧ w_placement ws ≠ Some "pinned" ∧
    to ≠ node ∧ to ∈ peers deps ∧ checked (minRequiredFreeMb deps (w_expectedMemoryMb ws)) to a.

Lemma checked_app need to l a : checked need to a → checked need to (l ++ a).
Proof.
  intros (l1&l2&d&f&->&H). exists (l ++ l1), l2, d, f. split; [by rewrite app_assoc|done].
Qed.

Lemma tick_deploys_suffix node ws p : suffix_closed (tick_deploys node ws p).
Proof.
  intros l a o (w&to&r&Ho&Hp&x&?&?&?&?&?&Hc). exists w, to, r. split_and!; [done..|].
  exists x. split_and!; try done. by apply checked_app.
Qed.

Lemma evaluate_each_deploys ts node all free p ws :
  (∀ w, w ∈ ws → w ∈ all) →
  deploys (tick_deploys node all p) (evaluate_each oracle iso date_parse deps ts node
    (nodeSnapshot node all free p) ws).
Proof.
  induction ws as [|w ws IH]; intros Hall; simpl; [by apply deploys_quiet, quiet_ret|].
  apply deploys_bind; [apply evaluateMove_quiet|]. intros s s' mp l He _ _.
  apply deploys_impl with (tick_deploys node all p); [intros; by apply tick_deploys_suffix|].
  apply deploys_seq; [apply tick_deploys_suffix| |intros _ _ _ _; apply IH; intros; apply Hall; by right].
  destruct mp as [q|]; [|by apply deploys_quiet, quiet_ret].
  apply deploys_seq; [apply tick_deploys_suffix| |intros; by apply deploys_quiet, quiet_ret].
  eapply deploys_impl; [|apply executeMove_deploys].
  apply evaluateMove_proposal in He as (Hp&Hpin&Hw&Hfrom&Hto&Hne&Hmem).
  intros a o [[r ->] Hc]. rewrite Hmem in Hc. simpl in *. exists (m_workload q), (m_toNode q), r.
  split_and!; [done|by destruct p|]. exists w. split_and!; try done; [apply Hall; left| |].
  - intros Hx. apply Hpin. by rewrite Hx.
  - unfold sourceNode in Hfrom. simpl in Hfrom. case_match; congruence.
Qed.

(** Finishing moves deploys nothing. *)
Definition never_deploys {A} (m : M A) : Prop := deploys (λ _ _, False) m.

Lemma never_quiet {A} (m : M A) : quiet m → never_deploys m.
Proof. apply deploys_quiet. Qed.
Lemma never_bind {A B} (m : M A) (f : A → M B) :
  never_deploys m → (∀ a, never_deploys (f a)) → never_deploys (m ≫= f).
Proof. intros Hm Hf. apply deploys_seq; [by intros ? ?|done|]. intros. apply Hf. Qed.
Lemma never_ask c : (∀ r, notable (O c r) = false) → never_deploys (ask c).
Proof.
  intros Hc s. rewrite ask_eq. simpl. eexists. split; [done|].
  intros [|x [|??]] y b Heq Hy; [|discriminate Heq..]. injection Heq as <- _. by rewrite Hc in Hy.
Qed.
Lemma never_set_polls f : never_deploys (set_polls (W:=W) f).
Proof. intros s. exists []. split; [by rewrite app_nil_r|]. by intros [|??]. Qed.
Lemma never_try {A} (m : M A) (h : string → M A) :
  never_deploys m → (∀ e, never_deploys (h e)) → never_deploys (try_catch m h).
Proof.
  intros Hm Hh s. unfold try_catch. destruct (Hm s) as (l&Hl&Hn).
  destruct (m s) as [s' [a|e]]; simpl in *; [by eauto|].
  destruct (Hh e s') as (l'&Hl'&Hn'). exists (l ++ l'). split; [by rewrite Hl', Hl, app_assoc|by apply notes_app].
Qed.

Ltac never_auto :=
  repeat match goal with
  | |- @never_deploys _ ?m =>
      lazymatch m with
      | mbind _ _ => apply never_bind; [|intros ?]
      | try_catch _ _ => apply never_try; [|intros ?]
      | set_polls _ => apply never_set_polls
      | FleetMigration.ask _ ?c => refine (never_ask c _); by intros ?
      | match _ with _ => _ end => case_match
      | let _ := _ in _ => cbv zeta
      | _ => apply never_quiet; quiet_auto
      end
  end.

Lemma advanceSingle_never w poll : never_deploys (advanceSinglePendingPoll oracle iso deps w poll).
Proof.
  unfold advanceSinglePendingPoll, cleanupTimedOutDeploy, completeMoveBySourceRemoval,
    observeDestinationReachable, safeFetchSnapshot. never_auto.
Qed.
Lemma advance_each_never l : never_deploys (advance_each oracle iso deps l).
Proof.
  induction l as [|[w poll] l IH]; simpl; [apply never_quiet, quiet_ret|].
  apply never_bind; [apply advanceSingle_never|done].
Qed.
Lemma advance_never : never_deploys (advancePendingHealthPolls oracle iso deps).
Proof.
  unfold advancePendingHealthPolls. case_match; [apply never_quiet, quiet_ret|].
  apply never_bind; [apply never_quiet, quiet_gets|apply advance_each_never].
Qed.

Lemma evaluateMigration_deploys ts node ws free p :
  deploys (tick_deploys node ws p) (evaluateMigrationWorkloads oracle iso date_parse deps ts node ws free p).
Proof.
  unfold evaluateMigrationWorkloads. apply deploys_seq; [apply tick_deploys_suffix| |].
  - by eapply deploys_impl; [|apply advance_never].
  - intros _ _ _ _. by apply evaluate_each_deploys.
Qed.
End migration.
