(* ===== verification/FleetLoop.v ===== *)
(** * Fleet supervisor: the loop

    packages/fleet-supervisor/src/loop.ts: what a tick does with its probes'
    answers, in the order of [runTick], the recovery from a tick that throws,
    and the check of the source's revision at the loop's boundary.  Every
    journal entry of a loop, the migration controller's too, goes through one
    deduplicating writer; here the writer answers the controller's [CJournal]
    calls, with the set of ids it remembers beside the outside world.  The
    probes themselves, the throughput sampling and the slot-progress log,
    which decide nothing, are not modelled; their answers and what else the
    outside decides in a tick are the tick's input. *)

From S2P Require Import Prelude JsMap JsText JsJson FleetTypes FleetLease FleetPressure FleetMigration.

#[local] Open Scope string_scope.
#[local] Open Scope list_scope.
#[local] Open Scope Z_scope.

Record LoopOptions := mkOptions {
  o_node : string;
  pressureThresholds : PressureThresholds;
  degradationThresholds : DegradationThresholds;
  pressureStatusEveryTicks : Z;
  migrationController : bool;               (** whether there is one *)
  leaseTerm : option Z; leaseEligible : bool;
  startupRev : option string; reloadOnSourceChange : bool
}.

(** What the outside decides in a tick: the time, the probes' answers, whether
    [onTick] throws, and what [checkSourceStale] finds after it. *)
Record TickInput := mkInput {
  ti_ts : string; ti_node_mem : result NodeMemSnapshot; ti_workloads : list WorkloadSnapshot;
  ti_onTick : result unit;
  ti_boundary_ts : string; ti_source : bool * option string
}.

Inductive Boundary := Continue | Reload | Crashed.

Section loop.
Context {W : Type} (oracle : ∀ c : MCall, W → W * result (MResp c)).
Context (iso : Z → string) (date_parse : string → option Z) (localeCompare : string → string → Z).
Context (deps : Deps) (opts : LoopOptions).

(** The outside as the loop's users of the journal meet it. *)
Definition loop_oracle (c : MCall) : BoundedIdSet * W → (BoundedIdSet * W) * result (MResp c) :=
  match c return BoundedIdSet * W → (BoundedIdSet * W) * result (MResp c) with
  | CJournal e => dedup_write (λ e, oracle (CJournal e)) e
  | c => λ '(seen, w), let '(w', r) := oracle c w in ((seen, w'), r)
  end.

(** The controller's state holds the outside and the trace. *)
Record LoopState := mkLoop {
  controller : St (W:=BoundedIdSet * W);
  pressureWindow : PressureWindow;
  pressure : PressureTransitionResult;
  workloadHealth : jsmap string WorkloadHealthState;
  tickSeq : Z;
  lastSourceStaleSig : option string
}.

Notation L := (eff LoopState).

Definition set_controller (c : St) (s : LoopState) : LoopState :=
  mkLoop c (pressureWindow s) (pressure s) (workloadHealth s) (tickSeq s) (lastSourceStaleSig s).
Definition set_window (f : PressureWindow → PressureWindow) (s : LoopState) : LoopState :=
  mkLoop (controller s) (f (pressureWindow s)) (pressure s) (workloadHealth s) (tickSeq s) (lastSourceStaleSig s).
Definition set_pressure (p : PressureTransitionResult) (s : LoopState) : LoopState :=
  mkLoop (controller s) (pressureWindow s) p (workloadHealth s) (tickSeq s) (lastSourceStaleSig s).
Definition set_health (h : jsmap string WorkloadHealthState) (s : LoopState) : LoopState :=
  mkLoop (controller s) (pressureWindow s) (pressure s) h (tickSeq s) (lastSourceStaleSig s).
Definition set_seq (n : Z) (s : LoopState) : LoopState :=
  mkLoop (controller s) (pressureWindow s) (pressure s) (workloadHealth s) n (lastSourceStaleSig s).
Definition set_sig (sig : option string) (s : LoopState) : LoopState :=
  mkLoop (controller s) (pressureWindow s) (pressure s) (workloadHealth s) (tickSeq s) sig.

(** The loop's fresh state, around a controller just constructed. *)
Definition new_loop (recent : list (string * Z)) (w : W) : LoopState :=
  mkLoop (new_controller recent (new_id_set, w)) (new_window (consecutiveTicks (pressureThresholds opts)))
    initial_pressure [] 0 None.

Definition lift {A} (m : eff (St (W:=BoundedIdSet * W)) A) : L A := λ s,
  let '(c, r) := m (controller s) in (set_controller c s, r).

Definition writeJournalEntry (e : FleetJournalEntry) : L unit := lift (journal loop_oracle e).

(** The probe of the node's memory, which may throw. *)
Definition probed {A} (r : result A) : L A := λ s, (s, r).

(** [applyWorkloadDegradation] updates the health map as it goes. *)
Definition degradation_step (ts : string) (ws : list WorkloadSnapshot) : L unit := λ s,
  let '(s', (health, r)) :=
    applyWorkloadDegradation writeJournalEntry ts (o_node opts) ws (degradationThresholds opts)
      (workloadHealth s) s in
  (set_health health s', r).

Definition lease_intent (seq : Z) : option Json :=
  (λ term, lease_json (mkLease (o_node opts) term (leaseEligible opts) seq)) <$> leaseTerm opts.

Definition runTick (i : TickInput) : L unit :=
  let ts := ti_ts i in
  let node := o_node opts in
  let t := pressureThresholds opts in
  seq ← gets (λ s, tickSeq s + 1);
  _ ← modify (set_seq seq);
  mem ← probed (ti_node_mem i);
  let ws := ti_workloads i in
  _ ← modify (set_window (push mem ws));
  window ← gets pressureWindow;
  state ← gets pressure;
  updated ← applyPressureTransition writeJournalEntry ts node mem (detectPressure localeCompare window t)
              window state t;
  _ ← modify (set_pressure updated);
  _ ← emitPeriodicPressureStatus writeJournalEntry date_parse ts node mem updated t (pressureStatusEveryTicks opts);
  _ ← degradation_step ts ws;
  _ ← (if migrationController opts
       then lift (evaluateMigrationWorkloads loop_oracle iso date_parse deps ts node ws (free_mb mem)
                    (pressureDetected updated))
       else mret tt);
  moves ← gets (λ s, if migrationController opts then getInFlightMoves (controller s) else []);
  _ ← writeJournalEntry (JSnapshot (mkFleetSnapshot ts node mem ws (lease_intent seq) moves));
  _ ← writeJournalEntry (JHeartbeat ts node);
  probed (ti_onTick i).

(** [runTickWithRecovery], with [writeTickError]. *)
Definition runTickWithRecovery (i : TickInput) : L unit :=
  try_catch (runTick i) (λ error,
    try_catch (writeJournalEntry (JTickError (ti_boundary_ts i) (o_node opts) error)) (λ _, mret tt)).

Definition checkSourceBoundary (i : TickInput) : L Boundary :=
  match startupRev opts with
  | None => mret Continue
  | Some rev =>
      let '(shouldReload, currentRev) := ti_source i in
      match currentRev with
      | None => mret Continue
      | Some cur =>
          if decide (cur = rev) then mret Continue
          else
            let reloading := shouldReload && reloadOnSourceChange opts in
            let sig := cur +:+ "|" +:+ (if reloading then "true" else "false") in
            last ← gets lastSourceStaleSig;
            if decide (last = Some sig) then mret Continue
            else
              _ ← modify (set_sig (Some sig));
              _ ← writeJournalEntry (JSourceStale (ti_boundary_ts i) (o_node opts) rev cur reloading);
              mret (if reloading then Reload else Continue)
      end
  end.

(** A tick and the boundary after it; a throw at the boundary ends the loop. *)
Definition loop_step (i : TickInput) (s : LoopState) : LoopState * Boundary :=
  let '(s1, _) := runTickWithRecovery i s in
  match checkSourceBoundary i s1 with
  | (s2, Ok b) => (s2, b)
  | (s2, Err _) => (s2, Crashed)
  end.

(** The loop, until it is stopped, reloads or crashes. *)
Fixpoint run_loop (inputs : list TickInput) (s : LoopState) : LoopState :=
  match inputs with
  | [] => s
  | i :: rest =>
      match loop_step i s with
      | (s', Continue) => run_loop rest s'
      | (s', _) => s'
      end
  end.

End loop.

(** ** How a peer's snapshot becomes a destination *)

Definition DEFAULT_PRESSURE_THRESHOLDS : PressureThresholds := mkPressureThresholds 512 2048 3 5.

Definition peerSnapshotToNodeSnapshot (s : FleetSnapshotEntry) : NodeSnapshot :=
  let hot := isPressureHot (mkWindowEntry (fs_node_mem s) (fs_workloads s)) DEFAULT_PRESSURE_THRESHOLDS in
  mkSnapshot (Some (fs_node s)) (if hot then HIGH else NORMAL) (Some (free_mb (fs_node_mem s)))
    (Some ((λ w, (w_name w, w_reachable w)) <$> fs_workloads s)).
