(* ===== verification/FleetLoopProps.v ===== *)
(** * Fleet supervisor: theorems about the loop

    What any run of the supervisor loop promises about moves, whatever the
    probes, peers, clock, lease and journal answer: when copies are removed,
    that a workload is not moved twice at once, what precedes a deploy, and
    that the published snapshots keep peers from moving what is being moved. *)

From S2P Require Import Prelude JsMap JsText FleetTypes FleetLease FleetPressure FleetMigration FleetMigrationProps FleetLoop.

#[local] Open Scope string_scope.
#[local] Open Scope list_scope.
#[local] Open Scope Z_scope.

Section loop.
Context {W : Type} (oracle : ∀ c : MCall, W → W * result (MResp c)).
Context (iso : Z → string) (date_parse : string → option Z) (localeCompare : string → string → Z).
Context (deps : Deps) (opts : LoopOptions).

Notation LoopState := (LoopState (W:=W)).
Notation L := (eff LoopState).
Notation St := (St (W:=BoundedIdSet * W)).
Notation polls c := (pendingHealthPolls (W:=BoundedIdSet * W) c).
Notation tr c := (trace (W:=BoundedIdSet * W) c).
Notation loop_oracle := (loop_oracle oracle).
Notation run_loop := (run_loop oracle iso date_parse localeCompare deps opts).
Notation write := (writeJournalEntry oracle).

(** ** What holds of a snapshot when it is published *)

(** Its moves are those deployed and neither finished nor moved again; when
    there is a controller, none is left out, unless the node's own journal or
    clock threw since its deploy. *)
Definition published (pre : list Obs) (moves : list InFlightMove) : Prop :=
  (∀ m, m ∈ moves → i_fromNode m ≠ i_toNode m ∧ ∃ pre1 mid,
    pre = pre1 ++ O (CDeploy (i_workload m) (i_toNode m)) (Ok tt) :: mid ∧
    none (deployed (i_workload m)) mid ∧ none (removed (i_workload m)) mid) ∧
  (migrationController opts = true → ∀ pre1 w to mid,
    pre = pre1 ++ O (CDeploy w to) (Ok tt) :: mid → none (removed w) mid → none local_failure mid →
    ∃ m, m ∈ moves ∧ i_workload m = w).

Lemma inv_published c : inv deps (polls c) (tr c) →
  published (tr c) (if migrationController opts then getInFlightMoves c else []).
Proof.
  intros Hi. destruct (migrationController opts) eqn:Em; [|by split; [intros m ?%not_elem_of_nil|congruence]].
  unfold published, getInFlightMoves. rewrite Em. split.
  - intros m ([w poll]&->&Hin)%list_elem_of_fmap. simpl.
    apply jm_get_elem in Hin; [|apply Hi]. destruct (inv_polls _ _ _ Hi w poll Hin) as (->&Hne&pre&mid&Htr&Hd&Hr&_).
    split; [done|]. by exists pre, mid.
  - intros _ pre1 w to mid Htr Hr Hf.
    destruct (inv_tracked _ _ _ Hi w pre1 to mid Htr Hr Hf) as [poll Hw].
    apply jm_get_elem in Hw; [|apply Hi]. eexists. split; [apply list_elem_of_fmap; exists (w, poll); by split|].
    simpl. by destruct (inv_polls _ _ _ Hi w poll) as [? _]; [apply jm_get_elem; [apply Hi|]|].
Qed.

(** ** Steps of the loop, as seen from the controller *)

(** A deploy has a tick of the run behind it, a published snapshot is right. *)
Definition good (inputs : list TickInput) (pre : list Obs) (o : Obs) : Prop :=
  match o with
  | O (CDeploy _ _) _ => ∃ i, i ∈ inputs ∧ tick_deploys deps (o_node opts) (ti_workloads i) true pre o
  | O (CJournal (JSnapshot s)) _ => published pre (fs_inFlightMoves s)
  | _ => True
  end.

Definition step (inputs : list TickInput) (c c' : St) : Prop :=
  inv deps (polls c) (tr c) →
  inv deps (polls c') (tr c') ∧ ∃ l, tr c' = tr c ++ l ∧ notes (λ a, good inputs (tr c ++ a)) l.

Lemma notes_nil P : notes P [].
Proof. by intros [|? ?] ? ?. Qed.

Lemma step_refl inputs c : step inputs c c.
Proof. intros Hi. split; [done|]. exists []. rewrite app_nil_r. split; [done|apply notes_nil]. Qed.

Lemma step_trans inputs c1 c2 c3 : step inputs c1 c2 → step inputs c2 c3 → step inputs c1 c3.
Proof.
  intros H12 H23 Hi. destruct (H12 Hi) as [Hi2 (l1&Hl1&Hn1)]. destruct (H23 Hi2) as [Hi3 (l2&Hl2&Hn2)].
  split; [done|]. exists (l1 ++ l2). split; [by rewrite Hl2, Hl1, app_assoc|].
  apply notes_app; [done|]. intros a o b Heq Ho. rewrite app_assoc, <-Hl1. by eapply Hn2.
Qed.

Lemma step_mono inputs inputs' c c' : (∀ i, i ∈ inputs → i ∈ inputs') → step inputs c c' → step inputs' c c'.
Proof.
  intros Hin Hs Hi. destruct (Hs Hi) as [Hi' (l&Hl&Hn)]. split; [done|]. exists l. split; [done|].
  intros a o b Heq Ho. specialize (Hn a o b Heq Ho). unfold good in *. repeat case_match; naive_solver.
Qed.

Definition acts {A} (inputs : list TickInput) (m : L A) : Prop := ∀ s, step inputs (controller s) (controller (m s).1).

Section acts.
Context (inputs : list TickInput).
Notation acts := (acts inputs).

Lemma acts_id {A} (m : L A) : (∀ s, controller (m s).1 = controller s) → acts m.
Proof. intros H s. rewrite H. apply step_refl. Qed.

Lemma acts_bind {A B} (m : L A) (f : A → L B) : acts m → (∀ a, acts (f a)) → acts (m ≫= f).
Proof.
  intros Hm Hf s. rewrite eff_bind_eq. specialize (Hm s). destruct (m s) as [s' [a|e]]; [|done].
  by eapply step_trans; [exact Hm|apply Hf].
Qed.

Lemma acts_try {A} (m : L A) (h : string → L A) : acts m → (∀ e, acts (h e)) → acts (try_catch m h).
Proof.
  intros Hm Hh s. unfold try_catch. specialize (Hm s). destruct (m s) as [s' [a|e]]; [done|].
  by eapply step_trans; [exact Hm|apply Hh].
Qed.

Lemma acts_lift_quiet {A} (m : eff St A) : quiet m → acts (lift m).
Proof.
  intros Hq s Hi. unfold lift. pose proof (quiet_inv date_parse deps m (controller s) Hq Hi) as Hi'.
  destruct (Hq (controller s)) as [_ (l&Hl&Hn)].
  destruct (m (controller s)) as [c r]. simpl in *. split; [done|]. exists l. split; [done|by apply notes_neutral].
Qed.

Lemma acts_write e : is_snapshot e = false → acts (write e).
Proof. intros He. by apply acts_lift_quiet, journal_quiet. Qed.

Lemma acts_publish mem ts node ws lease : acts (
  moves ← gets (λ s, if migrationController opts then getInFlightMoves (controller s) else []);
  write (JSnapshot (mkFleetSnapshot ts node mem ws lease moves))).
Proof.
  intros s Hi. rewrite eff_bind_eq. simpl. set (moves := if migrationController opts then _ else _).
  set (e := JSnapshot _). unfold FleetLoop.writeJournalEntry, lift, journal. rewrite ask_eq. simpl.
  set (r := (dedup_write _ e _).2). split.
  - apply (inv_extend date_parse); [done|..].
    + by intros ? ? ? ?%list_elem_of_singleton.
    + by intros ? ? ? ?%list_elem_of_singleton.
    + intros w poll _. by apply none_one.
  - eexists. split; [done|]. intros [|? [|? ?]] y b Heq _; [|discriminate Heq..]. injection Heq as <- _.
    rewrite app_nil_r. by apply inv_published.
Qed.

Lemma acts_migration ts ws free p i : i ∈ inputs → ti_workloads i = ws →
  acts (lift (evaluateMigrationWorkloads loop_oracle iso date_parse deps ts (o_node opts) ws free p)).
Proof.
  intros Hin <- s Hi. unfold lift.
  pose proof (evaluateMigration_inv loop_oracle iso date_parse deps ts (o_node opts) (ti_workloads i) free p _ Hi) as Hi'.
  destruct (evaluateMigration_deploys loop_oracle iso date_parse deps ts (o_node opts) (ti_workloads i) free p
    (controller s)) as (l&Hl&Hn).
  destruct (evaluateMigrationWorkloads _ _ _ _ _ _ _ _ _ _) as [c r]. simpl in *. split; [done|].
  exists l. split; [done|]. intros a o b Heq Ho. destruct (Hn a o b Heq Ho) as (w&to&r0&->&->&Hd).
  simpl. exists i. split; [done|]. apply tick_deploys_suffix. by exists w, to, r0.
Qed.

Lemma acts_degradation ts ws : acts (degradation_step oracle opts ts ws).
Proof.
  intros s. unfold degradation_step. generalize (workloadHealth s).
  assert (∀ m s1, step inputs (controller s1) (controller
    (applyWorkloadDegradation write ts (o_node opts) ws (degradationThresholds opts) m s1).1)) as H.
  { induction ws as [|w rest IH]; intros m s1; simpl; [apply step_refl|].
    destruct (detectDegradation _ _ _) as [r|]; [|apply IH].
    set (writes := mbind _ _ : L unit).
    assert (acts writes) as Hw.
    { apply acts_bind; [by apply acts_write|]. intros _. destruct (dr_proposal r); [by apply acts_write|by apply acts_id]. }
    specialize (Hw s1).
    destruct (writes s1) as [s2 [x|e]]; simpl in *; [|done].
    by eapply step_trans; [exact Hw|apply IH]. }
  intros m. specialize (H m s). by destruct (applyWorkloadDegradation _ _ _ _ _ _ _) as [s' [h r]].
Qed.

Ltac acts_auto :=
  repeat match goal with
  | |- acts ?m =>
      lazymatch m with
      | mbind _ _ => apply acts_bind; [|intros ?]
      | writeJournalEntry _ _ => by apply acts_write
      | match _ with _ => _ end => case_match
      | let _ := _ in _ => cbv zeta
      | try_catch _ _ => apply acts_try; [|intros ?]
      | _ => by apply acts_id
      end
  end.

Lemma acts_pressure ts node mem p w st t :
  acts (applyPressureTransition write ts node mem p w st t).
Proof. unfold applyPressureTransition. acts_auto. Qed.

Lemma acts_emit ts node mem st t every : acts (emitPeriodicPressureStatus write date_parse ts node mem st t every).
Proof. unfold emitPeriodicPressureStatus. acts_auto. Qed.

Lemma acts_runTick i : i ∈ inputs → acts (runTick oracle iso date_parse localeCompare deps opts i).
Proof.
  intros Hin. unfold runTick. cbv zeta.
  apply acts_bind; [by apply acts_id|intros seq]. apply acts_bind; [by apply acts_id|intros _].
  apply acts_bind; [by apply acts_id|intros mem]. apply acts_bind; [by apply acts_id|intros _].
  apply acts_bind; [by apply acts_id|intros window]. apply acts_bind; [by apply acts_id|intros state].
  apply acts_bind; [apply acts_pressure|intros updated]. apply acts_bind; [by apply acts_id|intros _].
  apply acts_bind; [apply acts_emit|intros _]. apply acts_bind; [apply acts_degradation|intros _].
  apply acts_bind; [case_match; [by eapply acts_migration|by apply acts_id]|intros _].
  intros s. pose proof (acts_publish mem (ti_ts i) (o_node opts) (ti_workloads i) (lease_intent opts seq) s) as Hp.
  rewrite eff_bind_eq in *. simpl in *. rewrite eff_bind_eq.
  destruct (write _ s) as [s1 [x|e]]; [|done]. eapply step_trans; [exact Hp|].
  apply acts_bind; [by apply acts_write|]. intros _. by apply acts_id.
Qed.

Lemma loop_step_acts i s : i ∈ inputs →
  step inputs (controller s) (controller (loop_step oracle iso date_parse localeCompare deps opts i s).1).
Proof.
  intros Hin. unfold loop_step.
  assert (acts (runTickWithRecovery oracle iso date_parse localeCompare deps opts i)) as Ht.
  { unfold runTickWithRecovery. apply acts_try; [by apply acts_runTick|intros e].
    apply acts_try; [by apply acts_write|intros _; by apply acts_id]. }
  assert (acts (checkSourceBoundary oracle opts i)) as Hb.
  { unfold checkSourceBoundary. acts_auto. }
  specialize (Ht s). destruct (runTickWithRecovery _ _ _ _ _ _ i s) as [s1 x]. simpl in *.
  eapply step_trans; [exact Ht|]. specialize (Hb s1).
  by destruct (checkSourceBoundary _ _ i s1) as [s2 [b|e]].
Qed.
End acts.

Lemma run_loop_step inputs s : step inputs (controller s) (controller (run_loop inputs s)).
Proof.
  revert s. induction inputs as [|i rest IH]; intros s; simpl; [apply step_refl|].
  pose proof (loop_step_acts (i :: rest) i s ltac:(left)) as Hi.
  destruct (loop_step _ _ _ _ _ _ i s) as [s' []]; simpl in *; [|done..].
  eapply step_trans; [exact Hi|]. eapply step_mono; [|apply IH]. intros j ?. by right.
Qed.

Lemma run_loop_inv inputs recent w0 :
  inv deps (polls (controller (run_loop inputs (new_loop opts recent w0)))) (tr (controller (run_loop inputs (new_loop opts recent w0)))).
Proof. apply run_loop_step. apply (new_controller_inv deps). Qed.

Lemma run_loop_good inputs recent w0 pre o post :
  tr (controller (run_loop inputs (new_loop opts recent w0))) = pre ++ o :: post → notable o = true →
  good inputs pre o.
Proof.
  intros Heq Ho. destruct (run_loop_step inputs (new_loop opts recent w0)) as [_ (l&Hl&Hn)];
    [apply (new_controller_inv deps)|]. rewrite Hl in Heq. by apply (Hn pre o post).
Qed.

(** C22 (safety): in any run of the supervisor loop, with any answers from
    outside, a workload's copy is removed only to finish a move of it: the
    move was deployed with success and journalled as a proposal, no other
    deploy or removal of the workload came since, and either the copy is the
    source's and a health probe made for it found the destination's reachable
    since the deploy, or the copy is the destination's, no such probe did, and
    more than the health timeout lies between two clock readings since the
    deploy. *)
Theorem removals_justified inputs recent w0 pre w n r post :
  tr (controller (run_loop inputs (new_loop opts recent w0))) = pre ++ O (CRemove w n) r :: post →
  justified deps pre w n.
Proof. intros Heq. destruct (run_loop_inv inputs recent w0) as [_ _ Hr _ _]. by eapply Hr. Qed.

(** In any run of the loop a workload is not deployed a second time
    before the first move ended: between two deploys of it lies a successful
    removal of one of its copies, unless the node's own journal or clock threw
    in between. *)
Theorem no_second_move inputs recent w0 pre w to1 mid to2 r post :
  tr (controller (run_loop inputs (new_loop opts recent w0))) =
    pre ++ O (CDeploy w to1) (Ok tt) :: mid ++ O (CDeploy w to2) r :: post →
  ¬ none (removed w) mid ∨ ¬ none local_failure mid.
Proof. intros Heq. destruct (run_loop_inv inputs recent w0) as [_ _ _ _ Ho]. by eapply Ho. Qed.

(** Every deploy of a run belongs to a tick that detected pressure
    on the node, is of a workload of that tick that is not pinned, and goes to
    a peer other than the node; the last answer about the lease before it
    named this node, and the destination's snapshot fetched after that answer
    showed no pressure and at least the memory that the workload and the
    policy require. *)
Theorem deploys_guarded inputs recent w0 pre w to r post :
  tr (controller (run_loop inputs (new_loop opts recent w0))) = pre ++ O (CDeploy w to) r :: post →
  ∃ i ws, i ∈ inputs ∧ ws ∈ ti_workloads i ∧ w_name ws = w ∧ w_placement ws ≠ Some "pinned" ∧
    to ≠ o_node opts ∧ to ∈ peers deps ∧
    checked deps (minRequiredFreeMb deps (w_expectedMemoryMb ws)) to pre.
Proof.
  intros Heq. apply run_loop_good in Heq as (i&Hi&w'&to'&r'&Hw&_&ws&?&?&?&?&?&?); [|done].
  injection Hw as <- <- _. exists i, ws. by split_and!.
Qed.

(** The snapshot a tick publishes lists exactly the moves that the
    node has deployed and not finished, moves started in that tick included:
    each one listed was deployed and neither deployed again nor removed since,
    and a workload deployed and not removed since is listed, unless the node's
    own journal or clock threw in between.  So a peer whose view holds the
    snapshot in a fresh row answers that the workload is being moved, whatever
    else its view holds. *)
Theorem snapshot_blocks_peers inputs recent w0 pre snap r post w pre1 to mid load now v row :
  tr (controller (run_loop inputs (new_loop opts recent w0))) = pre ++ O (CJournal (JSnapshot snap)) r :: post →
  (∀ m, m ∈ fs_inFlightMoves snap → ∃ pre1 mid,
    pre = pre1 ++ O (CDeploy (i_workload m) (i_toNode m)) (Ok tt) :: mid ∧
    none (deployed (i_workload m)) mid ∧ none (removed (i_workload m)) mid) ∧
  (migrationController opts = true →
   pre = pre1 ++ O (CDeploy w to) (Ok tt) :: mid → none (removed w) mid → none local_failure mid →
   row ∈ (peer_rows iso load now v).2 → sr_snapshot row = snap → is_fresh date_parse now row = true →
   (isPeerMovingWorkload date_parse iso load now w v).2 = true).
Proof.
  intros Heq. apply run_loop_good in Heq as [Hfrom Hto]; [|done]. split; [intros m Hm; by apply Hfrom|].
  intros Hc Hpre Hr Hf Hrow <- Hfresh. destruct (Hto Hc pre1 w to mid Hpre Hr Hf) as (m&Hm&<-).
  unfold isPeerMovingWorkload. destruct (peer_rows iso load now v) as [v' rows]. simpl in *.
  apply bool_decide_eq_true. unfold freshInFlightWorkloads. apply list_elem_of_fmap. exists m. split; [done|].
  apply list_elem_of_bind. exists row. split; [done|]. by apply list_elem_of_filter.
Qed.
End loop.

(** ** A node [a] with two peers *)

Definition demo_deps : Deps := mkDeps ["b"; "c"] "a" true true true true true 0 300000 30000 512.
Definition demo_opts : LoopOptions :=
  mkOptions "a" (mkPressureThresholds 512 2048 1 1) (mkDegradationThresholds 3 5000 3) 5 true (Some 1) true
    None false.

(** The world counts the calls and the clock moves a second per call.  The
    journal throws between the calls [bad] and [good]; [c] has less free memory
    than [b] before, more after. *)
Definition demo_snapshot (node : string) (late : bool) : NodeSnapshot :=
  mkSnapshot (Some node) NORMAL
    (Some (if decide (node = "b") then 4096 else if late then 8192 else 2048)) (Some [("w", true)]).
Definition demo_oracle (bad good : Z) (c : MCall) (n : Z) : Z * result (MResp c) :=
  (n + 1, match c return result (MResp c) with
          | CNow => Ok (n * 1000)
          | CTick => Ok n
          | CHolder => Ok (Some "a")
          | CCanSee => Ok true
          | CPeerMoving _ => Ok false
          | CFetch _ node => Ok (demo_snapshot node (good <? n))
          | CDeploy _ _ => Ok tt
          | CRemove _ _ => Ok tt
          | CJournal _ => if (bad <=? n) && (n <? good) then Err "ENOSPC" else Ok tt
          end).
Definition demo_workload : WorkloadSnapshot :=
  mkWorkload "w" 1 None (Some 900) None None [] true 0 None (Some 1024).
Definition demo_tick (ts : string) (hot : bool) : TickInput :=
  mkInput ts (Ok (if hot then mkMem 100 4000 None else mkMem 9000 0 None)) [demo_workload] (Ok tt) ts (false, None).
Definition demo_locale (a b : string) : Z := if decide (str_lt a b) then -1 else if decide (a = b) then 0 else 1.

Notation demo_run bad good ts :=
  (trace (controller (run_loop (demo_oracle bad good) pretty parseInt demo_locale demo_deps demo_opts ts
    (new_loop demo_opts [] 0)))).
Definition demo_inputs : list TickInput := [demo_tick "t1" true; demo_tick "t2" false; demo_tick "t3" true].
Notation demo_trace := (demo_run 0 0 demo_inputs).

Definition moves_of (l : list Obs) : list (string * string * bool) :=
  omap (λ o, match o with
             | O (CDeploy w n) r => Some ("deploy " +:+ w, n, is_ok r)
             | O (CRemove w n) r => Some ("remove " +:+ w, n, is_ok r)
             | _ => None
             end) l.

Example demo_moves :
  moves_of demo_trace = [("deploy w", "c", true); ("remove w", "a", true); ("deploy w", "c", true)].
Proof. reflexivity. Qed.

Lemma removals_justified_witness :
  demo_trace = take 34 demo_trace ++ O (CRemove "w" "a") (Ok tt) :: drop 35 demo_trace ∧
  justified demo_deps (take 34 demo_trace) "w" "a".
Proof.
  assert (demo_trace = take 34 demo_trace ++ O (CRemove "w" "a") (Ok tt) :: drop 35 demo_trace) as H
    by (vm_compute; reflexivity).
  split; [exact H|].
  exact (removals_justified (demo_oracle 0 0) pretty parseInt demo_locale demo_deps demo_opts demo_inputs [] 0 _ _ _ _ _ H).
Defined.

Lemma no_second_move_witness :
  let mid := take 38 (drop 20 demo_trace) in
  demo_trace = take 19 demo_trace ++ O (CDeploy "w" "c") (Ok tt) :: mid ++
    O (CDeploy "w" "c") (Ok tt) :: drop 59 demo_trace ∧
  (¬ none (removed "w") mid ∨ ¬ none local_failure mid).
Proof.
  assert (demo_trace = take 19 demo_trace ++ O (CDeploy "w" "c") (Ok tt) :: take 38 (drop 20 demo_trace) ++
    O (CDeploy "w" "c") (Ok tt) :: drop 59 demo_trace) as H by (vm_compute; reflexivity).
  split; [exact H|].
  exact (no_second_move (demo_oracle 0 0) pretty parseInt demo_locale demo_deps demo_opts demo_inputs [] 0 _ _ _ _ _ _ _ H).
Defined.

Lemma deploys_guarded_witness :
  demo_trace = take 19 demo_trace ++ O (CDeploy "w" "c") (Ok tt) :: drop 20 demo_trace ∧
  ∃ i ws, i ∈ demo_inputs ∧ ws ∈ ti_workloads i ∧ w_name ws = "w" ∧
    checked demo_deps (minRequiredFreeMb demo_deps (w_expectedMemoryMb ws)) "c" (take 19 demo_trace).
Proof.
  assert (demo_trace = take 19 demo_trace ++ O (CDeploy "w" "c") (Ok tt) :: drop 20 demo_trace) as H
    by (vm_compute; reflexivity).
  split; [exact H|].
  destruct (deploys_guarded (demo_oracle 0 0) pretty parseInt demo_locale demo_deps demo_opts demo_inputs [] 0 _ _ _ _ _ H)
    as (i&ws&?&?&?&_&_&_&?). exists i, ws. split_and!; assumption.
Defined.

(** The snapshot that the first tick publishes, as a peer stores it. *)
Definition demo_published : FleetSnapshotEntry :=
  mkFleetSnapshot "t1" "a" (mkMem 100 4000 None) [demo_workload] (lease_intent demo_opts 1)
    [mkInFlightMove "w" "a" "c" "move-w-12000" 27000].
Definition demo_row : SnapshotRow := mkRow "a" "t1" "27500" demo_published.

Lemma snapshot_blocks_peers_witness :
  demo_trace = take 28 demo_trace ++ O (CJournal (JSnapshot demo_published)) (Ok tt) :: drop 29 demo_trace ∧
  (isPeerMovingWorkload parseInt pretty (λ _, Some [demo_row]) 28000 "w" new_view).2 = true.
Proof.
  assert (demo_trace = take 28 demo_trace ++ O (CJournal (JSnapshot demo_published)) (Ok tt) :: drop 29 demo_trace) as H
    by (vm_compute; reflexivity).
  split; [exact H|].
  refine (proj2 (snapshot_blocks_peers (demo_oracle 0 0) pretty parseInt demo_locale demo_deps demo_opts demo_inputs [] 0
    _ _ _ _ "w" (take 19 demo_trace) "c" (take 8 (drop 20 demo_trace)) (λ _, Some [demo_row]) 28000 new_view demo_row H)
    _ _ _ _ _ _ _).
  - reflexivity.
  - vm_compute. reflexivity.
  - vm_compute. repeat constructor.
  - vm_compute. repeat constructor.
  - left.
  - reflexivity.
  - vm_compute. reflexivity.
Defined.

(** A journal write that throws just after a deploy leaves the move untracked
    and without a cooldown: the next tick deploys the workload on the other
    peer, that move completes, and the copy on [b] is left for good. *)
Lemma untracked_deploy :
  moves_of (demo_run 20 21 [demo_tick "t1" true; demo_tick "t2" true; demo_tick "t3" false; demo_tick "t4" false]) =
  [("deploy w", "b", true); ("deploy w", "c", true); ("remove w", "a", true)].
Proof. reflexivity. Qed.
