(* ===== verification/FleetExecutor.v ===== *)
(** * Fleet supervisor: the executor

    packages/fleet-supervisor/src/executor.ts: each run reads the journal and
    carries out the proposals that are due, with at most three attempts and a
    delay that doubles.  What the journal says of a proposal is all the state
    there is between runs.  Disabling and enabling a workload and writing the
    journal are calls answered by an arbitrary oracle; a write that succeeds
    appends to the journal. *)

From S2P Require Import Prelude JsSort JsText FleetTypes.

#[local] Open Scope string_scope.
#[local] Open Scope list_scope.
#[local] Open Scope Z_scope.

Definition DEFAULT_MAX_EXECUTION_ATTEMPTS : Z := 3.
Definition EXECUTION_RETRY_DELAY_MS : Z := 30000.

(** [loadRestartPolicy] may be absent and may throw. *)
Record ExecutorOptions := mkExecutorOptions {
  x_node : string; x_auto : bool; x_severityThreshold : Z; x_executeId : option string;
  x_loadRestartPolicy : option (string → result (option string))
}.

Inductive XCall := XDisable (workload : string) | XEnable (workload : string).

(** A call with its exit code, or what it threw. *)
Inductive XObs := X (c : XCall) (r : result Z).

Record ExecutionRetryState := mkRetry {
  rt_terminal : bool; rt_pending : bool; rt_attempt : Z; rt_maxAttempts : Z; rt_blockedUntilMs : option Z
}.

Section executor.
Context {W : Type} (call : XCall → W → W * result Z).
(** The journal write, and the wall clock as [toISOString] shows it. *)
Context (write_result : FleetJournalEntry → W → W * result unit) (clock : W → W * string).
Context (iso : Z → string) (date_parse : string → option Z).

Record XSt := mkX { x_world : W; x_journal : list FleetJournalEntry; x_calls : list XObs }.
Notation M := (eff XSt).

Definition perform (c : XCall) : M Z := λ s,
  let '(w, r) := call c (x_world s) in (mkX w (x_journal s) (x_calls s ++ [X c r]), r).
Definition writeJournal (e : FleetJournalEntry) : M unit := λ s,
  let '(w, r) := write_result e (x_world s) in
  (mkX w (match r with Ok _ => x_journal s ++ [e] | Err _ => x_journal s end) (x_calls s), r).
Definition now_iso : M string := λ s,
  let '(w, ts) := clock (x_world s) in (mkX w (x_journal s) (x_calls s), Ok ts).

(** ** Retry state *)

Definition parseFailureAttemptState (e : FleetExecutionEntry) : option ExecutionRetryState :=
  let maxAttempts := match e_maxAttempts e with Some m => m | None => DEFAULT_MAX_EXECUTION_ATTEMPTS end in
  match e_attempt e with
  | None => None
  | Some attempt =>
      if (attempt <=? 0) || (maxAttempts <=? 0) then None
      else
        Some (mkRetry (maxAttempts <=? attempt) (attempt <? maxAttempts) attempt maxAttempts
          (match e_nextAttemptAt e with Some s => date_parse s | None => None end))
  end.

Definition parseRetryDelayMs (attempt : Z) : Z := EXECUTION_RETRY_DELAY_MS * 2 ^ Z.max 0 (attempt - 1).

(** The executions of a proposal, in journal order. *)
Definition executions_of (proposalId : string) (entries : list FleetJournalEntry) : list FleetExecutionEntry :=
  omap (λ e, match e with
             | JExecution x => if decide (e_proposalId x = proposalId) then Some x else None
             | _ => None
             end) entries.

Definition settles (e : FleetExecutionEntry) : bool :=
  bool_decide (e_status e = Executed) || bool_decide (e_status e = Skipped) ||
  match e_attempt e with None => true | Some _ => false end.

Definition by_attempt (a b : ExecutionRetryState) : Z := rt_attempt b - rt_attempt a.

Definition getExecutionRetryState (proposalId : string) (entries : list FleetJournalEntry) (nowMs : Z)
    : ExecutionRetryState :=
  let proposalEntries := executions_of proposalId entries in
  if existsb settles proposalEntries then mkRetry true false 0 DEFAULT_MAX_EXECUTION_ATTEMPTS None
  else
    let retryCandidates :=
      js_sort by_attempt
        (omap parseFailureAttemptState
           (filter (λ e, e_status e = Failed ∧ e_attempt e ≠ None) proposalEntries)) in
    match retryCandidates with
    | [] => mkRetry false true 0 DEFAULT_MAX_EXECUTION_ATTEMPTS None
    | latest :: _ =>
        if rt_terminal latest then mkRetry true false (rt_attempt latest) (rt_maxAttempts latest) None
        else
          match rt_blockedUntilMs latest with
          | Some t =>
              if nowMs <? t then mkRetry false false (rt_attempt latest) (rt_maxAttempts latest) (Some t)
              else mkRetry false true (rt_attempt latest) (rt_maxAttempts latest) None
          | None => mkRetry false true (rt_attempt latest) (rt_maxAttempts latest) None
          end
    end.

Definition makeRetryFailureEntry (e : FleetExecutionEntry) (attempt maxAttempts nowMs : Z) : FleetExecutionEntry :=
  let reason := match e_reason e with Some r => r | None => "execution failed" end in
  if maxAttempts <=? attempt then
    mkExecution (e_ts e) (e_node e) (e_proposalId e) (e_action e) (e_status e)
      (Some (reason +:+ "; giving up after " +:+ pretty attempt +:+ "/" +:+ pretty maxAttempts +:+ " attempts"))
      (e_exitCode e) (Some attempt) (Some maxAttempts) (e_nextAttemptAt e)
  else
    let nextAttemptAtMs := nowMs + parseRetryDelayMs attempt in
    mkExecution (e_ts e) (e_node e) (e_proposalId e) (e_action e) (e_status e)
      (Some (reason +:+ "; retry " +:+ pretty attempt +:+ "/" +:+ pretty maxAttempts +:+
             "; will retry after " +:+ pretty (parseRetryDelayMs attempt) +:+ "ms"))
      (e_exitCode e) (Some attempt) (Some maxAttempts) (Some (iso nextAttemptAtMs)).

(** ** Carrying out a proposal *)

Section options.
Context (opts : ExecutorOptions).

(** An entry of the proposal, without attempt metadata. *)
Definition entry_of (ts : string) (p : FleetProposalEntry) (status : ExecStatus) (reason : option string)
    (exitCode : option Z) : FleetExecutionEntry :=
  mkExecution ts (x_node opts) (p_proposalId p) (p_action p) status reason exitCode None None None.

Definition executeRestart (workload : string) (ts : string) (p : FleetProposalEntry) : M FleetExecutionEntry :=
  disableCode ← perform (XDisable workload);
  if negb (disableCode =? 0) then
    mret (entry_of ts p Failed (Some "disable phase failed") (Some disableCode))
  else
    enableCode ← perform (XEnable workload);
    if enableCode =? 0 then mret (entry_of ts p Executed None (Some enableCode))
    else
      recoveryCode ← perform (XEnable workload);
      if recoveryCode =? 0 then mret (entry_of ts p Executed None (Some recoveryCode))
      else mret (entry_of ts p Failed (Some "enable phase failed") (Some recoveryCode)).

Definition isRestartPolicyNever (workload : string) : bool :=
  match x_loadRestartPolicy opts with
  | None => false
  | Some load =>
      match load workload with
      | Ok policy => bool_decide (policy = Some "Never")
      | Err _ => false
      end
  end.

Definition executeAction (ts : string) (p : FleetProposalEntry) : M FleetExecutionEntry :=
  try_catch
    (match p_action p with
     | AMarkDegraded _ _ => mret (entry_of ts p Executed None None)
     | AEvict workload _ =>
         if isRestartPolicyNever workload then mret (entry_of ts p Skipped (Some "restartPolicy:Never") None)
         else
           exitCode ← perform (XDisable workload);
           mret (entry_of ts p (if exitCode =? 0 then Executed else Failed) None (Some exitCode))
     | ARestart workload _ =>
         if isRestartPolicyNever workload then mret (entry_of ts p Skipped (Some "restartPolicy:Never") None)
         else executeRestart workload ts p
     | _ => mret (entry_of ts p Skipped (Some "unknown action type") None)
     end)
    (λ err, mret (entry_of ts p Failed (Some err) None)).

Definition isRetryableFailure (e : FleetExecutionEntry) : bool :=
  bool_decide (e_status e = Failed) &&
  match e_action e with AEvict _ _ | ARestart _ _ => true | _ => false end.

Definition shouldExecute (p : FleetProposalEntry) : bool :=
  bool_decide (x_executeId opts = Some (p_proposalId p)) ||
  (x_auto opts && (actionTier (p_action p) <=? x_severityThreshold opts)).

Definition executeOne (p : FleetProposalEntry) (retry : ExecutionRetryState) (nowMs : Z) : M FleetExecutionEntry :=
  ts ← now_iso;
  if negb (shouldExecute p) then
    let reason :=
      if negb (x_auto opts) then "--auto not set"
      else "tier " +:+ pretty (actionTier (p_action p)) +:+ " exceeds threshold " +:+
           pretty (x_severityThreshold opts) in
    let entry := entry_of ts p Skipped (Some reason) None in
    _ ← writeJournal (JExecution entry);
    mret entry
  else
    outcome ← executeAction ts p;
    let entry := if isRetryableFailure outcome
                 then makeRetryFailureEntry outcome (rt_attempt retry + 1) (rt_maxAttempts retry) nowMs
                 else outcome in
    _ ← writeJournal (JExecution entry);
    mret entry.

(** The proposals of this node, as the journal has them. *)
Definition proposals_of (entries : list FleetJournalEntry) : list FleetProposalEntry :=
  omap (λ e, match e with
             | JProposal p => if decide (p_node p = x_node opts) then Some p else None
             | _ => None
             end) entries.

Definition expired (p : FleetProposalEntry) (nowMs : Z) : bool :=
  match p_expiresAt p with
  | None => false
  | Some s => match date_parse s with Some t => t <=? nowMs | None => false end
  end.

Definition execute_proposal (entries : list FleetJournalEntry) (nowMs : Z) (p : FleetProposalEntry)
    : M (option FleetExecutionEntry) :=
  let retry := getExecutionRetryState (p_proposalId p) entries nowMs in
  if rt_terminal retry || negb (rt_pending retry) then mret None
  else if expired p nowMs then
    let entry := entry_of (iso nowMs) p Skipped (Some "expired") None in
    _ ← writeJournal (JExecution entry);
    mret (Some entry)
  else (e ← executeOne p retry nowMs; mret (Some e)).

Fixpoint run_proposals (entries : list FleetJournalEntry) (nowMs : Z) (ps : list FleetProposalEntry)
    : M (list FleetExecutionEntry) :=
  match ps with
  | [] => mret []
  | p :: rest =>
      r ← execute_proposal entries nowMs p;
      results ← run_proposals entries nowMs rest;
      mret (match r with Some e => e :: results | None => results end)
  end.

(** The journal is read once, at the start. *)
Definition runExecutor (nowMs : Z) : M (list FleetExecutionEntry) :=
  entries ← gets x_journal;
  run_proposals entries nowMs (proposals_of entries).

End options.
End executor.
