(* ===== verification/FleetExecutorProps.v ===== *)
(** * Fleet supervisor: theorems about the executor

    The journal's entries about a proposal implement a small retry machine,
    and workloads are disabled or enabled only for proposals that may be. *)

From S2P Require Import Prelude JsSort JsText FleetTypes FleetExecutor.

#[local] Open Scope string_scope.
#[local] Open Scope list_scope.
#[local] Open Scope Z_scope.

(** ** The abstract machine *)

(** After [failures] failures, not to be tried before a time; or settled. *)
Inductive RetryState := Pending (failures : Z) (notBefore : option Z) | Done.

Definition due (nowMs : Z) (notBefore : option Z) : Prop :=
  match notBefore with Some t => t ≤ nowMs | None => True end.

(** What one run at [nowMs] does to a proposal: nothing if it is settled or not
    yet due; otherwise it settles it, or counts a failure and doubles the
    delay, and the third failure settles it. *)
Inductive retry_step (nowMs : Z) : RetryState → RetryState → Prop :=
| step_done : retry_step nowMs Done Done
| step_wait k nb : ¬ due nowMs nb → retry_step nowMs (Pending k nb) (Pending k nb)
| step_settle k nb : due nowMs nb → retry_step nowMs (Pending k nb) Done
| step_fail k nb : due nowMs nb → k + 1 < 3 →
    retry_step nowMs (Pending k nb) (Pending (k + 1) (Some (nowMs + 30000 * 2 ^ k))).

Section executor.
Context {W : Type} (call : XCall → W → W * result Z).
Context (write_result : FleetJournalEntry → W → W * result unit) (clock : W → W * string).
Context (iso : Z → string) (date_parse : string → option Z).
Context (iso_parse : ∀ t, date_parse (iso t) = Some t).

Notation XSt := (XSt (W:=W)).
Notation M := (eff XSt).
Notation perform := (perform call).
Notation writeJournal := (writeJournal write_result).
Notation getExecutionRetryState := (getExecutionRetryState date_parse).
Notation execute_proposal := (execute_proposal call write_result clock iso date_parse).
Notation run_proposals := (run_proposals call write_result clock iso date_parse).
Notation runExecutor := (runExecutor call write_result clock iso date_parse).

(** A failure of the executor's, the [k]th. *)
Definition failure (e : FleetExecutionEntry) (k : Z) (next : option string) : Prop :=
  e_status e = Failed ∧ e_attempt e = Some k ∧ e_maxAttempts e = Some 3 ∧ e_nextAttemptAt e = next.

(** What a proposal's executions in the journal mean. *)
Inductive means : list FleetExecutionEntry → RetryState → Prop :=
| means_new : means [] (Pending 0 None)
| means_fail l k nb e t : means l (Pending k nb) → k + 1 < 3 → failure e (k + 1) (Some (iso t)) →
    means (l ++ [e]) (Pending (k + 1) (Some t))
| means_give_up l nb e : means l (Pending 2 nb) → failure e 3 None → means (l ++ [e]) Done
| means_settled l s e : means l s → settles e = true → means (l ++ [e]) Done.

Definition candidates (l : list FleetExecutionEntry) : list ExecutionRetryState :=
  omap (parseFailureAttemptState date_parse) (filter (λ e, e_status e = Failed ∧ e_attempt e ≠ None) l).

Lemma candidates_app l k : candidates (l ++ k) = candidates l ++ candidates k.
Proof. unfold candidates. by rewrite filter_app, omap_app. Qed.

Lemma candidates_failure e k next : 0 < k → failure e k next →
  candidates [e] = [mkRetry (3 <=? k) (k <? 3) k 3 (match next with Some s => date_parse s | None => None end)].
Proof.
  intros Hk (Hs&Ha&Hm&Hn). unfold candidates. rewrite filter_cons_True by (rewrite Ha; by split).
  simpl. unfold parseFailureAttemptState. rewrite Ha, Hm, Hn.
  replace (k <=? 0) with false by (symmetry; by apply Z.leb_gt). done.
Qed.

Lemma settles_failure e k next : failure e k next → settles e = false.
Proof. intros (Hs&Ha&_). unfold settles. rewrite Hs, Ha. done. Qed.

Lemma existsb_app_settles l e : existsb settles (l ++ [e]) = existsb settles l || settles e.
Proof. rewrite existsb_app. simpl. by rewrite orb_false_r. Qed.

(** What the code reads off the executions of a pending proposal. *)
Lemma means_pending l k nb : means l (Pending k nb) →
  0 ≤ k < 3 ∧ existsb settles l = false ∧ (k = 0 → l = [] ∧ nb = None) ∧
  (0 < k → mkRetry false true k 3 nb ∈ candidates l) ∧
  (∀ c, c ∈ candidates l → rt_attempt c ≤ k ∧ (rt_attempt c = k → c = mkRetry false true k 3 nb)).
Proof.
  remember (Pending k nb) as s eqn:Es. intros H. revert k nb Es.
  induction H as [|l k nb e t H IH Hk He|l nb e H IH He|l s e H IH He]; intros k' nb' Es; try discriminate.
  - injection Es as <- <-. split_and!; [lia|lia|done|done|lia|by intros c ?%not_elem_of_nil].
  - injection Es as <- <-. destruct (IH k nb eq_refl) as (Hr&Hs&_&_&Hall).
    rewrite candidates_app, (candidates_failure e (k + 1) _ ltac:(lia) He), iso_parse.
    replace (3 <=? k + 1) with false by (symmetry; apply Z.leb_gt; lia).
    replace (k + 1 <? 3) with true by (symmetry; apply Z.ltb_lt; lia).
    split_and!; [lia|lia| |lia| |].
    + by rewrite existsb_app_settles, Hs, (settles_failure e _ _ He).
    + intros _. apply elem_of_app. right. left.
    + intros c [Hc|Hc%list_elem_of_singleton]%elem_of_app; [|by subst c].
      destruct (Hall c Hc) as [? _]. split; [lia|]. intros. lia.
Qed.

Lemma by_attempt_ok : cmp_ok by_attempt (λ _, True).
Proof. split; unfold cmp_le, by_attempt; intros; lia. Qed.

Lemma retry_pending id J nowMs k nb : means (executions_of id J) (Pending k nb) →
  let r := getExecutionRetryState id J nowMs in
  rt_terminal r = false ∧ rt_attempt r = k ∧ rt_maxAttempts r = 3 ∧
  (rt_pending r = true ↔ due nowMs nb).
Proof.
  intros (Hk&Hs&H0&Hin&Hall)%means_pending. unfold FleetExecutor.getExecutionRetryState.
  rewrite Hs. fold (candidates (executions_of id J)).
  destruct (js_sort by_attempt _) as [|c rest] eqn:E; simpl.
  - destruct (decide (k = 0)) as [->|Hk0]; [destruct (H0 eq_refl) as [_ ->]; by split_and!|].
    assert (mkRetry false true k 3 nb ∈ js_sort by_attempt (candidates (executions_of id J))) as Hx.
    { rewrite elem_of_js_sort. apply Hin. lia. }
    rewrite E in Hx. by apply not_elem_of_nil in Hx.
  - assert (c ∈ candidates (executions_of id J)) as Hc.
    { rewrite <-(elem_of_js_sort by_attempt), E. left. }
    assert (0 < k) as Hk'.
    { destruct (decide (k = 0)) as [->|]; [|lia]. destruct (H0 eq_refl) as [Hnil _].
      rewrite Hnil in Hc. by apply not_elem_of_nil in Hc. }
    assert (c = mkRetry false true k 3 nb) as ->.
    { destruct (Hall c Hc) as [Hle Heq]. apply Heq.
      destruct (js_sort_head by_attempt (λ _, True) _ _ _ by_attempt_ok ltac:(by apply Forall_true) E _ (Hin Hk')) as [<-|Hcmp];
        [done|]. unfold cmp_le, by_attempt in Hcmp. simpl in Hcmp. lia. }
    simpl. destruct nb as [t|]; simpl; [|by split_and!].
    destruct (nowMs <? t) eqn:Et; to_prop; simpl; split_and!; try done; split; try done; lia.
Qed.

Lemma retry_done id J nowMs : means (executions_of id J) Done → rt_terminal (getExecutionRetryState id J nowMs) = true.
Proof.
  intros H. unfold FleetExecutor.getExecutionRetryState. remember (executions_of id J) as l eqn:El. clear El.
  remember Done as s eqn:Es. destruct H as [|l k nb e t H Hk He|l nb e H He|l s e H He]; try discriminate.
  - pose proof (means_pending _ _ _ H) as (_&Hs&_&_&Hall).
    rewrite existsb_app_settles, Hs, (settles_failure e _ _ He). simpl. fold (candidates (l ++ [e])).
    destruct (js_sort by_attempt _) as [|c rest] eqn:E; simpl.
    + assert (mkRetry true false 3 3 None ∈ js_sort by_attempt (candidates (l ++ [e]))) as Hx.
      { rewrite elem_of_js_sort, candidates_app, (candidates_failure e 3 None ltac:(lia) He), elem_of_app. right. left. }
      rewrite E in Hx. by apply not_elem_of_nil in Hx.
    + assert (c ∈ candidates (l ++ [e])) as Hc.
      { rewrite <-(elem_of_js_sort by_attempt), E. left. }
      assert (mkRetry true false 3 3 None ∈ candidates (l ++ [e])) as H3.
      { rewrite candidates_app, (candidates_failure e 3 None ltac:(lia) He), elem_of_app. right. left. }
      rewrite candidates_app, (candidates_failure e 3 None ltac:(lia) He) in Hc.
      apply elem_of_app in Hc as [Hc|Hc%list_elem_of_singleton]; [|by subst c].
      destruct (Hall c Hc) as [Hle _].
      destruct (js_sort_head by_attempt (λ _, True) _ _ _ by_attempt_ok ltac:(by apply Forall_true) E _ H3) as [<-|Hcmp];
        [done|]. unfold cmp_le, by_attempt in Hcmp. simpl in Hcmp. lia.
  - by rewrite existsb_app_settles, He, orb_true_r.
Qed.

(** ** One proposal *)

(** What is appended for a proposal that is due. *)
Definition outcome (nowMs k : Z) (e : FleetExecutionEntry) : Prop :=
  settles e = true ∨
  failure e (k + 1) (if 3 <=? k + 1 then None else Some (iso (nowMs + parseRetryDelayMs (k + 1)))).

Lemma means_outcome nowMs l k nb e : means l (Pending k nb) → due nowMs nb → outcome nowMs k e →
  ∃ s, means (l ++ [e]) s ∧ retry_step nowMs (Pending k nb) s.
Proof.
  intros Hl Hd [He|He].
  - exists Done. split; [by eapply means_settled|by constructor].
  - pose proof (means_pending _ _ _ Hl) as (Hk&_). destruct (3 <=? k + 1) eqn:E; to_prop.
    + assert (k = 2) as -> by lia. exists Done. split; [by eapply means_give_up|by constructor].
    + eexists. split; [eapply means_fail; [done|lia|done]|].
      unfold parseRetryDelayMs, EXECUTION_RETRY_DELAY_MS. replace (Z.max 0 (k + 1 - 1)) with k by lia.
      by constructor; [|lia].
Qed.

Section opts.
Context (opts : ExecutorOptions).

(** Running an action writes nothing to the journal and does not throw; its
    entry has no attempt metadata. *)
Definition silent {A} (m : M A) : Prop := ∀ s, x_journal (m s).1 = x_journal s.

Lemma silent_bind {A B} (m : M A) (f : A → M B) : silent m → (∀ a, silent (f a)) → silent (m ≫= f).
Proof.
  intros Hm Hf s. rewrite eff_bind_eq. specialize (Hm s). destruct (m s) as [s' [a|e]]; simpl in *; [|done].
  by rewrite Hf.
Qed.
Lemma silent_ret {A} (a : A) : silent (mret a).
Proof. by intros s. Qed.
Lemma silent_perform c : silent (perform c).
Proof. intros s. unfold FleetExecutor.perform. by destruct (call c _). Qed.
Lemma silent_now : silent (now_iso clock).
Proof. intros s. unfold now_iso. by destruct (clock _). Qed.

Ltac silent_auto :=
  repeat match goal with
  | |- @silent _ ?m =>
      lazymatch m with
      | mbind _ _ => apply silent_bind; [|intros ?]
      | mret _ => apply silent_ret
      | FleetExecutor.perform _ _ => apply silent_perform
      | match _ with _ => _ end => case_match
      | let _ := _ in _ => cbv zeta
      end
  end.

Definition plain (p : FleetProposalEntry) (e : FleetExecutionEntry) : Prop :=
  e_proposalId e = p_proposalId p ∧ e_action e = p_action p ∧ e_attempt e = None ∧ e_maxAttempts e = None ∧
  e_nextAttemptAt e = None.

Lemma plain_entry_of ts p st r c : plain p (entry_of opts ts p st r c).
Proof. done. Qed.

Lemma executeAction_spec ts p s : ∃ s' e,
  executeAction call opts ts p s = (s', Ok e) ∧ x_journal s' = x_journal s ∧ plain p e.
Proof.
  unfold executeAction, try_catch. set (m := match p_action p with AEvict _ _ => _ | _ => _ end).
  assert (silent m) as Hm.
  { unfold m, executeRestart. destruct (p_action p); cbv zeta; silent_auto. }
  assert (∀ s s' e, m s = (s', Ok e) → plain p e) as Hp.
  { unfold m, executeRestart. intros s0 s1 e.
    destruct (p_action p); try (intros [= _ <-]; apply plain_entry_of); (case_match; [intros [= _ <-]; apply plain_entry_of|]).
    - intros (?&?&_&[= _ <-])%eff_bind_ok. apply plain_entry_of.
    - intros (?&?&_&He)%eff_bind_ok. case_match; [injection He as _ <-; apply plain_entry_of|].
      apply eff_bind_ok in He as (?&?&_&He). case_match; [injection He as _ <-; apply plain_entry_of|].
      apply eff_bind_ok in He as (?&?&_&He). case_match; injection He as _ <-; apply plain_entry_of. }
  specialize (Hm s). destruct (m s) as [s' [e|err]] eqn:E.
  - exists s', e. split_and!; [done|done|by eapply Hp].
  - exists s', (entry_of opts ts p Failed (Some err) None). split_and!; [done|done|apply plain_entry_of].
Qed.

Lemma writeJournal_spec e s :
  (∃ s', writeJournal e s = (s', Ok tt) ∧ x_journal s' = x_journal s ++ [e]) ∨
  (∃ s' err, writeJournal e s = (s', Err err) ∧ x_journal s' = x_journal s).
Proof.
  unfold FleetExecutor.writeJournal. destruct (write_result e (x_world s)) as [w [[]|err]]; [left|right]; eauto.
Qed.

Lemma plain_settles p e : plain p e → settles e = true.
Proof. intros (_&_&Ha&_). unfold settles. rewrite Ha. by rewrite orb_true_r. Qed.

Lemma retry_entry_outcome p e retry nowMs :
  plain p e → rt_maxAttempts retry = 3 → 0 ≤ rt_attempt retry →
  let e' := if isRetryableFailure e
            then makeRetryFailureEntry iso e (rt_attempt retry + 1) (rt_maxAttempts retry) nowMs else e in
  e_proposalId e' = p_proposalId p ∧ outcome nowMs (rt_attempt retry) e'.
Proof.
  intros Hp Hm Hk. cbv zeta. destruct (isRetryableFailure e) eqn:E.
  - unfold isRetryableFailure in E. to_prop. destruct Hp as (Hid&_&_&_&Hn). unfold makeRetryFailureEntry.
    rewrite Hm. destruct (3 <=? rt_attempt retry + 1) eqn:E3; simpl; (split; [done|]); right; rewrite E3; by split_and!.
  - split; [by destruct Hp|]. left. by eapply plain_settles.
Qed.

Lemma execute_proposal_spec J nowMs p s k nb :
  means (executions_of (p_proposalId p) J) (Pending k nb) → due nowMs nb →
  (∃ s' r e, execute_proposal opts J nowMs p s = (s', Ok r) ∧ x_journal s' = x_journal s ++ [JExecution e] ∧
     e_proposalId e = p_proposalId p ∧ outcome nowMs k e) ∨
  (∃ s' err, execute_proposal opts J nowMs p s = (s', Err err) ∧ x_journal s' = x_journal s).
Proof.
  intros Hm Hd. pose proof (means_pending _ _ _ Hm) as (Hk&_).
  destruct (retry_pending _ _ nowMs _ _ Hm) as (Ht&Ha&Hmax&Hpend). apply Hpend in Hd.
  unfold FleetExecutor.execute_proposal. set (retry := getExecutionRetryState _ J nowMs) in *.
  rewrite Ht, Hd. simpl. destruct (expired date_parse p nowMs).
  { rewrite eff_bind_eq. set (e := entry_of _ _ _ _ _ _).
    destruct (writeJournal_spec (JExecution e) s) as [(s1&->&Hj)|(s1&err&->&Hj)]; [left|right; eauto].
    eexists _, _, e. split_and!; [done|done|done|by left]. }
  rewrite eff_bind_eq. unfold executeOne. rewrite eff_bind_eq.
  pose proof (silent_now s) as Hs0. unfold now_iso in *. destruct (clock (x_world s)) as [w ts]. simpl in Hs0.
  set (s0 := mkX w (x_journal s) (x_calls s)) in *. destruct (negb (shouldExecute opts p)).
  { rewrite eff_bind_eq. set (e := entry_of _ _ _ _ _ _).
    destruct (writeJournal_spec (JExecution e) s0) as [(s1&->&Hj)|(s1&err&->&Hj)]; [left|right; eauto].
    eexists _, _, e. split_and!; [done|done|done|by left]. }
  rewrite eff_bind_eq. destruct (executeAction_spec ts p s0) as (s1&e&->&Hj1&Hp).
  destruct (retry_entry_outcome p e retry nowMs Hp Hmax) as [Hid Ho]; [lia|]. rewrite Ha in Ho.
  rewrite eff_bind_eq, <-Ha in *. set (e' := if isRetryableFailure e then _ else _) in *.
  destruct (writeJournal_spec (JExecution e') s1) as [(s2&->&Hj)|(s2&err&->&Hj)]; [left|right].
  - eexists _, _, e'. rewrite Hj, Hj1. by split_and!.
  - eexists _, _. rewrite Hj, Hj1. by split.
Qed.

Lemma execute_proposal_idle J nowMs p s rs :
  means (executions_of (p_proposalId p) J) rs → (rs = Done ∨ ∃ k nb, rs = Pending k nb ∧ ¬ due nowMs nb) →
  execute_proposal opts J nowMs p s = (s, Ok None).
Proof.
  intros Hm Hidle. unfold FleetExecutor.execute_proposal.
  destruct Hidle as [->|(k&nb&->&Hd)]; [by rewrite (retry_done _ _ nowMs Hm)|].
  destruct (retry_pending _ _ nowMs _ _ Hm) as (->&_&_&Hp). destruct (rt_pending _); [|done]. destruct Hd; by apply Hp.
Qed.

(** ** A run *)

Lemma executions_app id J K : executions_of id (J ++ K) = executions_of id J ++ executions_of id K.
Proof. apply omap_app. Qed.

Lemma executions_snoc id J e :
  executions_of id (J ++ [JExecution e]) =
  if decide (e_proposalId e = id) then executions_of id J ++ [e] else executions_of id J.
Proof.
  rewrite executions_app. unfold executions_of at 2. simpl. case_decide; [done|]. by rewrite app_nil_r.
Qed.

(** [J'] is [J] after a run at [nowMs], as far as proposal [id] goes: either
    nothing was written about it or the machine made its step. *)
Definition stepped (nowMs : Z) (id : string) (J J' : list FleetJournalEntry) (finished : bool) : Prop :=
  ∀ rs, means (executions_of id J) rs →
    (finished = false ∧ executions_of id J' = executions_of id J) ∨
    ∃ rs', means (executions_of id J') rs' ∧ retry_step nowMs rs rs'.

Lemma execute_proposal_step J nowMs p s : (∃ rs, means (executions_of (p_proposalId p) J) rs) →
  executions_of (p_proposalId p) (x_journal s) = executions_of (p_proposalId p) J →
  let out := execute_proposal opts J nowMs p s in
  stepped nowMs (p_proposalId p) J (x_journal out.1) (is_ok out.2) ∧
  ∀ id, id ≠ p_proposalId p → executions_of id (x_journal out.1) = executions_of id (x_journal s).
Proof.
  intros [rs Hm] Hj. cbv zeta.
  assert ((rs = Done ∨ ∃ k nb, rs = Pending k nb ∧ ¬ due nowMs nb) ∨ ∃ k nb, rs = Pending k nb ∧ due nowMs nb) as [Hidle|(k&nb&->&Hd)].
  { destruct rs as [k nb|]; [|left; by left]. destruct nb as [t|]; [|right; by eexists _, _].
    destruct (decide (t ≤ nowMs)); [right; by eexists _, _|left; right; by eexists _, _]. }
  - rewrite (execute_proposal_idle J nowMs p s rs Hm Hidle). simpl. split; [|done].
    intros rs' Hm'. right. exists rs'. rewrite Hj. split; [done|].
    assert (rs' = Done ∨ ∃ k nb, rs' = Pending k nb ∧ ¬ due nowMs nb) as [->|(k&nb&->&Hd)]; [|constructor|by constructor].
    destruct rs' as [k nb|]; [|by left]. right. exists k, nb. split; [done|]. intros Hd.
    destruct (retry_pending _ _ nowMs _ _ Hm') as (Ht&_&_&Hp).
    destruct Hidle as [->|(k'&nb'&->&Hd')]; [by rewrite (retry_done _ _ nowMs Hm) in Ht|].
    destruct (retry_pending _ _ nowMs _ _ Hm) as (_&_&_&Hp'). apply Hd', Hp', Hp, Hd.
  - destruct (execute_proposal_spec J nowMs p s k nb Hm Hd) as [(s'&r&e&->&Hj'&Hid&Ho)|(s'&err&->&Hj')]; simpl.
    + rewrite Hj'. split.
      * intros rs Hrs. right. rewrite executions_snoc, decide_True, Hj by done.
        assert (∃ k' nb', rs = Pending k' nb' ∧ due nowMs nb' ∧ k' = k) as (k'&nb'&->&Hd'&->).
        { destruct (retry_pending _ _ nowMs _ _ Hm) as (Ht&Ha&_&Hp).
          destruct rs as [k' nb'|]; [|by rewrite (retry_done _ _ nowMs Hrs) in Ht].
          destruct (retry_pending _ _ nowMs _ _ Hrs) as (_&Ha'&_&Hp').
          exists k', nb'. split_and!; [done|by apply Hp', Hp|congruence]. }
        by apply means_outcome.
      * intros id Hne. rewrite executions_snoc, decide_False by congruence. done.
    + rewrite Hj'. split; [|done]. intros rs _. left. by rewrite Hj.
Qed.

Lemma run_proposals_step J nowMs ps s :
  NoDup (p_proposalId <$> ps) →
  (∀ p, p ∈ ps → ∃ rs, means (executions_of (p_proposalId p) J) rs) →
  (∀ p, p ∈ ps → executions_of (p_proposalId p) (x_journal s) = executions_of (p_proposalId p) J) →
  let out := run_proposals opts J nowMs ps s in
  (∀ p, p ∈ ps → stepped nowMs (p_proposalId p) J (x_journal out.1) (is_ok out.2)) ∧
  (∀ id, id ∉ p_proposalId <$> ps → executions_of id (x_journal out.1) = executions_of id (x_journal s)).
Proof.
  revert s. induction ps as [|p ps IH]; intros s Hnd Hm Hj; cbv zeta; simpl.
  - split; [by intros p ?%not_elem_of_nil|done].
  - rewrite fmap_cons, NoDup_cons in Hnd. destruct Hnd as [Hp Hnd].
    pose proof (execute_proposal_step J nowMs p s (Hm p ltac:(left)) (Hj p ltac:(left))) as [Hs Hother].
    rewrite eff_bind_eq. destruct (execute_proposal opts J nowMs p s) as [s1 [r|err]] eqn:E; simpl in *.
    2: { split.
         - intros q [->|Hq]%elem_of_cons; [done|]. intros rs Hrs. left. split; [done|].
           rewrite Hother; [apply Hj; by right|]. intros Heq. apply Hp. rewrite <-Heq. by apply list_elem_of_fmap_2.
         - intros id Hid. apply Hother. rewrite elem_of_cons in Hid. tauto. }
    assert (∀ q, q ∈ ps → executions_of (p_proposalId q) (x_journal s1) = executions_of (p_proposalId q) J) as Hj1.
    { intros q Hq. rewrite Hother; [apply Hj; by right|]. intros Heq. apply Hp. rewrite <-Heq. by apply list_elem_of_fmap_2. }
    destruct (IH s1 Hnd ltac:(intros; apply Hm; by right) Hj1) as [IH1 IH2].
    rewrite eff_bind_eq. destruct (run_proposals opts J nowMs ps s1) as [s2 x]. simpl in *.
    assert (x_journal ((match x with Ok a => (s2, Ok (match r with Some e => e :: a | None => a end)) | Err e => (s2, Err e) end
      : XSt * result (list FleetExecutionEntry))).1 = x_journal s2) as Hj2 by (by destruct x).
    assert (is_ok ((match x with Ok a => (s2, Ok (match r with Some e => e :: a | None => a end)) | Err e => (s2, Err e) end
      : XSt * result (list FleetExecutionEntry))).2 = is_ok x) as Hok by (by destruct x).
    unfold mret, eff_ret. rewrite Hj2, Hok. split.
    + intros q [->|Hq]%elem_of_cons; [|by apply IH1]. intros rs Hrs. rewrite IH2 by done.
      destruct (Hs rs Hrs) as [[? _]|?]; [done|by right].
    + intros id [Hne Hid]%not_elem_of_cons. rewrite IH2 by done. by apply Hother.
Qed.

(** C24 (refinement): on a journal whose proposals of this node have distinct ids
    and whose executions of each follow the machine, a run at [nowMs] moves
    every one of these proposals by one step of the machine: a settled one, or
    one whose last failure asked to wait longer, is left alone; one that is due
    is settled, or has failed for the [k+1]st time and waits 30 s times 2^k,
    and the third failure settles it.  A run that throws has made the step for
    some and written nothing about the others; what the journal says of other
    ids is never changed. *)
Theorem executor_implements_retries nowMs s :
  NoDup (p_proposalId <$> proposals_of opts (x_journal s)) →
  (∀ p, p ∈ proposals_of opts (x_journal s) → ∃ rs, means (executions_of (p_proposalId p) (x_journal s)) rs) →
  let '(s', r) := runExecutor opts nowMs s in
  (∀ p rs, p ∈ proposals_of opts (x_journal s) → means (executions_of (p_proposalId p) (x_journal s)) rs →
    (is_ok r = false ∧ executions_of (p_proposalId p) (x_journal s') = executions_of (p_proposalId p) (x_journal s)) ∨
    ∃ rs', means (executions_of (p_proposalId p) (x_journal s')) rs' ∧ retry_step nowMs rs rs') ∧
  (∀ id, id ∉ p_proposalId <$> proposals_of opts (x_journal s) →
    executions_of id (x_journal s') = executions_of id (x_journal s)).
Proof.
  intros Hnd Hm. unfold FleetExecutor.runExecutor. rewrite eff_bind_eq. simpl.
  pose proof (run_proposals_step (x_journal s) nowMs (proposals_of opts (x_journal s)) s Hnd Hm ltac:(done)) as [H1 H2].
  destruct (run_proposals _ _ _ _ s) as [s' r]. simpl in *. split; [|done].
  intros p rs Hp Hrs. by apply H1.
Qed.

(** ** What is called *)

(** Disable; after a zero code enable; after another code enable once more. *)
Inductive restart_calls (w : string) : list XObs → Prop :=
| rc_disable r : restart_calls w [X (XDisable w) r]
| rc_enable r : restart_calls w [X (XDisable w) (Ok 0); X (XEnable w) r]
| rc_recover code r : code ≠ 0 →
    restart_calls w [X (XDisable w) (Ok 0); X (XEnable w) (Ok code); X (XEnable w) r].

(** The calls that a proposal may cause in a run that read the journal [J]. *)
Definition allowed (J : list FleetJournalEntry) (nowMs : Z) (p : FleetProposalEntry) (cs : list XObs) : Prop :=
  cs = [] ∨
  (shouldExecute opts p = true ∧ expired date_parse p nowMs = false ∧
   rt_terminal (getExecutionRetryState (p_proposalId p) J nowMs) = false ∧
   rt_pending (getExecutionRetryState (p_proposalId p) J nowMs) = true ∧
   match p_action p with
   | AEvict w _ => isRestartPolicyNever opts w = false ∧ ∃ r, cs = [X (XDisable w) r]
   | ARestart w _ => isRestartPolicyNever opts w = false ∧ restart_calls w cs
   | _ => False
   end).

Lemma x_calls_write e s : x_calls (writeJournal e s).1 = x_calls s.
Proof. unfold FleetExecutor.writeJournal. by destruct (write_result e _). Qed.

Lemma perform_eq c s : ∃ s' r, perform c s = (s', r) ∧ x_calls s' = x_calls s ++ [X c r].
Proof. unfold FleetExecutor.perform. destruct (call c _) as [w r]. eauto. Qed.

Lemma executeRestart_calls w ts p s : ∃ cs,
  x_calls (executeRestart call opts w ts p s).1 = x_calls s ++ cs ∧ restart_calls w cs.
Proof.
  unfold executeRestart. rewrite eff_bind_eq.
  destruct (perform_eq (XDisable w) s) as (s1&r1&->&H1).
  destruct r1 as [c1|e]; [|exists [X (XDisable w) (Err e)]; split; [done|constructor]].
  destruct (c1 =? 0) eqn:E1; [|exists [X (XDisable w) (Ok c1)]; split; [done|constructor]]. to_prop. subst c1. simpl.
  rewrite eff_bind_eq. destruct (perform_eq (XEnable w) s1) as (s2&r2&->&H2). rewrite H1, <-app_assoc in H2.
  destruct r2 as [c2|e]; [|exists [X (XDisable w) (Ok 0); X (XEnable w) (Err e)]; split; [done|constructor]].
  destruct (c2 =? 0) eqn:E2; [exists [X (XDisable w) (Ok 0); X (XEnable w) (Ok c2)]; split; [done|constructor]|].
  to_prop. rewrite eff_bind_eq. destruct (perform_eq (XEnable w) s2) as (s3&r3&->&H3). rewrite H2, <-app_assoc in H3.
  exists [X (XDisable w) (Ok 0); X (XEnable w) (Ok c2); X (XEnable w) r3]. split; [|by constructor].
  destruct r3 as [c3|e]; [|done]. by destruct (c3 =? 0).
Qed.

Lemma executeAction_calls ts p s : ∃ cs,
  x_calls (executeAction call opts ts p s).1 = x_calls s ++ cs ∧
  (cs = [] ∨ match p_action p with
             | AEvict w _ => isRestartPolicyNever opts w = false ∧ ∃ r, cs = [X (XDisable w) r]
             | ARestart w _ => isRestartPolicyNever opts w = false ∧ restart_calls w cs
             | _ => False
             end).
Proof.
  unfold executeAction, try_catch. destruct (p_action p) as [w ?|w ?|? ?|? ? ?|? ? ? ?|? ?];
    try (exists []; rewrite app_nil_r; split; [done|by left]).
  - destruct (isRestartPolicyNever opts w) eqn:En; [exists []; rewrite app_nil_r; split; [done|by left]|].
    rewrite eff_bind_eq. destruct (perform_eq (XDisable w) s) as (s1&r1&->&H1).
    exists [X (XDisable w) r1]. split; [by destruct r1|right; eauto].
  - destruct (isRestartPolicyNever opts w) eqn:En; [exists []; rewrite app_nil_r; split; [done|by left]|].
    destruct (executeRestart_calls w ts p s) as (cs&Hcs&Hr). exists cs. split; [|by right].
    by destruct (executeRestart call opts w ts p s) as [s1 [e|err]].
Qed.

Lemma execute_proposal_calls J nowMs p s : ∃ cs,
  x_calls (execute_proposal opts J nowMs p s).1 = x_calls s ++ cs ∧ allowed J nowMs p cs.
Proof.
  unfold FleetExecutor.execute_proposal, allowed. set (retry := getExecutionRetryState _ J nowMs).
  assert (∀ s' : XSt, x_calls s' = x_calls s → ∃ cs, x_calls s' = x_calls s ++ cs ∧ (cs = [] ∨ False)) as Hnone.
  { intros s' ->. exists []. rewrite app_nil_r. split; [done|by left]. }
  assert (∀ s' : XSt, x_calls s' = x_calls s → ∃ cs, x_calls s' = x_calls s ++ cs ∧ allowed J nowMs p cs) as Hn.
  { intros s' Hs'. destruct (Hnone s' Hs') as (cs&?&[->|[]]). exists []. split; [done|by left]. }
  fold (allowed J nowMs p) in Hn. unfold allowed in Hn. fold retry in Hn.
  destruct (rt_terminal retry) eqn:Et; [by apply Hn|]. destruct (rt_pending retry) eqn:Ep; [|by apply Hn]. simpl.
  destruct (expired date_parse p nowMs) eqn:Ex.
  { apply Hn. rewrite eff_bind_eq. pose proof (x_calls_write (JExecution (entry_of opts (iso nowMs) p Skipped (Some "expired") None)) s) as Hw.
    by destruct (writeJournal _ s) as [s1 []]. }
  rewrite eff_bind_eq. unfold executeOne. rewrite eff_bind_eq. unfold now_iso.
  destruct (clock (x_world s)) as [w ts]. set (s0 := mkX w _ _).
  destruct (shouldExecute opts p) eqn:Es; simpl.
  2: { apply Hn. rewrite eff_bind_eq. set (e := JExecution _). pose proof (x_calls_write e s0) as Hw.
       by destruct (writeJournal e s0) as [s1 []]. }
  rewrite eff_bind_eq. destruct (executeAction_calls ts p s0) as (cs&Hcs&Hall).
  destruct (executeAction call opts ts p s0) as [s1 [out|err]]; simpl in *.
  - rewrite eff_bind_eq. set (e := JExecution _). pose proof (x_calls_write e s1) as Hw.
    exists cs. destruct (writeJournal e s1) as [s2 []]; simpl in *; rewrite Hw, Hcs; (split; [done|]);
      (destruct Hall as [->|Hall]; [by left|right; by split_and!]).
  - exists cs. split; [done|]. destruct Hall as [->|Hall]; [by left|right; by split_and!].
Qed.

(** A run disables or enables a workload only on behalf of a
    proposal of this node that is neither settled nor waiting nor expired,
    that was chosen by hand or falls under the automatic threshold, that evicts
    or restarts that workload, and whose workload's restart policy is not
    Never.  Each proposal is acted on once, in journal order; an eviction is
    one disabling, and a restart enables only after disabling returned zero, at
    most twice, the second time only after a non-zero code. *)
Theorem executor_acts_in_bounds nowMs s :
  ∃ n css, x_calls (runExecutor opts nowMs s).1 = x_calls s ++ concat css ∧
    Forall2 (allowed (x_journal s) nowMs) (take n (proposals_of opts (x_journal s))) css.
Proof.
  unfold FleetExecutor.runExecutor. rewrite eff_bind_eq. simpl.
  generalize (proposals_of opts (x_journal s)) as ps. generalize (x_journal s) as J. intros J ps. revert s.
  induction ps as [|p ps IH]; intros s; simpl; [exists 0%nat, []; rewrite app_nil_r; split; [done|constructor]|].
  rewrite eff_bind_eq. destruct (execute_proposal_calls J nowMs p s) as (cs&Hcs&Ha).
  destruct (execute_proposal opts J nowMs p s) as [s1 [r|err]]; simpl in *.
  2: { exists 1%nat, [cs]. simpl. rewrite app_nil_r. split; [done|by constructor]. }
  rewrite eff_bind_eq. destruct (IH s1) as (n&css&Hcss&Hall). exists (S n), (cs :: css). simpl. split; [|by constructor].
  rewrite app_assoc, <-Hcs, <-Hcss. by destruct (run_proposals opts J nowMs ps s1) as [s2 []].
Qed.
End opts.
End executor.

(** ** A node whose disable command fails *)

Definition ex_call (c : XCall) (w : unit) : unit * result Z :=
  (w, match c with XDisable _ => Ok 7 | XEnable _ => Ok 0 end).
Definition ex_write (e : FleetJournalEntry) (w : unit) : unit * result unit := (w, Ok tt).
Definition ex_clock (w : unit) : unit * string := (w, "ts").
Definition ex_proposal (id w : string) : FleetProposalEntry :=
  mkProposal "t0" "n" id (mkTransition w false Degraded "healthy" "degraded") (AEvict w "r") None.
Definition ex_opts (auto : bool) (id : option string) : ExecutorOptions := mkExecutorOptions "n" auto 3 id None.
Notation ex_run opts nowMs := (runExecutor ex_call ex_write ex_clock pretty parseInt opts nowMs).
Definition ex_journal (ps : list FleetProposalEntry) : XSt := mkX tt (JProposal <$> ps) [].

Lemma executor_implements_retries_witness :
  let '(s', r) := ex_run (ex_opts true None) 1000 (ex_journal [ex_proposal "p" "w"]) in
  is_ok r = true ∧ length (executions_of "p" (x_journal s')) = 1%nat ∧
  ∃ rs, means pretty (executions_of "p" (x_journal s')) rs ∧ retry_step 1000 (Pending 0 None) rs.
Proof.
  pose proof (executor_implements_retries ex_call ex_write ex_clock pretty parseInt parseInt_pretty_Z
    (ex_opts true None) 1000 (ex_journal [ex_proposal "p" "w"])) as H.
  assert (is_ok (ex_run (ex_opts true None) 1000 (ex_journal [ex_proposal "p" "w"])).2 = true ∧
    length (executions_of "p" (x_journal (ex_run (ex_opts true None) 1000 (ex_journal [ex_proposal "p" "w"])).1)) = 1%nat)
    as [H1 H2] by (vm_compute; split; reflexivity).
  destruct (ex_run (ex_opts true None) 1000 (ex_journal [ex_proposal "p" "w"])) as [s' r]. simpl in H1, H2.
  split_and!; [exact H1|exact H2|].
  destruct H as [H _].
  - vm_compute. repeat constructor. intros Hx. by apply not_elem_of_nil in Hx.
  - intros p Hp. exists (Pending 0 None). vm_compute in Hp.
    apply list_elem_of_singleton in Hp as ->. constructor.
  - destruct (H (ex_proposal "p" "w") (Pending 0 None)) as [[Hf _]|Hs].
    + vm_compute. left.
    + constructor.
    + rewrite H1 in Hf. discriminate Hf.
    + exact Hs.
Defined.

(** Running another proposal by hand, without automatic execution, settles
    every other proposal as skipped, and a later run asked for one of them by
    its id does nothing. *)
Lemma manual_override_lost :
  let s1 := (ex_run (ex_opts false (Some "p1")) 1000 (ex_journal [ex_proposal "p1" "w1"; ex_proposal "p2" "w2"])).1 in
  let s2 := (ex_run (ex_opts false (Some "p2")) 2000 s1).1 in
  e_reason <$> executions_of "p2" (x_journal s1) = [Some "--auto not set"] ∧
  x_calls s1 = [X (XDisable "w1") (Ok 7)] ∧ x_calls s2 = x_calls s1 ∧
  executions_of "p2" (x_journal s2) = executions_of "p2" (x_journal s1).
Proof. vm_compute. split_and!; reflexivity. Qed.
