(* ===== verification/FleetPlacement.v ===== *)
(** * Fleet supervisor: the snapshot table and placement

    packages/fleet-supervisor/src/aggregator-db.ts, placement.ts and
    [projectAdmissionHeadroom] of policy.ts: what the nodes last said, and which
    node a workload is put on.  Memory, scores and rates are exact rationals;
    the table keeps the text of a snapshot, read by a parameter. *)

From S2P Require Import Prelude JsSort JsText FleetTypes.
From Stdlib Require Import QArith.
From Stdlib Require Import Ascii.

#[local] Open Scope string_scope.
#[local] Open Scope list_scope.
#[local] Open Scope Z_scope.

(** ** aggregator-db.ts *)

(** A row of [node_snapshots], whose primary key is the node and the time. *)
Record DbRow := mkDbRow { r_node : string; r_ts : string; r_received : option string; r_json : string }.

Definition SNAPSHOT_RETENTION_PER_NODE : nat := 200.

Definition text_cmp (a b : string) : Z :=
  match String.compare a b with Lt => -1 | Eq => 0 | Gt => 1 end.

(** [ORDER BY ts DESC] *)
Definition by_ts_desc (a b : DbRow) : Z := text_cmp (r_ts b) (r_ts a).

Definition same_key (node ts : string) (r : DbRow) : bool := bool_decide (r_node r = node) && bool_decide (r_ts r = ts).

(** [COALESCE(received_at, ts)] *)
Definition received (r : DbRow) : string := default (r_ts r) (r_received r).

Definition insert_row (node ts receivedAt json : string) (db : list DbRow) : list DbRow :=
  if existsb (same_key node ts) db then
    (λ r, if same_key node ts r
          then mkDbRow node ts (if bool_decide (r_json r = json) then r_received r else Some receivedAt) json else r) <$> db
  else db ++ [mkDbRow node ts (Some receivedAt) json].

(** The times kept for a node. *)
Definition retained (node : string) (db : list DbRow) : list string :=
  r_ts <$> take SNAPSHOT_RETENTION_PER_NODE (js_sort by_ts_desc (filter (λ r, r_node r = node) db)).

Definition writeSnapshot (node ts receivedAt json : string) (db : list DbRow) : list DbRow :=
  let db' := insert_row node ts receivedAt json db in
  filter (λ r, ¬ (r_node r = node ∧ r_ts r ∉ retained node db')) db'.

(** [ORDER BY COALESCE(received_at, ts) DESC, ts DESC] *)
Definition by_received_desc (a b : DbRow) : Z :=
  let c := text_cmp (received b) (received a) in if c =? 0 then text_cmp (r_ts b) (r_ts a) else c.

Definition latest_of (node : string) (db : list DbRow) : option DbRow :=
  head (js_sort by_received_desc (filter (λ r, r_node r = node) db)).

Section reading.
(** [JSON.parse] of a snapshot's text. *)
Context (parse : string → FleetSnapshotEntry).

Definition row_of (r : DbRow) : SnapshotRow := mkRow (r_node r) (r_ts r) (received r) (parse (r_json r)).

Definition is_fresh (freshAfterTs : option string) (r : DbRow) : bool :=
  match freshAfterTs with Some t => 0 <=? text_cmp (received r) t | None => true end.

Definition node_names (db : list DbRow) : list string := js_sort text_cmp (remove_dups (r_node <$> db)).

Definition getLatestPerNode (freshAfterTs : option string) (db : list DbRow) : list SnapshotRow :=
  row_of <$> filter (λ r, is_fresh freshAfterTs r = true) (omap (λ node, latest_of node db) (node_names db)).

Definition getHistoricalForNode (node : string) (sinceTs : option string) (limit : option nat) (db : list DbRow) :
    list SnapshotRow :=
  row_of <$> take (default 50%nat limit)
    (js_sort by_ts_desc
       (filter (λ r, r_node r = node ∧ match sinceTs with Some t => 0 <=? text_cmp (r_ts r) t | None => true end = true) db)).
End reading.

(** ** policy.ts *)

Inductive AdmissionDenyReason := ProjectedFreeBelowHeadroom | CompressorAboveThreshold.

Record HeadroomInput := mkHeadroom {
  h_currentFreeGiB : Q; h_expectedMemoryGiB : Q; h_headroomMinGiB : Q; h_safetyFactor : option Q;
  h_currentCompressorGiB : option Q; h_compressorMaxGiB : option Q; h_measuredPeakMb : option Q
}.

Definition projected_free (input : HeadroomInput) : Q :=
  match h_measuredPeakMb input with
  | Some peak => (h_currentFreeGiB input - peak * (105 # 100) / 1024)%Q
  | None => (h_currentFreeGiB input - h_expectedMemoryGiB input * default (13 # 10) (h_safetyFactor input))%Q
  end.

(** [None]: allowed. *)
Definition projectAdmissionHeadroom (input : HeadroomInput) : option AdmissionDenyReason :=
  if negb (Qle_bool (h_headroomMinGiB input) (projected_free input)) then Some ProjectedFreeBelowHeadroom
  else
    match h_currentCompressorGiB input, h_compressorMaxGiB input with
    | Some current, Some max => if Qle_bool max current then Some CompressorAboveThreshold else None
    | _, _ => None
    end.

Definition deny_text (r : AdmissionDenyReason) : string :=
  match r with
  | ProjectedFreeBelowHeadroom => "projected_free_below_headroom"
  | CompressorAboveThreshold => "compressor_above_threshold"
  end.

(** ** placement.ts *)

(** [ns_score] is [None] for -Infinity. *)
Record NodeScore := mkScore {
  ns_node : string; ns_score : option Q; ns_freeAfterMb : Q; ns_freePenaltyMb : Q; ns_compressorMb : Q;
  ns_requestRate5m : Z; ns_eligible : bool; ns_ineligibilityReason : option string;
  ns_pressureState : option PressureState; ns_modelFilePresent : option bool
}.

Record PlacementInput := mkPlacement {
  pi_targetModel : string; pi_expectedMemoryMb : Q; pi_modelFilePenaltyMb : option Q; pi_headroomMinMb : option Q;
  pi_compressorWarnMb : option Q
}.

Definition DEFAULT_HEADROOM_MIN_MB : Q := 512.
Definition DEFAULT_COMPRESSOR_WARN_MB : Q := 2048.
Definition DEFAULT_MODEL_FILE_PENALTY_MB : Q := 4096.

Definition no_telemetry : NodeScore :=
  mkScore "unknown" None 0 0 0 0 false (Some "no_telemetry") None None.

Definition has_model (targetModel : string) (ws : list WorkloadSnapshot) : bool :=
  let target := trim targetModel in
  if bool_decide (target = "") then true
  else existsb (λ w, existsb (λ model, bool_decide (model = target) || bool_decide (model = basename target)) (w_models w)) ws.

Definition request_rate (ws : list WorkloadSnapshot) : Z := sumZ (λ w, default 0 (w_request_rate_5m w)) ws.

Definition score_node (input : PlacementInput) (entry : option SnapshotRow) : NodeScore :=
  let modelFilePenaltyMb := default DEFAULT_MODEL_FILE_PENALTY_MB (pi_modelFilePenaltyMb input) in
  let compressorWarnMb := default DEFAULT_COMPRESSOR_WARN_MB (pi_compressorWarnMb input) in
  let headroomMinMb := default DEFAULT_HEADROOM_MIN_MB (pi_headroomMinMb input) in
  match entry with
  | None => no_telemetry
  | Some row =>
      let snapshot := sr_snapshot row in
      let modelFilePresent := has_model (pi_targetModel input) (fs_workloads snapshot) in
      let free := inject_Z (free_mb (fs_node_mem snapshot)) in
      let compressorMb := inject_Z (compressor_mb (fs_node_mem snapshot)) in
      let freeAfterMb := (free - pi_expectedMemoryMb input)%Q in
      let freePenaltyMb := if modelFilePresent then 0%Q else modelFilePenaltyMb in
      let rate := request_rate (fs_workloads snapshot) in
      let projected :=
        projectAdmissionHeadroom
          (mkHeadroom (free / 1024)%Q 0 (headroomMinMb / 1024)%Q None (Some (compressorMb / 1024)%Q)
             (Some (compressorWarnMb / 1024)%Q) None) in
      match projected with
      | Some _ =>
          mkScore (fs_node snapshot) None freeAfterMb freePenaltyMb compressorMb rate false (Some "pressure") (Some HIGH) None
      | None =>
          if negb (Qle_bool headroomMinMb freeAfterMb) then
            mkScore (fs_node snapshot) None freeAfterMb freePenaltyMb compressorMb rate false (Some "insufficient_headroom")
              (Some NORMAL) None
          else
            mkScore (fs_node snapshot) (Some (freeAfterMb - freePenaltyMb)%Q) freeAfterMb freePenaltyMb compressorMb rate true None
              (Some NORMAL) (Some modelFilePresent)
      end
  end.

Definition scoreNodes (rows : list (option SnapshotRow)) (input : PlacementInput) : list NodeScore := score_node input <$> rows.

(** The sign of [a - b]. *)
Definition sign_diff (a b : Q) : Z := match Qcompare a b with Lt => -1 | Eq => 0 | Gt => 1 end.

(** The sign of [b - a] for scores, of which -Infinity is the least. *)
Definition score_desc (a b : option Q) : Z :=
  match a, b with
  | Some p, Some q => sign_diff q p
  | Some _, None => -1
  | None, Some _ => 1
  | None, None => 0
  end.

Definition better_node (a b : NodeScore) : Z :=
  if negb (Bool.eqb (ns_eligible a) (ns_eligible b)) then (if ns_eligible a then -1 else 1)
  else if negb (score_desc (ns_score a) (ns_score b) =? 0) then score_desc (ns_score a) (ns_score b)
  else if negb (sign_diff (ns_compressorMb a) (ns_compressorMb b) =? 0) then sign_diff (ns_compressorMb a) (ns_compressorMb b)
  else ns_requestRate5m a - ns_requestRate5m b.

Definition chooseBestNode (scores : list NodeScore) : option string :=
  ns_node <$> find ns_eligible (js_sort better_node scores).

Record FleetPlacementDecision := mkDecision {
  fd_workload : string; fd_requestedNode : string; fd_chosenNode : string; fd_expectedMemoryMb : Q; fd_headroomMinMb : Q;
  fd_modelFilePenaltyMb : Q; fd_scores : list NodeScore
}.

Definition makePlacementDecision (workloadName requestedNode : string) (expectedMemoryMb : Q) (scores : list NodeScore)
    (headroomMinMb modelFilePenaltyMb : option Q) : FleetPlacementDecision :=
  mkDecision workloadName requestedNode (default "" (ns_node <$> find ns_eligible scores)) expectedMemoryMb
    (default DEFAULT_HEADROOM_MIN_MB headroomMinMb) (default DEFAULT_MODEL_FILE_PENALTY_MB modelFilePenaltyMb) scores.

(** ** Fleet supervisor: what placement chooses

    The table keeps and hands out the newest snapshots, and a workload goes to
    a node that has room and no pressure, of those the one with most memory
    left. *)

From Stdlib Require Import QArith Lqa.

#[local] Open Scope string_scope.
#[local] Open Scope list_scope.
#[local] Open Scope Z_scope.

(** ** Comparators *)

Lemma text_cmp_order : cmp_order text_cmp.
Proof.
  assert (∀ a b, text_cmp a b ≤ 0 ↔ str_lt a b ∨ a = b) as Hle.
  { intros a b. unfold text_cmp. destruct (str_lt_total a b) as [H|[->|H]].
    - rewrite H. split; [by left|lia].
    - rewrite str_compare_refl. split; [by right|lia].
    - pose proof H as H'. unfold str_lt in H'. rewrite String.compare_antisym in H'.
      destruct (String.compare a b) eqn:E; try done. split; [lia|]. intros [Hl| ->]; [|by apply str_lt_irrefl in H].
      by destruct (str_lt_irrefl a (str_lt_trans _ _ _ Hl H)). }
  split.
  - intros a b. unfold text_cmp. rewrite (String.compare_antisym b a). by destruct (String.compare a b).
  - intros a b c. rewrite !Hle. intros [H| ->] [H'| ->]; auto. left. by eapply str_lt_trans.
Qed.

Lemma text_cmp_eq a b : text_cmp a b = 0 ↔ a = b.
Proof.
  unfold text_cmp. split; [|intros ->; by rewrite str_compare_refl].
  destruct (String.compare a b) eqn:E; try done. intros _. by apply String.compare_eq_iff.
Qed.

Lemma sign_diff_order : cmp_order sign_diff.
Proof.
  split.
  - intros a b. unfold sign_diff. rewrite <-(Qcompare_antisym a b). by destruct (Qcompare a b).
  - intros a b c. unfold sign_diff. 
    destruct (Qcompare_spec a b), (Qcompare_spec b c), (Qcompare_spec a c); intros; try lia; exfalso; lra.
Qed.

Lemma sign_diff_le a b : sign_diff a b ≤ 0 ↔ (a <= b)%Q.
Proof. unfold sign_diff. destruct (Qcompare_spec a b); split; intros; try lia; try lra; exfalso; lra. Qed.

Lemma score_desc_order : cmp_order score_desc.
Proof.
  pose proof sign_diff_order as [Hs Ht]. split.
  - intros [p|] [q|]; try done. apply Hs.
  - intros [p|] [q|] [r|]; cbn; try lia. intros H1 H2. by apply (Ht r q p).
Qed.

Definition eligible_first (a b : NodeScore) : Z := (if ns_eligible a then 0 else 1) - (if ns_eligible b then 0 else 1).

Lemma better_node_lex a b :
  better_node a b =
    cmp_lex eligible_first
      (cmp_lex (λ a b, score_desc (ns_score a) (ns_score b))
         (cmp_lex (λ a b, sign_diff (ns_compressorMb a) (ns_compressorMb b)) (λ a b, ns_requestRate5m a - ns_requestRate5m b)))
      a b.
Proof.
  unfold better_node, cmp_lex, eligible_first. destruct (ns_eligible a), (ns_eligible b); cbn; try done; by repeat case_match.
Qed.

Lemma better_node_order : cmp_order better_node.
Proof.
  assert (cmp_order (cmp_lex eligible_first
      (cmp_lex (λ a b, score_desc (ns_score a) (ns_score b))
         (cmp_lex (λ a b, sign_diff (ns_compressorMb a) (ns_compressorMb b)) (λ a b, ns_requestRate5m a - ns_requestRate5m b)))))
    as [Hs Ht].
  { apply cmp_lex_order; [apply (cmp_order_key (λ a, if ns_eligible a then 0 else 1))|].
    apply cmp_lex_order; [apply (cmp_order_map ns_score), score_desc_order|].
    apply cmp_lex_order; [apply (cmp_order_map ns_compressorMb), sign_diff_order|apply cmp_order_key]. }
  split; intros *; rewrite !better_node_lex; [apply Hs|apply Ht].
Qed.

(** ** The table *)

(** In a strictly sorted list, being among the first [n] is having fewer than
    [n] before one. *)
Lemma elem_of_take_rank {A} `{EqDecision A} (R : A → A → Prop) `{!RelDecision R} (l : list A) x n :
  (∀ y z, R y z → ¬ R z y) → StronglySorted R l → x ∈ l →
  x ∈ take n l ↔ (length (filter (λ y, R y x) l) < n)%nat.
Proof.
  intros Hasym Hs. revert n. induction Hs as [|a l Hs IH Hall]; intros n Hx; [by apply elem_of_nil in Hx|].
  rewrite Forall_forall in Hall. assert (¬ R a a) as Haa by (intros H; by apply (Hasym a a)).
  destruct n as [|n]; [split; [by intros ?%elem_of_nil|lia]|]. cbn [take]. rewrite filter_cons.
  destruct (decide (x = a)) as [->|Hne].
  - rewrite decide_False by done. split; [|intros _; left].
    intros _. destruct (filter _ l) as [|y k] eqn:E; [cbn; lia|].
    assert (y ∈ filter (λ y, R y a) l) as Hy by (rewrite E; left). apply list_elem_of_filter in Hy as [Hya Hy].
    by destruct (Hasym a y (Hall y Hy)).
  - apply elem_of_cons in Hx as [?|Hx]; [done|]. rewrite decide_True by by apply Hall. cbn [length].
    rewrite elem_of_cons, (IH n Hx). split; [intros [?|?]; [done|lia]|intros ?; right; lia].
Qed.

#[local] Instance str_gt_dec : RelDecision (λ a b : string, str_lt b a) := λ a b, str_lt_dec b a.

Definition key (r : DbRow) : string * string := (r_node r, r_ts r).

(** The rows of [node] that are later than [ts]. *)
Definition later_rows (node ts : string) (db : list DbRow) : list DbRow :=
  filter (λ r, r_node r = node ∧ str_lt ts (r_ts r)) db.

Lemma NoDup_times node db : NoDup (key <$> db) → NoDup (r_ts <$> filter (λ r, r_node r = node) db).
Proof.
  induction db as [|r db IH]; [constructor|]. rewrite fmap_cons, filter_cons. intros [Hr Hnd]%NoDup_cons.
  case_decide as Hn; [|by apply IH]. cbn. apply NoDup_cons. split; [|by apply IH].
  intros (r'&Hts&[Hn' Hr']%list_elem_of_filter)%list_elem_of_fmap. apply Hr, list_elem_of_fmap.
  exists r'. split; [|done]. unfold key. congruence.
Qed.

Lemma sorted_times (l : list DbRow) :
  NoDup (r_ts <$> l) → StronglySorted (cmp_le by_ts_desc) l → StronglySorted (λ a b : string, str_lt b a) (r_ts <$> l).
Proof.
  intros Hnd Hs. induction Hs as [|r l Hs IH Hall]; cbn; [constructor|].
  apply NoDup_cons in Hnd as [Hr Hnd]. constructor; [by apply IH|].
  apply Forall_forall. intros t (r'&->&Hr')%list_elem_of_fmap. rewrite Forall_forall in Hall. specialize (Hall r' Hr').
  destruct (str_lt_total (r_ts r') (r_ts r)) as [?|[E|H]]; [done| |].
  - destruct Hr. apply list_elem_of_fmap. eauto.
  - exfalso. unfold cmp_le, by_ts_desc, text_cmp in Hall. unfold str_lt in H. rewrite String.compare_antisym, H in Hall.
    cbn in Hall. lia.
Qed.

Lemma retained_rank node ts db :
  NoDup (key <$> db) → ts ∈ r_ts <$> filter (λ r, r_node r = node) db →
  ts ∈ retained node db ↔ (length (later_rows node ts db) < SNAPSHOT_RETENTION_PER_NODE)%nat.
Proof.
  intros Hnd Hts. unfold retained. set (l := filter _ db) in *. set (l' := js_sort by_ts_desc l).
  assert (r_ts <$> l' ≡ₚ r_ts <$> l) as Hperm by (apply fmap_Permutation, js_sort_perm).
  assert (NoDup (r_ts <$> l')) as Hnd' by (rewrite Hperm; by apply NoDup_times).
  assert (StronglySorted (cmp_le by_ts_desc) l') as Hs.
  { apply (js_sort_sorted _ (λ _, True)); [|by apply Forall_true].
    apply cmp_order_ok, (cmp_order_flip (λ a b, text_cmp (r_ts a) (r_ts b))), (cmp_order_map r_ts), text_cmp_order. }
  rewrite fmap_take, (elem_of_take_rank (λ a b : string, str_lt b a) _ ts).
  - rewrite Hperm. f_equiv. unfold later_rows, l. clear. induction db as [|r db IH]; [done|].
    rewrite !filter_cons. destruct (decide (r_node r = node)) as [Hn|Hn].
    + rewrite fmap_cons, filter_cons. destruct (decide (str_lt ts (r_ts r))).
      * rewrite decide_True by done. cbn [length]. by rewrite IH.
      * rewrite decide_False by tauto. done.
    + rewrite decide_False by tauto. done.
  - intros a b H1 H2. by apply (str_lt_irrefl a), (str_lt_trans _ b).
  - by apply sorted_times.
  - by rewrite Hperm.
Qed.

Lemma latest_of_node node db r : latest_of node db = Some r → r_node r = node ∧ r ∈ db.
Proof.
  unfold latest_of. intros H. apply head_Some_elem_of, elem_of_js_sort, list_elem_of_filter in H. tauto.
Qed.

(** The newest received row of a node is the one handed out. *)
Lemma latest_of_max node db r :
  r ∈ db → r_node r = node → (∀ r', r' ∈ db → r_node r' = node → r' = r ∨ str_lt (received r') (received r)) →
  latest_of node db = Some r.
Proof.
  intros Hr Hn Hmax. unfold latest_of. set (l := filter _ db). assert (r ∈ l) as Hrl by (by apply list_elem_of_filter).
  destruct (js_sort by_received_desc l) as [|x k] eqn:E.
  { exfalso. apply elem_of_js_sort with (cmp := by_received_desc) in Hrl. rewrite E in Hrl. by apply elem_of_nil in Hrl. }
  assert (x ∈ l) as Hx by (apply (elem_of_js_sort by_received_desc); rewrite E; left).
  apply list_elem_of_filter in Hx as [Hxn Hx]. cbn. f_equal.
  destruct (Hmax x Hx Hxn) as [->|Hlt]; [done|]. exfalso.
  assert (cmp_order by_received_desc) as Hord.
  { apply (cmp_lex_order (λ a b, text_cmp (received b) (received a)) (λ a b, text_cmp (r_ts b) (r_ts a))).
    - apply (cmp_order_flip (λ a b, text_cmp (received a) (received b))), (cmp_order_map received), text_cmp_order.
    - apply (cmp_order_flip (λ a b, text_cmp (r_ts a) (r_ts b))), (cmp_order_map r_ts), text_cmp_order. }
  destruct (js_sort_head by_received_desc (λ _, True) l x k (cmp_order_ok _ Hord) ltac:(by apply Forall_true) E r Hrl) as [->|Hle].
  - by apply str_lt_irrefl in Hlt.
  - unfold cmp_le, by_received_desc, text_cmp in Hle. unfold str_lt in Hlt. rewrite String.compare_antisym, Hlt in Hle.
    cbn in Hle. lia.
Qed.

Section rows.
Context (parse : string → FleetSnapshotEntry).

Lemma getLatest_other cutoff names node db :
  node ∉ names →
  filter (λ r, sr_node r = node) (row_of parse <$> filter (λ r, is_fresh cutoff r = true) (omap (λ n, latest_of n db) names)) = [].
Proof.
  induction names as [|n names IH]; intros Hn; [done|]. apply not_elem_of_cons in Hn as [Hne Hn].
  cbn [omap list_omap]. destruct (latest_of n db) as [r|] eqn:E; [|by apply IH].
  rewrite filter_cons. case_decide; [|by apply IH]. rewrite fmap_cons, filter_cons.
  apply latest_of_node in E as [En _]. rewrite decide_False by (cbn; congruence). by apply IH.
Qed.

(** What is handed out for a node. *)
Lemma getLatest_node cutoff node db :
  filter (λ r, sr_node r = node) (getLatestPerNode parse cutoff db) =
    match latest_of node db with Some r => if is_fresh cutoff r then [row_of parse r] else [] | None => [] end.
Proof.
  unfold getLatestPerNode. assert (NoDup (node_names db)) as Hnd by (apply js_sort_NoDup, NoDup_remove_dups).
  destruct (decide (node ∈ node_names db)) as [Hin|Hnin].
  - apply list_elem_of_split in Hin as (l1&l2&E). rewrite E in Hnd. apply NoDup_app in Hnd as (_&H1&H2).
    apply NoDup_cons in H2 as [H2 _]. rewrite E, omap_app. cbn [omap list_omap].
    rewrite !filter_app, fmap_app, filter_app, getLatest_other by (intros H; by apply (H1 node H); left).
    destruct (latest_of node db) as [r|] eqn:El; [|by apply getLatest_other].
    rewrite filter_cons. destruct (is_fresh cutoff r); cbn [app]; [|by apply getLatest_other].
    rewrite decide_True by done. rewrite fmap_cons, filter_cons. apply latest_of_node in El as [En _].
    rewrite decide_True by done. by rewrite getLatest_other.
  - rewrite getLatest_other by done. destruct (latest_of node db) as [r|] eqn:El; [|done].
    apply latest_of_node in El as [<- Hr]. destruct Hnin. apply elem_of_js_sort, elem_of_remove_dups.
    apply list_elem_of_fmap. eauto.
Qed.

(** A report with a time the node did not report before
    becomes the row handed out for the node when fewer than two hundred rows of
    the node carry a later time, it was received after all others and within
    the cutoff.  When two hundred or more carry a later time, as after the
    node's clock was set back, it is not even kept. *)
Theorem snapshot_counts node ts rec json db cutoff :
  NoDup (key <$> db) → (node, ts) ∉ key <$> db →
  let db' := writeSnapshot node ts rec json db in
  let later := length (later_rows node ts db) in
  ((later < SNAPSHOT_RETENTION_PER_NODE)%nat →
   (∀ r, r ∈ db → r_node r = node → str_lt (received r) rec) →
   (∀ c, cutoff = Some c → ¬ str_lt rec c) →
   filter (λ r, sr_node r = node) (getLatestPerNode parse cutoff db') = [mkRow node ts rec (parse json)]) ∧
  ((SNAPSHOT_RETENTION_PER_NODE ≤ later)%nat → (node, ts) ∉ key <$> db').
Proof.
  intros Hnd Hnew db' later. set (new := mkDbRow node ts (Some rec) json).
  assert (insert_row node ts rec json db = db ++ [new]) as Eins.
  { unfold insert_row. destruct (existsb _ db) eqn:E; [|done]. apply existsb_exists in E as (r&Hr&Hk).
    unfold same_key in Hk. to_prop. destruct Hnew. apply list_elem_of_fmap. exists r.
    split; [unfold key; congruence|by apply list_elem_of_In]. }
  assert (NoDup (key <$> (db ++ [new]))) as Hnd'.
  { rewrite fmap_app. apply NoDup_app. split; [done|]. split; [|apply NoDup_singleton].
    intros k Hk ->%list_elem_of_singleton. by apply Hnew. }
  assert (ts ∈ r_ts <$> filter (λ r, r_node r = node) (db ++ [new])) as Hts.
  { apply list_elem_of_fmap. exists new. split; [done|]. apply list_elem_of_filter. split; [done|].
    apply elem_of_app. right. by left. }
  assert (ts ∈ retained node (db ++ [new]) ↔ (later < SNAPSHOT_RETENTION_PER_NODE)%nat) as Hret.
  { rewrite retained_rank by done. unfold later, later_rows. rewrite filter_app, length_app.
    rewrite (filter_cons_False _ new) by (intros [_ H]; by apply str_lt_irrefl in H). rewrite filter_nil. cbn. by rewrite Nat.add_0_r. }
  unfold db', writeSnapshot. rewrite Eins. split.
  - intros Hlt Hmax Hcut. apply Hret in Hlt. rewrite getLatest_node, (latest_of_max node _ new).
    + assert (is_fresh cutoff new = true) as ->; [|done]. unfold is_fresh. destruct cutoff as [c|]; [|done].
      apply Z.leb_le. unfold text_cmp. cbn. specialize (Hcut c eq_refl). unfold str_lt in Hcut.
      destruct (String.compare rec c); [lia|done|lia].
    + apply list_elem_of_filter. split; [by intros [_ H]|]. apply elem_of_app. right. by left.
    + done.
    + intros r [_ [Hr| ->%list_elem_of_singleton]%elem_of_app]%list_elem_of_filter Hrn; [|by left].
      right. by apply Hmax.
  - intros Hge (r&Hk&[Hkeep _]%list_elem_of_filter)%list_elem_of_fmap. apply Hkeep. unfold key in Hk.
    injection Hk as <- Ets. rewrite <-Ets. split; [done|]. intros Hin. apply Hret in Hin. lia.
Qed.
End rows.

(** ** Placement *)

Section placement.
Context (input : PlacementInput).

(** The node has room for the workload on top of the headroom, and is under no
    pressure now. *)
Definition fits (row : SnapshotRow) : Prop :=
  let mem := fs_node_mem (sr_snapshot row) in
  let headroom := default DEFAULT_HEADROOM_MIN_MB (pi_headroomMinMb input) in
  (headroom <= inject_Z (free_mb mem))%Q ∧
  (inject_Z (compressor_mb mem) < default DEFAULT_COMPRESSOR_WARN_MB (pi_compressorWarnMb input))%Q ∧
  (headroom <= inject_Z (free_mb mem) - pi_expectedMemoryMb input)%Q.

(** What is left of its memory, less a penalty when it has not got the model. *)
Definition left_over (row : SnapshotRow) : Q :=
  let snapshot := sr_snapshot row in
  (inject_Z (free_mb (fs_node_mem snapshot)) - pi_expectedMemoryMb input -
   (if has_model (pi_targetModel input) (fs_workloads snapshot) then 0
    else default DEFAULT_MODEL_FILE_PENALTY_MB (pi_modelFilePenaltyMb input)))%Q.

Definition compressed (row : SnapshotRow) : Z := compressor_mb (fs_node_mem (sr_snapshot row)).
Definition rate (row : SnapshotRow) : Z := request_rate (fs_workloads (sr_snapshot row)).

Lemma Qle_bool_spec p q : reflect (p <= q)%Q (Qle_bool p q).
Proof. apply iff_reflect. symmetry. apply Qle_bool_iff. Qed.

Lemma projected_fits free headroom comp warn :
  projectAdmissionHeadroom (mkHeadroom (free / 1024)%Q 0 (headroom / 1024)%Q None (Some (comp / 1024)%Q) (Some (warn / 1024)%Q) None)
    = None ↔ (headroom <= free)%Q ∧ (comp < warn)%Q.
Proof.
  unfold projectAdmissionHeadroom, projected_free, Qdiv. cbn. change (/ 1024)%Q with (1 # 1024)%Q.
  destruct (Qle_bool_spec (headroom * (1 # 1024)) (free * (1 # 1024) - 0 * (13 # 10))) as [H|H]; cbn.
  - destruct (Qle_bool_spec (warn * (1 # 1024)) (comp * (1 # 1024))) as [H'|H']; split; try done.
    + intros [_ Hc]. exfalso. lra.
    + intros _. split; [lra|]. apply Qnot_le_lt. intros Hle. apply H'. lra.
  - split; [done|]. intros [Hf _]. exfalso. apply H. lra.
Qed.

Lemma score_node_eligible e :
  ns_eligible (score_node input e) = true ↔ ∃ row, e = Some row ∧ fits row.
Proof.
  destruct e as [row|]; cbn; [|naive_solver]. unfold score_node, fits.
  destruct (projectAdmissionHeadroom _) eqn:Ep.
  - split; [done|]. intros (r&[= <-]&H1&H2&_). by rewrite (proj2 (projected_fits _ _ _ _) (conj H1 H2)) in Ep.
  - apply projected_fits in Ep as [H1 H2].
    destruct (Qle_bool_spec (default DEFAULT_HEADROOM_MIN_MB (pi_headroomMinMb input))
      (inject_Z (free_mb (fs_node_mem (sr_snapshot row))) - pi_expectedMemoryMb input)) as [H3|H3]; cbn; naive_solver.
Qed.

Lemma score_node_fits row :
  fits row →
  ns_node (score_node input (Some row)) = fs_node (sr_snapshot row) ∧
  ns_score (score_node input (Some row)) = Some (left_over row) ∧
  ns_compressorMb (score_node input (Some row)) = inject_Z (compressed row) ∧
  ns_requestRate5m (score_node input (Some row)) = rate row.
Proof.
  intros (H1&H2&H3). unfold score_node. rewrite (proj2 (projected_fits _ _ _ _) (conj H1 H2)).
  by destruct (Qle_bool_spec (default DEFAULT_HEADROOM_MIN_MB (pi_headroomMinMb input))
      (inject_Z (free_mb (fs_node_mem (sr_snapshot row))) - pi_expectedMemoryMb input)).
Qed.

(** The first eligible one of a sorted list is no worse than any other. *)
Lemma find_eligible_best l :
  StronglySorted (cmp_le better_node) l →
  match find ns_eligible l with
  | Some s => s ∈ l ∧ ns_eligible s = true ∧ ∀ s', s' ∈ l → ns_eligible s' = true → s' = s ∨ better_node s s' ≤ 0
  | None => ∀ s, s ∈ l → ns_eligible s = false
  end.
Proof.
  induction 1 as [|x l Hs IH Hall]; cbn; [by intros s ?%elem_of_nil|]. destruct (ns_eligible x) eqn:Ex.
  - split; [left|]. split; [done|]. intros s' [->|Hs']%elem_of_cons _; [by left|]. right.
    by eapply Forall_forall in Hall.
  - destruct (find ns_eligible l) as [s|].
    + destruct IH as (Hin&Hel&Hbest). split; [by right|]. split; [done|].
      intros s' [->|Hs']%elem_of_cons Hel'; [congruence|by apply Hbest].
    + intros s [->|Hs']%elem_of_cons; [done|by apply IH].
Qed.

(** The node chosen from the rows of the table reported memory
    that covers the workload on top of the headroom and no pressure, and of all
    nodes that did it has most memory left, less a penalty for a model it would
    have to fetch; ties go to the smaller compressor and then to the lower
    request rate.  None is chosen just when no node fits. *)
Theorem placement_best rows :
  match chooseBestNode (scoreNodes rows input) with
  | Some node =>
      ∃ row, Some row ∈ rows ∧ fs_node (sr_snapshot row) = node ∧ fits row ∧
        ∀ other, Some other ∈ rows → fits other →
          (left_over other < left_over row)%Q ∨
          (left_over other == left_over row)%Q ∧
          (compressed row < compressed other ∨ compressed row = compressed other ∧ rate row ≤ rate other)
  | None => ∀ row, Some row ∈ rows → ¬ fits row
  end.
Proof.
  unfold chooseBestNode. set (l := js_sort better_node _).
  assert (StronglySorted (cmp_le better_node) l) as Hs.
  { apply (js_sort_sorted _ (λ _, True)); [apply cmp_order_ok, better_node_order|by apply Forall_true]. }
  assert (∀ row, Some row ∈ rows → score_node input (Some row) ∈ l) as Hin.
  { intros row Hrow. apply elem_of_js_sort, list_elem_of_fmap. eauto. }
  pose proof (find_eligible_best l Hs) as H. destruct (find ns_eligible l) as [s|].
  - destruct H as (Hsl&Hel&Hbest). apply elem_of_js_sort, list_elem_of_fmap in Hsl as (e&->&He). 
    apply score_node_eligible in Hel as (row&->&Hfit). destruct (score_node_fits row Hfit) as (En&Esc&Ec&Er).
    exists row. rewrite En. do 3 (split; [done|]). intros other Ho Hfo.
    destruct (score_node_fits other Hfo) as (_&Esc'&Ec'&Er').
    assert (better_node (score_node input (Some row)) (score_node input (Some other)) ≤ 0) as Hb.
    { destruct (Hbest _ (Hin other Ho)) as [->|Hb]; [by apply score_node_eligible; eauto| |done].
      pose proof (co_sgn _ better_node_order (score_node input (Some row)) (score_node input (Some row))). lia. }
    revert Hb. unfold better_node. rewrite (proj2 (score_node_eligible (Some row))) by eauto.
    rewrite (proj2 (score_node_eligible (Some other))) by eauto. cbn [Bool.eqb negb].
    rewrite Esc, Esc', Ec, Ec', Er, Er'. cbn [score_desc]. unfold sign_diff.
    destruct (Qcompare_spec (left_over other) (left_over row)); cbn; [|by left|by intros []].
    destruct (Qcompare_spec (inject_Z (compressed row)) (inject_Z (compressed other))) as [Hc|Hc|Hc];
      change (negb (0 =? 0)) with false; change (negb (1 =? 0)) with true; change (negb (-1 =? 0)) with true; cbv iota; intros Hle.
    + right. split; [done|]. right. unfold Qeq in Hc. cbn [inject_Z Qnum Qden] in Hc. lia.
    + right. split; [done|]. left. by rewrite Zlt_Qlt.
    + lia.
  - intros row Hrow Hfit. specialize (H _ (Hin row Hrow)). by rewrite (proj2 (score_node_eligible (Some row))) in H by eauto.
Qed.
End placement.

(** ** Concrete rows *)

Definition plain_snapshot (ts : string) : FleetSnapshotEntry := mkFleetSnapshot ts "n" (mkMem 8192 0 None) [] None [].

Lemma snapshot_counts_witness :
  filter (λ r, sr_node r = "n")
    (getLatestPerNode plain_snapshot (Some "7") (writeSnapshot "n" "5" "9" "5" [mkDbRow "n" "4" (Some "8") "4"])) =
    [mkRow "n" "5" "9" (plain_snapshot "5")].
Proof.
  refine (proj1 (snapshot_counts plain_snapshot "n" "5" "9" "5" [mkDbRow "n" "4" (Some "8") "4"] (Some "7") _ _) _ _ _).
  - apply NoDup_singleton.
  - intros H%list_elem_of_singleton. discriminate.
  - cbv. lia.
  - intros r ->%list_elem_of_singleton _. reflexivity.
  - intros c [= <-]. vm_compute. discriminate.
Defined.
