(* ===== verification/HostSidecars.v ===== *)
(** * ModelHosts: the records kept beside a workload

    packages/core/src/engines/state.ts: the launch record of a host that is
    ready, the record of one that is starting, and the marker of a start
    attempt.  A file holds a JSON value, or a text that does not parse. *)

From S2P Require Import Prelude JsText JsJson.
From Stdlib Require Import Ascii.

#[local] Open Scope string_scope.
#[local] Open Scope list_scope.
#[local] Open Scope Z_scope.

(** [None]: [JSON.parse] throws. *)
Notation FileText := (option Json).

Definition SIDECAR_HOSTS : list string := ["127.0.0.1"; "::1"; "localhost"; "0.0.0.0"].

(** The launch record. *)
Record HostState := mkHostState {
  ho_engine : string; ho_pid : Z; ho_host : string; ho_port : Z; ho_modelAliases : list string; ho_startedAt : string;
  ho_slotSavePath : option string; ho_specHash : option string
}.

(** The names that a model goes by: its path and the last segment of it. *)
Definition aliases_of (rel : string) : list string :=
  if bool_decide (rel = basename rel) then [rel] else [rel; basename rel].

(** The record written at spawn time, before the host is ready. *)
Record StartingState := mkStarting { sg_engine : string; sg_pid : Z; sg_startedAt : string; sg_specHash : option string }.

Definition json_string (v : option Json) : option string := match v with Some (JStr s) => Some s | _ => None end.
Definition string_or_null (s : option string) : Json := match s with Some x => JStr x | None => JNull end.
Definition opt_field (key : string) (v : option string) : list (string * Json) :=
  match v with Some x => [(key, JStr x)] | None => [] end.

(** [JSON.stringify], read back by [JSON.parse]. *)
Definition host_state_json (s : HostState) : Json :=
  JObj ([("kind", JStr "ModelHost"); ("engine", JStr (ho_engine s)); ("pid", JNum (ho_pid s)); ("host", JStr (ho_host s));
         ("port", JNum (ho_port s)); ("modelAliases", JArr (JStr <$> ho_modelAliases s)); ("startedAt", JStr (ho_startedAt s));
         ("slotSavePath", string_or_null (ho_slotSavePath s))] ++ opt_field "specHash" (ho_specHash s)).

Definition starting_json (s : StartingState) : Json :=
  JObj ([("kind", JStr "ModelHostStarting"); ("engine", JStr (sg_engine s)); ("pid", JNum (sg_pid s));
         ("startedAt", JStr (sg_startedAt s))] ++ opt_field "specHash" (sg_specHash s)).

Definition isModelHostEngine (engine : string) : bool := bool_decide (engine ∈ ["llamacpp"; "omlx"; "strata"; "kapitsa"]).

(** No tab, carriage return or newline. *)
Definition one_line (s : string) : bool :=
  char_free "009"%char s && char_free carriage_return s && char_free newline s.

Definition alias_ok (v : Json) : bool := match v with JStr s => negb (bool_decide (s = "")) && one_line s | _ => false end.

Definition validModelAliases (v : option Json) : option (list string) :=
  match v with
  | Some (JArr (x :: l)) => if forallb alias_ok (x :: l) then Some (omap (λ v, json_string (Some v)) (x :: l)) else None
  | _ => None
  end.

Section dates.
(** [!Number.isNaN(Date.parse(s))] *)
Context (date_valid : string → bool).

Definition positive_int (v : option Json) : option Z :=
  match v with Some (JNum n) => if 0 <? n then Some n else None | _ => None end.
Definition valid_date (v : option Json) : option string :=
  match v with Some (JStr s) => if date_valid s then Some s else None | _ => None end.
Definition valid_engine (v : option Json) : option string :=
  match v with Some (JStr s) => if isModelHostEngine s then Some s else None | _ => None end.

Definition validateModelHostState (parsed : option Json) : option HostState :=
  match opt_get parsed "kind" with
  | Some (JStr "ModelHost") =>
      pid ← positive_int (opt_get parsed "pid");
      host ← json_string (opt_get parsed "host");
      if negb (bool_decide (host ∈ SIDECAR_HOSTS)) then None
      else
        port ← positive_int (opt_get parsed "port");
        if 65535 <? port then None
        else
          engine ← valid_engine (opt_get parsed "engine");
          startedAt ← valid_date (opt_get parsed "startedAt");
          aliases ← validModelAliases (opt_get parsed "modelAliases");
          Some (mkHostState engine pid host port aliases startedAt (json_string (opt_get parsed "slotSavePath"))
                  (json_string (opt_get parsed "specHash")))
  | _ => None
  end.

Definition validateModelHostStarting (parsed : option Json) : option StartingState :=
  match opt_get parsed "kind" with
  | Some (JStr "ModelHostStarting") =>
      pid ← positive_int (opt_get parsed "pid");
      engine ← valid_engine (opt_get parsed "engine");
      startedAt ← valid_date (opt_get parsed "startedAt");
      Some (mkStarting engine pid startedAt (json_string (opt_get parsed "specHash")))
  | _ => None
  end.

(** A file that is missing, does not parse or is not valid reads as null. *)
Definition readModelHostState (file : option FileText) : option HostState :=
  text ← file; validateModelHostState text.

Definition readModelHostStarting (file : option FileText) : option StartingState :=
  text ← file; validateModelHostStarting text.

(** ** What reads back *)

Definition HostState_valid (s : HostState) : bool :=
  (0 <? ho_pid s) && bool_decide (ho_host s ∈ SIDECAR_HOSTS) && (0 <? ho_port s) && negb (65535 <? ho_port s) &&
  isModelHostEngine (ho_engine s) && date_valid (ho_startedAt s) &&
  negb (bool_decide (ho_modelAliases s = [])) && forallb alias_ok (JStr <$> ho_modelAliases s).

Lemma json_strings_back (l : list string) : omap (λ v, json_string (Some v)) (JStr <$> l) = l.
Proof.
  induction l as [|x l IH]; [done|]. change (x :: omap (λ v, json_string (Some v)) (JStr <$> l) = x :: l). by rewrite IH.
Qed.

Lemma valid_aliases (l : list string) :
  validModelAliases (Some (JArr (JStr <$> l))) =
    if bool_decide (l = []) then None else if forallb alias_ok (JStr <$> l) then Some l else None.
Proof.
  destruct l as [|x l]; [done|]. rewrite (bool_decide_false (x :: l = [])) by (intros [=]). unfold validModelAliases.
  change (JStr <$> x :: l) with (JStr x :: (JStr <$> l)). cbn iota beta. 
  destruct (forallb alias_ok (JStr x :: (JStr <$> l))) eqn:E.
  - f_equal. exact (json_strings_back (x :: l)).
  - done.
Qed.

(** A launch record reads back as it was written when it is valid, and as
    null when it is not. *)
Lemma host_state_reads_back s :
  readModelHostState (Some (Some (host_state_json s))) = if HostState_valid s then Some s else None.
Proof.
  destruct s as [engine pid host port aliases at_ slot hash]. unfold HostState_valid, readModelHostState, host_state_json.
  cbn [ho_pid ho_host ho_port ho_engine ho_startedAt ho_modelAliases ho_slotSavePath ho_specHash].
  assert (json_string (opt_get (Some (JObj ([("kind", JStr "ModelHost"); ("engine", JStr engine); ("pid", JNum pid);
    ("host", JStr host); ("port", JNum port); ("modelAliases", JArr (JStr <$> aliases)); ("startedAt", JStr at_);
    ("slotSavePath", string_or_null slot)] ++ opt_field "specHash" hash))) "specHash") = hash) as Hhash by (by destruct hash).
  cbn [mbind option_bind]. unfold validateModelHostState. rewrite Hhash. clear Hhash.
  cbn [opt_get app]. json_fields. cbn [mbind option_bind positive_int json_string].
  destruct (0 <? pid); cbn [andb mbind option_bind]; [|done].
  destruct (bool_decide (host ∈ SIDECAR_HOSTS)); cbn [andb negb]; [|done].
  destruct (0 <? port); cbn [andb mbind option_bind]; [|done].
  destruct (65535 <? port); cbn [andb negb]; [done|]. unfold valid_engine, valid_date.
  destruct (isModelHostEngine engine); cbn [andb mbind option_bind]; [|done].
  destruct (date_valid at_); cbn [andb mbind option_bind]; [|done].
  rewrite valid_aliases. destruct (bool_decide (aliases = [])); [done|]. cbn [negb andb].
  destruct (forallb alias_ok (JStr <$> aliases)); [|done]. by destruct slot.
Qed.

Definition StartingState_valid (s : StartingState) : bool :=
  (0 <? sg_pid s) && isModelHostEngine (sg_engine s) && date_valid (sg_startedAt s).

Lemma starting_reads_back s :
  readModelHostStarting (Some (Some (starting_json s))) = if StartingState_valid s then Some s else None.
Proof.
  destruct s as [engine pid at_ hash]. unfold StartingState_valid, readModelHostStarting, validateModelHostStarting.
  cbn [sg_pid sg_engine sg_startedAt mbind option_bind].
  assert (json_string (opt_get (Some (starting_json (mkStarting engine pid at_ hash))) "specHash") = hash) as Hhash
    by (by destruct hash).
  rewrite Hhash. clear Hhash. unfold starting_json. cbn [sg_pid sg_engine sg_startedAt sg_specHash].
  cbn [opt_get app]. json_fields. cbn [mbind option_bind positive_int].
  destruct (0 <? pid); cbn [andb mbind option_bind]; [|done]. unfold valid_engine, valid_date.
  destruct (isModelHostEngine engine); cbn [andb mbind option_bind]; [|done]. by destruct (date_valid at_).
Qed.
End dates.

(** ** Start attempts *)

Definition start_attempt_json (specHash attemptedAt : string) : Json :=
  JObj [("specHash", JStr specHash); ("attemptedAt", JStr attemptedAt)].

Definition readModelHostStartAttempt (file : option FileText) : option string :=
  text ← file; json_string (opt_get text "specHash").

Lemma start_attempt_reads_back h t : readModelHostStartAttempt (Some (Some (start_attempt_json h t))) = Some h.
Proof. done. Qed.
