(* ===== verification/PidIdentity.v ===== *)
(** * The identity of recorded processes

    packages/core/src/pidIdentity.ts: whether the process that now holds a pid
    is the one that a tracking file was written for.  The probes of the
    operating system are functions that the caller injects, in a monad of the
    caller's ([PidIdentityDeps]). *)

From S2P Require Import Prelude JsMap JsText.
From Stdlib Require Import Ascii.

#[local] Open Scope string_scope.
#[local] Open Scope list_scope.
#[local] Open Scope Z_scope.

Inductive PidVerdict := Alive | Dead | Reused | Unknown.
#[export] Instance PidVerdict_eq : EqDecision PidVerdict.
Proof. solve_decision. Defined.

Definition PID_START_SLACK_MS : Z := 30000.

Record CommandExpectation := mkExpect {
  ex_binary : option string; ex_binaries : list string; ex_path : option string; ex_args : list string
}.

(** ** Parsing what ps prints *)

(** The words of a text, as [split(/\s+/)] gives them after [trim]. *)
Fixpoint words_acc (acc : string) (s : string) : list string :=
  match s with
  | EmptyString => if bool_decide (acc = "") then [] else [String.rev acc]
  | String c s' =>
      if is_space c then (if bool_decide (acc = "") then words_acc "" s' else String.rev acc :: words_acc "" s')
      else words_acc (String c acc) s'
  end.
Definition words (s : string) : list string := words_acc "" s.

Definition digits (s : string) : option Z :=
  if negb (bool_decide (s = "")) && all_chars is_digit s then Some (parse_digits 0 s) else None.

(** [[dd-]hh:]mm:ss in seconds. *)
Definition parseEtimeSeconds (raw : string) : option Z :=
  let split_days :=
    match JsText.split "-"%char (trim raw) with
    | [rest] => Some (0, rest)
    | [dd; rest] => days ← digits dd; Some (days, rest)
    | _ => None
    end in
  '(days, rest) ← split_days;
  let fields :=
    match JsText.split ":"%char rest with
    | [mm; ss] => Some (0, mm, ss)
    | [hh; mm; ss] => hours ← digits hh; Some (hours, mm, ss)
    | _ => None
    end in
  '(hours, mm, ss) ← fields;
  minutes ← digits mm;
  seconds ← digits ss;
  if (2 <? String.length mm)%nat || negb (String.length ss =? 2)%nat then None
  else if (60 <=? minutes) || (60 <=? seconds) then None
  else Some (days * 86400 + hours * 3600 + minutes * 60 + seconds).

(** The lines "pid etime" of one ps call. *)
Fixpoint parseStartLines (lines : list string) (now : Z) (out : list (Z * option Z)) : list (Z * option Z) :=
  match lines with
  | [] => out
  | line :: rest =>
      match words line with
      | [pid; etime] =>
          match digits pid with
          | Some p => parseStartLines rest now (jm_set out p ((λ s, now - s * 1000) <$> parseEtimeSeconds etime))
          | None => parseStartLines rest now out
          end
      | _ => parseStartLines rest now out
      end
  end.

(** ** The probes *)

Inductive ProbeResult := Held | ESRCH | EPERM | OtherError.

Record PidIdentityDeps (M : Type → Type) := mkDeps {
  dep_probe : Z → M ProbeResult;                       (** [process.kill(pid, 0)] *)
  dep_processStartMs : Z → M (option Z);
  dep_processStartMsMany : list Z → M (list (Z * option Z));
  dep_processCommand : Z → M (option string);
  dep_mtimeMs : string → M (option Z)                  (** [recordMtimeMs] *)
}.
Arguments dep_probe {M}. Arguments dep_processStartMs {M}. Arguments dep_processStartMsMany {M}.
Arguments dep_processCommand {M}. Arguments dep_mtimeMs {M}.

Definition classifyProbeError (err : ProbeResult) : PidVerdict :=
  match err with ESRCH => Dead | EPERM => Reused | _ => Unknown end.

Definition expectedBasenames (expect : CommandExpectation) : list string :=
  match ex_binary expect with Some b => b :: ex_binaries expect | None => ex_binaries expect end.

Definition token_is (arg token : string) : bool :=
  bool_decide (token = arg) || startsWith (String.rev ("/" +:+ arg)) (String.rev token).

Definition commandMatches (cmdline : string) (expect : CommandExpectation) : bool :=
  let tokens := words cmdline in
  let matchesPath :=
    match ex_path expect with
    | Some path => bool_decide (cmdline = path) || startsWith (path +:+ " ") cmdline
    | None => false
    end in
  let names := expectedBasenames expect in
  if negb matchesPath && negb (bool_decide (names = [])) && negb (bool_decide (basename (default "" (head tokens)) ∈ names))
  then false
  else forallb (λ arg, existsb (token_is arg) tokens) (ex_args expect).

Definition classifyStart (startedAtMs : option Z) (recordedAtMs : Z) : PidVerdict :=
  match startedAtMs with
  | None => Unknown
  | Some started => if recordedAtMs + PID_START_SLACK_MS <? started then Reused else Alive
  end.

Section verify.
Context {M : Type → Type} `{MRet M, MBind M} (deps : PidIdentityDeps M).

Definition verifyRecordedPid (expect : option CommandExpectation) (pid : Z) (recordedAtMs : option Z) : M PidVerdict :=
  probed ← dep_probe deps pid;
  match probed with
  | Held =>
      match recordedAtMs with
      | None => mret Unknown
      | Some recorded =>
          started ← dep_processStartMs deps pid;
          match classifyStart started recorded with
          | Alive =>
              match expect with
              | None => mret Alive
              | Some e =>
                  cmdline ← dep_processCommand deps pid;
                  mret (match cmdline with
                        | None => Unknown
                        | Some c => if commandMatches c e then Alive else Unknown
                        end)
              end
          | v => mret v
          end
      end
  | err => mret (classifyProbeError err)
  end.

Definition verifyPidFile (expect : option CommandExpectation) (recordPath : string) (pid : Z) : M PidVerdict :=
  mtime ← dep_mtimeMs deps recordPath;
  verifyRecordedPid expect pid mtime.

(** The records that one probe does not settle, and the verdicts of the
    others. *)
Fixpoint probe_records (records : list (string * Z)) (verdicts : list (string * PidVerdict)) (pending : list (string * Z * Z)) :
    M (list (string * PidVerdict) * list (string * Z * Z)) :=
  match records with
  | [] => mret (verdicts, pending)
  | (path, pid) :: rest =>
      probed ← dep_probe deps pid;
      match probed with
      | Held =>
          mtime ← dep_mtimeMs deps path;
          match mtime with
          | None => probe_records rest (jm_set verdicts path Unknown) pending
          | Some recorded => probe_records rest verdicts (pending ++ [(path, pid, recorded)])
          end
      | err => probe_records rest (jm_set verdicts path (classifyProbeError err)) pending
      end
  end.

Definition classify_pending (starts : list (Z * option Z)) (verdicts : list (string * PidVerdict))
    (pending : list (string * Z * Z)) : list (string * PidVerdict) :=
  foldl (λ vs '(path, pid, recorded), jm_set vs path (classifyStart (mjoin (jm_get starts pid)) recorded)) verdicts pending.

Definition verifyPidFiles (records : list (string * Z)) : M (list (string * PidVerdict)) :=
  '(verdicts, pending) ← probe_records records [] [];
  match pending with
  | [] => mret verdicts
  | _ =>
      starts ← dep_processStartMsMany deps ((λ '(_, pid, _), pid) <$> pending);
      mret (classify_pending starts verdicts pending)
  end.

Definition isRecordedPidAlive (recordPath : string) (pid : Z) : M bool :=
  v ← verifyPidFile None recordPath pid; mret (bool_decide (v = Alive)).

(** ** Signals *)

(** [process.kill(pid, signal)]: whether it was sent; the sleep of a second. *)
Context (kill : Z → string → M bool) (sleep : M unit).

Definition signalRecordedPid (expect : option CommandExpectation) (recordPath : string) (pid : Z) (signal : string) : M bool :=
  v ← verifyPidFile expect recordPath pid;
  if bool_decide (v = Alive) then kill pid signal else mret false.

(** [isProcessAlive] *)
Definition still_held (pid : Z) : M bool := probed ← dep_probe deps pid; mret match probed with Held => true | _ => false end.

Fixpoint wait_out (pid : Z) (ticks : nat) : M unit :=
  match ticks with
  | O => mret tt
  | S n => held ← still_held pid; if held : bool then sleep ≫= λ _, wait_out pid n else mret tt
  end.

(** [stopped] and [killed]. *)
Definition terminateVerifiedPid (expect : option CommandExpectation) (recordPath : string) (pid graceSeconds : Z) : M (bool * bool) :=
  kill pid "SIGTERM" ≫= λ _,
  wait_out pid (Z.to_nat graceSeconds) ≫= λ _,
  held ← still_held pid;
  if negb held then mret (true, false)
  else
    v ← verifyPidFile expect recordPath pid;
    match v with
    | Unknown => mret (false, false)
    | Alive => kill pid "SIGKILL" ≫= λ _, mret (true, true)
    | _ => mret (true, false)
    end.
End verify.

(** "dead" and "reused" are the only verdicts to delete files on. *)
Definition isRecordedPidGone (v : PidVerdict) : bool := match v with Dead | Reused => true | _ => false end.
