(* ===== verification/WorkloadTypes.v ===== *)
(** * Workloads: manifests and numbers

    packages/remote/src/workload/schema.ts and modelhost-schema.ts: what a
    manifest declares, and which arguments would expose a server beyond the
    machine (also hostBindRefusal of packages/core/src/server.ts).  Quantities
    of memory are JavaScript numbers with exact arithmetic: [Num] keeps the
    values that are not finite apart. *)

From S2P Require Import Prelude JsText.
From Stdlib Require Import QArith.

#[local] Open Scope string_scope.
#[local] Open Scope list_scope.
#[local] Open Scope Z_scope.

(** ** Numbers *)

Inductive Num := Fin (q : Q) | PosInf | NegInf | NaN.

Definition num_add (a b : Num) : Num :=
  match a, b with
  | NaN, _ | _, NaN | PosInf, NegInf | NegInf, PosInf => NaN
  | PosInf, _ | _, PosInf => PosInf
  | NegInf, _ | _, NegInf => NegInf
  | Fin p, Fin q => Fin (Qplus p q)
  end.

(** [Math.max(0, n)] *)
Definition num_max0 (n : Num) : Num :=
  match n with
  | Fin q => if Qle_bool 0 q then Fin q else Fin 0
  | NegInf => Fin 0
  | n => n
  end.

(** [n > 0], [a > b] *)
Definition num_gt (a b : Num) : bool :=
  match a, b with
  | NaN, _ | _, NaN | NegInf, _ | _, PosInf => false
  | PosInf, _ | _, NegInf => true
  | Fin p, Fin q => negb (Qle_bool p q)
  end.

Definition num_is_zero (n : Num) : bool := match n with Fin q => Qeq_bool q 0 | _ => false end.

(** ** ModelRun *)

Inductive TargetKind := TRel | TAlias.
Inductive RestartPolicy := Always | OnFailure | Never.
#[export] Instance RestartPolicy_eq : EqDecision RestartPolicy.
Proof. solve_decision. Defined.

Record Endpoint := mkEndpoint { ep_host : option string; ep_port : option Z }.

Record ModelRunWorker := mkWorker {
  wk_node : string; wk_rpcHost : string; wk_rpcPort : Z; wk_extraArgs : list string; wk_timeoutSeconds : Z
}.

Inductive StatusPhase := Pending | Running | Failed | Stopped.
#[export] Instance StatusPhase_eq : EqDecision StatusPhase.
Proof. solve_decision. Defined.

(** [cn_status] is "True" or "False". *)
Record Condition := mkCondition {
  cn_type : string; cn_status : bool; cn_reason : option string; cn_message : option string; cn_time : string
}.

Record ModelRunStatus := mkRunStatus {
  st_phase : StatusPhase; st_serverPid : option Z; st_endpoint : option string; st_time : string;
  st_conditions : list Condition
}.

Record ModelRunSpec := mkSpec {
  sp_node : string; sp_enabled : bool; sp_targetKind : TargetKind; sp_target : string; sp_extraArgs : list string;
  sp_workers : list ModelRunWorker; sp_restartPolicy : RestartPolicy; sp_expectedMemoryGiB : option Num;
  sp_endpoint : option Endpoint; sp_binary : option string; sp_timeoutSeconds : Z; sp_gateway : bool;
  sp_allowExternalBind : bool; sp_pinned : bool
}.

Record ModelRun := mkModelRun {
  mr_name : string; mr_annotations : gmap string string; mr_spec : ModelRunSpec; mr_status : option ModelRunStatus
}.

(** ** ModelHost *)

Record ModelHostSpec := mkHostSpec {
  hs_engine : string; hs_node : string; hs_enabled : bool; hs_binary : string; hs_expectedMemoryGiB : option Num;
  hs_host : string; hs_port : Z; hs_rels : list string; hs_extraArgs : list string;
  hs_restartPolicy : RestartPolicy; hs_timeoutSeconds : Z; hs_env : option (list (string * string));
  hs_allowExternalBind : option bool
}.

Record ModelHostManifest := mkModelHost { mh_name : string; mh_labels : gmap string string; mh_spec : ModelHostSpec }.

Definition LOCAL_NODE_ID : string := "local".
Definition MANAGED_BY_LABEL : string := "llamactl.io/managed-by".

Definition externalManagerOf (manifest : ModelHostManifest) : option string :=
  match trim <$> mh_labels manifest !! MANAGED_BY_LABEL with
  | Some "" | None => None
  | Some manager => Some manager
  end.

(** ** Binding beyond the machine *)

Definition LOOPBACK_HOSTS : list string := ["127.0.0.1"; "localhost"; "::1"].
Definition is_loopback (host : string) : bool := bool_decide (host ∈ LOOPBACK_HOSTS).

(** [flag + "="] at the start of [tok]: the rest. *)
Fixpoint strip_prefix (p s : string) : option string :=
  match p, s with
  | EmptyString, _ => Some s
  | String c p', String d s' => if bool_decide (c = d) then strip_prefix p' s' else None
  | String _ _, EmptyString => None
  end.

Fixpoint findArgValues (args : list string) (flag : string) : list string :=
  match args with
  | [] => []
  | tok :: rest =>
      (if bool_decide (tok = flag) then match rest with value :: _ => [value] | [] => [] end
       else match strip_prefix (flag +:+ "=") tok with Some value => [value] | None => [] end)
      ++ findArgValues rest flag
  end.

Definition refuseHostBind (args : list string) (allowExternalBind : bool) : option string :=
  match find (λ value, negb (is_loopback value)) (findArgValues args "--host") with
  | None => None
  | Some host =>
      if allowExternalBind then None
      else Some ("refusing to bind llama-server to " +:+ host +:+
                 " without `allowExternalBind: true` in the workload spec")
  end.

(** [args.some((a) => a === flag || a.startsWith(flag + "="))] *)
Definition hasFlag (args : list string) (flag : string) : bool :=
  existsb (λ a, bool_decide (a = flag) || startsWith (flag +:+ "=") a) args.

Definition hostBindArgs (extraArgs : list string) (fallbackHost : string) : list string :=
  if hasFlag extraArgs "--host" then extraArgs else ["--host"; fallbackHost].

Definition hostBindRefusal (extraArgs : list string) (fallbackHost : option string) (allowExternalBind : bool) :
    option string :=
  refuseHostBind (match fallbackHost with None => extraArgs | Some h => hostBindArgs extraArgs h end) allowExternalBind.

Definition modelHostExternalBindHost (spec : ModelHostSpec) : option string :=
  find (λ host, negb (is_loopback host)) (hs_host spec :: findArgValues (hs_extraArgs spec) "--host").

Definition modelHostBindRefusal (manifest : ModelHostManifest) : option string :=
  match modelHostExternalBindHost (mh_spec manifest) with
  | None => None
  | Some host =>
      if bool_decide (hs_allowExternalBind (mh_spec manifest) = Some true) then None
      else Some ("refusing to bind ModelHost " +:+ mh_name manifest +:+ " to " +:+ host +:+
                 " without `allowExternalBind: true` in the workload spec")
  end.

(** ** NodeRuns

    noderun-schema.ts.  [ni_artifact]: tarballUrl and sha256, which are set
    together. *)

Record NodeRunInfraItem := mkInfraItem {
  ni_pkg : string; ni_version : string; ni_service : bool; ni_env : list (string * string);
  ni_artifact : option (string * string); ni_replicas : Z
}.

Inductive NodeRunPhase := NPending | NConverged | NDrift | NFailed.
#[export] Instance NodeRunPhase_eq : EqDecision NodeRunPhase.
Proof. solve_decision. Defined.

Record NodeRunCondition := mkNodeCond {
  nc_type : string; nc_status : string; nc_reason : option string; nc_message : option string; nc_lastTransitionTime : string
}.

Record ObservedInfra := mkObserved { oi_pkg : string; oi_version : string; oi_active : bool }.

Record NodeRunStatus := mkNodeRunStatus {
  ns_phase : NodeRunPhase; ns_observedInfra : list ObservedInfra; ns_lastTransitionTime : string;
  ns_conditions : list NodeRunCondition
}.

Record NodeRun := mkNodeRun {
  nr_name : string; nr_labels : gmap string string; nr_node : string; nr_budget : option Num; nr_infra : list NodeRunInfraItem;
  nr_status : option NodeRunStatus
}.

(** The refinement of the schema: a package at most once. *)
Fixpoint unique_pkgs (seen : list string) (infra : list NodeRunInfraItem) : bool :=
  match infra with
  | [] => true
  | item :: rest => if bool_decide (ni_pkg item ∈ seen) then false else unique_pkgs (ni_pkg item :: seen) rest
  end.
