(* ===== verification/ModelHost.v ===== *)
(** * ModelHosts: starting, stopping and asking for one engine process

    packages/remote/src/server/modelhost.ts, which runs on the node, with
    packages/core/src/kvstore/slotPath.ts: launching an engine for a workload,
    taking over or tearing down what is left of an earlier one, stopping it and
    reporting on it.  The operating system, the engine adapters, the manifest
    store and the clock are an arbitrary [oracle]; what is seen, asked and
    answered is kept in order.  The sidecar files are state that the outside may
    change whenever it is asked something.  Environment variables other than
    those handed to the engine, and the boot log, are not modelled. *)

From S2P Require Import Prelude JsMap JsText JsJson HostSidecars PidIdentity WorkloadTypes.
From Stdlib Require Import Ascii.

#[local] Open Scope string_scope.
#[local] Open Scope list_scope.
#[local] Open Scope Z_scope.

(** ** slotPath.ts *)

Definition SLOT_SAVE_PATH_AUTO : string := "auto".
Definition SLOT_FLAG : string := "--slot-save-path".

(** [s.includes("..")] *)
Fixpoint has_dots (s : string) : bool :=
  match s with String "." (String "." _) => true | String _ s' => has_dots s' | EmptyString => false end.

Definition canonicalSlotDir (runtimeDir workload : string) : result string :=
  if negb (char_free "/"%char workload) || has_dots workload then Err ("invalid workload name '" +:+ workload +:+ "'")
  else Ok (runtimeDir +:+ "/kvstore/slots/" +:+ workload).

Definition absoluteOrNull (value : string) : option string := if startsWith "/" value then Some value else None.

(** The arguments, and the path that they make the engine save to. *)
Fixpoint resolve_slot_args (args : list string) (slotDir : string) : list string * option string :=
  match args with
  | [] => ([], None)
  | token :: rest =>
      if bool_decide (token = SLOT_FLAG) then
        match rest with
        | [] => (args, None)
        | value :: rest' =>
            if bool_decide (value = SLOT_SAVE_PATH_AUTO) then (token :: slotDir :: rest', Some slotDir)
            else (args, absoluteOrNull value)
        end
      else
        match strip_prefix (SLOT_FLAG +:+ "=") token with
        | Some value =>
            if bool_decide (value = SLOT_SAVE_PATH_AUTO) then ((SLOT_FLAG +:+ "=" +:+ slotDir) :: rest, Some slotDir)
            else (args, absoluteOrNull value)
        | None => let '(args', path) := resolve_slot_args rest slotDir in (token :: args', path)
        end
  end.

Definition resolveSlotSavePathArgs (extraArgs : list string) (runtimeDir workload : string) :
    result (list string * option string) :=
  slotDir ← canonicalSlotDir runtimeDir workload;
  mret (resolve_slot_args extraArgs slotDir).

(** The value after the first flag that has one. *)
Fixpoint slot_value (tokens : list string) : option string :=
  match tokens with
  | [] => None
  | token :: rest =>
      if bool_decide (token = SLOT_FLAG) then match rest with value :: _ => Some value | [] => None end
      else
        match strip_prefix (SLOT_FLAG +:+ "=") token with
        | Some "" | None => slot_value rest
        | Some value => Some value
        end
  end.

Definition parseSlotSavePathFromCommand (cmdline : string) : option string :=
  value ← slot_value (words cmdline); absoluteOrNull value.

(** ** The environment of an engine *)

Definition CHILD_ENV_ALLOWLIST : list string :=
  ["PATH"; "HOME"; "USER"; "LANG"; "LC_ALL"; "TMPDIR"; "LLAMACTL_MODELS_DIR"; "LLAMA_CPP_MODELS"; "LLAMA_CPP_BIN";
   "AGX_RELAX_CDM_CTXSTORE_TIMEOUT"; "MLX_METAL_MAX_INFLIGHT_PER_STREAM"; "MLX_METAL_BACKPRESSURE_TIMEOUT_SECS"].

Definition set_all (out entries : list (string * string)) : list (string * string) :=
  foldl (λ o '(k, v), jm_set o k v) out entries.

Definition sanitizeChildEnv (parent : string → option string) (engineOverrides specEnv : option (list (string * string))) :
    list (string * string) :=
  let allowed := omap (λ key, v ← parent key; Some (key, v)) CHILD_ENV_ALLOWLIST in
  set_all (set_all (set_all [] allowed) (default [] engineOverrides)) (default [] specEnv).

(** ** The outside *)

Definition ENGINE_BINARY_BASENAMES (engine : string) : list string :=
  if bool_decide (engine = "llamacpp") then ["llama-server"]
  else if bool_decide (engine = "omlx") then ["omlx"; "omlx-server"]
  else if bool_decide (engine = "strata") then ["strata-server"]
  else if bool_decide (engine = "kapitsa") then ["kapitsa"]
  else [].

Definition hostIdentityDeps (engine : string) : option CommandExpectation :=
  Some (mkExpect None (ENGINE_BINARY_BASENAMES engine) None []).

Inductive Sidecar := StateFile | PidFile | StartingFile.
#[export] Instance Sidecar_eq : EqDecision Sidecar.
Proof. solve_decision. Defined.

Record Files := mkFiles { f_state : option FileText; f_pid : option Z; f_starting : option FileText }.

Record StartModelHostResult := mkStartResult {
  sr_ok : bool; sr_pid : option Z; sr_error : option string; sr_spawnedPid : option Z
}.

Record BootCommand := mkBoot { bc_binary : string; bc_args : list string; bc_envOverrides : option (list (string * string)) }.

Inductive Call :=
| CNow
| CLoadManifest (name : string)
| CSaveManifest (m : ModelHostManifest)
| CValidateSpec (m : ModelHostManifest)
| CProbe (pid : Z) | CStartMs (pid : Z) | CStartMsMany (pids : list Z) | CCommand (pid : Z) | CMtime (path : string)
| CUnlink (f : Sidecar) | CWrite (f : Sidecar) (content : Json)
| CTeardown (pid : Z) (recordPath : option string)      (** [engine.teardown], with the record to check first *)
| CFindListener (host : string) (port : Z)
| CAlive (pid : Z)                                      (** [isProcessAlive] *)
| CProbeReady (host : string) (port timeoutMs : Z)
| CRaceProbeReady (host : string) (port timeoutMs : Z)  (** raced against the caller's abort signal *)
| CAborted
| CReadProcessCommand (pid : Z)
| CPrepareLaunch (workload : string)
| CBuildBoot (workload : string) (extraArgs : list string)
| CSpawn (binary : string) (args : list string) (env : list (string * string))
| CExitCode (pid : Z)
| CJoin.                                                (** the start in flight, raced against the abort *)

Definition Resp (c : Call) : Type :=
  match c with
  | CNow => string
  | CLoadManifest _ => ModelHostManifest
  | CValidateSpec _ => option string
  | CProbe _ => ProbeResult
  | CStartMs _ | CMtime _ => option Z
  | CStartMsMany _ => list (Z * option Z)
  | CCommand _ | CReadProcessCommand _ => option string
  | CFindListener _ _ => option Z
  | CAlive _ | CAborted => bool
  | CProbeReady _ _ _ => bool * list string
  | CRaceProbeReady _ _ _ => option (bool * list string)
  | CBuildBoot _ _ => BootCommand
  | CSpawn _ _ _ => option Z
  | CExitCode _ => option Z
  | CJoin => option StartModelHostResult
  | _ => unit
  end.

Inductive Obs :=
| OCall (c : Call) (r : result (Resp c))
| OReadState (s : option HostState)
| OReadStarting (s : option StartingState)
| OWarn (message : string)
| ODone (result : StartModelHostResult).

Record StartOptions := mkStartOptions {
  so_name : string; so_timeoutSeconds : option Z;
  so_manifest : option (result ModelHostManifest);  (** what the schema makes of the inline manifest *)
  so_signal : bool                                  (** an abort signal is given *)
}.

Section lifecycle.
Context {W : Type} (oracle : ∀ c : Call, W * Files → W * Files * result (Resp c)).
Context (date_valid : string → bool) (computeModelHostSpecHash : ModelHostSpec → string).
(** The file of each sidecar, the runtime directory, the inherited variables. *)
Context (sidecar_path : Sidecar → string) (runtimeDir : string) (parent : string → option string).

(** [v_child], [v_starting]: variables of a launch. *)
Record St := mkSt { world : W; files : Files; obs : list Obs; v_child : option Z; v_starting : option Z }.
Notation M := (eff St).

Definition observe (o : Obs) : M unit := modify (λ s, mkSt (world s) (files s) (obs s ++ [o]) (v_child s) (v_starting s)).
Definition set_files (f : Files → Files) : M unit :=
  modify (λ s, mkSt (world s) (f (files s)) (obs s) (v_child s) (v_starting s)).
Definition set_child (pid : option Z) : M unit := modify (λ s, mkSt (world s) (files s) (obs s) pid (v_starting s)).
Definition set_starting (pid : option Z) : M unit := modify (λ s, mkSt (world s) (files s) (obs s) (v_child s) pid).

Definition perform (c : Call) : M (Resp c) := λ s,
  let '(w, fs, r) := oracle c (world s, files s) in (mkSt w fs (obs s ++ [OCall c r]) (v_child s) (v_starting s), r).

(** [await p.catch(() => d)] *)
Definition or_else {A} (m : M A) (d : A) : M A := try_catch m (λ _, mret d).

(** ** Sidecars *)

Definition readState : M (option HostState) :=
  s ← gets (λ s, readModelHostState date_valid (f_state (files s)));
  observe (OReadState s);;
  mret s.

Definition readStarting : M (option StartingState) :=
  s ← gets (λ s, readModelHostStarting date_valid (f_starting (files s)));
  observe (OReadStarting s);;
  mret s.

Definition writeModelHostState (s : HostState) : M unit :=
  perform (CWrite PidFile (JNum (ho_pid s)));;
  set_files (λ f, mkFiles (f_state f) (Some (ho_pid s)) (f_starting f));;
  perform (CWrite StateFile (host_state_json s));;
  set_files (λ f, mkFiles (Some (Some (host_state_json s))) (f_pid f) (f_starting f)).

Definition writeModelHostStarting (s : StartingState) : M unit :=
  perform (CWrite StartingFile (starting_json s));;
  set_files (λ f, mkFiles (f_state f) (f_pid f) (Some (Some (starting_json s)))).

Definition unlink (file : Sidecar) (clear : Files → Files) : M unit :=
  or_else (perform (CUnlink file);; set_files clear) tt.

Definition removeModelHostState : M unit :=
  unlink PidFile (λ f, mkFiles (f_state f) None (f_starting f));;
  unlink StateFile (λ f, mkFiles None (f_pid f) (f_starting f)).

Definition removeModelHostStarting : M unit := unlink StartingFile (λ f, mkFiles (f_state f) (f_pid f) None).

Definition deps : PidIdentityDeps M :=
  mkDeps M (λ pid, perform (CProbe pid)) (λ pid, perform (CStartMs pid)) (λ pids, perform (CStartMsMany pids))
    (λ pid, perform (CCommand pid)) (λ path, perform (CMtime path)).

Definition verify (file : Sidecar) (engine : string) (pid : Z) : M PidVerdict :=
  verifyPidFile deps (hostIdentityDeps engine) (sidecar_path file) pid.

Definition failure (error : string) : StartModelHostResult := mkStartResult false None (Some error) None.
Definition specHash (manifest : ModelHostManifest) : string := computeModelHostSpecHash (mh_spec manifest).

(** ** What is left of an earlier launch *)

Inductive Adoption := Adopted (r : StartModelHostResult) | Relaunch | NotOurs.

Definition ADOPT_PROBE_TIMEOUT_MS : Z := 3000.

Definition advertises (aliases modelIds : list string) : bool :=
  existsb (λ id, bool_decide (id ∈ aliases) || bool_decide (basename id ∈ aliases)) modelIds.

Definition tryAdoptLiveHost (manifest : ModelHostManifest) (livePid : Z) (priorSpecHash : option string) : M Adoption :=
  let spec := mh_spec manifest in
  '(ready, modelIds) ← or_else (perform (CProbeReady (hs_host spec) (hs_port spec) ADOPT_PROBE_TIMEOUT_MS)) (false, []);
  if negb ready then mret NotOurs
  else
    match head (hs_rels spec) with
    | None => mret NotOurs
    | Some rel =>
        let aliases := aliases_of rel in
        if negb (advertises aliases modelIds) then mret NotOurs
        else
          alive ← perform (CAlive livePid);
          if negb alive then mret NotOurs
          else if negb (bool_decide (priorSpecHash = Some (specHash manifest))) then
            or_else (perform (CTeardown livePid None)) tt;;
            mret Relaunch
          else
            cmdline ← or_else (perform (CReadProcessCommand livePid)) None;
            now ← perform CNow;
            writeModelHostState
              (mkHostState (hs_engine spec) livePid (hs_host spec) (hs_port spec) aliases now
                 (c ← cmdline; parseSlotSavePathFromCommand c) (Some (specHash manifest)));;
            mret (Adopted (mkStartResult true (Some livePid) None None))
    end.

Definition UNKNOWN_IDENTITY : string := "pid identity unknown; deferring restart".

(** [None]: go on. *)
Definition reapStartingOrphan : M (option StartModelHostResult) :=
  found ← readStarting;
  match found with
  | None => mret None
  | Some starting =>
      verdict ← verify StartingFile (sg_engine starting) (sg_pid starting);
      match verdict with
      | Unknown => mret (Some (failure UNKNOWN_IDENTITY))
      | Alive =>
          or_else (perform (CTeardown (sg_pid starting) (Some (sidecar_path StartingFile)))) tt;;
          removeModelHostStarting;;
          mret None
      | _ => removeModelHostStarting;; mret None
      end
  end.

Definition clearStartingRecordIfOwned (pid : Z) : M unit :=
  current ← readStarting;
  match current with
  | Some s => if bool_decide (sg_pid s = pid) then removeModelHostStarting else mret tt
  | None => mret tt
  end.

Definition held_error (spec : ModelHostSpec) (livePid : Z) : string :=
  "endpoint " +:+ hs_host spec +:+ ":" +:+ pretty (hs_port spec) +:+ " is held by live pid " +:+ pretty livePid +:+
  " that is not yet adoptable (readiness/model unconfirmed); deferring restart".

Definition reapOrAdoptPriorHost (manifest : ModelHostManifest) : M (option StartModelHostResult) :=
  let spec := mh_spec manifest in
  prior ← readState;
  match prior with
  | None => reapStartingOrphan
  | Some priorState =>
      verdict ← verify PidFile (ho_engine priorState) (ho_pid priorState);
      match verdict with
      | Alive =>
          or_else (perform (CTeardown (ho_pid priorState) (Some (sidecar_path PidFile)))) tt;;
          mret None
      | Unknown => mret (Some (failure UNKNOWN_IDENTITY))
      | _ =>
          livePid ← or_else (perform (CFindListener (hs_host spec) (hs_port spec))) None;
          held ← match livePid with
                 | None => mret None
                 | Some pid => alive ← perform (CAlive pid); mret (if alive : bool then Some pid else None)
                 end;
          match held with
          | None => reapStartingOrphan
          | Some pid =>
              adopted ← tryAdoptLiveHost manifest pid (ho_specHash priorState);
              match adopted with
              | Relaunch => mret None
              | Adopted r => mret (Some r)
              | NotOurs => mret (Some (failure (held_error spec pid)))
              end
          end
      end
  end.

(** ** Launching *)

Definition MODEL_HOST_ABORT_MESSAGE : string := "modelHostStart aborted".

Definition warnExternalBind (manifest : ModelHostManifest) : M unit :=
  match modelHostExternalBindHost (mh_spec manifest) with
  | None => mret tt
  | Some externalHost =>
      if bool_decide (hs_allowExternalBind (mh_spec manifest) = Some true) then
        observe (OWarn ("[agent] WARNING: ModelHost " +:+ mh_name manifest +:+ " (" +:+ hs_engine (mh_spec manifest) +:+
                        ") is binding an unauthenticated engine to " +:+ externalHost +:+ ":" +:+
                        pretty (hs_port (mh_spec manifest)) +:+ " (spec.allowExternalBind: true)"))
      else mret tt
  end.

Definition done (result : StartModelHostResult) : M StartModelHostResult := observe (ODone result);; mret result.

(** [raceModelHostAbort]; [None] when aborted. *)
Definition awaitReady (opts : StartOptions) (spec : ModelHostSpec) : M (option (bool * list string)) :=
  let timeoutMs := default (hs_timeoutSeconds spec) (so_timeoutSeconds opts) * 1000 in
  if so_signal opts then perform (CRaceProbeReady (hs_host spec) (hs_port spec) timeoutMs)
  else r ← perform (CProbeReady (hs_host spec) (hs_port spec) timeoutMs); mret (Some r).

Definition ensureSpawnedChildStillRunning (pid : Z) (spec : ModelHostSpec) : M unit :=
  code ← perform (CExitCode pid);
  match code with
  | None => mret tt
  | Some _ =>
      throw ("modelhost child pid " +:+ pretty pid +:+ " exited before readiness (endpoint " +:+ hs_host spec +:+ ":" +:+
             pretty (hs_port spec) +:+ " likely served by another process); refusing to record a stale pid")
  end.

Definition resolveModelAliases (manifest : ModelHostManifest) : M (list string) :=
  match head (hs_rels (mh_spec manifest)) with
  | None => throw ("ModelHost " +:+ mh_name manifest +:+ " has no hosted models")
  | Some rel => mret (aliases_of rel)
  end.

(** From the spawn of the process on. *)
Definition launch_spawned (manifest : ModelHostManifest) (opts : StartOptions) (slotSavePath : option string) (pid : Z) :
    M StartModelHostResult :=
  let spec := mh_spec manifest in
  set_starting (Some pid);;
  now ← perform CNow;
  writeModelHostStarting (mkStarting (hs_engine spec) pid now (Some (specHash manifest)));;
  readiness ← awaitReady opts spec;
  match readiness with
  | None => throw MODEL_HOST_ABORT_MESSAGE
  | Some (ready, _) =>
      if negb ready then throw "modelhost failed readiness probe"
      else
        ensureSpawnedChildStillRunning pid spec;;
        aliases ← resolveModelAliases manifest;
        started ← perform CNow;
        writeModelHostState
          (mkHostState (hs_engine spec) pid (hs_host spec) (hs_port spec) aliases started slotSavePath
             (Some (specHash manifest)));;
        clearStartingRecordIfOwned pid;;
        done (mkStartResult true (Some pid) None None)
  end.

(** The body of the try block. *)
Definition launch_try (manifest : ModelHostManifest) (opts : StartOptions) (args : list string) (slotSavePath : option string) :
    M StartModelHostResult :=
  perform (CPrepareLaunch (so_name opts));;
  launch ← perform (CBuildBoot (so_name opts) args);
  spawned ← perform (CSpawn (bc_binary launch) (bc_args launch)
                       (sanitizeChildEnv parent (bc_envOverrides launch) (hs_env (mh_spec manifest))));
  set_child spawned;;
  match spawned with
  | None => throw "failed to spawn modelhost process"
  | Some pid => launch_spawned manifest opts slotSavePath pid
  end.

(** The catch block. *)
Definition launch_failed (error : string) : M StartModelHostResult :=
  spawnedPid ← gets v_child;
  match spawnedPid with
  | Some pid => or_else (perform (CTeardown pid None)) tt
  | None => mret tt
  end;;
  startingPid ← gets v_starting;
  match startingPid with
  | Some pid => clearStartingRecordIfOwned pid
  | None => mret tt
  end;;
  done (mkStartResult false None (Some error) spawnedPid).

Definition lift {A} (r : result A) : M A := λ s, (s, r).

Definition launchModelHost (manifest : ModelHostManifest) (opts : StartOptions) : M StartModelHostResult :=
  aborted ← (if so_signal opts then perform CAborted else mret false);
  if aborted : bool then done (failure MODEL_HOST_ABORT_MESSAGE)
  else
    early ← reapOrAdoptPriorHost manifest;
    match early with
    | Some r => done r
    | None =>
        warnExternalBind manifest;;
        '(args, slotSavePath) ← lift (resolveSlotSavePathArgs (hs_extraArgs (mh_spec manifest)) runtimeDir (so_name opts));
        set_child None;;
        set_starting None;;
        try_catch (launch_try manifest opts args slotSavePath) launch_failed
    end.

(** ** startModelHost *)

(** A manager that the manifest on disk names and the pushed one does not. *)
Definition mergeDiskManagedByLabel (manifest : ModelHostManifest) : M ModelHostManifest :=
  match externalManagerOf manifest with
  | Some _ => mret manifest
  | None =>
      diskManager ← or_else (disk ← perform (CLoadManifest (mh_name manifest)); mret (externalManagerOf disk)) None;
      mret (match diskManager with
            | None => manifest
            | Some manager =>
                mkModelHost (mh_name manifest) (<[MANAGED_BY_LABEL := manager]> (mh_labels manifest)) (mh_spec manifest)
            end)
  end.

(** [inFlight]: the spec hash of the start in flight for the workload. *)
Definition joinInFlightModelHostStart (inFlightHash hash name : string) : M StartModelHostResult :=
  if negb (bool_decide (inFlightHash = hash)) then
    mret (failure ("modelHostStart already in progress for " +:+ name +:+ " with a different spec"))
  else
    settled ← perform CJoin;
    mret (default (failure MODEL_HOST_ABORT_MESSAGE) settled).

Definition startModelHost (inFlight : option string) (opts : StartOptions) : M StartModelHostResult :=
  manifest ← match so_manifest opts with Some parsed => lift parsed | None => perform (CLoadManifest (so_name opts)) end;
  if negb (bool_decide (mh_name manifest = so_name opts)) then
    done (failure ("modelHostStart workload mismatch: expected " +:+ so_name opts +:+ ", got " +:+ mh_name manifest))
  else
    invalid ← perform (CValidateSpec manifest);
    match invalid with
    | Some error => done (failure error)
    | None =>
        match modelHostBindRefusal manifest with
        | Some refusal => done (failure refusal)
        | None =>
            (match so_manifest opts with
             | Some _ => merged ← mergeDiskManagedByLabel manifest; perform (CSaveManifest merged);; mret tt
             | None => mret tt
             end);;
            match inFlight with
            | Some hash => joined ← joinInFlightModelHostStart hash (specHash manifest) (so_name opts); done joined
            | None => launchModelHost manifest opts
            end
        end
    end.

(** ** stopModelHost, statusModelHost *)

Record StopModelHostResult := mkStopResult { tr_ok : bool; tr_pid : option Z; tr_error : option string }.

Definition stopStartingRecord : M StopModelHostResult :=
  found ← readStarting;
  match found with
  | None => mret (mkStopResult true None None)
  | Some starting =>
      verdict ← verify StartingFile (sg_engine starting) (sg_pid starting);
      match verdict with
      | Unknown => mret (mkStopResult false (Some (sg_pid starting)) (Some "pid identity unknown"))
      | v =>
          (if bool_decide (v = Alive) then perform (CTeardown (sg_pid starting) (Some (sidecar_path StartingFile))) else mret tt);;
          removeModelHostStarting;;
          mret (mkStopResult true (Some (sg_pid starting)) None)
      end
  end.

Definition stopModelHost : M StopModelHostResult :=
  found ← readState;
  match found with
  | None => stopStartingRecord
  | Some state =>
      verdict ← verify PidFile (ho_engine state) (ho_pid state);
      match verdict with
      | Unknown => mret (mkStopResult false (Some (ho_pid state)) (Some "pid identity unknown"))
      | v =>
          (if bool_decide (v = Alive) then perform (CTeardown (ho_pid state) (Some (sidecar_path PidFile))) else mret tt);;
          removeModelHostState;;
          mret (mkStopResult true (Some (ho_pid state)) None)
      end
  end.

Record StatusModelHostResult := mkStatusResult {
  ur_running : bool; ur_pid : option Z; ur_specHash : option string; ur_identityUnknown : bool
}.

Definition statusModelHost : M StatusModelHostResult :=
  found ← readState;
  match found with
  | None => mret (mkStatusResult false None None false)
  | Some state =>
      verdict ← verify PidFile (ho_engine state) (ho_pid state);
      mret (match verdict with
            | Alive => mkStatusResult true (Some (ho_pid state)) (ho_specHash state) false
            | v => mkStatusResult false None None (bool_decide (v = Unknown))
            end)
  end.
End lifecycle.

Arguments St W : clear implicits.
