(* ===== verification/ModelHostProps.v ===== *)
(** * ModelHosts: what is signalled, started and recorded

    Theorems about ModelHost.v for an arbitrary outside: a process is told to
    go only on evidence that it is the workload's own; a launch ends with its
    child recorded or told to go; what the records make of hosts beyond the
    machine. *)

From S2P Require Import Prelude Trace JsMap JsText JsJson HostSidecars PidIdentity WorkloadTypes ModelHost.

#[local] Open Scope string_scope.
#[local] Open Scope list_scope.
#[local] Open Scope Z_scope.

Section lifecycle.
Context {W : Type} (oracle : ∀ c : Call, W * Files → W * Files * result (Resp c)).
Context (date_valid : string → bool) (computeModelHostSpecHash : ModelHostSpec → string).
Context (sidecar_path : Sidecar → string) (runtimeDir : string) (parent : string → option string).

Local Abbreviation M := (eff (St W)).
Local Abbreviation perform := (perform oracle).
Local Abbreviation launch := (launchModelHost oracle date_valid computeModelHostSpecHash sidecar_path runtimeDir parent).
Local Abbreviation start := (startModelHost oracle date_valid computeModelHostSpecHash sidecar_path runtimeDir parent).
Local Abbreviation stop := (stopModelHost oracle date_valid sidecar_path).
Local Abbreviation verify_file := (verify oracle sidecar_path).

(** ** Evidence *)

Definition is_teardown (o : Obs) : Prop := match o with OCall (CTeardown _ _) _ => True | _ => False end.
Definition no_teardown (o : Obs) : Prop := ¬ is_teardown o.

(** What is seen when a pid is verified to be that of a record. *)
Definition ident_obs (path : string) (pid m s : Z) (c : string) : list Obs :=
  [OCall (CMtime path) (Ok (Some m)); OCall (CProbe pid) (Ok Held); OCall (CStartMs pid) (Ok (Some s));
   OCall (CCommand pid) (Ok (Some c))].

(** A record of the workload names the process, which started no later than
    the record was written and runs the engine's command. *)
Definition identified (path : string) (pid : Z) (pre : list Obs) : Prop :=
  ∃ before read engine m s c,
    pre = before ++ read :: ident_obs path pid m s c ∧
    ((∃ st, read = OReadState (Some st) ∧ ho_pid st = pid ∧ ho_engine st = engine ∧ path = sidecar_path PidFile) ∨
     (∃ sg, read = OReadStarting (Some sg) ∧ sg_pid sg = pid ∧ sg_engine sg = engine ∧ path = sidecar_path StartingFile)) ∧
    s <= m + PID_START_SLACK_MS ∧
    commandMatches c (mkExpect None (ENGINE_BINARY_BASENAMES engine) None []) = true.

(** The process listens where the workload should and serves its model. *)
Definition serves_ours (name : string) (pid : Z) (pre : list Obs) : Prop :=
  ∃ before m rel ids,
    mh_name m = name ∧ head (hs_rels (mh_spec m)) = Some rel ∧ advertises (aliases_of rel) ids = true ∧
    pre = before ++ [OCall (CFindListener (hs_host (mh_spec m)) (hs_port (mh_spec m))) (Ok (Some pid));
                     OCall (CAlive pid) (Ok true);
                     OCall (CProbeReady (hs_host (mh_spec m)) (hs_port (mh_spec m)) ADOPT_PROBE_TIMEOUT_MS) (Ok (true, ids));
                     OCall (CAlive pid) (Ok true)].

Definition spawned (pid : Z) (pre : list Obs) : Prop :=
  ∃ binary args env, OCall (CSpawn binary args env) (Ok (Some pid)) ∈ pre.

Definition justified (name : string) (pre : list Obs) (pid : Z) (record : option string) : Prop :=
  match record with
  | Some path => identified path pid pre
  | None => spawned pid pre ∨ serves_ours name pid pre
  end.

(** Every teardown in [seg], after [ctx], is justified. *)
Definition just (name : string) (ctx seg : list Obs) : Prop :=
  ∀ pre pid record r post, seg = pre ++ OCall (CTeardown pid record) r :: post → justified name (ctx ++ pre) pid record.

Lemma just_none name ctx seg : Forall no_teardown seg → just name ctx seg.
Proof.
  intros H pre pid record r post ->. apply Forall_app in H as [_ H]. apply Forall_cons in H as [H _]. by destruct H.
Qed.

Lemma just_app name ctx a b : just name ctx a → just name (ctx ++ a) b → just name ctx (a ++ b).
Proof.
  intros Ha Hb pre pid record r post E. apply app_eq_app in E as (k&[[-> E]|[-> E]]).
  - destruct k as [|o k]; [|injection E as <- ->; by eapply Ha].
    rewrite app_nil_r in *. cbn in E. symmetry in E.
    specialize (Hb [] _ _ _ _ E). by rewrite !app_nil_r in Hb.
  - specialize (Hb k _ _ _ _ E). by rewrite <-app_assoc in Hb.
Qed.

Lemma just_one name ctx pid record r : justified name ctx pid record → just name ctx [OCall (CTeardown pid record) r].
Proof.
  intros H [|o pre] pid' record' r' post E; [|by destruct pre]. injection E as -> ->. by rewrite app_nil_r.
Qed.

(** [m] after [ctx]: what it tears down is justified, and [Q]. *)
Definition acts {A} (name : string) (ctx : list Obs) (m : M A) (Q : list Obs → result A → Prop) : Prop :=
  spec obs m (λ seg r, just name ctx seg ∧ Q seg r).

Lemma host_acts_bind {A B} name ctx (m : M A) (f : A → M B) Q1 (Q : list Obs → result B → Prop) :
  acts name ctx m Q1 → (∀ seg e, Q1 seg (Err e) → Q seg (Err e)) →
  (∀ seg a, Q1 seg (Ok a) → acts name (ctx ++ seg) (f a) (λ seg2, Q (seg ++ seg2))) → acts name ctx (m ≫= f) Q.
Proof.
  intros Hm He Hf. eapply spec_bind; [exact Hm|intros seg e [Hj Hq]; split; [done|by apply He]|].
  intros seg a [Hj Hq]. eapply spec_weaken; [by apply Hf|]. intros seg2 r [Hj2 Hq2]. split; [by apply just_app|done].
Qed.

Lemma acts_quiet {A} name ctx (m : M A) Q : spec obs m (λ seg r, Forall no_teardown seg ∧ Q seg r) → acts name ctx m Q.
Proof. intros H. eapply spec_weaken; [exact H|]. intros seg r [Hn Hq]. split; [by apply just_none|done]. Qed.

Definition any {A} (seg : list Obs) (r : result A) : Prop := True.

Lemma acts_any {A} name ctx (m : M A) Q : acts name ctx m Q → acts name ctx m any.
Proof. intros H. eapply spec_weaken; [exact H|]. by intros seg r [Hj _]. Qed.

Lemma acts_seq {A B} name ctx (m : M A) (f : A → M B) :
  acts name ctx m any → (∀ seg a, acts name (ctx ++ seg) (f a) any) → acts name ctx (m ≫= f) any.
Proof. intros Hm Hf. eapply host_acts_bind; [exact Hm|done|]. intros seg a _. apply Hf. Qed.

Lemma acts_then {A B} name ctx (m : M A) (f : A → M B) Q1 :
  acts name ctx m Q1 → (∀ seg a, Q1 seg (Ok a) → acts name (ctx ++ seg) (f a) any) → acts name ctx (m ≫= f) any.
Proof. intros Hm Hf. eapply host_acts_bind; [exact Hm|by intros|]. intros seg a Ha. by apply Hf. Qed.

Lemma host_acts_try {A} name ctx (m : M A) h (Q1 Q : list Obs → result A → Prop) :
  acts name ctx m Q1 → (∀ seg a, Q1 seg (Ok a) → Q seg (Ok a)) →
  (∀ seg e, Q1 seg (Err e) → acts name (ctx ++ seg) (h e) (λ seg2, Q (seg ++ seg2))) → acts name ctx (try_catch m h) Q.
Proof.
  intros Hm Ha Hh. eapply spec_try; [exact Hm|intros seg a [Hj Hq]; split; [done|by apply Ha]|].
  intros seg e [Hj Hq]. eapply spec_weaken; [by apply Hh|]. intros seg2 r [Hj2 Hq2]. split; [by apply just_app|done].
Qed.

(** ** The parts *)

Lemma host_perform_spec c : spec obs (perform c) (λ seg r, seg = [OCall c r]).
Proof.
  apply spec_one. intros s. unfold ModelHost.perform. destruct (oracle c (world s, files s)) as [[w fs] r]. by exists (OCall c r).
Qed.

Lemma quiet_observe (P : Obs → Prop) o : P o → appends (@obs W) P (observe o : M unit).
Proof. intros H. apply appends_one. by exists o. Qed.

Lemma quiet_perform (P : Obs → Prop) c : (∀ r, P (OCall c r)) → appends (@obs W) P (perform c).
Proof. intros H s. destruct (host_perform_spec c s) as (seg&E&->). exists [OCall c (perform c s).2]. by repeat constructor. Qed.

Ltac quiet_step :=
  match goal with
  | |- appends _ _ (mret _) => apply appends_ret
  | |- appends _ _ (throw _) => apply appends_throw
  | |- appends _ _ (_ ≫= _) => apply appends_bind; [|intros ?]
  | |- appends _ _ (try_catch _ _) => apply appends_try; [|intros ?]
  | |- appends _ _ (or_else _ _) => unfold or_else
  | |- appends _ _ (observe _) => apply quiet_observe
  | |- appends _ _ (gets _) => by apply appends_still
  | |- appends _ _ (set_files _) => by apply appends_still
  | |- appends _ _ (set_child _) => by apply appends_still
  | |- appends _ _ (set_starting _) => by apply appends_still
  | |- appends _ _ (lift _) => by apply appends_still
  | |- @appends _ _ _ _ ?P ?m => lazymatch m with ModelHost.perform _ ?c => refine (quiet_perform P c _); intros ? end
  | |- appends _ _ (if ?b then _ else _) => destruct b
  | |- appends _ _ (match ?x with _ => _ end) => destruct x
  end.
Ltac quiet_auto := repeat quiet_step; try done; try by intros [].

Lemma acts_of_quiet {A} name ctx (m : M A) : appends (@obs W) no_teardown m → acts name ctx m any.
Proof. intros H. apply acts_quiet. eapply spec_weaken; [apply spec_appends, H|]. by intros seg r Hs. Qed.

Lemma removeStarting_quiet : appends (@obs W) no_teardown (removeModelHostStarting oracle).
Proof. unfold removeModelHostStarting, unlink. quiet_auto. Qed.

Lemma removeState_quiet : appends (@obs W) no_teardown (removeModelHostState oracle).
Proof. unfold removeModelHostState, unlink. quiet_auto. Qed.

Lemma readStarting_quiet : appends (@obs W) no_teardown (readStarting date_valid).
Proof. unfold readStarting. quiet_auto. Qed.

Lemma clearStarting_quiet pid : appends (@obs W) no_teardown (clearStartingRecordIfOwned oracle date_valid pid).
Proof.
  unfold clearStartingRecordIfOwned. pose proof removeStarting_quiet. pose proof readStarting_quiet. quiet_auto.
Qed.

Ltac quiet_list := cbn [app]; repeat (apply Forall_cons; split; [by intros []|]); apply List.Forall_nil.

Lemma readState_spec :
  spec obs (readState date_valid : M _) (λ seg r, ∃ st, seg = [OReadState st] ∧ r = Ok st).
Proof. intros s. unfold readState. eexists. split; [reflexivity|]. eexists. by split. Qed.

Lemma readStarting_spec :
  spec obs (readStarting date_valid : M _) (λ seg r, ∃ st, seg = [OReadStarting st] ∧ r = Ok st).
Proof. intros s. unfold readStarting. eexists. split; [reflexivity|]. eexists. by split. Qed.

Lemma readState_acts name ctx :
  acts name ctx (readState date_valid : M _) (λ seg r, ∃ st, seg = [OReadState st] ∧ r = Ok st).
Proof.
  eapply spec_weaken; [exact readState_spec|]. intros seg r (st&->&->). split; [|by exists st].
  apply just_none, Forall_singleton. by intros [].
Qed.

Lemma readStarting_acts name ctx :
  acts name ctx (readStarting date_valid : M _) (λ seg r, ∃ st, seg = [OReadStarting st] ∧ r = Ok st).
Proof.
  eapply spec_weaken; [exact readStarting_spec|]. intros seg r (st&->&->). split; [|by exists st].
  apply just_none, Forall_singleton. by intros [].
Qed.

Definition ident_ok (path engine : string) (pid : Z) (seg : list Obs) : Prop :=
  ∃ m s c, seg = ident_obs path pid m s c ∧ s <= m + PID_START_SLACK_MS ∧
    commandMatches c (mkExpect None (ENGINE_BINARY_BASENAMES engine) None []) = true.

Lemma verify_spec file engine pid :
  spec obs (verify_file file engine pid)
    (λ seg r, Forall no_teardown seg ∧ (r = Ok Alive → ident_ok (sidecar_path file) engine pid seg)).
Proof.
  unfold verify, verifyPidFile, verifyRecordedPid. cbn [deps dep_mtimeMs dep_probe dep_processStartMs dep_processCommand].
  eapply spec_bind; [exact (host_perform_spec (CMtime _))|intros ? ? ->; split; [quiet_list|done]|]. intros ? mtime ->.
  eapply spec_bind; [exact (host_perform_spec (CProbe _))|intros ? ? ->; split; [quiet_list|done]|]. intros ? probed ->.
  destruct probed; [|apply spec_ret; split; [quiet_list|done]..].
  destruct mtime as [m|]; [|apply spec_ret; split; [quiet_list|done]].
  eapply spec_bind; [exact (host_perform_spec (CStartMs _))|intros ? ? ->; split; [quiet_list|done]|]. intros ? started ->.
  destruct (classifyStart started m) eqn:Ec; [|apply spec_ret; split; [quiet_list|done]..].
  cbn [hostIdentityDeps].
  eapply spec_bind; [exact (host_perform_spec (CCommand _))|intros ? ? ->; split; [quiet_list|done]|]. intros ? cmd ->.
  apply spec_ret. split; [quiet_list|]. destruct cmd as [c|]; [|done].
  destruct (commandMatches c _) eqn:Em; [|done]. intros _. destruct started as [s|]; [|done]. exists m, s, c.
  split; [done|]. split; [|done]. cbn in Ec. destruct (m + PID_START_SLACK_MS <? s) eqn:Es; [done|]. to_prop. lia.
Qed.

Lemma teardown_acts name ctx pid record :
  justified name ctx pid record → acts name ctx (perform (CTeardown pid record)) any.
Proof. intros H. eapply spec_weaken; [exact (host_perform_spec (CTeardown pid record))|]. intros seg r ->. split; [by apply just_one|done]. Qed.

Lemma or_else_acts {A} name ctx (m : M A) d : acts name ctx m any → acts name ctx (or_else m d) any.
Proof. intros H. eapply host_acts_try; [exact H|done|]. intros seg e _. apply acts_of_quiet. apply appends_ret. Qed.

(** A record that was read and whose process was verified. *)
Lemma identified_intro path file engine pid read ctx seg :
  ident_ok path engine pid seg → path = sidecar_path file →
  (∃ st, read = OReadState (Some st) ∧ ho_pid st = pid ∧ ho_engine st = engine ∧ file = PidFile) ∨
  (∃ sg, read = OReadStarting (Some sg) ∧ sg_pid sg = pid ∧ sg_engine sg = engine ∧ file = StartingFile) →
  identified path pid ((ctx ++ [read]) ++ seg).
Proof.
  intros (m&s&c&->&Hle&Hc) -> Hread. exists ctx, read, engine, m, s, c. rewrite <-app_assoc. split; [done|]. split; [|done].
  destruct Hread as [(st&->&?&?&->)|(sg&->&?&?&->)]; [left|right]; eauto 6.
Qed.

Lemma reapStarting_acts name ctx : acts name ctx (reapStartingOrphan oracle date_valid sidecar_path) any.
Proof.
  unfold reapStartingOrphan.
  eapply acts_then; [apply readStarting_acts|]. intros seg found (st&->&[= <-]). destruct found as [sg|]; [|apply acts_of_quiet, appends_ret].
  eapply acts_then; [apply acts_quiet, verify_spec|]. intros seg verdict Hv. destruct verdict.
  - apply acts_seq; [apply or_else_acts, teardown_acts; eapply identified_intro; eauto 10|]. intros ? _.
    apply acts_of_quiet. pose proof removeStarting_quiet. quiet_auto.
  - apply acts_of_quiet. pose proof removeStarting_quiet. quiet_auto.
  - apply acts_of_quiet. pose proof removeStarting_quiet. quiet_auto.
  - apply acts_of_quiet, appends_ret.
Qed.

Lemma perform_acts name ctx c (Q : list Obs → result (Resp c) → Prop) :
  (∀ r, no_teardown (OCall c r)) → (∀ r, Q [OCall c r] r) → acts name ctx (perform c) Q.
Proof.
  intros Hn HQ. apply acts_quiet. eapply spec_weaken; [exact (host_perform_spec c)|]. intros seg r ->.
  split; [by apply Forall_singleton|done].
Qed.

Lemma or_else_perform name ctx c d (Q : list Obs → result (Resp c) → Prop) :
  (∀ r, no_teardown (OCall c r)) → (∀ a, Q [OCall c (Ok a)] (Ok a)) → (∀ e, Q [OCall c (Err e)] (Ok d)) →
  acts name ctx (or_else (perform c) d) Q.
Proof.
  intros Hn HQ He s. unfold or_else, try_catch. destruct (host_perform_spec c s) as (seg&E&Hseg).
  destruct (ModelHost.perform oracle c s) as [s1 [a|e]]; cbn in *; subst seg.
  - exists [OCall c (Ok a)]. split; [done|]. split; [by apply just_none, Forall_singleton|done].
  - exists [OCall c (Err e)]. split; [done|]. split; [by apply just_none, Forall_singleton|done].
Qed.

Lemma verify_acts name ctx file engine pid :
  acts name ctx (verify_file file engine pid) (λ seg r, r = Ok Alive → ident_ok (sidecar_path file) engine pid seg).
Proof. apply acts_quiet, verify_spec. Qed.

Lemma tryAdopt_acts manifest ctx pid prior :
  (∃ before, ctx = before ++ [OCall (CFindListener (hs_host (mh_spec manifest)) (hs_port (mh_spec manifest))) (Ok (Some pid));
                              OCall (CAlive pid) (Ok true)]) →
  acts (mh_name manifest) ctx (tryAdoptLiveHost oracle computeModelHostSpecHash manifest pid prior) any.
Proof.
  intros (before&->). unfold tryAdoptLiveHost.
  eapply (acts_then _ _ _ _ (λ seg r, ∀ ready ids, r = Ok (ready, ids) → ready = true →
    seg = [OCall (CProbeReady (hs_host (mh_spec manifest)) (hs_port (mh_spec manifest)) ADOPT_PROBE_TIMEOUT_MS) (Ok (true, ids))])).
  { refine (or_else_perform _ _ (CProbeReady _ _ _) _ _ _ _ _); [by intros r []|intros [] ready ids [= -> ->] ->; done|].
    by intros e ready ids [= <- <-]. }
  intros seg [ready ids] Hprobe. destruct ready; [|apply acts_of_quiet, appends_ret]. cbn [negb].
  rewrite (Hprobe true ids eq_refl eq_refl). clear Hprobe seg.
  destruct (head (hs_rels (mh_spec manifest))) as [rel|] eqn:Erel; [|apply acts_of_quiet, appends_ret].
  destruct (advertises (aliases_of rel) ids) eqn:Eadv; cbn [negb]; [|apply acts_of_quiet, appends_ret].
  eapply (acts_then _ _ _ _ (λ seg r, r = Ok true → seg = [OCall (CAlive pid) (Ok true)])).
  { refine (perform_acts _ _ (CAlive _) _ _ _); [by intros r []|by intros r ->]. }
  intros seg [] Halive; [|apply acts_of_quiet, appends_ret]. cbn [negb]. rewrite (Halive eq_refl). clear Halive seg.
  destruct (bool_decide _); cbn [negb].
  - apply acts_of_quiet. unfold writeModelHostState. quiet_auto.
  - apply acts_seq; [|intros; apply acts_of_quiet, appends_ret]. apply or_else_acts, teardown_acts. right.
    exists before, manifest, rel, ids. split_and!; [done..|]. by rewrite <-!app_assoc.
Qed.

Lemma reapOrAdopt_acts manifest ctx :
  acts (mh_name manifest) ctx
    (reapOrAdoptPriorHost oracle date_valid computeModelHostSpecHash sidecar_path manifest) any.
Proof.
  unfold reapOrAdoptPriorHost. eapply acts_then; [apply readState_acts|].
  intros seg found (st&->&[= <-]). destruct found as [st|]; [|apply reapStarting_acts].
  eapply acts_then; [apply verify_acts|]. intros seg verdict Hv.
  assert (∀ ctx, acts (mh_name manifest) ctx
    (livePid ← or_else (perform (CFindListener (hs_host (mh_spec manifest)) (hs_port (mh_spec manifest)))) None;
     held ← match livePid with
            | None => mret None
            | Some pid => alive ← perform (CAlive pid); mret (if alive : bool then Some pid else None)
            end;
     match held with
     | None => reapStartingOrphan oracle date_valid sidecar_path
     | Some pid =>
         adopted ← tryAdoptLiveHost oracle computeModelHostSpecHash manifest pid (ho_specHash st);
         match adopted with
         | Relaunch => mret None
         | Adopted r => mret (Some r)
         | NotOurs => mret (Some (failure (held_error (mh_spec manifest) pid)))
         end
     end) any) as Hgone.
  { clear. intros ctx.
    eapply (acts_then _ _ _ _ (λ seg r, ∀ pid, r = Ok (Some pid) →
      seg = [OCall (CFindListener (hs_host (mh_spec manifest)) (hs_port (mh_spec manifest))) (Ok (Some pid))])).
    { refine (or_else_perform _ _ (CFindListener _ _) _ _ _ _ _); [by intros r []|by intros a pid [= ->]|done]. }
    intros seg [pid|] Hl.
    2: { eapply (acts_then _ _ _ _ (λ _ r, r = Ok None)); [apply acts_quiet, spec_ret; split; [constructor|done]|].
         intros ? ? [= ->]. apply reapStarting_acts. }
    rewrite (Hl pid eq_refl). clear Hl seg.
    eapply (acts_then _ _ _ _ (λ seg r, ∀ p, r = Ok (Some p) → p = pid ∧ seg = [OCall (CAlive pid) (Ok true)])).
    { eapply (host_acts_bind _ _ _ _ (λ seg r, seg = [OCall (CAlive pid) r])).
      - refine (perform_acts _ _ (CAlive _) _ _ _); [by intros r []|done].
      - done.
      - intros seg alive Hr. apply acts_quiet, spec_ret. split; [constructor|]. intros p Hp. rewrite app_nil_r, Hr.
        destruct alive; [|done]. by injection Hp as <-. }
    intros seg [p|] Hp; [|apply reapStarting_acts]. destruct (Hp p eq_refl) as [-> ->]. clear Hp.
    apply acts_seq; [apply tryAdopt_acts|intros ? []; apply acts_of_quiet, appends_ret].
    exists ctx. by rewrite <-app_assoc. }
  destruct verdict; [|apply Hgone..|apply acts_of_quiet, appends_ret].
  apply acts_seq; [|intros; apply acts_of_quiet, appends_ret]. apply or_else_acts, teardown_acts.
  eapply identified_intro; [exact (Hv eq_refl)|done|]. left. by exists st.
Qed.

(** ** The child of a launch *)

Definition same_child {A} (m : M A) : Prop := ∀ s, v_child (m s).1 = v_child s.

Lemma same_child_bind {A B} (m : M A) (f : A → M B) : same_child m → (∀ a, same_child (f a)) → same_child (m ≫= f).
Proof. intros Hm Hf s. rewrite eff_bind_eq. specialize (Hm s). destruct (m s) as [s1 [a|e]]; cbn in *; [|done]. by rewrite Hf. Qed.

Lemma same_child_try {A} (m : M A) h : same_child m → (∀ e, same_child (h e)) → same_child (try_catch m h).
Proof. intros Hm Hh s. unfold try_catch. specialize (Hm s). destruct (m s) as [s1 [a|e]]; cbn in *; [done|]. by rewrite Hh. Qed.

Lemma same_child_perform c : same_child (perform c).
Proof. intros s. unfold ModelHost.perform. by destruct (oracle c (world s, files s)) as [[w fs] r]. Qed.

Ltac child_step :=
  match goal with
  | |- same_child (mret _) => by intros ?
  | |- same_child (throw _) => by intros ?
  | |- same_child (_ ≫= _) => apply same_child_bind; [|intros ?]
  | |- same_child (try_catch _ _) => apply same_child_try; [|intros ?]
  | |- same_child (or_else _ _) => unfold or_else
  | |- same_child (observe _) => by intros ?
  | |- same_child (gets _) => by intros ?
  | |- same_child (set_files _) => by intros ?
  | |- same_child (set_starting _) => by intros ?
  | |- same_child (lift _) => by intros ?
  | |- @same_child _ ?m => lazymatch m with ModelHost.perform _ ?c => exact (same_child_perform c) end
  | |- same_child (if ?b then _ else _) => destruct b
  | |- same_child (match ?x with _ => _ end) => destruct x
  end.

Lemma verify_child file engine pid : same_child (verify_file file engine pid).
Proof.
  unfold verify, verifyPidFile, verifyRecordedPid. cbn [deps dep_mtimeMs dep_probe dep_processStartMs dep_processCommand].
  repeat child_step.
Qed.

Lemma removeStarting_child : same_child (removeModelHostStarting oracle).
Proof. unfold removeModelHostStarting, unlink. repeat child_step. Qed.

Lemma reapStarting_child : same_child (reapStartingOrphan oracle date_valid sidecar_path).
Proof.
  unfold reapStartingOrphan, readStarting. pose proof removeStarting_child.
  repeat first [done|child_step|apply verify_child].
Qed.

Lemma clearStarting_child pid : same_child (clearStartingRecordIfOwned oracle date_valid pid).
Proof. unfold clearStartingRecordIfOwned, readStarting. pose proof removeStarting_child. repeat first [done|child_step]. Qed.

Lemma reapOrAdopt_child manifest :
  same_child (reapOrAdoptPriorHost oracle date_valid computeModelHostSpecHash sidecar_path manifest).
Proof.
  unfold reapOrAdoptPriorHost, readState, tryAdoptLiveHost, writeModelHostState. pose proof reapStarting_child.
  repeat first [done|child_step|apply verify_child].
Qed.

(** Nothing unjustified yet, and the child was spawned. *)
Definition safe (name : string) (s : St W) : Prop :=
  just name [] (obs s) ∧ ∀ pid, v_child s = Some pid → spawned pid (obs s).

Definition keeps {A} (name : string) (m : M A) : Prop := ∀ s, safe name s → safe name (m s).1.

Lemma spawned_app pid l k : spawned pid l → spawned pid (l ++ k).
Proof. intros (b&a&e&H). exists b, a, e. apply elem_of_app. by left. Qed.

Lemma safe_step {A} name (m : M A) s : acts name (obs s) m any → same_child m → safe name s → safe name (m s).1.
Proof.
  intros Hm Hc [Hj Hs]. destruct (Hm s) as (seg&E&Hseg&_). split.
  - rewrite E. by apply just_app.
  - intros pid Hp. rewrite E. apply spawned_app, Hs. by rewrite <-(Hc s).
Qed.

Lemma keeps_acts {A} name (m : M A) : (∀ ctx, acts name ctx m any) → same_child m → keeps name m.
Proof. intros Hm Hc s. by apply safe_step. Qed.

Lemma keeps_quiet {A} name (m : M A) : appends (@obs W) no_teardown m → same_child m → keeps name m.
Proof. intros Hm. apply keeps_acts. intros ctx. by apply acts_of_quiet. Qed.

Lemma host_keeps_bind {A B} name (m : M A) (f : A → M B) : keeps name m → (∀ a, keeps name (f a)) → keeps name (m ≫= f).
Proof. intros Hm Hf s Hs. rewrite eff_bind_eq. specialize (Hm s Hs). destruct (m s) as [s1 [a|e]]; [by apply Hf|done]. Qed.

Lemma keeps_try {A} name (m : M A) h : keeps name m → (∀ e, keeps name (h e)) → keeps name (try_catch m h).
Proof. intros Hm Hh s Hs. unfold try_catch. specialize (Hm s Hs). destruct (m s) as [s1 [a|e]]; [done|by apply Hh]. Qed.

Lemma host_keeps_ret {A} name (a : A) : keeps name (mret a).
Proof. by intros s. Qed.

Ltac keeps_plain := apply keeps_quiet; [quiet_auto|repeat child_step].

(** The pid that was spawned becomes the child. *)
Lemma keeps_spawn {A} name binary args env (k : option Z → M A) :
  (∀ o, keeps name (k o)) →
  keeps name (spawned ← perform (CSpawn binary args env); set_child spawned;; k spawned).
Proof.
  intros Hk s [Hj Hs]. rewrite eff_bind_eq. unfold ModelHost.perform.
  destruct (oracle _ _) as [[w fs] [o|e]]; cbn [fst].
  - rewrite eff_bind_eq. apply Hk. split; cbn.
    + apply just_app; [done|]. apply just_none, Forall_singleton. by intros [].
    + intros pid ->. exists binary, args, env. apply elem_of_app. right. left.
  - split; cbn; [apply just_app; [done|]; apply just_none, Forall_singleton; by intros []|].
    intros pid Hp. by apply spawned_app, Hs.
Qed.

Lemma launch_try_keeps name manifest opts args slot :
  keeps name (launch_try oracle date_valid computeModelHostSpecHash parent manifest opts args slot).
Proof.
  unfold launch_try. apply host_keeps_bind; [keeps_plain|intros _]. apply host_keeps_bind; [keeps_plain|intros boot].
  apply keeps_spawn. intros [pid|]; [|by intros s].
  unfold launch_spawned, writeModelHostStarting, writeModelHostState, awaitReady, ensureSpawnedChildStillRunning, resolveModelAliases, done.
  pose proof (clearStarting_quiet pid). pose proof (clearStarting_child pid).
  apply keeps_quiet; [quiet_auto|repeat first [done|child_step]].
Qed.

Lemma launch_failed_keeps name error : keeps name (launch_failed oracle date_valid error).
Proof.
  unfold launch_failed. intros s Hs. rewrite eff_bind_eq. cbn [gets].
  revert s Hs. change (∀ s, safe name s → safe name (((match v_child s with
    | Some pid => or_else (perform (CTeardown pid None)) tt
    | None => mret tt
    end);; startingPid ← gets v_starting;
    match startingPid with Some pid => clearStartingRecordIfOwned oracle date_valid pid | None => mret tt end;;
    done (mkStartResult false None (Some error) (v_child s))) s).1).
  intros s Hs.
  assert (keeps name (startingPid ← gets v_starting;
    match startingPid with Some pid => clearStartingRecordIfOwned oracle date_valid pid | None => mret tt end;;
    done (mkStartResult false None (Some error) (v_child s)) : M _)) as Hrest.
  { apply keeps_quiet; unfold done.
    - apply appends_bind; [by apply appends_still|]. intros [pid|]; [pose proof (clearStarting_quiet pid)|]; quiet_auto.
    - apply same_child_bind; [by intros ?|]. intros [pid|]; [pose proof (clearStarting_child pid)|]; repeat first [done|child_step]. }
  rewrite eff_bind_eq. destruct (v_child s) as [pid|] eqn:Ec; [|by apply Hrest].
  assert (safe name (or_else (perform (CTeardown pid None)) tt s).1) as Hs1.
  { refine (safe_step _ _ _ (or_else_acts name (obs s) _ tt (teardown_acts _ _ pid None _)) _ Hs).
    - left. by apply Hs.
    - apply same_child_try; [exact (same_child_perform (CTeardown pid None))|by intros ? ?]. }
  destruct (or_else _ _ s) as [s1 [u|e]]; [by apply Hrest|exact Hs1].
Qed.

Lemma launch_keeps manifest opts : keeps (mh_name manifest) (launch manifest opts).
Proof.
  unfold launchModelHost. apply host_keeps_bind; [keeps_plain|]. intros aborted. unfold done. destruct aborted; [keeps_plain|].
  apply host_keeps_bind; [apply keeps_acts; [intros; apply reapOrAdopt_acts|apply reapOrAdopt_child]|].
  intros [r|]; [keeps_plain|]. unfold warnExternalBind. apply host_keeps_bind; [keeps_plain|intros _].
  apply host_keeps_bind; [keeps_plain|]. intros [args slot].
  apply host_keeps_bind; [by intros s [Hj _]; split|intros _]. apply host_keeps_bind; [keeps_plain|intros _].
  apply keeps_try; [apply launch_try_keeps|intros; apply launch_failed_keeps].
Qed.

Lemma start_keeps inFlight opts : keeps (so_name opts) (start inFlight opts).
Proof.
  unfold startModelHost, done. apply host_keeps_bind; [destruct (so_manifest opts); keeps_plain|]. intros manifest.
  destruct (bool_decide _) eqn:En; cbn [negb]; [|keeps_plain]. to_prop.
  apply host_keeps_bind; [keeps_plain|]. intros [error|]; [keeps_plain|].
  destruct (modelHostBindRefusal manifest); [keeps_plain|].
  apply host_keeps_bind; [unfold mergeDiskManagedByLabel; keeps_plain|]. intros _.
  destruct inFlight as [hash|]; [unfold joinInFlightModelHostStart; keeps_plain|]. rewrite <-En. apply launch_keeps.
Qed.

Lemma stopStarting_acts name ctx : acts name ctx (stopStartingRecord oracle date_valid sidecar_path) any.
Proof.
  unfold stopStartingRecord. eapply acts_then; [apply readStarting_acts|]. intros seg found (st&->&[= <-]).
  destruct found as [sg|]; [|apply acts_of_quiet, appends_ret].
  eapply acts_then; [apply verify_acts|]. intros seg verdict Hv. pose proof removeStarting_quiet.
  destruct verdict; [|apply acts_of_quiet; rewrite ?bool_decide_false by done; quiet_auto..].
  apply acts_seq; [rewrite bool_decide_true by done; apply teardown_acts; eapply identified_intro; eauto 10|].
  intros. apply acts_of_quiet. quiet_auto.
Qed.

Lemma stop_acts name ctx : acts name ctx stop any.
Proof.
  unfold stopModelHost. eapply acts_then; [apply readState_acts|]. intros seg found (st&->&[= <-]).
  destruct found as [sg|]; [|apply stopStarting_acts].
  eapply acts_then; [apply verify_acts|]. intros seg verdict Hv. pose proof removeState_quiet.
  destruct verdict; [|apply acts_of_quiet; rewrite ?bool_decide_false by done; quiet_auto..].
  apply acts_seq; [rewrite bool_decide_true by done; apply teardown_acts; eapply identified_intro; eauto 10|].
  intros. apply acts_of_quiet. quiet_auto.
Qed.

(** Whatever the outside does, starting and stopping a ModelHost tell
    a process to go only on evidence: a record of the workload names it and it
    was just seen to run the engine's command, started no later than the record
    was written; or this start spawned it; or it listens where the workload
    should and was just seen to serve the workload's model. *)
Theorem signals_justified inFlight opts w fs :
  just (so_name opts) [] (obs (start inFlight opts (mkSt w fs [] None None)).1) ∧
  just (so_name opts) [] (obs (stop (mkSt w fs [] None None)).1).
Proof.
  split.
  - apply start_keeps. split; [by apply just_none, List.Forall_nil|done].
  - destruct (stop_acts (so_name opts) [] (mkSt w fs [] None None)) as (seg&E&Hj&_). by rewrite E.
Qed.

(** ** What becomes of the child *)

Definition spawns (o : Obs) : Prop := match o with OCall (CSpawn _ _ _) (Ok (Some _)) => True | _ => False end.

(** A launch record is written. *)
Definition writes (o : Obs) : Prop := match o with OCall (CWrite StateFile _) (Ok _) => True | _ => False end.

Definition mild (o : Obs) : Prop :=
  match o with OCall (CTeardown _ _) _ => False | OCall (CSpawn _ _ _) (Ok (Some _)) => False | _ => True end.
Definition tame (o : Obs) : Prop := match o with OCall (CWrite StateFile _) (Ok _) => False | _ => mild o end.

Lemma tame_mild o : tame o → mild o.
Proof. by destruct o as [[]| | | |]. Qed.

Lemma tame_not o : tame o → no_teardown o ∧ ¬ spawns o ∧ ¬ writes o.
Proof.
  unfold no_teardown. destruct o as [c r| | | |]; [destruct c as [| | | | | | | | | |f| | | | | | | | | | | |]|..]; cbn; try tauto.
  - destruct f, r; tauto.
  - destruct r as [[]|]; tauto.
Qed.

(** The launch record of the process was written. *)
Definition recorded (manifest : ModelHostManifest) (pid : Z) (seg : list Obs) : Prop :=
  ∃ st, OCall (CWrite StateFile (host_state_json st)) (Ok tt) ∈ seg ∧ ho_pid st = pid ∧
    ho_specHash st = Some (specHash computeModelHostSpecHash manifest) ∧
    ho_host st = hs_host (mh_spec manifest) ∧ ho_port st = hs_port (mh_spec manifest).

(** The endpoint was found ready. *)
Definition probed_ready (manifest : ModelHostManifest) (seg : list Obs) : Prop :=
  ∃ timeoutMs ids,
    OCall (CProbeReady (hs_host (mh_spec manifest)) (hs_port (mh_spec manifest)) timeoutMs) (Ok (true, ids)) ∈ seg ∨
    OCall (CRaceProbeReady (hs_host (mh_spec manifest)) (hs_port (mh_spec manifest)) timeoutMs) (Ok (Some (true, ids))) ∈ seg.

(** What a launch does after it spawned the process, until it gives up. *)
Definition settled_as (manifest : ModelHostManifest) (pid : Z) (seg : list Obs) (r : result StartModelHostResult) : Prop :=
  match r with
  | Ok res =>
      res = mkStartResult true (Some pid) None None ∧ Forall mild seg ∧ recorded manifest pid seg ∧
      probed_ready manifest seg ∧ OCall (CExitCode pid) (Ok None) ∈ seg
  | Err _ => Forall tame seg
  end.

Definition total {A} (m : M A) : Prop := ∀ s, is_ok (m s).2 = true.

Lemma total_bind {A B} (m : M A) (f : A → M B) : total m → (∀ a, total (f a)) → total (m ≫= f).
Proof. intros Hm Hf s. rewrite eff_bind_eq. specialize (Hm s). destruct (m s) as [s1 [a|e]]; [apply Hf|done]. Qed.

Lemma total_or_else {A} (m : M A) d : total (or_else m d).
Proof. intros s. unfold or_else. by apply try_catch_total. Qed.

Lemma clearStarting_total pid : total (clearStartingRecordIfOwned oracle date_valid pid).
Proof.
  unfold clearStartingRecordIfOwned, readStarting. apply total_bind; [by apply total_bind; [|intros ?; apply total_bind]|].
  intros [sg|]; [|done]. destruct (bool_decide _); [apply total_or_else|done].
Qed.

Lemma clearStarting_tame pid : appends (@obs W) tame (clearStartingRecordIfOwned oracle date_valid pid).
Proof. unfold clearStartingRecordIfOwned, readStarting, removeModelHostStarting, unlink. quiet_auto. Qed.

Lemma set_files_spec f : spec obs (set_files f : M unit) (λ seg r, seg = [] ∧ r = Ok tt).
Proof. intros s. exists []. by rewrite app_nil_r. Qed.

Lemma writeState_spec st :
  spec obs (writeModelHostState oracle st) (λ seg r,
    match r with
    | Ok _ => Forall mild seg ∧ OCall (CWrite StateFile (host_state_json st)) (Ok tt) ∈ seg
    | Err _ => Forall tame seg
    end).
Proof.
  unfold writeModelHostState.
  eapply spec_bind; [exact (host_perform_spec (CWrite PidFile _))|intros ? e ->; by repeat constructor|]. intros ? [] ->.
  eapply spec_bind; [apply set_files_spec|by intros ? ? [_ [=]]|]. intros ? u [-> _].
  eapply spec_bind; [exact (host_perform_spec (CWrite StateFile _))|intros ? e ->; by repeat constructor|]. intros ? [] ->.
  eapply spec_weaken; [apply set_files_spec|]. intros ? ? [-> ->]. split; [by repeat constructor|]. right. left.
Qed.

Lemma awaitReady_spec opts manifest :
  spec obs (awaitReady oracle opts (mh_spec manifest)) (λ seg r,
    Forall tame seg ∧ ∀ ids, r = Ok (Some (true, ids)) → probed_ready manifest seg).
Proof.
  unfold awaitReady. destruct (so_signal opts).
  - eapply spec_weaken; [exact (host_perform_spec (CRaceProbeReady _ _ _))|]. cbn. intros seg r ->. split; [by repeat constructor|].
    intros ids ->. eexists _, ids. right. left.
  - eapply spec_bind; [exact (host_perform_spec (CProbeReady _ _ _))|intros ? e ->; split; [by repeat constructor|done]|].
    intros ? r ->. apply spec_ret. split; [by repeat constructor|]. intros ids [= ->]. eexists _, ids. left. left.
Qed.

Lemma tame_seq {A} manifest pid (m : M A) (f : A → M StartModelHostResult) :
  appends (@obs W) tame m → (∀ a, spec obs (f a) (settled_as manifest pid)) → spec obs (m ≫= f) (settled_as manifest pid).
Proof.
  intros Hm Hf. eapply spec_bind; [apply spec_appends, Hm|done|]. intros pre a Hpre. eapply spec_weaken; [apply Hf|].
  intros seg [res|e]; cbn; [|intros H; by apply Forall_app].
  intros (->&Hmild&(st&Hst&?)&(t&ids&Hr)&Hx). split_and!; [done| | | |].
  - apply Forall_app. split; [eapply Forall_impl; [exact Hpre|exact tame_mild]|done].
  - exists st. split; [apply elem_of_app; by right|done].
  - exists t, ids. rewrite !elem_of_app. tauto.
  - apply elem_of_app; by right.
Qed.

Lemma all_mild l : Forall tame l → Forall mild l.
Proof. intros H. eapply Forall_impl; [exact H|exact tame_mild]. Qed.

Lemma ensure_spec pid spec0 :
  spec obs (ensureSpawnedChildStillRunning oracle pid spec0) (λ seg r,
    Forall tame seg ∧ ∀ u, r = Ok u → OCall (CExitCode pid) (Ok None) ∈ seg).
Proof.
  unfold ensureSpawnedChildStillRunning.
  eapply spec_bind; [exact (host_perform_spec (CExitCode _))|intros ? e ->; split; [by repeat constructor|done]|]. intros ? code ->.
  intros s. exists []. rewrite app_nil_r. destruct code as [code|]; cbn; (split; [done|split; [by repeat constructor|]]); [done|].
  intros _ _. left.
Qed.

Lemma resolve_tame manifest : appends (@obs W) tame (resolveModelAliases manifest).
Proof. unfold resolveModelAliases. quiet_auto. Qed.

Lemma clear_spec pid :
  spec obs (clearStartingRecordIfOwned oracle date_valid pid) (λ seg r, Forall tame seg ∧ ∃ u, r = Ok u).
Proof.
  intros s. destruct (clearStarting_tame pid s) as (seg&E&H). exists seg. split; [done|split; [done|]].
  specialize (clearStarting_total pid s). destruct (_ s).2 as [u|e]; [by exists u|done].
Qed.

Lemma launch_spawned_spec manifest opts slot pid :
  spec obs (launch_spawned oracle date_valid computeModelHostSpecHash manifest opts slot pid) (settled_as manifest pid).
Proof.
  unfold launch_spawned. apply tame_seq; [quiet_auto|]. intros _. apply tame_seq; [quiet_auto|]. intros now.
  apply tame_seq; [unfold writeModelHostStarting; quiet_auto|]. intros _.
  eapply spec_bind; [apply awaitReady_spec|by intros ? ? []|]. intros pre readiness (Hpre&Hready).
  destruct readiness as [[[] ids]|]; cbn [negb].
  2,3: intros s; exists []; rewrite !app_nil_r; by split.
  specialize (Hready ids eq_refl).
  eapply spec_bind; [apply ensure_spec|by intros ? ? [? _]; red; apply Forall_app|]. intros seg1 [] (H1&Hx). specialize (Hx tt eq_refl).
  eapply spec_bind; [apply spec_appends, resolve_tame|by intros; red; rewrite !Forall_app|]. intros seg2 aliases H2.
  eapply spec_bind; [exact (host_perform_spec CNow)|intros ? ? ->; red; rewrite !Forall_app; split_and!; by repeat constructor|].
  intros ? started ->.
  eapply spec_bind; [apply writeState_spec|intros; red; rewrite !Forall_app; split_and!; by repeat constructor|].
  intros seg3 u (H3&Hw).
  eapply spec_bind; [apply clear_spec|by intros ? ? [_ [? [=]]]|]. intros seg4 v (H4&_).
  unfold done. intros s. eexists. split; [reflexivity|]. cbn. split_and!; [done| | | |].
  - cbn in H2. repeat first [done|by apply all_mild|apply Forall_cons; split|apply Forall_app; split|constructor].
  - eexists. split; [rewrite !elem_of_app, elem_of_cons, elem_of_app; do 4 right; left; exact Hw|by split_and!].
  - destruct Hready as (t&ids'&Hr). exists t, ids'. rewrite !elem_of_app. tauto.
  - rewrite !elem_of_app. tauto.
Qed.

(** ** A launch as a whole *)

(** No process is spawned; [writes_none]: no launch record is written either. *)
Definition spawns_none (o : Obs) : Prop := ¬ spawns o.
Definition writes_none (o : Obs) : Prop := ¬ writes o.

Local Abbreviation launch_try := (ModelHost.launch_try oracle date_valid computeModelHostSpecHash parent).

(** The process that a launch spawned, and what it did before and after. *)
Lemma launch_try_fate manifest opts args slot s s1 r :
  v_child s = None → launch_try manifest opts args slot s = (s1, r) →
  ∃ seg, obs s1 = obs s ++ seg ∧
    ((v_child s1 = None ∧ Forall tame seg ∧ is_ok r = false) ∨
     (∃ pid pre b a e post, v_child s1 = Some pid ∧ seg = pre ++ OCall (CSpawn b a e) (Ok (Some pid)) :: post ∧
        Forall tame pre ∧ settled_as manifest pid post r)).
Proof.
  intros Hc E. unfold ModelHost.launch_try in E.
  assert (∀ c s0 s2 r0, ModelHost.perform oracle c s0 = (s2, r0) → obs s2 = obs s0 ++ [OCall c r0] ∧ v_child s2 = v_child s0) as Hp.
  { clear. intros c s0 s2 r0 E. unfold ModelHost.perform in E. destruct (oracle _ _) as [[w fs] r1]. by injection E as <- <-. }
  apply bind_run in E as [(e&E1&->)|(s2&u&E1&E)].
  { destruct (Hp (CPrepareLaunch _) _ _ _ E1) as [Eo Ec]. eexists. split; [exact Eo|]. left. rewrite Ec. split_and!; [done|by repeat constructor|done]. }
  destruct (Hp (CPrepareLaunch _) _ _ _ E1) as [Eo1 Ec1]. apply bind_run in E as [(e&E2&->)|(s3&boot&E2&E)].
  { destruct (Hp (CBuildBoot _ _) _ _ _ E2) as [Eo Ec]. rewrite Eo1, <-app_assoc in Eo. eexists. split; [exact Eo|]. left. rewrite Ec, Ec1.
    split_and!; [done|by repeat constructor|done]. }
  destruct (Hp (CBuildBoot _ _) _ _ _ E2) as [Eo2 Ec2]. rewrite Eo1, <-app_assoc in Eo2. apply bind_run in E as [(e&E3&->)|(s4&o&E3&E)].
  { destruct (Hp (CSpawn _ _ _) _ _ _ E3) as [Eo Ec]. rewrite Eo2, <-app_assoc in Eo. eexists. split; [exact Eo|]. left. rewrite Ec, Ec2, Ec1.
    split_and!; [done|by repeat constructor|done]. }
  destruct (Hp (CSpawn _ _ _) _ _ _ E3) as [Eo3 _]. rewrite Eo2, <-app_assoc in Eo3.
  apply bind_run in E as [(e&E4&_)|(s5&v&E4&E)]; [done|]. injection E4 as <- _.
  destruct o as [pid|].
  - destruct (launch_spawned_spec manifest opts slot pid (mkSt (world s4) (files s4) (obs s4) (Some pid) (v_starting s4))) as (post&Eo&Hpost).
    assert (same_child (launch_spawned oracle date_valid computeModelHostSpecHash manifest opts slot pid)) as Hsame.
    { unfold launch_spawned, writeModelHostStarting, writeModelHostState, awaitReady, ensureSpawnedChildStillRunning, resolveModelAliases, done.
      pose proof (clearStarting_child pid). repeat first [done|child_step]. }
    specialize (Hsame (mkSt (world s4) (files s4) (obs s4) (Some pid) (v_starting s4))). rewrite E in *. cbn in *.
    rewrite Eo3, <-app_assoc in Eo. eexists. split; [exact Eo|]. right. exists pid. eexists [_; _], _, _, _, post.
    split_and!; [done|reflexivity|by repeat constructor|done].
  - injection E as <- <-. eexists. split; [exact Eo3|]. left. split_and!; [done|by repeat constructor|done].
Qed.

Lemma gets_spec {A} (f : St W → A) : spec obs (gets f) (λ seg r, seg = [] ∧ ∃ a, r = Ok a).
Proof. intros s. exists []. rewrite app_nil_r. split; [done|]. split; [done|by eexists]. Qed.

(** The end of the catch block. *)
Lemma give_up_spec res :
  spec obs (startingPid ← gets v_starting;
            match startingPid with Some pid => clearStartingRecordIfOwned oracle date_valid pid | None => mret tt end;;
            done res : M _)
    (λ seg r, Forall tame seg ∧ r = Ok res).
Proof.
  eapply spec_bind; [apply gets_spec|by intros ? ? (_&?&[=])|]. intros ? startingPid [-> _].
  eapply (spec_bind _ _ _ (λ seg r, Forall tame seg ∧ ∃ u, r = Ok u)).
  - destruct startingPid as [p|]; [apply clear_spec|]. apply spec_ret. split; [constructor|by eexists].
  - by intros ? ? (_&?&[=]).
  - intros seg u [Hseg _] s. eexists. split; [reflexivity|]. split; [|done]. cbn [app]. apply Forall_app. split; [done|by repeat constructor].
Qed.

Lemma teardown_spec pid :
  spec obs (or_else (perform (CTeardown pid None)) tt)
    (λ seg r, ∃ torn, seg = [OCall (CTeardown pid None) torn] ∧ r = Ok tt).
Proof.
  eapply spec_try; [exact (host_perform_spec (CTeardown _ _))|intros ? [] ->; eauto|]. intros ? e ->. apply spec_ret. eauto.
Qed.

Lemma launch_failed_fate error s s' r :
  launch_failed oracle date_valid error s = (s', r) →
  r = Ok (mkStartResult false None (Some error) (v_child s)) ∧
  ∃ seg, obs s' = obs s ++ seg ∧
    match v_child s with
    | Some pid => ∃ torn rest, seg = OCall (CTeardown pid None) torn :: rest ∧ Forall tame rest
    | None => Forall tame seg
    end.
Proof.
  intros E. unfold launch_failed in E. rewrite eff_bind_eq in E. cbn [gets] in E.
  destruct (v_child s) as [pid|].
  - eapply spec_run in E as (seg&Eo&HQ).
    2: { eapply (spec_bind _ _ _ _ (λ seg r, ∃ torn rest, seg = OCall (CTeardown pid None) torn :: rest ∧ Forall tame rest ∧
           r = Ok (mkStartResult false None (Some error) (Some pid)))); [apply teardown_spec|by intros ? ? (?&?&[=])|].
         intros ? u (torn&->&_). eapply spec_weaken; [apply give_up_spec|]. intros rest ? [Hrest ->]. by exists torn, rest. }
    cbn in HQ. destruct HQ as (torn&rest&->&Hrest&->). split; [done|]. eauto 6.
  - destruct (spec_run _ _ _ _ _ _ (give_up_spec (mkStartResult false None (Some error) None)) E) as (seg&Eo&Hseg&Hr).
    split; [done|]. by exists seg.
Qed.

(** Nothing is spawned, and nothing recorded when the outcome is [x]: what the
    remains of an earlier launch come to, where [x] is that the launch goes on. *)
Definition cleared {A} (x : A) (seg : list Obs) (r : result A) : Prop :=
  Forall spawns_none seg ∧ (r = Ok x → Forall writes_none seg).

Definition bare (o : Obs) : Prop := ¬ spawns o ∧ ¬ writes o.

Lemma cleared_bare {A} (x : A) (m : M A) : appends (@obs W) bare m → spec obs m (cleared x).
Proof.
  intros H. eapply spec_weaken; [apply spec_appends, H|]. intros seg r Hs.
  split; [|intros _]; (eapply Forall_impl; [exact Hs|]); by intros o [].
Qed.

Lemma cleared_not {A B} (x y : A) (m : M B) : appends (@obs W) spawns_none m → y ≠ x → spec obs (m;; mret y) (cleared x).
Proof.
  intros H Hne. eapply spec_bind; [apply spec_appends, H|by intros seg e Hs; split|]. intros seg a Hs. apply spec_ret.
  rewrite app_nil_r. split; [done|]. by intros [= ->].
Qed.

Lemma cleared_seq {A B} (x : B) (m : M A) f :
  appends (@obs W) bare m → (∀ a, spec obs (f a) (cleared x)) → spec obs (m ≫= f) (cleared x).
Proof.
  intros Hm Hf. eapply spec_bind; [apply spec_appends, Hm| |].
  - intros seg e Hs. split; [|done]. eapply Forall_impl; [exact Hs|]. by intros o [].
  - intros seg a Hs. eapply spec_weaken; [apply Hf|]. intros seg2 r [H1 H2].
    split; [apply Forall_app; split; [|done]|intros Hr; apply Forall_app; split; [|by apply H2]];
      (eapply Forall_impl; [exact Hs|]); by intros o [].
Qed.

Ltac bare_auto := quiet_auto; try (by split; intros []).

Lemma tryAdopt_cleared manifest pid prior :
  spec obs (tryAdoptLiveHost oracle computeModelHostSpecHash manifest pid prior) (cleared Relaunch).
Proof.
  unfold tryAdoptLiveHost. apply cleared_seq; [bare_auto|]. intros [[] ids]; cbn [negb]; [|by apply cleared_bare, appends_ret].
  destruct (head _) as [rel|]; [|by apply cleared_bare, appends_ret].
  destruct (advertises _ _); cbn [negb]; [|by apply cleared_bare, appends_ret].
  apply cleared_seq; [bare_auto|]. intros []; cbn [negb]; [|by apply cleared_bare, appends_ret].
  destruct (bool_decide _); cbn [negb]; [|apply cleared_bare; bare_auto].
  apply cleared_seq; [bare_auto|intros cmdline]. apply cleared_seq; [bare_auto|intros now].
  apply cleared_not; [|done]. unfold writeModelHostState. quiet_auto.
Qed.

Lemma reapStarting_bare : appends (@obs W) bare (reapStartingOrphan oracle date_valid sidecar_path).
Proof.
  unfold reapStartingOrphan, readStarting, verify, verifyPidFile, verifyRecordedPid, removeModelHostStarting, unlink.
  cbn [deps dep_mtimeMs dep_probe dep_processStartMs dep_processCommand]. bare_auto.
Qed.

Lemma reapOrAdopt_cleared manifest :
  spec obs (reapOrAdoptPriorHost oracle date_valid computeModelHostSpecHash sidecar_path manifest) (cleared None).
Proof.
  unfold reapOrAdoptPriorHost, readState. apply cleared_seq; [bare_auto|].
  intros [st|]; [|apply cleared_bare, reapStarting_bare].
  apply cleared_seq; [unfold verify, verifyPidFile, verifyRecordedPid; cbn [deps dep_mtimeMs dep_probe dep_processStartMs dep_processCommand]; bare_auto|].
  intros verdict. destruct verdict; try (by apply cleared_bare; bare_auto).
  all: apply cleared_seq; [bare_auto|intros listener]; apply cleared_seq; [bare_auto|intros [pid|]];
    [|apply cleared_bare, reapStarting_bare].
  all: eapply spec_bind; [apply tryAdopt_cleared|by intros ? ? []|]; intros seg adopted [H1 H2];
    destruct adopted; apply spec_ret; rewrite app_nil_r; (split; [done|]); [done| |done]; intros _; by apply H2.
Qed.

Lemma warn_bare manifest : appends (@obs W) bare (warnExternalBind manifest).
Proof. unfold warnExternalBind. bare_auto. Qed.

(** A launch ends without a process, or comes to the try block with nothing
    spawned and nothing recorded. *)
Lemma launch_reaches manifest opts s s' r :
  launch manifest opts s = (s', r) →
  ∃ pre, Forall spawns_none pre ∧
    (obs s' = obs s ++ pre ∨
     (Forall writes_none pre ∧ ∃ args slot sx, obs sx = obs s ++ pre ∧ v_child sx = None ∧
        try_catch (launch_try manifest opts args slot) (launch_failed oracle date_valid) sx = (s', r))).
Proof.
  assert (∀ l, Forall bare l → Forall spawns_none l ∧ Forall writes_none l) as Hbare.
  { clear. intros l H. split; (eapply Forall_impl; [exact H|]); by intros o []. }
  intros E. unfold launchModelHost in E.
  assert (appends (@obs W) bare (if so_signal opts then perform CAborted else mret false)) as Ha by bare_auto.
  apply bind_run in E as [(e&E&->)|(s1&aborted&E1&E)].
  { destruct (appends_run _ _ _ _ _ _ Ha E) as (seg&Eo&Hs). exists seg. split; [by apply Hbare|by left]. }
  destruct (appends_run _ _ _ _ _ _ Ha E1) as (seg1&Eo1&[Hs1 Hw1]%Hbare). clear E1 Ha.
  destruct aborted.
  { injection E as <- <-. cbn. rewrite Eo1, <-app_assoc. eexists. split; [|by left]. apply Forall_app. split; [done|].
    by apply Forall_singleton; intros []. }
  apply bind_run in E as [(e&E&->)|(s2&early&E2&E)].
  { destruct (spec_run _ _ _ _ _ _ (reapOrAdopt_cleared manifest) E) as (seg&Eo&Hs&_). rewrite Eo1, <-app_assoc in Eo.
    eexists. split; [|by left]. by apply Forall_app. }
  destruct (spec_run _ _ _ _ _ _ (reapOrAdopt_cleared manifest) E2) as (seg2&Eo2&Hs2&Hw2). clear E2. rewrite Eo1, <-app_assoc in Eo2.
  destruct early as [res|].
  { injection E as <- <-. cbn. rewrite Eo2, <-app_assoc. eexists. split; [|by left]. rewrite !Forall_app. split_and!; [done..|].
    by apply Forall_singleton; intros []. }
  specialize (Hw2 eq_refl).
  apply bind_run in E as [(e&E&_)|(s3&u&E3&E)].
  { unfold warnExternalBind in E. destruct (modelHostExternalBindHost _); [destruct (bool_decide _)|]; discriminate. }
  destruct (appends_run _ _ _ _ _ _ (warn_bare manifest) E3) as (seg3&Eo3&[Hs3 Hw3]%Hbare). clear E3.
  rewrite Eo2, <-!app_assoc in Eo3. apply bind_run in E as [(e&E&->)|(s4&[args slot]&E4&E)].
  { injection E as <- _. eexists. split; [|by left]. by rewrite !Forall_app. }
  injection E4 as <- _. exists (seg1 ++ seg2 ++ seg3). split; [by rewrite !Forall_app|]. right.
  split; [by rewrite !Forall_app|]. eexists args, slot, (mkSt (world s3) (files s3) (obs s3) None None). done.
Qed.

Lemma spawned_at pid pre b a e pid' post :
  Forall spawns_none pre → Forall spawns_none post →
  spawned pid (pre ++ OCall (CSpawn b a e) (Ok (Some pid')) :: post) → pid' = pid.
Proof.
  intros H1 H2 (b'&a'&e'&Hin). rewrite elem_of_app, elem_of_cons in Hin. rewrite Forall_forall in H1, H2.
  destruct Hin as [Hin|[Heq|Hin]]; [by destruct (H1 _ Hin)| |by destruct (H2 _ Hin)].
  apply (f_equal (λ o, match o with OCall (CSpawn _ _ _) (Ok x) => x | _ => None end)) in Heq. by injection Heq.
Qed.

Lemma spawned_none pid l : Forall spawns_none l → ¬ spawned pid l.
Proof. intros H (b&a&e&Hin). rewrite Forall_forall in H. by apply (H _ Hin). Qed.

(** The process was recorded, found ready and still there, or told to go with
    nothing recorded; the caller learns which. *)
Definition accounted (manifest : ModelHostManifest) (pid : Z) (seg : list Obs) (res : StartModelHostResult) : Prop :=
  ∃ before b a e after, seg = before ++ OCall (CSpawn b a e) (Ok (Some pid)) :: after ∧
    if sr_ok res then
      res = mkStartResult true (Some pid) None None ∧ Forall mild after ∧
      recorded manifest pid after ∧ probed_ready manifest after ∧ OCall (CExitCode pid) (Ok None) ∈ after
    else
      sr_spawnedPid res = Some pid ∧ (∃ torn, OCall (CTeardown pid None) torn ∈ after) ∧ Forall writes_none seg.

Lemma tame_bare l : Forall tame l → Forall spawns_none l ∧ Forall writes_none l.
Proof. intros H. split; (eapply Forall_impl; [exact H|]); intros o Ho; apply tame_not in Ho as (?&?&?); done. Qed.

Lemma mild_spawns l : Forall mild l → Forall spawns_none l.
Proof.
  intros H. eapply Forall_impl; [exact H|]. unfold spawns_none. intros [[] r| | | |]; cbn; try tauto. destruct r as [[]|]; tauto.
Qed.

Lemma launch_fate manifest opts s s' r :
  launch manifest opts s = (s', r) →
  ∃ seg, obs s' = obs s ++ seg ∧ ∀ pid, spawned pid seg → ∃ res, r = Ok res ∧ accounted manifest pid seg res.
Proof.
  intros E. apply launch_reaches in E as (pre&Hpre&[Eo|(Hw&args&slot&sx&Eo&Hc&E)]).
  { exists pre. split; [done|]. intros pid Hsp. by destruct (spawned_none _ _ Hpre Hsp). }
  unfold try_catch in E. destruct (launch_try manifest opts args slot sx) as [s1 r1] eqn:E1.
  apply launch_try_fate in E1 as (seg&Eo1&[(Hc1&[Hs _]%tame_bare&Hr)|(pid'&seg1&b&a&e&post&Hc1&->&[Hs1 Hw1]%tame_bare&Hr)]);
    [| |done]; rewrite Eo, <-app_assoc in Eo1.
  - destruct r1 as [|error]; [done|]. apply launch_failed_fate in E as (_&seg2&Eo2&Hseg2). rewrite Hc1 in Hseg2.
    apply tame_bare in Hseg2 as [Hs2 _]. rewrite Eo1, <-!app_assoc in Eo2. eexists. split; [exact Eo2|]. intros pid Hsp.
    apply spawned_none in Hsp; [done|]. by repeat (apply Forall_app; split).
  - destruct r1 as [res|error].
    + injection E as <- <-. destruct Hr as (->&Hmild&Hrest). eexists. split; [exact Eo1|]. intros pid Hsp. rewrite app_assoc in Hsp.
      apply spawned_at in Hsp as ->; [|by apply Forall_app|by apply mild_spawns]. eexists. split; [done|].
      exists (pre ++ seg1), b, a, e, post. by rewrite <-app_assoc.
    + apply launch_failed_fate in E as (->&seg2&Eo2&Hseg2). rewrite Hc1 in *. destruct Hseg2 as (torn&rest&->&[Hs2 Hw2]%tame_bare).
      apply tame_bare in Hr as [Hs3 Hw3]. rewrite Eo1, <-!app_assoc in Eo2. eexists. split; [exact Eo2|]. intros pid Hsp.
      rewrite app_assoc in Hsp. cbn [app] in Hsp |- *. apply spawned_at in Hsp as ->; [|by apply Forall_app|
        apply Forall_app; split; [done|]; apply Forall_cons; split; [by intros []|done]].
      eexists. split; [done|]. exists (pre ++ seg1), b, a, e, (post ++ OCall (CTeardown pid None) torn :: rest).
      rewrite <-app_assoc. split; [done|]. cbn [sr_ok sr_spawnedPid]. split_and!; [done| |].
      * exists torn. apply elem_of_app. right. left.
      * repeat first [done|apply Forall_app; split|apply Forall_cons; split]; by intros [].
Qed.

(** [m] spawns and records nothing itself, and ends or goes on as one of [K]. *)
Definition comes_to {A} (K : M A → Prop) (m : M A) : Prop :=
  ∀ s s' r, m s = (s', r) → ∃ pre, Forall bare pre ∧
    (obs s' = obs s ++ pre ∨ ∃ k sx, K k ∧ obs sx = obs s ++ pre ∧ k sx = (s', r)).

Lemma comes_quiet {A} K (m : M A) : appends (@obs W) bare m → comes_to K m.
Proof. intros H s s' r E. destruct (appends_run _ _ _ _ _ _ H E) as (seg&?&?). exists seg. split; [done|by left]. Qed.

Lemma comes_as {A} (K : M A → Prop) (m : M A) : K m → comes_to K m.
Proof. intros H s s' r E. exists []. split; [constructor|]. right. exists m, s. by rewrite app_nil_r. Qed.

Lemma comes_seq {A B} K (m : M A) (f : A → M B) :
  appends (@obs W) bare m → (∀ a, comes_to K (f a)) → comes_to K (m ≫= f).
Proof.
  intros Hm Hf s s' r E. apply bind_run in E as [(e&E&->)|(s1&a&E1&E)].
  { destruct (appends_run _ _ _ _ _ _ Hm E) as (seg&?&?). exists seg. split; [done|by left]. }
  destruct (appends_run _ _ _ _ _ _ Hm E1) as (seg&Eo&Hs). destruct (Hf a _ _ _ E) as (pre&Hpre&H).
  rewrite Eo in H. setoid_rewrite <-app_assoc in H. exists (seg ++ pre). split; [by apply Forall_app|done].
Qed.

(** The launches that a start may come to. *)
Definition launches (opts : StartOptions) (k : M StartModelHostResult) : Prop :=
  ∃ manifest, k = launch manifest opts ∧ mh_name manifest = so_name opts ∧ modelHostBindRefusal manifest = None ∧
    ∀ m, so_manifest opts = Some (Ok m) → m = manifest.

Lemma start_comes inFlight opts : comes_to (launches opts) (start inFlight opts).
Proof.
  unfold startModelHost, done.
  assert (∀ manifest, (∀ m, so_manifest opts = Some (Ok m) → m = manifest) → comes_to (launches opts)
    (if negb (bool_decide (mh_name manifest = so_name opts))
     then done (failure ("modelHostStart workload mismatch: expected " +:+ so_name opts +:+ ", got " +:+ mh_name manifest))
     else invalid ← perform (CValidateSpec manifest);
       match invalid with
       | Some error => done (failure error)
       | None =>
           match modelHostBindRefusal manifest with
           | Some refusal => done (failure refusal)
           | None =>
               (match so_manifest opts with
                | Some _ => merged ← mergeDiskManagedByLabel oracle manifest; perform (CSaveManifest merged);; mret tt
                | None => mret tt
                end);;
               match inFlight with
               | Some hash =>
                   joined ← joinInFlightModelHostStart oracle hash (specHash computeModelHostSpecHash manifest) (so_name opts); done joined
               | None => launch manifest opts
               end
           end
       end)) as Hrest.
  { intros manifest Hm. unfold done. destruct (bool_decide _) eqn:En; cbn [negb]; [to_prop|apply comes_quiet; bare_auto].
    apply comes_seq; [bare_auto|]. intros [error|]; [apply comes_quiet; bare_auto|].
    destruct (modelHostBindRefusal manifest) eqn:Eb; [apply comes_quiet; bare_auto|].
    apply comes_seq; [unfold mergeDiskManagedByLabel; bare_auto|]. intros _.
    destruct inFlight; [apply comes_quiet; unfold joinInFlightModelHostStart; bare_auto|].
    apply comes_as. by exists manifest. }
  destruct (so_manifest opts) as [[m|e]|].
  - intros s s' r E. apply (Hrest m) in E; [done|by intros ? [= ->]].
  - apply comes_quiet. by apply appends_still.
  - apply comes_seq; [bare_auto|]. intros m. by apply Hrest.
Qed.

Lemma start_fate inFlight opts w fs s' r pid :
  start inFlight opts (mkSt w fs [] None None) = (s', r) → spawned pid (obs s') →
  ∃ manifest res, mh_name manifest = so_name opts ∧ modelHostBindRefusal manifest = None ∧
    (∀ m, so_manifest opts = Some (Ok m) → m = manifest) ∧ r = Ok res ∧ accounted manifest pid (obs s') res.
Proof.
  assert (∀ l, Forall bare l → Forall spawns_none l ∧ Forall writes_none l) as Hbare.
  { intros l H. split; (eapply Forall_impl; [exact H|]); by intros o []. }
  intros E Hsp. apply start_comes in E as (pre&[Hpre Hw]%Hbare&[Eo|(k&sx&(manifest&->&Hname&Hbind&Hm)&Eo&E)]).
  { rewrite Eo in Hsp. by destruct (spawned_none _ _ Hpre Hsp). }
  apply launch_fate in E as (seg&Eo2&Hfate). rewrite Eo in Eo2. cbn [obs app] in Eo2. rewrite Eo2 in *.
  assert (spawned pid seg) as Hseg.
  { destruct Hsp as (b&a&e&[Hin|Hin]%elem_of_app); [|by exists b, a, e]. exfalso.
    rewrite Forall_forall in Hpre. exact (Hpre _ Hin I). }
  destruct (Hfate pid Hseg) as (res&->&before&b&a&e&after&->&Hres). exists manifest, res. split_and!; [done..|].
  exists (pre ++ before), b, a, e, after. rewrite <-app_assoc. split; [done|].
  destruct (sr_ok res); [done|]. destruct Hres as (?&?&Hw2). split_and!; [done..|]. by apply Forall_app.
Qed.

(** C29 (functional): whatever the outside does, when starting a ModelHost spawns
    a process, it spawns that one only, and returns: either with success, after the
    process was seen running, its endpoint answered ready and its launch record
    was written, the process never signalled; or with a failure that names the
    process, which was told to go, no launch record having been written. *)
Theorem child_accounted inFlight opts w fs s' r pid :
  start inFlight opts (mkSt w fs [] None None) = (s', r) → spawned pid (obs s') →
  ∃ manifest res, mh_name manifest = so_name opts ∧ r = Ok res ∧ accounted manifest pid (obs s') res.
Proof. intros E Hsp. destruct (start_fate _ _ _ _ _ _ _ E Hsp) as (m&res&?&_&_&?&?). by exists m, res. Qed.

(** ** Hosts beyond the machine *)

Local Abbreviation status := (statusModelHost oracle date_valid sidecar_path).

Lemma foreign_record_unread st s :
  ho_host st ∉ SIDECAR_HOSTS → f_state (files s) = Some (Some (host_state_json st)) →
  (status s).2 = Ok (mkStatusResult false None None false) ∧
  (f_starting (files s) = None →
     (stop s).2 = Ok (mkStopResult true None None) ∧ obs (stop s).1 = obs s ++ [OReadState None; OReadStarting None]).
Proof.
  intros Hhost Hf.
  assert (readModelHostState date_valid (f_state (files s)) = None) as Hread.
  { rewrite Hf, host_state_reads_back. unfold HostState_valid. rewrite (bool_decide_false (ho_host st ∈ SIDECAR_HOSTS)) by done.
    by rewrite andb_false_r. }
  assert (readState date_valid s =
    (mkSt (world s) (files s) (obs s ++ [OReadState None]) (v_child s) (v_starting s), Ok None)) as Hs0 by (by rewrite <-Hread).
  split.
  - unfold statusModelHost. by rewrite eff_bind_eq, Hs0.
  - intros Hs. unfold stopModelHost. rewrite eff_bind_eq, Hs0. unfold stopStartingRecord. rewrite eff_bind_eq.
    set (s1 := mkSt _ _ _ _ _). assert (readStarting date_valid s1 =
      (mkSt (world s) (files s) (obs s1 ++ [OReadStarting None]) (v_child s) (v_starting s), Ok None)) as Hs1.
    { assert (readModelHostStarting date_valid (f_starting (files s1)) = None) as H by (cbn; by rewrite Hs). by rewrite <-H. }
    rewrite Hs1. split; [done|]. cbn. by rewrite <-app_assoc.
Qed.

(** A ModelHost whose endpoint is on a host that the records do not
    know, which [allowExternalBind] permits, starts with success and is then out
    of sight: its launch record never reads back, so its status is not running,
    and stopping it reports success and signals nothing. *)
Theorem external_host_untracked inFlight opts manifest w fs s' res pid :
  start inFlight opts (mkSt w fs [] None None) = (s', Ok res) → spawned pid (obs s') → sr_ok res = true →
  so_manifest opts = Some (Ok manifest) → hs_host (mh_spec manifest) ∉ SIDECAR_HOSTS →
  ∃ st, OCall (CWrite StateFile (host_state_json st)) (Ok tt) ∈ obs s' ∧ ho_pid st = pid ∧
    ∀ s, f_state (files s) = Some (Some (host_state_json st)) →
      (status s).2 = Ok (mkStatusResult false None None false) ∧
      (f_starting (files s) = None →
         (stop s).2 = Ok (mkStopResult true None None) ∧ obs (stop s).1 = obs s ++ [OReadState None; OReadStarting None]).
Proof.
  intros E Hsp Hok Hm Hhost. destruct (start_fate _ _ _ _ _ _ _ E Hsp) as (m&?&_&_&Em&[= <-]&before&b&a&e&after&->&Hres).
  rewrite Hok in Hres. specialize (Em manifest Hm) as <-. destruct Hres as (_&_&(st&Hst&Hpid&_&Hh&_)&_).
  exists st. split_and!; [|done|].
  - apply elem_of_app. right. by right.
  - intros s Hf. apply (foreign_record_unread st); [by rewrite Hh|done].
Qed.
End lifecycle.

Module HostExample.
Definition spec0 : ModelHostSpec :=
  mkHostSpec "llamacpp" "local" true "/opt/bin" None "10.0.0.7" 8080 ["org/model.gguf"] [] Never 60 None (Some true).
Definition manifest0 : ModelHostManifest := mkModelHost "w" ∅ spec0.
Definition opts0 : StartOptions := mkStartOptions "w" None (Some (Ok manifest0)) false.

(** A machine on which the engine comes up. *)
Definition oracle (c : Call) (wf : unit * Files) : unit * Files * result (Resp c) :=
  (wf, match c return result (Resp c) with
       | CNow => Ok "2026-01-01T00:00:00.000Z"
       | CLoadManifest _ => Err "no such workload"
       | CValidateSpec _ => Ok None
       | CProbe _ => Ok Held
       | CStartMs _ | CMtime _ => Ok None
       | CStartMsMany _ => Ok []
       | CCommand _ | CReadProcessCommand _ => Ok None
       | CFindListener _ _ => Ok None
       | CAlive _ | CAborted => Ok false
       | CProbeReady _ _ _ => Ok (true, ["org/model.gguf"])
       | CRaceProbeReady _ _ _ => Ok (Some (true, ["org/model.gguf"]))
       | CBuildBoot _ _ => Ok (mkBoot "/opt/bin/llama-server" [] None)
       | CSpawn _ _ _ => Ok (Some 4242)
       | CExitCode _ => Ok None
       | CJoin => Ok None
       | _ => Ok tt
       end).

Definition path (f : Sidecar) : string := match f with StateFile => "s" | PidFile => "p" | StartingFile => "g" end.
Definition run : St unit * result StartModelHostResult :=
  startModelHost oracle (λ _, true) (λ _, "h") path "/run" (λ _, None) None opts0 (mkSt tt (mkFiles None None None) [] None None).

(** Where the spawn is in the run. *)
Lemma run_spawned : spawned 4242 (obs run.1).
Proof.
  exists "/opt/bin/llama-server", [], []. assert (nth_error (obs run.1) 8 = Some (OCall (CSpawn "/opt/bin/llama-server" [] []) (Ok (Some 4242)))) as H
    by (vm_compute; reflexivity).
  apply list_elem_of_In. exact (nth_error_In _ _ H).
Qed.

Definition res0 : StartModelHostResult := mkStartResult true (Some 4242) None None.

Lemma host_run_ok : run = (run.1, Ok res0).
Proof. vm_compute. reflexivity. Qed.

Lemma child_accounted_witness :
  ∃ manifest res, mh_name manifest = "w" ∧ Ok res0 = Ok res ∧
    accounted (λ _, "h") manifest 4242 (obs run.1) res.
Proof. exact (child_accounted oracle _ _ _ _ _ None opts0 tt _ _ _ 4242 host_run_ok run_spawned). Defined.

Lemma external_host_untracked_witness :
  ∃ st, OCall (CWrite StateFile (host_state_json st)) (Ok tt) ∈ obs run.1 ∧ ho_pid st = 4242 ∧
    ∀ s : St unit, f_state (files s) = Some (Some (host_state_json st)) →
      (statusModelHost oracle (λ _, true) path s).2 = Ok (mkStatusResult false None None false) ∧
      (f_starting (files s) = None →
         (stopModelHost oracle (λ _, true) path s).2 = Ok (mkStopResult true None None) ∧
         obs (stopModelHost oracle (λ _, true) path s).1 = obs s ++ [OReadState None; OReadStarting None]).
Proof.
  refine (external_host_untracked oracle _ _ _ _ _ None opts0 manifest0 tt _ _ res0 4242 host_run_ok run_spawned _ _ _);
    [reflexivity|reflexivity|].
  change ("10.0.0.7" ∉ SIDECAR_HOSTS). by apply (bool_decide_eq_false_1 _).
Defined.
End HostExample.
