(* ===== verification/Admission.v ===== *)
(** * Workloads: admission against a node's memory budget

    packages/core/src/residency/admission.ts and
    packages/remote/src/workload/admission.ts: the arithmetic of reservations,
    the three refusals with their messages, and what a workload is estimated to
    need.  [toFixed] and the models directory are parameters. *)

From S2P Require Import Prelude JsText WorkloadTypes.
From Stdlib Require Import QArith.

#[local] Open Scope string_scope.
#[local] Open Scope list_scope.
#[local] Open Scope Z_scope.

(** ** residency/admission.ts *)

Record AdmissionReservation := mkReservation { rv_name : string; rv_memory : Num }.

Definition MEMORY_BUDGET_HEADROOM_RATIO : Q := 3 # 4.
Definition GIB : Q := inject_Z (1024 ^ 3).

(** The budget, when it is a finite number and not negative. *)
Definition isFiniteBudgetGiB (value : option Num) : option Q :=
  match value with
  | Some (Fin q) => if Qle_bool 0 q then Some q else None
  | _ => None
  end.

Definition capacityBudgetGiB (memBytes : Q) : Q := (memBytes / GIB * MEMORY_BUDGET_HEADROOM_RATIO)%Q.

Definition sumReservationGiB (reservations : list AdmissionReservation) : Num :=
  foldl (λ sum r, num_add sum (num_max0 (rv_memory r))) (Fin 0) reservations.

Inductive FiniteBudgetAdmission :=
| AdmitOk (reservedAfterGiB : Num) (budgetGiB : option Q)
| InvalidReservation (invalid : list AdmissionReservation)
| UnknownBudget (reservedAfterGiB : Num)
| OverBudget (reservedAfterGiB : Num) (budgetGiB : Q) (contributors : list AdmissionReservation).

Definition isInvalidReservationQuantity (value : Num) : bool :=
  match value with Fin q => negb (Qle_bool 0 q) | _ => true end.

Definition admitAgainstFiniteBudget (budgetGiB : option Num) (living : list AdmissionReservation)
    (incoming : AdmissionReservation) (forceAdmit : bool) : FiniteBudgetAdmission :=
  let all := living ++ [incoming] in
  let invalid := filter (λ r, isInvalidReservationQuantity (rv_memory r) = true) all in
  if negb (bool_decide (length invalid = 0%nat)) then InvalidReservation invalid
  else
    let contributors := filter (λ r, num_gt (rv_memory r) (Fin 0) = true) all in
    let reservedAfterGiB := sumReservationGiB contributors in
    if forceAdmit then AdmitOk reservedAfterGiB (isFiniteBudgetGiB budgetGiB)
    else if num_is_zero reservedAfterGiB then AdmitOk reservedAfterGiB (isFiniteBudgetGiB budgetGiB)
    else
      match isFiniteBudgetGiB budgetGiB with
      | None => UnknownBudget reservedAfterGiB
      | Some budget =>
          if num_gt reservedAfterGiB (Fin budget) then OverBudget reservedAfterGiB budget contributors
          else AdmitOk reservedAfterGiB (Some budget)
      end.

(** ** workload/admission.ts *)

Definition expected_memory (m : ModelRun) : Num := default (Fin 0) (sp_expectedMemoryGiB (mr_spec m)).
Definition run_node (m : ModelRun) : string := sp_node (mr_spec m).
Definition run_enabled (m : ModelRun) : bool := sp_enabled (mr_spec m).

(** The manifests that count, in order: enabled, on this node. *)
Definition counted (sameNode : string → bool) (manifests : list ModelRun) : list ModelRun :=
  filter (λ m, sameNode (run_node m) = true ∧ run_enabled m = true) manifests.

Definition reservation_of (m : ModelRun) : AdmissionReservation := mkReservation (mr_name m) (expected_memory m).

Definition reservedForNodeBreakdown (manifests : list ModelRun) (sameNode : string → bool) : list AdmissionReservation :=
  filter (λ r, num_gt (rv_memory r) (Fin 0) = true) (reservation_of <$> counted sameNode manifests).

Definition sumReservedForNode (manifests : list ModelRun) (nodeName : string) : Num :=
  foldl (λ sum r, num_add sum (rv_memory r)) (Fin 0)
    (reservedForNodeBreakdown manifests (λ other, bool_decide (other = nodeName))).

(** [totalmem] is the memory of the machine that asks. *)
Definition defaultNodeBudgetGiB (totalmem : Q) (nodeBudgetFromManifest : option Num) (nodeMemBytes : option Num) : Num :=
  match nodeBudgetFromManifest with
  | Some budget => budget
  | None =>
      match nodeMemBytes with
      | Some (Fin bytes) => Fin (capacityBudgetGiB (if Qle_bool bytes 0 then totalmem else bytes))
      | _ => Fin (capacityBudgetGiB totalmem)
      end
  end.

Inductive AdmissionResult :=
| RAdmit (reservedAfter : Num) (budget : option Q)
| RInvalidReservation (invalid : list AdmissionReservation) (reason : string)
| RUnknownBudget (reservedAfter : Num) (reason : string)
| ROverBudget (reservedAfter : Num) (budget : Q) (reason : string) (breakdown : list AdmissionReservation).

Section messages.
(** [n.toFixed(1)] and [String(n)]. *)
Context (toFixed1 num_string : Num → string).

Definition over_budget_levers (supportsForceAdmit : bool) : string :=
  if supportsForceAdmit then
    "the llamactl.io/force-admit annotation (set by apply --force) is the explicit legacy override that admits past this budget; free capacity with --evict <name> or raise the node budget (NodeRun spec.budget.memoryGiB, default 75% of total RAM)"
  else
    "free capacity by removing or disabling other workloads on this node, or raise the node budget (NodeRun spec.budget.memoryGiB, default 75% of total RAM)".

Definition formatAdmissionBreakdown (nodeName : string) (budget : Q) (incoming : AdmissionReservation)
    (living : list AdmissionReservation) (reservedAfter : Num) (supportsForceAdmit : bool) : string :=
  let livingDesc :=
    match living with
    | [] => "(none)"
    | _ => String.concat ", " ((λ i, "'" +:+ rv_name i +:+ "' " +:+ toFixed1 (rv_memory i) +:+ " GiB") <$> living)
    end in
  String.concat ". "
    ["node '" +:+ nodeName +:+ "' would reserve " +:+ toFixed1 reservedAfter +:+ " GiB after adding '" +:+
       rv_name incoming +:+ "' (" +:+ toFixed1 (rv_memory incoming) +:+ " GiB) to existing: " +:+ livingDesc;
     "Budget is " +:+ toFixed1 (Fin budget) +:+ " GiB";
     over_budget_levers supportsForceAdmit].

Definition formatInvalidReservationReason (nodeName : string) (invalid : list AdmissionReservation)
    (supportsForceAdmit : bool) : string :=
  let names :=
    String.concat ", " ((λ i, "'" +:+ rv_name i +:+ "' (" +:+ num_string (rv_memory i) +:+ ")") <$> invalid) in
  let forceNote :=
    if supportsForceAdmit then
      " The llamactl.io/force-admit annotation overrides a finite budget, it does not launder an invalid quantity"
    else "" in
  String.concat ". "
    ["node '" +:+ nodeName +:+ "' has invalid reservation quantities: " +:+ names;
     "expectedMemoryGiB must be a finite non-negative number; refusing to sum NaN or infinities into the accounting";
     "Correct spec.resources.expectedMemoryGiB in the named manifests." +:+ forceNote].

Definition formatUnknownBudgetReason (nodeName : string) (incoming : AdmissionReservation) (reservedAfter : Num)
    (supportsForceAdmit : bool) : string :=
  String.concat ". "
    (["node '" +:+ nodeName +:+ "' memory budget is unknown; refusing to charge '" +:+ rv_name incoming +:+ "' (" +:+
        toFixed1 (rv_memory incoming) +:+ " GiB) against it (declared reservations after this workload: " +:+
        toFixed1 reservedAfter +:+ " GiB)";
      "Declare a budget with NodeRun spec.budget.memoryGiB, or make the target node's reported memory reachable (llamactl node test "
        +:+ nodeName +:+ ")"]
     ++ if supportsForceAdmit then ["The llamactl.io/force-admit annotation is the explicit escape hatch"] else []).

Definition computeNodeBudget (nodeName : string) (nodeBudgetGiB : option Num) (livingManifests : list ModelRun)
    (incoming : ModelRun) (forceAdmit supportsForceAdmit : bool) (sameNode : string → bool) : AdmissionResult :=
  let rawLiving := reservation_of <$> counted sameNode livingManifests in
  let livingItems := reservedForNodeBreakdown livingManifests sameNode in
  let incomingItem := reservation_of incoming in
  match admitAgainstFiniteBudget nodeBudgetGiB rawLiving incomingItem forceAdmit with
  | AdmitOk reservedAfter budget => RAdmit reservedAfter budget
  | InvalidReservation invalid =>
      RInvalidReservation invalid (formatInvalidReservationReason nodeName invalid supportsForceAdmit)
  | UnknownBudget reservedAfter =>
      RUnknownBudget reservedAfter (formatUnknownBudgetReason nodeName incomingItem reservedAfter supportsForceAdmit)
  | OverBudget reservedAfter budget contributors =>
      ROverBudget reservedAfter budget
        (formatAdmissionBreakdown nodeName budget incomingItem livingItems reservedAfter supportsForceAdmit) contributors
  end.
End messages.

(** ** Estimates *)

(** What [statSync] and [readdirSync] find at a path; [FsBroken] throws. *)
Inductive FsTree := FsFile (size : Z) | FsDir (size : Z) (entries : list FsTree) | FsBroken.

Fixpoint pathSizeBytes (t : FsTree) : option Z :=
  match t with
  | FsFile size => Some size
  | FsBroken => None
  | FsDir _ entries =>
      (fix sum (l : list FsTree) (total : Z) : option Z :=
         match l with
         | [] => Some total
         | e :: l' => n ← pathSizeBytes e; sum l' (total + n)
         end) entries 0
  end.

Definition MODEL_HOST_MEMORY_HEURISTIC_MULTIPLIER : Z := 2.

Section estimates.
(** What is at a path under the models directory. *)
Context (models : string → FsTree).

Definition estimateWorkloadMemoryGiB (manifest : ModelRun) : option Q :=
  if sp_gateway (mr_spec manifest) then None
  else
    match sp_targetKind (mr_spec manifest) with
    | TAlias => None
    | TRel =>
        match models (sp_target (mr_spec manifest)) with
        | FsFile size | FsDir size _ => Some (inject_Z size * (11 # 10) / GIB)%Q
        | FsBroken => None
        end
    end.

Definition estimateModelHostMemoryGiB (manifest : ModelHostManifest) : option Num :=
  match hs_expectedMemoryGiB (mh_spec manifest) with
  | Some declared => Some declared
  | None =>
      match head (hs_rels (mh_spec manifest)) with
      | None | Some "" => None
      | Some rel =>
          (λ bytes, Fin (inject_Z (bytes * MODEL_HOST_MEMORY_HEURISTIC_MULTIPLIER) / GIB)%Q) <$> pathSizeBytes (models rel)
      end
  end.
End estimates.

(** ** Workloads: what admission guarantees

    The decision is exact: quantities that are no memory are refused, and
    otherwise the sum of all reservations is compared with the budget, which an
    explicit override or an empty sum alone can do without. *)

From Stdlib Require Import QArith Lqa.

#[local] Open Scope list_scope.
#[local] Open Scope Z_scope.

(** ** What admission means *)

(** The arithmetic sum of what is reserved. *)
Fixpoint total_memory (l : list AdmissionReservation) : Q :=
  match l with
  | [] => 0
  | r :: l' => (match rv_memory r with Fin q => q | _ => 0 end + total_memory l')%Q
  end.

Definition sound (r : AdmissionReservation) : Prop := ∃ q, rv_memory r = Fin q ∧ (0 <= q)%Q.

Lemma negb_Qle p q : negb (Qle_bool p q) = true ↔ (q < p)%Q.
Proof.
  rewrite negb_true_iff. split; intros H.
  - apply Qnot_le_lt. intros Hle. apply Qle_bool_iff in Hle. congruence.
  - apply not_true_iff_false. intros Hle%Qle_bool_iff. by apply Qlt_not_le in H.
Qed.

Lemma invalid_sound r : isInvalidReservationQuantity (rv_memory r) = false ↔ sound r.
Proof.
  unfold sound, isInvalidReservationQuantity. destruct (rv_memory r) as [q| | |].
  - rewrite negb_false_iff, Qle_bool_iff. naive_solver.
  - naive_solver.
  - naive_solver.
  - naive_solver.
Qed.

Lemma invalid_none l : filter (λ r, isInvalidReservationQuantity (rv_memory r) = true) l = [] ↔ Forall sound l.
Proof.
  rewrite Forall_forall. split.
  - intros E r Hr. apply invalid_sound, not_true_iff_false. intros Hi. exact (filter_nil_not_elem_of _ l r E Hi Hr).
  - intros H. destruct (filter _ l) as [|r k] eqn:E; [done|].
    assert (r ∈ filter (λ r, isInvalidReservationQuantity (rv_memory r) = true) l) as Hr by (rewrite E; apply list_elem_of_here).
    apply list_elem_of_filter in Hr as [Hi Hr]. by rewrite (proj2 (invalid_sound r) (H r Hr)) in Hi.
Qed.

Lemma total_memory_nonneg l : Forall sound l → (0 <= total_memory l)%Q.
Proof.
  induction 1 as [|r l (q&Hq&Hpos) _ IH]; simpl; [lra|]. rewrite Hq. lra.
Qed.

(** Leaving out what reserves nothing changes no sum. *)
Lemma sum_contributors l a :
  Forall sound l →
  ∃ t, foldl (λ sum r, num_add sum (num_max0 (rv_memory r))) (Fin a)
         (filter (λ r, num_gt (rv_memory r) (Fin 0) = true) l) = Fin t ∧ (t == a + total_memory l)%Q.
Proof.
  intros H. revert a. induction H as [|r l (q&Hq&Hpos) _ IH]; intros a; [by exists a; simpl; split; [|lra]|].
  rewrite filter_cons. cbn [total_memory]. rewrite Hq. cbn [num_gt]. case_decide as Hgt.
  - apply negb_Qle in Hgt. cbn [foldl]. rewrite Hq. cbn [num_max0].
    assert (Qle_bool 0 q = true) as -> by (apply Qle_bool_iff; lra). cbn [num_add].
    destruct (IH (a + q)%Q) as (t&Ht&E). exists t. split; [exact Ht|]. rewrite E. lra.
  - destruct (IH a) as (t&Ht&E). exists t. split; [exact Ht|].
    assert (¬ (0 < q)%Q) as Hz by (intros Hlt; apply Hgt; by apply negb_Qle). rewrite E. lra.
Qed.

(** The decision, whatever it is. *)
Lemma admission_cases budget living incoming force :
  let all := living ++ [incoming] in
  match admitAgainstFiniteBudget budget living incoming force with
  | InvalidReservation l => l = filter (λ r, isInvalidReservationQuantity (rv_memory r) = true) all ∧ ¬ Forall sound all
  | AdmitOk reserved b =>
      Forall sound all ∧ b = isFiniteBudgetGiB budget ∧ ∃ t, reserved = Fin t ∧ (t == total_memory all)%Q ∧
      (force = true ∨ (total_memory all == 0)%Q ∨ ∃ B, b = Some B ∧ (total_memory all <= B)%Q)
  | UnknownBudget reserved =>
      Forall sound all ∧ isFiniteBudgetGiB budget = None ∧ force = false ∧
      ∃ t, reserved = Fin t ∧ (t == total_memory all)%Q ∧ (0 < total_memory all)%Q
  | OverBudget reserved B _ =>
      Forall sound all ∧ isFiniteBudgetGiB budget = Some B ∧ force = false ∧
      ∃ t, reserved = Fin t ∧ (t == total_memory all)%Q ∧ (B < total_memory all)%Q
  end.
Proof.
  intros all. unfold admitAgainstFiniteBudget. fold all. destruct (bool_decide _) eqn:Eb; to_prop; cbn [negb].
  2: { split; [done|]. intros Hall. apply Eb. by rewrite (proj2 (invalid_none all)). }
  assert (Forall sound all) as Hall by (apply invalid_none, nil_length_inv; exact Eb).
  destruct (sum_contributors all 0 Hall) as (t&Ht&Et). unfold sumReservationGiB. rewrite Ht.
  assert (t == total_memory all)%Q as E by (rewrite Et; lra). pose proof (total_memory_nonneg all Hall) as Hpos.
  destruct force; [by eauto 10|]. cbn [num_is_zero]. destruct (Qeq_bool t 0) eqn:Ez.
  { apply Qeq_bool_iff in Ez. split_and!; [done..|]. exists t. split_and!; [done..|]. right. left. lra. }
  apply Qeq_bool_neq in Ez. destruct (isFiniteBudgetGiB budget) as [B|] eqn:EB.
  - cbn [num_gt]. destruct (negb (Qle_bool t B)) eqn:Eo.
    + apply negb_Qle in Eo. split_and!; [done..|]. exists t. split_and!; [done..|]. lra.
    + assert (¬ (B < t)%Q) by (intros Hlt%negb_Qle; congruence). split_and!; [done..|].
      exists t. split_and!; [done..|]. right. right. exists B. split; [done|lra].
  - split_and!; [done..|]. exists t. split_and!; [done..|]. lra.
Qed.

(** A workload is refused as invalid just when some quantity
    is no finite memory, naming all of those; otherwise its admission, and the
    sum reported with it, are those of the exact sum of all quantities: admitted
    when it is forced, when nothing is reserved, or when there is a finite
    budget that covers the sum; refused as over budget when there is one that
    does not, and for want of a budget when there is none. *)
Theorem admission_exact budget living incoming force :
  let all := living ++ [incoming] in
  match admitAgainstFiniteBudget budget living incoming force with
  | InvalidReservation l => l = filter (λ r, isInvalidReservationQuantity (rv_memory r) = true) all ∧ ¬ Forall sound all
  | AdmitOk reserved b =>
      Forall sound all ∧ b = isFiniteBudgetGiB budget ∧ ∃ t, reserved = Fin t ∧ (t == total_memory all)%Q ∧
      (force = true ∨ (total_memory all == 0)%Q ∨ ∃ B, b = Some B ∧ (total_memory all <= B)%Q)
  | UnknownBudget reserved =>
      Forall sound all ∧ isFiniteBudgetGiB budget = None ∧ force = false ∧
      ∃ t, reserved = Fin t ∧ (t == total_memory all)%Q ∧ (0 < total_memory all)%Q
  | OverBudget reserved B _ =>
      Forall sound all ∧ isFiniteBudgetGiB budget = Some B ∧ force = false ∧
      ∃ t, reserved = Fin t ∧ (t == total_memory all)%Q ∧ (B < total_memory all)%Q
  end.
Proof. apply admission_cases. Qed.
