(* ===== verification/WorkloadStore.v ===== *)
(** * Workloads: the manifest store

    packages/remote/src/workload/store.ts: what the files of the workloads
    directory mean to each of its readers.  [YAML] and the schemas are not
    modelled: a file is what they make of it. *)

From S2P Require Import Prelude JsSort JsText WorkloadTypes Admission.
From Stdlib Require Import Ascii.

#[local] Open Scope string_scope.
#[local] Open Scope list_scope.
#[local] Open Scope Z_scope.

(** [legacy]: its apiVersion is the older llamactl.io/v1.  [FNodeRun]: with what
    the schema of ModelRuns says of it.  [FUnreadable]: parsing throws, or the
    kind is another one. *)
Inductive FileContent :=
| FModelRun (legacy : bool) (m : ModelRun)
| FModelHost (legacy : bool) (h : ModelHostManifest)
| FNodeRun (n : NodeRun) (msg : string)
| FUnreadable (msg : string).

(** The files under the directory by their relative paths, in the order of
    [readdirSync], and what is under the models directory. *)
Record StoreView := mkStore { sv_files : list (string * FileContent); sv_models : string → FsTree }.

Definition ends_with (suffix s : string) : bool :=
  startsWith (String.rev suffix) (String.rev s).

(** [path.resolve]: the segments of an absolute path, last first. *)
Fixpoint normalize (segments acc : list string) : list string :=
  match segments with
  | [] => acc
  | s :: rest =>
      normalize rest
        (if bool_decide (s = "") || bool_decide (s = ".") then acc
         else if bool_decide (s = "..") then tail acc
         else s :: acc)
  end.

Section store.
Context (dir : list string) (localeCompare : string → string → Z).

Definition path_text (segments : list string) : string := "/" +:+ String.concat "/" segments.

(** [resolve(workloadPath(name, dir))] *)
Definition workloadPath (name : string) : list string :=
  reverse (normalize (dir ++ split "/"%char (name +:+ ".yaml")) []).

(** The path within the directory; an error when it escapes it. *)
Definition path_within (what : string) (path : list string) : result string :=
  let resolvedDir := reverse (normalize dir []) in
  if bool_decide (take (length resolvedDir) path = resolvedDir)
  then Ok (String.concat "/" (drop (length resolvedDir) path))
  else Err (what +:+ " path escapes workloads dir: " +:+ path_text path +:+ " not within " +:+ path_text resolvedDir).

Definition ensureWorkloadPathWithinDir (path : list string) : result string := path_within "workload" path.
Definition ensureModelHostPathWithinDir (path : list string) : result string := path_within "ModelHost" path.

Definition file_at (path : string) (view : StoreView) : option FileContent :=
  snd <$> find (λ f, bool_decide (f.1 = path)) (sv_files view).

Definition loadWorkloadByNameAny (name : string) (view : StoreView) : result (ModelRun + ModelHostManifest) :=
  path ← ensureWorkloadPathWithinDir (workloadPath name);
  if bool_decide (path = "") then Err "EISDIR: illegal operation on a directory, read"
  else
    match file_at path view with
    | None => Err ("workload manifest not found: " +:+ path_text (workloadPath name))
    | Some (FModelRun _ m) => Ok (inl m)
    | Some (FModelHost _ h) => Ok (inr h)
    | Some (FNodeRun _ msg) | Some (FUnreadable msg) => Err msg
    end.

(** The entries of the directory itself that end in .yaml. *)
Definition yaml_entries (view : StoreView) : list FileContent :=
  snd <$> filter (λ f, char_free "/"%char f.1 = true ∧ ends_with ".yaml" f.1 = true) (sv_files view).

Definition by_name (a b : ModelRun) : Z := localeCompare (mr_name a) (mr_name b).

Definition listWorkloads (view : StoreView) : list ModelRun :=
  js_sort by_name (omap (λ c, match c with FModelRun false m => Some m | _ => None end) (yaml_entries view)).

Definition projectModelHostToModelRun (models : string → FsTree) (h : ModelHostManifest) : option ModelRun :=
  let spec := mh_spec h in
  match head (hs_rels spec) with
  | None => None
  | Some rel =>
      Some (mkModelRun (mh_name h) ∅
              (mkSpec (hs_node spec) (hs_enabled spec) TRel rel (hs_extraArgs spec) [] (hs_restartPolicy spec)
                 (estimateModelHostMemoryGiB models h) (Some (mkEndpoint (Some (hs_host spec)) (Some (hs_port spec))))
                 (Some (hs_binary spec)) (hs_timeoutSeconds spec) false false false)
              None)
  end.

Definition listAnyWorkloadsForAdmission (view : StoreView) : list ModelRun :=
  js_sort by_name
    (omap (λ c, match c with
                | FModelRun _ m => Some m
                | FModelHost _ h => projectModelHostToModelRun (sv_models view) h
                | FNodeRun _ _ | FUnreadable _ => None
                end) (yaml_entries view)).

(** modelhost-store.ts and noderun-store.ts: the other kinds of the directory. *)
Definition listModelHosts (view : StoreView) : list ModelHostManifest :=
  js_sort (λ a b, localeCompare (mh_name a) (mh_name b))
    (omap (λ c, match c with FModelHost false h => Some h | _ => None end) (yaml_entries view)).

Definition listNodeRuns (view : StoreView) : list NodeRun :=
  js_sort (λ a b, localeCompare (nr_name a) (nr_name b))
    (omap (λ c, match c with FNodeRun n _ => Some n | _ => None end) (yaml_entries view)).

(** What the schema says of another kind is not modelled. *)
Definition loadModelHostByName (name : string) (view : StoreView) : result ModelHostManifest :=
  path ← ensureModelHostPathWithinDir (workloadPath name);
  if bool_decide (path = "") then Err "EISDIR: illegal operation on a directory, read"
  else
    match file_at path view with
    | None => Err ("ModelHost " +:+ name +:+ " not found at " +:+ path_text (workloadPath name))
    | Some (FModelHost _ h) => Ok h
    | Some _ => Err "the manifest is not a ModelHost"
    end.

(** [atomicWriteFileSync]: the file is replaced, or it is a new one. *)
Definition put_file (path : string) (content : FileContent) (view : StoreView) : StoreView :=
  mkStore
    (if existsb (λ f, bool_decide (f.1 = path)) (sv_files view)
     then (λ f, if bool_decide (f.1 = path) then (path, content) else f) <$> sv_files view
     else sv_files view ++ [(path, content)])
    (sv_models view).
End store.

(** ** References to the environment

    store.ts: [${env:NAME}] in the texts of a manifest, where NAME matches
    [A-Z_][A-Z0-9_]*.  The listings do not interpolate, [loadWorkloadByName]
    does. *)

Definition name_start (c : ascii) : bool :=
  let n := N_of_ascii c in ((65 <=? n) && (n <=? 90))%N || bool_decide (c = "_"%char).
Definition name_char (c : ascii) : bool :=
  name_start c || (let n := N_of_ascii c in (48 <=? n) && (n <=? 57))%N.

Fixpoint take_while (p : ascii → bool) (s : string) : string * string :=
  match s with
  | String c s' => if p c then let '(a, b) := take_while p s' in (String c a, b) else ("", s)
  | EmptyString => ("", "")
  end.

Definition REF_OPEN : string := "${env:".

(** A reference at the start: its name. *)
Definition reference_at (s : string) : option string :=
  rest ← strip_prefix REF_OPEN s;
  let '(name, after) := take_while name_char rest in
  match name, after with
  | String c _, String "}" _ => if name_start c then Some name else None
  | _, _ => None
  end.

Section interpolate.
Context (env : string → option string).

(** [skip]: characters of a reference that was replaced. *)
Fixpoint interpolate_from (skip : nat) (s : string) : result string :=
  match s with
  | EmptyString => Ok ""
  | String c s' =>
      match skip with
      | S n => interpolate_from n s'
      | O =>
          match reference_at s with
          | None => rest ← interpolate_from 0 s'; Ok (String c rest)
          | Some name =>
              match env name with
              | None => Err ("workload manifest references env:" +:+ name +:+ " but it is not set")
              | Some value => rest ← interpolate_from (String.length name + 6) s'; Ok (value +:+ rest)
              end
          end
      end
  end.
Definition interpolateEnvRefs (raw : string) : result string := interpolate_from 0 raw.

Fixpoint interpolate_all (l : list string) : result (list string) :=
  match l with
  | [] => Ok []
  | x :: l' => y ← interpolateEnvRefs x; ys ← interpolate_all l'; Ok (y :: ys)
  end.

Definition interpolate_opt (s : option string) : result (option string) :=
  match s with None => Ok None | Some x => y ← interpolateEnvRefs x; Ok (Some y) end.

Fixpoint interpolate_workers (l : list ModelRunWorker) : result (list ModelRunWorker) :=
  match l with
  | [] => Ok []
  | w :: l' =>
      node ← interpolateEnvRefs (wk_node w); host ← interpolateEnvRefs (wk_rpcHost w); args ← interpolate_all (wk_extraArgs w);
      ws ← interpolate_workers l';
      Ok (mkWorker node host (wk_rpcPort w) args (wk_timeoutSeconds w) :: ws)
  end.

Fixpoint interpolate_entries (l : list (string * string)) : result (list (string * string)) :=
  match l with
  | [] => Ok []
  | (k, v) :: l' => v' ← interpolateEnvRefs v; l'' ← interpolate_entries l'; Ok ((k, v') :: l'')
  end.

(** The texts of a ModelRun that the code reads; its status is replaced by the
    one who loads it. *)
Definition interpolate_run (m : ModelRun) : result ModelRun :=
  let s := mr_spec m in
  annotations ← interpolate_entries (map_to_list (mr_annotations m));
  node ← interpolateEnvRefs (sp_node s);
  target ← interpolateEnvRefs (sp_target s);
  args ← interpolate_all (sp_extraArgs s);
  workers ← interpolate_workers (sp_workers s);
  endpoint ← match sp_endpoint s with
             | None => Ok None
             | Some ep => host ← interpolate_opt (ep_host ep); Ok (Some (mkEndpoint host (ep_port ep)))
             end;
  binary ← interpolate_opt (sp_binary s);
  Ok (mkModelRun (mr_name m) (list_to_map annotations)
        (mkSpec node (sp_enabled s) (sp_targetKind s) target args workers (sp_restartPolicy s) (sp_expectedMemoryGiB s) endpoint
           binary (sp_timeoutSeconds s) (sp_gateway s) (sp_allowExternalBind s) (sp_pinned s))
        (mr_status m)).
End interpolate.

(** What the schema says of another kind or version is not modelled. *)
Definition loadWorkloadByName (env : string → option string) (dir : list string) (name : string) (view : StoreView) : result ModelRun :=
  path ← ensureWorkloadPathWithinDir dir (workloadPath dir name);
  match file_at path view with
  | None => Err ("workload manifest not found: " +:+ path_text (workloadPath dir name))
  | Some (FModelRun false m) => interpolate_run env m
  | Some (FUnreadable msg) | Some (FNodeRun _ msg) => Err msg
  | Some _ => Err "the manifest is not a ModelRun"
  end.
