(* ===== verification/NodeDeadline.v ===== *)
(** * Deadlines of calls to nodes

    packages/remote/src/workload/node-rpc-deadline.ts, for calls of any type: the
    wrapped procedure of a node fails when its deadline passes first, and from
    then on every wrapped call to that node fails at once for the rest of the
    pass.  What is sent to a node is kept in order. *)

From S2P Require Import Prelude JsMap JsText.

#[local] Open Scope string_scope.
#[local] Open Scope list_scope.
#[local] Open Scope Z_scope.

Definition DEFAULT_NODE_RPC_QUERY_TIMEOUT_MS : Z := 10000.
Definition DEFAULT_NODE_RPC_MUTATE_TIMEOUT_MS : Z := 30000.

(** [None] leaves mutations unbounded. *)
Record NodeRpcTimeouts := mkTimeouts { queryMs : Z; mutateMs : option Z }.

Record NodeRpcTimeoutError := mkTimeoutError { te_node : string; te_procedure : string; te_timeoutMs : Z }.

Definition timeout_message (e : NodeRpcTimeoutError) : string :=
  "node '" +:+ te_node e +:+ "' did not respond to " +:+ te_procedure e +:+ " within " +:+ pretty (te_timeoutMs e) +:+ " ms".

Definition skipped_message (node procedure : string) (earlier : NodeRpcTimeoutError) : string :=
  "node '" +:+ node +:+ "' skipped " +:+ procedure +:+ " for this pass: " +:+ te_procedure earlier +:+ " timed out after " +:+
  pretty (te_timeoutMs earlier) +:+ " ms".

Inductive Verb := Query | Mutate.

(** A call that [withNodeRpcDeadline] wraps: of which node, procedure and verb. *)
Record Procedure := mkProcedure { pr_node : string; pr_name : string; pr_verb : Verb }.

Definition proc_label (p : Procedure) : string :=
  pr_name p +:+ match pr_verb p with Query => ".query" | Mutate => ".mutate" end.

(** What came of a call that was made. *)
Inductive Fate := Answered (ok : bool) | TimedOut.

Section deadline.
Context {C : Type} {Resp : C → Type} {W : Type} (timeouts : NodeRpcTimeouts) (procedure : C → option Procedure).
(** What a call does and answers, and whether its deadline passes first. *)
Context (raw : ∀ c : C, W → W * result (Resp c)) (late : C → W → bool).

(** [unreachable]: the messages of the errors thrown here, by which
    [instanceof] tells them. *)
Record Pass := mkPass {
  ps_world : W; timedOut : list (string * NodeRpcTimeoutError); sent : list (C * Fate); unreachable : list string
}.

Definition deadline_of (p : Procedure) : option Z := match pr_verb p with Query => Some (queryMs timeouts) | Mutate => mutateMs timeouts end.

(** The call as the program makes it. *)
Definition deadline (c : C) (s : Pass) : Pass * result (Resp c) :=
  let direct := let '(w, r) := raw c (ps_world s) in (mkPass w (timedOut s) (sent s ++ [(c, Answered (is_ok r))]) (unreachable s), r) in
  match procedure c with
  | None => direct
  | Some p =>
      match deadline_of p with
      | None => direct
      | Some timeoutMs =>
          match jm_get (timedOut s) (pr_node p) with
          | Some earlier =>
              let message := skipped_message (pr_node p) (proc_label p) earlier in
              (mkPass (ps_world s) (timedOut s) (sent s) (unreachable s ++ [message]), Err message)
          | None =>
              if late c (ps_world s) then
                let err := mkTimeoutError (pr_node p) (proc_label p) timeoutMs in
                let '(w, _) := raw c (ps_world s) in
                (mkPass w (jm_set (timedOut s) (pr_node p) err) (sent s ++ [(c, TimedOut)]) (unreachable s ++ [timeout_message err]),
                 Err (timeout_message err))
              else direct
          end
      end
  end.

Definition isNodeUnreachableError (message : string) (s : Pass) : bool := bool_decide (message ∈ unreachable s).

(** ** One timeout silences a node *)

(** The node of a call with a deadline. *)
Definition bounded_node (c : C) : option string :=
  match procedure c with
  | Some p => if deadline_of p then Some (pr_node p) else None
  | None => None
  end.

(** After a call to a node timed out no other bounded call is made to it; the
    node is remembered. *)
Definition orderly (s : Pass) : Prop :=
  ∀ pre c post, sent s = pre ++ (c, TimedOut) :: post →
    ∃ n, bounded_node c = Some n ∧ is_Some (jm_get (timedOut s) n) ∧ Forall (λ o, bounded_node o.1 ≠ Some n) post.

(** What happens to a pass: nodes stay timed out, what was sent stays sent, and
    what is sent to a node with a deadline is sent before it times out. *)
Definition grows (s s' : Pass) : Prop :=
  (∀ n e, jm_get (timedOut s) n = Some e → jm_get (timedOut s') n = Some e) ∧
  (∃ seg, sent s' = sent s ++ seg ∧ ∀ o n, o ∈ seg → bounded_node o.1 = Some n → jm_get (timedOut s) n = None) ∧
  (orderly s → orderly s').

#[export] Instance grows_preorder : PreOrder grows.
Proof.
  split.
  - intros s. split; [done|]. split; [|done]. exists []. rewrite app_nil_r. split; [done|]. intros c n H. by apply elem_of_nil in H.
  - intros s1 s2 s3 (H1&(seg1&E1&S1)&O1) (H2&(seg2&E2&S2)&O2). split; [auto|]. split; [|auto]. exists (seg1 ++ seg2).
    split; [by rewrite E2, E1, app_assoc|]. intros c n [Hc|Hc]%elem_of_app Hn; [by eapply S1|].
    specialize (S2 c n Hc Hn). destruct (jm_get (timedOut s1) n) as [e|] eqn:E; [|done]. by rewrite (H1 _ _ E) in S2.
Qed.

(** A call that is made, to a node not timed out. *)
Lemma grows_one s w timed c fate u :
  (∀ n, bounded_node c = Some n → jm_get (timedOut s) n = None) →
  (∀ n e, jm_get (timedOut s) n = Some e → jm_get timed n = Some e) →
  (fate = TimedOut → ∃ n, bounded_node c = Some n ∧ is_Some (jm_get timed n)) →
  grows s (mkPass w timed (sent s ++ [(c, fate)]) u).
Proof.
  intros Hfresh Hkeep Hfate. split; [exact Hkeep|]. split.
  { exists [(c, fate)]. split; [done|]. intros o n ->%list_elem_of_singleton. apply Hfresh. }
  intros Ho pre c' post E. cbn [sent timedOut] in *. destruct (decide (post = [])) as [->|Hp].
  - apply app_inj_tail in E as [E [= <- ->]]. destruct (Hfate eq_refl) as (n&?&?). exists n. by split_and!.
  - destruct (exists_last Hp) as (post'&o&->). rewrite app_comm_cons, app_assoc in E. apply app_inj_tail in E as [E <-].
    destruct (Ho _ _ _ E) as (n&Hn&[e He]&Hf). exists n. split; [done|]. split; [eauto|]. apply Forall_app. split; [done|].
    constructor; [|done]. cbn. intros Hc. by rewrite (Hfresh n Hc) in He.
Qed.

Lemma deadline_grows c s : grows s (deadline c s).1.
Proof.
  unfold deadline. destruct (procedure c) as [p|] eqn:Ep; [destruct (deadline_of p) as [ms|] eqn:Ed|].
  - assert (bounded_node c = Some (pr_node p)) as Hb by (unfold bounded_node; by rewrite Ep, Ed).
    destruct (jm_get (timedOut s) (pr_node p)) as [earlier|] eqn:Et; [split; [done|]; split; [|done]|].
    { exists []. cbn. rewrite app_nil_r. split; [done|]. intros ? ? H. by apply elem_of_nil in H. }
    destruct (late c (ps_world s)), (raw c (ps_world s)) as [w r]; cbn [fst]; apply grows_one; try congruence.
    + intros n e He. rewrite jm_get_set. case_decide; [congruence|done].
    + intros _. exists (pr_node p). split; [done|]. rewrite jm_get_set. by case_decide.
  - destruct (raw c (ps_world s)) as [w r]. apply grows_one; [|done..]. unfold bounded_node. by rewrite Ep, Ed.
  - destruct (raw c (ps_world s)) as [w r]. apply grows_one; [|done..]. unfold bounded_node. by rewrite Ep.
Qed.

(** The error says that the node is out of reach exactly when the call was not
    answered. *)
Lemma deadline_error c s s' msg p ms :
  procedure c = Some p → deadline_of p = Some ms → deadline c s = (s', Err msg) →
  isNodeUnreachableError msg s' = false → ∃ w, raw c (ps_world s) = (w, Err msg).
Proof.
  intros Ep Ed E Hu. unfold deadline in E. rewrite Ep, Ed in E.
  destruct (jm_get (timedOut s) (pr_node p)) as [earlier|].
  { injection E as <- <-. unfold isNodeUnreachableError in Hu. cbn in Hu. to_prop. set_solver. }
  destruct (late c (ps_world s)), (raw c (ps_world s)) as [w r]; injection E as <- E.
  - subst msg. unfold isNodeUnreachableError in Hu. cbn in Hu. to_prop. set_solver.
  - subst r. by exists w.
Qed.
End deadline.

Arguments Pass C W : clear implicits.
Arguments mkPass {C W}.
Arguments ps_world {C W}. Arguments timedOut {C W}. Arguments sent {C W}. Arguments unreachable {C W}.
