(* ===== verification/NodeRun.v ===== *)
(** * NodeRuns: converging the infra packages of a node

    packages/remote/src/workload/noderun-apply.ts and noderun-reconciler.ts: the
    plan, its execution, and the pass over the manifests of the store.  The node,
    the artifact resolver and the clock are an arbitrary oracle; the resolver's
    own question for the platform of the node is part of its answer. *)

From S2P Require Import Prelude JsMap JsText WorkloadTypes Admission WorkloadStore NodeDeadline InfraLayout.

#[local] Open Scope string_scope.
#[local] Open Scope list_scope.
#[local] Open Scope Z_scope.

Inductive NodeRunAction :=
| AInstall (pkg version reason : string)
| AActivate (pkg version : string)
| AUninstallPkg (pkg : string)
| AUninstallVersion (pkg version : string)
| ASkip (pkg version : string).
#[export] Instance NodeRunAction_eq : EqDecision NodeRunAction.
Proof. solve_decision. Defined.

Definition is_skip (a : NodeRunAction) : bool := match a with ASkip _ _ => true | _ => false end.

(** ** Planning *)

Definition observed_of (live : list InstalledInfra) (pkg : string) : option InstalledInfra :=
  find (λ r, bool_decide (in_pkg r = pkg)) live.

Definition planInfraItem (live : list InstalledInfra) (item : NodeRunInfraItem) : list NodeRunAction :=
  match observed_of live (ni_pkg item) with
  | None => [AInstall (ni_pkg item) (ni_version item) "missing"]
  | Some observed =>
      (if bool_decide (in_active observed = Some (ni_version item)) then ASkip (ni_pkg item) (ni_version item)
       else if bool_decide (ni_version item ∈ in_versions observed) then AActivate (ni_pkg item) (ni_version item)
       else AInstall (ni_pkg item) (ni_version item) "version-mismatch") ::
      (AUninstallVersion (ni_pkg item) <$> filter (λ v, v ≠ ni_version item) (in_versions observed))
  end.

Definition desired_pkgs (infra : list NodeRunInfraItem) : list string := ni_pkg <$> infra.

Definition planNodeRun (infra : list NodeRunInfraItem) (live : list InstalledInfra) : list NodeRunAction :=
  (infra ≫= planInfraItem live) ++
  (AUninstallPkg ∘ in_pkg <$> filter (λ r, in_pkg r ∉ desired_pkgs infra) live).

(** ** Executing *)

Inductive InfraCall :=
| INow
| IGetClient (node : string)
| IList (node : string)
| IResolve (node pkg version : string)                          (** the artifact: its url and digest *)
| IInstall (node pkg version tarballUrl sha256 : string)        (** with activate and skipIfPresent *)
| IActivate (node pkg version : string)
| IUninstall (node pkg : string) (version : option string)
| ISave (path : string).                                        (** writing a manifest *)

Definition IResp (c : InfraCall) : Type :=
  match c with
  | INow => string
  | IList _ => list InstalledInfra
  | IResolve _ _ _ => string * string
  | IInstall _ _ _ _ _ => InstallResult
  | _ => unit
  end.

Record NodeRunActionOutcome := mkOutcome { oc_action : NodeRunAction; oc_ok : bool; oc_error : option string }.

Record NodeRunApplyResult := mkNodeRunResult {
  na_actions : list NodeRunAction; na_outcomes : list NodeRunActionOutcome; na_status : NodeRunStatus; na_error : option string
}.

Definition observedSummary (infra : list NodeRunInfraItem) (live : list InstalledInfra) : list ObservedInfra :=
  (λ row, mkObserved (in_pkg row) (default "" (in_active row))
            (bool_decide (is_Some (in_active row)) && bool_decide (in_pkg row ∈ desired_pkgs infra))) <$> live.

(** Not null, undefined or empty. *)
Definition said (s : option string) : option string := match s with Some "" => None | s => s end.

Section apply.
Context {S : Type} (oracle : ∀ c : InfraCall, S → S * result (IResp c)).
Notation M := (eff S).
Definition perform (c : InfraCall) : M (IResp c) := oracle c.

Definition runNodeRunAction (node : string) (action : NodeRunAction) : M NodeRunActionOutcome :=
  match action with
  | ASkip _ _ => mret (mkOutcome action true None)
  | AInstall pkg version _ =>
      '(tarballUrl, sha256) ← perform (IResolve node pkg version);
      result ← perform (IInstall node pkg version tarballUrl sha256);
      mret (match result with
            | InstallOk _ _ => mkOutcome action true None
            | InstallBad _ error => mkOutcome action false (Some error)
            end)
  | AActivate pkg version => perform (IActivate node pkg version);; mret (mkOutcome action true None)
  | AUninstallVersion pkg version => perform (IUninstall node pkg (Some version));; mret (mkOutcome action true None)
  | AUninstallPkg pkg => perform (IUninstall node pkg None);; mret (mkOutcome action true None)
  end.

(** The outcomes so far and the first error. *)
Fixpoint run_actions (node : string) (actions : list NodeRunAction) (outcomes : list NodeRunActionOutcome)
    (firstError : option string) : M (list NodeRunActionOutcome * option string) :=
  match actions with
  | [] => mret (outcomes, firstError)
  | action :: rest =>
      caught ← try_catch (o ← runNodeRunAction node action; mret (o, false))
                 (λ message, mret (mkOutcome action false (Some message), true));
      let '(outcome, thrown) := (caught : NodeRunActionOutcome * bool) in
      run_actions node rest (outcomes ++ [outcome])
        (if thrown then (match firstError with Some e => Some e | None => oc_error outcome end)
         else if negb (oc_ok outcome) && bool_decide (said firstError = None) then oc_error outcome else firstError)
  end.

Definition dryRunResult (infra : list NodeRunInfraItem) (live : list InstalledInfra) (actions : list NodeRunAction) :
    M NodeRunApplyResult :=
  t1 ← perform INow; t2 ← perform INow;
  mret (mkNodeRunResult actions ((λ a, mkOutcome a true None) <$> actions)
          (mkNodeRunStatus (if forallb is_skip actions then NConverged else NDrift) (observedSummary infra live) t1
             [mkNodeCond "Planned" "True" (Some "dry-run") None t2]) None).

Definition applyNodeRun (manifest : NodeRun) (dryRun : bool) : M NodeRunApplyResult :=
  let infra := nr_infra manifest in
  live ← perform (IList (nr_node manifest));
  let actions := planNodeRun infra live in
  if dryRun then dryRunResult infra live actions
  else
    '(outcomes, firstError) ← run_actions (nr_node manifest) actions [] None;
    postLive ← perform (IList (nr_node manifest));
    let anyFailure := existsb (λ o, negb (oc_ok o)) outcomes in
    t1 ← perform INow; t2 ← perform INow;
    mret (mkNodeRunResult actions outcomes
            (mkNodeRunStatus (if anyFailure then NFailed else NConverged) (observedSummary infra postLive) t1
               [mkNodeCond "Applied" (if anyFailure then "False" else "True")
                  (Some (if anyFailure then "partial-failure" else "converged")) (said firstError) t2])
            (said firstError)).
End apply.

(** ** A pass over the store *)

Record NodeRunReconcileReport := mkNodeReport {
  np_name : string; np_node : string; np_phase : NodeRunPhase; np_actions : Z; np_errors : Z; np_error : option string;
  np_unreachable : bool
}.

Definition infra_procedure (c : InfraCall) : option Procedure :=
  match c with
  | IList node => Some (mkProcedure node "infraList" Query)
  | IInstall node _ _ _ _ => Some (mkProcedure node "infraInstall" Mutate)
  | IActivate node _ _ => Some (mkProcedure node "infraActivate" Mutate)
  | IUninstall node _ _ => Some (mkProcedure node "infraUninstall" Mutate)
  | _ => None
  end.

Section pass.
(** The world of the outside holds the store, which may change whenever
    something is asked. *)
Context {W : Type} (raw : ∀ c : InfraCall, W * StoreView → W * StoreView * result (IResp c)).
Context (late : InfraCall → W * StoreView → bool) (localeCompare : string → string → Z).
(** What the schema makes of a manifest to be saved. *)
Context (NodeRunSchema : NodeRun → result unit).
Context (rpc_queryMs : option Z) (filter_opt : option (NodeRun → bool)).

Definition nodeRunRpcTimeouts : NodeRpcTimeouts :=
  mkTimeouts (default DEFAULT_NODE_RPC_QUERY_TIMEOUT_MS rpc_queryMs) None.

Notation P := (Pass InfraCall (W * StoreView)).
Notation M := (eff P).

Definition bounded : ∀ c : InfraCall, P → P * result (IResp c) := deadline nodeRunRpcTimeouts infra_procedure raw late.

Definition put_manifest (manifest : NodeRun) (msg : string) : M unit :=
  modify (λ s : P, mkPass (fst (ps_world s), put_file (nr_name manifest +:+ ".yaml") (FNodeRun manifest msg) (snd (ps_world s)))
                     (timedOut s) (sent s) (unreachable s)).

(** [msg]: what the schema of ModelRuns would say of the file. *)
Definition saveNodeRun (manifest : NodeRun) : M unit :=
  (λ s, (s, NodeRunSchema manifest));;
  perform bounded (ISave (nr_name manifest +:+ ".yaml"));;
  put_manifest manifest "not a ModelRun".

Definition with_status (status : NodeRunStatus) (n : NodeRun) : NodeRun :=
  mkNodeRun (nr_name n) (nr_labels n) (nr_node n) (nr_budget n) (nr_infra n) (Some status).

Definition count_of {A} (p : A → bool) (l : list A) : Z := Z.of_nat (length (filter (λ x, p x = true) l)).

Definition report_of (manifest : NodeRun) (result : NodeRunApplyResult) : NodeRunReconcileReport :=
  mkNodeReport (nr_name manifest) (nr_node manifest) (ns_phase (na_status result))
    (count_of (λ a, negb (is_skip a)) (na_actions result)) (count_of (λ o, negb (oc_ok o)) (na_outcomes result))
    (na_error result) false.

Definition failed_report (manifest : NodeRun) (message : string) (unreachable : bool) : NodeRunReconcileReport :=
  mkNodeReport (nr_name manifest) (nr_node manifest) NFailed 0 1 (Some message) unreachable.

(** The reports pushed, and by how much the errors grew. *)
Definition reconcileNodeRun (manifest : NodeRun) : M (list NodeRunReconcileReport * Z) :=
  applied ← try_catch
    (perform bounded (IGetClient (nr_node manifest));;
     result ← applyNodeRun bounded manifest false;
     mret (inl result))
    (λ message, mret (inr message));
  match applied with
  | inr message =>
      s ← gets (isNodeUnreachableError message);
      mret ([failed_report manifest message s], 1)
  | inl result =>
      let report := report_of manifest result in
      let errors := if 0 <? np_errors report then 1 else 0 in
      saved ← try_catch (saveNodeRun (with_status (na_status result) manifest);; mret None) (λ message, mret (Some message));
      match saved with
      | None => mret ([report], errors)
      | Some message =>
          s ← gets (isNodeUnreachableError message);
          mret ([report; failed_report manifest message s], errors + 1)
      end
  end.

Fixpoint reconcile_each (manifests : list NodeRun) (reports : list NodeRunReconcileReport) (errors : Z) :
    M (list NodeRunReconcileReport * Z) :=
  match manifests with
  | [] => mret (reports, errors)
  | m :: rest =>
      '(more, n) ← reconcileNodeRun m;
      reconcile_each rest (reports ++ more) (errors + n)
  end.

Definition reconcileNodeRunsOnce : eff (W * StoreView) (list NodeRunReconcileReport * Z) := λ w,
  let manifests := listNodeRuns localeCompare (snd w) in
  let filtered := match filter_opt with Some p => filter (λ m, p m = true) manifests | None => manifests end in
  let '(s, r) := reconcile_each filtered [] 0 (mkPass w [] [] []) in (ps_world s, r).
End pass.

(** ** The node behind the client

    The procedures of the node's router over its tree.  A call may be lost before
    or after it took effect. *)

Section served.
Context {Bytes Content : Type} (localeCompare : string → string → Z) (lower : string → string).
Context (fetcher : string → result Bytes) (sha256 : Bytes → string) (extractor : Bytes → result Content).
Context (copy : Content → Content * option string).
Context (node : string) (clock : string) (resolveArtifact : string → string → result (string * string)).

Inductive Loss := Kept | LostBefore (e : string) | LostAfter (e : string).
Context (loss : InfraCall → Tree Content → Loss).

Definition drop_result {A} (r : Tree Content * result A) : Tree Content * result unit := (r.1, _ ← r.2; Ok tt).

Definition node_answers (c : InfraCall) (t : Tree Content) : Tree Content * result (IResp c) :=
  match c with
  | INow => (t, Ok clock)
  | IList n => (t, if bool_decide (n = node) then Ok (listInstalledInfra localeCompare t) else Err "unknown node")
  | IResolve n pkg v => (t, resolveArtifact pkg v)
  | IInstall n pkg v url digest =>
      if bool_decide (n = node) then infraInstall lower fetcher sha256 extractor copy pkg v url digest t else (t, Err "unknown node")
  | IActivate n pkg v => if bool_decide (n = node) then infraActivate pkg v t else (t, Err "unknown node")
  | IUninstall n pkg v => if bool_decide (n = node) then drop_result (infraUninstall pkg v t) else (t, Err "unknown node")
  | _ => (t, Ok tt)
  end.

Definition infra_node (c : InfraCall) (t : Tree Content) : Tree Content * result (IResp c) :=
  match loss c t with
  | Kept => node_answers c t
  | LostBefore e => (t, Err e)
  | LostAfter e => ((node_answers c t).1, Err e)
  end.
End served.
