(* ===== verification/NodeRunProps.v ===== *)
(** * NodeRuns: what a converged node holds

    Theorems about NodeRun.v against an interface: what the infra procedures of a
    node promise ([InfraHost]).  InfraLayoutProps.v shows that the node's own code
    keeps the promise. *)

From S2P Require Import Prelude Trace JsText WorkloadTypes WorkloadStore NodeDeadline InfraLayout NodeRun.

#[local] Open Scope string_scope.
#[local] Open Scope list_scope.
#[local] Open Scope Z_scope.

(** ** The interface

    Packages with the versions they have and the active one. *)

Notation View := (gmap string (gset string * option string)).

Definition add_version (pkg version : string) (V : View) : View :=
  <[pkg := ({[version]} ∪ from_option fst ∅ (V !! pkg), Some version)]> V.
Definition make_active (pkg version : string) (V : View) : View :=
  <[pkg := (from_option fst ∅ (V !! pkg), Some version)]> V.
Definition drop_version (pkg version : string) (V : View) : View :=
  alter (λ '(vs, a), (vs ∖ {[version]}, if bool_decide (a = Some version) then None else a)) pkg V.

(** Rows that list a view. *)
Definition lists (rows : list InstalledInfra) (V : View) : Prop :=
  NoDup (in_pkg <$> rows) ∧
  (∀ row, row ∈ rows → V !! in_pkg row = Some (list_to_set (in_versions row), in_active row) ∧
     ∀ v, in_active row = Some v → v ∈ in_versions row) ∧
  ∀ pkg, is_Some (V !! pkg) → pkg ∈ in_pkg <$> rows.

Class InfraHost {S : Type} (oracle : ∀ c : InfraCall, S → S * result (IResp c)) (node : string) := {
  host_ok : S → Prop;                (** a well-formed host *)
  host_view : S → View;
  host_proper : string → Prop;       (** names that a version may have *)
  host_keeps c s : host_ok s →
    (match c with
     | IInstall n _ v _ _ | IActivate n _ v => n = node → host_proper v
     | _ => True
     end) → host_ok (oracle c s).1;
  host_still c s : host_ok s →
    (match c with IInstall n _ _ _ _ | IActivate n _ _ | IUninstall n _ _ => n ≠ node | _ => True end) →
    host_view (oracle c s).1 = host_view s;
  host_lists s s' rows : host_ok s → oracle (IList node) s = (s', Ok rows) →
    lists rows (host_view s) ∧ Forall (λ row, Forall host_proper (in_versions row)) rows;
  host_install pkg v url sha s s' state active : host_ok s → host_proper v →
    oracle (IInstall node pkg v url sha) s = (s', Ok (InstallOk state active)) → host_view s' = add_version pkg v (host_view s);
  host_activate pkg v s s' r : host_ok s → host_proper v →
    oracle (IActivate node pkg v) s = (s', Ok r) → host_view s' = make_active pkg v (host_view s);
  host_drop pkg v s s' r : host_ok s → host_proper v →
    oracle (IUninstall node pkg (Some v)) s = (s', Ok r) → host_view s' = drop_version pkg v (host_view s);
  host_remove pkg s s' r : host_ok s →
    oracle (IUninstall node pkg None) s = (s', Ok r) → host_view s' = delete pkg (host_view s)
}.

(** ** The plan *)

Definition act_pkg (a : NodeRunAction) : string :=
  match a with AInstall p _ _ | AActivate p _ | AUninstallPkg p | AUninstallVersion p _ | ASkip p _ => p end.

Definition act_version (a : NodeRunAction) : option string :=
  match a with AInstall _ v _ | AActivate _ v | AUninstallVersion _ v => Some v | _ => None end.

(** What an action that succeeds does. *)
Definition effect (V : View) (a : NodeRunAction) : View :=
  match a with
  | AInstall p v _ => add_version p v V
  | AActivate p v => make_active p v V
  | AUninstallPkg p => delete p V
  | AUninstallVersion p v => drop_version p v V
  | ASkip _ _ => V
  end.

Lemma effect_other V a p : act_pkg a ≠ p → effect V a !! p = V !! p.
Proof.
  destruct a; cbn [act_pkg effect]; intros H; unfold add_version, make_active, drop_version;
    rewrite ?lookup_insert_ne, ?lookup_delete_ne, ?lookup_alter_ne; done.
Qed.

Lemma effects_other l V p : Forall (λ a, act_pkg a ≠ p) l → foldl effect V l !! p = V !! p.
Proof. intros H. revert V. induction H as [|a l Ha _ IH]; intros V; [done|]. cbn. by rewrite IH, effect_other. Qed.

Definition dropped (l : list string) (a : option string) : option string :=
  match a with Some v => if bool_decide (v ∈ l) then None else Some v | None => None end.

Lemma drops_all p vs a l V :
  V !! p = Some (vs, a) → foldl effect V (AUninstallVersion p <$> l) !! p = Some (vs ∖ list_to_set l, dropped l a).
Proof.
  revert vs a V. induction l as [|v l IH]; intros vs a V HV; [cbn; rewrite HV, difference_empty_L; by destruct a|].
  change (foldl effect (effect V (AUninstallVersion p v)) (AUninstallVersion p <$> l) !! p =
    Some (vs ∖ list_to_set (v :: l), dropped (v :: l) a)).
  rewrite (IH (vs ∖ {[v]}) (if bool_decide (a = Some v) then None else a));
    [|cbn [effect]; unfold drop_version; by rewrite lookup_alter_eq, HV].
  f_equal. f_equal; [set_solver|]. destruct a as [x|]; cbn [dropped]; [|done].
  destruct (decide (x = v)) as [->|Hne].
  - rewrite (bool_decide_true (Some v = Some v)) by done. by rewrite bool_decide_true by left.
  - rewrite (bool_decide_false (Some x = Some v)) by congruence. cbn [dropped].
    rewrite (bool_decide_ext (x ∈ v :: l) (x ∈ l)); [done|]. rewrite elem_of_cons. tauto.
Qed.

Lemma drops_spec p version vs l V :
  V !! p = Some (vs, Some version) → version ∉ l →
  foldl effect V (AUninstallVersion p <$> l) !! p = Some (vs ∖ list_to_set l, Some version).
Proof. intros HV Hnot. rewrite (drops_all _ _ _ _ _ HV). cbn. by rewrite bool_decide_false. Qed.

(** The actions for one desired package bring it to the one version. *)
Lemma item_converges live V item :
  lists live V →
  foldl effect V (planInfraItem live item) !! ni_pkg item = Some ({[ni_version item]}, Some (ni_version item)).
Proof.
  intros (Hnd&Hrows&Hall). unfold planInfraItem, observed_of.
  destruct (find _ live) as [row|] eqn:Ef.
  - apply find_some in Ef as [Hin Hp]. to_prop. apply list_elem_of_In in Hin. destruct (Hrows row Hin) as [HV Hact]. rewrite Hp in HV.
    set (first := if bool_decide (in_active row = _) then _ else _). cbn [foldl].
    assert (∃ vs, effect V first !! ni_pkg item = Some (vs, Some (ni_version item)) ∧
      ∀ v, v ∈ vs ↔ v = ni_version item ∨ v ∈ in_versions row) as (vs&Hfirst&Hvs).
    { unfold first. destruct (bool_decide (in_active row = _)) eqn:Ea; to_prop; [|destruct (bool_decide (_ ∈ _)) eqn:Ev; to_prop];
        eexists; cbn [effect]; unfold make_active, add_version; rewrite ?lookup_insert_eq, HV, ?Ea; (split; [reflexivity|]);
        cbn [from_option fst]; intros v; rewrite ?elem_of_union, elem_of_list_to_set; [|..]; set_solver. }
    rewrite (drops_spec (ni_pkg item) (ni_version item) vs _ (effect V first)); [|done|by intros [? _]%list_elem_of_filter].
    f_equal. f_equal. apply set_eq. intros v. rewrite elem_of_difference, elem_of_list_to_set, list_elem_of_filter, Hvs, elem_of_singleton.
    destruct (decide (v = ni_version item)); naive_solver.
  - cbn [foldl effect]. unfold add_version. rewrite lookup_insert_eq. f_equal. f_equal.
    destruct (V !! ni_pkg item) as [[vs a]|] eqn:EV; [|set_solver].
    assert (ni_pkg item ∈ in_pkg <$> live) as (row&Hp&Hin)%list_elem_of_fmap by (apply Hall; rewrite EV; by eexists).
    eapply find_none in Ef; [|by apply list_elem_of_In]. to_prop. congruence.
Qed.

Lemma effect_cong V V' a p : V !! p = V' !! p → effect V a !! p = effect V' a !! p.
Proof.
  intros H. destruct (decide (act_pkg a = p)) as [<-|Hne]; [|by rewrite !effect_other].
  destruct a; cbn [act_pkg effect] in *; unfold add_version, make_active, drop_version;
    rewrite ?lookup_insert_eq, ?lookup_delete_eq, ?lookup_alter_eq, ?H; done.
Qed.

Lemma effects_cong l V V' p : V !! p = V' !! p → foldl effect V l !! p = foldl effect V' l !! p.
Proof. revert V V'. induction l as [|a l IH]; intros V V' H; [done|]. cbn. by apply IH, effect_cong. Qed.

Lemma plan_item_pkg live item : Forall (λ a, act_pkg a = ni_pkg item) (planInfraItem live item).
Proof.
  unfold planInfraItem. destruct (observed_of live _) as [row|]; [|by repeat constructor]. constructor.
  - destruct (bool_decide _); [done|]. by destruct (bool_decide _).
  - apply Forall_forall. by intros a (v&->&_)%list_elem_of_fmap.
Qed.

Lemma unique_pkgs_NoDup seen infra :
  unique_pkgs seen infra = true → NoDup (desired_pkgs infra) ∧ ∀ p, p ∈ desired_pkgs infra → p ∉ seen.
Proof.
  revert seen. induction infra as [|item infra IH]; intros seen H; [split; [constructor|intros p Hp; by apply elem_of_nil in Hp]|].
  cbn in H. destruct (bool_decide (ni_pkg item ∈ seen)) eqn:E; [done|]. to_prop. apply IH in H as [Hnd Hnot]. split.
  - constructor; [|done]. intros Hin. by apply (Hnot _ Hin), list_elem_of_here.
  - intros p [->|Hp]%elem_of_cons; [done|]. intros Hs. by apply (Hnot p Hp), list_elem_of_further.
Qed.

Definition wants (infra : list NodeRunInfraItem) (p : string) : option string :=
  ni_version <$> find (λ item, bool_decide (ni_pkg item = p)) infra.

(** The desired state: every package at its one version, nothing else. *)
Definition desired_at (infra : list NodeRunInfraItem) (p : string) : option (gset string * option string) :=
  (λ v, ({[v]}, Some v)) <$> wants infra p.

Lemma items_converge live V infra p :
  lists live V → NoDup (desired_pkgs infra) →
  foldl effect V (infra ≫= planInfraItem live) !! p =
    match wants infra p with Some v => Some ({[v]}, Some v) | None => V !! p end.
Proof.
  intros HV Hnd.
  assert (∀ V', V' !! p = V !! p → foldl effect V' (infra ≫= planInfraItem live) !! p =
    match wants infra p with Some v => Some ({[v]}, Some v) | None => V !! p end) as H; [|by apply H].
  induction infra as [|item infra IH]; intros V' E; [done|].
  change ((item :: infra) ≫= planInfraItem live) with (planInfraItem live item ++ (infra ≫= planInfraItem live)).
  rewrite foldl_app. apply NoDup_cons in Hnd as [Hnot Hnd]. unfold wants. cbn [find].
  destruct (decide (ni_pkg item = p)) as [<-|Hne].
  - rewrite bool_decide_true by done. cbn [fmap option_fmap option_map]. rewrite effects_other.
    + rewrite (effects_cong _ V' V) by done. by apply item_converges.
    + apply Forall_forall. intros a (x&Ha&Hx)%list_elem_of_bind Hp.
      pose proof (plan_item_pkg live x) as Hpk. rewrite Forall_forall in Hpk. specialize (Hpk a Ha). apply Hnot.
      rewrite <-Hp, Hpk. by apply list_elem_of_fmap_2.
  - rewrite (bool_decide_false (ni_pkg item = p)) by done. apply IH; [done|]. rewrite effects_other; [done|].
    eapply Forall_impl; [apply plan_item_pkg|]. cbn. by intros a ->.
Qed.

Lemma removes_spec l V p :
  foldl effect V (AUninstallPkg <$> l) !! p = if bool_decide (p ∈ l) then None else V !! p.
Proof.
  revert V. induction l as [|q l IH]; intros V; [done|]. change (AUninstallPkg <$> q :: l) with (AUninstallPkg q :: (AUninstallPkg <$> l)).
  cbn [foldl]. rewrite IH. cbn [effect]. destruct (bool_decide (p ∈ l)) eqn:E; to_prop.
  - by rewrite bool_decide_true by (by right).
  - destruct (decide (p = q)) as [->|Hne]; [rewrite bool_decide_true by left; by rewrite lookup_delete_eq|].
    rewrite (bool_decide_false (p ∈ q :: l)) by (intros [|]%elem_of_cons; done). by rewrite lookup_delete_ne.
Qed.

Lemma wants_desired infra p : is_Some (wants infra p) ↔ p ∈ desired_pkgs infra.
Proof.
  unfold wants. split.
  - intros [v Hv]. destruct (find _ infra) as [item|] eqn:E; [|done]. apply find_some in E as [Hin Hp]. to_prop.
    subst p. apply list_elem_of_fmap_2. by apply list_elem_of_In.
  - intros (item&->&Hin)%list_elem_of_fmap. destruct (find _ infra) as [x|] eqn:E; [by eexists|].
    eapply find_none in E; [|by apply list_elem_of_In]. to_prop. done.
Qed.

Lemma plan_converges infra live V :
  unique_pkgs [] infra = true → lists live V → ∀ p, foldl effect V (planNodeRun infra live) !! p = desired_at infra p.
Proof.
  intros Hu HV p. apply unique_pkgs_NoDup in Hu as [Hnd _]. unfold planNodeRun. rewrite foldl_app.
  rewrite list_fmap_compose, removes_spec. unfold desired_at.
  rewrite items_converge by done. destruct (wants infra p) as [v|] eqn:Ew; cbn [fmap option_fmap option_map].
  - rewrite bool_decide_false; [done|]. intros (row&->&[Hnot _]%list_elem_of_filter)%list_elem_of_fmap.
    apply Hnot, wants_desired. by eexists.
  - destruct (V !! p) as [x|] eqn:EV; [|by destruct (bool_decide _)]. rewrite bool_decide_true; [done|].
    destruct HV as (_&_&Hall). assert (p ∈ in_pkg <$> live) as (row&->&Hin)%list_elem_of_fmap by (apply Hall; rewrite EV; by eexists).
    apply list_elem_of_fmap_2, list_elem_of_filter. split; [|done]. intros Hd%wants_desired. rewrite Ew in Hd. by destruct Hd.
Qed.

Lemma filter_nothing {A} (P : A → Prop) `{∀ x, Decision (P x)} l : (∀ x, P x → x ∈ l → False) → filter P l = [].
Proof.
  intros Hl. induction l as [|x l IH]; [done|]. rewrite filter_cons_False; [|intros Hx; apply (Hl x Hx); left].
  apply IH. intros y Hy Hin. by apply (Hl y Hy); right.
Qed.

(** A converged host asks for nothing. *)
Lemma plan_settled infra live V :
  unique_pkgs [] infra = true → lists live V → (∀ p, V !! p = desired_at infra p) →
  planNodeRun infra live = (λ item, ASkip (ni_pkg item) (ni_version item)) <$> infra.
Proof.
  intros Hu HV Hd. pose proof (unique_pkgs_NoDup _ _ Hu) as [Hnd _]. unfold planNodeRun.
  assert (filter (λ r, in_pkg r ∉ desired_pkgs infra) live = []) as ->.
  { apply filter_nothing. intros row Hnot Hin. destruct HV as (_&Hrows&_). destruct (Hrows row Hin) as [E _].
    rewrite Hd in E. unfold desired_at in E. apply Hnot, wants_desired. destruct (wants infra (in_pkg row)); [by eexists|done]. }
  rewrite app_nil_r.
  assert (∀ item, item ∈ infra → planInfraItem live item = [ASkip (ni_pkg item) (ni_version item)]) as Hitem.
  { intros item Hin. unfold planInfraItem, observed_of.
    assert (wants infra (ni_pkg item) = Some (ni_version item)) as Hw.
    { unfold wants. clear -Hin Hnd. induction infra as [|x infra IH]; [by apply elem_of_nil in Hin|]. cbn [find].
      apply NoDup_cons in Hnd as [Hnot Hnd]. apply elem_of_cons in Hin as [->|Hin]; [by rewrite bool_decide_true|].
      rewrite bool_decide_false; [by apply IH|]. intros E. apply Hnot. rewrite E. by apply list_elem_of_fmap_2. }
    specialize (Hd (ni_pkg item)). unfold desired_at in Hd. rewrite Hw in Hd. cbn in Hd.
    destruct HV as (_&Hrows&Hall). destruct (find _ live) as [row|] eqn:Ef.
    - apply find_some in Ef as [Hr Hp]. to_prop. apply list_elem_of_In in Hr. destruct (Hrows row Hr) as [E _].
      rewrite Hp, Hd in E. injection E as Evs Ea. rewrite bool_decide_true by done.
      assert (filter (λ v, v ≠ ni_version item) (in_versions row) = []) as ->; [|done].
      apply filter_nothing. intros v Hne Hv. apply Hne. assert (v ∈ ({[ni_version item]} : gset string)) as Hs
        by (rewrite Evs; by apply elem_of_list_to_set). by apply elem_of_singleton in Hs.
    - assert (ni_pkg item ∈ in_pkg <$> live) as (row&Hp&Hr)%list_elem_of_fmap by (apply Hall; rewrite Hd; by eexists).
      eapply find_none in Ef; [|by apply list_elem_of_In]. to_prop. congruence. }
  clear -Hitem. induction infra as [|item infra IH]; [done|].
  change ((item :: infra) ≫= planInfraItem live) with (planInfraItem live item ++ (infra ≫= planInfraItem live)).
  rewrite Hitem by left. rewrite IH; [done|]. intros x Hx. apply Hitem. by right.
Qed.

(** ** Running the plan *)

Section host.
Context {S : Type} (oracle : ∀ c : InfraCall, S → S * result (IResp c)) (node : string) `{!InfraHost oracle node}.

Definition proper_action (a : NodeRunAction) : Prop := from_option host_proper True (act_version a).

(** An action that throws before it changes anything. *)
Definition idle (a : NodeRunAction) : Prop :=
  match a with AInstall pkg v _ => ∀ s, ∃ msg, (oracle (IResolve node pkg v) s).2 = Err msg | _ => False end.

Lemma action_run a s s' r :
  host_ok s → proper_action a → runNodeRunAction oracle node a s = (s', r) →
  host_ok s' ∧
  ((∃ o, r = Ok o ∧ oc_action o = a ∧ (oc_ok o = true → host_view s' = effect (host_view s) a)) ∨ (∃ e, r = Err e)) ∧
  (idle a → (∃ e, r = Err e) ∧ host_view s' = host_view s).
Proof.
  intros Hok Hproper E. destruct a as [pkg v reason|pkg v|pkg|pkg v|pkg v]; cbn [runNodeRunAction] in E; unfold perform in E.
  - apply bind_run in E as [(e&E&->)|(s1&[url sha]&E1&E)].
    + pose proof (host_keeps (IResolve node pkg v) s Hok I) as Hk. pose proof (host_still (IResolve node pkg v) s Hok I) as Hs.
      rewrite E in Hk, Hs. split; [done|]. split; [right; by eexists|]. intros _. split; [by eexists|done].
    + pose proof (host_keeps (IResolve node pkg v) s Hok I) as Hk. pose proof (host_still (IResolve node pkg v) s Hok I) as Hs.
      rewrite E1 in Hk, Hs. cbn in Hk, Hs.
      pose proof (host_keeps (IInstall node pkg v url sha) s1 Hk (λ _, Hproper)) as Hk2.
      apply bind_run in E as [(e&E2&->)|(s2&res&E2&E)]; rewrite E2 in Hk2; cbn in Hk2.
      * split; [done|]. split; [right; by eexists|]. intros Hi. destruct (Hi s) as [msg Hm]. by rewrite E1 in Hm.
      * injection E as <- <-. split; [done|]. split.
        -- left. eexists. split; [reflexivity|]. destruct res; cbn; (split; [done|]); [|done]. intros _.
           rewrite <-Hs. by eapply host_install.
        -- intros Hi. destruct (Hi s) as [msg Hm]. by rewrite E1 in Hm.
  - pose proof (host_keeps (IActivate node pkg v) s Hok (λ _, Hproper)) as Hk.
    apply bind_run in E as [(e&E&->)|(s1&u&E1&E)]; [rewrite E in Hk|rewrite E1 in Hk; injection E as <- <-];
      (split; [done|]; split; [|by intros []]); [right; by eexists|left].
    eexists. split; [reflexivity|]. split; [done|]. intros _. by eapply host_activate.
  - pose proof (host_keeps (IUninstall node pkg None) s Hok I) as Hk.
    apply bind_run in E as [(e&E&->)|(s1&u&E1&E)]; [rewrite E in Hk|rewrite E1 in Hk; injection E as <- <-];
      (split; [done|]; split; [|by intros []]); [right; by eexists|left].
    eexists. split; [reflexivity|]. split; [done|]. intros _. by eapply host_remove.
  - pose proof (host_keeps (IUninstall node pkg (Some v)) s Hok I) as Hk.
    apply bind_run in E as [(e&E&->)|(s1&u&E1&E)]; [rewrite E in Hk|rewrite E1 in Hk; injection E as <- <-];
      (split; [done|]; split; [|by intros []]); [right; by eexists|left].
    eexists. split; [reflexivity|]. split; [done|]. intros _. by eapply host_drop.
  - injection E as <- <-. split; [done|]. split; [|by intros []]. left. eexists. split; [reflexivity|]. by split.
Qed.

(** Every action has an outcome; those that succeed take effect, and those of
    [dead] have none. *)
Lemma run_effects (dead : NodeRunAction → bool) acts outs fe s s' r :
  host_ok s → Forall proper_action acts → (∀ a, dead a = true → idle a) →
  run_actions oracle node acts outs fe s = (s', r) →
  host_ok s' ∧ ∃ new fe', r = Ok (outs ++ new, fe') ∧ oc_action <$> new = acts ∧
    Forall (λ o, dead (oc_action o) = true → oc_ok o = false) new ∧
    (Forall (λ o, oc_ok o = true ∨ dead (oc_action o) = true) new →
     host_view s' = foldl effect (host_view s) (filter (λ a, dead a = false) acts)).
Proof.
  intros Hok Hp Hdead. revert outs fe s Hok. induction Hp as [|a acts Ha _ IH]; intros outs fe s Hok E.
  { injection E as <- <-. split; [done|]. exists [], fe. rewrite app_nil_r. by repeat split. }
  cbn [run_actions] in E. apply bind_run in E as [(e&E&_)|(s1&[o thrown]&E1&E)].
  { unfold try_catch in E. destruct ((runNodeRunAction oracle node a ≫= λ o, mret (o, false)) s) as [s2 [x|x]]; discriminate. }
  unfold try_catch in E1. destruct ((o ← runNodeRunAction oracle node a; mret (o, false)) s) as [s2 r2] eqn:E2.
  apply bind_run in E2 as [(e&E2&->)|(s3&o'&E2&E3)].
  - injection E1 as -> <- <-. destruct (action_run a s s1 _ Hok Ha E2) as (Hok1&_&Hidle).
    apply IH in E as (Hok'&new&fe'&->&Hacts&Hnew&Hview); [|done]. split; [done|].
    exists (mkOutcome a false (Some e) :: new), fe'. rewrite <-app_assoc. split; [done|]. split; [cbn; by rewrite Hacts|].
    split; [by constructor|].
    intros [[Hc|Hd] Hall]%Forall_cons; [done|]. cbn in Hd. rewrite Hview by done.
    rewrite filter_cons_False by (rewrite Hd; done). by destruct (Hidle (Hdead _ Hd)) as [_ ->].
  - injection E3 as <- <-. injection E1 as <- <- <-. destruct (action_run a s s3 _ Hok Ha E2) as (Hok1&Hres&Hidle).
    destruct Hres as [(o2&[= <-]&Hoa&Hoe)|(e&[=])].
    apply IH in E as (Hok'&new&fe'&->&Hacts&Hnew&Hview); [|done]. split; [done|].
    exists (o' :: new), fe'. rewrite <-app_assoc. split; [done|]. split; [cbn; by rewrite Hoa, Hacts|].
    destruct (dead a) eqn:Ed; [by destruct (Hidle (Hdead _ Ed)) as [(e&[=]) _]|].
    split; [constructor; [by rewrite Hoa, Ed|done]|]. intros [Hc Hall]%Forall_cons. rewrite Hview by done.
    rewrite filter_cons_True by done. cbn [foldl]. rewrite Hoa, Ed in Hc. destruct Hc as [Hc|]; [|done]. by rewrite Hoe.
Qed.

Lemma plan_proper infra live :
  Forall (λ item, host_proper (ni_version item)) infra → Forall (λ row, Forall host_proper (in_versions row)) live →
  Forall proper_action (planNodeRun infra live).
Proof.
  intros H Hlive. unfold planNodeRun. apply Forall_app. split.
  - apply Forall_forall. intros a (item&Ha&Hin)%list_elem_of_bind. rewrite Forall_forall in H. specialize (H item Hin).
    unfold planInfraItem, observed_of in Ha. destruct (find _ live) as [row|] eqn:Ef; [|by apply list_elem_of_singleton in Ha as ->].
    apply find_some in Ef as [Hr _]. apply list_elem_of_In in Hr. rewrite Forall_forall in Hlive. specialize (Hlive row Hr).
    apply elem_of_cons in Ha as [->|(v&->&[_ Hv]%list_elem_of_filter)%list_elem_of_fmap]; [|by rewrite Forall_forall in Hlive; apply Hlive].
    destruct (bool_decide _); [done|]. by destruct (bool_decide _).
  - apply Forall_forall. by intros a (row&->&_)%list_elem_of_fmap.
Qed.

(** An apply lists, runs its plan and lists again. *)
Lemma apply_run (dead : NodeRunAction → bool) manifest s s' r :
  nr_node manifest = node → host_ok s → Forall (λ item, host_proper (ni_version item)) (nr_infra manifest) →
  (∀ a, dead a = true → idle a) → applyNodeRun oracle manifest false s = (s', Ok r) →
  ∃ live, host_ok s' ∧ lists live (host_view s) ∧ na_actions r = planNodeRun (nr_infra manifest) live ∧
    oc_action <$> na_outcomes r = na_actions r ∧
    Forall (λ o, dead (oc_action o) = true → oc_ok o = false) (na_outcomes r) ∧
    ns_phase (na_status r) = (if existsb (λ o, negb (oc_ok o)) (na_outcomes r) then NFailed else NConverged) ∧
    (Forall (λ o, oc_ok o = true ∨ dead (oc_action o) = true) (na_outcomes r) →
     host_view s' = foldl effect (host_view s) (filter (λ a, dead a = false) (planNodeRun (nr_infra manifest) live))).
Proof.
  intros Hn Hok Hp Hdead E. unfold applyNodeRun, perform in E. rewrite Hn in E. clear Hn.
  assert (∀ c (s0 : S) s1 r1, (match c with INow | IList _ => True | _ => False end) → host_ok s0 → oracle c s0 = (s1, r1) →
    host_ok s1 ∧ host_view s1 = host_view s0) as Hstill.
  { intros c s0 s1 r1 Hc H0 E0. pose proof (host_keeps c s0 H0) as Hk. pose proof (host_still c s0 H0) as Hs.
    rewrite E0 in Hk, Hs. destruct c; try done; split; [by apply Hk|by apply Hs|by apply Hk|by apply Hs]. }
  apply bind_run in E as [(e&_&[=])|(s1&live&E1&E)]. destruct (Hstill (IList _) _ _ _ I Hok E1) as [Hok1 Hv1].
  destruct (host_lists _ _ _ Hok E1) as [Hl Hlp]. cbn zeta in E.
  apply bind_run in E as [(e&_&[=])|(s2&[outs fe]&E2&E)].
  apply (run_effects dead) in E2 as (Hok2&new&fe'&[= -> ->]&Hacts&Hnew&Hview); [|done|by apply plan_proper|done].
  apply bind_run in E as [(e&_&[=])|(s3&post&E3&E)]. destruct (Hstill (IList _) _ _ _ I Hok2 E3) as [Hok3 Hv3].
  apply bind_run in E as [(e&_&[=])|(s4&t1&E4&E)]. destruct (Hstill INow _ _ _ I Hok3 E4) as [Hok4 Hv4].
  apply bind_run in E as [(e&_&[=])|(s5&t2&E5&E)]. destruct (Hstill INow _ _ _ I Hok4 E5) as [Hok5 Hv5].
  injection E as <- <-. exists live. cbn [na_actions na_outcomes na_status ns_phase app]. split_and!; try done.
  intros Hall. rewrite Hv5, Hv4, Hv3, Hview by done. by rewrite Hv1.
Qed.

(** When every action of an apply succeeds, the node then holds exactly what the
    manifest wants, and the next plan has nothing to do. *)
Lemma apply_converges manifest s s' r :
  nr_node manifest = node → host_ok s → Forall (λ item, host_proper (ni_version item)) (nr_infra manifest) →
  unique_pkgs [] (nr_infra manifest) = true → applyNodeRun oracle manifest false s = (s', Ok r) →
  Forall (λ o, oc_ok o = true) (na_outcomes r) →
  ns_phase (na_status r) = NConverged ∧ (∀ p, host_view s' !! p = desired_at (nr_infra manifest) p) ∧
  ∀ s'' live, oracle (IList node) s' = (s'', Ok live) →
    planNodeRun (nr_infra manifest) live = (λ item, ASkip (ni_pkg item) (ni_version item)) <$> nr_infra manifest.
Proof.
  intros Hn Hok Hp Hu E Hall.
  destruct (apply_run (λ _, false) _ _ _ _ Hn Hok Hp ltac:(done) E) as (live&Hok'&Hl&Hacts&Ho&_&Hphase&Hview).
  assert (filter (λ a : NodeRunAction, (λ _, false) a = false) (planNodeRun (nr_infra manifest) live) = planNodeRun (nr_infra manifest) live) as Hf.
  { apply list_filter_all. by intros. }
  rewrite Hf in Hview. rewrite Hphase.
  assert (existsb (λ o, negb (oc_ok o)) (na_outcomes r) = false) as ->.
  { apply not_true_iff_false. intros (o&Hin&Hno)%existsb_exists. rewrite Forall_forall in Hall.
    by rewrite (Hall o) in Hno by (by apply list_elem_of_In). }
  assert (∀ p, host_view s' !! p = desired_at (nr_infra manifest) p) as Hd.
  { intros p. rewrite Hview; [by apply plan_converges|]. eapply Forall_impl; [exact Hall|]. by left. }
  split; [done|]. split; [done|]. intros s'' live' E'. eapply plan_settled; [done| |exact Hd]. by destruct (host_lists _ _ _ Hok' E').
Qed.

Definition installs (pkg version : string) (a : NodeRunAction) : bool :=
  match a with AInstall p v _ => bool_decide (p = pkg) && bool_decide (v = version) | _ => false end.

Lemma foldl_filter_other (q : NodeRunAction → bool) l V p :
  Forall (λ a, act_pkg a ≠ p) l → foldl effect V (filter (λ a, q a = false) l) !! p = V !! p.
Proof.
  intros H. apply effects_other. rewrite Forall_forall in H |- *. intros a [_ Ha]%list_elem_of_filter. by apply H.
Qed.

(** An upgrade whose artifact cannot be resolved ends with the package gone. *)
Lemma upgrade_unresolved manifest item vs old s s' r :
  nr_node manifest = node → host_ok s → Forall (λ item, host_proper (ni_version item)) (nr_infra manifest) →
  unique_pkgs [] (nr_infra manifest) = true → item ∈ nr_infra manifest →
  host_view s !! ni_pkg item = Some (vs, Some old) → ni_version item ∉ vs →
  (∀ s, ∃ msg, (oracle (IResolve node (ni_pkg item) (ni_version item)) s).2 = Err msg) →
  applyNodeRun oracle manifest false s = (s', Ok r) →
  Forall (λ o, oc_ok o = true ∨ installs (ni_pkg item) (ni_version item) (oc_action o) = true) (na_outcomes r) →
  ns_phase (na_status r) = NFailed ∧ host_view s' !! ni_pkg item = Some (∅, None).
Proof.
  intros Hn Hok Hp Hu Hin HV Hnew Hres E Hall. set (dead := installs (ni_pkg item) (ni_version item)) in *.
  assert (∀ a, dead a = true → idle a) as Hdead.
  { intros [p v reason| | | |]; try done. intros [Hp1 Hv1]%andb_true_iff. to_prop. subst. exact Hres. }
  destruct (apply_run dead _ _ _ _ Hn Hok Hp Hdead E) as (live&_&Hl&Hacts&Ho&Hfail&Hphase&Hview). specialize (Hview Hall).
  pose proof Hl as (_&Hrows&Hrowsall).
  assert (∃ row, observed_of live (ni_pkg item) = Some row ∧ vs = list_to_set (in_versions row) ∧ in_active row = Some old ∧
    old ∈ in_versions row) as (row&Hrow&Hvs&Hold&Hoin).
  { unfold observed_of. destruct (find _ live) as [row|] eqn:Ef.
    - apply find_some in Ef as [Hi Hpk]. to_prop. apply list_elem_of_In in Hi. destruct (Hrows row Hi) as [EV Ha].
      rewrite Hpk, HV in EV. injection EV as Evs Eold. exists row. split_and!; try done. by apply Ha.
    - assert (ni_pkg item ∈ in_pkg <$> live) as (row&Hpk&Hi)%list_elem_of_fmap by (apply Hrowsall; rewrite HV; by eexists).
      eapply find_none in Ef; [|by apply list_elem_of_In]. to_prop. congruence. }
  assert (∀ v, v ∈ in_versions row → v ≠ ni_version item) as Hnev.
  { intros v Hv ->. apply Hnew. rewrite Hvs. by apply elem_of_list_to_set. }
  assert (planInfraItem live item = AInstall (ni_pkg item) (ni_version item) "version-mismatch" ::
    (AUninstallVersion (ni_pkg item) <$> in_versions row)) as Hplan.
  { unfold planInfraItem. rewrite Hrow, Hold. rewrite (bool_decide_false (Some old = Some (ni_version item))).
    2: { intros [= ->]. by apply (Hnev _ Hoin). }
    rewrite bool_decide_false by (intros Hv; by apply (Hnev _ Hv)). by rewrite list_filter_all. }
  pose proof (unique_pkgs_NoDup _ _ Hu) as [Hnd _]. apply list_elem_of_split in Hin as (l1&l2&Hsplit).
  assert (Forall (λ a, act_pkg a ≠ ni_pkg item) (l1 ≫= planInfraItem live) ∧ Forall (λ a, act_pkg a ≠ ni_pkg item) (l2 ≫= planInfraItem live)) as [H1 H2].
  { rewrite Hsplit in Hnd. unfold desired_pkgs in Hnd. rewrite fmap_app in Hnd. apply NoDup_app in Hnd as (_&Hd1&Hd2).
    apply NoDup_cons in Hd2 as [Hd2 _].
    split; apply Forall_forall; intros a (x&Ha&Hx)%list_elem_of_bind Heq; pose proof (plan_item_pkg live x) as Hpk;
      rewrite Forall_forall in Hpk; specialize (Hpk a Ha); rewrite Heq in Hpk.
    - apply (Hd1 (ni_pkg x)); [by apply list_elem_of_fmap_2|]. rewrite <-Hpk. left.
    - apply Hd2. rewrite Hpk. by apply list_elem_of_fmap_2. }
  split.
  - rewrite Hphase. assert (existsb (λ o, negb (oc_ok o)) (na_outcomes r) = true) as ->; [|done]. apply existsb_exists.
    assert (AInstall (ni_pkg item) (ni_version item) "version-mismatch" ∈ oc_action <$> na_outcomes r) as (o&Hoa&Ho1)%list_elem_of_fmap.
    { rewrite Ho, Hacts. unfold planNodeRun. apply elem_of_app. left. rewrite Hsplit. apply list_elem_of_bind. exists item.
      rewrite Hplan. split; [left|]. apply elem_of_app. right. left. }
    exists o. split; [by apply list_elem_of_In|]. rewrite Forall_forall in Hfail. rewrite (Hfail o Ho1); [done|].
    rewrite <-Hoa. unfold dead, installs. by rewrite !bool_decide_true.
  - rewrite Hview. unfold planNodeRun. rewrite Hsplit, bind_app, bind_cons.
    set (k1 := l1 ≫= _) in *. set (k2 := l2 ≫= _) in *. set (removes := _ <$> _). rewrite !filter_app, !foldl_app.
    rewrite (foldl_filter_other dead removes).
    2: { unfold removes. rewrite list_fmap_compose. apply Forall_forall. intros a (p&->&(x&->&[Hx _]%list_elem_of_filter)%list_elem_of_fmap)%list_elem_of_fmap.
         cbn. intros Heq. apply Hx. rewrite Heq. unfold desired_pkgs. rewrite fmap_app. apply elem_of_app. right. left. }
    rewrite (foldl_filter_other dead k2) by done. rewrite Hplan, filter_cons_False.
    2: { unfold dead, installs. by rewrite !bool_decide_true. }
    rewrite (list_filter_all _ (AUninstallVersion (ni_pkg item) <$> _)) by (by intros a (v&->&_)%list_elem_of_fmap).
    rewrite (drops_all _ vs (Some old)) by (by rewrite (foldl_filter_other dead k1)). cbn [dropped]. rewrite bool_decide_true by done.
    f_equal. f_equal. rewrite Hvs. set_solver.
Qed.
End host.
