(* ===== verification/InfraLayoutProps.v ===== *)
(** * Infra packages on a node: the promise kept

    The node's own code ([infraList], [infraInstall], [infraActivate],
    [infraUninstall] over layout.ts and install.ts) implements the interface that
    NodeRunProps.v is proved against; what an install puts in place; paths. *)

From S2P Require Import Prelude JsSort JsText HostSidecars WorkloadTypes WorkloadStore NodeDeadline InfraLayout NodeRun NodeRunProps.
From Stdlib Require Import Ascii.

#[local] Open Scope string_scope.
#[local] Open Scope list_scope.
#[local] Open Scope Z_scope.

(** ** Identifiers *)

Lemma identifier_plain s : infraIdentifier s = true → char_free "/"%char s = true ∧ basename s = s.
Proof.
  unfold infraIdentifier. rewrite !andb_true_iff. intros [[[[H1 H2] _] _] _].
  assert (char_free "/"%char s = true) as Hf by (by apply (all_chars_free identifier_char)).
  split; [done|]. unfold basename. rewrite split_char_free by done. apply negb_true_iff in H1. to_prop.
  by rewrite filter_cons_True.
Qed.

Section layout.
Context {Bytes Content : Type} (localeCompare : string → string → Z) (lower : string → string).
Context (fetcher : string → result Bytes) (sha256 : Bytes → string) (extractor : Bytes → result Content).
Context (copy : Content → Content * option string).

Local Abbreviation T := (Tree Content).
Local Abbreviation D := (PkgDir Content).

(** Versions are directories, the current one is a link by name. *)
Definition dir_ok (dir : D) : Prop :=
  (∀ name e, dir !! name = Some e → name ≠ "current" → is_dir e = true) ∧
  ∀ e, dir !! "current" = Some e → ∃ target, e = ELink target ∧ basename target = target.

Definition tree_ok (t : T) : Prop := ∀ pkg dir, t !! pkg = Some (Some dir) → dir_ok dir.

Definition versions_of (dir : D) : gset string := list_to_set (listInstalledVersions dir).
Definition dir_view (dir : D) : gset string * option string :=
  (versions_of dir, resolveActiveVersion dir (listInstalledVersions dir)).

Lemma elem_of_listed (dir : D) v : v ∈ listInstalledVersions dir ↔ v ≠ "current" ∧ ∃ e, dir !! v = Some e ∧ is_dir e = true.
Proof.
  unfold listInstalledVersions. rewrite elem_of_js_sort, list_elem_of_omap. split.
  - intros ([name e]&Hin%elem_of_map_to_list&H). destruct (bool_decide (name = "current")) eqn:E; [done|]. to_prop.
    destruct (is_dir e) eqn:Ee; [|done]. injection H as <-. eauto.
  - intros (Hne&e&Hv&He). exists (v, e). split; [by apply elem_of_map_to_list|]. rewrite bool_decide_false by done. by rewrite He.
Qed.

Lemma elem_of_versions (dir : D) v : v ∈ versions_of dir ↔ v ≠ "current" ∧ ∃ e, dir !! v = Some e ∧ is_dir e = true.
Proof. unfold versions_of. rewrite elem_of_list_to_set. apply elem_of_listed. Qed.

Lemma exists_plain (dir : D) v : dir_ok dir → v ≠ "current" → exists_in dir v = bool_decide (v ∈ versions_of dir).
Proof.
  intros [Hd _] Hne. unfold exists_in. cbn [entry_exists]. destruct (dir !! v) as [e|] eqn:E.
  - pose proof (Hd v e E Hne) as He. rewrite bool_decide_true by (apply elem_of_versions; eauto). by destruct e.
  - rewrite bool_decide_false; [done|]. intros (_&e&Hv&_)%elem_of_versions. congruence.
Qed.

Lemma loop_missing (dir : D) n : dir !! "current" = Some (ELink "current") → entry_exists n dir "current" = false.
Proof. intros H. induction n as [|n IH]; cbn [entry_exists]; rewrite H; [done|exact IH]. Qed.

(** The active version is the one linked to, when it is there. *)
Lemma active_spec (dir : D) :
  dir_ok dir →
  (dir_view dir).2 = match dir !! "current" with
                     | Some (ELink v) => if bool_decide (v ∈ versions_of dir) then Some v else None
                     | _ => None
                     end.
Proof.
  intros Hok. pose proof Hok as [Hd Hc]. unfold dir_view, resolveActiveVersion. cbn [snd].
  destruct (dir !! "current") as [e|] eqn:E.
  2: { unfold exists_in. cbn [entry_exists]. by rewrite E. }
  destruct (Hc e eq_refl) as (v&->&Hb). unfold exists_in. cbn [entry_exists]. rewrite E, Hb.
  destruct (decide (v = "current")) as [->|Hne].
  { rewrite loop_missing by done. cbn [negb]. rewrite bool_decide_false; [done|]. by intros [? _]%elem_of_versions. }
  assert (size dir ≠ 0%nat) as Hsize. { intros H0%map_size_empty_inv. subst dir. by rewrite lookup_empty in E. }
  destruct (size dir) as [|n]; [done|]. cbn [entry_exists]. destruct (dir !! v) as [e|] eqn:Ev.
  - pose proof (Hd v e Ev Hne) as He. destruct e; try done. cbn [negb].
    rewrite (bool_decide_ext (v ∈ listInstalledVersions dir) (v ∈ versions_of dir)); [done|].
    unfold versions_of. by rewrite elem_of_list_to_set.
  - cbn [negb]. rewrite bool_decide_false; [done|]. intros (_&e&Hv&_)%elem_of_versions. congruence.
Qed.

Lemma view_pair (dir : D) : dir_view dir = (versions_of dir, (dir_view dir).2).
Proof. done. Qed.

(** ** What operations do to a directory *)

Lemma dir_ok_empty : dir_ok ∅.
Proof. split; intros *; by rewrite lookup_empty. Qed.

Lemma dir_ok_add (dir : D) v c : dir_ok dir → v ≠ "current" → dir_ok (<[v := EDir c]> dir).
Proof.
  intros [Hd Hc] Hne. split.
  - intros name e [[<- <-]|[? H]]%lookup_insert_Some; [done|]. by eapply Hd.
  - intros e [[? _]|[_ H]]%lookup_insert_Some; [done|]. by apply Hc.
Qed.

Lemma dir_ok_link (dir : D) v : dir_ok dir → basename v = v → dir_ok (<["current" := ELink v]> dir).
Proof.
  intros [Hd _] Hb. split.
  - intros name e [[<- <-]|[? H]]%lookup_insert_Some ?; [done|]. by eapply Hd.
  - intros e. rewrite lookup_insert_eq. intros [= <-]. by exists v.
Qed.

Lemma dir_ok_delete (dir : D) v : dir_ok dir → dir_ok (delete v dir).
Proof.
  intros [Hd Hc]. split.
  - intros name e [_ H]%lookup_delete_Some. by apply Hd.
  - intros e [_ H]%lookup_delete_Some. by apply Hc.
Qed.

Lemma versions_add (dir : D) v c : v ≠ "current" → versions_of (<[v := EDir c]> dir) = {[v]} ∪ versions_of dir.
Proof.
  intros Hne. apply set_eq. intros x. rewrite elem_of_union, elem_of_singleton, !elem_of_versions.
  destruct (decide (x = v)) as [->|Hx]; [rewrite lookup_insert_eq; naive_solver|]. rewrite lookup_insert_ne by done. naive_solver.
Qed.

Lemma versions_link (dir : D) v : versions_of (<["current" := ELink v]> dir) = versions_of dir.
Proof.
  apply set_eq. intros x. rewrite !elem_of_versions. destruct (decide (x = "current")) as [->|Hx]; [naive_solver|].
  by rewrite lookup_insert_ne.
Qed.

Lemma versions_delete (dir : D) v : versions_of (delete v dir) = versions_of dir ∖ {[v]}.
Proof.
  apply set_eq. intros x. rewrite elem_of_difference, elem_of_singleton, !elem_of_versions.
  destruct (decide (x = v)) as [->|Hx]; [rewrite lookup_delete_eq; naive_solver|]. rewrite lookup_delete_ne by done. naive_solver.
Qed.

Lemma view_linked (dir : D) v :
  dir_ok dir → basename v = v → v ∈ versions_of dir → dir_view (<["current" := ELink v]> dir) = (versions_of dir, Some v).
Proof.
  intros Hok Hb Hv. rewrite view_pair, active_spec by (by apply dir_ok_link). rewrite versions_link, lookup_insert_eq.
  by rewrite bool_decide_true.
Qed.

Lemma view_dropped (dir : D) v :
  dir_ok dir → v ≠ "current" →
  dir_view (delete v dir) =
    (versions_of dir ∖ {[v]}, if bool_decide ((dir_view dir).2 = Some v) then None else (dir_view dir).2).
Proof.
  intros Hok Hne. rewrite view_pair, !active_spec, versions_delete by (done || by apply dir_ok_delete).
  rewrite lookup_delete_ne by done. f_equal. destruct (dir !! "current") as [[|t|]|]; try (by rewrite bool_decide_false).
  destruct (decide (t ∈ versions_of dir)) as [Ht|Ht].
  - rewrite (bool_decide_true (t ∈ versions_of dir)) by done. destruct (decide (t = v)) as [->|Htv].
    + rewrite (bool_decide_true (Some v = Some v)) by done. rewrite bool_decide_false; [done|]. set_solver.
    + rewrite (bool_decide_false (Some t = Some v)) by congruence. rewrite bool_decide_true; [done|]. set_solver.
  - rewrite (bool_decide_false (t ∈ versions_of dir)) by done. rewrite (bool_decide_false (None = Some v)) by done.
    rewrite bool_decide_false; [done|]. set_solver.
Qed.

(** ** The tree *)

Definition tree_view (t : T) : View := omap (λ d, dir_view <$> d) t.

Lemma tree_view_lookup (t : T) pkg : tree_view t !! pkg = dir_view <$> mjoin (t !! pkg).
Proof. unfold tree_view. rewrite lookup_omap. by destruct (t !! pkg) as [[d|]|]. Qed.

Lemma tree_view_insert (t : T) pkg dir : tree_view (<[pkg := Some dir]> t) = <[pkg := dir_view dir]> (tree_view t).
Proof. unfold tree_view. by rewrite omap_insert_Some with (y := dir_view dir). Qed.

Lemma tree_view_delete (t : T) pkg : tree_view (delete pkg t) = delete pkg (tree_view t).
Proof. apply omap_delete. Qed.

Lemma tree_ok_insert (t : T) pkg dir : tree_ok t → dir_ok dir → tree_ok (<[pkg := Some dir]> t).
Proof. intros Ht Hd p d [[_ [= <-]]|[_ H]]%lookup_insert_Some; [done|by eapply Ht]. Qed.

Lemma pkg_dir_ok (t : T) pkg : tree_ok t → dir_ok (pkg_dir t pkg).
Proof. intros Ht. unfold pkg_dir. destruct (t !! pkg) as [[d|]|] eqn:E; [by eapply Ht|apply dir_ok_empty..]. Qed.

Lemma pkg_view (t : T) pkg : from_option fst ∅ (tree_view t !! pkg) = versions_of (pkg_dir t pkg).
Proof.
  rewrite tree_view_lookup. unfold pkg_dir. destruct (t !! pkg) as [[d|]|]; [done|..];
    (apply set_eq; intros x; cbn; rewrite elem_of_versions, lookup_empty; set_solver).
Qed.

Lemma activate_view (t t' : T) pkg v u :
  tree_ok t → infraIdentifier v = true → v ≠ "current" → activateInfraVersion pkg v t = (t', Ok u) →
  tree_ok t' ∧ tree_view t' = make_active pkg v (tree_view t) ∧ v ∈ versions_of (pkg_dir t pkg).
Proof.
  intros Ht Hid Hne E. unfold activateInfraVersion, version_exists in E. pose proof (pkg_dir_ok t pkg Ht) as Hd.
  rewrite exists_plain in E by done. destruct (bool_decide (v ∈ versions_of (pkg_dir t pkg))) eqn:Ev; cbn [negb] in E; [|done]. to_prop.
  apply identifier_plain in Hid as [_ Hb].
  assert (t' = set_entry pkg "current" (ELink v) t) as -> by (destruct (_ !! "current") as [[]|]; by injection E).
  unfold set_entry. split; [by apply tree_ok_insert, dir_ok_link|]. split; [|done].
  rewrite tree_view_insert, view_linked by done. unfold make_active. by rewrite pkg_view.
Qed.

Lemma activate_keeps (t : T) pkg v :
  tree_ok t → infraIdentifier v = true → v ≠ "current" → tree_ok (activateInfraVersion pkg v t).1.
Proof.
  intros Ht Hid Hne. destruct (activateInfraVersion pkg v t) as [t' [u|e]] eqn:E.
  - by eapply activate_view in E as [? _].
  - unfold activateInfraVersion in E. destruct (negb _); [by injection E as <- _|].
    destruct (_ !! "current") as [[]|]; injection E; intros; by subst.
Qed.

Lemma ensure_keeps (t t1 : T) pkg u :
  ensurePackageDir pkg t = (t1, Ok u) → tree_ok t →
  tree_ok t1 ∧ pkg_dir t1 pkg = pkg_dir t pkg ∧ ∀ v, add_version pkg v (tree_view t1) = add_version pkg v (tree_view t).
Proof.
  unfold ensurePackageDir. destruct (t !! pkg) as [[d|]|] eqn:Ep; intros [= <- <-] Ht; [by split|].
  split; [apply tree_ok_insert; [done|apply dir_ok_empty]|].
  assert (pkg_dir (<[pkg := Some ∅]> t) pkg = pkg_dir t pkg) as Hd by (unfold pkg_dir; by rewrite lookup_insert_eq, Ep).
  split; [done|]. intros v. unfold add_version. rewrite !pkg_view, Hd, tree_view_insert. by rewrite insert_insert_eq.
Qed.

Local Abbreviation install := (installInfraPackage lower fetcher sha256 extractor copy).

Lemma place_spec (t t' : T) pkg v content r :
  tree_ok t → infraIdentifier v = true → v ≠ "current" → place copy pkg v true content t = (t', r) →
  tree_ok t' ∧ ∀ state active, r = Ok (InstallOk state active) → tree_view t' = add_version pkg v (tree_view t).
Proof.
  intros Ht Hid Hne E. unfold place in E. destruct (dangling pkg v t); [injection E as <- <-; by split|].
  destruct (copy content) as [copied [error|]].
  - injection E as <- <-. split; [|done]. apply tree_ok_insert; [done|]. by apply dir_ok_add; [apply pkg_dir_ok|].
  - assert (tree_ok (set_entry pkg v (EDir copied) t)) as Ht1.
    { apply tree_ok_insert; [done|]. by apply dir_ok_add; [apply pkg_dir_ok|]. }
    cbn [activate_if] in E. destruct (activateInfraVersion pkg v (set_entry pkg v (EDir copied) t)) as [t2 [u|e]] eqn:E2.
    + injection E as <- <-. destruct (activate_view _ _ _ _ _ Ht1 Hid Hne E2) as (Ht2&Hv&_). split; [done|]. intros _ _ _.
      rewrite Hv. unfold make_active, add_version. rewrite !pkg_view. unfold set_entry.
      rewrite tree_view_insert, insert_insert_eq. f_equal. f_equal. unfold pkg_dir at 1. rewrite lookup_insert_eq. by apply versions_add.
    + injection E as <- <-. split; [|done]. pose proof (activate_keeps (set_entry pkg v (EDir copied) t) pkg v Ht1 Hid Hne) as Hk.
      by rewrite E2 in Hk.
Qed.

Lemma install_spec (t t' : T) pkg v url digest r :
  tree_ok t → infraIdentifier v = true → v ≠ "current" → install pkg v url digest true true t = (t', r) →
  tree_ok t' ∧ ∀ state active, r = Ok (InstallOk state active) → tree_view t' = add_version pkg v (tree_view t).
Proof.
  intros Ht Hid Hne E. unfold installInfraPackage in E. destruct (ensurePackageDir pkg t) as [t1 [u|e]] eqn:E1.
  2: { injection E as <- <-. split; [|done]. unfold ensurePackageDir in E1. by destruct (t !! pkg) as [[]|]; injection E1 as <-. }
  destruct (ensure_keeps _ _ _ _ E1 Ht) as (Ht1&Hd&Hadd). cbn [andb] in E.
  destruct (version_exists pkg v t1) eqn:Ev.
  - cbn [activate_if] in E. destruct (activateInfraVersion pkg v t1) as [t2 [w|e]] eqn:E2.
    + injection E as <- <-. destruct (activate_view _ _ _ _ _ Ht1 Hid Hne E2) as (Ht2&Hv&Hin). split; [done|]. intros _ _ _.
      rewrite Hv, <-Hadd. unfold make_active, add_version. rewrite pkg_view. f_equal. f_equal. set_solver.
    + injection E as <- <-. split; [|done]. pose proof (activate_keeps t1 pkg v Ht1 Hid Hne) as Hk. by rewrite E2 in Hk.
  - destruct (fetcher url) as [bytes|e]; [|injection E as <- <-; by split].
    destruct (negb _); [injection E as <- <-; by split|]. destruct (extractor bytes) as [content|e]; [|injection E as <- <-; by split].
    destruct (place_spec _ _ _ _ _ _ Ht1 Hid Hne E) as [Ht' Hv]. split; [done|]. intros state active Hr. rewrite <-Hadd. by eapply Hv.
Qed.

Lemma remove_version_spec (t t' : T) pkg v removed :
  tree_ok t → v ≠ "current" → removeInfraVersion pkg v t = (t', removed) →
  tree_ok t' ∧ tree_view t' = drop_version pkg v (tree_view t).
Proof.
  intros Ht Hne E. pose proof (pkg_dir_ok t pkg Ht) as Hd. unfold removeInfraVersion, version_exists in E.
  rewrite exists_plain in E by done. unfold drop_version. destruct (bool_decide (v ∈ _)) eqn:Ev; cbn [negb] in E; to_prop; injection E as <- _.
  - split; [by apply tree_ok_insert, dir_ok_delete|]. rewrite tree_view_insert, view_dropped by done.
    apply map_eq. intros p. destruct (decide (p = pkg)) as [->|Hp]; [|by rewrite lookup_insert_ne, lookup_alter_ne].
    rewrite lookup_insert_eq, lookup_alter_eq, tree_view_lookup. unfold pkg_dir in *.
    destruct (t !! pkg) as [[d|]|]; [done|..]; apply elem_of_versions in Ev as (_&e&He&_); by rewrite lookup_empty in He.
  - split; [done|]. apply map_eq. intros p. destruct (decide (p = pkg)) as [->|Hp]; [|by rewrite lookup_alter_ne].
    rewrite lookup_alter_eq, tree_view_lookup. unfold pkg_dir in *. destruct (t !! pkg) as [[d|]|]; [|done..].
    cbn [mjoin option_join fmap option_fmap option_map]. rewrite view_pair. f_equal. f_equal; [set_solver|].
    rewrite active_spec by done. destruct (d !! "current") as [[|x|]|]; try (by rewrite bool_decide_false).
    destruct (decide (x ∈ versions_of d)); [rewrite (bool_decide_true (x ∈ _)) by done|by rewrite (bool_decide_false (x ∈ _))].
    rewrite bool_decide_false; [done|]. intros [= ->]. done.
Qed.

Lemma remove_package_spec (t t' : T) pkg removed :
  tree_ok t → removeInfraPackage pkg t = (t', removed) → tree_ok t' ∧ tree_view t' = delete pkg (tree_view t).
Proof.
  intros Ht E. unfold removeInfraPackage in E. destruct (t !! pkg) as [d|] eqn:Ep; injection E as <- _.
  - split; [|by rewrite tree_view_delete]. intros p dir [_ H]%lookup_delete_Some. by eapply Ht.
  - split; [done|]. rewrite delete_id; [done|]. by rewrite tree_view_lookup, Ep.
Qed.

Lemma list_spec (t : T) :
  tree_ok t → lists (listInstalledInfra localeCompare t) (tree_view t) ∧
  Forall (λ row, Forall (λ v, v ≠ "current") (in_versions row)) (listInstalledInfra localeCompare t).
Proof.
  intros Ht. unfold listInstalledInfra. set (rows := omap _ _).
  assert (∀ row, row ∈ rows ↔ ∃ pkg dir, t !! pkg = Some (Some dir) ∧ row = row_of pkg dir) as Hrows.
  { intros row. unfold rows. rewrite list_elem_of_omap. split.
    - intros ([pkg d]&Hin%elem_of_map_to_list&H). destruct d as [dir|]; [|done]. injection H as <-. eauto.
    - intros (pkg&dir&Hin&->). exists (pkg, Some dir). by split; [apply elem_of_map_to_list|]. }
  split; [split_and!|].
  - assert (in_pkg <$> js_sort (λ a b, localeCompare (in_pkg a) (in_pkg b)) rows ≡ₚ in_pkg <$> rows) as -> by (by rewrite js_sort_perm).
    unfold rows. pose proof (NoDup_fst_map_to_list t) as Hnd. clear -Hnd.
    induction (map_to_list t) as [|[p d] l IH]; [constructor|]. cbn in Hnd. apply NoDup_cons in Hnd as [Hnot Hnd].
    cbn [omap list_omap]. destruct d as [dir|]; [|by apply IH]. cbn. constructor; [|by apply IH].
    intros (row&Hp&([q [dir'|]]&Hin&H)%list_elem_of_omap)%list_elem_of_fmap; [|done]. injection H as <-. cbn in Hp. subst q.
    apply Hnot. by apply (list_elem_of_fmap_2 fst) in Hin.
  - intros row (pkg&dir&E&->)%elem_of_js_sort%Hrows. cbn [row_of in_pkg in_versions in_active]. split; [by rewrite tree_view_lookup, E|].
    intros v Hv. unfold resolveActiveVersion in Hv. destruct (negb _); [done|]. destruct (dir !! "current") as [[|target|]|]; try done.
    cbn zeta in Hv. destruct (bool_decide (basename target ∈ _)) eqn:Eb; [|done]. to_prop. by injection Hv as <-.
  - intros pkg Hs. rewrite tree_view_lookup in Hs. destruct (t !! pkg) as [[dir|]|] eqn:E; try (by destruct Hs).
    apply list_elem_of_fmap. exists (row_of pkg dir). split; [done|]. apply elem_of_js_sort, Hrows. eauto.
  - apply Forall_forall. intros row (pkg&dir&E&->)%elem_of_js_sort%Hrows. apply Forall_forall. intros v Hv.
    cbn [row_of in_versions] in Hv. by apply elem_of_listed in Hv as [? _].
Qed.

(** ** Installing *)

(** An install puts a version in place only from bytes whose digest is
    the one asked for, and says that it did only when all of it was copied; any
    other version of any package is as it was. *)
Theorem install_verified pkg v url digest activate skip (t t' : T) r q w e :
  installInfraPackage lower fetcher sha256 extractor copy pkg v url digest activate skip t = (t', r) →
  (q, w) ≠ (pkg, "current") → pkg_dir t' q !! w = Some e → pkg_dir t q !! w ≠ Some e →
  (q, w) = (pkg, v) ∧
  ∃ bytes content, fetcher url = Ok bytes ∧ sha256 bytes = lower digest ∧ extractor bytes = Ok content ∧
    e = EDir (copy content).1 ∧ (∀ active, r = Ok (InstallOk Installed active) → (copy content).2 = None).
Proof.
  intros E Hcur Hnew Hold.
  assert (∀ (s : T) p x d y, (y, d) ≠ (p, x) → ∀ c, pkg_dir (set_entry p x c s) y !! d = pkg_dir s y !! d) as Hset.
  { intros s p x d y Hne c. unfold set_entry, pkg_dir at 1. destruct (decide (y = p)) as [->|Hy]; [|by rewrite lookup_insert_ne].
    rewrite lookup_insert_eq, lookup_insert_ne; [done|]. naive_solver. }
  assert (∀ (s : T) a, pkg_dir (activate_if a pkg v s).1 q !! w = pkg_dir s q !! w) as Hact.
  { intros s [|]; [|done]. cbn [activate_if]. unfold activateInfraVersion. destruct (negb _); [done|].
    destruct (pkg_dir s pkg !! "current") as [[]|]; try done; cbn [fst]; by apply Hset. }
  unfold installInfraPackage in E. destruct (ensurePackageDir pkg t) as [t1 [u|msg]] eqn:E1.
  2: { injection E as <- <-. unfold ensurePackageDir in E1. destruct (t !! pkg) as [[]|]; injection E1; intros; by subst. }
  assert (pkg_dir t1 q = pkg_dir t q) as Ht1.
  { unfold ensurePackageDir in E1. destruct (t !! pkg) as [[d|]|] eqn:Ep; try discriminate; injection E1 as <-; [done|].
    unfold pkg_dir. destruct (decide (q = pkg)) as [->|Hq]; [by rewrite lookup_insert_eq, Ep|by rewrite lookup_insert_ne]. }
  rewrite <-Ht1 in Hold. destruct (skip && version_exists pkg v t1).
  { destruct (activate_if activate pkg v t1) as [t2 x] eqn:E2. injection E as <- _. specialize (Hact t1 activate). rewrite E2 in Hact.
    cbn in Hact. congruence. }
  destruct (fetcher url) as [bytes|msg] eqn:Ef; [|injection E as <- _; congruence].
  destruct (bool_decide (sha256 bytes = lower digest)) eqn:Eb; cbn [negb] in E; [|injection E as <- _; congruence]. to_prop.
  destruct (extractor bytes) as [content|msg] eqn:Ex; [|injection E as <- _; congruence].
  unfold place in E. destruct (dangling pkg v t1); [injection E as <- _; congruence|].
  destruct (copy content) as [copied failed] eqn:Ec.
  assert (pkg_dir (set_entry pkg v (EDir copied) t1) q !! w = Some e ∧ (∀ active, r = Ok (InstallOk Installed active) → failed = None)) as [Hset1 Hr].
  { destruct failed as [error|]; [injection E as <- <-; by split|]. split; [|done].
    destruct (activate_if activate pkg v (set_entry pkg v (EDir copied) t1)) as [t2 x] eqn:E2. injection E as <- _.
    specialize (Hact (set_entry pkg v (EDir copied) t1) activate). rewrite E2 in Hact. cbn in Hact. congruence. }
  destruct (decide ((q, w) = (pkg, v))) as [Heq|Hne]; [|by rewrite Hset in Hset1]. split; [done|]. injection Heq as -> ->.
  exists bytes, content. split_and!; try done; [|by rewrite Ec]. rewrite Ec. unfold set_entry, pkg_dir in Hset1.
  rewrite !lookup_insert_eq in Hset1. by injection Hset1 as <-.
Qed.

(** When the copy of a new version breaks off, the install fails, and
    installing that version again then succeeds as already present: what was
    copied of it becomes the active version. *)
Theorem partial_copy_activated pkg v url digest (t : T) bytes content partial error :
  tree_ok t → infraIdentifier v = true → v ≠ "current" → t !! pkg ≠ Some None → pkg_dir t pkg !! v = None →
  fetcher url = Ok bytes → sha256 bytes = lower digest → extractor bytes = Ok content → copy content = (partial, Some error) →
  let '(t1, r1) := installInfraPackage lower fetcher sha256 extractor copy pkg v url digest true true t in
  let '(t2, r2) := installInfraPackage lower fetcher sha256 extractor copy pkg v url digest true true t1 in
  r1 = Ok (InstallBad ExtractFailed error) ∧ r2 = Ok (InstallOk AlreadyPresent true) ∧
  pkg_dir t2 pkg !! v = Some (EDir partial) ∧ tree_view t2 !! pkg = Some ({[v]} ∪ versions_of (pkg_dir t pkg), Some v).
Proof.
  intros Ht Hid Hne Hdir Hv Hf Hs Hx Hc. destruct (identifier_plain v Hid) as [_ Hb].
  assert (∃ t0, ensurePackageDir pkg t = (t0, Ok tt) ∧ tree_ok t0 ∧ pkg_dir t0 pkg = pkg_dir t pkg) as (t0&E0&Ht0&Hd0).
  { destruct (ensurePackageDir pkg t) as [t0 [[]|msg]] eqn:E0.
    - exists t0. destruct (ensure_keeps _ _ _ _ E0 Ht) as (?&?&_). by split_and!.
    - unfold ensurePackageDir in E0. by destruct (t !! pkg) as [[]|]. }
  set (t1 := set_entry pkg v (EDir partial) t0).
  assert (installInfraPackage lower fetcher sha256 extractor copy pkg v url digest true true t =
    (t1, Ok (InstallBad ExtractFailed error))) as E1.
  { unfold installInfraPackage. rewrite E0. unfold version_exists, exists_in. cbn [entry_exists]. rewrite Hd0, Hv. cbn [andb].
    rewrite Hf, Hs, (bool_decide_true (lower digest = lower digest)) by done. cbn [negb]. rewrite Hx.
    unfold place, dangling. by rewrite Hd0, Hv, Hc. }
  rewrite E1. clear E1.
  assert (tree_ok t1) as Ht1 by (apply tree_ok_insert, dir_ok_add; [done|by apply pkg_dir_ok|done]).
  assert (pkg_dir t1 pkg = <[v := EDir partial]> (pkg_dir t pkg)) as Hd1.
  { unfold t1, set_entry, pkg_dir at 1. by rewrite lookup_insert_eq, Hd0. }
  assert (v ∈ versions_of (pkg_dir t1 pkg)) as Hin by (rewrite Hd1, versions_add by done; set_solver).
  assert (installInfraPackage lower fetcher sha256 extractor copy pkg v url digest true true t1 =
    (set_entry pkg "current" (ELink v) t1, Ok (InstallOk AlreadyPresent true))) as E2.
  { unfold installInfraPackage. assert (ensurePackageDir pkg t1 = (t1, Ok tt)) as ->.
    { unfold ensurePackageDir, t1, set_entry. by rewrite lookup_insert_eq. }
    unfold version_exists. pose proof (pkg_dir_ok t1 pkg Ht1) as Hd1ok. rewrite exists_plain, bool_decide_true by done. cbn [andb activate_if].
    unfold activateInfraVersion, version_exists. rewrite exists_plain, bool_decide_true by done. cbn [negb].
    destruct (pkg_dir t1 pkg !! "current") as [e|] eqn:Ee; [|done]. destruct Hd1ok as [_ Hc1]. by destruct (Hc1 e Ee) as (target&->&_). }
  rewrite E2. split_and!; [done|done| |].
  - unfold set_entry, pkg_dir at 1. rewrite lookup_insert_eq, lookup_insert_ne, Hd1 by congruence. by rewrite lookup_insert_eq.
  - unfold set_entry. rewrite tree_view_insert, lookup_insert_eq, view_linked by (done || by apply pkg_dir_ok).
    by rewrite Hd1, versions_add.
Qed.
(** ** The node keeps the promise *)

Context (node : string) (clock : string) (resolveArtifact : string → string → result (string * string)).
Context (loss : InfraCall → T → Loss).

Local Abbreviation answers := (node_answers localeCompare lower fetcher sha256 extractor copy node clock resolveArtifact).
Local Abbreviation served := (infra_node localeCompare lower fetcher sha256 extractor copy node clock resolveArtifact loss).

(** What a call does to the tree. *)
Definition proper_call (c : InfraCall) : Prop :=
  match c with
  | IInstall n _ v _ _ | IActivate n _ v => n = node → v ≠ "current"
  | _ => True
  end.

Lemma uninstall_keeps (t : T) pkg v : tree_ok t → tree_ok (infraUninstall pkg v t).1.
Proof.
  intros Ht. unfold infraUninstall. destruct (_ && _); [|done]. destruct v as [v|].
  - unfold removeInfraVersion. destruct (negb _); [done|]. cbn. apply tree_ok_insert; [done|]. by apply dir_ok_delete, pkg_dir_ok.
  - destruct (removeInfraPackage pkg t) as [t' removed] eqn:E. by apply remove_package_spec in E as [? _].
Qed.

Lemma answers_keep c (t : T) : tree_ok t → proper_call c → tree_ok (answers c t).1.
Proof.
  intros Ht Hp. destruct c as [|n|n|n pkg v|n pkg v url digest|n pkg v|n pkg v|path]; try done; cbn [node_answers proper_call] in *;
    destruct (bool_decide (n = node)) eqn:En; try done; to_prop.
  - unfold infraInstall. destruct (infraIdentifier pkg && infraIdentifier v && _ && _) eqn:Ei; [|done].
    rewrite !andb_true_iff in Ei. destruct Ei as [[[_ Hv] _] _].
    destruct (install pkg v url digest true true t) as [t' r] eqn:E. by eapply install_spec in E as [? _]; [|done|done|apply Hp].
  - unfold infraActivate. destruct (infraIdentifier pkg && infraIdentifier v) eqn:Ei; [|done].
    apply andb_true_iff in Ei as [_ Hv]. by apply activate_keeps; [| |apply Hp].
  - by apply uninstall_keeps.
Qed.

Lemma answers_still c (t : T) :
  (match c with IInstall n _ _ _ _ | IActivate n _ _ | IUninstall n _ _ => n ≠ node | _ => True end) → (answers c t).1 = t.
Proof.
  destruct c as [|n|n|n pkg v|n pkg v url digest|n pkg v|n pkg v|path]; try done; intros Hn; cbn [node_answers];
    by rewrite (bool_decide_false (n = node)).
Qed.

Lemma served_ok c (t t' : T) r : served c t = (t', Ok r) → answers c t = (t', Ok r).
Proof. unfold infra_node. by destruct (loss c t). Qed.

#[export, refine] Instance infra_host : InfraHost served node := {|
  host_ok := tree_ok; host_view := tree_view; host_proper := λ v, v ≠ "current"
|}.
Proof.
  - intros c t Ht Hp. unfold infra_node. destruct (loss c t); [apply answers_keep|done|apply answers_keep]; try done; by destruct c.
  - intros c t Ht Hc. unfold infra_node. destruct (loss c t); [|done|]; cbn; by rewrite answers_still.
  - intros t t' rows Ht E%served_ok. cbn [node_answers] in E. rewrite bool_decide_true in E by done. injection E as <- <-.
    by apply list_spec.
  - intros pkg v url digest t t' state active Ht Hne E%served_ok. cbn [node_answers] in E. rewrite bool_decide_true in E by done.
    unfold infraInstall in E. destruct (infraIdentifier pkg && infraIdentifier v && _ && _) eqn:Ei; [|done].
    rewrite !andb_true_iff in Ei. destruct Ei as [[[_ Hv] _] _].
    destruct (install_spec _ _ _ _ _ _ _ Ht Hv Hne E) as [_ H]. by eapply H.
  - intros pkg v t t' r Ht Hne E%served_ok. cbn [node_answers] in E. rewrite bool_decide_true in E by done.
    unfold infraActivate in E. destruct (infraIdentifier pkg && infraIdentifier v) eqn:Ei; [|done].
    apply andb_true_iff in Ei as [_ Hv]. by eapply activate_view in E as (_&?&_).
  - intros pkg v t t' r Ht Hne E%served_ok. cbn [node_answers] in E. rewrite bool_decide_true in E by done.
    unfold infraUninstall in E. destruct (infraIdentifier pkg && _); [|done].
    destruct (removeInfraVersion pkg v t) as [t1 removed] eqn:E1. injection E as <- _. by eapply remove_version_spec in E1 as [_ ?].
  - intros pkg t t' r Ht E%served_ok. cbn [node_answers] in E. rewrite bool_decide_true in E by done.
    unfold infraUninstall in E. destruct (infraIdentifier pkg && _); [|done].
    destruct (removeInfraPackage pkg t) as [t1 removed] eqn:E1. injection E as <- _. by eapply remove_package_spec in E1 as [_ ?].
Defined.

(** C32 (refinement): the node's own code keeps the promise of a convergent infra host:
    when every action of applying a NodeRun to it succeeds, whatever calls were
    lost, it holds each wanted package at exactly its version, active, and nothing
    else; a further plan has nothing to do. *)
Theorem noderun_converges manifest (t t' : T) r :
  nr_node manifest = node → tree_ok t → Forall (λ item, ni_version item ≠ "current") (nr_infra manifest) →
  unique_pkgs [] (nr_infra manifest) = true → applyNodeRun served manifest false t = (t', Ok r) →
  Forall (λ o, oc_ok o = true) (na_outcomes r) →
  ns_phase (na_status r) = NConverged ∧ (∀ p, tree_view t' !! p = desired_at (nr_infra manifest) p) ∧
  ∀ t'' live, served (IList node) t' = (t'', Ok live) →
    planNodeRun (nr_infra manifest) live = (λ item, ASkip (ni_pkg item) (ni_version item)) <$> nr_infra manifest.
Proof. exact (apply_converges served node manifest t t' r). Qed.

(** Upgrading a package whose new version the resolver does not know
    uninstalls the versions the node has, the active one among them: the package is
    left without any. *)
Theorem unresolved_upgrade_removes manifest item vs old (t t' : T) r msg :
  nr_node manifest = node → tree_ok t → Forall (λ item, ni_version item ≠ "current") (nr_infra manifest) →
  unique_pkgs [] (nr_infra manifest) = true → item ∈ nr_infra manifest →
  tree_view t !! ni_pkg item = Some (vs, Some old) → ni_version item ∉ vs →
  resolveArtifact (ni_pkg item) (ni_version item) = Err msg →
  applyNodeRun served manifest false t = (t', Ok r) →
  Forall (λ o, oc_ok o = true ∨ installs (ni_pkg item) (ni_version item) (oc_action o) = true) (na_outcomes r) →
  ns_phase (na_status r) = NFailed ∧ tree_view t' !! ni_pkg item = Some (∅, None).
Proof.
  intros Hn Ht Hp Hu Hin HV Hnew Hres E Hall.
  refine (upgrade_unresolved served node manifest item vs old t t' r Hn Ht Hp Hu Hin HV Hnew _ E Hall).
  intros t0. unfold infra_node. cbn [node_answers]. rewrite Hres. destruct (loss _ t0); by eexists.
Qed.

End layout.

Module InfraExample.
Definition digest0 : string := String.concat "" (replicate 64 "a").
Definition dir1 : PkgDir string := {["b1" := EDir "one"; "current" := ELink "b1"]}.
Definition tree0 : Tree string := {["llama" := Some dir1]}.
Definition item (version : string) : NodeRunInfraItem := mkInfraItem "llama" version false [] None 1.
Definition manifest (version : string) : NodeRun := mkNodeRun "n" ∅ "node1" None [item version] None.

(** Bytes and contents are texts; [broken]: the copy breaks off. *)
Definition install (broken : bool) :=
  installInfraPackage (λ _, "d") (λ url : string, Ok url) (λ _, "d") (λ bytes, Ok bytes)
    (λ content, if broken then ("half", Some "ENOSPC") else (content, None)).
Definition node (known : bool) :=
  infra_node (λ a b, text_order a b) (λ _, "d") (λ url : string, Ok url) (λ _, "d") (λ bytes, Ok bytes) (λ content, (content, None))
    "node1" "now" (λ _ v, if known then Ok ("url-" +:+ v, digest0) else Err "unknown version") (λ _ _, Kept).

Definition run (known : bool) := applyNodeRun (node known) (manifest "b2") false tree0.

Lemma tree0_ok : tree_ok tree0.
Proof.
  intros pkg dir H. unfold tree0 in H. apply lookup_singleton_Some in H as [_ [= <-]]. split.
  - intros name e. unfold dir1. intros [[<- <-]|[_ H]]%lookup_insert_Some; [done|]. by apply lookup_singleton_Some in H as [<- _].
  - intros e H. vm_compute in H. injection H as <-. exists "b1". by split.
Qed.

Definition the_result (r : result NodeRunApplyResult) : NodeRunApplyResult :=
  match r with Ok x => x | Err _ => mkNodeRunResult [] [] (mkNodeRunStatus NPending [] "" []) None end.

Lemma run_known : run true = ((run true).1, Ok (the_result (run true).2)).
Proof. vm_compute. reflexivity. Qed.
Lemma run_unknown : run false = ((run false).1, Ok (the_result (run false).2)).
Proof. vm_compute. reflexivity. Qed.

Lemma not_current version : version ≠ "current" → Forall (λ i, ni_version i ≠ "current") (nr_infra (manifest version)).
Proof. intros H. by repeat constructor. Qed.

Lemma noderun_converges_witness :
  ns_phase (na_status (the_result (run true).2)) = NConverged ∧
  (∀ p, tree_view (run true).1 !! p = desired_at [item "b2"] p) ∧
  ∀ t'' live, node true (IList "node1") (run true).1 = (t'', Ok live) → planNodeRun [item "b2"] live = [ASkip "llama" "b2"].
Proof.
  refine (noderun_converges _ _ _ _ _ _ "node1" "now" _ _ (manifest "b2") tree0 _ _ _ tree0_ok (not_current _ _) _ run_known _).
  - reflexivity.
  - intros [=].
  - reflexivity.
  - vm_compute. repeat constructor.
Defined.

Lemma unresolved_upgrade_removes_witness :
  ns_phase (na_status (the_result (run false).2)) = NFailed ∧ tree_view (run false).1 !! "llama" = Some (∅, None).
Proof.
  assert (tree_view tree0 !! "llama" = Some ({["b1"]}, Some "b1")) as HV.
  { rewrite tree_view_lookup. vm_compute. reflexivity. }
  refine (unresolved_upgrade_removes _ _ _ _ _ _ "node1" "now" _ _ (manifest "b2") (item "b2") {["b1"]} "b1" tree0 _ _ "unknown version"
            _ tree0_ok (not_current _ _) _ _ HV _ _ run_unknown _).
  - reflexivity.
  - intros [=].
  - reflexivity.
  - left.
  - by intros H%elem_of_singleton.
  - reflexivity.
  - vm_compute. repeat constructor; (by left) || (by right).
Defined.

Lemma install_verified_witness :
  ("llama", "b2") = ("llama", "b2") ∧
  ∃ bytes content, Ok "url" = Ok bytes ∧ "d" = "d" ∧ Ok bytes = Ok content ∧ EDir "url" = EDir content ∧
    (∀ active, (install false "llama" "b2" "url" digest0 true true tree0).2 = Ok (InstallOk Installed active) → @None string = None).
Proof.
  unshelve eapply (install_verified text_order (λ _, "d") (λ url : string, Ok url) (λ _, "d") (λ bytes, Ok bytes) (λ content, (content, None))
    "llama" "b2" "url" digest0 true true tree0 (install false "llama" "b2" "url" digest0 true true tree0).1 _ "llama" "b2" (EDir "url")).
  - vm_compute. reflexivity.
  - intros [=].
  - vm_compute. reflexivity.
  - vm_compute. intros [=].
Defined.

Lemma partial_copy_activated_witness :
  let '(t1, r1) := install true "llama" "b2" "url" digest0 true true tree0 in
  let '(t2, r2) := install true "llama" "b2" "url" digest0 true true t1 in
  r1 = Ok (InstallBad ExtractFailed "ENOSPC") ∧ r2 = Ok (InstallOk AlreadyPresent true) ∧
  pkg_dir t2 "llama" !! "b2" = Some (EDir "half") ∧ tree_view t2 !! "llama" = Some ({["b2"]} ∪ versions_of (pkg_dir tree0 "llama"), Some "b2").
Proof.
  apply (partial_copy_activated text_order (λ _, "d") (λ url : string, Ok url) (λ _, "d") (λ bytes, Ok bytes) (λ content, ("half", Some "ENOSPC"))
           "llama" "b2" "url" digest0 tree0 "url" "url" "half" "ENOSPC" tree0_ok);
    first [reflexivity|intros [=]|idtac].
Defined.
End InfraExample.
