(* ===== verification/HostConditions.v ===== *)
(** * ModelHosts: runtime conditions

    packages/core/src/engines/conditions.ts: the record of reconcile errors, OOM
    kills and restarts that outlives a host's launch record, on the node beside
    the workload and, for hosts of other nodes, mirrored by the controller under
    .modelhost-history.  Times are the texts of [toISOString]. *)

From S2P Require Import Prelude JsText JsJson HostSidecars WorkloadStore.
From Stdlib Require Import Ascii.

#[local] Open Scope string_scope.
#[local] Open Scope list_scope.
#[local] Open Scope Z_scope.

Definition RECONCILE_ERROR_CONDITION : string := "ReconcileError".
Definition OOM_KILLED_CONDITION : string := "OOMKilled".

Inductive ModelHostRestartReason := EngineExited | SpecChanged.
#[export] Instance RestartReason_eq : EqDecision ModelHostRestartReason.
Proof. solve_decision. Defined.

Definition reason_text (r : ModelHostRestartReason) : string :=
  match r with EngineExited => "EngineExited" | SpecChanged => "SpecChanged" end.

(** [cd_true]: status "True".  A number is [None] when it is not finite. *)
Record ModelHostCondition := mkCond {
  cd_type : string; cd_true : bool; cd_reason : string; cd_message : string; cd_firstSeen : string; cd_lastSeen : string;
  cd_lastTransitionTime : string; cd_count : option Z; cd_cgroupOomKill : option (option Z)
}.

Record ModelHostRuntimeStatus := mkRuntime {
  rt_conditions : list ModelHostCondition; rt_restarts : Z; rt_lastRestartAt : option string;
  rt_lastRestartReason : option ModelHostRestartReason
}.

Definition emptyModelHostRuntimeStatus : ModelHostRuntimeStatus := mkRuntime [] 0 None None.

(** ** Updates *)

Definition findCondition (record : ModelHostRuntimeStatus) (type : string) : option ModelHostCondition :=
  find (λ c, bool_decide (cd_type c = type)) (rt_conditions record).

Definition withCondition (record : ModelHostRuntimeStatus) (condition : ModelHostCondition) : ModelHostRuntimeStatus :=
  mkRuntime (filter (λ c, cd_type c ≠ cd_type condition) (rt_conditions record) ++ [condition]) (rt_restarts record)
    (rt_lastRestartAt record) (rt_lastRestartReason record).

Definition ongoing (prev : option ModelHostCondition) : option ModelHostCondition :=
  c ← prev; if cd_true c then Some c else None.

Definition next_count (prev : option ModelHostCondition) : option Z :=
  match prev with Some c => (λ n, n + 1) <$> cd_count c | None => Some 1 end.

Definition withReconcileError (record : ModelHostRuntimeStatus) (reason message now : string) : ModelHostRuntimeStatus :=
  let prev := ongoing (findCondition record RECONCILE_ERROR_CONDITION) in
  withCondition record
    (mkCond RECONCILE_ERROR_CONDITION true reason message (from_option cd_firstSeen now prev) now
       (from_option cd_lastTransitionTime now prev) (next_count prev) None).

Definition withReconcileRecovered (record : ModelHostRuntimeStatus) (reason now : string) : option ModelHostRuntimeStatus :=
  prev ← ongoing (findCondition record RECONCILE_ERROR_CONDITION);
  Some (withCondition record
          (mkCond (cd_type prev) false reason (cd_message prev) (cd_firstSeen prev) (cd_lastSeen prev) now (cd_count prev)
             (cd_cgroupOomKill prev))).

Definition withOomKill (record : ModelHostRuntimeStatus) (cgroupOomKill : Z) (now : string) : ModelHostRuntimeStatus :=
  let prev := findCondition record OOM_KILLED_CONDITION in
  withCondition record
    (mkCond OOM_KILLED_CONDITION true "CgroupOOMKill"
       ("engine was OOM-killed (cgroup oom_kill " +:+ pretty cgroupOomKill +:+ ")")
       (from_option cd_firstSeen now prev) now (from_option cd_lastTransitionTime now prev) (next_count prev)
       (Some (Some cgroupOomKill))).

Definition withRestart (record : ModelHostRuntimeStatus) (reason : ModelHostRestartReason) (now : string) : ModelHostRuntimeStatus :=
  mkRuntime (rt_conditions record) (rt_restarts record + 1) (Some now) (Some reason).

(** ** Files *)

Definition json_number (n : option Z) : Json := match n with Some z => JNum z | None => JNull end.

(** What [JSON.parse] makes of what [JSON.stringify] printed. *)
Definition condition_json (c : ModelHostCondition) : Json :=
  JObj ([("type", JStr (cd_type c)); ("status", JStr (if cd_true c then "True" else "False")); ("reason", JStr (cd_reason c));
         ("message", JStr (cd_message c)); ("firstSeen", JStr (cd_firstSeen c)); ("lastSeen", JStr (cd_lastSeen c));
         ("lastTransitionTime", JStr (cd_lastTransitionTime c)); ("count", json_number (cd_count c))] ++
        match cd_cgroupOomKill c with Some n => [("cgroupOomKill", json_number n)] | None => [] end).

Definition runtime_fields (r : ModelHostRuntimeStatus) : list (string * Json) :=
  [("conditions", JArr (condition_json <$> rt_conditions r)); ("restarts", JNum (rt_restarts r));
   ("lastRestartAt", string_or_null (rt_lastRestartAt r));
   ("lastRestartReason", string_or_null (reason_text <$> rt_lastRestartReason r))].

(** [typeof v === "number"] *)
Definition number (v : option Json) : option (option Z) :=
  match v with Some (JNum n) => Some (Some n) | Some JNaN => Some None | _ => None end.

Definition parseCondition (raw : Json) : option ModelHostCondition :=
  let field key := json_string (opt_get (Some raw) key) in
  type ← field "type"; reason ← field "reason"; message ← field "message"; firstSeen ← field "firstSeen";
  lastSeen ← field "lastSeen"; lastTransitionTime ← field "lastTransitionTime";
  status ← (match field "status" with Some "True" => Some true | Some "False" => Some false | _ => None end);
  count ← number (opt_get (Some raw) "count");
  Some (mkCond type status reason message firstSeen lastSeen lastTransitionTime count
          (number (opt_get (Some raw) "cgroupOomKill"))).

Definition parseRestartReason (raw : option Json) : option ModelHostRestartReason :=
  match raw with
  | Some (JStr "EngineExited") => Some EngineExited
  | Some (JStr "SpecChanged") => Some SpecChanged
  | _ => None
  end.

Definition isSafeInteger (n : Z) : bool := Z.abs n <=? 2 ^ 53 - 1.

Definition parseRuntimeStatus (parsed : Json) : ModelHostRuntimeStatus :=
  let field key := opt_get (Some parsed) key in
  mkRuntime
    (match field "conditions" with Some (JArr l) => omap parseCondition l | _ => [] end)
    (match field "restarts" with Some (JNum n) => if isSafeInteger n then n else 0 | _ => 0 end)
    (json_string (field "lastRestartAt"))
    (parseRestartReason (field "lastRestartReason")).

(** The value of a file that exists and parses; reading a field of null throws. *)
Definition parsed_file (file : option FileText) : option Json :=
  text ← file; v ← text; match v with JNull => None | _ => Some v end.

Definition readModelHostRuntimeStatus (file : option FileText) : option ModelHostRuntimeStatus :=
  parseRuntimeStatus <$> parsed_file file.

Definition updateModelHostRuntimeStatus (update : ModelHostRuntimeStatus → option ModelHostRuntimeStatus)
    (file : option FileText) : option FileText :=
  match update (default emptyModelHostRuntimeStatus (readModelHostRuntimeStatus file)) with
  | None => file
  | Some next => Some (Some (JObj (runtime_fields next)))
  end.

Definition recordModelHostReconcileError (reason message now : string) : option FileText → option FileText :=
  updateModelHostRuntimeStatus (λ r, Some (withReconcileError r reason message now)).

Definition recordModelHostReconcileRecovered (reason now : string) (file : option FileText) : option FileText :=
  match file with
  | None => None
  | Some _ => updateModelHostRuntimeStatus (λ r, withReconcileRecovered r reason now) file
  end.

Definition recordModelHostOomKill (cgroupOomKill : Z) (now : string) : option FileText → option FileText :=
  updateModelHostRuntimeStatus (λ r, Some (withOomKill r cgroupOomKill now)).

Definition recordModelHostRestart (reason : ModelHostRestartReason) (now : string) : option FileText → option FileText :=
  updateModelHostRuntimeStatus (λ r, Some (withRestart r reason now)).

(** ** The controller's mirror *)

Record ControllerHostHistory := mkHistory {
  hh_runtime : ModelHostRuntimeStatus; hh_node : string; hh_workload : string; hh_updatedAt : string; hh_lastKnownRunning : bool
}.

Definition segment_bad (value : string) : bool :=
  bool_decide (value = "") || bool_decide (value = ".") || bool_decide (value = "..") ||
  negb (char_free "/"%char value) || negb (char_free backslash value).

Definition assertHistorySegment (value kind : string) : result unit :=
  if segment_bad value then Err ("invalid controller history " +:+ kind +:+ ": " +:+ quote value) else Ok tt.

(** The segments of [resolve(...)], and of [join(...)] with an absolute base. *)
Definition resolve_path (segments : list string) : list string := reverse (normalize segments []).

Definition controllerHostHistoryPath (workloadsDir : list string) (node name : string) : result (list string) :=
  assertHistorySegment node "node";;
  assertHistorySegment name "name";;
  let base := resolve_path (workloadsDir ++ [".modelhost-history"]) in
  let path := resolve_path (base ++ split "/"%char node ++ split "/"%char (name +:+ ".json")) in
  if negb (bool_decide (resolve_path path = path)) ||
     negb (bool_decide (take (length base) path = base) && (length base <? length path)%nat)
  then Err ("controller history path escapes " +:+ path_text base +:+ ": " +:+ node +:+ "/" +:+ name)
  else Ok path.

Notation HistoryFiles := (gmap (list string) FileText).

Definition parse_history (node name : string) (v : Json) : ControllerHostHistory :=
  mkHistory (parseRuntimeStatus v) node name (default "" (json_string (opt_get (Some v) "updatedAt")))
    (match opt_get (Some v) "lastKnownRunning" with Some (JBool b) => b | _ => false end).

Definition readControllerHostHistory (workloadsDir : list string) (node name : string) (files : HistoryFiles) :
    option ControllerHostHistory :=
  match controllerHostHistoryPath workloadsDir node name with
  | Err _ => None
  | Ok path => parse_history node name <$> parsed_file (files !! path)
  end.

Definition history_json (h : ControllerHostHistory) : Json :=
  JObj (runtime_fields (hh_runtime h) ++
        [("node", JStr (hh_node h)); ("workload", JStr (hh_workload h)); ("updatedAt", JStr (hh_updatedAt h));
         ("lastKnownRunning", JBool (hh_lastKnownRunning h))]).

Definition new_history (node name now : string) : ControllerHostHistory :=
  mkHistory emptyModelHostRuntimeStatus node name now false.

Definition updateControllerHostHistory (workloadsDir : list string) (node name now : string)
    (update : ControllerHostHistory → option ControllerHostHistory) (files : HistoryFiles) : result HistoryFiles :=
  match update (default (new_history node name now) (readControllerHostHistory workloadsDir node name files)) with
  | None => Ok files
  | Some next =>
      path ← controllerHostHistoryPath workloadsDir node name;
      Ok (<[path := Some (history_json (mkHistory (hh_runtime next) (hh_node next) (hh_workload next) now
                                          (hh_lastKnownRunning next)))]> files)
  end.

Definition removeControllerHostHistory (workloadsDir : list string) (node name : string) (files : HistoryFiles) : HistoryFiles :=
  match controllerHostHistoryPath workloadsDir node name with Err _ => files | Ok path => delete path files end.
