(* ===== verification/HostConditionsProps.v ===== *)
(** * ModelHosts: what the runtime conditions say

    Theorems about HostConditions.v: records read back as written; the condition
    of reconcile errors describes the latest run of failing passes; histories of
    different hosts do not meet. *)

From S2P Require Import Prelude JsText JsJson HostSidecars WorkloadStore HostConditions.
From Stdlib Require Import Ascii.

#[local] Open Scope string_scope.
#[local] Open Scope list_scope.
#[local] Open Scope Z_scope.

(** ** What reads back *)

Definition finite_number (n : option (option Z)) : bool := match n with Some None => false | _ => true end.

Definition cond_ok (c : ModelHostCondition) : Prop :=
  is_Some (cd_count c) ∧ finite_number (cd_cgroupOomKill c) = true.

(** Every condition once, finite numbers, a count of restarts that is a safe integer. *)
Record runtime_ok (r : ModelHostRuntimeStatus) : Prop := {
  ok_unique : NoDup (cd_type <$> rt_conditions r);
  ok_conds : Forall cond_ok (rt_conditions r);
  ok_restarts : isSafeInteger (rt_restarts r) = true
}.

Lemma parse_condition c : cond_ok c → parseCondition (condition_json c) = Some c.
Proof.
  destruct c as [type status reason message first last trans count oom]. intros [[n Hn] Hf]. cbn in Hn, Hf. subst count.
  unfold parseCondition, condition_json.
  cbn [cd_type cd_true cd_reason cd_message cd_firstSeen cd_lastSeen cd_lastTransitionTime cd_count cd_cgroupOomKill json_number].
  destruct oom as [[o|]|]; [|done|]; cbn [opt_get app json_number]; json_fields; cbn [json_string mbind option_bind];
    destruct status; reflexivity.
Qed.

Lemma parse_conditions l : Forall cond_ok l → omap parseCondition (condition_json <$> l) = l.
Proof.
  induction 1 as [|c l Hc _ IH]; [done|]. change (condition_json <$> c :: l) with (condition_json c :: (condition_json <$> l)).
  change (omap parseCondition (condition_json c :: (condition_json <$> l))) with
    (match parseCondition (condition_json c) with Some x => x :: omap parseCondition (condition_json <$> l)
     | None => omap parseCondition (condition_json <$> l) end).
  by rewrite parse_condition, IH.
Qed.

Lemma parse_reason r : parseRestartReason (Some (string_or_null (reason_text <$> r))) = r.
Proof. by destruct r as [[]|]. Qed.

(** Whatever other fields follow. *)
Lemma runtime_reads_back r more : runtime_ok r → parseRuntimeStatus (JObj (runtime_fields r ++ more)) = r.
Proof.
  intros [_ Hc Hs]. destruct r as [conds restarts at_ why]. cbn in Hc, Hs. unfold parseRuntimeStatus, runtime_fields.
  cbn [rt_conditions rt_restarts rt_lastRestartAt rt_lastRestartReason opt_get app]. json_fields.
  rewrite parse_conditions, Hs, parse_reason by done. by destruct at_.
Qed.

Lemma parsed_obj fields : parsed_file (Some (Some (JObj fields))) = Some (JObj fields).
Proof. done. Qed.

Lemma read_runtime r : runtime_ok r → readModelHostRuntimeStatus (Some (Some (JObj (runtime_fields r)))) = Some r.
Proof.
  intros H. unfold readModelHostRuntimeStatus. rewrite parsed_obj. cbn [fmap option_fmap option_map]. f_equal.
  rewrite <-(app_nil_r (runtime_fields r)). by apply runtime_reads_back.
Qed.

(** ** What updates keep *)

Lemma withCondition_ok r c : cond_ok c → runtime_ok r → runtime_ok (withCondition r c).
Proof.
  intros Hc [Hu Hall Hs]. split; cbn [rt_conditions rt_restarts withCondition]; [| |done].
  - rewrite fmap_app. apply NoDup_app. split_and!.
    + eapply sublist_NoDup; [exact Hu|]. apply fmap_sublist, sublist_filter.
    + intros t (x&->&[Hne _]%list_elem_of_filter)%list_elem_of_fmap Hin. cbn in Hin. apply list_elem_of_singleton in Hin. done.
    + apply NoDup_singleton.
  - apply Forall_app. split; [|by apply Forall_singleton]. rewrite Forall_forall in Hall |- *. intros x [_ Hx]%list_elem_of_filter. by apply Hall.
Qed.

Lemma findCondition_ok r type c : runtime_ok r → findCondition r type = Some c → cond_ok c ∧ cd_type c = type.
Proof.
  intros [_ Hall _] H%find_some. destruct H as [Hin Ht]. to_prop. split; [|done].
  rewrite Forall_forall in Hall. apply Hall. by apply list_elem_of_In.
Qed.

Lemma next_count_ok prev : (∀ c, prev = Some c → is_Some (cd_count c)) → is_Some (next_count prev).
Proof. destruct prev as [c|]; [|by eexists]. intros H. destruct (H c eq_refl) as [n Hn]. cbn. rewrite Hn. by eexists. Qed.

(** ** Histories

    What happens to a host, as the reconciler and the supervisor record it. *)

Inductive Happening :=
| HError (reason message now : string)
| HRecovered (reason now : string)
| HRestart (reason : ModelHostRestartReason) (now : string)
| HOom (cgroupOomKill : Z) (now : string).

Definition record (h : Happening) : option FileText → option FileText :=
  match h with
  | HError reason message now => recordModelHostReconcileError reason message now
  | HRecovered reason now => recordModelHostReconcileRecovered reason now
  | HRestart reason now => recordModelHostRestart reason now
  | HOom n now => recordModelHostOomKill n now
  end.

Definition records (hs : list Happening) : option FileText → option FileText := λ file, foldl (λ f h, record h f) file hs.

(** The same without the file. *)
Definition happen (h : Happening) (r : ModelHostRuntimeStatus) : ModelHostRuntimeStatus :=
  match h with
  | HError reason message now => withReconcileError r reason message now
  | HRecovered reason now => default r (withReconcileRecovered r reason now)
  | HRestart reason now => withRestart r reason now
  | HOom n now => withOomKill r n now
  end.

Definition status_of (file : option FileText) : ModelHostRuntimeStatus :=
  default emptyModelHostRuntimeStatus (readModelHostRuntimeStatus file).

Definition is_restart (h : Happening) : bool := match h with HRestart _ _ => true | _ => false end.

Lemma happen_restarts h r : rt_restarts (happen h r) = rt_restarts r + (if is_restart h then 1 else 0).
Proof.
  destruct h as [|reason now| |]; cbn; try lia. unfold withReconcileRecovered. destruct (ongoing _); cbn; lia.
Qed.

Lemma ongoing_some prev c : ongoing prev = Some c → prev = Some c ∧ cd_true c = true.
Proof. unfold ongoing. destruct prev as [x|]; cbn; [|done]. destruct (cd_true x) eqn:E; [|done]. by intros [= ->]. Qed.

Lemma happen_ok h r : isSafeInteger (rt_restarts (happen h r)) = true → runtime_ok r → runtime_ok (happen h r).
Proof.
  intros Hs Hr. destruct h as [reason message now|reason now|reason now|n now]; cbn in *.
  - apply withCondition_ok; [|done]. split; [|done]. apply next_count_ok. intros c [Hc _]%ongoing_some.
    by apply findCondition_ok in Hc as [[? _] _].
  - unfold withReconcileRecovered in *. destruct (ongoing _) as [c|] eqn:Ec; [|done]. cbn in *.
    apply withCondition_ok; [|done]. apply ongoing_some in Ec as [Ec _]. by apply findCondition_ok in Ec as [[??] _].
  - destruct Hr as [Hu Hall _]. by split.
  - apply withCondition_ok; [|done]. split; [|done]. apply next_count_ok. intros c Hc.
    by apply findCondition_ok in Hc as [[? _] _].
Qed.

Lemma update_status update file r :
  update (status_of file) = Some r → runtime_ok r → status_of (updateModelHostRuntimeStatus update file) = r.
Proof. intros E H. unfold updateModelHostRuntimeStatus. fold (status_of file). rewrite E. unfold status_of. by rewrite read_runtime. Qed.

Lemma record_happens h file :
  runtime_ok (happen h (status_of file)) → status_of (record h file) = happen h (status_of file).
Proof.
  intros Hok. destruct h as [reason message now|reason now|reason now|n now]; cbn [record happen] in *;
    try (by apply update_status).
  unfold recordModelHostReconcileRecovered. destruct file as [text|]; [|done].
  destruct (withReconcileRecovered (status_of (Some text)) reason now) as [r|] eqn:E; cbn [default from_option id] in *;
    [by apply update_status|].
  unfold updateModelHostRuntimeStatus. fold (status_of (Some text)). by rewrite E.
Qed.

Lemma happens_ok hs r :
  runtime_ok r → 0 <= rt_restarts r → rt_restarts r + Z.of_nat (length hs) < 2 ^ 53 →
  runtime_ok (foldl (λ r h, happen h r) r hs) ∧ ∀ file, status_of file = r → status_of (records hs file) = foldl (λ r h, happen h r) r hs.
Proof.
  revert r. induction hs as [|h hs IH]; intros r Hok Hpos Hlen; [by split|]. cbn [foldl length] in *.
  pose proof (happen_restarts h r) as Hr.
  assert (rt_restarts (happen h r) <= rt_restarts r + 1 ∧ 0 <= rt_restarts (happen h r)) as [Hle Hge] by (destruct (is_restart h); lia).
  assert (runtime_ok (happen h r)) as Hok'.
  { apply happen_ok; [|done]. unfold isSafeInteger. apply Z.leb_le. lia. }
  destruct (IH (happen h r) Hok' Hge ltac:(lia)) as [IH1 IH2]. split; [done|]. intros file Hf. cbn.
  apply IH2. rewrite <-Hf in *. by apply record_happens.
Qed.

(** ** What a history should read

    The newest comes first. *)

(** Failing and passing, the newest first. *)
Definition is_pass (h : Happening) : bool := match h with HError _ _ _ | HRecovered _ _ => true | _ => false end.
Definition passes (hs : list Happening) : list Happening := filter (λ h, is_pass h = true) (reverse hs).

Fixpoint run_of (p : Happening → bool) (hs : list Happening) : list Happening :=
  match hs with h :: hs' => if p h then h :: run_of p hs' else [] | [] => [] end.

Definition failing (h : Happening) : bool := match h with HError _ _ _ => true | _ => false end.
Definition passing (h : Happening) : bool := negb (failing h).
Definition at_time (h : Happening) : string :=
  match h with HError _ _ t | HRecovered _ t | HRestart _ t | HOom _ t => t end.
Definition recovery_reason (h : Happening) : string := match h with HRecovered r _ => r | _ => "" end.

(** The condition of reconcile errors, told from the latest run of failing
    passes and the passes since. *)
Definition expected_error (ps : list Happening) : option ModelHostCondition :=
  let since := run_of passing ps in
  let run := run_of failing (drop (length since) ps) in
  match run with
  | HError reason message t :: _ =>
      let began := default "" (at_time <$> last run) in
      Some (mkCond RECONCILE_ERROR_CONDITION (bool_decide (since = [])) (default reason (recovery_reason <$> last since)) message
              began t (default began (at_time <$> last since)) (Some (Z.of_nat (length run))) None)
  | _ => None
  end.

Lemma passes_snoc hs h : passes (hs ++ [h]) = if is_pass h then h :: passes hs else passes hs.
Proof.
  unfold passes. rewrite reverse_snoc. destruct (is_pass h) eqn:E; [by rewrite filter_cons_True|].
  rewrite filter_cons_False; [done|]. by rewrite E.
Qed.

Lemma find_app_none {A} (p : A → bool) l k : find p (l ++ k) = match find p l with Some x => Some x | None => find p k end.
Proof. induction l as [|x l IH]; [done|]. cbn. by destruct (p x). Qed.

Lemma find_with r c type :
  findCondition (withCondition r c) type = if bool_decide (type = cd_type c) then Some c else findCondition r type.
Proof.
  unfold findCondition, withCondition. cbn [rt_conditions]. rewrite find_app_none. cbn [find].
  destruct (bool_decide (type = cd_type c)) eqn:E; to_prop.
  - subst type. rewrite (bool_decide_true (cd_type c = cd_type c)) by done.
    destruct (find _ _) as [x|] eqn:Ef; [|done]. apply find_some in Ef as [Hin Ht]. to_prop.
    apply list_elem_of_In, list_elem_of_filter in Hin as [? _]. done.
  - rewrite (bool_decide_false (cd_type c = type)) by done.
    assert (∀ l, find (λ c0, bool_decide (cd_type c0 = type)) (filter (λ c0, cd_type c0 ≠ cd_type c) l) =
      find (λ c0, bool_decide (cd_type c0 = type)) l) as Hl.
    { induction l as [|x l IH]; [done|]. cbn [find]. destruct (decide (cd_type x = cd_type c)) as [Ex|Ex].
      - rewrite filter_cons_False by naive_solver. rewrite (bool_decide_false (cd_type x = type)) by congruence. exact IH.
      - rewrite filter_cons_True by done. cbn [find]. by rewrite IH. }
    rewrite Hl. by destruct (find _ _).
Qed.

Lemma expected_status ps c : expected_error ps = Some c → cd_true c = bool_decide (run_of passing ps = []).
Proof.
  unfold expected_error. destruct (run_of failing _) as [|[] run]; try done. by intros [= <-].
Qed.

Lemma expected_passing h ps : passing h = true → ongoing (expected_error (h :: ps)) = None.
Proof.
  intros Hp. destruct (expected_error (h :: ps)) as [c|] eqn:E; [|done]. apply expected_status in E. cbn [run_of] in E.
  rewrite Hp, bool_decide_false in E by done. unfold ongoing. cbn. by rewrite E.
Qed.

Lemma expected_error_fails ps reason message t :
  expected_error (HError reason message t :: ps) =
    let prev := ongoing (expected_error ps) in
    Some (mkCond RECONCILE_ERROR_CONDITION true reason message (from_option cd_firstSeen t prev) t
            (from_option cd_lastTransitionTime t prev) (next_count prev) None).
Proof.
  unfold expected_error at 1. cbn [run_of passing failing negb length drop].
  destruct ps as [|[reason' message' t'|reason' t'|reason' t'|n' t'] ps]; [done| |by rewrite expected_passing..].
  unfold expected_error. cbn [run_of passing failing negb length drop]. cbn zeta.
  set (run := run_of failing ps). cbn [ongoing mbind option_bind cd_true bool_decide]. rewrite bool_decide_true by done.
  cbn [from_option cd_firstSeen cd_lastTransitionTime next_count cd_count fmap option_fmap option_map last].
  rewrite last_cons. destruct (last run) as [x|] eqn:El.
  all: repeat f_equal; cbn [length]; lia.
Qed.

Lemma expected_error_recovers ps reason t :
  expected_error (HRecovered reason t :: ps) =
    match ongoing (expected_error ps) with
    | Some prev => Some (mkCond (cd_type prev) false reason (cd_message prev) (cd_firstSeen prev) (cd_lastSeen prev) t
                           (cd_count prev) (cd_cgroupOomKill prev))
    | None => expected_error ps
    end.
Proof.
  unfold expected_error at 1. cbn [run_of passing failing negb length drop].
  destruct (expected_error ps) as [c|] eqn:Ec.
  - pose proof (expected_status _ _ Ec) as Hs. unfold expected_error in Ec.
    destruct (run_of failing (drop (length (run_of passing ps)) ps)) as [|[r m t'| | |] run]; try done.
    rewrite (bool_decide_false (HRecovered reason t :: run_of passing ps = [])) by done.
    injection Ec as <-. cbn [cd_true] in Hs. unfold ongoing. cbn [mbind option_bind cd_true].
    destruct (run_of passing ps) as [|h since] eqn:Er.
    + rewrite bool_decide_true by done. done.
    + rewrite (bool_decide_false (h :: since = [])) by done. rewrite !last_cons. by destruct (last since).
  - unfold expected_error in Ec. cbn [ongoing mbind option_bind].
    by destruct (run_of failing (drop (length (run_of passing ps)) ps)) as [|[] run].
Qed.

(** How often, and the latest. *)
Definition is_oom (h : Happening) : bool := match h with HOom _ _ => true | _ => false end.
Definition ooms (hs : list Happening) : list Happening := filter (λ h, is_oom h = true) (reverse hs).
Definition restarts_of (hs : list Happening) : list Happening := filter (λ h, is_restart h = true) (reverse hs).

Definition expected_oom (os : list Happening) : option ModelHostCondition :=
  match os with
  | HOom n t :: _ =>
      let began := default "" (at_time <$> last os) in
      Some (mkCond OOM_KILLED_CONDITION true "CgroupOOMKill"
              ("engine was OOM-killed (cgroup oom_kill " +:+ pretty n +:+ ")") began t began (Some (Z.of_nat (length os)))
              (Some (Some n)))
  | _ => None
  end.

Definition restart_reason (h : Happening) : option ModelHostRestartReason := match h with HRestart r _ => Some r | _ => None end.

(** The record tells of the history, and of nothing else. *)
Record tells (r : ModelHostRuntimeStatus) (hs : list Happening) : Prop := {
  tells_only : Forall (λ c, cd_type c = RECONCILE_ERROR_CONDITION ∨ cd_type c = OOM_KILLED_CONDITION) (rt_conditions r);
  tells_error : findCondition r RECONCILE_ERROR_CONDITION = expected_error (passes hs);
  tells_oom : findCondition r OOM_KILLED_CONDITION = expected_oom (ooms hs);
  tells_restarts : rt_restarts r = Z.of_nat (length (restarts_of hs));
  tells_last : rt_lastRestartAt r = at_time <$> head (restarts_of hs);
  tells_why : rt_lastRestartReason r = (h ← head (restarts_of hs); restart_reason h)
}.

Lemma only_with r c :
  cd_type c = RECONCILE_ERROR_CONDITION ∨ cd_type c = OOM_KILLED_CONDITION →
  Forall (λ c, cd_type c = RECONCILE_ERROR_CONDITION ∨ cd_type c = OOM_KILLED_CONDITION) (rt_conditions r) →
  Forall (λ c, cd_type c = RECONCILE_ERROR_CONDITION ∨ cd_type c = OOM_KILLED_CONDITION) (rt_conditions (withCondition r c)).
Proof.
  intros Hc Hall. apply Forall_app. split; [|by apply Forall_singleton].
  rewrite Forall_forall in Hall |- *. intros x [_ Hx]%list_elem_of_filter. by apply Hall.
Qed.

Lemma filter_snoc_true (p : Happening → bool) hs h :
  p h = true → filter (λ h, p h = true) (reverse (hs ++ [h])) = h :: filter (λ h, p h = true) (reverse hs).
Proof. intros H. rewrite reverse_snoc. by rewrite filter_cons_True. Qed.

Lemma filter_snoc_false (p : Happening → bool) hs h :
  p h = false → filter (λ h, p h = true) (reverse (hs ++ [h])) = filter (λ h, p h = true) (reverse hs).
Proof. intros H. rewrite reverse_snoc, filter_cons_False; [done|]. by rewrite H. Qed.

Lemma expected_oom_kills os n t :
  Forall (λ h, is_oom h = true) os →
  expected_oom (HOom n t :: os) =
    let prev := expected_oom os in
    Some (mkCond OOM_KILLED_CONDITION true "CgroupOOMKill" ("engine was OOM-killed (cgroup oom_kill " +:+ pretty n +:+ ")")
            (from_option cd_firstSeen t prev) t (from_option cd_lastTransitionTime t prev) (next_count prev) (Some (Some n))).
Proof.
  intros H. destruct os as [|[| | |n' t'] os]; [done|by apply Forall_cons in H as [? _]..|].
  unfold expected_oom. cbn zeta. cbn [from_option cd_firstSeen cd_lastTransitionTime next_count cd_count fmap option_fmap option_map].
  rewrite last_cons. destruct (last (HOom n' t' :: os)) as [x|] eqn:El; [|by rewrite last_cons in El; destruct (last os)].
  repeat f_equal; cbn [length]; lia.
Qed.

Lemma tells_snoc r hs h : tells r hs → tells (happen h r) (hs ++ [h]).
Proof.
  intros [Ho He Hk Hr Hl Hw]. destruct h as [reason message now|reason now|reason now|n now]; cbn [happen].
  - unfold withReconcileError. split; [by apply only_with; [left|]| | | | |].
    + rewrite find_with. rewrite bool_decide_true by done. rewrite passes_snoc. cbn [is_pass].
      by rewrite expected_error_fails, He.
    + rewrite find_with. rewrite bool_decide_false by done. rewrite Hk. unfold ooms. by rewrite filter_snoc_false.
    + unfold restarts_of. by rewrite filter_snoc_false.
    + unfold restarts_of. by rewrite filter_snoc_false.
    + unfold restarts_of. by rewrite filter_snoc_false.
  - assert (expected_error (passes (hs ++ [HRecovered reason now])) = findCondition
      (default r (withReconcileRecovered r reason now)) RECONCILE_ERROR_CONDITION) as Hrec.
    { rewrite passes_snoc. cbn [is_pass]. rewrite expected_error_recovers, <-He. unfold withReconcileRecovered.
      destruct (ongoing (findCondition r RECONCILE_ERROR_CONDITION)) as [c|] eqn:Ec; [|done]. cbn [mbind option_bind default from_option id].
      rewrite find_with. cbn [cd_type]. apply ongoing_some in Ec as [Ec _]. apply find_some in Ec as [_ Ht]. to_prop.
      by rewrite bool_decide_true. }
    unfold withReconcileRecovered in *. destruct (ongoing _) as [c|] eqn:Ec; cbn [mbind option_bind default from_option id] in *.
    + apply ongoing_some in Ec as [Ec _]. apply find_some in Ec as [_ Ht]. to_prop.
      split; [by apply only_with; [left|]|done| | | |]; unfold ooms, restarts_of; rewrite filter_snoc_false by done; [|done..].
      rewrite find_with. cbn [cd_type]. by rewrite Ht, bool_decide_false.
    + split; [done|done| | | |]; unfold ooms, restarts_of; by rewrite filter_snoc_false.
  - split; cbn [happen withRestart rt_conditions rt_restarts rt_lastRestartAt rt_lastRestartReason]; unfold ooms, restarts_of;
      rewrite ?passes_snoc; cbn [is_pass]; [done|exact He|by rewrite filter_snoc_false|rewrite filter_snoc_true by done..].
    + rewrite Hr. unfold restarts_of. cbn [length]. lia.
    + done.
    + done.
  - unfold withOomKill. split; [by apply only_with; [right|]| | | | |].
    + rewrite find_with, bool_decide_false by done. by rewrite passes_snoc.
    + rewrite find_with, bool_decide_true by done. unfold ooms. rewrite filter_snoc_true by done.
      rewrite expected_oom_kills; [by rewrite Hk|]. apply Forall_forall. by intros x [? _]%list_elem_of_filter.
    + unfold restarts_of. by rewrite filter_snoc_false.
    + unfold restarts_of. by rewrite filter_snoc_false.
    + unfold restarts_of. by rewrite filter_snoc_false.
Qed.

Lemma tells_all hs : tells (foldl (λ r h, happen h r) emptyModelHostRuntimeStatus hs) hs.
Proof.
  induction hs as [|h hs IH] using rev_ind; [by split; [constructor|..]|]. rewrite foldl_app. by apply tells_snoc.
Qed.

(** C30 (refinement): whatever happened to a host since it had no conditions file,
    written to the file and read back each time, the record tells exactly this:
    the reconcile error counts and dates the latest run of failing passes, and is
    cleared by the first pass after it; the OOM kills and restarts are counted
    and the latest described. *)
Theorem conditions_tell hs :
  Z.of_nat (length hs) < 2 ^ 53 → tells (status_of (records hs None)) hs.
Proof.
  intros Hlen. destruct (happens_ok hs emptyModelHostRuntimeStatus) as [_ H]; [by split; [constructor|constructor|]|done|done|].
  rewrite (H None eq_refl). apply tells_all.
Qed.

(** C31 (type): a record with every condition once, finite counts and a safe count of
    restarts stays such whatever is recorded, and is what the file then reads as;
    the other fields of a controller's file do not matter. *)
Theorem conditions_well_formed h file :
  runtime_ok (status_of file) → rt_restarts (status_of file) < 2 ^ 53 - 1 → 0 <= rt_restarts (status_of file) →
  runtime_ok (status_of (record h file)) ∧ status_of (record h file) = happen h (status_of file) ∧
  ∀ more, parseRuntimeStatus (JObj (runtime_fields (status_of (record h file)) ++ more)) = status_of (record h file).
Proof.
  intros Hok Hlt Hge. pose proof (happen_restarts h (status_of file)) as Hr.
  assert (runtime_ok (happen h (status_of file))) as Hok'.
  { apply happen_ok; [|done]. unfold isSafeInteger. apply Z.leb_le. destruct (is_restart h); lia. }
  pose proof (record_happens h file Hok') as E. rewrite E. split; [done|]. split; [done|]. intros more. by apply runtime_reads_back.
Qed.

Definition history0 : list Happening :=
  [HError "ApplyFailed" "x" "t1"; HError "ApplyFailed" "y" "t2"; HOom 3 "t3"; HRecovered "Recovered" "t4"; HRestart EngineExited "t5";
   HRecovered "Recovered" "t6"].

Example conditions_tell_witness :
  tells (status_of (records history0 None)) history0 ∧
  expected_error (passes history0) =
    Some (mkCond "ReconcileError" false "Recovered" "y" "t1" "t2" "t4" (Some 2) None).
Proof. split; [apply conditions_tell; vm_compute; reflexivity|vm_compute; reflexivity]. Defined.

Example conditions_well_formed_witness :
  runtime_ok (status_of (record (HError "r" "m" "t") None)) ∧
  status_of (record (HError "r" "m" "t") None) = happen (HError "r" "m" "t") (status_of None) ∧
  ∀ more, parseRuntimeStatus (JObj (runtime_fields (status_of (record (HError "r" "m" "t") None)) ++ more)) =
          status_of (record (HError "r" "m" "t") None).
Proof.
  apply conditions_well_formed; [split; [apply NoDup_nil_2|apply List.Forall_nil|reflexivity]|reflexivity|vm_compute; intros [=]].
Defined.

(** ** The controller's files *)

Definition plain_segment (s : string) : bool :=
  negb (bool_decide (s = "")) && negb (bool_decide (s = ".")) && negb (bool_decide (s = "..")).

Lemma normalize_plain l acc : Forall (λ s, plain_segment s = true) l → normalize l acc = reverse l ++ acc.
Proof.
  intros H. revert acc. induction H as [|s l Hs _ IH]; intros acc; [done|]. cbn [normalize]. unfold plain_segment in Hs.
  apply andb_true_iff in Hs as [[H1 H2]%andb_true_iff H3]. rewrite negb_true_iff in H1, H2, H3. rewrite H1, H2, H3. cbn [orb].
  by rewrite IH, reverse_cons, <-app_assoc.
Qed.

Lemma normalize_is_plain l acc :
  Forall (λ s, plain_segment s = true) acc → Forall (λ s, plain_segment s = true) (normalize l acc).
Proof.
  revert acc. induction l as [|s l IH]; intros acc H; [done|]. cbn [normalize]. apply IH.
  destruct (bool_decide (s = "")) eqn:E1; [done|]. destruct (bool_decide (s = ".")) eqn:E2; [done|]. cbn [orb].
  destruct (bool_decide (s = "..")) eqn:E3; [by destruct H|]. constructor; [|done]. unfold plain_segment. by rewrite E1, E2, E3.
Qed.

Lemma resolve_plain l : Forall (λ s, plain_segment s = true) l → resolve_path l = l.
Proof. intros H. unfold resolve_path. by rewrite normalize_plain, app_nil_r, reverse_involutive. Qed.

Lemma resolve_is_plain l : Forall (λ s, plain_segment s = true) (resolve_path l).
Proof. unfold resolve_path. apply Forall_reverse. apply normalize_is_plain. constructor. Qed.

Definition history_base (dir : list string) : list string := resolve_path (dir ++ [".modelhost-history"]).

Lemma good_segment s : segment_bad s = false → plain_segment s = true ∧ char_free "/"%char s = true.
Proof.
  unfold segment_bad, plain_segment. rewrite !orb_false_iff, !negb_false_iff. intros [[[[-> ->] ->] ->] _]. done.
Qed.

Lemma length_append a b : String.length (a +:+ b) = (String.length a + String.length b)%nat.
Proof. induction a as [|c a IH]; [done|]. rewrite string_app_cons. cbn [String.length Nat.add]. by rewrite IH. Qed.

Lemma json_name s : char_free "/"%char s = true → plain_segment (s +:+ ".json") = true ∧ char_free "/"%char (s +:+ ".json") = true.
Proof.
  intros H. split; [|by rewrite char_free_app, H]. unfold plain_segment.
  assert (5 ≤ String.length (s +:+ ".json"))%nat as Hl by (rewrite length_append; cbn; lia).
  rewrite !bool_decide_false; [done|..]; intros E; rewrite E in Hl; cbn in Hl; lia.
Qed.

(** The path is the one meant, below the base, or the name is refused. *)
Lemma history_path dir node name :
  controllerHostHistoryPath dir node name =
    if segment_bad node then Err ("invalid controller history node: " +:+ quote node)
    else if segment_bad name then Err ("invalid controller history name: " +:+ quote name)
    else Ok (history_base dir ++ [node; name +:+ ".json"]).
Proof.
  unfold controllerHostHistoryPath, assertHistorySegment. destruct (segment_bad node) eqn:En; [done|].
  destruct (segment_bad name) eqn:Em; [done|]. cbn [mbind result_bind].
  apply good_segment in En as [Pn Fn], Em as [_ Fm]. destruct (json_name name Fm) as [Pj Fj].
  rewrite !split_char_free by done. cbn [app]. fold (history_base dir).
  assert (Forall (λ s, plain_segment s = true) (history_base dir ++ [node; name +:+ ".json"])) as Hp.
  { apply Forall_app. split; [apply resolve_is_plain|by repeat constructor]. }
  rewrite !(resolve_plain _ Hp). rewrite bool_decide_true by done. cbn [negb orb].
  rewrite take_app_length, bool_decide_true by done. rewrite length_app. cbn [length andb].
  destruct (Nat.ltb_spec (length (history_base dir)) (length (history_base dir) + 2)); [done|lia].
Qed.

Lemma string_app_inj_l a b s : a +:+ s = b +:+ s → a = b.
Proof.
  revert b. induction a as [|c a IH]; intros b E.
  - destruct b as [|d b]; [done|]. apply (f_equal String.length) in E. rewrite !length_append in E. cbn [String.length] in E. lia.
  - destruct b as [|d b].
    + apply (f_equal String.length) in E. rewrite !length_append in E. cbn [String.length] in E. lia.
    + rewrite !string_app_cons in E. injection E as -> E. f_equal. by apply IH.
Qed.

Lemma history_path_inj dir node name node' name' path :
  controllerHostHistoryPath dir node name = Ok path → controllerHostHistoryPath dir node' name' = Ok path →
  node = node' ∧ name = name'.
Proof.
  rewrite !history_path. destruct (segment_bad node), (segment_bad name); try done.
  destruct (segment_bad node'), (segment_bad name'); try done. intros [= <-] [= E].
  apply app_inv_head in E. injection E as -> E. by apply string_app_inj_l in E as ->.
Qed.

Definition history_ok (h : ControllerHostHistory) : Prop := runtime_ok (hh_runtime h).

Lemma history_reads_back h : history_ok h → parse_history (hh_node h) (hh_workload h) (history_json h) = h.
Proof.
  intros H. destruct h as [r node name at_ running]. unfold parse_history, history_json.
  cbn [hh_runtime hh_node hh_workload hh_updatedAt hh_lastKnownRunning] in *. rewrite runtime_reads_back by done.
  unfold runtime_fields. cbn [opt_get app]. json_fields. done.
Qed.

(** An update of the controller's history of a host, where it writes,
    is what the history of that host then reads as, with the time of the update,
    and leaves the history of every other host on every node as it was. *)
Theorem history_isolated dir node name now update files files' next :
  segment_bad node = false → segment_bad name = false →
  update (default (new_history node name now) (readControllerHostHistory dir node name files)) = Some next →
  history_ok next → hh_node next = node → hh_workload next = name →
  updateControllerHostHistory dir node name now update files = Ok files' →
  readControllerHostHistory dir node name files' =
    Some (mkHistory (hh_runtime next) node name now (hh_lastKnownRunning next)) ∧
  ∀ node' name', (node', name') ≠ (node, name) →
    readControllerHostHistory dir node' name' files' = readControllerHostHistory dir node' name' files.
Proof.
  intros Hn Hw Hu Hok En Ew E. unfold updateControllerHostHistory in E. rewrite Hu in E.
  destruct (controllerHostHistoryPath dir node name) as [path|] eqn:Ep; [|by rewrite history_path, Hn, Hw in Ep].
  cbn [mbind result_bind] in E. injection E as <-. rewrite En, Ew. split.
  - unfold readControllerHostHistory. rewrite Ep, lookup_insert_eq. set (h := mkHistory _ node name now _).
    change (parsed_file (Some (Some (history_json h)))) with (Some (history_json h)). cbn [fmap option_fmap option_map].
    f_equal. exact (history_reads_back h Hok).
  - intros node' name' Hne. unfold readControllerHostHistory.
    destruct (controllerHostHistoryPath dir node' name') as [path'|] eqn:Ep'; [|done].
    rewrite lookup_insert_ne; [done|]. intros <-. by destruct (history_path_inj _ _ _ _ _ _ Ep Ep') as [-> ->].
Qed.

Example history_isolated_witness :
  let update h := Some (mkHistory (withRestart (hh_runtime h) EngineExited "t") (hh_node h) (hh_workload h) (hh_updatedAt h) true) in
  let path := ["w"; ".modelhost-history"; "n"; "a.json"] in
  let next := mkRuntime [] 1 (Some "t") (Some EngineExited) in
  let files' : HistoryFiles := {[path := Some (history_json (mkHistory next "n" "a" "t" true))]} in
  readControllerHostHistory ["w"] "n" "a" files' = Some (mkHistory next "n" "a" "t" true) ∧
  ∀ node' name', (node', name') ≠ ("n", "a") →
    readControllerHostHistory ["w"] node' name' files' = readControllerHostHistory ["w"] node' name' ∅.
Proof.
  intros update path next files'. unshelve eapply (history_isolated ["w"] "n" "a" "t" update ∅ files' (mkHistory next "n" "a" "t" true)).
  - reflexivity.
  - reflexivity.
  - reflexivity.
  - split; [apply NoDup_nil_2|apply List.Forall_nil|reflexivity].
  - reflexivity.
  - reflexivity.
  - reflexivity.
Defined.
