(* ===== verification/WorkloadApply.v ===== *)
(** * Workloads: converging one manifest

    packages/remote/src/workload/apply.ts: applying a ModelRun (the gateway
    branch, disabling, the port preflight, admission with eviction, stopping,
    starting workers and the coordinator) and a ModelHost.  Every call to a node,
    to the store, the clock or another package is a question to an arbitrary
    [oracle] over a world of any type; the trace records each with its answer, in
    order.  A subscription is answered by what it delivered and how it ended. *)

From S2P Require Import Prelude JsText HostSidecars FleetTypes FleetPlacement WorkloadTypes Admission WorkloadStore.
From Stdlib Require Import QArith.
From Stdlib Require Import Ascii.

#[local] Open Scope string_scope.
#[local] Open Scope list_scope.
#[local] Open Scope Z_scope.

(** ** Results *)

Inductive ApplyAction := ActUnchanged | ActStarted | ActRestarted | ActPending.
#[export] Instance ApplyAction_eq : EqDecision ApplyAction.
Proof. solve_decision. Defined.

Definition action_text (a : ApplyAction) : string :=
  match a with
  | ActUnchanged => "unchanged" | ActStarted => "started" | ActRestarted => "restarted" | ActPending => "pending"
  end.

Record ApplyResult := mkResult { ar_action : ApplyAction; ar_status : ModelRunStatus; ar_error : option string }.

Inductive EventType :=
| EvStop | EvStart | EvStarted | EvSkipped | EvWorkerStart | EvWorkerReady | EvWorkerPreflight | EvGatewayPending.
Record ApplyEvent := mkEvent { ev_type : EventType; ev_message : string }.

(** ** The outside *)

(** The optional procedures that a client has. *)
Record ClientShape := mkClient { cs_resolveTarget : bool; cs_nodeFacts : bool }.

Record ServerStatus := mkServerStatus {
  ss_up : bool; ss_rel : option string; ss_extraArgs : list string; ss_pid : option Z; ss_host : option string;
  ss_port : option Z; ss_binary : option string; ss_endpoint : string
}.

Inductive StreamEnd := StreamComplete | StreamError (msg : string) | StreamTimeout.
(** The results of the events of type "done", and the end. *)
Record Stream (A : Type) := mkStream { sm_done : list A; sm_end : StreamEnd }.
Arguments mkStream {A}. Arguments sm_done {A}. Arguments sm_end {A}.

Record StartDone := mkDone { sd_ok : bool; sd_pid : option Z; sd_endpoint : string; sd_error : option string }.
Record WorkerDone := mkWorkerDone { wd_ok : bool; wd_error : option string }.
Record DoctorReport := mkDoctor { dr_ok : bool; dr_reason : option string; dr_hint : option string }.
Record HostDone := mkHostDone { hd_ok : bool; hd_error : option string; hd_pid : option Z; hd_state : option string }.
Record HostStatus := mkHostStatus {
  ht_state : string; ht_pid : option Z; ht_specHash : option string; ht_identityUnknown : bool
}.
Inductive Call :=
| CNow
| CGetClient (node : string)
| CServerStatus (node workload : string)
| CServerStop (node workload : string)
| CServerStart (node workload target : string) (extraArgs : list string) (allowExternalBind : bool)
    (endpoint : option Endpoint) (binary : option string) (timeoutSeconds : Z)
| CModelHostStart (node : string) (manifest : ModelHostManifest)
| CModelHostStop (node workload : string)
| CModelHostStatus (node workload : string)
| CRpcStart (node : string) (port : Z) (extraArgs : list string) (timeoutSeconds : Z)
| CRpcStop (node : string) (graceSeconds : Z)
| CRpcDoctor (node : string)
| CResolveTarget (node target : string)
| CLocalTarget (target : string)          (** [resolveTarget] of core/target.ts *)
| CNodeFacts (node : string)
| CNodeBudget (node : string)             (** [opts.getNodeBudgetGiB] *)
| CReadStore
| CGatewayDispatch (name : string)
| CValidateSpec (name : string)           (** the engine's [validateSpec] *)
| CLatestRows (staleCutoffMs : option Z)  (** the aggregator's rows; no cutoff: all *)
| CJournalPlacement (node : string) (decision : FleetPlacementDecision)
| CJournalTransition (node subject from : string)
| CReadState (name : string)
| CWriteState (name : string) (state : HostState)
| CRemoveState (name : string).

Definition Resp (c : Call) : Type :=
  match c with
  | CNow => string
  | CGetClient _ => ClientShape
  | CServerStatus _ _ => ServerStatus
  | CServerStart _ _ _ _ _ _ _ _ => Stream StartDone
  | CModelHostStart _ _ => Stream HostDone
  | CModelHostStop _ _ => option string    (* the refusal of an answer with ok: false *)
  | CModelHostStatus _ _ => HostStatus
  | CRpcStart _ _ _ _ => Stream WorkerDone
  | CRpcDoctor _ => DoctorReport
  | CResolveTarget _ _ | CLocalTarget _ => option string
  | CNodeFacts _ => option Num
  | CNodeBudget _ => option Num
  | CReadStore => StoreView
  | CGatewayDispatch _ => option ApplyResult
  | CValidateSpec _ => option string       (* the error *)
  | CLatestRows _ => list SnapshotRow
  | CReadState _ => option HostState
  | _ => unit
  end.

Inductive Obs :=
| OEvent (e : ApplyEvent)
| OLock (node : string) | OUnlock (node : string)
| OCall (c : Call) (r : result (Resp c)).

Section apply.
Context {W : Type} (oracle : ∀ c : Call, W → W * result (Resp c)).
Context (dir : list string) (localeCompare : string → string → Z) (toFixed1 num_string : Num → string).
(** [opts.resolveNodeIdentity], the controller's own memory, and which of
    [gatewayDispatch] and [opts.getNodeBudgetGiB] are given. *)
Context (identity : option (string → option string)) (totalmem : Q) (has_dispatch has_budget : bool).
Context (computeModelHostSpecHash : ModelHostSpec → string).
(** [opts.supervisor]: free memory, headroom, safety factor; whether
    [opts.getClient] is given. *)
Context (supervisor : option (Q * Q * option Q)) (has_client : bool).

Record St := mkSt { world : W; obs : list Obs }.
Notation M := (eff St).

Definition observe (o : Obs) : M unit := modify (λ s, mkSt (world s) (obs s ++ [o])).
Definition onEvent (t : EventType) (message : string) : M unit := observe (OEvent (mkEvent t message)).

Definition perform (c : Call) : M (Resp c) := λ s,
  let '(w, r) := oracle c (world s) in (mkSt w (obs s ++ [OCall c r]), r).

(** [await p.catch(() => null)] *)
Definition or_null {A} (m : M A) : M (option A) := try_catch (x ← m; mret (Some x)) (λ _, mret None).

(** The promise around a subscription: the last result, or what it rejects
    with. *)
Definition settled {A} (timeout_message : string) (s : Stream A) : result (option A) :=
  match sm_end s with
  | StreamComplete => Ok (last (sm_done s))
  | StreamError msg => Err msg
  | StreamTimeout => Err timeout_message
  end.
Definition lift {A} (r : result A) : M A := λ s, (s, r).

Definition withNodeLock {A} (node : string) (m : M A) : M A := λ s,
  let '(s', r) := (observe (OLock node);; m) s in ((observe (OUnlock node) s').1, r).

(** ** Status sections *)

Definition condition (type : string) (status : bool) (reason message : option string) (now : string) : Condition :=
  mkCondition type status reason message now.

Definition one_condition (phase : StatusPhase) (now : string) (c : Condition) : ModelRunStatus :=
  mkRunStatus phase None None now [c].

Definition gatewayPendingResult (manifest : ModelRun) : M ApplyResult :=
  now ← perform CNow;
  let msg := "gateway workload targeting '" +:+ run_node manifest +:+
             "': no gateway dispatcher provided — manifest validated but no upstream mutation performed" in
  onEvent EvGatewayPending (mr_name manifest +:+ ": " +:+ msg);;
  mret (mkResult ActPending
          (one_condition Pending now (condition "Applied" false (Some "GatewayRegistrationPending") (Some msg) now)) None).

Definition stopDisabledWorkload (manifest : ModelRun) : M ApplyResult :=
  now ← perform CNow;
  status ← perform (CServerStatus (run_node manifest) (mr_name manifest));
  (if ss_up status then
     onEvent EvStop (mr_name manifest +:+ ": stopping disabled server");;
     perform (CServerStop (run_node manifest) (mr_name manifest));; mret tt
   else mret tt);;
  mret (mkResult ActUnchanged (one_condition Stopped now (condition "Applied" true (Some "Disabled") None now)) None).

(** ** Nodes and ports *)

Definition normalizeLoopbackHost (host : option string) : string :=
  match host with Some "::1" | None => "127.0.0.1" | Some h => h end.

(** The same name, or the same identity when it can be told. *)
Definition nodeIdentityMatcher (nodeName otherNode : string) : bool :=
  if bool_decide (otherNode = nodeName) then true
  else
    match identity with
    | None => false
    | Some resolveIdent =>
        truthy (resolveIdent nodeName) && bool_decide (resolveIdent otherNode = resolveIdent nodeName)
    end.

Definition is_port_collision (m : ModelRun) : bool :=
  match mr_status m with
  | Some s => bool_decide (st_phase s = Failed) &&
              bool_decide ((c ← head (st_conditions s); cn_reason c) = Some "PortCollision")
  | None => false
  end.

Definition collides (desired : Endpoint) (port : Z) (other : ModelRun) : bool :=
  if is_port_collision other then false
  else
    match ep ← sp_endpoint (mr_spec other); p ← ep_port ep; Some (ep, p) with
    | None => false
    | Some (o, oPort) =>
        let dHost := normalizeLoopbackHost (ep_host desired) in
        let oHost := normalizeLoopbackHost (ep_host o) in
        bool_decide (oPort = port) &&
        (bool_decide (dHost = oHost) || bool_decide (dHost = "0.0.0.0") || bool_decide (oHost = "0.0.0.0"))
    end.

Definition port_rivals (manifest : ModelRun) (view : StoreView) : list ModelRun :=
  filter (λ m, mr_name m ≠ mr_name manifest ∧ nodeIdentityMatcher (run_node manifest) (run_node m) = true ∧ run_enabled m = true)
    (listWorkloads localeCompare view).

Definition checkPortCollision (manifest : ModelRun) : M (option ApplyResult) :=
  match ep ← sp_endpoint (mr_spec manifest); p ← ep_port ep; Some (ep, p) with
  | None => mret None
  | Some (desired, port) =>
      view ← perform CReadStore;
      match find (collides desired port) (port_rivals manifest view) with
      | None => mret None
      | Some other =>
          now ← perform CNow;
          let oHost := normalizeLoopbackHost (ep ← sp_endpoint (mr_spec other); ep_host ep) in
          mret (Some
            (mkResult ActPending
               (one_condition Failed now
                  (condition "Applied" false (Some "PortCollision")
                     (Some ("port " +:+ pretty port +:+ " already claimed by " +:+ mr_name other)) now))
               (Some ("port collision: " +:+ mr_name other +:+ " already claims " +:+ oHost +:+ ":" +:+ pretty port +:+
                      " on node " +:+ run_node manifest))))
      end
  end.

(** ** Eviction *)

Definition parseEvictTargets (manifest : ModelRun) : list string :=
  filter (λ s, s ≠ "")
    (trim <$> JsText.split ","%char (default "" (mr_annotations manifest !! "llamactl.io/evict"))).

(** ConvergeServerContext *)
Record ConvergeContext := mkContext {
  cc_manifest : ModelRun; cc_client : ClientShape; cc_now : string; cc_status : ServerStatus; cc_matches : bool;
  cc_desiredArgs : list string; cc_evictTargets : list string
}.

Fixpoint each {A} (body : A → M unit) (l : list A) : M unit :=
  match l with [] => mret tt | x :: l' => body x;; each body l' end.

Definition stopEvictTarget (manifest : ModelRun) (target : string) : M unit :=
  try_catch
    (targetStatus ← perform (CServerStatus (run_node manifest) target);
     if negb (ss_up targetStatus) then
       onEvent EvSkipped (mr_name manifest +:+ ": eviction target " +:+ target +:+ " already stopped")
     else
       onEvent EvStop (mr_name manifest +:+ ": evicting " +:+ target);;
       perform (CServerStop (run_node manifest) target);; mret tt)
    (λ _, onEvent EvSkipped (mr_name manifest +:+ ": eviction target " +:+ target +:+ " not found")).

Definition stopEvictTargets (manifest : ModelRun) (evictTargets : list string) : M unit :=
  each (stopEvictTarget manifest) evictTargets.

Definition running_section (ctx : ConvergeContext) (extra : list Condition) : ModelRunStatus :=
  mkRunStatus Running (ss_pid (cc_status ctx)) (Some (ss_endpoint (cc_status ctx))) (cc_now ctx)
    (condition "Applied" true (Some "unchanged") None (cc_now ctx) :: extra).

Definition evictRefusalResult (ctx : ConvergeContext) (target why reason : string) : ApplyResult :=
  let now := cc_now ctx in
  let error := "refusing to evict '" +:+ target +:+ "': " +:+ why +:+ "; no eviction, stop, or start was attempted" in
  if cc_matches ctx then
    mkResult ActUnchanged (running_section ctx [condition "EvictRefused" false (Some reason) (Some error) now]) (Some error)
  else
    mkResult ActPending (one_condition Failed now (condition "Applied" false (Some reason) (Some error) now)) (Some error).

Definition isMissingManifestError (msg : string) : bool := startsWith "workload manifest not found" msg.

Inductive EvictCheck := EvVerified | EvSkip | EvRefused (r : ApplyResult).

Definition checkEvictTarget (ctx : ConvergeContext) (target : string) (view : StoreView) (claimCount : Z) : EvictCheck :=
  let manifest := cc_manifest ctx in
  if 1 <? claimCount then
    EvRefused (evictRefusalResult ctx target
      "more than one stored manifest claims this name, so the freed capacity cannot be attributed to a single victim"
      "EvictAmbiguousIdentity")
  else
    match loadWorkloadByNameAny dir target view with
    | Err message =>
        if isMissingManifestError message then EvSkip
        else EvRefused (evictRefusalResult ctx target
               ("it could not be read to confirm its kind (" +:+ message +:+ ")") "EvictKindUnsupported")
    | Ok loaded =>
        let name := match loaded with inl m => mr_name m | inr h => mh_name h end in
        if negb (bool_decide (name = target)) then
          EvRefused (evictRefusalResult ctx target
            ("the canonical '" +:+ target +:+ ".yaml' manifest declares metadata.name '" +:+ name +:+ "'")
            "EvictAmbiguousIdentity")
        else
          match loaded with
          | inr _ =>
              EvRefused (evictRefusalResult ctx target
                "it is a ModelHost, which this path cannot stop or account for" "EvictKindUnsupported")
          | inl m =>
              if negb (nodeIdentityMatcher (run_node manifest) (run_node m)) then
                EvRefused (evictRefusalResult ctx target
                  ("it is owned by node '" +:+ run_node m +:+
                   "', which is not verifiably the incoming manifest's node '" +:+ run_node manifest +:+ "'")
                  "EvictNodeUnverified")
              else EvVerified
          end
    end.

(** The stored manifests that claim [target]. *)
Definition claims (target : string) (view : StoreView) : Z :=
  countZ target (mr_name <$> listAnyWorkloadsForAdmission localeCompare view).

Fixpoint authorize (ctx : ConvergeContext) (view : StoreView) (targets : list string) : list string + ApplyResult :=
  match targets with
  | [] => inl []
  | target :: rest =>
      match checkEvictTarget ctx target view (claims target view) with
      | EvRefused r => inr r
      | EvSkip => authorize ctx view rest
      | EvVerified => match authorize ctx view rest with inl verified => inl (target :: verified) | inr r => inr r end
      end
  end.

(** The names that may be evicted, or the refusal. *)
Definition authorizeEvictTargets (ctx : ConvergeContext) (view : StoreView) : list string + ApplyResult :=
  authorize ctx view (cc_evictTargets ctx).

(** ** Admission *)

Definition budget_of_facts (facts : option (option Num)) : option Num :=
  match facts with
  | Some (Some (Fin bytes)) =>
      if Qle_bool bytes 0 then None else Some (defaultNodeBudgetGiB totalmem None (Some (Fin bytes)))
  | _ => None
  end.

Definition resolveAdmissionBudgetGiB (nodeName : string) (client : ClientShape) (hasDeclaredReservations : bool) :
    M (option Num) :=
  explicit ← (if has_budget then perform (CNodeBudget nodeName) else mret None);
  match explicit with
  | Some budget => mret (Some budget)
  | None =>
      if bool_decide (nodeName = LOCAL_NODE_ID) then mret (Some (defaultNodeBudgetGiB totalmem None None))
      else if negb hasDeclaredReservations then mret None
      else if negb (cs_nodeFacts client) then mret None
      else
        facts ← or_null (perform (CNodeFacts nodeName));
        mret (budget_of_facts facts)
  end.

Definition adm_reason (adm : AdmissionResult) : string :=
  match adm with
  | RAdmit _ _ => ""
  | RInvalidReservation _ reason | RUnknownBudget _ reason | ROverBudget _ _ reason _ => reason
  end.

Definition admissionConditionReason (adm : AdmissionResult) : string :=
  match adm with
  | RUnknownBudget _ _ => "BudgetUnknown"
  | RInvalidReservation _ _ => "ReservationInvalid"
  | _ => "BudgetExceeded"
  end.

Definition admissionFailureResult (adm : AdmissionResult) (now : string) : ApplyResult :=
  mkResult ActPending
    (one_condition Failed now
       (condition "Applied" false (Some (admissionConditionReason adm)) (Some (adm_reason adm)) now))
    (Some (adm_reason adm)).

Definition preservedRunningWithBudgetRefusal (ctx : ConvergeContext) (adm : AdmissionResult) : ApplyResult :=
  mkResult ActUnchanged
    (running_section ctx
       [condition "BudgetRefused" false (Some (admissionConditionReason adm)) (Some (adm_reason adm)) (cc_now ctx)])
    None.

(** The other enabled manifests of the node, without what will be evicted. *)
Definition living_manifests (manifest : ModelRun) (verified : list string) (view : StoreView) : list ModelRun :=
  filter (λ m, mr_name m ≠ mr_name manifest ∧ nodeIdentityMatcher (run_node manifest) (run_node m) = true ∧
               run_enabled m = true ∧ mr_name m ∉ verified)
    (listAnyWorkloadsForAdmission localeCompare view).

Definition forceAdmit (manifest : ModelRun) : bool :=
  bool_decide (mr_annotations manifest !! "llamactl.io/force-admit" = Some "true").

Definition declares_memory (m : ModelRun) : bool := num_gt (expected_memory m) (Fin 0).

Inductive ServerAdmission :=
| SaAdmit (reservedAfter : Num) (budget : option Q) (verified : list string)
| SaRejected (adm : AdmissionResult)
| SaEvictRefused (r : ApplyResult).

Definition admitServerBudget (ctx : ConvergeContext) : M ServerAdmission :=
  let manifest := cc_manifest ctx in
  view ← perform CReadStore;
  match authorizeEvictTargets ctx view with
  | inr r => mret (SaEvictRefused r)
  | inl verified =>
      let living := living_manifests manifest verified view in
      let hasDeclared := declares_memory manifest || existsb declares_memory living in
      budget ← resolveAdmissionBudgetGiB (run_node manifest) (cc_client ctx) hasDeclared;
      match computeNodeBudget toFixed1 num_string (run_node manifest) budget living manifest (forceAdmit manifest) true
              (nodeIdentityMatcher (run_node manifest)) with
      | RAdmit reservedAfter b => mret (SaAdmit reservedAfter b verified)
      | adm => mret (SaRejected adm)
      end
  end.

Definition admissionRejection (ctx : ConvergeContext) (adm : AdmissionResult) : ApplyResult :=
  if cc_matches ctx then
    let preserved := preservedRunningWithBudgetRefusal ctx adm in
    match cc_evictTargets ctx with
    | [] => preserved
    | targets =>
        mkResult (ar_action preserved) (ar_status preserved)
          (Some ("requested eviction of '" +:+ String.concat "', '" targets +:+ "' was refused: " +:+ adm_reason adm +:+
                 "; no eviction, stop, or start was attempted"))
    end
  else admissionFailureResult adm (cc_now ctx).

(** ** Starting *)

Definition failedApplyResult (action : ApplyAction) (error when : string) : ApplyResult :=
  mkResult action
    (one_condition Failed when (condition "Applied" false (Some (action_text action)) (Some error) when)) (Some error).

Definition refuseHostBindBeforeTeardown (ctx : ConvergeContext) : option ApplyResult :=
  if cc_matches ctx then None
  else
    let spec := mr_spec (cc_manifest ctx) in
    (λ refusal, failedApplyResult ActUnchanged refusal (cc_now ctx)) <$>
      hostBindRefusal (cc_desiredArgs ctx) (ep ← sp_endpoint spec; ep_host ep) (sp_allowExternalBind spec).

Definition doctor_of (w : ModelRunWorker) : M (string * DoctorReport) :=
  report ← try_catch
    (perform (CGetClient (wk_node w));; perform (CRpcDoctor (wk_node w)))
    (λ msg, mret (mkDoctor false (Some "doctor-call-failed") (Some ("could not reach " +:+ wk_node w +:+ ": " +:+ msg))));
  mret (wk_node w, report).

Fixpoint doctors_of (workers : list ModelRunWorker) : M (list (string * DoctorReport)) :=
  match workers with
  | [] => mret []
  | w :: rest => r ← doctor_of w; rs ← doctors_of rest; mret (r :: rs)
  end.

(** [None], or the composed error. *)
Definition preflightWorkers (workers : list ModelRunWorker) : M (option string) :=
  match workers with
  | [] => mret None
  | _ =>
      onEvent EvWorkerPreflight ("preflight: checking rpc-server on " +:+ pretty (Z.of_nat (length workers)) +:+ " worker node(s)");;
      results ← doctors_of workers;
      match filter (λ r : string * DoctorReport, dr_ok r.2 = false) results with
      | [] => mret None
      | failures =>
          mret (Some ("rpc-server not available on " +:+ pretty (Z.of_nat (length failures)) +:+ " worker node(s):" +:+
                      String newline "" +:+
                      String.concat (String newline "")
                        ((λ f : string * DoctorReport,
                            "  - " +:+ f.1 +:+ ": " +:+ default "unknown" (dr_reason f.2) +:+ String newline "    " +:+
                            default "(no hint)" (dr_hint f.2)) <$> failures)))
      end
  end.

Definition worker_address (w : ModelRunWorker) : string := wk_rpcHost w +:+ ":" +:+ pretty (wk_rpcPort w).

(** One worker: [None], or the error. *)
Definition startWorker (worker : ModelRunWorker) : M (option string) :=
  onEvent EvWorkerStart ("worker " +:+ wk_node worker +:+ ": starting rpc-server on " +:+ worker_address worker);;
  perform (CGetClient (wk_node worker));;
  try_catch (perform (CRpcStop (wk_node worker) 2);; mret tt) (λ _, mret tt);;
  started ← try_catch
    (s ← perform (CRpcStart (wk_node worker) (wk_rpcPort worker) (wk_extraArgs worker) (wk_timeoutSeconds worker));
     lift (settled ("rpc-server start timeout on " +:+ wk_node worker) s))
    (λ msg, mret (Some (mkWorkerDone false (Some msg))));
  match started with
  | Some (mkWorkerDone true _) =>
      onEvent EvWorkerReady ("worker " +:+ wk_node worker +:+ ": ready on " +:+ worker_address worker);;
      mret None
  | _ =>
      mret (Some ("worker " +:+ wk_node worker +:+ ": " +:+ default "rpc-server failed to start" (d ← started; wd_error d)))
  end.

Fixpoint start_each (workers : list ModelRunWorker) : M (option string) :=
  match workers with
  | [] => mret None
  | w :: rest => error ← startWorker w; match error with Some e => mret (Some e) | None => start_each rest end
  end.

Definition startWorkers (workers : list ModelRunWorker) : M (option string) :=
  preflight ← preflightWorkers workers;
  match preflight with Some e => mret (Some e) | None => start_each workers end.

Definition stopWorker (worker : ModelRunWorker) : M unit :=
  try_catch (perform (CGetClient (wk_node worker));; perform (CRpcStop (wk_node worker) 3);; mret tt) (λ _, mret tt).

Definition stopWorkers (workers : list ModelRunWorker) : M unit := each stopWorker (reverse workers).

Definition startCoordinator (manifest : ModelRun) (desiredArgs : list string) : M (option StartDone) :=
  let spec := mr_spec manifest in
  s ← perform (CServerStart (sp_node spec) (mr_name manifest) (sp_target spec) desiredArgs (sp_allowExternalBind spec)
                 (sp_endpoint spec) (if truthy (sp_binary spec) then sp_binary spec else None) (sp_timeoutSeconds spec));
  lift (settled "serverStart timed out" s).

(** ** Under the lock *)

Definition already_running (ctx : ConvergeContext) : M ApplyResult :=
  onEvent EvSkipped (mr_name (cc_manifest ctx) +:+ ": already running (" +:+ sp_target (mr_spec (cc_manifest ctx)) +:+ ")");;
  mret (mkResult ActUnchanged (running_section ctx []) None).

(** The old server goes. *)
Definition stopMismatched (ctx : ConvergeContext) : M ApplyAction :=
  let manifest := cc_manifest ctx in
  if ss_up (cc_status ctx) then
    onEvent EvStop (mr_name manifest +:+ ": stopping mismatched server");;
    perform (CServerStop (run_node manifest) (mr_name manifest));;
    mret ActRestarted
  else mret ActStarted.

Definition reserved_text (reservedAfter : Num) (budget : option Q) : string :=
  "node reserves " +:+ toFixed1 reservedAfter +:+ " / " +:+
  match budget with None => "unknown" | Some b => toFixed1 (Fin b) end +:+ " GiB".

Definition startServer (ctx : ConvergeContext) (action : ApplyAction) (reservedAfter : Num) (budget : option Q) : M ApplyResult :=
  let manifest := cc_manifest ctx in
  onEvent EvStart (mr_name manifest +:+ ": starting " +:+ sp_target (mr_spec manifest));;
  startResult ← startCoordinator manifest (cc_desiredArgs ctx);
  match startResult with
  | Some (mkDone true pid endpoint _) =>
      onEvent EvStarted (mr_name manifest +:+ ": ready at " +:+ endpoint +:+ " pid=" +:+
                         match pid with Some p => pretty p | None => "?" end);;
      mret (mkResult action
              (mkRunStatus Running pid (Some endpoint) (cc_now ctx)
                 [condition "Applied" true (Some (action_text action)) None (cc_now ctx);
                  condition "BudgetReserved" true None (Some (reserved_text reservedAfter budget)) (cc_now ctx)])
              None)
  | _ =>
      let err := default "serverStart failed" (d ← startResult; sd_error d) in
      (match sp_workers (mr_spec manifest) with [] => mret tt | workers => stopWorkers workers end);;
      mret (failedApplyResult action err (cc_now ctx))
  end.

Definition convergeServerUnderLock (ctx : ConvergeContext) : M ApplyResult :=
  let manifest := cc_manifest ctx in
  admission ← admitServerBudget ctx;
  match admission with
  | SaEvictRefused r => mret r
  | SaRejected adm => mret (admissionRejection ctx adm)
  | SaAdmit reservedAfter budget verified =>
      match refuseHostBindBeforeTeardown ctx with
      | Some r => mret r
      | None =>
          stopEvictTargets manifest (filter (λ t, t ∈ verified) (cc_evictTargets ctx));;
          if cc_matches ctx then already_running ctx
          else
            action ← stopMismatched ctx;
            match sp_workers (mr_spec manifest) with
            | [] => startServer ctx action reservedAfter budget
            | workers =>
                error ← startWorkers workers;
                match error with
                | Some e =>
                    stopWorkers workers;;
                    now ← perform CNow;
                    mret (failedApplyResult action e now)
                | None => startServer ctx action reservedAfter budget
                end
            end
      end
  end.

(** ** applyOne *)

Definition resolveDesiredRel (manifest : ModelRun) (client : ClientShape) : M string :=
  let target := sp_target (mr_spec manifest) in
  match sp_targetKind (mr_spec manifest) with
  | TRel => mret target
  | TAlias =>
      resolved ← (if cs_resolveTarget client then perform (CResolveTarget (run_node manifest) target) else mret None);
      match resolved with
      | Some r => mret r
      | None => local ← perform (CLocalTarget target); mret (default target local)
      end
  end.

Definition rpc_flag (workers : list ModelRunWorker) : list string :=
  match workers with
  | [] => []
  | _ => ["--rpc"; String.concat "," (worker_address <$> workers)]
  end.

Definition desired_args (manifest : ModelRun) : list string :=
  sp_extraArgs (mr_spec manifest) ++ rpc_flag (sp_workers (mr_spec manifest)).

Definition wanted {A} `{EqDecision A} (desired live : option A) : bool :=
  match desired with None => true | Some d => bool_decide (live = Some d) end.

(** The live server is the one that the manifest asks for. *)
Definition server_matches (manifest : ModelRun) (desiredRel : string) (status : ServerStatus) : bool :=
  let spec := mr_spec manifest in
  ss_up status && bool_decide (ss_rel status = Some desiredRel) && bool_decide (ss_extraArgs status = desired_args manifest) &&
  (wanted (ep ← sp_endpoint spec; ep_host ep) (ss_host status) && wanted (ep ← sp_endpoint spec; ep_port ep) (ss_port status)) &&
  (negb (truthy (sp_binary spec)) || bool_decide (ss_binary status = sp_binary spec)).

Definition applyServer (manifest : ModelRun) : M ApplyResult :=
  client ← perform (CGetClient (run_node manifest));
  if negb (run_enabled manifest) then stopDisabledWorkload manifest
  else
    collision ← checkPortCollision manifest;
    match collision with
    | Some r => mret r
    | None =>
        status ← perform (CServerStatus (run_node manifest) (mr_name manifest));
        desiredRel ← resolveDesiredRel manifest client;
        now ← perform CNow;
        withNodeLock (run_node manifest)
          (convergeServerUnderLock
             (mkContext manifest client now status (server_matches manifest desiredRel status) (desired_args manifest)
                (parseEvictTargets manifest)))
    end.

Definition applyOne (manifest : ModelRun) : M ApplyResult :=
  if sp_gateway (mr_spec manifest) then
    if has_dispatch then
      dispatched ← perform (CGatewayDispatch (mr_name manifest));
      match dispatched with Some r => mret r | None => applyServer manifest end
    else gatewayPendingResult manifest
  else applyServer manifest.

(** ** ModelHost *)

Inductive ApplyManifestOutcome :=
| OkModelRun (manifest : ModelRun) (result : ApplyResult)
| OkModelHost (manifest : ModelHostManifest) (pid : option Z) (endpoint : string)
| NotOk (error : string).

Definition formatHostForUrl (host : string) : string := if char_free ":"%char host then host else "[" +:+ host +:+ "]".

Definition host_url (spec : ModelHostSpec) : string :=
  "http://" +:+ formatHostForUrl (hs_host spec) +:+ ":" +:+ pretty (hs_port spec).

(** The schema takes finite positive quantities only. *)
Definition finite_part (n : option Num) : Q := match n with Some (Fin q) => q | _ => 0 end.

Definition validateModelHostAdmission (manifest : ModelHostManifest) : M (option string) :=
  let expected := finite_part (hs_expectedMemoryGiB (mh_spec manifest)) in
  let denied :=
    match supervisor with
    | Some (currentFreeGiB, headroomMinGiB, safetyFactor) =>
        if Qeq_bool expected 0 then None
        else projectAdmissionHeadroom (mkHeadroom currentFreeGiB expected headroomMinGiB safetyFactor None None None)
    | None => None
    end in
  match denied with
  | Some reason => mret (Some (deny_text reason))
  | None =>
      if bool_decide (hs_node (mh_spec manifest) = "local") then perform (CValidateSpec (mh_name manifest)) else mret None
  end.

Definition disableModelHost (manifest : ModelHostManifest) : M ApplyManifestOutcome :=
  stopped ← try_catch
    (refused ← perform (CModelHostStop (hs_node (mh_spec manifest)) (mh_name manifest));
     mret ((λ reason, "modelHostStop refused: " +:+ reason) <$> refused))
    (λ message, mret (Some ("modelHostStop failed: " +:+ message)));
  match stopped with
  | Some error => mret (NotOk error)
  | None =>
      perform (CRemoveState (mh_name manifest));;
      mret (OkModelHost manifest None (host_url (mh_spec manifest)))
  end.

Definition resolveModelHostBudgetGiB (manifest : ModelHostManifest) (client : ClientShape) : M Num :=
  let node := hs_node (mh_spec manifest) in
  explicit ← (if has_budget then perform (CNodeBudget node) else mret None);
  match explicit with
  | Some budget => mret budget
  | None =>
      if bool_decide (node = LOCAL_NODE_ID) then mret (defaultNodeBudgetGiB totalmem None None)
      else
        facts ← (if cs_nodeFacts client then or_null (perform (CNodeFacts node)) else mret None);
        mret (defaultNodeBudgetGiB totalmem None (default None facts))
  end.

(** The ModelRun that stands for the host in the accounts. *)
Definition host_as_incoming (manifest : ModelHostManifest) (rel : string) (view : StoreView) : ModelRun :=
  let spec := mh_spec manifest in
  mkModelRun (mh_name manifest) ∅
    (mkSpec (hs_node spec) (hs_enabled spec) TRel rel (hs_extraArgs spec) [] (hs_restartPolicy spec)
       (estimateModelHostMemoryGiB (sv_models view) manifest) None None (hs_timeoutSeconds spec) false false false)
    None.

Definition host_rivals (manifest : ModelHostManifest) (view : StoreView) : list ModelRun :=
  filter (λ m, mr_name m ≠ mh_name manifest ∧ run_node m = hs_node (mh_spec manifest) ∧ run_enabled m = true)
    (listAnyWorkloadsForAdmission localeCompare view).

Definition admitModelHostBudget (manifest : ModelHostManifest) (rel : string) (budget : Num) : M (option string) :=
  view ← perform CReadStore;
  let node := hs_node (mh_spec manifest) in
  match computeNodeBudget toFixed1 num_string node (Some budget) (host_rivals manifest view)
          (host_as_incoming manifest rel view) false false (λ other, bool_decide (other = node)) with
  | RAdmit _ _ => mret None
  | adm => mret (Some (adm_reason adm))
  end.

(** The status, or the error. *)
Definition startModelHostProcess (manifest : ModelHostManifest) : M ((string * option Z) + string) :=
  let node := hs_node (mh_spec manifest) in
  startResult ← try_catch
    (s ← perform (CModelHostStart node manifest); lift (settled "modelHostStart timed out" s))
    (λ message, mret (Some (mkHostDone false (Some message) None None)));
  match startResult with
  | Some (mkHostDone true _ (Some pid) (Some state)) => mret (inl (state, Some pid))
  | Some (mkHostDone true _ _ _) =>
      status ← perform (CModelHostStatus node (mh_name manifest));
      mret (inl (ht_state status, ht_pid status))
  | _ => mret (inr (default "modelHostStart failed" (d ← startResult; hd_error d)))
  end.

Definition writeModelHostSidecar (manifest : ModelHostManifest) (pid : option Z) (rel : string) : M unit :=
  let spec := mh_spec manifest in
  existing ← perform (CReadState (mh_name manifest));
  match pid with
  | Some p =>
      if bool_decide (hs_node spec = LOCAL_NODE_ID) && (0 <? p) then
        now ← perform CNow;
        let slotSavePath := st ← existing; if bool_decide (ho_pid st = p) then ho_slotSavePath st else None in
        perform (CWriteState (mh_name manifest)
                   (mkHostState (hs_engine spec) p (hs_host spec) (hs_port spec) (aliases_of rel) now slotSavePath
                      (Some (computeModelHostSpecHash spec))));;
        mret tt
      else mret tt
  | None => mret tt
  end.

Definition applyModelHostManifest (manifest : ModelHostManifest) : M ApplyManifestOutcome :=
  let spec := mh_spec manifest in
  invalid ← validateModelHostAdmission manifest;
  match invalid with
  | Some error => mret (NotOk error)
  | None =>
      if negb has_client then mret (NotOk ("missing getClient for node " +:+ hs_node spec)) else
      client ← perform (CGetClient (hs_node spec));
      if negb (hs_enabled spec) then disableModelHost manifest
      else
        match modelHostBindRefusal manifest with
        | Some error => mret (NotOk error)
        | None =>
            match head (hs_rels spec) with
            | None => mret (NotOk ("ModelHost " +:+ mh_name manifest +:+ " has no hosted models"))
            | Some rel =>
                budget ← resolveModelHostBudgetGiB manifest client;
                rejected ← admitModelHostBudget manifest rel budget;
                match rejected with
                | Some error => mret (NotOk error)
                | None =>
                    started ← startModelHostProcess manifest;
                    match started with
                    | inr error => mret (NotOk error)
                    | inl (_, pid) =>
                        writeModelHostSidecar manifest pid rel;;
                        mret (OkModelHost manifest pid (host_url spec))
                    end
                end
            end
        end
  end.

(** ** applyManifest *)

(** [opts.placement], with its defaults. *)
Record PlacementOptions := mkPlacementOptions { po_headroomMinMb : Q; po_modelFilePenaltyMb : Q; po_staleCutoffMs : option Z }.

Definition shouldAutoPlace (manifest : ModelRun) : bool :=
  bool_decide (run_node manifest = "auto") && negb (sp_pinned (mr_spec manifest)).

Definition with_node (node : string) (m : ModelRun) : ModelRun :=
  let s := mr_spec m in
  mkModelRun (mr_name m) (mr_annotations m)
    (mkSpec node (sp_enabled s) (sp_targetKind s) (sp_target s) (sp_extraArgs s) (sp_workers s) (sp_restartPolicy s)
       (sp_expectedMemoryGiB s) (sp_endpoint s) (sp_binary s) (sp_timeoutSeconds s) (sp_gateway s) (sp_allowExternalBind s)
       (sp_pinned s))
    (mr_status m).

Definition runPlacement (options : PlacementOptions) (manifest : ModelRun) : M (ModelRun + string) :=
  try_catch
    (let effectiveCutoffMs := default 150000 (po_staleCutoffMs options) in
     rows ← perform (CLatestRows (if 0 <? effectiveCutoffMs then Some effectiveCutoffMs else None));
     let expectedMemoryMb := (finite_part (sp_expectedMemoryGiB (mr_spec manifest)) * 1024)%Q in
     let scores :=
       scoreNodes (Some <$> rows)
         (mkPlacement (sp_target (mr_spec manifest)) expectedMemoryMb (Some (po_modelFilePenaltyMb options))
            (Some (po_headroomMinMb options)) None) in
     match chooseBestNode scores with
     | None | Some "" => mret (inr ("no viable placement node for " +:+ mr_name manifest))
     | Some best =>
         let decision :=
           makePlacementDecision (mr_name manifest) (run_node manifest) expectedMemoryMb scores
             (Some (po_headroomMinMb options)) (Some (po_modelFilePenaltyMb options)) in
         perform (CJournalPlacement best
                    (mkDecision (fd_workload decision) (fd_requestedNode decision) best (fd_expectedMemoryMb decision)
                       (fd_headroomMinMb decision) (fd_modelFilePenaltyMb decision) (fd_scores decision)));;
         perform (CJournalTransition best (mr_name manifest) (run_node manifest));;
         mret (inl (with_node best manifest))
     end)
    (λ message, mret (inr message)).

Definition applyModelRunManifest (options : PlacementOptions) (manifest : ModelRun) : M ApplyManifestOutcome :=
  placed ← (if shouldAutoPlace manifest then runPlacement options manifest else mret (inl manifest));
  match placed with
  | inr error => mret (NotOk error)
  | inl manifest' =>
      if negb has_client then mret (NotOk "applyManifest requires getClient for ModelRun manifests") else
      result ← applyOne manifest';
      if truthy (ar_error result) then mret (NotOk (default "" (ar_error result)))
      else mret (OkModelRun manifest' result)
  end.

(** What the schemas make of a manifest. *)
Inductive ParsedManifest :=
| PModelRun (m : ModelRun) | PModelHost (h : ModelHostManifest) | PInvalid (message : string) | POtherKind (kind : option string).

Definition applyManifest (options : PlacementOptions) (manifest : ParsedManifest) : M ApplyManifestOutcome :=
  match manifest with
  | PModelRun m => applyModelRunManifest options m
  | PModelHost h => applyModelHostManifest h
  | PInvalid message => mret (NotOk message)
  | POtherKind kind => mret (NotOk ("unsupported manifest kind: " +:+ default "unknown" kind))
  end.
End apply.

Arguments St W : clear implicits.
