(* ===== verification/WorkloadApplyProps.v ===== *)
(** * Workloads: what applying a ModelRun does

    Nothing is stopped or started before the workload was admitted under the
    node's lock, only what the manifest names is touched, and a result that says
    running is the answer of the node.  All of it holds for an arbitrary outside
    ([oracle]). *)

From S2P Require Import Prelude Trace JsText WorkloadTypes Admission WorkloadStore WorkloadApply.
From Stdlib Require Import QArith.

#[local] Open Scope string_scope.
#[local] Open Scope list_scope.
#[local] Open Scope Z_scope.

Section apply.
Context {W : Type} (oracle : ∀ c : Call, W → W * result (Resp c)).
Context (dir : list string) (localeCompare : string → string → Z) (toFixed1 num_string : Num → string).
Context (identity : option (string → option string)) (totalmem : Q) (has_dispatch has_budget : bool).

Local Abbreviation M := (eff (St W)).
Local Abbreviation does := (appends (@obs W)).
Local Abbreviation perform := (perform oracle).
Local Abbreviation apply := (applyOne oracle dir localeCompare toFixed1 num_string identity totalmem has_dispatch has_budget).
Local Abbreviation admit_budget :=
  (admitServerBudget oracle dir localeCompare toFixed1 num_string identity totalmem has_budget).
Local Abbreviation converge :=
  (convergeServerUnderLock oracle dir localeCompare toFixed1 num_string identity totalmem has_budget).
Local Abbreviation same_node := (nodeIdentityMatcher identity).

(** ** Traces *)

Lemma does_observe (P : Obs → Prop) o : P o → does P (observe o : M unit).
Proof. intros H. apply appends_one. by exists o. Qed.

Lemma does_perform (P : Obs → Prop) c : (∀ r, P (OCall c r)) → does P (perform c).
Proof.
  intros H. apply appends_one. intros s. unfold WorkloadApply.perform. destruct (oracle c (world s)) as [w r].
  by exists (OCall c r).
Qed.

Lemma does_lift {A} P (r : result A) : does P (lift r : M A).
Proof. by apply appends_still. Qed.

Lemma does_each {A} P (body : A → M unit) l : (∀ x, x ∈ l → does P (body x)) → does P (each body l).
Proof.
  induction l as [|x l IH]; intros H; [apply appends_ret|]. cbn [each].
  apply appends_bind; [apply H; left|intros _; apply IH; intros; apply H; by right].
Qed.

Ltac does_step :=
  match goal with
  | |- appends _ _ (mret _) => apply appends_ret
  | |- appends _ _ (throw _) => apply appends_throw
  | |- appends _ _ (lift _) => apply does_lift
  | |- appends _ _ (_ ≫= _) => apply appends_bind; [|intros ?]
  | |- appends _ _ (try_catch _ _) => apply appends_try; [|intros ?]
  | |- appends _ _ (or_null _) => unfold or_null
  | |- appends _ _ (onEvent _ _) => apply does_observe
  | |- appends _ _ (observe _) => apply does_observe
  | |- @appends _ _ _ _ ?P ?m =>
      lazymatch m with WorkloadApply.perform _ ?c => refine (does_perform P c _); intros ? end
  | |- appends _ _ (if ?b then _ else _) => destruct b
  | |- appends _ _ (match ?x with _ => _ end) => destruct x
  end.
Ltac does_auto := repeat does_step.

(** ** What may be seen *)

(** A call that starts or stops something. *)
Definition drastic (c : Call) : bool :=
  match c with
  | CServerStop _ _ | CServerStart _ _ _ _ _ _ _ _ | CModelHostStart _ _ | CModelHostStop _ _
  | CRpcStart _ _ _ _ | CRpcStop _ _ | CWriteState _ _ | CRemoveState _ => true
  | _ => false
  end.

Definition quiet (o : Obs) : Prop := match o with OCall c _ => drastic c = false | _ => True end.

(** A stored ModelRun of this node that the manifest asks to evict, and the
    only stored manifest of that name. *)
Definition evictable (manifest : ModelRun) (view : StoreView) (t : string) : Prop :=
  t ∈ parseEvictTargets manifest ∧ claims localeCompare t view ≤ 1 ∧
  ∃ m, loadWorkloadByNameAny dir t view = Ok (inl m) ∧ mr_name m = t ∧ same_node (run_node manifest) (run_node m) = true.

(** The arguments and the host do not expose the server, or may. *)
Definition bind_allowed (manifest : ModelRun) : Prop :=
  hostBindRefusal (desired_args manifest) (ep ← sp_endpoint (mr_spec manifest); ep_host ep)
    (sp_allowExternalBind (mr_spec manifest)) = None.

Definition permitted (manifest : ModelRun) (view : StoreView) (o : Obs) : Prop :=
  match o with
  | OCall (CServerStop n t) _ => n = run_node manifest ∧ (t = mr_name manifest ∨ evictable manifest view t)
  | OCall (CServerStart n t _ args _ _ _ _) _ => 
      n = run_node manifest ∧ t = mr_name manifest ∧ args = desired_args manifest ∧ bind_allowed manifest
  | OCall (CRpcStart n _ _ _) _ | OCall (CRpcStop n _) _ => n ∈ wk_node <$> sp_workers (mr_spec manifest)
  | o => quiet o
  end.

Lemma quiet_permitted manifest view o : quiet o → permitted manifest view o.
Proof. destruct o as [| | |[]]; cbn; try done. Qed.

(** ** Admission *)

(** The budget [B] is what the caller, this machine or the node said. *)
Definition budget_source (manifest : ModelRun) (mid : list Obs) (B : Q) : Prop :=
  OCall (CNodeBudget (run_node manifest)) (Ok (Some (Fin B))) ∈ mid ∨
  (run_node manifest = LOCAL_NODE_ID ∧ B = capacityBudgetGiB totalmem) ∨
  ∃ bytes, OCall (CNodeFacts (run_node manifest)) (Ok (Some (Fin bytes))) ∈ mid ∧ (0 < bytes)%Q ∧ B = capacityBudgetGiB bytes.

(** All that is reserved on the node once the workload runs and what is to be
    evicted is gone. *)
Definition charged (manifest : ModelRun) (verified : list string) (view : StoreView) : list AdmissionReservation :=
  (reservation_of <$> living_manifests localeCompare identity manifest verified view) ++ [reservation_of manifest].

Definition admitted (manifest : ModelRun) (verified : list string) (view : StoreView) (mid : list Obs) : Prop :=
  let all := charged manifest verified view in
  (∀ t, t ∈ verified → evictable manifest view t) ∧ Forall sound all ∧
  (forceAdmit manifest = true ∨ (total_memory all == 0)%Q ∨
   ∃ B, budget_source manifest mid B ∧ (total_memory all <= B)%Q).

Lemma authorize_verified ctx view targets verified :
  authorize dir localeCompare identity ctx view targets = inl verified →
  ∀ t, t ∈ verified → t ∈ targets ∧ claims localeCompare t view ≤ 1 ∧
    ∃ m, loadWorkloadByNameAny dir t view = Ok (inl m) ∧ mr_name m = t ∧
      same_node (run_node (cc_manifest ctx)) (run_node m) = true.
Proof.
  revert verified. induction targets as [|t0 rest IH]; intros verified; cbn [authorize]; [by intros [= <-] t ?%elem_of_nil|].
  unfold checkEvictTarget. destruct (1 <? claims localeCompare t0 view) eqn:Ec; [done|]. to_prop.
  destruct (loadWorkloadByNameAny dir t0 view) as [loaded|msg] eqn:El.
  - destruct (bool_decide _) eqn:En; cbn [negb]; [|done]. to_prop. destruct loaded as [m|h]; [|done].
    destruct (nodeIdentityMatcher _ _ _) eqn:Es; cbn [negb]; [|done].
    destruct (authorize _ _ _ _ _ rest) as [v|]; [|done]. intros [= <-] t [->|Ht]%elem_of_cons.
    + split; [left|]. split; [done|]. by exists m.
    + destruct (IH v eq_refl t Ht) as (H1&H2). split; [by right|done].
  - destruct (isMissingManifestError msg); [|done]. intros Ha t Ht.
    destruct (IH verified Ha t Ht) as (H1&H2). split; [by right|done].
Qed.

(** Living manifests are those that the accounts count. *)
Lemma counted_living manifest verified view :
  counted (same_node (run_node manifest)) (living_manifests localeCompare identity manifest verified view) =
    living_manifests localeCompare identity manifest verified view.
Proof.
  unfold counted. apply list_filter_all. intros m Hm. apply list_elem_of_filter in Hm. tauto.
Qed.

(** Where the budget comes from. *)
Lemma resolve_budget manifest client declared s s' b :
  resolveAdmissionBudgetGiB oracle totalmem has_budget (run_node manifest) client declared s = (s', Ok b) →
  ∃ mid, obs s' = obs s ++ mid ∧ Forall quiet mid ∧
    ∀ B, isFiniteBudgetGiB b = Some B → budget_source manifest mid B.
Proof.
  unfold resolveAdmissionBudgetGiB. intros [(e&_&?)|(s1&explicit&E1&E2)]%bind_run; [done|].
  assert (∃ mid, obs s1 = obs s ++ mid ∧ Forall quiet mid ∧
    ∀ x, explicit = Some x → OCall (CNodeBudget (run_node manifest)) (Ok (Some x)) ∈ mid) as (mid&Hobs&Hq&Hex).
  { destruct has_budget.
    - unfold WorkloadApply.perform in E1. destruct (oracle _ _) as [w r] eqn:Eo. injection E1 as <- ->.
      exists [OCall (CNodeBudget (run_node manifest)) (Ok explicit)]. split; [done|]. split; [by repeat constructor|].
      intros x ->. left.
    - injection E1 as <- <-. exists []. split; [by rewrite app_nil_r|]. by split. }
  destruct explicit as [x|].
  { injection E2 as <- <-. exists mid. do 2 (split; [done|]). intros B HB. left.
    unfold isFiniteBudgetGiB in HB. destruct x; try done. case_match; [|done]. injection HB as <-. by apply Hex. }
  destruct (bool_decide _) eqn:El.
  { injection E2 as <- <-. exists mid. do 2 (split; [done|]). intros B HB. right; left. to_prop. split; [done|].
    cbn in HB. case_match; congruence. }
  destruct declared; [|injection E2 as <- <-; exists mid; by do 2 (split; [done|])]. cbn [negb] in E2.
  destruct (cs_nodeFacts client); [|injection E2 as <- <-; exists mid; by do 2 (split; [done|])]. cbn [negb] in E2.
  revert E2. unfold or_null, try_catch, WorkloadApply.perform. rewrite !eff_bind_eq.
  destruct (oracle (CNodeFacts (run_node manifest)) (world s1)) as [w [facts|e]] eqn:Eo; cbn; intros [= <- <-].
  - exists (mid ++ [OCall (CNodeFacts (run_node manifest)) (Ok facts)]). cbn. rewrite Hobs, app_assoc. split; [done|].
    split; [apply Forall_app; split; [done|by repeat constructor]|]. intros B HB. right; right.
    destruct facts as [[bytes| | |]|]; try done. destruct (Qle_bool bytes 0) eqn:Eb; [done|].
    assert (0 < bytes)%Q as Hpos.
    { apply Qnot_le_lt. intros Hle%Qle_bool_iff. congruence. }
    exists bytes. split; [apply elem_of_app; right; left|]. split; [done|].
    unfold isFiniteBudgetGiB in HB. case_match; congruence.
  - exists (mid ++ [OCall (CNodeFacts (run_node manifest)) (Err e)]). cbn. rewrite Hobs, app_assoc. split; [done|].
    split; [apply Forall_app; split; [done|by repeat constructor]|]. done.
Qed.

(** What was admitted, and what was seen until then. *)
Lemma admit_run ctx s s' r :
  admit_budget ctx s = (s', r) →
  let manifest := cc_manifest ctx in
  cc_evictTargets ctx = parseEvictTargets manifest →
  ∃ seg, obs s' = obs s ++ seg ∧ Forall quiet seg ∧
    ∀ reserved b verified, r = Ok (SaAdmit reserved b verified) →
      ∃ view mid, seg = OCall CReadStore (Ok view) :: mid ∧ admitted manifest verified view mid.
Proof.
  intros H manifest Hev. unfold admitServerBudget in H. fold manifest in H.
  apply bind_run in H as [(e&E&->)|(s1&view&E&H)].
  { unfold WorkloadApply.perform in E. destruct (oracle _ _) as [w x]. injection E as <- ->.
    eexists. split; [reflexivity|]. split; [by repeat constructor|done]. }
  assert (obs s1 = obs s ++ [OCall CReadStore (Ok view)]) as Hs1.
  { unfold WorkloadApply.perform in E. destruct (oracle _ _) as [w x]. by injection E as <- ->. }
  destruct (authorizeEvictTargets _ _ _ ctx view) as [verified|refused] eqn:Ea.
  2: { injection H as <- <-. rewrite Hs1. eexists. split; [reflexivity|]. split; [by repeat constructor|done]. }
  set (living := living_manifests localeCompare identity manifest verified view) in *.
  apply bind_run in H as [(e&E2&->)|(s2&budget&E2&H)].
  - assert (does quiet (resolveAdmissionBudgetGiB oracle totalmem has_budget (run_node manifest) (cc_client ctx)
      (declares_memory manifest || existsb declares_memory living))) as Hd by (unfold resolveAdmissionBudgetGiB; does_auto; done).
    destruct (appends_run _ _ _ _ _ _ Hd E2) as (seg&Hseg&Hq). exists (OCall CReadStore (Ok view) :: seg).
    rewrite Hseg, Hs1, <-app_assoc. split; [done|]. split; [by constructor|done].
  - apply resolve_budget in E2 as (mid&Hmid&Hq&HB).
    assert (s' = s2) as -> by (by destruct (computeNodeBudget _ _ _ _ _ _ _ _ _); injection H as <- _).
    exists (OCall CReadStore (Ok view) :: mid). rewrite Hmid, Hs1, <-app_assoc. split; [done|]. split; [by constructor|].
    intros reserved b verified' ->. exists view, mid.
    pose proof (admission_cases budget (reservation_of <$> living) (reservation_of manifest) (forceAdmit manifest)) as Hx.
    unfold computeNodeBudget, living in H. rewrite counted_living in H. fold living in H.
    destruct (admitAgainstFiniteBudget _ _ _ _) as [t b'| | |]; try done. injection H as <- <- <-.
    split; [done|]. destruct Hx as (Hsound&Hb&_&_&_&Hok). split.
    { intros t' Ht'. destruct (authorize_verified _ _ _ _ Ea t' Ht') as (H1&H2&H3). rewrite Hev in H1. by split_and!. }
    split; [exact Hsound|]. destruct Hok as [?|[?|(B&HbB&Hle)]]; [by left|by right; left|].
    right; right. exists B. split; [apply HB; congruence|exact Hle].
Qed.

(** ** After admission *)

Lemma stopEvict_does manifest view targets :
  (∀ t, t ∈ targets → evictable manifest view t) →
  does (permitted manifest view) (stopEvictTargets oracle manifest targets).
Proof.
  intros H. apply does_each. intros t Ht. unfold stopEvictTarget. does_auto; try done. split; [done|]. right. by apply H.
Qed.

Lemma startWorker_does manifest view w :
  w ∈ sp_workers (mr_spec manifest) → does (permitted manifest view) (startWorker oracle w).
Proof.
  intros Hw. unfold startWorker. does_auto; try done; cbn; apply list_elem_of_fmap; eauto.
Qed.

Lemma start_each_does manifest view l :
  (∀ w, w ∈ l → w ∈ sp_workers (mr_spec manifest)) → does (permitted manifest view) (start_each oracle l).
Proof.
  induction l as [|w l IH]; intros H; cbn [start_each]; [apply appends_ret|]. does_step.
  - apply startWorker_does, H. left.
  - does_step; [apply appends_ret|]. apply IH. intros x Hx. apply H. by right.
Qed.

Lemma preflight_does manifest view l : does (permitted manifest view) (preflightWorkers oracle l).
Proof.
  assert (does (permitted manifest view) (doctors_of oracle l)) as Hd.
  { induction l as [|w l IH]; cbn [doctors_of]; unfold doctor_of; does_auto; try done. }
  unfold preflightWorkers. destruct l; does_auto; done.
Qed.

Lemma startWorkers_does manifest view :
  does (permitted manifest view) (startWorkers oracle (sp_workers (mr_spec manifest))).
Proof. unfold startWorkers. does_auto; [apply preflight_does|by apply start_each_does]. Qed.

Lemma stopWorkers_does manifest view :
  does (permitted manifest view) (stopWorkers oracle (sp_workers (mr_spec manifest))).
Proof.
  apply does_each. intros w Hw. rewrite elem_of_reverse in Hw. unfold stopWorker. does_auto; try done. cbn. apply list_elem_of_fmap. exists w. split; [done|exact Hw].
Qed.

Lemma startServer_does ctx view action reserved b :
  cc_desiredArgs ctx = desired_args (cc_manifest ctx) → bind_allowed (cc_manifest ctx) →
  does (permitted (cc_manifest ctx) view) (startServer oracle toFixed1 ctx action reserved b).
Proof.
  intros Hargs Hbind. pose proof (stopWorkers_does (cc_manifest ctx) view) as Hstop. unfold startServer, startCoordinator.
  does_auto; done.
Qed.

Lemma converge_rest ctx view action reserved b :
  cc_desiredArgs ctx = desired_args (cc_manifest ctx) → bind_allowed (cc_manifest ctx) →
  does (permitted (cc_manifest ctx) view)
    (match sp_workers (mr_spec (cc_manifest ctx)) with
     | [] => startServer oracle toFixed1 ctx action reserved b
     | workers =>
         error ← startWorkers oracle workers;
         match error with
         | Some e =>
             stopWorkers oracle workers;;
             now ← perform CNow;
             mret (failedApplyResult action e now)
         | None => startServer oracle toFixed1 ctx action reserved b
         end
     end).
Proof.
  intros Hargs Hbind. pose proof (startServer_does ctx view action reserved b Hargs Hbind) as Hs.
  pose proof (startWorkers_does (cc_manifest ctx) view) as Hw. pose proof (stopWorkers_does (cc_manifest ctx) view) as Hst.
  destruct (sp_workers _) as [|w l]; [done|]. apply appends_bind; [done|]. intros [e|]; [|done].
  apply appends_bind; [done|]. intros _. does_auto. done.
Qed.

Lemma converge_run ctx s s' r :
  converge ctx s = (s', r) →
  cc_evictTargets ctx = parseEvictTargets (cc_manifest ctx) → cc_desiredArgs ctx = desired_args (cc_manifest ctx) →
  let manifest := cc_manifest ctx in
  ∃ seg, obs s' = obs s ++ seg ∧
    (Forall quiet seg ∨
     ∃ view verified mid after, seg = OCall CReadStore (Ok view) :: mid ++ after ∧ Forall quiet mid ∧
       admitted manifest verified view mid ∧ Forall (permitted manifest view) after).
Proof.
  intros H Hev Hargs manifest. unfold convergeServerUnderLock in H. fold manifest in H.
  apply bind_run in H as [(e&E&->)|(s1&admission&E&H)].
  { destruct (admit_run _ _ _ _ E Hev) as (seg&Hseg&Hq&_). exists seg. split; [done|by left]. }
  destruct (admit_run _ _ _ _ E Hev) as (seg&Hseg&Hq&Hadm).
  destruct admission as [reserved b verified|adm|refused]; [|injection H as <- <-; exists seg; split; [done|by left]..].
  destruct (refuseHostBindBeforeTeardown ctx) eqn:Eb; [injection H as <- <-; exists seg; split; [done|by left]|].
  destruct (Hadm _ _ _ eq_refl) as (view&mid&->&Ha). pose proof Ha as (Hver&_).
  assert (does (permitted manifest view)
    (stopEvictTargets oracle manifest (filter (λ t, t ∈ verified) (cc_evictTargets ctx));;
     if cc_matches ctx then already_running ctx
     else
       action ← stopMismatched oracle ctx;
       match sp_workers (mr_spec manifest) with
       | [] => startServer oracle toFixed1 ctx action reserved b
       | workers =>
           error ← startWorkers oracle workers;
           match error with
           | Some e =>
               stopWorkers oracle workers;;
               now ← perform CNow;
               mret (failedApplyResult action e now)
           | None => startServer oracle toFixed1 ctx action reserved b
           end
       end)) as Hrest.
  { apply appends_bind.
    - apply stopEvict_does. intros t [Ht _]%list_elem_of_filter. by apply Hver.
    - intros _. destruct (cc_matches ctx) eqn:Em; [unfold already_running; does_auto; done|].
      apply appends_bind; [unfold stopMismatched; does_auto; try done; cbn; by split; [|left]|].
      intros action. apply converge_rest; [done|]. unfold refuseHostBindBeforeTeardown in Eb. rewrite Em, Hargs in Eb.
      unfold bind_allowed. fold manifest in Eb. by destruct (hostBindRefusal _ _ _). }
  destruct (appends_run _ _ _ _ _ _ Hrest H) as (after&Hafter&Hperm).
  exists (OCall CReadStore (Ok view) :: mid ++ after). rewrite Hafter, Hseg, <-app_assoc. split; [done|]. right.
  exists view, verified, mid, after. apply Forall_cons in Hq as [_ Hq]. by split_and!.
Qed.

(** A part that touches nothing comes first. *)
Lemma quiet_then {A B} (m : M A) (f : A → M B) s s' r (Q : Prop) :
  does quiet m → Forall quiet (obs s) → (m ≫= f) s = (s', r) →
  (Forall quiet (obs s') → Q) → (∀ s1 a, Forall quiet (obs s1) → f a s1 = (s', r) → Q) → Q.
Proof.
  intros Hm Hs H Herr Hok. apply bind_run in H as [(e&E&->)|(s1&a&E&H)];
    destruct (appends_run _ _ _ _ _ _ Hm E) as (seg&Hseg&Hq); [apply Herr|apply (Hok s1 a); [|done]];
    rewrite Hseg; by apply Forall_app.
Qed.

Definition guarded (manifest : ModelRun) (l : list Obs) : Prop :=
  Forall quiet l ∨
  ∃ before view verified mid after,
    l = before ++ OLock (run_node manifest) :: OCall CReadStore (Ok view) :: mid ++ after ++ [OUnlock (run_node manifest)] ∧
    Forall quiet before ∧ Forall quiet mid ∧ admitted manifest verified view mid ∧ Forall (permitted manifest view) after.

Lemma perform_quiet c : drastic c = false → does quiet (perform c).
Proof. intros H. by apply does_perform. Qed.

Ltac perform_is_quiet :=
  match goal with
  | |- @appends _ _ _ _ _ ?m => lazymatch m with WorkloadApply.perform _ ?c => exact (perform_quiet c eq_refl) end
  end.

Lemma checkPort_quiet manifest : does quiet (checkPortCollision oracle localeCompare identity manifest).
Proof. unfold checkPortCollision. does_auto; done. Qed.

Lemma resolveRel_quiet manifest client : does quiet (resolveDesiredRel oracle manifest client).
Proof. unfold resolveDesiredRel. does_auto; done. Qed.

Lemma server_guarded manifest s s' r :
  run_enabled manifest = true → Forall quiet (obs s) →
  applyServer oracle dir localeCompare toFixed1 num_string identity totalmem has_budget manifest s = (s', r) →
  guarded manifest (obs s').
Proof.
  intros Hen Hs H. unfold applyServer in H. rewrite Hen in H. cbn [negb] in H.
  refine (quiet_then _ _ _ _ _ _ _ Hs H _ _); [perform_is_quiet|by left|]. clear s H Hs. intros s client Hs H.
  eapply (quiet_then _ _ _ _ _ _ (checkPort_quiet _) Hs H); [by left|]. clear s H Hs. intros s [r0|] Hs H.
  { injection H as <- <-. by left. }
  refine (quiet_then _ _ _ _ _ _ _ Hs H _ _); [perform_is_quiet|by left|]. clear s H Hs. intros s status Hs H.
  eapply (quiet_then _ _ _ _ _ _ (resolveRel_quiet _ _) Hs H); [by left|]. clear s H Hs. intros s rel Hs H.
  refine (quiet_then _ _ _ _ _ _ _ Hs H _ _); [perform_is_quiet|by left|]. clear s H Hs. intros s now Hs H.
  unfold withNodeLock in H. destruct ((observe (OLock (run_node manifest));; converge _) s) as [s1 r1] eqn:E.
  injection H as <- <-. cbn. rewrite eff_bind_eq in E. cbn in E.
  destruct (converge_run _ _ _ _ E eq_refl eq_refl) as (seg&Hseg&Hcase). cbn in Hseg. rewrite Hseg.
  destruct Hcase as [Hq|(view&verified&mid&after&->&Hmid&Hadm&Hafter)]; [left|right].
  - rewrite !Forall_app. by repeat constructor.
  - exists (obs s), view, verified, mid, after. rewrite <-!app_assoc. cbn. by rewrite <-app_assoc.
Qed.

(** C25 (safety): applying an enabled ModelRun stops or starts something only
    under its node's lock, after reading the store and admitting the workload:
    all reservations that the store holds for the node, without those of the
    workloads to be evicted, and the workload's own are quantities of memory
    whose sum is zero, forced, or at most a budget that the caller, this machine
    or the node itself gave.  A server that is then stopped is the manifest's
    own or that of a stored ModelRun of this node which the annotation names
    and no second manifest claims; the one started is the manifest's, with the
    arguments it asks for and bound within the machine or by permission; workers
    are those of the manifest.  Before, after, and on every refusal, nothing is
    touched. *)
Theorem teardown_after_admission manifest w s' r :
  run_enabled manifest = true →
  apply manifest (mkSt w []) = (s', r) →
  Forall quiet (obs s') ∨
  ∃ before view verified mid after,
    obs s' = before ++ OLock (run_node manifest) :: OCall CReadStore (Ok view) :: mid ++ after ++ [OUnlock (run_node manifest)] ∧
    Forall quiet before ∧ Forall quiet mid ∧ admitted manifest verified view mid ∧ Forall (permitted manifest view) after.
Proof.
  intros Hen H. change (guarded manifest (obs s')). unfold applyOne in H. destruct (sp_gateway _).
  2: { exact (server_guarded manifest (mkSt w []) _ _ Hen (List.Forall_nil _) H). }
  destruct has_dispatch.
  - refine (quiet_then _ _ _ _ _ _ _ _ H _ _); [perform_is_quiet|constructor|by left|]. intros s1 [r0|] Hs1 H1; [injection H1 as <- <-; by left|].
    by eapply server_guarded.
  - left. assert (does quiet (gatewayPendingResult oracle manifest)) as Hd by (unfold gatewayPendingResult; does_auto; done).
    destruct (appends_run _ _ _ _ _ _ Hd H) as (seg&->&Hq). by rewrite Forall_app.
Qed.

(** ** What a result says *)

Definition is_start (o : Obs) : Prop :=
  match o with OCall (CServerStart _ _ _ _ _ _ _ _) _ => True | _ => False end.
#[local] Instance is_start_dec o : Decision (is_start o).
Proof. destruct o as [| | |[]]; cbn; apply _. Defined.

Definition no_start (o : Obs) : Prop := ¬ is_start o.

(** The request that starts the manifest's server. *)
Definition start_request (manifest : ModelRun) : Call :=
  let spec := mr_spec manifest in
  CServerStart (sp_node spec) (mr_name manifest) (sp_target spec) (desired_args manifest) (sp_allowExternalBind spec)
    (sp_endpoint spec) (if truthy (sp_binary spec) then sp_binary spec else None) (sp_timeoutSeconds spec).

(** One start was asked for, its stream ended, and its last result is the
    server of this status. *)
Definition started_as (manifest : ModelRun) (seg : list Obs) (st : ModelRunStatus) : Prop :=
  ∃ (s : Stream StartDone) pid endpoint e,
    filter is_start seg = [OCall (start_request manifest) (Ok s)] ∧
    sm_end s = StreamComplete ∧ last (sm_done s) = Some (mkDone true pid endpoint e) ∧
    st_serverPid st = pid ∧ st_endpoint st = Some endpoint.

Definition failed_loudly (res : ApplyResult) : Prop := st_phase (ar_status res) = Failed ∧ is_Some (ar_error res).

(** A result that says running, for a server seen as [status]. *)
Definition says_running (manifest : ModelRun) (matches : bool) (status : ServerStatus) (seg : list Obs) (res : ApplyResult) : Prop :=
  st_phase (ar_status res) = Running ∧
  if matches then
    ar_action res = ActUnchanged ∧ Forall no_start seg ∧
    st_serverPid (ar_status res) = ss_pid status ∧ st_endpoint (ar_status res) = Some (ss_endpoint status)
  else
    ar_action res = (if ss_up status then ActRestarted else ActStarted) ∧ ar_error res = None ∧
    started_as manifest seg (ar_status res).

Lemma quiet_no_start l : Forall quiet l → Forall no_start l.
Proof. intros H. eapply Forall_impl; [exact H|]. intros [| | |[]]; cbn; try done; try by intros _ []. Qed.

Lemma no_start_filter l : Forall no_start l → filter is_start l = [].
Proof. induction 1 as [|o l Ho _ IH]; [done|]. by rewrite filter_cons_False. Qed.

(** Calls that are no start. *)
Ltac no_start_auto := does_auto; try done; try by intros [].

Lemma start_each_no_start l : does no_start (start_each oracle l).
Proof.
  induction l as [|w l IH]; cbn [start_each]; unfold startWorker; no_start_auto; done.
Qed.

Lemma startWorkers_no_start l : does no_start (startWorkers oracle l).
Proof.
  assert (∀ k, does no_start (doctors_of oracle k)) as Hd.
  { induction k as [|w k IH]; cbn [doctors_of]; unfold doctor_of; no_start_auto; done. }
  unfold startWorkers, preflightWorkers. pose proof (start_each_no_start l). destruct l; no_start_auto; done.
Qed.

Lemma stopWorkers_no_start l : does no_start (stopWorkers oracle l).
Proof. apply does_each. intros w _. unfold stopWorker. no_start_auto. Qed.

Lemma stopEvict_no_start manifest l : does no_start (stopEvictTargets oracle manifest l).
Proof. apply does_each. intros t _. unfold stopEvictTarget. no_start_auto. Qed.

Lemma started_after manifest pre seg st :
  Forall no_start pre → started_as manifest seg st → started_as manifest (pre ++ seg) st.
Proof.
  intros Hp (s&pid&ep&e&Hf&H). exists s, pid, ep, e. by rewrite filter_app, (no_start_filter _ Hp), Hf.
Qed.

Definition honest (manifest : ModelRun) (matches : bool) (status : ServerStatus) (seg : list Obs) (r : result ApplyResult) : Prop :=
  ∀ res, r = Ok res → failed_loudly res ∨ says_running manifest matches status seg res.

Lemma says_running_after manifest matches status pre seg res :
  Forall no_start pre → says_running manifest matches status seg res → says_running manifest matches status (pre ++ seg) res.
Proof.
  intros Hp (Hr&H). split; [done|]. destruct matches; [|destruct H as (?&?&H)]; split_and!; try tauto.
  - apply Forall_app. tauto.
  - by apply started_after.
Qed.

Lemma honest_after manifest matches status pre (m : M ApplyResult) :
  Forall no_start pre → spec obs m (honest manifest matches status) →
  spec obs m (λ seg, honest manifest matches status (pre ++ seg)).
Proof.
  intros Hp Hm. eapply spec_weaken; [exact Hm|]. intros seg r H res E.
  destruct (H res E); [by left|]. right. by apply says_running_after.
Qed.

(** Parts that start nothing come first. *)
Lemma honest_bind {A} manifest matches status (m : M A) (f : A → M ApplyResult) :
  does no_start m → (∀ a, spec obs (f a) (honest manifest matches status)) →
  spec obs (m ≫= f) (honest manifest matches status).
Proof.
  intros Hm Hf. eapply spec_bind; [apply spec_appends, Hm|by intros seg e _ res|].
  intros seg a Hseg. by apply honest_after.
Qed.

Lemma honest_failed manifest matches status res : failed_loudly res → spec obs (mret res : M ApplyResult) (honest manifest matches status).
Proof. intros H. apply spec_ret. intros ? [= <-]. by left. Qed.

Lemma perform_spec c : spec obs (perform c) (λ seg r, seg = [OCall c r]).
Proof. apply spec_one. intros s. unfold WorkloadApply.perform. destruct (oracle c (world s)) as [w r]. by exists (OCall c r). Qed.

Lemma startCoordinator_spec manifest :
  spec obs (startCoordinator oracle manifest (desired_args manifest)) (λ seg r,
    ∀ d, r = Ok d → ∃ s : Stream StartDone, seg = [OCall (start_request manifest) (Ok s)] ∧ sm_end s = StreamComplete ∧ last (sm_done s) = d).
Proof.
  intros s0. unfold startCoordinator. rewrite eff_bind_eq. unfold WorkloadApply.perform.
  destruct (oracle _ _) as [w [s|e]]; cbn.
  - exists [OCall (start_request manifest) (Ok s)]. split; [done|]. intros d. unfold settled. destruct (sm_end s) eqn:E; try done.
    intros [= <-]. by exists s.
  - exists [OCall (start_request manifest) (Err e)]. by split.
Qed.

Lemma startServer_honest ctx action reserved b :
  cc_desiredArgs ctx = desired_args (cc_manifest ctx) → cc_matches ctx = false →
  action = (if ss_up (cc_status ctx) then ActRestarted else ActStarted) →
  spec obs (startServer oracle toFixed1 ctx action reserved b) (honest (cc_manifest ctx) (cc_matches ctx) (cc_status ctx)).
Proof.
  intros Hargs Hm Ha. unfold startServer. rewrite Hargs. apply honest_bind; [no_start_auto|]. intros _.
  eapply spec_bind; [apply startCoordinator_spec|by intros seg e _ res|]. intros seg d Hd.
  destruct (Hd d eq_refl) as (s&->&Hend&Hlast). clear Hd.
  assert (does no_start (match sp_workers (mr_spec (cc_manifest ctx)) with [] => mret tt | workers => stopWorkers oracle workers end)) as Hw.
  { pose proof (stopWorkers_no_start (sp_workers (mr_spec (cc_manifest ctx)))). destruct (sp_workers _); [apply appends_ret|done]. }
  assert (∀ err, spec obs ((match sp_workers (mr_spec (cc_manifest ctx)) with [] => mret tt | workers => stopWorkers oracle workers end);;
     mret (failedApplyResult action err (cc_now ctx)) : M ApplyResult)
     (λ seg2 r, honest (cc_manifest ctx) (cc_matches ctx) (cc_status ctx) ([OCall (start_request (cc_manifest ctx)) (Ok s)] ++ seg2) r)) as Hfail.
  { intros err. eapply spec_bind; [apply spec_appends, Hw|by intros seg e _ res|]. intros seg _ _. apply spec_ret.
    intros res [= <-]. by left. }
  destruct d as [[[] pid ep e]|]; [|apply Hfail..].
  eapply spec_bind; [apply spec_appends; refine (does_observe no_start _ _); by intros []|by intros seg e' _ res|].
  intros ev u Hev. apply spec_ret. intros res [= <-]. right. split; [done|]. rewrite Hm. split_and!; [done|done|].
  exists s, pid, ep, e. rewrite app_nil_r, filter_app, (no_start_filter _ Hev). by rewrite filter_cons_True.
Qed.

Lemma authorize_refusal ctx view targets r :
  authorize dir localeCompare identity ctx view targets = inr r → ∃ t why reason, r = evictRefusalResult ctx t why reason.
Proof.
  induction targets as [|t l IH]; cbn [authorize]; [done|]. destruct (checkEvictTarget _ _ _ _ _ _) as [| |r'] eqn:E.
  - destruct (authorize _ _ _ _ _ l); [done|]. intros [= <-]. by apply IH.
  - exact IH.
  - intros [= <-]. unfold checkEvictTarget in E. repeat case_match; try done; injection E as <-; by repeat eexists.
Qed.

Lemma admit_refusal ctx :
  spec obs (admit_budget ctx) (λ seg r, Forall no_start seg ∧
    ∀ res, r = Ok (SaEvictRefused res) → ∃ t why reason, res = evictRefusalResult ctx t why reason).
Proof.
  apply spec_and; [apply spec_appends; unfold admitServerBudget, resolveAdmissionBudgetGiB; no_start_auto|].
  unfold admitServerBudget.
  eapply spec_bind; [exact (perform_spec CReadStore)|by intros seg e _|].
  intros seg view _. unfold authorizeEvictTargets. destruct (authorize _ _ _ _ _ _) as [verified|r] eqn:Ea.
  - eapply spec_bind; [|by intros ? ? _|].
    + apply (spec_appends _ _ (λ _, True)). unfold resolveAdmissionBudgetGiB. does_auto; done.
    + intros ? budget _. destruct (computeNodeBudget _ _ _ _ _ _ _ _ _); apply spec_ret; done.
  - apply spec_ret. intros res [= <-]. by eapply authorize_refusal.
Qed.

Lemma converge_honest ctx :
  cc_desiredArgs ctx = desired_args (cc_manifest ctx) →
  spec obs (converge ctx) (honest (cc_manifest ctx) (cc_matches ctx) (cc_status ctx)).
Proof.
  intros Hargs. unfold convergeServerUnderLock.
  eapply spec_bind; [apply admit_refusal|by intros seg e _ res|]. intros pre [reserved b verified|adm|r] (Hpre&Hr);
    (apply honest_after; [exact Hpre|]).
  - unfold refuseHostBindBeforeTeardown. destruct (cc_matches ctx) eqn:Em.
    + apply honest_bind; [apply stopEvict_no_start|]. intros _. apply honest_bind; [no_start_auto|]. intros _.
      apply spec_ret. intros res [= <-]. right. split; [done|]. by split_and!.
    + destruct (hostBindRefusal _ _ _); cbn [fmap option_fmap option_map]; [by apply honest_failed|].
      apply honest_bind; [apply stopEvict_no_start|]. intros _.
      eapply (spec_bind _ _ _ (λ seg r, Forall no_start seg ∧ ∀ a, r = Ok a → a = if ss_up (cc_status ctx) then ActRestarted else ActStarted)).
      * apply spec_and; [apply spec_appends; unfold stopMismatched; no_start_auto|].
        unfold stopMismatched. destruct (ss_up _); [|apply spec_ret; by intros a [= <-]].
        eapply spec_bind; [by apply spec_appends, does_observe with (P := λ _, True)|by intros seg e _|]. intros seg _ _.
        eapply spec_bind; [exact (spec_appends _ _ _ (does_perform (λ _, True) (CServerStop _ _) (λ _, I)))|by intros ? e _|].
        intros seg' _ _.
        apply spec_ret. by intros a [= <-].
      * by intros seg e _.
      * intros seg action (Hseg&Hact). specialize (Hact action eq_refl).
        assert (spec obs (startServer oracle toFixed1 ctx action reserved b) (honest (cc_manifest ctx) false (cc_status ctx))) as Hst.
        { rewrite <-Em. by apply startServer_honest. }
        apply honest_after; [done|].
        destruct (sp_workers _) as [|w l] eqn:Ew; [exact Hst|].
        apply honest_bind; [apply startWorkers_no_start|]. intros [e|]; [|exact Hst].
        apply honest_bind; [apply stopWorkers_no_start|]. intros _. apply honest_bind; [no_start_auto|]. intros now.
        by apply honest_failed.
  - unfold admissionRejection. destruct (cc_matches ctx) eqn:Em; [|apply honest_failed; by split].
    destruct (cc_evictTargets ctx); apply spec_ret; intros res [= <-]; right; by split_and!.
  - destruct (Hr r eq_refl) as (t&why&reason&->). unfold evictRefusalResult. destruct (cc_matches ctx) eqn:Em.
    + apply spec_ret. intros res [= <-]. right. by split_and!.
    + by apply honest_failed.
Qed.

(** The node was seen with [status], and the result says so. *)
Definition honest_of (manifest : ModelRun) (seg : list Obs) (r : result ApplyResult) : Prop :=
  ∀ res, r = Ok res → failed_loudly res ∨
    ∃ rel status, (sp_targetKind (mr_spec manifest) = TRel → rel = sp_target (mr_spec manifest)) ∧
      OCall (CServerStatus (run_node manifest) (mr_name manifest)) (Ok status) ∈ seg ∧
      says_running manifest (server_matches manifest rel status) status seg res.

Lemma honest_of_after manifest pre (m : M ApplyResult) :
  Forall no_start pre → spec obs m (honest_of manifest) → spec obs m (λ seg, honest_of manifest (pre ++ seg)).
Proof.
  intros Hp Hm. eapply spec_weaken; [exact Hm|]. intros seg2 r H res E.
  destruct (H res E) as [|(rel&status&Hrel&Hin&Hsays)]; [by left|]. right. exists rel, status.
  split_and!; [done|by apply elem_of_app; right|by apply says_running_after].
Qed.

Lemma honest_of_bind {A} manifest (m : M A) (f : A → M ApplyResult) :
  does no_start m → (∀ a, spec obs (f a) (honest_of manifest)) → spec obs (m ≫= f) (honest_of manifest).
Proof.
  intros Hm Hf. eapply spec_bind; [apply spec_appends, Hm|by intros seg e _ res|].
  intros seg a Hseg. by apply honest_of_after.
Qed.

Lemma resolveRel_spec manifest client :
  spec obs (resolveDesiredRel oracle manifest client) (λ seg r, Forall no_start seg ∧
    ∀ rel, r = Ok rel → sp_targetKind (mr_spec manifest) = TRel → rel = sp_target (mr_spec manifest)).
Proof.
  apply spec_and; [apply spec_appends; unfold resolveDesiredRel; no_start_auto|].
  unfold resolveDesiredRel. destruct (sp_targetKind _); [apply spec_ret; by intros rel [= <-]|].
  eapply spec_weaken; [apply (spec_appends _ _ (λ _, True)); does_auto; done|]. by intros seg r _ rel _.
Qed.

Lemma lock_spec {A} node (m : M A) (Q Q' : list Obs → result A → Prop) :
  spec obs m Q → (∀ seg r, Q seg r → Q' (OLock node :: seg ++ [OUnlock node]) r) → spec obs (withNodeLock node m) Q'.
Proof.
  intros H HQ s. unfold withNodeLock. destruct ((observe (OLock node);; m) s) as [s1 r1] eqn:E.
  rewrite eff_bind_eq in E. cbn in E. destruct (spec_run _ _ _ _ _ _ H E) as (seg&Hseg&Hq). cbn in Hseg |- *.
  exists (OLock node :: seg ++ [OUnlock node]). rewrite Hseg, <-!app_assoc. split; [done|by apply HQ].
Qed.

Lemma applyServer_honest manifest :
  run_enabled manifest = true →
  spec obs (applyServer oracle dir localeCompare toFixed1 num_string identity totalmem has_budget manifest) (honest_of manifest).
Proof.
  intros Hen. unfold applyServer. rewrite Hen. cbn [negb].
  apply honest_of_bind; [no_start_auto|]. intros client.
  eapply (spec_bind _ _ _ (λ seg r, Forall no_start seg ∧ ∀ c, r = Ok (Some c) → failed_loudly c)).
  { apply spec_and; [apply spec_appends; unfold checkPortCollision; no_start_auto|]. unfold checkPortCollision.
    destruct (ep ← _; _) as [[desired port]|]; [|by apply spec_ret].
    eapply spec_bind; [exact (perform_spec CReadStore)|by intros ? ? _|].
    intros _ view _. destruct (find _ _); [|by apply spec_ret].
    eapply spec_bind; [exact (perform_spec CNow)|by intros ? ? _|].
    intros _ now _. apply spec_ret. intros c [= <-]. by split. }
  { by intros seg e _ res. }
  intros pre [c|] (Hpre&Hc).
  { apply spec_ret. intros res [= <-]. left. by apply Hc. }
  apply honest_of_after; [done|].
  eapply spec_bind; [exact (perform_spec (CServerStatus _ _))|by intros ? ? _ res|]. intros seen status ->.
  eapply spec_bind; [apply resolveRel_spec|by intros ? ? _ res|]. intros rseg rel (Hrseg&Hrel). specialize (Hrel rel eq_refl).
  eapply spec_bind; [exact (perform_spec CNow)|by intros ? ? _ res|]. intros nseg now ->.
  eapply lock_spec; [by apply converge_honest|]. cbn [cc_manifest cc_matches cc_status]. intros seg r H res E.
  destruct (H res E) as [|Hsays]; [by left|]. right. exists rel, status. split_and!; [done|left|].
  assert (∀ o k, ¬ is_start o → Forall no_start k → Forall no_start (o :: k)) as Hcons by (by constructor).
  apply (says_running_after _ _ _ [_]); [apply Hcons; [by intros []|constructor]|].
  apply says_running_after; [done|]. apply (says_running_after _ _ _ [_; _]); [do 2 (apply Hcons; [by intros []|]); constructor|].
  destruct Hsays as (Hrun&Hm). split; [done|]. destruct (server_matches _ _ _); split_and!; try tauto.
  - apply Forall_app. split; [tauto|]. apply Hcons; [by intros []|constructor].
  - destruct Hm as (_&_&(s&pid&ep&e&Hf&Hrest)). exists s, pid, ep, e. by rewrite filter_app, Hf.
Qed.

(** C26 (functional): what applying an enabled ModelRun returns is what happened.
    A result that does not say running says failed and carries an error.  One
    that says running is about the status the node answered: either that server
    is the one the manifest asks for (up, same model, arguments, endpoint and
    binary), nothing was started, and pid and endpoint are its own; or it is
    not, exactly one start was asked for, with the manifest's arguments, its
    stream completed with an ok result, and pid and endpoint are that result's;
    the action says whether another server was up before. *)
Theorem result_truthful manifest w s' res :
  sp_gateway (mr_spec manifest) = false → run_enabled manifest = true →
  apply manifest (mkSt w []) = (s', Ok res) →
  failed_loudly res ∨
  ∃ rel status,
    (sp_targetKind (mr_spec manifest) = TRel → rel = sp_target (mr_spec manifest)) ∧
    OCall (CServerStatus (run_node manifest) (mr_name manifest)) (Ok status) ∈ obs s' ∧
    says_running manifest (server_matches manifest rel status) status (obs s') res.
Proof.
  intros Hg Hen H. unfold applyOne in H. rewrite Hg in H.
  destruct (spec_run _ _ _ _ _ _ (applyServer_honest manifest Hen) H) as (seg&Hseg&Hh).
  cbn in Hseg. rewrite Hseg. by apply Hh.
Qed.

(** ** A start that breaks off *)

Definition start_answer (o : Obs) : option (Stream StartDone) :=
  match o with
  | OCall c r =>
      match c return result (Resp c) → option (Stream StartDone) with
      | CServerStart _ _ _ _ _ _ _ _ => λ r, match r with Ok s => Some s | Err _ => None end
      | _ => λ _, None
      end r
  | _ => None
  end.

Definition broken_start (manifest : ModelRun) (s : Stream StartDone) (o : Obs) : Prop :=
  o = OCall (start_request manifest) (Ok s) ∧ sm_end s ≠ StreamComplete.

(** After a start that broke off there is [tail] and an error, nothing else. *)
Definition escapes (manifest : ModelRun) (tail : list Obs) (seg : list Obs) (r : result ApplyResult) : Prop :=
  ∀ pre s o post, seg = pre ++ o :: post → broken_start manifest s o → post = tail ∧ ∃ e, r = Err e.

Lemma no_start_escapes manifest tail seg r : Forall no_start seg → escapes manifest tail seg r.
Proof.
  intros H pre s o post -> (->&_). apply Forall_app in H as [_ H]. apply Forall_cons in H as [H _]. by destruct H.
Qed.

Lemma escapes_after manifest tail pre seg r :
  Forall no_start pre → escapes manifest tail seg r → escapes manifest tail (pre ++ seg) r.
Proof.
  intros Hp H p s o post E Hb.
  assert (¬ no_start o) as Ho by (destruct Hb as (->&_); intros Hn; by apply Hn).
  destruct (Forall_not_split _ _ _ _ _ _ Hp Ho E) as (p'&_&->).
  by eapply H.
Qed.

Lemma escapes_bind {A} manifest tail (m : M A) (f : A → M ApplyResult) :
  does no_start m → (∀ a, spec obs (f a) (escapes manifest tail)) → spec obs (m ≫= f) (escapes manifest tail).
Proof.
  intros Hm Hf. eapply spec_bind; [apply spec_appends, Hm|intros; by apply no_start_escapes|].
  intros seg a Hseg. eapply spec_weaken; [apply Hf|]. intros seg2 r. by apply escapes_after.
Qed.

Lemma startServer_escapes ctx action reserved b :
  cc_desiredArgs ctx = desired_args (cc_manifest ctx) →
  spec obs (startServer oracle toFixed1 ctx action reserved b) (escapes (cc_manifest ctx) []).
Proof.
  intros Hargs. unfold startServer. rewrite Hargs. apply escapes_bind; [no_start_auto|]. intros _.
  unfold startCoordinator. eapply (spec_bind _ _ _ (λ seg r, (∃ a, seg = [OCall (start_request (cc_manifest ctx)) a] ∧
    ∀ s, a = Ok s → sm_end s ≠ StreamComplete → ∃ e, r = Err e))).
  - eapply spec_bind; [exact (perform_spec (start_request (cc_manifest ctx)))|intros seg e ->; by exists (Err e)|].
    intros seg s ->. intros s0. exists []. rewrite app_nil_r. split; [done|]. exists (Ok s). split; [done|].
    intros s' [= <-] Hs. unfold lift, settled. destruct (sm_end s); [done|by eexists..].
  - intros seg e (a&->&_) pre s o post E (->&_). destruct pre as [|? [|]]; [|done..]. injection E as _ <-. split; [done|by eexists].
  - intros seg d (a&->&Ha).
    assert (∀ m : M ApplyResult, does no_start m → spec obs m (λ seg2 r,
      escapes (cc_manifest ctx) [] ([OCall (start_request (cc_manifest ctx)) a] ++ seg2) r)) as Hrest.
    { intros m Hm. eapply spec_weaken; [apply spec_appends, Hm|]. intros seg2 r Hseg2 [|o' pre] s o post E (->&Hs).
      - apply (f_equal (λ l, o ← head l; start_answer o)) in E. cbn in E. destruct a as [s'|]; [injection E as ->|done].
        by destruct (Ha s eq_refl Hs) as [? [=]].
      - injection E as _ ->. apply Forall_app in Hseg2 as [_ H]. apply Forall_cons in H as [H _]. by destruct H. }
    apply Hrest. pose proof (stopWorkers_no_start (sp_workers (mr_spec (cc_manifest ctx)))). no_start_auto.
Qed.

Lemma converge_escapes ctx :
  cc_desiredArgs ctx = desired_args (cc_manifest ctx) → spec obs (converge ctx) (escapes (cc_manifest ctx) []).
Proof.
  intros Hargs. pose proof (startServer_escapes ctx) as Hst. unfold convergeServerUnderLock.
  apply escapes_bind; [unfold admitServerBudget, resolveAdmissionBudgetGiB; no_start_auto|].
  intros [reserved b verified|adm|r]; [|apply spec_ret; by apply no_start_escapes..].
  destruct (refuseHostBindBeforeTeardown ctx); [apply spec_ret; by apply no_start_escapes|].
  apply escapes_bind; [apply stopEvict_no_start|]. intros _. destruct (cc_matches ctx).
  { apply escapes_bind; [no_start_auto|]. intros _. apply spec_ret; by apply no_start_escapes. }
  apply escapes_bind; [unfold stopMismatched; no_start_auto|]. intros action.
  destruct (sp_workers _) as [|wk l]; [by apply Hst|]. apply escapes_bind; [apply startWorkers_no_start|].
  intros [e|]; [|by apply Hst]. apply escapes_bind; [apply stopWorkers_no_start|]. intros _.
  apply escapes_bind; [no_start_auto|]. intros now. apply spec_ret; by apply no_start_escapes.
Qed.

Lemma applyServer_escapes manifest :
  run_enabled manifest = true →
  spec obs (applyServer oracle dir localeCompare toFixed1 num_string identity totalmem has_budget manifest)
    (escapes manifest [OUnlock (run_node manifest)]).
Proof.
  intros Hen. unfold applyServer. rewrite Hen. cbn [negb].
  apply escapes_bind; [no_start_auto|]. intros client.
  apply escapes_bind; [unfold checkPortCollision; no_start_auto|]. intros [c|]; [apply spec_ret; by apply no_start_escapes|].
  apply escapes_bind; [no_start_auto|]. intros status.
  apply escapes_bind; [unfold resolveDesiredRel; no_start_auto|]. intros rel.
  apply escapes_bind; [no_start_auto|]. intros now.
  eapply lock_spec; [by apply converge_escapes|]. intros seg r H pre s o post E (->&Hs).
  destruct pre as [|? pre]; [done|]. injection E as _ E. symmetry in E.
  destruct (decide (post = [])) as [->|Hp].
  { apply app_inj_tail in E as [_ [=]]. }
  destruct (exists_last Hp) as (post'&u&->).
  assert ((pre ++ OCall (start_request manifest) (Ok s) :: post') ++ [u] = seg ++ [OUnlock (run_node manifest)]) as E2
    by (rewrite <-E; by rewrite <-app_assoc).
  apply app_inj_tail in E2 as [<- ->]. destruct (H _ s _ _ eq_refl) as (->&He); [done|]. done.
Qed.

(** When the stream of the start request fails or times out, the
    apply ends there with an error: nothing is asked for after it, in particular
    the workers that were started for the server keep running (a start that
    completes without success stops them). *)
Theorem broken_start_escapes manifest w s' r pre s post :
  sp_gateway (mr_spec manifest) = false → run_enabled manifest = true →
  apply manifest (mkSt w []) = (s', r) →
  obs s' = pre ++ OCall (start_request manifest) (Ok s) :: post → sm_end s ≠ StreamComplete →
  post = [OUnlock (run_node manifest)] ∧ ∃ e, r = Err e.
Proof.
  intros Hg Hen H E Hs. unfold applyOne in H. rewrite Hg in H.
  destruct (spec_run _ _ _ _ _ _ (applyServer_escapes manifest Hen) H) as (seg&Hseg&Hh).
  cbn in Hseg. rewrite Hseg in E. by eapply Hh.
Qed.
End apply.

(** ** A run *)

Module ApplyExample.
Definition spec_of (node target : string) (workers : list ModelRunWorker) : ModelRunSpec :=
  mkSpec node true TRel target [] workers Always (Some (Fin 4)) None None 60 false false false.
Definition incoming : ModelRun :=
  mkModelRun "new" {["llamactl.io/evict" := "old"]} (spec_of "n1" "b.gguf" [mkWorker "w1" "10.0.0.2" 50052 [] 30]) None.
Definition old : ModelRun := mkModelRun "old" ∅ (spec_of "n1" "a.gguf" []) None.
Definition old_up : ServerStatus := mkServerStatus true (Some "a.gguf") [] (Some 41) None None None "http://n1:8080".
Definition down : ServerStatus := mkServerStatus false None [] None None None None "".
Definition started : Stream StartDone := mkStream [mkDone true (Some 42) "http://n1:8081" None] StreamComplete.
Definition broken : Stream StartDone := mkStream [] StreamTimeout.

Definition oracle (start : Stream StartDone) (c : Call) (w : unit) : unit * result (Resp c) :=
  (w, match c return result (Resp c) with
      | CNow => Ok "t0"
      | CGetClient _ => Ok (mkClient true true)
      | CServerStatus _ t => Ok (if bool_decide (t = "old") then old_up else down)
      | CServerStart _ _ _ _ _ _ _ _ => Ok start
      | CRpcStart _ _ _ _ => Ok (mkStream [mkWorkerDone true None] StreamComplete)
      | CRpcDoctor _ => Ok (mkDoctor true None None)
      | CReadStore => Ok (mkStore [("old.yaml", FModelRun false old); ("new.yaml", FModelRun false incoming)] (λ _, FsBroken))
      | CServerStop _ _ | CRpcStop _ _ => Ok tt
      | CNodeBudget _ => Ok (Some (Fin 6))
      | _ => Err "not called"
      end).

Definition run (start : Stream StartDone) : St unit * result ApplyResult :=
  applyOne (oracle start) ["w"] (λ _ _, 0) (λ _, "") (λ _, "") None 64 false true incoming (mkSt tt []).
End ApplyExample.

Example teardown_after_admission_witness :
  let s := (ApplyExample.run ApplyExample.started).1 in
  OCall (CServerStop "n1" "old") (Ok tt) ∈ obs s ∧ guarded ["w"] (λ _ _, 0) None 64 ApplyExample.incoming (obs s).
Proof.
  split.
  - assert (nth_error (obs (ApplyExample.run ApplyExample.started).1) 8 = Some (OCall (CServerStop "n1" "old") (Ok tt))) as E
      by (vm_compute; reflexivity).
    rewrite list_elem_of_In. exact (nth_error_In _ _ E).
  - exact (teardown_after_admission (ApplyExample.oracle ApplyExample.started) ["w"] (λ _ _, 0) (λ _, "") (λ _, "") None 64
      false true ApplyExample.incoming tt _ _ eq_refl (surjective_pairing _)).
Defined.

Example result_truthful_witness :
  let s := (ApplyExample.run ApplyExample.started).1 in
  ∃ res, (ApplyExample.run ApplyExample.started).2 = Ok res ∧ st_phase (ar_status res) = Running ∧
    (failed_loudly res ∨ ∃ rel status,
      (TRel = TRel → rel = "b.gguf") ∧ OCall (CServerStatus "n1" "new") (Ok status) ∈ obs s ∧
      says_running ApplyExample.incoming (server_matches ApplyExample.incoming rel status) status (obs s) res).
Proof.
  destruct (ApplyExample.run ApplyExample.started) as [s [res|e]] eqn:E.
  - exists res. split; [done|]. split; [vm_compute in E; by injection E as _ <-|].
    exact (result_truthful (ApplyExample.oracle ApplyExample.started) ["w"] (λ _ _, 0) (λ _, "") (λ _, "") None 64
      false true ApplyExample.incoming tt s res eq_refl eq_refl E).
  - exfalso. vm_compute in E. discriminate.
Defined.

Example broken_start_escapes_witness :
  let s := (ApplyExample.run ApplyExample.broken).1 in
  OCall (CRpcStart "w1" 50052 [] 30) (Ok (mkStream [mkWorkerDone true None] StreamComplete)) ∈ obs s ∧
  ∃ pre post, obs s = pre ++ OCall (start_request ApplyExample.incoming) (Ok ApplyExample.broken) :: post ∧
    (post = [OUnlock "n1"] ∧ ∃ e, (ApplyExample.run ApplyExample.broken).2 = Err e).
Proof.
  destruct (ApplyExample.run ApplyExample.broken) as [s r] eqn:E. split.
  - assert (nth_error (obs (ApplyExample.run ApplyExample.broken).1) 15 =
      Some (OCall (CRpcStart "w1" 50052 [] 30) (Ok (mkStream [mkWorkerDone true None] StreamComplete)))) as En
      by (vm_compute; reflexivity).
    rewrite E in En. rewrite list_elem_of_In. exact (nth_error_In _ _ En).
  - assert (take 18 (obs (ApplyExample.run ApplyExample.broken).1) ++
      OCall (start_request ApplyExample.incoming) (Ok ApplyExample.broken) :: drop 19 (obs (ApplyExample.run ApplyExample.broken).1) =
      obs (ApplyExample.run ApplyExample.broken).1) as Es by (vm_compute; reflexivity).
    rewrite E in Es. symmetry in Es. do 2 eexists. split; [exact Es|].
    exact (broken_start_escapes (ApplyExample.oracle ApplyExample.broken) ["w"] (λ _ _, 0) (λ _, "") (λ _, "") None 64
      false true ApplyExample.incoming tt s r _ _ _ eq_refl eq_refl E Es ltac:(by intros [=])).
Defined.
