(* ===== verification/WorkloadFrame.v ===== *)
(** * Workloads: what applying moves

    A relation between the states of the outside that every call respects is
    respected by [applyOne] and [applyModelHostManifest]; for a ModelHost the
    calls are known more closely. *)

From S2P Require Import Prelude WorkloadTypes Admission WorkloadStore WorkloadApply.
From Stdlib Require Import QArith.

#[local] Open Scope string_scope.
#[local] Open Scope list_scope.
#[local] Open Scope Z_scope.

(** ** Computations that move a part of the state along a relation *)

Section moves.
Context {S V : Type} (part : S → V) (R : V → V → Prop) `{!PreOrder R}.

Definition moves {A} (m : eff S A) : Prop := ∀ s, R (part s) (part (m s).1).

Lemma moves_still {A} (m : eff S A) : (∀ s, part (m s).1 = part s) → moves m.
Proof. intros H s. rewrite H. reflexivity. Qed.
Lemma moves_ret {A} (a : A) : moves (mret a).
Proof. by apply moves_still. Qed.
Lemma moves_gets {A} (f : S → A) : moves (gets f).
Proof. by apply moves_still. Qed.

Lemma moves_bind {A B} (m : eff S A) (f : A → eff S B) : moves m → (∀ a, moves (f a)) → moves (m ≫= f).
Proof.
  intros Hm Hf s. rewrite eff_bind_eq. specialize (Hm s). destruct (m s) as [s1 [a|e]]; [|done].
  etransitivity; [exact Hm|apply Hf].
Qed.

Lemma moves_try {A} (m : eff S A) (h : string → eff S A) : moves m → (∀ e, moves (h e)) → moves (try_catch m h).
Proof.
  intros Hm Hh s. unfold try_catch. specialize (Hm s). destruct (m s) as [s1 [a|e]]; [done|].
  etransitivity; [exact Hm|apply Hh].
Qed.

Lemma moves_modify f : (∀ s, R (part s) (part (f s))) → moves (modify f).
Proof. intros H s. apply H. Qed.

Lemma moves_run {A} (m : eff S A) s s' r : moves m → m s = (s', r) → R (part s) (part s').
Proof. intros H E. specialize (H s). by rewrite E in H. Qed.
End moves.

Ltac moves_step :=
  match goal with
  | |- moves _ _ (mret _) => refine (moves_ret _ _ _)
  | |- moves _ _ (gets _) => refine (moves_gets _ _ _)
  | |- moves _ _ (_ ≫= _) => refine (moves_bind _ _ _ _ _ _); [|intros ?]
  | |- moves _ _ (try_catch _ _) => refine (moves_try _ _ _ _ _ _); [|intros ?]
  | |- moves _ _ (if ?b then _ else _) => destruct b eqn:?
  | |- moves _ _ (match ?x with _ => _ end) => destruct x eqn:?
  end.

(** ** Applying *)

Section frame.
Context {W : Type} (oracle : ∀ c : Call, W → W * result (Resp c)).
Context (dir : list string) (localeCompare : string → string → Z) (toFixed1 num_string : Num → string).
Context (identity : option (string → option string)) (totalmem : Q) (has_dispatch has_budget : bool).
Context (computeModelHostSpecHash : ModelHostSpec → string) (supervisor : option (Q * Q * option Q)) (has_client : bool).
Context (R : W → W → Prop) `{!PreOrder R} (allowed : Call → Prop).
Context (Hcall : ∀ c w, allowed c → R w (oracle c w).1).

Local Abbreviation respects := (moves (@world W) R).

Lemma respects_perform c : allowed c → respects (perform oracle c).
Proof. intros Hc [w o]. unfold perform. specialize (Hcall c w Hc). cbn. by destruct (oracle c w). Qed.

Lemma respects_lift {A} (r : result A) : respects (lift r).
Proof. by refine (moves_still _ _ _ _). Qed.
Lemma respects_observe o : respects (observe o).
Proof. by refine (moves_still _ _ _ _). Qed.

Lemma respects_each {A} (body : A → eff (St W) unit) l : (∀ x, respects (body x)) → respects (each body l).
Proof. intros H. induction l; cbn [each]; [refine (moves_ret _ _ _)|]. by refine (moves_bind _ _ _ _ _ _). Qed.

Lemma respects_lock {A} node (m : eff (St W) A) : respects m → respects (withNodeLock node m).
Proof. intros H s. unfold withNodeLock. specialize (H (observe (OLock node) s).1). rewrite eff_bind_eq. cbn in *. by destruct (m _). Qed.

Ltac respects_step :=
  first
    [ moves_step
    | match goal with
      | |- moves _ _ (lift _) => apply respects_lift
      | |- moves _ _ (or_null _) => unfold or_null
      | |- moves _ _ (onEvent _ _) => apply respects_observe
      | |- moves _ _ (observe _) => apply respects_observe
      | |- moves _ _ (each _ _) => apply respects_each; intros ?
      | |- moves _ _ (withNodeLock _ _) => apply respects_lock
      | |- moves _ _ ?m => lazymatch m with perform _ ?c => refine (respects_perform c _) end
      end ].
Ltac respects_auto := repeat respects_step; try done; auto.

(** A host is started when it is enabled and stopped when it is not. *)
Definition host_call (manifest : ModelHostManifest) (c : Call) : Prop :=
  match c with
  | CNow | CValidateSpec _ | CNodeBudget _ | CNodeFacts _ | CReadStore | CReadState _ | CGetClient _ => True
  | CModelHostStart node m => node = hs_node (mh_spec manifest) ∧ m = manifest ∧ hs_enabled (mh_spec manifest) = true
  | CModelHostStatus node name => node = hs_node (mh_spec manifest) ∧ name = mh_name manifest
  | CModelHostStop node name => node = hs_node (mh_spec manifest) ∧ name = mh_name manifest ∧ hs_enabled (mh_spec manifest) = false
  | CRemoveState name => name = mh_name manifest ∧ hs_enabled (mh_spec manifest) = false
  | _ => False
  end.

(** A launch record is written last, by an apply that succeeds. *)
Definition ends (manifest : ModelHostManifest) (m : eff (St W) ApplyManifestOutcome) : Prop := ∀ s s' r, m s = (s', r) →
  R (world s) (world s') ∨
  ∃ pid state s1, r = Ok (OkModelHost manifest pid (host_url (mh_spec manifest))) ∧ hs_enabled (mh_spec manifest) = true ∧
    R (world s) (world s1) ∧ oracle (CWriteState (mh_name manifest) state) (world s1) = (world s', Ok tt).

Lemma ends_respects manifest m : respects m → ends manifest m.
Proof. intros H s s' r E. left. by eapply moves_run. Qed.

Lemma ends_bind {A} manifest (m : eff (St W) A) f : respects m → (∀ a, ends manifest (f a)) → ends manifest (m ≫= f).
Proof.
  intros Hm Hf s s' r E. rewrite eff_bind_eq in E. specialize (Hm s). destruct (m s) as [s1 [a|e]]; cbn in Hm.
  - destruct (Hf a _ _ _ E) as [H|(pid&state&s2&->&He&Hr&Hw)]; [left; by transitivity (world s1)|].
    right. exists pid, state, s2. split_and!; try done. by transitivity (world s1).
  - injection E as <- <-. by left.
Qed.

Section host.
Context (manifest : ModelHostManifest).
Context (Hallowed : ∀ c, host_call manifest c → allowed c).
Context (Hfail : ∀ state w w' msg, oracle (CWriteState (mh_name manifest) state) w = (w', Err msg) → R w w').

Ltac host_auto := respects_auto; apply Hallowed; cbn; auto.

Lemma respects_disable : hs_enabled (mh_spec manifest) = false → respects (disableModelHost oracle manifest).
Proof. intros He. unfold disableModelHost. host_auto. Qed.

Lemma respects_start : hs_enabled (mh_spec manifest) = true → respects (startModelHostProcess oracle manifest).
Proof. intros He. unfold startModelHostProcess. host_auto. Qed.

Lemma ends_sidecar pid rel :
  hs_enabled (mh_spec manifest) = true →
  ends manifest (writeModelHostSidecar oracle computeModelHostSpecHash manifest pid rel;;
                 mret (OkModelHost manifest pid (host_url (mh_spec manifest)))).
Proof.
  intros He s s' r. rewrite eff_bind_eq. unfold writeModelHostSidecar. rewrite eff_bind_eq.
  pose proof (respects_perform (CReadState (mh_name manifest)) ltac:(by apply Hallowed) s) as Hread.
  destruct (perform oracle _ s) as [s1 [existing|e]]; cbn in Hread; [|intros [= <- <-]; by left].
  destruct pid as [p|]; [|intros [= <- <-]; by left].
  destruct (bool_decide (hs_node (mh_spec manifest) = LOCAL_NODE_ID) && (0 <? p)); [|intros [= <- <-]; by left].
  rewrite eff_bind_eq. pose proof (respects_perform CNow ltac:(by apply Hallowed) s1) as Hnow.
  destruct (perform oracle CNow s1) as [s2 [now|e]]; cbn in Hnow; [|intros [= <- <-]; left; by etransitivity].
  rewrite eff_bind_eq. unfold perform.
  match goal with |- context [oracle (CWriteState ?n ?st) ?w] => destruct (oracle (CWriteState n st) w) as [w3 [[]|e]] eqn:Ew;
    intros [= <- <-]; [right; exists (Some p), st, s2; split_and!; try done|left] end; [by etransitivity|].
  transitivity (world s1); [done|]. transitivity (world s2); [done|]. by eapply Hfail.
Qed.

Lemma apply_host_ends : ends manifest
  (applyModelHostManifest oracle localeCompare toFixed1 num_string totalmem has_budget computeModelHostSpecHash supervisor has_client
     manifest).
Proof.
  unfold applyModelHostManifest. apply ends_bind; [unfold validateModelHostAdmission; host_auto|intros [error|]].
  { apply ends_respects. host_auto. }
  destruct has_client; cbn [negb]; [|apply ends_respects; host_auto]. apply ends_bind; [host_auto|intros client].
  destruct (hs_enabled (mh_spec manifest)) eqn:He; cbn [negb]; [|apply ends_respects, respects_disable, He].
  destruct (modelHostBindRefusal manifest) as [error|]; [apply ends_respects; host_auto|].
  destruct (head (hs_rels (mh_spec manifest))) as [rel|]; [|apply ends_respects; host_auto].
  apply ends_bind; [unfold resolveModelHostBudgetGiB; host_auto|intros budget].
  apply ends_bind; [unfold admitModelHostBudget; host_auto|intros [error|]]; [apply ends_respects; host_auto|].
  apply ends_bind; [by apply respects_start|intros [[st pid]|error]]; [by apply ends_sidecar|apply ends_respects; host_auto].
Qed.
End host.

(** ** applyOne *)

Section run.
Context (Hall : ∀ c, allowed c).

Ltac run_auto := respects_auto; apply Hall.

Lemma frame_doctors workers : respects (doctors_of oracle workers).
Proof. induction workers; cbn [doctors_of]; unfold doctor_of; run_auto. Qed.
Lemma frame_start_each workers : respects (start_each oracle workers).
Proof. induction workers; cbn [start_each]; unfold startWorker; run_auto. Qed.
Lemma frame_stopWorkers workers : respects (stopWorkers oracle workers).
Proof. unfold stopWorkers, stopWorker. run_auto. Qed.
#[local] Hint Resolve frame_doctors frame_start_each frame_stopWorkers : core.

Lemma frame_startWorkers workers : respects (startWorkers oracle workers).
Proof. unfold startWorkers, preflightWorkers. run_auto. Qed.
Lemma frame_startServer ctx action reserved b : respects (startServer oracle toFixed1 ctx action reserved b).
Proof. unfold startServer, startCoordinator. run_auto. Qed.
#[local] Hint Resolve frame_startWorkers frame_startServer : core.

Lemma frame_converge ctx :
  respects (convergeServerUnderLock oracle dir localeCompare toFixed1 num_string identity totalmem has_budget ctx).
Proof.
  unfold convergeServerUnderLock, admitServerBudget, resolveAdmissionBudgetGiB, stopEvictTargets, stopEvictTarget, already_running,
    stopMismatched. run_auto.
Qed.

Lemma frame_applyOne manifest :
  respects (applyOne oracle dir localeCompare toFixed1 num_string identity totalmem has_dispatch has_budget manifest).
Proof.
  unfold applyOne, applyServer, gatewayPendingResult, stopDisabledWorkload, checkPortCollision, resolveDesiredRel.
  pose proof frame_converge. run_auto.
Qed.
End run.
End frame.
