(* ===== verification/Reconciler.v ===== *)
(** * The reconciler: one pass over the workloads

    packages/remote/src/workload/reconciler.ts over apply.ts, with the deadlines
    of node-rpc-deadline.ts around every call to a node.  Files (manifests, launch
    records, start attempts, conditions, histories) are part of the state, which
    the outside may change whenever it is asked something; writes may fail.  Node
    calls, writes and the clock are an arbitrary oracle. *)

From S2P Require Import Prelude JsMap JsText JsJson HostSidecars WorkloadTypes Admission WorkloadStore WorkloadApply HostConditions NodeDeadline.
From Stdlib Require Import QArith.

#[local] Open Scope string_scope.
#[local] Open Scope list_scope.
#[local] Open Scope Z_scope.

(** ** What is asked of the outside *)

Inductive FileId :=
| FManifest (path : string) | FLaunch (name : string) | FAttempt (name : string) | FConditions (name : string)
| FHistory (path : list string).

(** A call of apply.ts, a write or the removal of a file. *)
Inductive RCall := RApply (c : Call) | RWrite (f : FileId) | RRemove (f : FileId).

Definition RResp (c : RCall) : Type := match c with RApply c => Resp c | _ => unit end.

(** Which of the calls of a client [withNodeRpcDeadline] wraps. *)
Definition node_procedure (c : RCall) : option Procedure :=
  match c with
  | RApply (CServerStatus node _) => Some (mkProcedure node "serverStatus" Query)
  | RApply (CServerStop node _) => Some (mkProcedure node "serverStop" Mutate)
  | RApply (CModelHostStop node _) => Some (mkProcedure node "modelHostStop" Mutate)
  | RApply (CModelHostStatus node _) => Some (mkProcedure node "modelHostStatus" Query)
  | RApply (CRpcStop node _) => Some (mkProcedure node "rpcServerStop" Mutate)
  | RApply (CRpcDoctor node) => Some (mkProcedure node "rpcServerDoctor" Query)
  | RApply (CResolveTarget node _) => Some (mkProcedure node "resolveTarget" Query)
  | RApply (CNodeFacts node) => Some (mkProcedure node "nodeFacts" Query)
  | _ => None
  end.

Record Disk := mkDisk {
  dk_store : StoreView; dk_launch : gmap string FileText; dk_attempts : gmap string FileText; dk_conditions : gmap string FileText;
  dk_history : HistoryFiles
}.

(** ** Reports *)

Inductive ReportAction := RAUnchanged | RAStarted | RARestarted | RAPending | RASkippedDeleted | RASkippedExternal.
#[export] Instance ReportAction_eq : EqDecision ReportAction.
Proof. solve_decision. Defined.

Definition report_action (a : ApplyAction) : ReportAction :=
  match a with ActUnchanged => RAUnchanged | ActStarted => RAStarted | ActRestarted => RARestarted | ActPending => RAPending end.

(** [rp_host]: the kind is ModelHost. *)
Record ReconcileNodeReport := mkReport {
  rp_host : bool; rp_name : string; rp_node : string; rp_action : ReportAction; rp_error : option string;
  rp_managedBy : option string; rp_foundDead : bool; rp_unreachable : bool
}.

Inductive HostReconcileDecision := SweepDisabled | Converged | NeverStopped | Apply.
#[export] Instance Decision_eq : EqDecision HostReconcileDecision.
Proof. solve_decision. Defined.

Inductive HostOutcome :=
| HoOk (recovered : string) (restart : option ModelHostRestartReason) (lastKnownRunning : option bool)
| HoError (reason message : string).

Definition restartReason (wasRunning foundDead : bool) : option ModelHostRestartReason :=
  if wasRunning then Some SpecChanged else if foundDead then Some EngineExited else None.

(** The update of the controller's history; [None] when nothing changes. *)
Definition history_update (outcome : HostOutcome) (iso : string) (h : ControllerHostHistory) : option ControllerHostHistory :=
  let with_runtime r := mkHistory r (hh_node h) (hh_workload h) (hh_updatedAt h) in
  let next :=
    match outcome with
    | HoError reason message => with_runtime (withReconcileError (hh_runtime h) reason message iso) (hh_lastKnownRunning h)
    | HoOk recovered restart lastKnownRunning =>
        let r1 := match restart with Some why => withRestart (hh_runtime h) why iso | None => hh_runtime h end in
        with_runtime (default r1 (withReconcileRecovered r1 recovered iso)) (default (hh_lastKnownRunning h) lastKnownRunning)
    end in
  if bool_decide (stringify (history_json h) = stringify (history_json next)) then None else Some next.

Section classify.
Context (computeModelHostSpecHash : ModelHostSpec → string).

Definition is_local (spec : ModelHostSpec) : bool := bool_decide (hs_node spec = LOCAL_NODE_ID).

Definition localSpecChangedWhileDown (spec : ModelHostSpec) (localState : option HostState) (desiredHash : string) : bool :=
  is_local spec &&
  match st ← localState; ho_specHash st with Some recorded => negb (bool_decide (recorded = desiredHash)) | None => false end.

Definition is_running (current : HostStatus) : bool := bool_decide (ht_state current = "Running").

Definition classifyHostReconcile (spec : ModelHostSpec) (localState : option HostState) (current : HostStatus)
    (startAttemptHash : option string) : HostReconcileDecision :=
  if negb (hs_enabled spec) && negb (is_running current) then SweepDisabled
  else
    let desiredHash := computeModelHostSpecHash spec in
    let observedHash := if is_local spec then st ← localState; ho_specHash st else ht_specHash current in
    if is_running current && bool_decide (observedHash = Some desiredHash) then Converged
    else
      let neverLaunched :=
        is_local spec && match localState with None => true | Some _ => false end && negb (bool_decide (startAttemptHash = Some desiredHash)) in
      let editedWhileDown := localSpecChangedWhileDown spec localState desiredHash in
      match hs_restartPolicy spec with
      | Never => if negb (is_running current) && negb neverLaunched && negb editedWhileDown then NeverStopped else Apply
      | _ => Apply
      end.
End classify.

Section reconcile.
Context {W : Type} (raw : ∀ c : RCall, W * Disk → W * Disk * result (RResp c)) (late : RCall → W * Disk → bool).
Context (timeouts : NodeRpcTimeouts) (date_valid : string → bool) (localeCompare : string → string → Z).
Context (toFixed1 num_string : Num → string) (totalmem : Q) (computeModelHostSpecHash : ModelHostSpec → string).
(** The workloads directory, the environment, [opts.resolveNodeIdentity],
    [opts.filter]. *)
Context (dir : list string) (env : string → option string) (identity : option (string → option string)).
Context (filter_opt : option (ModelRun → bool)).
(** What the schemas make of manifests to be saved. *)
Context (ModelRunSchema : ModelRun → result ModelRun) (ModelHostSchema : ModelHostManifest → result ModelHostManifest).

(** [nodeMemBytesByName], the reports, and the manifests that were to be written
    back, with the store at that moment. *)
Record RSt := mkRSt {
  pass : Pass RCall (W * Disk); mem_bytes : list (string * option Num); reports : list ReconcileNodeReport;
  saved : list (StoreView * string * FileContent)
}.
Notation M := (eff RSt).

Definition disk (s : RSt) : Disk := (ps_world (pass s)).2.
Definition on_disk (f : Disk → Disk) (s : RSt) : RSt :=
  let p := pass s in
  mkRSt (mkPass ((ps_world p).1, f (ps_world p).2) (timedOut p) (sent p) (unreachable p)) (mem_bytes s) (reports s) (saved s).

(** A call with its deadline. *)
Definition ask (c : RCall) : M (RResp c) := λ s,
  let '(p, r) := deadline timeouts node_procedure raw late c (pass s) in (mkRSt p (mem_bytes s) (reports s) (saved s), r).
Definition call (c : Call) : M (Resp c) := ask (RApply c).

Definition push (r : ReconcileNodeReport) : M unit := modify (λ s, mkRSt (pass s) (mem_bytes s) (reports s ++ [r]) (saved s)).

Definition caught_unreachable (message : string) : M bool := gets (λ s, isNodeUnreachableError message (pass s)).

(** [await p.catch(...)], a try block around a best-effort step. *)
Definition best_effort (m : M unit) : M unit := try_catch m (λ _, mret tt).
Definition or_nothing {A} (m : M A) : M (option A) := try_catch (x ← m; mret (Some x)) (λ _, mret None).

(** ** Sidecars *)

Definition set_launch (name : string) (v : option FileText) (d : Disk) : Disk :=
  mkDisk (dk_store d) (partial_alter (λ _, v) name (dk_launch d)) (dk_attempts d) (dk_conditions d) (dk_history d).
Definition set_attempt (name : string) (v : option FileText) (d : Disk) : Disk :=
  mkDisk (dk_store d) (dk_launch d) (partial_alter (λ _, v) name (dk_attempts d)) (dk_conditions d) (dk_history d).
Definition set_conditions (name : string) (v : option FileText) (d : Disk) : Disk :=
  mkDisk (dk_store d) (dk_launch d) (dk_attempts d) (partial_alter (λ _, v) name (dk_conditions d)) (dk_history d).
Definition set_history (files : HistoryFiles) (d : Disk) : Disk :=
  mkDisk (dk_store d) (dk_launch d) (dk_attempts d) (dk_conditions d) files.
Definition set_manifest (path : string) (content : FileContent) (d : Disk) : Disk :=
  mkDisk (put_file path content (dk_store d)) (dk_launch d) (dk_attempts d) (dk_conditions d) (dk_history d).

Definition readLaunch (name : string) : M (option HostState) :=
  gets (λ s, readModelHostState date_valid (dk_launch (disk s) !! name)).

Definition removeModelHostState (name : string) : M unit :=
  best_effort (ask (RRemove (FLaunch name));; modify (on_disk (set_launch name None))).
Definition removeModelHostStartAttempt (name : string) : M unit :=
  best_effort (ask (RRemove (FAttempt name));; modify (on_disk (set_attempt name None))).

(** ** The options of apply *)

Definition node_budgets (view : StoreView) : list (string * option Num) :=
  foldl (λ m n, jm_set m (nr_name n) (nr_budget n)) [] (listNodeRuns localeCompare view).

Definition queryNodeMemBytes (client : ClientShape) (node : string) : M (option Num) :=
  if cs_nodeFacts client then facts ← or_nothing (call (CNodeFacts node)); mret (mjoin facts) else mret None.

Definition resolveModelRunBudgetGiB (budgets : list (string * option Num)) (node : string) : M Num :=
  match mjoin (jm_get budgets node) with
  | Some explicit => mret explicit
  | None =>
      if bool_decide (node = LOCAL_NODE_ID) then mret (defaultNodeBudgetGiB totalmem None None)
      else
        known ← gets (λ s, jm_get (mem_bytes s) node);
        memBytes ← match known with
                   | Some m => mret m
                   | None =>
                       client ← call (CGetClient node);
                       m ← queryNodeMemBytes client node;
                       modify (λ s, mkRSt (pass s) (jm_set (mem_bytes s) node m) (reports s) (saved s));;
                       mret m
                   end;
        mret (defaultNodeBudgetGiB totalmem None memBytes)
  end.

(** What apply asks for: the store and the launch records are this machine's, the
    budget is given, the rest goes out. *)
Definition handle (budget : string → M (option Num)) (c : Call) : RSt → RSt * result (Resp c) :=
  match c return RSt → RSt * result (Resp c) with
  | CReadStore => λ s, (s, Ok (dk_store (disk s)))
  | CNodeBudget node => budget node
  | CReadState name => readLaunch name
  | CWriteState name state =>
      ask (RWrite (FLaunch name));; modify (on_disk (set_launch name (Some (Some (host_state_json state)))))
  | CRemoveState name => removeModelHostState name
  | c => call c
  end.

Definition run_apply {A} (m : eff (WorkloadApply.St RSt) A) : M A := λ s,
  let '(s', r) := m (WorkloadApply.mkSt s []) in (WorkloadApply.world s', r).

Definition apply_run (budgets : list (string * option Num)) (manifest : ModelRun) : M ApplyResult :=
  run_apply
    (applyOne (handle (λ node, b ← resolveModelRunBudgetGiB budgets node; mret (Some b))) dir localeCompare toFixed1 num_string
       identity totalmem false true manifest).

(** [applyOneModelHost] *)
Definition apply_host (budgets : list (string * option Num)) (manifest : ModelHostManifest) : M ApplyManifestOutcome :=
  run_apply
    (applyModelHostManifest (handle (λ node, mret (mjoin (jm_get budgets node)))) localeCompare toFixed1 num_string totalmem true
       computeModelHostSpecHash None true manifest).

(** ** Saving manifests *)

Definition pure {A} (r : result A) : M A := λ s, (s, r).

(** [existsSync]; the schema's names have no slash and stay within. *)
Definition manifest_exists (name : string) : M bool :=
  gets (λ s, match ensureWorkloadPathWithinDir dir (workloadPath dir name) with
             | Ok path => existsb (λ f, bool_decide (f.1 = path)) (sv_files (dk_store (disk s)))
             | Err _ => false
             end).

Definition save (path : string) (content : FileContent) : M unit :=
  modify (λ s, mkRSt (pass s) (mem_bytes s) (reports s) (saved s ++ [(dk_store (disk s), path, content)]));;
  ask (RWrite (FManifest path));;
  modify (on_disk (set_manifest path content)).

Definition saveWorkload (workload : ModelRun) : M unit :=
  validated ← pure (ModelRunSchema workload);
  path ← pure (ensureWorkloadPathWithinDir dir (workloadPath dir (mr_name validated)));
  save path (FModelRun false validated).

Definition saveModelHost (manifest : ModelHostManifest) : M unit :=
  validated ← pure (ModelHostSchema manifest);
  path ← pure (ensureModelHostPathWithinDir dir (workloadPath dir (mh_name validated)));
  save path (FModelHost false validated).

(** ** One ModelRun *)

Definition with_run_status (status : ModelRunStatus) (m : ModelRun) : ModelRun :=
  mkModelRun (mr_name m) (mr_annotations m) (mr_spec m) (Some status).

Definition run_report (manifest : ModelRun) (action : ReportAction) (error : option string) (unreachable : bool) : ReconcileNodeReport :=
  mkReport false (mr_name manifest) (run_node manifest) action error None false unreachable.

Definition replace_last (r : ReconcileNodeReport) : M unit :=
  modify (λ s, mkRSt (pass s) (mem_bytes s) (removelast (reports s) ++ [r]) (saved s)).

(** The status over the manifest as it is on disk; nothing when it cannot be
    read. *)
Definition mergeRunStatus (name : string) (status : ModelRunStatus) : M unit :=
  current ← gets (λ s, loadWorkloadByName env dir name (dk_store (disk s)));
  match current with
  | Err _ => mret tt
  | Ok m => saveWorkload (with_run_status status m)
  end.

(** What follows [applyOne]. *)
Definition persistRunResult (manifest : ModelRun) (result : ApplyResult) (errors : Z) : M Z :=
  let error := if truthy (ar_error result) then ar_error result else None in
  push (run_report manifest (report_action (ar_action result)) error false);;
  still ← manifest_exists (mr_name manifest);
  if negb still then replace_last (run_report manifest RASkippedDeleted None false);; mret errors
  else mergeRunStatus (mr_name manifest) (ar_status result);; mret errors.

(** The catch block, with the errors counted before. *)
Definition caughtRunError (manifest : ModelRun) (errors : Z) (message : string) : M Z :=
  unreachable ← caught_unreachable message;
  push (run_report manifest RAUnchanged (Some message) unreachable);;
  mret (errors + 1).

Definition reconcileModelRun (budgets : list (string * option Num)) (manifest : ModelRun) : M Z :=
  there ← manifest_exists (mr_name manifest);
  if negb there then push (run_report manifest RASkippedDeleted None false);; mret 0
  else
    applied ← try_catch (r ← apply_run budgets manifest; mret (inl r))
                (λ message, n ← caughtRunError manifest 0 message; mret (inr n));
    match applied with
    | inr errors => mret errors
    | inl result =>
        let errors := if truthy (ar_error result) then 1 else 0 in
        try_catch (persistRunResult manifest result errors) (caughtRunError manifest errors)
    end.

(** ** What is kept of a ModelHost's outcome *)

(** A record of conditions.ts: what it makes of the file, and whether it
    writes. *)
Definition update_conditions (name : string) (writes : option FileText → bool) (record : string → option FileText → option FileText) :
    M unit :=
  now ← call CNow;
  file ← gets (λ s, dk_conditions (disk s) !! name);
  if writes file then ask (RWrite (FConditions name));; modify (on_disk (set_conditions name (record now file)))
  else mret tt.

Definition active_error (file : option FileText) : bool :=
  match r ← readModelHostRuntimeStatus file; ongoing (findCondition r RECONCILE_ERROR_CONDITION) with Some _ => true | None => false end.

Definition record_local (name : string) (outcome : HostOutcome) : M unit :=
  match outcome with
  | HoError reason message => update_conditions name (λ _, true) (recordModelHostReconcileError reason message)
  | HoOk recovered restart _ =>
      match restart with
      | Some why => update_conditions name (λ _, true) (recordModelHostRestart why)
      | None => mret tt
      end;;
      update_conditions name active_error (recordModelHostReconcileRecovered recovered)
  end.

Definition record_remote (node name : string) (outcome : HostOutcome) (iso : string) : M unit :=
  now ← call CNow;
  files ← gets (λ s, dk_history (disk s));
  match history_update outcome iso (default (new_history node name now) (readControllerHostHistory dir node name files)) with
  | None => mret tt
  | Some _ =>
      path ← pure (controllerHostHistoryPath dir node name);
      next ← pure (updateControllerHostHistory dir node name now (history_update outcome iso) files);
      ask (RWrite (FHistory path));;
      modify (on_disk (λ d, set_history (partial_alter (λ _, next !! path) path (dk_history d)) d))
  end.

Definition recordHostOutcome (spec : ModelHostSpec) (name : string) (outcome : HostOutcome) : M unit :=
  iso ← call CNow;
  best_effort (if is_local spec then record_local name outcome else record_remote (hs_node spec) name outcome iso).

(** ** One ModelHost *)

Definition host_report (spec : ModelHostSpec) (name : string) (action : ReportAction) (error : option string)
    (foundDead unreachable : bool) : ReconcileNodeReport :=
  mkReport true name (hs_node spec) action error None foundDead unreachable.

(** [error]: reason and message. *)
Definition pushHostReport (spec : ModelHostSpec) (name : string) (action : ReportAction) (error : option (string * string))
    (foundDead unreachable : bool) : M Z :=
  push (host_report spec name action (snd <$> error) foundDead unreachable);;
  match error with
  | None => mret 0
  | Some (reason, message) => recordHostOutcome spec name (HoError reason message);; mret 1
  end.

Definition sweepDisabledHost (spec : ModelHostSpec) (name : string) : M Z :=
  (if is_local spec then removeModelHostState name;; removeModelHostStartAttempt name else mret tt);;
  recordHostOutcome spec name (HoOk "Disabled" None (Some false));;
  pushHostReport spec name RAUnchanged None false false.

Definition settleHostWithoutApply (decision : HostReconcileDecision) (spec : ModelHostSpec) (name : string) : M Z :=
  match decision with
  | SweepDisabled => sweepDisabledHost spec name
  | Converged =>
      recordHostOutcome spec name (HoOk "Recovered" None (Some true));;
      pushHostReport spec name RAUnchanged None false false
  | _ => pushHostReport spec name RAUnchanged None false false
  end.

Definition saveAppliedHost (manifest : ModelHostManifest) (name : string) : M unit :=
  current ← gets (λ s, loadModelHostByName dir name (dk_store (disk s)));
  match current with
  | Ok m => if externalManagerOf m then mret tt else saveModelHost manifest
  | Err _ => mret tt
  end.

Definition readLocalStartAttempt (spec : ModelHostSpec) (name : string) : M (option string) :=
  gets (λ s, if is_local spec then readModelHostStartAttempt (dk_attempts (disk s) !! name) else None).

Definition writeModelHostStartAttempt (name specHash : string) : M unit :=
  now ← call CNow;
  ask (RWrite (FAttempt name));;
  modify (on_disk (set_attempt name (Some (Some (start_attempt_json specHash now))))).

Definition markNeverHostStartAttempt (spec : ModelHostSpec) (name : string) (localState : option HostState) : M unit :=
  if negb (bool_decide (hs_restartPolicy spec = Never)) || negb (is_local spec) || bool_decide (is_Some localState) then mret tt
  else best_effort (writeModelHostStartAttempt name (computeModelHostSpecHash spec)).

Definition lastKnownRunning (spec : ModelHostSpec) (name : string) : M bool :=
  gets (λ s, match readControllerHostHistory dir (hs_node spec) name (dk_history (disk s)) with
             | Some h => hh_lastKnownRunning h
             | None => false
             end).

(** What follows [applyOneModelHost]. *)
Definition settleAppliedHost (manifest : ModelHostManifest) (wasRunning foundDead : bool) (result : ApplyManifestOutcome) : M Z :=
  let spec := mh_spec manifest in
  let name := mh_name manifest in
  match result with
  | OkModelHost applied _ _ =>
      removeModelHostStartAttempt name;;
      pushHostReport spec name (if wasRunning then RARestarted else RAStarted) None foundDead false;;
      saveAppliedHost applied name;;
      recordHostOutcome spec name (HoOk "Recovered" (restartReason wasRunning foundDead) (Some (hs_enabled spec)));;
      mret 0
  | OkModelRun _ _ =>
      pushHostReport spec name RAUnchanged (Some ("ApplyFailed", "unexpected non-ModelHost outcome")) foundDead false
  | NotOk error => pushHostReport spec name RAUnchanged (Some ("ApplyFailed", error)) foundDead false
  end.

Definition applyHostPass (budgets : list (string * option Num)) (manifest : ModelHostManifest) (localState : option HostState)
    (wasRunning : bool) : M Z :=
  let spec := mh_spec manifest in
  let name := mh_name manifest in
  known ← (if is_local spec then mret (bool_decide (is_Some localState)) else lastKnownRunning spec name);
  let foundDead := negb wasRunning && known in
  markNeverHostStartAttempt spec name localState;;
  result ← apply_host budgets manifest;
  settleAppliedHost manifest wasRunning foundDead result.

Definition reconcileUnmanagedBody (budgets : list (string * option Num)) (manifest : ModelHostManifest) : M Z :=
  let spec := mh_spec manifest in
  let name := mh_name manifest in
  call (CGetClient (hs_node spec));;
  current ← call (CModelHostStatus (hs_node spec) name);
  if ht_identityUnknown current then
    pushHostReport spec name RAUnchanged
      (Some ("PidIdentityUnknown", "pid identity unknown; preserving state for a later pass")) false false
  else
    localState ← (if is_local spec then readLaunch name else mret None);
    startAttemptHash ← readLocalStartAttempt spec name;
    match classifyHostReconcile computeModelHostSpecHash spec localState current startAttemptHash with
    | Apply => applyHostPass budgets manifest localState (is_running current)
    | decision => settleHostWithoutApply decision spec name
    end.

Definition caughtHostError (manifest : ModelHostManifest) (message : string) : M Z :=
  unreachable ← caught_unreachable message;
  pushHostReport (mh_spec manifest) (mh_name manifest) RAUnchanged
    (Some (if unreachable : bool then "NodeUnreachable" else "ReconcileFailed", message)) false unreachable.

Definition reconcileUnmanagedModelHost (budgets : list (string * option Num)) (manifest : ModelHostManifest) : M Z :=
  try_catch (reconcileUnmanagedBody budgets manifest) (caughtHostError manifest).

Definition reconcileModelHost (budgets : list (string * option Num)) (manifest : ModelHostManifest) : M Z :=
  read ← gets (λ s, loadModelHostByName dir (mh_name manifest) (dk_store (disk s)));
  let current := match read with Ok m => m | Err _ => manifest end in
  match externalManagerOf current with
  | Some managedBy =>
      push (mkReport true (mh_name current) (hs_node (mh_spec current)) RASkippedExternal None (Some managedBy) false false);;
      mret 0
  | None => reconcileUnmanagedModelHost budgets current
  end.

(** ** One pass *)

Fixpoint count_errors {A} (reconcile : A → M Z) (l : list A) (errors : Z) : M Z :=
  match l with
  | [] => mret errors
  | m :: l' => n ← reconcile m; count_errors reconcile l' (errors + n)
  end.

Definition reconcile_all : M Z :=
  view ← gets (λ s, dk_store (disk s));
  let budgets := node_budgets view in
  let all := listWorkloads localeCompare view in
  let manifests := match filter_opt with Some p => List.filter p all | None => all end in
  errors ← count_errors (reconcileModelRun budgets) manifests 0;
  count_errors (reconcileModelHost budgets) (listModelHosts localeCompare view) errors.

(** A pass starts with no node timed out. *)
Definition start_pass (w : W * Disk) : RSt := mkRSt (mkPass w [] [] []) [] [] [].
Definition reconcileOnce (w : W * Disk) : RSt * result Z := reconcile_all (start_pass w).
End reconcile.
