(* ===== verification/ReconcilerProps.v ===== *)
(** * The reconciler: what a pass does

    A node that once timed out in a pass is left alone for the rest of it;
    statuses are merged into the manifests as they are on disk; a ModelHost is
    started or stopped only when its state asks for it, and a first start that
    failed is not repeated.  Node calls, writes and the clock are arbitrary. *)

From S2P Require Import Prelude JsMap JsText JsJson HostSidecars WorkloadTypes Admission WorkloadStore WorkloadApply WorkloadApplyProps WorkloadFrame HostConditions NodeDeadline Reconciler.
From Stdlib Require Import QArith.

#[local] Open Scope string_scope.
#[local] Open Scope list_scope.
#[local] Open Scope Z_scope.

Section reconcile.
Context {W : Type} (raw : ∀ c : RCall, W * Disk → W * Disk * result (RResp c)) (late : RCall → W * Disk → bool).
Context (timeouts : NodeRpcTimeouts) (date_valid : string → bool) (localeCompare : string → string → Z).
Context (toFixed1 num_string : Num → string) (totalmem : Q) (computeModelHostSpecHash : ModelHostSpec → string).
Context (dir : list string) (env : string → option string) (identity : option (string → option string)).
Context (filter_opt : option (ModelRun → bool)).
Context (ModelRunSchema : ModelRun → result ModelRun) (ModelHostSchema : ModelHostManifest → result ModelHostManifest).

Local Abbreviation M := (eff (@RSt W)).
Local Abbreviation ask := (ask raw late timeouts).
Local Abbreviation call := (call raw late timeouts).
Local Abbreviation apply_run := (apply_run raw late timeouts date_valid localeCompare toFixed1 num_string totalmem dir identity).
Local Abbreviation apply_host := (apply_host raw late timeouts date_valid localeCompare toFixed1 num_string totalmem computeModelHostSpecHash).
Local Abbreviation record_outcome := (recordHostOutcome raw late timeouts dir).
Local Abbreviation reconcile_run :=
  (reconcileModelRun raw late timeouts date_valid localeCompare toFixed1 num_string totalmem dir env identity ModelRunSchema).
Local Abbreviation unmanaged :=
  (reconcileUnmanagedModelHost raw late timeouts date_valid localeCompare toFixed1 num_string totalmem computeModelHostSpecHash dir
     ModelHostSchema).
Local Abbreviation reconcile_host :=
  (reconcileModelHost raw late timeouts date_valid localeCompare toFixed1 num_string totalmem computeModelHostSpecHash dir
     ModelHostSchema).

(** ** Relations that the steps of a pass respect *)

Section steps.
Context (R : @RSt W → RSt → Prop) `{!PreOrder R} (allowed : RCall → Prop).

Record Respected := {
  re_ask : ∀ c s, allowed c → R s (ask c s).1;
  re_rest : ∀ s mem rows, R s (mkRSt (pass s) mem (reports s ++ rows) (saved s));
  re_disk : ∀ s f, (∀ d, dk_launch (f d) = dk_launch d ∧ dk_attempts (f d) = dk_attempts d) → R s (on_disk f s)
}.
Context (HR : Respected).

Local Abbreviation steps := (moves (λ s : @RSt W, s) R).

Lemma steps_ask c : allowed c → steps (ask c).
Proof. intros Hc s. by apply (re_ask HR). Qed.
Lemma steps_call c : allowed (RApply c) → steps (call c).
Proof. apply steps_ask. Qed.
Lemma steps_push r : steps (push r).
Proof. refine (moves_modify _ _ _ _). intros s. apply (re_rest HR). Qed.
Lemma steps_pure {A} (r : result A) : steps (pure r).
Proof. by refine (moves_still _ _ _ _). Qed.
Lemma steps_disk f : (∀ d, dk_launch (f d) = dk_launch d ∧ dk_attempts (f d) = dk_attempts d) → steps (modify (on_disk f)).
Proof. intros Hf. refine (moves_modify _ _ _ _). intros s. by apply (re_disk HR). Qed.

Ltac steps_step :=
  first
    [ moves_step
    | match goal with
      | |- moves _ _ (push _) => apply steps_push
      | |- moves _ _ (pure _) => apply steps_pure
      | |- moves _ _ (best_effort _) => unfold best_effort
      | |- moves _ _ (or_nothing _) => unfold or_nothing
      | |- moves _ _ (caught_unreachable _) => unfold caught_unreachable
      | |- moves _ _ (modify (on_disk _)) => apply steps_disk; [by intros []]
      | |- moves _ _ ?m =>
          lazymatch m with
          | Reconciler.ask _ _ _ ?c => refine (steps_ask c _)
          | Reconciler.call _ _ _ ?c => refine (steps_call c _)
          end
      end ].
Ltac steps_auto := repeat steps_step; try done; auto.

(** Records of outcomes and manifests: the clock and files. *)
Definition bookkeeping (c : RCall) : Prop := match c with RApply CNow | RWrite _ | RRemove _ => True | _ => False end.

Section book.
Context (Hbook : ∀ c, bookkeeping c → allowed c).

Ltac book_auto := steps_auto; apply Hbook; done.

Lemma steps_record spec name outcome : steps (record_outcome spec name outcome).
Proof. unfold recordHostOutcome, record_local, record_remote, update_conditions. book_auto. Qed.

Lemma steps_report spec name action error dead far :
  steps (pushHostReport raw late timeouts dir spec name action error dead far).
Proof. unfold pushHostReport. pose proof steps_record. book_auto. Qed.

Section save.
Context (Hsave : ∀ s e, R s (mkRSt (pass s) (mem_bytes s) (reports s) (saved s ++ [e]))).

Lemma steps_save path content : steps (save raw late timeouts path content).
Proof. unfold save. steps_auto; [|apply Hbook; done]. refine (moves_modify _ _ _ _). intros s. apply Hsave. Qed.

Lemma steps_saveHost manifest name : steps (saveAppliedHost raw late timeouts dir ModelHostSchema manifest name).
Proof. unfold saveAppliedHost, saveModelHost. pose proof steps_save. book_auto. Qed.

Lemma steps_mergeStatus name status : steps (mergeRunStatus raw late timeouts dir env ModelRunSchema name status).
Proof. unfold mergeRunStatus, saveWorkload. pose proof steps_save. book_auto. Qed.
End save.

Lemma steps_settle decision spec name :
  decision ≠ SweepDisabled → steps (settleHostWithoutApply raw late timeouts dir decision spec name).
Proof. intros Hd. unfold settleHostWithoutApply. pose proof (steps_report). pose proof steps_record. by destruct decision; steps_auto. Qed.

Section files.
(** Launch records and start attempts may change, too. *)
Context (Hdisk : ∀ s f, R s (on_disk f s)).

Lemma steps_any_disk f : steps (modify (on_disk f)).
Proof. refine (moves_modify _ _ _ _). intros s. apply Hdisk. Qed.

Lemma steps_removeState name : steps (removeModelHostState raw late timeouts name).
Proof. unfold removeModelHostState. pose proof steps_any_disk. unfold best_effort. repeat (first [moves_step|done|apply steps_any_disk]). refine (steps_ask _ _). by apply Hbook. Qed.

Lemma steps_removeAttempt name : steps (removeModelHostStartAttempt raw late timeouts name).
Proof. unfold removeModelHostStartAttempt. unfold best_effort. repeat (first [moves_step|done|apply steps_any_disk]). refine (steps_ask _ _). by apply Hbook. Qed.

Lemma steps_mark spec name local : steps (markNeverHostStartAttempt raw late timeouts computeModelHostSpecHash spec name local).
Proof.
  unfold markNeverHostStartAttempt, writeModelHostStartAttempt. unfold best_effort. repeat (first [moves_step|done|apply steps_any_disk]); first [refine (steps_call _ _)|refine (steps_ask _ _)]; by apply Hbook.
Qed.

(** What apply asks for. *)
Lemma steps_handle budget c :
  (∀ node, steps (budget node)) → allowed (RApply c) → steps (handle raw late timeouts date_valid budget c).
Proof.
  intros Hb Hc. unfold handle. pose proof steps_removeState. destruct c; try apply steps_call, Hc; try done; try apply Hb.
  - by refine (moves_still _ _ _ _).
  - by refine (moves_gets _ _ _).
  - refine (moves_bind _ _ _ _ _ _); [refine (steps_ask _ _); by apply Hbook|intros _; apply steps_any_disk].
Qed.

Lemma steps_run_apply {A} (m : eff (WorkloadApply.St RSt) A) : moves (@WorkloadApply.world RSt) R m → steps (run_apply m).
Proof. intros H s. unfold run_apply. specialize (H (WorkloadApply.mkSt s [])). cbn in *. by destruct (m (WorkloadApply.mkSt s [])). Qed.

Section host.
Context (manifest : ModelHostManifest) (Hhost : ∀ c, host_call manifest c → allowed (RApply c)).
Context (Hsave : ∀ m name, steps (saveAppliedHost raw late timeouts dir ModelHostSchema m name)).

Lemma steps_apply_host budgets : steps (apply_host budgets manifest).
Proof.
  apply steps_run_apply. intros s.
  set (h := handle raw late timeouts date_valid (λ node, mret (mjoin (jm_get budgets node)))).
  assert (∀ c w, allowed (RApply c) → R w (h c w).1) as Hh.
  { intros c w Hc. refine (steps_handle _ c _ Hc w). intros node. by refine (moves_ret _ _ _). }
  assert (∀ st w, R w (h (CWriteState (mh_name manifest) st) w).1) as Hw.
  { refine (λ st w, moves_bind _ _ _ _ _ _ w); [refine (steps_ask _ _); by apply Hbook|intros ?; apply steps_any_disk]. }
  destruct (applyModelHostManifest h _ _ _ _ _ _ _ _ manifest s) as [s' r] eqn:E.
  destruct (apply_host_ends h localeCompare toFixed1 num_string totalmem true computeModelHostSpecHash None true R
              (λ c, allowed (RApply c)) Hh manifest Hhost ltac:(intros st w w' msg E'; specialize (Hw st w); by rewrite E' in Hw) _ _ _ E)
    as [H|(pid&state&s1&_&_&H&E')]; [done|].
  cbn. transitivity (WorkloadApply.world s1); [done|]. specialize (Hw state (WorkloadApply.world s1)). by rewrite E' in Hw.
Qed.

Lemma steps_settled wasRunning dead result :
  steps (settleAppliedHost raw late timeouts dir ModelHostSchema manifest wasRunning dead result).
Proof.
  unfold settleAppliedHost. pose proof steps_report. pose proof steps_record. pose proof steps_removeAttempt. steps_auto.
Qed.

Lemma steps_pass budgets local running :
  steps (applyHostPass raw late timeouts date_valid localeCompare toFixed1 num_string totalmem computeModelHostSpecHash dir ModelHostSchema
           budgets manifest local running).
Proof.
  unfold applyHostPass, lastKnownRunning. pose proof steps_mark. pose proof steps_apply_host. pose proof steps_settled. steps_auto.
Qed.

Lemma steps_unmanaged budgets :
  allowed (RApply (CGetClient (hs_node (mh_spec manifest)))) →
  allowed (RApply (CModelHostStatus (hs_node (mh_spec manifest)) (mh_name manifest))) → steps (unmanaged budgets manifest).
Proof.
  intros Hc Hs. unfold reconcileUnmanagedModelHost, reconcileUnmanagedBody, readLaunch, readLocalStartAttempt, caughtHostError,
    settleHostWithoutApply, sweepDisabledHost.
  pose proof steps_report. pose proof steps_record. pose proof steps_pass. pose proof steps_removeState.
  pose proof steps_removeAttempt. steps_auto.
Qed.
End host.
End files.
End book.
End steps.

(** ** Relations that a whole pass respects *)

Section pass.
Context (R : @RSt W → RSt → Prop) `{!PreOrder R} (HR : Respected R (λ _, True)) (Hdisk : ∀ s f, R s (on_disk f s)).
Context (Hreports : ∀ s mem rows, R s (mkRSt (pass s) mem rows (saved s))).
Context (Hhost : ∀ m name, moves (λ s, s) R (saveAppliedHost raw late timeouts dir ModelHostSchema m name)).
Context (Hrun : ∀ name status, moves (λ s, s) R (mergeRunStatus raw late timeouts dir env ModelRunSchema name status)).

Local Abbreviation steps := (moves (λ s : @RSt W, s) R).

Lemma steps_modify f : (∀ s, ∃ mem rows, f s = mkRSt (pass s) mem rows (saved s)) → steps (modify f).
Proof. intros Hf. refine (moves_modify _ _ _ _). intros s. destruct (Hf s) as (mem&rows&->). apply Hreports. Qed.

Ltac pass_auto := repeat first [moves_step | refine (steps_push _ _ HR _) | refine (steps_call _ _ HR _ _); exact I | done]; auto.

Lemma steps_budget budgets node : steps (resolveModelRunBudgetGiB raw late timeouts totalmem budgets node).
Proof.
  unfold resolveModelRunBudgetGiB, queryNodeMemBytes, or_nothing. pass_auto. apply steps_modify. by eauto.
Qed.

Lemma steps_apply_run budgets manifest : steps (apply_run budgets manifest).
Proof.
  refine (steps_run_apply _ _ _). eapply (frame_applyOne _ _ _ _ _ _ _ _ _ R (λ _, True)); [|done].
  intros c w _. refine (steps_handle _ _ HR _ Hdisk _ c _ I w); [done|]. intros node. pose proof steps_budget. pass_auto.
Qed.

Lemma steps_reconcile_run budgets manifest : steps (reconcile_run budgets manifest).
Proof.
  unfold reconcileModelRun, persistRunResult, caughtRunError, manifest_exists, caught_unreachable, replace_last.
  pose proof steps_apply_run. pass_auto; apply steps_modify; by eauto.
Qed.

Lemma steps_reconcile_host budgets manifest : steps (reconcile_host budgets manifest).
Proof.
  unfold reconcileModelHost. pass_auto. by refine (steps_unmanaged _ _ HR _ Hdisk _ _ Hhost _ _ _).
Qed.

Lemma steps_count {A} (reconcile : A → M Z) l n : (∀ x, steps (reconcile x)) → steps (count_errors reconcile l n).
Proof. intros H. revert n. induction l; intros n; cbn [count_errors]; pass_auto. Qed.

Lemma steps_all :
  steps (reconcile_all raw late timeouts date_valid localeCompare toFixed1 num_string totalmem computeModelHostSpecHash dir env identity
           filter_opt ModelRunSchema ModelHostSchema).
Proof.
  unfold reconcile_all. pose proof steps_reconcile_run. pose proof steps_reconcile_host.
  repeat first [moves_step|done|apply steps_count; intros ?; auto].
Qed.
End pass.

Local Abbreviation once :=
  (reconcileOnce raw late timeouts date_valid localeCompare toFixed1 num_string totalmem computeModelHostSpecHash dir env identity
     filter_opt ModelRunSchema ModelHostSchema).

(** ** Deadlines *)

Local Abbreviation bounded := (bounded_node timeouts node_procedure).

Definition pass_grows (s s' : @RSt W) : Prop := grows timeouts node_procedure (pass s) (pass s').

#[local] Instance pass_grows_preorder : PreOrder pass_grows.
Proof. split; [intros s; apply grows_preorder|intros s1 s2 s3; apply grows_preorder]. Qed.

(** Only what was sent and timed out counts. *)
Lemma pass_grows_same s s' :
  timedOut (pass s') = timedOut (pass s) → sent (pass s') = sent (pass s) → pass_grows s s'.
Proof.
  intros Et Es. unfold pass_grows, grows, orderly. rewrite Et, Es. split_and!; [done| |done]. exists [].
  rewrite app_nil_r. split; [done|]. intros ? ? H. by apply elem_of_nil in H.
Qed.

Lemma pass_grows_respected : Respected pass_grows (λ _, True).
Proof.
  split; intros; try by apply pass_grows_same. unfold pass_grows, Reconciler.ask.
  pose proof (deadline_grows timeouts node_procedure raw late c (pass s)) as Hg.
  by destruct (deadline timeouts node_procedure raw late c (pass s)).
Qed.

Lemma pass_grows_save m name : moves (λ s, s) pass_grows (saveAppliedHost raw late timeouts dir ModelHostSchema m name).
Proof. refine (steps_saveHost _ _ pass_grows_respected _ _ _ _); [done|]. intros. by apply pass_grows_same. Qed.
Lemma pass_grows_merge name st : moves (λ s, s) pass_grows (mergeRunStatus raw late timeouts dir env ModelRunSchema name st).
Proof. refine (steps_mergeStatus _ _ pass_grows_respected _ _ _ _); [done|]. intros. by apply pass_grows_same. Qed.

(** After a call to a node ran into its deadline, the pass makes no
    other call with a deadline to that node: one node that does not answer
    cannot stall the pass again and again. *)
Theorem silent_after_timeout w s r pre c post :
  once w = (s, r) → sent (pass s) = pre ++ (c, TimedOut) :: post →
  ∃ n, bounded c = Some n ∧ Forall (λ o, bounded o.1 ≠ Some n) post.
Proof.
  intros E Hs.
  assert (pass_grows (start_pass w) s) as (_&_&Ho).
  { refine (moves_run _ _ _ _ _ _ (steps_all pass_grows pass_grows_respected _ _ pass_grows_save pass_grows_merge) E);
      intros; by apply pass_grows_same. }
  destruct (Ho ltac:(by intros [] ? ? ?) _ _ _ Hs) as (n&Hn&_&Hf). by exists n.
Qed.

(** ** Manifests written back *)

(** A saved ModelRun is the one on disk with another status; a saved ModelHost
    goes over one that no other controller owns. *)
Definition save_ok (e : StoreView * string * FileContent) : Prop :=
  match e.2 with
  | FModelRun legacy v =>
      legacy = false ∧ ∃ name m st, loadWorkloadByName env dir name e.1.1 = Ok m ∧ ModelRunSchema (with_run_status st m) = Ok v
  | FModelHost legacy v =>
      legacy = false ∧ ∃ name m h, loadModelHostByName dir name e.1.1 = Ok m ∧ externalManagerOf m = None ∧ ModelHostSchema h = Ok v
  | _ => False
  end.

Definition saves_ok (s s' : @RSt W) : Prop := ∃ new, saved s' = saved s ++ new ∧ Forall save_ok new.

#[local] Instance saves_ok_preorder : PreOrder saves_ok.
Proof.
  split; [intros s; exists []; by rewrite app_nil_r|]. intros s1 s2 s3 (n1&E1&H1) (n2&E2&H2). exists (n1 ++ n2).
  split; [by rewrite E2, E1, app_assoc|by apply Forall_app].
Qed.

Lemma saves_ok_same s s' : saved s' = saved s → saves_ok s s'.
Proof. intros E. exists []. by rewrite app_nil_r. Qed.

Lemma saved_ask c s : saved (ask c s).1 = saved s.
Proof. unfold Reconciler.ask. by destruct (deadline timeouts node_procedure raw late c (pass s)). Qed.

Lemma saves_ok_respected : Respected saves_ok (λ _, True).
Proof. split; intros; apply saves_ok_same; [apply saved_ask|done..]. Qed.

Lemma save_saves path content s :
  save_ok (dk_store (disk s), path, content) → saves_ok s (save raw late timeouts path content s).1.
Proof.
  intros Hok. unfold save. rewrite eff_bind_eq. cbn beta iota delta [modify].
  transitivity (mkRSt (pass s) (mem_bytes s) (reports s) (saved s ++ [(dk_store (disk s), path, content)])).
  - exists [(dk_store (disk s), path, content)]. split; [done|]. by constructor.
  - rewrite eff_bind_eq. match goal with |- context [Reconciler.ask _ _ _ ?c ?s0] => pose proof (saved_ask c s0) as Ha;
      destruct (Reconciler.ask raw late timeouts c s0) as [s2 [[]|e]] end; cbn in *; by apply saves_ok_same.
Qed.

Lemma saves_merge name st : moves (λ s, s) saves_ok (mergeRunStatus raw late timeouts dir env ModelRunSchema name st).
Proof.
  intros s. unfold mergeRunStatus. rewrite eff_bind_eq. cbn beta iota delta [gets].
  destruct (loadWorkloadByName env dir name (dk_store (disk s))) as [m|e] eqn:E; [|reflexivity].
  unfold saveWorkload. rewrite eff_bind_eq. unfold pure at 1.
  destruct (ModelRunSchema (with_run_status st m)) as [v|e] eqn:Ev; [|reflexivity]. rewrite eff_bind_eq. unfold pure at 1.
  destruct (ensureWorkloadPathWithinDir dir _) as [path|e]; [|reflexivity]. apply save_saves. split; [done|]. by exists name, m, st.
Qed.

Lemma saves_host h name : moves (λ s, s) saves_ok (saveAppliedHost raw late timeouts dir ModelHostSchema h name).
Proof.
  intros s. unfold saveAppliedHost. rewrite eff_bind_eq. cbn beta iota delta [gets].
  destruct (loadModelHostByName dir name (dk_store (disk s))) as [m|e] eqn:E; [|reflexivity].
  destruct (externalManagerOf m) eqn:Em; [reflexivity|]. unfold saveModelHost. rewrite eff_bind_eq. unfold pure at 1.
  destruct (ModelHostSchema h) as [v|e] eqn:Ev; [|reflexivity]. rewrite eff_bind_eq. unfold pure at 1.
  destruct (ensureModelHostPathWithinDir dir _) as [path|e]; [|reflexivity]. apply save_saves. split; [done|]. by exists name, m, h.
Qed.

(** What a pass writes back of a ModelRun is the manifest that is on
    disk at that moment, not the one the pass started with, with its status
    replaced; and no manifest of a ModelHost is written over one that is gone or
    that another controller owns. *)
Theorem saves_respect_disk w : Forall save_ok (saved (once w).1).
Proof.
  assert (saves_ok (start_pass w) (once w).1) as (new&->&H); [|done].
  refine (steps_all saves_ok saves_ok_respected _ _ saves_host saves_merge _); intros; by apply saves_ok_same.
Qed.

(** ** What is done to a ModelHost *)

Definition logged (P : RCall → Prop) (s s' : @RSt W) : Prop :=
  ∃ seg, sent (pass s') = sent (pass s) ++ seg ∧ Forall (λ o, P o.1) seg.

#[local] Instance logged_preorder P : PreOrder (logged P).
Proof.
  split; [intros s; exists []; by rewrite app_nil_r|]. intros s1 s2 s3 (n1&E1&H1) (n2&E2&H2). exists (n1 ++ n2).
  split; [by rewrite E2, E1, app_assoc|by apply Forall_app].
Qed.

Lemma logged_same P s s' : sent (pass s') = sent (pass s) → logged P s s'.
Proof. intros E. exists []. by rewrite app_nil_r. Qed.

Lemma logged_ask (P : RCall → Prop) c s : P c → logged P s (ask c s).1.
Proof.
  intros Hc. unfold Reconciler.ask, deadline. repeat (break_match_goal; cbn); simplify_eq/=; first [by apply logged_same|eexists [_]; split; [reflexivity|by constructor]].
Qed.

Lemma logged_respected P : Respected (logged P) P.
Proof. split; intros; [by apply logged_ask|by apply logged_same..]. Qed.

(** A call that starts and stops nothing; launch records are files. *)
Definition harmless (c : RCall) : Prop :=
  match c with RApply (CWriteState _ _ | CRemoveState _) => True | RApply c => drastic c = false | _ => True end.

#[export] Instance harmless_dec c : Decision (harmless c).
Proof. destruct c as [c| |]; [destruct c|..]; apply _. Defined.

(** A call that starts or stops the host, as its manifest says. *)
Definition acts_on (manifest : ModelHostManifest) (c : RCall) : Prop :=
  let spec := mh_spec manifest in
  if hs_enabled spec then c = RApply (CModelHostStart (hs_node spec) manifest)
  else c = RApply (CModelHostStop (hs_node spec) (mh_name manifest)).

Definition probe (manifest : ModelHostManifest) : M HostStatus :=
  call (CGetClient (hs_node (mh_spec manifest)));; call (CModelHostStatus (hs_node (mh_spec manifest)) (mh_name manifest)).

(** What the reconciler knows of a host once it was asked for its status. *)
Definition decision_at (spec : ModelHostSpec) (name : string) (st : HostStatus) (s : @RSt W) : HostReconcileDecision :=
  classifyHostReconcile computeModelHostSpecHash spec
    (if is_local spec then readModelHostState date_valid (dk_launch (disk s) !! name) else None) st
    (if is_local spec then readModelHostStartAttempt (dk_attempts (disk s) !! name) else None).

Local Abbreviation host_pass :=
  (applyHostPass raw late timeouts date_valid localeCompare toFixed1 num_string totalmem computeModelHostSpecHash dir ModelHostSchema).
Local Abbreviation local_record spec name s :=
  (if is_local spec then readModelHostState date_valid (dk_launch (disk s) !! name) else None).

(** What follows the status. *)
Definition decided (budgets : list (string * option Num)) (manifest : ModelHostManifest) (st : HostStatus) : M Z := λ s,
  if ht_identityUnknown st then
    pushHostReport raw late timeouts dir (mh_spec manifest) (mh_name manifest) RAUnchanged
      (Some ("PidIdentityUnknown", "pid identity unknown; preserving state for a later pass")) false false s
  else
    match decision_at (mh_spec manifest) (mh_name manifest) st s with
    | Apply => host_pass budgets manifest (local_record (mh_spec manifest) (mh_name manifest) s) (is_running st) s
    | decision => settleHostWithoutApply raw late timeouts dir decision (mh_spec manifest) (mh_name manifest) s
    end.

Lemma unmanaged_run budgets manifest s :
  unmanaged budgets manifest s =
    try_catch (probe manifest ≫= decided budgets manifest) (caughtHostError raw late timeouts dir manifest) s.
Proof.
  unfold reconcileUnmanagedModelHost, try_catch. f_equal. unfold reconcileUnmanagedBody, probe.
  rewrite !eff_bind_eq. destruct (call (CGetClient _) s) as [s0 [shape|e]]; [|done]. rewrite eff_bind_eq.
  destruct (call _ s0) as [s1 [st|e]]; [|done]. unfold decided. destruct (ht_identityUnknown st); [done|].
  unfold decision_at, readLaunch, readLocalStartAttempt. rewrite !eff_bind_eq. cbn beta iota delta [gets].
  destruct (is_local (mh_spec manifest)); cbn beta iota delta [mret eff_ret gets]; rewrite eff_bind_eq; cbn beta iota delta [gets];
    by destruct (classifyHostReconcile _ _ _ _ _).
Qed.

Local Abbreviation quiet_logged := (logged harmless).

Lemma harmless_book c : bookkeeping c → harmless c.
Proof. destruct c as [c| |]; try done. by destruct c. Qed.

Lemma quiet_report spec name action error dead far s :
  quiet_logged s (pushHostReport raw late timeouts dir spec name action error dead far s).1.
Proof. refine (steps_report _ _ (logged_respected _) harmless_book _ _ _ _ _ _ s). Qed.

Lemma quiet_caught manifest message s : quiet_logged s (caughtHostError raw late timeouts dir manifest message s).1.
Proof. apply quiet_report. Qed.

Lemma quiet_disk P s f : logged P s (on_disk f s).
Proof. by apply logged_same. Qed.

Lemma quiet_settle decision spec name s : quiet_logged s (settleHostWithoutApply raw late timeouts dir decision spec name s).1.
Proof.
  pose proof (steps_record _ _ (logged_respected harmless) harmless_book) as Hrec.
  pose proof (steps_report _ _ (logged_respected harmless) harmless_book) as Hrep.
  pose proof (steps_removeState _ _ (logged_respected harmless) harmless_book (quiet_disk _)) as Hst.
  pose proof (steps_removeAttempt _ _ (logged_respected harmless) harmless_book (quiet_disk _)) as Hat.
  revert s. unfold settleHostWithoutApply, sweepDisabledHost. 
  change (moves (λ s : @RSt W, s) quiet_logged (settleHostWithoutApply raw late timeouts dir decision spec name)).
  unfold settleHostWithoutApply, sweepDisabledHost. repeat first [moves_step|done].
Qed.

Lemma quiet_probe manifest s : quiet_logged s (probe manifest s).1.
Proof.
  revert s. change (moves (λ s : @RSt W, s) quiet_logged (probe manifest)). unfold probe. repeat moves_step.
  all: by refine (steps_call _ _ (logged_respected _) _ _).
Qed.

Lemma quiet_not s s' (P : Prop) o seg :
  quiet_logged s s' → sent (pass s') = sent (pass s) ++ seg → o ∈ seg → ¬ harmless o.1 → P.
Proof.
  intros (seg'&E&H) E' Ho Hn. rewrite E in E'. apply app_inv_head in E' as ->.
  rewrite Forall_forall in H. by destruct (Hn (H _ Ho)).
Qed.

Lemma act_logged manifest budgets s : logged (λ c, harmless c ∨ acts_on manifest c) s (unmanaged budgets manifest s).1.
Proof.
  refine (steps_unmanaged _ _ (logged_respected _) _ (quiet_disk _) _ _ _ _ _ _ s).
  - intros c Hc. left. by apply harmless_book.
  - intros c Hc. destruct c; try (by left); try done; unfold acts_on; cbn in Hc.
    + destruct Hc as (->&->&->). by right.
    + destruct Hc as (->&->&->). by right.
  - intros m name. refine (steps_saveHost _ _ (logged_respected _) _ _ _ _); [|by intros; apply logged_same].
    intros c Hc. left. by apply harmless_book.
  - by left.
  - by left.
Qed.

(** The state in which a host was decided to be acted on. *)
Lemma unmanaged_acts budgets manifest s s' r seg o :
  unmanaged budgets manifest s = (s', r) → sent (pass s') = sent (pass s) ++ seg → o ∈ seg → ¬ harmless o.1 →
  acts_on manifest o.1 ∧
  ∃ s1 st, probe manifest s = (s1, Ok st) ∧ ht_identityUnknown st = false ∧
    decision_at (mh_spec manifest) (mh_name manifest) st s1 = Apply ∧
    try_catch (host_pass budgets manifest (local_record (mh_spec manifest) (mh_name manifest) s1) (is_running st))
      (caughtHostError raw late timeouts dir manifest) s1 = (s', r).
Proof.
  intros E Es Ho Hn. split.
  { pose proof (act_logged manifest budgets s) as (seg'&E'&H). rewrite E in E'. cbn in E'. rewrite Es in E'.
    apply app_inv_head in E' as <-. rewrite Forall_forall in H. by destruct (H _ Ho). }
  rewrite unmanaged_run in E. unfold try_catch in E. rewrite eff_bind_eq in E. pose proof (quiet_probe manifest s) as Hp.
  destruct (probe manifest s) as [s1 [st|e]] eqn:Ep; cbn in Hp.
  2:{ pose proof (quiet_caught manifest e s1) as Hc. rewrite E in Hc. eapply quiet_not; [|exact Es|exact Ho|exact Hn]. by etransitivity. }
  assert (∀ m : M Z, quiet_logged s1 (m s1).1 →
    match m s1 with (w', Ok a) => (w', Ok a) | (w', Err e) => caughtHostError raw late timeouts dir manifest e w' end = (s', r) →
    quiet_logged s s') as Hquiet.
  { intros m Hm Em. transitivity s1; [done|]. destruct (m s1) as [s2 [a|e]]; [by injection Em as <- <-|].
    pose proof (quiet_caught manifest e s2) as Hc. rewrite Em in Hc. by transitivity s2. }
  exists s1, st. unfold decided in E. destruct (ht_identityUnknown st) eqn:Ei.
  { eapply quiet_not; [|exact Es|exact Ho|exact Hn]. refine (Hquiet (pushHostReport raw late timeouts dir _ _ _ _ _ _) _ E). apply quiet_report. }
  destruct (decision_at _ _ st s1) eqn:Ed; cycle 3.
  { split_and!; try done. }
  all: eapply quiet_not; [|exact Es|exact Ho|exact Hn]; match type of Ed with _ = ?d =>
    refine (Hquiet (settleHostWithoutApply raw late timeouts dir d (mh_spec manifest) (mh_name manifest)) _ E) end; apply quiet_settle.
Qed.

(** C27 (safety): a pass starts or stops a ModelHost only when the manifest on
    disk gives it to no other controller, the node said which process it is, and
    the host's state asks for it; it is started when the manifest enables it and
    stopped when it does not, and nothing else is started or stopped. *)
Theorem host_acts_justified budgets manifest s s' r seg o :
  reconcile_host budgets manifest s = (s', r) → sent (pass s') = sent (pass s) ++ seg → o ∈ seg → ¬ harmless o.1 →
  let current := match loadModelHostByName dir (mh_name manifest) (dk_store (disk s)) with Ok m => m | Err _ => manifest end in
  externalManagerOf current = None ∧ acts_on current o.1 ∧
  ∃ s1 st, probe current s = (s1, Ok st) ∧ ht_identityUnknown st = false ∧
    decision_at (mh_spec current) (mh_name current) st s1 = Apply.
Proof.
  intros E Es Ho Hn current. unfold reconcileModelHost in E. rewrite eff_bind_eq in E. cbn beta iota zeta delta [gets] in E.
  fold current in E. destruct (externalManagerOf current) as [by_|].
  { injection E as <- <-. cbn in Es.
    assert (seg = []) as -> by (apply (app_inv_head (sent (pass s))); by rewrite app_nil_r). by apply elem_of_nil in Ho. }
  destruct (unmanaged_acts _ _ _ _ _ _ _ E Es Ho Hn) as [Ha (s1&st&Ep&Ei&Ed&_)]. split_and!; try done. by exists s1, st.
Qed.

(** ** A first start that failed *)

Definition more_rows (s s' : @RSt W) : Prop := ∃ rows, reports s' = reports s ++ rows.

#[local] Instance more_rows_preorder : PreOrder more_rows.
Proof.
  split; [intros s; exists []; by rewrite app_nil_r|]. intros s1 s2 s3 (n1&E1) (n2&E2). exists (n1 ++ n2). by rewrite E2, E1, app_assoc.
Qed.

Lemma more_rows_same s s' : reports s' = reports s → more_rows s s'.
Proof. intros E. exists []. by rewrite app_nil_r. Qed.

Lemma more_rows_respected : Respected more_rows (λ _, True).
Proof.
  split; intros; [|by exists rows|by apply more_rows_same]. apply more_rows_same. unfold Reconciler.ask.
  by destruct (deadline timeouts node_procedure raw late c (pass s)).
Qed.

Lemma best_effort_ok (m : M unit) s : ∃ s', best_effort m s = (s', Ok tt).
Proof. unfold best_effort, try_catch. destruct (m s) as [s' [[]|e]]; eauto. Qed.

Lemma ask_answered c s s' a : ask c s = (s', Ok a) → ∃ w w', raw c w = (w', Ok a).
Proof.
  unfold Reconciler.ask, deadline. intros E. exists (ps_world (pass s)).
  destruct (node_procedure c) as [p|]; [destruct (deadline_of timeouts p); [destruct (jm_get (timedOut (pass s)) (pr_node p)); [done|]|]|];
    [destruct (late c (ps_world (pass s)))|..]; destruct (raw c (ps_world (pass s))) as [w' r0]; simplify_eq; eauto.
Qed.

Section first_start.
Context (manifest : ModelHostManifest).
Let spec := mh_spec manifest.
Let name := mh_name manifest.
(** Nobody else writes the host's start attempt, no launch is recorded by others,
    attempts can be written, and the node never sees the engine running. *)
Context (Hfiles : ∀ c w d, let d' := (raw c (w, d)).1.2 in
  (dk_launch d !! name = None → dk_launch d' !! name = None) ∧ dk_attempts d' !! name = dk_attempts d !! name).
Context (Hclock : ∀ w, is_ok (raw (RApply CNow) w).2 = true) (Hwrite : ∀ w, is_ok (raw (RWrite (FAttempt name)) w).2 = true).
Context (Hdown : ∀ w w' st, raw (RApply (CModelHostStatus (hs_node spec) name)) w = (w', Ok st) → is_running st = false).
Context (Hlocal : is_local spec = true) (Hnever : hs_restartPolicy spec = Never) (Henabled : hs_enabled spec = true).

Definition keeps (s s' : @RSt W) : Prop :=
  (dk_launch (disk s) !! name = None → dk_launch (disk s') !! name = None) ∧
  dk_attempts (disk s') !! name = dk_attempts (disk s) !! name.

#[local] Instance keeps_preorder : PreOrder keeps.
Proof. split; [done|]. intros s1 s2 s3 [H1 E1] [H2 E2]. split; [auto|congruence]. Qed.

Lemma keeps_ask c s : keeps s (ask c s).1.
Proof.
  unfold keeps, Reconciler.ask, disk, deadline. destruct s as [[[w d] t se u] m re sv]. cbn. specialize (Hfiles c w d).
  repeat (break_match_goal; cbn in *; simplify_eq/=); done.
Qed.

Lemma keeps_respected : Respected keeps (λ _, True).
Proof.
  split; [intros; apply keeps_ask|done|].
  intros s f Hf. unfold keeps, on_disk, disk. cbn. destruct (Hf (ps_world (pass s)).2) as [-> ->]. done.
Qed.

Lemma keeps_apply budgets s s' r :
  apply_host budgets manifest s = (s', r) → keeps s s' ∨ ∃ applied pid endpoint, r = Ok (OkModelHost applied pid endpoint).
Proof.
  unfold Reconciler.apply_host, run_apply. set (h := handle raw late timeouts date_valid _).
  destruct (applyModelHostManifest h _ _ _ _ _ _ _ _ manifest (WorkloadApply.mkSt s [])) as [[s1 o1] r1] eqn:E. intros [= <- <-].
  assert (∀ c w, (∀ n st, c ≠ CWriteState n st) → keeps w (h c w).1) as Hh.
  { intros c w Hc. destruct c as [| | | | | | | | | | | | | | | | | | | | | | n0 state|n0]; try exact (re_ask _ _ keeps_respected (RApply _) w I); try reflexivity;
      [by destruct (Hc n0 state)|].
    unfold h, handle, removeModelHostState, best_effort, try_catch. rewrite eff_bind_eq.
    pose proof (re_ask _ _ keeps_respected (RRemove (FLaunch n0)) w I) as Ha.
    destruct (ask (RRemove (FLaunch n0)) w) as [w1 [[]|e]]; [|done]. cbn in *. transitivity w1; [done|].
    unfold keeps, disk; cbn. split; [|done]. intros Hn. destruct (decide (name = n0)) as [<-|Hne].
    - by rewrite lookup_partial_alter_eq.
    - by rewrite lookup_partial_alter_ne. }
  destruct (apply_host_ends h localeCompare toFixed1 num_string totalmem true computeModelHostSpecHash None true keeps
              (λ c, ∀ n st, c ≠ CWriteState n st) Hh manifest ltac:(intros c Hc n st ->; done)
              ltac:(intros st w w' msg; unfold h, handle; rewrite eff_bind_eq;
                    pose proof (re_ask _ _ keeps_respected (RWrite (FLaunch (mh_name manifest))) w I) as Ha;
                    destruct (ask (RWrite (FLaunch (mh_name manifest))) w) as [w1 [[]|e]]; [done|by intros [= <- <-]]) _ _ _ E)
    as [H|(pid&_&_&->&_)]; [by left|right; eauto].
Qed.

(** The marker of an attempt, and no record of a launch. *)
Definition attempted (s : @RSt W) : Prop :=
  dk_launch (disk s) !! name = None ∧
  readModelHostStartAttempt (dk_attempts (disk s) !! name) = Some (computeModelHostSpecHash spec).

Lemma attempted_keeps s s' : keeps s s' → attempted s → attempted s'.
Proof. intros [Hl Ha] [H1 H2]. split; [auto|by rewrite Ha]. Qed.

Lemma marked s : dk_launch (disk s) !! name = None →
  ∃ s', markNeverHostStartAttempt raw late timeouts computeModelHostSpecHash spec name None s = (s', Ok tt) ∧ attempted s' ∧
    reports s' = reports s.
Proof.
  intros Hl. unfold markNeverHostStartAttempt. rewrite Hnever, Hlocal.
  change (negb (bool_decide (Never = Never)) || negb true || bool_decide (is_Some (None : option HostState))) with false. cbn iota.
  unfold best_effort, writeModelHostStartAttempt, try_catch. rewrite eff_bind_eq.
  assert (∀ c s1, (∀ w, is_ok (raw c w).2 = true) → node_procedure c = None →
    ∃ s2 a, ask c s1 = (s2, Ok a) ∧ keeps s1 s2 ∧ reports s2 = reports s1) as Hask.
  { intros c s1 Hok Hp. pose proof (keeps_ask c s1) as Hd. unfold Reconciler.ask, deadline in *. rewrite Hp in *.
    specialize (Hok (ps_world (pass s1))). destruct (raw c (ps_world (pass s1))) as [w' [a|e]]; [|done]. by eexists _, a. }
  destruct (Hask (RApply CNow) s Hclock eq_refl) as (s1&now&E1&D1&R1). unfold Reconciler.call. rewrite E1, eff_bind_eq.
  destruct (Hask (RWrite (FAttempt name)) s1 Hwrite eq_refl) as (s2&[]&E2&D2&R2). rewrite E2. eexists. split; [done|].
  split; [|cbn; congruence].
  destruct D1 as [D1 _], D2 as [D2 _]. unfold attempted, disk in *. cbn. rewrite lookup_partial_alter_eq. auto.
Qed.

Lemma probe_keeps s s1 st : probe manifest s = (s1, Ok st) → keeps s s1 ∧ reports s1 = reports s ∧ is_running st = false.
Proof.
  unfold probe. rewrite eff_bind_eq. unfold Reconciler.call.
  assert (∀ c s0, reports (ask c s0).1 = reports s0) as Hrep.
  { intros c s0. unfold Reconciler.ask. by destruct (deadline timeouts node_procedure raw late c (pass s0)). }
  pose proof (keeps_ask (RApply (CGetClient (hs_node (mh_spec manifest)))) s) as Hd0.
  pose proof (Hrep (RApply (CGetClient (hs_node (mh_spec manifest)))) s) as Hr0.
  destruct (ask (RApply (CGetClient (hs_node (mh_spec manifest)))) s) as [s0 [shape|e]]; [|done]. cbn in Hd0, Hr0.
  set (c := RApply (CModelHostStatus (hs_node (mh_spec manifest)) (mh_name manifest))). intros E.
  pose proof (keeps_ask c s0) as Hd1. pose proof (Hrep c s0) as Hr1. rewrite E in Hd1, Hr1. cbn in Hd1, Hr1.
  split_and!; [by transitivity s0|congruence|]. destruct (ask_answered c s0 s1 st E) as (w&w'&Hraw). by eapply Hdown.
Qed.

(** A host that was started has a row that says so. *)
Lemma started_row applied pid endpoint dead s1 s s' r rows :
  more_rows s s1 →
  match settleAppliedHost raw late timeouts dir ModelHostSchema manifest false dead (OkModelHost applied pid endpoint) s1 with
  | (w', Ok a) => (w', Ok a)
  | (w', Err e) => caughtHostError raw late timeouts dir manifest e w'
  end = (s', r) →
  reports s' = reports s ++ rows → Forall (λ row, rp_action row = RAUnchanged) rows → False.
Proof.
  intros [r0 H0] E Hrows Hun. unfold settleAppliedHost in E. rewrite eff_bind_eq in E.
  pose proof (steps_removeAttempt _ _ more_rows_respected ltac:(done) ltac:(intros; by apply more_rows_same) name s1) as [r1 H1].
  destruct (best_effort_ok (ask (RRemove (FAttempt name));; modify (on_disk (set_attempt name None))) s1) as [sa Ea].
  unfold removeModelHostStartAttempt in *. fold name in E. rewrite Ea in E, H1. cbn in H1. rewrite eff_bind_eq in E.
  set (row := host_report spec name RAStarted None dead false).
  set (sb := mkRSt (pass sa) (mem_bytes sa) (reports sa ++ [row]) (saved sa)).
  change (pushHostReport raw late timeouts dir (mh_spec manifest) name RAStarted None dead false sa) with (sb, Ok 0) in E. cbn iota in E.
  assert (more_rows sb s') as [r2 H2].
  { refine (moves_run (λ s : @RSt W, s) more_rows
      (try_catch (saveAppliedHost raw late timeouts dir ModelHostSchema applied name;;
         record_outcome (mh_spec manifest) name (HoOk "Recovered" (restartReason false dead) (Some (hs_enabled (mh_spec manifest))));;
         mret 0) (caughtHostError raw late timeouts dir manifest)) _ _ _ _ E).
    repeat first [moves_step|progress unfold caughtHostError, caught_unreachable].
    - refine (steps_saveHost _ _ more_rows_respected _ _ _ _); [done|]. intros. by apply more_rows_same.
    - by refine (steps_record _ _ more_rows_respected _ _ _ _).
    - by refine (steps_report _ _ more_rows_respected _ _ _ _ _ _ _). }
  rewrite H2 in Hrows. cbn in Hrows. rewrite H1, H0, <-!app_assoc in Hrows. apply app_inv_head in Hrows. subst rows.
  apply Forall_app in Hun as [_ Hun]. apply Forall_app in Hun as [_ Hun]. apply Forall_app in Hun as [Hun _].
  rewrite Forall_singleton in Hun. done.
Qed.

Lemma failed_start_attempted budgets s s' r rows :
  dk_launch (disk s) !! name = None →
  try_catch (host_pass budgets manifest None false) (caughtHostError raw late timeouts dir manifest) s = (s', r) →
  reports s' = reports s ++ rows → Forall (λ row, rp_action row = RAUnchanged) rows → attempted s'.
Proof.
  intros Hl E Hrows Hun. unfold try_catch, applyHostPass in E. fold spec name in E. rewrite Hlocal in E.
  destruct (marked s Hl) as (s1&E1&Ha&Hr1). rewrite !eff_bind_eq in E. cbn [mret eff_ret] in E. rewrite eff_bind_eq, E1 in E.
  cbn iota in E. rewrite eff_bind_eq in E.
  assert (more_rows s1 (apply_host budgets manifest s1).1) as Hrep.
  { refine (steps_apply_host _ _ more_rows_respected _ _ manifest _ budgets s1); [done| |done]. intros. by apply more_rows_same. }
  destruct (apply_host budgets manifest s1) as [s2 res] eqn:E2. cbn in Hrep.
  assert (∀ action error dead far s3, keeps s3 (pushHostReport raw late timeouts dir spec name action error dead far s3).1) as Hreport.
  { intros. by refine (steps_report _ _ keeps_respected _ _ _ _ _ _ _ s3). }
  assert (∀ m : M Z, keeps s2 (m s2).1 → keeps s1 s2 →
    match m s2 with (w', Ok a) => (w', Ok a) | (w', Err e) => caughtHostError raw late timeouts dir manifest e w' end = (s', r) →
    attempted s') as Hkeeps.
  { intros m Hm H12 Em. eapply attempted_keeps; [|exact Ha]. transitivity s2; [done|]. destruct (m s2) as [s3 [a|e]].
    - by injection Em as <- <-.
    - transitivity s3; [done|]. pose proof (Hreport RAUnchanged (Some (if isNodeUnreachableError e (pass s3) then "NodeUnreachable"
        else "ReconcileFailed", e)) false (isNodeUnreachableError e (pass s3)) s3) as Hc.
      change (pushHostReport raw late timeouts dir spec name RAUnchanged (Some (if isNodeUnreachableError e (pass s3)
        then "NodeUnreachable" else "ReconcileFailed", e)) false (isNodeUnreachableError e (pass s3)) s3)
        with (caughtHostError raw late timeouts dir manifest e s3) in Hc. by rewrite Em in Hc. }
  assert (more_rows s s2) as Hs2 by (destruct Hrep as [more Hmore]; exists more; by rewrite Hmore, Hr1).
  set (settle := settleAppliedHost raw late timeouts dir ModelHostSchema manifest false
                   (negb false && bool_decide (is_Some (None : option HostState)))) in E.
  destruct (keeps_apply _ _ _ _ E2) as [H12|(applied&pid&endpoint&->)].
  - destruct res as [[m res'|applied pid endpoint|error]|e].
    + refine (Hkeeps (settle (OkModelRun m res')) _ H12 E). apply Hreport.
    + exfalso. by eapply started_row.
    + refine (Hkeeps (settle (NotOk error)) _ H12 E). apply Hreport.
    + by refine (Hkeeps (throw e) _ H12 E).
  - exfalso. by eapply started_row.
Qed.

(** The whole first pass: a start was asked for, and no row says that it
    started. *)
Lemma first_pass budgets s s' r seg rows o :
  dk_launch (disk s) !! name = None → unmanaged budgets manifest s = (s', r) →
  sent (pass s') = sent (pass s) ++ seg → o ∈ seg → ¬ harmless o.1 →
  reports s' = reports s ++ rows → Forall (λ row, rp_action row = RAUnchanged) rows → attempted s'.
Proof.
  intros Hl E Es Ho Hn Hrows Hun. destruct (unmanaged_acts _ _ _ _ _ _ _ E Es Ho Hn) as [_ (s1&st&Ep&_&_&E1)].
  destruct (probe_keeps _ _ _ Ep) as ([Hd _]&Hr&Hst). fold spec name in E1. rewrite Hlocal, (Hd Hl), Hst in E1. cbn in E1.
  eapply failed_start_attempted; [by apply Hd|exact E1|rewrite Hr; exact Hrows|exact Hun].
Qed.

(** A host on this machine that is not to be restarted is started
    once for its configuration: when a pass asked for its first start and no row
    of the pass says that it started, then any later pass that finds the start
    attempt and the absent launch record as they were left starts nothing, as
    long as the node does not see the engine running. *)
Theorem failed_start_not_repeated budgets s s' r seg rows o budgets2 t t' r2 seg2 :
  dk_launch (disk s) !! name = None → unmanaged budgets manifest s = (s', r) →
  sent (pass s') = sent (pass s) ++ seg → o ∈ seg → ¬ harmless o.1 →
  reports s' = reports s ++ rows → Forall (λ row, rp_action row = RAUnchanged) rows →
  dk_launch (disk t) !! name = dk_launch (disk s') !! name → dk_attempts (disk t) !! name = dk_attempts (disk s') !! name →
  unmanaged budgets2 manifest t = (t', r2) → sent (pass t') = sent (pass t) ++ seg2 →
  ∀ o2, o2 ∈ seg2 → harmless o2.1.
Proof.
  intros Hl E Es Ho Hn Hrows Hun Htl Hta Et Est o2 Ho2. destruct (decide (harmless o2.1)) as [|Hn2]; [done|exfalso].
  destruct (first_pass _ _ _ _ _ _ _ Hl E Es Ho Hn Hrows Hun) as [Hl' Ha'].
  destruct (unmanaged_acts _ _ _ _ _ _ _ Et Est Ho2 Hn2) as [_ (t1&st&Ep&_&Hdec&_)].
  destruct (probe_keeps _ _ _ Ep) as ([Hd Hda]&_&Hst). unfold decision_at in Hdec. fold spec name in Hdec.
  rewrite Htl in Hd. rewrite Hlocal, (Hd Hl'), Hda, Hta, Ha' in Hdec. unfold classifyHostReconcile, localSpecChangedWhileDown in Hdec.
  rewrite Hst, Henabled, Hlocal, Hnever, (bool_decide_true (Some _ = Some _)) in Hdec by done. done.
Qed.
End first_start.
End reconcile.

(** ** Runs *)

Module ReconcilerExample.
Definition spec_on (node : string) (enabled : bool) : ModelHostSpec :=
  mkHostSpec "llamacpp" node enabled "/opt/bin" None "127.0.0.1" 8080 ["org/model.gguf"] [] Never 60 None None.
Definition host (name node : string) (enabled : bool) : ModelHostManifest := mkModelHost name ∅ (spec_on node enabled).
Definition disk_of (files : list (string * FileContent)) : Disk := mkDisk (mkStore files (λ _, FsBroken)) ∅ ∅ ∅ ∅.

(** What a start does to the files, and answers. *)
Definition outside (start : Disk → Disk * Stream HostDone) (c : RCall) (w : unit * Disk) : unit * Disk * result (RResp c) :=
  match c return unit * Disk * result (RResp c) with
  | RApply c =>
      match c return unit * Disk * result (Resp c) with
      | CNow => (w, Ok "t0")
      | CGetClient _ => (w, Ok (mkClient false false))
      | CModelHostStatus _ _ => (w, Ok (mkHostStatus "Stopped" None None false))
      | CModelHostStart _ _ => let '(d, s) := start w.2 in ((w.1, d), Ok s)
      | CValidateSpec _ => (w, Ok None)
      | _ => (w, Err "not called")
      end
  | RWrite _ => (w, Ok tt)
  | RRemove _ => (w, Ok tt)
  end.

Definition broken (d : Disk) : Disk * Stream HostDone := (d, mkStream [] (StreamError "engine exited during load")).
(** The host is disabled while it starts. *)
Definition edited (d : Disk) : Disk * Stream HostDone :=
  (set_manifest "h.yaml" (FModelHost false (host "h" "gpu" false)) d,
   mkStream [mkHostDone true None (Some 42) (Some "Running")] StreamComplete).

Definition run (start : Disk → Disk * Stream HostDone) (late : RCall → unit * Disk → bool) (d : Disk) : @RSt unit * result Z :=
  reconcileOnce (outside start) late (mkTimeouts 10 (Some 30)) (λ _, true) (λ _ _, 0) (λ _, "") (λ _, "") 64 (λ _, "hash") ["w"]
    (λ _, None) None None Ok Ok (tt, d).

Definition two_hosts : Disk :=
  disk_of [("a.yaml", FModelHost false (host "a" "gpu" true)); ("b.yaml", FModelHost false (host "b" "gpu" true))].
Definition status_late (c : RCall) (w : unit * Disk) : bool :=
  match c with RApply (CModelHostStatus _ _) => true | _ => false end.

Definition one_pass (d : Disk) : @RSt unit * result Z :=
  reconcileUnmanagedModelHost (outside broken) (λ _ _, false) (mkTimeouts 10 (Some 30)) (λ _, true) (λ _ _, 0) (λ _, "") (λ _, "") 64
    (λ _, "hash") ["w"] Ok [] (host "h" "local" true) (start_pass (tt, d)).
Definition fresh : Disk := disk_of [("h.yaml", FModelHost false (host "h" "local" true))].
Definition after_failure : Disk := disk (one_pass fresh).1.
End ReconcilerExample.

(** A change that is made to a host's manifest while the pass starts
    the host is lost: here the host is disabled on disk during the start, and the
    pass writes the manifest it had read before, which enables it. *)
Theorem host_edit_lost :
  let start := mkStream [mkHostDone true None (Some 42) (Some "Running")] StreamComplete in
  let before := ReconcilerExample.disk_of [("h.yaml", FModelHost false (ReconcilerExample.host "h" "gpu" true))] in
  let '(s, r) := ReconcilerExample.run ReconcilerExample.edited (λ _ _, false) before in
  r = Ok 0 ∧
  file_at "h.yaml" (dk_store (ReconcilerExample.edited before).1) = Some (FModelHost false (ReconcilerExample.host "h" "gpu" false)) ∧
  (ReconcilerExample.edited before).2 = start ∧
  file_at "h.yaml" (dk_store (disk s)) = Some (FModelHost false (ReconcilerExample.host "h" "gpu" true)).
Proof. vm_compute. split_and!; reflexivity. Qed.

Example silent_after_timeout_witness :
  let s := (ReconcilerExample.run ReconcilerExample.broken ReconcilerExample.status_late ReconcilerExample.two_hosts).1 in
  ∃ pre c post, sent (pass s) = pre ++ (c, TimedOut) :: post ∧ (3 ≤ length post)%nat ∧
    ∃ n, bounded_node (mkTimeouts 10 (Some 30)) node_procedure c = Some n ∧
      Forall (λ o, bounded_node (mkTimeouts 10 (Some 30)) node_procedure o.1 ≠ Some n) post.
Proof.
  set (s := (ReconcilerExample.run ReconcilerExample.broken ReconcilerExample.status_late ReconcilerExample.two_hosts).1).
  assert (sent (pass s) = [(RApply (CGetClient "gpu"), Answered true)] ++
    (RApply (CModelHostStatus "gpu" "a"), TimedOut) :: drop 2 (sent (pass s))) as E by (vm_compute; reflexivity).
  exists [(RApply (CGetClient "gpu"), Answered true)], (RApply (CModelHostStatus "gpu" "a")), (drop 2 (sent (pass s))).
  split; [exact E|]. split; [vm_compute; lia|].
  exact (silent_after_timeout _ _ _ _ _ _ _ _ _ _ _ _ _ _ _ (tt, ReconcilerExample.two_hosts) s _ _ _ _ (surjective_pairing _) E).
Defined.

Example host_acts_justified_witness :
  let s := (ReconcilerExample.one_pass ReconcilerExample.fresh).1 in
  let manifest := ReconcilerExample.host "h" "local" true in
  ∃ o, o ∈ sent (pass s) ∧ ¬ harmless o.1 ∧ acts_on manifest o.1.
Proof.
  intros s manifest. exists (RApply (CModelHostStart "local" manifest), Answered true).
  assert ((RApply (CModelHostStart "local" manifest), Answered true) ∈ sent (pass s)) as Hin
    by (refine (list_elem_of_lookup_2 _ 6 _ _); vm_compute; reflexivity).
  split; [exact Hin|]. split; [done|].
  exact (proj1 (proj2 (host_acts_justified (ReconcilerExample.outside ReconcilerExample.broken) (λ _ _, false) (mkTimeouts 10 (Some 30))
    (λ _, true) (λ _ _, 0) (λ _, "") (λ _, "") 64 (λ _, "hash") ["w"] Ok [] manifest (start_pass (tt, ReconcilerExample.fresh)) s
    (Ok 1) (sent (pass s)) _ ltac:(vm_compute; reflexivity) eq_refl Hin ltac:(done)))).
Defined.

Example failed_start_not_repeated_witness :
  let t := (ReconcilerExample.one_pass ReconcilerExample.after_failure).1 in
  (1 < length (sent (pass t)))%nat ∧ ∀ o, o ∈ sent (pass t) → harmless o.1.
Proof.
  split; [vm_compute; lia|].
  set (s := (ReconcilerExample.one_pass ReconcilerExample.fresh).1).
  assert ((RApply (CModelHostStart "local" (ReconcilerExample.host "h" "local" true)), Answered true) ∈ sent (pass s)) as Hin
    by (refine (list_elem_of_lookup_2 _ 6 _ _); vm_compute; reflexivity).
  refine (failed_start_not_repeated (ReconcilerExample.outside ReconcilerExample.broken) (λ _ _, false) (mkTimeouts 10 (Some 30))
    (λ _, true) (λ _ _, 0) (λ _, "") (λ _, "") 64 (λ _, "hash") ["w"] Ok (ReconcilerExample.host "h" "local" true) _ _ _ _ _ _ _
    [] (start_pass (tt, ReconcilerExample.fresh)) s (Ok 1) (sent (pass s)) (reports s) _ [] (start_pass (tt, ReconcilerExample.after_failure)) _ (Ok 0) _
    _ _ eq_refl Hin _ eq_refl _ _ _ _ eq_refl).
  all: try (vm_compute; reflexivity).
  - intros c w d. by destruct c as [[]| |].
  - intros w w' st [= <- <-]. done.
  - done.
  - vm_compute. repeat constructor.
Defined.
