(* ===== verification/ReconcileLoop.v ===== *)
(** * The reconcile loop of a process

    packages/remote/src/workload/reconcileLoop.ts: the module's one [state], with
    the timers that the process holds and the pass that is awaited.  A step is one
    run of the event loop: a call of the module, a timer, the end of a pass.  What
    a pass does is Reconciler.v; here it has a result and events. *)

From S2P Require Import Prelude.
From Stdlib Require Import Wellfounded.

#[local] Open Scope string_scope.
#[local] Open Scope list_scope.
#[local] Open Scope Z_scope.

Definition MAX_EVENTS : nat := 200.

Section loop.
(** [ReconcileLoopOpts], [ReconcileResult], an event with its time. *)
Context {Opts Result Event : Type}.

(** [timer]: the handle that is kept; [timers]: those the process holds;
    [pass]: the options of the pass under way ([inflight]). *)
Record LoopState := mkLoop {
  timer : option nat; running : bool; intervalMs : Z; lastPassAt : option Z; lastResult : option Result;
  lastEvents : list Event; pass : option Opts; timers : list (nat * Opts); next_handle : nat
}.

Definition initial : LoopState := mkLoop None false 10000 None None [] None [] 0.

Definition inflight (s : LoopState) : bool := match pass s with Some _ => true | None => false end.

Definition scheduleNext (opts : Opts) (s : LoopState) : LoopState :=
  if running s then
    mkLoop (Some (next_handle s)) (running s) (intervalMs s) (lastPassAt s) (lastResult s) (lastEvents s) (pass s)
      (timers s ++ [(next_handle s, opts)]) (S (next_handle s))
  else s.

(** Up to the await of [reconcileOnce]. *)
Definition tick (opts : Opts) (s : LoopState) : LoopState :=
  if inflight s then s
  else
    mkLoop (timer s) (running s) (intervalMs s) (lastPassAt s) (lastResult s) (lastEvents s) (Some opts) (timers s)
      (next_handle s).

(** [slice(-n)] *)
Definition last_n {A} (n : nat) (l : list A) : list A := drop (length l - n) l.

(** From the await on: the pass returned, or what the catch block makes of its
    error. *)
Definition finish (result : Result) (events : list Event) (now : Z) (s : LoopState) : LoopState :=
  match pass s with
  | None => s
  | Some opts =>
      scheduleNext opts
        (mkLoop (timer s) (running s) (intervalMs s) (Some now) (Some result) (last_n MAX_EVENTS (lastEvents s ++ events)) None
           (timers s) (next_handle s))
  end.

Definition startReconcileLoop (opts : Opts) (interval : option Z) (s : LoopState) : LoopState :=
  if running s then s
  else
    tick opts
      (mkLoop (timer s) true (default 10000 interval) (lastPassAt s) (lastResult s) (lastEvents s) (pass s) (timers s)
         (next_handle s)).

(** A handle that is no longer held is cleared without effect. *)
Definition stopReconcileLoop (s : LoopState) : LoopState :=
  mkLoop None false (intervalMs s) (lastPassAt s) (lastResult s) (lastEvents s) (pass s)
    (match timer s with Some h => filter (λ t, t.1 ≠ h) (timers s) | None => timers s end) (next_handle s).

Definition kickReconcileLoop : Opts → LoopState → LoopState := tick.

(** The handle stays kept. *)
Definition fire (h : nat) (s : LoopState) : LoopState :=
  match find (λ t, bool_decide (t.1 = h)) (timers s) with
  | None => s
  | Some (_, opts) =>
      tick opts
        (mkLoop (timer s) (running s) (intervalMs s) (lastPassAt s) (lastResult s) (lastEvents s) (pass s)
           (filter (λ t, t.1 ≠ h) (timers s)) (next_handle s))
  end.

(** [reconcileLoopStatus]: the time of the next pass. *)
Definition nextPassAt (s : LoopState) : option Z :=
  if running s then (λ t, t + intervalMs s) <$> lastPassAt s else None.

Inductive LoopStep :=
| SStart (opts : Opts) (interval : option Z)
| SStop
| SKick (opts : Opts)
| SFire (handle : nat)
| SFinish (result : Result) (events : list Event) (now : Z).

Definition step (s : LoopState) (e : LoopStep) : LoopState :=
  match e with
  | SStart opts interval => startReconcileLoop opts interval s
  | SStop => stopReconcileLoop s
  | SKick opts => kickReconcileLoop opts s
  | SFire h => fire h s
  | SFinish result events now => finish result events now s
  end.

Definition run (steps : list LoopStep) (s : LoopState) : LoopState := foldl step s steps.

(** ** The loop goes on *)

(** Handles are new, and a loop that runs has a pass under way or a timer. *)
Definition loop_ok (s : LoopState) : Prop :=
  (running s = true → inflight s = true ∨ timers s ≠ []) ∧
  (∀ t, t ∈ timers s → (t.1 < next_handle s)%nat) ∧
  (∀ h, timer s = Some h → (h < next_handle s)%nat) ∧
  (length (lastEvents s) ≤ MAX_EVENTS)%nat ∧
  NoDup (timers s).*1.

Lemma last_n_length {A} n (l : list A) : (length (last_n n l) ≤ n)%nat.
Proof. unfold last_n. rewrite length_drop. lia. Qed.

Lemma handles_filter (h : nat) (l : list (nat * Opts)) : NoDup l.*1 → NoDup (filter (λ t, t.1 ≠ h) l).*1.
Proof.
  induction l as [|[h' o] l IH]; [done|]. rewrite fmap_cons, NoDup_cons. intros [Hn Hd]. rewrite filter_cons. case_decide; [|auto].
  rewrite fmap_cons, NoDup_cons. split; [|auto]. intros (t&Ht&Hin)%list_elem_of_fmap. apply Hn. apply list_elem_of_fmap.
  apply list_elem_of_filter in Hin as [_ Hin]. by exists t.
Qed.

Lemma tick_inflight opts s : inflight (tick opts s) = true.
Proof. unfold tick. by destruct (inflight s) eqn:E. Qed.

Lemma tick_fields opts s :
  running (tick opts s) = running s ∧ timers (tick opts s) = timers s ∧ timer (tick opts s) = timer s ∧
  next_handle (tick opts s) = next_handle s ∧ lastEvents (tick opts s) = lastEvents s.
Proof. unfold tick. by destruct (inflight s). Qed.

Lemma step_ok s e : loop_ok s → loop_ok (step s e).
Proof.
  intros Hs. pose proof Hs as (Hrun&Hlt&Ht&Hev&Hnd).
  assert (∀ opts s', timers s' = timers s ∨ (∃ h, timers s' = filter (λ t, t.1 ≠ h) (timers s)) → timer s' = timer s →
    next_handle s' = next_handle s → lastEvents s' = lastEvents s → loop_ok (tick opts s')) as Htick.
  { intros opts s' Hs' E1 E2 E3. destruct (tick_fields opts s') as (_&Et&Eh&En&Ee). unfold loop_ok.
    rewrite Et, Eh, En, Ee, E1, E2, E3. split; [intros _; left; apply tick_inflight|].
    destruct Hs' as [->|[h ->]]; split_and!; try done; [|by apply handles_filter].
    intros t Hin. apply list_elem_of_filter in Hin as [_ Hin]. by apply Hlt. }
  destruct e as [opts interval| |opts|h|result events now]; cbn [step].
  - unfold startReconcileLoop. destruct (running s) eqn:Er; [done|]. apply Htick; auto.
  - unfold loop_ok, stopReconcileLoop. cbn. split; [done|]. split; [|split; [done|split; [done|]]].
    + destruct (timer s); [intros t [_ Hin]%list_elem_of_filter; by apply Hlt|done].
    + destruct (timer s); [by apply handles_filter|done].
  - apply Htick; auto.
  - unfold fire. destruct (find _ (timers s)) as [[h' opts]|]; [|done]. apply Htick; eauto.
  - unfold finish. destruct (pass s) as [opts|] eqn:Ep; [|done]. unfold scheduleNext. cbn [running].
    destruct (running s) eqn:Er; unfold loop_ok; cbn.
    + split; [intros _; right; by destruct (timers s)|]. split; [|split; [intros h [= <-]; lia|split; [apply last_n_length|]]].
      * intros t [Hin|Hin]%elem_of_app; [|apply list_elem_of_singleton in Hin as ->; cbn; lia]. specialize (Hlt t Hin). lia.
      * rewrite fmap_app. apply NoDup_app. split; [done|]. split; [|apply NoDup_singleton].
        intros x Hx Hy. apply list_elem_of_fmap in Hx as (t&->&Hin). apply list_elem_of_singleton in Hy. cbn in Hy. specialize (Hlt t Hin). lia.
    + split; [done|]. split_and!; try done. apply last_n_length.
Qed.

Lemma loop_run_ok steps s : loop_ok s → loop_ok (run steps s).
Proof. revert s. induction steps as [|e steps IH]; intros s H; [done|]. apply IH. by apply step_ok. Qed.

(** C28 (invariant): whatever is called and whenever timers fire and passes end, a
    loop that runs has a pass under way or a timer that will begin one; at most one
    pass is under way, and no more than 200 events are kept. *)
Theorem loop_goes_on steps :
  let s := run steps initial in
  (running s = true → inflight s = true ∨ timers s ≠ []) ∧ (length (lastEvents s) ≤ MAX_EVENTS)%nat.
Proof. intros s. assert (loop_ok s) as (H1&_&_&H2&_); [|done]. apply loop_run_ok. unfold loop_ok, initial, MAX_EVENTS; cbn. split_and!; try done; [by intros ? ?%elem_of_nil|lia|constructor]. Qed.

(** ** Stopping *)

Definition is_kick (e : LoopStep) : bool := match e with SKick _ => true | _ => false end.

(** Without kicks the process holds no timer but the one that is kept, and none
    while a pass is under way. *)
Definition unkicked (s : LoopState) : Prop :=
  timers s = [] ∨ (inflight s = false ∧ ∃ h opts, timers s = [(h, opts)] ∧ timer s = Some h).

Lemma step_unkicked s e : is_kick e = false → (running s = true ∨ timers s = []) → unkicked s →
  unkicked (step s e) ∧ (running (step s e) = true ∨ timers (step s e) = []).
Proof.
  intros He Hrun Hu. destruct e as [opts interval| |opts|h|result events now]; try done; cbn [step].
  - unfold startReconcileLoop. destruct (running s) eqn:Er; [by split; [|left]|].
    destruct Hrun as [?|Ht]; [done|]. unfold unkicked. match goal with |- context [tick ?o ?x] => destruct (tick_fields o x) as (->&->&_) end.
    cbn. auto.
  - unfold unkicked, stopReconcileLoop. cbn. assert (match timer s with Some h => filter (λ t, t.1 ≠ h) (timers s) | None => timers s end = []) as ->; [|auto].
    destruct Hu as [->|(_&h&opts&->&->)]; [by destruct (timer s)|]. rewrite filter_cons_False; [done|]. cbn. auto.
  - unfold fire. destruct (find _ (timers s)) as [[h' opts]|] eqn:Ef; [|done].
    apply find_some in Ef as [Hin Hh]. to_prop. cbn in Hh. subst h'. apply list_elem_of_In in Hin.
    unfold unkicked. match goal with |- context [tick ?o ?x] => destruct (tick_fields o x) as (->&->&_) end. cbn.
    destruct Hu as [Ht|(_&h1&o1&Ht&_)]; rewrite Ht in Hin |- *; [by apply elem_of_nil in Hin|].
    apply list_elem_of_singleton in Hin as [= -> ->]. rewrite filter_cons_False by (cbn; auto). auto.
  - unfold finish. destruct (pass s) as [opts|] eqn:Ep; [|done].
    destruct Hu as [Ht|(Hi&_)]; [|by unfold inflight in Hi; rewrite Ep in Hi]. unfold scheduleNext. cbn [running].
    destruct (running s) eqn:Er; unfold unkicked; cbn; rewrite Ht; [|auto]. split; [|auto]. right. split; [done|]. by eexists _, _.
Qed.

Lemma run_unkicked steps s : Forall (λ e, is_kick e = false) steps → (running s = true ∨ timers s = []) → unkicked s →
  unkicked (run steps s) ∧ (running (run steps s) = true ∨ timers (run steps s) = []).
Proof.
  revert s. induction steps as [|e steps IH]; intros s Hk Hr Hu; [done|]. apply Forall_cons in Hk as [He Hk].
  destruct (step_unkicked s e He Hr Hu). by apply IH.
Qed.

(** As long as no pass was asked for out of turn, stopping is final: no
    timer is left, so nothing but a new start begins a pass. *)
Theorem stop_clears_timers steps :
  Forall (λ e, is_kick e = false) steps → timers (stopReconcileLoop (run steps initial)) = [].
Proof.
  intros Hk. destruct (run_unkicked (steps ++ [SStop]) initial) as [_ [H|H]].
  - apply Forall_app. split; [done|by constructor].
  - by right.
  - by left.
  - unfold run in H. rewrite foldl_app in H. done.
  - unfold run in H. by rewrite foldl_app in H.
Qed.

(** A pass asked for out of turn while the loop waits adds a timer that
    stopping does not clear: after the stop it begins a pass. *)
Theorem kick_outlives_stop opts interval r1 r2 events1 events2 now1 now2 :
  let s := run [SStart opts interval; SFinish r1 events1 now1; SKick opts; SFinish r2 events2 now2; SStop] initial in
  running s = false ∧ inflight s = false ∧ inflight (step s (SFire 0)) = true.
Proof. done. Qed.

(** A loop that is stopped and started again with another client while a
    pass is under way goes on with the client it was stopped with. *)
Theorem restart_keeps_old_client opts opts' interval interval' r events now :
  let s := run [SStart opts interval; SStop; SStart opts' interval'; SFinish r events now] initial in
  running s = true ∧ timers s = [(O, opts)] ∧ pass (step s (SFire 0)) = Some opts.
Proof. done. Qed.
End loop.

Example stop_clears_timers_witness :
  let steps := [SStart "client" None; SFinish tt ["event"] 5; SFire 0; SFinish tt [] 9] in
  timers (run steps (initial (Opts := string) (Result := unit) (Event := string))) = [(1%nat, "client")] ∧
  timers (stopReconcileLoop (run steps initial)) = ([] : list (nat * string)).
Proof. split; [reflexivity|]. apply stop_clears_timers. repeat constructor. Defined.
