(* ===== verification/ConsoleMask.v ===== *)
(** * The console: what it hides

    packages/remote/src/console/redact.ts and the masks of allowlist.ts, over the
    JSON values that the backend answers with.  Texts are sequences of code units
    below 256; the regular expressions are matched as they backtrack. *)

From S2P Require Import Prelude JsText JsJson.
From Stdlib Require Import Ascii.

#[local] Open Scope string_scope.
#[local] Open Scope list_scope.
#[local] Open Scope Z_scope.

Definition REDACTED : string := "[redacted]".

(** ** Matching *)

Definition lower_char (c : ascii) : ascii :=
  let n := N_of_ascii c in if ((65 <=? n) && (n <=? 90))%N then ascii_of_N (n + 32) else c.

Fixpoint lower (s : string) : string := match s with EmptyString => "" | String c s' => String (lower_char c) (lower s') end.

(** A text occurs in another. *)
Fixpoint occurs (p s : string) : bool :=
  startsWith p s || match s with EmptyString => false | String _ s' => occurs p s' end.

(** [/(?:a|b|...)/i.test(s)] for words in lower case. *)
Definition test_words (words : list string) (s : string) : bool := existsb (λ w, occurs w (lower s)) words.

(** [/(?:a|b|...)$/i.test(s)] *)
Definition test_suffixes (words : list string) (s : string) : bool :=
  existsb (λ w, startsWith (String.rev w) (String.rev (lower s))) words.

Definition is_word (c : ascii) : bool :=
  let n := N_of_ascii c in
  ((48 <=? n) && (n <=? 57) || (65 <=? n) && (n <=? 90) || (97 <=? n) && (n <=? 122) || (n =? 95))%N.

(** The longest prefix of such characters. *)
Fixpoint run_of (p : ascii → bool) (s : string) : string * string :=
  match s with
  | String c s' => if p c then let '(a, b) := run_of p s' in (String c a, b) else ("", s)
  | EmptyString => ("", "")
  end.

Section replace.
(** A match at the place: its length and what replaces it.  [before]: the text
    before the place, backwards. *)
Context (match_at : string → string → option (nat * string)).

Fixpoint replace_from (before : string) (skip : nat) (s : string) : string :=
  match s with
  | EmptyString => ""
  | String c s' =>
      match skip with
      | S n => replace_from (String c before) n s'
      | O =>
          match match_at before s with
          | Some (S n, r) => r +:+ replace_from (String c before) n s'
          | _ => String c (replace_from (String c before) 0 s')
          end
      end
  end.

(** [s.replaceAll(re, ...)] *)
Definition replaceAll (s : string) : string := replace_from "" 0 s.
End replace.

(** ** redact.ts *)

Definition secret_key (key : string) : bool := test_words ["key"; "token"; "secret"; "password"] key.
Definition kept_cert_key (key : string) : bool := bool_decide (key ∈ ["certificate"; "certificateFingerprint"]).

Definition not_space (c : ascii) : bool := negb (is_space c).

(** [/\bBearer\s+\S+/gi] *)
Definition match_bearer (before s : string) : option (nat * string) :=
  if match before with String c _ => is_word c | EmptyString => false end then None
  else if negb (startsWith "bearer" (lower s)) then None
  else
    let '(spaces, rest) := run_of is_space (slice 6 s) in
    let '(token, _) := run_of not_space rest in
    match spaces, token with
    | String _ _, String _ _ => Some ((6 + String.length spaces + String.length token)%nat, "Bearer " +:+ REDACTED)
    | _, _ => None
    end.

Definition userinfo_char (c : ascii) : bool :=
  not_space c && negb (bool_decide (c ∈ ["/"%char; "?"%char; "#"%char; "@"%char])).

(** [/(?<=:\/\/)[^\s/?#@]*@/g] *)
Definition match_userinfo (before s : string) : option (nat * string) :=
  if negb (startsWith "//:" before) then None
  else
    let '(info, rest) := run_of userinfo_char s in
    match rest with
    | String "@" _ => Some (S (String.length info), "")
    | _ => None
    end.

Definition redactString (value : string) : string := replaceAll match_userinfo (replaceAll match_bearer value).

Definition isEmptyValue (v : Json) : bool := match v with JStr "" | JNull => true | _ => false end.

Definition hides (key : string) (inner : Json) : bool := secret_key key && negb (kept_cert_key key) && negb (isEmptyValue inner).

Fixpoint redactNode (value : Json) : Json :=
  match value with
  | JStr s => JStr (redactString s)
  | JArr l => JArr (redactNode <$> l)
  | JObj fields => JObj ((λ f : string * Json, (f.1, if hides f.1 f.2 then JStr REDACTED else redactNode f.2)) <$> fields)
  | v => v
  end.

Definition redactDeep : Json → Json := redactNode.

(** ** The masks of allowlist.ts *)

Definition env_secret_key (key : string) : bool := test_suffixes ["api_key"; "token"; "secret"; "password"] key.
Definition secret_words : list string := ["apikey"; "api-key"; "api_key"; "token"; "secret"; "password"].

Definition nonempty_string (v : Json) : bool := match v with JStr (String _ _) => true | _ => false end.

Fixpoint maskEnvSecrets (value : Json) : Json :=
  match value with
  | JArr l => JArr (maskEnvSecrets <$> l)
  | JObj fields =>
      JObj ((λ f : string * Json, (f.1, if env_secret_key f.1 && nonempty_string f.2 then JStr REDACTED else maskEnvSecrets f.2)) <$> fields)
  | v => v
  end.

Definition maskEnvRecord (env : list (string * Json)) : list (string * Json) :=
  (λ f, (f.1, if isEmptyValue f.2 then f.2 else JStr REDACTED)) <$> env.

(** An entry of a [cli] list: its env, when it has one. *)
Definition mask_entry (otherwise : Json) (entry : Json) : Json :=
  match entry with
  | JObj fields =>
      match json_field fields "env" with
      | Some (JObj _) =>
          JObj ((λ f : string * Json,
                   (f.1, match f.2 with JObj env => if bool_decide (f.1 = "env") then JObj (maskEnvRecord env) else f.2 | v => v end))
                <$> fields)
      | _ => otherwise
      end
  | _ => otherwise
  end.

Fixpoint maskCliEnv (value : Json) : Json :=
  match value with
  | JArr l => JArr (maskCliEnv <$> l)
  | JObj fields =>
      JObj ((λ f : string * Json,
               (f.1, match f.2 with
                     | JArr l => if bool_decide (f.1 = "cli") then JArr ((λ e, mask_entry (maskCliEnv e) e) <$> l) else maskCliEnv f.2
                     | _ => maskCliEnv f.2
                     end)) <$> fields)
  | v => v
  end.

Fixpoint trim_dashes (s : string) : string := match s with String "-" s' => trim_dashes s' | s => s end.

Definition isSecretFlag (token : string) : bool :=
  let name := trim_dashes token in bool_decide (name = "hft") || test_words secret_words name.

(** [indexOf("=")]: what is before, when something is. *)
Definition not_eq (c : ascii) : bool := negb (bool_decide (c = "="%char)).
Definition before_eq (token : string) : option string :=
  match run_of not_eq token with (String c s, String _ _) => Some (String c s) | _ => None end.

Definition secret_assignment (token : string) : option string :=
  flag ← before_eq token; if isSecretFlag flag then Some (flag +:+ "=" +:+ REDACTED) else None.

Fixpoint maskArgv (argv : list string) : list string :=
  match argv with
  | [] => []
  | token :: rest =>
      match secret_assignment token with
      | Some masked => masked :: maskArgv rest
      | None =>
          token ::
          (if isSecretFlag token then
             match rest with
             | next :: rest' => if startsWith "-" next then maskArgv rest else REDACTED :: maskArgv rest'
             | [] => []
             end
           else maskArgv rest)
      end
  end.

Definition ARGV_KEYS : list string := ["extraArgs"; "args"; "cmdline"].

Definition as_text (v : Json) : option string := match v with JStr s => Some s | _ => None end.

(** [Array.isArray(v) && v.every((x) => typeof x === "string")] *)
Definition as_texts (v : Json) : option (list string) := match v with JArr l => mapM as_text l | _ => None end.

Fixpoint maskArgvArrays (value : Json) : Json :=
  match value with
  | JArr l => JArr (maskArgvArrays <$> l)
  | JObj fields =>
      JObj ((λ f : string * Json,
               (f.1, match (if bool_decide (f.1 ∈ ARGV_KEYS) then as_texts f.2 else None) with
                     | Some argv => JArr (JStr <$> maskArgv argv)
                     | None => maskArgvArrays f.2
                     end)) <$> fields)
  | v => v
  end.

Definition flag_char (c : ascii) : bool := not_space c && not_eq c.

(** What follows one or two dashes up to a space or an equals sign. *)
Definition secret_line_flag (run : string) : bool :=
  match run with
  | String "-" body =>
      test_words secret_words body || bool_decide (lower body = "hft") ||
      match body with String "-" body' => bool_decide (lower body' = "hft") | _ => false end
  | _ => false
  end.

(** [LINE_SECRET_FLAG] *)
Definition match_line_flag (before s : string) : option (nat * string) :=
  let '(flag, rest) := run_of flag_char s in
  if negb (secret_line_flag flag) then None
  else
    match rest with
    | String sep rest' =>
        match run_of not_space rest' with
        | (String c value, _) =>
            Some ((String.length flag + 1 + S (String.length value))%nat, flag +:+ String sep REDACTED)
        | _ => None
        end
    | EmptyString => None
    end.

Definition maskLine (s : string) : string := replaceAll match_line_flag s.

Fixpoint maskLineSecrets (value : Json) : Json :=
  match value with
  | JStr s => JStr (maskLine s)
  | JArr l => JArr (maskLineSecrets <$> l)
  | JObj fields => JObj ((λ f : string * Json, (f.1, maskLineSecrets f.2)) <$> fields)
  | v => v
  end.

Example redact_url : redactString "see http://me:pw@host/x?a=b@c and Authorization: Bearer abc.def, ok" =
  "see http://host/x?a=b@c and Authorization: Bearer [redacted] ok".
Proof. reflexivity. Qed.
Example mask_line : maskLine "run --api-key=abc -hft tok --max 3 --hf-token  x" = "run --api-key=[redacted] -hft [redacted] --max 3 --hf-token  x".
Proof. reflexivity. Qed.
Example mask_args : maskArgv ["--api-key=k"; "--token"; "t"; "--secret"; "-x"; "--port"; "80"] =
  ["--api-key=[redacted]"; "--token"; "[redacted]"; "--secret"; "-x"; "--port"; "80"].
Proof. reflexivity. Qed.
