(* ===== verification/Console.v ===== *)
(** * The operator console

    packages/remote/src/console: guards.ts, node-route.ts, allowlist.ts and
    server.ts.  A request is what the handlers read of it.  The backend router,
    the kubeconfig and the workload store are asked; every question is kept with
    its answer.  tRPC's own request handler is an interface: which procedures it
    calls for a request. *)

From S2P Require Import Prelude JsText JsJson WorkloadTypes WorkloadStore InfraLayout Kubeconfig ConsoleMask.
From Stdlib Require Import Ascii.

#[local] Open Scope string_scope.
#[local] Open Scope list_scope.
#[local] Open Scope Z_scope.

(** ** Requests and responses *)

Record Request := mkRequest {
  rq_method : string; rq_pathname : string; rq_batch : option string; rq_input : option string;
  rq_host : option string; rq_fetch_site : option string; rq_origin : option string; rq_cookie : option string
}.

(** [RTrpc]: what tRPC made of the answers.  [RFile]: the segments of the file. *)
Inductive Response :=
| RError (status : Z) (error : string)
| RFile (path : list string)
| RIndex (setCookie : string)
| RRows (rows : list Json)
| RTrpc (body : Json).

Definition jsonError (status : Z) (error : string) : Response := RError status error.

(** ** guards.ts *)

Record ConsoleSession := mkSession { cs_cookieName : string; cs_nonce : string; cs_setCookie : string }.

Definition newConsoleSession (port : Z) (nonce : string) : ConsoleSession :=
  let cookieName := "llamactl_console_" +:+ pretty port in
  mkSession cookieName nonce (cookieName +:+ "=" +:+ nonce +:+ "; Path=/; HttpOnly; SameSite=Strict").

Definition checkConsoleHost (req : Request) (port : Z) : option Response :=
  let host := default "" (rq_host req) in
  if bool_decide (host = "127.0.0.1:" +:+ pretty port) || bool_decide (host = "localhost:" +:+ pretty port) then None
  else Some (jsonError 421 "misdirected_host").

Definition checkConsoleSameOrigin (req : Request) : option Response :=
  if negb (bool_decide (rq_fetch_site req = Some "same-origin")) then Some (jsonError 403 "cross_site_request_forbidden")
  else
    match rq_origin req with
    | Some origin =>
        if bool_decide (origin = "http://" +:+ default "" (rq_host req)) then None
        else Some (jsonError 403 "cross_site_request_forbidden")
    | None => None
    end.

Fixpoint find_cookie (parts : list string) (name : string) : option string :=
  match parts with
  | [] => None
  | part :: rest =>
      match cut_first "="%char (trim part) with
      | Some (String c k, v) => if bool_decide (trim (String c k) = name) then Some (trim v) else find_cookie rest name
      | _ => find_cookie rest name
      end
  end.

Definition cookieValue (header : option string) (name : string) : option string :=
  h ← header; find_cookie (split ";"%char h) name.

Definition checkConsoleSession (req : Request) (session : ConsoleSession) : option Response :=
  match cookieValue (rq_cookie req) (cs_cookieName session) with
  | Some presented => if bool_decide (presented = cs_nonce session) then None else Some (jsonError 401 "invalid_session")
  | None => Some (jsonError 401 "invalid_session")
  end.

Definition CONSOLE_MAX_BATCH_SEGMENTS : nat := 16.

Section decode.
(** [decodeURIComponent]; it throws on a malformed sequence. *)
Context (decodeURIComponent : string → option string).

Definition checkConsoleTrpcPath (pathname : string) (allowed : list string) : list string + Response :=
  match decodeURIComponent pathname with
  | None => inr (jsonError 400 "bad_batch")
  | Some decoded =>
      let segments := split ","%char decoded in
      if bool_decide ("" ∈ segments) then inr (jsonError 400 "bad_batch")
      else if (CONSOLE_MAX_BATCH_SEGMENTS <? length segments)%nat then inr (jsonError 400 "bad_batch")
      else if forallb (λ s, bool_decide (s ∈ allowed)) segments then inl segments
      else inr (jsonError 404 "procedure_not_exposed")
  end.
End decode.

(** ** node-route.ts *)

Definition alnum (c : ascii) : bool :=
  let n := N_of_ascii c in ((48 <=? n) && (n <=? 57) || (65 <=? n) && (n <=? 90) || (97 <=? n) && (n <=? 122))%N.
Definition name_tail (c : ascii) : bool :=
  alnum c || bool_decide (c = "."%char) || bool_decide (c = "_"%char) || bool_decide (c = "-"%char).

(** [CONSOLE_NODE_SEGMENT] *)
Definition node_segment (s : string) : bool :=
  match s with
  | String c s' => alnum c && all_chars name_tail s' && (String.length s' <=? 252)%nat
  | EmptyString => false
  end.

Inductive NodePath := PNone | PBad | POk (node endpoint procPath : string).

(** [NODE_PATH]: /api/n/, a segment, /trpc/ and the rest of one line. *)
Definition parseConsoleNodePath (pathname : string) : NodePath :=
  match strip_prefix "/api/n/" pathname with
  | None => PNone
  | Some rest =>
      match cut_first "/"%char rest with
      | None => PNone
      | Some (node, rest') =>
          match strip_prefix "trpc/" rest' with
          | Some procPath =>
              if negb (char_free newline procPath && char_free carriage_return procPath) then PNone
              else if node_segment node then POk node ("/api/n/" +:+ node +:+ "/trpc") procPath else PBad
          | None => PNone
          end
      end
  end.

Definition LOCAL_NODE_ENDPOINT : string := "inproc://local".

(** [None]: loading the configuration throws. *)
Definition validateConsoleNode (name : string) (loaded : result Config) : string + Response :=
  match loaded with
  | Err _ => inr (jsonError 412 "kubeconfig_unreadable")
  | Ok config =>
      match find_by cx_name (currentContextName config) (contexts config) with
      | None => inr (jsonError 412 "no_current_context")
      | Some ctx =>
          match cluster ← find_by cl_name (cx_cluster ctx) (clusters config); find_by n_name name (cl_nodes cluster) with
          | None => inr (jsonError 404 "unknown_node")
          | Some node =>
              if bool_decide (n_endpoint node = LOCAL_NODE_ENDPOINT) || bool_decide (resolveNodeKind node = KAgent) then inl name
              else inr (jsonError 400 "node_not_dispatchable")
          end
      end
  end.

(** ** allowlist.ts *)

Inductive ProcedureType := TQuery | TMutation | TSubscription.
#[export] Instance ProcedureType_eq : EqDecision ProcedureType.
Proof. solve_decision. Defined.

Record ConsoleAllowlistEntry := mkEntry { en_type : ProcedureType; en_project : Json → Json; en_precheck : bool }.

Definition CONSOLE_ALLOWLIST : list (string * ConsoleAllowlistEntry) :=
  [("env", mkEntry TQuery (λ out, redactDeep (maskEnvSecrets out)) false);
   ("nodeFacts", mkEntry TQuery redactDeep false);
   ("nodeList", mkEntry TQuery (λ out, redactDeep (maskCliEnv out)) false);
   ("nodeTest", mkEntry TQuery (λ out, redactDeep (maskCliEnv out)) false);
   ("serverLogs", mkEntry TSubscription (λ out, redactDeep (maskLineSecrets out)) false);
   ("serverStatus", mkEntry TQuery (λ out, redactDeep (maskArgvArrays out)) false);
   ("serverStop", mkEntry TMutation (λ out, out) true);
   ("workloadDescribe", mkEntry TQuery (λ out, redactDeep (maskArgvArrays out)) false);
   ("workloadList", mkEntry TQuery (λ out, redactDeep (maskArgvArrays out)) false);
   ("workloadsDir", mkEntry TQuery redactDeep false)].

Definition trpcNames : list string := CONSOLE_ALLOWLIST.*1.

Definition entry_of (name : string) : option ConsoleAllowlistEntry :=
  snd <$> find (λ e, bool_decide (e.1 = name)) CONSOLE_ALLOWLIST.

Definition is_mutation (name : string) : bool :=
  match entry_of name with Some e => bool_decide (en_type e = TMutation) | None => false end.

(** [/^[A-Za-z0-9][A-Za-z0-9._-]*$/] *)
Definition workload_name (s : string) : bool :=
  match s with String c s' => alnum c && all_chars name_tail s' | EmptyString => false end.

(** [serverStopInput]: the workload. *)
Definition serverStopInput (input : Json) : option string :=
  match input with
  | JObj fields =>
      match json_field fields "workload" with
      | Some (JStr w) =>
          if negb (workload_name w) then None
          else
            match json_field fields "graceSeconds" with
            | None => Some w
            | Some (JNum n) => if (0 <? n) && (n <=? 60) then Some w else None
            | Some _ => None
            end
      | _ => None
      end
  | _ => None
  end.

(** What is asked: the store, the configuration, the backend with the node that
    is bound to the call. *)
Inductive Ask :=
| QLookup (name : string)
| QConfig
| QBackend (node name : string) (input : Json).

Inductive BackendAnswer := BValue (v : Json) | BStream (items : list Json).

Definition QResp (q : Ask) : Type :=
  match q with QLookup _ => option Json | QConfig => Config | QBackend _ _ _ => BackendAnswer end.

Inductive Obs := OAsk (q : Ask) (r : result (QResp q)).

Definition json_string_is (v : option Json) (s : string) : bool := match v with Some (JStr x) => bool_decide (x = s) | _ => false end.

Section console.
Context {W : Type} (oracle : ∀ q : Ask, W → W * result (QResp q)) (has_procedure : string → bool).

Record St := mkSt { world : W; obs : list Obs }.
Notation M := (eff St).

Definition ask (q : Ask) : M (QResp q) := λ s,
  let '(w, r) := oracle q (world s) in (mkSt w (obs s ++ [OAsk q r]), r).

Definition serverStopPrecheck (node : string) (input : Json) : M unit :=
  match serverStopInput input with
  | None => throw "bad_input"
  | Some workload =>
      manifest ← try_catch (ask (QLookup workload)) (λ _, throw "workload_lookup_failed");
      match manifest with
      | None | Some JNull => throw "workload_not_found"
      | Some (JObj fields) =>
          if negb (json_string_is (json_field fields "kind") "ModelRun") then throw "unsupported_workload_kind"
          else
            let spec := match json_field fields "spec" with Some (JObj spec) => spec | _ => [] end in
            if negb (json_string_is (json_field spec "node") node) then throw "workload_node_mismatch"
            else
              match json_field spec "workers" with
              | Some (JArr (_ :: _)) => throw "multi_node_workload"
              | _ => mret tt
              end
      | Some _ => throw "unsupported_workload_kind"
      end
  end.

(** The body of [wrapQuery], [wrapMutation] and [wrapSubscription], for the
    procedure that tRPC calls; what a subscription yields is an array here. *)
Definition call_procedure (node name : string) (input : Json) : M Json :=
  match entry_of name with
  | None => throw "NOT_FOUND"
  | Some entry =>
      (if en_precheck entry then serverStopPrecheck node input else mret tt);;
      if negb (has_procedure name) then throw ("Console backend has no procedure " +:+ name)
      else
        answer ← ask (QBackend node name input);
        match answer with
        | BValue v => mret (en_project entry v)
        | BStream items => mret (JArr (en_project entry <$> items))
        end
  end.

(** Every call runs, whatever became of the others. *)
Fixpoint call_all (node : string) (calls : list (string * Json)) : M (list (result Json)) :=
  match calls with
  | [] => mret []
  | (name, input) :: rest =>
      r ← (λ s, let '(s', r) := call_procedure node name input s in (s', Ok r));
      rs ← call_all node rest;
      mret (r :: rs)
  end.
End console.

Arguments St W : clear implicits.

(** ** tRPC

    Which procedures a request calls with which inputs, and what it answers from
    their results.  A router has no other procedures than its own, and calls no
    mutation but for POST. *)

Class Trpc := {
  trpc_calls : string → string → option string → option string → list (string * Json);   (** method, path, batch, input *)
  trpc_body : list (string * Json) → list (result Json) → Json;
  trpc_listed method path batch input name v : (name, v) ∈ trpc_calls method path batch input → name ∈ trpcNames;
  trpc_post method path batch input name v :
    (name, v) ∈ trpc_calls method path batch input → is_mutation name = true → method = "POST"
}.

(** ** server.ts *)

Section server.
Context {W : Type} (oracle : ∀ q : Ask, W → W * result (QResp q)) (has_procedure : string → bool) `{Trpc}.
Context (decodeURIComponent : string → option string) (json_parse : string → result Json).
(** The files that exist and are files. *)
Context (is_file : list string → bool) (distPath : list string) (session : ConsoleSession) (port : Z).
Notation M := (eff (St W)).

Definition fetchRequestHandler (node method path : string) (batch input : option string) : M Response :=
  let calls := trpc_calls method path batch input in
  results ← call_all oracle has_procedure node calls;
  mret (RTrpc (trpc_body calls results)).

Definition trpcErrorRow (not_supported : bool) (message : string) : Json :=
  let row code name status :=
    JObj [("error", JObj [("code", JNum code); ("data", JObj [("code", JStr name); ("httpStatus", JNum status)]); ("message", JStr message)])] in
  if not_supported then row (-32005) "METHOD_NOT_SUPPORTED" 405 else row (-32000) "BAD_REQUEST" 400.

Fixpoint remap (fields : list (string * Json)) (keptIdx : list nat) (newIndex : nat) : list (string * Json) :=
  match keptIdx with
  | [] => []
  | i :: rest =>
      match json_field fields (pretty (Z.of_nat i)) with
      | Some v => [(pretty (Z.of_nat newIndex), v)]
      | None => []
      end ++ remap fields rest (S newIndex)
  end.

Definition remapBatchInput (rawInput : string) (keptIdx : list nat) : option Json :=
  match json_parse rawInput with
  | Ok (JObj fields) => Some (JObj (remap fields keptIdx 0))
  | _ => None
  end.

(** The names and indices that stay. *)
Fixpoint filterNonMutationSegments (names : list string) (i : nat) : list string * list nat :=
  match names with
  | [] => ([], [])
  | name :: rest =>
      let '(kept, keptIdx) := filterNonMutationSegments rest (S i) in
      if is_mutation name then (kept, keptIdx) else (name :: kept, i :: keptIdx)
  end.

Fixpoint combine_rows (method : string) (names : list string) (rows : list Json) : list Json :=
  match names with
  | [] => []
  | name :: rest =>
      if is_mutation name then
        trpcErrorRow true ("Unsupported " +:+ method +:+ "-request to mutation procedure at path " +:+ quote name)
          :: combine_rows method rest rows
      else
        match rows with
        | row :: rows' => row :: combine_rows method rest rows'
        | [] => trpcErrorRow false "Cannot mix procedure types in call: query, mutation" :: combine_rows method rest []
        end
  end.

Definition handleBatchWithMutation (req : Request) (names : list string) (node : string) : M (option Response) :=
  if bool_decide (rq_method req = "POST") || negb (bool_decide (rq_batch req = Some "1")) || negb (existsb is_mutation names)
  then mret None
  else
    let '(kept, keptIdx) := filterNonMutationSegments names 0 in
    let input :=
      match rq_input req, kept with
      | Some raw, _ :: _ => (λ v, Some (stringify v)) <$> remapBatchInput raw keptIdx
      | input, _ => Some input
      end in
    match input with
    | None => mret None
    | Some input =>
        rows ← match kept with
               | [] => mret []
               | _ =>
                   inner ← fetchRequestHandler node (rq_method req) (join ","%char kept) (rq_batch req) input;
                   mret (match inner with RTrpc (JArr rows) => rows | _ => [] end)
               end;
        mret (Some (RRows (combine_rows (rq_method req) names rows)))
    end.

Definition handleApi (req : Request) : M Response :=
  match checkConsoleSameOrigin req, checkConsoleSession req session with
  | Some denied, _ | None, Some denied => mret denied
  | None, None =>
      match parseConsoleNodePath (rq_pathname req) with
      | PNone => mret (jsonError 404 "not_found")
      | PBad => mret (jsonError 400 "bad_node")
      | POk route_node endpoint procPath =>
          match checkConsoleTrpcPath decodeURIComponent procPath trpcNames with
          | inr denied => mret denied
          | inl names =>
              loaded ← (λ s, let '(s', r) := ask oracle QConfig s in (s', Ok r));
              match validateConsoleNode route_node loaded with
              | inr denied => mret denied
              | inl node =>
                  batched ← handleBatchWithMutation req names node;
                  match batched with
                  | Some response => mret response
                  | None => fetchRequestHandler node (rq_method req) procPath (rq_batch req) (rq_input req)
                  end
              end
          end
      end
  end.

(** [extname(path) !== ""]: a dot after the first character of the last segment. *)
Definition has_extension (path : string) : bool :=
  match basename path with String _ rest => negb (char_free "."%char rest) | EmptyString => false end.

Definition serveStatic (pathname : string) : Response :=
  match decodeURIComponent pathname with
  | None => jsonError 403 "bad_path"
  | Some decoded =>
      if occurs ".." decoded || negb (char_free backslash decoded) || negb (char_free "000"%char decoded) then jsonError 403 "bad_path"
      else
        let target := resolve_segments (distPath ++ split "/"%char decoded) in
        if negb (bool_decide (take (length distPath) target = distPath)) then jsonError 403 "bad_path"
        else if is_file target then RFile target
        else if has_extension decoded then jsonError 404 "not_found"
        else if is_file (distPath ++ ["index.html"]) then RIndex (cs_setCookie session)
        else jsonError 404 "not_found"
  end.

(** The [fetch] of the server. *)
Definition handle (req : Request) : M Response :=
  match checkConsoleHost req port with
  | Some denied => mret denied
  | None =>
      if bool_decide (rq_pathname req = "/api") || startsWith "/api/" (rq_pathname req) then handleApi req
      else mret (serveStatic (rq_pathname req))
  end.
End server.
