(* ===== verification/ProxyMeta.v ===== *)
(** * Inference proxy: what a route's slots are kept under

    Of packages/core/src/openaiProxy.ts, kvstore/workloadEpoch.ts,
    kvstore/slotPath.ts, kvstore/trailer.ts, kvstore/config.ts: the epoch, the
    context window and the weights of the workload behind a route, where its
    slots lie, the trailers beside them, and the budgets of the environment. *)

From S2P Require Import Prelude JsMap JsText JsJson JsValues ConsoleMask AnthropicRequest KvStore ProxyRoutes HostSidecars.
From Stdlib Require Import Ascii QArith.

#[local] Open Scope string_scope.
#[local] Open Scope list_scope.
#[local] Open Scope Z_scope.

Module Meta.
Import Routes.

(** What the proxy reads of a launch record ([ServerState]). *)
Record ServerState := mkServerState {
  ss_rel : string; ss_startedAt : string; ss_extraArgs : list string; ss_slotSavePath : option string
}.

(** ** Arguments *)

Definition inlineFlagInteger (token : string) (flags : list string) : option Z :=
  let fix go flags :=
    match flags with
    | [] => None
    | flag :: rest =>
        if startsWith (flag +:+ "=") token
        then match parseInt (JsText.slice (String.length flag + 1) token) with Some n => Some n | None => go rest end
        else go rest
    end in go flags.

Fixpoint readIntegerAfterFlag (extraArgs flags : list string) : option Z :=
  match extraArgs with
  | [] => None
  | token :: rest =>
      if bool_decide (token ∈ flags) then
        match rest with
        | ((String _ _) as value) :: _ => match parseInt value with Some n => Some n | None => readIntegerAfterFlag rest flags end
        | _ => readIntegerAfterFlag rest flags
        end
      else match inlineFlagInteger token flags with Some n => Some n | None => readIntegerAfterFlag rest flags end
  end.

Definition parseContextWindow (extraArgs : option (list string)) (fallback : Z) : Z :=
  default fallback (args ← extraArgs; readIntegerAfterFlag args ["-c"; "--ctx-size"]).

Definition absoluteOrNull (value : string) : option string := if startsWith "/" value then Some value else None.

Fixpoint parseAbsoluteSlotSavePath (extraArgs : list string) : option string :=
  match extraArgs with
  | [] => None
  | token :: rest =>
      if bool_decide (token = "--slot-save-path") then match rest with value :: _ => absoluteOrNull value | [] => None end
      else if startsWith "--slot-save-path=" token then absoluteOrNull (JsText.slice 17 token)
      else parseAbsoluteSlotSavePath rest
  end.

(** ** Weights *)

(** [/(?:^|[-_/])tag(?:$|[-_/])/i] *)
Fixpoint slashes (s : string) : string :=
  match s with
  | EmptyString => EmptyString
  | String c s' => String (if bool_decide (c = "-"%char ∨ c = "_"%char) then "/"%char else c) (slashes s')
  end.
Definition has_segment (tag model : string) : bool := bool_decide (tag ∈ JsText.split "/"%char (slashes (lower model))).

(** [/tag_[A-Z0-9_]+$/i] *)
Fixpoint ends_tagged (tag s : string) : bool :=
  (startsWith tag s && match JsText.slice (String.length tag) s with EmptyString => false | rest => all_chars is_word rest end)
  || match s with EmptyString => false | String _ s' => ends_tagged tag s' end.

Definition gguf_stem (model : string) : option string := KvStore.strip_suffix ".gguf" (lower model).

Definition has_quant (bits : string) (model : string) : bool :=
  match gguf_stem model with Some stem => ends_tagged ("q" +:+ bits +:+ "_") stem | None => false end
  || has_segment ("q" +:+ bits) model.

Definition quantBitsFromModelId (model : string) : Z :=
  if match KvStore.strip_suffix "q8_0.gguf" (lower model) with Some _ => true | None => false end || has_segment "q8" model then 8
  else if has_quant "6" model then 6 else if has_quant "5" model then 5 else if has_quant "4" model then 4
  else if has_quant "3" model then 3 else if has_quant "2" model then 2 else 0.

(** ** The epoch of a workload *)

Section epoch.
Context (sha1 : string → string).

Definition computeWorkloadEpoch (startedAt rel : string) : string := sha1 (startedAt +:+ "|" +:+ rel).

Definition readWorkloadEpoch (server : option ServerState) (host : option HostState) : option string :=
  match server with
  | Some s => Some (computeWorkloadEpoch (ss_startedAt s) (ss_rel s))
  | None =>
      h ← host; rel ← head (ho_modelAliases h); Some (computeWorkloadEpoch (ho_startedAt h) rel)
  end.

Record KvMetadata := mkMeta {
  md_model : string; md_workload : string; md_host : string; md_port : Z; md_quantBits : Z; md_ctxSize : Z;
  md_workloadEpoch : string; md_slotDir : string
}.

(** The window set for the family of a model. *)
Context (qwen_ctx gemma_ctx : string).

Definition ctxForModel (rel : string) : string :=
  if startsWith "Qwen" (default "" (head (JsText.split "/"%char rel))) then qwen_ctx else gemma_ctx.

Definition resolveRouteKvMetadata (route : option Route) (server : option ServerState) (host : option HostState) : option KvMetadata :=
  r ← route;
  if bool_decide (is_Some (rt_peer r)) || negb (isRouteKvEligible r) then None else
  workloadEpoch ← readWorkloadEpoch server host;
  let rel := match server with Some s => ss_rel s | None => rt_model r end in
  let ctxSize := parseContextWindow (ss_extraArgs <$> server) (default 32768 (parseInt (ctxForModel rel))) in
  slotDir ← match rt_kind r with
            | ModelRun => match server ≫= ss_slotSavePath with
                          | Some path => Some path
                          | None => parseAbsoluteSlotSavePath (default [] (ss_extraArgs <$> server))
                          end
            | ModelHost => host ≫= ho_slotSavePath
            end;
  Some (mkMeta (rt_model r) (rt_workload r) (rt_host r) (rt_port r) (quantBitsFromModelId rel) ctxSize workloadEpoch slotDir).

End epoch.

(** The epoch in the key of a cached response; a peer's is made up of what its node tells. *)
Definition responseCacheEpochForRoute (route : Route) (workloadEpoch : option string) : option string :=
  match rt_peer route with
  | None => workloadEpoch
  | Some peer =>
      let peerRevision := match revision peer with Some ((String _ _) as r) => ":" +:+ r | _ => "" end in
      Some ("peer:" +:+ targetNodeId peer +:+ ":" +:+ rt_model route +:+ peerRevision)
  end.

(** ** Trailers *)

Definition EXT_FLAG_TOOL_MAP : Z := 1.
Definition EXT_FLAG_SESSION_TITLE : Z := 2.

Record KvTrailer := mkTrailer { tr_extFlags : Json; tr_toolMap : option ToolMap; tr_sessionTitle : option string }.

Definition trailerPath (slotFile : string) : string := slotFile +:+ ".trailer.json".

(** The texts of a tool map, [None] when a value is no text. *)
Definition tool_map_of (fields : list (string * Json)) : option ToolMap :=
  mapM (λ f : string * Json, match f.2 with JStr s => Some (f.1, s) | _ => None end) fields.

(** [isValidTrailer]; an array for a tool map holds texts by index. *)
Definition validTrailer (parsed : Json) : option KvTrailer :=
  match parsed with
  | JObj _ =>
      let field := opt_get (Some parsed) in
      extFlags ← match field "extFlags" with Some (JNum n) => Some (JNum n) | Some JNaN => Some JNaN | _ => None end;
      toolMap ← match field "toolMap" with
                | None => Some None
                | Some (JObj fs) => Some <$> tool_map_of fs
                | Some (JArr l) => Some <$> tool_map_of (imap (λ i v, (pretty (Z.of_nat i), v)) l)
                | _ => None
                end;
      sessionTitle ← match field "sessionTitle" with
                     | None => Some None | Some (JStr s) => Some (Some s) | _ => None end;
      Some (mkTrailer extFlags toolMap sessionTitle)
  | _ => None
  end.

(** The file's text, when it can be read. *)
Definition readTrailer (json_parse : string → option Json) (file : option string) : option KvTrailer :=
  text ← file; parsed ← json_parse text; validTrailer parsed.

Definition trailer_json (t : KvTrailer) : Json :=
  obj [("extFlags", Some (tr_extFlags t));
       ("toolMap", (λ m : ToolMap, JObj ((λ f : string * string, (f.1, JStr f.2)) <$> m)) <$> tr_toolMap t);
       ("sessionTitle", JStr <$> tr_sessionTitle t)].

(** ** Budgets *)

(** [Number.parseInt(raw, 10)], at least 1. *)
Definition parsePositiveInt (raw : option string) (fallback : Z) : Z :=
  match raw with
  | None | Some EmptyString => fallback
  | Some text => match parseInt text with Some n => if n <? 1 then fallback else n | None => fallback end
  end.

Definition kvWorkloadBudgetBytes (raw : option string) : Z := parsePositiveInt raw 8192 * 1024 * 1024.
Definition responseCacheBudgetBytes (raw : option string) : Z := parsePositiveInt raw 1024 * 1024 * 1024.
Definition responseCacheMaxEntryBytes (raw : option string) : Z := parsePositiveInt raw 8 * 1024 * 1024.
Definition upstreamTimeoutMs (raw : option string) : Z := parsePositiveInt raw 900000.

(** [Number.parseFloat], [None] for what is not finite; above 0. *)
Definition responseCacheTtlMs (parse_float : string → option Q) (raw : option string) : Q :=
  let dflt := (24 * 60 * 60 * 1000)%Q in
  match raw with
  | None | Some EmptyString => dflt
  | Some text => match parse_float text with
                 | Some h => if Qle_bool h 0 then dflt else (h * 60 * 60 * 1000)%Q
                 | None => dflt
                 end
  end.

End Meta.
