(* ===== verification/OpenaiProxy.v ===== *)
(** * Inference proxy

    packages/core/src/openaiProxy.ts, [proxyOpenAI] and what it calls: a request
    is read and routed, answered from the response cache or sent to its
    upstream with a warm KV slot, and its answer is remembered and translated.
    Every wait and every look outside (the upstream, its slots, the clock, the
    files, the database's refusals) is a [Call] that the environment answers,
    which may change what requests share as it does. *)

From S2P Require Import Prelude JsMap JsSort JsText JsJson JsValues ConsoleMask EvictStore KvStore ResponseCache SlotAllocator AnthropicStream AnthropicRequest ProxyBody ResponsesApi ProxyRoutes HostSidecars ProxyMeta.
From Stdlib Require Import Ascii QArith.
Import ProxyBody Responses Routes Meta.
Import (hints) ResponseCache KvStore.

#[local] Open Scope string_scope.
#[local] Open Scope list_scope.
#[local] Open Scope Z_scope.

Module Proxy.

(** ** Requests and responses *)

Notation Headers := (list (string * string)).

Record Request := mkRequest {
  q_method : string; q_path : string; q_search : string; q_headers : Headers   (* names in lower case *)
}.

(** A body: none, a text, or a text after which reading fails. *)
Inductive Body := NoBody | Text (s : string) | Failing (s : string).

(** [r_completion] is what the translator promised about a stream's end. *)
Record Response := mkResponse { r_status : Z; r_headers : Headers; r_body : Body; r_completion : option bool }.

Inductive SentBody := SendNothing | SendText (s : string) | SendStream.

Record Sent := mkSent {
  f_target : string; f_method : string; f_headers : Headers; f_body : SentBody; f_tls : option (string * option string);
  f_timeoutMs : Z
}.

Definition MAX_JSON_BODY_BYTES : Z := 10 * 1024 * 1024.

Definition content_type (headers : Headers) : option string := jm_get headers "content-type".

Definition isJsonContentType (contentType : option string) : bool :=
  match contentType with
  | Some ((String _ _) as t) => occurs "application/json" (lower t) || occurs "+json" (lower t)
  | _ => false
  end.

Definition is_event_stream (contentType : option string) : bool :=
  match contentType with Some t => startsWith "text/event-stream" (lower t) | None => false end.

Definition byteLength (s : string) : Z := Z.of_nat (String.length s).

(** [s.length]: one unit for a character, two for one beyond the basic plane. *)
Fixpoint units (s : string) : Z :=
  match s with
  | EmptyString => 0
  | String c s' => let b := Z.of_N (N_of_ascii c) in
                   (if (128 <=? b) && (b <? 192) then 0 else if 240 <=? b then 2 else 1) + units s'
  end.

(** [Response.json(v, { status, headers })] *)
Definition json_response (v : Json) (status : Z) (headers : Headers) : Response :=
  mkResponse status (if jm_has headers "content-type" then headers else jm_set headers "content-type" "application/json")
    (Text (stringify v)) None.

Definition text_response (text : string) (status : Z) : Response := mkResponse status [] (Text text) None.

Definition is_ok_status (status : Z) : bool := (200 <=? status) && (status <=? 299).

Definition error_json (message type : string) : Json :=
  obj [("error", Some (obj [("message", Some (JStr message)); ("type", Some (JStr type))]))].

Definition anthropicTranslationErrorResponse (message : string) : Response :=
  json_response (error_json message "anthropic_translation_error") 400 [].
Definition responsesTranslationErrorResponse (message : string) (status : Z) : Response :=
  json_response (error_json message "responses_translation_error") status [].

Definition modelNotRoutedResponse (model : string) (knownModels : list string) : Response :=
  json_response
    (obj [("error", Some (obj [
       ("message", Some (JStr ("model '" +:+ model +:+ "' is not routed by this proxy; known models: " +:+
          (match knownModels with [] => "(none)" | _ => String.concat ", " knownModels end))));
       ("type", Some (JStr "invalid_request_error")); ("code", Some (JStr "model_not_routed"));
       ("param", Some (JStr "model")); ("known_models", Some (JArr (JStr <$> knownModels)))]))]) 404 [].

Definition cross_node_response : Response :=
  json_response (obj [("error", Some (JStr "cross-node slot ops not supported"))]) 400 [].

Definition isOversizedJsonBody (req : Request) : bool :=
  match jm_get (q_headers req) "content-length" with
  | Some ((String _ _) as text) => match parseInt text with Some n => MAX_JSON_BODY_BYTES <? n | None => false end
  | _ => false
  end.

Definition HOP_HEADERS : list string := ["host"; "connection"; "content-length"; "authorization"].
Definition forwarded_headers (headers : Headers) : Headers := filter (λ h, h.1 ∉ HOP_HEADERS) headers.

Definition sanitizedResponseHeaders (upstream : Response) : Headers :=
  filter (λ h, h.1 ∉ ["transfer-encoding"; "connection"]) (r_headers upstream).

(** ** What requests share *)

Record Shared := mkShared {
  sh_kv : KvWorld; sh_alloc : gmap string SlotAllocator.Allocator;
  sh_cache : gmap ResponseCache.ResponseCacheLookup ResponseCache.ResponseCacheEntry; sh_routes : RouteState
}.

(** ** The context of a request *)

Record KvRequestState := mkKv {
  kr_meta : KvMetadata; kr_sha : string; kr_prefixMetric : Z; kr_shouldPersist : bool;
  kr_warmHitSha : option string; kr_warmHitFile : option string; kr_warmHitLease : option (Z * nat);
  kr_expectedToken : option string; kr_enforceFirstToken : bool
}.

Record CacheRequestState := mkCacheState { cr_lookup : ResponseCache.ResponseCacheLookup; cr_requestBodyBytes : Z }.

Record ProxyContext := mkContext {
  x_target : string; x_pathname : string; x_search : string; x_headers : Headers; x_body : SentBody;
  x_bodyText : option string; x_isAnthropic : bool; x_anthropicModel : option string; x_anthropicRequest : option Json;
  x_isResponsesApi : bool; x_route : option (Route * string); x_kv : option KvRequestState;
  x_responseCache : option CacheRequestState; x_hit : option Response; x_canonicalBody : option string;
  x_clientRequestedStream : option bool
}.

Definition with_route (r : Route * string) (x : ProxyContext) : ProxyContext :=
  mkContext r.2 (x_pathname x) (x_search x) (x_headers x) (x_body x) (x_bodyText x) (x_isAnthropic x) (x_anthropicModel x)
    (x_anthropicRequest x) (x_isResponsesApi x) (Some r) (x_kv x) (x_responseCache x) (x_hit x) (x_canonicalBody x)
    (x_clientRequestedStream x).
(** [context.bodyText] and [context.init.body]. *)
Definition with_body (text : string) (x : ProxyContext) : ProxyContext :=
  mkContext (x_target x) (x_pathname x) (x_search x) (x_headers x) (SendText text) (Some text) (x_isAnthropic x)
    (x_anthropicModel x) (x_anthropicRequest x) (x_isResponsesApi x) (x_route x) (x_kv x) (x_responseCache x) (x_hit x)
    (x_canonicalBody x) (x_clientRequestedStream x).
Definition with_sent (body : SentBody) (x : ProxyContext) : ProxyContext :=
  mkContext (x_target x) (x_pathname x) (x_search x) (x_headers x) body (x_bodyText x) (x_isAnthropic x)
    (x_anthropicModel x) (x_anthropicRequest x) (x_isResponsesApi x) (x_route x) (x_kv x) (x_responseCache x) (x_hit x)
    (x_canonicalBody x) (x_clientRequestedStream x).
Definition with_kv (kv : option KvRequestState) (x : ProxyContext) : ProxyContext :=
  mkContext (x_target x) (x_pathname x) (x_search x) (x_headers x) (x_body x) (x_bodyText x) (x_isAnthropic x)
    (x_anthropicModel x) (x_anthropicRequest x) (x_isResponsesApi x) (x_route x) kv (x_responseCache x) (x_hit x)
    (x_canonicalBody x) (x_clientRequestedStream x).
Definition with_cache (c : CacheRequestState) (x : ProxyContext) : ProxyContext :=
  mkContext (x_target x) (x_pathname x) (x_search x) (x_headers x) (x_body x) (x_bodyText x) (x_isAnthropic x)
    (x_anthropicModel x) (x_anthropicRequest x) (x_isResponsesApi x) (x_route x) (x_kv x) (Some c) (x_hit x)
    (x_canonicalBody x) (x_clientRequestedStream x).
Definition with_hit (r : Response) (x : ProxyContext) : ProxyContext :=
  mkContext (x_target x) (x_pathname x) (x_search x) (x_headers x) (x_body x) (x_bodyText x) (x_isAnthropic x)
    (x_anthropicModel x) (x_anthropicRequest x) (x_isResponsesApi x) (x_route x) (x_kv x) (x_responseCache x) (Some r)
    (x_canonicalBody x) (x_clientRequestedStream x).
Definition with_canonical (body : string) (x : ProxyContext) : ProxyContext :=
  mkContext (x_target x) (x_pathname x) (x_search x) (x_headers x) (x_body x) (x_bodyText x) (x_isAnthropic x)
    (x_anthropicModel x) (x_anthropicRequest x) (x_isResponsesApi x) (x_route x) (x_kv x) (x_responseCache x) (x_hit x)
    (Some body) (x_clientRequestedStream x).
(** [context.clientRequestedStream ??= b] *)
Definition with_stream (b : bool) (x : ProxyContext) : ProxyContext :=
  mkContext (x_target x) (x_pathname x) (x_search x) (x_headers x) (x_body x) (x_bodyText x) (x_isAnthropic x)
    (x_anthropicModel x) (x_anthropicRequest x) (x_isResponsesApi x) (x_route x) (x_kv x) (x_responseCache x) (x_hit x)
    (x_canonicalBody x) (Some (default b (x_clientRequestedStream x))).

Definition engine_of (x : ProxyContext) : string := default "" (rt_engine ∘ fst <$> x_route x).
Definition is_omlx (x : ProxyContext) : bool := bool_decide (engine_of x = "omlx").
Definition is_peer (x : ProxyContext) : bool := match x_route x with Some (r, _) => bool_decide (is_Some (rt_peer r)) | None => false end.

(** ** Looking outside *)

(** The slots' operations name the upstream, the slot, and the model for oMLX. *)
Record SlotAction := mkAction { sa_endpoint : string; sa_slot : Z; sa_file : string; sa_model : option string }.

Inductive Call :=
| CReadRequest                                  (* the request's body; it can fail *)
| CPause                                        (* another wait *)
| CMachine | CServerState (workload : string) | CHostState (workload : string)
| CNow | CEnv (name : string)
| CDb                                           (* whether the database refuses the statement *)
| CSupports (endpoint : string) (save : bool)   (* the capabilities of an upstream *)
| CRestore (a : SlotAction) | CSave (a : SlotAction)
| CReadFile (path : string)                     (* [None] when missing or unreadable *)
| CWriteTrailer (path text : string)            (* whether it was written *)
| CMkdir (path : string) | CSize (path : string)
| CFetch (f : Sent) | CAborted.

Record RestoreResult := mkRestore { rr_ok : bool; rr_epoch : option string }.

Definition Resp (c : Call) : Type :=
  match c with
  | CReadRequest => result string
  | CPause => unit
  | CMachine => Machine
  | CServerState _ => option ServerState
  | CHostState _ => option HostState
  | CNow => Z
  | CEnv _ => option string
  | CDb => bool
  | CSupports _ _ => bool
  | CRestore _ => RestoreResult
  | CSave _ => bool
  | CReadFile _ => option string
  | CWriteTrailer _ _ => bool
  | CMkdir _ => bool
  | CSize _ => option Z
  | CFetch _ => result Response
  | CAborted => bool
  end.

(** What a request was seen to do. *)
Inductive Obs :=
| OCall (c : Call)
| OReserved (sha : string) | OUnreserved (sha : string)
| OAcquired (workload : string) (h : nat) | OReleased (workload : string) (h : nat)
| OStored (e : ResponseCache.ResponseCacheEntry)
| OServed (e : ResponseCache.ResponseCacheEntry).

Section proxy.
Context {E : Type} (answer : ∀ c : Call, E → Shared → E * Shared * Resp c).
(** The language and its libraries. *)
Context (json_parse : string → option Json) (sha1 : string → string) (pow_half : Q → Q) (parse_float : string → option Q).
Context {Decoder : Type} (new_decoder : Decoder) (decode : Decoder → list Byte.byte → Decoder * string).
Context (url_of : string → option Url) (localeCompare : string → string → Z).
(** Which files cannot be unlinked or examined, and what others do within an
    eviction and a sweep. *)
Context (unlink_error stat_error : string → option string) (join : string → string → string)
        (readdirSync : string → eff KvWorld (list string)) (others_files : KvWorld → KvWorld)
        (others_kv : gmap string KvEntryRow → gmap string KvEntryRow)
        (others_cache : gmap ResponseCache.ResponseCacheLookup ResponseCache.ResponseCacheEntry →
                        gmap ResponseCache.ResponseCacheLookup ResponseCache.ResponseCacheEntry).
(** The environment the process was given: [llamaEndpoint(resolved)] and the rest of [resolved]. *)
Context (default_endpoint serverAlias defaultModel qwen_ctx gemma_ctx : string).

Record St := mkSt { st_env : E; st_shared : Shared; st_ctx : ProxyContext; st_obs : list Obs }.
#[local] Notation M := (eff St).

Definition perform (c : Call) : M (Resp c) := λ s,
  let '(e, sh, r) := answer c (st_env s) (st_shared s) in (mkSt e sh (st_ctx s) (st_obs s ++ [OCall c]), Ok r).
Definition observe (o : Obs) : M unit := modify (λ s, mkSt (st_env s) (st_shared s) (st_ctx s) (st_obs s ++ [o])).
Definition on_ctx (f : ProxyContext → ProxyContext) : M unit :=
  modify (λ s, mkSt (st_env s) (st_shared s) (f (st_ctx s)) (st_obs s)).
Definition ctx : M ProxyContext := gets st_ctx.
Definition on_shared {A} (f : Shared → Shared * A) : M A := λ s,
  let '(sh, a) := f (st_shared s) in (mkSt (st_env s) sh (st_ctx s) (st_obs s), Ok a).
Definition on_kv {A} (f : KvWorld → KvWorld * A) : M A :=
  on_shared (λ sh, let '(kv, a) := f (sh_kv sh) in (mkShared kv (sh_alloc sh) (sh_cache sh) (sh_routes sh), a)).
Definition on_cache {A} (f : gmap ResponseCache.ResponseCacheLookup ResponseCache.ResponseCacheEntry →
    gmap ResponseCache.ResponseCacheLookup ResponseCache.ResponseCacheEntry * A) : M A :=
  on_shared (λ sh, let '(c, a) := f (sh_cache sh) in (mkShared (sh_kv sh) (sh_alloc sh) c (sh_routes sh), a)).
Definition on_routes {A} (f : RouteState → RouteState * A) : M A :=
  on_shared (λ sh, let '(r, a) := f (sh_routes sh) in (mkShared (sh_kv sh) (sh_alloc sh) (sh_cache sh) r, a)).

(** [try { m } finally { f }] *)
Definition finally {A} (m : M A) (f : M unit) : M A := λ s,
  let '(s1, r) := m s in
  match f s1 with (s2, Ok _) => (s2, r) | (s2, Err e) => (s2, Err e) end.

(** A statement the database can refuse. *)
Definition statement {A} (m : M A) : M A := refused ← perform CDb; if refused : bool then throw "SQLITE_BUSY" else m.
(** [storage.safeWrite(fn)]: [None] when [fn] threw. *)
Definition safeWrite {A} (m : M A) : M (option A) := try_catch (a ← m; mret (Some a)) (λ _, mret None).

(** ** Slots *)

Definition allocator_of (sh : Shared) (workload : string) : SlotAllocator.Allocator :=
  default (SlotAllocator.mkAllocator 1 false ∅ []) (sh_alloc sh !! workload).
Definition set_allocator (workload : string) (a : SlotAllocator.Allocator) (sh : Shared) : Shared :=
  mkShared (sh_kv sh) (<[workload := a]> (sh_alloc sh)) (sh_cache sh) (sh_routes sh).

(** [slotAllocatorFor(runtime, workload).acquire()]: the slot, and the handle that gives it back. *)
Definition acquire (workload : string) : M (option (Z * nat)) :=
  lease ← on_shared (λ sh,
    let a := allocator_of sh workload in
    let '(a', slot) := SlotAllocator.acquire a in
    (set_allocator workload a' sh, (λ s, (s, length (SlotAllocator.handles a))) <$> slot));
  match lease with
  | Some (slot, h) => observe (OAcquired workload h);; mret (Some (slot, h))
  | None => mret None
  end.

Definition release_lease (workload : string) (lease : Z * nat) : M unit :=
  on_shared (λ sh, (set_allocator workload (SlotAllocator.release lease.2 (allocator_of sh workload)) sh, tt));;
  observe (OReleased workload lease.2).

Definition meta_endpoint (md : KvMetadata) : string := endpoint_of (md_host md) (md_port md).

(** [slotClientFor]: [new URL] throws on what is no address. *)
Definition slotClientFor (md : KvMetadata) : M string :=
  match url_of (meta_endpoint md) with Some _ => mret (meta_endpoint md) | None => throw "TypeError" end.

(** [registry.release(sha)], best effort. *)
Definition unreserve (sha : string) : M unit :=
  observe (OUnreserved sha);; safeWrite (statement (on_kv (KvStore.release sha)));; mret tt.

Definition delete_row (sha file : string) : M unit :=
  safeWrite (statement (on_kv (KvStore.delete_entry unlink_error sha (Some file))));; mret tt.
Definition try_delete_row (sha : string) (file : option string) : M bool :=
  statement (on_kv (KvStore.tryDelete unlink_error sha file)).

(** ** Reading and routing the request *)

Definition new_context (target pathname search : string) (headers : Headers) : ProxyContext :=
  mkContext target pathname search headers SendNothing None false None None false None None None None None None.

Definition CHAT : string := "/v1/chat/completions".

(** [anthropicMessagesContext]; [Some] is an answer given at once. *)
Definition anthropicMessagesContext (req : Request) (headers : Headers) : M (option Response) :=
  if isOversizedJsonBody req then mret (Some (text_response "Payload Too Large" 413)) else
  body ← perform CReadRequest;
  match body with
  | Err _ => mret (Some (anthropicTranslationErrorResponse "anthropic request translation failed"))
  | Ok bodyText =>
      match json_parse bodyText with
      | None => mret (Some (anthropicTranslationErrorResponse "SyntaxError"))
      | Some incoming =>
          match translateAnthropicRequest json_parse incoming [] with
          | Err e => mret (Some (anthropicTranslationErrorResponse
                       (if bool_decide (e = "TypeError") then "anthropic request translation failed" else e)))
          | Ok translated =>
              let text := stringify translated in
              on_ctx (λ _, mkContext (default_endpoint +:+ CHAT +:+ q_search req) CHAT (q_search req) headers
                (SendText text) (Some text) true (is_str (opt_get (Some incoming) "model")) (Some incoming) false
                None None None None None None);; mret None
          end
      end
  end.

Definition responsesApiContext (req : Request) (headers : Headers) : M (option Response) :=
  if isOversizedJsonBody req then mret (Some (text_response "Payload Too Large" 413)) else
  body ← perform CReadRequest;
  match body with
  | Err _ => mret (Some (responsesTranslationErrorResponse "responses request translation failed" 400))
  | Ok bodyText =>
      match json_parse bodyText with
      | None => mret (Some (responsesTranslationErrorResponse "SyntaxError" 400))
      | Some incoming =>
          match translateResponsesRequest incoming with
          | Err e => mret (Some (responsesTranslationErrorResponse
                       (if bool_decide (e = "TypeError") then "responses request translation failed" else e) 400))
          | Ok translated =>
              let text := stringify translated in
              on_ctx (λ _, mkContext (default_endpoint +:+ CHAT +:+ q_search req) CHAT (q_search req) headers
                (SendText text) (Some text) false None None true None None None None None None);; mret None
          end
      end
  end.

Definition parseIncoming (req : Request) : M (option Response) :=
  let headers := forwarded_headers (q_headers req) in
  if bool_decide (q_path req = "/v1/messages") then anthropicMessagesContext req headers
  else if bool_decide (q_path req = "/v1/responses") then responsesApiContext req headers
  else on_ctx (λ _, new_context (default_endpoint +:+ q_path req +:+ q_search req) (q_path req) (q_search req) headers);;
       mret None.

Definition currentRouteMap : M (list (string * Route)) :=
  machine ← perform CMachine;
  on_routes (getRouteMap url_of localeCompare machine).

(** [resolveJsonBodyRoute] once the body is read. *)
Definition route_by_model : M (option Response) :=
  x ← ctx;
  match text ← x_bodyText x; requestedModelFromBody json_parse text with
  | Some ((String _ _) as model) =>
      map ← currentRouteMap;
      match routedEndpointForModel map model (x_pathname x) (x_search x) with
      | Some r => on_ctx (with_route r);; mret None
      | None =>
          routeMap ← currentRouteMap;
          if negb (bool_decide (routeMap = [])) && negb (bool_decide (model ∈ defaultTargetModelIds serverAlias defaultModel))
          then mret (Some (modelNotRoutedResponse model (js_sort cmp_text (jm_keys routeMap))))
          else mret None
      end
  | _ => mret None
  end.

Definition resolveJsonBodyRoute (req : Request) : M (option Response) :=
  x ← ctx;
  match x_bodyText x with
  | Some _ => route_by_model
  | None =>
      if isOversizedJsonBody req then mret (Some (text_response "Payload Too Large" 413)) else
      body ← perform CReadRequest;
      match body with
      | Err e => throw e
      | Ok bodyText =>
          if MAX_JSON_BODY_BYTES <? units bodyText then mret (Some (text_response "Payload Too Large" 413))
          else on_ctx (with_body bodyText);; route_by_model
      end
  end.

Definition resolveRoute (req : Request) : M (option Response) :=
  if bool_decide (q_method req ∈ ["GET"; "HEAD"]) then mret None
  else if isJsonContentType (content_type (q_headers req)) then resolveJsonBodyRoute req
  else on_ctx (with_sent SendStream);; mret None.

Definition stripVendorFieldsFromBody : M unit :=
  x ← ctx;
  match x_bodyText x with
  | Some ((String _ _) as text) =>
      match json_parse text with
      | Some parsed =>
          if isRecord (Some parsed) then
            let stripped := stringify (stripUserSuppliedOmlxVendorFields parsed) in
            if bool_decide (stripped = text) then mret tt else on_ctx (with_body stripped)
          else mret tt
      | None => mret tt
      end
  | _ => mret tt
  end.

(** [shouldUseKvPath], [shouldUseResponseCachePath] *)
Definition should_use_stores (req : Request) (x : ProxyContext) : option string :=
  if bool_decide (q_method req = "POST") && bool_decide (x_pathname x = CHAT) then x_bodyText x else None.

(** ** The response cache *)

Definition protocol_variant (x : ProxyContext) : ResponseCache.ProtocolVariant :=
  if x_isAnthropic x then ResponseCache.anthropic
  else if x_isResponsesApi x then ResponseCache.responses else ResponseCache.openai.

Definition body_text (r : Response) : result string :=
  match r_body r with NoBody => Ok "" | Text s => Ok s | Failing _ => Err "body failed" end.

(** [await upstream.clone().json()] *)
Definition body_json (r : Response) : M (option Json) :=
  perform CPause;;
  mret match body_text r with Ok text => json_parse text | Err _ => None end.

(** An upstream's [error] field is there. *)
Definition has_error (json : Json) : bool :=
  isRecord (Some json) && match opt_get (Some json) "error" with None | Some JNull => false | Some _ => true end.

Definition maybeSynthesizeOmlxSseResponse (upstream : Response) : M (option Response) :=
  x ← ctx;
  if negb (bool_decide (x_clientRequestedStream x = Some true)) || x_isAnthropic x || x_isResponsesApi x
     || negb (r_status upstream =? 200) || negb (isJsonContentType (content_type (r_headers upstream)))
  then mret None else
  parsed ← body_json upstream;
  match parsed with
  | None => mret None
  | Some json =>
      if has_error json then mret None else
      (if is_omlx x && bool_decide (is_Some (x_responseCache x)) && negb (bool_decide (is_Some (x_canonicalBody x)))
       then on_ctx (with_canonical (stringify json)) else mret tt);;
      now ← perform CNow;
      mret (Some (mkResponse (r_status upstream)
                    (jm_delete (jm_set (sanitizedResponseHeaders upstream) "content-type" "text/event-stream") "content-length")
                    (Text (jsonCompletionToSse now json)) None))
  end.

Definition cacheHitResponse (entry : ResponseCache.ResponseCacheEntry) : M Response :=
  let cachedBody := mkResponse (ResponseCache.statusCode entry) [("content-type", ResponseCache.contentType entry)]
                      (Text (ResponseCache.responseBody entry)) None in
  x ← ctx;
  if is_omlx x then
    synthesized ← maybeSynthesizeOmlxSseResponse cachedBody;
    mret (default cachedBody synthesized)
  else mret cachedBody.

(** oMLX is asked for whole answers. *)
Definition normalize_stream (x : ProxyContext) (parsedBody : Json) : M (string * Json) :=
  let text := default "" (x_bodyText x) in
  let host := match x_route x with Some (r, _) => bool_decide (rt_kind r = ModelHost) | None => false end in
  if host && is_omlx x && isRecord (Some parsedBody)
     && negb (match opt_get (Some parsedBody) "stream" with Some (JBool false) => true | _ => false end)
  then let parsedBody' := stream_off parsedBody in
       let bodyText := stringify parsedBody' in
       on_ctx (with_body bodyText);; mret (bodyText, parsedBody')
  else mret (text, parsedBody).

(** The epoch of the route's workload. *)
Definition route_epoch (route : Route) : M (option string) :=
  match rt_peer route with
  | Some _ => mret (responseCacheEpochForRoute route None)
  | None =>
      server ← perform (CServerState (rt_workload route));
      host ← (match server with Some _ => mret None | None => perform (CHostState (rt_workload route)) end);
      mret (responseCacheEpochForRoute route (readWorkloadEpoch sha1 server host))
  end.

(** What a request is looked up under, when its answer can be cached. *)
Definition cache_key (req : Request) : M (option CacheRequestState) :=
  x ← ctx;
  match should_use_stores req x, x_route x with
  | Some bodyText, Some (route, _) =>
      if negb (isRouteKvEligible route) then mret None else
      epoch ← route_epoch route;
      match epoch, json_parse bodyText with
      | Some ((String _ _) as workloadEpoch), Some parsedBody =>
          if negb (isDeterministic parsedBody) then mret None else
          match requestModel parsedBody with
          | Some ((String _ _) as model) =>
              on_ctx (with_stream (wants_stream parsedBody));;
              normalized ← normalize_stream x parsedBody;
              mret (Some (mkCacheState
                (ResponseCache.mkLookup (canonicalRequestSha json_parse sha1 normalized.1) model (rt_workload route)
                   workloadEpoch (protocol_variant x)) (byteLength normalized.1)))
          | _ => mret None
          end
      | _, _ => mret None
      end
  | _, _ => mret None
  end.

Definition expired (now : Z) (raw : option string) (e : ResponseCache.ResponseCacheEntry) : bool :=
  negb (Qle_bool (inject_Z (now - ResponseCache.createdAt e)) (responseCacheTtlMs parse_float raw)).

Definition maybeResponseCacheLookup (req : Request) : M unit :=
  key ← cache_key req;
  match key with
  | None => mret tt
  | Some state =>
      on_ctx (with_cache state);;
      let lookup := cr_lookup state in
      hit ← statement (on_cache (λ c, (c, ResponseCache.findBySha lookup c)));
      match hit with
      | None => mret tt
      | Some entry =>
          now ← perform CNow;
          raw ← perform (CEnv "LLAMACTL_RESPONSE_CACHE_TTL_HOURS");
          if expired now raw entry
          then safeWrite (statement (on_cache (ResponseCache.tryDelete lookup)));; mret tt
          else
            now' ← perform CNow;
            safeWrite (statement (on_cache (λ c, (ResponseCache.bumpHit lookup now' c, tt))));;
            response ← cacheHitResponse entry;
            observe (OServed entry);;
            on_ctx (with_hit response)
      end
  end.

(** ** Warm KV slots *)

Inductive WarmHitReplay := NoReplay | Mismatch | Replayed (sha : string) (prefixMetric : Z).

Definition has_flag (flags flag : Z) : bool := negb (Z.land flags flag =? 0).

Definition applyAnthropicToolMapReplay (hit : KvEntry) : M WarmHitReplay :=
  x ← ctx;
  match x_anthropicRequest x with
  | Some request =>
      if negb (x_isAnthropic x) || negb (has_flag (extFlags hit) EXT_FLAG_TOOL_MAP) then mret NoReplay else
      file ← perform (CReadFile (trailerPath (upstreamSlotFile hit)));
      match tr ← readTrailer json_parse file; tr_toolMap tr with
      | None | Some [] => mret NoReplay
      | Some toolMap =>
          match translateAnthropicRequest json_parse request toolMap with
          | Err e => throw e
          | Ok translated =>
              let replayBodyText := stringify translated in
              let replaySha := boundaryNaiveBytePrefixSha sha1 replayBodyText in
              if negb (bool_decide (replaySha = sha hit)) then mret Mismatch
              else on_ctx (with_body replayBodyText);; mret (Replayed replaySha (byteLength replayBodyText))
          end
      end
  | None => mret NoReplay
  end.

Definition maybeInjectOmlxRestoreBind (endpoint upstreamSlotFile : string) (restoreEpoch : option string) : M unit :=
  x ← ctx;
  match restoreEpoch, x_bodyText x with
  | Some epoch, Some text =>
      supported ← perform (CSupports endpoint false);
      if negb supported then mret tt else
      match json_parse text with
      | Some parsed =>
          if isRecord (Some parsed)
          then on_ctx (with_body (stringify (injectVendorFields (basenameStripKvslot upstreamSlotFile) epoch parsed)))
          else mret tt
      | None => mret tt
      end
  | _, _ => mret tt
  end.

Definition maybeInjectOmlxSaveHandle (endpoint sha : string) : M unit :=
  x ← ctx;
  match x_bodyText x with
  | None => mret tt
  | Some text =>
      supported ← perform (CSupports endpoint true);
      if negb supported then mret tt else
      match json_parse text with
      | Some parsed =>
          if isRecord (Some parsed)
          then on_ctx (with_stream (wants_stream parsed));; on_ctx (with_body (stringify (injectSaveHandle sha parsed)))
          else mret tt
      | None => mret tt
      end
  end.

(** [metadata.model] for oMLX. *)
Definition action_model (x : ProxyContext) (model : string) : option string := if is_omlx x then Some model else None.

(** The slot is restored, and the row marked active. *)
Definition restore_slot (md : KvMetadata) (hit : KvEntry) (endpoint : string) (slot : Z) : M (bool * RestoreResult) :=
  x ← ctx;
  restore ← perform (CRestore (mkAction endpoint slot (basename (upstreamSlotFile hit)) (action_model x (md_model md))));
  activated ← safeWrite (statement (on_kv (KvStore.activate (sha hit))));
  mret (bool_decide (activated = Some true), restore).

(** The hit is used: its slot is the request's. *)
Definition adopt (md : KvMetadata) (hit : KvEntry) (endpoint : string) (lease : Z * nat) (restore : RestoreResult)
    (effectiveSha : string) (effectivePrefixMetric : Z) (enforce : bool) : M bool :=
  maybeInjectOmlxRestoreBind endpoint (upstreamSlotFile hit) (rr_epoch restore);;
  now ← perform CNow;
  safeWrite (statement (on_kv (λ w, (KvStore.bumpHit (sha hit) now w, tt))));;
  on_ctx (with_kv (Some (mkKv md effectiveSha effectivePrefixMetric false (Some (sha hit)) (Some (upstreamSlotFile hit))
                           (Some lease) (firstResponseToken hit) enforce)));;
  mret true.

(** What follows the restore; whether the hit is used. *)
Definition use_restored (md : KvMetadata) (hit : KvEntry) (endpoint : string) (lease : Z * nat) (restore : RestoreResult)
    (sha' : string) (prefixMetric : Z) (enforce : bool) : M bool :=
  replay ← applyAnthropicToolMapReplay hit;
  match replay with
  | Mismatch =>
      unreserve (sha hit);; release_lease (md_workload md) lease;;
      safeWrite (try_delete_row (sha hit) (Some (upstreamSlotFile hit)));; mret false
  | Replayed s n => adopt md hit endpoint lease restore s n enforce
  | NoReplay => adopt md hit endpoint lease restore sha' prefixMetric enforce
  end.

Definition applyWarmKvHit (md : KvMetadata) (hit : KvEntry) (sha' : string) (prefixMetric : Z) (enforce : bool) : M bool :=
  reserved ← safeWrite (statement (on_kv (KvStore.reserve (sha hit))));
  if negb (bool_decide (reserved = Some true)) then mret false else
  observe (OReserved (sha hit));;
  got ← acquire (md_workload md);
  match got with
  | None => unreserve (sha hit);; mret false
  | Some lease =>
      endpoint ← slotClientFor md;
      outcome ← restore_slot md hit endpoint lease.1;
      let '(activated, restore) := outcome in
      if negb (activated && rr_ok restore) then
        unreserve (sha hit);; release_lease (md_workload md) lease;;
        (if rr_ok restore then mret tt else delete_row (sha hit) (upstreamSlotFile hit));; mret false
      else use_restored md hit endpoint lease restore sha' prefixMetric enforce
  end.

(** [resolveRouteKvMetadata], with the records it reads. *)
Definition route_metadata : M (option KvMetadata) :=
  x ← ctx;
  match x_route x with
  | None => mret None
  | Some (route, _) =>
      if bool_decide (is_Some (rt_peer route)) || negb (isRouteKvEligible route) then mret None else
      server ← perform (CServerState (rt_workload route));
      host ← perform (CHostState (rt_workload route));
      mret (resolveRouteKvMetadata sha1 qwen_ctx gemma_ctx (Some route) server host)
  end.

Definition find_prefix (md : KvMetadata) (sha' : string) (prefixMetric : Z) : M (option KvEntry) :=
  hit ← statement (gets (λ s, KvStore.longestPrefixLookup
    {| candidatePrefixes := [mkCandidate sha' prefixMetric prefixMetric]; p_workload := md_workload md;
       p_quantBits := md_quantBits md; p_ctxSize := md_ctxSize md; p_workloadEpoch := md_workloadEpoch md |}
    (sh_kv (st_shared s))));
  mret (e ← hit; match model e with
                 | Some m => if bool_decide (m = md_model md) then Some e else None
                 | None => Some e
                 end).

Definition maybeKvLookup (req : Request) : M unit :=
  x ← ctx;
  match should_use_stores req x with
  | None => mret tt
  | Some bodyText =>
      metadata ← route_metadata;
      match metadata with
      | None => mret tt
      | Some md =>
          let enforce := shouldEnforceFirstTokenEquivalence json_parse bodyText in
          let prefixMetric := byteLength bodyText in
          let sha' := boundaryNaiveBytePrefixSha sha1 bodyText in
          hit ← find_prefix md sha' prefixMetric;
          warm ← (match hit with
                  | Some e => applyWarmKvHit md e sha' prefixMetric enforce
                  | None => mret false
                  end);
          if warm : bool then mret tt else
          (if is_omlx x then endpoint ← slotClientFor md; maybeInjectOmlxSaveHandle endpoint sha' else mret tt);;
          on_ctx (with_kv (Some (mkKv md sha' prefixMetric true None None None None enforce)))
      end
  end.

(** ** The upstream *)

Definition body_sent (x : ProxyContext) : option string := x_bodyText x.

(** A peer gets its own token; the client's bearer was dropped. *)
Definition upstream_headers (x : ProxyContext) : Headers :=
  match x_route x ≫= (λ r, rt_peer r.1) with
  | Some peer => match token peer with
                 | Some ((String _ _) as t) => jm_set (x_headers x) "authorization" ("Bearer " +:+ t)
                 | _ => x_headers x
                 end
  | None => x_headers x
  end.

Definition unreachable_response (message : string) : Response :=
  json_response (error_json ("upstream llama-server unreachable: " +:+ message) "llamactl_upstream_error") 502 [].

Definition forward (req : Request) : M Response :=
  x ← ctx;
  if is_peer x && requestBodyContainsOmlxRequestHandle json_parse (x_bodyText x) then mret cross_node_response else
  raw ← perform (CEnv "LLAMACTL_UPSTREAM_TIMEOUT_MS");
  fetched ← perform (CFetch (mkSent (x_target x) (q_method req) (upstream_headers x) (x_body x)
                               (peerTlsForRoute (fst <$> x_route x)) (upstreamTimeoutMs raw)));
  match fetched with
  | Err message => mret (unreachable_response message)
  | Ok upstream =>
      match x_route x with
      | Some (route, _) =>
          if is_peer x && (r_status upstream =? 502) then
            aborted ← perform CAborted;
            (if aborted : bool then mret tt else on_routes (λ r, (invalidateRouteCacheEntry (rt_model route) r, tt)));;
            mret upstream
          else mret upstream
      | None => mret upstream
      end
  end.

(** ** Remembering the answer's slot *)

Definition checkFalseHit (kv : KvRequestState) (firstToken : option string) : M KvRequestState :=
  match kr_warmHitSha kv, kr_expectedToken kv, firstToken with
  | Some ((String _ _) as staleSha), Some expected, Some got =>
      if negb (kr_enforceFirstToken kv) || bool_decide (expected = got) then mret kv else
      observe (OUnreserved staleSha);;
      safeWrite (statement (on_kv (KvStore.release staleSha));; try_delete_row staleSha (kr_warmHitFile kv));;
      (match kr_warmHitLease kv with Some lease => release_lease (md_workload (kr_meta kv)) lease | None => mret tt end);;
      let kv' := mkKv (kr_meta kv) (kr_sha kv) (kr_prefixMetric kv) (kr_shouldPersist kv) None None None
                   (kr_expectedToken kv) (kr_enforceFirstToken kv) in
      on_ctx (with_kv (Some kv'));; mret kv'
  | _, _, _ => mret kv
  end.

Definition releaseWarmHitLease : M unit :=
  x ← ctx;
  match x_kv x with
  | None => mret tt
  | Some kv =>
      on_ctx (with_kv (Some (mkKv (kr_meta kv) (kr_sha kv) (kr_prefixMetric kv) (kr_shouldPersist kv) None None None
                               (kr_expectedToken kv) (kr_enforceFirstToken kv))));;
      (match kr_warmHitSha kv with Some ((String _ _) as s) => unreserve s | _ => mret tt end);;
      match kr_warmHitLease kv with Some lease => release_lease (md_workload (kr_meta kv)) lease | None => mret tt end
  end.

(** [join(slotDir, slotBasename)] *)
Definition slot_file (md : KvMetadata) (sha' : string) : string := join (md_slotDir md) (sha' +:+ ".kvslot").

Definition saveSlotUpstream (kv : KvRequestState) (slotId : Z) : M (option string) :=
  let md := kr_meta kv in
  made ← perform (CMkdir (md_slotDir md));
  if negb made then throw "mkdir" else
  x ← ctx;
  endpoint ← slotClientFor md;
  saved ← perform (CSave (mkAction endpoint slotId (kr_sha kv +:+ ".kvslot")
                            (if is_omlx x then (λ r : Route * string, rt_model r.1) <$> x_route x else None)));
  mret (if saved : bool then Some (slot_file md (kr_sha kv)) else None).

(** The trailer of a slot, with its flags. *)
Definition new_trailer (toolMap : ToolMap) (sessionTitle : option string) : KvTrailer :=
  let map_flag := match toolMap with [] => 0 | _ => EXT_FLAG_TOOL_MAP end in
  let title_flag := if truthy sessionTitle then EXT_FLAG_SESSION_TITLE else 0 in
  mkTrailer (JNum (Z.lor map_flag title_flag)) (match toolMap with [] => None | m => Some m end)
    (if truthy sessionTitle then sessionTitle else None).

Definition trailer_flags (t : KvTrailer) : Z := match tr_extFlags t with JNum n => n | _ => 0 end.

Definition cold_entry (kv : KvRequestState) (slotFile : string) (size now : Z) (firstToken : option string) (flags : Z) : KvEntry :=
  let md := kr_meta kv in let n := kr_prefixMetric kv in
  mkKvEntry (kr_sha kv) (md_workload md) (Some (md_model md)) slotFile (md_quantBits md) n (md_ctxSize md) 0 now now
    size n cold n (md_workloadEpoch md) 0 idle firstToken flags.

Definition commitSlotToRegistry (kv : KvRequestState) (slotFile : string) (firstToken : option string) (upstreamJson : Json) :
    M (option Z) :=
  now ← perform CNow;
  x ← ctx;
  match deriveSessionTitle (x_anthropicRequest x) with
  | Err e => throw e
  | Ok sessionTitle =>
      let trailer := new_trailer (extractToolMapFromJson upstreamJson) sessionTitle in
      wrote ← (if trailer_flags trailer =? 0 then mret true
               else perform (CWriteTrailer (trailerPath slotFile) (stringify (trailer_json trailer))));
      let flags := if wrote : bool then trailer_flags trailer else 0 in
      size ← perform (CSize slotFile);
      inserted ← safeWrite (statement (on_kv (λ w,
        (KvStore.insert (cold_entry kv slotFile (default (kr_prefixMetric kv) size) now firstToken flags) w, tt))));
      mret ((λ _, now) <$> inserted)
  end.

(** [sweepOrphanSlots]: what it throws is only logged. *)
Definition sweep_orphans (slotDir : string) (now : Z) : M unit :=
  on_kv (λ w, ((KvStore.sweepOrphanSlotFiles unlink_error stat_error join readdirSync others_files slotDir
                  (24 * 60 * 60 * 1000) now w).1, tt)).

Definition maintain (kv : KvRequestState) (now : Z) : M unit :=
  raw ← perform (CEnv "LLAMACTL_KV_WORKLOAD_BUDGET_MB");
  statement (on_kv (λ w,
    ((KvStore.runEvictionIfOverBudget unlink_error pow_half others_kv (md_workload (kr_meta kv)) (kvWorkloadBudgetBytes raw) now w).1, tt)));;
  safeWrite (statement (on_kv (KvStore.deleteEpochStale unlink_error (md_workload (kr_meta kv)) (md_workloadEpoch (kr_meta kv)))));;
  sweep_orphans (md_slotDir (kr_meta kv)) now.

Definition persistSlotAndMaintain (kv : KvRequestState) (slotId : Z) (firstToken : option string) (upstreamJson : Json) : M unit :=
  slotFile ← saveSlotUpstream kv slotId;
  match slotFile with
  | None => mret tt
  | Some file =>
      committed ← commitSlotToRegistry kv file firstToken upstreamJson;
      match committed with Some now => maintain kv now | None => mret tt end
  end.

Definition saveHandleSupportedForRoute (kv : KvRequestState) : M bool :=
  x ← ctx;
  if negb (is_omlx x) then mret true else
  endpoint ← slotClientFor (kr_meta kv);
  perform (CSupports endpoint true).

(** A [falsy] JSON value holds no token. *)
Definition read_first_token (upstream : Response) : M (option string) :=
  if negb (isJsonContentType (content_type (r_headers upstream))) then mret None else
  parsed ← body_json upstream;
  mret (parsed ≫= extractFirstResponseTokenFromJson).

Definition persist_unless_stale (kv : KvRequestState) (upstream : Response) (upstreamJson : option Json)
    (firstToken : option string) : M unit :=
  kv' ← checkFalseHit kv firstToken;
  let contentType := content_type (r_headers upstream) in
  if negb (kr_shouldPersist kv') || is_event_stream contentType || negb (r_status upstream =? 200)
     || negb (isJsonContentType contentType) then mret tt else
  match upstreamJson with
  | None | Some JNull => mret tt
  | Some json =>
      supported ← saveHandleSupportedForRoute kv';
      if negb supported then mret tt else
      got ← acquire (md_workload (kr_meta kv'));
      match got with
      | None => mret tt
      | Some lease =>
          finally (persistSlotAndMaintain kv' lease.1 firstToken json) (release_lease (md_workload (kr_meta kv')) lease)
      end
  end.

Definition maybePersistKv (upstream : Response) : M unit :=
  x ← ctx;
  match x_kv x with
  | None => mret tt
  | Some kv =>
      let shouldParseJson := (r_status upstream =? 200) && isJsonContentType (content_type (r_headers upstream)) in
      upstreamJson ← (if shouldParseJson then body_json upstream else mret None);
      firstToken ← (if truthy_opt upstreamJson then mret (upstreamJson ≫= extractFirstResponseTokenFromJson)
                    else read_first_token upstream);
      finally (persist_unless_stale kv upstream upstreamJson firstToken) releaseWarmHitLease
  end.

(** ** Translating the answer *)

Definition translation_failed (message type : string) : Response := json_response (error_json message type) 502 [].

(** What the stream translator reads: the whole body at once, and its end. *)
Definition stream_turns (body : Body) : list Turn :=
  match body with
  | NoBody => [mkTurn false WDone]
  | Text s => [mkTurn false (WRead (String.list_byte_of_string s)); mkTurn false WDone]
  | Failing s => [mkTurn false (WRead (String.list_byte_of_string s)); mkTurn false (WFail "body failed")]
  end.

Definition translateAnthropicSseResponse (id : Json) (upstream : Response) : M Response :=
  x ← ctx;
  match r_body upstream with
  | NoBody => mret upstream
  | body =>
      let model := default "claude-compatible" (x_anthropicModel x) in
      let '(w, completion) := processUpstreamStream json_parse new_decoder decode id model 0 (stream_turns body) in
      mret (mkResponse (r_status upstream)
              (jm_set (sanitizedResponseHeaders upstream) "content-type" "text/event-stream")
              (Text (concat_texts (wire <$> AnthropicStream.out (tr w))))
              (Some (match completion with Some complete => true | _ => false end)))
  end.

Definition translate_json (translated : result Json) (type : string) (upstream : Response) : Response :=
  match translated with
  | Ok v => json_response v (r_status upstream) (sanitizedResponseHeaders upstream)
  | Err e => translation_failed e type
  end.

Definition translateAnthropicJsonResponse (upstream : Response) : M Response :=
  parsed ← body_json upstream;
  mret (translate_json (match parsed with Some v => translateOpenAIResponse json_parse v | None => Err "SyntaxError" end)
          "anthropic_response_translation_error" upstream).

Definition translateResponsesJsonResponse (upstream : Response) : M Response :=
  parsed ← body_json upstream;
  now ← perform CNow;
  mret (translate_json (match parsed with Some v => translateChatCompletionToResponses now v | None => Err "SyntaxError" end)
          "responses_response_translation_error" upstream).

Definition translateResponsesSseResponse : Response :=
  responsesTranslationErrorResponse "streaming is not supported for /v1/responses" 501.

Definition maybeTranslateResponse (id : Json) (upstream : Response) : M Response :=
  x ← ctx;
  let contentType := content_type (r_headers upstream) in
  let json := is_ok_status (r_status upstream) && isJsonContentType contentType in
  if x_isAnthropic x && is_event_stream contentType then translateAnthropicSseResponse id upstream
  else if x_isAnthropic x && json then translateAnthropicJsonResponse upstream
  else if x_isResponsesApi x && is_event_stream contentType then mret translateResponsesSseResponse
  else if x_isResponsesApi x && json then translateResponsesJsonResponse upstream
  else mret (mkResponse (r_status upstream) (sanitizedResponseHeaders upstream) (r_body upstream) None).

(** ** Remembering the answer *)

Definition isErrorEnvelope (body : string) : bool :=
  match json_parse body with
  | Some parsed => truthy_opt (opt_get (Some parsed) "error")
  | None => false
  end.

Definition isCompleteSseBody (body : string) : bool :=
  occurs ("data: [DONE]" +:+ String newline EmptyString) body || occurs "event: message_stop" body.

(** The answers that are kept. *)
Definition cacheable (isAnthropic : bool) (upstream : Response) (contentType : option string) (body : string) : bool :=
  (r_status upstream =? 200) &&
  if isJsonContentType contentType then negb (isErrorEnvelope body) &&
    (if is_event_stream contentType
     then (negb isAnthropic || default false (r_completion upstream)) && isCompleteSseBody body else true)
  else is_event_stream contentType && (negb isAnthropic || default false (r_completion upstream)) && isCompleteSseBody body.

Definition maybePersistResponseCache (upstream : Response) : M Response :=
  x ← ctx;
  match x_responseCache x, x_hit x with
  | Some state, None =>
      perform CPause;;
      match body_text upstream with
      | Err e => throw e
      | Ok replayBody =>
          let persistedBody := default replayBody (x_canonicalBody x) in
          let contentType := match x_canonicalBody x with
                             | Some _ => Some "application/json"
                             | None => Some (default "" (content_type (r_headers upstream)))
                             end in
          let replay := mkResponse (r_status upstream) (r_headers upstream) (Text replayBody) None in
          if negb (cacheable (x_isAnthropic x) upstream contentType persistedBody) then mret replay else
          let lookup := cr_lookup state in
          raw ← perform (CEnv "LLAMACTL_RESPONSE_CACHE_MAX_ENTRY_MB");
          if responseCacheMaxEntryBytes raw <? cr_requestBodyBytes state + byteLength persistedBody then mret replay else
          now ← perform CNow;
          let entry := ResponseCache.mkEntry (ResponseCache.l_sha lookup) (ResponseCache.l_model lookup)
            (ResponseCache.l_workload lookup) (ResponseCache.l_workloadEpoch lookup) (ResponseCache.l_protocolVariant lookup)
            (default "" contentType) (r_status upstream) persistedBody (cr_requestBodyBytes state)
            (byteLength persistedBody) now now 0 in
          wrote ← safeWrite (statement (on_cache (λ c, (ResponseCache.insert entry c, tt))));
          match wrote with
          | None => mret replay
          | Some _ =>
              observe (OStored entry);;
              budget ← perform (CEnv "LLAMACTL_RESPONSE_CACHE_BUDGET_MB");
              safeWrite (statement (on_cache (λ c,
                ((ResponseCache.runResponseCacheEvictionIfOverBudget pow_half others_cache (responseCacheBudgetBytes budget) now c).1, tt))));;
              mret replay
          end
      end
  | _, _ => mret upstream
  end.

(** ** A request *)

Definition swallow (m : M unit) : M unit := try_catch m (λ _, mret tt).

(** From the lookups on; [id] is the identifier a translated stream gets. *)
Definition serve (req : Request) (id : Json) : M Response :=
  stripVendorFieldsFromBody;;
  swallow (maybeResponseCacheLookup req);;
  x ← ctx;
  match x_hit x with
  | Some response => mret response
  | None =>
      swallow (maybeKvLookup req);;
      finally
        (upstream ← forward req;
         swallow (maybePersistKv upstream);;
         synthesizedSse ← maybeSynthesizeOmlxSseResponse upstream;
         translated ← (match synthesizedSse with Some r => mret r | None => maybeTranslateResponse id upstream end);
         maybePersistResponseCache translated)
        releaseWarmHitLease
  end.

Definition proxyOpenAI (req : Request) (id : Json) : M Response :=
  parsed ← parseIncoming req;
  match parsed with
  | Some response => mret response
  | None =>
      routed ← resolveRoute req;
      match routed with
      | Some response => mret response
      | None =>
          x ← ctx;
          if is_peer x && requestBodyContainsOmlxRequestHandle json_parse (x_bodyText x) then mret cross_node_response
          else serve req id
      end
  end.

Definition start (e : E) (sh : Shared) : St := mkSt e sh (new_context "" "" "" []) [].

End proxy.
End Proxy.
