(* ===== verification/OpenaiProxyProps.v ===== *)
(** * Inference proxy: slots are given back

    Whatever a request meets, it gives back the slot it leased and the row it
    reserved; the one way to keep them is a trailer that does not hold what the
    proxy writes into trailers. *)

From S2P Require Import Prelude JsMap JsText JsJson JsValues KvStore ResponseCache SlotAllocator AnthropicRequest ProxyBody ResponsesApi ProxyRoutes HostSidecars ProxyMeta OpenaiProxy.
From Stdlib Require Import QArith.
Import ProxyBody Responses Routes Meta Proxy.
Import (hints) ResponseCache KvStore.

#[local] Open Scope string_scope.
#[local] Open Scope list_scope.
#[local] Open Scope Z_scope.

(** ** What is still held *)

Definition open_lease (acc : list (string * nat)) (o : Obs) : list (string * nat) :=
  match o with
  | OAcquired wl h => (wl, h) :: acc
  | OReleased wl h => filter (λ l, l ≠ (wl, h)) acc
  | _ => acc
  end.
Definition open_leases : list Obs → list (string * nat) := foldl open_lease [].

Definition open_row (acc : list string) (o : Obs) : list string :=
  match o with
  | OReserved s => s :: acc
  | OUnreserved s => filter (λ r, r ≠ s) acc
  | _ => acc
  end.
Definition open_rows : list Obs → list string := foldl open_row [].

Definition held_lease (kv : option KvRequestState) : list (string * nat) :=
  match kv with
  | Some k => match kr_warmHitLease k with Some l => [(md_workload (kr_meta k), l.2)] | None => [] end
  | None => []
  end.
Definition held_row (kv : option KvRequestState) : list string :=
  match kv with Some k => match kr_warmHitSha k with Some s => [s] | None => [] end | None => [] end.

Section props.
Context {E : Type} (answer : ∀ c : Call, E → Shared → E * Shared * Resp c).
Context (json_parse : string → option Json) (sha1 : string → string) (pow_half : Q → Q) (parse_float : string → option Q).
Context {Decoder : Type} (new_decoder : Decoder) (decode : Decoder → list Byte.byte → Decoder * string).
Context (url_of : string → option Url) (localeCompare : string → string → Z).
Context (unlink_error stat_error : string → option string) (join : string → string → string)
        (readdirSync : string → eff KvWorld (list string)) (others_files : KvWorld → KvWorld)
        (others_kv : gmap string KvEntryRow → gmap string KvEntryRow)
        (others_cache : gmap ResponseCache.ResponseCacheLookup ResponseCache.ResponseCacheEntry →
                        gmap ResponseCache.ResponseCacheLookup ResponseCache.ResponseCacheEntry).
Context (default_endpoint serverAlias defaultModel qwen_ctx gemma_ctx : string).

Notation St := (@Proxy.St E).
Notation M := (eff St).

(** At most these are held; no row is named by the empty text. *)
Definition Owes (ls : list (string * nat)) (rs : list string) (s : St) : Prop :=
  (∀ l, l ∈ open_leases (st_obs s) → l ∈ ls) ∧ (∀ r, r ∈ open_rows (st_obs s) → r ∈ rs ∨ r = "").

(** ** Steps that hold and give back nothing *)

Definition kv_and_request (s : St) : option KvRequestState * option Json :=
  (x_kv (st_ctx s), x_anthropicRequest (st_ctx s)).

Definition frame {A} (m : M A) : Prop := ∀ s,
  open_leases (st_obs (m s).1) = open_leases (st_obs s) ∧ open_rows (st_obs (m s).1) = open_rows (st_obs s) ∧
  kv_and_request (m s).1 = kv_and_request s.

Lemma frame_bind {A B} (m : M A) (f : A → M B) : frame m → (∀ a, frame (f a)) → frame (m ≫= f).
Proof.
  intros Hm Hf s. rewrite eff_bind_eq. destruct (Hm s) as (E1&E2&E3). destruct (m s) as [s1 [a|e]]; cbn in *; [|done].
  destruct (Hf a s1) as (F1&F2&F3). by rewrite F1, F2, F3.
Qed.
Lemma frame_try {A} (m : M A) h : frame m → (∀ e, frame (h e)) → frame (try_catch m h).
Proof.
  intros Hm Hf s. unfold try_catch. destruct (Hm s) as (E1&E2&E3). destruct (m s) as [s1 [a|e]]; cbn in *; [done|].
  destruct (Hf e s1) as (F1&F2&F3). by rewrite F1, F2, F3.
Qed.
Lemma frame_ret {A} (a : A) : frame (mret a).
Proof. by intros s. Qed.
Lemma frame_throw {A} e : frame (throw e : M A).
Proof. by intros s. Qed.
Lemma frame_gets {A} (f : St → A) : frame (gets f).
Proof. by intros s. Qed.
Lemma frame_observe o : (∀ l, open_lease l o = l) → (∀ r, open_row r o = r) → frame (observe o : M unit).
Proof.
  intros Hl Hr s. cbn. unfold open_leases, open_rows. rewrite !foldl_app. cbn. by rewrite Hl, Hr.
Qed.
Lemma frame_perform c : frame (perform answer c).
Proof.
  intros s. unfold perform. destruct (answer c _ _) as [[e sh] r]. cbn. unfold open_leases, open_rows. by rewrite !foldl_app.
Qed.
Lemma frame_on_ctx f :
  (∀ x, x_kv (f x) = x_kv x) → (∀ x, x_anthropicRequest (f x) = x_anthropicRequest x) → frame (on_ctx f : M unit).
Proof. intros H H' s. unfold kv_and_request. cbn. by rewrite H, H'. Qed.
Lemma frame_on_shared {A} (f : Shared → Shared * A) : frame (on_shared f : M A).
Proof. intros s. unfold on_shared. by destruct (f _). Qed.
Lemma frame_statement {A} (m : M A) : frame m → frame (statement answer m).
Proof. intros H. apply frame_bind; [exact (frame_perform CDb)|]. intros []; [apply frame_throw|done]. Qed.
Lemma frame_safeWrite {A} (m : M A) : frame m → frame (safeWrite m).
Proof. intros H. apply frame_try; [apply frame_bind; [done|intros; apply frame_ret]|intros; apply frame_ret]. Qed.

Create HintDb frame.
#[local] Hint Resolve frame_ret frame_throw frame_gets frame_on_shared : frame.

(** Runs through a program whose steps are frames. *)
Ltac frames :=
  repeat first
    [ solve [auto with frame]
    | match goal with |- frame (perform answer ?c) => exact (frame_perform c) end
    | apply frame_bind; [|intros]
    | apply frame_safeWrite | apply frame_statement
    | apply frame_try; [|intros]
    | apply frame_on_ctx; intros; reflexivity
    | apply frame_observe; intros; reflexivity
    | apply frame_on_shared
    | match goal with |- frame (match ?x with _ => _ end) => destruct x end
    | match goal with |- frame (let '(_, _) := ?x in _) => destruct x end ].

Lemma frame_synthesize upstream : frame (maybeSynthesizeOmlxSseResponse answer json_parse upstream).
Proof. unfold maybeSynthesizeOmlxSseResponse, body_json, ctx. frames. Qed.
Lemma frame_strip : frame (stripVendorFieldsFromBody json_parse : M unit).
Proof. unfold stripVendorFieldsFromBody, ctx. frames. Qed.
Lemma frame_cache_lookup req : frame (maybeResponseCacheLookup answer json_parse sha1 parse_float req).
Proof.
  unfold maybeResponseCacheLookup, cache_key, route_epoch, normalize_stream, cacheHitResponse, on_cache, ctx.
  pose proof frame_synthesize. frames.
Qed.
Lemma frame_replay hit : frame (applyAnthropicToolMapReplay answer json_parse sha1 hit).
Proof. unfold applyAnthropicToolMapReplay, ctx. frames. Qed.
Lemma frame_restore_bind ep file epoch : frame (maybeInjectOmlxRestoreBind answer json_parse ep file epoch).
Proof. unfold maybeInjectOmlxRestoreBind, ctx. frames. Qed.
Lemma frame_save_handle ep s : frame (maybeInjectOmlxSaveHandle answer json_parse ep s).
Proof. unfold maybeInjectOmlxSaveHandle, ctx. frames. Qed.
Lemma frame_restore md hit ep slot : frame (restore_slot answer md hit ep slot).
Proof. unfold restore_slot, on_kv, ctx. frames. Qed.
Lemma frame_forward req : frame (forward answer json_parse req).
Proof. unfold forward, on_routes, ctx. frames. Qed.
Lemma frame_metadata : frame (route_metadata answer sha1 qwen_ctx gemma_ctx).
Proof. unfold route_metadata, ctx. frames. Qed.
Lemma frame_find md s n : frame (find_prefix answer md s n).
Proof. unfold find_prefix. frames. Qed.
Lemma frame_client md : frame (slotClientFor url_of md : M string).
Proof. unfold slotClientFor. frames. Qed.
Lemma frame_maintained kv slot tok js :
  frame (persistSlotAndMaintain answer pow_half url_of unlink_error stat_error join readdirSync others_files others_kv kv slot tok js).
Proof.
  unfold persistSlotAndMaintain, saveSlotUpstream, commitSlotToRegistry, maintain, sweep_orphans, on_kv, ctx.
  pose proof frame_client. frames.
Qed.
Lemma frame_supported kv : frame (saveHandleSupportedForRoute answer url_of kv).
Proof. unfold saveHandleSupportedForRoute, ctx. pose proof frame_client. frames. Qed.
Lemma frame_translate id upstream : frame (maybeTranslateResponse answer json_parse new_decoder decode id upstream).
Proof.
  unfold maybeTranslateResponse, translateAnthropicSseResponse, translateAnthropicJsonResponse, translateResponsesJsonResponse, body_json, ctx.
  frames.
Qed.
Lemma frame_persist_cache upstream :
  frame (maybePersistResponseCache answer json_parse pow_half others_cache upstream).
Proof. unfold maybePersistResponseCache, on_cache, ctx. frames. Qed.
Lemma frame_first_token upstream : frame (read_first_token answer json_parse upstream).
Proof. unfold read_first_token, body_json. frames. Qed.

(** ** Leasing and giving back *)

Lemma Owes_frame {A} (m : M A) ls rs s : frame m → Owes ls rs s → Owes ls rs (m s).1.
Proof. intros H [Hl Hr]. destruct (H s) as (E1&E2&_). split; [by rewrite E1|by rewrite E2]. Qed.

Lemma open_leases_snoc obs o : open_leases (obs ++ [o]) = open_lease (open_leases obs) o.
Proof. unfold open_leases. by rewrite foldl_app. Qed.
Lemma open_rows_snoc obs o : open_rows (obs ++ [o]) = open_row (open_rows obs) o.
Proof. unfold open_rows. by rewrite foldl_app. Qed.

Lemma acquire_owes wl ls rs s :
  Owes ls rs s →
  let '(s', r) := (acquire wl : M _) s in
  kv_and_request s' = kv_and_request s ∧
  match r with
  | Ok (Some (slot, h)) => Owes ((wl, h) :: ls) rs s'
  | Ok None => Owes ls rs s'
  | Err _ => False
  end.
Proof.
  intros [Hl Hr]. unfold acquire. rewrite eff_bind_eq. unfold on_shared at 1.
  destruct (SlotAllocator.acquire _) as [a' [slot|]]; cbn; (split; [done|]); [|by split].
  split; cbn; [rewrite open_leases_snoc|rewrite open_rows_snoc; exact Hr].
  cbn. intros l [->|Hin]%elem_of_cons; [left|right; by apply Hl].
Qed.

(** Giving back cannot fail. *)
Lemma release_owes wl lease ls rs s :
  Owes ((wl, lease.2) :: ls) rs s →
  let '(s', r) := (release_lease wl lease : M unit) s in kv_and_request s' = kv_and_request s ∧ r = Ok tt ∧ Owes ls rs s'.
Proof.
  intros [Hl Hr]. cbn. split; [done|]. split; [done|]. split; cbn; [rewrite open_leases_snoc|rewrite open_rows_snoc; exact Hr].
  cbn. intros l [Hne Hin]%list_elem_of_filter. apply Hl in Hin. apply elem_of_cons in Hin as [->|Hin]; done.
Qed.

Lemma unreserve_owes sha' ls rs s :
  Owes ls (sha' :: rs) s →
  let '(s', r) := (unreserve answer sha' : M unit) s in kv_and_request s' = kv_and_request s ∧ r = Ok tt ∧ Owes ls rs s'.
Proof.
  intros [Hl Hr]. unfold unreserve. rewrite eff_bind_eq. cbn [observe modify].
  set (s1 := mkSt _ _ _ _).
  assert (Owes ls rs s1) as Ho.
  { split; cbn; [rewrite open_leases_snoc; exact Hl|rewrite open_rows_snoc]. cbn.
    intros r [Hne Hin]%list_elem_of_filter. apply Hr in Hin as [[->|Hin]%elem_of_cons| ->]; [done|by left|by right]. }
  assert (frame (safeWrite (statement answer (on_kv (KvStore.release sha') : M bool)))) as Hf by (unfold on_kv; frames).
  pose proof (Owes_frame _ ls rs s1 Hf Ho) as Ho'. destruct (Hf s1) as (_&_&Ek).
  rewrite eff_bind_eq. unfold safeWrite, try_catch in *. destruct ((_ ← statement _ _; _) s1) as [s2 [?|?]]; cbn in *; done.
Qed.

(** The trailers of this environment hold what the proxy writes into them. *)
Definition trailers_written : Prop := ∀ path e sh t m key text,
  readTrailer json_parse (answer (CReadFile path) e sh).2 = Some t → tr_toolMap t = Some m →
  jm_get m key = Some text → is_ok (toolCallFromExactBytes json_parse text) = true.
(** Every route's host and port make an address. *)
Definition addresses : Prop := ∀ md, is_Some (url_of (meta_endpoint md)).

(** The request of the context was translated before. *)
Definition translatable (s : St) : Prop := ∀ r,
  x_anthropicRequest (st_ctx s) = Some r → is_ok (translateAnthropicRequest json_parse r []) = true.

(** *** A good map is no obstacle *)

Definition good_map (m : ToolMap) : Prop := ∀ key text, jm_get m key = Some text → is_ok (toolCallFromExactBytes json_parse text) = true.

Lemma call_from_good m block : good_map m → is_ok (toolCallFromBlock json_parse block m) = true.
Proof.
  intros H. unfold toolCallFromBlock. destruct (jm_get m _) as [[|c t]|] eqn:Em; [done| |done]. by eapply H.
Qed.

Lemma collect_good m blocks ps :
  good_map m → collectMessageParts json_parse blocks [] = Ok ps →
  ∃ ps', collectMessageParts json_parse blocks m = Ok ps' ∧ length (toolCalls ps') = length (toolCalls ps).
Proof.
  intros Hm. revert ps. induction blocks as [|b blocks IH]; intros ps; [intros [= <-]; by eexists|].
  cbn [collectMessageParts]. unfold mbind, result_bind. destruct (JsJson.get _ _) as [type|]; [|done].
  destruct (collectMessageParts json_parse blocks []) as [ps0|]; cycle 1.
  { destruct (str_is type "text"); [done|]. destruct (str_is type "image"); [by destruct (toImagePart b)|].
    destruct (str_is type "tool_use"); [by destruct (toolCallFromBlock json_parse b [])|by destruct (str_is type "tool_result")]. }
  destruct (IH ps0 eq_refl) as (ps1&E1&L1). rewrite E1.
  destruct (str_is type "text"); [intros [= <-]; by eexists|].
  destruct (str_is type "image"); [destruct (toImagePart b); [intros [= <-]; by eexists|done]|].
  destruct (str_is type "tool_use"); [|by destruct (str_is type "tool_result")].
  destruct (toolCallFromBlock json_parse b []); [|done]. intros [= <-].
  pose proof (call_from_good m b Hm) as Hc. destruct (toolCallFromBlock json_parse b m); [|done].
  eexists. split; [done|]. cbn. by rewrite L1.
Qed.

Lemma ok_bind {A B} (m : result A) (f g : A → result B) :
  (∀ a, is_ok (f a) = true → is_ok (g a) = true) → is_ok (m ≫= f) = true → is_ok (m ≫= g) = true.
Proof. intros H. destruct m as [a|]; [apply H|done]. Qed.

Lemma message_good m msg :
  good_map m → is_ok (translateMessageContent json_parse msg []) = true → is_ok (translateMessageContent json_parse msg m) = true.
Proof.
  intros Hm. unfold translateMessageContent. apply ok_bind. intros content.
  destruct content as [[]|]; try (intros; done);
    (apply ok_bind; intros blocks; apply ok_bind; intros []; [done|]; unfold mbind, result_bind;
     destruct (collectMessageParts json_parse blocks []) as [ps|] eqn:Ec; [|done];
     destruct (collect_good m blocks ps Hm Ec) as (ps'&->&L); destruct (str_is _ "assistant"); [done|];
     revert L; by destruct (toolCalls ps'), (toolCalls ps)).
Qed.

Lemma mapM_good {A B} (f g : A → result B) l :
  (∀ a, is_ok (f a) = true → is_ok (g a) = true) → is_ok (mapM_result f l) = true → is_ok (mapM_result g l) = true.
Proof.
  intros H. induction l as [|a l IH]; [done|]. cbn [mapM_result]. unfold mbind, result_bind.
  specialize (H a). destruct (f a); [|done]. specialize (H eq_refl). destruct (g a); [|done].
  destruct (mapM_result f l); [|done]. specialize (IH eq_refl). by destruct (mapM_result g l).
Qed.

Lemma request_good m r :
  good_map m → is_ok (translateAnthropicRequest json_parse r []) = true → is_ok (translateAnthropicRequest json_parse r m) = true.
Proof.
  intros Hm. unfold translateAnthropicRequest. unfold mbind, result_bind. destruct (JsJson.get _ _); [|done].
  destruct (normalizeSystemContent _); [|done]. destruct (items _) as [msgs|]; [|done].
  pose proof (mapM_good (λ x, translateMessageContent json_parse x []) (λ x, translateMessageContent json_parse x m) msgs (λ x, message_good m x Hm)) as H.
  destruct (mapM_result (λ x, translateMessageContent json_parse x []) msgs); [|done]. specialize (H eq_refl).
  destruct (mapM_result (λ x, translateMessageContent json_parse x m) msgs); [|done].
  destruct (AnthropicRequest.translateTools _); [|done]. by destruct (AnthropicRequest.translateToolChoice _).
Qed.

(** ** What stays true while a request runs *)

(** All that is held is what the context tells. *)
Definition Balanced (s : St) : Prop :=
  Owes (held_lease (x_kv (st_ctx s))) (held_row (x_kv (st_ctx s))) s ∧ translatable s.
(** Nothing is held, and the context tells of nothing. *)
Definition Clear (s : St) : Prop := Owes [] [] s ∧ x_kv (st_ctx s) = None ∧ translatable s.

Definition balances {A} (m : M A) : Prop := ∀ s, Balanced s → Balanced (m s).1.
Definition clears {A} (m : M A) : Prop := ∀ s, Clear s → Clear (m s).1.
Definition certain {A} (m : M A) : Prop := ∀ s, is_ok (m s).2 = true.

Lemma Clear_Balanced s : Clear s → Balanced s.
Proof. intros (H&E1&T). split; [by rewrite E1|done]. Qed.

Lemma translatable_same s s' : kv_and_request s' = kv_and_request s → translatable s → translatable s'.
Proof. intros [= _ Er] T r. rewrite Er. apply T. Qed.

Lemma balances_frame {A} (m : M A) : frame m → balances m.
Proof.
  intros H s [Ho T]. destruct (H s) as (_&_&Ek). split; [|by eapply translatable_same].
  injection Ek as -> _. by apply Owes_frame.
Qed.
Lemma clears_frame {A} (m : M A) : frame m → clears m.
Proof.
  intros H s (Ho&E1&T). destruct (H s) as (_&_&Ek). split_and!; [by apply Owes_frame| |by eapply translatable_same].
  injection Ek as -> _. done.
Qed.
Lemma balances_bind {A B} (m : M A) (f : A → M B) : balances m → (∀ a, balances (f a)) → balances (m ≫= f).
Proof.
  intros Hm Hf s H. rewrite eff_bind_eq. specialize (Hm s H). destruct (m s) as [s1 [a|e]]; cbn in *; [by apply Hf|done].
Qed.
Lemma clears_bind {A B} (m : M A) (f : A → M B) : clears m → (∀ a, clears (f a)) → clears (m ≫= f).
Proof.
  intros Hm Hf s H. rewrite eff_bind_eq. specialize (Hm s H). destruct (m s) as [s1 [a|e]]; cbn in *; [by apply Hf|done].
Qed.
Lemma balances_swallow m : balances m → balances (swallow m).
Proof. intros H s Hs. specialize (H s Hs). unfold swallow, try_catch. by destruct (m s) as [s1 [?|?]]. Qed.

Lemma certain_bind {A B} (m : M A) (f : A → M B) : certain m → (∀ a, certain (f a)) → certain (m ≫= f).
Proof. intros Hm Hf s. rewrite eff_bind_eq. specialize (Hm s). destruct (m s) as [s1 [a|e]]; [apply Hf|done]. Qed.
Lemma certain_perform c : certain (perform answer c).
Proof. intros s. unfold perform. by destruct (answer c _ _) as [[e sh] r]. Qed.
Lemma certain_safeWrite {A} (m : M A) : certain (safeWrite m).
Proof. intros s. by apply try_catch_total. Qed.
Lemma certain_gets {A} (f : St → A) : certain (gets f).
Proof. done. Qed.
Lemma certain_on_ctx f : certain (on_ctx f : M unit).
Proof. done. Qed.

(** *** The warm slot is given back *)

Lemma release_warm_owes s :
  Balanced s → let '(s', r) := (releaseWarmHitLease answer : M unit) s in r = Ok tt ∧ Owes [] [] s' ∧ Balanced s'.
Proof.
  intros [Ho T]. unfold releaseWarmHitLease. rewrite eff_bind_eq. cbn [ctx gets].
  destruct (x_kv (st_ctx s)) as [kv|] eqn:Ek; cbn [held_lease held_row] in Ho; cycle 1.
  { cbn. split; [done|]. split; [done|]. split; [by rewrite Ek|done]. }
  rewrite eff_bind_eq. cbn [on_ctx modify]. set (s1 := mkSt _ _ _ _).
  assert (Owes (match kr_warmHitLease kv with Some l => [(md_workload (kr_meta kv), l.2)] | None => [] end)
               (match kr_warmHitSha kv with Some s => [s] | None => [] end) s1) as Ho1 by done.
  assert (translatable s1) as T1 by done.
  assert (held_lease (x_kv (st_ctx s1)) = [] ∧ held_row (x_kv (st_ctx s1)) = []) as [Hl1 Hr1] by done.
  clearbody s1. clear Ho T Ek s.
  set (ls := match kr_warmHitLease kv with Some l => _ | None => _ end) in *.
  set (m := match kr_warmHitSha kv with Some (String _ _ as s) => unreserve answer s | _ => mret tt end).
  assert (let '(s2, r) := m s1 in kv_and_request s2 = kv_and_request s1 ∧ r = Ok tt ∧ Owes ls [] s2) as Hm.
  { unfold m. destruct (kr_warmHitSha kv) as [[|c sha']|]; [|by apply unreserve_owes|done].
    split; [done|]. split; [done|]. destruct Ho1 as [Hl Hr]. split; [done|].
    intros r [->%list_elem_of_singleton|?]%Hr; by right. }
  clearbody m. rewrite eff_bind_eq. destruct (m s1) as [s2 r]. destruct Hm as (Ek2&->&Ho2).
  set (m' := match kr_warmHitLease kv with Some lease => release_lease _ lease | None => mret tt end).
  assert (let '(s3, r) := m' s2 in kv_and_request s3 = kv_and_request s2 ∧ r = Ok tt ∧ Owes [] [] s3) as Hm.
  { unfold m', ls in *. destruct (kr_warmHitLease kv); [by apply release_owes|done]. }
  clearbody m'. destruct (m' s2) as [s3 r]. destruct Hm as (Ek3&->&Ho3). split; [done|]. split; [done|].
  assert (kv_and_request s3 = kv_and_request s1) as Ek by congruence.
  split; [|by eapply translatable_same]. injection Ek as -> _. by rewrite Hl1, Hr1.
Qed.

Lemma finally_release_owes {A} (m : M A) s :
  balances m → Balanced s → let '(s', r) := finally m (releaseWarmHitLease answer) s in Owes [] [] s' ∧ Balanced s'.
Proof.
  intros Hm Hs. specialize (Hm s Hs). unfold finally. destruct (m s) as [s1 r]. pose proof (release_warm_owes s1 Hm) as H.
  destruct (releaseWarmHitLease answer s1) as [s2 r2]. destruct H as (->&?&?). done.
Qed.

Lemma false_hit_balanced kv tok s :
  x_kv (st_ctx s) = Some kv → Balanced s →
  let '(s', r) := checkFalseHit answer unlink_error kv tok s in is_ok r = true ∧ Balanced s'.
Proof.
  intros Ek [Ho T]. unfold checkFalseHit.
  destruct (kr_warmHitSha kv) as [[|c t]|] eqn:Es; [done| |done].
  destruct (kr_expectedToken kv) as [want|]; [|done]. destruct tok as [got|]; [|done].
  destruct (negb _ || _); [done|]. rewrite Ek in Ho. cbn [held_lease held_row] in Ho. rewrite Es in Ho.
  rewrite eff_bind_eq. cbn [observe modify]. set (s1 := mkSt _ _ _ _).
  assert (Owes (match kr_warmHitLease kv with Some l => [(md_workload (kr_meta kv), l.2)] | None => [] end) [] s1) as Ho1.
  { destruct Ho as [Hl Hr]. split; cbn; [by rewrite open_leases_snoc|rewrite open_rows_snoc]. cbn.
    intros r [Hne Hin]%list_elem_of_filter. apply Hr in Hin as [->%list_elem_of_singleton| ->]; [done|by right]. }
  assert (translatable s1) as T1 by done. clearbody s1. clear Ho T Ek s.
  rewrite eff_bind_eq. set (m := safeWrite _).
  assert (frame m) as Hf by (unfold m, try_delete_row, on_kv; frames). assert (certain m) as Ht by apply certain_safeWrite.
  clearbody m. pose proof (Owes_frame m _ _ s1 Hf Ho1) as Ho2. destruct (Hf s1) as (_&_&Ek2). specialize (Ht s1).
  destruct (m s1) as [s2 [u|e]]; cbn in Ht, Ho2, Ek2; [|done].
  set (m' := match kr_warmHitLease kv with Some lease => release_lease _ lease | None => mret tt end).
  assert (let '(s3, r) := m' s2 in kv_and_request s3 = kv_and_request s2 ∧ r = Ok tt ∧ Owes [] [] s3) as Hm.
  { unfold m'. destruct (kr_warmHitLease kv); [by apply release_owes|done]. }
  clearbody m'. rewrite eff_bind_eq. destruct (m' s2) as [s3 r]. destruct Hm as (Ek3&->&Ho3).
  rewrite eff_bind_eq. cbn. split; [done|]. split; [done|].
  assert (kv_and_request s3 = kv_and_request s1) as [= _ Er] by congruence. intros r. cbn. rewrite Er. apply T1.
Qed.

(** *** Remembering the slot *)

Lemma lease_finally wl lease (m : M unit) s :
  frame m → Owes ((wl, lease.2) :: held_lease (x_kv (st_ctx s))) (held_row (x_kv (st_ctx s))) s → translatable s →
  Balanced (finally m (release_lease wl lease) s).1.
Proof.
  intros Hf Ho T. unfold finally. pose proof (Owes_frame m _ _ s Hf Ho) as Ho1. destruct (Hf s) as (_&_&Ek).
  destruct (m s) as [s1 r]. cbn in Ho1, Ek. pose proof (release_owes wl lease _ _ s1 Ho1) as H.
  destruct (release_lease wl lease s1) as [s2 r2]. destruct H as (Ek2&->&Ho2). cbn.
  assert (kv_and_request s2 = kv_and_request s) as E2 by congruence. split; [|by eapply translatable_same].
  injection E2 as -> _. done.
Qed.

Lemma balances_persist kv upstream js tok s :
  x_kv (st_ctx s) = Some kv → Balanced s →
  Balanced (persist_unless_stale answer pow_half url_of unlink_error stat_error join readdirSync others_files others_kv
              kv upstream js tok s).1.
Proof.
  intros Ek Hb. unfold persist_unless_stale. rewrite eff_bind_eq. pose proof (false_hit_balanced kv tok s Ek Hb) as H.
  destruct (checkFalseHit answer unlink_error kv tok s) as [s1 [kv'|e]]; [|by destruct H]. destruct H as [_ H].
  destruct (_ || _); [done|]. destruct js as [[]|]; try done;
  (rewrite eff_bind_eq; pose proof (balances_frame _ (frame_supported kv') s1 H) as H2;
   destruct (saveHandleSupportedForRoute answer url_of kv' s1) as [s2 [[]|e]]; try done; cbn [fst negb] in *;
   rewrite eff_bind_eq; destruct H2 as [Ho2 T2]; pose proof (acquire_owes (md_workload (kr_meta kv')) _ _ s2 Ho2) as H3;
   destruct (acquire _ s2) as [s3 [[[slot h]|]|e]]; destruct H3 as [Ek3 H3]; [| |done];
   (assert (translatable s3) as T3 by (by eapply translatable_same)); injection Ek3 as Ek3 _;
   [|by split; [cbn; rewrite Ek3|]];
   apply lease_finally; [apply frame_maintained|by rewrite Ek3|done]).
Qed.

Lemma balances_maybe_persist upstream :
  balances (maybePersistKv answer json_parse pow_half url_of unlink_error stat_error join readdirSync others_files others_kv upstream).
Proof.
  intros s Hb. unfold maybePersistKv. rewrite eff_bind_eq. cbn [ctx gets].
  destruct (x_kv (st_ctx s)) as [kv|] eqn:Ek; [|done].
  rewrite eff_bind_eq. set (m := if _ && _ then _ else _).
  assert (frame m) as Hf by (unfold m, body_json; frames).
  pose proof (balances_frame m Hf s Hb) as H1. destruct (Hf s) as (_&_&[= Ek1 _]). rewrite Ek in Ek1. clearbody m.
  destruct (m s) as [s1 [js|e]]; [|done]. cbn in H1, Ek1. rewrite eff_bind_eq.
  set (m2 := if truthy_opt js then _ else _).
  assert (frame m2) as Hf2 by (unfold m2; pose proof frame_first_token; frames).
  pose proof (balances_frame m2 Hf2 s1 H1) as H2. destruct (Hf2 s1) as (_&_&[= Ek2 _]). rewrite Ek1 in Ek2. clearbody m2.
  destruct (m2 s1) as [s2 [tok|e]]; [|done]. cbn in H2, Ek2.
  pose proof (balances_persist kv upstream js tok s2 Ek2 H2) as H3. unfold finally.
  destruct (persist_unless_stale _ _ _ _ _ _ _ _ _ _ _ _ _ s2) as [s3 r]. cbn in H3.
  pose proof (release_warm_owes s3 H3) as H4. destruct (releaseWarmHitLease answer s3) as [s4 r4].
  by destruct H4 as (->&_&?).
Qed.

(** *** Taking a warm slot *)

Hypothesis trailers : trailers_written.
Hypothesis addressed : addresses.

Lemma client_ok md : certain (slotClientFor url_of md : M string).
Proof. intros s. unfold slotClientFor. destruct (addressed md) as [u ->]. done. Qed.

Lemma good_map_nil : good_map [].
Proof. done. Qed.

Lemma replay_ok hit s : translatable s → is_ok (applyAnthropicToolMapReplay answer json_parse sha1 hit s).2 = true.
Proof.
  intros T. unfold applyAnthropicToolMapReplay. rewrite eff_bind_eq. cbn [ctx gets].
  destruct (x_anthropicRequest (st_ctx s)) as [r|] eqn:Er; [|done]. destruct (_ || _); [done|].
  rewrite eff_bind_eq. unfold perform.
  pose proof (trailers (trailerPath (upstreamSlotFile hit)) (st_env s) (st_shared s)) as Ht.
  destruct (answer _ _ _) as [[e sh] file]. cbn in Ht.
  destruct (readTrailer json_parse file) as [t|] eqn:Et; [|done]. cbn -[translateAnthropicRequest].
  destruct (tr_toolMap t) as [m|] eqn:Em; [|done]. destruct m as [|f m]; [done|].
  assert (good_map (f :: m)) as Hg by (intros key text Hk; by eapply Ht).
  pose proof (request_good (f :: m) r Hg (T r Er)) as Hok.
  destruct (translateAnthropicRequest json_parse r (f :: m)); [|done].
  by destruct (negb _).
Qed.

Lemma restore_bind_ok ep file epoch : certain (maybeInjectOmlxRestoreBind answer json_parse ep file epoch).
Proof.
  unfold maybeInjectOmlxRestoreBind. apply certain_bind; [done|]. intros x. destruct epoch; [|done].
  destruct (x_bodyText x); [|done]. apply certain_bind; [exact (certain_perform (CSupports ep false))|]. intros [].
  - cbn [negb]. destruct (json_parse _); [|done]. by destruct (isRecord _).
  - done.
Qed.

Lemma restore_ok md hit ep slot : certain (restore_slot answer md hit ep slot).
Proof.
  unfold restore_slot. apply certain_bind; [done|]. intros x.
  apply certain_bind; [exact (certain_perform (CRestore _))|]. intros r.
  apply certain_bind; [apply certain_safeWrite|]. done.
Qed.

(** A step that cannot fail and neither holds nor gives back. *)
Lemma step_owes {A} (m : M A) ls rs s :
  frame m → is_ok (m s).2 = true → Owes ls rs s →
  ∃ a s', m s = (s', Ok a) ∧ kv_and_request s' = kv_and_request s ∧ Owes ls rs s'.
Proof.
  intros Hf Ht Ho. pose proof (Owes_frame m ls rs s Hf Ho) as H. destruct (Hf s) as (_&_&Ek).
  destruct (m s) as [s' [a|e]]; [|done]. by exists a, s'.
Qed.

Lemma keep_clear s s' : kv_and_request s' = kv_and_request s → x_kv (st_ctx s) = None → translatable s → Owes [] [] s' → Clear s'.
Proof.
  intros Ek Ekv T Ho. split_and!; [done| |by eapply translatable_same]. injection Ek as -> _. done.
Qed.

(** The row and the lease in hand, given back. *)
Lemma give_back_owes {A} sha' wl lease (k : M A) s :
  frame k → Owes [(wl, lease.2)] [sha'] s → x_kv (st_ctx s) = None → translatable s →
  Clear ((_ ← unreserve answer sha'; _ ← release_lease wl lease; k) s).1.
Proof.
  intros Hk Ho Ekv T. rewrite eff_bind_eq. pose proof (unreserve_owes sha' _ _ s Ho) as H1.
  destruct (unreserve answer sha' s) as [s1 r1]. destruct H1 as (Ek1&->&Ho1). rewrite eff_bind_eq.
  pose proof (release_owes wl lease _ _ s1 Ho1) as H2. destruct (release_lease wl lease s1) as [s2 r2].
  destruct H2 as (Ek2&->&Ho2). apply (clears_frame k Hk), (keep_clear s); [congruence|done..].
Qed.

Lemma adopt_owes md hit ep lease restore s0 n en s :
  Owes [(md_workload md, lease.2)] [sha hit] s → translatable s →
  let '(s', r) := adopt answer json_parse md hit ep lease restore s0 n en s in r = Ok true ∧ Balanced s'.
Proof.
  intros Ho T. unfold adopt. rewrite eff_bind_eq.
  destruct (step_owes _ _ _ s (frame_restore_bind ep (upstreamSlotFile hit) (rr_epoch restore)) (restore_bind_ok _ _ _ s) Ho)
    as (?&s2&->&Ek2&Ho2).
  rewrite eff_bind_eq.
  destruct (step_owes (perform answer CNow) _ _ s2 (frame_perform CNow) (certain_perform CNow s2) Ho2) as (now&s3&->&Ek3&Ho3).
  rewrite eff_bind_eq. set (m := safeWrite _).
  assert (frame m) as Hf by (unfold m, on_kv; frames). assert (certain m) as Ht by apply certain_safeWrite. clearbody m.
  destruct (step_owes m _ _ s3 Hf (Ht s3) Ho3) as (?&s4&->&Ek4&Ho4).
  assert (kv_and_request s4 = kv_and_request s) as [= _ Er] by congruence. rewrite eff_bind_eq. cbn.
  split; [done|]. split; [done|]. intros r. cbn. rewrite Er. apply T.
Qed.

(** Balanced when the hit is used, clear when it is not. *)
Definition warm_outcome (p : St * result bool) : Prop :=
  match p.2 with Ok true => Balanced p.1 | _ => Clear p.1 end.

Lemma outcome_clear p : Clear p.1 → warm_outcome p.
Proof. intros H. unfold warm_outcome. destruct p.2 as [[]|]; [by apply Clear_Balanced|done|done]. Qed.

Lemma use_restored_owes md hit ep lease restore s0 n en s :
  Owes [(md_workload md, lease.2)] [sha hit] s → x_kv (st_ctx s) = None → translatable s →
  warm_outcome (use_restored answer json_parse sha1 unlink_error md hit ep lease restore s0 n en s).
Proof.
  intros Ho Ekv T. unfold use_restored. rewrite eff_bind_eq.
  destruct (step_owes _ _ _ s (frame_replay hit) (replay_ok hit s T) Ho) as (replay&s1&->&Ek1&Ho1).
  assert (x_kv (st_ctx s1) = None) as Ekv1 by (injection Ek1 as -> _; done).
  assert (translatable s1) as T1 by (by eapply translatable_same).
  assert (∀ s0 n, warm_outcome (adopt answer json_parse md hit ep lease restore s0 n en s1)) as Hadopt.
  { intros s2 n2. pose proof (adopt_owes md hit ep lease restore s2 n2 en s1 Ho1 T1) as H.
    unfold warm_outcome. destruct (adopt _ _ _ _ _ _ _ _ _ _ s1). by destruct H as [-> H]. }
  destruct replay; [apply Hadopt| |apply Hadopt].
  apply outcome_clear, give_back_owes; [|done..]. unfold try_delete_row, on_kv. frames.
Qed.

Lemma apply_warm_owes md hit s0 n en s :
  Clear s → warm_outcome (applyWarmKvHit answer json_parse sha1 url_of unlink_error md hit s0 n en s).
Proof.
  intros (Ho&Ekv&T). unfold applyWarmKvHit. rewrite eff_bind_eq. set (m := safeWrite _).
  assert (frame m) as Hf by (unfold m, on_kv; frames). assert (certain m) as Ht by apply certain_safeWrite. clearbody m.
  destruct (step_owes m _ _ s Hf (Ht s) Ho) as (reserved&s1&->&Ek1&Ho1).
  destruct (negb _); [by apply outcome_clear, (keep_clear s)|].
  rewrite eff_bind_eq. cbn [observe modify]. set (s2 := mkSt _ _ _ _).
  assert (Owes [] [sha hit] s2) as Ho2.
  { destruct Ho1 as [Hl Hr]. split; cbn; [by rewrite open_leases_snoc|rewrite open_rows_snoc]. cbn.
    intros r [->|Hin]%elem_of_cons; [left; left|]. apply Hr in Hin as [Hin|]; [by apply elem_of_nil in Hin|by right]. }
  assert (kv_and_request s2 = kv_and_request s) as Ek2 by done. clearbody s2. clear Ho1 Ek1.
  rewrite eff_bind_eq. pose proof (acquire_owes (md_workload md) _ _ s2 Ho2) as H3.
  destruct (acquire _ s2) as [s3 [[[slot h]|]|e]]; destruct H3 as [Ek3 Ho3]; [| |done].
  2: { pose proof (unreserve_owes (sha hit) _ _ s3 Ho3) as H4. rewrite eff_bind_eq.
       destruct (unreserve answer (sha hit) s3) as [s4 r4]. destruct H4 as (Ek4&->&Ho4).
       apply outcome_clear, (keep_clear s); [cbn; congruence|done..]. }
  assert (kv_and_request s3 = kv_and_request s) as Ek by congruence. clear Ek2 Ek3 Ho2 s2.
  rewrite eff_bind_eq. destruct (step_owes _ _ _ s3 (frame_client md) (client_ok md s3) Ho3) as (ep&s4&->&Ek4&Ho4).
  rewrite eff_bind_eq.
  destruct (step_owes _ _ _ s4 (frame_restore md hit ep (slot, h).1) (restore_ok md hit ep (slot, h).1 s4) Ho4) as ([act rest]&s5&->&Ek5&Ho5).
  assert (kv_and_request s5 = kv_and_request s) as Ek' by congruence. clear Ek4 Ek5 Ho3 Ho4 Ek s3 s4.
  assert (x_kv (st_ctx s5) = None) as Ekv5 by (injection Ek' as -> _; done).
  assert (translatable s5) as T5 by (by eapply translatable_same).
  destruct (negb _); [|by apply use_restored_owes].
  apply outcome_clear, give_back_owes; [|done..]. unfold delete_row, on_kv. frames.
Qed.

Lemma kv_lookup_balanced req s :
  Clear s → Balanced (maybeKvLookup answer json_parse sha1 url_of unlink_error qwen_ctx gemma_ctx req s).1.
Proof.
  intros Hc. unfold maybeKvLookup. rewrite eff_bind_eq. cbn [ctx gets].
  destruct (should_use_stores _ _) as [text|]; [|by apply Clear_Balanced].
  rewrite eff_bind_eq. pose proof (clears_frame _ frame_metadata s Hc) as H1.
  destruct (route_metadata _ _ _ _ s) as [s1 [[md|]|e]]; [|by apply Clear_Balanced..]. cbn [fst] in H1.
  rewrite eff_bind_eq. pose proof (clears_frame _ (frame_find md (boundaryNaiveBytePrefixSha sha1 text) (byteLength text)) s1 H1) as H2.
  destruct (find_prefix _ _ _ _ s1) as [s2 [hit|e]]; [|by apply Clear_Balanced]. cbn [fst] in H2.
  rewrite eff_bind_eq.
  set (m := match hit with Some e => _ | None => _ end).
  assert (warm_outcome (m s2)) as H3.
  { unfold m. destruct hit; [by apply apply_warm_owes|by apply outcome_clear]. }
  clearbody m. unfold warm_outcome in H3. destruct (m s2) as [s3 [[]|e]]; cbn in H3; [done| |by apply Clear_Balanced].
  rewrite eff_bind_eq. set (m2 := if is_omlx _ then _ else _).
  assert (frame m2) as Hf2 by (unfold m2; pose proof frame_client; pose proof frame_save_handle; frames).
  pose proof (clears_frame m2 Hf2 s3 H3) as H4. clearbody m2. destruct (m2 s3) as [s4 [?|e]]; [|by apply Clear_Balanced].
  destruct H4 as (Ho4&_&T4). done.
Qed.

(** *** A whole request *)

Lemma parse_clear req : clears (parseIncoming answer json_parse default_endpoint req).
Proof.
  intros s (Ho&Ekv&T). unfold parseIncoming.
  assert (∀ s1 x, Owes [] [] s1 → x_kv x = None → (∀ r, x_anthropicRequest x = Some r → is_ok (translateAnthropicRequest json_parse r []) = true) →
    Clear (mkSt (st_env s1) (st_shared s1) x (st_obs s1))) as Hnew by (intros s1 x ???; split_and!; done).
  assert (Clear s) as Hc by done.
  destruct (bool_decide (q_path req = "/v1/messages")).
  { unfold anthropicMessagesContext. destruct (isOversizedJsonBody req); [done|].
    rewrite eff_bind_eq. pose proof (clears_frame _ (frame_perform CReadRequest) s Hc) as H1.
    destruct (perform answer CReadRequest s) as [s1 [[text|e]|e]]; try done. cbn [fst] in H1.
    destruct (json_parse text) as [incoming|]; [|done].
    destruct (translateAnthropicRequest json_parse incoming []) as [tr|] eqn:Et; [|done].
    rewrite eff_bind_eq. apply Hnew; [apply H1|done|]. intros r [= <-]. by rewrite Et. }
  destruct (bool_decide (q_path req = "/v1/responses")).
  { unfold responsesApiContext. destruct (isOversizedJsonBody req); [done|].
    rewrite eff_bind_eq. pose proof (clears_frame _ (frame_perform CReadRequest) s Hc) as H1.
    destruct (perform answer CReadRequest s) as [s1 [[text|e]|e]]; try done. cbn [fst] in H1.
    destruct (json_parse text) as [incoming|]; [|done].
    destruct (translateResponsesRequest incoming) as [tr|]; [|done].
    rewrite eff_bind_eq. by apply Hnew; [apply H1|..]. }
  rewrite eff_bind_eq. by apply Hnew.
Qed.

Lemma frame_route_by_model :
  frame (route_by_model answer json_parse url_of localeCompare serverAlias defaultModel).
Proof. unfold route_by_model, currentRouteMap, on_routes, ctx. frames. Qed.

Lemma frame_resolve req : frame (resolveRoute answer json_parse url_of localeCompare serverAlias defaultModel req).
Proof. unfold resolveRoute, resolveJsonBodyRoute, ctx. pose proof frame_route_by_model. frames. Qed.

Lemma serve_owes req id s :
  Clear s →
  Owes [] [] (serve answer json_parse sha1 pow_half parse_float new_decoder decode url_of unlink_error stat_error join readdirSync
                others_files others_kv others_cache qwen_ctx gemma_ctx req id s).1.
Proof.
  intros Hc. unfold serve.
  rewrite eff_bind_eq. pose proof (clears_frame _ frame_strip s Hc) as H1.
  destruct (stripVendorFieldsFromBody json_parse s) as [s1 [?|?]]; [|apply H1]. cbn [fst] in H1.
  rewrite eff_bind_eq.
  assert (frame (swallow (maybeResponseCacheLookup answer json_parse sha1 parse_float req))) as Hf
    by (unfold swallow; pose proof frame_cache_lookup; frames).
  pose proof (clears_frame _ Hf s1 H1) as H2. destruct (swallow _ s1) as [s2 [?|?]]; [|apply H2]. cbn [fst] in H2.
  rewrite eff_bind_eq. cbn [ctx gets]. destruct (x_hit (st_ctx s2)); [apply H2|].
  rewrite eff_bind_eq.
  assert (Balanced (swallow (maybeKvLookup answer json_parse sha1 url_of unlink_error qwen_ctx gemma_ctx req) s2).1) as H3.
  { pose proof (kv_lookup_balanced req s2 H2) as H3. unfold swallow, try_catch. by destruct (maybeKvLookup _ _ _ _ _ _ _ _ s2) as [? [?|?]]. }
  destruct (swallow (maybeKvLookup _ _ _ _ _ _ _ _) s2) as [s3 [u|e]] eqn:Es.
  2: { exfalso. revert Es. unfold swallow, try_catch. by destruct (maybeKvLookup _ _ _ _ _ _ _ _ s2) as [? [?|?]]. }
  cbn [fst] in H3.
  match goal with |- Owes _ _ (finally ?m _ _).1 => assert (balances m) as Hk end.
  { apply balances_bind; [apply balances_frame, frame_forward|]. intros upstream.
    apply balances_bind; [apply balances_swallow, balances_maybe_persist|]. intros _.
    apply balances_bind; [apply balances_frame, frame_synthesize|]. intros sse.
    apply balances_bind; [destruct sse; apply balances_frame; [apply frame_ret|apply frame_translate]|]. intros translated.
    apply balances_frame, frame_persist_cache. }
  pose proof (finally_release_owes _ s3 Hk H3) as H4. destruct (finally _ _ s3). by destruct H4.
Qed.

Lemma proxy_owes req id e sh :
  Owes [] [] (proxyOpenAI answer json_parse sha1 pow_half parse_float new_decoder decode url_of localeCompare unlink_error stat_error
                join readdirSync others_files others_kv others_cache default_endpoint serverAlias defaultModel qwen_ctx gemma_ctx
                req id (start e sh)).1.
Proof.
  unfold proxyOpenAI. rewrite eff_bind_eq.
  assert (Clear (start e sh)) as Hs by (split_and!; [split; intros ? H; by apply elem_of_nil in H|done|done]).
  pose proof (parse_clear req _ Hs) as H1. destruct (parseIncoming _ _ _ _ _) as [s1 [[r|]|?]]; try apply H1. cbn [fst] in H1.
  rewrite eff_bind_eq. pose proof (clears_frame _ (frame_resolve req) s1 H1) as H2.
  destruct (resolveRoute _ _ _ _ _ _ _ s1) as [s2 [[r|]|?]]; try apply H2. cbn [fst] in H2.
  rewrite eff_bind_eq. cbn [ctx gets]. destruct (_ && _); [apply H2|]. by apply serve_owes.
Qed.


End props.

(** ** A request that finds a warm slot *)

Module Scenario.

Definition call_text : string := "{'id':'t','type':'function','function':{'name':'f','arguments':'{}'}}".
Definition call_json : Json := tool_call (Some (JStr "t")) (Some (JStr "f")) (Some (JStr "{}")).
Definition body_text : string := "body".
Definition body_json : Json :=
  JObj [("model", JStr "m"); ("messages", JArr [JObj [("role", JStr "assistant"); ("content", JArr [
    JObj [("type", JStr "tool_use"); ("id", JStr "t"); ("name", JStr "f"); ("input", JObj [])]])]])].
Definition trailer (call : string) : Json :=
  trailer_json (mkTrailer (JNum 1) (Some [("t", call)]) None).

(** Reads the texts of this scenario; the calls of a trailer are [call_text]. *)
Definition translated : Json :=
  match translateAnthropicRequest (λ _, None) body_json [] with Ok v => v | Err _ => JNull end.
Definition parse (text : string) : option Json :=
  if bool_decide (text = body_text) then Some body_json
  else if bool_decide (text = stringify translated) then Some translated
  else if bool_decide (text = call_text) then Some call_json
  else if bool_decide (text = "good trailer") then Some (trailer call_text)
  else if bool_decide (text = "bad trailer") then Some (trailer "no call")
  else None.

Definition route : Route := mkRoute "w" "m" "127.0.0.1" 8080 "llamacpp" ModelRun None.

(** The upstream answers, and its slots can be restored. *)
Definition environment (trailer_text : string) (c : Call) (e : unit) (sh : Shared) : unit * Shared * Resp c :=
  (e, sh,
   match c return Resp c with
   | CReadRequest => Ok body_text
   | CPause => tt
   | CMachine => mkMachine None [route] [] 0
   | CServerState _ => Some (mkServerState "m" "t0" [] (Some "/slots"))
   | CHostState _ => None
   | CNow => 0
   | CEnv _ => None
   | CDb => false
   | CSupports _ _ => false
   | CRestore _ => mkRestore true None
   | CSave _ => false
   | CReadFile _ => Some trailer_text
   | CWriteTrailer _ _ => true
   | CMkdir _ => true
   | CSize _ => None
   | CFetch _ => Ok (mkResponse 200 [("content-type", "application/json")] (Text "{}") None)
   | CAborted => false
   end).

Definition request : Request := mkRequest "POST" "/v1/messages" "" [("content-type", "application/json")].

(** A slot saved for the text of the request, with a tool map in its trailer. *)
Definition saved : KvEntry :=
  let text := stringify translated in
  mkKvEntry text "w" (Some "m") "/slots/a.kvslot" 0 (byteLength text) 32768 0 0 0 1 1 cold (byteLength text) "t0|m" 0 idle
    None EXT_FLAG_TOOL_MAP.
Definition shared : Shared := mkShared (KvStore.insert saved (mkKvWorld ∅ ∅ [])) ∅ ∅ (mkRouteState None []).

Definition run (trailer_text : string) : @Proxy.St unit * result Response :=
  proxyOpenAI (environment trailer_text) parse id (λ q, q) (λ _, None) tt (λ _ _, (tt, "")) (λ _, Some (mkUrl "" "" false))
    (λ _ _, 0) (λ _, None) (λ _, None) (λ a b, a +:+ b) (λ _, mret []) id id id "http://default" "" "" "" "" request JNull
    (start tt shared).

(** The lease is taken on the way. *)
Definition was_acquired (o : Obs) : bool := match o with OAcquired _ _ => true | _ => false end.

End Scenario.

Lemma Scenario_good_trailers : trailers_written (Scenario.environment "good trailer") Scenario.parse.
Proof.
  intros path e sh t m key text H1 H2 H3. vm_compute in H1. injection H1 as <-. cbn in H2. injection H2 as <-.
  cbn in H3. case_decide; [|done]. injection H3 as <-. by vm_compute.
Qed.


(** A trailer whose tool map holds no tool call makes the
    translation of the request throw after the slot was leased and before the
    request balances the lease: it is answered without the slot, but nothing ever
    gives the slot back, and later requests to the workload find none free. *)
Theorem broken_trailer_keeps_slot :
  let s := (Scenario.run "bad trailer").1 in
  is_ok (Scenario.run "bad trailer").2 = true ∧ open_leases (st_obs s) = [("w", 0%nat)] ∧
  open_rows (st_obs s) = [sha Scenario.saved] ∧
  (SlotAllocator.acquire (allocator_of (st_shared s) "w")).2 = None.
Proof. vm_compute. split_and!; reflexivity. Qed.
