(* ===== verification/OpenaiProxySafety.v ===== *)
(** * Inference proxy: what is sent and what is kept

    Two guarantees that hold all the way through [proxyOpenAI]: which
    credentials reach an upstream, and which answers are remembered. *)

From S2P Require Import Prelude JsMap JsText JsJson JsValues KvStore ResponseCache SlotAllocator AnthropicRequest ProxyBody ResponsesApi ProxyRoutes HostSidecars ProxyMeta OpenaiProxy.
From Stdlib Require Import QArith.
Import ProxyBody Responses Routes Meta Proxy.
Import (hints) ResponseCache KvStore.

#[local] Open Scope string_scope.
#[local] Open Scope list_scope.
#[local] Open Scope Z_scope.

(** ** What may be seen *)

(** The address of a route, with what follows the host. *)
Definition address_of (r : Route) (suffix : string) : string :=
  match rt_peer r with
  | Some peer => if bool_decide (peerEndpoint peer = "") then endpoint_of (rt_host r) (rt_port r) +:+ suffix
                 else peerEndpoint peer +:+ suffix
  | None => endpoint_of (rt_host r) (rt_port r) +:+ suffix
  end.

(** No bearer but a peer's own, and that only to the peer it belongs to. *)
Definition own_credentials (f : Sent) : Prop :=
  match jm_get (f_headers f) "authorization" with
  | None => True
  | Some value => ∃ r peer t suffix, rt_peer r = Some peer ∧ token peer = Some t ∧ value = "Bearer " +:+ t ∧
      f_target f = address_of r suffix
  end.

Section props.
Context {E : Type} (answer : ∀ c : Call, E → Shared → E * Shared * Resp c).
Context (json_parse : string → option Json) (sha1 : string → string) (pow_half : Q → Q) (parse_float : string → option Q).
Context {Decoder : Type} (new_decoder : Decoder) (decode : Decoder → list Byte.byte → Decoder * string).
Context (url_of : string → option Url) (localeCompare : string → string → Z).
Context (unlink_error stat_error : string → option string) (join : string → string → string)
        (readdirSync : string → eff KvWorld (list string)) (others_files : KvWorld → KvWorld)
        (others_kv : gmap string KvEntryRow → gmap string KvEntryRow)
        (others_cache : gmap ResponseCache.ResponseCacheLookup ResponseCache.ResponseCacheEntry →
                        gmap ResponseCache.ResponseCacheLookup ResponseCache.ResponseCacheEntry).
Context (default_endpoint serverAlias defaultModel qwen_ctx gemma_ctx : string).

Notation St := (@Proxy.St E).
Notation M := (eff St).

(** A complete answer that tells of no error. *)
Definition whole_answer (e : ResponseCache.ResponseCacheEntry) : Prop :=
  let kind := Some (ResponseCache.contentType e) in let body := ResponseCache.responseBody e in
  ResponseCache.statusCode e = 200 ∧
  (isJsonContentType kind = true ∨ is_event_stream kind = true) ∧
  (isJsonContentType kind = true → ∀ v, json_parse body = Some v → truthy_opt (opt_get (Some v) "error") = false) ∧
  (is_event_stream kind = true → isCompleteSseBody body = true).

Definition fine (o : Obs) : Prop :=
  match o with
  | OCall (CFetch f) => own_credentials f
  | OStored e => whole_answer e
  | _ => True
  end.

(** The client's bearer is gone, and a route comes with its address. *)
Definition fine_context (x : ProxyContext) : Prop :=
  jm_get (x_headers x) "authorization" = None ∧
  match x_route x with Some (r, target) => target = x_target x ∧ ∃ suffix, target = address_of r suffix | None => True end.

Definition Fine (s : St) : Prop := fine_context (st_ctx s) ∧ ∀ o, o ∈ st_obs s → fine o.

(** ** Steps that keep it *)

Definition stays {A} (m : M A) : Prop := ∀ s, Fine s → Fine (m s).1.

Lemma stays_bind {A B} (m : M A) (f : A → M B) : stays m → (∀ a, stays (f a)) → stays (m ≫= f).
Proof.
  intros Hm Hf s H. rewrite eff_bind_eq. specialize (Hm s H). destruct (m s) as [s1 [a|e]]; cbn in *; [by apply Hf|done].
Qed.
Lemma stays_try {A} (m : M A) h : stays m → (∀ e, stays (h e)) → stays (try_catch m h).
Proof.
  intros Hm Hf s H. unfold try_catch. specialize (Hm s H). destruct (m s) as [s1 [a|e]]; cbn in *; [done|by apply Hf].
Qed.
Lemma stays_finally {A} (m : M A) f : stays m → stays f → stays (finally m f).
Proof.
  intros Hm Hf s H. unfold finally. specialize (Hm s H). destruct (m s) as [s1 r]. specialize (Hf s1 Hm).
  by destruct (f s1) as [s2 [?|?]].
Qed.
Lemma stays_ret {A} (a : A) : stays (mret a).
Proof. by intros s. Qed.
Lemma stays_throw {A} e : stays (throw e : M A).
Proof. by intros s. Qed.
Lemma stays_gets {A} (f : St → A) : stays (gets f).
Proof. by intros s. Qed.
Lemma stays_on_shared {A} (f : Shared → Shared * A) : stays (on_shared f : M A).
Proof. intros s H. unfold on_shared. by destruct (f _). Qed.
Lemma fine_snoc obs o : (∀ o, o ∈ obs → fine o) → fine o → ∀ o', o' ∈ obs ++ [o] → fine o'.
Proof. intros H Ho o' [?| ->%list_elem_of_singleton]%elem_of_app; [by apply H|done]. Qed.
Lemma stays_observe o : fine o → stays (observe o : M unit).
Proof. intros Ho s [Hx H]. split; [done|]. by apply fine_snoc. Qed.
Lemma stays_perform c : fine (OCall c) → stays (perform answer c).
Proof. intros Hc s [Hx H]. unfold perform. destruct (answer c _ _) as [[e sh] r]. split; [done|]. by apply fine_snoc. Qed.
Lemma stays_on_ctx f : (∀ x, fine_context x → fine_context (f x)) → stays (on_ctx f : M unit).
Proof. intros H s [Hx Ho]. split; [by apply H|done]. Qed.
Lemma stays_statement {A} (m : M A) : stays m → stays (statement answer m).
Proof. intros H. apply stays_bind; [exact (stays_perform CDb I)|]. intros []; [apply stays_throw|done]. Qed.
Lemma stays_safeWrite {A} (m : M A) : stays m → stays (safeWrite m).
Proof. intros H. apply stays_try; [apply stays_bind; [done|intros; apply stays_ret]|intros; apply stays_ret]. Qed.

Create HintDb stays.
#[local] Hint Resolve stays_ret stays_throw stays_gets stays_on_shared : stays.

(** Runs through a program whose steps show nothing and leave headers, target
    and route alone. *)
Ltac keeping :=
  repeat first
    [ solve [auto with stays]
    | match goal with |- stays (perform answer ?c) => exact (stays_perform c I) end
    | apply stays_bind; [|intros]
    | apply stays_safeWrite | apply stays_statement | apply stays_finally
    | apply stays_try; [|intros]
    | let h := fresh in apply stays_on_ctx; intros ? h; exact h
    | apply stays_observe; exact I
    | apply stays_on_shared
    | match goal with |- stays (match ?x with _ => _ end) => destruct x end
    | match goal with |- stays (let '(_, _) := ?x in _) => destruct x end ].

Lemma stays_synthesize upstream : stays (maybeSynthesizeOmlxSseResponse answer json_parse upstream).
Proof. unfold maybeSynthesizeOmlxSseResponse, body_json, ctx. keeping. Qed.
Lemma stays_strip : stays (stripVendorFieldsFromBody json_parse : M unit).
Proof. unfold stripVendorFieldsFromBody, ctx. keeping. Qed.
Lemma stays_cache_lookup req : stays (maybeResponseCacheLookup answer json_parse sha1 parse_float req).
Proof.
  unfold maybeResponseCacheLookup, cache_key, route_epoch, normalize_stream, cacheHitResponse, on_cache, ctx.
  pose proof stays_synthesize. keeping.
Qed.
#[local] Hint Resolve stays_synthesize stays_strip stays_cache_lookup : stays.

Lemma stays_release_lease wl lease : stays (release_lease wl lease : M unit).
Proof. unfold release_lease. keeping. Qed.
Lemma stays_unreserve sha' : stays (unreserve answer sha' : M unit).
Proof. unfold unreserve, on_kv. keeping. Qed.
Lemma stays_acquire wl : stays (acquire wl : M _).
Proof. unfold acquire. keeping. Qed.
Lemma stays_client md : stays (slotClientFor url_of md : M string).
Proof. unfold slotClientFor. keeping. Qed.
#[local] Hint Resolve stays_release_lease stays_unreserve stays_acquire stays_client : stays.

Lemma stays_adopt md hit ep lease restore s n en : stays (adopt answer json_parse md hit ep lease restore s n en).
Proof. unfold adopt, maybeInjectOmlxRestoreBind, on_kv, ctx. keeping. Qed.
#[local] Hint Resolve stays_adopt : stays.
Lemma stays_warm md hit s n en : stays (applyWarmKvHit answer json_parse sha1 url_of unlink_error md hit s n en).
Proof.
  unfold applyWarmKvHit, use_restored, restore_slot, applyAnthropicToolMapReplay, delete_row, try_delete_row, on_kv, ctx. keeping.
Qed.
#[local] Hint Resolve stays_warm : stays.
Lemma stays_kv_lookup req : stays (maybeKvLookup answer json_parse sha1 url_of unlink_error qwen_ctx gemma_ctx req).
Proof. unfold maybeKvLookup, route_metadata, find_prefix, maybeInjectOmlxSaveHandle, ctx. keeping. Qed.
#[local] Hint Resolve stays_kv_lookup : stays.

Lemma stays_slot kv slot tok js :
  stays (persistSlotAndMaintain answer pow_half url_of unlink_error stat_error join readdirSync others_files others_kv kv slot tok js).
Proof. unfold persistSlotAndMaintain, saveSlotUpstream, commitSlotToRegistry, maintain, sweep_orphans, on_kv, ctx. keeping. Qed.
Lemma stays_false_hit kv tok : stays (checkFalseHit answer unlink_error kv tok).
Proof. unfold checkFalseHit, try_delete_row, on_kv. keeping. Qed.
Lemma stays_release_warm : stays (releaseWarmHitLease answer : M unit).
Proof. unfold releaseWarmHitLease, ctx. keeping. Qed.
#[local] Hint Resolve stays_slot stays_false_hit stays_release_warm : stays.
Lemma stays_persist upstream :
  stays (maybePersistKv answer json_parse pow_half url_of unlink_error stat_error join readdirSync others_files others_kv upstream).
Proof. unfold maybePersistKv, persist_unless_stale, saveHandleSupportedForRoute, read_first_token, body_json, ctx. keeping. Qed.
Lemma stays_translate id upstream : stays (maybeTranslateResponse answer json_parse new_decoder decode id upstream).
Proof.
  unfold maybeTranslateResponse, translateAnthropicSseResponse, translateAnthropicJsonResponse, translateResponsesJsonResponse, body_json, ctx.
  keeping.
Qed.
#[local] Hint Resolve stays_persist stays_translate : stays.

(** ** The request *)

Lemma forwarded_no_bearer headers : jm_get (forwarded_headers headers) "authorization" = None.
Proof.
  unfold forwarded_headers. induction headers as [|[k v] headers IH]; [done|]. rewrite filter_cons. cbn.
  case_decide as Hk; [|done]. cbn. case_decide as Hka; [|done]. subst. exfalso. apply Hk. vm_compute. set_solver.
Qed.

Lemma routed_address map model path search r :
  routedEndpointForModel map model path search = Some r → ∃ suffix, r.2 = address_of r.1 suffix.
Proof.
  unfold routedEndpointForModel. destruct (jm_get map model) as [route|]; [|done]. intros [= <-].
  exists (path +:+ search). unfold address_of. cbn. by destruct (rt_peer route).
Qed.

Lemma stays_new req (f : ProxyContext → ProxyContext) :
  (∀ x, x_headers (f x) = forwarded_headers (q_headers req) ∧ x_route (f x) = None) → stays (on_ctx f : M unit).
Proof.
  intros H. apply stays_on_ctx. intros x _. destruct (H x) as [Eh Er]. unfold fine_context. rewrite Eh, Er.
  split; [apply forwarded_no_bearer|done].
Qed.

Lemma stays_parse req : stays (parseIncoming answer json_parse default_endpoint req).
Proof.
  unfold parseIncoming, anthropicMessagesContext, responsesApiContext.
  repeat match goal with |- stays (on_ctx _) => by apply (stays_new req) | _ => progress keeping end.
  all: by apply (stays_new req).
Qed.

Lemma stays_route_by_model :
  stays (route_by_model answer json_parse url_of localeCompare serverAlias defaultModel).
Proof.
  unfold route_by_model, currentRouteMap, on_routes, ctx. apply stays_bind; [keeping|]. intros x.
  destruct (x_bodyText x ≫= _) as [[|c model]|]; [keeping| |keeping].
  apply stays_bind; [keeping|]. intros map. destruct (routedEndpointForModel map _ _ _) as [r|] eqn:Er; [|keeping].
  apply stays_bind; [|intros; apply stays_ret]. apply stays_on_ctx. intros y [Hh _]. split; [done|].
  apply routed_address in Er as [suffix Es]. cbn. destruct r. split; [done|]. by exists suffix.
Qed.
#[local] Hint Resolve stays_parse stays_route_by_model : stays.

Lemma stays_resolve req : stays (resolveRoute answer json_parse url_of localeCompare serverAlias defaultModel req).
Proof. unfold resolveRoute, resolveJsonBodyRoute, ctx. keeping. Qed.

Lemma fine_sent x method timeout :
  fine_context x → own_credentials (mkSent (x_target x) method (upstream_headers x) (x_body x) (peerTlsForRoute (fst <$> x_route x)) timeout).
Proof.
  intros [Hh Hr]. unfold own_credentials, upstream_headers. cbn. destruct (x_route x) as [[r target]|]; cbn; [|by rewrite Hh].
  destruct (rt_peer r) as [peer|] eqn:Ep; cbn; [|by rewrite Hh]. destruct (token peer) as [[|c t]|] eqn:Et; [by rewrite Hh| |by rewrite Hh].
  rewrite jm_get_set_eq. destruct Hr as [<- [suffix ->]]. by exists r, peer, (String c t), suffix.
Qed.

Lemma stays_forward req : stays (forward answer json_parse req).
Proof.
  intros s H. unfold forward. rewrite eff_bind_eq. cbn [ctx gets].
  assert (∀ c, fine (OCall c) → ∀ (k : Resp c → M Response), (∀ a, stays (k a)) → ∀ s, Fine s → Fine ((perform answer c ≫= k) s).1) as Hstep.
  { intros c Hc k Hk s1 H1. by apply (stays_bind _ _ (stays_perform c Hc) Hk). }
  destruct (_ && _); [done|]. rewrite eff_bind_eq.
  pose proof (stays_perform (CEnv "LLAMACTL_UPSTREAM_TIMEOUT_MS") I s H) as H1.
  destruct (perform answer _ s) as [s1 [raw|e]]; [|done].
  apply (Hstep (CFetch _)); [apply fine_sent, H| |done].
  unfold on_routes. intros a. keeping.
Qed.

(** ** The answer *)

Lemma cacheable_whole anthropic upstream contentType body e :
  cacheable json_parse anthropic upstream contentType body = true →
  ResponseCache.statusCode e = r_status upstream → ResponseCache.contentType e = default "" contentType →
  ResponseCache.responseBody e = body → whole_answer e.
Proof.
  intros H Es Ec Eb. unfold whole_answer. rewrite Es, Ec, Eb. unfold cacheable in H. apply andb_prop in H as [Hs H].
  apply Z.eqb_eq in Hs.
  assert (isJsonContentType (Some (default "" contentType)) = isJsonContentType contentType) as -> by (by destruct contentType).
  assert (is_event_stream (Some (default "" contentType)) = is_event_stream contentType) as -> by (by destruct contentType).
  split; [done|]. unfold isErrorEnvelope in H.
  destruct (isJsonContentType contentType), (is_event_stream contentType); split_and!; try done; try (by left); try (by right);
    repeat match goal with H : _ && _ = true |- _ => apply andb_prop in H as [? ?] end; try done.
  all: intros _ v Hv; rewrite Hv in *; by apply negb_true_iff.
Qed.

Lemma stays_persist_cache upstream : stays (maybePersistResponseCache answer json_parse pow_half others_cache upstream).
Proof.
  unfold maybePersistResponseCache, on_cache, ctx. apply stays_bind; [keeping|]. intros x.
  destruct (x_responseCache x) as [state|]; [|keeping]. destruct (x_hit x); [keeping|].
  apply stays_bind; [keeping|]. intros _. destruct (body_text upstream) as [body|]; [|keeping].
  destruct (negb (cacheable _ _ _ _ _)) eqn:Ec; [keeping|]. apply negb_false_iff in Ec.
  apply stays_bind; [keeping|]. intros raw. destruct (_ <? _); [keeping|].
  apply stays_bind; [keeping|]. intros now. apply stays_bind; [keeping|]. intros [?|]; [|keeping].
  apply stays_bind; [apply stays_observe; by eapply cacheable_whole|]. intros _. keeping.
Qed.
#[local] Hint Resolve stays_resolve stays_forward stays_persist_cache : stays.

Lemma proxy_fine req id e sh :
  Fine (proxyOpenAI answer json_parse sha1 pow_half parse_float new_decoder decode url_of localeCompare unlink_error stat_error
          join readdirSync others_files others_kv others_cache default_endpoint serverAlias defaultModel qwen_ctx gemma_ctx
          req id (start e sh)).1.
Proof.
  assert (Fine (start e sh)) as H by (split; [done|intros o Ho; by apply elem_of_nil in Ho]). revert H.
  generalize (start e sh). change (stays (proxyOpenAI answer json_parse sha1 pow_half parse_float new_decoder decode url_of localeCompare
    unlink_error stat_error join readdirSync others_files others_kv others_cache default_endpoint serverAlias defaultModel qwen_ctx
    gemma_ctx req id)).
  unfold proxyOpenAI, serve, swallow, ctx. keeping.
Qed.



End props.

(** ** A deterministic request to a model of another node *)

Module PeerScenario.

Definition body_json : Json := JObj [("model", JStr "q"); ("temperature", JNum 0); ("seed", JNum 1)].
Definition parse (text : string) : option Json :=
  if bool_decide (text = stringify body_json) then Some body_json
  else if bool_decide (text = "{}") then Some (JObj []) else None.
Definition peer : ClusterConfigPeer := mkConfigPeer "n" "https://n:1" None None (Some "tok").
Definition shared : Shared :=
  mkShared (mkKvWorld ∅ ∅ []) ∅ ∅ (mkRouteState None [("n", mkSnapshot [mkPeerWorkload "q" None] false 0)]).

Definition environment (c : Call) (e : unit) (sh : Shared) : unit * Shared * Resp c :=
  (e, sh,
   match c return Resp c with
   | CReadRequest => Ok (stringify body_json)
   | CPause => tt
   | CMachine => mkMachine None [] [peer] 0
   | CServerState _ => None
   | CHostState _ => None
   | CNow => 0
   | CEnv _ => None
   | CDb => false
   | CSupports _ _ => false
   | CRestore _ => mkRestore true None
   | CSave _ => false
   | CReadFile _ => None
   | CWriteTrailer _ _ => true
   | CMkdir _ => true
   | CSize _ => None
   | CFetch _ => Ok (mkResponse 200 [("content-type", "application/json")] (Text "{}") None)
   | CAborted => false
   end).

Definition request : Request :=
  mkRequest "POST" "/v1/chat/completions" "" [("authorization", "Bearer client"); ("content-type", "application/json")].

Definition run : @Proxy.St unit * result Response :=
  proxyOpenAI environment parse id (λ q, q) (λ _, None) tt (λ _ _, (tt, "")) (λ _, Some (mkUrl "n" "1" true))
    (λ _ _, 0) (λ _, None) (λ _, None) (λ a b, a +:+ b) (λ _, mret []) id id id "http://default" "" "" "" "" request JNull
    (start tt shared).

Definition sent (obs : list Obs) : list Sent := omap (λ o, match o with OCall (CFetch f) => Some f | _ => None end) obs.
Definition stored (obs : list Obs) : list ResponseCache.ResponseCacheEntry :=
  omap (λ o, match o with OStored e => Some e | _ => None end) obs.

End PeerScenario.

Lemma peer_scenario_sent f : f ∈ PeerScenario.sent (st_obs PeerScenario.run.1) → OCall (CFetch f) ∈ st_obs PeerScenario.run.1.
Proof. intros ([[] | | | | | |]&Hin&Hf)%list_elem_of_omap; try done. by injection Hf as ->. Qed.
Lemma peer_scenario_stored e : e ∈ PeerScenario.stored (st_obs PeerScenario.run.1) → OStored e ∈ st_obs PeerScenario.run.1.
Proof. intros ([]&Hin&Hf)%list_elem_of_omap; try done. by injection Hf as ->. Qed.

Definition peer_sent : Sent :=
  mkSent "https://n:1/v1/chat/completions" "POST" [("content-type", "application/json"); ("authorization", "Bearer tok")]
    (SendText (stringify PeerScenario.body_json)) None 900000.
Lemma peer_sent_seen : OCall (CFetch peer_sent) ∈ st_obs PeerScenario.run.1.
Proof. apply peer_scenario_sent. vm_compute. left. Qed.


Definition peer_stored : ResponseCache.ResponseCacheEntry :=
  ResponseCache.mkEntry (stringify (JObj [("model", JStr "q"); ("seed", JNum 1); ("temperature", JNum 0)])) "q" "n:q" "peer:n:q"
    ResponseCache.openai "application/json" 200 "{}" 38 2 0 0 0.
Lemma peer_stored_seen : OStored peer_stored ∈ st_obs PeerScenario.run.1.
Proof. apply peer_scenario_stored. vm_compute. left. Qed.

