(* ===== verification/RagSchedule.v ===== *)
(** * Retrieval pipelines: the store and the scheduler

    packages/remote/src/rag/pipeline/store.ts and scheduler.ts: the manifests
    that operators and composites put down, one directory each, and the loop
    that starts those whose time has come.  YAML, schemas, paths, dates and the
    hash of a spec are parameters; what a run does is a question to the oracle. *)

From S2P Require Import Prelude Trace JsSort JsText.
From Stdlib Require Import Ascii.

#[local] Open Scope string_scope.
#[local] Open Scope list_scope.
#[local] Open Scope Z_scope.

(** [CompositeOwnership] of a composite's entry. *)
Record Ownership := mkOwnership { compositeNames : list string; specHash : string }.

(** A manifest: what the store and the scheduler look at, and the rest. *)
Record Manifest (Spec : Type) := mkManifest {
  mf_name : string; mf_spec : Spec; mf_schedule : option string; mf_ownership : option Ownership
}.
Arguments mkManifest {Spec}.
Arguments mf_name {Spec}.
Arguments mf_spec {Spec}.
Arguments mf_schedule {Spec}.
Arguments mf_ownership {Spec}.

Definition with_ownership {Spec} (o : option Ownership) (m : Manifest Spec) : Manifest Spec :=
  mkManifest (mf_name m) (mf_spec m) (mf_schedule m) o.

(** ** The store *)

Module PipelineStore.
Section store.
Context {Spec Summary : Type}.
Notation Manifest := (Manifest Spec).

(** A pipeline's directory: spec.yaml ([Some None] when it does not parse), and
    state.json with its [at] and [summary]. *)
Record Dir := mkDir { d_spec : option (option Manifest); d_state : option (string * Summary) }.
Notation Store := (gmap string Dir).

Inductive ApplyConflict := NameConflict (name existingOwner : string) | ShapeConflict (name reason : string).
Inductive ApplyResult := Applied (changed : bool) (path : string) | Conflict (c : ApplyConflict).
Inductive RemoveResult := Removed (deleted : bool) | RemoveConflict (name existingOwner : string).

(** [defaultPipelinesDir()], [resolve(join(base, name))], the names of the
    directories below the root, and the manifest that the schema makes of one. *)
Context (base : string) (resolve_join : string → string → string) (children : Store → list string)
        (entrySpecHash : Manifest → string) (localeCompare : string → string → Z).

Definition ends_with_slash (s : string) : bool :=
  match last (String.list_ascii_of_string s) with Some c => bool_decide (c = "/"%char) | None => false end.

Definition pipelineDir (name : string) : result string :=
  let candidate := resolve_join base name in
  if startsWith (if ends_with_slash base then base else base +:+ "/") candidate then Ok candidate
  else let q := String "034"%char EmptyString in Err ("pipeline name escapes storage root: " +:+ q +:+ name +:+ q).

Notation M := (eff Store).

Definition dir_of (name : string) : M string := λ s, (s, pipelineDir name).
Definition specPath (dir : string) : string := dir +:+ "/spec.yaml".

Definition loadPipeline (name : string) : M (option Manifest) :=
  dir ← dir_of name; gets (λ s, d ← s !! dir; m ← d_spec d; m).

(** The directory is made when missing; the rest of it stays. *)
Definition write_spec (dir : string) (m : Manifest) (s : Store) : Store :=
  <[dir := mkDir (Some (Some m)) (d ← s !! dir; d_state d)]> s.

Definition writeManifest (m : Manifest) : M string :=
  dir ← dir_of (mf_name m); modify (write_spec dir m);; mret (specPath dir).

(** Sorted as [sort()] does, without duplicates. *)
Definition merge_names (a b : list string) : list string :=
  js_sort (λ x y, match String.compare x y with Lt => -1 | Eq => 0 | Gt => 1 end) (remove_dups (a ++ b)).

Definition name_conflict (name owner : string) : ApplyResult := Conflict (NameConflict name owner).

Definition apply_owned (parsed : Manifest) (cur : Ownership) (claimingNames : list string) : M ApplyResult :=
  let newHash := entrySpecHash parsed in
  if negb (bool_decide (specHash cur = newHash)) then
    mret (Conflict (ShapeConflict (mf_name parsed) ("existing specHash " +:+ specHash cur +:+ " != new " +:+ newHash)))
  else if forallb (λ n, bool_decide (n ∈ compositeNames cur)) claimingNames then
    dir ← dir_of (mf_name parsed); mret (Applied false (specPath dir))
  else
    let merged := merge_names (compositeNames cur) claimingNames in
    path ← writeManifest (with_ownership (Some (mkOwnership merged newHash)) parsed);
    mret (Applied true path).

(** [ownership] is the claim of a composite; an operator has none. *)
Definition applyPipeline (parsed : Manifest) (ownership : option (list string)) : M ApplyResult :=
  let newHash := entrySpecHash parsed in
  cur ← loadPipeline (mf_name parsed);
  match cur with
  | None =>
      path ← writeManifest (match ownership with
                            | Some names => with_ownership (Some (mkOwnership names newHash)) parsed
                            | None => parsed
                            end);
      mret (Applied true path)
  | Some cur =>
      match mf_ownership cur, ownership with
      | None, Some _ => mret (name_conflict (mf_name parsed) "operator")
      | None, None =>
          path ← writeManifest parsed;
          mret (Applied (negb (bool_decide (entrySpecHash cur = newHash))) path)
      | Some _, None => mret (name_conflict (mf_name parsed) "composite")
      | Some o, Some names => apply_owned parsed o names
      end
  end.

Definition removeOwn (name : string) : M bool :=
  dir ← dir_of name;
  there ← gets (λ s, bool_decide (is_Some (s !! dir)));
  if there : bool then modify (delete dir);; mret true else mret false.

Definition removeForComposite (name compositeName : string) : M RemoveResult :=
  cur ← loadPipeline name;
  match cur with
  | None => mret (Removed false)
  | Some cur =>
      match mf_ownership cur with
      | None => mret (RemoveConflict name "operator")
      | Some o =>
          if bool_decide (compositeName = "") then mret (Removed false) else
          dir ← dir_of name;
          match filter (λ n, n ≠ compositeName) (compositeNames o) with
          | [] => modify (delete dir);; mret (Removed true)
          | remaining =>
              modify (write_spec dir (with_ownership (Some (mkOwnership remaining (specHash o))) cur));;
              mret (Removed false)
          end
      end
  end.

(** [lastRun.at] of a record. *)
Record PipelineRecord := mkRecord { pr_name : string; pr_manifest : Manifest; pr_lastRunAt : option string }.

Definition record_of (name : string) : M (option PipelineRecord) :=
  manifest ← loadPipeline name;
  match manifest with
  | None => mret None
  | Some m =>
      dir ← dir_of name;
      at_ ← gets (λ s, d ← s !! dir; fst <$> d_state d);
      mret (Some (mkRecord name m at_))
  end.

Fixpoint records_of (names : list string) : M (list PipelineRecord) :=
  match names with
  | [] => mret []
  | name :: rest => r ← record_of name; rs ← records_of rest; mret (match r with Some r => r :: rs | None => rs end)
  end.

Definition listPipelines : M (list PipelineRecord) :=
  names ← gets children;
  out ← records_of names;
  mret (js_sort (λ a b, localeCompare (pr_name a) (pr_name b)) out).

Definition writeLastRun (name : string) (summary : Summary) (now : string) : M unit :=
  dir ← dir_of name;
  modify (λ s, <[dir := mkDir (d ← s !! dir; d_spec d) (Some (now, summary))]> s).

End store.
Arguments PipelineRecord : clear implicits.
Arguments mkRecord {Spec}.
Arguments pr_name {Spec}.
Arguments pr_manifest {Spec}.
Arguments pr_lastRunAt {Spec}.
End PipelineStore.

(** ** The scheduler *)

Module Scheduler.
Import PipelineStore.

Definition HOUR : Z := 60 * 60 * 1000.
Definition DAY : Z := 24 * 60 * 60 * 1000.
Definition WEEK : Z := 7 * DAY.
(** [Date.UTC(1970, 0, 4)] *)
Definition SUNDAY_EPOCH : Z := 3 * DAY.

(** [Math.ceil(a / b)] *)
Definition ceil_div (a b : Z) : Z := - (- a / b).

Definition nextBoundary (now periodMs : Z) : Z :=
  let next := ceil_div now periodMs * periodMs in if now <? next then next else next + periodMs.

Definition nextWeeklyBoundary (now : Z) : Z :=
  let sinceAnchor := now - SUNDAY_EPOCH in
  let next := SUNDAY_EPOCH + ceil_div sinceAnchor WEEK * WEEK in
  if now <? next then next else next + WEEK.

Definition everyStepMs (n : Z) (unit : ascii) : Z :=
  if bool_decide (unit = "m"%char) then n * 60000
  else if bool_decide (unit = "h"%char) then n * 3600000 else n * 86400000.

(** [/^(\d+)([mhd])$/], after the blanks. *)
Fixpoint count_unit (acc : option Z) (s : string) : option (Z * ascii) :=
  match s with
  | EmptyString => None
  | String c s' =>
      match digit c with
      | Some d => count_unit (Some (10 * default 0 acc + d)) s'
      | None =>
          match acc, s' with
          | Some n, EmptyString => if bool_decide (c ∈ ["m"; "h"; "d"]%char) then Some (n, c) else None
          | _, _ => None
          end
      end
  end.

Definition every_of (trimmed : string) : option (Z * ascii) :=
  if startsWith "@every" trimmed then
    match JsText.slice 6 trimmed with
    | String c _ as rest => if is_space c then count_unit None (trimStart rest) else None
    | EmptyString => None
    end
  else None.

Definition nextEveryRunAt (trimmed : string) (lastRunAtMs : option Z) (now : Z) : option Z :=
  '(n, unit) ← every_of trimmed;
  let step := everyStepMs n unit in
  if step <=? 0 then None else Some (match lastRunAtMs with None => now | Some last => last + step end).

Definition nextRunAt (schedule : option string) (lastRunAtMs : option Z) (now : Z) : option Z :=
  match schedule with
  | None | Some EmptyString => None
  | Some schedule =>
      let trimmed := trim schedule in
      if bool_decide (trimmed = "@hourly") then Some (nextBoundary now HOUR)
      else if bool_decide (trimmed = "@daily") then Some (nextBoundary now DAY)
      else if bool_decide (trimmed = "@weekly") then Some (nextWeeklyBoundary now)
      else nextEveryRunAt trimmed lastRunAtMs now
  end.

Section scheduler.
Context {Spec Summary World : Type}.
Notation Record_ := (PipelineRecord Spec).

Record TickReport := mkReport {
  considered : Z; fired : list string; skippedInFlight : list string; unparseable : list string
}.

Inductive SchedulerJournalEntry :=
| ScheduleFired (ts schedule next_at : string)
| ScheduleSkipped (ts reason schedule : string).

Inductive Call :=
| CNow
| CList                                                   (* listPipelines *)
| CJournalPath (name : string)
| CAppend (path : string) (entry : SchedulerJournalEntry) (* failures are swallowed *)
| CRun (rec : Record_) (path : string)
| CWrite (name : string) (summary : Summary)              (* writeLastRun *)
| COnTick (report : TickReport)
| CStopped                                                (* whether [stop()] was called *)
| CSleep (ms : Z).

Definition Resp (c : Call) : Type :=
  match c with
  | CNow => Z
  | CList => list Record_
  | CJournalPath _ => string
  | CRun _ _ => Summary
  | CStopped => bool
  | _ => unit
  end.

Context (oracle : ∀ c : Call, World → World * result (Resp c)).
(** [Date.parse] ([None] is NaN) and the text of a date in range. *)
Context (date_parse : string → option Z) (show_date : Z → string).

Record St := mkSt { st_world : World; inFlight : gset string; st_calls : list Call }.
Notation M := (eff St).

Definition perform (c : Call) : M (Resp c) := λ s,
  let '(w, r) := oracle c (st_world s) in (mkSt w (inFlight s) (st_calls s ++ [c]), r).
Definition set_inFlight (f : gset string → gset string) : M unit :=
  modify (λ s, mkSt (st_world s) (f (inFlight s)) (st_calls s)).

(** [toISOString()] throws beyond what a date can hold. *)
Definition MAX_DATE : Z := 8640000000000000.
Definition toISOString (t : Z) : result string :=
  if Z.abs t <=? MAX_DATE then Ok (show_date t) else Err "RangeError".
Definition lift {A} (r : result A) : M A := λ s, (s, r).

Definition listRecordsSafe : M (list Record_) := try_catch (perform CList) (λ _, mret []).

Definition append_entry (name : string) (entry : SchedulerJournalEntry) : M unit :=
  path ← perform (CJournalPath name);
  try_catch (perform (CAppend path entry)) (λ _, mret tt).

Definition run_and_write (rec : Record_) : M unit :=
  path ← perform (CJournalPath (pr_name rec));
  summary ← perform (CRun rec path);
  perform (CWrite (pr_name rec) summary).

Definition fireScheduledRun (rec : Record_) (schedule : string) (nowMs : Z) (ts : string) : M unit :=
  set_inFlight (λ f, {[pr_name rec]} ∪ f);;
  path ← perform (CJournalPath (pr_name rec));
  next_at ← (match nextRunAt (Some schedule) (Some nowMs) nowMs with
             | Some t => lift (toISOString t)
             | None => mret "unknown"
             end);
  try_catch (perform (CAppend path (ScheduleFired ts schedule next_at))) (λ _, mret tt);;
  try_catch (run_and_write rec) (λ _, mret tt);;
  set_inFlight (λ f, f ∖ {[pr_name rec]}).

(** The report with what this pipeline adds to it. *)
Definition processScheduledRecord (rec : Record_) (schedule : string) (nowMs : Z) (ts : string) (report : TickReport) : M TickReport :=
  let lastAt := at_ ← pr_lastRunAt rec; date_parse at_ in
  match nextRunAt (Some schedule) lastAt nowMs with
  | None =>
      append_entry (pr_name rec) (ScheduleSkipped ts "schedule-unparseable" schedule);;
      mret (mkReport (considered report) (fired report) (skippedInFlight report) (unparseable report ++ [pr_name rec]))
  | Some next =>
      if nowMs <? next then mret report else
      busy ← gets (λ s, bool_decide (pr_name rec ∈ inFlight s));
      if busy : bool then
        append_entry (pr_name rec) (ScheduleSkipped ts "in-flight" schedule);;
        mret (mkReport (considered report) (fired report) (skippedInFlight report ++ [pr_name rec]) (unparseable report))
      else
        fireScheduledRun rec schedule nowMs ts;;
        mret (mkReport (considered report) (fired report ++ [pr_name rec]) (skippedInFlight report) (unparseable report))
  end.

Fixpoint tick_over (nowMs : Z) (ts : string) (records : list Record_) (report : TickReport) : M TickReport :=
  match records with
  | [] => mret report
  | rec :: rest =>
      match mf_schedule (pr_manifest rec) with
      | Some (String _ _ as schedule) =>
          report' ← processScheduledRecord rec schedule nowMs ts
            (mkReport (considered report + 1) (fired report) (skippedInFlight report) (unparseable report));
          tick_over nowMs ts rest report'
      | _ => tick_over nowMs ts rest report
      end
  end.

Definition runSchedulerTick (nowMs : Z) (ts : string) : M TickReport :=
  records ← listRecordsSafe; tick_over nowMs ts records (mkReport 0 [] [] []).

Definition tick_ms (tickIntervalMs : option Z) : Z := Z.max 5000 (default 60000 tickIntervalMs).

(** A turn of the loop; whether the loop is over. *)
Definition turn (once : bool) (tickIntervalMs : option Z) : M bool :=
  nowMs ← perform CNow;
  ts ← lift (toISOString nowMs);
  report ← runSchedulerTick nowMs ts;
  perform (COnTick report);;
  if once then mret true else
  stopped ← perform CStopped;
  if stopped : bool then mret true else
  perform (CSleep (tick_ms tickIntervalMs));;
  perform CStopped.

(** [turns] turns of [startPipelineScheduler]'s loop at most. *)
Fixpoint startPipelineScheduler (turns : nat) (once : bool) (tickIntervalMs : option Z) : M bool :=
  match turns with
  | O => mret false
  | S turns' => over ← turn once tickIntervalMs; if over : bool then mret true else startPipelineScheduler turns' once tickIntervalMs
  end.

Definition idle (w : World) : St := mkSt w ∅ [].

End scheduler.
End Scheduler.

(** ** Who claims a pipeline *)

Module Claims.
Import PipelineStore.

(** No readable manifest; an operator's; a composite's, with the hash of the
    spec that the claims agree on. *)
Inductive Claim := Absent | OperatorOwned | ClaimedBy (names : gset string) (hash : string).

Definition claimed (o : option Ownership) : Claim :=
  match o with None => OperatorOwned | Some o => ClaimedBy (list_to_set (compositeNames o)) (specHash o) end.

Inductive Op :=
| OpApply (hash : string) (ownership : option (list string)) (marker : option Ownership)   (* as the manifest has it *)
| OpRemove
| OpRelease (compositeName : string).

Definition after (op : Op) (c : Claim) : Claim :=
  match op, c with
  | OpApply _ None marker, Absent | OpApply _ None marker, OperatorOwned => claimed marker
  | OpApply hash (Some names) _, Absent => ClaimedBy (list_to_set names) hash
  | OpApply hash (Some names) _, ClaimedBy cur hash' =>
      if bool_decide (hash' = hash) then ClaimedBy (cur ∪ list_to_set names) hash' else c
  | OpRemove, _ => Absent
  | OpRelease name, ClaimedBy cur hash =>
      if bool_decide (name = "") then c
      else if bool_decide (cur ∖ {[name]} = ∅) then Absent else ClaimedBy (cur ∖ {[name]}) hash
  | _, _ => c
  end.

Section claims.
Context {Spec Summary : Type} (base : string) (resolve_join : string → string → string)
        (entrySpecHash : Manifest Spec → string).
Notation Store := (gmap string (@Dir Spec Summary)).

Definition claim_of (s : Store) (dir : string) : Claim :=
  match d ← s !! dir; m ← d_spec d; m with
  | None => Absent
  | Some m => claimed (mf_ownership m)
  end.

(** A call of the store's, on the pipeline it names. *)
Inductive StoreCall :=
| DoApply (parsed : Manifest Spec) (ownership : option (list string))
| DoRemove (name : string)
| DoRelease (name compositeName : string).

Definition called (c : StoreCall) : string :=
  match c with DoApply m _ => mf_name m | DoRemove name | DoRelease name _ => name end.
Definition run_call (c : StoreCall) (s : Store) : Store :=
  match c with
  | DoApply m own => (applyPipeline base resolve_join entrySpecHash m own s).1
  | DoRemove name => (removeOwn base resolve_join name s).1
  | DoRelease name composite => (removeForComposite base resolve_join name composite s).1
  end.
Definition abstract (c : StoreCall) : Op :=
  match c with
  | DoApply m own => OpApply (entrySpecHash m) own (mf_ownership m)
  | DoRemove _ => OpRemove
  | DoRelease _ composite => OpRelease composite
  end.

Lemma merge_names_set a b : (list_to_set (merge_names a b) : gset string) = list_to_set a ∪ list_to_set b.
Proof.
  apply set_eq. intros x. unfold merge_names. rewrite elem_of_list_to_set, elem_of_js_sort, elem_of_remove_dups.
  rewrite elem_of_app. set_solver.
Qed.

Lemma claim_write (s : Store) dir m : claim_of (write_spec dir m s) dir = claimed (mf_ownership m).
Proof. unfold claim_of, write_spec. by rewrite lookup_insert_eq. Qed.

Lemma claim_delete (s : Store) dir : claim_of (delete dir s) dir = Absent.
Proof. unfold claim_of. by rewrite lookup_delete_eq. Qed.

Lemma load_eq name dir (s : Store) : pipelineDir base resolve_join name = Ok dir →
  ∃ found, loadPipeline base resolve_join name s = (s, Ok found) ∧
    claim_of s dir = match found with None => Absent | Some m => claimed (mf_ownership m) end.
Proof.
  intros Hd. unfold loadPipeline. rewrite eff_bind_eq. unfold dir_of. rewrite Hd. by eexists.
Qed.

Lemma write_eq m dir (s : Store) : pipelineDir base resolve_join (mf_name m) = Ok dir →
  writeManifest base resolve_join m s = (write_spec dir m s, Ok (specPath dir)).
Proof. intros Hd. unfold writeManifest. rewrite eff_bind_eq. unfold dir_of. by rewrite Hd. Qed.

Lemma release_set names name :
  (list_to_set (filter (λ n, n ≠ name) names) : gset string) = list_to_set names ∖ {[name]}.
Proof. apply set_eq. intros x. rewrite elem_of_list_to_set, list_elem_of_filter. set_solver. Qed.

(** The store keeps the claims as their specification says: an
    operator's pipeline and a composite's never overwrite one another, a
    composite's claim on the same spec is added to those of others, and a
    claimed pipeline goes when the last claim is given up and not before; no
    other pipeline is touched. *)
Theorem claims_refined c s dir :
  pipelineDir base resolve_join (called c) = Ok dir →
  claim_of (run_call c s) dir = after (abstract c) (claim_of s dir) ∧ ∀ dir', dir' ≠ dir → run_call c s !! dir' = s !! dir'.
Proof.
  intros Hd.
  assert (∀ m, claim_of (write_spec dir m s) dir = claimed (mf_ownership m) ∧ ∀ dir', dir' ≠ dir → write_spec dir m s !! dir' = s !! dir') as Hw
    by (intros; split; [apply claim_write|intros; by apply lookup_insert_ne]).
  assert (claim_of (delete dir s) dir = Absent ∧ ∀ dir', dir' ≠ dir → delete dir s !! dir' = s !! dir') as Hdel
    by (intros; split; [apply claim_delete|intros; by apply lookup_delete_ne]).
  destruct c as [m own|name|name composite]; cbn [called run_call abstract] in *.
  - unfold applyPipeline. rewrite eff_bind_eq. destruct (load_eq _ dir s Hd) as ([cur|]&->&Hc); rewrite Hc; cycle 1.
    { rewrite eff_bind_eq. destruct own as [names|]; (rewrite (write_eq _ dir) by done); apply Hw. }
    destruct (mf_ownership cur) as [o|], own as [names|]; cbn [claimed after].
    + unfold apply_owned. destruct (bool_decide (specHash o = entrySpecHash m)) eqn:Eh; cbn [negb]; [|by split; [exact Hc|]].
      apply bool_decide_eq_true in Eh. destruct (forallb _ names) eqn:Ea.
      * rewrite eff_bind_eq. unfold dir_of. rewrite Hd. cbn. split; [|done]. rewrite Hc. cbn. f_equal. apply set_eq. intros x. rewrite elem_of_union, !elem_of_list_to_set.
        rewrite forallb_forall in Ea. split; [by left|]. intros [?|Hx]; [done|]. apply list_elem_of_In in Hx. apply Ea in Hx. by apply bool_decide_eq_true in Hx.
      * rewrite eff_bind_eq, (write_eq _ dir) by done.
        destruct (Hw (with_ownership (Some (mkOwnership (merge_names (compositeNames o) names) (entrySpecHash m))) m)) as [E Hne].
        split; [etransitivity; [exact E|]|exact Hne]. cbn. by rewrite merge_names_set, Eh.
    + by split; [exact Hc|].
    + by split; [exact Hc|].
    + rewrite eff_bind_eq, (write_eq _ dir) by done. apply Hw.
  - unfold removeOwn. rewrite eff_bind_eq. unfold dir_of. rewrite Hd. rewrite eff_bind_eq. cbn [gets].
    case_bool_decide as Ht; cbn; [by apply Hdel|]. split; [|done].
    unfold claim_of. destruct (s !! dir); [by destruct Ht|done].
  - unfold removeForComposite. rewrite eff_bind_eq. destruct (load_eq _ dir s Hd) as ([cur|]&->&Hc); rewrite Hc; [|by split; [exact Hc|]].
    destruct (mf_ownership cur) as [o|]; [|by split; [exact Hc|]]. cbn [claimed after]. case_bool_decide; [by split; [exact Hc|]|].
    rewrite eff_bind_eq. unfold dir_of. rewrite Hd. rewrite <-release_set.
    destruct (filter _ (compositeNames o)) as [|n ns].
    + cbn. apply Hdel.
    + rewrite bool_decide_false by (cbn; set_solver). cbn [fst]. apply Hw.
Qed.
End claims.
End Claims.

Lemma claims_refined_witness :
  let path := λ base name : string, base +:+ "/" +:+ name in
  let hash := λ m : Manifest Z, pretty (mf_spec m) in
  let m := mkManifest "docs" 7 None None in
  let s : gmap string (@PipelineStore.Dir Z Z) := Claims.run_call "/p" path hash (Claims.DoApply m (Some ["site"])) ∅ in
  PipelineStore.pipelineDir "/p" path "docs" = Ok "/p/docs" ∧
  Claims.claim_of (Claims.run_call "/p" path hash (Claims.DoRelease "docs" "site") s) "/p/docs" =
    Claims.after (Claims.abstract hash (Claims.DoRelease "docs" "site")) (Claims.claim_of s "/p/docs").
Proof.
  intros path hash m s. split; [reflexivity|].
  apply (Claims.claims_refined "/p" path hash (Claims.DoRelease "docs" "site") s "/p/docs"). reflexivity.
Defined.

(** ** When pipelines are started *)

Module SchedulerProps.
Import PipelineStore Scheduler.

Lemma ceil_div_spec a b : 0 < b → a ≤ ceil_div a b * b.
Proof. intros Hb. unfold ceil_div. pose proof (Z.mul_div_le (- a) b Hb). lia. Qed.

Lemma nextBoundary_later now period : 0 < period → now < nextBoundary now period.
Proof. intros Hp. unfold nextBoundary. pose proof (ceil_div_spec now period Hp). case_match; lia. Qed.

Lemma nextWeeklyBoundary_later now : now < nextWeeklyBoundary now.
Proof.
  unfold nextWeeklyBoundary. assert (0 < WEEK) as Hw by done. pose proof (ceil_div_spec (now - SUNDAY_EPOCH) WEEK Hw).
  case_match; lia.
Qed.

(** A schedule that repeats after a while, counted from the last run. *)
Definition repeating (schedule : string) : Prop :=
  ∃ n unit, every_of (trim schedule) = Some (n, unit) ∧ 0 < everyStepMs n unit.

Lemma due_repeating schedule last now next :
  nextRunAt (Some schedule) last now = Some next → next ≤ now → repeating schedule.
Proof.
  unfold nextRunAt. destruct schedule as [|c t]; [done|]. set (s := String c t).
  case_bool_decide; [intros [= <-]; pose proof (nextBoundary_later now HOUR ltac:(done)); lia|].
  case_bool_decide; [intros [= <-]; pose proof (nextBoundary_later now DAY ltac:(done)); lia|].
  case_bool_decide; [intros [= <-]; pose proof (nextWeeklyBoundary_later now); lia|].
  unfold nextEveryRunAt. destruct (every_of (trim s)) as [[n unit]|] eqn:E; [|done]. cbn.
  destruct (Z.leb_spec (everyStepMs n unit) 0); [done|]. intros _ _. by exists n, unit.
Qed.

Section scheduler.
Context {Spec Summary World : Type} (oracle : ∀ c : @Call Spec Summary, World → World * result (Resp c)).
Context (date_parse : string → option Z) (show_date : Z → string).
Notation St := (@St Spec Summary World).
Notation perform := (perform oracle).
Notation appends := (appends (@st_calls Spec Summary World)).

(** What a call of the scheduler's may be. *)
Definition justified (c : @Call Spec Summary) : Prop :=
  match c with
  | CRun rec _ => ∃ schedule, mf_schedule (pr_manifest rec) = Some schedule ∧ repeating schedule
  | _ => True
  end.

Lemma appends_call c : justified c → appends justified (perform c).
Proof.
  intros Hc. apply appends_one. intros s. unfold Scheduler.perform. destruct (oracle c _) as [w r]. by exists c.
Qed.

Create HintDb sched.
#[local] Hint Resolve appends_ret : sched.

Ltac appending :=
  repeat first
    [ apply appends_ret
    | match goal with |- appends _ (perform ?c) => by apply (appends_call c) end
    | apply appends_bind; [|intros]
    | apply appends_try; [|intros]
    | match goal with |- appends _ (match ?x with _ => _ end) => destruct x eqn:? end
    | by apply appends_still ].

Lemma fire_justified rec schedule nowMs ts :
  mf_schedule (pr_manifest rec) = Some schedule → repeating schedule →
  appends justified (fireScheduledRun oracle show_date rec schedule nowMs ts).
Proof.
  intros Hs Hr. unfold fireScheduledRun, run_and_write, lift, set_inFlight.
  repeat (apply appends_bind; [|intros]); appending. apply (appends_call (CRun rec a3)). by exists schedule.
Qed.

Lemma tick_justified nowMs ts : appends justified (runSchedulerTick oracle date_parse show_date nowMs ts).
Proof.
  unfold runSchedulerTick, listRecordsSafe. apply appends_bind; [appending|]. intros records.
  generalize (mkReport 0 [] [] []). induction records as [|rec records IH]; intros report; cbn [tick_over]; [appending|].
  destruct (mf_schedule (pr_manifest rec)) as [[|c t]|] eqn:Es; [done| |done].
  apply appends_bind; [|intros; apply IH]. unfold processScheduledRecord, append_entry.
  destruct (nextRunAt _ _ _) as [next|] eqn:En; [|appending].
  destruct (Z.ltb_spec nowMs next); [appending|]. apply appends_bind; [appending|]. intros [].
  - appending.
  - apply appends_bind; [|intros; appending]. apply fire_justified; [done|]. eapply due_repeating; [exact En|lia].
Qed.

Lemma loop_justified turns once ms : appends justified (startPipelineScheduler oracle date_parse show_date turns once ms).
Proof.
  induction turns as [|turns IH]; cbn [startPipelineScheduler]; [appending|].
  apply appends_bind; [|intros []; [appending|done]]. unfold turn, lift.
  apply appends_bind; [appending|]. intros nowMs. apply appends_bind; [appending|]. intros ts.
  apply appends_bind; [apply tick_justified|]. intros report. appending.
Qed.

(** C38 (error): however long the scheduler runs, and whatever the clock, the
    store and the runs answer, it starts only pipelines whose schedule is
    "@every" with a positive step.  The wall-clock schedules are always due
    after the moment they are asked at, so an "@hourly", "@daily" or "@weekly"
    pipeline is never started. *)
Theorem only_repeating_started turns once ms w rec path :
  CRun rec path ∈ st_calls (startPipelineScheduler oracle date_parse show_date turns once ms (idle w)).1 →
  ∃ schedule, mf_schedule (pr_manifest rec) = Some schedule ∧ repeating schedule ∧
    ¬ (trim schedule ∈ ["@hourly"; "@daily"; "@weekly"]).
Proof.
  destruct (loop_justified turns once ms (idle w)) as (seg&E&Hall). cbn in E. rewrite E. intros Hin.
  rewrite Forall_forall in Hall. destruct (Hall _ Hin) as (schedule&Hs&n&unit&He&Hp). exists schedule.
  split; [done|]. split; [by exists n, unit|]. intros Hw.
  repeat (apply elem_of_cons in Hw as [Hw|Hw]; [by rewrite Hw in He|]). by apply elem_of_nil in Hw.
Qed.

(** *** One run at a time *)

Definition none_skipped (c : @Call Spec Summary) : Prop :=
  match c with COnTick report => skippedInFlight report = [] | _ => True end.

(** From nothing in flight to nothing in flight, when it ends well. *)
Definition clean {A} (m : eff St A) (Q : A → Prop) : Prop :=
  ∀ s, inFlight s = ∅ → (∀ c, c ∈ st_calls s → none_skipped c) →
    let '(s', r) := m s in (∀ c, c ∈ st_calls s' → none_skipped c) ∧
      match r with Ok a => inFlight s' = ∅ ∧ Q a | Err _ => True end.

Lemma clean_bind {A B} (m : eff St A) (f : A → eff St B) Q Q' :
  clean m Q → (∀ a, Q a → clean (f a) Q') → clean (m ≫= f) Q'.
Proof.
  intros Hm Hf s Hi Hc. rewrite eff_bind_eq. specialize (Hm s Hi Hc). destruct (m s) as [s1 [a|e]]; [|done].
  destruct Hm as (Hc1&Hi1&Ha). by apply Hf.
Qed.

(** Steps that leave what is in flight alone. *)
Definition plain {A} (m : eff St A) : Prop := ∀ s,
  inFlight (m s).1 = inFlight s ∧ ((∀ c, c ∈ st_calls s → none_skipped c) → ∀ c, c ∈ st_calls (m s).1 → none_skipped c).

Lemma plain_perform c : none_skipped c → plain (perform c).
Proof.
  intros Hn s. unfold Scheduler.perform. destruct (oracle c _) as [w r]. cbn. split; [done|].
  intros H c' [?| ->%list_elem_of_singleton]%elem_of_app; [by apply H|done].
Qed.
Lemma plain_bind {A B} (m : eff St A) (f : A → eff St B) : plain m → (∀ a, plain (f a)) → plain (m ≫= f).
Proof.
  intros Hm Hf s. rewrite eff_bind_eq. destruct (Hm s) as [E1 H1]. destruct (m s) as [s1 [a|e]]; cbn in *; [|done].
  destruct (Hf a s1) as [E2 H2]. split; [by rewrite E2|tauto].
Qed.
Lemma plain_try {A} (m : eff St A) h : plain m → (∀ e, plain (h e)) → plain (try_catch m h).
Proof.
  intros Hm Hf s. unfold try_catch. destruct (Hm s) as [E1 H1]. destruct (m s) as [s1 [a|e]]; cbn in *; [done|].
  destruct (Hf e s1) as [E2 H2]. split; [by rewrite E2|tauto].
Qed.
Lemma plain_same {A} (m : eff St A) : (∀ s, (m s).1 = s) → plain m.
Proof. intros H s. by rewrite H. Qed.
Lemma clean_plain {A} (m : eff St A) : plain m → clean m (λ _, True).
Proof.
  intros H s Hi Hc. destruct (H s) as [E1 H1]. destruct (m s) as [s1 [a|e]]; cbn in *; split; try tauto. split; [congruence|done].
Qed.

Ltac plains :=
  repeat first
    [ match goal with |- plain (perform ?c) => by apply (plain_perform c) end
    | apply plain_bind; [|intros]
    | apply plain_try; [|intros]
    | match goal with |- plain (match ?x with _ => _ end) => destruct x end
    | by apply plain_same ].

Lemma plain_append name entry : plain (append_entry oracle name entry).
Proof. unfold append_entry. plains. Qed.

(** Ends with [g] of what was in flight. *)
Definition leaves {A} (m : eff St A) (g : gset string → gset string) : Prop := ∀ s,
  ((∀ c, c ∈ st_calls s → none_skipped c) → ∀ c, c ∈ st_calls (m s).1 → none_skipped c) ∧
  (is_ok (m s).2 = true → inFlight (m s).1 = g (inFlight s)).

Lemma leaves_bind {A B} (m : eff St A) (f : A → eff St B) g : plain m → (∀ a, leaves (f a) g) → leaves (m ≫= f) g.
Proof.
  intros Hm Hf s. rewrite eff_bind_eq. destruct (Hm s) as [E1 H1]. destruct (m s) as [s1 [a|e]]; cbn in *; [|done].
  destruct (Hf a s1) as [H2 E2]. split; [tauto|]. intros Ho. by rewrite E2, E1.
Qed.

Lemma fire_leaves rec schedule nowMs ts :
  leaves (fireScheduledRun oracle show_date rec schedule nowMs ts) (λ f, ({[pr_name rec]} ∪ f) ∖ {[pr_name rec]}).
Proof.
  intros s. unfold fireScheduledRun. rewrite eff_bind_eq. cbn [set_inFlight modify].
  match goal with |- context [(?m0 ≫= ?f0) (mkSt ?w ?i ?c)] =>
    assert (leaves (m0 ≫= f0) (λ f, f ∖ {[pr_name rec]})) as H; [|destruct (H (mkSt w i c)) as [Hc Hi]; split; [exact Hc|exact Hi]] end.
  unfold run_and_write, lift.
  apply leaves_bind; [plains|intros]. apply leaves_bind; [plains|intros]. apply leaves_bind; [plains|intros].
  apply leaves_bind; [plains|intros]. by intros s1.
Qed.

Lemma record_clean rec schedule nowMs ts report :
  skippedInFlight report = [] →
  clean (processScheduledRecord oracle date_parse show_date rec schedule nowMs ts report) (λ r, skippedInFlight r = []).
Proof.
  intros Hr. unfold processScheduledRecord. destruct (nextRunAt _ _ _) as [next|].
  2: { eapply clean_bind; [apply clean_plain, plain_append|]. by intros _ _ s. }
  destruct (nowMs <? next); [by intros s|]. intros s Hi Hc. rewrite eff_bind_eq. cbn [gets].
  rewrite bool_decide_false by (rewrite Hi; set_solver). rewrite eff_bind_eq.
  destruct (fire_leaves rec schedule nowMs ts s) as [H1 H2]. destruct (fireScheduledRun _ _ _ _ _ _ s) as [s1 [?|?]]; cbn in *; (split; [by apply H1|]); [|done].
  split; [|done]. rewrite H2, Hi by done. set_solver.
Qed.

Lemma tick_clean nowMs ts : clean (runSchedulerTick oracle date_parse show_date nowMs ts) (λ r, skippedInFlight r = []).
Proof.
  unfold runSchedulerTick, listRecordsSafe. eapply clean_bind; [apply clean_plain; plains|]. intros records _.
  assert (skippedInFlight (mkReport 0 [] [] []) = []) as H by done. revert H. generalize (mkReport 0 [] [] []).
  induction records as [|rec records IH]; intros report Hr; cbn [tick_over]; [by intros s|].
  destruct (mf_schedule (pr_manifest rec)) as [[|c t]|]; [by apply IH| |by apply IH].
  eapply clean_bind; [by apply record_clean|]. intros r Hr'. by apply IH.
Qed.

Lemma loop_clean turns once ms : clean (startPipelineScheduler oracle date_parse show_date turns once ms) (λ _, True).
Proof.
  induction turns as [|turns IH]; cbn [startPipelineScheduler]; [by intros s|].
  eapply clean_bind; [|intros [] _; [by intros s|exact IH]]. unfold turn, lift.
  eapply clean_bind; [apply clean_plain; plains|]. intros nowMs _. eapply clean_bind; [apply clean_plain; plains|]. intros ts _.
  eapply clean_bind; [apply tick_clean|]. intros report Hr. apply clean_plain.
  apply plain_bind; [by apply (plain_perform (COnTick report))|intros]. plains.
Qed.

(** The scheduler runs one pipeline at a time and waits for it: no
    tick ever finds a pipeline in flight, so none is reported or journalled as
    skipped for that. *)
Theorem never_found_in_flight turns once ms w report :
  COnTick report ∈ st_calls (startPipelineScheduler oracle date_parse show_date turns once ms (idle w)).1 →
  skippedInFlight report = [].
Proof.
  pose proof (loop_clean turns once ms (idle w)) as H. intros Hin.
  destruct (startPipelineScheduler _ _ _ _ _ _ _) as [s r]. destruct H as [H _]; [done|intros c Hc; by apply elem_of_nil in Hc|].
  by apply (H (COnTick report)).
Qed.

End scheduler.

(** *** Concrete runs *)

Definition docs : PipelineRecord unit := mkRecord "docs" (mkManifest "docs" tt (Some "@every 5m") None) (Some "1970").
Definition hourly : PipelineRecord unit := mkRecord "hourly" (mkManifest "hourly" tt (Some "@hourly") None) None.
Definition distant : PipelineRecord unit := mkRecord "distant" (mkManifest "distant" tt (Some "@every 999999999d") None) None.

Definition outside (records : list (PipelineRecord unit)) (c : @Call unit unit) (w : unit) : unit * result (Resp c) :=
  (w, Ok (match c return Resp c with
          | CNow => 3600000
          | CList => records
          | CJournalPath name => name
          | CStopped => false
          | CRun _ _ | CAppend _ _ | CWrite _ _ | COnTick _ | CSleep _ => tt
          end)).
Definition scheduled (records : list (PipelineRecord unit)) : @St unit unit unit * result bool :=
  startPipelineScheduler (outside records) (λ _, Some 0) pretty 2 false None (idle tt).

Lemma only_repeating_started_witness :
  CRun docs "docs" ∈ st_calls (scheduled [hourly; docs]).1 ∧
  ∃ schedule, mf_schedule (pr_manifest docs) = Some schedule ∧ repeating schedule ∧
    ¬ (trim schedule ∈ ["@hourly"; "@daily"; "@weekly"]).
Proof.
  assert (CRun docs "docs" ∈ st_calls (scheduled [hourly; docs]).1) as H
    by (apply list_elem_of_lookup; exists 5%nat; vm_compute; reflexivity).
  split; [exact H|]. eapply only_repeating_started. exact H.
Defined.

Lemma never_found_in_flight_witness :
  COnTick (mkReport 2 ["docs"] [] []) ∈ st_calls (scheduled [hourly; docs]).1 ∧ skippedInFlight (mkReport 2 ["docs"] [] []) = [].
Proof.
  assert (COnTick (mkReport 2 ["docs"] [] []) ∈ st_calls (scheduled [hourly; docs]).1) as H
    by (apply list_elem_of_lookup; exists 7%nat; vm_compute; reflexivity).
  split; [exact H|]. eapply never_found_in_flight. exact H.
Defined.

(** A step that the schema admits can lead beyond the dates there
    are: writing down the next start throws outside of any handler, and the
    scheduler is over, for the other pipelines too. *)
Theorem distant_schedule_ends_scheduler :
  repeating "@every 999999999d" ∧ (scheduled [distant; docs]).2 = Err "RangeError" ∧
  ∀ rec path, CRun rec path ∉ st_calls (scheduled [distant; docs]).1.
Proof.
  split; [by exists 999999999, "d"%char|]. split; [by vm_compute|]. intros rec path H. vm_compute in H.
  repeat (apply elem_of_cons in H as [H|H]; [done|]). by apply elem_of_nil in H.
Qed.

End SchedulerProps.
