(* ===== verification/RagGuard.v ===== *)
(** * Retrieval pipelines: the guard against private targets

    packages/remote/src/rag/pipeline/fetchers/ssrf-guard.ts: which addresses may
    be fetched.  [isIP] of node:net and [new URL] are parameters; a resolver is
    asked in RagFetch.v.  Texts are sequences of single-byte characters. *)

From S2P Require Import Prelude JsText ConsoleMask.
From Stdlib Require Import Ascii.

#[local] Open Scope string_scope.
#[local] Open Scope list_scope.
#[local] Open Scope Z_scope.

(** ** IPv4 *)

(** [/^\d{1,3}$/] and its value, at most 255. *)
Definition octet (p : string) : option Z :=
  if all_chars is_digit p && (1 <=? String.length p)%nat && (String.length p <=? 3)%nat then
    let n := parse_digits 0 p in if n <=? 255 then Some n else None
  else None.

Definition parseIpv4 (ip : string) : option (Z * Z * Z * Z) :=
  match JsText.split "."%char ip with
  | [p; q; r; s] => a ← octet p; b ← octet q; c ← octet r; d ← octet s; Some (a, b, c, d)
  | _ => None
  end.

Definition blocked_octets (a b : Z) : bool :=
  (a =? 0) || (a =? 10) || (a =? 127) || ((a =? 169) && (b =? 254)) || ((a =? 172) && (16 <=? b) && (b <=? 31))
  || ((a =? 192) && (b =? 168)).

Definition isBlockedIpv4 (ip : string) : bool :=
  match parseIpv4 ip with Some (a, b, _, _) => blocked_octets a b | None => false end.

(** ** IPv6 *)

Definition hex_digit (c : ascii) : option Z :=
  let n := Z.of_N (N_of_ascii c) in
  if (48 <=? n) && (n <=? 57) then Some (n - 48)
  else if (65 <=? n) && (n <=? 70) then Some (n - 55)
  else if (97 <=? n) && (n <=? 102) then Some (n - 87) else None.

Fixpoint hex_value (acc : Z) (g : string) : option Z :=
  match g with EmptyString => Some acc | String c g' => d ← hex_digit c; hex_value (16 * acc + d) g' end.

(** [/^[0-9a-fA-F]{1,4}$/] and its value. *)
Definition hex_group (g : string) : option Z :=
  if (1 <=? String.length g)%nat && (String.length g <=? 4)%nat then hex_value 0 g else None.

Definition parseHexGroups (part : string) : option (list Z) :=
  match part with EmptyString => Some [] | _ => mapM hex_group (JsText.split ":"%char part) end.

(** The text before and after the last [c]. *)
Fixpoint split_last (c : ascii) (s : string) : option (string * string) :=
  match s with
  | EmptyString => None
  | String x s' =>
      match split_last c s' with
      | Some (l, r) => Some (String x l, r)
      | None => if bool_decide (x = c) then Some (EmptyString, s') else None
      end
  end.

(** The text before and after the first "::". *)
Fixpoint split_double (s : string) : option (string * string) :=
  match s with
  | String ":" (String ":" r) => Some (EmptyString, r)
  | String x s' => '(l, r) ← split_double s'; Some (String x l, r)
  | EmptyString => None
  end.

(** A colon that ends [l] goes, unless it is one of two: the head is [l ++ ":"]. *)
Definition head_of (l : string) : string :=
  match split_last ":"%char l with Some (l', EmptyString) => l +:+ ":" | _ => l end.

Definition splitV4Tail (s : string) : option (string * list Z) :=
  match split_last ":"%char s with
  | Some (l, r) =>
      if char_free "."%char r then Some (s, [])
      else '(a, b, c, d) ← parseIpv4 r; Some (head_of l, [Z.lor (Z.shiftl a 8) b; Z.lor (Z.shiftl c 8) d])
  | None => Some (s, [])
  end.

Fixpoint before_percent (s : string) : string :=
  match s with String "%" _ => EmptyString | String c s' => String c (before_percent s') | EmptyString => EmptyString end.

Definition ipv6Groups (ip : string) : option (list Z) :=
  '(hd, tl) ← splitV4Tail (before_percent ip);
  groups ← match split_double hd with
           | Some (l, r) =>
               left ← parseHexGroups l; right ← parseHexGroups r;
               let used := (length left + length right + length tl)%nat in
               if (used <=? 8)%nat then Some (left ++ replicate (8 - used) 0 ++ right ++ tl) else None
           | None => left ← parseHexGroups hd; Some (left ++ tl)
           end;
  if (length groups =? 8)%nat then Some groups else None.

(** [`${a}.${b}.${c}.${d}`] *)
Definition dotted (a b c d : Z) : string := pretty a +:+ "." +:+ pretty b +:+ "." +:+ pretty c +:+ "." +:+ pretty d.

Definition isBlockedIpv6 (ip : string) : bool :=
  match ipv6Groups ip with
  | Some [g0; g1; g2; g3; g4; g5; g6; g7] =>
      let zeros := forallb (λ g, g =? 0) in
      if zeros [g0; g1; g2; g3; g4; g5; g6] then (g7 =? 1) || (g7 =? 0)
      else if Z.land g0 0xffc0 =? 0xfe80 then true
      else if Z.land g0 0xfe00 =? 0xfc00 then true
      else if zeros [g0; g1; g2; g3; g4] && (g5 =? 0xffff) then
        isBlockedIpv4 (dotted (Z.land (Z.shiftr g6 8) 255) (Z.land g6 255) (Z.land (Z.shiftr g7 8) 255) (Z.land g7 255))
      else false
  | _ => false
  end.

(** ** Targets *)

Section guard.
(** [isIP]: 4, 6 or 0. *)
Context (isIP : string → Z).

Definition isBlockedIp (ip : string) : bool :=
  if isIP ip =? 4 then isBlockedIpv4 ip else if isIP ip =? 6 then isBlockedIpv6 ip else false.

Fixpoint endsWith (suffix s : string) : bool :=
  bool_decide (s = suffix) || match s with EmptyString => false | String _ s' => endsWith suffix s' end.

Definition isLiteralLoopbackHost (host : string) : bool :=
  let h := lower host in bool_decide (h = "localhost") || bool_decide (h = "localhost.") || endsWith ".localhost" h.

(** The brackets of an IPv6 literal come off. *)
Definition bare_host (rawHost : string) : string :=
  match rawHost with
  | String "[" rest => match split_last "]"%char rest with Some (l, EmptyString) => l | _ => rawHost end
  | _ => rawHost
  end.

(** What the resolver's answer means for the guard: an error's message. *)
Definition refuse_addresses (host : string) (addresses : list string) : option string :=
  match addresses with
  | [] => Some ("SSRF guard: host " +:+ host +:+ " resolved to no addresses")
  | _ => match find isBlockedIp addresses with
         | Some addr => Some ("SSRF guard: host " +:+ host +:+ " resolved to non-public address " +:+ addr)
         | None => None
         end
  end.

End guard.

(** ** The blocked addresses are those of a list of prefixes *)

Definition Prefix : Type := Z * Z.

(** The first [len] of [bits] bits agree. *)
Definition in_prefix (bits : Z) (p : Prefix) (a : Z) : Prop :=
  let k := 2 ^ (bits - p.2) in a / k = p.1 / k.

Definition value4 (o : Z * Z * Z * Z) : Z := let '(a, b, c, d) := o in ((a * 256 + b) * 256 + c) * 256 + d.
Definition value6 (groups : list Z) : Z := foldl (λ acc g, acc * 65536 + g) 0 groups.

(** 0/8, 10/8, 127/8, 169.254/16, 172.16/12, 192.168/16 *)
Definition private4 : list Prefix :=
  [(0, 8); (value4 (10, 0, 0, 0), 8); (value4 (127, 0, 0, 0), 8); (value4 (169, 254, 0, 0), 16);
   (value4 (172, 16, 0, 0), 12); (value4 (192, 168, 0, 0), 16)].

(** ::/127, fe80::/10, fc00::/7, and those above below ::ffff:0:0/96 *)
Definition private6 : list Prefix :=
  [(0, 127); (0xfe80 * 2 ^ 112, 10); (0xfc00 * 2 ^ 112, 7)] ++
  ((λ p : Prefix, (0xffff * 2 ^ 32 + p.1, 96 + p.2)) <$> private4).

Lemma in_prefix_range bits p a : 0 < 2 ^ (bits - p.2) →
  in_prefix bits p a ↔
  p.1 / 2 ^ (bits - p.2) * 2 ^ (bits - p.2) ≤ a < (p.1 / 2 ^ (bits - p.2) + 1) * 2 ^ (bits - p.2).
Proof.
  intros Hk. unfold in_prefix. cbn. set (k := 2 ^ _) in *. set (q := p.1 / k).
  pose proof (Z.div_mod a k ltac:(lia)). pose proof (Z.mod_pos_bound a k Hk). split; [intros <-; lia|].
  intros Ha. symmetry. apply (Z.div_unique a k q (a - q * k)); lia.
Qed.

Lemma Exists_ranges bits (ps : list Prefix) (rs : list (Z * Z)) a :
  Forall2 (λ p r, 0 < 2 ^ (bits - p.2) ∧ r.1 = p.1 / 2 ^ (bits - p.2) * 2 ^ (bits - p.2)
                  ∧ r.2 = (p.1 / 2 ^ (bits - p.2) + 1) * 2 ^ (bits - p.2)) ps rs →
  Exists (λ p, in_prefix bits p a) ps ↔ Exists (λ r, r.1 ≤ a < r.2) rs.
Proof.
  induction 1 as [|p r ps rs (Hk&E1&E2) _ IH]; [by rewrite !Exists_nil|].
  by rewrite !Exists_cons, IH, E1, E2, in_prefix_range.
Qed.

Definition octets (o : Z * Z * Z * Z) : Prop :=
  let '(a, b, c, d) := o in 0 ≤ a < 256 ∧ 0 ≤ b < 256 ∧ 0 ≤ c < 256 ∧ 0 ≤ d < 256.

Definition ranges4 : list (Z * Z) :=
  [(0, 2^24); (10 * 2^24, 11 * 2^24); (127 * 2^24, 128 * 2^24);
   (value4 (169, 254, 0, 0), value4 (169, 255, 0, 0)); (value4 (172, 16, 0, 0), value4 (172, 32, 0, 0));
   (value4 (192, 168, 0, 0), value4 (192, 169, 0, 0))].
Definition MAPPED : Z := 0xffff * 2 ^ 32.
Definition ranges6 : list (Z * Z) :=
  [(0, 2); (0xfe80 * 2 ^ 112, 0xfec0 * 2 ^ 112); (0xfc00 * 2 ^ 112, 0xfe00 * 2 ^ 112)] ++
  ((λ r, (MAPPED + r.1, MAPPED + r.2)) <$> ranges4).

Lemma blocked_octets_ranges a b c d :
  octets (a, b, c, d) → blocked_octets a b = true ↔ Exists (λ r, r.1 ≤ value4 (a, b, c, d) < r.2) ranges4.
Proof.
  intros Ho. cbn [octets] in Ho. unfold ranges4.
  rewrite !Exists_cons, Exists_nil. unfold blocked_octets, value4. cbn [fst snd].
  rewrite !orb_true_iff, !andb_true_iff, !Z.eqb_eq, !Z.leb_le. lia.
Qed.

Lemma private4_ranges a : Exists (λ p, in_prefix 32 p a) private4 ↔ Exists (λ r, r.1 ≤ a < r.2) ranges4.
Proof. apply Exists_ranges. repeat constructor. Qed.
Lemma private6_ranges a : Exists (λ p, in_prefix 128 p a) private6 ↔ Exists (λ r, r.1 ≤ a < r.2) ranges6.
Proof. apply Exists_ranges. repeat constructor. Qed.

(** *** What the parsers give *)

Lemma digit_range c d : digit c = Some d → 0 ≤ d ≤ 9.
Proof. unfold digit. case_match eqn:E; [|done]. intros [= <-]. to_prop. lia. Qed.

Lemma parse_digits_nonneg s acc : 0 ≤ acc → 0 ≤ parse_digits acc s.
Proof.
  revert acc. induction s as [|c s IH]; intros acc Ha; [done|]. cbn. destruct (digit c) as [d|] eqn:E; [|done].
  apply digit_range in E. apply IH. lia.
Qed.

Lemma octet_range p n : octet p = Some n → 0 ≤ n < 256.
Proof.
  unfold octet. case_match; [|done]. case_match eqn:E; [|done]. intros [= <-]. to_prop.
  pose proof (parse_digits_nonneg p 0 ltac:(done)). lia.
Qed.

Lemma parseIpv4_octets ip o : parseIpv4 ip = Some o → octets o.
Proof.
  unfold parseIpv4. destruct (JsText.split _ ip) as [|p [|q [|r [|s [|]]]]]; try done.
  destruct (octet p) as [a|] eqn:Ea, (octet q) as [b|] eqn:Eb, (octet r) as [c|] eqn:Ec, (octet s) as [d|] eqn:Ed; try done.
  intros [= <-]. split_and!; eapply octet_range; eauto.
Qed.

Lemma octet_pretty n : 0 ≤ n < 256 → octet (pretty n) = Some n.
Proof.
  intros Hn. unfold octet. rewrite pretty_digits, parse_digits_pretty by lia.
  pose proof (pretty_length n 3 ltac:(lia) ltac:(lia) ltac:(lia)).
  replace (String.length (pretty n) <=? 3)%nat with true by (symmetry; apply Nat.leb_le; lia).
  replace (1 <=? String.length (pretty n))%nat with true.
  - replace (n <=? 255) with true by (symmetry; apply Z.leb_le; lia). done.
  - symmetry. apply Nat.leb_le. rewrite pretty_Z_nonneg by lia. destruct (pretty_N_head (Z.to_N n)) as (d&s&_&->). cbn. lia.
Qed.

Lemma parseIpv4_dotted a b c d : octets (a, b, c, d) → parseIpv4 (dotted a b c d) = Some (a, b, c, d).
Proof.
  intros (Ha&Hb&Hc&Hd). unfold parseIpv4, dotted.
  assert (∀ n, 0 ≤ n < 256 → char_free "."%char (pretty n) = true) as Hf.
  { intros n Hn. apply (all_chars_free is_digit); [done|]. apply pretty_digits. lia. }
  assert (∀ s, "." +:+ s = String "." s) as Hdot by done. rewrite !Hdot, !split_cons, split_char_free by auto.
  by rewrite !octet_pretty.
Qed.

Definition group (g : Z) : Prop := 0 ≤ g < 65536.

Lemma hex_digit_range c d : hex_digit c = Some d → 0 ≤ d < 16.
Proof. unfold hex_digit. repeat case_match; intros [= <-]; to_prop; lia. Qed.

Lemma hex_value_range g acc k v : 0 ≤ acc < 16 ^ k → 0 ≤ k → hex_value acc g = Some v → 0 ≤ v < 16 ^ (k + Z.of_nat (String.length g)).
Proof.
  revert acc k. induction g as [|c g IH]; intros acc k Ha Hk; cbn [hex_value String.length].
  - intros [= <-]. by rewrite Z.add_0_r.
  - destruct (hex_digit c) as [d|] eqn:E; [|done]. apply hex_digit_range in E. intros H.
    apply (IH _ (k + 1)) in H; [|rewrite Z.pow_add_r by lia; lia|lia]. by replace (k + Z.of_nat (S (String.length g))) with (k + 1 + Z.of_nat (String.length g)) by lia.
Qed.

Lemma hex_group_range g v : hex_group g = Some v → group v.
Proof.
  unfold hex_group. case_match eqn:E; [|done]. intros H. apply (hex_value_range _ _ 0) in H; [|lia..].
  to_prop. apply Nat.leb_le in H1. unfold group.
  assert (16 ^ (0 + Z.of_nat (String.length g)) ≤ 16 ^ 4) by (apply Z.pow_le_mono_r; lia). lia.
Qed.

Lemma parseHexGroups_range part gs : parseHexGroups part = Some gs → Forall group gs.
Proof.
  unfold parseHexGroups. destruct part as [|c part]; [by intros [= <-]|]. intros H.
  apply mapM_Some in H. induction H as [|x y l k Hx _ IH]; constructor; [by eapply hex_group_range|done].
Qed.

Lemma lor_octets x y : 0 ≤ x < 256 → 0 ≤ y < 256 → Z.lor (Z.shiftl x 8) y = x * 256 + y.
Proof.
  intros Hx Hy. rewrite Z.shiftl_mul_pow2 by lia. change (2 ^ 8) with 256.
  assert (Z.land (x * 256) y = 0) as Hl.
  { apply Z.bits_inj_0. intros n. rewrite Z.land_spec. change 256 with (2 ^ 8).
    destruct (Z.ltb_spec n 8) as [Hn|Hn]; [by rewrite Z.mul_pow2_bits_low|].
    rewrite (Z.bits_above_log2 y); [by rewrite andb_false_r|lia|].
    destruct (decide (y = 0)) as [->|]; [cbn; lia|].
    assert (Z.log2 y < 8) by (apply Z.log2_lt_pow2; lia). lia. }
  by rewrite <-Z.lxor_lor, <-Z.add_nocarry_lxor.
Qed.

Lemma splitV4Tail_range s hd tl : splitV4Tail s = Some (hd, tl) → Forall group tl.
Proof.
  unfold splitV4Tail. destruct (split_last _ s) as [[l r]|]; [|by intros [= _ <-]].
  case_match; [by intros [= _ <-]|]. destruct (parseIpv4 r) as [[[[a b] c] d]|] eqn:E; [|done].
  apply parseIpv4_octets in E as (Ha&Hb&Hc&Hd). intros [= _ <-].
  repeat constructor; rewrite lor_octets by done; lia.
Qed.

Lemma ipv6Groups_range ip gs : ipv6Groups ip = Some gs → length gs = 8%nat ∧ Forall group gs.
Proof.
  unfold ipv6Groups. destruct (splitV4Tail _) as [[hd tl]|] eqn:Et; [|done]. apply splitV4Tail_range in Et. cbn.
  destruct (split_double hd) as [[l r]|].
  - destruct (parseHexGroups l) as [left|] eqn:El; [|done]. destruct (parseHexGroups r) as [right|] eqn:Er; [|done]. cbn.
    case_match; [|done]. cbn. case_match eqn:E8; [|done]. intros [= <-]. apply Nat.eqb_eq in E8. split; [done|].
    apply parseHexGroups_range in El, Er. rewrite !Forall_app. split_and!; try done. apply Forall_replicate. unfold group. lia.
  - destruct (parseHexGroups hd) as [left|] eqn:El; [|done]. cbn. case_match eqn:E8; [|done]. intros [= <-].
    apply Nat.eqb_eq in E8. split; [done|]. apply Forall_app. split; [by eapply parseHexGroups_range|done].
Qed.

(** *** The tests on groups *)

Lemma land_mask g k : group g → 0 ≤ k → Z.land g (Z.ldiff (Z.ones 16) (Z.ones k)) = g / 2 ^ k * 2 ^ k.
Proof.
  intros Hg Hk. rewrite <-Z.shiftr_div_pow2, <-Z.shiftl_mul_pow2, <-Z.ldiff_ones_r by lia.
  replace g with (Z.land g (Z.ones 16)) at 2 by (rewrite Z.land_ones by lia; by apply Z.mod_small).
  apply Z.bits_inj. intros n. by rewrite Z.ldiff_spec, !Z.land_spec, Z.ldiff_spec, andb_assoc.
Qed.

Lemma group_masks g : group g →
  (Z.land g 0xffc0 =? 0xfe80) = (0xfe80 <=? g) && (g <? 0xfec0) ∧
  (Z.land g 0xfe00 =? 0xfc00) = (0xfc00 <=? g) && (g <? 0xfe00).
Proof.
  intros Hg. pose proof (land_mask g 6 Hg ltac:(lia)) as H6. pose proof (land_mask g 9 Hg ltac:(lia)) as H9.
  change (Z.ldiff _ _) with 0xffc0 in H6. change (Z.ldiff _ _) with 0xfe00 in H9. rewrite H6, H9.
  pose proof (Z.div_mod g (2 ^ 6)). pose proof (Z.div_mod g (2 ^ 9)).
  pose proof (Z.mod_pos_bound g (2 ^ 6)). pose proof (Z.mod_pos_bound g (2 ^ 9)).
  split; apply Bool.eq_true_iff_eq; rewrite andb_true_iff, Z.eqb_eq, Z.leb_le, Z.ltb_lt; lia.
Qed.

Lemma group_octets g : group g →
  Z.land (Z.shiftr g 8) 255 = g / 256 ∧ Z.land g 255 = g mod 256 ∧ 0 ≤ g / 256 < 256 ∧ 0 ≤ g mod 256 < 256.
Proof.
  intros [H0 H1]. assert (0 ≤ g / 256 < 256) as Hd by (split; [apply Z.div_pos; lia|apply Z.div_lt_upper_bound; lia]).
  change 255 with (Z.ones 8). rewrite !Z.land_ones by lia. rewrite Z.shiftr_div_pow2 by lia. change (2 ^ 8) with 256.
  split_and!; try lia; [by apply Z.mod_small|..]; apply (Z.mod_pos_bound g 256); lia.
Qed.

Lemma isBlockedIpv4_ranges ip o : parseIpv4 ip = Some o → isBlockedIpv4 ip = true ↔ Exists (λ r, r.1 ≤ value4 o < r.2) ranges4.
Proof.
  intros H. unfold isBlockedIpv4. rewrite H. destruct o as [[[a b] c] d]. apply blocked_octets_ranges. by eapply parseIpv4_octets.
Qed.

Lemma isBlockedIpv6_ranges ip gs :
  ipv6Groups ip = Some gs → isBlockedIpv6 ip = true ↔ Exists (λ r, r.1 ≤ value6 gs < r.2) ranges6.
Proof.
  intros H. unfold isBlockedIpv6. rewrite H. apply ipv6Groups_range in H as [Hl Hg].
  destruct gs as [|g0 [|g1 [|g2 [|g3 [|g4 [|g5 [|g6 [|g7 [|]]]]]]]]]; try done.
  repeat (apply Forall_cons in Hg as [? Hg]). destruct (group_masks g0) as [-> ->]; [done|].
  destruct (group_octets g6) as (->&->&Hh6&Hl6); [done|]. destruct (group_octets g7) as (->&->&Hh7&Hl7); [done|].
  assert (octets (g6 / 256, g6 mod 256, g7 / 256, g7 mod 256)) as Ho by done.
  pose proof (isBlockedIpv4_ranges _ _ (parseIpv4_dotted _ _ _ _ Ho)) as H4v.
  assert (value4 (g6 / 256, g6 mod 256, g7 / 256, g7 mod 256) = g6 * 65536 + g7) as E4.
  { unfold value4. pose proof (Z.div_mod g6 256). pose proof (Z.div_mod g7 256). lia. }
  rewrite E4 in H4v. clear E4 Ho.
  assert (value6 [g0; g1; g2; g3; g4; g5; g6; g7] =
          g0 * 2 ^ 112 + (g1 * 2 ^ 96 + g2 * 2 ^ 80 + g3 * 2 ^ 64 + g4 * 2 ^ 48 + g5 * 2 ^ 32) + (g6 * 65536 + g7)) as ->
    by (unfold value6; cbn [foldl]; lia).
  unfold group in *. unfold ranges6, ranges4, MAPPED, value4 in *. cbn [fmap list_fmap app fst snd] in *.
  rewrite !Exists_cons, Exists_nil in *. cbn [fst snd] in *. clear Hg Hl.
  assert (∀ l, forallb (λ g, g =? 0) l = true ↔ Forall (λ g, g = 0) l) as Hz.
  { intros l. rewrite forallb_forall, Forall_forall. setoid_rewrite list_elem_of_In. setoid_rewrite Z.eqb_eq. done. }
  destruct (forallb _ [g0; g1; g2; g3; g4; g5; g6]) eqn:E0.
  - apply Hz in E0. rewrite !Forall_cons in E0. rewrite orb_true_iff, !Z.eqb_eq.
    destruct E0 as (->&->&->&->&->&->&->&_). clear H4v Hz. lia.
  - assert (¬ (g0 = 0 ∧ g1 = 0 ∧ g2 = 0 ∧ g3 = 0 ∧ g4 = 0 ∧ g5 = 0 ∧ g6 = 0)) as Hn.
    { intros Hn. apply not_true_iff_false in E0. apply E0, Hz. rewrite !Forall_cons. naive_solver. }
    clear E0. destruct ((0xfe80 <=? g0) && _) eqn:E1; [apply andb_true_iff in E1 as [?%Z.leb_le ?%Z.ltb_lt]; clear H4v Hz; split; [intros _; right; left; lia|done]|]. destruct ((0xfc00 <=? g0) && _) eqn:E2; [apply andb_true_iff in E2 as [?%Z.leb_le ?%Z.ltb_lt]; clear H4v Hz; split; [intros _; right; right; left; lia|done]|].
    destruct (forallb _ _ && _) eqn:E3.
    + apply andb_true_iff in E3 as [E3%Hz ->%Z.eqb_eq]. rewrite !Forall_cons in E3. destruct E3 as (->&->&->&->&->&_).
      rewrite H4v. clear H4v Hz Hn. lia.
    + assert (¬ (g0 = 0 ∧ g1 = 0 ∧ g2 = 0 ∧ g3 = 0 ∧ g4 = 0 ∧ g5 = 65535)) as Hm.
      { intros (->&->&->&->&->&->). apply andb_false_iff in E3 as [E3|E3]; [|done]. by apply not_true_iff_false in E3; apply E3, Hz; repeat constructor. }
      apply andb_false_iff in E1, E2. rewrite !Z.leb_gt, !Z.ltb_ge in *. clear H4v Hz E3. split; [done|]. intros Hr. exfalso.
      destruct Hr as [Hr|[Hr|[Hr|Hr]]]; [lia|lia|lia|].
      assert (65535 * 2^32 ≤ g0 * 2 ^ 112 + (g1 * 2 ^ 96 + g2 * 2 ^ 80 + g3 * 2 ^ 64 + g4 * 2 ^ 48 + g5 * 2 ^ 32) + (g6 * 65536 + g7) < 65536 * 2^32) by lia.
      clear Hr. apply Hm. lia.
Qed.

(** C11 (equivalence): an address is blocked exactly when it is in one of the
    prefixes 0/8, 10/8, 127/8, 169.254/16, 172.16/12 and 192.168/16, or ::/127,
    fe80::/10, fc00::/7 and the first six mapped below ::ffff:0:0/96: bits of the
    address decide, not its notation.  No other address that is not public is
    on the list: carrier-grade, benchmark and multicast ones pass. *)
Theorem guard_blocks_prefixes isIP ip :
  isBlockedIp isIP ip = true ↔
  (isIP ip = 4 ∧ ∃ o, parseIpv4 ip = Some o ∧ Exists (λ p, in_prefix 32 p (value4 o)) private4) ∨
  (isIP ip = 6 ∧ ∃ gs, ipv6Groups ip = Some gs ∧ Exists (λ p, in_prefix 128 p (value6 gs)) private6).
Proof.
  unfold isBlockedIp. destruct (Z.eqb_spec (isIP ip) 4) as [->|H4].
  - destruct (parseIpv4 ip) as [o|] eqn:E.
    + rewrite (isBlockedIpv4_ranges _ _ E), <-private4_ranges. naive_solver.
    + unfold isBlockedIpv4. rewrite E. naive_solver.
  - destruct (Z.eqb_spec (isIP ip) 6) as [->|H6]; [|naive_solver]. destruct (ipv6Groups ip) as [gs|] eqn:E.
    + rewrite (isBlockedIpv6_ranges _ _ E), <-private6_ranges. naive_solver.
    + unfold isBlockedIpv6. rewrite E. naive_solver.
Qed.

(** ** Notations of an IPv6 address *)

(** Groups, an optional "::" with the groups after it, an optional dotted tail
    and an optional zone. *)
Record Notation6 := mkNotation {
  n_left : list string; n_right : option (list string); n_tail : option string; n_zone : option string
}.

Definition show6 (n : Notation6) : string :=
  match n_right n with
  | None => join ":"%char (n_left n ++ option_list (n_tail n))
  | Some rs => join ":"%char (n_left n) +:+ "::" +:+ join ":"%char (rs ++ option_list (n_tail n))
  end +:+ match n_zone n with Some z => "%" +:+ z | None => "" end.

(** What the notation stands for, when its parts are well formed and fit. *)
Inductive denotes : Notation6 → list Z → Prop :=
| denotes_full ls tail zone lv tv :
    Forall2 (λ t v, hex_group t = Some v) ls lv → denotes_tail tail tv → (length lv + length tv = 8)%nat →
    denotes (mkNotation ls None tail zone) (lv ++ tv)
| denotes_short ls rs tail zone lv rv tv k :
    Forall2 (λ t v, hex_group t = Some v) ls lv → Forall2 (λ t v, hex_group t = Some v) rs rv → denotes_tail tail tv →
    (length lv + k + length rv + length tv = 8)%nat →
    denotes (mkNotation ls (Some rs) tail zone) (lv ++ replicate k 0 ++ rv ++ tv)
with denotes_tail : option string → list Z → Prop :=
| denotes_none : denotes_tail None []
| denotes_dotted t a b c d : parseIpv4 t = Some (a, b, c, d) → denotes_tail (Some t) [a * 256 + b; c * 256 + d].

(** A group's text: some hex digits. *)
Definition word (s : string) : Prop := s ≠ "" ∧ all_chars (λ c, bool_decide (is_Some (hex_digit c))) s = true.

Lemma hex_value_word acc g v : hex_value acc g = Some v → all_chars (λ c, bool_decide (is_Some (hex_digit c))) g = true.
Proof.
  revert acc. induction g as [|c g IH]; intros acc; [done|]. cbn. destruct (hex_digit c) as [d|] eqn:E; [|done].
  intros H. cbn [all_chars]. rewrite bool_decide_true by (by exists d). by eapply IH.
Qed.
Lemma hex_group_word g v : hex_group g = Some v → word g.
Proof.
  unfold hex_group. case_match eqn:E; [|done]. intros H. split; [by intros ->|by eapply hex_value_word].
Qed.
Lemma words ls lv : Forall2 (λ t v, hex_group t = Some v) ls lv → Forall word ls.
Proof. induction 1; constructor; [by eapply hex_group_word|done]. Qed.
Lemma word_free c w : hex_digit c = None → word w → char_free c w = true.
Proof. intros Hc [_ H]. eapply all_chars_free; [|exact H]. apply bool_decide_false. rewrite Hc. by intros [? ?]. Qed.

Lemma octet_digits p n : octet p = Some n → all_chars is_digit p = true.
Proof. unfold octet. case_match eqn:E; [|done]. intros _. by to_prop. Qed.

Lemma join_split c s : join c (JsText.split c s) = s.
Proof.
  induction s as [|x s IH]; [done|]. cbn. pose proof (split_nonempty c s) as Hne.
  case_bool_decide as Hx; destruct (JsText.split c s) as [|y l]; try done.
  - rewrite Hx. transitivity (String c (join c (y :: l))); [done|by rewrite IH].
  - transitivity (String x (join c (y :: l))); [by destruct l|by rewrite IH].
Qed.

Lemma parseIpv4_text t o : parseIpv4 t = Some o → char_free ":"%char t = true ∧ char_free "%"%char t = true ∧ char_free "."%char t = false.
Proof.
  unfold parseIpv4. rewrite <-(join_split "."%char t) at 2 3 4. destruct (JsText.split _ t) as [|p [|q [|r [|s [|]]]]]; try done.
  destruct (octet p) eqn:Ea, (octet q) eqn:Eb, (octet r) eqn:Ec, (octet s) eqn:Ed; try done. intros _.
  apply octet_digits in Ea, Eb, Ec, Ed. cbn [join]. rewrite !char_free_app. cbn [char_free]. rewrite !char_free_app. cbn [char_free]. rewrite !char_free_app. cbn.
  by rewrite !(all_chars_free is_digit ":"%char), !(all_chars_free is_digit "%"%char), !(all_chars_free is_digit "."%char).
Qed.

(** *** Reading one back *)

Lemma mapM_words ls lv : Forall2 (λ t v, hex_group t = Some v) ls lv → parseHexGroups (join ":"%char ls) = Some lv.
Proof.
  intros H. pose proof (words _ _ H) as Hw. destruct H as [|t v ls lv Ht H]; [done|].
  assert (join ":"%char (t :: ls) ≠ "") as Hne.
  { apply Forall_cons in Hw as [[Ht' _] _]. destruct t; [done|]. by destruct ls. }
  unfold parseHexGroups. destruct (join _ _) as [|c s] eqn:E; [done|]. rewrite <-E, split_join; [|done|].
  - apply mapM_Some. by constructor.
  - eapply Forall_impl; [exact Hw|]. intros w. by apply word_free.
Qed.

Lemma join_free c ls : c ≠ ":"%char → Forall (λ w, char_free c w = true) ls → char_free c (join ":"%char ls) = true.
Proof.
  intros Hc. induction 1 as [|w [|w' ls] Hw Hls IH]; [done|done|].
  change (join ":"%char (w :: w' :: ls)) with (w +:+ String ":" (join ":"%char (w' :: ls))).
  rewrite char_free_app, Hw. cbn [andb char_free]. rewrite IH, bool_decide_false by done. done.
Qed.

(** Passing over a colon-free text. *)
Lemma split_double_free w rest : char_free ":"%char w = true →
  split_double (w +:+ rest) = '(l, r) ← split_double rest; Some (w +:+ l, r).
Proof.
  induction w as [|c w IH]; intros H; [change ("" +:+ rest) with rest; by destruct (split_double rest) as [[]|]|].
  cbn [char_free] in H. apply andb_true_iff in H as [Hc%negb_true_iff%bool_decide_eq_false H].
  rewrite string_app_cons. transitivity ('(l, r) ← split_double (w +:+ rest); Some (String c l, r)).
  - cbn [split_double]. destruct c as [[] [] [] [] [] [] [] []]; try done. 
  - rewrite IH by done. by destruct (split_double rest) as [[]|].
Qed.
Lemma split_double_colon c w : c ≠ ":"%char →
  split_double (String ":" (String c w)) = '(l, r) ← split_double (String c w); Some (String ":" l, r).
Proof. intros Hc. destruct c as [[] [] [] [] [] [] [] []]; done. Qed.

Lemma split_double_words ls rest : Forall word ls →
  split_double (join ":"%char ls +:+ rest) = '(l, r) ← split_double rest; Some (join ":"%char ls +:+ l, r).
Proof.
  induction 1 as [|w [|w' ls] Hw Hls IH]; [change (join ":"%char [] +:+ rest) with rest; by destruct (split_double rest) as [[]|]|by apply split_double_free, word_free|].
  change (join ":"%char (w :: w' :: ls)) with (w +:+ String ":" (join ":"%char (w' :: ls))).
  rewrite string_app_assoc, string_app_cons, split_double_free by (by apply word_free).
  assert (∃ c s, join ":"%char (w' :: ls) = String c s ∧ c ≠ ":"%char) as (c&s&Ej&Hc).
  { apply Forall_cons in Hls as [Hw' _]. pose proof (word_free ":"%char _ eq_refl Hw') as Hf. destruct Hw' as [Hne _].
    destruct w' as [|c w']; [done|]. cbn in Hf. apply andb_true_iff in Hf as [Hc%negb_true_iff%bool_decide_eq_false _].
    destruct ls; by eexists _, _. }
  rewrite Ej, string_app_cons, split_double_colon by done. rewrite <-string_app_cons, <-Ej, IH.
  destruct (split_double rest) as [[l r]|]; cbn; [|done]. by rewrite string_app_assoc, string_app_cons.
Qed.

Lemma split_last_free c s : char_free c s = true → split_last c s = None.
Proof.
  induction s as [|x s IH]; cbn [char_free split_last]; [done|]. intros [Hx H]%andb_true_iff. rewrite IH by done.
  apply negb_true_iff in Hx. by rewrite Hx.
Qed.
Lemma split_last_app c p t : char_free c t = true → split_last c (p +:+ String c t) = Some (p, t).
Proof.
  intros Ht. induction p as [|x p IH].
  - change ("" +:+ String c t) with (String c t). cbn [split_last]. by rewrite split_last_free, bool_decide_true by done.
  - rewrite string_app_cons. cbn [split_last]. by rewrite IH.
Qed.
Lemma split_last_part c x s l r : split_last c s = Some (l, r) → char_free x s = true → char_free x r = true.
Proof.
  revert l r. induction s as [|y s IH]; intros l r; cbn; [done|]. destruct (split_last c s) as [[l' r']|].
  - intros [= _ <-] [_ H]%andb_true_iff. by eapply IH.
  - case_bool_decide; [|done]. by intros [= _ <-] [_ Hs]%andb_true_iff.
Qed.

Lemma splitV4Tail_free s : char_free "."%char s = true → splitV4Tail s = Some (s, []).
Proof.
  intros H. unfold splitV4Tail. destruct (split_last _ s) as [[l r]|] eqn:E; [|done].
  by rewrite (split_last_part _ _ _ _ _ E H).
Qed.
Lemma splitV4Tail_dotted p t a b c d : parseIpv4 t = Some (a, b, c, d) →
  splitV4Tail (p +:+ String ":" t) = Some (head_of p, [a * 256 + b; c * 256 + d]).
Proof.
  intros H. pose proof (parseIpv4_text _ _ H) as (Hc&_&Hd). unfold splitV4Tail. rewrite split_last_app by done. rewrite Hd, H.
  apply parseIpv4_octets in H as (?&?&?&?). cbn. by rewrite !lor_octets.
Qed.

(** What ends with a word keeps its end. *)
Lemma head_of_words p ls : Forall word ls → ls ≠ [] → head_of (p +:+ join ":"%char ls) = p +:+ join ":"%char ls.
Proof.
  intros H Hne. unfold head_of. destruct (split_last _ _) as [[l [|c r]]|] eqn:E; [|done..]. exfalso. revert p l E.
  induction H as [|w ls Hw H IH]; [done|]. intros p l. destruct ls as [|w' ls].
  - intros E. pose proof (word_free ":"%char _ eq_refl Hw) as Hf. destruct Hw as [Hn _]. revert l E.
    induction p as [|x p IHp]; intros l.
    + change ("" +:+ join ":"%char [w]) with w. by rewrite split_last_free.
    + rewrite string_app_cons. cbn [split_last]. destruct (split_last _ _) as [[l' r']|] eqn:E'.
      * intros Eq. injection Eq as _ ->. by eapply IHp.
      * case_bool_decide; [|done]. intros Eq. injection Eq as _ Eq. by destruct p, w.
  - change (join ":"%char (w :: w' :: ls)) with (w +:+ String ":" (join ":"%char (w' :: ls))).
    assert (∀ s, p +:+ (w +:+ String ":" s) = ((p +:+ w) +:+ ":") +:+ s) as -> by (intros; by rewrite !string_app_assoc).
    by apply IH.
Qed.

Lemma before_percent_zone s z : char_free "%"%char s = true →
  before_percent (s +:+ match z with Some z => "%" +:+ z | None => "" end) = s.
Proof.
  induction s as [|c s IH]; [by destruct z|]. cbn [char_free]. intros [Hc%negb_true_iff%bool_decide_eq_false H]%andb_true_iff.
  rewrite string_app_cons. transitivity (String c (before_percent (s +:+ match z with Some z => "%" +:+ z | None => "" end))).
  - destruct c as [[] [] [] [] [] [] [] []]; done.
  - by rewrite IH.
Qed.

Lemma join_snoc c ls t : ls ≠ [] → join c (ls ++ [t]) = join c ls +:+ String c t.
Proof.
  induction ls as [|w [|w' ls] IH]; [done|done|]. intros _.
  change (w +:+ String c (join c ((w' :: ls) ++ [t])) = (w +:+ String c (join c (w' :: ls))) +:+ String c t).
  by rewrite IH, string_app_assoc, string_app_cons.
Qed.

Lemma words_free c ls : hex_digit c = None → c ≠ ":"%char → Forall word ls → char_free c (join ":"%char ls) = true.
Proof. intros Hh Hc H. apply join_free; [done|]. eapply Forall_impl; [exact H|]. intros w. by apply word_free. Qed.

(** The head and the tail of a well-formed text. *)
Lemma split_full ls tail lv tv :
  Forall2 (λ t v, hex_group t = Some v) ls lv → denotes_tail tail tv → (length lv + length tv = 8)%nat →
  splitV4Tail (join ":"%char (ls ++ option_list tail)) = Some (join ":"%char ls, tv) ∧
  char_free "%"%char (join ":"%char (ls ++ option_list tail)) = true.
Proof.
  intros H Ht Hlen. pose proof (words _ _ H) as Hw. destruct Ht as [|t a b c d Ht].
  - change (option_list None) with (@nil string). rewrite app_nil_r. split; [apply splitV4Tail_free|]; by apply words_free.
  - change (option_list (Some t)) with [t]. assert (ls ≠ []) as Hne by (intros ->; inversion H; subst; done). rewrite join_snoc by done. split.
    + rewrite (splitV4Tail_dotted _ _ _ _ _ _ Ht). do 2 f_equal. by apply (head_of_words "").
    + rewrite char_free_app, words_free by done. by destruct (parseIpv4_text _ _ Ht) as (_&Hp&_).
Qed.
Lemma split_short ls rs tail lv rv tv :
  Forall2 (λ t v, hex_group t = Some v) ls lv → Forall2 (λ t v, hex_group t = Some v) rs rv → denotes_tail tail tv →
  let body := join ":"%char ls +:+ "::" +:+ join ":"%char (rs ++ option_list tail) in
  splitV4Tail body = Some (join ":"%char ls +:+ "::" +:+ join ":"%char rs, tv) ∧ char_free "%"%char body = true.
Proof.
  intros Hl Hr Ht. pose proof (words _ _ Hl) as Hwl. pose proof (words _ _ Hr) as Hwr.
  destruct Ht as [|t a b c d Ht]; cbv zeta.
  - change (option_list None) with (@nil string). rewrite app_nil_r, !char_free_app, !words_free by done. split; [|done]. apply splitV4Tail_free. by rewrite !char_free_app, !words_free.
  - change (option_list (Some t)) with [t]. destruct (parseIpv4_text _ _ Ht) as (_&Hp&_). destruct rs as [|w rs].
    + assert (∀ s, join ":"%char ls +:+ "::" +:+ s = (join ":"%char ls +:+ ":") +:+ String ":" s) as -> by (intros; by rewrite string_app_assoc).
      rewrite (splitV4Tail_dotted _ _ _ _ _ _ Ht), !char_free_app, words_free by done. split; [|exact Hp].
      do 2 f_equal. unfold head_of. by rewrite split_last_app, string_app_assoc.
    + rewrite join_snoc by done.
      assert (∀ s, join ":"%char ls +:+ "::" +:+ (join ":"%char (w :: rs) +:+ s) = (join ":"%char ls +:+ "::" +:+ join ":"%char (w :: rs)) +:+ s) as ->
        by (intros; by rewrite !string_app_assoc).
      rewrite (splitV4Tail_dotted _ _ _ _ _ _ Ht), !char_free_app, !words_free by done. split; [|exact Hp].
      do 2 f_equal. rewrite <-string_app_assoc. by apply head_of_words.
Qed.

(** C12 (roundtrip): whatever notation an IPv6 address is written in, with or
    without "::", upper or lower case, leading zeros, a dotted tail or a zone,
    it is read as the eight groups it stands for: no notation hides an address
    from the guard. *)
Theorem every_notation_read n gs : denotes n gs → ipv6Groups (show6 n) = Some gs.
Proof.
  intros [ls tail zone lv tv Hl Ht Hlen|ls rs tail zone lv rv tv k Hl Hr Ht Hlen]; unfold ipv6Groups, show6; cbn [n_left n_right n_tail n_zone].
  - destruct (split_full _ _ _ _ Hl Ht Hlen) as [Es Hp]. rewrite before_percent_zone, Es by done. cbn [mbind option_bind].
    rewrite <-(string_app_empty (join _ ls)), split_double_words by (by eapply words). cbn [split_double mbind option_bind].
    rewrite string_app_empty, (mapM_words _ _ Hl). cbn. by rewrite length_app, Hlen.
  - destruct (split_short ls rs tail lv rv tv Hl Hr Ht) as [Es Hp]. rewrite before_percent_zone, Es by done. cbn [mbind option_bind].
    rewrite split_double_words by (by eapply words).
    assert (∀ x, split_double ("::" +:+ x) = Some ("", x)) as -> by done. cbn [mbind option_bind].
    rewrite string_app_empty, (mapM_words _ _ Hl), (mapM_words _ _ Hr). cbn.
    replace (_ <=? 8)%nat with true by (symmetry; apply Nat.leb_le; lia). cbn.
    replace (8 - (length lv + length rv + length tv))%nat with k by lia.
    replace (length _ =? 8)%nat with true; [done|]. symmetry. apply Nat.eqb_eq. rewrite !length_app, length_replicate. lia.
Qed.

Lemma every_notation_read_witness :
  show6 (mkNotation [] (Some ["fFfF"]) (Some "169.254.169.254") (Some "en0")) = "::fFfF:169.254.169.254%en0" ∧
  ipv6Groups "::fFfF:169.254.169.254%en0" = Some [0; 0; 0; 0; 0; 0xffff; 0xa9fe; 0xa9fe].
Proof.
  split; [reflexivity|].
  apply (every_notation_read (mkNotation [] (Some ["fFfF"]) (Some "169.254.169.254") (Some "en0")) [0; 0; 0; 0; 0; 0xffff; 0xa9fe; 0xa9fe]).
  apply (denotes_short [] ["fFfF"] (Some "169.254.169.254") (Some "en0") [] [0xffff] [169 * 256 + 254; 169 * 256 + 254] 5).
  - constructor.
  - repeat constructor.
  - by apply denotes_dotted.
  - reflexivity.
Defined.
