(* ===== verification/RagFetch.v ===== *)
(** * Retrieval pipelines: the HTTP source

    packages/remote/src/rag/pipeline/fetchers/http.ts: the breadth-first crawl,
    its robots rules, its rate limit and its guarded requests.  [new URL] and
    [isIP] are parameters; the network, the resolver, the clock, the abort
    signal and the consumer are an oracle, whose calls and answers are kept in
    order.  A thrown error is written with its class first. *)

From S2P Require Import Prelude Trace JsText ConsoleMask RagGuard.
From Stdlib Require Import Ascii QArith Qround.

#[local] Open Scope string_scope.
#[local] Open Scope list_scope.
#[local] Open Scope Z_scope.

(** ** Text *)

Definition startsWith_i (p s : string) : bool := startsWith p (lower (String.substring 0 (String.length p) s)).

(** Where [p] first occurs, in any case. *)
Fixpoint index_i (p s : string) : option nat :=
  if startsWith_i p s then Some 0%nat else match s with EmptyString => None | String _ s' => S <$> index_i p s' end.

(** [open[\s\S]*?close] at a place: the length of the match. *)
Definition lazy_span (opens closes s : string) : option nat :=
  if startsWith_i opens s then
    n ← index_i closes (JsText.slice (String.length opens) s); Some (String.length opens + n + String.length closes)%nat
  else None.

Definition drop_spans (opens closes h : string) : string :=
  ConsoleMask.replaceAll (λ _ s, n ← lazy_span opens closes s; Some (n, "")) h.

(** [re.exec(h)?.[0]] *)
Fixpoint first_span (opens closes h : string) : option string :=
  match lazy_span opens closes h with
  | Some n => Some (String.substring 0 n h)
  | None => match h with EmptyString => None | String _ h' => first_span opens closes h' end
  end.

(** [<[^>]+>] *)
Definition tag_span (s : string) : option nat :=
  match s with
  | String "<" rest =>
      let '(inside, after) := run_of (λ c, negb (bool_decide (c = ">"%char))) rest in
      match inside, after with String _ _, String _ _ => Some (String.length inside + 2)%nat | _, _ => None end
  | _ => None
  end.

Definition literal (from to h : string) : string :=
  ConsoleMask.replaceAll (λ _ s, if startsWith from s then Some (String.length from, to) else None) h.

Definition space_span (s : string) : option nat :=
  match run_of is_space s with (String _ _ as blanks, _) => Some (String.length blanks) | _ => None end.

Definition QUOTE : string := String "034"%char "".

Definition extractReadableText (html : string) : string :=
  let h := drop_spans "<!--" "-->" html in
  let h := drop_spans "<script" "</script>" h in
  let h := drop_spans "<style" "</style>" h in
  let h := drop_spans "<nav" "</nav>" h in
  let h := drop_spans "<footer" "</footer>" h in
  let h := drop_spans "<header" "</header>" h in
  let chosen :=
    match first_span "<main" "</main>" h with
    | Some m => m
    | None => match first_span "<article" "</article>" h with
              | Some a => a
              | None => default h (first_span "<body" "</body>" h)
              end
    end in
  let t := ConsoleMask.replaceAll (λ _ s, n ← tag_span s; Some (n, " ")) chosen in
  let t := literal "&quot;" QUOTE (literal "&gt;" ">" (literal "&lt;" "<" (literal "&amp;" "&" (literal "&nbsp;" " " t)))) in
  let t := literal "&#39;" "'" t in
  trim (ConsoleMask.replaceAll (λ _ s, n ← space_span s; Some (n, " ")) t).

(** An [href] attribute in double quotes at a place: the length of the match and the group. *)
Definition href_span (s : string) : option (nat * string) :=
  if startsWith_i "href" s then
    let '(b1, r1) := run_of is_space (JsText.slice 4 s) in
    match r1 with
    | String "=" r2 =>
        let '(b2, r3) := run_of is_space r2 in
        match r3 with
        | String "034" r4 =>
            let '(value, r5) := run_of (λ c, negb (bool_decide (c = "034"%char))) r4 in
            match value, r5 with
            | String _ _, String _ _ => Some ((4 + String.length b1 + 1 + String.length b2 + 1 + String.length value + 1)%nat, value)
            | _, _ => None
            end
        | _ => None
        end
    | _ => None
    end
  else None.

(** The groups of the matches, which do not overlap. *)
Fixpoint hrefs (skip : nat) (s : string) : list string :=
  match s with
  | EmptyString => []
  | String _ s' =>
      match skip with
      | S n => hrefs n s'
      | O => match href_span s with Some (S n, value) => value :: hrefs n s' | _ => hrefs 0 s' end
      end
  end.

(** [/<html[\s>]/i] *)
Fixpoint html_marker (s : string) : bool :=
  startsWith_i "<html" s && match JsText.slice 5 s with String c _ => is_space c || bool_decide (c = ">"%char) | EmptyString => false end
  || match s with EmptyString => false | String _ s' => html_marker s' end.

(** ** robots.txt *)

(** [/#.*/]: up to the end of the line. *)
Fixpoint strip_comment (s : string) : string :=
  match s with
  | EmptyString => ""
  | String c s' =>
      if bool_decide (c = "#"%char) then (run_of (λ c, negb (bool_decide (c ∈ [newline; carriage_return]))) s').2
      else String c (strip_comment s')
  end.

Fixpoint strip_cr (s : string) : string :=
  match s with
  | EmptyString => ""
  | String c EmptyString => if bool_decide (c = carriage_return) then "" else s
  | String c s' => String c (strip_cr s')
  end.

(** [text.split(/\r?\n/)] *)
Fixpoint strip_crs (lines : list string) : list string :=
  match lines with [] => [] | [l] => [l] | l :: rest => strip_cr l :: strip_crs rest end.
Definition split_lines (text : string) : list string := strip_crs (JsText.split newline text).

Fixpoint at_colon (s : string) : option (string * string) :=
  match s with
  | EmptyString => None
  | String c s' => if bool_decide (c = ":"%char) then Some ("", s') else '(l, r) ← at_colon s'; Some (String c l, r)
  end.

Fixpoint robots_lines (inStar : bool) (lines : list string) : list string :=
  match lines with
  | [] => []
  | raw :: rest =>
      match trim (strip_comment raw) with
      | EmptyString => robots_lines false rest
      | line =>
          match at_colon line with
          | None => robots_lines inStar rest
          | Some (l, r) =>
              let field := lower (trim l) in
              let value := trim r in
              if bool_decide (field = "user-agent") then robots_lines (bool_decide (value = "*")) rest
              else if bool_decide (field = "disallow") && inStar then value :: robots_lines inStar rest
              else robots_lines inStar rest
          end
      end
  end.

Definition parseRobots (text : string) : list string := robots_lines false (split_lines text).

Definition rules_allow (rules : list string) (path : string) : bool :=
  forallb (λ rule, bool_decide (rule = "") || negb (startsWith rule path)) rules.

Example robots_read :
  parseRobots ("User-Agent: * # all" +:+ String newline ("Disallow: /private" +:+ String newline ("" +:+ String newline "Disallow: /late"))) = ["/private"].
Proof. reflexivity. Qed.
Example text_read : extractReadableText "<p>a</p><SCRIPT>x</script> <main><b>1 &lt; 2</b></main>" = "1 < 2".
Proof. reflexivity. Qed.

(** ** The crawl *)

(** [MAX_REDIRECTS] *)
Definition MAX_REDIRECTS : nat := 5.

Record URL := mkURL {
  u_href : string; u_origin : string; u_protocol : string; u_hostname : string; u_pathname : string; u_search : string
}.

(** [HttpSourceSpecSchema], with its defaults filled in. *)
Record HttpSourceSpec (Tag : Type) := mkSpec {
  s_url : string; max_depth : Z; same_origin : bool; ignore_robots : bool; rate_limit_per_sec : Q; timeout_ms : Z;
  tokenRef : option string; allow_private_targets : bool; s_tag : Tag
}.
Arguments mkSpec {Tag}.
Arguments s_url {Tag}.
Arguments max_depth {Tag}.
Arguments same_origin {Tag}.
Arguments ignore_robots {Tag}.
Arguments rate_limit_per_sec {Tag}.
Arguments timeout_ms {Tag}.
Arguments tokenRef {Tag}.
Arguments allow_private_targets {Tag}.
Arguments s_tag {Tag}.

Record QueueItem := mkItem { q_url : string; q_depth : Z }.
#[export] Instance QueueItem_eq : EqDecision QueueItem.
Proof. solve_decision. Defined.

(** Status, [location], [content-type], and what its body is read by. *)
Record Response := mkResponse { status : Z; location : option string; content_type : option string; body_ref : Z }.

Definition res_ok (res : Response) : bool := (200 <=? status res) && (status res <=? 299).
Definition isRedirect (status : Z) : bool := bool_decide (status ∈ [301; 302; 303; 307; 308]).

Section crawl.
Context {Tag World : Type}.

(** A [RawDoc] of this source; [d_fetched_at] is the time it was built. *)
Record RawDoc := mkDoc {
  d_id : string; d_content : string; d_fetched_at : Z; d_status : Z; d_content_type : string; d_depth : Z; d_tag : Tag
}.

Inductive Call :=
| CSecret (ref : string)
| CResolve (host : string)
| CFetch (url : string) (authorization : option string) (timeoutMs : Z)   (* manual redirects, the source's signal *)
| CText (ref : Z)
| CNow
| CAborted
| CWait (ms : Z)                                                          (* or until the abort *)
| CLog (level msg : string)
| CYield (doc : RawDoc).

Definition Resp (c : Call) : Type :=
  match c with
  | CSecret _ | CText _ => string
  | CResolve _ => list string
  | CFetch _ _ _ => Response
  | CNow => Z
  | CAborted => bool
  | CWait _ | CLog _ _ | CYield _ => unit
  end.

(** A call and its answer. *)
Definition Event : Type := { c : Call & result (Resp c) }.

(** [new URL(raw, base)], [u.hash = ""] and back to text, [isIP]. *)
Context (oracle : ∀ c : Call, World → World * result (Resp c)).
Context (parse_url : string → option string → option URL) (without_hash : URL → string) (isIP : string → Z).
Context (spec : HttpSourceSpec Tag).

(** [CrawlState], less what does not change, with the fields of its rate
    limiter and of its robots cache. *)
Record St := mkSt {
  st_world : World; visited : gset string; queue : list QueueItem;
  nextAllowed : gmap string Z; disallows : gmap string (list string); fetched : gset string; trace : list Event
}.
Notation M := (eff St).

Definition set_world (w : World) (e : Event) (s : St) : St :=
  mkSt w (visited s) (queue s) (nextAllowed s) (disallows s) (fetched s) (trace s ++ [e]).
Definition set_frontier (v : gset string) (q : list QueueItem) (s : St) : St :=
  mkSt (st_world s) v q (nextAllowed s) (disallows s) (fetched s) (trace s).
Definition set_nextAllowed (m : gmap string Z) (s : St) : St :=
  mkSt (st_world s) (visited s) (queue s) m (disallows s) (fetched s) (trace s).
Definition set_disallows (host : string) (rules : list string) (s : St) : St :=
  mkSt (st_world s) (visited s) (queue s) (nextAllowed s) (<[host := rules]> (disallows s)) (fetched s) (trace s).
Definition set_fetched (host : string) (s : St) : St :=
  mkSt (st_world s) (visited s) (queue s) (nextAllowed s) (disallows s) ({[host]} ∪ fetched s) (trace s).

Definition perform (c : Call) : M (Resp c) := λ s,
  let '(w, r) := oracle c (st_world s) in (set_world w (existT c r) s, r).

Definition url_or_throw (raw : string) (base : option string) : M URL :=
  match parse_url raw base with Some u => mret u | None => throw "TypeError: Invalid URL" end.

(** *** The guard of a request *)

Definition blocked {A} (msg : string) : M A := throw ("SsrfBlockedError: SSRF guard: " +:+ msg).
Definition is_ssrf (e : string) : bool := startsWith "SsrfBlockedError: " e.

Definition assertHostnameResolvesPublic (host : string) : M unit :=
  addresses ← try_catch (perform (CResolve host)) (λ e, blocked ("host resolution failed for " +:+ host +:+ ": " +:+ e));
  match addresses with
  | [] => blocked ("host " +:+ host +:+ " resolved to no addresses")
  | _ => match List.find (isBlockedIp isIP) addresses with
         | Some addr => blocked ("host " +:+ host +:+ " resolved to non-public address " +:+ addr)
         | None => mret tt
         end
  end.

Definition assertPublicUrl (rawUrl : string) : M unit :=
  if allow_private_targets spec then mret tt else
  match parse_url rawUrl None with
  | None => blocked ("unparseable URL: " +:+ rawUrl)
  | Some url =>
      if negb (bool_decide (u_protocol url ∈ ["http:"; "https:"])) then blocked ("non-http(s) scheme rejected: " +:+ u_protocol url)
      else
        let host := bare_host (u_hostname url) in
        if isLiteralLoopbackHost host then blocked ("loopback host rejected: " +:+ host)
        else if negb (isIP host =? 0) then
          if isBlockedIp isIP host then blocked ("non-public address rejected: " +:+ host) else mret tt
        else assertHostnameResolvesPublic host
  end.

(** *** A request with its redirects *)

(** Errors of the network are of other classes. *)
Definition fetch_with_timeout (url : string) (authorization : option string) : M Response :=
  try_catch (perform (CFetch url authorization (timeout_ms spec))) (λ e, throw ("Error: " +:+ e)).

Fixpoint hops (n : nat) (authHeader : option string) (originOrigin startUrl currentUrl : string) : M Response :=
  match n with
  | O => throw ("Error: too many redirects (>5) starting at " +:+ startUrl)
  | S n =>
      assertPublicUrl currentUrl;;
      current ← url_or_throw currentUrl None;
      let auth := if truthy authHeader && bool_decide (u_origin current = originOrigin) then authHeader else None in
      res ← fetch_with_timeout currentUrl auth;
      if negb (isRedirect (status res)) then mret res else
      match location res with
      | None | Some EmptyString => mret res
      | Some location => next ← url_or_throw location (Some currentUrl); hops n authHeader originOrigin startUrl (u_href next)
      end
  end.

Definition guardedFetch (authHeader : option string) (startUrl : string) : M Response :=
  start ← url_or_throw startUrl None; hops (S MAX_REDIRECTS) authHeader (u_origin start) startUrl startUrl.

Definition pretty_status (n : Z) : string := pretty n.

Definition fetchPage (authHeader : option string) (url : string) : M (option Response) :=
  res ← try_catch (res ← guardedFetch authHeader url; mret (Some res)) (λ e,
    (if is_ssrf e then perform (CLog "warn" ("SSRF guard blocked " +:+ url)) else perform (CLog "warn" ("fetch failed: " +:+ url)));;
    mret None);
  match res with
  | None => mret None
  | Some res =>
      if res_ok res then mret (Some res)
      else perform (CLog "warn" ("http " +:+ pretty_status (status res) +:+ " for " +:+ url));; mret None
  end.

(** *** Robots, rate, links *)

Definition isAllowed (authHeader : option string) (url : URL) : M bool :=
  let host := u_origin url in
  known ← gets (λ s, bool_decide (host ∈ fetched s));
  (if known : bool then mret tt else
     modify (set_fetched host);;
     try_catch
       (res ← guardedFetch authHeader (host +:+ "/robots.txt");
        if res_ok res then body ← perform (CText (body_ref res)); modify (set_disallows host (parseRobots body))
        else modify (set_disallows host []))
       (λ _, modify (set_disallows host [])));;
  gets (λ s, rules_allow (default [] (disallows s !! host)) (u_pathname url +:+ u_search url)).

Definition robotsAllows (authHeader : option string) (url : URL) (itemUrl : string) : M bool :=
  if ignore_robots spec then mret true else
  allowed ← isAllowed authHeader url;
  (if allowed : bool then mret tt else perform (CLog "info" ("robots.txt disallows " +:+ itemUrl)));;
  mret allowed.

Definition intervalMs : Z := Z.max 1 (Qfloor (1000 / rate_limit_per_sec spec)).

(** Whether the signal aborted. *)
Definition wait (host : string) : M bool :=
  now ← perform CNow;
  earliest ← gets (λ s, default 0 (nextAllowed s !! host));
  let delay := Z.max 0 (earliest - now) in
  modify (λ s, set_nextAllowed (<[host := Z.max now earliest + intervalMs]> (nextAllowed s)) s);;
  (if 0 <? delay then perform (CWait delay) else mret tt);;
  perform CAborted.

Definition canonicalize (urlStr : string) : string :=
  match parse_url urlStr None with Some u => without_hash u | None => urlStr end.

(** The resolved links, each once. *)
Fixpoint resolve_links (base : string) (seen : list string) (raw : list string) : list string :=
  match raw with
  | [] => []
  | href :: rest =>
      match parse_url href (Some base) with
      | None => resolve_links base seen rest
      | Some u =>
          if bool_decide (u_href u ∈ seen) then resolve_links base seen rest
          else u_href u :: resolve_links base (u_href u :: seen) rest
      end
  end.
Definition extractLinks (html : string) (base : URL) : list string := resolve_links (u_href base) [] (hrefs 0 html).

Definition enqueue (origin : string) (depth : Z) (raw : string) (s : St) : St :=
  let next := canonicalize raw in
  if bool_decide (next ∈ visited s) then s else
  match parse_url next None with
  | None => s
  | Some u =>
      if negb (bool_decide (u_protocol u ∈ ["http:"; "https:"])) then s
      else if same_origin spec && negb (bool_decide (u_origin u = origin)) then s
      else set_frontier ({[next]} ∪ visited s) (queue s ++ [mkItem next (depth + 1)]) s
  end.
Definition enqueueLinks (origin html : string) (pageUrl : URL) (depth : Z) : M unit :=
  modify (λ s, foldl (λ s raw, enqueue origin depth raw s) s (extractLinks html pageUrl)).

(** *** One entry, and all of them *)

Definition crawlOne (authHeader : option string) (origin : string) (item : QueueItem) : M (bool * option RawDoc) :=
  url ← url_or_throw (q_url item) None;
  passed ← try_catch (assertPublicUrl (q_url item);; mret true) (λ e,
    if is_ssrf e then perform (CLog "warn" ("SSRF guard blocked " +:+ q_url item));; mret false else throw e);
  if negb passed then mret (false, None) else
  allowed ← robotsAllows authHeader url (q_url item);
  if negb allowed then mret (false, None) else
  abortedDuringWait ← wait (u_hostname url);
  if abortedDuringWait : bool then mret (true, None) else
  res ← fetchPage authHeader (q_url item);
  match res with
  | None => mret (false, None)
  | Some res =>
      let contentType := default "" (content_type res) in
      html ← perform (CText (body_ref res));
      let isHtml := occurs "html" contentType || html_marker (String.substring 0 512 html) in
      let text := if isHtml then extractReadableText html else html in
      at_ ← perform CNow;
      (if isHtml && (q_depth item <? max_depth spec) then enqueueLinks origin html url (q_depth item) else mret tt);;
      mret (false, Some (mkDoc (q_url item) text at_ (status res) contentType (q_depth item) (s_tag spec)))
  end.

Definition next_item : M (option QueueItem) := λ s,
  match queue s with [] => (s, Ok None) | item :: rest => (set_frontier (visited s) rest s, Ok (Some item)) end.

(** A turn of the loop; whether the crawl is over. *)
Definition crawl_turn (authHeader : option string) (origin : string) : M bool :=
  more ← gets (λ s, negb (bool_decide (queue s = [])));
  if negb more then mret true else
  aborted ← perform CAborted;
  if aborted : bool then mret true else
  item ← next_item;
  match item with
  | None => mret true
  | Some item =>
      '(stop, doc) ← crawlOne authHeader origin item;
      if stop : bool then mret true else
      (match doc with Some doc => perform (CYield doc) | None => mret tt end);;
      mret false
  end.

(** [turns] turns at most. *)
Fixpoint crawl_loop (turns : nat) (authHeader : option string) (origin : string) : M bool :=
  match turns with
  | O => mret false
  | S turns => over ← crawl_turn authHeader origin; if over : bool then mret true else crawl_loop turns authHeader origin
  end.

(** [None]: the token cannot be had. *)
Definition resolveAuthHeader : M (option (option string)) :=
  match tokenRef spec with
  | None | Some EmptyString => mret (Some None)
  | Some ref =>
      try_catch (token ← perform (CSecret ref); mret (Some (Some ("Bearer " +:+ token))))
        (λ _, perform (CLog "error" "http source: unable to resolve tokenRef");; mret None)
  end.

Definition runCrawl (turns : nat) : M bool :=
  auth ← resolveAuthHeader;
  match auth with
  | None => mret true
  | Some authHeader =>
      origin ← url_or_throw (s_url spec) None;
      modify (set_frontier {[canonicalize (s_url spec)]} [mkItem (canonicalize (s_url spec)) 0]);;
      crawl_loop turns authHeader (u_origin origin)
  end.

Definition idle (w : World) : St := mkSt w ∅ [] ∅ ∅ ∅ [].

End crawl.
