(* ===== verification/RagFetchProps.v ===== *)
(** * Retrieval pipelines: what the HTTP source requests

    Of RagFetch.v: every request was cleared by the guard right before it, the
    bearer stays with the origin of the source when the crawl does, pages come
    once each, and the crawl ends. *)

From S2P Require Import Prelude Trace JsText ConsoleMask RagGuard RagFetch.
From Stdlib Require Import Ascii QArith.

#[local] Open Scope string_scope.
#[local] Open Scope list_scope.
#[local] Open Scope Z_scope.

Create HintDb crawl.

Section props.
Context {Tag World : Type} (oracle : ∀ c : @Call Tag, World → World * result (Resp c)).
Context (parse_url : string → option string → option URL) (without_hash : URL → string) (isIP : string → Z).
Context (sp : HttpSourceSpec Tag).
Notation St := (@St Tag World).
Notation Event := (@Event Tag).
Notation RawDoc := (@RawDoc Tag).
Notation perform := (perform oracle).
Notation spec := (spec (@trace Tag World)).
Notation appends := (appends (@trace Tag World)).

(** ** Requests are vetted *)

Definition fetch_of (e : Event) : option (string * option string) :=
  match projT1 e with CFetch url auth _ => Some (url, auth) | _ => None end.
(** The addresses that a host was resolved to. *)
Definition resolved (e : Event) : option (string * list string) :=
  match e with existT (CResolve host) (Ok addresses) => Some (host, addresses) | _ => None end.

(** What the guard lets through, after the calls [pre]: an address that is not
    blocked, or a host whose addresses were asked for just now and none of
    which is. *)
Definition cleared (pre : list Event) (url : string) : Prop :=
  allow_private_targets sp = true ∨
  ∃ u, parse_url url None = Some u ∧ u_protocol u ∈ ["http:"; "https:"] ∧
    let host := bare_host (u_hostname u) in
    isLiteralLoopbackHost host = false ∧
    ((isIP host ≠ 0 ∧ isBlockedIp isIP host = false) ∨
     ∃ pre' e addresses, pre = pre' ++ [e] ∧ resolved e = Some (host, addresses) ∧ addresses ≠ [] ∧
       Forall (λ a, isBlockedIp isIP a = false) addresses).

Definition vetted (seg : list Event) : Prop :=
  ∀ pre e post url auth, seg = pre ++ e :: post → fetch_of e = Some (url, auth) → cleared pre url.

Lemma cleared_app l pre url : cleared pre url → cleared (l ++ pre) url.
Proof.
  unfold cleared. intros [H|(u&Hu&Hp&Hl&[H|(pre'&e&addrs&->&H)])]; [by left| |].
  { right. exists u. split_and!; try done. by left. }
  right. exists u. split_and!; try done. right. exists (l ++ pre'), e, addrs. split; [by rewrite app_assoc|done].
Qed.

Lemma vetted_app s1 s2 : vetted s1 → vetted s2 → vetted (s1 ++ s2).
Proof.
  intros H1 H2 pre e post url auth E He. apply app_eq_inv in E as [(k&Ek&E)|(k&Ek&E)].
  - destruct k as [|x k].
    + rewrite app_nil_r in Ek. subst. rewrite <-(app_nil_r pre). apply cleared_app. by eapply (H2 []).
    + injection E as <- ->. by apply (H1 pre e k url auth).
  - subst. apply cleared_app. by eapply H2.
Qed.

Lemma vetted_quiet seg : Forall (λ e, fetch_of e = None) seg → vetted seg.
Proof. intros H pre e post url auth -> He. apply Forall_app in H as [_ H]. apply Forall_cons in H as [H _]. by rewrite He in H. Qed.

Definition vets {A} (m : eff St A) : Prop := spec m (λ seg _, vetted seg).

Lemma vets_bind {A B} (m : eff St A) (f : A → eff St B) : vets m → (∀ a, vets (f a)) → vets (m ≫= f).
Proof.
  intros Hm Hf. eapply spec_bind; [exact Hm|done|]. intros seg a Hs. eapply spec_weaken; [apply Hf|].
  intros seg2 r H2. by apply vetted_app.
Qed.
Lemma vets_try {A} (m : eff St A) h : vets m → (∀ e, vets (h e)) → vets (try_catch m h).
Proof.
  intros Hm Hf. eapply spec_try; [exact Hm|done|]. intros seg a Hs. eapply spec_weaken; [apply Hf|].
  intros seg2 r H2. by apply vetted_app.
Qed.
Lemma vets_still {A} (m : eff St A) : (∀ s, trace (m s).1 = trace s) → vets m.
Proof. intros H s. exists []. rewrite app_nil_r. split; [apply H|]. by apply vetted_quiet. Qed.
Lemma event_spec c : spec (perform c) (λ seg r, seg = [existT c r]).
Proof. apply spec_one. intros s. unfold RagFetch.perform. destruct (oracle c _) as [w r]. by eexists. Qed.
Lemma vets_perform c : (∀ url auth t, c ≠ CFetch url auth t) → vets (perform c).
Proof.
  intros Hc. eapply spec_weaken; [apply event_spec|]. intros seg r ->. apply vetted_quiet. constructor; [|done].
  destruct c; try done. by destruct (Hc url authorization timeoutMs).
Qed.
Lemma vets_quiet {A} (m : eff St A) : appends (λ e, fetch_of e = None) m → vets m.
Proof. intros H s. destruct (H s) as (seg&E&F). exists seg. split; [done|by apply vetted_quiet]. Qed.

(** What clears a request: no other request, and the answers it rests on. *)
Lemma assert_spec url :
  spec (assertPublicUrl oracle parse_url isIP sp url) (λ seg r, Forall (λ e, fetch_of e = None) seg ∧ (r = Ok tt → cleared seg url)).
Proof.
  unfold assertPublicUrl, blocked, throw, cleared. destruct (allow_private_targets sp) eqn:Ea.
  { intros s. exists []. rewrite app_nil_r. split_and!; [done..|]. by left. }
  destruct (parse_url url None) as [u|] eqn:Eu; [|intros s; exists []; by rewrite app_nil_r].
  case_bool_decide as Hp; cbn [negb]; [|intros s; exists []; by rewrite app_nil_r].
  destruct (isLiteralLoopbackHost _) eqn:El; [intros s; exists []; by rewrite app_nil_r|].
  destruct (Z.eqb_spec (isIP (bare_host (u_hostname u))) 0) as [H0|H0]; cbn [negb]; cycle 1.
  { destruct (isBlockedIp _ _) eqn:Eb; intros s; exists []; rewrite app_nil_r; split_and!; try done.
    intros _. right. exists u. split_and!; [done..|]. by left. }
  unfold assertHostnameResolvesPublic, blocked, throw.
  eapply spec_bind with (Q1 := λ seg r, ∃ e, seg = [e] ∧ fetch_of e = None ∧ ∀ l, r = Ok l → resolved e = Some (bare_host (u_hostname u), l)).
  - eapply spec_try; [apply event_spec|..]; cbn.
    + intros seg l ->. eexists. split_and!; [done..|]. by intros l' [= <-].
    + intros seg e -> s. exists []. rewrite app_nil_r. split; [done|]. eexists. by split_and!.
  - cbn. intros seg e (ev&->&He&_). split; [by constructor|done].
  - cbn. intros seg l (ev&->&He&Hl) s. exists []. rewrite app_nil_r. destruct l as [|a l]; [split_and!; [done|by constructor|done]|].
    destruct (List.find _ (a :: l)) eqn:Ef; (split_and!; [done|by constructor|]); [done|]. intros _. right. exists u.
    split_and!; [done..|]. right. exists [], ev, (a :: l). split_and!; [done|by apply Hl|done|].
    apply Forall_forall. intros x Hx. by apply (List.find_none _ _ Ef), list_elem_of_In.
Qed.

Lemma vets_assert url : vets (assertPublicUrl oracle parse_url isIP sp url).
Proof. eapply spec_weaken; [apply assert_spec|]. intros seg r [H _]. by apply vetted_quiet. Qed.

Lemma request_spec url auth :
  spec (fetch_with_timeout oracle sp url auth) (λ seg _, ∃ e, seg = [e] ∧ fetch_of e = Some (url, auth)).
Proof.
  unfold fetch_with_timeout. eapply spec_try; [apply event_spec|..]; cbn.
  - intros seg l ->. by eexists.
  - intros seg e -> s. exists []. rewrite app_nil_r. split; [done|]. by eexists.
Qed.

Lemma vetted_snoc seg e url auth : Forall (λ e, fetch_of e = None) seg → fetch_of e = Some (url, auth) → cleared seg url → vetted (seg ++ [e]).
Proof.
  intros Hs He Hc pre e' post url' auth' E He'. destruct (Forall_not_split _ seg [e] pre e' post Hs) as (pre'&->&E'); [by rewrite He'|done|].
  destruct pre' as [|x pre']; [injection E' as <- _; rewrite app_nil_r; naive_solver|by destruct pre'].
Qed.
#[local] Hint Resolve vets_assert : crawl.
#[local] Hint Extern 2 (vets _) => by apply vets_still : crawl.

Ltac vetting :=
  repeat first
    [ solve [eauto with crawl nocore]
    | match goal with |- vets (perform ?c) => by apply (vets_perform c) end
    | apply vets_bind; [|intros]
    | apply vets_try; [|intros]
    | match goal with |- vets (match ?x with _ => _ end) => destruct x eqn:? end
    | match goal with |- vets (let _ := _ in _) => cbv zeta end ].

Lemma url_or_throw_spec raw base :
  spec (url_or_throw parse_url raw base : eff St URL) (λ seg r, seg = [] ∧ ∀ u, r = Ok u → parse_url raw base = Some u).
Proof.
  unfold url_or_throw. intros s. exists []. rewrite app_nil_r. destruct (parse_url raw base) as [u|]; cbn; split_and!; try done.
  by intros ? [= <-].
Qed.
Lemma vets_url raw base : vets (url_or_throw parse_url raw base).
Proof. eapply spec_weaken; [apply url_or_throw_spec|]. intros seg r [-> _]. by apply vetted_quiet. Qed.
#[local] Hint Resolve vets_url : crawl.

Lemma vets_hops n auth origin start url : vets (hops oracle parse_url isIP sp n auth origin start url).
Proof.
  revert url. induction n as [|n IH]; intros url; cbn [hops]; [by apply vets_still|].
  eapply spec_bind; [apply assert_spec|intros seg e [H _]; by apply vetted_quiet|]. intros seg [] [Hs Hc]. specialize (Hc eq_refl).
  eapply spec_bind; [apply url_or_throw_spec|cbn; intros ? e [-> _]; rewrite app_nil_r; by apply vetted_quiet|].
  cbn. intros ? u [-> _]. eapply spec_bind; [apply request_spec|..]; cbn.
  - intros ? e (ev&->&He). by eapply vetted_snoc.
  - intros ? res (ev&->&He).
    match goal with |- spec ?m _ => assert (vets m) as H end.
    { destruct (isRedirect _); cbn [negb]; [|by apply vets_still]. destruct (location res) as [[|c l]|]; [by apply vets_still| |by apply vets_still].
      apply vets_bind; [apply vets_url|]. intros next. apply IH. }
    eapply spec_weaken; [apply H|]. intros seg2 r H2. cbn. change (ev :: seg2) with ([ev] ++ seg2). rewrite app_assoc. apply vetted_app; [|done]. by eapply vetted_snoc.
Qed.
#[local] Hint Resolve vets_hops : crawl.

Lemma vets_guarded auth url : vets (guardedFetch oracle parse_url isIP sp auth url).
Proof. unfold guardedFetch. vetting. Qed.
#[local] Hint Resolve vets_guarded : crawl.

Lemma enqueue_all_trace origin depth links (s : St) :
  trace (foldl (λ s raw, enqueue parse_url without_hash sp origin depth raw s) s links) = trace s.
Proof.
  revert s. induction links as [|raw links IH]; intros s; [done|]. cbn [foldl]. rewrite IH. unfold enqueue. by repeat case_match.
Qed.

Lemma vets_crawlOne auth origin item : vets (crawlOne oracle parse_url without_hash isIP sp auth origin item).
Proof. unfold crawlOne, robotsAllows, isAllowed, wait, fetchPage, enqueueLinks. vetting. apply vets_still. intros s. apply enqueue_all_trace. Qed.
#[local] Hint Resolve vets_crawlOne : crawl.

Lemma vets_loop n auth origin : vets (crawl_loop oracle parse_url without_hash isIP sp n auth origin).
Proof.
  induction n as [|n IH]; cbn [crawl_loop]; [vetting|]. apply vets_bind; [|intros []; vetting]. unfold crawl_turn. vetting.
  apply vets_still. intros s. unfold next_item. by destruct (queue s).
Qed.
#[local] Hint Resolve vets_loop : crawl.

Lemma vets_run n : vets (runCrawl oracle parse_url without_hash isIP sp n).
Proof. unfold runCrawl, resolveAuthHeader. vetting. Qed.

(** C9 (safety): the source requests a URL, a page, a redirect's target or a
    robots.txt, only when the guard cleared it right before: private targets
    are allowed by the manifest, or the URL is http(s), its host is not a
    loopback name and is an address that is not blocked, or was resolved with
    the call just before into addresses none of which is blocked. *)
Theorem every_fetch_vetted turns w pre e post url auth :
  trace (runCrawl oracle parse_url without_hash isIP sp turns (idle w)).1 = pre ++ e :: post →
  fetch_of e = Some (url, auth) → cleared pre url.
Proof. intros E He. destruct (vets_run turns (idle w)) as (seg&Eseg&H). rewrite Eseg in E. by eapply H. Qed.

(** ** What an entry does to the frontier *)

(** Neither a delivery, nor a bearer sent to an origin outside [G]. *)
Definition discreet (G : string → Prop) (e : Event) : Prop :=
  (match projT1 e with CYield _ => False | _ => True end) ∧
  (∀ url auth, fetch_of e = Some (url, Some auth) → ∃ u, parse_url url None = Some u ∧ G (u_origin u)).

Definition calm (G : string → Prop) {A} (m : eff St A) : Prop := ∀ s,
  visited (m s).1 = visited s ∧ queue (m s).1 = queue s ∧ ∃ seg, trace (m s).1 = trace s ++ seg ∧ Forall (discreet G) seg.

Lemma calm_still G {A} (m : eff St A) :
  (∀ s, visited (m s).1 = visited s ∧ queue (m s).1 = queue s ∧ trace (m s).1 = trace s) → calm G m.
Proof. intros H s. destruct (H s) as (->&->&->). split_and!; [done..|]. exists []. by rewrite app_nil_r. Qed.
Lemma calm_bind G {A B} (m : eff St A) (f : A → eff St B) : calm G m → (∀ a, calm G (f a)) → calm G (m ≫= f).
Proof.
  intros Hm Hf s. rewrite eff_bind_eq. destruct (Hm s) as (V1&Q1&seg1&T1&F1). destruct (m s) as [s1 [a|e]]; cbn in *; [|by eauto].
  destruct (Hf a s1) as (V2&Q2&seg2&T2&F2). split_and!; [congruence..|]. exists (seg1 ++ seg2).
  rewrite T2, T1, app_assoc. split; [done|by apply Forall_app].
Qed.
Lemma calm_try G {A} (m : eff St A) h : calm G m → (∀ e, calm G (h e)) → calm G (try_catch m h).
Proof.
  intros Hm Hf s. unfold try_catch. destruct (Hm s) as (V1&Q1&seg1&T1&F1). destruct (m s) as [s1 [a|e]]; cbn in *; [by eauto|].
  destruct (Hf e s1) as (V2&Q2&seg2&T2&F2). split_and!; [congruence..|]. exists (seg1 ++ seg2).
  rewrite T2, T1, app_assoc. split; [done|by apply Forall_app].
Qed.
Lemma calm_perform G c : (∀ r, discreet G (existT c r)) → calm G (perform c).
Proof.
  intros Hc s. unfold RagFetch.perform. destruct (oracle c _) as [w r]. split_and!; [done..|]. exists [existT c r]. split; [done|]. constructor; [apply Hc|constructor].
Qed.

Lemma calm_url_bind G {B} raw base (f : URL → eff St B) :
  (∀ u, parse_url raw base = Some u → calm G (f u)) → calm G (url_or_throw parse_url raw base ≫= f).
Proof. intros H. unfold url_or_throw. destruct (parse_url raw base) as [u|]; [exact (H u eq_refl)|by apply calm_still]. Qed.

Ltac calming :=
  repeat first
    [ match goal with |- calm _ (perform ?c) => apply (calm_perform _ c); by intros end
    | by eauto with crawl nocore
    | apply calm_bind; [|intros]
    | apply calm_try; [|intros]
    | match goal with |- calm _ (match ?x with _ => _ end) => destruct x eqn:? end
    | match goal with |- calm _ (let _ := _ in _) => cbv zeta end
    | by apply calm_still ].

Lemma calm_url G raw base : calm G (url_or_throw parse_url raw base : eff St URL).
Proof. apply calm_still. intros s. unfold url_or_throw. by destruct (parse_url raw base). Qed.
#[local] Hint Resolve calm_url : crawl.

Lemma calm_assert G url : calm G (assertPublicUrl oracle parse_url isIP sp url).
Proof. unfold assertPublicUrl, assertHostnameResolvesPublic, blocked. calming. Qed.
#[local] Hint Resolve calm_assert : crawl.

Lemma calm_hops (G : string → Prop) n auth origin start url : G origin → calm G (hops oracle parse_url isIP sp n auth origin start url).
Proof.
  intros HG. revert url. induction n as [|n IH]; intros url; cbn [hops]; [by apply calm_still|].
  apply calm_bind; [apply calm_assert|intros _]. apply calm_url_bind. intros u Eu.
  apply calm_bind; [|intros res; calming]. unfold fetch_with_timeout. apply calm_try; [|intros; calming].
  apply calm_perform. intros r. split; [done|]. cbn. intros url' h [= <- Ha]. exists u. split; [done|].
  destruct (truthy auth); [|done]. case_bool_decide as Ho; [|done]. by rewrite Ho.
Qed.

Lemma calm_guarded (G : string → Prop) auth start :
  (∀ u, parse_url start None = Some u → G (u_origin u)) → calm G (guardedFetch oracle parse_url isIP sp auth start).
Proof.
  intros HG. unfold guardedFetch. apply calm_url_bind. intros u Eu. by apply calm_hops, HG.
Qed.
#[local] Hint Resolve calm_guarded : crawl.

(** ** The frontier *)

(** [new] entries of depth [d + 1] are added. *)
Definition extends (origin : string) (d : Z) (new : list QueueItem) (s s' : St) : Prop :=
  queue s' = queue s ++ new ∧ (∀ x, x ∈ visited s' ↔ x ∈ visited s ∨ x ∈ (q_url <$> new)) ∧
  NoDup (q_url <$> new) ∧ (∀ x, x ∈ (q_url <$> new) → x ∉ visited s) ∧
  Forall (λ i, q_depth i = d + 1 ∧ (same_origin sp = true → ∀ u, parse_url (q_url i) None = Some u → u_origin u = origin)) new.

Lemma extends_nil origin d s s' : visited s' = visited s → queue s' = queue s → extends origin d [] s s'.
Proof.
  unfold extends. intros -> ->. rewrite app_nil_r. split_and!; try done; [|constructor|by intros x ?%elem_of_nil].
  intros x. split; [by left|]. intros [?|?%elem_of_nil]; done.
Qed.

Lemma enqueue_extends origin d raw s :
  ∃ new, extends origin d new s (enqueue parse_url without_hash sp origin d raw s) ∧ (length new ≤ 1)%nat.
Proof.
  unfold enqueue. set (next := canonicalize _ _ raw). case_bool_decide as Hv; [exists []; split; [by apply extends_nil|cbn; lia]|].
  destruct (parse_url next None) as [u|] eqn:Eu; [|exists []; split; [by apply extends_nil|cbn; lia]].
  case_bool_decide; cbn [negb]; [|exists []; split; [by apply extends_nil|cbn; lia]].
  destruct (same_origin sp && _) eqn:Eo; [exists []; split; [by apply extends_nil|cbn; lia]|].
  exists [mkItem next (d + 1)]. split; [|cbn; lia]. unfold extends. cbn. split_and!.
  - done.
  - intros x. rewrite elem_of_union, elem_of_singleton, list_elem_of_singleton. tauto.
  - repeat constructor. by intros ?%elem_of_nil.
  - by intros x ->%list_elem_of_singleton.
  - repeat constructor. cbn. rewrite Eu. intros Hs ? [= <-]. rewrite Hs in Eo. cbn in Eo. by apply negb_false_iff, bool_decide_eq_true in Eo.
Qed.

Lemma extends_app origin d new1 new2 s1 s2 s3 :
  extends origin d new1 s1 s2 → extends origin d new2 s2 s3 → extends origin d (new1 ++ new2) s1 s3.
Proof.
  intros (Q1&V1&N1&D1&F1) (Q2&V2&N2&D2&F2). unfold extends. rewrite fmap_app. split_and!.
  - by rewrite Q2, Q1, app_assoc.
  - intros x. rewrite V2, V1, elem_of_app. tauto.
  - apply NoDup_app. split_and!; [done| |done]. intros x H1 H2. apply D2 in H2. apply H2, V1. by right.
  - intros x [H|H]%elem_of_app; [by apply D1|]. apply D2 in H. intros Hx. apply H, V1. by left.
  - by apply Forall_app.
Qed.

Lemma enqueue_all_extends origin d links s :
  ∃ new, extends origin d new s (foldl (λ s raw, enqueue parse_url without_hash sp origin d raw s) s links) ∧
    (length new ≤ length links)%nat.
Proof.
  revert s. induction links as [|raw links IH]; intros s; cbn [foldl].
  - exists []. split; [by apply extends_nil|done].
  - destruct (enqueue_extends origin d raw s) as (n1&H1&L1). destruct (IH (enqueue parse_url without_hash sp origin d raw s)) as (n2&H2&L2).
    exists (n1 ++ n2). split; [by eapply extends_app|]. rewrite length_app. cbn. lia.
Qed.

Lemma hrefs_length skip html : (length (hrefs skip html) ≤ String.length html)%nat.
Proof.
  revert skip. induction html as [|c html IH]; intros skip; cbn [hrefs String.length length]; [lia|].
  destruct skip as [|n]; [|specialize (IH n); lia].
  destruct (href_span _) as [[[|n] v]|]; [specialize (IH 0%nat); lia|specialize (IH n); cbn; lia|specialize (IH 0%nat); lia].
Qed.
Lemma resolve_links_length base seen raw : (length (resolve_links parse_url base seen raw) ≤ length raw)%nat.
Proof.
  revert seen. induction raw as [|href raw IH]; intros seen; cbn [resolve_links length]; [lia|].
  destruct (parse_url href _) as [u|]; [|specialize (IH seen); lia]. case_bool_decide; [specialize (IH seen); lia|].
  specialize (IH (u_href u :: seen)). cbn. lia.
Qed.

(** ** One entry *)

(** Bodies have at most [B] characters. *)
Definition bounded (B : nat) : Prop := ∀ ref w t, (oracle (CText ref) w).2 = Ok t → (String.length t ≤ B)%nat.

Section entry.
Context (B : nat).
Context (G : string → Prop) (auth : option string) (origin : string) (item : QueueItem).
Context (robots_origin : ∀ raw u r, parse_url raw None = Some u →
  parse_url (u_origin u +:+ "/robots.txt") None = Some r → u_origin r = u_origin u).
Context (at_home : ∀ u, parse_url (q_url item) None = Some u → G (u_origin u)).

(** What an entry does, and what it returns. *)
Definition entered {A} (m : eff St A) (Q : A → Prop) : Prop := ∀ s, ∃ new seg,
  extends origin (q_depth item) new s (m s).1 ∧ (bounded B → (length new ≤ B)%nat) ∧ (new = [] ∨ q_depth item < max_depth sp) ∧
  trace (m s).1 = trace s ++ seg ∧ Forall (discreet G) seg ∧ ∀ a, (m s).2 = Ok a → Q a.

Lemma entered_calm {A B'} (m : eff St A) (f : A → eff St B') Q : calm G m → (∀ a, entered (f a) Q) → entered (m ≫= f) Q.
Proof.
  intros Hm Hf s. rewrite eff_bind_eq. destruct (Hm s) as (V&E&seg&T&F). destruct (m s) as [s1 [a|e]]; cbn in *.
  - destruct (Hf a s1) as (new&seg2&Hx&L&D&T2&F2&Ha). exists new, (seg ++ seg2). split_and!; try done.
    + destruct Hx as (Q1&V1&N1&D1&F1). unfold extends. rewrite <-V, <-E. by split_and!.
    + by rewrite T2, T, app_assoc.
    + by apply Forall_app.
  - exists [], seg. split_and!; try done; [by apply extends_nil|by intros; cbn; lia|by left].
Qed.
Lemma entered_still {A} (m : eff St A) (Q : A → Prop) : (∀ s, (m s).1 = s ∧ ∀ a, (m s).2 = Ok a → Q a) → entered m Q.
Proof.
  intros H s. destruct (H s) as [E Ha]. exists [], []. rewrite E, app_nil_r. split_and!; try done; [by apply extends_nil|by intros; cbn; lia|by left].
Qed.
Lemma entered_text {B'} ref (f : string → eff St B') Q :
  (∀ t, (bounded B → (String.length t ≤ B)%nat) → entered (f t) Q) → entered (perform (CText ref) ≫= f) Q.
Proof.
  intros Hf s. rewrite eff_bind_eq. unfold RagFetch.perform. assert (bounded B → ∀ t, (oracle (CText ref) (st_world s)).2 = Ok t → (String.length t ≤ B)%nat) as Hb by eauto.
  destruct (oracle (CText ref) _) as [w r]. cbn in Hb. set (s1 := set_world _ _ s). destruct r as [t|e].
  - destruct (Hf t (λ H, Hb H t eq_refl) s1) as (new&seg&Hx&L&D&T&F&Ha). exists new, (existT (CText ref) (Ok t) :: seg).
    split_and!; try done; [by rewrite T; cbn; rewrite <-app_assoc|]. by constructor.
  - exists [], [existT (CText ref) (Err e)]. split_and!; try done; [by apply extends_nil|by intros; cbn; lia|by left|by repeat constructor].
Qed.

Definition named (r : bool * option RawDoc) : Prop := ∀ doc, r.2 = Some doc → d_id doc = q_url item ∧ d_depth doc = q_depth item.

Lemma calm_robots url : parse_url (q_url item) None = Some url → calm G (robotsAllows oracle parse_url isIP sp auth url (q_url item)).
Proof.
  intros Hu. unfold robotsAllows, isAllowed.
  assert (calm G (guardedFetch oracle parse_url isIP sp auth (u_origin url +:+ "/robots.txt"))) as Hg.
  { apply calm_guarded. intros r Hr. rewrite (robots_origin _ _ _ Hu Hr). by apply at_home. }
  calming.
Qed.

Lemma entered_url {B'} raw base (f : URL → eff St B') Q :
  (∀ u, parse_url raw base = Some u → entered (f u) Q) → entered (url_or_throw parse_url raw base ≫= f) Q.
Proof. intros H. unfold url_or_throw. destruct (parse_url raw base) as [u|]; [exact (H u eq_refl)|by apply entered_still]. Qed.

Lemma entered_ret {A} (a : A) (Q : A → Prop) : Q a → entered (mret a) Q.
Proof. intros H. apply entered_still. intros s. split; [done|]. by intros ? [= <-]. Qed.
Lemma entered_none stop : entered (mret (stop, None)) named.
Proof. apply entered_ret. by intros doc. Qed.

Lemma crawlOne_entered : entered (crawlOne oracle parse_url without_hash isIP sp auth origin item) named.
Proof.
  unfold crawlOne. apply entered_url. intros url Eu. apply entered_calm; [calming|]. intros [|]; cbn [negb]; [|by apply entered_none].
  apply entered_calm; [by apply calm_robots|]. intros [|]; cbn [negb]; [|by apply entered_none].
  unfold wait. apply entered_calm; [calming|]. intros [|]; [by apply entered_none|].
  apply entered_calm; [unfold fetchPage; calming|]. intros [res|]; [|by apply entered_none].
  apply entered_text. intros html Hlen. apply entered_calm; [calming|]. intros at_.
  set (isHtml := _ || _). destruct (isHtml && _) eqn:Ed; [|by apply entered_ret; intros ? [= <-]].
  apply andb_true_iff in Ed as [_ Ed%Z.ltb_lt]. intros s. rewrite eff_bind_eq. unfold enqueueLinks. cbn [modify].
  destruct (enqueue_all_extends origin (q_depth item) (extractLinks parse_url html url) s) as (new&Hx&Hn).
  exists new, []. rewrite app_nil_r. split_and!; try done.
  - intros HB. specialize (Hlen HB). unfold extractLinks in Hn. pose proof (resolve_links_length (u_href url) [] (hrefs 0 html)). pose proof (hrefs_length 0 html). lia.
  - by right.
  - apply enqueue_all_trace.
  - by intros ? [= <-] ? [= <-].
Qed.
End entry.

(** ** The whole crawl *)

Section whole.
Context (robots_origin : ∀ raw u r, parse_url raw None = Some u →
  parse_url (u_origin u +:+ "/robots.txt") None = Some r → u_origin r = u_origin u).
Context (canonical_origin : ∀ raw u r, parse_url raw None = Some u →
  parse_url (without_hash u) None = Some r → u_origin r = u_origin u).
Context (depth_nonneg : 0 ≤ max_depth sp).

Definition delivered : list Event → list RawDoc :=
  omap (λ e : Event, match projT1 e with CYield doc => Some doc | _ => None end).

(** At home as long as the crawl is to stay there. *)
Definition home (origin o : string) : Prop := same_origin sp = true → o = origin.
Definition at_home (origin url : string) : Prop := ∀ u, parse_url url None = Some u → home origin (u_origin u).
Definition item_ok (origin : string) (i : QueueItem) : Prop := 0 ≤ q_depth i ≤ max_depth sp ∧ at_home origin (q_url i).
Definition doc_ok (origin : string) (d : RawDoc) : Prop := 0 ≤ d_depth d ≤ max_depth sp ∧ at_home origin (d_id d).
Definition bearer_ok (origin : string) (e : Event) : Prop :=
  ∀ url auth, fetch_of e = Some (url, Some auth) → ∃ u, parse_url url None = Some u ∧ home origin (u_origin u).

(** The invariant between two turns; [now] is the entry in hand. *)
Definition inv (origin : string) (now : list QueueItem) (s : St) : Prop :=
  let urls := (d_id <$> delivered (trace s)) ++ (q_url <$> now ++ queue s) in
  NoDup urls ∧ (∀ x, x ∈ urls → x ∈ visited s) ∧ Forall (item_ok origin) (now ++ queue s) ∧
  Forall (doc_ok origin) (delivered (trace s)) ∧ Forall (bearer_ok origin) (trace s).

Lemma discreet_delivered G seg : Forall (discreet G) seg → delivered seg = [].
Proof.
  induction 1 as [|e seg He _ IH]; [done|]. destruct e as [c r], He as [He _]. cbn in *. by destruct c.
Qed.
Lemma discreet_bearer origin seg : Forall (discreet (home origin)) seg → Forall (bearer_ok origin) seg.
Proof. intros F. eapply Forall_impl; [exact F|]. by intros e [_ H]. Qed.

Lemma inv_calm origin now {A} (m : eff St A) s : calm (home origin) m → inv origin now s → inv origin now (m s).1.
Proof.
  intros Hm (N&V&I&D&T). destruct (Hm s) as (Ev&Eq&seg&Et&F). unfold inv.
  assert (delivered (trace (m s).1) = delivered (trace s)) as Ed.
  { rewrite Et. unfold delivered. rewrite omap_app. fold delivered. by rewrite (discreet_delivered _ _ F), app_nil_r. }
  rewrite Ed, Eq, Ev. split_and!; try done. rewrite Et. apply Forall_app. split; [done|by apply discreet_bearer].
Qed.

Lemma inv_entered origin item Q s auth :
  inv origin [item] s → entered 0 (home origin) origin item (crawlOne oracle parse_url without_hash isIP sp auth origin item) Q →
  inv origin [item] (crawlOne oracle parse_url without_hash isIP sp auth origin item s).1.
Proof.
  intros (N&V&I&D&T) H. destruct (H s) as (new&seg&(Eq&Ev&Nn&Fn&On)&_&Hd&Et&F&_). unfold inv.
  assert (delivered (trace (crawlOne oracle parse_url without_hash isIP sp auth origin item s).1) = delivered (trace s)) as Ed.
  { rewrite Et. unfold delivered. rewrite omap_app. fold delivered. by rewrite (discreet_delivered _ _ F), app_nil_r. }
  rewrite Ed, Eq, !fmap_app in *. rewrite !app_assoc in *. split_and!.
  - apply NoDup_app. split_and!; [done| |done]. intros x Hx Hn. by apply (Fn x Hn), V.
  - intros x. rewrite elem_of_app, Ev. intros [Hx|Hx]; [left; by apply V|by right].
  - apply Forall_app. split; [done|]. apply Forall_app in I as [[[? ?] _]%Forall_cons _]. destruct Hd as [->|Hd]; [constructor|].
    eapply Forall_impl; [exact On|]. intros i [Ei Hi]. split; [lia|]. intros u Hu Hs. by eapply Hi.
  - done.
  - rewrite Et. apply Forall_app. split; [done|by apply discreet_bearer].
Qed.

Lemma inv_drop origin item s : inv origin [item] s → inv origin [] s.
Proof.
  unfold inv. intros (N&V&I&D&T). rewrite fmap_app in *. cbn [fmap list_fmap app] in *. apply Forall_cons in I as [_ I]. split_and!; try done.
  - apply NoDup_app in N as (N1&N2&N3). apply NoDup_cons in N3 as [_ N3]. apply NoDup_app. split_and!; [done| |done].
    intros x Hx Hq. apply (N2 x Hx). by right.
  - intros x Hx. apply V. apply elem_of_app in Hx as [Hx|Hx]; apply elem_of_app; [by left|]. right. by right.
Qed.

Lemma inv_yield origin item doc r w s :
  inv origin [item] s → d_id doc = q_url item → d_depth doc = q_depth item →
  inv origin [] (set_world w (existT (CYield doc) r) s).
Proof.
  unfold inv. intros (N&V&I&D&T) Ei Ed. unfold set_world, delivered in *. cbn [trace queue visited] in *. rewrite omap_app. cbn [omap list_omap projT1].
  rewrite !fmap_app in *. cbn [fmap list_fmap app] in *. rewrite Ei, <-app_assoc. apply Forall_cons in I as [[Id Ih] I]. split_and!; try done.
  - apply Forall_app. split; [done|]. constructor; [|constructor]. split; [by rewrite Ed|by rewrite Ei].
  - apply Forall_app. split; [done|]. constructor; [|constructor]. by intros url auth H.
Qed.

(** Pages in a crawl of depth [d], when none has more than [B] links. *)
Fixpoint pages (B d : nat) : nat := match d with O => 1 | S d => 1 + B * pages B d end.
Definition cost (B : nat) (i : QueueItem) : nat := pages B (Z.to_nat (max_depth sp - q_depth i)).
Definition weight (B : nat) (q : list QueueItem) : nat := sum_list_with (cost B) q.

Lemma weight_new B (item : QueueItem) (new : list QueueItem) : (length new ≤ B)%nat → (new = [] ∨ q_depth item < max_depth sp) →
  Forall (λ i, q_depth i = q_depth item + 1) new → (weight B new < cost B item)%nat.
Proof.
  intros Hl Hd Hn. unfold weight, cost. destruct Hd as [->|Hd].
  { cbn. destruct (Z.to_nat _); cbn; lia. }
  replace (Z.to_nat (max_depth sp - q_depth item)) with (S (Z.to_nat (max_depth sp - q_depth item - 1))) by lia.
  set (p := Z.to_nat (max_depth sp - q_depth item - 1)). assert (sum_list_with (cost B) new = length new * pages B p)%nat as E.
  { clear Hl. induction Hn as [|i new Hi _ IH]; [done|]. cbn [sum_list_with length]. rewrite IH. unfold cost.
    replace (Z.to_nat (max_depth sp - q_depth i)) with p by lia. lia. }
  unfold cost in E. rewrite E. cbn [pages]. pose proof (Nat.mul_le_mono_r _ _ (pages B p) Hl). lia.
Qed.

Lemma turn_ok auth origin s : inv origin [] s →
  let '(s', r) := crawl_turn oracle parse_url without_hash isIP sp auth origin s in
  inv origin [] s' ∧ ∀ B, bounded B → r = Ok false → (weight B (queue s') < weight B (queue s))%nat.
Proof.
  intros Hinv. unfold crawl_turn. rewrite eff_bind_eq. cbn [gets]. case_bool_decide as Hq; cbn [negb]; [done|]. rewrite eff_bind_eq.
  pose proof (inv_calm origin [] (perform CAborted) s) as Hab.
  assert (calm (home origin) (perform CAborted)) as Hc by calming. specialize (Hab Hc). destruct (Hc s) as (_&Eq&_).
  destruct (perform CAborted s) as [s1 [[|]|e]]; cbn [fst snd] in *. all: try (split; [by apply Hab|done]).
  rewrite eff_bind_eq. unfold next_item. destruct (queue s1) as [|item rest] eqn:Eq1; [by destruct Hq|].
  set (s2 := set_frontier (visited s1) rest s1). rewrite eff_bind_eq.
  destruct (crawlOne oracle parse_url without_hash isIP sp auth origin item s2) as [s3 r3] eqn:E3. specialize (Hab Hinv).
  assert (inv origin [item] s2) as H2 by (unfold inv, s2; cbn; unfold inv in Hab; by rewrite Eq1 in Hab).
  assert (at_home origin (q_url item)) as Hh by (destruct H2 as (_&_&[[_ H] _]%Forall_cons&_); exact H).
  assert (∀ B, entered B (home origin) origin item (crawlOne oracle parse_url without_hash isIP sp auth origin item) (named item)) as Hent
    by (intros B; by apply crawlOne_entered).
  pose proof (inv_entered origin item _ s2 auth H2 (Hent 0%nat)) as H3. rewrite E3 in H3. cbn [fst] in H3.
  assert (∀ B, bounded B → (weight B (queue s3) < weight B (queue s))%nat) as Hw.
  { intros B HB. destruct (Hent B s2) as (new&seg&(Eq3&_&_&_&On)&Hl&Hd&_). rewrite E3 in Eq3. cbn in Eq3. rewrite Eq3, <-Eq.
    unfold weight. rewrite sum_list_with_app. cbn [sum_list_with]. pose proof (weight_new B item new (Hl HB) Hd) as Hn. unfold weight in Hn.
    assert (Forall (λ i, q_depth i = q_depth item + 1) new) as Ho by (eapply Forall_impl; [exact On|]; by intros i [? _]). specialize (Hn Ho). lia. }
  destruct r3 as [[stop doc]|e]; [|by split; [eapply inv_drop|]]. destruct stop; [by split; [eapply inv_drop|]|].
  destruct (Hent 0%nat s2) as (_&_&_&_&_&_&_&Hnamed). rewrite E3 in Hnamed. specialize (Hnamed _ eq_refl). rewrite eff_bind_eq.
  destruct doc as [doc|]; [|split; [by eapply inv_drop|by intros B HB _; apply Hw]].
  destruct (Hnamed doc eq_refl) as [Ei Ed]. unfold RagFetch.perform. destruct (oracle (CYield doc) _) as [w [u|e]]; (split; [by eapply inv_yield|]); [|done].
  intros B HB _. by apply Hw.
Qed.

Lemma loop_ok n auth origin s : inv origin [] s →
  inv origin [] (crawl_loop oracle parse_url without_hash isIP sp n auth origin s).1 ∧
  ∀ B, bounded B → (weight B (queue s) < n)%nat →
    (crawl_loop oracle parse_url without_hash isIP sp n auth origin s).2 ≠ Ok false ∧
    ∀ k, crawl_loop oracle parse_url without_hash isIP sp (n + k) auth origin s = crawl_loop oracle parse_url without_hash isIP sp n auth origin s.
Proof.
  revert s. induction n as [|n IH]; intros s Hi; [split; [done|intros; lia]|]. cbn [crawl_loop Nat.add]. rewrite eff_bind_eq.
  setoid_rewrite eff_bind_eq. pose proof (turn_ok auth origin s Hi) as Ht.
  destruct (crawl_turn oracle parse_url without_hash isIP sp auth origin s) as [s1 [[|]|e]]; destruct Ht as [Hi1 Hw]; [by split|..|by split].
  destruct (IH s1 Hi1) as [H1 H2]. split; [done|]. intros B HB Hn. apply (H2 B HB). specialize (Hw B HB eq_refl). lia.
Qed.

(** The origin of the source. *)
Definition source_origin : string := match parse_url (s_url sp) None with Some u => u_origin u | None => "" end.

Lemma inv_idle w : inv source_origin [] (idle w : St).
Proof. unfold inv. cbn. split_and!; try constructor. by intros x ?%elem_of_nil. Qed.

Lemma calm_auth G : calm G (resolveAuthHeader oracle sp).
Proof. unfold resolveAuthHeader. calming. Qed.

Lemma inv_start s : inv source_origin [] s → delivered (trace s) = [] → is_Some (parse_url (s_url sp) None) →
  let start := canonicalize parse_url without_hash (s_url sp) in
  inv source_origin [] (set_frontier {[start]} [mkItem start 0] s).
Proof.
  unfold inv, source_origin. intros (_&_&_&_&T) Ed [u Eu]. cbn. rewrite Ed, Eu in *. cbn. split_and!.
  - constructor; [by intros ?%elem_of_nil|constructor].
  - intros x ->%list_elem_of_singleton. set_solver.
  - constructor; [|constructor]. split; [cbn; lia|]. intros r Hr _. cbn in Hr. unfold canonicalize in Hr. rewrite Eu in Hr.
    by eapply canonical_origin.
  - constructor.
  - done.
Qed.

Lemma crawl_ok n w :
  inv source_origin [] (runCrawl oracle parse_url without_hash isIP sp n (idle w)).1 ∧
  ∀ B, bounded B → (pages B (Z.to_nat (max_depth sp)) < n)%nat →
    (runCrawl oracle parse_url without_hash isIP sp n (idle w)).2 ≠ Ok false ∧
    ∀ k, runCrawl oracle parse_url without_hash isIP sp (n + k) (idle w) = runCrawl oracle parse_url without_hash isIP sp n (idle w).
Proof.
  unfold runCrawl. rewrite eff_bind_eq. setoid_rewrite eff_bind_eq.
  pose proof (inv_calm source_origin [] _ (idle w) (calm_auth _) (inv_idle w)) as H.
  destruct (calm_auth (home source_origin) (idle w)) as (_&_&seg&Et&F). pose proof (discreet_delivered _ _ F) as Ed.
  destruct (resolveAuthHeader oracle sp (idle w)) as [s1 [[auth|]|e]]; cbn [fst snd] in *; [|by split..].
  cbn in Et. rewrite <-Et in Ed. unfold url_or_throw. pose proof (inv_start s1 H Ed) as Hs.
  destruct (parse_url (s_url sp) None) as [u|] eqn:Eu; [|by split].
  cbn [mret eff_ret]. rewrite eff_bind_eq. setoid_rewrite eff_bind_eq. cbn [modify].
  assert (u_origin u = source_origin) as Eo by (unfold source_origin; by rewrite Eu). rewrite Eo in *.
  destruct (loop_ok n auth source_origin _ (Hs ltac:(done))) as [H1 H2]. split; [exact H1|]. intros B HB Hn.
  destruct (H2 B HB) as [H3 H4]; [unfold weight, cost; cbn; rewrite Z.sub_0_r; lia|]. split; [exact H3|]. intros k.
  rewrite <-(H4 k), <-Eo. reflexivity.
Qed.


(** C37 (termination): whatever the network answers, when bodies have at most
    [B] characters the crawl is over after the pages of a tree in which every
    page has [B] links and that is as deep as allowed, and one turn; more turns
    change nothing. *)
Theorem crawl_terminates turns w B :
  bounded B → (pages B (Z.to_nat (max_depth sp)) < turns)%nat →
  (runCrawl oracle parse_url without_hash isIP sp turns (idle w)).2 ≠ Ok false ∧
  ∀ more, runCrawl oracle parse_url without_hash isIP sp (turns + more) (idle w) =
          runCrawl oracle parse_url without_hash isIP sp turns (idle w).
Proof. intros HB Hn. exact (proj2 (crawl_ok turns w) B HB Hn). Qed.

End whole.
End props.

(** ** Concrete crawls *)

Module Site.

Definition page (host path : string) : string * URL :=
  ("http://" +:+ host +:+ path, mkURL ("http://" +:+ host +:+ path) ("http://" +:+ host) "http:" host path "").
(** The URLs there are. *)
Definition urls : list (string * URL) :=
  [page "a.test" "/"; page "a.test" "/more"; page "a.test" "/robots.txt"; page "b.test" "/"; page "b.test" "/robots.txt"].
Definition parse (raw : string) (_ : option string) : option URL :=
  snd <$> List.find (λ p, bool_decide (p.1 = raw)) urls.
Definition isIP (s : string) : Z := match parseIpv4 s with Some _ => 4 | None => 0 end.

Definition front : string := "<html> <a href=" +:+ QUOTE +:+ "http://a.test/more" +:+ QUOTE +:+ "> <a href=" +:+ QUOTE +:+ "http://b.test/" +:+ QUOTE +:+ ">".

Definition network (c : @Call unit) (w : unit) : unit * result (Resp c) :=
  (w, Ok (match c return Resp c with
          | CSecret _ => "secret"
          | CResolve _ => ["93.184.216.34"]
          | CFetch url _ _ =>
              if bool_decide (url = "http://a.test/") then mkResponse 200 None (Some "text/html") 1
              else if bool_decide (url ∈ ["http://a.test/more"; "http://b.test/"]) then mkResponse 200 None (Some "text/plain") 2
              else mkResponse 404 None None 0
          | CText ref => if bool_decide (ref = 1) then front else "text"
          | CNow => 0
          | CAborted => false
          | CWait _ | CLog _ _ | CYield _ => tt
          end)).

Definition source (same_origin : bool) : HttpSourceSpec unit :=
  mkSpec "http://a.test/" 1 same_origin false 2 10000 (Some "env:TOKEN") false tt.
Definition crawl (same_origin : bool) : St * result bool :=
  runCrawl network parse u_href isIP (source same_origin) 100 (idle tt).

Lemma parse_known raw u : parse raw None = Some u → raw = u_href u ∧ (raw, u) ∈ urls.
Proof.
  unfold parse. intros H. apply fmap_Some in H as ([raw' u']&H&->). apply List.find_some in H as [H%list_elem_of_In E].
  apply bool_decide_eq_true in E. cbn in E. subst raw'. split; [|done].
  unfold urls in H. repeat (apply elem_of_cons in H as [[= -> ->]|H]; [done|]). by apply elem_of_nil in H.
Qed.
Lemma robots_origin raw u r : parse raw None = Some u → parse (u_origin u +:+ "/robots.txt") None = Some r → u_origin r = u_origin u.
Proof.
  intros [_ H]%parse_known. unfold urls in H. repeat (apply elem_of_cons in H as [[= -> ->]|H]; [by intros [= <-]|]). by apply elem_of_nil in H.
Qed.
Lemma canonical_origin raw u r : parse raw None = Some u → parse (u_href u) None = Some r → u_origin r = u_origin u.
Proof. intros Hu. destruct (parse_known _ _ Hu) as [<- _]. rewrite Hu. by intros [= <-]. Qed.
Lemma bodies : bounded network 100.
Proof. intros ref w t. cbn. case_bool_decide; intros [= <-]; apply Nat.leb_le; vm_compute; reflexivity. Qed.

End Site.

Lemma every_fetch_vetted_witness :
  let l := trace (Site.crawl true).1 in
  let e : @Event unit := existT (CFetch "http://a.test/" (Some "Bearer secret") 10000) (Ok (mkResponse 200 None (Some "text/html") 1)) in
  l = take 8 l ++ e :: drop 9 l ∧ cleared Site.parse Site.isIP (Site.source true) (take 8 l) "http://a.test/".
Proof.
  assert (trace (Site.crawl true).1 = take 8 (trace (Site.crawl true).1) ++
    existT (CFetch "http://a.test/" (Some "Bearer secret") 10000) (Ok (mkResponse 200 None (Some "text/html") 1)) ::
    drop 9 (trace (Site.crawl true).1)) as H by (vm_compute; reflexivity).
  split; [exact H|]. eapply every_fetch_vetted; [exact H|reflexivity].
Defined.


Lemma crawl_terminates_witness :
  (pages 100 1 < 102)%nat ∧ (runCrawl Site.network Site.parse u_href Site.isIP (Site.source true) 102 (idle tt)).2 ≠ Ok false.
Proof.
  split; [apply Nat.ltb_lt; vm_compute; reflexivity|].
  apply (crawl_terminates Site.network Site.parse u_href Site.isIP (Site.source true) Site.robots_origin Site.canonical_origin
    ltac:(done) 102 tt 100 Site.bodies).
  apply Nat.ltb_lt; vm_compute; reflexivity.
Defined.

(** With [same_origin] off, a link is enough for the bearer to leave: the origin
    it is held to is that of the page requested, not of the source. *)
Lemma bearer_follows_links :
  ∃ e, e ∈ trace (Site.crawl false).1 ∧ fetch_of e = Some ("http://b.test/", Some "Bearer secret").
Proof.
  exists (existT (CFetch "http://b.test/" (Some "Bearer secret") 10000) (Ok (mkResponse 200 None (Some "text/plain") 2))).
  split; [|done]. apply list_elem_of_lookup. exists 29%nat. vm_compute. reflexivity.
Qed.
