(* ===== verification/RagRun.v ===== *)
(** * Retrieval pipelines: journal, chunks and runs

    packages/remote/src/rag/pipeline/journal.ts, transforms/markdown-chunk.ts
    and runtime.ts: the file that remembers what was ingested, the splitting of
    documents, and a run over the sources of a manifest.  The documents of a
    source are taken one after the other (concurrency 1) and appending to the
    journal does not fail; [JSON.parse], the digest and times are parameters;
    vector store, fetchers and events are calls of an oracle.  The cost
    estimate and the errors that a fetcher only logs are left out. *)

From S2P Require Import Prelude Trace JsText JsJson JsValues ConsoleMask RagFetch.
From Stdlib Require Import Ascii.

#[local] Open Scope string_scope.
#[local] Open Scope list_scope.
#[local] Open Scope Z_scope.

(** A [RawDoc]. *)
Record Doc := mkRaw { id : string; content : string; metadata : list (string * Json) }.
#[export] Instance Doc_inhabited : Inhabited Doc := populate (mkRaw "" "" []).

(** ** markdown-chunk.ts *)

Module Chunks.

(** [MarkdownChunkTransformSchema] *)
Record ChunkSpec := mkChunkSpec { chunk_size : Z; overlap : Z; preserve_headings : bool }.
Record Section_ := mkSection { path : list string; body : string }.
Record Chunk := mkChunk { c_content : string; headingPath : list string }.

Definition len (s : string) : Z := Z.of_nat (String.length s).
Definition nl : string := String newline EmptyString.

(** At most [n] leading "#", and the rest. *)
Fixpoint hashes (n : nat) (line : string) : nat * string :=
  match n, line with
  | S n', String "#" rest => let '(k, r) := hashes n' rest in (S k, r)
  | _, _ => (O, line)
  end.

Definition parseHeading (line : string) : option (nat * string) :=
  let '(level, rest) := hashes 6 line in
  if bool_decide (level = O) then None else
  match rest with
  | String c t =>
      if bool_decide (c ∈ [" "; "009"]%char) then match trim t with EmptyString => None | title => Some (level, title) end
      else None
  | EmptyString => None
  end.

(** [pathStack], the top first. *)
Definition Stack := list (nat * string).
Definition stack_path (stack : Stack) : list string := rev (stack.*2).

Definition flush (bodyLines : list string) (stack : Stack) (sections : list Section_) : list Section_ :=
  let body := trim (join newline bodyLines) in
  let path := stack_path stack in
  if bool_decide (body = "") && bool_decide (path = []) then sections else sections ++ [mkSection path body].

Fixpoint pop (level : nat) (stack : Stack) : Stack :=
  match stack with
  | (l, title) :: below => if (l <? level)%nat then stack else pop level below
  | [] => []
  end.

Fixpoint walk (lines : list string) (bodyLines : list string) (stack : Stack) (sections : list Section_) : list Section_ :=
  match lines with
  | [] => flush bodyLines stack sections
  | line :: rest =>
      match parseHeading line with
      | Some (level, title) => walk rest [] ((level, title) :: pop level stack) (flush bodyLines stack sections)
      | None => walk rest (bodyLines ++ [line]) stack sections
      end
  end.

Definition splitByHeadings (text : string) : list Section_ :=
  filter (λ s, body s ≠ "" ∨ path s ≠ []) (walk (split_lines text) [] [] []).

(** [split(/\n{2,}/)] *)
Fixpoint split_blank (skip : nat) (s : string) : list string :=
  match s with
  | EmptyString => [EmptyString]
  | String c s' =>
      match skip with
      | S n => split_blank n s'
      | O =>
          match run_of (λ c, bool_decide (c = newline)) s with
          | (String _ (String _ _) as run, _) => EmptyString :: split_blank (String.length run - 1) s'
          | _ => match split_blank 0 s' with x :: xs => String c x :: xs | [] => [] end
          end
      end
  end.

Definition paragraphs (body : string) : list string := filter (λ p, p ≠ "") (trim <$> split_blank 0 body).

Definition nextWindowSeed (current paragraph : string) (overlap : Z) : string :=
  let tail := if (0 <? overlap) && (overlap <? len current) then JsText.slice (Z.to_nat (len current - overlap)) current else "" in
  match tail with EmptyString => paragraph | _ => tail +:+ nl +:+ nl +:+ paragraph end.

(** The chunks of the windows, with what is in the current one. *)
Fixpoint pack (budget overlap : Z) (current : string) (ps : list string) : list string :=
  match ps with
  | [] => match current with EmptyString => [] | _ => [current] end
  | p :: rest =>
      let candidate := match current with EmptyString => p | _ => current +:+ nl +:+ nl +:+ p end in
      if (len candidate <=? budget) || bool_decide (current = "") then pack budget overlap candidate rest
      else current :: pack budget overlap (nextWindowSeed current p overlap) rest
  end.

Definition packSection (sec : Section_) (prefix : string) (budget overlap : Z) : list Chunk :=
  match paragraphs (body sec) with
  | [] => match prefix with EmptyString => [] | _ => [mkChunk (trimEnd prefix) (path sec)] end
  | ps => (λ w, mkChunk (prefix +:+ w) (path sec)) <$> pack budget overlap "" ps
  end.

Fixpoint repeat_hash (n : nat) : string := match n with O => "" | S n => String "#" (repeat_hash n) end.
Definition formatHeadingPrefix (path : list string) : string :=
  String.concat " > " (imap (λ i title, repeat_hash (S i) +:+ " " +:+ title) path).

Definition section_prefix (spec : ChunkSpec) (sec : Section_) : string :=
  if preserve_headings spec && negb (bool_decide (path sec = [])) then formatHeadingPrefix (path sec) +:+ nl +:+ nl else "".
Definition section_budget (spec : ChunkSpec) (sec : Section_) : Z := Z.max 1 (chunk_size spec - len (section_prefix spec sec)).

Definition chunkMarkdown (text : string) (spec : ChunkSpec) : list Chunk :=
  flat_map (λ sec, packSection sec (section_prefix spec sec) (section_budget spec sec) (overlap spec)) (splitByHeadings text).

(** [markdownChunkTransform] on one document. *)
Definition transform (spec : ChunkSpec) (doc : Doc) : list Doc :=
  let chunks := chunkMarkdown (content doc) spec in
  imap (λ i c, mkRaw (id doc +:+ "#" +:+ pretty (Z.of_nat i)) (c_content c)
    (set_field "heading_path" (JArr (JStr <$> headingPath c))
      (set_field "total_chunks" (JNum (Z.of_nat (length chunks)))
        (set_field "chunk_n" (JNum (Z.of_nat i)) (metadata doc))))) chunks.

Definition sample : string :=
  String.concat nl ["# API"; "first"; ""; "second"; "## Auth"; "text"; "### Tokens"; "## Other"; "x"].
Example sections_read :
  (λ s, (path s, body s)) <$> splitByHeadings sample =
  [(["API"], "first" +:+ nl +:+ nl +:+ "second"); (["API"; "Auth"], "text"); (["API"; "Auth"; "Tokens"], ""); (["API"; "Other"], "x")].
Proof. vm_compute. reflexivity. Qed.
Example chunks_read :
  c_content <$> chunkMarkdown sample (mkChunkSpec 14 0 true) =
  ["# API" +:+ nl +:+ nl +:+ "first"; "# API" +:+ nl +:+ nl +:+ "second"; "# API > ## Auth" +:+ nl +:+ nl +:+ "text";
   "# API > ## Auth > ### Tokens"; "# API > ## Other" +:+ nl +:+ nl +:+ "x"].
Proof. vm_compute. reflexivity. Qed.

End Chunks.

(** ** journal.ts *)

Module JournalFile.

Inductive JournalEntry :=
| RunStarted (ts spec_hash : string) (sources : list string)
| SourceStarted (ts source : string)
| DocSkipped (ts source doc_id reason : string)
| DocIngested (ts source doc_id sha : string) (chunks : Z) (chunk_ids : list string)
| DocWouldIngest (ts source doc_id sha : string) (chunks : Z) (chunk_ids : list string)
| SourceComplete (ts source : string) (docs chunks errors : Z)
| RunComplete (ts : string) (total_docs total_chunks elapsed_ms : Z)
| EntryError (ts : string) (source doc_id : option string) (message : string).

Definition texts (l : list string) : Json := JArr (JStr <$> l).
Definition optional (key : string) (v : option string) : list (string * Json) :=
  match v with Some s => [(key, JStr s)] | None => [] end.
Definition ingested_fields (kind ts source doc_id sha : string) (chunks : Z) (chunk_ids : list string) : list (string * Json) :=
  [("kind", JStr kind); ("ts", JStr ts); ("source", JStr source); ("doc_id", JStr doc_id); ("sha", JStr sha);
   ("chunks", JNum chunks); ("chunk_ids", texts chunk_ids)].

Definition entry_json (e : JournalEntry) : Json :=
  JObj match e with
  | RunStarted ts h sources => [("kind", JStr "run-started"); ("ts", JStr ts); ("spec_hash", JStr h); ("sources", texts sources)]
  | SourceStarted ts source => [("kind", JStr "source-started"); ("ts", JStr ts); ("source", JStr source)]
  | DocSkipped ts source doc reason =>
      [("kind", JStr "doc-skipped"); ("ts", JStr ts); ("source", JStr source); ("doc_id", JStr doc); ("reason", JStr reason)]
  | DocIngested ts source doc sha n ids => ingested_fields "doc-ingested" ts source doc sha n ids
  | DocWouldIngest ts source doc sha n ids => ingested_fields "doc-would-ingest" ts source doc sha n ids
  | SourceComplete ts source docs chunks errors =>
      [("kind", JStr "source-complete"); ("ts", JStr ts); ("source", JStr source); ("docs", JNum docs); ("chunks", JNum chunks); ("errors", JNum errors)]
  | RunComplete ts docs chunks ms =>
      [("kind", JStr "run-complete"); ("ts", JStr ts); ("total_docs", JNum docs); ("total_chunks", JNum chunks); ("elapsed_ms", JNum ms)]
  | EntryError ts source doc message =>
      [("kind", JStr "error"); ("ts", JStr ts)] ++ optional "source" source ++ [("message", JStr message)] ++ optional "doc_id" doc
  end.

Record PriorIngestion := mkPrior { p_sha : string; p_chunk_ids : list string }.
(** [seen] and [prior]. *)
Record Index := mkIndex { seen : gset string; prior : gmap string (list PriorIngestion) }.

Definition NUL : string := String "000"%char EmptyString.
Definition key (source doc_id sha : string) : string := source +:+ NUL +:+ doc_id +:+ NUL +:+ sha.
Definition docKey (source doc_id : string) : string := source +:+ NUL +:+ doc_id.

Definition empty_index : Index := mkIndex ∅ ∅.
Definition record_ingestion (source doc_id sha : string) (chunk_ids : list string) (ix : Index) : Index :=
  mkIndex ({[key source doc_id sha]} ∪ seen ix)
    (<[docKey source doc_id := default [] (prior ix !! docKey source doc_id) ++ [mkPrior sha chunk_ids]]> (prior ix)).

Definition as_text (v : option Json) : option string := match v with Some (JStr s) => Some s | _ => None end.
(** Chunk ids of a journal are texts; others are dropped here. *)
Definition as_ids (v : option Json) : list string :=
  match v with Some (JArr l) => omap (λ x, as_text (Some x)) l | _ => [] end.

Section journal.
Context (json_parse : string → option Json).

Definition parseDocIngestedLine (line : string) : option (string * string * string * list string) :=
  match trim line with
  | EmptyString => None
  | trimmed =>
      entry ← json_parse trimmed;
      if bool_decide (as_text (opt_get (Some entry) "kind") = Some "doc-ingested") then
        source ← as_text (opt_get (Some entry) "source");
        doc_id ← as_text (opt_get (Some entry) "doc_id");
        sha ← as_text (opt_get (Some entry) "sha");
        Some (source, doc_id, sha, as_ids (opt_get (Some entry) "chunk_ids"))
      else None
  end.

Definition load_line (ix : Index) (line : string) : Index :=
  match parseDocIngestedLine line with
  | Some (source, doc_id, sha, ids) => record_ingestion source doc_id sha ids ix
  | None => ix
  end.
Definition loadIndexes (raw : string) : Index := foldl load_line empty_index (JsText.split newline raw).

(** An open journal: its file and its indexes. *)
Record Journal := mkJournal { j_file : string; j_index : Index }.

(** [None]: there is no file yet. *)
Definition openJournal (file : option string) : Journal :=
  match file with Some raw => mkJournal raw (loadIndexes raw) | None => mkJournal "" empty_index end.

Definition append (e : JournalEntry) (j : Journal) : Journal :=
  mkJournal (j_file j +:+ (stringify (entry_json e) +:+ String newline EmptyString))
    match e with
    | DocIngested _ source doc_id sha _ ids => record_ingestion source doc_id sha ids (j_index j)
    | _ => j_index j
    end.

Definition is_seen (source doc_id sha : string) (j : Journal) : bool := bool_decide (key source doc_id sha ∈ seen (j_index j)).
Definition priorIngestions (source doc_id : string) (j : Journal) : list PriorIngestion :=
  default [] (prior (j_index j) !! docKey source doc_id).

End journal.
End JournalFile.

(** ** runtime.ts *)

Module Runs.
Import JournalFile.

Inductive OnDuplicate := Skip | Replace | Version.
#[export] Instance OnDuplicate_eq : EqDecision OnDuplicate.
Proof. solve_decision. Defined.

Record Source := mkSource { s_kind : string; s_known : bool }.   (* whether there is a fetcher of the kind *)

(** What a run uses of a manifest; [m_transforms] are markdown chunkers. *)
Record Manifest := mkManifest {
  m_name : string; m_ragNode : string; m_collection : string; m_sources : list Source; m_transforms : list Chunks.ChunkSpec;
  m_on_duplicate : OnDuplicate; m_json : Json
}.

Record SourceSummary := mkSourceSummary { ss_source : string; ss_docs : Z; ss_chunks : Z; ss_errors : Z }.
Record RunSummary := mkSummary {
  total_docs : Z; total_chunks : Z; skipped_docs : Z; errors : Z; elapsed_ms : Z; per_source : list SourceSummary
}.

Definition BATCH_SIZE : nat := 20.

Section run.
Context {World : Type}.

Inductive Call :=
| COpen (ragNode : string)
| CFetch (label : string) (source : Source)      (* the documents, and the error that the loop ends with *)
| CAborted
| CStore (collection : string) (docs : list Doc)
| CDelete (collection : string) (ids : list string)
| CClose
| CStartRun (name : string) (labels : list string)
| CEndRun (name : string)
| CNow
| CTimestamp.

Definition Resp (c : Call) : Type :=
  match c with
  | COpen _ => bool                              (* whether the adapter can delete *)
  | CFetch _ _ => list Doc * option string
  | CAborted => bool
  | CNow => Z
  | CTimestamp => string
  | _ => unit
  end.

Context (oracle : ∀ c : Call, World → World * result (Resp c)) (sha256 : string → string).
Context (manifest : Manifest) (dryRun : bool).

Record St := mkSt { st_world : World; journal : Journal; calls : list Call }.
Notation M := (eff St).

Definition perform (c : Call) : M (Resp c) := λ s,
  let '(w, r) := oracle c (st_world s) in (mkSt w (journal s) (calls s ++ [c]), r).
Definition write (e : JournalEntry) : M unit := modify (λ s, mkSt (st_world s) (append e (journal s)) (calls s)).

(** An entry with the time it is made at. *)
Definition note (e : string → JournalEntry) : M unit := ts ← perform CTimestamp; write (e ts).
Definition appendErrorEntry (label message : string) (doc_id : option string) : M unit :=
  note (λ ts, EntryError ts (Some label) doc_id message).

Definition applyTransforms (rawDoc : Doc) : list Doc :=
  match foldl (λ stream t, flat_map (Chunks.transform t) stream) [rawDoc] (m_transforms manifest) with [] => [rawDoc] | out => out end.

Definition injectIdSuffix (chunkId docId suffix : string) : string :=
  if bool_decide (chunkId = docId) then docId +:+ suffix
  else if startsWith docId chunkId then docId +:+ suffix +:+ JsText.slice (String.length docId) chunkId
  else chunkId +:+ suffix.

Definition sha12 (sha : string) : string := String.substring 0 12 sha.
Definition versionChunkIdSuffix (label docId sha : string) (j : Journal) : string :=
  match m_on_duplicate manifest with
  | Version => match priorIngestions label docId j with [] => "" | _ => "@" +:+ sha12 sha end
  | _ => ""
  end.

Definition applyChunkIdSuffix (chunks : list Doc) (docId sha suffix : string) : list Doc :=
  match suffix with
  | EmptyString => chunks
  | _ => (λ c, mkRaw (injectIdSuffix (id c) docId suffix) (content c)
            (set_field "version_sha" (JStr (sha12 sha)) (set_field "orig_doc_id" (JStr docId) (metadata c)))) <$> chunks
  end.

(** In order of first occurrence, each once. *)
Fixpoint dedupe (acc : list string) (ids : list string) : list string :=
  match ids with [] => acc | x :: rest => dedupe (if bool_decide (x ∈ acc) then acc else acc ++ [x]) rest end.
Definition collectPriorChunkIds (label docId : string) (j : Journal) : list string :=
  dedupe [] (flat_map p_chunk_ids (priorIngestions label docId j)).

Definition replacePriorChunks (can_delete : bool) (label docId : string) : M bool :=
  priorIds ← gets (λ s, collectPriorChunkIds label docId (journal s));
  match priorIds with
  | [] => mret false
  | _ =>
      if negb can_delete then
        appendErrorEntry label ("on_duplicate=replace requested but adapter has no delete binding — skipping pre-delete for " +:+ docId) (Some docId);;
        mret false
      else try_catch (perform (CDelete (m_collection manifest) priorIds);; mret false) (λ e,
        appendErrorEntry label ("replace-delete failed for " +:+ docId +:+ ": " +:+ e) (Some docId);; mret true)
  end.

(** Batches of [BATCH_SIZE], from the [i]th chunk on. *)
Fixpoint storeChunkBatches (fuel i : nat) (label docId : string) (storedChunks : list Doc) : M bool :=
  match fuel, storedChunks with
  | S fuel, _ :: _ =>
      failed ← try_catch (perform (CStore (m_collection manifest) (take BATCH_SIZE storedChunks));; mret false) (λ e,
        appendErrorEntry label ("store failed for " +:+ docId +:+ " batch@" +:+ pretty (Z.of_nat i) +:+ ": " +:+ e) (Some docId);; mret true);
      if failed : bool then mret true else storeChunkBatches fuel (i + BATCH_SIZE) label docId (drop BATCH_SIZE storedChunks)
  | _, _ => mret false
  end.

(** Skipped, errored, chunks. *)
Definition processDoc (can_delete : bool) (label : string) (rawDoc : Doc) : M (bool * bool * Z) :=
  let sha := sha256 (content rawDoc) in
  known ← gets (λ s, is_seen label (id rawDoc) sha (journal s));
  if known : bool then
    note (λ ts, DocSkipped ts label (id rawDoc) "duplicate");; mret (true, false, 0)
  else
    let chunks := applyTransforms rawDoc in
    suffix ← gets (λ s, versionChunkIdSuffix label (id rawDoc) sha (journal s));
    let storedChunks := applyChunkIdSuffix chunks (id rawDoc) sha suffix in
    let n := Z.of_nat (length storedChunks) in
    errored ← (if dryRun then mret false else
      deleteFailed ← (if bool_decide (m_on_duplicate manifest = Replace) then replacePriorChunks can_delete label (id rawDoc) else mret false);
      storeFailed ← storeChunkBatches (length storedChunks) 0 label (id rawDoc) storedChunks;
      mret (deleteFailed || storeFailed));
    (if errored : bool then mret tt else
       note (λ ts, (if dryRun then DocWouldIngest else DocIngested) ts label (id rawDoc) sha n (id <$> storedChunks)));;
    mret (false, errored, n).

Record PerSourceTally := mkTally { t_docs : Z; t_chunks : Z; t_skipped : Z; t_errors : Z }.

Definition count (outcome : bool * bool * Z) (t : PerSourceTally) : PerSourceTally :=
  let '(skipped, errored, chunks) := outcome in
  let t := if skipped : bool then mkTally (t_docs t) (t_chunks t) (t_skipped t + 1) (t_errors t)
           else mkTally (t_docs t + 1) (t_chunks t + chunks) (t_skipped t) (t_errors t) in
  if errored : bool then mkTally (t_docs t) (t_chunks t) (t_skipped t) (t_errors t + 1) else t.

(** Whether the loop was left for the signal. *)
Fixpoint processDocs (can_delete : bool) (label : string) (docs : list Doc) (t : PerSourceTally) : M (bool * PerSourceTally) :=
  match docs with
  | [] => mret (false, t)
  | doc :: rest =>
      aborted ← perform CAborted;
      if aborted : bool then mret (true, t) else
      outcome ← processDoc can_delete label doc;
      processDocs can_delete label rest (count outcome t)
  end.

Definition runSource (can_delete : bool) (label : string) (src : Source) : M PerSourceTally :=
  '(docs, failure) ← perform (CFetch label src);
  '(aborted, t) ← processDocs can_delete label docs (mkTally 0 0 0 0);
  match failure with
  | Some e =>
      if aborted : bool then mret t else
      appendErrorEntry label ("fetch loop: " +:+ e) None;;
      mret (mkTally (t_docs t) (t_chunks t) (t_skipped t) (t_errors t + 1))
  | None => mret t
  end.

Definition sourceLabel (pipeline : string) (index : nat) (kind : string) : string :=
  pipeline +:+ ":" +:+ pretty (Z.of_nat index) +:+ ":" +:+ kind.
Definition sourceLabels : list string := imap (λ i s, sourceLabel (m_name manifest) i (s_kind s)) (m_sources manifest).

Definition add_source (label : string) (t : PerSourceTally) (sum : RunSummary) : RunSummary :=
  mkSummary (total_docs sum + t_docs t) (total_chunks sum + t_chunks t) (skipped_docs sum + t_skipped t) (errors sum + t_errors t)
    (elapsed_ms sum) (per_source sum ++ [mkSourceSummary label (t_docs t) (t_chunks t) (t_errors t)]).

Fixpoint run_sources (can_delete : bool) (sources : list (string * Source)) (sum : RunSummary) : M RunSummary :=
  match sources with
  | [] => mret sum
  | (label, src) :: rest =>
      if negb (s_known src) then
        note (λ ts, EntryError ts (Some label) None ("unknown source kind '" +:+ s_kind src +:+ "'"));;
        run_sources can_delete rest (add_source label (mkTally 0 0 0 1) sum)
      else
        note (λ ts, SourceStarted ts label);;
        t ← runSource can_delete label src;
        note (λ ts, SourceComplete ts label (t_docs t) (t_chunks t) (t_errors t));;
        run_sources can_delete rest (add_source label t sum)
  end.

(** [try { m } finally { f }] *)
Definition finally {A} (m : M A) (f : M unit) : M A :=
  a ← try_catch m (λ e, f;; throw e); f;; mret a.

Definition openAdapterOrFail (startedAt : Z) : M bool :=
  try_catch (perform (COpen (m_ragNode manifest))) (λ e,
    note (λ ts, EntryError ts None None ("openAdapter failed: " +:+ e));;
    now ← perform CNow;
    note (λ ts, RunComplete ts 0 0 (now - startedAt));;
    throw e).

Definition run_body (startedAt : Z) : M RunSummary :=
  can_delete ← openAdapterOrFail startedAt;
  sum ← finally (run_sources can_delete (zip sourceLabels (m_sources manifest)) (mkSummary 0 0 0 0 0 []))
          (try_catch (perform CClose) (λ _, mret tt));
  now ← perform CNow;
  note (λ ts, RunComplete ts (total_docs sum) (total_chunks sum) (now - startedAt));;
  mret (mkSummary (total_docs sum) (total_chunks sum) (skipped_docs sum) (errors sum) (now - startedAt) (per_source sum)).

(** From an opened journal on. *)
Definition runPipeline : M RunSummary :=
  startedAt ← perform CNow;
  note (λ ts, RunStarted ts (sha256 (stringify (m_json manifest))) sourceLabels);;
  perform (CStartRun (m_name manifest) sourceLabels);;
  finally (run_body startedAt) (perform (CEndRun (m_name manifest))).

End run.
End Runs.

(** ** Chunks keep the text and a size *)

Module ChunkProps.
Import Chunks.

Definition contains (p s : string) : Prop := ∃ a b, s = a +:+ (p +:+ b).

Lemma len_app a b : len (a +:+ b) = len a + len b.
Proof. unfold len. induction a as [|c a IH]; [done|]. rewrite string_app_cons. cbn [String.length]. lia. Qed.
Lemma len_nonneg s : 0 ≤ len s.
Proof. unfold len. lia. Qed.

Lemma contains_refl p : contains p p.
Proof. exists "", "". by rewrite string_app_empty. Qed.
Lemma contains_left p s t : contains p s → contains p (s +:+ t).
Proof. intros (a&b&->). exists a, (b +:+ t). by rewrite !string_app_assoc. Qed.
Lemma contains_right p s t : contains p s → contains p (t +:+ s).
Proof. intros (a&b&->). exists (t +:+ a), b. by rewrite !string_app_assoc. Qed.
#[local] Hint Resolve contains_refl contains_left contains_right : core.

Lemma slice_len n s : len (JsText.slice n s) = Z.max 0 (len s - Z.of_nat n).
Proof.
  unfold len. revert s. induction n as [|n IH]; intros s; [cbn; lia|]. destruct s as [|c s]; cbn [JsText.slice String.length]; [lia|].
  rewrite IH. lia.
Qed.

Lemma seed_ok current p overlap : 0 ≤ overlap →
  len (nextWindowSeed current p overlap) ≤ overlap + 2 + len p ∧ contains p (nextWindowSeed current p overlap).
Proof.
  intros Ho. unfold nextWindowSeed. destruct ((0 <? overlap) && _) eqn:E; [|split; [lia|done]].
  apply andb_true_iff in E as [?%Z.ltb_lt ?%Z.ltb_lt]. pose proof (slice_len (Z.to_nat (len current - overlap)) current) as Hl.
  destruct (JsText.slice _ _) as [|c t]; [split; [lia|done]|]. split; [|auto].
  rewrite !len_app. change (len nl) with 1. lia.
Qed.

Lemma pack_ok budget overlap L ps current :
  0 ≤ overlap → Forall (λ p, len p ≤ L) ps → len current ≤ Z.max budget (overlap + 2 + L) →
  Forall (λ w, len w ≤ Z.max budget (overlap + 2 + L)) (pack budget overlap current ps) ∧
  ∀ p, p ≠ "" → p ∈ ps ∨ contains p current → ∃ w, w ∈ pack budget overlap current ps ∧ contains p w.
Proof.
  intros Ho. revert current. induction ps as [|q ps IH]; intros current Hps Hc; cbn [pack].
  - destruct current as [|c cur].
    + split; [constructor|]. intros p Hp [Hp'|(a&b&E)]; [by apply elem_of_nil in Hp'|]. by destruct a, p.
    + split; [by repeat constructor|]. intros p Hp [Hp'|Hp']; [by apply elem_of_nil in Hp'|]. exists (String c cur). split; [by left|done].
  - apply Forall_cons in Hps as [Hq Hps]. destruct ((_ <=? budget) || _) eqn:E.
    + set (cand := match current with EmptyString => q | _ => _ end) in *.
      assert (contains q cand ∧ (∀ p, p ≠ "" → contains p current → contains p cand)) as [Hin Hcarry].
      { unfold cand. destruct current as [|c cur]; [split; [done|]; intros p Hp (a&b&Ea); by destruct a, p|]. split; [auto|]. intros p _ Hp. auto. }
      destruct (IH cand) as [H1 H2]; [done| |].
      * apply orb_true_iff in E as [E%Z.leb_le|E%bool_decide_eq_true]; [lia|]. unfold cand. rewrite E. lia.
      * split; [done|]. intros p Hp [[->|Hp']%elem_of_cons|Hp']; apply H2; auto.
    + destruct (seed_ok current q overlap Ho) as [Hs Hsq]. destruct (IH (nextWindowSeed current q overlap)) as [H1 H2]; [done|lia|].
      split; [by constructor|]. intros p Hp [[->|Hp']%elem_of_cons|Hp'].
      * destruct (H2 q Hp) as (w&Hw&Hpw); [by right|]. exists w. split; [by right|done].
      * destruct (H2 p Hp) as (w&Hw&Hpw); [by left|]. exists w. split; [by right|done].
      * exists current. split; [by left|done].
Qed.

Lemma trimEnd_len s : len (trimEnd s) ≤ len s.
Proof.
  unfold len. induction s as [|c s IH]; [done|]. cbn [trimEnd]. destruct (trimEnd s) as [|d t] eqn:E.
  - destruct (is_space c); cbn; lia.
  - cbn [String.length] in *. lia.
Qed.

(** C40 (bounds): every paragraph of a document is in one piece in a chunk that
    carries the headings it is under, and no chunk is longer than the chunk
    size or the overlap, a blank line and the longest paragraph, with the
    heading line; a section without text keeps its headings. *)
Theorem chunks_keep_text text spec L :
  0 ≤ overlap spec →
  (∀ sec p, sec ∈ splitByHeadings text → p ∈ paragraphs (body sec) → len p ≤ L) →
  (∀ sec p, sec ∈ splitByHeadings text → p ∈ paragraphs (body sec) →
     ∃ c, c ∈ chunkMarkdown text spec ∧ headingPath c = path sec ∧ contains p (c_content c)) ∧
  (∀ c, c ∈ chunkMarkdown text spec → ∃ sec, sec ∈ splitByHeadings text ∧ headingPath c = path sec ∧
     len (c_content c) ≤ Z.max (Z.max (chunk_size spec) (len (section_prefix spec sec) + 1))
                               (len (section_prefix spec sec) + overlap spec + 2 + Z.max 0 L)).
Proof.
  intros Ho HL.
  assert (∀ sec, sec ∈ splitByHeadings text → Forall (λ p, len p ≤ Z.max 0 L) (paragraphs (body sec))) as Hps.
  { intros sec Hs. apply Forall_forall. intros p Hp. specialize (HL sec p Hs Hp). lia. }
  split.
  - intros sec p Hs Hp. pose proof (Hps sec Hs) as HF. assert (p ≠ "") as Hne by (unfold paragraphs in Hp; by apply list_elem_of_filter in Hp as [? _]).
    destruct (pack_ok (section_budget spec sec) (overlap spec) (Z.max 0 L) (paragraphs (body sec)) "" Ho HF) as [_ H]; [change (len "") with 0; lia|].
    destruct (H p Hne (or_introl Hp)) as (w&Hw&Hpw). exists (mkChunk (section_prefix spec sec +:+ w) (path sec)). split; [|split; [done|by apply contains_right]].
    unfold chunkMarkdown. apply list_elem_of_In, in_flat_map. exists sec. split; [by apply list_elem_of_In|]. apply list_elem_of_In.
    unfold packSection. destruct (paragraphs (body sec)) as [|q qs] eqn:Eq; [by apply elem_of_nil in Hp|]. apply list_elem_of_fmap. by exists w.
  - intros c Hc. unfold chunkMarkdown in Hc. apply list_elem_of_In, in_flat_map in Hc as (sec&Hs&Hc). apply list_elem_of_In in Hs, Hc.
    exists sec. split; [done|]. pose proof (Hps sec Hs) as HF. unfold packSection in Hc. unfold section_budget in Hc.
    destruct (paragraphs (body sec)) as [|q qs] eqn:Eq.
    + destruct (section_prefix spec sec) as [|x pre] eqn:Ep; [by apply elem_of_nil in Hc|]. apply list_elem_of_singleton in Hc as ->. cbn [c_content headingPath].
      split; [done|]. rewrite <-Ep. pose proof (trimEnd_len (section_prefix spec sec)). lia.
    + apply list_elem_of_fmap in Hc as (w&->&Hw). cbn [c_content headingPath]. split; [done|]. rewrite len_app.
      destruct (pack_ok (Z.max 1 (chunk_size spec - len (section_prefix spec sec))) (overlap spec) (Z.max 0 L) (q :: qs) "" Ho HF) as [H _]; [change (len "") with 0; lia|].
      rewrite Forall_forall in H. specialize (H w Hw). lia.
Qed.

Lemma chunks_keep_text_witness :
  0 ≤ 3 ∧ ∃ c, c ∈ chunkMarkdown sample (mkChunkSpec 14 3 true) ∧ headingPath c = ["API"] ∧ contains "second" (c_content c).
Proof.
  split; [lia|].
  apply (chunks_keep_text sample (mkChunkSpec 14 3 true) 6 ltac:(done)) with (sec := mkSection ["API"] ("first" +:+ nl +:+ nl +:+ "second")).
  - intros sec p Hs Hp.
    assert (forallb (λ s, forallb (λ p, len p <=? 6) (paragraphs (body s))) (splitByHeadings sample) = true) as H by (vm_compute; reflexivity).
    rewrite forallb_forall in H. specialize (H sec (proj1 (list_elem_of_In _ _) Hs)). rewrite forallb_forall in H.
    apply Z.leb_le, (H p), list_elem_of_In, Hp.
  - apply list_elem_of_lookup. exists 0%nat. vm_compute. reflexivity.
  - apply list_elem_of_lookup. exists 1%nat. vm_compute. reflexivity.
Defined.

End ChunkProps.

(** ** The journal remembers *)

Module JournalProps.
Import JournalFile.

(** Lines that are complete. *)
Fixpoint lines_text (lines : list string) : string :=
  match lines with [] => "" | l :: rest => l +:+ String newline (lines_text rest) end.

Lemma split_lines_text lines : Forall (λ l, char_free newline l = true) lines → JsText.split newline (lines_text lines) = lines ++ [""].
Proof. induction 1 as [|l lines Hl _ IH]; [done|]. cbn [lines_text]. rewrite split_cons by done. by rewrite IH. Qed.
Lemma lines_text_snoc lines l : lines_text (lines ++ [l]) = lines_text lines +:+ (l +:+ String newline EmptyString).
Proof.
  induction lines as [|x lines IH]; [done|].
  change (x +:+ String newline (lines_text (lines ++ [l])) = (x +:+ String newline (lines_text lines)) +:+ (l +:+ String newline EmptyString)).
  by rewrite IH, string_app_assoc, string_app_cons.
Qed.

Lemma trimEnd_snoc s c : is_space c = false → trimEnd (s +:+ String c EmptyString) = s +:+ String c EmptyString.
Proof.
  intros Hc. induction s as [|x s IH].
  - change ("" +:+ String c EmptyString) with (String c EmptyString). cbn [trimEnd]. by rewrite Hc.
  - rewrite string_app_cons. cbn [trimEnd]. rewrite IH. by destruct s.
Qed.
Lemma trim_object fs : trim (stringify (JObj fs)) = stringify (JObj fs).
Proof.
  assert (∃ s, stringify (JObj fs) = String "{" (s +:+ String "}" EmptyString)) as (s&->) by (eexists; reflexivity).
  unfold trim. cbn [trimStart]. replace (is_space "{"%char) with false by reflexivity. cbn [trimEnd].
  rewrite trimEnd_snoc by done. by destruct s.
Qed.

Lemma as_ids_texts ids : as_ids (Some (texts ids)) = ids.
Proof. unfold as_ids, texts. induction ids as [|i ids IH]; [done|]. cbn in *. by rewrite IH. Qed.

Section reopened.
Context (json_parse : string → option Json).

Lemma load_entry e ix : json_parse (stringify (entry_json e)) = Some (entry_json e) →
  load_line json_parse ix (stringify (entry_json e)) =
  match e with DocIngested _ source doc_id sha _ ids => record_ingestion source doc_id sha ids ix | _ => ix end.
Proof.
  intros Hp. unfold load_line, parseDocIngestedLine. assert (trim (stringify (entry_json e)) = stringify (entry_json e)) as -> by apply trim_object.
  destruct (stringify (entry_json e)) as [|c t] eqn:E; [by destruct e|]. rewrite Hp. cbn [mbind option_bind].
  destruct e as [| | |ts source doc sha n ids|ts source doc sha n ids| | |ts [source|] [doc|] message]; try done.
  transitivity (record_ingestion source doc sha (as_ids (Some (texts ids))) ix); [reflexivity|]. by rewrite as_ids_texts.
Qed.

Lemma append_file e j : j_file (append e j) = j_file j +:+ (stringify (entry_json e) +:+ String newline EmptyString).
Proof. done. Qed.
Lemma append_index e j : j_index (append e j) =
  match e with DocIngested _ source doc_id sha _ ids => record_ingestion source doc_id sha ids (j_index j) | _ => j_index j end.
Proof. done. Qed.

Lemma appended_index es lines : Forall (λ l, char_free newline l = true) lines →
  Forall (λ e, json_parse (stringify (entry_json e)) = Some (entry_json e)) es →
  let j := foldl (λ j e, append e j) (openJournal json_parse (Some (lines_text lines))) es in
  ∃ lines', Forall (λ l, char_free newline l = true) lines' ∧ j_file j = lines_text lines' ∧ j_index j = foldl (load_line json_parse) empty_index lines'.
Proof.
  intros Hl. revert lines Hl. induction es as [|e es IH] using rev_ind; intros lines Hl Hes; cbv zeta.
  - exists lines. split_and!; [done..|]. cbn. unfold loadIndexes. by rewrite split_lines_text, foldl_app.
  - apply Forall_app in Hes as [Hes [He _]%Forall_cons]. rewrite foldl_app. cbn [foldl]. destruct (IH lines Hl Hes) as (lines'&Hl'&Ef&Ei).
    exists (lines' ++ [stringify (entry_json e)]). split_and!.
    + apply Forall_app. split; [done|]. constructor; [|constructor]. apply Plain_char_free; [apply stringify_plain|by intros ?].
    + by rewrite lines_text_snoc, append_file, Ef.
    + rewrite append_index, foldl_app. cbn [foldl]. by rewrite (load_entry e _ He), <-Ei.
Qed.

(** Opening a journal again gives the indexes that its writer
    had, whatever was appended, when the file it was opened on has complete
    lines. *)
Theorem reopened_journal es lines :
  Forall (λ l, char_free newline l = true) lines →
  Forall (λ e, json_parse (stringify (entry_json e)) = Some (entry_json e)) es →
  let j := foldl (λ j e, append e j) (openJournal json_parse (Some (lines_text lines))) es in
  j_index (openJournal json_parse (Some (j_file j))) = j_index j.
Proof.
  intros Hl Hes j. destruct (appended_index es lines Hl Hes) as (lines'&Hl'&Ef&Ei). fold j in Ef, Ei.
  cbn. rewrite Ef, Ei. unfold loadIndexes. by rewrite split_lines_text, foldl_app.
Qed.
End reopened.

Definition sample_entry : JournalEntry := DocIngested "t" "docs:0:http" "a" "5" 1 ["a#0"].
(** A reader of one line. *)
Definition parse_sample (s : string) : option Json :=
  if bool_decide (s = stringify (entry_json sample_entry)) then Some (entry_json sample_entry) else None.

Lemma reopened_journal_witness :
  let j := foldl (λ j e, append e j) (openJournal parse_sample (Some (lines_text ["torn"]))) [sample_entry] in
  is_seen "docs:0:http" "a" "5" j = true ∧ j_index (openJournal parse_sample (Some (j_file j))) = j_index j.
Proof.
  split; [vm_compute; reflexivity|]. apply (reopened_journal parse_sample [sample_entry] ["torn"]).
  - by repeat constructor.
  - constructor; [|constructor]. vm_compute. reflexivity.
Defined.

(** A line that broke off swallows the entry written after it. *)
Lemma torn_line_swallows :
  let j := append sample_entry (openJournal parse_sample (Some "torn")) in
  is_seen "docs:0:http" "a" "5" j = true ∧
  is_seen "docs:0:http" "a" "5" (openJournal parse_sample (Some (j_file j))) = false.
Proof. vm_compute. split; reflexivity. Qed.

End JournalProps.

(** ** Runs *)

Module RunProps.
Import JournalFile Runs.

Section props.
Context {World : Type} (oracle : ∀ c : Call, World → World * result (Resp c)) (sha256 : string → string).
Context (manifest : Manifest).
Notation St := (@St World).
Notation perform := (perform oracle).
Notation known s := (seen (j_index (journal s))).

(** What a computation that returns leaves in the journal; nothing is
    forgotten.  [Q] speaks of what is known at its end. *)
Definition learns {A} (m : eff St A) (Q : A → gset string → Prop) : Prop := ∀ s,
  known s ⊆ known (m s).1 ∧ ∀ a, (m s).2 = Ok a → Q a (known (m s).1).
Definition anything {A} (a : A) (S : gset string) : Prop := True.

Lemma learns_bind {A B} (m : eff St A) (f : A → eff St B) Q Q' :
  learns m Q → (∀ a, learns (f a) (λ b S, ∀ S0, S0 ⊆ S → Q a S0 → Q' b S)) → learns (m ≫= f) Q'.
Proof.
  intros Hm Hf s. rewrite eff_bind_eq. destruct (Hm s) as [G1 H1]. destruct (m s) as [s1 [a|e]]; cbn in *; [|by split].
  destruct (Hf a s1) as [G2 H2]. split; [set_solver|]. intros b Hb. by eapply H2; [|exact G2|apply H1].
Qed.
Lemma learns_weaken {A} (m : eff St A) (Q Q' : A → gset string → Prop) : learns m Q → (∀ a S, Q a S → Q' a S) → learns m Q'.
Proof. intros H HQ s. destruct (H s) as [G Ha]. split; [done|]. intros a E. by apply HQ, Ha. Qed.
Lemma learns_ret {A} (a : A) (Q : A → gset string → Prop) : (∀ S, Q a S) → learns (mret a) Q.
Proof. intros H s. split; [done|]. by intros ? [= <-]. Qed.
Lemma learns_try {A} (m : eff St A) h Q : learns m Q → (∀ e, learns (h e) Q) → learns (try_catch m h) Q.
Proof.
  intros Hm Hf s. unfold try_catch. destruct (Hm s) as [G1 H1]. destruct (m s) as [s1 [a|e]]; cbn in *; [by split|].
  destruct (Hf e s1) as [G2 H2]. split; [set_solver|done].
Qed.
Lemma learns_perform c : learns (perform c) anything.
Proof. intros s. unfold Runs.perform. destruct (oracle c _) as [w r]. by split. Qed.
Lemma learns_still {A} (m : eff St A) : (∀ s, journal (m s).1 = journal s) → learns m anything.
Proof. intros H s. by rewrite H. Qed.
Lemma learns_write e : learns (write e : eff St unit) anything.
Proof. intros s. split; [|done]. destruct e; cbn; set_solver. Qed.
Lemma learns_note (e : string → JournalEntry) : learns (note oracle e) anything.
Proof. unfold note. eapply learns_bind; [exact (learns_perform CTimestamp)|]. intros ts. eapply learns_weaken; [apply learns_write|]. done. Qed.

(** Any continuation that learns nothing more. *)
Lemma learns_any {A B} (m : eff St A) (f : A → eff St B) : learns m anything → (∀ a, learns (f a) anything) → learns (m ≫= f) anything.
Proof. intros Hm Hf. eapply learns_bind; [exact Hm|]. intros a. eapply learns_weaken; [apply Hf|done]. Qed.
(** A first part that tells nothing. *)
Lemma learns_then {A B} (m : eff St A) (f : A → eff St B) Q : learns m anything → (∀ a, learns (f a) Q) → learns (m ≫= f) Q.
Proof. intros Hm Hf. eapply learns_bind; [exact Hm|]. intros a. eapply learns_weaken; [apply Hf|done]. Qed.

Ltac learning :=
  repeat first
    [ apply learns_note | apply learns_write
    | match goal with |- learns (perform ?c) _ => exact (learns_perform c) end
    | apply learns_any; [|intros]
    | apply learns_try; [|intros]
    | match goal with |- learns (match ?x with _ => _ end) _ => destruct x eqn:? end
    | by apply learns_still ].

Lemma learns_batches fuel i label docId chunks : learns (storeChunkBatches oracle manifest fuel i label docId chunks) anything.
Proof.
  revert i chunks. induction fuel as [|fuel IH]; intros i [|c chunks]; cbn [storeChunkBatches]; try by apply learns_still.
  apply learns_any; [unfold appendErrorEntry; learning|]. intros [|]; [by apply learns_still|apply IH].
Qed.
Lemma learns_replace can_delete label docId : learns (replacePriorChunks oracle manifest can_delete label docId) anything.
Proof. unfold replacePriorChunks, appendErrorEntry. learning. Qed.

Lemma learns_ingested label doc sha n ids :
  learns (note oracle (λ ts, DocIngested ts label doc sha n ids)) (λ _ S, key label doc sha ∈ S).
Proof.
  unfold note. apply learns_then; [exact (learns_perform CTimestamp)|]. intros ts s. split; [cbn; set_solver|]. intros a _. cbn. set_solver.
Qed.

Notation processDoc := (processDoc oracle sha256 manifest false).
Notation doc_key label doc := (key label (id doc) (sha256 (content doc))).

Lemma doc_known can_delete label doc :
  learns (processDoc can_delete label doc) (λ o S, o.1.2 = false → doc_key label doc ∈ S).
Proof.
  intros s. unfold Runs.processDoc. rewrite eff_bind_eq. cbn [gets]. destruct (is_seen _ _ _ _) eqn:Eseen.
  - apply bool_decide_eq_true in Eseen. rewrite eff_bind_eq. destruct (learns_note (λ ts, DocSkipped ts label (id doc) "duplicate") s) as [G _].
    destruct (note _ _ s) as [s1 [[]|e]]; cbn in *; (split; [done|]); [|done]. intros ? [= <-] _. set_solver.
  - match goal with |- _ ∧ _ => idtac end. clear Eseen. revert s.
    match goal with |- ∀ s, known s ⊆ known (?m s).1 ∧ _ => change (learns m (λ o S, o.1.2 = false → doc_key label doc ∈ S)) end.
    apply learns_then; [by apply learns_still|]. intros suffix. apply learns_then.
    { apply learns_any; [case_bool_decide; [apply learns_replace|by apply learns_still]|]. intros df.
      apply learns_any; [apply learns_batches|]. intros sf. by apply learns_still. }
    intros [|].
    + apply learns_then; [by apply learns_still|]. intros _. by apply learns_ret.
    + eapply learns_bind; [apply learns_ingested|]. intros a. apply learns_ret. intros S S0 HS Hk _. set_solver.
Qed.

Lemma learns_answer c (P : Resp c → Prop) : (∀ w a, (oracle c w).2 = Ok a → P a) → learns (perform c) (λ a _, P a).
Proof.
  intros H s. unfold Runs.perform. specialize (H (st_world s)). destruct (oracle c _) as [w r]. split; [done|]. intros a Ha. by apply H.
Qed.
Lemma learns_finally {A} (m : eff St A) f (Q : A → gset string → Prop) :
  learns m Q → learns f anything → (∀ a S S', S ⊆ S' → Q a S → Q a S') → learns (finally m f) Q.
Proof.
  intros Hm Hf HQ. unfold finally. eapply learns_bind with (Q := Q).
  - apply learns_try; [done|]. intros e. apply learns_then; [done|]. intros u s. by split.
  - intros a. apply learns_then; [done|]. intros u. apply learns_ret. intros S S0. by apply HQ.
Qed.

(** *** A source that stays as it is *)

Section same.
Context (docs : string → list Doc).
Context (same_docs : ∀ label src w, (oracle (CFetch label src) w).2 = Ok (docs label, None)).
Context (not_aborted : ∀ w, (oracle CAborted w).2 = Ok false).

Lemma docs_known can_delete label ds t :
  learns (processDocs oracle sha256 manifest false can_delete label ds t)
    (λ r S, t_errors t ≤ t_errors r.2 ∧ (t_errors r.2 = t_errors t → ∀ d, d ∈ ds → doc_key label d ∈ S)).
Proof.
  revert t. induction ds as [|d ds IH]; intros t; cbn [processDocs].
  - apply learns_ret. intros S. split; [cbn; lia|]. by intros _ d ?%elem_of_nil.
  - eapply learns_bind; [apply (learns_answer CAborted (λ a, a = false)); intros w a; rewrite not_aborted; by intros [= <-]|].
    intros aborted. destruct aborted; [apply learns_ret; by intros S S0 _ ?|].
    eapply learns_bind; [apply doc_known|]. intros [[skipped errored] n]. eapply learns_weaken; [apply IH|]. cbn [fst snd].
    intros r S [Hle Hd] S1 H1 Hk S0 H0 _.
    assert (t_errors (count (skipped, errored, n) t) = t_errors t + if errored then 1 else 0) as Ec by (destruct skipped, errored; cbn; lia).
    rewrite Ec in *. split; [destruct errored; lia|]. intros Er d' Hd'. destruct errored; [lia|].
    apply elem_of_cons in Hd' as [->|Hd']; [set_solver|]. apply Hd; [lia|done].
Qed.

Lemma source_known can_delete label src :
  learns (runSource oracle sha256 manifest false can_delete label src)
    (λ t S, 0 ≤ t_errors t ∧ (t_errors t = 0 → ∀ d, d ∈ docs label → doc_key label d ∈ S)).
Proof.
  unfold runSource. eapply learns_bind.
  { apply (learns_answer (CFetch label src) (λ a, a = (docs label, None))). intros w a. rewrite same_docs. by intros [= <-]. }
  intros [ds failure]. eapply learns_bind; [apply docs_known|]. intros [aborted t].
  destruct failure as [e|].
  - destruct aborted.
    + apply learns_ret. intros S S1 _ _ S0 _ [= _ ?].
    + apply learns_then; [apply learns_note|]. intros []. apply learns_ret. intros S S1 _ _ S0 _ [= _ ?].
  - apply learns_ret. intros S S1 H1 [Hle Hd] S0 _ [= ->]. cbn in *. split; [done|]. intros E d Hin. apply H1. by apply Hd.
Qed.

Definition all_known (sources : list (string * Source)) (S : gset string) : Prop :=
  ∀ label src d, (label, src) ∈ sources → d ∈ docs label → doc_key label d ∈ S.

Lemma sources_known can_delete sources sum :
  learns (run_sources oracle sha256 manifest false can_delete sources sum)
    (λ r S, errors sum ≤ errors r ∧ (errors r = errors sum → all_known sources S)).
Proof.
  revert sum. induction sources as [|[label src] sources IH]; intros sum; cbn [run_sources].
  - apply learns_ret. intros S. split; [lia|]. by intros _ label src d ?%elem_of_nil.
  - destruct (s_known src); cbn [negb].
    + apply learns_then; [apply learns_note|]. intros _. eapply learns_bind; [apply source_known|]. intros t.
      apply learns_then; [apply learns_note|]. intros _. eapply learns_weaken; [apply IH|]. cbn.
      intros r S [Hle Hd] S0 H0 [Ht Hk]. split; [lia|]. intros E l s' d Hin Hdoc. apply elem_of_cons in Hin as [[= -> ->]|Hin].
      * apply H0, Hk; [lia|done].
      * eapply Hd; [lia|done|done].
    + apply learns_then; [apply learns_note|]. intros _. eapply learns_weaken; [apply IH|]. cbn. intros r S [Hle Hd]. split; lia.
Qed.

Lemma run_learns :
  learns (runPipeline oracle sha256 manifest false)
    (λ r S, errors r = 0 → all_known (zip (sourceLabels manifest) (m_sources manifest)) S).
Proof.
  unfold runPipeline. apply learns_then; [exact (learns_perform CNow)|]. intros startedAt. apply learns_then; [apply learns_note|]. intros _.
  apply learns_then; [exact (learns_perform (CStartRun _ _))|]. intros _.
  apply learns_finally; [|exact (learns_perform (CEndRun _))|intros r S S' HS H E l src d Hin Hd; apply HS; by eapply H].
  unfold run_body. apply learns_then.
  { unfold openAdapterOrFail. apply learns_try; [exact (learns_perform (COpen _))|]. intros e. learning. }
  intros can_delete. eapply learns_bind.
  { apply learns_finally; [apply sources_known|learning|]. intros r S S' HS [Hle H]. split; [done|]. intros E l src d Hin Hd. apply HS. by eapply H. }
  intros sum. apply learns_then; [exact (learns_perform CNow)|]. intros now. apply learns_then; [apply learns_note|]. intros _.
  apply learns_ret. cbn. intros S S0 HS [_ H] E l src d Hin Hd. apply HS. by eapply H.
Qed.

(** *** A run that has nothing to do *)

Definition silent (c : Call) : Prop := match c with CStore _ _ | CDelete _ _ => False | _ => True end.
Definition ready (s : St) : Prop := all_known (zip (sourceLabels manifest) (m_sources manifest)) (known s).
Definition quiet {A} (m : eff St A) : Prop := ∀ s, ready s →
  ready (m s).1 ∧ ∃ seg, calls (m s).1 = calls s ++ seg ∧ Forall silent seg.

Lemma idle_bind {A B} (m : eff St A) (f : A → eff St B) : quiet m → (∀ a, quiet (f a)) → quiet (m ≫= f).
Proof.
  intros Hm Hf s Hs. rewrite eff_bind_eq. destruct (Hm s Hs) as (R1&seg1&E1&F1). destruct (m s) as [s1 [a|e]]; cbn in *; [|by eauto].
  destruct (Hf a s1 R1) as (R2&seg2&E2&F2). split; [done|]. exists (seg1 ++ seg2). rewrite E2, E1, app_assoc. split; [done|by apply Forall_app].
Qed.
Lemma idle_try {A} (m : eff St A) h : quiet m → (∀ e, quiet (h e)) → quiet (try_catch m h).
Proof.
  intros Hm Hf s Hs. unfold try_catch. destruct (Hm s Hs) as (R1&seg1&E1&F1). destruct (m s) as [s1 [a|e]]; cbn in *; [by eauto|].
  destruct (Hf e s1 R1) as (R2&seg2&E2&F2). split; [done|]. exists (seg1 ++ seg2). rewrite E2, E1, app_assoc. split; [done|by apply Forall_app].
Qed.
Lemma quiet_still {A} (m : eff St A) : (∀ s, (m s).1 = s) → quiet m.
Proof. intros H s Hs. rewrite H. split; [done|]. exists []. by rewrite app_nil_r. Qed.
Lemma idle_perform c : silent c → quiet (perform c).
Proof.
  intros Hc s Hs. unfold Runs.perform. destruct (oracle c _) as [w r]. split; [done|]. exists [c]. by repeat constructor.
Qed.
Lemma quiet_write e : quiet (write e : eff St unit).
Proof.
  intros s Hs. split; [|exists []; by rewrite app_nil_r]. intros l src d Hin Hd. destruct (learns_write e s) as [G _]. apply G. by eapply Hs.
Qed.
Lemma quiet_note (e : string → JournalEntry) : quiet (note oracle e).
Proof. unfold note. apply idle_bind; [by apply (idle_perform CTimestamp)|]. intros ts. apply quiet_write. Qed.

Ltac quieting :=
  repeat first
    [ apply quiet_note
    | match goal with |- quiet (perform ?c) => by apply (idle_perform c) end
    | apply idle_bind; [|intros]
    | apply idle_try; [|intros]
    | match goal with |- quiet (match ?x with _ => _ end) => destruct x eqn:? end
    | by apply quiet_still ].

Lemma quiet_doc can_delete label src d :
  (label, src) ∈ zip (sourceLabels manifest) (m_sources manifest) → d ∈ docs label → quiet (processDoc can_delete label d).
Proof.
  intros Hl Hd s Hs. unfold Runs.processDoc. rewrite eff_bind_eq. cbn [gets]. unfold is_seen.
  rewrite bool_decide_true by (by eapply Hs). revert s Hs. apply idle_bind; [apply quiet_note|]. intros _. by apply quiet_still.
Qed.

Lemma quiet_docs can_delete label src ds t :
  (label, src) ∈ zip (sourceLabels manifest) (m_sources manifest) → (∀ d, d ∈ ds → d ∈ docs label) →
  quiet (processDocs oracle sha256 manifest false can_delete label ds t).
Proof.
  intros Hl. revert t. induction ds as [|d ds IH]; intros t Hds; cbn [processDocs]; [by apply quiet_still|].
  apply idle_bind; [by apply (idle_perform CAborted)|]. intros aborted. destruct aborted; [by apply quiet_still|].
  apply idle_bind; [eapply quiet_doc; [exact Hl|apply Hds; by left]|]. intros o. apply IH. intros d' Hd'. apply Hds. by right.
Qed.

Lemma quiet_source can_delete label src :
  (label, src) ∈ zip (sourceLabels manifest) (m_sources manifest) → quiet (runSource oracle sha256 manifest false can_delete label src).
Proof.
  intros Hl s Hs. unfold runSource. rewrite eff_bind_eq. destruct (idle_perform (CFetch label src) I s Hs) as (R1&seg1&E1&F1).
  pose proof (same_docs label src (st_world s)) as Hd. unfold Runs.perform in *. destruct (oracle (CFetch label src) _) as [w r]. cbn in Hd, R1, E1. subst r.
  match goal with |- context [(?m ≫= ?f) ?s1] => destruct ((idle_bind m f) ltac:(eapply quiet_docs; [exact Hl|done]) ltac:(intros [? ?]; by apply quiet_still) s1 R1) as (R2&seg2&E2&F2) end.
  split; [exact R2|]. exists (seg1 ++ seg2). split; [|by apply Forall_app]. etransitivity; [exact E2|]. cbn [calls]. by rewrite E1, app_assoc.
Qed.

Lemma quiet_sources can_delete sources sum :
  (∀ x, x ∈ sources → x ∈ zip (sourceLabels manifest) (m_sources manifest)) →
  quiet (run_sources oracle sha256 manifest false can_delete sources sum).
Proof.
  revert sum. induction sources as [|[label src] sources IH]; intros sum Hin; cbn [run_sources]; [by apply quiet_still|].
  assert (∀ sum, quiet (run_sources oracle sha256 manifest false can_delete sources sum)) as Hrest
    by (intros; apply IH; intros x Hx; apply Hin; by right).
  destruct (s_known src); cbn [negb]; (apply idle_bind; [apply quiet_note|intros _]); [|apply Hrest].
  apply idle_bind; [apply quiet_source, Hin; by left|]. intros t. apply idle_bind; [apply quiet_note|intros _]. apply Hrest.
Qed.

Lemma quiet_run : quiet (runPipeline oracle sha256 manifest false).
Proof.
  unfold runPipeline, run_body, openAdapterOrFail, finally.
  assert (∀ can_delete sum, quiet (run_sources oracle sha256 manifest false can_delete (zip (sourceLabels manifest) (m_sources manifest)) sum)) as H
    by (intros; by apply quiet_sources).
  repeat first [apply H | progress quieting].
Qed.

(** C39 (functional): after a run without errors, another run over sources that
    still deliver the same documents asks the vector store for nothing, with
    the journal as the first one left it or with more in it, in every mode. *)
Theorem rerun_is_silent s s' sum s2 :
  runPipeline oracle sha256 manifest false s = (s', Ok sum) → errors sum = 0 → known s' ⊆ known s2 →
  ∃ seg, calls (runPipeline oracle sha256 manifest false s2).1 = calls s2 ++ seg ∧ Forall silent seg.
Proof.
  intros E He Hk. destruct (run_learns s) as [_ H]. rewrite E in H. specialize (H sum eq_refl He).
  apply quiet_run. intros l src d Hin Hd. apply Hk. by eapply H.
Qed.

End same.
End props.

(** *** Concrete runs *)

(** One document, "a", with a content, and a vector store. *)
Record Shelf := mkShelf { on_shelf : string; vectors : gmap string string }.
Definition shelf (c : Call) (w : Shelf) : Shelf * result (Resp c) :=
  (match c with
   | CStore _ ds => mkShelf (on_shelf w) (foldl (λ m d, <[id d := content d]> m) (vectors w) ds)
   | CDelete _ ids => mkShelf (on_shelf w) (foldl (λ m i, delete i m) (vectors w) ids)
   | _ => w
   end,
   Ok match c return Resp c with
      | COpen _ => true
      | CFetch _ _ => ([mkRaw "a" (on_shelf w) []], None)
      | CAborted => false
      | CNow => 0
      | CTimestamp => ""
      | CStore _ _ | CDelete _ _ | CClose | CStartRun _ _ | CEndRun _ => tt
      end).
(** A source that always delivers the same. *)
Definition fixed (c : Call) (w : Shelf) : Shelf * result (Resp c) :=
  match c return Shelf * result (Resp c) with
  | CFetch _ _ => (w, Ok ([mkRaw "a" "text" []], None))
  | c => shelf c w
  end.
Definition replacing : Manifest := mkManifest "docs" "rag" "main" [mkSource "filesystem" true] [] Replace JNull.
Definition fresh (content : string) : @St Shelf := mkSt (mkShelf content ∅) (mkJournal "" empty_index) [].
(** The next run, with another content; its journal is that of the last. *)
Definition then_run (content : string) (s : @St Shelf) : @St Shelf :=
  (runPipeline shelf (λ x, x) replacing false (mkSt (mkShelf content (vectors (st_world s))) (journal s) [])).1.

Lemma rerun_is_silent_witness :
  let s' := (runPipeline fixed (λ x, x) replacing false (fresh "")).1 in
  vectors (st_world s') !! "a" = Some "text" ∧
  ∃ seg, calls (runPipeline fixed (λ x, x) replacing false s').1 = calls s' ++ seg ∧ Forall silent seg.
Proof.
  intros s'. split; [vm_compute; reflexivity|].
  destruct (runPipeline fixed (λ x, x) replacing false (fresh "")) as [s1 [sum|e]] eqn:E; [|vm_compute in E; discriminate E].
  apply (rerun_is_silent fixed (λ x, x) replacing (λ _, [mkRaw "a" "text" []]) (λ _ _ _, eq_refl) (λ _, eq_refl) (fresh "") s1 sum s1 E).
  - vm_compute in E. injection E as _ <-. reflexivity.
  - reflexivity.
Defined.

(** With "replace", a document that goes back to what it was before
    is skipped as already ingested although its chunks were deleted for the
    version in between: the store keeps that version. *)
Theorem restored_content_lost :
  let s := then_run "old" (then_run "new" (then_run "old" (fresh ""))) in
  on_shelf (st_world s) = "old" ∧ vectors (st_world s) !! "a" = Some "new" ∧
  Forall silent (calls s) ∧ is_seen "docs:0:filesystem" "a" "old" (journal s) = true.
Proof.
  vm_compute. split; [reflexivity|]. split; [reflexivity|]. split; [|reflexivity]. by repeat constructor.
Qed.

End RunProps.
